(* ===== verification/_CoqProject ===== *)
-Q . S2P
Prelude.v
Arena.v
Text.v
Decimal.v
Json.v
Session.v
Provider.v
Tools.v
History.v
Turn.v
Graph.v
Checkpoint.v
Checkpointer.v
GraphExec.v
GraphRun.v
GraphTheory.v
GraphJoin.v
GraphTerm.v
GraphNodes.v
Models.v
ModelsTheory.v
Chunker.v
VectorStore.v
Rag.v
GraphJson.v
GraphJsonTheory.v
GraphLoad.v
DataSources.v
Sandbox.v
Mcp.v
McpTheory.v
McpWire.v
FsTools.v
FsToolsTheory.v
EngineIpc.v
EngineIpcTheory.v
EngineShm.v
EngineHost.v
EngineHostTheory.v
EngineHostShm.v
EngineRemote.v
EngineRemoteTheory.v
EngineRemoteWire.v
Skills.v
Tasks.v
EngineRegistry.v
EngineProvider.v
EngineProviderTheory.v
SessionInit.v
