(* ===== verification/Prelude.v ===== *)
(** * agent.cpp: a verification library

    agent.cpp is a C++20 library that runs language-model agents: a [Session]
    owns providers, tools, hooks and stores; a _turn_ sends a conversation to a
    provider and runs the tools it asks for until it answers with text; a
    _graph_ chains turns, functions, tools, branches, loops, fan-outs and
    human approvals, and is checkpointed after every step so that a thread can
    be resumed or forked.  Graphs are also read from files; models are loaded
    within a memory budget; documents are indexed for retrieval; tools come
    with the library, from MCP servers, from skills and from the host.  Engines
    are plugins behind a C interface and run in this process or in a host
    process behind pipes and shared memory.  This library models that core and
    proves what makes it correct.

    ** Parts of the program and files of the development

    - [Prelude]: [Result] and [Error] of include/agent-cpp/agent.hpp, 64-bit
      wrap-around, tactics, hints, generic lemmas.
    - [Arena]: src/core/arena.cpp, the bump allocator of a turn.
    - [Text]: the UTF-8 and escaping part of src/core/utils/utils.cpp, and the
      clipping of event values in src/core/graph/graph_executor.cpp.
    - [Decimal]: [std::to_string] and [std::from_chars] as the code uses them.
    - [Json]: the JSON grammar, the writers' common shape, and the interface
      [JsonParserSpec] of the parser.
    - [Session]: the data of include/agent-cpp/agent.hpp; the
      monad [M] of one thread; events, logging, the memory store, statistics and cancellation (src/core/events.cpp,
      src/core/utils/utils.cpp, src/core/memory/, src/core/agent.cpp).
    - [Provider]: src/core/providers/ (dispatch, mock, task selection and
      capability checks); [EngineProvider] has the rest of the engine provider.
    - [Tools]: src/core/tools/ (registry, dispatch, permission gate,
      context_compressor.cpp).
    - [History]: [encode_history_json], [decode_history_json],
      [save_flow_memory] and [load_flow_memory].
    - [Turn]: src/core/executor/turn_executor.cpp (pruning, compression, tool
      rounds, the turn loop).
    - [Graph]: src/core/graph/graph_builders.cpp and the validation of
      src/core/graph/graph_executor.cpp.
    - [Checkpoint]: src/core/graph/graph_checkpoint.cpp and the event log and
      scoped-key persistence.
    - [Checkpointer]: src/core/graph/graph_checkpointer.cpp (in-memory and
      store-backed checkpointers, the Async writer).
    - [GraphExec], [GraphRun]: src/core/graph/graph_executor.cpp, the nodes and
      fan-outs, then running, resuming and forking.
    - [GraphTheory], [GraphJoin], [GraphTerm], [GraphNodes]: theorems about the
      executor.
    - [Models], [ModelsTheory]: src/core/models/model_registry.cpp, memory
      estimates, budget, eviction and leases as a step relation over threads.
    - [Chunker], [VectorStore], [Rag]: src/core/rag/ (chunking, embedding,
      the in-memory vector store, indexing and querying).
    - [GraphJson], [GraphJsonTheory], [GraphLoad]:
      src/core/graph/graph_json.cpp, the graph file format, what a loaded
      graph is, and loading one into a session with its MCP servers.
    - [DataSources]: src/core/data/data_source_registry.cpp.
    - [Sandbox]: src/core/sandbox/sandbox_policy.cpp, the allow-lists of engine
      hosts and MCP servers.
    - [Mcp], [McpTheory], [McpWire]: src/core/mcp/mcp_client.cpp, the JSON-RPC
      transport, the tools of a server and the session glue.
    - [FsTools], [FsToolsTheory]: src/core/tools/filesystem_tools.cpp,
      src/core/tools/terminal_tools.cpp and src/hal/path.cpp.
    - [EngineIpc], [EngineIpcTheory]: src/core/engines/engine_ipc.hpp, the
      frames between the library and an engine host, writers and readers.
    - [EngineShm]: src/core/engines/engine_shm.cpp and .hpp, shared-memory
      segments and their leases.
    - [EngineHost], [EngineHostTheory], [EngineHostShm]:
      tools/engine-host/engine_host.cpp, the reader, the workers and the main
      thread of a host process, and its response segments.
    - [EngineRemote], [EngineRemoteTheory], [EngineRemoteWire]:
      src/core/engines/engine_remote.cpp, the callers of a host: slots, the
      shared reader, time-outs, cancellation, crashes and restarts, and the
      bytes they exchange with the host.
    - [Skills]: src/core/skills/skills_registry.cpp.
    - [Tasks]: src/core/tasks/decide.cpp and ocr.cpp.
    - [EngineRegistry]: src/core/engines/engine_registry.cpp, registered
      engines, plugins and manifests.
    - [EngineProvider], [EngineProviderTheory]:
      src/core/providers/engine_provider.cpp, requests and responses of the C
      interface, starting and running an engine.
    - [SessionInit]: [init] of src/core/agent.cpp, [default_init] of
      src/core/tools/tools_ops.cpp and src/hal/log_file.cpp.

    ** How the state is modelled

    Host code (callbacks, engine plugins, the clock, files) is a function on an
    abstract host state [W], a parameter of every component: the library knows
    nothing about it except what the C++ signature says.  A component runs in
    the thread's view [Rt]: the [Session], the host, the [ambient] thread
    locals (active conversation, allowed tools, hooks, system prompt) and the
    event log.  The conversation a turn works on is the one the thread local
    points at, so that a tool that compresses it and the loop that reads it
    share one object.  The executor adds the chain state [Exec].  A computation
    returns a [Result] beside the new state, so the effects of a failing call
    are visible; a computation that can fail to return answers an option.

    The records of [Session] keep the fields the modelled code reads or writes.
    Sizes are [Z] with the wrap-around of [size_t] written out where the code
    can wrap ([Arena], [Tools], [Provider]); counters of type [int] are [Z].

    MCP servers are objects of the host state, found by their address; a
    remote tool and a data source carry the address they call.  Disconnecting a
    server frees its object; nothing is known of a call at a freed address.  Threads that
    share a structure are step relations with one label per critical section:
    the Async checkpoint writer, the model registry, the threads of an engine
    host and the callers of a remote engine.

    The library and an engine host share one table of segments ([ShmOs]).  In
    the host, the frames an engine sends during a run are appended in one step
    and what the cancel flag reads is part of the step.  A caller of a remote
    engine gives up the mutex between the rounds of its wait; pipe reads, the
    clock (in nanoseconds) and starting a process are answers of the
    environment.  The engine provider sees a host through [RemoteHandle], the
    operations of [EngineRemote]; the callbacks an engine in this process makes
    are performed in order after its run.

    Interfaces between components are type classes.  [JsonParserSpec]: simdjson
    is not part of the repository; what is assumed of it is that a compact
    RFC 8259 text of well-formed UTF-8 parses to the value it denotes, and
    [RefParser] implements it ([JsonWriter] is its [to_string], [JsonSource]
    files and error texts).  [BackendSpec]: what the executor relies on from a
    checkpointer; both checkpointers implement it, and the Async writer is
    verified against it.  [VectorSpec]: what retrieval relies on from a vector
    store; the in-memory store implements it.  [McpSpec]: what the graph loader
    relies on from the MCP client; [mcp_client_spec] is the proof that the
    client keeps it.  [McpHostSpec], [CanonicalSpec], [AbsoluteSpec] and [FsSpec]
    state what is used of the operating system: pipes deliver bytes in order and
    reads take time; a path that canonicalisation resolves (it may fail) is in
    normal form; an absolute path is its own absolute form; files hold what was
    written.  Each has an instance.

    ** What the theorems show

    - Persistence: a checkpoint, an event log, a conversation and the user: and
      app: keys are read back as they were written ([checkpoint_roundtrip],
      [events_roundtrip], [save_load_flow_memory], [scoped_persist_load]); the
      store-backed checkpointer never confuses two threads or steps
      ([store_checkpointer_correct]); the Async writer is first-in first-out,
      a flush waits for everything before it and is always possible
      ([async_writer_fifo], [async_flush_complete], [async_flush_live]).
    - Graph runs: what a call of [run_graph] leaves behind on each exit
      ([run_graph_outcome]); a valid graph always has its next node
      ([validate_exact], [builders_valid], [next_node_exists]); a fan-out joins
      exactly when no key is written twice and then merges every branch
      ([join_exact], [join_merges]); a loop body runs [max_iterations] times
      ([loop_runs_max_iterations]); a call the reviewer denied never runs and
      a restarted thread answers the calls it abandoned
      ([denied_calls_never_run], [abandoned_calls_answered]).
    - Turns: without the compress_context tool, every tool result kept in the
      conversation still follows the assistant message that made the call of its
      id ([turn_keeps_results_answered]); pruning removes whole groups and meets the budget when it can
      ([prune_correct], [prune_meets_budget], [compress_context_correct]).
    - Tools: [default_execute] does what the rules [dispatched] say, and a
      refused tool's callback is never called ([dispatch_refines],
      [refused_tool_never_runs]).
    - Termination on an engine, with callbacks that leave the configuration
      alone: [turn_terminates], [graph_terminates]; and the three cases in which
      the code does not return: [mock_turn_diverges], [nested_fanout_diverges],
      [delete_never_returns].
    - Graph files: the loader always returns, and what it accepts is a valid
      graph on which [run_graph] returns, on an engine ([parsed_graph_valid],
      [parsed_graph_terminates]); a load that fails takes its MCP servers with
      it ([failed_load_rolls_back]).
    - Models: under every interleaving loaded models fit the budget, a lease
      points at a live session, a model is loaded once, and eviction takes the
      least recently used ([registry_within_budget], [lease_session_live],
      [model_loaded_once], [eviction_is_lru]); the budget holds with overcommit
      off, budgets never lowered and no sum of estimates that wraps.
    - Retrieval: chunks cover the text and keep its characters
      ([chunk_text_correct], [chunk_text_keeps_utf8]), the store implements a
      map and a query gives the best entries ([vector_store_refines],
      [query_returns_best]), indexing replaces a document
      ([rag_index_replaces]).
    - MCP: an answer is the response to its own request whatever the chunks of
      the pipe ([request_answer], [request_loop_ends]), connecting and
      disconnecting leaves the session as it was and no tool in it that refers to
      the freed server ([connect_disconnect]),
      requests and binary content survive the wire
      ([request_line_roundtrip], [base64_roundtrip]).
    - Engine processes: whatever the interleaving, every request read is
      answered once ([every_request_answered_once]), a response in shared
      memory stays there until its caller releases it
      ([response_kept_until_release]), a caller that sleeps has a reader
      ([sleeping_caller_has_reader]), no call is left behind by a crash
      ([no_call_left_behind], [host_death_settles_every_call],
      [failed_call_returns]).
    - The wire: requests and responses arrive as they were sent, small parts in
      the frame and large ones in a segment ([run_frame_roundtrip],
      [response_frame_roundtrip]); reads of any size give the same frames
      ([dispatch_ignores_chunking], [frames_reach_their_calls]); bytes from a
      broken peer never decode to a value out of bounds
      ([decoded_values_are_in_bounds]).
    - The C interface: an engine gets the caller's messages and the caller the
      engine's message ([engine_gets_callers_request],
      [caller_gets_engines_response]); an engine marked for a process stays out
      of this one unless the configuration overrides the mark
      ([process_engine_stays_out]); one engine per name
      ([registry_one_engine_per_name]).
    - Sessions, skills, tasks: what [init] refuses and returns ([init_correct]);
      a loaded skill is what use_skill returns, and what it returns comes from
      the SKILL.md files and the directories of the skills
      ([loaded_skill_is_used], [use_skill_contained]); a decision is the
      engine's best option ([decision_is_engines_best]).
    - Sandbox and files: a policy grants what an engine host has a use for and
      nothing else ([engine_policy_correct]); the filesystem tools change only
      paths the sandbox check places in the workspace
      ([sandboxed_tools_confined]), show a file page by page without gap
      ([read_file_pages]) and read back what they wrote ([write_then_read]);
      results are JSON ([command_result_parses]).
    - Memory and text: [arena_blocks_disjoint], [request_buffers_fit],
      [sanitize_utf8_correct], [utf8_prefix_length_correct].
    - Limits of the code, as theorems about concrete inputs:
      [allocate_size_wraps], [compress_plan_wraps], [compress_context_orphans],
      [clip_splits_utf8], [approval_ignores_space], [fits_wraps],
      [tiny_chunks_split_utf8], [subnormal_norm_overflows],
      [stale_chunks_survive], [two_owners_accepted],
      [escaped_path_not_granted], [failed_write_reported_done],
      [small_pages_stall], [lexical_check_leads_out],
      [dead_host_takes_borrowed_response_away],
      [strings_lost_in_a_full_arena], [empty_frontmatter_reads_the_body].

    ** Fuel

    What is not bounded by counters of the code takes fuel.
    [turn_fuel] bounds the iterations of one agent turn; an engine turn makes
    at most [max_tool_call_rounds] rounds plus one retry for rejected media, and
    [turn_terminates] shows that [max_tool_call_rounds + 2] is enough as long as
    the host's hooks leave the session's configuration alone.  [nest]
    bounds the nesting of fan-outs; [graph_terminates] shows that any bound on
    the heights of the fan-outs of a well nested graph is enough.  The steps of a chain need no fuel, because
    [max_steps] bounds them; the retries of a node are bounded by its policy.
    Listing and deleting the checkpoints of a thread in a store count up to the
    latest step: fuel above that step is enough
    ([store_checkpointer_correct]), except at the greatest uint64_t, where the
    loop never ends ([delete_never_returns]).
    The loop of an MCP request makes as many reads as complete before its
    deadline; [request_loop_ends] shows that the bound never ends it.  The work
    lists of the graph loader and the chunking loop have fuel that
    [parsed_graph_valid] and [chunk_text_correct] show to be enough.

    Floating point vectors are the finite and special values of binary32 with
    its rounding (VectorStore), as the Standard Library defines them.

    The step relations of engine hosts and callers need no fuel; the liveness
    theorem [failed_call_returns] counts the steps a call still makes.

    ** Not modelled

    The engine plugins (engines/), which adapt third-party inference libraries
    that are not part of the repository; the operating-system layer (src/hal/)
    except paths, the log file and the policy it is given; the Windows half of
    shared memory; the SQLite store, the model hub and the command-line tool,
    which drive third-party libraries and the terminal; the C bindings,
    examples and tests.  Of the engine host, [main] and its command line, and
    failing writes to its output pipe; there, answering a Create (noting whether
    segments may be used, waiting for the workers, destroying and creating the
    instance) is one step,
    and so is a worker's way from a finished job back to idle; of remote engines, spawning and
    sandboxing the child process, progress callbacks and the diagnostic
    counters.  Destroying a session that [init] gives up.  File, process and
    clock operations are functions of the host.  Branches of a fan-out run in
    index order, as they do without a concurrent engine; the stderr thread of
    an MCP server is a function of its reads.

    ** What could be added

    [append_events] in [BackendSpec] with an end-to-end theorem that an
    interrupted run resumed from its checkpoint continues with the same state;
    the worker slots behind concurrent branches; a refinement of the
    [RemoteHandle] the engine provider uses by the step relation of
    [EngineRemote]. *)
From stdpp Require Import base gmap strings list sorting pretty.
From Stdlib Require Import Lia.

(** ** Errors and results (include/agent-cpp/agent.hpp) *)

Inductive ErrorCode :=
| OkCode
| InvalidConfig
| UnsupportedProvider
| FilesystemError
| ProviderInitFailed
| ModelLoadFailed
| DecodeFailed
| NetworkError
| HttpError
| ParseError
| Cancelled
| KeyNotFound
| ToolCallLimitExceeded
| SandboxViolation
| PermissionDenied
| EngineCrashed
| OutOfMemory
| ToolError.

#[global] Instance ErrorCode_eq_dec : EqDecision ErrorCode.
Proof. solve_decision. Defined.

Record Error := mkError { code : ErrorCode; message : string }.

#[global] Instance Error_eq_dec : EqDecision Error.
Proof. solve_decision. Defined.

(** [Result<T>] is either a value or an error; [Result<void>] is [Result unit]. *)
Inductive Result (T : Type) :=
| Ok (value : T)
| Fail (error : Error).
Arguments Ok {T} value.
Arguments Fail {T} error.

Definition make_error (c : ErrorCode) (m : string) : Error := mkError c m.

Definition fail {T : Type} (c : ErrorCode) (m : string) : Result T := Fail (make_error c m).

Definition is_ok {T : Type} (r : Result T) : bool :=
  match r with Ok _ => true | Fail _ => false end.

(** The [if (!r.ok) return fail(r.error.code, r.error.message)] idiom. *)
Definition result_bind {A B : Type} (r : Result A) (k : A → Result B) : Result B :=
  match r with Ok v => k v | Fail e => Fail e end.

Declare Scope agent_scope.
Delimit Scope agent_scope with agent.

Notation "x <-? r ;; k" := (result_bind r (λ x, k))
  (at level 100, r at next level, right associativity) : agent_scope.

(** ** Machine integers *)

Definition u64_modulus : Z := 18446744073709551616%Z.

(** [uint64_t] / [size_t] arithmetic wraps modulo 2^64. *)
Definition u64 (z : Z) : Z := (z `mod` u64_modulus)%Z.

(** Conversion of an integer to a two's complement 32-bit [int]. *)
Definition i32 (z : Z) : Z :=
  ((z + 2147483648) `mod` 4294967296 - 2147483648)%Z.

(** ** Strings: [std::string] is a sequence of bytes *)

Definition byte_of (c : Ascii.ascii) : N := Ascii.N_of_ascii c.

Definition bytes (s : string) : list Ascii.ascii := String.list_ascii_of_string s.

Definition of_bytes (l : list Ascii.ascii) : string := String.string_of_list_ascii l.

Definition is_empty (s : string) : bool :=
  match s with EmptyString => true | _ => false end.

Definition starts_with (prefix s : string) : bool := String.prefix prefix s.

Definition str_eqb (a b : string) : bool := bool_decide (a = b).

Definition to_string (z : Z) : string := pretty z.

Definition nl : string := String (Ascii.ascii_of_nat 10) EmptyString.

(** ** [std::map]: a finite map iterated in ascending key order *)

Definition key_le (a b : string) : Prop := String.leb a b = true.

#[global] Instance key_le_dec (a b : string) : Decision (key_le a b).
Proof. unfold key_le. apply _. Defined.

Definition item_le {V : Type} (a b : string * V) : Prop := key_le (fst a) (fst b).

#[global] Instance item_le_dec {V : Type} (a b : string * V) : Decision (item_le a b).
Proof. unfold item_le. apply _. Defined.

Definition map_items {V : Type} (m : gmap string V) : list (string * V) :=
  merge_sort item_le (map_to_list m).

Definition set_items (s : gset string) : list string := merge_sort key_le (elements s).

(** [insert_or_assign] of every item of a list, in order. *)
Definition insert_all {V : Type} (items : list (string * V)) (m : gmap string V) : gmap string V :=
  foldl (λ acc kv, <[kv.1 := kv.2]> acc) m items.

(** ** Shared automation *)

Create HintDb agent.
Create Rewrite HintDb agent.

(** Splits every hypothesis that is a conjunction, an existential or an
    equation between constructors. *)
Ltac crush_hyps :=
  repeat match goal with
    | H : _ ∧ _ |- _ => destruct H
    | H : ∃ _, _ |- _ => destruct H
    | H : Ok _ = Ok _ |- _ => injection H as H
    | H : Ok _ = Fail _ |- _ => discriminate H
    | H : Fail _ = Ok _ |- _ => discriminate H
    | H : (_, _) = (_, _) |- _ => injection H as ? H
    end; subst.

(** Case analysis on the innermost conditional or match of a hypothesis. *)
Ltac step_match H :=
  match type of H with
  | context [match ?x with _ => _ end] =>
      lazymatch x with
      | context [match _ with _ => _ end] => fail
      | _ => let E := fresh "E" in destruct x eqn:E
      end
  end.

Ltac step_goal :=
  match goal with
  | |- context [match ?x with _ => _ end] =>
      lazymatch x with
      | context [match _ with _ => _ end] => fail
      | _ => let E := fresh "E" in destruct x eqn:E
      end
  end.

(** ** Lemmas on results *)

Lemma result_bind_ok {A B : Type} (r : Result A) (k : A → Result B) (b : B) :
  result_bind r k = Ok b ↔ ∃ a, r = Ok a ∧ k a = Ok b.
Proof. destruct r as [a|e]; simpl; [|split; [done|by intros (? & ? & _)]].
  split; [by eauto|]. intros (a' & [= <-] & H). done. Qed.

(** ** Lemmas on machine integers *)

Lemma u64_small (z : Z) : (0 ≤ z < u64_modulus)%Z → u64 z = z.
Proof. unfold u64. apply Z.mod_small. Qed.

Lemma u64_range (z : Z) : (0 ≤ u64 z < u64_modulus)%Z.
Proof. unfold u64. apply Z.mod_pos_bound. done. Qed.

Lemma i32_small (z : Z) : (-2147483648 ≤ z < 2147483648)%Z → i32 z = z.
Proof. intros. unfold i32. rewrite Z.mod_small; lia. Qed.

(** ** Lemmas on strings as byte lists *)

Lemma of_bytes_bytes (s : string) : of_bytes (bytes s) = s.
Proof. apply String.string_of_list_ascii_of_string. Qed.

Lemma bytes_of_bytes (l : list Ascii.ascii) : bytes (of_bytes l) = l.
Proof. apply String.list_ascii_of_string_of_list_ascii. Qed.

Lemma bytes_app (a b : string) : bytes (a +:+ b) = bytes a ++ bytes b.
Proof. induction a as [|c a IH]; simpl; [done|]. by rewrite IH. Qed.

Lemma of_bytes_app (a b : list Ascii.ascii) : of_bytes (a ++ b) = of_bytes a +:+ of_bytes b.
Proof. induction a as [|c a IH]; simpl; [done|]. by rewrite IH. Qed.

Lemma bytes_inj (a b : string) : bytes a = bytes b → a = b.
Proof. intros H. by rewrite <-(of_bytes_bytes a), H, of_bytes_bytes. Qed.

Lemma bytes_length (s : string) : length (bytes s) = String.length s.
Proof. induction s; simpl; congruence. Qed.

Lemma append_assoc (a b c : string) : (a +:+ b) +:+ c = a +:+ (b +:+ c).
Proof. apply bytes_inj. by rewrite !bytes_app, app_assoc. Qed.

Lemma append_nil_r (a : string) : a +:+ "" = a.
Proof. apply bytes_inj. rewrite bytes_app. apply app_nil_r. Qed.

Lemma append_inj_l (a b c : string) : a +:+ b = a +:+ c → b = c.
Proof.
  intros H. apply bytes_inj. apply (f_equal bytes) in H.
  rewrite !bytes_app in H. by apply app_inv_head in H.
Qed.

Lemma is_empty_true (s : string) : is_empty s = true ↔ s = "".
Proof. destruct s; simpl; split; done. Qed.

Lemma is_empty_false (s : string) : is_empty s = false ↔ s ≠ "".
Proof. destruct s; simpl; split; done. Qed.

Lemma str_eqb_true (a b : string) : str_eqb a b = true ↔ a = b.
Proof. unfold str_eqb. by rewrite bool_decide_eq_true. Qed.

Lemma str_eqb_false (a b : string) : str_eqb a b = false ↔ a ≠ b.
Proof. unfold str_eqb. by rewrite bool_decide_eq_false. Qed.

Lemma str_eqb_refl (a : string) : str_eqb a a = true.
Proof. by apply str_eqb_true. Qed.

Lemma starts_with_split p t : starts_with p t = true → ∃ r, t = p +:+ r.
Proof.
  revert t. induction p as [|c p IH]; intros t Ht; [by exists t|]. destruct t as [|d t]; [done|]. cbn in Ht.
  destruct (Ascii.ascii_dec c d) as [->|]; [|done]. destruct (IH t Ht) as [r ->]. by exists r.
Qed.

Lemma starts_with_app p t : starts_with p (p +:+ t) = true.
Proof. unfold starts_with. induction p as [|c p IH]; simpl; [by destruct t|]. by destruct (Ascii.ascii_dec c c). Qed.

(** Two texts that agree up to their first separator. *)
Lemma split_unique {A : Type} (sep : A) (l1 l2 r1 r2 : list A) :
  sep ∉ l1 → sep ∉ l2 → l1 ++ sep :: r1 = l2 ++ sep :: r2 → l1 = l2 ∧ r1 = r2.
Proof.
  revert l2. induction l1 as [|a l1 IH]; intros [|b l2] H1 H2 H; simpl in *; simplify_eq; [done|set_solver|set_solver|].
  destruct (IH l2) as [-> ->]; [set_solver|set_solver|done|done].
Qed.

(** ** Lemmas on maps iterated in key order *)

Lemma map_items_perm {V : Type} (m : gmap string V) : map_items m ≡ₚ map_to_list m.
Proof. apply merge_sort_Permutation. Qed.

Lemma elem_of_map_items {V : Type} (m : gmap string V) (k : string) (v : V) :
  (k, v) ∈ map_items m ↔ m !! k = Some v.
Proof. rewrite map_items_perm. apply elem_of_map_to_list. Qed.

Lemma map_items_NoDup {V : Type} (m : gmap string V) : NoDup (map_items m).*1.
Proof. rewrite map_items_perm. apply NoDup_fst_map_to_list. Qed.

Lemma map_items_empty {V : Type} : map_items (∅ : gmap string V) = [].
Proof. unfold map_items. by rewrite map_to_list_empty. Qed.

Lemma elem_of_set_items (s : gset string) (k : string) : k ∈ set_items s ↔ k ∈ s.
Proof. unfold set_items. by rewrite merge_sort_Permutation, elem_of_elements. Qed.

Lemma insert_all_app {V : Type} (l1 l2 : list (string * V)) (m : gmap string V) :
  insert_all (l1 ++ l2) m = insert_all l2 (insert_all l1 m).
Proof. unfold insert_all. apply foldl_app. Qed.

Lemma insert_all_notin {V : Type} (l : list (string * V)) (m : gmap string V) (k : string) :
  k ∉ l.*1 → insert_all l m !! k = m !! k.
Proof.
  revert m. induction l as [|[k' v'] l IH]; intros m Hk; [done|].
  simpl in *. apply not_elem_of_cons in Hk as [Hne Hk].
  unfold insert_all in *. simpl. rewrite IH by done. by rewrite lookup_insert_ne.
Qed.

Lemma insert_all_lookup {V : Type} (l : list (string * V)) (m : gmap string V) (k : string) (v : V) :
  NoDup l.*1 → (k, v) ∈ l → insert_all l m !! k = Some v.
Proof.
  revert m. induction l as [|[k' v'] l IH]; intros m Hnd Hin; [set_solver|].
  simpl in Hnd. apply NoDup_cons in Hnd as [Hni Hnd].
  apply elem_of_cons in Hin as [Heq|Hin].
  - simplify_eq. change (insert_all l (<[k':=v']> m) !! k' = Some v').
    rewrite insert_all_notin by done. apply lookup_insert_eq.
  - apply IH; done.
Qed.

(** Loading every item of one map over another is left-biased union. *)
Lemma insert_all_map_items {V : Type} (m1 m2 : gmap string V) :
  insert_all (map_items m1) m2 = m1 ∪ m2.
Proof.
  apply map_eq. intros k. destruct (m1 !! k) as [v|] eqn:E.
  - rewrite (lookup_union_Some_l _ _ _ v) by done.
    apply insert_all_lookup; [apply map_items_NoDup|by apply elem_of_map_items].
  - rewrite lookup_union_r by done. apply insert_all_notin.
    intros ([k' v] & ? & Hin)%list_elem_of_fmap. simpl in *. subst.
    apply elem_of_map_items in Hin. congruence.
Qed.

(** ** Lemmas on lists of threads *)

(** What the elements of a list contribute, when one of them changes. *)
Section Threads.
Context {A B : Type} (f : A → list B).
Implicit Types (l : list A).

Lemma bind_split l i x : l !! i = Some x → l ≫= f ≡ₚ f x ++ delete i l ≫= f.
Proof. intros Hi. rewrite (delete_Permutation l i x Hi) at 1. by rewrite bind_cons. Qed.

Lemma bind_insert l i x y : l !! i = Some x → <[i := y]> l ≫= f ≡ₚ f y ++ delete i l ≫= f.
Proof.
  intros Hi. assert (Hl : (i < length l)%nat) by (by eapply lookup_lt_Some).
  rewrite (delete_Permutation (<[i := y]> l) i y) by by apply list_lookup_insert_eq.
  rewrite bind_cons, !delete_take_drop, take_insert_ge, drop_insert_lt by lia. done.
Qed.

Lemma bind_same l i x y : l !! i = Some x → f y ≡ₚ f x → <[i := y]> l ≫= f ≡ₚ l ≫= f.
Proof. intros Hi Hf. rewrite (bind_insert _ _ _ _ Hi), (bind_split _ _ _ Hi). by rewrite Hf. Qed.

End Threads.

Lemma submseteq_NoDup {A : Type} (l k : list A) : l ⊆+ k → NoDup k → NoDup l.
Proof. intros [r ->]%submseteq_Permutation. by intros [? _]%NoDup_app. Qed.

Lemma submseteq_Forall {A : Type} (P : A → Prop) (l k : list A) : l ⊆+ k → Forall P k → Forall P l.
Proof. intros [r ->]%submseteq_Permutation. by intros [? _]%Forall_app. Qed.

#[export] Hint Rewrite @result_bind_ok @map_items_empty bytes_app append_assoc append_nil_r : agent.
#[export] Hint Resolve u64_range map_items_NoDup of_bytes_bytes bytes_of_bytes : agent.
