(* ===== verification/Arena.v ===== *)
(** * The per-turn bump allocator (src/core/arena.cpp)

    [Arena] is the slab behind every [MessageView] span of a turn.  Addresses
    and sizes are [size_t] values kept at 64 bits, with the wrap-around of the
    source written out ([u64]); the base address the C++ runtime returns from
    [new char\[capacity\]] is an argument of the constructor.  The theorems
    show that blocks handed out between two resets are aligned, lie inside the
    slab and never overlap, as long as the requested sizes cannot wrap
    [aligned_offset + size]; the last theorem shows that a size that does wrap
    passes the capacity check. *)
From stdpp Require Import base list.
From Stdlib Require Import Lia ZArith.
From S2P Require Import Prelude.

Local Open Scope Z_scope.

Record Arena := mkArena {
  capacity_ : Z;
  ptr_ : option Z;
  offset_ : Z
}.

(** [Arena::Arena(size_t capacity)]: [base] is the address [new] returned. *)
Definition Arena_new (base capacity : Z) : Arena :=
  mkArena capacity (if 0 <? capacity then Some base else None) 0.

(** The move constructor leaves the source empty. *)
Definition Arena_move (other : Arena) : Arena * Arena :=
  (mkArena (capacity_ other) (ptr_ other) (offset_ other), mkArena 0 None 0).

(** [operator=(Arena &&)] between two objects: the target's slab is freed (the
    first component is the pointer passed to [delete\[\]]). *)
Definition Arena_move_assign (self other : Arena) : option Z * Arena * Arena :=
  (ptr_ self, mkArena (capacity_ other) (ptr_ other) (offset_ other), mkArena 0 None 0).

Definition align_up (addr alignment : Z) : Z :=
  let mask := u64 (alignment - 1) in
  Z.land (u64 (addr + mask)) (u64 (Z.lnot mask)).

Definition allocate (a : Arena) (size alignment : Z) : Arena * option Z :=
  match ptr_ a with
  | None => (a, None)
  | Some p =>
      if size =? 0 then (a, None) else
      let aligned_ptr := align_up (u64 (p + offset_ a)) alignment in
      let aligned_offset := u64 (aligned_ptr - p) in
      if capacity_ a <? u64 (aligned_offset + size) then (a, None)
      else (mkArena (capacity_ a) (ptr_ a) (u64 (aligned_offset + size)), Some aligned_ptr)
  end.

Definition reset (a : Arena) : Arena := mkArena (capacity_ a) (ptr_ a) 0.

(** [alignof(std::max_align_t)] on LP64. *)
Definition max_align : Z := 16.

(** [allocate_string]: [None] is the empty view. *)
Definition allocate_string (a : Arena) (src : list Ascii.ascii) : Arena * option (Z * list Ascii.ascii) :=
  match src with
  | [] => (a, None)
  | _ =>
      match allocate a (Z.of_nat (length src)) max_align with
      | (a', Some mem) => (a', Some (mem, src))
      | (a', None) => (a', None)
      end
  end.

(** [allocate_span<T>(count)]: the span's address and element count; an empty
    span is [None].  [sizeof(T) * count] wraps like every [size_t] product. *)
Definition allocate_span (a : Arena) (size_of align_of count : Z) : Arena * option (Z * Z) :=
  if count =? 0 then (a, None)
  else match allocate a (u64 (size_of * count)) align_of with
       | (a', Some mem) => (a', Some (mem, count))
       | (a', None) => (a', None)
       end.

Definition span_size (s : option (Z * Z)) : Z :=
  match s with Some (_, n) => n | None => 0 end.

(** ** A slab that the host can address without wrap-around *)

Record arena_wf (a : Arena) : Prop := {
  wf_cap : 0 ≤ capacity_ a;
  wf_offset : 0 ≤ offset_ a ≤ capacity_ a;
  wf_ptr : ∀ p, ptr_ a = Some p → 0 < p ∧ p + capacity_ a ≤ 2 ^ 63
}.

Definition is_pow2 (al : Z) : Prop := ∃ n, 0 ≤ n ≤ 12 ∧ al = 2 ^ n.

(** A block [\[addr, addr + size)]. *)
Definition block : Type := Z * Z.

Definition disjoint_blocks (b1 b2 : block) : Prop :=
  b1.1 + b1.2 ≤ b2.1 ∨ b2.1 + b2.2 ≤ b1.1.

(** A run of allocation requests [(size, alignment)]: the blocks handed out,
    most recent first. *)
Fixpoint run_allocs (a : Arena) (reqs : list (Z * Z)) (got : list block) : Arena * list block :=
  match reqs with
  | [] => (a, got)
  | (size, al) :: reqs' =>
      match allocate a size al with
      | (a', Some addr) => run_allocs a' reqs' ((addr, size) :: got)
      | (a', None) => run_allocs a' reqs' got
      end
  end.

(** ** Lemmas *)

Lemma lnot_mask_u64 (n : Z) :
  0 ≤ n ≤ 12 → u64 (Z.lnot (2 ^ n - 1)) = u64_modulus - 2 ^ n.
Proof.
  intros Hn. unfold u64, Z.lnot.
  assert (0 < 2 ^ n) by (apply Z.pow_pos_nonneg; lia).
  assert (2 ^ n ≤ 2 ^ 12) by (apply Z.pow_le_mono_r; lia).
  replace (Z.pred (- (2 ^ n - 1))) with (u64_modulus - 2 ^ n + (-1) * u64_modulus) by lia.
  rewrite Z.mod_add by done. apply Z.mod_small. unfold u64_modulus in *. lia.
Qed.

(** Clearing the low [n] bits of a 64-bit value. *)
Lemma land_high_mask (x n : Z) :
  0 ≤ n ≤ 12 → 0 ≤ x < u64_modulus →
  Z.land x (u64_modulus - 2 ^ n) = 2 ^ n * (x / 2 ^ n).
Proof.
  intros Hn Hx. assert (0 < 2 ^ n) by (apply Z.pow_pos_nonneg; lia).
  assert (Hnot : u64_modulus - 2 ^ n = Z.land (Z.ones 64) (Z.lnot (Z.ones n))).
  { rewrite Z.land_comm, Z.land_ones by lia.
    rewrite Z.ones_equiv. unfold Z.lnot.
    replace (Z.pred (- Z.pred (2 ^ n))) with (u64_modulus - 2 ^ n + (-1) * 2 ^ 64)
      by (change u64_modulus with (2 ^ 64); lia).
    rewrite Z.mod_add by done. symmetry. apply Z.mod_small.
    assert (2 ^ n ≤ 2 ^ 12) by (apply Z.pow_le_mono_r; lia).
    unfold u64_modulus in *. lia. }
  rewrite Hnot, Z.land_assoc.
  rewrite (Z.land_ones x 64) by lia. change (2 ^ 64) with u64_modulus.
  rewrite Z.mod_small by done.
  rewrite <-Z.ldiff_land, Z.ldiff_ones_r by lia.
  rewrite Z.shiftl_mul_pow2, Z.shiftr_div_pow2 by lia. lia.
Qed.

Lemma align_up_spec (addr al : Z) :
  is_pow2 al → 0 ≤ addr → addr + 4096 ≤ 2 ^ 64 →
  addr ≤ align_up addr al < addr + al ∧ (al | align_up addr al).
Proof.
  intros (n & Hn & ->) Ha Hb. unfold align_up.
  assert (0 < 2 ^ n) by (apply Z.pow_pos_nonneg; lia).
  assert (2 ^ n ≤ 2 ^ 12) by (apply Z.pow_le_mono_r; lia).
  rewrite (u64_small (2 ^ n - 1)) by (unfold u64_modulus; lia).
  rewrite lnot_mask_u64 by done.
  rewrite (u64_small (addr + _)) by (unfold u64_modulus; lia).
  rewrite land_high_mask by (unfold u64_modulus; lia).
  split; [|apply Z.divide_factor_l].
  pose proof (Z.div_mod (addr + (2 ^ n - 1)) (2 ^ n)).
  pose proof (Z.mod_pos_bound (addr + (2 ^ n - 1)) (2 ^ n)). lia.
Qed.

(** What one successful [allocate] guarantees. *)
Lemma allocate_some (a a' : Arena) (size al addr : Z) :
  arena_wf a → is_pow2 al → 0 ≤ size ≤ 2 ^ 62 →
  allocate a size al = (a', Some addr) →
  ∃ p, ptr_ a = Some p ∧ (al | addr) ∧ p + offset_ a ≤ addr ∧
       addr + size ≤ p + capacity_ a ∧ 0 < size ∧
       a' = mkArena (capacity_ a) (ptr_ a) (addr + size - p).
Proof.
  intros [Hc Ho Hp] Hal Hs. unfold allocate.
  destruct (ptr_ a) as [p|]; [|done]. destruct (Hp p eq_refl) as [Hp0 Hp1].
  destruct (Z.eqb_spec size 0) as [|Hs0]; [done|].
  rewrite (u64_small (p + offset_ a)) by (unfold u64_modulus; lia).
  destruct (align_up_spec (p + offset_ a) al) as [Hr Hd]; [done|lia|lia|].
  destruct Hal as (n & Hn & Heq).
  assert (al ≤ 2 ^ 12) by (subst al; apply Z.pow_le_mono_r; lia).
  remember (align_up (p + offset_ a) al) as ap eqn:Eap.
  rewrite (u64_small (ap - p)) by (unfold u64_modulus; lia).
  rewrite (u64_small (ap - p + size)) by (unfold u64_modulus; lia).
  destruct (Z.ltb_spec (capacity_ a) (ap - p + size)); [done|].
  intros [= <- <-]. exists p.
  repeat (split; [first [done|lia]|]). f_equal. lia.
Qed.

Lemma allocate_none (a a' : Arena) (size al : Z) :
  allocate a size al = (a', None) → a' = a.
Proof. unfold allocate. repeat step_goal; naive_solver. Qed.

Lemma allocate_frame (a a' : Arena) (size al : Z) (r : option Z) :
  allocate a size al = (a', r) → capacity_ a' = capacity_ a ∧ ptr_ a' = ptr_ a.
Proof.
  unfold allocate. intros H. repeat step_match H; injection H as <- <-; simpl; auto.
Qed.

Lemma allocate_wf (a a' : Arena) (size al : Z) (r : option Z) :
  arena_wf a → is_pow2 al → 0 ≤ size ≤ 2 ^ 62 →
  allocate a size al = (a', r) → arena_wf a'.
Proof.
  intros Hwf Hal Hs Halloc. destruct r as [addr|].
  - destruct (allocate_some a a' size al addr) as (p & Hp & _ & Hlo & Hhi & Hpos & ->); [done..|].
    destruct Hwf as [Hc Ho Hpt]. split; simpl; [done|lia|done].
  - by rewrite (allocate_none _ _ _ _ Halloc).
Qed.

(** The blocks of a run lie between the slab's start and the bump offset and
    are pairwise disjoint. *)
Definition blocks_ok (a : Arena) (got : list block) : Prop :=
  ForallOrdPairs disjoint_blocks got ∧
  Forall (λ b, ∃ p, ptr_ a = Some p ∧ p ≤ b.1 ∧ b.1 + b.2 ≤ p + offset_ a) got.

Lemma blocks_ok_step (a a' : Arena) (size al addr : Z) (got : list block) :
  arena_wf a → is_pow2 al → 0 ≤ size ≤ 2 ^ 62 →
  allocate a size al = (a', Some addr) →
  blocks_ok a got → blocks_ok a' ((addr, size) :: got).
Proof.
  intros Hwf Hal Hs Halloc [Hd Hb].
  destruct (allocate_some a a' size al addr) as (p & Hp & _ & Hlo & Hhi & Hpos & ->); [done..|].
  destruct Hwf as [_ Ho _]. split.
  - constructor; [|done]. eapply Forall_impl; [exact Hb|].
    intros [b1 b2] (p' & Hp' & ? & ?). simplify_eq. right. simpl in *. lia.
  - constructor.
    + exists p. simpl. split; [done|lia].
    + eapply Forall_impl; [exact Hb|]. intros [b1 b2] (p' & Hp' & ? & ?).
      exists p'. simplify_eq. simpl in *. split; [done|lia].
Qed.

Lemma run_allocs_ok (reqs : list (Z * Z)) (a : Arena) (got : list block) :
  arena_wf a → Forall (λ r, 0 ≤ r.1 ≤ 2 ^ 62 ∧ is_pow2 r.2) reqs → blocks_ok a got →
  let '(a', got') := run_allocs a reqs got in arena_wf a' ∧ blocks_ok a' got'.
Proof.
  revert a got. induction reqs as [|[size al] reqs IH]; intros a got Hwf Hreqs Hok; [done|].
  apply Forall_cons in Hreqs as [[Hs Hal] Hreqs]. simpl in *.
  destruct (allocate a size al) as [a' [addr|]] eqn:E.
  - apply IH; [by eapply allocate_wf|done|by eapply blocks_ok_step].
  - apply IH; [by eapply allocate_wf|done|]. by rewrite (allocate_none _ _ _ _ E).
Qed.

(** Blocks handed out by any run of allocations after a reset lie inside
    the slab and are pairwise disjoint, whatever mix of sizes and alignments
    is requested (sizes that cannot wrap 64 bits, power-of-two alignments). *)
Theorem arena_blocks_disjoint (a : Arena) (reqs : list (Z * Z)) (p : Z) :
  arena_wf a → ptr_ a = Some p →
  Forall (λ r, 0 ≤ r.1 ≤ 2 ^ 62 ∧ is_pow2 r.2) reqs →
  let '(a', got) := run_allocs (reset a) reqs [] in
  ForallOrdPairs disjoint_blocks got ∧
  Forall (λ b, p ≤ b.1 ∧ b.1 + b.2 ≤ p + capacity_ a) got.
Proof.
  intros Hwf Hp Hreqs.
  assert (Hwf' : arena_wf (reset a)) by (destruct Hwf; split; simpl; [done|lia|done]).
  pose proof (run_allocs_ok reqs (reset a) [] Hwf' Hreqs) as Hrun.
  assert (Hcp : ∀ r x g, capacity_ (run_allocs x r g).1 = capacity_ x ∧ ptr_ (run_allocs x r g).1 = ptr_ x).
  { induction r as [|[s al] r IH]; intros x g; [done|]. simpl.
    destruct (allocate x s al) as [x' o] eqn:E.
    assert (capacity_ x' = capacity_ x ∧ ptr_ x' = ptr_ x) as [H1 H2].
    { by eapply allocate_frame. }
    destruct o; rewrite (proj1 (IH _ _)), (proj2 (IH _ _)); done. }
  pose proof (Hcp reqs (reset a) []) as [Hc1 Hp1].
  destruct (run_allocs (reset a) reqs []) as [a' got]. simpl in *.
  destruct Hrun as [[_ Ho _] [Hd Hb]]; [by repeat constructor|]. split; [done|].
  eapply Forall_impl; [exact Hb|]. intros [b1 b2] (p' & Hp' & ? & ?).
  simpl in *. rewrite Hp1, Hp in Hp'. simplify_eq. lia.
Qed.

Lemma arena_blocks_disjoint_witness :
  let '(a', got) := run_allocs (reset (Arena_new 4104 64)) [(5, 1); (16, 16); (100, 8); (8, 8)] [] in
  ForallOrdPairs disjoint_blocks got ∧
  Forall (λ b, 4104 ≤ b.1 ∧ b.1 + b.2 ≤ 4104 + 64) got.
Proof.
  apply (arena_blocks_disjoint (Arena_new 4104 64) [(5, 1); (16, 16); (100, 8); (8, 8)] 4104).
  - split; simpl; [lia|lia|]. intros p [= <-]. lia.
  - reflexivity.
  - repeat constructor; simpl; try lia;
      [exists 0|exists 4|exists 3|exists 3]; split; (lia || reflexivity).
Defined.

(** The capacity check is done on a wrapped sum: a request of
    [2^64 - 64] bytes on a 128-byte slab with 64 bytes in use is accepted, and
    the bump offset goes back to zero, so the next block overlaps live ones. *)
Theorem allocate_size_wraps :
  allocate (mkArena 128 (Some 4096) 64) (2 ^ 64 - 64) 1 = (mkArena 128 (Some 4096) 0, Some 4160) ∧
  allocate (mkArena 128 (Some 4096) 0) 64 1 = (mkArena 128 (Some 4096) 64, Some 4096).
Proof. split; reflexivity. Qed.
