(* ===== verification/Text.v ===== *)
(** * Byte strings: UTF-8 and JSON escaping (src/core/utils/utils.cpp)

    [utf8_sequence_length], [utf8_prefix_length] and [sanitize_utf8] are
    translated index by index over the bytes of a [std::string].  They are
    compared with the table of well-formed byte sequences of the Unicode
    standard ([wf_seq], [valid_utf8]): sanitizing always yields well-formed
    text, changes nothing that already is, and a prefix cut never splits a
    sequence.  [escape_json_string] writes the body of a JSON string literal;
    [Json] proves that it denotes the string it was given.  The event-log
    clipping of src/core/graph/graph_executor.cpp is here too, because it cuts
    by bytes: the last theorem shows that it can leave malformed UTF-8. *)
From stdpp Require Import base list strings.
From Stdlib Require Import Lia NArith ZifyBool ZifyN ZifyNat.
From S2P Require Import Prelude.

Local Open Scope N_scope.

(** Byte [k] of [s]; the code only reads positions below [s.size()]. *)
Definition byte_at (s : list Ascii.ascii) (k : nat) : N :=
  match s !! k with Some c => byte_of c | None => 0 end.

Definition in_range (lo x hi : N) : bool := (lo <=? x) && (x <=? hi).

Definition is_cont (b : N) : bool := in_range 0x80 b 0xBF.

(** The sequence length a lead byte announces and the range of the second
    byte; length 0 for a byte that starts no sequence. *)
Definition lead_info (c : N) : nat * N * N :=
  if in_range 0xC2 c 0xDF then (2%nat, 0x80, 0xBF)
  else if in_range 0xE0 c 0xEF then
    (3%nat, if c =? 0xE0 then 0xA0 else 0x80, if c =? 0xED then 0x9F else 0xBF)
  else if in_range 0xF0 c 0xF4 then
    (4%nat, if c =? 0xF0 then 0x90 else 0x80, if c =? 0xF4 then 0x8F else 0xBF)
  else (0%nat, 0x80, 0xBF).

Definition utf8_sequence_length (s : list Ascii.ascii) (i : nat) : nat :=
  let c := byte_at s i in
  if c <? 0x80 then 1%nat else
  let '(n, lo, hi) := lead_info c in
  if Nat.eqb n 0 then 0%nat
  else if Nat.ltb (length s) (i + n) then 0%nat
  else if (byte_at s (i + 1) <? lo) || (hi <? byte_at s (i + 1)) then 0%nat
  else if forallb (λ k, is_cont (byte_at s (i + k))) (seq 2 (n - 2)) then n
  else 0%nat.

(** [(c & 0xC0) == 0x80] *)
Definition is_continuation (b : N) : bool := N.land b 0xC0 =? 0x80.

(** The backing-up loop of [utf8_prefix_length]: at most [budget] more steps. *)
Fixpoint back_up (s : list Ascii.ascii) (cut budget : nat) : nat :=
  match budget with
  | O => cut
  | S budget' =>
      if Nat.ltb 0 cut && is_continuation (byte_at s cut)
      then back_up s (cut - 1) budget' else cut
  end.

Definition utf8_prefix_length (s : list Ascii.ascii) (max : nat) : nat :=
  if Nat.leb (length s) max then length s else
  let cut := back_up s max 3 in
  if Nat.eqb cut 0 && is_continuation (byte_at s 0) then max else
  let n := utf8_sequence_length s cut in
  if negb (Nat.eqb n 0) && Nat.leb (cut + n) max then (cut + n)%nat else cut.

(** U+FFFD *)
Definition replacement : list Ascii.ascii :=
  [Ascii.ascii_of_N 0xEF; Ascii.ascii_of_N 0xBF; Ascii.ascii_of_N 0xBD].

(** The first loop of [sanitize_utf8]: the first position that starts no
    well-formed sequence.  Every iteration advances, so [length s] rounds are
    enough. *)
Fixpoint valid_up_to (fuel : nat) (s : list Ascii.ascii) (i : nat) : nat :=
  match fuel with
  | O => i
  | S fuel' =>
      if Nat.ltb i (length s) then
        let n := utf8_sequence_length s i in
        if Nat.eqb n 0 then i else valid_up_to fuel' s (i + n)
      else i
  end.

(** The second loop: what is appended to [out] from position [i] on. *)
Fixpoint sanitize_from (fuel : nat) (s : list Ascii.ascii) (i : nat) : list Ascii.ascii :=
  match fuel with
  | O => []
  | S fuel' =>
      if Nat.ltb i (length s) then
        let n := utf8_sequence_length s i in
        if Nat.eqb n 0 then replacement ++ sanitize_from fuel' s (i + 1)
        else take n (drop i s) ++ sanitize_from fuel' s (i + n)
      else []
  end.

Definition sanitize_utf8 (s : list Ascii.ascii) : list Ascii.ascii :=
  let i := valid_up_to (length s) s 0 in
  if Nat.eqb i (length s) then s
  else take i s ++ sanitize_from (length s) s i.

(** ** JSON string escaping *)

Definition hex_digit (n : N) : Ascii.ascii :=
  Ascii.ascii_of_N (if n <? 10 then 48 + n else 87 + n).

Definition backslash : Ascii.ascii := Ascii.ascii_of_N 92.
Definition dquote : Ascii.ascii := Ascii.ascii_of_N 34.

Definition escape_char (c : Ascii.ascii) : list Ascii.ascii :=
  let b := byte_of c in
  if b =? 34 then [backslash; dquote]
  else if b =? 92 then [backslash; backslash]
  else if b =? 8 then [backslash; Ascii.ascii_of_N 98]
  else if b =? 12 then [backslash; Ascii.ascii_of_N 102]
  else if b =? 10 then [backslash; Ascii.ascii_of_N 110]
  else if b =? 13 then [backslash; Ascii.ascii_of_N 114]
  else if b =? 9 then [backslash; Ascii.ascii_of_N 116]
  else if b <? 0x20 then
    [backslash; Ascii.ascii_of_N 117; Ascii.ascii_of_N 48; Ascii.ascii_of_N 48;
     hex_digit (b / 16); hex_digit (b mod 16)]
  else [c].

(** The text appended to [dst]. *)
Definition escape_bytes (src : list Ascii.ascii) : list Ascii.ascii :=
  concat (map escape_char src).

Definition escape_json_string (src : string) : string := of_bytes (escape_bytes (bytes src)).

(** ** Event-log clipping (src/core/graph/graph_executor.cpp) *)

Definition kPayloadMax : nat := 200.

Definition clip (text : string) : string :=
  if Nat.leb (String.length text) kPayloadMax then text
  else of_bytes (take kPayloadMax (bytes text)) +:+ "...".

(** [text.find(needle)] *)
Fixpoint find_bytes (needle s : list Ascii.ascii) : option nat :=
  if bool_decide (take (length needle) s = needle) then Some 0%nat
  else match s with
       | [] => None
       | _ :: s' => option_map S (find_bytes needle s')
       end.

Definition clip_tool_result (text : string) : string :=
  if Nat.leb (String.length text) kPayloadMax then text else
  match find_bytes (bytes "[attached: ") (bytes text) with
  | None => clip text
  | Some at_ =>
      let out := clip (of_bytes (take at_ (bytes text))) in
      let sep := match last (bytes out) with
                 | Some c => if byte_of c =? 10 then "" else nl
                 | None => ""
                 end in
      out +:+ sep +:+ of_bytes (take (4 * kPayloadMax) (drop at_ (bytes text)))
  end.

(** ** Well-formed UTF-8 (Unicode 15, table 3-7) *)

Definition cont (b : N) : Prop := 0x80 ≤ b ≤ 0xBF.

Inductive wf_seq : list N → Prop :=
| wf_1 b : b ≤ 0x7F → wf_seq [b]
| wf_2 b c : 0xC2 ≤ b ≤ 0xDF → cont c → wf_seq [b; c]
| wf_3_E0 c d : 0xA0 ≤ c ≤ 0xBF → cont d → wf_seq [0xE0; c; d]
| wf_3_E1 b c d : 0xE1 ≤ b ≤ 0xEC → cont c → cont d → wf_seq [b; c; d]
| wf_3_ED c d : 0x80 ≤ c ≤ 0x9F → cont d → wf_seq [0xED; c; d]
| wf_3_EE b c d : 0xEE ≤ b ≤ 0xEF → cont c → cont d → wf_seq [b; c; d]
| wf_4_F0 c d e : 0x90 ≤ c ≤ 0xBF → cont d → cont e → wf_seq [0xF0; c; d; e]
| wf_4_F1 b c d e : 0xF1 ≤ b ≤ 0xF3 → cont c → cont d → cont e → wf_seq [b; c; d; e]
| wf_4_F4 c d e : 0x80 ≤ c ≤ 0x8F → cont d → cont e → wf_seq [0xF4; c; d; e].

Inductive valid_utf8 : list Ascii.ascii → Prop :=
| valid_nil : valid_utf8 []
| valid_cons q s : wf_seq (byte_of <$> q) → valid_utf8 s → valid_utf8 (q ++ s).

(** ** Lemmas on sequence lengths *)

Lemma byte_at_drop (s : list Ascii.ascii) (i k : nat) : byte_at (drop i s) k = byte_at s (i + k).
Proof. unfold byte_at. by rewrite lookup_drop. Qed.

Lemma byte_at_app_r (p s : list Ascii.ascii) (k : nat) : byte_at (p ++ s) (length p + k) = byte_at s k.
Proof. unfold byte_at. by rewrite lookup_app_r, Nat.add_comm, Nat.add_sub by lia. Qed.

Lemma byte_of_lt (c : Ascii.ascii) : byte_of c < 256.
Proof. unfold byte_of. apply Ascii.N_ascii_bounded. Qed.

Lemma usl_drop (s : list Ascii.ascii) (i : nat) :
  utf8_sequence_length s i = utf8_sequence_length (drop i s) 0.
Proof.
  unfold utf8_sequence_length. rewrite !byte_at_drop. simpl.
  rewrite !Nat.add_0_r. destruct (byte_at s i <? 128); [done|].
  destruct (lead_info (byte_at s i)) as [[n lo] hi].
  destruct (Nat.eqb_spec n 0) as [|Hn]; [done|].
  rewrite length_drop.
  replace (Nat.ltb (length s - i) n) with (Nat.ltb (length s) (i + n)).
  2:{ destruct (Nat.ltb_spec (length s) (i + n)), (Nat.ltb_spec (length s - i) n); lia. }
  destruct (Nat.ltb _ _); [done|].
  replace (forallb (λ k, is_cont (byte_at (drop i s) k)) (seq 2 (n - 2)))
    with (forallb (λ k, is_cont (byte_at s (i + k))) (seq 2 (n - 2))); [done|].
  induction (seq 2 (n - 2)) as [|k l IH]; [done|]. simpl. by rewrite IH, byte_at_drop.
Qed.

(** Turns the boolean tests of a lead byte into the ranges they stand for. *)
Ltac range_cases :=
  unfold lead_info, in_range, is_cont, in_range in *;
  repeat match goal with
    | H : context [if ?b then _ else _] |- _ =>
        lazymatch b with context [if _ then _ else _] => fail | _ => destruct b eqn:? end
    | |- context [if ?b then _ else _] =>
        lazymatch b with context [if _ then _ else _] => fail | _ => destruct b eqn:? end
    end.

Ltac range_done := first [lia | unfold cont; lia].

Ltac solve_wf_seq :=
  first [ solve [apply wf_2; range_done] | solve [apply wf_3_E0; range_done] | solve [apply wf_3_ED; range_done]
        | solve [apply wf_3_E1; range_done] | solve [apply wf_3_EE; range_done] | solve [apply wf_4_F0; range_done]
        | solve [apply wf_4_F4; range_done] | solve [apply wf_4_F1; range_done] ].

Lemma usl_sound (l : list Ascii.ascii) :
  l ≠ [] → utf8_sequence_length l 0 ≠ 0%nat →
  (utf8_sequence_length l 0 ≤ length l)%nat ∧
  wf_seq (byte_of <$> take (utf8_sequence_length l 0) l).
Proof.
  intros Hne Hn. destruct l as [|c0 l]; [done|].
  unfold utf8_sequence_length in *. change (byte_at (c0 :: l) 0) with (byte_of c0) in *.
  destruct (byte_of c0 <? 128) eqn:Ec0.
  { split; [simpl; lia|]. simpl. apply wf_1. lia. }
  destruct l as [|c1 [|c2 [|c3 l]]]; range_cases; simpl in *; try done;
    repeat match goal with H : Nat.ltb _ _ = false |- _ => apply Nat.ltb_ge in H end;
    try (exfalso; lia); split; try lia;
    unfold byte_at in *; simpl in *;
    repeat match goal with H : (_ && _)%bool = true |- _ => apply andb_true_iff in H as [? ?] end;
    repeat match goal with H : (_ =? _) = true |- _ => apply N.eqb_eq in H; rewrite H end.
  all: first [solve_wf_seq | destruct (N.leb_spec (byte_of c0) 0xEC); solve_wf_seq].
Qed.

Lemma usl_complete (q s : list Ascii.ascii) :
  wf_seq (byte_of <$> q) → utf8_sequence_length (q ++ s) 0 = length q.
Proof.
  intros Hq. destruct q as [|c0 [|c1 [|c2 [|c3 [|c4 q]]]]]; simpl in Hq; inversion Hq; subst;
    unfold utf8_sequence_length, cont in *; unfold byte_at; simpl;
    rewrite ?length_app; simpl;
    range_cases; simpl in *; try reflexivity; try lia; try (exfalso; lia).
Qed.

Lemma wf_seq_length (q : list N) : wf_seq q → (1 ≤ length q ≤ 4)%nat.
Proof. destruct 1; simpl; lia. Qed.

Lemma valid_app (a b : list Ascii.ascii) : valid_utf8 a → valid_utf8 b → valid_utf8 (a ++ b).
Proof. induction 1; [done|]. intros Hb. rewrite <-app_assoc. constructor; auto. Qed.

Lemma valid_one (q : list Ascii.ascii) : wf_seq (byte_of <$> q) → valid_utf8 q.
Proof. intros Hq. rewrite <-(app_nil_r q). constructor; [done|constructor]. Qed.

Lemma valid_ascii (s : list Ascii.ascii) : Forall (λ c, byte_of c < 128) s → valid_utf8 s.
Proof.
  induction 1 as [|c s Hc _ IH]; [constructor|].
  change (c :: s) with ([c] ++ s). constructor; [|done]. simpl. apply wf_1. lia.
Qed.

Lemma replacement_valid : valid_utf8 replacement.
Proof. apply valid_one. simpl. apply wf_3_EE; unfold cont; vm_compute; split; discriminate. Qed.

Lemma usl_pos_bound (s : list Ascii.ascii) (i : nat) :
  (i < length s)%nat → utf8_sequence_length s i ≠ 0%nat →
  (i + utf8_sequence_length s i ≤ length s)%nat ∧
  wf_seq (byte_of <$> take (utf8_sequence_length s i) (drop i s)).
Proof.
  intros Hi Hn. rewrite usl_drop in *. destruct (usl_sound (drop i s)) as [Hb Hw].
  - intros H. apply (f_equal length) in H. rewrite length_drop in H. simpl in H. lia.
  - done.
  - rewrite length_drop in Hb. split; [lia|done].
Qed.

(** The first loop stops at the end of a valid prefix, either at the end of the
    text or at a byte that starts no sequence. *)
Lemma valid_up_to_spec (fuel : nat) (s : list Ascii.ascii) (i : nat) :
  (length s - i ≤ fuel)%nat → (i ≤ length s)%nat → valid_utf8 (take i s) →
  let r := valid_up_to fuel s i in
  (i ≤ r ≤ length s)%nat ∧ valid_utf8 (take r s) ∧
  (r = length s ∨ utf8_sequence_length s r = 0%nat).
Proof.
  revert i. induction fuel as [|fuel IH]; intros i Hf Hi Hv; simpl.
  { split_and!; [lia..|done|]. left. lia. }
  destruct (Nat.ltb_spec i (length s)) as [Hlt|]; [|split_and!; [lia..|done|]; left; lia].
  destruct (Nat.eqb_spec (utf8_sequence_length s i) 0) as [Hz|Hnz]; [eauto|].
  destruct (usl_pos_bound s i Hlt Hnz) as [Hb Hw].
  destruct (IH (i + utf8_sequence_length s i)%nat) as ([? ?] & ? & ?); [lia|lia| |split_and!; try done; lia].
  rewrite <-(take_drop i s) at 2. rewrite take_app_add'; [|rewrite length_take; lia].
  apply valid_app; [done|by apply valid_one].
Qed.

Lemma sanitize_from_valid (fuel : nat) (s : list Ascii.ascii) (i : nat) :
  valid_utf8 (sanitize_from fuel s i).
Proof.
  revert i. induction fuel as [|fuel IH]; intros i; simpl; [constructor|].
  destruct (Nat.ltb_spec i (length s)) as [Hlt|]; [|constructor].
  destruct (Nat.eqb_spec (utf8_sequence_length s i) 0) as [Hz|Hnz].
  - apply (valid_app replacement); [apply replacement_valid|apply IH].
  - apply valid_app; [|apply IH]. apply valid_one. by apply usl_pos_bound.
Qed.

(** A valid text is consumed to its end by the first loop. *)
Lemma valid_up_to_valid (fuel : nat) (p s : list Ascii.ascii) :
  (length s ≤ fuel)%nat → valid_utf8 s →
  valid_up_to fuel (p ++ s) (length p) = length (p ++ s).
Proof.
  intros Hf Hv. revert fuel p Hf. induction Hv as [|q s Hq Hv IH]; intros fuel p Hf.
  - rewrite app_nil_r. destruct fuel; simpl; [done|]. by rewrite Nat.ltb_irrefl.
  - pose proof (wf_seq_length _ Hq) as Hl. rewrite length_fmap in Hl.
    rewrite !length_app in Hf. destruct fuel as [|fuel]; [lia|]. cbn [valid_up_to].
    rewrite usl_drop, drop_app_length, (usl_complete q s Hq).
    destruct (Nat.ltb_spec (length p) (length (p ++ q ++ s))) as [_|H];
      [|rewrite !length_app in H; lia].
    destruct (Nat.eqb_spec (length q) 0); [lia|].
    rewrite <-length_app, app_assoc. apply IH. lia.
Qed.

Lemma sanitize_valid (s : list Ascii.ascii) : valid_utf8 (sanitize_utf8 s).
Proof.
  unfold sanitize_utf8.
  destruct (valid_up_to_spec (length s) s 0) as ([_ Hr] & Hv & Hend);
    [lia|lia|rewrite take_0; constructor|].
  destruct (Nat.eqb_spec (valid_up_to (length s) s 0) (length s)) as [Heq|Hne].
  - rewrite Heq, firstn_all in Hv. done.
  - apply valid_app; [done|apply sanitize_from_valid].
Qed.

Lemma sanitize_id (s : list Ascii.ascii) : valid_utf8 s → sanitize_utf8 s = s.
Proof.
  intros Hv. unfold sanitize_utf8.
  pose proof (valid_up_to_valid (length s) [] s) as H. simpl in H.
  rewrite H by done. by rewrite Nat.eqb_refl.
Qed.

(** [sanitize_utf8] always produces well-formed UTF-8, and it leaves a
    string unchanged exactly when the string already is well-formed (so it is
    idempotent). *)
Theorem sanitize_utf8_correct (s : list Ascii.ascii) :
  valid_utf8 (sanitize_utf8 s) ∧ (sanitize_utf8 s = s ↔ valid_utf8 s) ∧
  sanitize_utf8 (sanitize_utf8 s) = sanitize_utf8 s.
Proof.
  pose proof (sanitize_valid s). split; [done|]. split.
  - split; [by intros <-|apply sanitize_id].
  - by apply sanitize_id.
Qed.

(** ** Cutting a prefix *)

(** [(c & 0xC0) == 0x80] is the continuation range, byte by byte. *)
Lemma is_continuation_spec (c : Ascii.ascii) : is_continuation (byte_of c) = true ↔ cont (byte_of c).
Proof.
  assert (H : ∀ c, is_continuation (byte_of c) = is_cont (byte_of c)).
  { intros [[] [] [] [] [] [] [] []]; reflexivity. }
  rewrite H. unfold is_cont, in_range, cont. lia.
Qed.

Lemma wf_seq_head (q : list N) (b : N) : wf_seq q → q !! 0%nat = Some b → ¬ cont b.
Proof. destruct 1; simpl; intros [= <-]; unfold cont; lia. Qed.

Lemma wf_seq_tail (q : list N) (k : nat) (b : N) : wf_seq q → q !! S k = Some b → cont b.
Proof.
  destruct 1; simpl; destruct k as [|[|[|k]]]; simpl; try done;
    intros [= <-]; unfold cont in *; lia.
Qed.

(** The position where the sequence that covers byte [n] starts. *)
Lemma valid_split_at (s : list Ascii.ascii) (n : nat) :
  valid_utf8 s → (n < length s)%nat →
  ∃ p q t, s = p ++ q ++ t ∧ valid_utf8 p ∧ wf_seq (byte_of <$> q) ∧ valid_utf8 t ∧
           (length p ≤ n < length p + length q)%nat.
Proof.
  intros Hv. revert n. induction Hv as [|q s Hq Hv IH]; intros n Hn; [simpl in Hn; lia|].
  rewrite length_app in Hn. destruct (Nat.lt_ge_cases n (length q)) as [Hlt|Hge].
  - exists [], q, s. split_and!; [done|constructor|done|done|simpl; lia..].
  - destruct (IH (n - length q)%nat) as (p & q' & t & -> & Hp & Hq' & Ht & Hb); [lia|].
    exists (q ++ p), q', t. rewrite length_app, <-!app_assoc.
    split_and!; [done|by constructor|done|done|lia..].
Qed.

Lemma byte_at_seq (p q t : list Ascii.ascii) (k : nat) (c : Ascii.ascii) :
  q !! k = Some c → byte_at (p ++ q ++ t) (length p + k) = byte_of c.
Proof.
  intros Hc. rewrite byte_at_app_r. unfold byte_at. by rewrite (lookup_app_l_Some _ _ _ _ Hc).
Qed.

(** Backing up from inside a sequence reaches its first byte. *)
Lemma back_up_to_start (p q t : list Ascii.ascii) (d budget : nat) :
  wf_seq (byte_of <$> q) → (d < length q)%nat → (d ≤ budget)%nat →
  back_up (p ++ q ++ t) (length p + d) budget = length p.
Proof.
  intros Hq. revert budget. induction d as [|d IH]; intros budget Hd Hb.
  - rewrite Nat.add_0_r. destruct budget as [|budget]; simpl; [done|].
    destruct (q !! 0%nat) as [c|] eqn:Ec; [|apply lookup_ge_None in Ec; lia].
    pose proof (byte_at_seq p q t 0 c Ec) as Hc. rewrite Nat.add_0_r in Hc. rewrite Hc.
    destruct (is_continuation (byte_of c)) eqn:E; [|by rewrite andb_false_r].
    apply is_continuation_spec in E. exfalso. eapply (wf_seq_head _ (byte_of c)); [exact Hq| |exact E].
    by rewrite list_lookup_fmap, Ec.
  - destruct budget as [|budget]; [lia|]. simpl.
    destruct (q !! S d) as [c|] eqn:Ec; [|apply lookup_ge_None in Ec; lia].
    rewrite (byte_at_seq _ _ _ _ _ Ec).
    replace (is_continuation (byte_of c)) with true.
    2:{ symmetry. apply is_continuation_spec. eapply (wf_seq_tail _ d); [exact Hq|].
        by rewrite list_lookup_fmap, Ec. }
    replace (Nat.ltb 0 (length p + S d)) with true by (symmetry; apply Nat.ltb_lt; lia). simpl.
    replace (length p + S d - 1)%nat with (length p + d)%nat by lia. apply IH; lia.
Qed.

Lemma prefix_length_start (p q t : list Ascii.ascii) (max : nat) :
  wf_seq (byte_of <$> q) → (length p ≤ max < length p + length q)%nat →
  utf8_prefix_length (p ++ q ++ t) max = length p.
Proof.
  intros Hq Hmax. pose proof (wf_seq_length _ Hq) as Hl. rewrite length_fmap in Hl.
  unfold utf8_prefix_length.
  destruct (Nat.leb_spec (length (p ++ q ++ t)) max) as [H|_]; [rewrite !length_app in H; lia|].
  assert (Hback : back_up (p ++ q ++ t) max 3 = length p).
  { replace max with (length p + (max - length p))%nat by lia. apply back_up_to_start; [done|lia..]. }
  rewrite Hback.
  rewrite usl_drop, drop_app_length, (usl_complete q t Hq).
  replace (Nat.leb (length p + length q) max) with false
    by (symmetry; apply Nat.leb_gt; lia).
  rewrite andb_false_r.
  destruct (Nat.eqb_spec (length p) 0) as [Hp|]; [|done].
  destruct p; [|done]. simpl. destruct (q !! 0%nat) as [c|] eqn:Ec; [|apply lookup_ge_None in Ec; lia].
  pose proof (byte_at_seq [] q t 0 c Ec) as Hb. simpl in Hb. rewrite Hb.
  destruct (is_continuation (byte_of c)) eqn:E; [|done].
  apply is_continuation_spec in E. exfalso. eapply (wf_seq_head _ (byte_of c)); [exact Hq| |exact E].
  by rewrite list_lookup_fmap, Ec.
Qed.

(** On well-formed text [utf8_prefix_length] cuts at a sequence boundary:
    the prefix has at most [max] bytes, is well-formed, and is the longest such
    prefix (at most three bytes of the budget are unused). *)
Theorem utf8_prefix_length_correct (s : list Ascii.ascii) (max : nat) :
  valid_utf8 s →
  let n := utf8_prefix_length s max in
  (n ≤ max)%nat ∧ valid_utf8 (take n s) ∧ valid_utf8 (drop n s) ∧
  (n = length s ∨ max < n + 4)%nat.
Proof.
  intros Hv. destruct (Nat.le_gt_cases (length s) max) as [Hle|Hgt].
  - unfold utf8_prefix_length. rewrite (proj2 (Nat.leb_le _ _) Hle). simpl.
    rewrite firstn_all, drop_all. split_and!; [lia|done|constructor|by left].
  - destruct (valid_split_at s max Hv Hgt) as (p & q & t & -> & Hp & Hq & Ht & Hb).
    rewrite prefix_length_start by done. simpl.
    rewrite take_app_length, drop_app_length.
    pose proof (wf_seq_length _ Hq) as Hl. rewrite length_fmap in Hl.
    split_and!; [lia|done|by constructor|right; lia].
Qed.

Lemma utf8_prefix_length_witness :
  utf8_prefix_length (map Ascii.ascii_of_N [0x61; 0xE2; 0x82; 0xAC; 0x62]) 3 = 1%nat ∧
  valid_utf8 (take 1 (map Ascii.ascii_of_N [0x61; 0xE2; 0x82; 0xAC; 0x62])).
Proof.
  assert (Hv : valid_utf8 (map Ascii.ascii_of_N [0x61; 0xE2; 0x82; 0xAC; 0x62])).
  { apply (valid_cons [_] _); [apply wf_1; vm_compute; discriminate|].
    apply (valid_cons [_; _; _] _);
      [apply wf_3_E1; unfold cont; vm_compute; split; discriminate|].
    apply (valid_cons [_] _); [apply wf_1; vm_compute; discriminate|constructor]. }
  split; [reflexivity|].
  exact (proj1 (proj2 (utf8_prefix_length_correct _ 3 Hv))).
Defined.

(** ** Clipped event payloads *)

(** [clip] cuts after 200 bytes even inside a multi-byte character: a
    well-formed 201-byte text becomes a payload that is not well-formed UTF-8
    (and is then written into the persisted JSON event log as it is). *)
Theorem clip_splits_utf8 :
  ∃ text, valid_utf8 (bytes text) ∧ ¬ valid_utf8 (bytes (clip text)).
Proof.
  exists (of_bytes (repeat (Ascii.ascii_of_N 97) 199 ++ map Ascii.ascii_of_N [0xC3; 0xA9])).
  assert (Ha : ∀ n, valid_utf8 (repeat (Ascii.ascii_of_N 97) n)).
  { intros n. apply valid_ascii. apply Forall_forall.
    intros c Hc. apply list_elem_of_In, repeat_spec in Hc as ->. reflexivity. }
  split.
  - rewrite bytes_of_bytes. apply valid_app; [apply Ha|]. apply valid_one.
    apply wf_2; unfold cont; vm_compute; split; discriminate.
  - intros Hv. apply sanitize_id in Hv. apply (f_equal length) in Hv. vm_compute in Hv. discriminate.
Qed.
