(* ===== verification/Decimal.v ===== *)
(** * Decimal text: [std::to_string] and [std::from_chars]

    The code writes counters and steps with [std::to_string] and reads them
    back with [std::from_chars] (loop counters of the graph executor, the
    checkpoint index and event-batch count of the StoreOps checkpointer).
    [from_chars] consumes the longest run of digits and leaves its target
    unchanged when there is none or when the value does not fit. *)
From stdpp Require Import base list strings pretty.
From Stdlib Require Import Lia ZArith NArith.
From S2P Require Import Prelude.

Local Open Scope Z_scope.

Definition digit_value (c : Ascii.ascii) : option Z :=
  let b := byte_of c in
  if (48 <=? b)%N && (b <=? 57)%N then Some (Z.of_N (b - 48)) else None.

(** The value of the leading digits, and what follows them. *)
Fixpoint scan_digits (acc : Z) (l : list Ascii.ascii) : Z * list Ascii.ascii :=
  match l with
  | [] => (acc, [])
  | c :: l' =>
      match digit_value c with
      | Some d => scan_digits (acc * 10 + d) l'
      | None => (acc, l)
      end
  end.

Definition starts_with_digit (l : list Ascii.ascii) : bool :=
  match l with
  | c :: _ => match digit_value c with Some _ => true | None => false end
  | [] => false
  end.

(** [std::from_chars(begin, end, value)] for an integer type with the given
    range: [None] stands for an error, which leaves [value] unchanged.  A minus
    sign is accepted for signed types only. *)
Definition from_chars (lo hi : Z) (s : string) : option Z :=
  let l := bytes s in
  let '(neg, digits) :=
    match l with
    | c :: l' => if (byte_of c =? 45)%N && (lo <? 0) then (true, l') else (false, l)
    | [] => (false, [])
    end in
  if starts_with_digit digits then
    let v := fst (scan_digits 0 digits) in
    let v := if neg then - v else v in
    if (lo <=? v) && (v <=? hi) then Some v else None
  else None.

Definition from_chars_int : string → option Z := from_chars (-2147483648) 2147483647.
Definition from_chars_i64 : string → option Z := from_chars (-9223372036854775808) 9223372036854775807.
Definition from_chars_u64 : string → option Z := from_chars 0 18446744073709551615.

(** ** Lemmas *)

Lemma digit_value_char (d : N) :
  (d < 10)%N → digit_value (pretty_N_char d) = Some (Z.of_N d).
Proof.
  intros Hd.
  assert (d = 0 ∨ d = 1 ∨ d = 2 ∨ d = 3 ∨ d = 4 ∨ d = 5 ∨ d = 6 ∨ d = 7 ∨ d = 8 ∨ d = 9)%N as H by lia.
  repeat destruct H as [->|H]; try reflexivity. by subst.
Qed.

Lemma scan_pretty_go (x : N) : ∀ (s : string) (rest : list Ascii.ascii),
  scan_digits 0 (bytes (pretty_N_go x s) ++ rest) = scan_digits (Z.of_N x) (bytes s ++ rest).
Proof.
  induction (N.lt_wf_0 x) as [x _ IH]; intros s rest.
  destruct (decide (x = 0)%N) as [->|Hx]; [by rewrite pretty_N_go_0|].
  rewrite pretty_N_go_step by lia. rewrite IH by (apply N.div_lt; lia).
  simpl. rewrite digit_value_char by (apply N.mod_lt; lia).
  f_equal. pose proof (N.div_mod' x 10). lia.
Qed.

Lemma pretty_go_head (x : N) : ∀ (s : string) (rest : list Ascii.ascii),
  (0 < x)%N → starts_with_digit (bytes (pretty_N_go x s) ++ rest) = true.
Proof.
  induction (N.lt_wf_0 x) as [x _ IH]; intros s rest Hx.
  rewrite pretty_N_go_step by lia.
  destruct (decide (x / 10 = 0)%N) as [Hz|Hz].
  - rewrite Hz, pretty_N_go_0. simpl. by rewrite digit_value_char by (apply N.mod_lt; lia).
  - apply IH; [apply N.div_lt; lia|by apply N.neq_0_lt_0].
Qed.

Lemma pretty_N_scan (x : N) (rest : list Ascii.ascii) :
  scan_digits 0 (bytes (pretty x) ++ rest) = scan_digits (Z.of_N x) rest ∧
  starts_with_digit (bytes (pretty x) ++ rest) = true.
Proof.
  unfold pretty, pretty_N. case_decide as Hx.
  - subst. done.
  - rewrite scan_pretty_go. simpl. split; [done|]. apply pretty_go_head. lia.
Qed.

Lemma scan_stop (v : Z) (rest : list Ascii.ascii) :
  starts_with_digit rest = false → scan_digits v rest = (v, rest).
Proof. destruct rest as [|c rest]; simpl; [done|]. by destruct (digit_value c). Qed.

Lemma to_string_nonneg (z : Z) : 0 ≤ z → to_string z = pretty (Z.to_N z).
Proof.
  unfold to_string, pretty at 1, pretty_Z. destruct z as [|p|p]; intros; [done|done|lia].
Qed.

Lemma to_string_neg (z : Z) : z < 0 → to_string z = "-" +:+ pretty (Z.to_N (- z)).
Proof. unfold to_string, pretty at 1, pretty_Z. destruct z as [|p|p]; intros; [lia|lia|done]. Qed.

Lemma digit_not_minus (l : list Ascii.ascii) :
  starts_with_digit l = true →
  match l with c :: l' => if (byte_of c =? 45)%N then False else True | [] => False end.
Proof.
  destruct l as [|c l]; simpl; [done|]. unfold digit_value.
  destruct (N.eqb_spec (byte_of c) 45) as [->|]; [done|]. done.
Qed.

(** Reading back what [std::to_string] wrote. *)
Lemma from_chars_to_string (lo hi z : Z) :
  lo ≤ 0 → lo ≤ z ≤ hi → from_chars lo hi (to_string z) = Some z.
Proof.
  intros Hlo Hz. unfold from_chars. destruct (Z.ltb_spec z 0) as [Hneg|Hpos].
  - rewrite to_string_neg, bytes_app by done.
    destruct (pretty_N_scan (Z.to_N (- z)) []) as [Hs Hd]. rewrite app_nil_r in Hs, Hd.
    generalize dependent (bytes (pretty (Z.to_N (- z)))). intros l Hs Hd.
    replace (lo <? 0) with true by (symmetry; apply Z.ltb_lt; lia). simpl. rewrite Hd, Hs. simpl.
    rewrite Z2N.id, Z.opp_involutive by lia.
    by rewrite (proj2 (Z.leb_le lo z)), (proj2 (Z.leb_le z hi)) by lia.
  - rewrite to_string_nonneg by done.
    destruct (pretty_N_scan (Z.to_N z) []) as [Hs Hd]. rewrite app_nil_r in Hs, Hd.
    pose proof (digit_not_minus _ Hd) as Hm.
    destruct (bytes (pretty (Z.to_N z))) as [|c l]; [done|].
    destruct (byte_of c =? 45)%N; [done|]. cbn [andb]. rewrite Hd, Hs. simpl. rewrite Z2N.id by lia.
    by rewrite (proj2 (Z.leb_le lo z)), (proj2 (Z.leb_le z hi)) by lia.
Qed.

Lemma to_string_inj (a b : Z) : to_string a = to_string b → a = b.
Proof.
  intros H.
  pose proof (from_chars_to_string (Z.min (Z.min a b) 0) (Z.max a b) a) as Ha.
  pose proof (from_chars_to_string (Z.min (Z.min a b) 0) (Z.max a b) b) as Hb.
  rewrite H, Hb in Ha by lia. specialize (Ha ltac:(lia) ltac:(lia)). congruence.
Qed.

Lemma to_string_nonempty (z : Z) : to_string z ≠ "".
Proof.
  intros H. pose proof (from_chars_to_string (Z.min z 0) (Z.max z 0) z) as Hz.
  rewrite H in Hz. discriminate Hz; lia.
Qed.

(** Decimal text is made of digits and a sign. *)
Lemma to_string_avoids (c : Ascii.ascii) (z : Z) : digit_value c = None → byte_of c ≠ 45%N → c ∉ bytes (to_string z).
Proof.
  intros Hdigit Hsign.
  assert (Hgo : ∀ x s, c ∉ bytes s → c ∉ bytes (pretty_N_go x s)).
  { intros x. induction (N.lt_wf_0 x) as [x _ IH]; intros s Hs.
    destruct (decide (x = 0)%N) as [->|Hx]; [by rewrite pretty_N_go_0|].
    rewrite pretty_N_go_step by lia. apply IH; [apply N.div_lt; lia|]. cbn. apply not_elem_of_cons. split; [|done].
    assert (Hm : (x `mod` 10 < 10)%N) by (apply N.mod_lt; lia). intros E. pose proof (digit_value_char _ Hm) as Hd.
    rewrite <-E in Hd. congruence. }
  assert (Hzero : c ≠ Ascii.ascii_of_N 48) by (by intros ->).
  assert (Hn : ∀ n : N, c ∉ bytes (pretty n)).
  { intros n. unfold pretty, pretty_N. case_decide; [|apply Hgo, not_elem_of_nil]. by intros [E|[]%elem_of_nil]%elem_of_cons. }
  destruct z as [|p|p]; [by intros [E|[]%elem_of_nil]%elem_of_cons|apply Hn|].
  change (to_string (Z.neg p)) with ("-" +:+ pretty (N.pos p)). cbn. apply not_elem_of_cons. split; [|apply Hn].
  intros ->. by apply Hsign.
Qed.
