(* ===== verification/Json.v ===== *)
(** * JSON texts and the parser interface

    The code writes JSON by appending to a [std::string] and reads it with
    simdjson, a library outside this repository.  [denotes] is the RFC 8259
    grammar of the compact texts concerned (no insignificant white space,
    integers, booleans, [\u00XX] escapes below U+0080): it relates a value to its texts
    and does not mention the writers.  [JsonParserSpec] states what the code
    relies on: a well-formed UTF-8 text of that grammar parses to the value it
    denotes.  [render] is the common shape of the writers; every encoder of the
    development is proved equal to [render] of a value tree, and [render_ok]
    shows that such a text denotes its tree.  [RefParser] is a parser that
    satisfies the interface. *)
From stdpp Require Import base list strings pretty.
From Stdlib Require Import Lia ZArith NArith.
From S2P Require Import Prelude Text Decimal.

(** [JOther] holds the text of a [null] or of a number that is no integer. *)
Inductive json :=
| JInt (z : Z)
| JStr (s : string)
| JArr (items : list json)
| JObj (fields : list (string * json))
| JBool (b : bool)
| JOther (text : string).

Definition chr (n : N) : Ascii.ascii := Ascii.ascii_of_N n.

(** ** The grammar *)

Definition simple_escape (e : Ascii.ascii) : option Ascii.ascii :=
  let b := byte_of e in
  if (b =? 34)%N then Some (chr 34) else if (b =? 92)%N then Some (chr 92)
  else if (b =? 47)%N then Some (chr 47) else if (b =? 98)%N then Some (chr 8)
  else if (b =? 102)%N then Some (chr 12) else if (b =? 110)%N then Some (chr 10)
  else if (b =? 114)%N then Some (chr 13) else if (b =? 116)%N then Some (chr 9)
  else None.

Definition hex_value (c : Ascii.ascii) : option N :=
  let b := byte_of c in
  if (48 <=? b)%N && (b <=? 57)%N then Some (b - 48)%N
  else if (97 <=? b)%N && (b <=? 102)%N then Some (b - 87)%N
  else if (65 <=? b)%N && (b <=? 70)%N then Some (b - 55)%N
  else None.

(** [str_body t v]: the literal body [t] stands for the bytes [v]. *)
Inductive str_body : list Ascii.ascii → list Ascii.ascii → Prop :=
| sb_nil : str_body [] []
| sb_plain c t v :
    (0x20 ≤ byte_of c)%N → byte_of c ≠ 34%N → byte_of c ≠ 92%N →
    str_body t v → str_body (c :: t) (c :: v)
| sb_esc e c t v :
    simple_escape e = Some c → str_body t v → str_body (chr 92 :: e :: t) (c :: v)
| sb_hex h1 h2 n1 n2 t v :
    hex_value h1 = Some n1 → hex_value h2 = Some n2 → (n1 < 8)%N →
    str_body t v →
    str_body (chr 92 :: chr 117 :: chr 48 :: chr 48 :: h1 :: h2 :: t) (chr (n1 * 16 + n2) :: v).

Definition in_quotes (t : list Ascii.ascii) : list Ascii.ascii := chr 34 :: t ++ [chr 34].

Inductive denotes : json → list Ascii.ascii → Prop :=
| d_int z : (-9223372036854775808 ≤ z < 18446744073709551616)%Z → denotes (JInt z) (bytes (to_string z))
| d_str t v : str_body t v → denotes (JStr (of_bytes v)) (in_quotes t)
| d_bool (b : bool) : denotes (JBool b) (bytes (if b then "true" else "false"))
| d_arr_nil : denotes (JArr []) [chr 91; chr 93]
| d_arr l t : elements_denote l t → denotes (JArr l) (chr 91 :: t ++ [chr 93])
| d_obj_nil : denotes (JObj []) [chr 123; chr 125]
| d_obj l t : members_denote l t → denotes (JObj l) (chr 123 :: t ++ [chr 125])
with elements_denote : list json → list Ascii.ascii → Prop :=
| e_one j t : denotes j t → elements_denote [j] t
| e_cons j t l ts : denotes j t → elements_denote l ts → elements_denote (j :: l) (t ++ chr 44 :: ts)
with members_denote : list (string * json) → list Ascii.ascii → Prop :=
| m_one kt k j t :
    str_body kt k → denotes j t → members_denote [(of_bytes k, j)] (in_quotes kt ++ chr 58 :: t)
| m_cons kt k j t l ts :
    str_body kt k → denotes j t → members_denote l ts →
    members_denote ((of_bytes k, j) :: l) ((in_quotes kt ++ chr 58 :: t) ++ chr 44 :: ts).

(** ** What the code relies on simdjson for *)

Class JsonParser := parse_json : string → option json.

Class JsonParserSpec (P : JsonParser) : Prop :=
  parse_denotes : ∀ j t, denotes j (bytes t) → valid_utf8 (bytes t) → parse_json t = Some j.

(** ** Reading values: [get_string], [get_array], [get_object], [obj\[key\]] *)

Definition get_string (j : json) : option string :=
  match j with JStr s => Some s | _ => None end.
Definition get_int (j : json) : option Z :=
  match j with JInt z => Some z | _ => None end.
Definition get_bool (j : json) : option bool :=
  match j with JBool b => Some b | _ => None end.
Definition get_array (j : json) : option (list json) :=
  match j with JArr l => Some l | _ => None end.
Definition get_object (j : json) : option (list (string * json)) :=
  match j with JObj l => Some l | _ => None end.

Fixpoint field (key : string) (fields : list (string * json)) : option json :=
  match fields with
  | [] => None
  | (k, v) :: rest => if str_eqb k key then Some v else field key rest
  end.

(** [if (!obj\[key\].get_string().get(v)) target = v;] *)
Definition string_field (key : string) (fields : list (string * json)) (target : string) : string :=
  match field key fields ≫= get_string with Some v => v | None => target end.

(** ** The common shape of the writers *)

Definition quoted (s : string) : string :=
  of_bytes [chr 34] +:+ escape_json_string s +:+ of_bytes [chr 34].

(** [if (i > 0) json += ',';] between the pieces. *)
Fixpoint join_comma (parts : list string) : string :=
  match parts with
  | [] => ""
  | [p] => p
  | p :: rest => p +:+ "," +:+ join_comma rest
  end.

Fixpoint render (j : json) : string :=
  match j with
  | JInt z => to_string z
  | JStr s => quoted s
  | JArr l => "[" +:+ join_comma (map render l) +:+ "]"
  | JObj fs => "{" +:+ join_comma (map (λ kv, quoted kv.1 +:+ ":" +:+ render kv.2) fs) +:+ "}"
  | JBool b => if b then "true" else "false"
  | JOther t => t
  end.

(** Integers in range, well-formed strings, no [JOther]. *)
Fixpoint json_ok (j : json) : Prop :=
  match j with
  | JInt z => (-9223372036854775808 ≤ z < 18446744073709551616)%Z
  | JStr s => valid_utf8 (bytes s)
  | JArr l => foldr (λ x acc, json_ok x ∧ acc) True l
  | JObj fs => foldr (λ kv acc, valid_utf8 (bytes kv.1) ∧ json_ok kv.2 ∧ acc) True fs
  | JBool _ => True
  | JOther _ => False
  end.

(** ** Escaped text denotes the string it was made from *)

Lemma byte_of_chr (n : N) : (n < 256)%N → byte_of (chr n) = n.
Proof. intros. apply Ascii.N_ascii_embedding. done. Qed.

Lemma chr_byte_of (c : Ascii.ascii) : chr (byte_of c) = c.
Proof. apply Ascii.ascii_N_embedding. Qed.

(** The eight ways [escape_char] can answer. *)
Lemma escape_char_body (c : Ascii.ascii) (t v : list Ascii.ascii) :
  str_body t v → str_body (escape_char c ++ t) (c :: v).
Proof.
  intros Htv. destruct (decide (0x20 ≤ byte_of c ∧ byte_of c ≠ 34 ∧ byte_of c ≠ 92)%N) as [(? & ? & ?)|Hs].
  - replace (escape_char c) with [c]; [by constructor|].
    revert H H0 H1. clear. destruct c as [[] [] [] [] [] [] [] []]; vm_compute; done.
  - assert (Hcase : (∃ e, escape_char c = [chr 92; e] ∧ simple_escape e = Some c) ∨
            (∃ h1 h2 n1 n2, escape_char c = [chr 92; chr 117; chr 48; chr 48; h1; h2] ∧
              hex_value h1 = Some n1 ∧ hex_value h2 = Some n2 ∧ (n1 < 8)%N ∧ chr (n1 * 16 + n2) = c)).
    { clear Htv. destruct c as [[] [] [] [] [] [] [] []]; vm_compute in Hs;
        try (exfalso; apply Hs; split_and!; done).
      all: first [ left; eexists; split; reflexivity
                 | right; do 4 eexists; split_and!; reflexivity ]. }
    destruct Hcase as [(e & -> & He)|(h1 & h2 & n1 & n2 & -> & H1 & H2 & H3 & <-)].
    + by constructor.
    + by apply sb_hex.
Qed.

Lemma escape_body (s : list Ascii.ascii) : str_body (escape_bytes s) s.
Proof.
  induction s as [|c s IH]; [constructor|]. unfold escape_bytes. simpl. by apply escape_char_body.
Qed.

Lemma escape_bytes_app (a b : list Ascii.ascii) : escape_bytes (a ++ b) = escape_bytes a ++ escape_bytes b.
Proof. unfold escape_bytes. by rewrite map_app, concat_app. Qed.

(** Bytes of a multi-byte sequence are copied; ASCII escapes to ASCII. *)
Lemma escape_char_high (c : Ascii.ascii) : (128 ≤ byte_of c)%N → escape_char c = [c].
Proof. destruct c as [[] [] [] [] [] [] [] []]; vm_compute; done. Qed.

Lemma escape_char_low (c : Ascii.ascii) :
  (byte_of c < 128)%N → Forall (λ x, (byte_of x < 128)%N) (escape_char c).
Proof.
  intros Hc. assert (Hb : implb (byte_of c <? 128)%N (forallb (λ x, byte_of x <? 128)%N (escape_char c)) = true).
  { clear Hc. destruct c as [[] [] [] [] [] [] [] []]; reflexivity. }
  rewrite (proj2 (N.ltb_lt _ _) Hc) in Hb. simpl in Hb.
  apply Forall_forall. intros x Hx. apply list_elem_of_In in Hx.
  rewrite forallb_forall in Hb. apply N.ltb_lt. by apply Hb.
Qed.

Lemma escape_wf_seq (q : list Ascii.ascii) : wf_seq (byte_of <$> q) → valid_utf8 (escape_bytes q).
Proof.
  intros Hq. destruct q as [|c q].
  { inversion Hq. }
  destruct q as [|d q].
  - unfold escape_bytes. simpl. rewrite app_nil_r. apply valid_ascii, escape_char_low.
    simpl in Hq. inversion Hq; lia.
  - assert (escape_bytes (c :: d :: q) = c :: d :: q) as ->; [|by apply valid_one].
    assert (Hall : Forall (λ x, (128 ≤ byte_of x)%N) (c :: d :: q)).
    { apply Forall_lookup. intros k x Hx.
      assert (Hb : (byte_of <$> c :: d :: q) !! k = Some (byte_of x)) by (by rewrite list_lookup_fmap, Hx).
      destruct k as [|k].
      - simpl in Hx. simplify_eq. simpl in Hq. inversion Hq; lia.
      - pose proof (wf_seq_tail _ _ _ Hq Hb) as Hc. unfold cont in Hc. lia. }
    clear Hq. induction Hall as [|x l Hx _ IH]; [done|].
    unfold escape_bytes in *. simpl. rewrite IH, escape_char_high by done. done.
Qed.

Lemma escape_valid (s : list Ascii.ascii) : valid_utf8 s → valid_utf8 (escape_bytes s).
Proof.
  induction 1 as [|q s Hq _ IH]; [constructor|].
  rewrite escape_bytes_app. apply valid_app; [by apply escape_wf_seq|done].
Qed.

Lemma bytes_quoted (s : string) : bytes (quoted s) = in_quotes (escape_bytes (bytes s)).
Proof. unfold quoted, in_quotes, escape_json_string. by rewrite !bytes_app, !bytes_of_bytes. Qed.

Lemma quoted_valid (s : string) : valid_utf8 (bytes s) → valid_utf8 (bytes (quoted s)).
Proof.
  intros Hs. rewrite bytes_quoted. unfold in_quotes.
  apply (valid_app [chr 34]); [apply valid_ascii; by repeat constructor|].
  apply valid_app; [by apply escape_valid|apply valid_ascii; by repeat constructor].
Qed.

(** ** [render] denotes its tree *)

Lemma json_nested_ind (P : json → Prop) :
  (∀ z, P (JInt z)) → (∀ s, P (JStr s)) →
  (∀ l, Forall P l → P (JArr l)) → (∀ fs, Forall (λ kv, P kv.2) fs → P (JObj fs)) →
  (∀ b, P (JBool b)) → (∀ t, P (JOther t)) → ∀ j, P j.
Proof.
  intros Hi Hs Ha Ho Hb Hx. fix IH 1. intros [z|s|l|fs|b|t]; [apply Hi|apply Hs| | |apply Hb|apply Hx].
  - apply Ha. induction l as [|x l IHl]; constructor; [apply IH|apply IHl].
  - apply Ho. induction fs as [|[k x] fs IHf]; constructor; [apply IH|apply IHf].
Qed.

Lemma valid_chr (n : N) : (n < 128)%N → valid_utf8 [chr n].
Proof. intros. apply valid_ascii. repeat constructor. rewrite byte_of_chr; lia. Qed.

Lemma join_comma_cons (p q : string) (l : list string) :
  join_comma (p :: q :: l) = p +:+ "," +:+ join_comma (q :: l).
Proof. done. Qed.

Lemma join_comma_valid (l : list string) :
  Forall (λ p, valid_utf8 (bytes p)) l → valid_utf8 (bytes (join_comma l)).
Proof.
  induction 1 as [|p l Hp Hl IH]; [constructor|]. destruct l as [|q l]; [done|].
  rewrite join_comma_cons, !bytes_app. apply valid_app; [done|].
  apply valid_app; [apply (valid_chr 44); done|done].
Qed.

Lemma to_string_valid (z : Z) : valid_utf8 (bytes (to_string z)).
Proof.
  apply valid_ascii. unfold to_string, pretty, pretty_Z.
  assert (Hgo : ∀ x s, Forall (λ c, (byte_of c < 128)%N) (bytes s) →
            Forall (λ c, (byte_of c < 128)%N) (bytes (pretty_N_go x s))).
  { intros x. induction (N.lt_wf_0 x) as [x _ IH]; intros s Hs.
    destruct (decide (x = 0)%N) as [->|Hx]; [by rewrite pretty_N_go_0|].
    rewrite pretty_N_go_step by lia. apply IH; [apply N.div_lt; lia|].
    simpl. constructor; [|done]. pose proof (N.mod_lt x 10 ltac:(lia)) as Hm.
    pose proof (digit_value_char (x mod 10) Hm) as Hd. unfold digit_value in Hd.
    destruct (N.leb_spec 48 (byte_of (pretty_N_char (x mod 10)))); [|done].
    destruct (N.leb_spec (byte_of (pretty_N_char (x mod 10))) 57); [lia|done]. }
  assert (Hn : ∀ n : N, Forall (λ c, (byte_of c < 128)%N) (bytes (pretty n))).
  { intros n. unfold pretty, pretty_N. case_decide; [by repeat constructor|apply Hgo; constructor]. }
  destruct z as [|p|p]; [by repeat constructor|apply Hn|]. simpl. constructor; [done|apply Hn].
Qed.

Lemma render_arr (l : list json) :
  Forall (λ j, json_ok j → denotes j (bytes (render j)) ∧ valid_utf8 (bytes (render j))) l →
  foldr (λ x acc, json_ok x ∧ acc) True l → l ≠ [] →
  elements_denote l (bytes (join_comma (map render l))) ∧
  valid_utf8 (bytes (join_comma (map render l))).
Proof.
  induction 1 as [|x l Hx Hl IH]; [done|]. intros [Hok Hoks] _.
  destruct (Hx Hok) as [Hd Hv]. destruct l as [|y l]; [by split; [constructor|]|].
  destruct (IH Hoks) as [IHd IHv]; [done|].
  cbn [map]. rewrite join_comma_cons, !bytes_app. split; [by apply e_cons|].
  apply valid_app; [done|]. apply valid_app; [apply (valid_chr 44); done|done].
Qed.

Definition render_member (kv : string * json) : string := quoted kv.1 +:+ ":" +:+ render kv.2.

Lemma render_obj (fs : list (string * json)) :
  Forall (λ kv, json_ok kv.2 → denotes kv.2 (bytes (render kv.2)) ∧ valid_utf8 (bytes (render kv.2))) fs →
  foldr (λ kv acc, valid_utf8 (bytes kv.1) ∧ json_ok kv.2 ∧ acc) True fs → fs ≠ [] →
  members_denote fs (bytes (join_comma (map render_member fs))) ∧
  valid_utf8 (bytes (join_comma (map render_member fs))).
Proof.
  induction 1 as [|[k x] fs Hx Hl IH]; [done|]. intros (Hk & Hok & Hoks) _. simpl in Hk, Hok, Hx.
  destruct (Hx Hok) as [Hd Hv].
  assert (Hm : valid_utf8 (bytes (render_member (k, x)))).
  { unfold render_member. simpl fst. simpl snd. rewrite !bytes_app.
    apply valid_app; [by apply quoted_valid|]. apply valid_app; [apply (valid_chr 58); done|done]. }
  assert (Hk' : (k, x) = (of_bytes (bytes k), x)) by (by rewrite of_bytes_bytes).
  assert (Hb : bytes (render_member (k, x)) = in_quotes (escape_bytes (bytes k)) ++ chr 58 :: bytes (render x)).
  { unfold render_member. simpl fst. simpl snd. by rewrite !bytes_app, bytes_quoted. }
  destruct fs as [|y fs].
  - split; [|done]. cbn [map join_comma]. rewrite Hb, Hk'. apply m_one; [apply escape_body|done].
  - destruct (IH Hoks) as [IHd IHv]; [done|]. cbn [map]. rewrite join_comma_cons, !bytes_app.
    split.
    + rewrite Hb, Hk'. by apply m_cons; [apply escape_body| |].
    + apply valid_app; [done|]. apply valid_app; [apply (valid_chr 44); done|done].
Qed.

Lemma render_ok (j : json) :
  json_ok j → denotes j (bytes (render j)) ∧ valid_utf8 (bytes (render j)).
Proof.
  induction j as [z|s|l IH|fs IH|b|t] using json_nested_ind; intros Hok; [| | | | |done].
  - split; [by constructor|apply to_string_valid].
  - cbn [render]. split; [|by apply quoted_valid].
    rewrite bytes_quoted. rewrite <-(of_bytes_bytes s) at 1. apply d_str, escape_body.
  - destruct l as [|x l]; [split; [constructor|apply valid_ascii; by repeat constructor]|].
    destruct (render_arr (x :: l) IH Hok) as [Hd Hv]; [done|].
    cbn [render]. rewrite !bytes_app. split; [by apply d_arr|].
    apply (valid_app [_]); [apply (valid_chr 91); done|]. apply valid_app; [done|apply (valid_chr 93); done].
  - destruct fs as [|x fs]; [split; [constructor|apply valid_ascii; by repeat constructor]|].
    destruct (render_obj (x :: fs) IH Hok) as [Hd Hv]; [done|].
    cbn [render]. change (λ kv : string * json, quoted kv.1 +:+ ":" +:+ render kv.2) with render_member.
    rewrite !bytes_app. split; [by apply d_obj|].
    apply (valid_app [_]); [apply (valid_chr 123); done|]. apply valid_app; [done|apply (valid_chr 125); done].
  - split; [apply d_bool|]. apply valid_ascii. destruct b; by repeat constructor.
Qed.

Lemma parse_render `{JsonParserSpec} (j : json) : json_ok j → parse_json (render j) = Some j.
Proof. intros Hok. destruct (render_ok j Hok). by apply parse_denotes. Qed.

(** ** A parser that satisfies the interface *)

Module RefParser.

Definition isc (n : N) (c : Ascii.ascii) : bool := (byte_of c =? n)%N.

Fixpoint p_str (l : list Ascii.ascii) : option (list Ascii.ascii * list Ascii.ascii) :=
  match l with
  | [] => None
  | c :: l1 =>
      if isc 34 c then Some ([], l1)
      else if isc 92 c then
        match l1 with
        | e :: l2 =>
            if isc 117 e then
              match l2 with
              | _ :: _ :: h1 :: h2 :: l3 =>
                  match hex_value h1, hex_value h2, p_str l3 with
                  | Some n1, Some n2, Some (v, rest) => Some (chr (n1 * 16 + n2) :: v, rest)
                  | _, _, _ => None
                  end
              | _ => None
              end
            else match simple_escape e, p_str l2 with
                 | Some x, Some (v, rest) => Some (x :: v, rest)
                 | _, _ => None
                 end
        | [] => None
        end
      else match p_str l1 with
           | Some (v, rest) => Some (c :: v, rest)
           | None => None
           end
  end.

Definition p_int (l : list Ascii.ascii) : option (json * list Ascii.ascii) :=
  match l with
  | c :: l' =>
      if isc 45 c then
        if starts_with_digit l' then
          let '(v, rest) := scan_digits 0 l' in Some (JInt (- v), rest)
        else None
      else if starts_with_digit l then
        let '(v, rest) := scan_digits 0 l in Some (JInt v, rest)
      else None
  | [] => None
  end.

(** The rest of a literal. *)
Definition p_literal (word : string) (j : json) (l : list Ascii.ascii) : option (json * list Ascii.ascii) :=
  if bool_decide (take (String.length word) l = bytes word) then Some (j, drop (String.length word) l) else None.

Fixpoint p_value (fuel : nat) (l : list Ascii.ascii) : option (json * list Ascii.ascii) :=
  match fuel with
  | O => None
  | S f =>
      match l with
      | [] => None
      | c :: l1 =>
          if isc 34 c then
            match p_str l1 with Some (v, rest) => Some (JStr (of_bytes v), rest) | None => None end
          else if isc 91 c then
            match l1 with
            | d :: l2 =>
                if isc 93 d then Some (JArr [], l2)
                else match p_elements f l1 with Some (js, rest) => Some (JArr js, rest) | None => None end
            | [] => None
            end
          else if isc 123 c then
            match l1 with
            | d :: l2 =>
                if isc 125 d then Some (JObj [], l2)
                else match p_members f l1 with Some (ms, rest) => Some (JObj ms, rest) | None => None end
            | [] => None
            end
          else if isc 116 c then p_literal "rue" (JBool true) l1
          else if isc 102 c then p_literal "alse" (JBool false) l1
          else p_int l
      end
  end
with p_elements (fuel : nat) (l : list Ascii.ascii) : option (list json * list Ascii.ascii) :=
  match fuel with
  | O => None
  | S f =>
      match p_value f l with
      | Some (j, c :: rest) =>
          if isc 44 c then
            match p_elements f rest with Some (js, rest') => Some (j :: js, rest') | None => None end
          else if isc 93 c then Some ([j], rest) else None
      | _ => None
      end
  end
with p_members (fuel : nat) (l : list Ascii.ascii) : option (list (string * json) * list Ascii.ascii) :=
  match fuel with
  | O => None
  | S f =>
      match l with
      | q :: l1 =>
          if isc 34 q then
            match p_str l1 with
            | Some (k, _ :: l2) =>
                match p_value f l2 with
                | Some (j, c :: rest) =>
                    if isc 44 c then
                      match p_members f rest with
                      | Some (ms, rest') => Some ((of_bytes k, j) :: ms, rest')
                      | None => None
                      end
                    else if isc 125 c then Some ([(of_bytes k, j)], rest) else None
                | _ => None
                end
            | _ => None
            end
          else None
      | [] => None
      end
  end.

#[export] Instance parser : JsonParser := λ t,
  match p_value (S (2 * String.length t)) (bytes t) with
  | Some (j, []) => Some j
  | _ => None
  end.

End RefParser.

Section RefParserCorrect.
Import RefParser.

Lemma p_str_complete (t v rest : list Ascii.ascii) :
  str_body t v → p_str (t ++ chr 34 :: rest) = Some (v, rest).
Proof.
  induction 1 as [|c t v H1 H2 H3 _ IH|e c t v He _ IH|h1 h2 n1 n2 t v Hh1 Hh2 Hn _ IH]; [done| | |].
  - cbn [app p_str]. unfold isc. destruct (N.eqb_spec (byte_of c) 34); [done|].
    destruct (N.eqb_spec (byte_of c) 92); [done|]. by rewrite IH.
  - cbn [app p_str]. change (isc 34 (chr 92)) with false. change (isc 92 (chr 92)) with true. cbn [negb].
    unfold isc. destruct (N.eqb_spec (byte_of e) 117) as [Heq|].
    + unfold simple_escape in He. by rewrite Heq in He.
    + by rewrite He, IH.
  - cbn [app p_str]. change (isc 34 (chr 92)) with false. change (isc 92 (chr 92)) with true.
    change (isc 117 (chr 117)) with true. cbn iota. by rewrite Hh1, Hh2, IH.
Qed.

Lemma p_int_complete (z : Z) (rest : list Ascii.ascii) :
  starts_with_digit rest = false → p_int (bytes (to_string z) ++ rest) = Some (JInt z, rest).
Proof.
  intros Hrest. destruct (Z.ltb_spec z 0) as [Hneg|Hpos].
  - rewrite to_string_neg, bytes_app by done.
    destruct (pretty_N_scan (Z.to_N (- z)) rest) as [Hs Hd].
    generalize dependent (bytes (pretty (Z.to_N (- z)))). intros l Hs Hd.
    change ((bytes "-" ++ l) ++ rest) with (chr 45 :: l ++ rest). cbn [p_int].
    change (isc 45 (chr 45)) with true. cbn iota. rewrite Hd, Hs, scan_stop by done.
    do 3 f_equal. lia.
  - rewrite to_string_nonneg by done.
    destruct (pretty_N_scan (Z.to_N z) rest) as [Hs Hd]. pose proof (digit_not_minus _ Hd) as Hm.
    destruct (bytes (pretty (Z.to_N z)) ++ rest) as [|c l]; [done|]. unfold p_int, isc.
    destruct (byte_of c =? 45)%N; [done|]. rewrite Hd, Hs, scan_stop by done.
    do 3 f_equal. lia.
Qed.

(** A number starts with a digit or a minus sign. *)
Lemma to_string_head (z : Z) :
  ∃ c l, bytes (to_string z) = c :: l ∧
    isc 34 c = false ∧ isc 91 c = false ∧ isc 123 c = false ∧ isc 93 c = false ∧ isc 116 c = false ∧ isc 102 c = false.
Proof.
  assert (Hn : ∀ n : N, ∃ c l, bytes (pretty n) = c :: l ∧
    isc 34 c = false ∧ isc 91 c = false ∧ isc 123 c = false ∧ isc 93 c = false ∧ isc 116 c = false ∧ isc 102 c = false).
  { intros n. destruct (pretty_N_scan n []) as [_ Hd]. rewrite app_nil_r in Hd.
    destruct (bytes (pretty n)) as [|c l]; [done|]. exists c, l. split; [done|].
    simpl in Hd. unfold digit_value in Hd. unfold isc.
    destruct (N.leb_spec 48 (byte_of c)); [|done]. destruct (N.leb_spec (byte_of c) 57); [|done].
    split_and!; apply N.eqb_neq; lia. }
  destruct (Z.ltb_spec z 0) as [Hneg|Hpos].
  - rewrite to_string_neg, bytes_app by done. exists (chr 45), (bytes (pretty (Z.to_N (- z)))). done.
  - rewrite to_string_nonneg by done. apply Hn.
Qed.

Scheme denotes_mut := Induction for denotes Sort Prop
with elements_mut := Induction for elements_denote Sort Prop
with members_mut := Induction for members_denote Sort Prop.

Lemma denotes_head (j : json) (t : list Ascii.ascii) :
  denotes j t → ∃ c l, t = c :: l ∧ isc 93 c = false.
Proof.
  destruct 1; try (eexists _, _; split_and!; reflexivity).
  - destruct (to_string_head z) as (c & l & -> & _ & _ & _ & ? & _). by exists c, l.
  - destruct b; eexists _, _; split_and!; reflexivity.
Qed.

Lemma elements_head (js : list json) (t : list Ascii.ascii) :
  elements_denote js t → ∃ c l, t = c :: l ∧ isc 93 c = false.
Proof.
  destruct 1 as [j t Hj|j t js ts Hj _]; destruct (denotes_head j t Hj) as (c & l & -> & Hc);
    eexists _, _; split; done.
Qed.

Lemma members_head (ms : list (string * json)) (t : list Ascii.ascii) :
  members_denote ms t → ∃ l, t = chr 34 :: l.
Proof. destruct 1; eexists; reflexivity. Qed.

Definition value_parses (j : json) (t : list Ascii.ascii) : Prop :=
  ∀ fuel rest, 2 * length t ≤ fuel → starts_with_digit rest = false →
    p_value fuel (t ++ rest) = Some (j, rest).

Definition elements_parse (js : list json) (t : list Ascii.ascii) : Prop :=
  ∀ fuel rest, 2 * length t + 1 ≤ fuel → p_elements fuel (t ++ chr 93 :: rest) = Some (js, rest).

Definition members_parse (ms : list (string * json)) (t : list Ascii.ascii) : Prop :=
  ∀ fuel rest, 2 * length t + 1 ≤ fuel → p_members fuel (t ++ chr 125 :: rest) = Some (ms, rest).

Lemma parse_int_step (z : Z) : value_parses (JInt z) (bytes (to_string z)).
Proof.
  intros fuel rest Hf Hrest. pose proof (p_int_complete z rest Hrest) as Hp.
  destruct (to_string_head z) as (c & l & E & H1 & H2 & H3 & _ & H4 & H5). rewrite E in *.
  destruct fuel as [|f]; [simpl in Hf; lia|]. cbn [app p_value]. by rewrite H1, H2, H3, H4, H5.
Qed.

Lemma parse_arr_step (js : list json) (t : list Ascii.ascii) :
  elements_denote js t → elements_parse js t → value_parses (JArr js) (chr 91 :: t ++ [chr 93]).
Proof.
  intros Hd IH fuel rest Hf _. simpl in Hf. rewrite length_app in Hf. simpl in Hf.
  destruct fuel as [|f]; [lia|]. cbn [app p_value].
  change (isc 34 (chr 91)) with false. change (isc 91 (chr 91)) with true. cbn iota.
  specialize (IH f rest ltac:(lia)). rewrite <-app_assoc. cbn [app].
  destruct (elements_head js t Hd) as (c & l & -> & Hc). cbn [app] in *. rewrite Hc. by rewrite IH.
Qed.

Lemma parse_obj_step (ms : list (string * json)) (t : list Ascii.ascii) :
  members_denote ms t → members_parse ms t → value_parses (JObj ms) (chr 123 :: t ++ [chr 125]).
Proof.
  intros Hd IH fuel rest Hf _. simpl in Hf. rewrite length_app in Hf. simpl in Hf.
  destruct fuel as [|f]; [lia|]. cbn [app p_value].
  change (isc 34 (chr 123)) with false. change (isc 91 (chr 123)) with false.
  change (isc 123 (chr 123)) with true. cbn iota.
  specialize (IH f rest ltac:(lia)). rewrite <-app_assoc. cbn [app].
  destruct (members_head ms t Hd) as (l & ->). cbn [app] in *.
  change (isc 125 (chr 34)) with false. cbn iota. by rewrite IH.
Qed.

Lemma parse_member_step (kt k : list Ascii.ascii) (j : json) (t tail : list Ascii.ascii) (f : nat) (c : Ascii.ascii) :
  str_body kt k → value_parses j t → 2 * length t ≤ f → starts_with_digit (c :: tail) = false →
  p_members (S f) ((in_quotes kt ++ chr 58 :: t) ++ c :: tail) =
    if isc 44 c then
      match p_members f tail with
      | Some (ms, rest') => Some ((of_bytes k, j) :: ms, rest')
      | None => None
      end
    else if isc 125 c then Some ([(of_bytes k, j)], tail) else None.
Proof.
  intros Hk Hj Hf Hc. unfold in_quotes. cbn [app]. rewrite <-!app_assoc. cbn [app p_members].
  change (isc 34 (chr 34)) with true. cbn iota. rewrite (p_str_complete kt k) by done.
  by rewrite (Hj f (c :: tail)).
Qed.

Lemma p_value_complete (j : json) (t : list Ascii.ascii) : denotes j t → value_parses j t.
Proof.
  apply (denotes_mut (λ j t _, value_parses j t) (λ js t _, elements_parse js t)
           (λ ms t _, members_parse ms t)); clear j t.
  - intros z _. apply parse_int_step.
  - intros t v Hb fuel rest Hf _. destruct fuel as [|f]; [simpl in Hf; lia|].
    unfold in_quotes. cbn [app p_value]. change (isc 34 (chr 34)) with true. cbn iota.
    rewrite <-app_assoc. simpl. by rewrite (p_str_complete t v).
  - intros b [|f] rest Hf _; [destruct b; simpl in Hf; lia|]. by destruct b.
  - intros [|f] rest Hf _; [simpl in Hf; lia|]. done.
  - intros js t Hd IH. by apply parse_arr_step.
  - intros [|f] rest Hf _; [simpl in Hf; lia|]. done.
  - intros ms t Hd IH. by apply parse_obj_step.
  - intros j t _ IH [|f] rest Hf; [lia|]. cbn [p_elements]. by rewrite IH by (done || lia).
  - intros j t js ts _ IHj _ IHjs [|f] rest Hf; [lia|]. rewrite length_app in Hf. simpl in Hf.
    rewrite <-app_assoc. cbn [app p_elements]. rewrite IHj by (done || lia).
    change (isc 44 (chr 44)) with true. cbn iota. by rewrite IHjs by lia.
  - intros kt k j t Hk _ IHj [|f] rest Hf; [lia|]. rewrite length_app in Hf. simpl in Hf.
    by rewrite (parse_member_step kt k j) by (done || lia).
  - intros kt k j t ms ts Hk _ IHj _ IHms [|f] rest Hf; [lia|].
    rewrite !length_app in Hf. simpl in Hf. rewrite <-app_assoc. cbn [app].
    rewrite (parse_member_step kt k j) by (done || lia).
    change (isc 44 (chr 44)) with true. cbn iota. by rewrite IHms by lia.
Qed.

End RefParserCorrect.

#[export] Instance RefParser_spec : JsonParserSpec RefParser.parser.
Proof.
  intros j t Hd _. unfold parse_json, RefParser.parser.
  pose proof (p_value_complete j (bytes t) Hd (S (2 * String.length t)) []) as H.
  rewrite app_nil_r, bytes_length in H. by rewrite H by (done || lia).
Qed.
