(* ===== verification/Session.v ===== *)
(** * Sessions, messages, events and the key-value store

    The data model of include/agent-cpp/agent.hpp and the small services every
    component uses: event hooks (src/core/events.cpp), logging
    (src/core/utils/utils.cpp), the memory store (src/core/memory/, the
    [*_memory] functions of src/core/agent.cpp), statistics and cancellation.

    Host code (callbacks, engine plugins, the clock, files) acts on an abstract
    host state [W]: a callback is a function on [W], so the model records what
    the library does around it and assumes nothing about it.  [Rt] is what one
    thread sees while it runs: the [Session], the host, the [ambient] thread
    locals and the event log of the graph chain it executes. *)
From stdpp Require Import base gmap strings list.
From Stdlib Require Import SpecFloat.
From S2P Require Import Prelude Arena.

(** ** Model input and output *)

Record TokenUsage := mkTokenUsage { prompt_tokens : Z; completion_tokens : Z; total_tokens : Z }.

Inductive DType := Float32 | Float16 | Int8 | Int32 | Int64 | UInt8.

Record TensorData := mkTensorData {
  tensor_name : string;
  tensor_dtype : DType;
  tensor_shape : list Z;
  tensor_data : list Ascii.ascii
}.

Record Media := mkMedia { media_path : string; media_mime : string }.

Inductive LogLevel := LogDebug | LogInfo | LogWarning | LogError.

Record ToolCall := mkToolCall { call_id : string; call_name : string; call_arguments : string }.

Record ToolResult := mkToolResult {
  result_text : string;
  result_media : list Media;
  result_tensors : list TensorData;
  result_is_error : bool
}.

Inductive PermissionDecision := Allow | Ask | Deny.

#[global] Instance PermissionDecision_eq_dec : EqDecision PermissionDecision.
Proof. solve_decision. Defined.

(** The views of one request: the same data as the messages they point into. *)
Record MessageView := mkMessageView {
  view_role : string;
  view_content : string;
  view_tool_calls : list ToolCall;
  view_tool_call_id : string;
  view_tensors : list TensorData;
  view_media : list Media
}.

Record InferResponse := mkInferResponse {
  resp_message : MessageView;
  resp_usage : TokenUsage;
  resp_tensors : list TensorData
}.

Inductive AiProvider := Mock | Engine.

Inductive EventType :=
| OnTurnStart | OnInferenceSubmit | OnInferenceComplete | OnToolCall | OnToolResult
| OnStateTransition | OnCompression | OnPrune | OnSubAgentComplete.

#[global] Instance EventType_eq_dec : EqDecision EventType.
Proof. solve_decision. Defined.

Record TurnStats := mkTurnStats {
  ts_prompt_tokens : Z; ts_completion_tokens : Z; ts_tool_calls : Z;
  ts_compressions : Z; ts_prune_cycles : Z; ts_turns : Z
}.

Record SessionStats := mkSessionStats {
  total_prompt_tokens : Z; total_completion_tokens : Z; total_tool_calls : Z;
  total_turns : Z; total_compressions : Z; total_prune_cycles : Z
}.

Definition no_turn_stats : TurnStats := mkTurnStats 0 0 0 0 0 0.
Definition no_session_stats : SessionStats := mkSessionStats 0 0 0 0 0 0.

Record Message := mkMessage {
  role : string;
  content : string;
  tool_calls : list ToolCall;
  tool_call_id : string;
  tensors : list TensorData;
  media : list Media;
  token_count : Z
}.

(** A message with a role and a text only, as the code builds them. *)
Definition text_message (r c : string) : Message := mkMessage r c [] "" [] [] (-1).

Record FlowMemory := mkFlowMemory {
  fm_id : string;
  history : list Message;
  fm_stats : TurnStats
}.

Definition set_history (m : FlowMemory) (h : list Message) : FlowMemory :=
  mkFlowMemory (fm_id m) h (fm_stats m).
Definition push_message (m : FlowMemory) (msg : Message) : FlowMemory :=
  set_history m (history m ++ [msg]).
Definition set_fm_stats (m : FlowMemory) (s : TurnStats) : FlowMemory :=
  mkFlowMemory (fm_id m) (history m) s.

(** ** Graph events (logged by the graph runtime and its tool hooks) *)

Inductive GraphEventType :=
| NodeStart | NodeEnd | StateWrite | EvToolCall | EvToolResult | EvInterrupt | Resume
| EvCheckpoint | NodeFailed | Fork.

#[global] Instance GraphEventType_eq_dec : EqDecision GraphEventType.
Proof. solve_decision. Defined.

Record GraphEvent := mkGraphEvent {
  ev_type : GraphEventType;
  ev_node : string;
  ev_key : string;
  timestamp_ms : Z;
  ev_payload : string
}.

Section Types.
Context {W : Type}.

(** ** Host callbacks *)

Record EventHook := mkEventHook {
  hook_event : EventType;
  hook_event_callback : option (EventType → string → W → W)
}.

(** [Tool::callback]: a host function, or the built-in that acts on the
    session and the active conversation (get_context_compressor_tool). *)
Inductive Callback :=
| HostCallback (f : string → W → W * Result string)
| CompressorCallback.

Record Skill := mkSkill { skill_name : string; skill_description : string; skill_path : string }.

(** [Tool::parts_callback]: a host function, [remote_tool_callback] with the
    MCP server its [user_data] leads to (calling that server is a host action),
    or [skill_loader_callback], which reads the skills of the session its
    [user_data] leads to. *)
Inductive PartsCallback :=
| HostParts (f : string → W → W * Result ToolResult)
| RemoteParts (server : Z) (f : string → W → W * Result ToolResult)
| SkillParts (f : gmap string Skill → string → W → Result ToolResult).

Definition run_parts (c : PartsCallback) (sk : gmap string Skill) (args : string) (w : W) : W * Result ToolResult :=
  match c with HostParts f => f args w | RemoteParts _ f => f args w | SkillParts f => (w, f sk args w) end.

(** [DataSource]: its query with [state] and [user_data]; when the query is
    [server_query], the address of the MCP server in [state] and its log sink. *)
Record DataSource := mkDataSource {
  ds_name : string;
  ds_query : option (string → W → W * Result string);
  ds_server : option (Z * (LogLevel → string → W → W))
}.

Record Tool := mkTool {
  tool_name : string;
  tool_description : string;
  parameter_schema : string;
  callback : option Callback;
  parts_callback : option PartsCallback
}.

(** A host [StoreOps] table (e.g. the SQLite store); its state is host state. *)
Record StoreOps := mkStoreOps {
  store_put_fn : string → string → W → W * Result unit;
  store_get_fn : string → W → W * Result string;
  store_clear_fn : W → W * Result unit
}.

Record Config := mkConfig {
  provider : AiProvider;
  engine : string;
  engine_options : string;
  config_model : string;
  workspace_dir : string;
  store : option StoreOps;
  tools : list Tool;
  context_window : Z;
  max_tokens : Z;
  max_tool_call_rounds : Z;
  max_parallel_subagents : Z;
  logger : option (LogLevel → string → W → W);
  permission_check : option (string → string → W → W * PermissionDecision);
  permission_prompt : option (string → string → W → W * bool);
  default_task : Z
}.

Record InferRequest := mkInferRequest {
  req_messages : list MessageView;
  req_max_tokens : Z;
  req_stream : bool;
  req_on_token : option (string → W → W);
  req_task : Z;
  req_params_json : string;
  req_temperature : spec_float
}.

(** The part of EngineState (src/core/providers/engine_provider.cpp) the turn
    loop reads, with the engine round trip ([run_engine]), the token counter and
    the cache reset as functions, which EngineProvider fills; [es_run] gets the
    configuration of the session and the tools the running node is allowed, the
    checked task (0 = automatic) and the arena the response is copied into. *)
Record EngineState := mkEngineState {
  es_name : string;
  es_caps : Z;
  es_flags : Z;
  tool_media_rejected : bool;
  es_run : Config → list string → Z → InferRequest → Arena → W → W * Arena * Result InferResponse;
  es_count_tokens : string → W → W * Result Z;
  es_reset_cache : W → W * Result unit
}.

Record Session := mkSession {
  config : Config;
  arena : Arena;
  worker_arenas : list Arena;
  event_hooks : list EventHook;
  provider_state : option EngineState;
  memory_state : option (gmap string string);
  stats : SessionStats;
  tool_by_name : gmap string nat;
  tools_system_prompt : string;
  skills_system_prompt : string;
  skills : gmap string Skill;
  log_file : option (LogLevel → string → W → W);
  cancel_flag : Z;
  data_sources : gmap string DataSource;
  retained_data_sources : list DataSource
}.

(** [ToolHook]: a host hook, or one of the two hooks the graph runtime wraps
    around a node's own hooks to fill the event log. *)
Inductive HookFn :=
| HostHook (f : Session → FlowMemory → string → string → string → W → Session * FlowMemory * W)
| LogToolPre (node : string)
| LogToolPost (node : string).

Inductive When := Pre | Post.

#[global] Instance When_eq_dec : EqDecision When.
Proof. solve_decision. Defined.

Record ToolHook := mkToolHook {
  hook_when : When;
  hook_tool_name : string;
  hook_callback : option HookFn
}.

(** The thread locals of src/core/executor/ambient_turn.hpp.  [active_memory]
    holds the conversation the pointer refers to; [pause_fn_set] says whether
    [tool_pause_fn] is [pause_before_tools]. *)
Record Ambient := mkAmbient {
  active_memory : option FlowMemory;
  active_hooks : list ToolHook;
  allowed_tools : list string;
  worker_arena_index : nat;
  pause_fn_set : bool;
  tools_paused : bool;
  tool_call_preapproved : bool;
  summary_slab : Arena (* thread-local arena of context_compressor.cpp *)
}.

Record Rt := mkRt {
  rt_session : Session;
  rt_world : W;
  rt_ambient : Ambient;
  rt_events : list GraphEvent;
  rt_on_event : option (GraphEvent → W → W)
}.

(** Computations of one thread. *)
Definition M (A : Type) : Type := Rt → Rt * A.

End Types.

Arguments EventHook W : clear implicits.
Arguments Callback W : clear implicits.
Arguments PartsCallback W : clear implicits.
Arguments DataSource W : clear implicits.
Arguments Tool W : clear implicits.
Arguments StoreOps W : clear implicits.
Arguments Config W : clear implicits.
Arguments InferRequest W : clear implicits.
Arguments EngineState W : clear implicits.
Arguments Session W : clear implicits.
Arguments HookFn W : clear implicits.
Arguments ToolHook W : clear implicits.
Arguments Ambient W : clear implicits.
Arguments Rt W : clear implicits.
Arguments M W A : clear implicits.

(** [InferRequest::temperature] unless a caller sets it: -1, the session's. *)
Definition no_temperature : spec_float := S754_finite true 8388608 (-23).

(** What the library asks of the host platform: the wall clock, the address
    its allocator returns for a slab of a given size, and
    [std::filesystem::absolute(p).lexically_normal()] ([None] on an error). *)
Class Host (W : Type) := {
  now_ms : W → W * Z;
  new_char : Z → Z;
  absolute_path : W → string → option string
}.

#[global] Instance M_ret {W : Type} : MRet (M W) := λ A a s, (s, a).
#[global] Instance M_bind {W : Type} : MBind (M W) := λ A B f m s, let '(s', a) := m s in f a s'.

Section Services.
Context {W : Type}.
Implicit Types (s : Session W) (rt : Rt W).

(** ** Record updates *)

Definition set_arena s a : Session W :=
  mkSession (config s) a (worker_arenas s) (event_hooks s) (provider_state s) (memory_state s) (stats s)
    (tool_by_name s) (tools_system_prompt s) (skills_system_prompt s) (skills s) (log_file s) (cancel_flag s)
    (data_sources s) (retained_data_sources s).
Definition set_worker_arenas s l : Session W :=
  mkSession (config s) (arena s) l (event_hooks s) (provider_state s) (memory_state s) (stats s)
    (tool_by_name s) (tools_system_prompt s) (skills_system_prompt s) (skills s) (log_file s) (cancel_flag s)
    (data_sources s) (retained_data_sources s).
Definition set_event_hooks s l : Session W :=
  mkSession (config s) (arena s) (worker_arenas s) l (provider_state s) (memory_state s) (stats s)
    (tool_by_name s) (tools_system_prompt s) (skills_system_prompt s) (skills s) (log_file s) (cancel_flag s)
    (data_sources s) (retained_data_sources s).
Definition set_provider_state s p : Session W :=
  mkSession (config s) (arena s) (worker_arenas s) (event_hooks s) p (memory_state s) (stats s)
    (tool_by_name s) (tools_system_prompt s) (skills_system_prompt s) (skills s) (log_file s) (cancel_flag s)
    (data_sources s) (retained_data_sources s).
Definition set_memory_state s m : Session W :=
  mkSession (config s) (arena s) (worker_arenas s) (event_hooks s) (provider_state s) m (stats s)
    (tool_by_name s) (tools_system_prompt s) (skills_system_prompt s) (skills s) (log_file s) (cancel_flag s)
    (data_sources s) (retained_data_sources s).
Definition set_stats s x : Session W :=
  mkSession (config s) (arena s) (worker_arenas s) (event_hooks s) (provider_state s) (memory_state s) x
    (tool_by_name s) (tools_system_prompt s) (skills_system_prompt s) (skills s) (log_file s) (cancel_flag s)
    (data_sources s) (retained_data_sources s).
Definition set_cancel_flag s z : Session W :=
  mkSession (config s) (arena s) (worker_arenas s) (event_hooks s) (provider_state s) (memory_state s) (stats s)
    (tool_by_name s) (tools_system_prompt s) (skills_system_prompt s) (skills s) (log_file s) z
    (data_sources s) (retained_data_sources s).
Definition set_tool_index s by_name prompt skills_prompt : Session W :=
  mkSession (config s) (arena s) (worker_arenas s) (event_hooks s) (provider_state s) (memory_state s) (stats s)
    by_name prompt skills_prompt (skills s) (log_file s) (cancel_flag s)
    (data_sources s) (retained_data_sources s).

Definition set_skills s (sk : gmap string Skill) : Session W :=
  mkSession (config s) (arena s) (worker_arenas s) (event_hooks s) (provider_state s) (memory_state s) (stats s)
    (tool_by_name s) (tools_system_prompt s) (skills_system_prompt s) sk (log_file s) (cancel_flag s)
    (data_sources s) (retained_data_sources s).

Definition set_data_sources s d l : Session W :=
  mkSession (config s) (arena s) (worker_arenas s) (event_hooks s) (provider_state s) (memory_state s) (stats s)
    (tool_by_name s) (tools_system_prompt s) (skills_system_prompt s) (skills s) (log_file s) (cancel_flag s) d l.

Definition with_session rt s : Rt W := mkRt s (rt_world rt) (rt_ambient rt) (rt_events rt) (rt_on_event rt).
Definition with_world rt w : Rt W := mkRt (rt_session rt) w (rt_ambient rt) (rt_events rt) (rt_on_event rt).
Definition with_ambient rt a : Rt W := mkRt (rt_session rt) (rt_world rt) a (rt_events rt) (rt_on_event rt).
Definition with_events rt l : Rt W := mkRt (rt_session rt) (rt_world rt) (rt_ambient rt) l (rt_on_event rt).

Definition set_active_memory (a : Ambient W) m : Ambient W :=
  mkAmbient m (active_hooks a) (allowed_tools a) (worker_arena_index a) (pause_fn_set a) (tools_paused a)
    (tool_call_preapproved a) (summary_slab a).
Definition set_allowed_tools (a : Ambient W) l : Ambient W :=
  mkAmbient (active_memory a) (active_hooks a) l (worker_arena_index a) (pause_fn_set a) (tools_paused a)
    (tool_call_preapproved a) (summary_slab a).
Definition set_tools_paused (a : Ambient W) b : Ambient W :=
  mkAmbient (active_memory a) (active_hooks a) (allowed_tools a) (worker_arena_index a) (pause_fn_set a) b
    (tool_call_preapproved a) (summary_slab a).
Definition set_preapproved (a : Ambient W) b : Ambient W :=
  mkAmbient (active_memory a) (active_hooks a) (allowed_tools a) (worker_arena_index a) (pause_fn_set a)
    (tools_paused a) b (summary_slab a).
Definition set_summary_slab (a : Ambient W) x : Ambient W :=
  mkAmbient (active_memory a) (active_hooks a) (allowed_tools a) (worker_arena_index a) (pause_fn_set a)
    (tools_paused a) (tool_call_preapproved a) x.

(** ** Primitive computations *)

Definition ask {A} (f : Rt W → A) : M W A := λ rt, (rt, f rt).
Definition modify (f : Rt W → Rt W) : M W unit := λ rt, (f rt, tt).
Definition modify_session (f : Session W → Session W) : M W unit :=
  modify (λ rt, with_session rt (f (rt_session rt))).
Definition modify_ambient (f : Ambient W → Ambient W) : M W unit :=
  modify (λ rt, with_ambient rt (f (rt_ambient rt))).
Definition host {A} (f : W → W * A) : M W A := λ rt, let '(w, a) := f (rt_world rt) in (with_world rt w, a).
Definition host_ (f : W → W) : M W unit := host (λ w, (f w, tt)).

(** ** Logging (utils::log) *)

Definition log (level : LogLevel) (msg : string) : M W unit :=
  s ← ask rt_session;
  (match logger (config s) with Some f => host_ (f level msg) | None => mret tt end) ;;
  match log_file s with Some f => host_ (f level msg) | None => mret tt end.

(** ** Events (src/core/events.cpp) *)

Definition register_event_hook (s : Session W) (type : EventType) (cb : option (EventType → string → W → W)) :
    Session W :=
  set_event_hooks s (event_hooks s ++ [mkEventHook type cb]).

Definition fire_hook (type : EventType) (payload : string) (w : W) (h : EventHook W) : W :=
  if bool_decide (hook_event h = type) then
    match hook_event_callback h with Some f => f type payload w | None => w end
  else w.

(** Every hook registered for the type runs, in registration order. *)
Definition trigger_event (type : EventType) (payload : string) : M W unit :=
  s ← ask rt_session;
  host_ (λ w, foldl (fire_hook type payload) w (event_hooks s)).

(** ** The memory store (src/core/memory/in_memory_store.cpp, src/core/agent.cpp) *)

Definition put_in_memory (kv : gmap string string) (key value : string) : gmap string string :=
  <[key := value]> kv.

Definition get_in_memory (kv : gmap string string) (key : string) : Result string :=
  match kv !! key with
  | Some v => Ok v
  | None => fail KeyNotFound ("Key not found: " +:+ key)
  end.

(** [open_in_memory]: the state of the built-in store is a fresh map. *)
Definition open_in_memory (s : Session W) : Session W := set_memory_state s (Some ∅).

Definition not_initialized {A} : Result A := fail ProviderInitFailed "Memory store not initialized.".

Definition store_memory (key value : string) : M W (Result unit) :=
  s ← ask rt_session;
  match memory_state s with
  | None => mret not_initialized
  | Some kv =>
      match store (config s) with
      | Some ops => host (store_put_fn ops key value)
      | None => modify_session (λ s, set_memory_state s (Some (put_in_memory kv key value))) ;; mret (Ok tt)
      end
  end.

Definition retrieve_memory (key : string) : M W (Result string) :=
  s ← ask rt_session;
  match memory_state s with
  | None => mret not_initialized
  | Some kv =>
      match store (config s) with
      | Some ops => host (store_get_fn ops key)
      | None => mret (get_in_memory kv key)
      end
  end.

Definition clear_memory : M W (Result unit) :=
  s ← ask rt_session;
  match memory_state s with
  | None => mret not_initialized
  | Some kv =>
      match store (config s) with
      | Some ops => host (store_clear_fn ops)
      | None => modify_session (λ s, set_memory_state s (Some ∅)) ;; mret (Ok tt)
      end
  end.

(** ** Statistics and cancellation *)

Definition reset_stats (s : Session W) : Session W := set_stats s no_session_stats.
Definition request_cancel (s : Session W) : Session W := set_cancel_flag s 1.
Definition clear_cancel (s : Session W) : Session W := set_cancel_flag s 0.
Definition cancel_requested (s : Session W) : bool := negb (cancel_flag s =? 0)%Z.

Definition add_tool_call_stat (x : SessionStats) : SessionStats :=
  mkSessionStats (total_prompt_tokens x) (total_completion_tokens x) (total_tool_calls x + 1)
    (total_turns x) (total_compressions x) (total_prune_cycles x).
Definition add_turn_stat (u : TokenUsage) (x : SessionStats) : SessionStats :=
  mkSessionStats (total_prompt_tokens x + prompt_tokens u) (total_completion_tokens x + completion_tokens u)
    (total_tool_calls x) (total_turns x + 1) (total_compressions x) (total_prune_cycles x).
Definition add_compression_stat (x : SessionStats) : SessionStats :=
  mkSessionStats (total_prompt_tokens x) (total_completion_tokens x) (total_tool_calls x)
    (total_turns x) (total_compressions x + 1) (total_prune_cycles x).

Definition ts_add_tool_call (x : TurnStats) : TurnStats :=
  mkTurnStats (ts_prompt_tokens x) (ts_completion_tokens x) (ts_tool_calls x + 1) (ts_compressions x)
    (ts_prune_cycles x) (ts_turns x).
Definition ts_add_turn (u : TokenUsage) (x : TurnStats) : TurnStats :=
  mkTurnStats (ts_prompt_tokens x + prompt_tokens u) (ts_completion_tokens x + completion_tokens u)
    (ts_tool_calls x) (ts_compressions x) (ts_prune_cycles x) (ts_turns x + 1).
Definition ts_add_compression (x : TurnStats) : TurnStats :=
  mkTurnStats (ts_prompt_tokens x) (ts_completion_tokens x) (ts_tool_calls x) (ts_compressions x + 1)
    (ts_prune_cycles x) (ts_turns x).
Definition ts_add_prune (x : TurnStats) : TurnStats :=
  mkTurnStats (ts_prompt_tokens x) (ts_completion_tokens x) (ts_tool_calls x) (ts_compressions x)
    (ts_prune_cycles x + 1) (ts_turns x).

(** ** The arena of the current thread (ambient::current_arena) *)

Definition current_arena (a : Ambient W) (s : Session W) : Arena :=
  match worker_arenas s !! worker_arena_index a with
  | Some wa => wa
  | None => arena s
  end.

Definition set_current_arena (a : Ambient W) (s : Session W) (x : Arena) : Session W :=
  match worker_arenas s !! worker_arena_index a with
  | Some _ => set_worker_arenas s (<[worker_arena_index a := x]> (worker_arenas s))
  | None => set_arena s x
  end.

(** ** Lemmas *)

Lemma store_then_retrieve rt (k v k' : string) :
  memory_state (rt_session rt) ≠ None → store (config (rt_session rt)) = None →
  let rt' := (store_memory k v rt).1 in
  (store_memory k v rt).2 = Ok tt ∧
  (retrieve_memory k' rt').2 =
    (if str_eqb k k' then Ok v else (retrieve_memory k' rt).2).
Proof.
  intros Hm Hs. destruct (memory_state (rt_session rt)) as [kv|] eqn:Em; [|done].
  unfold store_memory, retrieve_memory, ask, mbind, M_bind. rewrite Em, Hs. simpl.
  unfold modify_session, modify. simpl. rewrite Hs. split; [done|].
  unfold get_in_memory, put_in_memory. simpl.
  destruct (str_eqb k k') eqn:E.
  - apply str_eqb_true in E as ->. by rewrite lookup_insert_eq.
  - apply str_eqb_false in E. by rewrite lookup_insert_ne.
Qed.

End Services.

(** ** Framing: what a computation leaves alone

    [preserves R m]: every run of [m] relates the state before to the state
    after by [R].  For a preorder the property composes along the monad, so
    that one proof per primitive gives it for whole operations. *)

Section Preserves.
Context {W : Type} (R : Rt W → Rt W → Prop) `{!PreOrder R}.

Definition preserves {A} (m : M W A) : Prop := ∀ rt, R rt (m rt).1.

Lemma preserves_ret {A} (a : A) : preserves (mret a).
Proof. intros rt. simpl. reflexivity. Qed.

Lemma preserves_ask {A} (f : Rt W → A) : preserves (ask f).
Proof. intros rt. simpl. reflexivity. Qed.

Lemma preserves_bind {A B} (m : M W A) (k : A → M W B) :
  preserves m → (∀ a, preserves (k a)) → preserves (m ≫= k).
Proof.
  intros Hm Hk rt. unfold mbind, M_bind. specialize (Hm rt). destruct (m rt) as [rt' a]. simpl in Hm.
  transitivity rt'; [done|apply Hk].
Qed.

Lemma preserves_modify (f : Rt W → Rt W) : (∀ rt, R rt (f rt)) → preserves (modify f).
Proof. intros Hf rt. apply Hf. Qed.

(** Reading the state first: the continuation is only run at that state. *)
Lemma preserves_with {A B} (f : Rt W → A) (k : A → M W B) :
  (∀ rt, R rt (k (f rt) rt).1) → preserves (ask f ≫= k).
Proof. intros Hk rt. apply Hk. Qed.

End Preserves.

(** Decomposes a [preserves] goal along binds and case distinctions; what is
    left are the primitives, closed by the hints of the relation at hand. *)
Ltac preserve_step :=
  lazymatch goal with
  | |- preserves _ (mret _) => apply preserves_ret; exact _
  | |- preserves _ (ask _) => apply preserves_ask; exact _
  | |- preserves _ (_ ≫= _) => apply preserves_bind; [exact _| |intros ?]
  | |- preserves _ (match ?x with _ => _ end) => destruct x
  | |- preserves _ (let '(_, _) := ?x in _) => destruct x
  end.
Ltac preserve := repeat first [preserve_step | progress (eauto with preserve)].

Create HintDb preserve.

(** The thread locals are left as they are. *)
Definition same_ambient {W : Type} (rt rt' : Rt W) : Prop := rt_ambient rt' = rt_ambient rt.

#[global] Instance same_ambient_preorder {W : Type} : PreOrder (@same_ambient W).
Proof. split; unfold same_ambient; [by intros ?|]. intros ??? -> ->. done. Qed.

(** The configuration is left as it is. *)
Definition same_config {W : Type} (rt rt' : Rt W) : Prop := config (rt_session rt') = config (rt_session rt).

#[global] Instance same_config_preorder {W : Type} : PreOrder (@same_config W).
Proof. split; unfold same_config; [by intros ?|]. intros ??? -> ->. done. Qed.

Section Frames.
Context {W : Type}.

Lemma ambient_host {A} (f : W → W * A) : preserves same_ambient (host f).
Proof. intros rt. unfold host. by destruct (f (rt_world rt)). Qed.

Lemma config_host {A} (f : W → W * A) : preserves same_config (host f).
Proof. intros rt. unfold host. by destruct (f (rt_world rt)). Qed.

Lemma ambient_modify_session (f : Session W → Session W) : preserves same_ambient (modify_session f).
Proof. done. Qed.

Lemma config_modify_ambient (f : Ambient W → Ambient W) : preserves same_config (modify_ambient f).
Proof. done. Qed.

Lemma config_set_stats (f : SessionStats → SessionStats) :
  preserves same_config (modify_session (λ s, set_stats s (f (stats s))) : M W unit).
Proof. done. Qed.

Lemma config_set_arena (a : Ambient W) (x : Arena) :
  preserves same_config (modify_session (λ s, set_current_arena a s x)).
Proof.
  intros rt. unfold same_config, modify_session, modify, set_current_arena. simpl.
  by destruct (worker_arenas _ !! _).
Qed.

Lemma config_set_memory (kv : option (gmap string string)) :
  preserves same_config (modify_session (λ s, set_memory_state s kv) : M W unit).
Proof. done. Qed.

End Frames.

#[export] Hint Resolve ambient_host config_host ambient_modify_session config_modify_ambient config_set_stats
  config_set_arena config_set_memory : preserve.
#[export] Hint Unfold host_ : preserve.

Section FrameOps.
Context {W : Type}.

Lemma ambient_log l msg : preserves same_ambient (log l msg : M W unit).
Proof. unfold log, host_. preserve. Qed.

Lemma config_log l msg : preserves same_config (log l msg : M W unit).
Proof. unfold log, host_. preserve. Qed.

Lemma ambient_trigger t p : preserves same_ambient (trigger_event t p : M W unit).
Proof. unfold trigger_event, host_. preserve. Qed.

Lemma config_trigger t p : preserves same_config (trigger_event t p : M W unit).
Proof. unfold trigger_event, host_. preserve. Qed.

Lemma ambient_store k v : preserves same_ambient (store_memory k v : M W (Result unit)).
Proof. unfold store_memory. preserve. Qed.

Lemma config_store k v : preserves same_config (store_memory k v : M W (Result unit)).
Proof. unfold store_memory. preserve. Qed.

Lemma ambient_retrieve k : preserves same_ambient (retrieve_memory k : M W (Result string)).
Proof. unfold retrieve_memory. preserve. Qed.

Lemma config_retrieve k : preserves same_config (retrieve_memory k : M W (Result string)).
Proof. unfold retrieve_memory. preserve. Qed.

End FrameOps.

#[export] Hint Resolve ambient_log config_log ambient_trigger config_trigger ambient_store config_store
  ambient_retrieve config_retrieve : preserve.

(** ** A concrete session, used by the examples of the development *)

Module Sample.

Definition cfg : Config unit :=
  mkConfig Mock "" "" "" "" None [] 4096 512 10 4 None None None 0.

Definition session : Session unit :=
  mkSession cfg (Arena_new 4096 65536) [] [] None (Some ∅) no_session_stats ∅ "" "" ∅ None 0 ∅ [].

Definition ambient : Ambient unit :=
  mkAmbient None [] [] 0 false false false (Arena_new 1048576 0).

Definition rt : Rt unit := mkRt session tt ambient [] None.

#[global] Instance sample_host : Host unit :=
  {| now_ms := λ w, (w, 0%Z); new_char := λ _, 1048576%Z; absolute_path := λ _ p, Some ("/" +:+ p) |}.

End Sample.
