(* ===== verification/Provider.v ===== *)
(** * Providers (src/core/providers/) and the tool list text

    The provider dispatch of src/core/providers/provider_ops.cpp, the built-in
    mock, and the engine-facing decisions of engine_provider.cpp: which task a
    request runs, what system text is injected, which tool-produced media is
    sent.  The engine round trip itself ([run_engine]) is the function [es_run]
    of the engine's state, which EngineProvider defines. *)
From stdpp Require Import base gmap strings list.
From Stdlib Require Import Lia ZArith.
From S2P Require Import Prelude Arena Session.

(** ** Capability bits and engine flags (include/agent-cpp/engine_abi.h) *)

Definition AGENT_CAP_TEXT_GEN : Z := 1.
Definition AGENT_CAP_TOOL_CALL : Z := 2.
Definition AGENT_CAP_VISION_IN : Z := 4.
Definition AGENT_CAP_AUDIO_IN : Z := 8.
Definition AGENT_CAP_VIDEO_IN : Z := 16.
Definition AGENT_CAP_EMBED : Z := 16384.
Definition AGENT_CAP_RERANK : Z := 32768.
Definition AGENT_ENGINE_FLAG_CONCURRENT : Z := 1.
Definition AGENT_ENGINE_FLAG_NATIVE_TOOLS : Z := 2.

Definition has_bits (flags mask : Z) : bool := negb (Z.land flags mask =? 0)%Z.

(** The automatic task: text generation when the engine has it (or declares
    nothing), otherwise its lowest capability bit, converted to 32 bits. *)
Definition engine_task (caps : Z) : Z :=
  if has_bits caps AGENT_CAP_TEXT_GEN || (caps =? 0)%Z then AGENT_CAP_TEXT_GEN
  else (Z.land caps (u64 (u64 (Z.lnot caps) + 1)) `mod` 4294967296)%Z.

(** An explicit task must be one capability bit the engine declares. *)
Definition check_task (name : string) (caps task : Z) : Result unit :=
  if (task =? 0)%Z || negb (Z.land task (task - 1) =? 0)%Z then
    fail InvalidConfig ("Engine task must be exactly one AGENT_CAP_* bit (got " +:+ to_string task +:+ ").")
  else if (Z.land caps task =? 0)%Z then
    fail UnsupportedProvider
      ("Engine '" +:+ name +:+ "' does not declare the requested capability (task " +:+ to_string task +:+ ").")
  else Ok tt.

(** ** The tool list (append_tool_list of src/core/tools/tools_ops.cpp) *)

Definition tool_allowed (allowed : list string) (name : string) : bool :=
  match allowed with
  | [] => true
  | _ => existsb (λ a, str_eqb a name) allowed
  end.

Section Provider.
Context {W : Type}.
Implicit Types (s : Session W) (a : Ambient W).

Definition tool_line (t : Tool W) : string :=
  "- " +:+ tool_name t +:+ ": " +:+ tool_description t +:+ nl +:+ "  Schema: " +:+ parameter_schema t +:+ nl.

Definition tool_call_instructions : string :=
  "When you need a tool, respond with ONLY a single JSON object of " +:+
  "the exact form {" +:+ String (Ascii.ascii_of_nat 34) "name" +:+ String (Ascii.ascii_of_nat 34) ": " +:+
  String (Ascii.ascii_of_nat 34) "tool_name" +:+ String (Ascii.ascii_of_nat 34) ", " +:+
  String (Ascii.ascii_of_nat 34) "arguments" +:+ String (Ascii.ascii_of_nat 34) ": {...}} and " +:+
  "stop. Wait for the tool result before continuing.".

(** The text appended to [out]; empty when no tool is listed. *)
Definition append_tool_list (ts : list (Tool W)) (allowed : list string) : string :=
  match filter (λ t, tool_allowed allowed (tool_name t) = true) ts with
  | [] => ""
  | listed =>
      "You have access to the following tools:" +:+ nl +:+
      foldr (λ t acc, tool_line t +:+ acc) "" listed +:+ tool_call_instructions
  end.

(** ** Provider dispatch *)

Definition supports_parallel s : bool :=
  match provider (config s), provider_state s with
  | Engine, Some es => has_bits (es_flags es) AGENT_ENGINE_FLAG_CONCURRENT
  | _, _ => false
  end.

Definition injected_system_text a s : string :=
  match provider (config s), provider_state s with
  | Engine, Some es =>
      let native := has_bits (es_flags es) AGENT_ENGINE_FLAG_NATIVE_TOOLS in
      match allowed_tools a with
      | [] => if native then skills_system_prompt s else tools_system_prompt s
      | allowed =>
          let with_skills := negb (is_empty (skills_system_prompt s)) && tool_allowed allowed "use_skill" in
          if native then (if with_skills then skills_system_prompt s else "")
          else
            let buf := append_tool_list (tools (config s)) allowed in
            if with_skills then
              (if is_empty buf then buf else buf +:+ nl +:+ nl) +:+ skills_system_prompt s
            else buf
      end
  | _, _ => ""
  end.

Definition accepts_tool_media s (mime : string) : bool :=
  match provider (config s) with
  | Mock => true
  | Engine =>
      match provider_state s with
      | None => false
      | Some es =>
          if tool_media_rejected es then false
          else if starts_with "image/" mime then has_bits (es_caps es) AGENT_CAP_VISION_IN
          else if starts_with "audio/" mime then has_bits (es_caps es) AGENT_CAP_AUDIO_IN
          else if starts_with "video/" mime then has_bits (es_caps es) AGENT_CAP_VIDEO_IN
          else false
      end
  end.

Definition reject_tool_media s : Session W :=
  match provider (config s), provider_state s with
  | Engine, Some es =>
      set_provider_state s
        (Some (mkEngineState (es_name es) (es_caps es) (es_flags es) true (es_run es) (es_count_tokens es)
           (es_reset_cache es)))
  | _, _ => s
  end.

(** [ops->count_tokens]: [None] when the provider has no token counter. *)
Definition count_tokens (text : string) : M W (option (Result Z)) :=
  s ← ask rt_session;
  match provider (config s) with
  | Mock => mret None
  | Engine =>
      match provider_state s with
      | Some es => r ← host (es_count_tokens es text); mret (Some r)
      | None => mret (Some (fail UnsupportedProvider "Engine does not count tokens."))
      end
  end.

Definition clear_provider_kv_cache : M W (Result unit) :=
  s ← ask rt_session;
  match provider (config s), provider_state s with
  | Engine, Some es => host (es_reset_cache es)
  | _, _ => mret (Ok tt)
  end.

Definition infer_mock (req : InferRequest W) : M W (Result InferResponse) :=
  s ← ask rt_session;
  a ← ask rt_ambient;
  let task := if (req_task req =? 0)%Z then default_task (config s) else req_task req in
  if negb (task =? 0)%Z && negb (task =? AGENT_CAP_TEXT_GEN)%Z then
    mret (fail UnsupportedProvider "The mock provider only performs text generation.")
  else
    (match req_stream req, req_on_token req with
     | true, Some f => host_ (f "Mock Response Streamed")
     | _, _ => mret tt
     end) ;;
    let '(ar, text) := allocate_string (current_arena a s) (bytes "Mock Response") in
    modify_session (λ s, set_current_arena a s ar) ;;
    let body := match text with Some (_, b) => of_bytes b | None => "" end in
    mret (Ok (mkInferResponse (mkMessageView "assistant" body [] "" [] []) (mkTokenUsage 2 2 4) [])).

Definition engine_not_initialized {A} : Result A := fail ProviderInitFailed "Engine not initialized.".

(** [run_engine] with the response copied into [ar]. *)
Definition run_engine (es : EngineState W) (task : Z) (req : InferRequest W) (ar : Arena) :
    M W (Arena * Result InferResponse) :=
  s ← ask rt_session;
  a ← ask rt_ambient;
  host (λ w, let '(w', ar', r) := es_run es (config s) (allowed_tools a) task req ar w in (w', (ar', r))).

Definition infer_task (task : Z) (req : InferRequest W) (ar : Arena) : M W (Arena * Result InferResponse) :=
  s ← ask rt_session;
  match provider (config s) with
  | Mock => mret (ar, fail UnsupportedProvider
                        "This task needs an engine provider (Config::provider = AiProvider::Engine).")
  | Engine =>
      match provider_state s with
      | None => mret (ar, engine_not_initialized)
      | Some es =>
          match check_task (es_name es) (es_caps es) task with
          | Fail e => mret (ar, Fail e)
          | Ok _ => run_engine es task req ar
          end
      end
  end.

(** Runs on the thread's own arena and keeps what was allocated in it. *)
Definition on_current_arena {A} (f : Arena → M W (Arena * A)) : M W A :=
  s ← ask rt_session;
  a ← ask rt_ambient;
  '(ar, r) ← f (current_arena a s);
  modify_session (λ s, set_current_arena a s ar) ;;
  mret r.

Definition infer_engine (req : InferRequest W) : M W (Result InferResponse) :=
  s ← ask rt_session;
  let task := if (req_task req =? 0)%Z then default_task (config s) else req_task req in
  if (task =? 0)%Z then
    match provider_state s with
    | None => mret engine_not_initialized
    | Some es => on_current_arena (run_engine es 0 req)
    end
  else on_current_arena (infer_task task req).

Definition infer (req : InferRequest W) : M W (Result InferResponse) :=
  log LogDebug "infer: submitting to provider." ;;
  s ← ask rt_session;
  match provider (config s) with
  | Mock => infer_mock req
  | Engine => infer_engine req
  end.

Definition run_task (task : Z) (req : InferRequest W) : M W (Result InferResponse) :=
  if (task =? 0)%Z then mret (fail InvalidConfig "run_task: task must be an AGENT_CAP_* bit, not 0.")
  else infer (mkInferRequest (req_messages req) (req_max_tokens req) (req_stream req) (req_on_token req) task (req_params_json req)
         (req_temperature req)).

End Provider.

(** ** Frames: a provider call leaves the thread locals and the configuration *)

Section ProviderFrames.
Context {W : Type}.
Implicit Types (req : InferRequest W).

Lemma ambient_run_engine es task req ar : preserves same_ambient (run_engine es task req ar).
Proof. unfold run_engine. preserve. Qed.

Lemma config_run_engine es task req ar : preserves same_config (run_engine es task req ar).
Proof. unfold run_engine. preserve. Qed.

#[local] Hint Resolve ambient_run_engine config_run_engine : preserve.

Lemma ambient_infer_task task req ar : preserves same_ambient (infer_task task req ar).
Proof. unfold infer_task. preserve. Qed.

Lemma config_infer_task task req ar : preserves same_config (infer_task task req ar).
Proof. unfold infer_task. preserve. Qed.

Lemma ambient_on_arena {A} (f : Arena → M W (Arena * A)) :
  (∀ ar, preserves same_ambient (f ar)) → preserves same_ambient (on_current_arena f).
Proof. intros Hf. unfold on_current_arena. preserve. Qed.

Lemma config_on_arena {A} (f : Arena → M W (Arena * A)) :
  (∀ ar, preserves same_config (f ar)) → preserves same_config (on_current_arena f).
Proof. intros Hf. unfold on_current_arena. preserve. Qed.

#[local] Hint Resolve ambient_infer_task config_infer_task ambient_on_arena config_on_arena : preserve.

Lemma ambient_infer_mock req : preserves same_ambient (infer_mock req).
Proof. unfold infer_mock, host_. preserve. Qed.

Lemma config_infer_mock req : preserves same_config (infer_mock req).
Proof. unfold infer_mock, host_. preserve. Qed.

#[local] Hint Resolve ambient_infer_mock config_infer_mock : preserve.

Lemma ambient_infer req : preserves same_ambient (infer req).
Proof. unfold infer, infer_engine. preserve. Qed.

Lemma config_infer req : preserves same_config (infer req).
Proof. unfold infer, infer_engine. preserve. Qed.

Lemma ambient_count_tokens t : preserves same_ambient (count_tokens t : M W _).
Proof. unfold count_tokens. preserve. Qed.

Lemma config_count_tokens t : preserves same_config (count_tokens t : M W _).
Proof. unfold count_tokens. preserve. Qed.

End ProviderFrames.

#[export] Hint Resolve ambient_infer_task config_infer_task ambient_infer config_infer
  ambient_count_tokens config_count_tokens : preserve.
