(* ===== verification/Tools.v ===== *)
(** * Tools: registry, dispatch, permission gate, context compression

    src/core/tools/tools_ops.cpp (dispatch and the permission gate),
    src/core/tools/context_compressor.cpp (summarizing old history) and the
    tool functions of src/core/agent.cpp.  A dispatch goes through four gates
    in order: the tool is registered, the current agent node allows it, the
    permission policy does not refuse it, and it has exactly one callback. *)
From stdpp Require Import base gmap strings list.
From Stdlib Require Import Lia ZArith.
From S2P Require Import Prelude Arena Text Json Session Provider.

Definition no_result : ToolResult := mkToolResult "" [] [] false.

(** ** Text of a tool result *)

Definition media_note (m : Media) : string :=
  "[attached: " +:+ media_path m +:+ " (" +:+
  (if is_empty (media_mime m) then "application/octet-stream" else media_mime m) +:+ ")]".

Definition shape_text (shape : list Z) : string := join_comma (map to_string shape).

Definition tensor_note (t : TensorData) : string :=
  "[tensor: " +:+ tensor_name t +:+ " [" +:+ shape_text (tensor_shape t) +:+ "]]".

Definition append_line (text note : string) : string :=
  (if is_empty text then text else text +:+ nl) +:+ note.

Definition render_tool_text (r : ToolResult) : string :=
  foldl append_line (foldl append_line (result_text r) (map media_note (result_media r)))
    (map tensor_note (result_tensors r)).

(** The path of a relative media file becomes absolute. *)
Definition is_absolute (p : string) : bool := starts_with "/" p.

Definition absolutize_media `{Host W} (w : W) (ms : list Media) : list Media :=
  map (λ m, if is_empty (media_path m) || is_absolute (media_path m) then m
            else match absolute_path w (media_path m) with
                 | Some p => mkMedia p (media_mime m)
                 | None => m
                 end) ms.

(** ** Context compression (src/core/tools/context_compressor.cpp) *)

Definition kSummaryArenaBase : Z := 262144.

Definition kCompressedHistoryPrefix : string := "[Compressed history]: ".

(** The name no tool has: the only allowed one while a summary is requested. *)
Definition kNoTools : list string := [String (Ascii.ascii_of_nat 1) "no-tools"].

Definition is_role (r : string) (m : Message) : bool := str_eqb (role m) r.

Definition has_system_prompt (h : list Message) : bool :=
  match h with
  | m :: _ => is_role "system" m && negb (starts_with kCompressedHistoryPrefix (content m))
  | [] => false
  end.

(** [while (end > start && end < size && history\[end\].role == "tool") --end;] *)
Fixpoint back_off_tools (h : list Message) (start : nat) (end_ : nat) : nat :=
  match end_ with
  | O => O
  | S e =>
      if Nat.ltb start end_ && Nat.ltb end_ (length h) &&
         match h !! end_ with Some m => is_role "tool" m | None => false end
      then back_off_tools h start e else end_
  end.

Definition requests_tools (m : Message) : bool :=
  is_role "assistant" m && match tool_calls m with [] => false | _ => true end.

Inductive CompressPlan :=
| TooShort
| NothingOld
| CompressRange (start end_ : nat).

(** Which messages [compress_context] summarizes.  [keep_recent] is a [size_t];
    the sums and differences wrap.  A range past the end of the history is
    out-of-bounds access in the code (see [compress_plan_wraps]). *)
Definition compress_plan (h : list Message) (keep_recent : Z) : CompressPlan :=
  let start := if has_system_prompt h then 1 else 0 in
  let size := Z.of_nat (length h) in
  if (size <=? u64 (u64 (Z.of_nat start + keep_recent) + 2))%Z then TooShort
  else
    let end0 := Z.to_nat (u64 (size - keep_recent)) in
    let end1 := match last h with
                | Some m => if requests_tools m then Nat.min end0 (length h - 1) else end0
                | None => end0
                end in
    let end2 := back_off_tools h start end1 in
    if Nat.ltb end2 (start + 2) then NothingOld else CompressRange start end2.

Definition compress_line (m : Message) : string :=
  role m +:+ ": " +:+
  (if is_empty (content m) then "" else content m +:+ " ") +:+
  foldr (λ tc acc, "[tool:" +:+ call_name tc +:+ " " +:+ call_arguments tc +:+ "] " +:+ acc) "" (tool_calls m) +:+
  foldr (λ x acc, "[file: " +:+ media_path x +:+ " (" +:+ media_mime x +:+ ")] " +:+ acc) "" (media m) +:+ nl.

Definition compress_prompt (ms : list Message) : string :=
  "Summarize the following conversation concisely. " +:+
  "Preserve all key facts, decisions, code snippets, and tool outputs:" +:+ nl +:+ nl +:+
  foldr (λ m acc, compress_line m +:+ acc) "" ms.

Section Tools.
Context {W : Type} `{Host W} `{JsonParser}.
Implicit Types (s : Session W) (a : Ambient W).

(** The thread-local slab the summary request is built in, grown on demand. *)
Definition summary_arena (prompt_bytes : nat) : M W Arena :=
  a ← ask rt_ambient;
  let need := (kSummaryArenaBase + 2 * Z.of_nat prompt_bytes)%Z in
  let ar := if (capacity_ (summary_slab a) <? need)%Z then Arena_new (new_char need) need else summary_slab a in
  modify_ambient (λ a, set_summary_slab a (reset ar)) ;;
  mret (reset ar).

(** [AllowedToolsScope]: the restriction holds while [m] runs. *)
Definition with_allowed_tools {A} (l : list string) (m : M W A) : M W A :=
  saved ← ask (λ rt, allowed_tools (rt_ambient rt));
  modify_ambient (λ a, set_allowed_tools a l) ;;
  r ← m;
  modify_ambient (λ a, set_allowed_tools a saved) ;;
  mret r.

Definition summarize (prompt : string) : M W (Result string) :=
  let views := [mkMessageView "system" "You are a concise summarizer. Output only the summary, no preamble."
                  [] "" [] [];
                mkMessageView "user" prompt [] "" [] []] in
  let req := mkInferRequest views 512 false None 0 "" no_temperature in
  res ← with_allowed_tools kNoTools
          (s ← ask rt_session;
           match provider (config s) with
           | Engine =>
               ar ← summary_arena (String.length prompt);
               '(ar', r) ← infer_task AGENT_CAP_TEXT_GEN req ar;
               modify_ambient (λ a, set_summary_slab a ar') ;; mret r
           | Mock => infer req
           end);
  mret (match res with Ok r => Ok (view_content (resp_message r)) | Fail e => Fail e end).

Definition compress_context (m : FlowMemory) (keep_recent : Z) : M W (FlowMemory * Result unit) :=
  match compress_plan (history m) keep_recent with
  | TooShort => log LogDebug "compress_context: history too short to compress, skipping." ;; mret (m, Ok tt)
  | NothingOld => log LogDebug "compress_context: nothing old enough to compress, skipping." ;; mret (m, Ok tt)
  | CompressRange start end_ =>
      res ← summarize (compress_prompt (take (end_ - start) (drop start (history m))));
      match res with
      | Fail e =>
          log LogWarning ("compress_context: LLM summarization failed, skipping compression. " +:+
                          "The pruner will handle overflow. Error: " +:+ message e) ;;
          mret (m, Ok tt)
      | Ok summary =>
          let msg := text_message "system" (kCompressedHistoryPrefix +:+ summary) in
          let m1 := set_history m (take start (history m) ++ msg :: drop end_ (history m)) in
          let m2 := set_fm_stats m1 (ts_add_compression (fm_stats m1)) in
          modify_session (λ s, set_stats s (add_compression_stat (stats s))) ;;
          trigger_event OnCompression "" ;;
          log LogInfo "compress_context: history compressed successfully." ;;
          mret (m2, Ok tt)
      end
  end.

(** [keep_recent] of the tool's arguments: the last non-negative integer member
    of that name, 6 without one. *)
Definition keep_recent_argument (arguments : string) : Z :=
  (if is_empty arguments then 6 else
   match parse_json arguments with
   | Some (JObj fields) =>
       foldl (λ acc kv, if str_eqb kv.1 "keep_recent" then
                          match kv.2 with
                          | JInt v => if (0 <=? v) && (v <=? 9223372036854775807) then v else acc
                          | _ => acc
                          end
                        else acc) 6 fields
   | _ => 6
   end)%Z.

Definition context_compressor_callback (arguments : string) : M W (Result string) :=
  a ← ask rt_ambient;
  match active_memory a with
  | None => mret (fail InvalidConfig "compress_context: no active conversation")
  | Some m =>
      '(m', res) ← compress_context m (keep_recent_argument arguments);
      modify_ambient (λ a, set_active_memory a (Some m')) ;;
      mret (match res with Fail e => Fail e | Ok _ => Ok "Context compressed." end)
  end.

(** ** Dispatch (src/core/tools/tools_ops.cpp) *)

Definition permission_gate (name arguments : string) : M W (Result unit) :=
  s ← ask rt_session;
  a ← ask rt_ambient;
  match permission_check (config s) with
  | None => mret (Ok tt)
  | Some check =>
      decision ← host (check name arguments);
      match decision with
      | Allow => mret (Ok tt)
      | Deny => mret (fail PermissionDenied ("Tool denied by permission policy: " +:+ name))
      | Ask =>
          approved ← (if tool_call_preapproved a then mret true
                      else match permission_prompt (config s) with
                           | Some prompt => host (prompt name arguments)
                           | None => mret false
                           end);
          mret (if approved : bool then Ok tt else fail PermissionDenied ("Tool declined: " +:+ name))
      end
  end.

Definition run_callback (cb : Callback W) (arguments : string) : M W (Result string) :=
  match cb with
  | HostCallback f => host (f arguments)
  | CompressorCallback => context_compressor_callback arguments
  end.

(** The callback of a tool that passed every gate. *)
Definition invoke_tool (t : Tool W) (name arguments : string) : M W (Result ToolResult) :=
  match callback t, parts_callback t with
  | Some _, Some _ =>
      mret (fail InvalidConfig ("Tool '" +:+ name +:+ "' sets both callback and parts_callback."))
  | _, Some parts =>
      s ← ask rt_session;
      res ← host (run_parts parts (skills s) arguments);
      w ← ask rt_world;
      mret (match res with
            | Ok r => Ok (mkToolResult (result_text r) (absolutize_media w (result_media r))
                            (result_tensors r) (result_is_error r))
            | Fail e => Fail e
            end)
  | None, None => mret (fail InvalidConfig ("Tool '" +:+ name +:+ "' has no callback."))
  | Some cb, None =>
      res ← run_callback cb arguments;
      mret (match res with
            | Ok text => Ok (mkToolResult text [] [] false)
            | Fail e => Fail e
            end)
  end.

(** [config.tools\[it->second\]]: the index always points at a tool (see
    [index_sound]); an entry that did not would be out of range. *)
Definition default_execute (name arguments : string) : M W (Result ToolResult) :=
  s ← ask rt_session;
  a ← ask rt_ambient;
  match tool_by_name s !! name with
  | None => mret (fail KeyNotFound ("Tool not found: " +:+ name))
  | Some idx =>
      if negb (tool_allowed (allowed_tools a) name) then
        mret (fail KeyNotFound ("Tool not allowed for the current agent node: " +:+ name))
      else
        gate ← permission_gate name arguments;
        match gate with
        | Fail e => mret (Fail e)
        | Ok _ =>
            match tools (config s) !! idx with
            | Some t => invoke_tool t name arguments
            | None => mret (fail KeyNotFound ("Tool not found: " +:+ name))
            end
        end
  end.

Definition execute_tool_parts (name arguments : string) : M W (Result ToolResult) :=
  default_execute name arguments.

Definition or_error_text (text : string) : string :=
  if is_empty text then "tool reported an error" else text.

Definition execute_tool (name arguments : string) : M W (Result string) :=
  res ← execute_tool_parts name arguments;
  mret (match res with
        | Fail e => Fail e
        | Ok r =>
            let text := render_tool_text r in
            if result_is_error r then fail ToolError (or_error_text text) else Ok text
        end).

Definition execute_for_message (name arguments : string) : M W ToolResult :=
  exec ← execute_tool_parts name arguments;
  mret (match exec with
        | Fail e => mkToolResult ("Error: " +:+ message e) [] [] true
        | Ok r =>
            let text := render_tool_text r in
            mkToolResult (if result_is_error r then "Error: " +:+ or_error_text text else text)
              (result_media r) (result_tensors r) (result_is_error r)
        end).

(** ** The registry *)

Definition add_if_missing (ts : list (Tool W)) (t : Tool W) : list (Tool W) :=
  if existsb (λ e, str_eqb (tool_name e) (tool_name t)) ts then ts else ts ++ [t].

(** [tool_by_name.emplace(name, i)] for every tool: the first of a name wins. *)
Fixpoint index_from (i : nat) (ts : list (Tool W)) (m : gmap string nat) : gmap string nat :=
  match ts with
  | [] => m
  | t :: ts' =>
      index_from (S i) ts'
        (match m !! tool_name t with Some _ => m | None => <[tool_name t := i]> m end)
  end.

Definition skills_prompt (sk : gmap string Skill) : string :=
  match map_items sk with
  | [] => ""
  | items =>
      "You have access to the following skills. Call the " +:+
      "use_skill tool with a skill's name to load its full " +:+
      "instructions when relevant:" +:+ nl +:+
      foldr (λ kv acc, "- " +:+ kv.1 +:+ ": " +:+ skill_description kv.2 +:+ nl +:+ acc) "" items
  end.

Definition rebuild_tool_index (s : Session W) : Session W :=
  let list_text := append_tool_list (tools (config s)) [] in
  let sk := skills_prompt (skills s) in
  let prompt :=
    if is_empty sk then list_text
    else (if is_empty list_text then list_text else list_text +:+ nl +:+ nl) +:+ sk in
  set_tool_index s (index_from 0 (tools (config s)) ∅) prompt sk.

End Tools.

Definition default_permission_policy (tool : string) : PermissionDecision :=
  if str_eqb tool "run_command" || str_eqb tool "delete_path" || str_eqb tool "move_path" then Ask else Allow.

(** ** Tool results follow their request

    [answered pending h]: every tool result of [h] directly follows the
    assistant message that made the call it answers, or another result of that
    round; [pending] are the ids of the calls the round before [h] made.  Chat
    templates reject a conversation where this fails. *)

(** The ids of the calls a message makes. *)
Definition asked (m : Message) : list string := if is_role "assistant" m then call_id <$> tool_calls m else [].

Fixpoint answered (pending : list string) (h : list Message) : bool :=
  match h with
  | [] => true
  | m :: h' =>
      if is_role "tool" m then bool_decide (tool_call_id m ∈ pending) && answered pending h'
      else answered (asked m) h'
  end.

Definition no_orphans (h : list Message) : bool := answered [] h.

(** The calls a tool result may answer behind [h]. *)
Fixpoint open_round (pending : list string) (h : list Message) : list string :=
  match h with
  | [] => pending
  | m :: h' => open_round (if is_role "tool" m then pending else asked m) h'
  end.

Lemma asked_requests (m : Message) (id : string) : id ∈ asked m → requests_tools m = true.
Proof.
  unfold asked, requests_tools. destruct (is_role "assistant" m); [|by intros ?%elem_of_nil].
  destruct (tool_calls m); [by intros ?%elem_of_nil|done].
Qed.

Lemma answered_app (b : list string) (h1 h2 : list Message) :
  answered b (h1 ++ h2) = answered b h1 && answered (open_round b h1) h2.
Proof.
  revert b. induction h1 as [|m h1 IH]; intros b; [done|]. simpl.
  destruct (is_role "tool" m); rewrite IH; [|done]. apply andb_assoc.
Qed.

Lemma answered_weaken (b c : list string) (h : list Message) :
  (h = [] ∨ ∃ m h', h = m :: h' ∧ is_role "tool" m = false) → answered b h = answered c h.
Proof. intros [->|(m & h' & -> & Hm)]; [done|]. simpl. by rewrite Hm. Qed.

Lemma answered_drop (b : list string) (n : nat) (h : list Message) :
  answered b h = true → answered (open_round b (take n h)) (drop n h) = true.
Proof. intros Hh. rewrite <-(take_drop n h), answered_app in Hh. by apply andb_prop in Hh as []. Qed.

Lemma answered_take (b : list string) (n : nat) (h : list Message) :
  answered b h = true → answered b (take n h) = true.
Proof. intros Hh. rewrite <-(take_drop n h), answered_app in Hh. by apply andb_prop in Hh as []. Qed.

(** Cutting a conversation at a message that is not a tool result leaves no
    orphan behind the cut. *)
Lemma answered_cut (b c : list string) (n : nat) (h : list Message) :
  answered b h = true → (∀ m, h !! n = Some m → is_role "tool" m = false) → answered c (drop n h) = true.
Proof.
  intros Hh Hn. rewrite (answered_weaken c (open_round b (take n h))); [by apply answered_drop|].
  destruct (drop n h) as [|m h'] eqn:E; [by left|]. right. exists m, h'. split; [done|].
  apply Hn. rewrite <-(Nat.add_0_r n), <-lookup_drop, E. done.
Qed.

(** ** Which messages are compressed *)

Lemma back_off_le (h : list Message) (start e : nat) : back_off_tools h start e ≤ e.
Proof. induction e as [|e IH]; cbn [back_off_tools]; [done|]. case_match; lia. Qed.

Lemma back_off_stops (h : list Message) (start e : nat) (m : Message) :
  start < back_off_tools h start e → h !! back_off_tools h start e = Some m → is_role "tool" m = false.
Proof.
  induction e as [|e IH]; cbn [back_off_tools]; [lia|]. intros Hs Hm.
  destruct (Nat.ltb_spec start (S e)); cbn [andb] in *; [|lia].
  destruct (Nat.ltb_spec (S e) (length h)); cbn [andb] in *; [|apply lookup_lt_Some in Hm; lia].
  destruct (h !! S e) as [m'|] eqn:E; cbn iota in *.
  - destruct (is_role "tool" m') eqn:Ht; [by apply IH|]. rewrite E in Hm. by simplify_eq.
  - rewrite E in Hm. done.
Qed.

Lemma compress_range_facts (h : list Message) (keep : Z) (s e : nat) :
  compress_plan h keep = CompressRange s e → (0 ≤ keep < 9223372036854775808)%Z →
  (Z.of_nat (length h) < 9223372036854775808)%Z →
  s = (if has_system_prompt h then 1 else 0) ∧ s + 2 ≤ e ∧ (Z.of_nat e ≤ Z.of_nat (length h) - keep)%Z ∧
  (∀ m, h !! e = Some m → is_role "tool" m = false) ∧
  (∀ m, last h = Some m → requests_tools m = true → e < length h).
Proof.
  unfold compress_plan. set (s0 := if has_system_prompt h then 1 else 0). intros Hp Hk Hl.
  assert (Hs0 : s0 ≤ 1) by (unfold s0; destruct (has_system_prompt h); lia).
  rewrite (u64_small (Z.of_nat s0 + keep)) in Hp by (unfold u64_modulus; lia).
  rewrite (u64_small (Z.of_nat s0 + keep + 2)) in Hp by (unfold u64_modulus; lia).
  destruct (Z.leb_spec (Z.of_nat (length h)) (Z.of_nat s0 + keep + 2)); [done|].
  rewrite u64_small in Hp by (unfold u64_modulus; lia).
  set (e1 := match last h with Some m => _ | None => _ end) in Hp.
  assert (He1 : e1 ≤ Z.to_nat (Z.of_nat (length h) - keep)) by (unfold e1; repeat step_goal; lia).
  pose proof (back_off_le h s0 e1) as Hle.
  destruct (Nat.ltb_spec (back_off_tools h s0 e1) (s0 + 2)); [done|]. injection Hp as <- <-.
  split_and!; [done|done|lia| |].
  - intros m Hm. eapply back_off_stops; [|done]. lia.
  - intros m Hm Hr. unfold e1 in *. rewrite Hm, Hr in *. lia.
Qed.

(** ** Frames of the compressor *)

(** The thread locals are left as they are, the summary slab apart. *)
Definition same_but_slab {W : Type} (rt rt' : Rt W) : Prop :=
  ∃ x, rt_ambient rt' = set_summary_slab (rt_ambient rt) x.

#[global] Instance same_but_slab_preorder {W : Type} : PreOrder (@same_but_slab W).
Proof.
  split.
  - intros rt. exists (summary_slab (rt_ambient rt)). by destruct (rt_ambient rt).
  - intros r1 r2 r3 [x Hx] [y Hy]. exists y. by rewrite Hy, Hx.
Qed.

Section CompressFrames.
Context {W : Type} `{Host W}.

Lemma slab_of_ambient {A} (m : M W A) : preserves same_ambient m → preserves same_but_slab m.
Proof.
  intros Hm rt. specialize (Hm rt). unfold same_ambient, same_but_slab in *. rewrite Hm.
  exists (summary_slab (rt_ambient rt)). by destruct (rt_ambient rt).
Qed.

Lemma slab_set x : preserves same_but_slab (modify_ambient (λ a, set_summary_slab a x) : M W unit).
Proof. intros rt. by exists x. Qed.

#[local] Hint Resolve slab_set : preserve.
#[local] Hint Extern 3 (preserves same_but_slab _) => apply slab_of_ambient : preserve.

Lemma slab_summary_arena n : preserves same_but_slab (summary_arena n : M W Arena).
Proof. unfold summary_arena. preserve. Qed.

Lemma config_summary_arena n : preserves same_config (summary_arena n : M W Arena).
Proof. unfold summary_arena. preserve. Qed.

#[local] Hint Resolve slab_summary_arena config_summary_arena : preserve.

(** The allowed tools are restored when the scope ends. *)
Lemma slab_with_allowed {A} l (m : M W A) :
  preserves same_but_slab m → preserves same_but_slab (with_allowed_tools l m).
Proof.
  intros Hm rt. unfold with_allowed_tools, mbind, M_bind, ask, modify_ambient, modify. simpl.
  set (rt0 := with_ambient rt _). specialize (Hm rt0). destruct (m rt0) as [rt' r]. destruct Hm as [x Hx].
  simpl in Hx. exists x. simpl. rewrite Hx. unfold rt0. by destruct rt as [? ? [] ? ?].
Qed.

Lemma config_with_allowed {A} l (m : M W A) :
  preserves same_config m → preserves same_config (with_allowed_tools l m).
Proof. intros Hm. unfold with_allowed_tools. preserve. Qed.

#[local] Hint Resolve slab_with_allowed config_with_allowed : preserve.

Lemma slab_summarize p : preserves same_but_slab (summarize p : M W (Result string)).
Proof. unfold summarize. preserve. apply slab_with_allowed. preserve. Qed.

Lemma config_summarize p : preserves same_config (summarize p : M W (Result string)).
Proof. unfold summarize. preserve. apply config_with_allowed. preserve. Qed.

#[local] Hint Resolve slab_summarize config_summarize : preserve.

Lemma slab_compress m keep : preserves same_but_slab (compress_context m keep : M W _).
Proof. unfold compress_context. preserve. Qed.

Lemma config_compress m keep : preserves same_config (compress_context m keep : M W _).
Proof. unfold compress_context. preserve. Qed.

(** The outcome of [compress_context]: success, with the history as it was or
    with the planned range replaced by one summary message. *)
Definition compressed (m m' : FlowMemory) (s e : nat) : Prop :=
  ∃ summary,
    m' = mkFlowMemory (fm_id m)
           (take s (history m) ++ text_message "system" (kCompressedHistoryPrefix +:+ summary) :: drop e (history m))
           (ts_add_compression (fm_stats m)).

Lemma compress_outcome rt m keep :
  (compress_context m keep rt : Rt W * _).2.2 = Ok tt ∧
  let m' := (compress_context m keep rt : Rt W * _).2.1 in
  m' = m ∨ ∃ s e, compress_plan (history m) keep = CompressRange s e ∧ compressed m m' s e.
Proof.
  unfold compress_context, mbind, M_bind, mret, M_ret.
  destruct (compress_plan (history m) keep) as [| |s e] eqn:Ep.
  - destruct (log _ _ rt). simpl. split; [done|by left].
  - destruct (log _ _ rt). simpl. split; [done|by left].
  - destruct (summarize _ rt) as [rt1 [summary|err]].
    + unfold modify_session, modify. destruct (trigger_event _ _ _) as [rt2 ?]. destruct (log _ _ rt2). simpl.
      split; [done|]. right. exists s, e. split; [done|]. by exists summary.
    + destruct (log _ _ rt1). simpl. split; [done|by left].
Qed.

End CompressFrames.

#[export] Hint Resolve slab_compress config_compress : preserve.

(** Replacing a range that ends before a message that is no tool result keeps
    every tool result behind its request. *)
Lemma compressed_no_orphans (m m' : FlowMemory) (s e : nat) :
  compressed m m' s e → no_orphans (history m) = true →
  (∀ x, history m !! e = Some x → is_role "tool" x = false) → no_orphans (history m') = true.
Proof.
  intros [summary ->] Hno He. unfold no_orphans in *. simpl. rewrite answered_app.
  rewrite (answered_take _ _ _ Hno). simpl. by eapply answered_cut.
Qed.

Lemma open_round_cons_app (b : list string) (h : list Message) (m : Message) :
  open_round b (h ++ [m]) = (if is_role "tool" m then open_round b h else asked m).
Proof. revert b. induction h as [|x h IH]; intros b; simpl; [done|]. apply IH. Qed.

Lemma last_of_drop {A : Type} (n : nat) (l : list A) : n < length l → last (drop n l) = last l.
Proof.
  intros Hn. rewrite <-(take_drop n l) at 2. rewrite last_app.
  destruct (last (drop n l)) eqn:E; [done|]. apply last_None in E.
  apply (f_equal length) in E. rewrite length_drop in E. simpl in E. lia.
Qed.

Lemma last_compressed (m m' : FlowMemory) (s e : nat) :
  compressed m m' s e → e < length (history m) → last (history m') = last (history m).
Proof.
  intros [summary ->] He. simpl. rewrite last_app, last_cons, last_of_drop by done.
  destruct (last (history m)) eqn:E; [done|]. apply last_None in E. rewrite E in He. simpl in He. lia.
Qed.

(** ** Properties of the compressor *)

(** [compress_context] always succeeds (a failing summarizer only skips the
    compression) and leaves the thread's conversation, hooks, allowed tools and
    pause state as they were.  The new history is the old one, or the system
    prompt, one summary message and a suffix with at least the [keep_recent]
    last messages; every tool result still follows its request, and a last
    message whose tool calls are running is still the last. *)
Theorem compress_context_correct {W : Type} `{Host W} (rt : Rt W) (m : FlowMemory) (keep : Z) :
  (0 ≤ keep < 9223372036854775808)%Z → (Z.of_nat (length (history m)) < 9223372036854775808)%Z →
  no_orphans (history m) = true →
  let '(rt', (m', r)) := compress_context m keep rt in
  r = Ok tt ∧ same_but_slab rt rt' ∧ same_config rt rt' ∧ no_orphans (history m') = true ∧
  (∀ x, last (history m) = Some x → requests_tools x = true → last (history m') = Some x) ∧
  (m' = m ∨ ∃ s e, s = (if has_system_prompt (history m) then 1 else 0) ∧ s + 2 ≤ e ∧
     (Z.of_nat e ≤ Z.of_nat (length (history m)) - keep)%Z ∧ compressed m m' s e).
Proof.
  intros Hk Hl Hno. pose proof (compress_outcome rt m keep) as [Hok Hm'].
  pose proof (slab_compress m keep rt) as Hslab. pose proof (config_compress m keep rt) as Hcfg.
  destruct (compress_context m keep rt) as [rt' [m' r]]. simpl in *.
  split_and!; [done|done|done| | |]; destruct Hm' as [->|(s & e & Hp & Hc)]; try done; try by left.
  - destruct (compress_range_facts _ _ _ _ Hp) as (_ & _ & _ & Ht & _); [done|done|].
    by eapply compressed_no_orphans.
  - intros x Hx Hr. destruct (compress_range_facts _ _ _ _ Hp) as (_ & _ & _ & _ & Hlast); [done|done|].
    rewrite (last_compressed m m' s e); [done|done|by eapply Hlast].
  - right. destruct (compress_range_facts _ _ _ _ Hp) as (? & ? & ? & _ & _); [done|done|]. by exists s, e.
Qed.

Definition sample_history : list Message :=
  [text_message "system" "be brief"; text_message "user" "list files";
   mkMessage "assistant" "" [mkToolCall "c1" "ls" "{}"; mkToolCall "c2" "compress_context" "{}"] "" [] [] (-1);
   mkMessage "tool" "a.txt" [] "c1" [] [] (-1)].

Lemma compress_context_witness :
  let '(rt', (m', r)) :=
    compress_context (mkFlowMemory "m" (sample_history ++ sample_history) no_turn_stats) 2 Sample.rt in
  r = Ok tt ∧ same_but_slab Sample.rt rt' ∧ same_config Sample.rt rt' ∧ no_orphans (history m') = true ∧
  (∀ x, last (sample_history ++ sample_history) = Some x → requests_tools x = true → last (history m') = Some x) ∧
  (m' = mkFlowMemory "m" (sample_history ++ sample_history) no_turn_stats ∨
   ∃ s e, s = 1 ∧ s + 2 ≤ e ∧ (Z.of_nat e ≤ 8 - 2)%Z ∧
     compressed (mkFlowMemory "m" (sample_history ++ sample_history) no_turn_stats) m' s e).
Proof.
  exact (compress_context_correct Sample.rt (mkFlowMemory "m" (sample_history ++ sample_history) no_turn_stats) 2
           ltac:(lia) ltac:(simpl; lia) eq_refl).
Defined.

(** The comment of [compress_context] ("called as a tool, the last message
    is the assistant message whose tool calls are running") only holds for the
    first call of a round.  When an earlier call of the same round already
    appended its result and [keep_recent] is 0, the request itself is
    summarized away, and the result appended next is an orphan. *)
Theorem compress_context_orphans :
  let m := mkFlowMemory "m" sample_history no_turn_stats in
  let '(_, (m', r)) := compress_context m 0 Sample.rt in
  no_orphans (history m) = true ∧ r = Ok tt ∧
  no_orphans (history m' ++ [mkMessage "tool" "Context compressed." [] "c2" [] [] (-1)]) = false.
Proof. vm_compute. done. Qed.

(** [keep_recent] is added and subtracted in [size_t]: with the largest
    value ("keep everything") the length guard wraps, nothing is reported as
    too short, and the range to erase ends past the end of the history. *)
Theorem compress_plan_wraps (h : list Message) :
  3 ≤ length h → (Z.of_nat (length h) < 9223372036854775808)%Z → has_system_prompt h = false →
  (∀ m, last h = Some m → requests_tools m = false) →
  compress_plan h (u64_modulus - 1) = CompressRange 0 (S (length h)).
Proof.
  intros Hlen Hmax Hsys Hlast. unfold compress_plan. rewrite Hsys.
  replace (u64 (u64 (Z.of_nat 0 + (u64_modulus - 1)) + 2)) with 1%Z by reflexivity.
  destruct (Z.leb_spec (Z.of_nat (length h)) 1); [lia|].
  replace (u64 (Z.of_nat (length h) - (u64_modulus - 1))) with (Z.of_nat (S (length h))).
  2:{ unfold u64. apply Z.mod_unique with (q := (-1)%Z); unfold u64_modulus; lia. }
  rewrite Nat2Z.id.
  replace (match last h with Some m => _ | None => _ end) with (S (length h)).
  2:{ destruct (last h) as [m|] eqn:E; [|done]. by rewrite (Hlast m eq_refl). }
  cbn [back_off_tools]. destruct (Nat.ltb_spec (S (length h)) (length h)) as [|_]; [lia|].
  rewrite andb_false_r. cbn [andb]. destruct (Nat.ltb_spec (S (length h)) (0 + 2)); [lia|done].
Qed.

Lemma compress_plan_wraps_witness :
  compress_plan [text_message "user" "a"; text_message "assistant" "b"; text_message "user" "c"]
    (u64_modulus - 1) = CompressRange 0 4.
Proof.
  apply (compress_plan_wraps [text_message "user" "a"; text_message "assistant" "b"; text_message "user" "c"]);
    [simpl; lia|simpl; lia|reflexivity|].
  intros m [= <-]. reflexivity.
Defined.

(** ** The registry and the dispatch gates *)

Section Dispatch.
Context {W : Type} `{Host W} `{JsonParser}.

Lemma index_from_lookup (i : nat) (ts : list (Tool W)) (m : gmap string nat) (n : string) :
  index_from i ts m !! n =
    match m !! n with
    | Some x => Some x
    | None => (λ p, i + p.1) <$> list_find (λ t, tool_name t = n) ts
    end.
Proof.
  revert i m. induction ts as [|t ts IH]; intros i m; simpl; [by destruct (m !! n)|]. rewrite IH.
  destruct (decide (tool_name t = n)) as [Heq|Hne].
  - rewrite <-Heq. destruct (m !! tool_name t) as [x|] eqn:E; [by rewrite E|].
    rewrite lookup_insert_eq. simpl. by rewrite Nat.add_0_r.
  - replace ((match m !! tool_name t with Some _ => m | None => <[tool_name t := i]> m end) !! n) with (m !! n).
    2:{ destruct (m !! tool_name t); [done|]. by rewrite lookup_insert_ne. }
    destruct (m !! n); [done|]. destruct (list_find _ ts) as [[k x]|]; [|done]. simpl. f_equal. lia.
Qed.

(** The registry is in step with the tool list. *)
Definition indexed (s : Session W) : Prop := tool_by_name s = index_from 0 (tools (config s)) ∅.

Lemma rebuild_indexed s : indexed (rebuild_tool_index s).
Proof. done. Qed.

Lemma indexed_lookup s n :
  indexed s → tool_by_name s !! n = fst <$> list_find (λ t, tool_name t = n) (tools (config s)).
Proof.
  intros ->. rewrite index_from_lookup, lookup_empty. by destruct (list_find _ _) as [[? ?]|].
Qed.

(** ** What dispatch is meant to do

    Written without the functions above: who consents to a call, who refuses
    it, and what a call ends in. *)

(** [w'] is the host after everybody who had to be asked agreed. *)
Inductive granted (s : Session W) (preapproved : bool) (name args : string) (w : W) : W → Prop :=
| granted_free : permission_check (config s) = None → granted s preapproved name args w w
| granted_allow check w' :
    permission_check (config s) = Some check → check name args w = (w', Allow) → granted s preapproved name args w w'
| granted_before check w' :
    permission_check (config s) = Some check → check name args w = (w', Ask) → preapproved = true → granted s preapproved name args w w'
| granted_prompt check prompt w1 w' :
    permission_check (config s) = Some check → check name args w = (w1, Ask) → preapproved = false →
    permission_prompt (config s) = Some prompt → prompt name args w1 = (w', true) → granted s preapproved name args w w'.

(** [w'] is the host after somebody said no, with the text of the error. *)
Inductive refused (s : Session W) (preapproved : bool) (name args : string) (w : W) : W → string → Prop :=
| refused_denied check w' :
    permission_check (config s) = Some check → check name args w = (w', Deny) →
    refused s preapproved name args w w' ("Tool denied by permission policy: " +:+ name)
| refused_nobody_to_ask check w' :
    permission_check (config s) = Some check → check name args w = (w', Ask) → preapproved = false →
    permission_prompt (config s) = None → refused s preapproved name args w w' ("Tool declined: " +:+ name)
| refused_declined check prompt w1 w' :
    permission_check (config s) = Some check → check name args w = (w1, Ask) → preapproved = false →
    permission_prompt (config s) = Some prompt → prompt name args w1 = (w', false) →
    refused s preapproved name args w w' ("Tool declined: " +:+ name).

(** [t] is the first tool of its name. *)
Definition first_named (name : string) (ts : list (Tool W)) (t : Tool W) : Prop :=
  ∃ before after, ts = before ++ t :: after ∧ tool_name t = name ∧ name ∉ tool_name <$> before.

(** The node may call the tool: an empty list allows every tool. *)
Definition may_call (allowed : list string) (name : string) : Prop := allowed = [] ∨ name ∈ allowed.

Definition text_only (text : string) : ToolResult := mkToolResult text [] [] false.

(** The tool itself: exactly one of its callbacks is set. *)
Inductive called (t : Tool W) (name args : string) : Rt W → Rt W → Result ToolResult → Prop :=
| called_both rt cb parts :
    callback t = Some cb → parts_callback t = Some parts →
    called t name args rt rt (fail InvalidConfig ("Tool '" +:+ name +:+ "' sets both callback and parts_callback."))
| called_neither rt :
    callback t = None → parts_callback t = None → called t name args rt rt (fail InvalidConfig ("Tool '" +:+ name +:+ "' has no callback."))
| called_parts rt parts w r :
    callback t = None → parts_callback t = Some parts → run_parts parts (skills (rt_session rt)) args (rt_world rt) = (w, Ok r) →
    called t name args rt (with_world rt w)
      (Ok (mkToolResult (result_text r) (absolutize_media w (result_media r)) (result_tensors r) (result_is_error r)))
| called_parts_failed rt parts w e :
    callback t = None → parts_callback t = Some parts → run_parts parts (skills (rt_session rt)) args (rt_world rt) = (w, Fail e) →
    called t name args rt (with_world rt w) (Fail e)
| called_text rt f w text :
    callback t = Some (HostCallback f) → parts_callback t = None → f args (rt_world rt) = (w, Ok text) →
    called t name args rt (with_world rt w) (Ok (text_only text))
| called_text_failed rt f w e :
    callback t = Some (HostCallback f) → parts_callback t = None → f args (rt_world rt) = (w, Fail e) →
    called t name args rt (with_world rt w) (Fail e)
| called_compressor rt rt' text :
    callback t = Some CompressorCallback → parts_callback t = None → context_compressor_callback args rt = (rt', Ok text) →
    called t name args rt rt' (Ok (text_only text))
| called_compressor_failed rt rt' e :
    callback t = Some CompressorCallback → parts_callback t = None → context_compressor_callback args rt = (rt', Fail e) →
    called t name args rt rt' (Fail e).

(** The ways a call ends: the thread's state after it and its result. *)
Inductive dispatched (rt : Rt W) (name args : string) : Rt W → Result ToolResult → Prop :=
| call_unknown :
    name ∉ tool_name <$> tools (config (rt_session rt)) →
    dispatched rt name args rt (fail KeyNotFound ("Tool not found: " +:+ name))
| call_not_allowed t :
    first_named name (tools (config (rt_session rt))) t → ¬ may_call (allowed_tools (rt_ambient rt)) name →
    dispatched rt name args rt (fail KeyNotFound ("Tool not allowed for the current agent node: " +:+ name))
| call_refused t w msg :
    first_named name (tools (config (rt_session rt))) t → may_call (allowed_tools (rt_ambient rt)) name →
    refused (rt_session rt) (tool_call_preapproved (rt_ambient rt)) name args (rt_world rt) w msg →
    dispatched rt name args (with_world rt w) (fail PermissionDenied msg)
| call_runs t w rt' r :
    first_named name (tools (config (rt_session rt))) t → may_call (allowed_tools (rt_ambient rt)) name →
    granted (rt_session rt) (tool_call_preapproved (rt_ambient rt)) name args (rt_world rt) w →
    called t name args (with_world rt w) rt' r → dispatched rt name args rt' r.

Create HintDb dispatch.
#[local] Hint Constructors granted refused dispatched called : dispatch.

Lemma with_own_world (rt : Rt W) : with_world rt (rt_world rt) = rt.
Proof. by destruct rt. Qed.

Ltac decided := first [eexists; split; [reflexivity|by eauto with dispatch] | do 2 eexists; split_and!; [reflexivity|reflexivity|by eauto with dispatch]].

(** The gate, on both sides of the decision. *)
Lemma gate_spec (rt : Rt W) (name args : string) :
  let '(rt', r) := permission_gate name args rt in
  match r with
  | Ok _ => ∃ w, rt' = with_world rt w ∧ granted (rt_session rt) (tool_call_preapproved (rt_ambient rt)) name args (rt_world rt) w
  | Fail e => ∃ w msg, rt' = with_world rt w ∧ e = make_error PermissionDenied msg ∧
      refused (rt_session rt) (tool_call_preapproved (rt_ambient rt)) name args (rt_world rt) w msg
  end.
Proof.
  unfold permission_gate, mbind, M_bind, ask, mret, M_ret, host. cbn beta iota.
  destruct (permission_check (config (rt_session rt))) as [check|] eqn:Ec.
  2:{ exists (rt_world rt). rewrite with_own_world. eauto with dispatch. }
  destruct (check name args (rt_world rt)) as [w []] eqn:Ek; cbn; [decided| |decided].
  destruct (tool_call_preapproved (rt_ambient rt)) eqn:Ep; cbn; [decided|].
  destruct (permission_prompt (config (rt_session rt))) as [prompt|] eqn:Eq; cbn; [|decided].
  destruct (prompt name args w) as [w' []] eqn:Ea; cbn; decided.
Qed.

Lemma invoke_spec (t : Tool W) (name args : string) (rt : Rt W) :
  called t name args rt (invoke_tool t name args rt).1 (invoke_tool t name args rt).2.
Proof.
  unfold invoke_tool, run_callback, mbind, M_bind, ask, mret, M_ret, host.
  destruct (callback t) as [[f|]|] eqn:Ec, (parts_callback t) as [parts|] eqn:Ep; cbn beta iota; try by eauto with dispatch.
  - destruct (f args (rt_world rt)) as [w [text|e]] eqn:Ef; cbn; eauto with dispatch.
  - destruct (context_compressor_callback args rt) as [rt' [text|e]] eqn:Ef; cbn; eauto with dispatch.
  - destruct (run_parts parts _ args (rt_world rt)) as [w [r|e]] eqn:Ef; cbn; eauto with dispatch.
Qed.

Lemma first_named_find (name : string) (ts : list (Tool W)) k t :
  list_find (λ t, tool_name t = name) ts = Some (k, t) → first_named name ts t.
Proof.
  intros (Hk & Hn & Hb)%list_find_Some. exists (take k ts), (drop (S k) ts). split_and!; [by rewrite take_drop_middle|done|].
  intros (t' & -> & (i & Hi)%list_elem_of_lookup)%list_elem_of_fmap. apply lookup_take_Some in Hi as [Hi Hlt]. by apply (Hb i t').
Qed.

Lemma first_named_unique (name : string) (ts : list (Tool W)) t t' : first_named name ts t → first_named name ts t' → t = t'.
Proof.
  intros (b & a & -> & Hn & Hb) (b' & a' & He & Hn' & Hb').
  revert b' He Hb'. induction b as [|x b IH]; intros [|y b'] He Hb'; cbn in He; simplify_eq; cbn in *.
  - done.
  - apply not_elem_of_cons in Hb' as [? _]. congruence.
  - apply not_elem_of_cons in Hb as [? _]. congruence.
  - apply not_elem_of_cons in Hb as [_ Hb], Hb' as [_ Hb']. by eapply IH.
Qed.

Lemma first_named_in (name : string) (ts : list (Tool W)) t : first_named name ts t → name ∈ tool_name <$> ts.
Proof. intros (b & a & -> & <- & _). rewrite fmap_app, elem_of_app. right. by left. Qed.

Lemma may_call_spec allowed name : tool_allowed allowed name = true ↔ may_call allowed name.
Proof.
  unfold tool_allowed, may_call. destruct allowed as [|a l]; [naive_solver|]. rewrite existsb_exists. setoid_rewrite <- list_elem_of_In.
  setoid_rewrite str_eqb_true. naive_solver.
Qed.

Lemma dispatched_execute (rt : Rt W) (name args : string) :
  indexed (rt_session rt) → dispatched rt name args (default_execute name args rt).1 (default_execute name args rt).2.
Proof.
  intros Hi. unfold default_execute, mbind, M_bind, ask. cbn beta iota. rewrite (indexed_lookup _ name Hi).
  destruct (list_find _ _) as [[k t]|] eqn:Ef.
  2:{ apply call_unknown. intros (t & -> & Ht)%list_elem_of_fmap. by apply (list_find_None _ _) in Ef; rewrite Forall_forall in Ef; apply (Ef t). }
  apply first_named_find in Ef as Hf. cbn [fmap option_fmap option_map fst]. pose proof (may_call_spec (allowed_tools (rt_ambient rt)) name) as Ha.
  destruct (tool_allowed _ name); cbn [negb].
  2:{ apply (call_not_allowed _ _ _ t); [done|]. intros Hc. by apply Ha in Hc. }
  pose proof (gate_spec rt name args) as Hg. destruct (permission_gate name args rt) as [rt1 [?|e]].
  - destruct Hg as (w & -> & Hg). apply list_find_Some in Ef as (Hk & _). rewrite Hk.
    eapply (call_runs _ _ _ t w); [done|by apply Ha|done|]. apply invoke_spec.
  - destruct Hg as (w & msg & -> & -> & Hr). apply (call_refused _ _ _ t); [done|by apply Ha|done].
Qed.

Lemma called_unique t name args rt rt1 rt2 r1 r2 : called t name args rt rt1 r1 → called t name args rt rt2 r2 → rt1 = rt2 ∧ r1 = r2.
Proof. destruct 1; inversion 1; simplify_eq; naive_solver congruence. Qed.

Lemma granted_unique s pre name args w w1 w2 : granted s pre name args w w1 → granted s pre name args w w2 → w1 = w2.
Proof. destruct 1; inversion 1; simplify_eq; congruence. Qed.

Lemma refused_unique s pre name args w w1 w2 m1 m2 : refused s pre name args w w1 m1 → refused s pre name args w w2 m2 → w1 = w2 ∧ m1 = m2.
Proof. destruct 1; inversion 1; simplify_eq; naive_solver congruence. Qed.

Lemma granted_not_refused s pre name args w w1 w2 m : granted s pre name args w w1 → refused s pre name args w w2 m → False.
Proof. destruct 1; inversion 1; simplify_eq; congruence. Qed.

Lemma dispatched_unique rt name args rt1 rt2 r1 r2 : dispatched rt name args rt1 r1 → dispatched rt name args rt2 r2 → rt1 = rt2 ∧ r1 = r2.
Proof.
  destruct 1 as [Hn|t Ht Hm|t w msg Ht Hm Hr|t w rt' r Ht Hm Hg Hc];
    inversion 1 as [Hn'|t' Ht' Hm'|t' w' msg' Ht' Hm' Hr'|t' w' rt'' r' Ht' Hm' Hg' Hc']; subst;
    try done; try (by apply first_named_in in Ht || by apply first_named_in in Ht').
  - destruct (refused_unique _ _ _ _ _ _ _ _ _ Hr Hr') as [-> ->]. done.
  - by destruct (granted_not_refused _ _ _ _ _ _ _ _ Hg' Hr).
  - by destruct (granted_not_refused _ _ _ _ _ _ _ _ Hg Hr').
  - rewrite (first_named_unique _ _ _ _ Ht' Ht) in Hc'. rewrite (granted_unique _ _ _ _ _ _ _ Hg' Hg) in Hc'. by eapply called_unique.
Qed.

(** C8. On a session whose tools are indexed, [default_execute] does what the
    rules above say and nothing else: an unknown tool and one the node may not
    call are refused without asking anybody; a call the policy denies, or asks
    about and nobody approves, is refused with PermissionDenied; any other call
    runs the one callback of the first tool of the name, or fails when the tool
    has both callbacks or none.  The rules fix the state and the result. *)
Theorem dispatch_refines (rt rt' : Rt W) (name args : string) (r : Result ToolResult) :
  indexed (rt_session rt) → default_execute name args rt = (rt', r) ↔ dispatched rt name args rt' r.
Proof.
  intros Hi. pose proof (dispatched_execute rt name args Hi) as Hd. destruct (default_execute name args rt) as [rt1 r1]. cbn [fst snd] in Hd. split.
  - by intros [= <- <-].
  - intros Hd'. by destruct (dispatched_unique _ _ _ _ _ _ _ Hd Hd') as [-> ->].
Qed.

(** C9. A call that the policy denies, or that it asks about and that was not
    approved before and for which there is no prompt or the prompt says no,
    never runs: it fails, and the only thing that can have changed is the host,
    by what the policy and the prompt themselves did to it. *)
Theorem refused_tool_never_runs (rt : Rt W) (name args : string) (w : W) (msg : string) :
  refused (rt_session rt) (tool_call_preapproved (rt_ambient rt)) name args (rt_world rt) w msg →
  is_ok (default_execute name args rt).2 = false ∧
  ((default_execute name args rt).1 = rt ∨ (default_execute name args rt).1 = with_world rt w).
Proof.
  intros Hr. unfold default_execute, mbind, M_bind, ask. cbn beta iota.
  destruct (tool_by_name _ !! name) as [i|]; [|by split; [|left]].
  destruct (tool_allowed _ name); cbn [negb]; [|by split; [|left]].
  pose proof (gate_spec rt name args) as Hg. destruct (permission_gate name args rt) as [rt1 [?|e]].
  - destruct Hg as (w' & _ & Hg). by destruct (granted_not_refused _ _ _ _ _ _ _ _ Hg Hr).
  - destruct Hg as (w' & msg' & -> & _ & Hr'). destruct (refused_unique _ _ _ _ _ _ _ _ _ Hr Hr') as [-> _]. by split; [|right].
Qed.

End Dispatch.

Module DispatchSample.

(** The host counts the removals and the questions. *)
Definition rm : Tool nat := mkTool "rm" "removes" "{}" (Some (HostCallback (λ _ w, (S w, Ok "removed")))) None.

Definition cfg (decision : PermissionDecision) (answer : bool) : Config nat :=
  mkConfig Mock "" "" "" "" None [rm] 4096 512 10 4 None (Some (λ _ _ w, (w, decision))) (Some (λ _ _ w, (w + 100, answer))) 0.

Definition rt (decision : PermissionDecision) (answer : bool) : Rt nat :=
  mkRt (rebuild_tool_index
          (mkSession (cfg decision answer) (Arena_new 4096 65536) [] [] None (Some ∅) no_session_stats ∅ "" "" ∅ None 0 ∅ []))
    0 (mkAmbient None [] [] 0 false false false (Arena_new 1048576 0)) [] None.

#[global] Instance sample_host : Host nat :=
  {| now_ms := λ w, (w, 0%Z); new_char := λ _, 1048576%Z; absolute_path := λ _ p, Some ("/" +:+ p) |}.

Lemma rm_first d a : first_named "rm" (tools (config (rt_session (rt d a)))) rm.
Proof. exists [], []. split_and!; [done|done|apply not_elem_of_nil]. Qed.

End DispatchSample.

(** An approved question runs the tool; a denied call does not. *)
Lemma dispatch_refines_witness :
  @default_execute nat _ RefParser.parser "rm" "{}" (DispatchSample.rt Ask true) =
    (with_world (DispatchSample.rt Ask true) 101, Ok (text_only "removed")) ∧
  @default_execute nat _ RefParser.parser "rm" "{}" (DispatchSample.rt Deny true) =
    (with_world (DispatchSample.rt Deny true) 0, fail PermissionDenied "Tool denied by permission policy: rm").
Proof.
  split.
  - apply (@dispatch_refines nat _ RefParser.parser (DispatchSample.rt Ask true)); [reflexivity|].
    apply (call_runs _ _ _ DispatchSample.rm 100); [apply DispatchSample.rm_first|by left|by eapply granted_prompt|].
    by eapply (called_text _ _ _ (with_world (DispatchSample.rt Ask true) 100)).
  - apply (@dispatch_refines nat _ RefParser.parser (DispatchSample.rt Deny true)); [reflexivity|].
    apply (call_refused _ _ _ DispatchSample.rm); [apply DispatchSample.rm_first|by left|by eapply refused_denied].
Defined.

(** The user is asked and says no. *)
Lemma refused_tool_never_runs_witness :
  is_ok (@default_execute nat _ RefParser.parser "rm" "{}" (DispatchSample.rt Ask false)).2 = false ∧
  rt_world (@default_execute nat _ RefParser.parser "rm" "{}" (DispatchSample.rt Ask false)).1 ≠ 101.
Proof.
  destruct (@refused_tool_never_runs nat _ RefParser.parser (DispatchSample.rt Ask false) "rm" "{}" 100 "Tool declined: rm") as [Hf Hw].
  - by eapply refused_declined.
  - split; [exact Hf|]. destruct Hw as [-> | ->]; discriminate.
Defined.
