(* ===== verification/History.v ===== *)
(** * Conversation history as JSON (src/core/executor/turn_executor.cpp)

    [encode_history_json] / [decode_history_json] are shared by
    [save_flow_memory] / [load_flow_memory] and the graph checkpoints.  The
    writer emits role, content, tool call id, tool calls and media; tensors and
    the cached token count are not stored.  The round-trip theorem says that
    decoding gives back exactly that part of the history, for every history
    whose strings are well-formed UTF-8. *)
From stdpp Require Import base gmap strings list.
From Stdlib Require Import Lia ZArith.
From S2P Require Import Prelude Arena Text Decimal Json Session.

(** ** Writing *)

Definition q : string := of_bytes [chr 34].

Definition encode_call (tc : ToolCall) : string :=
  "{" +:+ q +:+ "id" +:+ q +:+ ":" +:+ quoted (call_id tc) +:+
  "," +:+ q +:+ "name" +:+ q +:+ ":" +:+ quoted (call_name tc) +:+
  "," +:+ q +:+ "arguments" +:+ q +:+ ":" +:+ quoted (call_arguments tc) +:+ "}".

Definition encode_media (m : Media) : string :=
  "{" +:+ q +:+ "path" +:+ q +:+ ":" +:+ quoted (media_path m) +:+
  "," +:+ q +:+ "mime" +:+ q +:+ ":" +:+ quoted (media_mime m) +:+ "}".

Definition encode_message (m : Message) : string :=
  "{" +:+ q +:+ "role" +:+ q +:+ ":" +:+ quoted (role m) +:+
  "," +:+ q +:+ "content" +:+ q +:+ ":" +:+ quoted (content m) +:+
  "," +:+ q +:+ "tool_call_id" +:+ q +:+ ":" +:+ quoted (tool_call_id m) +:+
  "," +:+ q +:+ "tool_calls" +:+ q +:+ ":[" +:+ join_comma (map encode_call (tool_calls m)) +:+ "]" +:+
  (match media m with
   | [] => ""
   | l => "," +:+ q +:+ "media" +:+ q +:+ ":[" +:+ join_comma (map encode_media l) +:+ "]"
   end) +:+ "}".

Definition encode_history_json (h : list Message) : string :=
  "[" +:+ join_comma (map encode_message h) +:+ "]".

(** ** Reading: items of the wrong type are skipped, missing members stay empty *)

Definition decode_call (j : json) : option ToolCall :=
  match get_object j with
  | Some fs => Some (mkToolCall (string_field "id" fs "") (string_field "name" fs "") (string_field "arguments" fs ""))
  | None => None
  end.

Definition decode_media (j : json) : option Media :=
  match get_object j with
  | Some fs => Some (mkMedia (string_field "path" fs "") (string_field "mime" fs ""))
  | None => None
  end.

Definition array_field (key : string) (fs : list (string * json)) : list json :=
  match field key fs ≫= get_array with Some l => l | None => [] end.

Definition decode_message (j : json) : option Message :=
  match get_object j with
  | Some fs =>
      Some (mkMessage (string_field "role" fs "") (string_field "content" fs "")
              (omap decode_call (array_field "tool_calls" fs)) (string_field "tool_call_id" fs "")
              [] (omap decode_media (array_field "media" fs)) (-1))
  | None => None
  end.

(** The messages of an already parsed document. *)
Definition decode_history_tree (j : json) : Result (list Message) :=
  match get_array j with
  | Some l => Ok (omap decode_message l)
  | None => fail ParseError "Stored history is not a JSON array."
  end.

Section History.
Context `{P : JsonParser}.

Definition decode_history_json (text : string) : Result (list Message) :=
  match parse_json text with
  | None => fail ParseError "Failed to parse stored history JSON."
  | Some j => decode_history_tree j
  end.

Context {W : Type}.

Definition encode_turn_stats (x : TurnStats) : string :=
  "{" +:+ q +:+ "prompt_tokens" +:+ q +:+ ":" +:+ to_string (ts_prompt_tokens x) +:+
  "," +:+ q +:+ "completion_tokens" +:+ q +:+ ":" +:+ to_string (ts_completion_tokens x) +:+
  "," +:+ q +:+ "tool_calls" +:+ q +:+ ":" +:+ to_string (ts_tool_calls x) +:+
  "," +:+ q +:+ "compressions" +:+ q +:+ ":" +:+ to_string (ts_compressions x) +:+
  "," +:+ q +:+ "prune_cycles" +:+ q +:+ ":" +:+ to_string (ts_prune_cycles x) +:+
  "," +:+ q +:+ "turns" +:+ q +:+ ":" +:+ to_string (ts_turns x) +:+ "}".

(** [if (!obj\[key\].get_int64().get(v)) target = static_cast<int>(v);] *)
Definition int_field (key : string) (fs : list (string * json)) (target : Z) : Z :=
  match field key fs ≫= get_int with
  | Some v => if ((-9223372036854775808 <=? v) && (v <=? 9223372036854775807))%Z then i32 v else target
  | None => target
  end.

Definition decode_turn_stats (text : string) (x : TurnStats) : TurnStats :=
  match parse_json text with
  | Some (JObj fs) =>
      mkTurnStats (int_field "prompt_tokens" fs (ts_prompt_tokens x))
        (int_field "completion_tokens" fs (ts_completion_tokens x)) (int_field "tool_calls" fs (ts_tool_calls x))
        (int_field "compressions" fs (ts_compressions x)) (int_field "prune_cycles" fs (ts_prune_cycles x))
        (int_field "turns" fs (ts_turns x))
  | _ => x
  end.

Definition save_flow_memory (m : FlowMemory) : M W (Result unit) :=
  if is_empty (fm_id m) then mret (fail InvalidConfig "FlowMemory.id is required to save history.")
  else
    r ← store_memory ("history:" +:+ fm_id m) (encode_history_json (history m));
    match r with
    | Fail e => mret (Fail e)
    | Ok _ => store_memory ("history_stats:" +:+ fm_id m) (encode_turn_stats (fm_stats m))
    end.

Definition load_flow_memory (m : FlowMemory) : M W (FlowMemory * Result unit) :=
  if is_empty (fm_id m) then mret (m, fail InvalidConfig "FlowMemory.id is required to load history.")
  else
    hist ← retrieve_memory ("history:" +:+ fm_id m);
    match hist with
    | Fail e => mret (m, Fail e)
    | Ok text =>
        match decode_history_json text with
        | Fail e => mret (m, Fail e)
        | Ok loaded =>
            let m1 := set_history m loaded in
            st ← retrieve_memory ("history_stats:" +:+ fm_id m1);
            mret (match st with
                  | Ok t => set_fm_stats m1 (decode_turn_stats t (fm_stats m1))
                  | Fail _ => m1
                  end, Ok tt)
        end
    end.

End History.

(** ** What a stored message keeps *)

Definition stored_message (m : Message) : Message :=
  mkMessage (role m) (content m) (tool_calls m) (tool_call_id m) [] (media m) (-1).

Definition call_valid (tc : ToolCall) : Prop :=
  valid_utf8 (bytes (call_id tc)) ∧ valid_utf8 (bytes (call_name tc)) ∧ valid_utf8 (bytes (call_arguments tc)).

Definition media_valid (m : Media) : Prop :=
  valid_utf8 (bytes (media_path m)) ∧ valid_utf8 (bytes (media_mime m)).

Definition message_valid (m : Message) : Prop :=
  valid_utf8 (bytes (role m)) ∧ valid_utf8 (bytes (content m)) ∧ valid_utf8 (bytes (tool_call_id m)) ∧
  Forall call_valid (tool_calls m) ∧ Forall media_valid (media m).

(** ** The value trees the writers produce *)

Definition call_tree (tc : ToolCall) : json :=
  JObj [("id", JStr (call_id tc)); ("name", JStr (call_name tc)); ("arguments", JStr (call_arguments tc))].

Definition media_tree (m : Media) : json :=
  JObj [("path", JStr (media_path m)); ("mime", JStr (media_mime m))].

Definition message_tree (m : Message) : json :=
  JObj ([("role", JStr (role m)); ("content", JStr (content m)); ("tool_call_id", JStr (tool_call_id m));
         ("tool_calls", JArr (map call_tree (tool_calls m)))] ++
        match media m with [] => [] | l => [("media", JArr (map media_tree l))] end).

Definition history_tree (h : list Message) : json := JArr (map message_tree h).

Definition stats_tree (x : TurnStats) : json :=
  JObj [("prompt_tokens", JInt (ts_prompt_tokens x)); ("completion_tokens", JInt (ts_completion_tokens x));
        ("tool_calls", JInt (ts_tool_calls x)); ("compressions", JInt (ts_compressions x));
        ("prune_cycles", JInt (ts_prune_cycles x)); ("turns", JInt (ts_turns x))].

(** ** Lemmas *)

Lemma render_JObj (fs : list (string * json)) :
  render (JObj fs) = "{" +:+ join_comma (map render_member fs) +:+ "}".
Proof. done. Qed.

Lemma render_JArr (l : list json) : render (JArr l) = "[" +:+ join_comma (map render l) +:+ "]".
Proof. done. Qed.

Lemma quoted_literal (s : string) :
  escape_json_string s = s → quoted s = q +:+ s +:+ q.
Proof. intros H. unfold quoted, q. by rewrite H. Qed.

(** Rewrites an encoder into [render] of its tree: literal member names are
    quoted as they are, and appends are reassociated. *)
Ltac render_eq :=
  rewrite ?render_JObj, ?render_JArr; cbn [map join_comma render_member fst snd render app];
  unfold render_member; cbn [fst snd render];
  repeat match goal with
    | |- context [quoted (String ?c ?s)] =>
        lazymatch s with context [escape_json_string] => fail | _ => idtac end;
        rewrite (quoted_literal (String c s)) by reflexivity
    end;
  rewrite ?append_assoc; try reflexivity.

Lemma encode_call_render (tc : ToolCall) : encode_call tc = render (call_tree tc).
Proof. unfold encode_call, call_tree. render_eq. Qed.

Lemma encode_media_render (m : Media) : encode_media m = render (media_tree m).
Proof. unfold encode_media, media_tree. render_eq. Qed.

Lemma encode_message_render (m : Message) : encode_message m = render (message_tree m).
Proof.
  assert (Hc : map encode_call (tool_calls m) = map render (map call_tree (tool_calls m))).
  { rewrite map_map. apply map_ext, encode_call_render. }
  assert (Hm : map encode_media (media m) = map render (map media_tree (media m))).
  { rewrite map_map. apply map_ext, encode_media_render. }
  unfold encode_message, message_tree. rewrite Hc.
  destruct (media m) as [|x l] eqn:E; [render_eq|]. rewrite Hm. render_eq.
Qed.


Lemma encode_history_render (h : list Message) : encode_history_json h = render (history_tree h).
Proof.
  unfold encode_history_json, history_tree. rewrite render_JArr, map_map.
  by rewrite (map_ext _ _ encode_message_render).
Qed.

Lemma encode_stats_render (x : TurnStats) : encode_turn_stats x = render (stats_tree x).
Proof. unfold encode_turn_stats, stats_tree. render_eq. Qed.

(** Every tree of a mapped list is fit for writing when its elements are. *)
Lemma json_ok_arr {A : Type} (f : A → json) (l : list A) :
  Forall (λ x, json_ok (f x)) l → json_ok (JArr (map f l)).
Proof. induction 1 as [|x l Hx _ IH]; cbn [map json_ok foldr] in *; [done|]. by split. Qed.

Lemma json_ok_obj (fs : list (string * json)) :
  Forall (λ kv, valid_utf8 (bytes kv.1) ∧ json_ok kv.2) fs → json_ok (JObj fs).
Proof. induction 1 as [|kv fs [] _ IH]; cbn [json_ok foldr] in *; [done|]. by split_and!. Qed.

(** An object with literal member names: one goal per member value. *)
Ltac ok_members :=
  apply json_ok_obj; repeat apply Forall_cons_2; try apply Forall_nil_2;
  (split; [apply valid_ascii; by repeat constructor|try done]).

Lemma call_tree_ok (tc : ToolCall) : call_valid tc → json_ok (call_tree tc).
Proof. intros (? & ? & ?). ok_members. Qed.

Lemma media_tree_ok (m : Media) : media_valid m → json_ok (media_tree m).
Proof. intros (? & ?). ok_members. Qed.

Lemma message_tree_ok (m : Message) : message_valid m → json_ok (message_tree m).
Proof.
  intros (Hr & Hc & Hi & Hcalls & Hmedia).
  assert (Hcs : json_ok (JArr (map call_tree (tool_calls m)))).
  { apply json_ok_arr. by eapply Forall_impl; [|apply call_tree_ok]. }
  assert (Hms : json_ok (JArr (map media_tree (media m)))).
  { apply json_ok_arr. by eapply Forall_impl; [|apply media_tree_ok]. }
  unfold message_tree. destruct (media m) as [|x l]; cbn [app]; ok_members.
Qed.

Lemma history_tree_ok (h : list Message) : Forall message_valid h → json_ok (history_tree h).
Proof. intros Hh. apply json_ok_arr. by eapply Forall_impl; [|apply message_tree_ok]. Qed.

Definition stats_small (x : TurnStats) : Prop :=
  Forall (λ z, -2147483648 ≤ z < 2147483648)%Z
    [ts_prompt_tokens x; ts_completion_tokens x; ts_tool_calls x; ts_compressions x; ts_prune_cycles x; ts_turns x].

Lemma stats_tree_ok (x : TurnStats) : stats_small x → json_ok (stats_tree x).
Proof.
  unfold stats_small. rewrite !Forall_cons. intros (? & ? & ? & ? & ? & ? & _).
  unfold stats_tree. ok_members; cbn [json_ok snd]; lia.
Qed.

Lemma omap_map_some {A B : Type} (f : A → json) (g : json → option B) (h : A → B) (l : list A) :
  (∀ x, g (f x) = Some (h x)) → omap g (map f l) = map h l.
Proof. intros Hgf. induction l as [|x l IH]; unfold omap in *; simpl; [done|]. by rewrite Hgf, IH. Qed.

Lemma decode_call_tree (tc : ToolCall) : decode_call (call_tree tc) = Some tc.
Proof. by destruct tc. Qed.

Lemma decode_media_tree (m : Media) : decode_media (media_tree m) = Some m.
Proof. by destruct m. Qed.

Lemma decode_message_tree (m : Message) : decode_message (message_tree m) = Some (stored_message m).
Proof.
  pose proof (omap_map_some _ _ id (tool_calls m) decode_call_tree) as Hc.
  pose proof (omap_map_some _ _ id (media m) decode_media_tree) as Hm.
  rewrite map_id in Hc, Hm. unfold message_tree, stored_message, decode_message.
  destruct (media m) as [|x l]; cbn [app get_object]; unfold array_field.
  - change (field "tool_calls" _) with (Some (JArr (map call_tree (tool_calls m)))).
    cbn [mbind option_bind get_array]. by rewrite Hc.
  - change (field "tool_calls" _) with (Some (JArr (map call_tree (tool_calls m)))).
    change (field "media" _) with (Some (JArr (map media_tree (x :: l)))).
    cbn [mbind option_bind get_array]. by rewrite Hc, Hm.
Qed.

Lemma decode_history_of_tree (h : list Message) :
  decode_history_tree (history_tree h) = Ok (map stored_message h).
Proof.
  unfold decode_history_tree, history_tree. simpl get_array. cbn iota.
  by rewrite (omap_map_some _ _ stored_message) by apply decode_message_tree.
Qed.

Lemma int_field_small (key : string) (fs : list (string * json)) (t v : Z) :
  field key fs = Some (JInt v) → (-2147483648 ≤ v < 2147483648)%Z → int_field key fs t = v.
Proof.
  intros Hf Hv. unfold int_field. rewrite Hf. simpl.
  destruct (Z.leb_spec (-9223372036854775808) v); [|lia].
  destruct (Z.leb_spec v 9223372036854775807); [|lia]. simpl. by apply i32_small.
Qed.

Section RoundTrip.
Context `{S : JsonParserSpec}.

Lemma decode_encode_history (h : list Message) :
  Forall message_valid h → decode_history_json (encode_history_json h) = Ok (map stored_message h).
Proof.
  intros Hh. unfold decode_history_json.
  rewrite encode_history_render, parse_render by by apply history_tree_ok.
  apply decode_history_of_tree.
Qed.

Lemma decode_encode_stats (x y : TurnStats) :
  stats_small x → decode_turn_stats (encode_turn_stats x) y = x.
Proof.
  intros Hx. unfold decode_turn_stats.
  rewrite encode_stats_render, parse_render by by apply stats_tree_ok.
  unfold stats_small in Hx. rewrite !Forall_cons in Hx. destruct Hx as (? & ? & ? & ? & ? & ? & _).
  unfold stats_tree. destruct x. simpl in *. f_equal; by apply int_field_small.
Qed.

End RoundTrip.

(** A conversation saved with [save_flow_memory] is read back by
    [load_flow_memory] into any memory object of the same id: the history the
    writer stores (role, text, tool calls, tool call id, media of every
    message) and the turn statistics.  The strings must be well-formed UTF-8
    and the counters 32-bit ints; the parser is any one meeting
    [JsonParserSpec]. *)
Theorem save_load_flow_memory {W : Type} `{S : JsonParserSpec} (rt : Rt W) (m m' : FlowMemory) :
  fm_id m ≠ "" → fm_id m' = fm_id m → Forall message_valid (history m) → stats_small (fm_stats m) →
  memory_state (rt_session rt) ≠ None → store (config (rt_session rt)) = None →
  let saved := save_flow_memory m rt in
  saved.2 = Ok tt ∧
  (load_flow_memory m' saved.1).2 =
    (mkFlowMemory (fm_id m) (map stored_message (history m)) (fm_stats m), Ok tt).
Proof.
  intros Hid Hid' Hh Hst Hmem Hstore. apply is_empty_false in Hid.
  unfold save_flow_memory. rewrite Hid. unfold mbind, M_bind at 1.
  destruct (memory_state (rt_session rt)) as [kv|] eqn:Em; [|done].
  unfold store_memory, ask, mbind, M_bind, modify_session, modify. rewrite Em, Hstore. simpl. rewrite Hstore.
  split; [done|].
  unfold load_flow_memory. rewrite Hid', Hid. unfold retrieve_memory, ask, mbind, M_bind, mret, M_ret.
  simpl. rewrite Hstore. simpl. unfold get_in_memory, put_in_memory.
  rewrite lookup_insert_ne by done. rewrite lookup_insert_eq.
  rewrite decode_encode_history by done. cbn. rewrite Hstore. simpl. rewrite Hid'.
  rewrite lookup_insert_eq. unfold set_fm_stats, set_history. simpl.
  by rewrite decode_encode_stats, Hid'.
Qed.

Definition sample_memory : FlowMemory :=
  mkFlowMemory "chat"
    [text_message "user" "hi";
     mkMessage "assistant" "" [mkToolCall "c1" "ls" "{}"] "" [] [] (-1);
     mkMessage "tool" "a.txt" [] "c1" [] [mkMedia "/a.png" "image/png"] 7]
    (mkTurnStats 12 3 1 0 0 2).

Lemma sample_memory_valid : Forall message_valid (history sample_memory) ∧ stats_small (fm_stats sample_memory).
Proof.
  split; [|unfold stats_small; simpl; repeat apply Forall_cons_2; try apply Forall_nil_2; lia].
  repeat apply Forall_cons_2; try apply Forall_nil_2;
    unfold message_valid; simpl; split_and!;
    repeat apply Forall_cons_2; try apply Forall_nil_2;
    unfold call_valid, media_valid; simpl; split_and?;
    apply valid_ascii; by repeat constructor.
Qed.

Lemma save_load_flow_memory_witness :
  let saved := save_flow_memory sample_memory Sample.rt in
  saved.2 = Ok tt ∧
  (@load_flow_memory RefParser.parser unit (mkFlowMemory "chat" [] no_turn_stats) saved.1).2 =
    (mkFlowMemory "chat" (map stored_message (history sample_memory)) (mkTurnStats 12 3 1 0 0 2), Ok tt).
Proof.
  apply (save_load_flow_memory Sample.rt sample_memory (mkFlowMemory "chat" [] no_turn_stats));
    [discriminate|reflexivity|apply sample_memory_valid|apply sample_memory_valid|discriminate|reflexivity].
Defined.
