(* ===== verification/Turn.v ===== *)
(** * The turn loop (src/core/executor/turn_executor.cpp)

    One call of [run_turn] appends the user message, compresses or prunes the
    history to the context window, sends it to the provider, and runs the
    requested tools until the model answers with text.  The conversation the
    turn works on is the thread's active one ([ambient::active_memory] points
    at the caller's [FlowMemory]), so tools such as compress_context and the
    host's hooks act on the same object.

    Token counts and statistics are the source's [int]s, taken as mathematical
    integers (overflow is undefined there).  The loop is not structural:
    [turn_loop] takes fuel and answers [None] when it runs out;
    [turn_terminates] gives the fuel that is always enough for an engine. *)
From stdpp Require Import base gmap strings list.
From Stdlib Require Import Lia ZArith.
From S2P Require Import Prelude Arena Text Json Session Provider Tools History.

Definition is_empty_list {A : Type} (l : list A) : bool := match l with [] => true | _ => false end.

(** [sizeof] of the view structs on LP64; all are 8-aligned. *)
Definition sizeof_MessageView : Z := 96.
Definition sizeof_ToolCallView : Z := 48.
Definition sizeof_TensorView : Z := 56.
Definition sizeof_MediaView : Z := 32.
Definition view_align : Z := 8.

Definition set_token_count (m : Message) (n : Z) : Message :=
  mkMessage (role m) (content m) (tool_calls m) (tool_call_id m) (tensors m) (media m) n.

(** [(len + 3) / 4] as an [int]. *)
Definition estimate_tokens (len : nat) : Z := i32 (Z.of_nat ((len + 3) / 4)).

(** The size the estimate of a message is based on. *)
Definition message_length (m : Message) : nat :=
  String.length (role m) + 2 + String.length (content m) + 1 +
  foldr (λ tc acc, String.length (call_name tc) + String.length (call_arguments tc) + acc) 0 (tool_calls m).

(** The texts of a message whose tokens are counted, in order. *)
Definition counted_parts (m : Message) : list string :=
  role m :: content m :: flat_map (λ tc, [call_name tc; call_arguments tc]) (tool_calls m).

(** ** Pruning decisions *)

Fixpoint leading (p : Message → bool) (h : list Message) : nat :=
  match h with
  | m :: h' => if p m then S (leading p h') else 0
  | [] => 0
  end.

(** The leading system messages are fixed; of a history of system messages
    only, the last one is left open. *)
Definition fixed_start (h : list Message) : nat :=
  let n := leading (is_role "system") h in
  if Nat.eqb n (length h) then length h - 1 else n.

(** The messages dropped together: a tool request, or a tool result, with the
    results that follow; any other message alone. *)
Definition drop_group (h : list Message) (i : nat) : nat :=
  match h !! i with
  | Some m => if is_role "tool" m || requests_tools m then S (leading (is_role "tool") (drop (S i) h)) else 1
  | None => 1
  end.

Section Turn.
Context {W : Type} `{Host W} `{JsonParser}.

(** ** The active conversation *)

Definition no_memory : FlowMemory := mkFlowMemory "" [] no_turn_stats.

Definition memory : M W FlowMemory := ask (λ rt, default no_memory (active_memory (rt_ambient rt))).

Definition set_memory (m : FlowMemory) : M W unit := modify_ambient (λ a, set_active_memory a (Some m)).

Definition update_memory (f : FlowMemory → FlowMemory) : M W unit := m ← memory; set_memory (f m).

(** ** Token counts *)

Definition add_part (tokens : Z) (part : string) : M W Z :=
  if is_empty part then mret tokens
  else r ← count_tokens part;
       mret (match r with Some (Ok n) => (tokens + n)%Z | _ => tokens end).

Fixpoint add_parts (tokens : Z) (parts : list string) : M W Z :=
  match parts with
  | [] => mret tokens
  | p :: rest => t ← add_part tokens p; add_parts t rest
  end.

(** The count is cached in the message ([mutable int token_count]). *)
Definition count_message_tokens (m : Message) : M W (Message * Z) :=
  if (0 <=? token_count m)%Z then mret (m, token_count m)
  else
    n ← add_parts 0 (counted_parts m);
    let tokens := if (n =? 0)%Z then estimate_tokens (message_length m) else n in
    mret (set_token_count m tokens, tokens).

Definition count_text_tokens (text : string) : M W Z :=
  if is_empty text then mret 0%Z
  else
    r ← count_tokens text;
    mret (match r with Some (Ok n) => n | _ => estimate_tokens (String.length text) end).

(** [for (msg : history) total += count_message_tokens(msg)] over a range. *)
Fixpoint count_list (ms : list Message) (total : Z) : M W (list Message * Z) :=
  match ms with
  | [] => mret ([], total)
  | m :: rest =>
      '(m', n) ← count_message_tokens m;
      '(rest', t) ← count_list rest (total + n)%Z;
      mret (m' :: rest', t)
  end.

Definition count_range (from to : nat) : M W Z :=
  m ← memory;
  let h := history m in
  '(counted, t) ← count_list (take (to - from) (drop from h)) 0%Z;
  update_memory (λ m, set_history m (take from h ++ counted ++ drop to h)) ;;
  mret t.

Definition history_tokens : M W Z := m ← memory; count_range 0 (length (history m)).

(** ** Pruning *)

(** The [while (total > max_allowed)] loop; returns [drop_to].  Every round
    moves [drop_to] forward, so the length of the history is enough fuel. *)
Fixpoint prune_loop (fuel : nat) (drop_from min_keep : nat) (max_allowed total : Z) (drop_to : nat) : M W nat :=
  match fuel with
  | O => mret drop_to
  | S f =>
      if (total <=? max_allowed)%Z then mret drop_to
      else
        m ← memory;
        let size := length (history m) in
        if Nat.leb size drop_to then mret drop_to
        else if Nat.leb (size - (drop_to - drop_from)) min_keep then mret drop_to
        else
          let group := drop_group (history m) drop_to in
          if Nat.ltb (size - (drop_to - drop_from) - group) min_keep then mret drop_to
          else
            t ← count_range drop_to (drop_to + group);
            prune_loop f drop_from min_keep max_allowed (total - t)%Z (drop_to + group)
  end.

Definition prune_budget (s : Session W) (prefix : Z) : Z :=
  Z.max 200 (context_window (config s) - max_tokens (config s) - 100 - prefix).

Definition prune_history_state : M W (Result unit) :=
  s ← ask rt_session;
  a ← ask rt_ambient;
  prefix ← count_text_tokens (injected_system_text a s);
  let max_allowed := prune_budget s prefix in
  m ← memory;
  if is_empty_list (history m) then mret (Ok tt)
  else
    let from := fixed_start (history m) in
    total ← history_tokens;
    to ← prune_loop (length (history m)) from (S from) max_allowed total from;
    if Nat.ltb from to then
      update_memory (λ m, set_fm_stats (set_history m (take from (history m) ++ drop to (history m)))
                            (ts_add_prune (fm_stats m))) ;;
      trigger_event OnPrune "" ;;
      log LogDebug ("Pruned " +:+ to_string (Z.of_nat (to - from)) +:+ " messages from history.") ;;
      mret (Ok tt)
    else mret (Ok tt).

(** ** Building the request *)

(** Leading system messages; only the first may carry media or tensors. *)
Definition lead_count (h : list Message) : nat :=
  match h with
  | m :: h' =>
      if is_role "system" m then
        S (leading (λ x, is_role "system" x && is_empty_list (media x) && is_empty_list (tensors x)) h')
      else 0
  | [] => 0
  end.

Definition combined_bytes (h : list Message) (n_lead : nat) (injected : string) : nat :=
  (if is_empty injected then 0 else String.length injected + 1) +
  foldr (λ m acc, String.length (content m) + 2 + acc) 0 (take n_lead h).

Fixpoint join_contents (h : list Message) : string :=
  match h with
  | [] => ""
  | [m] => content m
  | m :: rest => content m +:+ nl +:+ nl +:+ join_contents rest
  end.

(** The text written into the buffer of [combined_bytes + 1] bytes. *)
Definition combined_text (h : list Message) (n_lead : nat) (injected : string) : string :=
  join_contents (take n_lead h) +:+ (if is_empty injected then "" else nl +:+ injected).

Definition capacity_exhausted {A} : Result A :=
  fail DecodeFailed "Arena capacity exhausted building message views.".

(** [allocate_span<T>(n)] where a shorter span is an error. *)
Definition alloc_views (ar : Arena) (size_of : Z) (n : nat) : Arena * bool :=
  let '(ar', sp) := allocate_span ar size_of view_align (Z.of_nat n) in
  (ar', Nat.eqb n 0 || (span_size sp =? Z.of_nat n)%Z).

(** Tool media goes to the engine only when it takes that modality. *)
Definition sent_media (s : Session W) (m : Message) : list Media :=
  filter (λ md, negb (is_role "tool" m) || accepts_tool_media s (media_mime md) = true) (media m).

Definition view_of (s : Session W) (text : string) (m : Message) : MessageView :=
  mkMessageView (role m) text (tool_calls m) (tool_call_id m) (tensors m) (sent_media s m).

(** The spans one message needs: tool calls, tensors, media. *)
Definition alloc_message (s : Session W) (ar : Arena) (m : Message) : Arena * bool :=
  match alloc_views ar sizeof_ToolCallView (length (tool_calls m)) with
  | (ar1, false) => (ar1, false)
  | (ar1, true) =>
      match alloc_views ar1 sizeof_TensorView (length (tensors m)) with
      | (ar2, false) => (ar2, false)
      | (ar2, true) => alloc_views ar2 sizeof_MediaView (length (sent_media s m))
      end
  end.

Fixpoint alloc_messages (s : Session W) (ar : Arena) (ms : list Message) : Arena * bool :=
  match ms with
  | [] => (ar, true)
  | m :: rest =>
      match alloc_message s ar m with
      | (ar', true) => alloc_messages s ar' rest
      | (ar', false) => (ar', false)
      end
  end.

(** The messages that get a view: [history] without the merged ones. *)
Definition viewed (h : list Message) (n_lead : nat) : list Message :=
  match h with
  | [] => []
  | m :: _ => m :: drop (Nat.max 1 n_lead) h
  end.

Definition request_views (s : Session W) (injected : string) (h : list Message) : list MessageView :=
  let n_lead := lead_count h in
  let combined := Nat.ltb 1 n_lead || (Nat.eqb n_lead 1 && negb (is_empty injected)) in
  (if negb (is_empty injected) && Nat.eqb n_lead 0 then [mkMessageView "system" injected [] "" [] []] else []) ++
  match viewed h n_lead with
  | [] => []
  | m :: rest =>
      view_of s (if combined then combined_text h n_lead injected else content m) m ::
      map (λ x, view_of s (content x) x) rest
  end.

(** The number of views the span is allocated for. *)
Definition view_count (injected : string) (h : list Message) : nat :=
  let n_lead := lead_count h in
  length h - (if Nat.ltb 1 n_lead then n_lead - 1 else 0) +
  (if negb (is_empty injected) && Nat.eqb n_lead 0 then 1 else 0).

Definition sends_tool_media (s : Session W) (h : list Message) : bool :=
  existsb (λ m, is_role "tool" m && negb (is_empty_list (sent_media s m))) (viewed h (lead_count h)).

(** The views, and whether they carry tool-produced media; allocations in the
    order of the source. *)
Definition build_views (s : Session W) (injected : string) (h : list Message) (ar : Arena) :
    Arena * Result (list MessageView * bool) :=
  let n_lead := lead_count h in
  let views := request_views s injected h in
  match alloc_views ar sizeof_MessageView (view_count injected h) with
  | (ar1, false) =>
      (ar1, fail DecodeFailed ("Arena capacity exhausted building message views. " +:+
                               "Increase Config::arena_capacity or reduce Config::context_window."))
  | (ar1, true) =>
      let combined := Nat.ltb 1 n_lead || (Nat.eqb n_lead 1 && negb (is_empty injected)) in
      match (if combined then
               match allocate ar1 (u64 (Z.of_nat (combined_bytes h n_lead injected) + 1)) 1 with
               | (ar2, Some _) => (ar2, true)
               | (ar2, None) => (ar2, false)
               end
             else (ar1, true)) with
      | (ar2, false) => (ar2, capacity_exhausted)
      | (ar2, true) =>
          match alloc_messages s ar2 (viewed h n_lead) with
          | (ar3, false) => (ar3, capacity_exhausted)
          | (ar3, true) => (ar3, Ok (views, sends_tool_media s h))
          end
      end
  end.

(** ** Tool calls of one round *)

(** [log_event] and [emit] of the graph runtime, which the logging hooks call. *)
Definition event_payload (type : GraphEventType) (payload : string) : string :=
  if bool_decide (type = EvToolResult) then clip_tool_result payload else clip payload.

Definition log_event (type : GraphEventType) (node key payload : string) : M W GraphEvent :=
  t ← host now_ms;
  let e := mkGraphEvent type node key t (event_payload type payload) in
  modify (λ rt, with_events rt (rt_events rt ++ [e])) ;; mret e.

Definition emit (type : GraphEventType) (node key payload : string) : M W unit :=
  e ← log_event type node key payload;
  f ← ask rt_on_event;
  match f with Some g => host_ (g e) | None => mret tt end.

(** A hook's callback on the session and the active conversation. *)
Definition run_hook (f : HookFn W) (tool args result : string) : M W unit :=
  match f with
  | HostHook g =>
      s ← ask rt_session;
      m ← memory;
      w ← ask rt_world;
      let '(s', m', w') := g s m tool args result w in
      modify (λ rt, with_world (with_session rt s') w') ;; set_memory m'
  | LogToolPre node => emit EvToolCall node tool args
  | LogToolPost node => emit EvToolResult node tool result
  end.

Definition hook_applies (when : When) (tool : string) (h : ToolHook W) : bool :=
  bool_decide (hook_when h = when) && (is_empty (hook_tool_name h) || str_eqb (hook_tool_name h) tool).

Fixpoint fire_hooks (hooks : list (ToolHook W)) (when : When) (tool args result : string) : M W unit :=
  match hooks with
  | [] => mret tt
  | h :: rest =>
      (if hook_applies when tool h then
         match hook_callback h with Some f => run_hook f tool args result | None => mret tt end
       else mret tt) ;;
      fire_hooks rest when tool args result
  end.

Definition fire_tool_hooks (when : When) (tool args result : string) : M W unit :=
  a ← ask rt_ambient; fire_hooks (active_hooks a) when tool args result.

Definition tool_message (id : string) (r : ToolResult) : Message :=
  mkMessage "tool" (result_text r) [] id (result_tensors r) (result_media r) (-1).

Definition run_tool_call (tc : ToolCall) : M W unit :=
  trigger_event OnToolCall (call_name tc) ;;
  fire_tool_hooks Pre (call_name tc) (call_arguments tc) "" ;;
  r ← execute_for_message (call_name tc) (call_arguments tc);
  fire_tool_hooks Post (call_name tc) (call_arguments tc) (result_text r) ;;
  trigger_event OnToolResult (result_text r) ;;
  update_memory (λ m, set_fm_stats m (ts_add_tool_call (fm_stats m))) ;;
  modify_session (λ s, set_stats s (add_tool_call_stat (stats s))) ;;
  update_memory (λ m, push_message m (tool_message (call_id tc) r)).

Fixpoint run_tool_calls (calls : list ToolCall) : M W unit :=
  match calls with
  | [] => mret tt
  | tc :: rest => run_tool_call tc ;; run_tool_calls rest
  end.

(** [pause_before_tools] (src/core/graph/graph_executor.cpp): without a policy
    every call waits for approval. *)
Fixpoint asks_any (check : string → string → W → W * PermissionDecision) (calls : list ToolCall) : M W bool :=
  match calls with
  | [] => mret false
  | tc :: rest =>
      d ← host (check (call_name tc) (call_arguments tc));
      if bool_decide (d = Ask) then mret true else asks_any check rest
  end.

Definition pause_before_tools (calls : list ToolCall) : M W bool :=
  s ← ask rt_session;
  match permission_check (config s) with
  | None => mret true
  | Some check => asks_any check calls
  end.

Definition pauses (calls : list ToolCall) : M W bool :=
  a ← ask rt_ambient;
  if pause_fn_set a then pause_before_tools calls else mret false.

(** ** The loop *)

Record TurnArgs := mkTurnArgs {
  turn_stream : bool;
  turn_on_token : option (string → W → W)
}.

(** The assistant message a response adds to the history. *)
Definition assistant_message (r : InferResponse) : Message :=
  let v := resp_message r in
  mkMessage (view_role v) (view_content v) (view_tool_calls v) "" [] (view_media v) (-1).

(** One request: prune, build the views, infer. *)
Definition request_step (args : TurnArgs) : M W (Result (bool * Result InferResponse)) :=
  pruned ← prune_history_state;
  match pruned with
  | Fail e => mret (Fail e)
  | Ok _ =>
      s ← ask rt_session;
      a ← ask rt_ambient;
      m ← memory;
      let '(ar, built) := build_views s (injected_system_text a s) (history m) (reset (current_arena a s)) in
      modify_session (λ s, set_current_arena a s ar) ;;
      match built with
      | Fail e => mret (Fail e)
      | Ok (views, sent_tool_media) =>
          if cancel_requested s then mret (fail Cancelled "Turn cancelled.")
          else
            trigger_event OnInferenceSubmit "" ;;
            r ← infer (mkInferRequest views 0 (turn_stream args) (turn_on_token args) 0 "" no_temperature);
            mret (Ok (sent_tool_media, r))
      end
  end.

Definition retryable (c : ErrorCode) : bool :=
  negb (bool_decide (c = Cancelled)) && negb (bool_decide (c = EngineCrashed)).

(** What a round does with the response; [None] means the loop goes on. *)
Definition response_step (r : InferResponse) (rounds : Z) : M W (option (Result string)) :=
  trigger_event OnInferenceComplete "" ;;
  update_memory (λ m, set_fm_stats m (ts_add_turn (resp_usage r) (fm_stats m))) ;;
  modify_session (λ s, set_stats s (add_turn_stat (resp_usage r) (stats s))) ;;
  let msg := assistant_message r in
  update_memory (λ m, push_message m msg) ;;
  if is_empty_list (tool_calls msg) then mret (Some (Ok (content msg)))
  else
    paused ← pauses (tool_calls msg);
    if paused : bool then
      modify_ambient (λ a, set_tools_paused a true) ;; mret (Some (Ok (content msg)))
    else
      s ← ask rt_session;
      if (max_tool_call_rounds (config s) <=? rounds)%Z then
        log LogWarning ("Tool call round limit (" +:+ to_string (max_tool_call_rounds (config s)) +:+
                        ") reached; stopping tool loop.") ;;
        mret (Some (fail ToolCallLimitExceeded
                      ("Exceeded max_tool_call_rounds (" +:+ to_string (max_tool_call_rounds (config s)) +:+ ")")))
      else run_tool_calls (tool_calls msg) ;; mret None.

Fixpoint turn_loop (fuel : nat) (args : TurnArgs) (rounds : Z) : M W (option (Result string)) :=
  match fuel with
  | O => mret None
  | S f =>
      step ← request_step args;
      match step with
      | Fail e => mret (Some (Fail e))
      | Ok (sent_tool_media, Fail e) =>
          if sent_tool_media && retryable (code e) then
            log LogWarning ("Engine failed a request carrying tool-produced media (" +:+ message e +:+
                            "); retrying without it. Tool media is no longer sent to this engine.") ;;
            modify_session reject_tool_media ;;
            turn_loop f args rounds
          else mret (Some (Fail e))
      | Ok (_, Ok r) =>
          out ← response_step r rounds;
          match out with
          | Some res => mret (Some res)
          | None => turn_loop f args (rounds + 1)%Z
          end
      end
  end.

(** Before the loop: the user message, then automatic compression when the
    history passes 70% of the window. *)
Definition turn_start (prompt : string) (files : list Media) : M W unit :=
  trigger_event OnTurnStart "" ;;
  (if is_empty prompt && is_empty_list files then mret tt
   else update_memory (λ m, push_message m (mkMessage "user" prompt [] "" [] files (-1)))) ;;
  total ← history_tokens;
  s ← ask rt_session;
  m ← memory;
  if (context_window (config s) * 7 `quot` 10 <? total)%Z && Nat.ltb 6 (length (history m)) then
    '(m', _) ← compress_context m 6; set_memory m'
  else mret tt.

(** After the loop: a successful turn is saved. *)
Definition turn_finish (res : Result string) : M W (Result string) :=
  match res with
  | Fail e => mret (Fail e)
  | Ok text =>
      m ← memory;
      saved ← save_flow_memory m;
      (match saved with
       | Ok _ => mret tt
       | Fail e => log LogWarning ("save_flow_memory failed: " +:+ message e)
       end) ;;
      mret (Ok text)
  end.

(** [run_turn_with_media] on the caller's conversation [m]; the previously
    active one is restored ([ActiveMemoryGuard]). *)
Definition run_turn_with_media (fuel : nat) (args : TurnArgs) (m : FlowMemory) (prompt : string) (files : list Media) :
    M W (FlowMemory * option (Result string)) :=
  previous ← ask (λ rt, active_memory (rt_ambient rt));
  set_memory m ;;
  turn_start prompt files ;;
  out ← turn_loop fuel args 0;
  res ← (match out with
         | None => mret None
         | Some r => r' ← turn_finish r; mret (Some r')
         end);
  m' ← memory;
  modify_ambient (λ a, set_active_memory a previous) ;;
  mret (m', res).

Definition run_turn (fuel : nat) (args : TurnArgs) (m : FlowMemory) (prompt : string) :
    M W (FlowMemory * option (Result string)) :=
  run_turn_with_media fuel args m prompt [].

End Turn.

(** ** Lemmas: runs of messages *)

Lemma leading_le p (h : list Message) : leading p h ≤ length h.
Proof. induction h as [|m h IH]; simpl; [done|]. destruct (p m); lia. Qed.

(** The run is maximal: it ends at a message the predicate rejects. *)
Lemma leading_stop p (h : list Message) (m : Message) : h !! leading p h = Some m → p m = false.
Proof.
  induction h as [|x h IH]; simpl; [done|]. destruct (p x) eqn:E; simpl; [done|]. intros [= <-]. done.
Qed.

Lemma leading_forall p (h : list Message) (i : nat) (m : Message) :
  i < leading p h → h !! i = Some m → p m = true.
Proof.
  revert i. induction h as [|x h IH]; intros i Hi Hm; [done|]. simpl in Hi.
  destruct (p x) eqn:E; [|lia]. destruct i as [|i]; simpl in Hm; [by simplify_eq|]. apply (IH i); [lia|done].
Qed.

(** A tool result is never first, and follows a result or a request. *)
Lemma answered_before (b : list string) (h : list Message) (i : nat) (m x : Message) :
  answered b h = true → h !! i = Some x → h !! S i = Some m → is_role "tool" m = true →
  is_role "tool" x = true ∨ requests_tools x = true.
Proof.
  revert b i. induction h as [|y h IH]; intros b i Hh Hi Hm Ht; [done|].
  destruct i as [|i]; simpl in *.
  - simplify_eq. destruct (is_role "tool" x); [by left|]. right.
    destruct h as [|z h]; simpl in *; [done|]. simplify_eq. rewrite Ht in Hh. apply andb_prop in Hh as [Hid _].
    by apply bool_decide_eq_true, asked_requests in Hid.
  - destruct (is_role "tool" y); [apply andb_prop in Hh as [_ Hh]|]; by eapply IH.
Qed.

(** ** Dropping whole groups *)

Inductive drop_chain (h : list Message) : nat → nat → Prop :=
| chain_stop d : drop_chain h d d
| chain_drop d e :
    d + drop_group h d < length h → drop_chain h (d + drop_group h d) e → drop_chain h d e.

Lemma drop_group_pos (h : list Message) (d : nat) : 1 ≤ drop_group h d.
Proof. unfold drop_group. repeat step_goal; lia. Qed.

Lemma drop_group_le (h : list Message) (d : nat) : d < length h → d + drop_group h d ≤ length h.
Proof.
  intros Hd. unfold drop_group. pose proof (leading_le (is_role "tool") (drop (S d) h)) as Hl.
  rewrite length_drop in Hl. repeat step_goal; lia.
Qed.

Lemma chain_le (h : list Message) (d e : nat) : drop_chain h d e → d ≤ e.
Proof. induction 1; lia. Qed.

Lemma chain_lt (h : list Message) (d e : nat) : drop_chain h d e → d < e → e < length h.
Proof.
  induction 1 as [|d e Hg Hc IH]; [lia|]. intros _.
  destruct (decide (d + drop_group h d = e)) as [<-|]; [done|]. apply IH. apply chain_le in Hc. lia.
Qed.

(** The message behind a dropped group is no tool result. *)
Lemma group_boundary (b : list string) (h : list Message) (d : nat) (m : Message) :
  answered b h = true → h !! (d + drop_group h d) = Some m → is_role "tool" m = false.
Proof.
  intros Hh Hm. destruct (h !! d) as [x|] eqn:Hx.
  2:{ apply lookup_ge_None in Hx. apply lookup_lt_Some in Hm. lia. }
  unfold drop_group in Hm. rewrite Hx in Hm.
  destruct (is_role "tool" x || requests_tools x) eqn:E.
  - rewrite Nat.add_succ_r, <-Nat.add_succ_l, <-lookup_drop in Hm. by eapply leading_stop.
  - rewrite Nat.add_1_r in Hm. destruct (is_role "tool" m) eqn:Ht; [|done].
    apply orb_false_elim in E as [E1 E2].
    destruct (answered_before b h d m x Hh Hx Hm Ht); congruence.
Qed.

Lemma chain_boundary (b : list string) (h : list Message) (d e : nat) (m : Message) :
  answered b h = true → drop_chain h d e → d < e → h !! e = Some m → is_role "tool" m = false.
Proof.
  intros Hh Hc. induction Hc as [|d e Hg Hc IH]; [lia|]. intros _ Hm.
  destruct (decide (d + drop_group h d = e)) as [<-|]; [by eapply group_boundary|].
  apply IH; [|done]. apply chain_le in Hc. lia.
Qed.

(** Erasing whole groups keeps every tool result behind its request. *)
Lemma chain_no_orphans (h : list Message) (d e : nat) :
  no_orphans h = true → drop_chain h d e → no_orphans (take d h ++ drop e h) = true.
Proof.
  intros Hh Hc. destruct (decide (d = e)) as [->|]; [by rewrite take_drop|].
  unfold no_orphans in *. rewrite answered_app, (answered_take _ _ _ Hh). simpl.
  eapply answered_cut; [done|]. intros m Hm. eapply chain_boundary; [done|done| |done].
  apply chain_le in Hc. lia.
Qed.

(** ** Counting changes the caches only *)

Definition erase (m : Message) : Message := set_token_count m 0.

Lemma erase_role (r : string) (m m' : Message) : erase m = erase m' → is_role r m = is_role r m'.
Proof. intros [=]. unfold is_role. congruence. Qed.

Lemma erase_requests (m m' : Message) : erase m = erase m' → requests_tools m = requests_tools m'.
Proof. intros [=]. unfold requests_tools, is_role. by repeat match goal with E : _ = _ |- _ => rewrite E end. Qed.

Lemma map_cons_eq {A B : Type} (f : A → B) (x y : A) (l l' : list A) :
  map f (x :: l) = map f (y :: l') → f x = f y ∧ map f l = map f l'.
Proof. intros E. by simplify_list_eq. Qed.

Lemma erase_asked (m m' : Message) : erase m = erase m' → asked m = asked m' ∧ tool_call_id m = tool_call_id m'.
Proof. intros [=]. unfold asked, is_role. by repeat match goal with E : _ = _ |- _ => rewrite E end. Qed.

(** Functions of the history that do not look at the caches. *)
Lemma erase_answered (b : list string) (h h' : list Message) : map erase h = map erase h' → answered b h = answered b h'.
Proof.
  revert b h'. induction h as [|m h IH]; intros b [|m' h']; try done. intros [Hm Hh]%map_cons_eq.
  cbn [answered]. destruct (erase_asked m m' Hm) as [-> ->]. by rewrite (erase_role "tool" m m'), !(IH _ h').
Qed.

Lemma erase_length (h h' : list Message) : map erase h = map erase h' → length h = length h'.
Proof. intros E. by rewrite <-(length_map erase h), E, length_map. Qed.

Lemma erase_leading (r : string) (h h' : list Message) :
  map erase h = map erase h' → leading (is_role r) h = leading (is_role r) h'.
Proof.
  revert h'. induction h as [|m h IH]; intros [|m' h']; try done. intros [Hm Hh]%map_cons_eq.
  cbn [leading]. by rewrite (erase_role r m m'), (IH h').
Qed.

Lemma erase_drop (n : nat) (h h' : list Message) :
  map erase h = map erase h' → map erase (drop n h) = map erase (drop n h').
Proof. intros E. by rewrite <-!skipn_map, E. Qed.

Lemma erase_group (h h' : list Message) (d : nat) : map erase h = map erase h' → drop_group h d = drop_group h' d.
Proof.
  intros E. unfold drop_group.
  assert (Hd : erase <$> h !! d = erase <$> h' !! d).
  { rewrite <-!list_lookup_fmap. change (map erase h !! d = map erase h' !! d). by rewrite E. }
  destruct (h !! d) as [m|], (h' !! d) as [m'|]; try done.
  assert (He : erase m = erase m') by (by apply (inj Some)).
  rewrite (erase_role "tool" m m' He), (erase_requests m m' He).
  by rewrite (erase_leading "tool" (drop (S d) h) (drop (S d) h') (erase_drop _ _ _ E)).
Qed.

Lemma erase_chain (h h' : list Message) (d e : nat) :
  map erase h = map erase h' → drop_chain h d e → drop_chain h' d e.
Proof.
  intros E Hc. induction Hc as [d|d e Hg Hc IH]; [constructor|].
  rewrite (erase_group h h' d E) in *. rewrite (erase_length h h' E) in Hg. by apply chain_drop.
Qed.

Section TurnProofs.
Context {W : Type} `{Host W} `{JsonParser}.

Lemma ambient_add_parts t parts : preserves same_ambient (add_parts t parts : M W Z).
Proof. revert t. induction parts as [|p parts IH]; intros t; simpl; unfold add_part; preserve. Qed.

Lemma config_add_parts t parts : preserves same_config (add_parts t parts : M W Z).
Proof. revert t. induction parts as [|p parts IH]; intros t; simpl; unfold add_part; preserve. Qed.

#[local] Hint Resolve ambient_add_parts config_add_parts : preserve.

Lemma ambient_count_message m : preserves same_ambient (count_message_tokens m : M W _).
Proof. unfold count_message_tokens. preserve. Qed.

Lemma config_count_message m : preserves same_config (count_message_tokens m : M W _).
Proof. unfold count_message_tokens. preserve. Qed.

#[local] Hint Resolve ambient_count_message config_count_message : preserve.

Lemma ambient_count_list ms t : preserves same_ambient (count_list ms t : M W _).
Proof. revert t. induction ms as [|m ms IH]; intros t; simpl; preserve. Qed.

Lemma config_count_list ms t : preserves same_config (count_list ms t : M W _).
Proof. revert t. induction ms as [|m ms IH]; intros t; simpl; preserve. Qed.

#[local] Hint Resolve ambient_count_list config_count_list : preserve.

Lemma ambient_count_text t : preserves same_ambient (count_text_tokens t : M W Z).
Proof. unfold count_text_tokens. preserve. Qed.

Lemma count_message_erase m (rt : Rt W) : erase (count_message_tokens m rt).2.1 = erase m.
Proof.
  unfold count_message_tokens. destruct (0 <=? token_count m)%Z; [done|].
  unfold mbind, M_bind. by destruct (add_parts 0 (counted_parts m) rt).
Qed.

Lemma count_list_erase ms t (rt : Rt W) : map erase (count_list ms t rt).2.1 = map erase ms.
Proof.
  revert t rt. induction ms as [|m ms IH]; intros t rt; [done|]. cbn [count_list].
  unfold mbind, M_bind. pose proof (count_message_erase m rt) as Hm.
  destruct (count_message_tokens m rt) as [rt1 [m' n]]. specialize (IH (t + n)%Z rt1).
  destruct (count_list ms (t + n) rt1) as [rt2 [ms' t']]. simpl in *. congruence.
Qed.

(** The history is recounted: the messages are the same up to their caches,
    everything else of the thread is as before. *)
Definition recounted (rt rt' : Rt W) : Prop :=
  ∀ m, active_memory (rt_ambient rt) = Some m →
    ∃ h, rt_ambient rt' = set_active_memory (rt_ambient rt) (Some (set_history m h)) ∧
         map erase h = map erase (history m).

#[global] Instance recounted_preorder : PreOrder recounted.
Proof.
  split.
  - intros rt m Hm. exists (history m). split; [|done].
    destruct rt as [s w [] ev f], m. simpl in *. by subst.
  - intros r1 r2 r3 H1 H2 m Hm. destruct (H1 m Hm) as (h & E & Hh).
    destruct (H2 (set_history m h)) as (h' & E' & Hh'); [by rewrite E|].
    exists h'. split; [by rewrite E', E|]. by rewrite Hh', <-Hh.
Qed.

Lemma recounted_ambient {A} (m : M W A) : preserves same_ambient m → preserves recounted m.
Proof. intros Hm rt x Hx. rewrite (Hm rt). by apply (reflexivity (R := recounted) rt). Qed.

(** Counting the messages from [from] to [to]. *)
Lemma count_range_recounted from to : from ≤ to → preserves recounted (count_range from to : M W Z).
Proof.
  intros Hle rt m Hm. unfold count_range, memory, mbind, M_bind, ask. rewrite Hm. simpl.
  set (part := take (to - from) (drop from (history m))).
  pose proof (ambient_count_list part 0%Z rt) as Ha. pose proof (count_list_erase part 0%Z rt) as He.
  destruct (count_list part 0%Z rt) as [rt1 [l t]]. unfold same_ambient in Ha. simpl in *.
  rewrite Ha, Hm. simpl. exists (take from (history m) ++ l ++ drop to (history m)). split; [done|].
  rewrite !map_app, He. unfold part. rewrite <-!map_app. f_equal.
  replace to with (from + (to - from)) at 2 by lia. rewrite <-drop_drop, take_drop. apply take_drop.
Qed.

Lemma history_tokens_recounted : preserves recounted (history_tokens : M W Z).
Proof.
  unfold history_tokens, memory. apply preserves_bind; [exact _|apply recounted_ambient; preserve|].
  intros m. apply count_range_recounted. lia.
Qed.

Lemma config_history_tokens : preserves same_config (history_tokens : M W Z).
Proof. unfold history_tokens, count_range, update_memory, memory, set_memory. preserve. Qed.

Lemma memory_run (rt : Rt W) (m : FlowMemory) :
  active_memory (rt_ambient rt) = Some m → memory rt = (rt, m).
Proof. intros Hm. unfold memory, ask. by rewrite Hm. Qed.

Lemma prune_loop_chain fuel from max_allowed total d (rt : Rt W) m :
  active_memory (rt_ambient rt) = Some m → from ≤ d →
  recounted rt (prune_loop fuel from (S from) max_allowed total d rt).1 ∧
  drop_chain (history m) d (prune_loop fuel from (S from) max_allowed total d rt).2.
Proof.
  revert total d rt m. induction fuel as [|f IH]; intros total d rt m Hm Hd; cbn [prune_loop].
  { split; [reflexivity|constructor]. }
  destruct (total <=? max_allowed)%Z; [split; [reflexivity|constructor]|].
  unfold mbind, M_bind. rewrite (memory_run rt m Hm).
  destruct (Nat.leb_spec (length (history m)) d); [split; [reflexivity|constructor]|].
  destruct (Nat.leb_spec (length (history m) - (d - from)) (S from)); [split; [reflexivity|constructor]|].
  pose proof (drop_group_le (history m) d ltac:(lia)) as Hg.
  destruct (Nat.ltb_spec (length (history m) - (d - from) - drop_group (history m) d) (S from));
    [split; [reflexivity|constructor]|].
  pose proof (count_range_recounted d (d + drop_group (history m) d) ltac:(lia) rt) as Hr.
  destruct (count_range d (d + drop_group (history m) d) rt) as [rt1 t]. simpl in Hr.
  destruct (Hr m Hm) as (h & E & Hh).
  destruct (IH (total - t)%Z (d + drop_group (history m) d) rt1 (set_history m h)) as [Hr' Hc];
    [by rewrite E|lia|].
  split; [by etransitivity|]. apply chain_drop; [lia|]. by eapply erase_chain.
Qed.

Lemma fixed_start_le (h : list Message) : fixed_start h ≤ length h.
Proof.
  unfold fixed_start. pose proof (leading_le (is_role "system") h). destruct (Nat.eqb _ _); lia.
Qed.

Lemma erase_fixed (h h' : list Message) : map erase h = map erase h' → fixed_start h = fixed_start h'.
Proof. intros E. unfold fixed_start. by rewrite (erase_leading "system" h h' E), (erase_length h h' E). Qed.

(** The outcome of pruning: a chain of whole groups behind the system messages
    is erased. *)
Definition pruned (m m' : FlowMemory) : Prop :=
  ∃ e, drop_chain (history m) (fixed_start (history m)) e ∧ fm_id m' = fm_id m ∧
       map erase (history m') = map erase (take (fixed_start (history m)) (history m) ++ drop e (history m)).

Lemma erase_cut (i j : nat) (h h' : list Message) :
  map erase h = map erase h' → map erase (take i h ++ drop j h) = map erase (take i h' ++ drop j h').
Proof. intros E. by rewrite !map_app, <-!firstn_map, <-!skipn_map, E. Qed.

Lemma pruned_same (m : FlowMemory) (h : list Message) :
  map erase h = map erase (history m) → pruned m (set_history m h).
Proof.
  intros E. exists (fixed_start (history m)). split; [constructor|]. split; [done|].
  by rewrite take_drop.
Qed.

Lemma prune_outcome (rt : Rt W) m :
  active_memory (rt_ambient rt) = Some m →
  (prune_history_state rt).2 = Ok tt ∧
  ∃ m', rt_ambient (prune_history_state rt).1 = set_active_memory (rt_ambient rt) (Some m') ∧ pruned m m'.
Proof.
  intros Hm. unfold prune_history_state, mbind, M_bind, ask.
  pose proof (ambient_count_text (injected_system_text (rt_ambient rt) (rt_session rt)) rt) as Ha.
  destruct (count_text_tokens _ rt) as [rt1 prefix]. unfold same_ambient in Ha. simpl in Ha.
  rewrite (memory_run rt1 m) by congruence.
  assert (Hrefl : ∃ m', rt_ambient rt1 = set_active_memory (rt_ambient rt) (Some m') ∧ pruned m m').
  { exists (set_history m (history m)). split; [|by apply pruned_same].
    rewrite Ha. destruct rt as [? ? [] ? ?], m. simpl in *. by subst. }
  destruct (is_empty_list (history m)); [by split|].
  pose proof (history_tokens_recounted rt1) as Hr. destruct (history_tokens rt1) as [rt2 total].
  destruct (Hr m) as (h & E & Hh); [congruence|]. simpl in E.
  pose proof (prune_loop_chain (length (history m)) (fixed_start (history m)) (prune_budget (rt_session rt) prefix)
                total (fixed_start (history m)) rt2 (set_history m h)) as Hloop.
  destruct (prune_loop _ _ _ _ _ _ rt2) as [rt3 e]. simpl in Hloop.
  destruct Hloop as [Hr3 Hc]; [by rewrite E|done|].
  destruct (Hr3 (set_history m h)) as (h3 & E3 & Hh3); [by rewrite E|]. simpl in E3, Hh3.
  assert (Hamb : rt_ambient rt3 = set_active_memory (rt_ambient rt) (Some (set_history m h3))).
  { rewrite E3, E, Ha. by destruct (rt_ambient rt). }
  assert (Hh3m : map erase h3 = map erase (history m)) by congruence.
  destruct (Nat.ltb_spec (fixed_start (history m)) e).
  2:{ split; [done|]. exists (set_history m h3). split; [done|]. by apply pruned_same. }
  unfold update_memory, mbind, M_bind. rewrite (memory_run rt3 (set_history m h3)) by by rewrite Hamb.
  unfold set_memory, modify_ambient, modify. cbn beta iota.
  match goal with |- context [trigger_event OnPrune "" ?r] => set (rt4 := r) end.
  pose proof (ambient_trigger OnPrune "" rt4) as H5. destruct (trigger_event OnPrune "" rt4) as [rt5 ?].
  cbn beta iota.
  match goal with |- context [log ?l ?msg rt5] => pose proof (ambient_log l msg rt5) as H6; destruct (log l msg rt5) as [rt6 ?] end.
  unfold same_ambient in H5, H6. simpl in *. split; [done|].
  eexists. split; [rewrite H6, H5; simpl; rewrite Hamb; simpl; reflexivity|].
  exists e. split; [exact (erase_chain h (history m) _ _ Hh Hc)|]. split; [done|]. simpl. by apply erase_cut.
Qed.

Lemma pruned_no_orphans (m m' : FlowMemory) :
  pruned m m' → no_orphans (history m) = true → no_orphans (history m') = true.
Proof.
  intros (e & Hc & _ & Hh) Hno. unfold no_orphans. rewrite (erase_answered _ _ _ Hh).
  by apply chain_no_orphans.
Qed.

End TurnProofs.

(** Pruning never fails.  It erases a run of whole groups right behind the
    leading system messages (a tool request goes with all its results), keeps
    at least the last message, and leaves every tool result behind its
    request; apart from token caches the other messages are unchanged. *)
Theorem prune_correct {W : Type} `{Host W} (rt : Rt W) (m : FlowMemory) :
  active_memory (rt_ambient rt) = Some m → no_orphans (history m) = true →
  (prune_history_state rt).2 = Ok tt ∧
  ∃ m' e, active_memory (rt_ambient (prune_history_state rt).1) = Some m' ∧
    no_orphans (history m') = true ∧ drop_chain (history m) (fixed_start (history m)) e ∧
    (fixed_start (history m) < e → e < length (history m)) ∧
    map erase (history m') = map erase (take (fixed_start (history m)) (history m) ++ drop e (history m)).
Proof.
  intros Hm Hno. destruct (prune_outcome rt m Hm) as [Hok (m' & Ha & Hp)]. split; [done|].
  pose proof (pruned_no_orphans m m' Hp Hno) as Hno'. destruct Hp as (e & Hc & _ & Hh).
  exists m', e. split_and!; [by rewrite Ha|done|done|by apply chain_lt|done].
Qed.

Definition sample_turn_rt : Rt unit :=
  with_ambient Sample.rt (set_active_memory (rt_ambient Sample.rt) (Some (mkFlowMemory "m" sample_history no_turn_stats))).

Lemma prune_correct_witness :
  (prune_history_state sample_turn_rt).2 = Ok tt ∧
  ∃ m' e, active_memory (rt_ambient (prune_history_state sample_turn_rt).1) = Some m' ∧
    no_orphans (history m') = true ∧ drop_chain sample_history (fixed_start sample_history) e ∧
    (fixed_start sample_history < e → e < length sample_history) ∧
    map erase (history m') = map erase (take (fixed_start sample_history) sample_history ++ drop e sample_history).
Proof.
  exact (prune_correct sample_turn_rt (mkFlowMemory "m" sample_history no_turn_stats) eq_refl eq_refl).
Defined.

(** ** The budget, once the counts are known *)

Definition token_sum (h : list Message) : Z := foldr (λ m acc, token_count m + acc)%Z 0%Z h.

Definition counted (h : list Message) : Prop := Forall (λ m, 0 ≤ token_count m)%Z h.

Lemma token_sum_app (h1 h2 : list Message) : token_sum (h1 ++ h2) = (token_sum h1 + token_sum h2)%Z.
Proof. induction h1 as [|m h1 IH]; simpl; [done|]. rewrite IH. lia. Qed.

Definition slice {A} (i j : nat) (l : list A) : list A := take (j - i) (drop i l).

Lemma slice_cut {A} (i j : nat) (l : list A) : i ≤ j → l = take i l ++ slice i j l ++ drop j l.
Proof.
  intros Hij. rewrite <-(take_drop i l) at 1. f_equal. unfold slice.
  replace j with (i + (j - i)) at 2 by lia. by rewrite <-drop_drop, take_drop.
Qed.

Lemma token_sum_cut (i j : nat) (h : list Message) :
  i ≤ j → token_sum (take i h ++ drop j h) = (token_sum h - token_sum (slice i j h))%Z.
Proof. intros Hij. rewrite (slice_cut i j h Hij) at 3. rewrite !token_sum_app. lia. Qed.

Lemma token_sum_slice (i j k : nat) (h : list Message) :
  i ≤ j → j ≤ k → token_sum (slice i k h) = (token_sum (slice i j h) + token_sum (slice j k h))%Z.
Proof.
  intros Hij Hjk. rewrite <-token_sum_app. f_equal. unfold slice.
  replace (k - i) with ((j - i) + (k - j)) by lia. rewrite <-take_take_drop.
  rewrite drop_drop. by replace (i + (j - i)) with j by lia.
Qed.

Section Budget.
Context {W : Type} `{Host W}.

Lemma count_list_counted ms t (rt : Rt W) :
  counted ms → count_list ms t rt = (rt, (ms, t + token_sum ms)%Z).
Proof.
  intros Hms. revert t. induction Hms as [|m ms Hm _ IH]; intros t; cbn [count_list token_sum foldr].
  { unfold mret, M_ret. do 2 f_equal. lia. }
  unfold count_message_tokens. destruct (Z.leb_spec 0 (token_count m)); [|lia].
  unfold mbind, M_bind, mret, M_ret. rewrite IH. do 2 f_equal. unfold token_sum. lia.
Qed.

Lemma count_range_counted i j (rt : Rt W) m :
  active_memory (rt_ambient rt) = Some m → counted (history m) → i ≤ j →
  count_range i j rt = (rt, token_sum (slice i j (history m))).
Proof.
  intros Hm Hc Hij. unfold count_range, mbind, M_bind. rewrite (memory_run rt m Hm).
  rewrite count_list_counted by (by apply Forall_take, Forall_drop).
  unfold update_memory, mbind, M_bind. rewrite (memory_run rt m Hm).
  unfold set_memory, modify_ambient, modify, mret, M_ret. cbn beta iota.
  change (take (j - i) (drop i (history m))) with (slice i j (history m)).
  rewrite <-(slice_cut i j (history m) Hij). f_equal.
  destruct rt as [? ? [] ? ?], m. simpl in *. by subst.
Qed.

(** With enough fuel the loop stops within the budget, or when only the last
    group is left. *)
Lemma prune_loop_counted fuel from max_allowed total d (rt : Rt W) m :
  active_memory (rt_ambient rt) = Some m → counted (history m) → from ≤ d → d < length (history m) →
  length (history m) - d ≤ fuel →
  ∃ e, prune_loop fuel from (S from) max_allowed total d rt = (rt, e) ∧ drop_chain (history m) d e ∧
    ((total - token_sum (slice d e (history m)) ≤ max_allowed)%Z ∨
     length (history m) ≤ e + drop_group (history m) e).
Proof.
  intros Hm Hc. revert total d. induction fuel as [|f IH]; intros total d Hd Hlt Hf; [lia|]. cbn [prune_loop].
  assert (Hs : token_sum (slice d d (history m)) = 0%Z) by (unfold slice; by rewrite Nat.sub_diag).
  assert (Hstop : (total ≤ max_allowed)%Z ∨ length (history m) ≤ d + drop_group (history m) d →
    ∃ e, (rt, d) = (rt, e) ∧ drop_chain (history m) d e ∧
    ((total - token_sum (slice d e (history m)) ≤ max_allowed)%Z ∨ length (history m) ≤ e + drop_group (history m) e)).
  { intros Hx. exists d. split; [done|]. split; [constructor|]. rewrite Hs, Z.sub_0_r. done. }
  pose proof (drop_group_pos (history m) d) as Hpos. pose proof (drop_group_le (history m) d Hlt) as Hg.
  destruct (Z.leb_spec total max_allowed); [by apply Hstop; left|].
  unfold mbind, M_bind. rewrite (memory_run rt m Hm).
  destruct (Nat.leb_spec (length (history m)) d); [lia|].
  destruct (Nat.leb_spec (length (history m) - (d - from)) (S from)); [apply Hstop; right; lia|].
  destruct (Nat.ltb_spec (length (history m) - (d - from) - drop_group (history m) d) (S from));
    [apply Hstop; right; lia|].
  rewrite (count_range_counted _ _ rt m) by (done || lia).
  set (g := drop_group (history m) d) in *.
  destruct (IH (total - token_sum (slice d (d + g) (history m)))%Z (d + g)) as (e & -> & Hch & Hb); [lia..|].
  exists e. split; [done|]. split; [by apply chain_drop; [fold g; lia|]|].
  rewrite (token_sum_slice d (d + g) e) by (lia || by apply (chain_le (history m))).
  destruct Hb; [left; lia|by right].
Qed.

End Budget.

(** Once every message has its token count, pruning brings the history
    within the window (the context size less the reply, a reserve of 100 and
    the injected tool list, but at least 200), unless all that is left behind
    the system messages is one group, which is never split or dropped. *)
Theorem prune_meets_budget {W : Type} `{Host W} (rt : Rt W) (m : FlowMemory) :
  active_memory (rt_ambient rt) = Some m → counted (history m) → history m ≠ [] →
  let prefix := (count_text_tokens (injected_system_text (rt_ambient rt) (rt_session rt)) rt).2 in
  ∃ m' e, active_memory (rt_ambient (prune_history_state rt).1) = Some m' ∧
    history m' = take (fixed_start (history m)) (history m) ++ drop e (history m) ∧
    ((token_sum (history m') ≤ prune_budget (rt_session rt) prefix)%Z ∨
     length (history m) ≤ e + drop_group (history m) e).
Proof.
  intros Hm Hc Hne. unfold prune_history_state, mbind, M_bind, ask.
  pose proof (ambient_count_text (injected_system_text (rt_ambient rt) (rt_session rt)) rt) as Ha.
  destruct (count_text_tokens _ rt) as [rt1 prefix]. unfold same_ambient in Ha. simpl in Ha. simpl snd.
  assert (Hm1 : active_memory (rt_ambient rt1) = Some m) by congruence.
  rewrite (memory_run rt1 m Hm1). set (h := history m) in *.
  replace (is_empty_list h) with false by (by destruct h).
  unfold history_tokens, mbind, M_bind. rewrite (memory_run rt1 m Hm1).
  rewrite (count_range_counted _ _ rt1 m) by (done || lia).
  assert (Hlen : 0 < length h) by (destruct h; [done|simpl; lia]).
  assert (Hfs : fixed_start h < length h).
  { unfold fixed_start. pose proof (leading_le (is_role "system") h).
    destruct (Nat.eqb_spec (leading (is_role "system") h) (length h)); lia. }
  destruct (prune_loop_counted (length h) (fixed_start h) (prune_budget (rt_session rt) prefix)
              (token_sum (slice 0 (length h) h)) (fixed_start h) rt1 m) as (e & E & Hch & Hb); [done|done|done|done|fold h; lia|].
  fold h in E, Hch, Hb. fold h. rewrite E.
  replace (token_sum (slice 0 (length h) h)) with (token_sum h) in Hb.
  2:{ unfold slice. rewrite drop_0, Nat.sub_0_r, firstn_all. done. }
  rewrite <-token_sum_cut in Hb by by apply (chain_le h).
  destruct (Nat.ltb_spec (fixed_start h) e).
  - unfold update_memory, mbind, M_bind. rewrite (memory_run rt1 m Hm1).
    unfold set_memory, modify_ambient, modify. cbn beta iota.
    match goal with |- context [trigger_event OnPrune "" ?r] => set (rt4 := r) end.
    pose proof (ambient_trigger OnPrune "" rt4) as H5. destruct (trigger_event OnPrune "" rt4) as [rt5 ?].
    cbn beta iota.
    match goal with |- context [log ?l ?msg rt5] =>
      pose proof (ambient_log l msg rt5) as H6; destruct (log l msg rt5) as [rt6 ?] end.
    unfold same_ambient in H5, H6. simpl in *.
    eexists _, e. split; [rewrite H6, H5; reflexivity|]. by split.
  - pose proof (chain_le h _ _ Hch) as Hle.
    assert (e = fixed_start h) as -> by (apply Nat.le_antisymm; assumption).
    exists m, (fixed_start h). simpl. split; [done|]. fold h. rewrite take_drop in *. by split.
Qed.

Lemma prune_meets_budget_witness :
  let m := mkFlowMemory "m" (map (λ m, set_token_count m 3000) sample_history) no_turn_stats in
  let rt := with_ambient Sample.rt (set_active_memory (rt_ambient Sample.rt) (Some m)) in
  ∃ m' e, active_memory (rt_ambient (prune_history_state rt).1) = Some m' ∧
    history m' = take (fixed_start (history m)) (history m) ++ drop e (history m) ∧
    ((token_sum (history m') ≤ prune_budget (rt_session rt) 0)%Z ∨
     length (history m) ≤ e + drop_group (history m) e).
Proof.
  apply (prune_meets_budget
    (with_ambient Sample.rt (set_active_memory (rt_ambient Sample.rt)
       (Some (mkFlowMemory "m" (map (λ m, set_token_count m 3000) sample_history) no_turn_stats)))));
    [reflexivity|repeat constructor; simpl; lia|discriminate].
Defined.

(** ** The buffers of a request *)

Lemma append_length (a b : string) : String.length (a +:+ b) = String.length a + String.length b.
Proof. rewrite <-!bytes_length, bytes_app. apply length_app. Qed.

Lemma join_contents_length (h : list Message) :
  String.length (join_contents h) ≤ foldr (λ m acc, String.length (content m) + 2 + acc) 0 h.
Proof.
  induction h as [|m [|m' h] IH]; cbn [join_contents foldr] in *; [done|lia|].
  rewrite !append_length. change (String.length nl) with 1. lia.
Qed.

Lemma lead_count_le (h : list Message) : lead_count h ≤ length h.
Proof.
  destruct h as [|m h]; cbn [lead_count length]; [done|]. destruct (is_role "system" m); [|lia].
  apply le_n_S, leading_le.
Qed.

(** The buffers a request is built in are large enough: exactly
    [view_count] views are written into the span of that many, and the merged
    system text with its separators fits the bytes reserved for it (one more
    is allocated). *)
Theorem request_buffers_fit {W : Type} (s : Session W) (injected : string) (h : list Message) :
  length (request_views s injected h) = view_count injected h ∧
  String.length (combined_text h (lead_count h) injected) ≤ combined_bytes h (lead_count h) injected.
Proof.
  split.
  - unfold request_views, view_count. pose proof (lead_count_le h) as Hl. rewrite length_app.
    rewrite Nat.add_comm. f_equal; [|by destruct (negb (is_empty injected) && Nat.eqb (lead_count h) 0)].
    destruct h as [|m h]; [by simpl|]. unfold viewed. cbn [length]. rewrite length_map, length_drop. cbn [length] in *.
    destruct (Nat.ltb_spec 1 (lead_count (m :: h))); lia.
  - unfold combined_text, combined_bytes. rewrite append_length.
    pose proof (join_contents_length (take (lead_count h) h)).
    destruct (is_empty injected); [simpl; lia|]. rewrite append_length. change (String.length nl) with 1. lia.
Qed.

(** ** Termination *)

(** The configuration and the provider's verdict on tool media are kept. *)
Definition same_setup {W : Type} (rt rt' : Rt W) : Prop :=
  config (rt_session rt') = config (rt_session rt) ∧ provider_state (rt_session rt') = provider_state (rt_session rt) ∧
  active_hooks (rt_ambient rt') = active_hooks (rt_ambient rt).

#[global] Instance same_setup_preorder {W : Type} : PreOrder (@same_setup W).
Proof.
  split; [by intros ?; split_and!|]. intros ??? (E1 & E2 & E3) (F1 & F2 & F3). unfold same_setup.
  by rewrite F1, F2, F3, E1, E2, E3.
Qed.

(** Hooks of the host that leave the configuration and the provider alone. *)
Definition tame_hook {W : Type} (h : ToolHook W) : Prop :=
  match hook_callback h with
  | Some (HostHook g) => ∀ s m tool args result w,
      config (g s m tool args result w).1.1 = config s ∧
      provider_state (g s m tool args result w).1.1 = provider_state s
  | _ => True
  end.

Section Setup.
Context {W : Type} `{Host W} `{JsonParser}.

Lemma setup_host {A} (f : W → W * A) : preserves same_setup (host f).
Proof. intros rt. unfold host. by destruct (f (rt_world rt)). Qed.

Lemma setup_stats (f : SessionStats → SessionStats) :
  preserves same_setup (modify_session (λ s, set_stats s (f (stats s))) : M W unit).
Proof. done. Qed.

Lemma setup_arena a x : preserves same_setup (modify_session (λ s, set_current_arena a s x) : M W unit).
Proof.
  intros rt. unfold same_setup, modify_session, modify, set_current_arena. simpl.
  by destruct (worker_arenas _ !! _).
Qed.

Lemma setup_store kv : preserves same_setup (modify_session (λ s, set_memory_state s kv) : M W unit).
Proof. done. Qed.

Lemma setup_memory m : preserves same_setup (set_memory m : M W unit).
Proof. done. Qed.

Lemma setup_slab x : preserves same_setup (modify_ambient (λ a, set_summary_slab a x) : M W unit).
Proof. done. Qed.

Lemma setup_active_memory m : preserves same_setup (modify_ambient (λ a, set_active_memory a m) : M W unit).
Proof. done. Qed.

Lemma setup_allowed l : preserves same_setup (modify_ambient (λ a, set_allowed_tools a l) : M W unit).
Proof. done. Qed.

Lemma setup_paused b : preserves same_setup (modify_ambient (λ a, set_tools_paused a b) : M W unit).
Proof. done. Qed.

Lemma setup_events f : preserves same_setup (modify (λ rt, with_events rt (f rt)) : M W unit).
Proof. done. Qed.

#[local] Hint Resolve setup_host setup_stats setup_arena setup_store setup_memory setup_slab setup_active_memory
  setup_allowed setup_paused setup_events : preserve.

Ltac setup := unfold host_ in *; preserve.

Lemma setup_log l msg : preserves same_setup (log l msg : M W unit).
Proof. unfold log. setup. Qed.

Lemma setup_trigger t p : preserves same_setup (trigger_event t p : M W unit).
Proof. unfold trigger_event. setup. Qed.

#[local] Hint Resolve setup_log setup_trigger : preserve.

Lemma setup_infer_task t req ar : preserves same_setup (infer_task t req ar : M W _).
Proof. unfold infer_task, run_engine. setup. Qed.

#[local] Hint Resolve setup_infer_task : preserve.

Lemma setup_infer req : preserves same_setup (infer req : M W _).
Proof. unfold infer, infer_engine, infer_mock, on_current_arena, run_engine. setup. Qed.

Lemma setup_count_tokens t : preserves same_setup (count_tokens t : M W _).
Proof. unfold count_tokens. setup. Qed.

#[local] Hint Resolve setup_infer setup_count_tokens : preserve.

Lemma setup_compress m k : preserves same_setup (compress_context m k : M W _).
Proof. unfold compress_context, summarize, with_allowed_tools, summary_arena. setup. Qed.

#[local] Hint Resolve setup_compress : preserve.

Lemma setup_add_parts t parts : preserves same_setup (add_parts t parts : M W Z).
Proof. revert t. induction parts as [|p parts IH]; intros t; simpl; unfold add_part; setup. Qed.

#[local] Hint Resolve setup_add_parts : preserve.

Lemma setup_count_list ms t : preserves same_setup (count_list ms t : M W _).
Proof. revert t. induction ms as [|m ms IH]; intros t; simpl; unfold count_message_tokens; setup. Qed.

#[local] Hint Resolve setup_count_list : preserve.

Lemma setup_count_range i j : preserves same_setup (count_range i j : M W Z).
Proof. unfold count_range, update_memory, memory. setup. Qed.

#[local] Hint Resolve setup_count_range : preserve.

Lemma setup_prune_loop f from k a t d : preserves same_setup (prune_loop f from k a t d : M W nat).
Proof. revert t d. induction f as [|f IH]; intros t d; simpl; unfold memory; setup. Qed.

#[local] Hint Resolve setup_prune_loop : preserve.

Lemma setup_prune : preserves same_setup (prune_history_state : M W _).
Proof. unfold prune_history_state, count_text_tokens, history_tokens, update_memory, memory. setup. Qed.

Lemma setup_execute n args : preserves same_setup (execute_for_message n args : M W _).
Proof.
  unfold execute_for_message, execute_tool_parts, default_execute, permission_gate, invoke_tool, run_callback,
    context_compressor_callback. setup.
Qed.

Lemma setup_save m : preserves same_setup (save_flow_memory m : M W _).
Proof. unfold save_flow_memory, store_memory. setup. Qed.

Lemma setup_pauses calls : preserves same_setup (pauses calls : M W bool).
Proof.
  unfold pauses, pause_before_tools. setup. induction calls as [|tc calls IH]; simpl; setup.
Qed.

#[local] Hint Resolve setup_prune setup_execute setup_save setup_pauses : preserve.

(** With tame hooks the whole turn keeps the setup. *)
Definition tame_setup (rt rt' : Rt W) : Prop :=
  Forall tame_hook (active_hooks (rt_ambient rt)) → same_setup rt rt'.

#[global] Instance tame_setup_preorder : PreOrder tame_setup.
Proof.
  split; [intros ? _; reflexivity|]. intros r1 r2 r3 H1 H2 Ht. specialize (H1 Ht).
  etransitivity; [exact H1|]. apply H2. destruct H1 as (_ & _ & E). by rewrite E.
Qed.

Lemma tame_of_setup {A} (m : M W A) : preserves same_setup m → preserves tame_setup m.
Proof. intros Hm rt _. apply Hm. Qed.

#[local] Hint Extern 4 (preserves tame_setup _) => apply tame_of_setup : preserve.

Lemma setup_run_hook (h : ToolHook W) f tool args result :
  hook_callback h = Some f → tame_hook h → preserves same_setup (run_hook f tool args result).
Proof.
  intros Hf Ht. unfold tame_hook in Ht. rewrite Hf in Ht. destruct f as [g|n|n]; cbn [run_hook].
  - intros rt. unfold mbind, M_bind, ask, memory, modify. cbn beta iota.
    simpl. match goal with |- context [g ?s ?m ?t ?a ?r ?w] =>
      destruct (Ht s m t a r w) as [E1 E2]; destruct (g s m t a r w) as [[s' m'] w'] end.
    split; [exact E1|split; [exact E2|reflexivity]].
  - unfold emit, log_event. setup.
  - unfold emit, log_event. setup.
Qed.

Lemma tame_fire_hooks hooks when tool args result :
  Forall tame_hook hooks → preserves same_setup (fire_hooks hooks when tool args result).
Proof.
  induction 1 as [|h hooks Hh _ IH]; simpl; [setup|].
  apply preserves_bind; [exact _| |by intros _]. destruct (hook_applies when tool h); [|setup].
  destruct (hook_callback h) as [f|] eqn:E; [|setup]. by eapply setup_run_hook.
Qed.

Lemma tame_fire when tool args result : preserves tame_setup (fire_tool_hooks when tool args result).
Proof. intros rt Ht. by apply (tame_fire_hooks (active_hooks (rt_ambient rt))). Qed.

#[local] Hint Resolve tame_fire : preserve.

Lemma tame_run_tool_calls calls : preserves tame_setup (run_tool_calls calls).
Proof.
  induction calls as [|tc calls IH]; simpl; unfold run_tool_call, update_memory, memory; setup.
Qed.

#[local] Hint Resolve tame_run_tool_calls : preserve.

Lemma tame_request args : preserves tame_setup (request_step args).
Proof. unfold request_step, memory. setup. Qed.

Lemma tame_response r rounds : preserves tame_setup (response_step r rounds).
Proof. unfold response_step, update_memory, memory. setup. Qed.

Lemma tame_start prompt files : preserves tame_setup (turn_start prompt files).
Proof. unfold turn_start, history_tokens, update_memory, memory. setup. Qed.

(** How often a request may still be retried without tool media. *)
Definition retries (s : Session W) : nat :=
  match provider_state s with
  | Some es => if tool_media_rejected es then 0 else 1
  | None => 0
  end.

Lemma sends_retries s h :
  provider (config s) = Engine → sends_tool_media s h = true → retries s = 1.
Proof.
  intros He Hs. unfold sends_tool_media in Hs. apply existsb_exists in Hs as (m & _ & Hm).
  apply andb_prop in Hm as [Ht Hm]. unfold sent_media in Hm.
  destruct (filter _ (media m)) as [|md l] eqn:E; [done|].
  assert (Hin : md ∈ md :: l) by left. rewrite <-E in Hin. apply list_elem_of_filter in Hin as [Hacc _].
  rewrite Ht in Hacc. simpl in Hacc. unfold accepts_tool_media in Hacc. rewrite He in Hacc. unfold retries.
  destruct (provider_state s) as [es|]; [|done]. by destruct (tool_media_rejected es).
Qed.

Lemma build_views_sends (s : Session W) injected h ar v b :
  (build_views s injected h ar).2 = Ok (v, b) → b = sends_tool_media s h.
Proof. unfold build_views. repeat step_goal; intros Hr; simpl in *; by simplify_eq. Qed.

Lemma request_sends args (rt : Rt W) r :
  provider (config (rt_session rt)) = Engine →
  (request_step args rt).2 = Ok (true, r) → retries (rt_session rt) = 1.
Proof.
  intros He. unfold request_step, mbind, M_bind. pose proof (setup_prune rt) as (Ec & Ep & _).
  destruct (prune_history_state rt) as [rt1 [?|e]]; [|done]. unfold ask, memory. simpl in *.
  match goal with |- context [build_views ?s ?i ?h ?a] =>
    pose proof (build_views_sends s i h a) as Hb; destruct (build_views s i h a) as [ar [[views sent]|e]] end; [|done].
  specialize (Hb views sent eq_refl). simpl. unfold mbind, M_bind.
  destruct (cancel_requested _); [done|].
  match goal with |- context [infer ?q ?r] => destruct (infer q r) as [rt3 res] end. simpl. intros [= -> ->].
  unfold retries. rewrite <-Ep. eapply sends_retries; [by rewrite Ec|by rewrite <-Hb].
Qed.

Lemma response_continues r rounds (rt : Rt W) :
  (response_step r rounds rt).2 = None → (rounds < max_tool_call_rounds (config (rt_session rt)))%Z.
Proof.
  unfold response_step, mbind, M_bind.
  pose proof (setup_trigger OnInferenceComplete "" rt) as (Ec & _ & _).
  destruct (trigger_event _ _ rt) as [rt1 ?]. cbn beta iota.
  unfold update_memory, memory, set_memory, modify_session, modify_ambient, modify, mbind, M_bind, ask. cbn beta iota.
  destruct (is_empty_list _); [done|].
  match goal with |- context [pauses ?c ?r] =>
    pose proof (setup_pauses c r) as (Ec2 & _ & _); destruct (pauses c r) as [rt2 p] end.
  simpl in *. destruct p; [done|].
  destruct (Z.leb_spec (max_tool_call_rounds (config (rt_session rt2))) rounds) as [Hle|Hlt].
  - unfold mbind, M_bind. by destruct (log _ _ rt2).
  - intros _. by rewrite <-Ec, <-Ec2.
Qed.

(** Fuel for the remaining rounds and retries is enough. *)
Lemma turn_loop_terminates fuel args rounds (rt : Rt W) :
  provider (config (rt_session rt)) = Engine → Forall tame_hook (active_hooks (rt_ambient rt)) →
  Z.to_nat (max_tool_call_rounds (config (rt_session rt)) - rounds) + retries (rt_session rt) < fuel →
  (turn_loop fuel args rounds rt).2 ≠ None.
Proof.
  revert rounds rt. induction fuel as [|f IH]; intros rounds rt He Ht Hf; [lia|]. cbn [turn_loop].
  unfold mbind, M_bind. pose proof (request_sends args rt) as Hsend.
  pose proof (tame_request args rt Ht) as (Ec & Ep & Eh).
  destruct (request_step args rt) as [rt1 [[sent [r|e]]|e]]; simpl in *; [| |done].
  - pose proof (response_continues r rounds rt1) as Hcont.
    pose proof (tame_response r rounds rt1) as Hresp.
    destruct (response_step r rounds rt1) as [rt2 [res|]]; [done|]. simpl in *.
    destruct Hresp as (Ec2 & Ep2 & Eh2); [by rewrite Eh|]. specialize (Hcont eq_refl).
    rewrite Ec in Hcont. apply IH; [by rewrite Ec2, Ec|by rewrite Eh2, Eh|].
    unfold retries in *. rewrite Ec2, Ec, Ep2, Ep. lia.
  - destruct (sent && retryable (code e)) eqn:Er; [|done]. apply andb_prop in Er as [-> _].
    match goal with |- context [log ?l ?msg rt1] =>
      pose proof (setup_log l msg rt1) as (Ec2 & Ep2 & Eh2); destruct (log l msg rt1) as [rt2 ?] end.
    simpl in *. unfold modify_session, modify. cbn beta iota. specialize (Hsend _ He eq_refl).
    assert (Hrej : retries (reject_tool_media (rt_session rt2)) = 0 ∧
                   config (reject_tool_media (rt_session rt2)) = config (rt_session rt2)).
    { unfold reject_tool_media. rewrite Ec2, Ec, He. unfold retries in *. rewrite Ep2, Ep.
      destruct (provider_state (rt_session rt)) as [es|]; [split; [done|simpl; congruence]|done]. }
    destruct Hrej as [Hr0 Hrc]. apply IH; simpl; [by rewrite Hrc, Ec2, Ec|by rewrite Eh2, Eh|].
    rewrite Hrc, Ec2, Ec, Hr0. lia.
Qed.

Lemma turn_returns fuel args m prompt files (rt : Rt W) :
  provider (config (rt_session rt)) = Engine → Forall tame_hook (active_hooks (rt_ambient rt)) →
  Z.to_nat (max_tool_call_rounds (config (rt_session rt))) + 2 ≤ fuel →
  (run_turn_with_media fuel args m prompt files rt).2.2 ≠ None.
Proof.
  intros He Ht Hf. unfold run_turn_with_media, mbind, M_bind, ask, set_memory, modify_ambient, modify.
  cbn beta iota. set (rt0 := with_ambient rt _).
  pose proof (tame_start prompt files rt0 Ht) as (Ec & Ep & Eh).
  destruct (turn_start prompt files rt0) as [rt1 ?]. simpl in *.
  pose proof (turn_loop_terminates fuel args 0 rt1) as Hloop.
  destruct (turn_loop fuel args 0 rt1) as [rt2 [res|]].
  - unfold mbind, M_bind. destruct (turn_finish res rt2) as [rt3 r]. done.
  - exfalso. apply Hloop; [by rewrite Ec|by rewrite Eh| |done]. rewrite Ec.
    unfold retries. repeat step_goal; lia.
Qed.

End Setup.


(** An engine that always asks for the tool "ping" once more. *)
Module TurnSample.

Definition reply : InferResponse :=
  mkInferResponse (mkMessageView "assistant" "" [mkToolCall "c" "ping" "{}"] "" [] []) (mkTokenUsage 1 1 2) [].

Definition engine : EngineState nat :=
  mkEngineState "demo" 3 0 false (λ _ _ _ _ ar w, (w, ar, Ok reply)) (λ _ w, (w, Ok 1%Z)) (λ w, (w, Ok tt)).

Definition cfg : Config nat :=
  mkConfig Engine "" "" "" "" None
    [mkTool "ping" "counts" "{}" (Some (HostCallback (λ _ w, (S w, Ok "pong")))) None] 4096 512 2 4 None None None 0.

Definition rt : Rt nat :=
  mkRt (rebuild_tool_index
          (mkSession cfg (Arena_new 4096 65536) [] [] (Some engine) (Some ∅) no_session_stats ∅ "" "" ∅ None 0 ∅ []))
    0 (mkAmbient None [] [] 0 false false false (Arena_new 1048576 0)) [] None.

Definition args : @TurnArgs nat := mkTurnArgs false None.

End TurnSample.


(** Two rounds run the tool, the third request hits the limit. *)
Example turn_stops_at_limit :
  let '(rt', (m', res)) :=
    @run_turn_with_media nat _ RefParser.parser 4 TurnSample.args (mkFlowMemory "m" [] no_turn_stats) "go" []
      TurnSample.rt in
  rt_world rt' = 2 ∧ length (history m') = 6 ∧
  res = Some (fail ToolCallLimitExceeded "Exceeded max_tool_call_rounds (2)").
Proof. vm_compute. done. Qed.

(** ** A turn that never ends *)

(** A mock session configured for another task than text generation, with a
    tool result that carries an image. *)
Definition stuck_rt : Rt unit :=
  mkRt (mkSession (mkConfig Mock "" "" "" "" None [] 4096 512 10 4 None None None AGENT_CAP_EMBED)
          (Arena_new 4096 65536) [] [] None (Some ∅) no_session_stats ∅ "" "" ∅ None 0 ∅ [])
    tt (rt_ambient Sample.rt) [] None.

Definition stuck_memory : FlowMemory :=
  mkFlowMemory "m"
    [text_message "user" "draw";
     mkMessage "assistant" "" [mkToolCall "c1" "draw" "{}"] "" [] [] (-1);
     mkMessage "tool" "[attached: /a.png (image/png)]" [] "c1" [] [mkMedia "/a.png" "image/png"] (-1)]
    no_turn_stats.

Lemma turn_loop_cycle {W : Type} `{Host W} `{JsonParser} (rt : Rt W) (args : TurnArgs) (e : Error) (fuel : nat) :
  request_step args rt = (rt, Ok (true, Fail e)) → retryable (code e) = true →
  (∀ msg, (log LogWarning msg rt) = (rt, tt)) → reject_tool_media (rt_session rt) = rt_session rt →
  (turn_loop fuel args 0 rt).2 = None.
Proof.
  intros Hr He Hlog Hrej. induction fuel as [|f IH]; [done|]. cbn [turn_loop].
  unfold mbind, M_bind. rewrite Hr, He. cbn [andb]. rewrite Hlog. unfold modify_session, modify. rewrite Hrej.
  by destruct rt.
Qed.

(** The state before the first request, and after it. *)
Definition stuck_start : Rt unit := (turn_start "" [] (set_memory stuck_memory stuck_rt).1).1.
Definition stuck_retry : Rt unit := (request_step (mkTurnArgs false None) stuck_start).1.
Definition stuck_error : Error := make_error UnsupportedProvider "The mock provider only performs text generation.".

(** The retry without tool media is not limited to once: the mock provider
    accepts all tool media and has no way to record a rejection, so a mock
    session whose [default_task] is not text generation, given a history with
    tool-produced media, repeats the same failing request forever: no amount
    of fuel ends the turn. *)
Theorem mock_turn_diverges (fuel : nat) :
  (@run_turn_with_media unit _ RefParser.parser fuel (mkTurnArgs false None) stuck_memory "" [] stuck_rt).2.2 = None.
Proof.
  assert (Hs : turn_start "" [] (set_memory stuck_memory stuck_rt).1 = (stuck_start, tt)) by (by vm_compute).
  assert (H1 : request_step (mkTurnArgs false None) stuck_start = (stuck_retry, Ok (true, Fail stuck_error)))
    by (by vm_compute).
  assert (H2 : request_step (mkTurnArgs false None) stuck_retry = (stuck_retry, Ok (true, Fail stuck_error)))
    by (by vm_compute).
  assert (Hrej : with_session stuck_retry (reject_tool_media (rt_session stuck_retry)) = stuck_retry)
    by (by vm_compute).
  assert (Hloop : (@turn_loop unit _ RefParser.parser fuel (mkTurnArgs false None) 0 stuck_start).2 = None).
  { destruct fuel as [|f]; [done|]. cbn [turn_loop]. unfold mbind, M_bind. rewrite H1. cbn beta iota.
    change (true && retryable (code stuck_error)) with true. cbn beta iota.
    change (log LogWarning _ stuck_retry) with (stuck_retry, tt). unfold modify_session, modify. cbn beta iota.
    rewrite Hrej.
    by apply (turn_loop_cycle stuck_retry _ stuck_error); [| | |by vm_compute]. }
  unfold run_turn_with_media, mbind, M_bind, ask.
  change (set_memory stuck_memory stuck_rt) with ((set_memory stuck_memory stuck_rt).1, tt). cbn beta iota.
  rewrite Hs. destruct (turn_loop fuel _ 0 stuck_start) as [rt' o]. simpl in Hloop. by rewrite Hloop.
Qed.

(** ** Tool results stay behind their requests *)

(** The tools of the session do not rewrite the conversation. *)
Definition tools_plain {W : Type} (s : Session W) : Prop :=
  Forall (λ t, callback t ≠ Some CompressorCallback) (tools (config s)).

(** A tame hook that also leaves the messages alone. *)
Definition quiet_hook {W : Type} (h : ToolHook W) : Prop :=
  tame_hook h ∧
  match hook_callback h with
  | Some (HostHook g) => ∀ s m tool args result w, history (g s m tool args result w).1.2 = history m
  | _ => True
  end.

(** The engine answers as the assistant (the response reader of
    engine_provider.cpp sets that role). *)
Definition replies_assistant {W : Type} (s : Session W) : Prop :=
  ∀ es, provider_state s = Some es → ∀ cfg allowed task req ar w r,
    (es_run es cfg allowed task req ar w).2 = Ok r → view_role (resp_message r) = "assistant".

Definition plain_setup {W : Type} (rt : Rt W) : Prop :=
  tools_plain (rt_session rt) ∧ Forall quiet_hook (active_hooks (rt_ambient rt)) ∧ replies_assistant (rt_session rt).

(** The invariant of the loop; [pending] are the ids of the calls of a round
    whose results are being appended. *)
Definition turn_inv {W : Type} (pending : list string) (rt : Rt W) : Prop :=
  plain_setup rt ∧ ∃ m, active_memory (rt_ambient rt) = Some m ∧ no_orphans (history m) = true ∧
    pending ⊆ open_round [] (history m).

Section Orphans.
Context {W : Type} `{Host W} `{JsonParser}.

Lemma plain_of_setup (rt rt' : Rt W) : same_setup rt rt' → plain_setup rt → plain_setup rt'.
Proof.
  intros (Ec & Ep & Eh) (Ht & Hq & Hr). unfold plain_setup, tools_plain, replies_assistant in *.
  by rewrite Ec, Ep, Eh.
Qed.

Lemma tame_of_plain (rt : Rt W) : plain_setup rt → Forall tame_hook (active_hooks (rt_ambient rt)).
Proof. intros (_ & Hq & _). eapply Forall_impl; [done|]. by intros h []. Qed.

(** Steps that leave the thread locals and the setup alone keep the invariant. *)
Lemma inv_frame {A} (m : M W A) b (rt : Rt W) :
  preserves same_ambient m → preserves same_setup m → turn_inv b rt → turn_inv b (m rt).1.
Proof.
  intros Ha Hs (Hp & x & Hx & Hrest). split; [exact (plain_of_setup _ _ (Hs rt) Hp)|].
  exists x. by rewrite (Ha rt).
Qed.

Lemma inv_update b b' f (rt : Rt W) :
  turn_inv b rt →
  (∀ m, no_orphans (history m) = true → b ⊆ open_round [] (history m) →
     no_orphans (history (f m)) = true ∧ b' ⊆ open_round [] (history (f m))) →
  turn_inv b' (update_memory f rt).1.
Proof.
  intros (Hp & m & Hm & Hno & Hopen) Hf. unfold update_memory, mbind, M_bind.
  rewrite (memory_run rt m Hm). destruct (Hf m Hno Hopen). split; [done|]. by exists (f m).
Qed.

Lemma ambient_execute n args (rt : Rt W) :
  tools_plain (rt_session rt) → same_ambient rt (execute_for_message n args rt).1.
Proof.
  intros Ht. unfold execute_for_message, execute_tool_parts, default_execute, mbind, M_bind, ask.
  cbn beta iota. destruct (tool_by_name _ !! n) as [i|]; [|done].
  destruct (negb (tool_allowed _ n)); [done|].
  assert (Hg : preserves same_ambient (permission_gate n args : M W _)) by (unfold permission_gate; preserve).
  specialize (Hg rt). destruct (permission_gate n args rt) as [rt1 [?|e]]; [|exact Hg]. simpl in Hg.
  destruct (tools (config (rt_session rt)) !! i) as [t|] eqn:E; [|exact Hg].
  assert (Hi : preserves same_ambient (invoke_tool t n args : M W _)).
  { unfold tools_plain in Ht. rewrite Forall_forall in Ht. apply list_elem_of_lookup_2, Ht in E.
    unfold invoke_tool, run_callback. destruct (callback t) as [[f|]|]; [| |]; try done; preserve. }
  specialize (Hi rt1). destruct (invoke_tool t n args rt1) as [rt2 r]. simpl in *.
  by transitivity rt1.
Qed.

Lemma ambient_emit t n k p : preserves same_ambient (emit t n k p : M W unit).
Proof.
  unfold emit, log_event, host_.
  assert (Hev : ∀ f : Rt W → list GraphEvent, preserves same_ambient (modify (λ rt, with_events rt (f rt)))) by done.
  preserve.
Qed.

(** Hooks may change the conversation's statistics but not its messages. *)
Lemma inv_run_hook b (h : ToolHook W) f tool args result (rt : Rt W) :
  hook_callback h = Some f → quiet_hook h → turn_inv b rt → turn_inv b (run_hook f tool args result rt).1.
Proof.
  intros Hf [Ht Hq] Hi. pose proof (setup_run_hook h f tool args result Hf Ht rt) as Hs.
  rewrite Hf in Hq. destruct f as [g|n|n]; cbn [run_hook] in *.
  - destruct Hi as (Hp & m & Hm & Hno & Hopen). split; [exact (plain_of_setup _ _ Hs Hp)|].
    unfold mbind, M_bind, ask. rewrite (memory_run rt m Hm). cbn beta iota.
    specialize (Hq (rt_session rt) m tool args result (rt_world rt)).
    destruct (g _ _ _ _ _ _) as [[s' m'] w']. simpl in *. exists m'. by rewrite Hq.
  - apply inv_frame; [|exact (setup_run_hook h _ tool args result Hf Ht)|done].
    apply ambient_emit.
  - apply inv_frame; [|exact (setup_run_hook h _ tool args result Hf Ht)|done].
    apply ambient_emit.
Qed.

Lemma inv_fire b hooks when tool args result (rt : Rt W) :
  Forall quiet_hook hooks → turn_inv b rt → turn_inv b (fire_hooks hooks when tool args result rt).1.
Proof.
  intros Hq. revert rt. induction Hq as [|h hooks Hh _ IH]; intros rt Hi; [done|].
  cbn [fire_hooks]. unfold mbind, M_bind.
  match goal with |- turn_inv b (let '(_, _) := ?m rt in _).1 => assert (Hi1 : turn_inv b (m rt).1) end.
  { destruct (hook_applies when tool h); [|done]. destruct (hook_callback h) eqn:E; [|done].
    by eapply inv_run_hook. }
  destruct (_ rt) as [rt1 ?]. by apply IH.
Qed.

Lemma inv_tool_call ids (tc : ToolCall) (rt : Rt W) : call_id tc ∈ ids → turn_inv ids rt → turn_inv ids (run_tool_call tc rt).1.
Proof.
  intros Htc Hi. unfold run_tool_call, mbind, M_bind.
  apply (inv_frame (trigger_event OnToolCall (call_name tc))) in Hi; [|apply ambient_trigger|apply setup_trigger].
  destruct (trigger_event OnToolCall (call_name tc) rt) as [rt1 ?]. simpl in Hi.
  unfold fire_tool_hooks, mbind, M_bind, ask. cbn beta iota.
  apply (inv_fire ids (active_hooks (rt_ambient rt1)) Pre (call_name tc) (call_arguments tc) "") in Hi;
    [|apply Hi].
  destruct (fire_hooks _ Pre _ _ _ rt1) as [rt2 ?]. simpl in Hi.
  assert (Hi3 : turn_inv ids (execute_for_message (call_name tc) (call_arguments tc) rt2).1).
  { pose proof (ambient_execute (call_name tc) (call_arguments tc) rt2) as Ha.
    destruct Hi as (Hp & m & Hm & Hrest). split; [eapply plain_of_setup; [apply setup_execute|done]|].
    exists m. rewrite Ha by apply Hp. done. }
  destruct (execute_for_message _ _ rt2) as [rt3 r]. simpl in Hi3.
  apply (inv_fire ids (active_hooks (rt_ambient rt3)) Post (call_name tc) (call_arguments tc) (result_text r)) in Hi3;
    [|apply Hi3].
  destruct (fire_hooks _ Post _ _ _ rt3) as [rt4 ?]. simpl in Hi3.
  apply (inv_frame (trigger_event OnToolResult (result_text r))) in Hi3; [|apply ambient_trigger|apply setup_trigger].
  destruct (trigger_event OnToolResult (result_text r) rt4) as [rt5 ?]. simpl in Hi3.
  apply (inv_update ids ids (λ m, set_fm_stats m (ts_add_tool_call (fm_stats m)))) in Hi3; [|done].
  destruct (update_memory _ rt5) as [rt6 ?]. unfold modify_session, modify. cbn beta iota. simpl in Hi3.
  apply (inv_update ids ids); [exact Hi3|]. intros m Hno Hopen. simpl.
  unfold no_orphans in *. rewrite answered_app, Hno, open_round_cons_app. cbn. rewrite bool_decide_true by (by apply Hopen). by split.
Qed.

Lemma inv_tool_calls ids (calls : list ToolCall) (rt : Rt W) :
  call_id <$> calls ⊆ ids → turn_inv ids rt → turn_inv ids (run_tool_calls calls rt).1.
Proof.
  revert rt. induction calls as [|tc calls IH]; intros rt Hc Hi; [done|]. cbn [run_tool_calls]. cbn in Hc.
  unfold mbind, M_bind. apply (inv_tool_call ids tc) in Hi; [|set_solver]. destruct (run_tool_call tc rt). apply IH; [set_solver|done].
Qed.

Lemma infer_assistant req (rt : Rt W) r :
  replies_assistant (rt_session rt) → (infer req rt).2 = Ok r → view_role (resp_message r) = "assistant".
Proof.
  intros Hr. unfold infer, mbind, M_bind, ask.
  pose proof (setup_log LogDebug "infer: submitting to provider." rt) as (Ec & Ep & _).
  destruct (log _ _ rt) as [rt1 ?]. simpl in Ec, Ep. cbn beta iota.
  destruct (provider (config (rt_session rt1))).
  - unfold infer_mock, mbind, M_bind, ask. cbn beta iota. destruct (_ && _); [done|].
    destruct (_ rt1) as [rt2 ?]. destruct (allocate_string _ _) as [ar text]. simpl. intros [= <-]. done.
  - unfold infer_engine, mbind, M_bind, ask. cbn beta iota.
    set (task := if (req_task req =? 0)%Z then _ else _).
    destruct (task =? 0)%Z.
    + destruct (provider_state (rt_session rt1)) as [es|] eqn:Ees; [|done].
      unfold on_current_arena, run_engine, host, mbind, M_bind, ask. cbn beta iota.
      match goal with |- context [es_run es ?c ?l ?t ?q ?a ?w] =>
        pose proof (Hr es ltac:(by rewrite <-Ep) c l t q a w r) as Hes; destruct (es_run es c l t q a w) as [[w' ar'] res] end.
      simpl in *. done.
    + unfold on_current_arena, infer_task, mbind, M_bind, ask. cbn beta iota.
      destruct (provider (config (rt_session rt1))); [done|].
      destruct (provider_state (rt_session rt1)) as [es|] eqn:Ees; [|done].
      destruct (check_task _ _ _); [|done]. unfold run_engine, host, mbind, M_bind, ask. cbn beta iota.
      match goal with |- context [es_run es ?c ?l ?t ?q ?a ?w] =>
        pose proof (Hr es ltac:(by rewrite <-Ep) c l t q a w r) as Hes; destruct (es_run es c l t q a w) as [[w' ar'] res] end.
      simpl in *. done.
Qed.

Lemma inv_request args b (rt : Rt W) :
  turn_inv b rt →
  turn_inv [] (request_step args rt).1 ∧
  (∀ sent r, (request_step args rt).2 = Ok (sent, Ok r) → view_role (resp_message r) = "assistant").
Proof.
  intros Hi. unfold request_step, mbind, M_bind.
  assert (Hi1 : turn_inv [] (prune_history_state rt).1).
  { destruct Hi as (Hp & m & Hm & Hno & _). destruct (prune_outcome rt m Hm) as (_ & m' & Ha & Hpr).
    split; [exact (plain_of_setup _ _ (setup_prune rt) Hp)|]. exists m'. rewrite Ha.
    split; [done|]. split; [by eapply pruned_no_orphans|set_solver]. }
  destruct (prune_history_state rt) as [rt1 [?|e]]; [|by split]. simpl in Hi1.
  unfold memory, ask. cbn beta iota.
  match goal with |- context [build_views ?a ?b ?c ?d] => destruct (build_views a b c d) as [ar built] end.
  unfold mbind, M_bind. cbn beta iota.
  match goal with |- context [modify_session ?f rt1] =>
    apply (inv_frame (modify_session f)) in Hi1; [|apply ambient_modify_session|apply setup_arena];
    destruct (modify_session f rt1) as [rt2 ?] end.
  simpl in Hi1. destruct built as [[views sent]|e]; [|by split].
  destruct (cancel_requested _); [by split|]. unfold mbind, M_bind.
  apply (inv_frame (trigger_event OnInferenceSubmit "")) in Hi1; [|apply ambient_trigger|apply setup_trigger].
  destruct (trigger_event OnInferenceSubmit "" rt2) as [rt3 ?]. simpl in Hi1. cbn beta iota.
  set (q := mkInferRequest _ _ _ _ _ _ _). pose proof (infer_assistant q rt3) as Has.
  assert (Hra : replies_assistant (rt_session rt3)) by apply Hi1.
  apply (inv_frame (infer q)) in Hi1; [|apply ambient_infer|apply setup_infer].
  destruct (infer q rt3) as [rt4 res]. simpl in *. split; [done|]. intros sent' r [= <- ->]. by apply Has.
Qed.

Lemma inv_response r rounds (rt : Rt W) :
  turn_inv [] rt → view_role (resp_message r) = "assistant" → turn_inv [] (response_step r rounds rt).1.
Proof.
  intros Hi Hrole. unfold response_step, mbind, M_bind.
  apply (inv_frame (trigger_event OnInferenceComplete "")) in Hi; [|apply ambient_trigger|apply setup_trigger].
  destruct (trigger_event OnInferenceComplete "" rt) as [rt1 ?]. simpl in Hi. cbn beta iota.
  apply (inv_update [] [] (λ m, set_fm_stats m (ts_add_turn (resp_usage r) (fm_stats m)))) in Hi; [|done].
  destruct (update_memory _ rt1) as [rt2 ?]. simpl in Hi. unfold modify_session, modify. cbn beta iota.
  set (msg := assistant_message r).
  match goal with |- context [update_memory ?f ?s] =>
    assert (Hi3 : turn_inv (call_id <$> tool_calls msg) (update_memory f s).1) end.
  { apply (inv_update []); [exact Hi|]. intros m Hno _. simpl. unfold no_orphans in *.
    rewrite answered_app, Hno, open_round_cons_app. simpl.
    assert (Ht : is_role "tool" msg = false) by (unfold is_role, msg; simpl; by rewrite Hrole).
    rewrite Ht. split; [done|]. unfold asked, is_role. unfold msg in *. simpl in *. by rewrite Hrole. }
  destruct (update_memory _ _) as [rt3 ?]. cbn [fst] in Hi3. cbn beta iota.
  assert (Hweak : ∀ b (s : Rt W), turn_inv b s → turn_inv [] s).
  { intros b s (Hp & m & Hm & Hno & _). split; [done|]. exists m. split_and!; [done|done|set_solver]. }
  destruct (is_empty_list (tool_calls msg)); [by apply (Hweak _ _ Hi3)|].
  unfold mbind, M_bind.
  assert (Hpa : preserves same_ambient (pauses (tool_calls msg) : M W bool)).
  { unfold pauses, pause_before_tools. preserve. clear. induction (tool_calls msg) as [|tc l IH]; simpl; preserve. }
  apply (inv_frame (pauses (tool_calls msg))) in Hi3; [|done|apply setup_pauses].
  destruct (pauses (tool_calls msg) rt3) as [rt4 p]. simpl in Hi3. destruct p.
  - unfold modify_ambient, modify. simpl. apply (Hweak (call_id <$> tool_calls msg)).
    destruct Hi3 as (Hp & m & Hm & Hrest). split; [done|]. by exists m.
  - unfold ask. cbn beta iota. destruct (max_tool_call_rounds _ <=? rounds)%Z; unfold mbind, M_bind.
    + match goal with |- context [log ?l ?x rt4] =>
        apply (inv_frame (log l x)) in Hi3; [|apply ambient_log|apply setup_log]; destruct (log l x rt4) end.
      by apply (Hweak (call_id <$> tool_calls msg)).
    + apply (inv_tool_calls _ (tool_calls msg)) in Hi3; [|done]. destruct (run_tool_calls _ rt4). by apply (Hweak (call_id <$> tool_calls msg)).
Qed.

Lemma inv_loop fuel args rounds (rt : Rt W) :
  turn_inv [] rt → turn_inv [] (turn_loop fuel args rounds rt).1.
Proof.
  revert rounds rt. induction fuel as [|f IH]; intros rounds rt Hi; [done|]. cbn [turn_loop].
  unfold mbind, M_bind. destruct (inv_request args [] rt Hi) as [Hi1 Hr].
  destruct (request_step args rt) as [rt1 [[sent [r|e]]|e]]; simpl in *; [| |done].
  - apply (inv_response r rounds) in Hi1; [|by eapply Hr].
    destruct (response_step r rounds rt1) as [rt2 [res|]]; [done|]. by apply IH.
  - destruct (sent && retryable (code e)); [|done].
    match goal with |- context [log ?l ?x rt1] =>
      apply (inv_frame (log l x)) in Hi1; [|apply ambient_log|apply setup_log]; destruct (log l x rt1) as [rt2 ?] end.
    unfold modify_session, modify. cbn beta iota. simpl in *. apply IH.
    destruct Hi1 as ((Ht & Hq & Hra) & Hrest). split; [|exact Hrest].
    unfold plain_setup, tools_plain, replies_assistant in *. simpl. unfold reject_tool_media.
    destruct (provider _), (provider_state (rt_session rt2)) as [es|] eqn:E; simpl; try by rewrite ?E.
    split_and!; [done|done|]. intros ? [= <-]. simpl. by apply Hra.
Qed.

Lemma inv_start prompt files (rt : Rt W) m :
  plain_setup rt → active_memory (rt_ambient rt) = Some m → no_orphans (history m) = true →
  (Z.of_nat (length (history m)) < 4611686018427387904)%Z → turn_inv [] (turn_start prompt files rt).1.
Proof.
  intros Hp Hm Hno Hlen. unfold turn_start, mbind, M_bind.
  pose proof (ambient_trigger OnTurnStart "" rt) as Ha. pose proof (setup_trigger OnTurnStart "" rt) as Hs.
  destruct (trigger_event OnTurnStart "" rt) as [rt1 ?]. cbn beta iota. unfold same_ambient in Ha. simpl in Ha, Hs.
  match goal with |- context [(if _ then _ else _) rt1] => idtac end.
  set (um := mkMessage "user" prompt [] "" [] files (-1)).
  assert (Hpush : ∃ rt2 m2, (if is_empty prompt && is_empty_list files then mret tt
                     else update_memory (λ m, push_message m um)) rt1 = (rt2, tt) ∧ plain_setup rt2 ∧
            active_memory (rt_ambient rt2) = Some m2 ∧ no_orphans (history m2) = true ∧
            (Z.of_nat (length (history m2)) < 4611686018427387905)%Z).
  { apply plain_of_setup in Hs; [|done]. destruct (is_empty prompt && is_empty_list files).
    - exists rt1, m. split_and!; [done|done|congruence|done|lia].
    - eexists _, (push_message m um). split; [unfold update_memory, mbind, M_bind; rewrite (memory_run rt1 m) by congruence; reflexivity|].
      split_and!; [done|done| |].
      + simpl. unfold no_orphans in *. by rewrite answered_app, Hno.
      + simpl. rewrite length_app. simpl. lia. }
  destruct Hpush as (rt2 & m2 & -> & Hp2 & Hm2 & Hno2 & Hl2).
  pose proof (history_tokens_recounted rt2 m2 Hm2) as (h & Eh & Hh).
  assert (Hs3 : same_setup rt2 (history_tokens rt2).1).
  { unfold history_tokens, memory. apply preserves_bind; [exact _|by intros ?|]. intros x. apply setup_count_range. }
  destruct (history_tokens rt2) as [rt3 total]. simpl in Eh, Hs3. unfold ask. cbn beta iota.
  rewrite (memory_run rt3 (set_history m2 h)) by by rewrite Eh.
  assert (Hno3 : no_orphans h = true) by (unfold no_orphans; by rewrite (erase_answered [] h (history m2))).
  apply plain_of_setup in Hs3; [|done].
  destruct (_ && _).
  2:{ split; [done|]. exists (set_history m2 h). split; [exact (f_equal active_memory Eh)|split; [done|set_solver]]. }
  unfold mbind, M_bind. pose proof (compress_outcome rt3 (set_history m2 h) 6) as [_ Hc].
  pose proof (setup_compress (set_history m2 h) 6 rt3) as Hs4.
  destruct (compress_context _ 6 rt3) as [rt4 [m4 r]]. simpl in Hc, Hs4.
  split; [exact (plain_of_setup rt3 rt4 Hs4 Hs3)|]. exists m4. split; [done|]. split; [|set_solver].
  destruct Hc as [->|(s & e & Hplan & Hc)]; [done|].
  destruct (compress_range_facts h 6 s e Hplan) as (_ & _ & _ & Hb & _); [lia| |].
  { rewrite (erase_length h (history m2) Hh). lia. }
  by eapply (compressed_no_orphans (set_history m2 h)).
Qed.

End Orphans.


