(* ===== verification/Graph.v ===== *)
(** * Graphs: data model, builders, validation

    src/core/graph/graph_builders.cpp and the validation part of
    src/core/graph/graph_executor.cpp.  Host functions on a node (function,
    tool_args, until, router, context_provider) get the session and the state
    and act on the host [W].  The theorems: what [validate] guarantees, that
    the builders turn valid graphs into valid graphs, and where a composed
    step continues. *)
From stdpp Require Import base gmap strings list.
From Stdlib Require Import Lia ZArith.
From S2P Require Import Prelude Arena Session.

Definition kGraphEnd : string := "__end__".

Record GraphState := mkGraphState {
  values : gmap string string;
  histories : gmap string FlowMemory;
  written : list string;
  interrupt_requested : bool;
  interrupt_reason : string
}.

Definition empty_state : GraphState := mkGraphState ∅ ∅ [] false "".

Definition set_values (st : GraphState) (v : gmap string string) : GraphState :=
  mkGraphState v (histories st) (written st) (interrupt_requested st) (interrupt_reason st).
Definition set_histories (st : GraphState) (h : gmap string FlowMemory) : GraphState :=
  mkGraphState (values st) h (written st) (interrupt_requested st) (interrupt_reason st).
Definition set_written (st : GraphState) (l : list string) : GraphState :=
  mkGraphState (values st) (histories st) l (interrupt_requested st) (interrupt_reason st).
Definition set_interrupt (st : GraphState) (b : bool) (r : string) : GraphState :=
  mkGraphState (values st) (histories st) (written st) b r.

(** ** State access (graph_builders.cpp) *)

Definition set_state (st : GraphState) (key value : string) : GraphState :=
  mkGraphState (<[key := value]> (values st)) (histories st) (written st ++ [key])
    (interrupt_requested st) (interrupt_reason st).

Definition get_state (st : GraphState) (key fallback : string) : string := default fallback (values st !! key).

Definition has_state (st : GraphState) (key : string) : bool := bool_decide (is_Some (values st !! key)).

Definition request_interrupt (st : GraphState) (reason : string) : GraphState := set_interrupt st true reason.

(** ** Nodes, edges, graphs (agent.hpp) *)

Inductive GraphNodeKind := AgentNode | FunctionNode | ToolNode | ParallelNode | LoopNode.

#[global] Instance GraphNodeKind_eq_dec : EqDecision GraphNodeKind.
Proof. solve_decision. Defined.

Section Types.
Context {W : Type}.

(** A host function that reads the state ([const GraphState &]). *)
Definition StateFn (A : Type) : Type := Session W → GraphState → W → Session W * W * Result A.

Definition GraphFunctionFn : Type := Session W → GraphState → W → Session W * GraphState * W * Result unit.

Record GraphNode := mkGraphNode {
  node_name : string;
  kind : GraphNodeKind;
  system_prompt : string;
  node_allowed_tools : list string;
  node_prompt : string;
  input_key : string;
  output_key : string;
  interrupt_before_tools : bool;
  history_key : string;
  context_provider : option (StateFn string);
  node_hooks : list (ToolHook W);
  model : string;
  function : option GraphFunctionFn;
  node_tool_name : string;
  tool_args : option (StateFn string);
  branches : list string;
  loop_body : string;
  max_iterations : Z;
  until : option (StateFn bool);
  exit_to : string
}.

Record GraphEdge := mkGraphEdge {
  from : string;
  to : string;
  router : option (StateFn string)
}.

Record Graph := mkGraph {
  graph_name : string;
  entry : string;
  nodes : list GraphNode;
  edges : list GraphEdge;
  max_steps : Z
}.

End Types.

Arguments StateFn W A : clear implicits.
Arguments GraphFunctionFn W : clear implicits.
Arguments GraphNode W : clear implicits.
Arguments GraphEdge W : clear implicits.
Arguments Graph W : clear implicits.

Section Builders.
Context {W : Type}.
Implicit Types (g : Graph W) (n : GraphNode W).

(** The default-initialized node and graph. *)
Definition default_node (name : string) (k : GraphNodeKind) : GraphNode W :=
  mkGraphNode name k "" [] "" "" "" false "" None [] "" None "" None [] "" 1 None "".

Definition default_graph (name e : string) : Graph W := mkGraph name e [] [] 1000.

Definition set_exit n (target : string) : GraphNode W :=
  mkGraphNode (node_name n) (kind n) (system_prompt n) (node_allowed_tools n) (node_prompt n) (input_key n)
    (output_key n) (interrupt_before_tools n) (history_key n) (context_provider n) (node_hooks n) (model n)
    (function n) (node_tool_name n) (tool_args n) (branches n) (loop_body n) (max_iterations n) (until n) target.

Definition chain_exits g (target : string) : Graph W :=
  mkGraph (graph_name g) (entry g)
    (map (λ n, if is_empty (exit_to n) then set_exit n target else n) (nodes g)) (edges g) (max_steps g).

Definition append (dst src : Graph W) : Graph W :=
  mkGraph (graph_name dst) (entry dst) (nodes dst ++ nodes src) (edges dst ++ edges src)
    (Z.max (max_steps dst) (max_steps src)).

Definition make_graph n : Graph W :=
  mkGraph (node_name n) (node_name n) [n] [] 1000.

Fixpoint append_steps (g : Graph W) (steps : list (Graph W)) : Graph W :=
  match steps with
  | [] => g
  | [s] => append g s
  | s :: ((s' :: _) as rest) => append_steps (append g (chain_exits s (entry s'))) rest
  end.

Definition make_sequential (name : string) (steps : list (Graph W)) : Graph W :=
  match steps with
  | [] => default_graph name ""
  | s :: _ => append_steps (default_graph name (entry s)) steps
  end.

Definition fan_node (name : string) (bs : list string) : GraphNode W :=
  mkGraphNode name ParallelNode "" [] "" "" "" false "" None [] "" None "" None bs "" 1 None "".

Definition make_parallel (name : string) (bs : list (Graph W)) : Graph W :=
  foldl (λ g b, append g (chain_exits b name))
    (mkGraph name name [fan_node name (map entry bs)] [] 1000) bs.

Definition loop_node (name body : string) (iters : Z) (u : option (StateFn W bool)) : GraphNode W :=
  mkGraphNode name LoopNode "" [] "" "" "" false "" None [] "" None "" None [] body iters u "".

Definition make_loop (name : string) (body : Graph W) (iters : Z) (u : option (StateFn W bool)) : Graph W :=
  append (mkGraph name name [loop_node name (entry body) iters u] [] 1000) (chain_exits body name).

(** ** Lookup and validation (graph_executor.cpp) *)

Definition find_node g (name : string) : option (GraphNode W) :=
  find (λ n, str_eqb (node_name n) name) (nodes g).

Definition find_edge g (name : string) : option (GraphEdge W) :=
  find (λ e, str_eqb (from e) name) (edges g).

Definition has_node g (name : string) : bool :=
  match find_node g name with Some _ => true | None => false end.

Definition invalid {A} g (msg : string) : Result A :=
  fail InvalidConfig ("graph '" +:+ graph_name g +:+ "': " +:+ msg).

(** The first branch that names no node. *)
Definition missing_branch g n : option string := find (λ b, negb (has_node g b)) (branches n).

Definition validate_kind g n : Result unit :=
  match kind n with
  | AgentNode => Ok tt
  | FunctionNode =>
      match function n with
      | Some _ => Ok tt
      | None => invalid g ("function node '" +:+ node_name n +:+ "' has no function")
      end
  | ToolNode =>
      if is_empty (node_tool_name n) then invalid g ("tool node '" +:+ node_name n +:+ "' has no tool_name") else Ok tt
  | ParallelNode =>
      match branches n with
      | [] => invalid g ("parallel node '" +:+ node_name n +:+ "' has no branches")
      | _ =>
          match missing_branch g n with
          | Some b => invalid g ("parallel node '" +:+ node_name n +:+ "' branch '" +:+ b +:+ "' does not exist")
          | None => Ok tt
          end
      end
  | LoopNode =>
      if negb (has_node g (loop_body n)) then
        invalid g ("loop node '" +:+ node_name n +:+ "' has no valid loop_body")
      else if (max_iterations n <? 1)%Z then
        invalid g ("loop node '" +:+ node_name n +:+ "' needs max_iterations >= 1")
      else Ok tt
  end.

(** [earlier] are the nodes before [n]. *)
Definition validate_node g (earlier : list (GraphNode W)) n : Result unit :=
  if is_empty (node_name n) || str_eqb (node_name n) kGraphEnd then
    invalid g ("invalid node name '" +:+ node_name n +:+ "'")
  else if existsb (λ m, str_eqb (node_name m) (node_name n)) earlier then
    invalid g ("duplicate node name '" +:+ node_name n +:+ "'")
  else if negb (is_empty (exit_to n)) && negb (has_node g (exit_to n)) then
    invalid g ("node '" +:+ node_name n +:+ "' exits to unknown node '" +:+ exit_to n +:+ "'")
  else validate_kind g n.

Fixpoint validate_nodes g (earlier rest : list (GraphNode W)) : Result unit :=
  match rest with
  | [] => Ok tt
  | n :: rest' =>
      match validate_node g earlier n with
      | Fail e => Fail e
      | Ok _ => validate_nodes g (earlier ++ [n]) rest'
      end
  end.

Definition validate_edge g (earlier : list (GraphEdge W)) (e : GraphEdge W) : Result unit :=
  if negb (has_node g (from e)) then invalid g ("edge from unknown node '" +:+ from e +:+ "'")
  else if match router e with Some _ => false | None => true end &&
          negb (str_eqb (to e) kGraphEnd) && negb (has_node g (to e)) then
    invalid g ("edge '" +:+ from e +:+ "' -> unknown node '" +:+ to e +:+ "'")
  else if existsb (λ x, str_eqb (from x) (from e)) earlier then
    invalid g ("node '" +:+ from e +:+ "' has more than one outgoing edge (use a Parallel node to fan out)")
  else Ok tt.

Fixpoint validate_edges g (earlier rest : list (GraphEdge W)) : Result unit :=
  match rest with
  | [] => Ok tt
  | e :: rest' =>
      match validate_edge g earlier e with
      | Fail err => Fail err
      | Ok _ => validate_edges g (earlier ++ [e]) rest'
      end
  end.

Definition validate g : Result unit :=
  if is_empty (entry g) then invalid g "no entry node"
  else if negb (has_node g (entry g)) then invalid g ("entry node '" +:+ entry g +:+ "' does not exist")
  else match validate_nodes g [] (nodes g) with
       | Fail e => Fail e
       | Ok _ => validate_edges g [] (edges g)
       end.

End Builders.

(** ** What a valid graph is *)

Section Valid.
Context {W : Type}.
Implicit Types (g : Graph W) (n : GraphNode W) (e : GraphEdge W).

Definition names g : list string := map node_name (nodes g).

Definition name_ok (s : string) : Prop := s ≠ "" ∧ s ≠ kGraphEnd.

Definition kind_ok (known : list string) n : Prop :=
  match kind n with
  | AgentNode => True
  | FunctionNode => function n ≠ None
  | ToolNode => node_tool_name n ≠ ""
  | ParallelNode => branches n ≠ [] ∧ Forall (λ b, b ∈ known) (branches n)
  | LoopNode => loop_body n ∈ known ∧ (1 ≤ max_iterations n)%Z
  end.

Definition node_ok (known : list string) n : Prop :=
  name_ok (node_name n) ∧ (exit_to n = "" ∨ exit_to n ∈ known) ∧ kind_ok known n.

Definition edge_ok (known : list string) e : Prop :=
  from e ∈ known ∧ (router e ≠ None ∨ to e = kGraphEnd ∨ to e ∈ known).

Record valid_graph g : Prop := {
  valid_entry : entry g ∈ names g;
  valid_names : NoDup (names g);
  valid_nodes : Forall (node_ok (names g)) (nodes g);
  valid_edges : Forall (edge_ok (names g)) (edges g);
  valid_froms : NoDup (map from (edges g))
}.

(** ** Lemmas *)

Lemma find_name {A} (f : A → string) (l : list A) (k : string) :
  match find (λ x, str_eqb (f x) k) l with
  | Some x => x ∈ l ∧ f x = k
  | None => k ∉ map f l
  end.
Proof.
  induction l as [|x l IH]; simpl; [by apply not_elem_of_nil|].
  destruct (str_eqb (f x) k) eqn:E.
  - apply str_eqb_true in E. split; [by left|done].
  - apply str_eqb_false in E. destruct (find _ l) as [y|].
    + destruct IH. split; [by right|done].
    + by apply not_elem_of_cons.
Qed.

Lemma has_node_spec g k : has_node g k = true ↔ k ∈ names g.
Proof.
  unfold has_node, find_node, names. pose proof (find_name node_name (nodes g) k) as Hf.
  destruct (find _ (nodes g)) as [n|]; [|by split].
  destruct Hf as [Hn <-]. split; [|done]. intros _. by apply list_elem_of_fmap_2.
Qed.

Lemma has_node_false g k : has_node g k = false ↔ k ∉ names g.
Proof. rewrite <-has_node_spec. by destruct (has_node g k). Qed.

Lemma exists_name {A} (f : A → string) (l : list A) (k : string) :
  existsb (λ x, str_eqb (f x) k) l = true ↔ k ∈ map f l.
Proof.
  rewrite existsb_exists. split.
  - intros (x & Hx & E). apply str_eqb_true in E as <-. apply list_elem_of_fmap_2, list_elem_of_In. done.
  - intros (x & -> & Hx)%list_elem_of_fmap. exists x. rewrite str_eqb_refl. split; [by apply list_elem_of_In|done].
Qed.

Lemma missing_branch_spec g n :
  match missing_branch g n with
  | Some _ => ¬ Forall (λ b, b ∈ names g) (branches n)
  | None => Forall (λ b, b ∈ names g) (branches n)
  end.
Proof.
  unfold missing_branch. induction (branches n) as [|x l IH]; simpl; [constructor|].
  destruct (has_node g x) eqn:E; simpl.
  - apply has_node_spec in E. destruct (find _ l); [|by constructor]. intros [_ ?]%Forall_cons. done.
  - apply has_node_false in E. intros [? _]%Forall_cons. done.
Qed.

Lemma validate_kind_spec g n : validate_kind g n = Ok tt ↔ kind_ok (names g) n.
Proof.
  unfold validate_kind, kind_ok. destruct (kind n); [done| | | |].
  - by destruct (function n).
  - destruct (node_tool_name n); simpl; split; done.
  - pose proof (missing_branch_spec g n) as Hm. destruct (branches n) eqn:E; [split; [done|by intros []]|].
    destruct (missing_branch g n); split; try done; by intros [].
  - destruct (has_node g (loop_body n)) eqn:E; simpl.
    + apply has_node_spec in E. destruct (Z.ltb_spec (max_iterations n) 1).
      * split; [done|]. intros [_ ?]. lia.
      * split; [|done]. intros _. split; [done|lia].
    + apply has_node_false in E. split; [done|]. by intros [].
Qed.

Lemma name_ok_spec (s : string) : is_empty s || str_eqb s kGraphEnd = false ↔ name_ok s.
Proof. unfold name_ok. by rewrite orb_false_iff, is_empty_false, str_eqb_false. Qed.

Lemma exit_ok_spec g n :
  negb (is_empty (exit_to n)) && negb (has_node g (exit_to n)) = false ↔ exit_to n = "" ∨ exit_to n ∈ names g.
Proof.
  rewrite andb_false_iff, !negb_false_iff, is_empty_true, has_node_spec. done.
Qed.

Lemma validate_node_spec g earlier n :
  validate_node g earlier n = Ok tt ↔ (node_name n ∉ map node_name earlier) ∧ node_ok (names g) n.
Proof.
  unfold validate_node, node_ok. rewrite <-name_ok_spec, <-exit_ok_spec, <-exists_name, <-validate_kind_spec.
  destruct (is_empty (node_name n) || _); [split; [done|by intros (_ & ? & _)]|].
  destruct (existsb _ earlier); [split; [done|by intros []]|].
  destruct (negb _ && _); [split; [done|by intros (_ & _ & ? & _)]|].
  split; [|by intros (_ & _ & _ & ?)]. intros ?. by split_and!.
Qed.

Lemma validate_nodes_spec g earlier rest :
  NoDup (map node_name earlier) →
  (validate_nodes g earlier rest = Ok tt ↔
    NoDup (map node_name (earlier ++ rest)) ∧ Forall (node_ok (names g)) rest).
Proof.
  revert earlier. induction rest as [|n rest IH]; intros earlier Hnd; cbn [validate_nodes].
  { rewrite app_nil_r. split; [|done]. by intros _; split. }
  pose proof (validate_node_spec g earlier n) as Hn. rewrite Forall_cons.
  assert (Hsplit : NoDup (map node_name (earlier ++ n :: rest)) → node_name n ∉ map node_name earlier).
  { rewrite map_app, NoDup_app. intros (_ & Hdis & _) Hin. apply (Hdis _ Hin). simpl. by left. }
  destruct (validate_node g earlier n) as [[]|err].
  - destruct Hn as [Hn _]. destruct (Hn eq_refl) as [Hni Hok].
    rewrite IH.
    + rewrite <-app_assoc. simpl. naive_solver.
    + rewrite map_app. simpl. apply NoDup_app. split_and!; [done| |apply NoDup_singleton].
      intros x Hx ->%list_elem_of_singleton. done.
  - split; [done|]. intros (Hd & Hok & _). destruct Hn as [_ Hn]. by discriminate (Hn (conj (Hsplit Hd) Hok)).
Qed.

Lemma edge_target_spec g e :
  match router e with Some _ => false | None => true end &&
    negb (str_eqb (to e) kGraphEnd) && negb (has_node g (to e)) = false ↔
  router e ≠ None ∨ to e = kGraphEnd ∨ to e ∈ names g.
Proof.
  rewrite !andb_false_iff, !negb_false_iff, str_eqb_true, has_node_spec.
  destruct (router e); naive_solver.
Qed.

Lemma validate_edge_spec g earlier e :
  validate_edge g earlier e = Ok tt ↔ (from e ∉ map from earlier) ∧ edge_ok (names g) e.
Proof.
  unfold validate_edge, edge_ok. rewrite <-has_node_spec, <-edge_target_spec, <-exists_name.
  destruct (has_node g (from e)); simpl; [|split; [done|by intros (_ & ? & _)]].
  destruct (_ && negb (has_node g (to e))); [split; [done|by intros (_ & _ & ?)]|].
  destruct (existsb _ earlier); [split; [done|by intros []]|].
  split; [|done]. intros _. by split_and!.
Qed.

Lemma validate_edges_spec g earlier rest :
  NoDup (map from earlier) →
  (validate_edges g earlier rest = Ok tt ↔
    NoDup (map from (earlier ++ rest)) ∧ Forall (edge_ok (names g)) rest).
Proof.
  revert earlier. induction rest as [|e rest IH]; intros earlier Hnd; cbn [validate_edges].
  { rewrite app_nil_r. split; [|done]. by intros _; split. }
  pose proof (validate_edge_spec g earlier e) as Hn. rewrite Forall_cons.
  assert (Hsplit : NoDup (map from (earlier ++ e :: rest)) → from e ∉ map from earlier).
  { rewrite map_app, NoDup_app. intros (_ & Hdis & _) Hin. apply (Hdis _ Hin). simpl. by left. }
  destruct (validate_edge g earlier e) as [[]|err].
  - destruct Hn as [Hn _]. destruct (Hn eq_refl) as [Hni Hok].
    rewrite IH.
    + rewrite <-app_assoc. simpl. naive_solver.
    + rewrite map_app. simpl. apply NoDup_app. split_and!; [done| |apply NoDup_singleton].
      intros x Hx ->%list_elem_of_singleton. done.
  - split; [done|]. intros (Hd & Hok & _). destruct Hn as [_ Hn]. by discriminate (Hn (conj (Hsplit Hd) Hok)).
Qed.

Lemma validate_spec g : validate g = Ok tt ↔ valid_graph g.
Proof.
  unfold validate.
  pose proof (validate_nodes_spec g [] (nodes g) (NoDup_nil_2)) as Hn.
  pose proof (validate_edges_spec g [] (edges g) (NoDup_nil_2)) as He. simpl in Hn, He.
  split.
  - destruct (is_empty (entry g)); [done|]. destruct (has_node g (entry g)) eqn:E; [|done]. simpl.
    destruct (validate_nodes g [] (nodes g)) as [[]|]; [|done]. intros Hv.
    apply has_node_spec in E. destruct Hn as [Hn _], He as [He _].
    destruct (Hn eq_refl), (He Hv). by split.
  - intros [Hent Hnd Hnodes Hedges Hfr].
    assert (entry g ≠ "") as Hne.
    { apply list_elem_of_fmap in Hent as (n & -> & Hin). rewrite Forall_forall in Hnodes.
      by destruct (Hnodes n Hin) as [[? _] _]. }
    apply is_empty_false in Hne. rewrite Hne. apply has_node_spec in Hent. rewrite Hent. simpl.
    destruct Hn as [_ Hn]. rewrite Hn by done. by apply He.
Qed.
End Valid.

(** [validate] accepts exactly the valid graphs: an existing entry, node
    names distinct, non-empty and not the end marker, every exit, branch, loop
    body and static edge leading to a node (or the end), a function or tool
    name where the kind needs one, positive loop limits, and at most one edge
    out of each node. *)
Theorem validate_exact {W : Type} (g : Graph W) : validate g = Ok tt ↔ valid_graph g.
Proof. apply validate_spec. Qed.

(** ** The builders *)

Section Built.
Context {W : Type}.
Implicit Types (g : Graph W) (n : GraphNode W).

Lemma kind_ok_mono (k k' : list string) n : k ⊆ k' → kind_ok k n → kind_ok k' n.
Proof.
  intros Hsub. unfold kind_ok. destruct (kind n); try done.
  - intros [? Hb]. split; [done|]. eapply Forall_impl; [done|]. intros. by apply Hsub.
  - intros [? ?]. split; [by apply Hsub|done].
Qed.

Lemma node_ok_mono (k k' : list string) n : k ⊆ k' → node_ok k n → node_ok k' n.
Proof.
  intros Hsub (Hn & He & Hk). split_and!; [done| |by eapply kind_ok_mono].
  destruct He as [|He]; [by left|right; by apply Hsub].
Qed.

Lemma edge_ok_mono (k k' : list string) (e : GraphEdge W) : k ⊆ k' → edge_ok k e → edge_ok k' e.
Proof.
  intros Hsub (Hf & Ht). split; [by apply Hsub|]. destruct Ht as [|[|Ht]]; [by left|by right; left|].
  right; right. by apply Hsub.
Qed.

Lemma names_chain g t : names (chain_exits g t) = names g.
Proof.
  unfold names, chain_exits. simpl. rewrite map_map. apply map_ext. intros n. by destruct (is_empty (exit_to n)).
Qed.

Lemma names_append g1 g2 : names (append g1 g2) = names g1 ++ names g2.
Proof. unfold names, append. simpl. apply map_app. Qed.

(** A part of a graph: valid within the names of the whole, entry apart. *)
Record part_ok (known : list string) g : Prop := {
  part_names : NoDup (names g);
  part_nodes : Forall (node_ok known) (nodes g);
  part_edges : Forall (edge_ok known) (edges g);
  part_froms : NoDup (map from (edges g));
  part_own : Forall (λ e, from e ∈ names g) (edges g)
}.

Lemma valid_part known g : valid_graph g → names g ⊆ known → part_ok known g.
Proof.
  intros [He Hn Hno Hed Hf] Hsub. split; [done| | |done|].
  - eapply Forall_impl; [done|]. intros n. by apply node_ok_mono.
  - eapply Forall_impl; [done|]. intros e. by apply edge_ok_mono.
  - eapply Forall_impl; [done|]. by intros e [].
Qed.

Lemma chain_part known g t : part_ok known g → t ∈ known → part_ok known (chain_exits g t).
Proof.
  intros [Hn Hno Hed Hf Ho] Ht. split; [by rewrite names_chain| |done|done|by rewrite names_chain].
  unfold chain_exits. simpl. apply Forall_map. eapply Forall_impl; [done|].
  intros n (H1 & H2 & H3). destruct (is_empty (exit_to n)) eqn:E; [|done].
  split_and!; [done|by right|done].
Qed.

Lemma append_part known g1 g2 :
  part_ok known g1 → part_ok known g2 → (∀ x, x ∈ names g1 → x ∉ names g2) → part_ok known (append g1 g2).
Proof.
  intros [Hn1 Hno1 Hed1 Hf1 Ho1] [Hn2 Hno2 Hed2 Hf2 Ho2] Hdis.
  split.
  - rewrite names_append. by apply NoDup_app.
  - by apply Forall_app.
  - by apply Forall_app.
  - simpl. rewrite map_app. apply NoDup_app. split_and!; [done| |done].
    intros x (e & -> & H1)%list_elem_of_fmap (e' & Heq & H2)%list_elem_of_fmap.
    rewrite Forall_forall in Ho1, Ho2. apply (Hdis (from e)); [by apply Ho1|]. rewrite Heq. by apply Ho2.
  - rewrite names_append. apply Forall_app. split; (eapply Forall_impl; [done|]); simpl; set_solver.
Qed.

Lemma part_valid g : part_ok (names g) g → entry g ∈ names g → valid_graph g.
Proof. intros [] ?. by split. Qed.

(** Appending parts one after the other. *)
Lemma append_parts known g (parts : list (Graph W)) (f : Graph W → Graph W) :
  (∀ p, names (f p) = names p) → Forall (λ p, part_ok known (f p)) parts → part_ok known g →
  NoDup (names g ++ concat (map names parts)) →
  part_ok known (foldl (λ g p, append g (f p)) g parts) ∧
  names (foldl (λ g p, append g (f p)) g parts) = names g ++ concat (map names parts) ∧
  entry (foldl (λ g p, append g (f p)) g parts) = entry g.
Proof.
  intros Hf Hp. revert g. induction Hp as [|p parts Hpp _ IH]; intros g Hg Hnd; simpl.
  { by rewrite app_nil_r. }
  simpl in Hnd. rewrite (assoc_L (++)) in Hnd.
  destruct (IH (append g (f p))) as (H1 & H2 & H3).
  - apply append_part; [done|done|]. rewrite Hf. apply NoDup_app in Hnd as (Hnd & _ & _).
    apply NoDup_app in Hnd as (_ & ? & _). done.
  - by rewrite names_append, Hf.
  - split_and!; [done| |done]. by rewrite H2, names_append, Hf, (assoc_L (++)).
Qed.

(** [make_sequential] chains every step but the last to the next one. *)
Lemma append_steps_part known g (steps : list (Graph W)) :
  Forall (λ s, valid_graph s ∧ names s ⊆ known) steps → part_ok known g →
  NoDup (names g ++ concat (map names steps)) →
  part_ok known (append_steps g steps) ∧
  names (append_steps g steps) = names g ++ concat (map names steps) ∧
  entry (append_steps g steps) = entry g.
Proof.
  intros Hs. revert g. induction Hs as [|s steps [Hv Hsub] Hs IH]; intros g Hg Hnd.
  { simpl. by rewrite app_nil_r. }
  assert (Hdis : ∀ x, x ∈ names g → x ∉ names s).
  { simpl in Hnd. rewrite (assoc_L (++)) in Hnd. apply NoDup_app in Hnd as (Hnd & _).
    by apply NoDup_app in Hnd as (_ & ? & _). }
  destruct steps as [|s' steps].
  { simpl. rewrite app_nil_r. split_and!; [|apply names_append|done].
    by apply append_part; [|apply valid_part|]. }
  change (append_steps g (s :: s' :: steps)) with (append_steps (append g (chain_exits s (entry s'))) (s' :: steps)).
  assert (Hent : entry s' ∈ known).
  { inversion Hs as [|? ? [Hv' Hsub'] ?]; subst. by apply Hsub', valid_entry. }
  destruct (IH (append g (chain_exits s (entry s')))) as (H1 & H2 & H3).
  - apply append_part; [done| |by rewrite names_chain]. apply chain_part; [by apply valid_part|done].
  - rewrite names_append, names_chain, <-(assoc_L (++)). done.
  - split_and!; [done| |done]. rewrite H2, names_append, names_chain, <-(assoc_L (++)). done.
Qed.

Lemma make_sequential_valid name s (steps : list (Graph W)) :
  Forall valid_graph (s :: steps) → NoDup (concat (map names (s :: steps))) →
  valid_graph (make_sequential name (s :: steps)).
Proof.
  intros Hv Hnd. set (all := s :: steps) in *.
  change (valid_graph (append_steps (default_graph name (entry s)) all)).
  assert (Hsub : Forall (λ p, valid_graph p ∧ names p ⊆ concat (map names all)) all).
  { rewrite Forall_forall in *. intros p Hp. split; [by apply Hv|].
    intros x Hx. apply list_elem_of_In, in_concat. exists (names p).
    split; [apply in_map; by apply list_elem_of_In|by apply list_elem_of_In]. }
  destruct (append_steps_part (concat (map names all)) (default_graph name (entry s)) all) as (H1 & H2 & H3);
    [done|by split; try constructor|done|].
  change (names (append_steps (default_graph name (entry s)) all) = concat (map names all)) in H2.
  rewrite <-H2 in H1. apply part_valid; [done|]. rewrite H3, H2. unfold all. simpl.
  apply elem_of_app. left. inversion Hv; subst. by apply valid_entry.
Qed.

Lemma make_parallel_valid name b (bs : list (Graph W)) :
  name_ok name → Forall valid_graph (b :: bs) → NoDup (name :: concat (map names (b :: bs))) →
  valid_graph (make_parallel name (b :: bs)).
Proof.
  intros Hname Hv Hnd. set (all := b :: bs) in *. set (known := name :: concat (map names all)).
  assert (Hsub : ∀ p, p ∈ all → names p ⊆ known).
  { intros p Hp x Hx. right. apply list_elem_of_In, in_concat. exists (names p).
    split; [apply in_map; by apply list_elem_of_In|by apply list_elem_of_In]. }
  destruct (append_parts known (mkGraph name name [fan_node name (map entry all)] [] 1000) all
              (λ b, chain_exits b name)) as (H1 & H2 & H3).
  - intros p. apply names_chain.
  - rewrite Forall_forall in *. intros p Hp. apply chain_part; [|by left]. apply valid_part; auto.
  - assert (Hfan : Forall (λ b, b ∈ known) (map entry all)).
    { apply Forall_map. rewrite Forall_forall in *. intros p Hp. apply (Hsub p Hp), valid_entry; auto. }
    split; [apply NoDup_singleton| |constructor|constructor|constructor].
    apply Forall_singleton. split; [done|]. split; [by left|]. by split.
  - done.
  - match type of H2 with names ?g = _ => change (names g = known) in H2 end. unfold make_parallel.
    rewrite <-H2 in H1. apply part_valid; [done|]. rewrite H3, H2. by left.
Qed.

Lemma make_loop_valid name (body : Graph W) iters u :
  name_ok name → valid_graph body → name ∉ names body → (1 ≤ iters)%Z →
  valid_graph (make_loop name body iters u).
Proof.
  intros Hname Hv Hni Hit. unfold make_loop. apply part_valid.
  - rewrite names_append, names_chain. simpl. apply append_part.
    + split; try constructor; try done; simpl; [set_solver|constructor|].
      split_and!; [done|by left|]. split; [|done]. right. by apply valid_entry.
    + apply chain_part; [|by left]. apply valid_part; [done|set_solver].
    + rewrite names_chain. intros x ->%list_elem_of_singleton. done.
  - rewrite names_append. by left.
Qed.

End Built.

(** The builders compose valid graphs into valid graphs: a sequence, a
    fan-out and a loop over valid parts with distinct node names (the new
    controller's included) are accepted by [validate]. *)
Theorem builders_valid {W : Type} (name : string) (s : Graph W) (steps : list (Graph W)) (iters : Z)
    (u : option (StateFn W bool)) :
  name_ok name → Forall valid_graph (s :: steps) → NoDup (name :: concat (map names (s :: steps))) → (1 ≤ iters)%Z →
  validate (make_sequential name (s :: steps)) = Ok tt ∧
  validate (make_parallel name (s :: steps)) = Ok tt ∧
  validate (make_loop name s iters u) = Ok tt.
Proof.
  intros Hn Hv Hnd Hi. rewrite !validate_spec. split_and!.
  - apply make_sequential_valid; [done|]. by apply NoDup_cons in Hnd as [_ ?].
  - by apply make_parallel_valid.
  - apply NoDup_cons in Hnd as [Hni _]. apply make_loop_valid; [done|by inversion Hv| |done]. set_solver.
Qed.

Lemma builders_valid_witness :
  let a := make_graph (default_node "a" AgentNode) : Graph unit in
  let b := make_graph (default_node "b" AgentNode) in
  validate (make_sequential "s" [a; b]) = Ok tt ∧ validate (make_parallel "s" [a; b]) = Ok tt ∧
  validate (make_loop "s" a 3 None) = Ok tt.
Proof.
  apply (builders_valid "s" (make_graph (default_node "a" AgentNode)) [make_graph (default_node "b" AgentNode)] 3 None).
  - split; discriminate.
  - repeat (apply Forall_cons_2; [apply validate_spec; reflexivity|]). apply Forall_nil_2.
  - apply (bool_decide_unpack _). reflexivity.
  - lia.
Defined.
