(* ===== verification/Checkpoint.v ===== *)
(** * Graph runs and their checkpoints (src/core/graph/graph_checkpoint.cpp)

    [GraphRun] with its JSON checkpoint: what [encode_checkpoint] writes,
    [decode_checkpoint] reads back ([checkpoint_roundtrip]): the step, the next
    node, the status, the interrupt, the pending calls, every non-temporary
    value, the stored part of every agent history, and the progress of an
    unfinished fan-out.  The event log codec and the persistence of user: and
    app: keys are here too.

    [raw_json] hands a history's text to a second parse; the model decodes the
    already parsed value. *)
From stdpp Require Import base gmap strings list.
From Stdlib Require Import Lia ZArith.
From S2P Require Import Prelude Arena Text Decimal Json Session History Graph.

(** ** Data model *)

Inductive GraphDurability := DurExit | DurAsync | DurSync.

Inductive GraphRunStatus := RunPending | RunRunning | RunCompleted | RunInterrupted | RunFailed.

#[global] Instance GraphRunStatus_eq_dec : EqDecision GraphRunStatus.
Proof. solve_decision. Defined.

#[global] Instance GraphDurability_eq_dec : EqDecision GraphDurability.
Proof. solve_decision. Defined.

Inductive BranchStatus := BPending | BRunning | BDone | BInterrupted | BFailed.

#[global] Instance BranchStatus_eq_dec : EqDecision BranchStatus.
Proof. solve_decision. Defined.

Record GraphInterrupt := mkGraphInterrupt {
  gi_branch : string;
  gi_node : string;
  gi_reason : string;
  gi_pending : list ToolCall
}.

Record BranchProgress := mkBranchProgress {
  bp_entry : string;
  bp_status : BranchStatus;
  bp_next : string;
  bp_values : gmap string string;
  bp_erased : list string;
  bp_writes : list string;
  bp_histories : gmap string FlowMemory;
  bp_interrupt_node : string;
  bp_interrupt_reason : string;
  bp_pending : list ToolCall;
  bp_error : string
}.

Record ParallelProgress := mkParallelProgress {
  pp_node : string;
  pp_branches : list BranchProgress
}.

(** What is serialized of a run. *)
Record RunCore := mkRunCore {
  thread_id : string;
  state : GraphState;
  status : GraphRunStatus;
  next_node : string;
  step : Z;
  interrupt_node : string;
  run_interrupt_reason : string;
  pending_tool_calls : list ToolCall
}.

(** ** Keys *)

Definition kScopedIndexKey : string := "graph_state_keys".
Definition kScopedValuePrefix : string := "graph_state:".
Definition kInternalPrefix : string := "__".

Definition is_temp_key (key : string) : bool := starts_with "temp:" key.
Definition is_scoped_key (key : string) : bool := starts_with "user:" key || starts_with "app:" key.
Definition is_internal_key (key : string) : bool := starts_with kInternalPrefix key.

Definition checkpoint_key (thread suffix : string) : string := "checkpoint:" +:+ thread +:+ ":" +:+ suffix.

Definition status_name (s : GraphRunStatus) : string :=
  match s with
  | RunPending => "pending"
  | RunRunning => "running"
  | RunCompleted => "completed"
  | RunInterrupted => "interrupted"
  | RunFailed => "failed"
  end.

Definition parse_status (s : string) : GraphRunStatus :=
  if str_eqb s "running" then RunRunning
  else if str_eqb s "completed" then RunCompleted
  else if str_eqb s "interrupted" then RunInterrupted
  else if str_eqb s "failed" then RunFailed
  else RunPending.

Definition branch_status_name (s : BranchStatus) : string :=
  match s with
  | BPending => "pending"
  | BRunning => "running"
  | BDone => "done"
  | BInterrupted => "interrupted"
  | BFailed => "failed"
  end.

Definition parse_branch_status (s : string) : BranchStatus :=
  if str_eqb s "running" then BRunning
  else if str_eqb s "done" then BDone
  else if str_eqb s "interrupted" then BInterrupted
  else if str_eqb s "failed" then BFailed
  else BPending.

(** ** Encoding *)

Definition append_string_field (name value : string) : string := q +:+ name +:+ q +:+ ":" +:+ quoted value.

Definition encode_calls (calls : list ToolCall) : string :=
  "[" +:+ join_comma (map (λ tc, "{" +:+ append_string_field "id" (call_id tc) +:+ "," +:+
                                 append_string_field "name" (call_name tc) +:+ "," +:+
                                 append_string_field "arguments" (call_arguments tc) +:+ "}") calls) +:+ "]".

(** The values of a map that are not temporary, in key order. *)
Definition kept_items (v : gmap string string) : list (string * string) :=
  List.filter (λ kv, negb (is_temp_key kv.1)) (map_items v).

Definition encode_values (v : gmap string string) : string :=
  "{" +:+ join_comma (map (λ kv, quoted kv.1 +:+ ":" +:+ quoted kv.2) (kept_items v)) +:+ "}".

Definition encode_strings (items : list string) : string := "[" +:+ join_comma (map quoted items) +:+ "]".

Definition encode_histories (h : gmap string FlowMemory) : string :=
  "{" +:+ join_comma (map (λ kv, quoted kv.1 +:+ ":" +:+ encode_history_json (history kv.2)) (map_items h)) +:+ "}".

Definition encode_branch (b : BranchProgress) : string :=
  "{" +:+ append_string_field "entry" (bp_entry b) +:+
  "," +:+ append_string_field "status" (branch_status_name (bp_status b)) +:+
  "," +:+ append_string_field "next" (bp_next b) +:+
  "," +:+ q +:+ "values" +:+ q +:+ ":" +:+ encode_values (bp_values b) +:+
  "," +:+ q +:+ "erased" +:+ q +:+ ":" +:+ encode_strings (bp_erased b) +:+
  "," +:+ q +:+ "writes" +:+ q +:+ ":" +:+ encode_strings (bp_writes b) +:+
  "," +:+ q +:+ "histories" +:+ q +:+ ":" +:+ encode_histories (bp_histories b) +:+
  "," +:+ append_string_field "interrupt_node" (bp_interrupt_node b) +:+
  "," +:+ append_string_field "interrupt_reason" (bp_interrupt_reason b) +:+
  "," +:+ q +:+ "pending_tool_calls" +:+ q +:+ ":" +:+ encode_calls (bp_pending b) +:+
  "," +:+ append_string_field "error" (bp_error b) +:+ "}".

Definition encode_progress (p : ParallelProgress) : string :=
  "{" +:+ append_string_field "node" (pp_node p) +:+
  "," +:+ q +:+ "branches" +:+ q +:+ ":[" +:+ join_comma (map encode_branch (pp_branches p)) +:+ "]}".

Definition encode_checkpoint (run : RunCore) (graph_name : string) (progress : option ParallelProgress) : string :=
  "{" +:+ q +:+ "version" +:+ q +:+ ":1," +:+
  append_string_field "graph" graph_name +:+ "," +:+
  append_string_field "thread_id" (thread_id run) +:+
  "," +:+ q +:+ "step" +:+ q +:+ ":" +:+ to_string (step run) +:+ "," +:+
  append_string_field "next" (next_node run) +:+ "," +:+
  append_string_field "status" (status_name (status run)) +:+ "," +:+
  append_string_field "interrupt_node" (interrupt_node run) +:+ "," +:+
  append_string_field "interrupt_reason" (run_interrupt_reason run) +:+
  "," +:+ q +:+ "pending_tool_calls" +:+ q +:+ ":" +:+ encode_calls (pending_tool_calls run) +:+
  "," +:+ q +:+ "state" +:+ q +:+ ":" +:+ encode_values (values (state run)) +:+
  "," +:+ q +:+ "histories" +:+ q +:+ ":" +:+ encode_histories (histories (state run)) +:+
  (match progress with
   | Some p => "," +:+ q +:+ "parallel" +:+ q +:+ ":" +:+ encode_progress p
   | None => ""
   end) +:+ "}".

(** ** Decoding *)

Definition bad {A} (what : string) : Result A := fail ParseError ("graph checkpoint: " +:+ what).

Definition decode_calls (j : json) : Result (list ToolCall) :=
  match get_array j with
  | Some l => Ok (omap decode_call l)
  | None => bad "bad pending_tool_calls."
  end.

Fixpoint decode_value_items (fs : list (string * json)) (out : gmap string string) : Result (gmap string string) :=
  match fs with
  | [] => Ok out
  | (k, v) :: rest =>
      match get_string v with
      | Some s => decode_value_items rest (<[k := s]> out)
      | None => bad ("bad state value: " +:+ k)
      end
  end.

Definition decode_values (j : json) (out : gmap string string) : Result (gmap string string) :=
  match get_object j with
  | Some fs => decode_value_items fs out
  | None => bad "bad state."
  end.

Fixpoint decode_string_items (l : list json) : Result (list string) :=
  match l with
  | [] => Ok []
  | j :: rest =>
      match get_string j with
      | None => bad "bad string array item."
      | Some s => result_bind (decode_string_items rest) (λ ss, Ok (s :: ss))
      end
  end.

Definition decode_strings (j : json) (out : list string) : Result (list string) :=
  match get_array j with
  | None => bad "bad string array."
  | Some l => result_bind (decode_string_items l) (λ ss, Ok (out ++ ss))
  end.

(** name -> history, not decoded yet *)
Definition RawHistories : Type := list (string * json).

Definition collect_histories (j : json) (out : RawHistories) : Result RawHistories :=
  match get_object j with
  | Some fs => Ok (out ++ fs)
  | None => bad "bad histories."
  end.

Fixpoint build_histories (raw : RawHistories) (thread : string) (out : gmap string FlowMemory) :
    Result (gmap string FlowMemory) :=
  match raw with
  | [] => Ok out
  | (node, j) :: rest =>
      match decode_history_tree j with
      | Fail e => Fail (mkError (code e) ("graph checkpoint: history of '" +:+ node +:+ "': " +:+ message e))
      | Ok msgs =>
          build_histories rest thread (<[node := mkFlowMemory (thread +:+ ":" +:+ node) msgs no_turn_stats]> out)
      end
  end.

Definition set_bp_entry b x := mkBranchProgress x (bp_status b) (bp_next b) (bp_values b) (bp_erased b) (bp_writes b)
  (bp_histories b) (bp_interrupt_node b) (bp_interrupt_reason b) (bp_pending b) (bp_error b).
Definition set_bp_status b x := mkBranchProgress (bp_entry b) x (bp_next b) (bp_values b) (bp_erased b) (bp_writes b)
  (bp_histories b) (bp_interrupt_node b) (bp_interrupt_reason b) (bp_pending b) (bp_error b).
Definition set_bp_next b x := mkBranchProgress (bp_entry b) (bp_status b) x (bp_values b) (bp_erased b) (bp_writes b)
  (bp_histories b) (bp_interrupt_node b) (bp_interrupt_reason b) (bp_pending b) (bp_error b).
Definition set_bp_values b x := mkBranchProgress (bp_entry b) (bp_status b) (bp_next b) x (bp_erased b) (bp_writes b)
  (bp_histories b) (bp_interrupt_node b) (bp_interrupt_reason b) (bp_pending b) (bp_error b).
Definition set_bp_erased b x := mkBranchProgress (bp_entry b) (bp_status b) (bp_next b) (bp_values b) x (bp_writes b)
  (bp_histories b) (bp_interrupt_node b) (bp_interrupt_reason b) (bp_pending b) (bp_error b).
Definition set_bp_writes b x := mkBranchProgress (bp_entry b) (bp_status b) (bp_next b) (bp_values b) (bp_erased b) x
  (bp_histories b) (bp_interrupt_node b) (bp_interrupt_reason b) (bp_pending b) (bp_error b).
Definition set_bp_histories b x := mkBranchProgress (bp_entry b) (bp_status b) (bp_next b) (bp_values b) (bp_erased b)
  (bp_writes b) x (bp_interrupt_node b) (bp_interrupt_reason b) (bp_pending b) (bp_error b).
Definition set_bp_inode b x := mkBranchProgress (bp_entry b) (bp_status b) (bp_next b) (bp_values b) (bp_erased b)
  (bp_writes b) (bp_histories b) x (bp_interrupt_reason b) (bp_pending b) (bp_error b).
Definition set_bp_ireason b x := mkBranchProgress (bp_entry b) (bp_status b) (bp_next b) (bp_values b) (bp_erased b)
  (bp_writes b) (bp_histories b) (bp_interrupt_node b) x (bp_pending b) (bp_error b).
Definition set_bp_pending b x := mkBranchProgress (bp_entry b) (bp_status b) (bp_next b) (bp_values b) (bp_erased b)
  (bp_writes b) (bp_histories b) (bp_interrupt_node b) (bp_interrupt_reason b) x (bp_error b).
Definition set_bp_error b x := mkBranchProgress (bp_entry b) (bp_status b) (bp_next b) (bp_values b) (bp_erased b)
  (bp_writes b) (bp_histories b) (bp_interrupt_node b) (bp_interrupt_reason b) (bp_pending b) x.

Definition empty_branch : BranchProgress := mkBranchProgress "" BPending "" ∅ [] [] ∅ "" "" [] "".

(** [if (!v.get_string().get(text)) b.field = text;] *)
Definition with_string {A} (j : json) (x : A) (f : A → string → A) : A :=
  match get_string j with Some s => f x s | None => x end.

Definition decode_branch_field (acc : BranchProgress * RawHistories) (kv : string * json) :
    Result (BranchProgress * RawHistories) :=
  let '(b, raw) := acc in
  let '(k, v) := kv in
  if str_eqb k "entry" then Ok (with_string v b set_bp_entry, raw)
  else if str_eqb k "status" then Ok (with_string v b (λ b s, set_bp_status b (parse_branch_status s)), raw)
  else if str_eqb k "next" then Ok (with_string v b set_bp_next, raw)
  else if str_eqb k "values" then result_bind (decode_values v (bp_values b)) (λ m, Ok (set_bp_values b m, raw))
  else if str_eqb k "erased" then result_bind (decode_strings v (bp_erased b)) (λ l, Ok (set_bp_erased b l, raw))
  else if str_eqb k "writes" then result_bind (decode_strings v (bp_writes b)) (λ l, Ok (set_bp_writes b l, raw))
  else if str_eqb k "histories" then result_bind (collect_histories v raw) (λ r, Ok (b, r))
  else if str_eqb k "interrupt_node" then Ok (with_string v b set_bp_inode, raw)
  else if str_eqb k "interrupt_reason" then Ok (with_string v b set_bp_ireason, raw)
  else if str_eqb k "pending_tool_calls" then result_bind (decode_calls v) (λ c, Ok (set_bp_pending b c, raw))
  else if str_eqb k "error" then Ok (with_string v b set_bp_error, raw)
  else Ok (b, raw).

(** A loop over the fields of an object that stops at the first error. *)
Fixpoint fold_fields {A} (f : A → string * json → Result A) (acc : A) (fs : list (string * json)) : Result A :=
  match fs with
  | [] => Ok acc
  | kv :: rest => result_bind (f acc kv) (λ acc', fold_fields f acc' rest)
  end.

Fixpoint decode_branches (l : list json) : Result (list (BranchProgress * RawHistories)) :=
  match l with
  | [] => Ok []
  | j :: rest =>
      match get_object j with
      | None => bad "bad parallel branch."
      | Some fs =>
          result_bind (fold_fields decode_branch_field (empty_branch, []) fs) (λ b,
          result_bind (decode_branches rest) (λ bs, Ok (b :: bs)))
      end
  end.

Definition decode_progress_field (acc : string * list (BranchProgress * RawHistories)) (kv : string * json) :
    Result (string * list (BranchProgress * RawHistories)) :=
  let '(node, bs) := acc in
  let '(k, v) := kv in
  if str_eqb k "node" then Ok (with_string v node (λ _ s, s), bs)
  else if negb (str_eqb k "branches") then Ok (node, bs)
  else match get_array v with
       | None => bad "bad parallel branches."
       | Some l => result_bind (decode_branches l) (λ more, Ok (node, bs ++ more))
       end.

Definition decode_progress (j : json) (acc : string * list (BranchProgress * RawHistories)) :
    Result (string * list (BranchProgress * RawHistories)) :=
  match get_object j with
  | None => bad "bad parallel progress."
  | Some fs => fold_fields decode_progress_field acc fs
  end.

(** The locals of [decode_checkpoint]. *)
Record DecodeAcc := mkDecodeAcc {
  da_run : RunCore;
  da_values : gmap string string;
  da_raw : RawHistories;
  da_parallel : string * list (BranchProgress * RawHistories);
  da_found : bool
}.

Definition set_step r x := mkRunCore (thread_id r) (state r) (status r) (next_node r) x (interrupt_node r)
  (run_interrupt_reason r) (pending_tool_calls r).
Definition set_next r x := mkRunCore (thread_id r) (state r) (status r) x (step r) (interrupt_node r)
  (run_interrupt_reason r) (pending_tool_calls r).
Definition set_status r x := mkRunCore (thread_id r) (state r) x (next_node r) (step r) (interrupt_node r)
  (run_interrupt_reason r) (pending_tool_calls r).
Definition set_inode r x := mkRunCore (thread_id r) (state r) (status r) (next_node r) (step r) x
  (run_interrupt_reason r) (pending_tool_calls r).
Definition set_ireason r x := mkRunCore (thread_id r) (state r) (status r) (next_node r) (step r) (interrupt_node r)
  x (pending_tool_calls r).
Definition set_pending r x := mkRunCore (thread_id r) (state r) (status r) (next_node r) (step r) (interrupt_node r)
  (run_interrupt_reason r) x.
Definition set_run_state r x := mkRunCore (thread_id r) x (status r) (next_node r) (step r) (interrupt_node r)
  (run_interrupt_reason r) (pending_tool_calls r).
Definition set_thread r x := mkRunCore x (state r) (status r) (next_node r) (step r) (interrupt_node r)
  (run_interrupt_reason r) (pending_tool_calls r).

Definition with_run (a : DecodeAcc) (r : RunCore) : DecodeAcc :=
  mkDecodeAcc r (da_values a) (da_raw a) (da_parallel a) (da_found a).

(** [get_uint64] *)
Definition get_uint64 (j : json) : option Z :=
  match j with JInt z => if ((0 <=? z) && (z <? u64_modulus))%Z then Some z else None | _ => None end.

(** One field of the checkpoint; [want] says whether the caller asked for the
    parallel progress. *)
Definition decode_checkpoint_field (want : bool) (a : DecodeAcc) (kv : string * json) : Result DecodeAcc :=
  let '(name, value) := kv in
  let run := da_run a in
  if str_eqb name "step" then
    match get_uint64 value with
    | None => bad "bad step."
    | Some z => Ok (with_run a (set_step run z))
    end
  else if str_eqb name "next" then Ok (with_run a (with_string value run set_next))
  else if str_eqb name "status" then Ok (with_run a (with_string value run (λ r s, set_status r (parse_status s))))
  else if str_eqb name "interrupt_node" then Ok (with_run a (with_string value run set_inode))
  else if str_eqb name "interrupt_reason" then Ok (with_run a (with_string value run set_ireason))
  else if str_eqb name "pending_tool_calls" then
    result_bind (decode_calls value) (λ c, Ok (with_run a (set_pending run c)))
  else if str_eqb name "state" then
    result_bind (decode_values value (da_values a)) (λ m,
      Ok (mkDecodeAcc run m (da_raw a) (da_parallel a) (da_found a)))
  else if str_eqb name "histories" then
    result_bind (collect_histories value (da_raw a)) (λ r,
      Ok (mkDecodeAcc run (da_values a) r (da_parallel a) (da_found a)))
  else if str_eqb name "parallel" && want then
    result_bind (decode_progress value (da_parallel a)) (λ p,
      Ok (mkDecodeAcc run (da_values a) (da_raw a) p true))
  else Ok a.

Fixpoint build_branches (thread : string) (l : list (BranchProgress * RawHistories)) : Result (list BranchProgress) :=
  match l with
  | [] => Ok []
  | (b, raw) :: rest =>
      result_bind (build_histories raw thread (bp_histories b)) (λ h,
      result_bind (build_branches thread rest) (λ bs, Ok (set_bp_histories b h :: bs)))
  end.

(** The run as read, and the progress when it was asked for and present.  After
    an error the caller gives the run up. *)
Definition decode_checkpoint_tree (j : json) (out : RunCore) (want : bool) :
    Result (RunCore * option ParallelProgress) :=
  match get_object j with
  | None => bad "not a JSON object."
  | Some fs =>
      result_bind (fold_fields (decode_checkpoint_field want) (mkDecodeAcc out ∅ [] ("", []) false) fs) (λ a,
      result_bind (build_histories (da_raw a) (thread_id out) ∅) (λ hs,
      let run := set_run_state (da_run a) (set_histories (set_values (state (da_run a)) (da_values a)) hs) in
      if da_found a then
        result_bind (build_branches (thread_id out) (da_parallel a).2) (λ bs,
          Ok (run, Some (mkParallelProgress (da_parallel a).1 bs)))
      else Ok (run, None)))
  end.

Definition decode_checkpoint `{JsonParser} (text : string) (out : RunCore) (want : bool) :
    Result (RunCore * option ParallelProgress) :=
  match parse_json text with
  | None => bad "invalid JSON."
  | Some j => decode_checkpoint_tree j out want
  end.

(** ** The value trees of the encoders *)

Definition calls_tree (l : list ToolCall) : json := JArr (map call_tree l).
Definition values_tree (v : gmap string string) : json := JObj (map (λ kv, (kv.1, JStr kv.2)) (kept_items v)).
Definition strings_tree (l : list string) : json := JArr (map JStr l).
Definition histories_tree (h : gmap string FlowMemory) : json :=
  JObj (map (λ kv, (kv.1, history_tree (history kv.2))) (map_items h)).

Definition branch_tree (b : BranchProgress) : json :=
  JObj [("entry", JStr (bp_entry b)); ("status", JStr (branch_status_name (bp_status b))); ("next", JStr (bp_next b));
        ("values", values_tree (bp_values b)); ("erased", strings_tree (bp_erased b));
        ("writes", strings_tree (bp_writes b)); ("histories", histories_tree (bp_histories b));
        ("interrupt_node", JStr (bp_interrupt_node b)); ("interrupt_reason", JStr (bp_interrupt_reason b));
        ("pending_tool_calls", calls_tree (bp_pending b)); ("error", JStr (bp_error b))].

Definition progress_tree (p : ParallelProgress) : json :=
  JObj [("node", JStr (pp_node p)); ("branches", JArr (map branch_tree (pp_branches p)))].

Definition checkpoint_fields (run : RunCore) (graph_name : string) : list (string * json) :=
  [("version", JInt 1); ("graph", JStr graph_name); ("thread_id", JStr (thread_id run)); ("step", JInt (step run));
   ("next", JStr (next_node run)); ("status", JStr (status_name (status run)));
   ("interrupt_node", JStr (interrupt_node run)); ("interrupt_reason", JStr (run_interrupt_reason run));
   ("pending_tool_calls", calls_tree (pending_tool_calls run)); ("state", values_tree (values (state run)));
   ("histories", histories_tree (histories (state run)))].

Definition checkpoint_tree (run : RunCore) (graph_name : string) (progress : option ParallelProgress) : json :=
  JObj (checkpoint_fields run graph_name ++
        match progress with Some p => [("parallel", progress_tree p)] | None => [] end).

Lemma calls_render l : encode_calls l = render (calls_tree l).
Proof.
  unfold encode_calls, calls_tree. rewrite render_JArr, map_map. do 2 f_equal. f_equal.
  apply map_ext. intros tc. unfold call_tree, append_string_field. render_eq.
Qed.

Lemma values_render v : encode_values v = render (values_tree v).
Proof. unfold encode_values, values_tree. by rewrite render_JObj, map_map. Qed.

Lemma strings_render l : encode_strings l = render (strings_tree l).
Proof. unfold encode_strings, strings_tree. by rewrite render_JArr, map_map. Qed.

Lemma histories_render h : encode_histories h = render (histories_tree h).
Proof.
  unfold encode_histories, histories_tree. rewrite render_JObj, map_map. do 2 f_equal. f_equal.
  apply map_ext. intros [k m]. unfold render_member. simpl fst. simpl snd. by rewrite encode_history_render.
Qed.

Lemma branch_render b : encode_branch b = render (branch_tree b).
Proof.
  unfold encode_branch, branch_tree, append_string_field.
  rewrite values_render, !strings_render, histories_render, calls_render. render_eq.
Qed.

Lemma progress_render p : encode_progress p = render (progress_tree p).
Proof.
  unfold encode_progress, progress_tree, append_string_field.
  replace (map encode_branch (pp_branches p)) with (map render (map branch_tree (pp_branches p)))
    by (rewrite map_map; apply map_ext; intros; symmetry; apply branch_render).
  render_eq.
Qed.

Lemma checkpoint_render run g p : encode_checkpoint run g p = render (checkpoint_tree run g p).
Proof.
  unfold encode_checkpoint, checkpoint_tree, checkpoint_fields, append_string_field.
  rewrite values_render, histories_render, calls_render.
  destruct p as [p|]; [rewrite progress_render|]; cbn [app]; render_eq.
Qed.

(** ** Runs whose texts can be written as JSON *)

Definition str_valid (s : string) : Prop := valid_utf8 (bytes s).

Definition values_valid (v : gmap string string) : Prop :=
  ∀ k x, v !! k = Some x → str_valid k ∧ str_valid x.

Definition histories_valid (h : gmap string FlowMemory) : Prop :=
  ∀ k m, h !! k = Some m → str_valid k ∧ Forall message_valid (history m).

Definition branch_valid (b : BranchProgress) : Prop :=
  Forall str_valid ([bp_entry b; bp_next b; bp_interrupt_node b; bp_interrupt_reason b; bp_error b] ++
                    bp_erased b ++ bp_writes b) ∧
  values_valid (bp_values b) ∧ histories_valid (bp_histories b) ∧ Forall call_valid (bp_pending b).

Definition progress_valid (p : ParallelProgress) : Prop :=
  str_valid (pp_node p) ∧ Forall branch_valid (pp_branches p).

Definition run_valid (r : RunCore) : Prop :=
  Forall str_valid [thread_id r; next_node r; interrupt_node r; run_interrupt_reason r] ∧
  (0 ≤ step r < u64_modulus)%Z ∧ Forall call_valid (pending_tool_calls r) ∧
  values_valid (values (state r)) ∧ histories_valid (histories (state r)).

(** What is read back: no temporary values, and of each history the stored
    messages under the id "<thread>:<node>". *)
Definition kept (v : gmap string string) : gmap string string := filter (λ kv, is_temp_key kv.1 = false) v.

Definition stored_memory (thread node : string) (m : FlowMemory) : FlowMemory :=
  mkFlowMemory (thread +:+ ":" +:+ node) (map stored_message (history m)) no_turn_stats.

Definition stored_histories (thread : string) (h : gmap string FlowMemory) : gmap string FlowMemory :=
  map_imap (λ node m, Some (stored_memory thread node m)) h.

Definition stored_branch (thread : string) (b : BranchProgress) : BranchProgress :=
  mkBranchProgress (bp_entry b) (bp_status b) (bp_next b) (kept (bp_values b)) (bp_erased b) (bp_writes b)
    (stored_histories thread (bp_histories b)) (bp_interrupt_node b) (bp_interrupt_reason b) (bp_pending b) (bp_error b).

Definition stored_progress (thread : string) (p : ParallelProgress) : ParallelProgress :=
  mkParallelProgress (pp_node p) (map (stored_branch thread) (pp_branches p)).

(** ** Lemmas *)

Lemma elem_of_kept v k x : (k, x) ∈ kept_items v ↔ kept v !! k = Some x.
Proof.
  unfold kept_items, kept. rewrite list_elem_of_In, filter_In, <-list_elem_of_In, elem_of_map_items.
  rewrite map_lookup_filter_Some. simpl. by rewrite negb_true_iff.
Qed.

Lemma kept_items_NoDup v : NoDup (kept_items v).*1.
Proof.
  unfold kept_items. pose proof (map_items_NoDup v) as Hnd. revert Hnd.
  generalize (map_items v). intros l. induction l as [|[k x] l IH]; simpl; [constructor|].
  intros [Hni Hnd]%NoDup_cons. destruct (negb (is_temp_key k)); simpl; [|by apply IH].
  apply NoDup_cons. split; [|by apply IH]. intros ([k' x'] & -> & Hin)%list_elem_of_fmap.
  apply Hni. apply list_elem_of_In, filter_In in Hin as [Hin _].
  apply list_elem_of_fmap. exists (k', x'). split; [done|by apply list_elem_of_In].
Qed.

(** Loading a duplicate-free list of items. *)
Lemma insert_all_exact {V : Type} (l : list (string * V)) (m : gmap string V) :
  NoDup l.*1 → (∀ k x, (k, x) ∈ l ↔ m !! k = Some x) → insert_all l ∅ = m.
Proof.
  intros Hnd Hl. apply map_eq. intros k. destruct (m !! k) as [x|] eqn:E.
  - apply insert_all_lookup; [done|by apply Hl].
  - rewrite insert_all_notin; [by rewrite lookup_empty|].
    intros ([k' x] & -> & Hin)%list_elem_of_fmap. apply Hl in Hin. simpl in E. congruence.
Qed.

Lemma insert_all_kept v : insert_all (kept_items v) ∅ = kept v.
Proof. apply insert_all_exact; [apply kept_items_NoDup|apply elem_of_kept]. Qed.

Lemma insert_all_stored thread h :
  insert_all (map (λ kv, (kv.1, stored_memory thread kv.1 kv.2)) (map_items h)) ∅ = stored_histories thread h.
Proof.
  apply insert_all_exact.
  - change (NoDup (map fst (map (λ kv, (kv.1, stored_memory thread kv.1 kv.2)) (map_items h)))).
    rewrite map_map. exact (map_items_NoDup h).
  - intros k x. unfold stored_histories. rewrite map_lookup_imap, list_elem_of_fmap. split.
    + intros ([k' m] & [= -> ->] & Hin). apply elem_of_map_items in Hin. by rewrite Hin.
    + destruct (h !! k) as [m|] eqn:E; [|done]. simpl. intros [= <-]. exists (k, m).
      split; [done|]. by apply elem_of_map_items.
Qed.

Lemma decode_value_items_ok l out :
  decode_value_items (map (λ kv, (kv.1, JStr kv.2)) l) out = Ok (insert_all l out).
Proof. revert out. induction l as [|[k x] l IH]; intros out; simpl; [done|]. apply IH. Qed.

Lemma decode_values_tree v : decode_values (values_tree v) ∅ = Ok (kept v).
Proof. unfold decode_values, values_tree. simpl. by rewrite decode_value_items_ok, insert_all_kept. Qed.

Lemma decode_string_items_ok l : decode_string_items (map JStr l) = Ok l.
Proof. induction l as [|s l IH]; simpl; [done|]. by rewrite IH. Qed.

Lemma decode_strings_tree l : decode_strings (strings_tree l) [] = Ok l.
Proof. unfold decode_strings, strings_tree. simpl. by rewrite decode_string_items_ok. Qed.

Lemma decode_calls_tree l : decode_calls (calls_tree l) = Ok l.
Proof.
  unfold decode_calls, calls_tree. cbn [get_array]. f_equal.
  rewrite (omap_map_some _ _ id) by apply decode_call_tree. apply map_id.
Qed.

Lemma build_histories_ok thread (l : list (string * FlowMemory)) out :
  build_histories (map (λ kv, (kv.1, history_tree (history kv.2))) l) thread out =
    Ok (insert_all (map (λ kv, (kv.1, stored_memory thread kv.1 kv.2)) l) out).
Proof.
  revert out. induction l as [|[k m] l IH]; intros out; [done|].
  cbn [map build_histories fst snd]. rewrite decode_history_of_tree. apply IH.
Qed.

Lemma build_histories_tree thread h raw :
  collect_histories (histories_tree h) [] = Ok raw → build_histories raw thread ∅ = Ok (stored_histories thread h).
Proof.
  unfold collect_histories, histories_tree. simpl. intros [= <-].
  by rewrite build_histories_ok, insert_all_stored.
Qed.

Lemma parse_status_name s : parse_status (status_name s) = s.
Proof. by destruct s. Qed.

Lemma parse_branch_status_name s : parse_branch_status (branch_status_name s) = s.
Proof. by destruct s. Qed.

(** ** The trees can be written *)

Lemma values_tree_ok v : values_valid v → json_ok (values_tree v).
Proof.
  intros Hv. apply json_ok_obj, Forall_map, Forall_forall. intros [k x] Hin%elem_of_kept. simpl.
  apply Hv. unfold kept in Hin. by apply map_lookup_filter_Some in Hin as [? _].
Qed.

Lemma strings_tree_ok l : Forall str_valid l → json_ok (strings_tree l).
Proof. intros Hl. by apply json_ok_arr. Qed.

Lemma calls_tree_ok l : Forall call_valid l → json_ok (calls_tree l).
Proof. intros Hl. apply json_ok_arr. eapply Forall_impl; [done|]. apply call_tree_ok. Qed.

Lemma histories_tree_ok h : histories_valid h → json_ok (histories_tree h).
Proof.
  intros Hh. apply json_ok_obj, Forall_map, Forall_forall. intros [k m] Hin%elem_of_map_items. simpl.
  destruct (Hh k m Hin). split; [done|by apply history_tree_ok].
Qed.

Lemma branch_tree_ok b : branch_valid b → json_ok (branch_tree b).
Proof.
  intros (Hs & Hv & Hh & Hc). rewrite !Forall_app, !Forall_cons in Hs.
  destruct Hs as ((? & ? & ? & ? & ? & _) & He & Hw).
  pose proof (values_tree_ok _ Hv). pose proof (histories_tree_ok _ Hh). pose proof (calls_tree_ok _ Hc).
  pose proof (strings_tree_ok _ He). pose proof (strings_tree_ok _ Hw).
  unfold branch_tree. ok_members. destruct (bp_status b); apply valid_ascii; by repeat constructor.
Qed.

Lemma progress_tree_ok p : progress_valid p → json_ok (progress_tree p).
Proof.
  intros (Hn & Hb).
  assert (json_ok (JArr (map branch_tree (pp_branches p)))).
  { apply json_ok_arr. eapply Forall_impl; [done|]. apply branch_tree_ok. }
  unfold progress_tree. ok_members.
Qed.

Lemma checkpoint_tree_ok run g p :
  run_valid run → str_valid g → (∀ x, p = Some x → progress_valid x) → json_ok (checkpoint_tree run g p).
Proof.
  intros (Hs & Hst & Hc & Hv & Hh) Hg Hp. rewrite !Forall_cons in Hs. destruct Hs as (? & ? & ? & ? & _).
  pose proof (values_tree_ok _ Hv). pose proof (histories_tree_ok _ Hh). pose proof (calls_tree_ok _ Hc).
  unfold u64_modulus in Hst. unfold checkpoint_tree, checkpoint_fields.
  assert (Hstat : valid_utf8 (bytes (status_name (status run))))
    by (destruct (status run); apply valid_ascii; by repeat constructor).
  destruct p as [p|]; cbn [app].
  - pose proof (progress_tree_ok p (Hp p eq_refl)). ok_members; cbn [json_ok snd]; lia.
  - ok_members; cbn [json_ok snd]; lia.
Qed.

(** ** Reading the trees back *)

(** Decides the comparisons between literal member names. *)
Ltac eval_names :=
  repeat match goal with
    | |- context [str_eqb ?a ?b] =>
        let v := eval vm_compute in (str_eqb a b) in
        lazymatch v with
        | true => change (str_eqb a b) with true
        | false => change (str_eqb a b) with false
        end
    end; cbn [andb negb].

Ltac next_field := cbn [result_bind]; cbn [fold_fields decode_branch_field decode_checkpoint_field decode_progress_field]; eval_names;
  cbn iota; cbn [result_bind with_string get_string].

Lemma decode_branch_tree b :
  ∃ raw, fold_fields decode_branch_field (empty_branch, []) (match branch_tree b with JObj fs => fs | _ => [] end) =
      Ok (mkBranchProgress (bp_entry b) (bp_status b) (bp_next b) (kept (bp_values b)) (bp_erased b) (bp_writes b) ∅
            (bp_interrupt_node b) (bp_interrupt_reason b) (bp_pending b) (bp_error b), raw) ∧
    collect_histories (histories_tree (bp_histories b)) [] = Ok raw.
Proof.
  destruct (collect_histories (histories_tree (bp_histories b)) []) as [raw|e] eqn:E; [|done].
  exists raw. split; [|done]. unfold branch_tree.
  do 3 next_field. next_field. simpl (bp_values _). rewrite decode_values_tree.
  next_field. simpl (bp_erased _). rewrite decode_strings_tree.
  next_field. simpl (bp_writes _). rewrite decode_strings_tree.
  next_field. rewrite E. do 2 next_field. next_field. rewrite decode_calls_tree. next_field.
  cbn. by rewrite parse_branch_status_name.
Qed.

Lemma decode_branches_tree (bs : list BranchProgress) thread :
  ∃ l, decode_branches (map branch_tree bs) = Ok l ∧ build_branches thread l = Ok (map (stored_branch thread) bs).
Proof.
  induction bs as [|b bs (l & Hd & Hb)]; [by exists []|]. destruct (decode_branch_tree b) as (raw & Hf & Hc).
  eexists. split.
  - cbn [map decode_branches]. change (get_object (branch_tree b)) with
      (Some (match branch_tree b with JObj fs => fs | _ => [] end)). cbn iota. rewrite Hf. cbn [result_bind].
    rewrite Hd. reflexivity.
  - cbn [build_branches bp_histories]. rewrite (build_histories_tree thread _ raw Hc). cbn [result_bind].
    rewrite Hb. reflexivity.
Qed.

(** The run that [decode_checkpoint] reads into [out]. *)
Definition restored (run out : RunCore) : RunCore :=
  mkRunCore (thread_id out)
    (set_histories (set_values (state out) (kept (values (state run))))
       (stored_histories (thread_id out) (histories (state run))))
    (status run) (next_node run) (step run) (interrupt_node run) (run_interrupt_reason run) (pending_tool_calls run).

Lemma get_uint64_ok z : (0 ≤ z < u64_modulus)%Z → get_uint64 (JInt z) = Some z.
Proof.
  intros Hz. unfold get_uint64. destruct (Z.leb_spec 0 z); [|lia]. by destruct (Z.ltb_spec z u64_modulus); [|lia].
Qed.

(** The fields every checkpoint has. *)
Lemma decode_common want run g out rest raw :
  (0 ≤ step run < u64_modulus)%Z → collect_histories (histories_tree (histories (state run))) [] = Ok raw →
  fold_fields (decode_checkpoint_field want) (mkDecodeAcc out ∅ [] ("", []) false) (checkpoint_fields run g ++ rest) =
    fold_fields (decode_checkpoint_field want)
      (mkDecodeAcc (mkRunCore (thread_id out) (state out) (status run) (next_node run) (step run) (interrupt_node run)
                      (run_interrupt_reason run) (pending_tool_calls run))
         (kept (values (state run))) raw ("", []) false) rest.
Proof.
  intros Hstep Hraw. unfold checkpoint_fields. cbn [app].
  do 3 next_field. next_field. rewrite get_uint64_ok by done. do 4 next_field.
  next_field. rewrite decode_calls_tree. next_field. cbn [da_values with_run]. rewrite decode_values_tree.
  next_field. cbn [da_raw with_run]. rewrite Hraw. cbn [result_bind]. cbn. by rewrite parse_status_name.
Qed.

Section RoundTrip.
Context `{S : JsonParserSpec}.

Lemma decode_encode_checkpoint run g p out want :
  run_valid run → str_valid g → (∀ x, p = Some x → progress_valid x) →
  decode_checkpoint (encode_checkpoint run g p) out want =
    Ok (restored run out, if want then stored_progress (thread_id out) <$> p else None).
Proof.
  intros Hr Hg Hp. unfold decode_checkpoint.
  rewrite checkpoint_render, parse_render by by apply checkpoint_tree_ok.
  unfold decode_checkpoint_tree, checkpoint_tree. cbn [get_object].
  destruct Hr as (_ & Hstep & _).
  destruct (collect_histories (histories_tree (histories (state run))) []) as [raw|e] eqn:Ec; [|done].
  rewrite (decode_common want run g out _ raw Hstep Ec).
  pose proof (build_histories_tree (thread_id out) _ raw Ec) as Hh.
  destruct p as [p|].
  - next_field. destruct want.
    + cbn [andb]. unfold decode_progress, progress_tree. cbn [get_object da_parallel]. next_field. next_field.
      destruct (decode_branches_tree (pp_branches p) (thread_id out)) as (l & Hd & Hb).
      cbn [get_array]. rewrite Hd. cbn [result_bind fold_fields app da_raw da_found da_parallel fst snd].
      rewrite Hh. cbn [result_bind]. rewrite Hb. reflexivity.
    + cbn [andb fold_fields result_bind da_raw da_found]. rewrite Hh. reflexivity.
  - cbn [fold_fields result_bind da_raw da_found]. rewrite Hh. by destruct want.
Qed.

End RoundTrip.

(** C1. A checkpoint that was written is read back: step, next node, status,
    interrupt, pending tool calls, all values that are not "temp:", the stored
    part of every agent history (under the id "<thread>:<node>"), and, when
    asked for, the progress of every branch of an unfinished fan-out. *)
Theorem checkpoint_roundtrip `{S : JsonParserSpec} (run out : RunCore) (g : string) (p : option ParallelProgress) :
  run_valid run → str_valid g → (∀ x, p = Some x → progress_valid x) →
  decode_checkpoint (encode_checkpoint run g p) out true =
    Ok (restored run out, stored_progress (thread_id out) <$> p).
Proof. intros. by apply decode_encode_checkpoint. Qed.

(** A concrete text of ASCII characters. *)
Ltac literal_valid := apply valid_ascii; vm_compute; repeat constructor.

Definition sample_run : RunCore :=
  mkRunCore "t1"
    (mkGraphState (<["draft" := "text"]> (<["temp:x" := "1"]> ∅)) (<["writer" := sample_memory]> ∅) [] false "")
    RunInterrupted "writer" 3 "writer" "approval required" [mkToolCall "c1" "rm" "{}"].

Lemma sample_run_valid : run_valid sample_run.
Proof.
  split; [|split; [|split; [|split]]].
  - repeat apply Forall_cons_2; try apply Forall_nil_2; literal_valid.
  - simpl. unfold u64_modulus. lia.
  - repeat apply Forall_cons_2; try apply Forall_nil_2. split_and!; literal_valid.
  - intros k x. simpl. rewrite !lookup_insert_Some, lookup_empty.
    intros [[<- <-]|[_ [[<- <-]|[_ [=]]]]]; split; literal_valid.
  - intros k m. simpl. rewrite lookup_insert_Some, lookup_empty. intros [[<- <-]|[_ [=]]].
    split; [literal_valid|apply sample_memory_valid].
Qed.

Lemma checkpoint_roundtrip_witness :
  @decode_checkpoint RefParser.parser (encode_checkpoint sample_run "g" (Some (mkParallelProgress "fan" [empty_branch])))
    (set_thread sample_run "t2") true =
    Ok (restored sample_run (set_thread sample_run "t2"), Some (mkParallelProgress "fan" [empty_branch])).
Proof.
  rewrite (@checkpoint_roundtrip RefParser.parser _ sample_run (set_thread sample_run "t2") "g"
             (Some (mkParallelProgress "fan" [empty_branch])) sample_run_valid).
  - reflexivity.
  - literal_valid.
  - intros x [= <-]. split; [literal_valid|].
    apply Forall_singleton. split_and!.
    + repeat apply Forall_cons_2; try apply Forall_nil_2; literal_valid.
    + intros k x. simpl. by rewrite lookup_empty.
    + intros k x. simpl. by rewrite lookup_empty.
    + constructor.
Defined.

(** ** The event log *)

Definition type_code (t : GraphEventType) : Z :=
  match t with
  | NodeStart => 0 | NodeEnd => 1 | StateWrite => 2 | EvToolCall => 3 | EvToolResult => 4
  | EvInterrupt => 5 | Resume => 6 | EvCheckpoint => 7 | NodeFailed => 8 | Fork => 9
  end.

(** [static_cast<GraphEventType>(number)]; a number outside the enumeration has
    no named value and is read as the default. *)
Definition type_of_code (z : Z) : GraphEventType :=
  match z with
  | 1 => NodeEnd | 2 => StateWrite | 3 => EvToolCall | 4 => EvToolResult | 5 => EvInterrupt
  | 6 => Resume | 7 => EvCheckpoint | 8 => NodeFailed | 9 => Fork | _ => NodeStart
  end%Z.

Definition encode_event (e : GraphEvent) : string :=
  "{" +:+ q +:+ "type" +:+ q +:+ ":" +:+ to_string (type_code (ev_type e)) +:+ "," +:+
  append_string_field "node" (ev_node e) +:+ "," +:+
  append_string_field "key" (ev_key e) +:+
  "," +:+ q +:+ "ts" +:+ q +:+ ":" +:+ to_string (timestamp_ms e) +:+ "," +:+
  append_string_field "payload" (ev_payload e) +:+ "}".

Definition encode_events (events : list GraphEvent) : string := "[" +:+ join_comma (map encode_event events) +:+ "]".

Definition get_int64 (j : json) : option Z :=
  match j with
  | JInt z => if ((-9223372036854775808 <=? z) && (z <=? 9223372036854775807))%Z then Some z else None
  | _ => None
  end.

Definition decode_event_field (e : GraphEvent) (kv : string * json) : Result GraphEvent :=
  let '(k, v) := kv in
  Ok (if str_eqb k "type" then
        match get_int64 v with
        | Some n => mkGraphEvent (type_of_code n) (ev_node e) (ev_key e) (timestamp_ms e) (ev_payload e)
        | None => e
        end
      else if str_eqb k "ts" then
        match get_int64 v with
        | Some n => mkGraphEvent (ev_type e) (ev_node e) (ev_key e) n (ev_payload e)
        | None => e
        end
      else if str_eqb k "node" then
        with_string v e (λ e s, mkGraphEvent (ev_type e) s (ev_key e) (timestamp_ms e) (ev_payload e))
      else if str_eqb k "key" then
        with_string v e (λ e s, mkGraphEvent (ev_type e) (ev_node e) s (timestamp_ms e) (ev_payload e))
      else if str_eqb k "payload" then
        with_string v e (λ e s, mkGraphEvent (ev_type e) (ev_node e) (ev_key e) (timestamp_ms e) s)
      else e).

Fixpoint decode_event_items (l : list json) (out : list GraphEvent) : Result (list GraphEvent) :=
  match l with
  | [] => Ok out
  | j :: rest =>
      match get_object j with
      | None => fail ParseError "graph event log: bad event."
      | Some fs =>
          result_bind (fold_fields decode_event_field (mkGraphEvent NodeStart "" "" 0 "") fs) (λ e,
            decode_event_items rest (out ++ [e]))
      end
  end.

Definition decode_events `{JsonParser} (text : string) (out : list GraphEvent) : Result (list GraphEvent) :=
  match parse_json text with
  | Some (JArr l) => decode_event_items l out
  | _ => fail ParseError "graph event log: not a JSON array."
  end.

Definition event_tree (e : GraphEvent) : json :=
  JObj [("type", JInt (type_code (ev_type e))); ("node", JStr (ev_node e)); ("key", JStr (ev_key e));
        ("ts", JInt (timestamp_ms e)); ("payload", JStr (ev_payload e))].

Definition event_valid (e : GraphEvent) : Prop :=
  str_valid (ev_node e) ∧ str_valid (ev_key e) ∧ str_valid (ev_payload e) ∧
  (-9223372036854775808 ≤ timestamp_ms e ≤ 9223372036854775807)%Z.

Lemma event_render e : encode_event e = render (event_tree e).
Proof. unfold encode_event, event_tree, append_string_field. render_eq. Qed.

Lemma events_render l : encode_events l = render (JArr (map event_tree l)).
Proof.
  unfold encode_events. rewrite render_JArr, map_map. by rewrite (map_ext _ _ event_render).
Qed.

Lemma event_tree_ok e : event_valid e → json_ok (event_tree e).
Proof.
  intros (? & ? & ? & ?). unfold event_tree. ok_members; cbn [json_ok snd]; destruct (ev_type e); simpl; lia.
Qed.

Lemma fold_fields_cons {A} (f : A → string * json → Result A) (acc : A) kv rest :
  fold_fields f acc (kv :: rest) = result_bind (f acc kv) (λ acc', fold_fields f acc' rest).
Proof. done. Qed.

Ltac next_event_field :=
  cbn [result_bind]; rewrite fold_fields_cons; cbn [decode_event_field]; eval_names; cbn iota;
  cbn [result_bind with_string get_string ev_type ev_node ev_key timestamp_ms ev_payload].

Lemma decode_event_tree e :
  event_valid e →
  fold_fields decode_event_field (mkGraphEvent NodeStart "" "" 0 "") (match event_tree e with JObj fs => fs | _ => [] end) =
    Ok e.
Proof.
  intros (_ & _ & _ & Ht). unfold event_tree.
  assert (Hts : get_int64 (JInt (timestamp_ms e)) = Some (timestamp_ms e)).
  { unfold get_int64. destruct (Z.leb_spec (-9223372036854775808) (timestamp_ms e)); [|lia].
    by destruct (Z.leb_spec (timestamp_ms e) 9223372036854775807); [|lia]. }
  assert (Hty : get_int64 (JInt (type_code (ev_type e))) = Some (type_code (ev_type e))) by (by destruct (ev_type e)).
  next_event_field. rewrite Hty. do 2 next_event_field. next_event_field. rewrite Hts. next_event_field.
  cbn [fold_fields ev_type ev_node ev_key timestamp_ms ev_payload]. by destruct e as [[] ? ? ? ?].
Qed.

Lemma decode_event_items_ok l out :
  Forall event_valid l → decode_event_items (map event_tree l) out = Ok (out ++ l).
Proof.
  intros Hl. revert out. induction Hl as [|e l He _ IH]; intros out; [by rewrite app_nil_r|].
  cbn [map decode_event_items]. change (get_object (event_tree e)) with
    (Some (match event_tree e with JObj fs => fs | _ => [] end)). cbn iota.
  rewrite decode_event_tree by done. cbn [result_bind]. by rewrite IH, <-app_assoc.
Qed.

Lemma decode_encode_events `{S : JsonParserSpec} l out :
  Forall event_valid l → decode_events (encode_events l) out = Ok (out ++ l).
Proof.
  intros Hl. unfold decode_events. rewrite events_render, parse_render.
  - by apply decode_event_items_ok.
  - apply json_ok_arr. eapply Forall_impl; [done|]. apply event_tree_ok.
Qed.

(** The event log codec: what [encode_events] wrote is appended unchanged
    by [decode_events], for events with well-formed texts (see
    [clip_splits_utf8] for how a payload loses that property). *)
Theorem events_roundtrip `{S : JsonParserSpec} (l out : list GraphEvent) :
  Forall event_valid l → decode_events (encode_events l) out = Ok (out ++ l).
Proof. apply decode_encode_events. Qed.

Lemma events_roundtrip_witness :
  @decode_events RefParser.parser (encode_events [mkGraphEvent Resume "n" "k" (-5) "p"]) [] = Ok [mkGraphEvent Resume "n" "k" (-5) "p"].
Proof.
  apply (@events_roundtrip RefParser.parser _ [mkGraphEvent Resume "n" "k" (-5) "p"] []).
  apply Forall_singleton. split_and!; try (literal_valid); simpl; lia.
Defined.

(** ** Persisted user: and app: keys *)

Section Scoped.
Context `{P : JsonParser} {W : Type}.

Fixpoint load_values (keys : list string) (st : GraphState) : M W (GraphState * Result unit) :=
  match keys with
  | [] => mret (st, Ok tt)
  | key :: rest =>
      r ← retrieve_memory (kScopedValuePrefix +:+ key);
      match r with
      | Ok v => load_values rest (set_values st (<[key := v]> (values st)))
      | Fail e =>
          if bool_decide (code e = KeyNotFound) then load_values rest st
          else mret (st, Fail e)
      end
  end.

(** [index] collects the known scoped keys. *)
Definition load_scoped_state (st : GraphState) (index : gset string) : M W (GraphState * gset string * Result unit) :=
  listed ← retrieve_memory kScopedIndexKey;
  match listed with
  | Fail e => mret (st, index, if bool_decide (code e = KeyNotFound) then Ok tt else Fail e)
  | Ok text =>
      match parse_json text with
      | Some (JArr keys) =>
          let index' := list_to_set (omap get_string keys) ∪ index in
          '(st', r) ← load_values (set_items index') st;
          mret (st', index', r)
      | _ => mret (st, index, fail ParseError "graph state: stored scoped key index is not a JSON array.")
      end
  end.

Definition persist_scoped_value (key value : string) (index : gset string) : M W (gset string * Result unit) :=
  put ← store_memory (kScopedValuePrefix +:+ key) value;
  match put with
  | Fail e => mret (index, Fail e)
  | Ok _ =>
      if bool_decide (key ∈ index) then mret (index, Ok tt)
      else
        let index' := {[key]} ∪ index in
        r ← store_memory kScopedIndexKey (encode_strings (set_items index'));
        mret (index', r)
  end.

(** The store's index lists exactly [index]; every listed key has a value. *)
Definition scoped_store (kv : gmap string string) (index : gset string) : Prop :=
  (if decide (index = ∅) then kv !! kScopedIndexKey = None
   else kv !! kScopedIndexKey = Some (encode_strings (set_items index))) ∧
  (∀ k, k ∈ index → str_valid k ∧ is_Some (kv !! (kScopedValuePrefix +:+ k))).

Definition in_memory (rt : Rt W) (kv : gmap string string) : Prop :=
  memory_state (rt_session rt) = Some kv ∧ store (config (rt_session rt)) = None.

Lemma retrieve_in_memory (rt : Rt W) kv k : in_memory rt kv → retrieve_memory k rt = (rt, get_in_memory kv k).
Proof. intros [Hm Hs]. unfold retrieve_memory, mbind, M_bind, ask. by rewrite Hm, Hs. Qed.

Lemma store_in_memory (rt : Rt W) kv k v :
  in_memory rt kv →
  store_memory k v rt =
    (with_session rt (set_memory_state (rt_session rt) (Some (<[k := v]> kv))), Ok tt) ∧
  in_memory (with_session rt (set_memory_state (rt_session rt) (Some (<[k := v]> kv)))) (<[k := v]> kv).
Proof. intros [Hm Hs]. unfold store_memory, mbind, M_bind, ask. rewrite Hm, Hs. by split; [|split]. Qed.

Lemma scoped_key_inj k k' : kScopedValuePrefix +:+ k = kScopedValuePrefix +:+ k' → k = k'.
Proof. apply append_inj_l. Qed.

Lemma scoped_key_not_index k : kScopedIndexKey ≠ kScopedValuePrefix +:+ k.
Proof. discriminate. Qed.

Lemma scoped_store_insert kv index k v :
  scoped_store kv index → str_valid k →
  scoped_store (<[kScopedIndexKey := encode_strings (set_items ({[k]} ∪ index))]>
                  (<[kScopedValuePrefix +:+ k := v]> kv)) ({[k]} ∪ index).
Proof.
  intros [_ Hv] Hk. split.
  - destruct (decide ({[k]} ∪ index = ∅)) as [He|]; [set_solver|]. apply lookup_insert_eq.
  - intros k' Hk'. rewrite lookup_insert_ne by apply scoped_key_not_index.
    destruct (decide (k = k')) as [->|Hne]; [by rewrite lookup_insert_eq; eauto|].
    rewrite lookup_insert_ne by (by intros ?%scoped_key_inj). apply Hv. set_solver.
Qed.

Lemma scoped_store_update kv index k v :
  scoped_store kv index → k ∈ index → scoped_store (<[kScopedValuePrefix +:+ k := v]> kv) index.
Proof.
  intros [Hi Hv] Hk. split.
  - rewrite !lookup_insert_ne by (intros E; by apply (scoped_key_not_index k)). done.
  - intros k' Hk'. split; [by apply Hv|]. destruct (decide (k = k')) as [->|Hne].
    + rewrite lookup_insert_eq. eauto.
    + rewrite lookup_insert_ne by (by intros ?%scoped_key_inj). by apply Hv.
Qed.

(** Loading every key of a list that has a value. *)
Lemma load_values_ok (rt : Rt W) kv keys st :
  in_memory rt kv → (∀ k, k ∈ keys → is_Some (kv !! (kScopedValuePrefix +:+ k))) →
  ∃ st', load_values keys st rt = (rt, (st', Ok tt)) ∧ histories st' = histories st ∧
    (∀ k, k ∈ keys → values st' !! k = kv !! (kScopedValuePrefix +:+ k)) ∧
    (∀ k, k ∉ keys → values st' !! k = values st !! k).
Proof.
  intros Hin. revert st. induction keys as [|k keys IH]; intros st Hv.
  { exists st. split_and!; try done. intros k Hk. by apply not_elem_of_nil in Hk. }
  destruct (Hv k) as [v E]; [by left|].
  destruct (IH (set_values st (<[k := v]> (values st)))) as (st' & Hl & Hh & Hk & Hn); [set_solver|].
  exists st'. split.
  { cbn [load_values]. unfold mbind, M_bind. rewrite (retrieve_in_memory rt kv _ Hin).
    unfold get_in_memory. by rewrite E. }
  split; [done|]. split.
  - intros k' Hk'. destruct (decide (k' ∈ keys)) as [|Hn']; [by apply Hk|].
    assert (k' = k) as -> by set_solver. rewrite Hn by done. simpl. by rewrite lookup_insert_eq.
  - intros k' Hk'. apply not_elem_of_cons in Hk' as [Hne Hk'].
    rewrite Hn by done. simpl. by rewrite lookup_insert_ne.
Qed.

Lemma load_scoped_ok `{S : !JsonParserSpec P} (rt : Rt W) kv index st :
  in_memory rt kv → scoped_store kv index →
  ∃ st', load_scoped_state st ∅ rt = (rt, (st', index, Ok tt)) ∧ histories st' = histories st ∧
    (∀ k, k ∈ index → values st' !! k = kv !! (kScopedValuePrefix +:+ k)) ∧
    (∀ k, k ∉ index → values st' !! k = values st !! k).
Proof.
  intros Hin [Hi Hv]. unfold load_scoped_state, mbind, M_bind. rewrite (retrieve_in_memory rt kv _ Hin).
  unfold get_in_memory. destruct (decide (index = ∅)) as [->|Hne].
  { rewrite Hi. simpl. exists st. split_and!; try done; set_solver. }
  rewrite Hi, strings_render, parse_render.
  2:{ apply strings_tree_ok, Forall_forall. intros k Hk%elem_of_set_items. by apply Hv. }
  unfold strings_tree. rewrite (omap_map_some _ _ id) by done. rewrite map_id.
  replace (list_to_set (set_items index) ∪ ∅ : gset string) with index.
  2:{ apply set_eq. intros k. rewrite elem_of_union, elem_of_list_to_set, elem_of_set_items. set_solver. }
  destruct (load_values_ok rt kv (set_items index) st Hin) as (st' & Hl & Hh & Hk & Hn).
  { intros k Hk%elem_of_set_items. by apply Hv. }
  rewrite Hl. exists st'. split_and!; try done.
  - intros k Hk'. apply Hk. by apply elem_of_set_items.
  - intros k Hk'. apply Hn. by rewrite elem_of_set_items.
Qed.

Lemma persist_ok (rt : Rt W) kv index k v :
  in_memory rt kv → scoped_store kv index → str_valid k →
  ∃ kv', (persist_scoped_value k v index rt).2 = ({[k]} ∪ index, Ok tt) ∧
    in_memory (persist_scoped_value k v index rt).1 kv' ∧ scoped_store kv' ({[k]} ∪ index) ∧
    kv' !! (kScopedValuePrefix +:+ k) = Some v ∧
    (∀ k', k' ≠ k → kv' !! (kScopedValuePrefix +:+ k') = kv !! (kScopedValuePrefix +:+ k')).
Proof.
  intros Hin Hsc Hk. unfold persist_scoped_value, mbind, M_bind.
  destruct (store_in_memory rt kv (kScopedValuePrefix +:+ k) v Hin) as [-> Hin1].
  destruct (decide (k ∈ index)) as [Hki|Hki].
  - rewrite bool_decide_true by done. eexists. split; [simpl; repeat f_equal; set_solver|].
    split; [exact Hin1|]. replace ({[k]} ∪ index) with index by set_solver.
    split; [by apply scoped_store_update|]. split; [apply lookup_insert_eq|].
    intros k' Hne. apply lookup_insert_ne. by intros ?%scoped_key_inj.
  - rewrite bool_decide_false by done. set (rt1 := with_session rt _) in *.
    destruct (store_in_memory rt1 _ kScopedIndexKey (encode_strings (set_items ({[k]} ∪ index))) Hin1) as [-> Hin2].
    eexists. split; [done|]. split; [exact Hin2|]. split; [by apply scoped_store_insert|]. split.
    + rewrite lookup_insert_ne by apply scoped_key_not_index. apply lookup_insert_eq.
    + intros k' Hne. rewrite lookup_insert_ne by apply scoped_key_not_index.
      apply lookup_insert_ne. by intros ?%scoped_key_inj.
Qed.

End Scoped.

(** A user: or app: value that one run persists is what the next run
    loads, under the built-in store: after [persist_scoped_value] the index in
    the store lists the key, and [load_scoped_state] puts the new value over
    the state and every other persisted key at its own value, touching nothing
    else. *)
Theorem scoped_persist_load {W : Type} `{S : JsonParserSpec} (rt : Rt W) (kv : gmap string string)
    (index : gset string) (k v : string) (st : GraphState) :
  in_memory rt kv → scoped_store kv index → str_valid k →
  let rt' := (persist_scoped_value k v index rt).1 in
  (persist_scoped_value k v index rt).2 = ({[k]} ∪ index, Ok tt) ∧
  ∃ st', load_scoped_state st ∅ rt' = (rt', (st', {[k]} ∪ index, Ok tt)) ∧
    values st' !! k = Some v ∧ histories st' = histories st ∧
    (∀ k', k' ∈ index → k' ≠ k → values st' !! k' = kv !! (kScopedValuePrefix +:+ k')) ∧
    (∀ k', k' ∉ index → k' ≠ k → values st' !! k' = values st !! k').
Proof.
  intros Hin Hsc Hk. destruct (persist_ok rt kv index k v Hin Hsc Hk) as (kv' & Hr & Hin' & Hsc' & Hv & Ho).
  split; [done|]. destruct (load_scoped_ok _ kv' ({[k]} ∪ index) st Hin' Hsc') as (st' & Hl & Hh & Hi & Hn).
  exists st'. split_and!; [done| |done| |].
  - rewrite Hi by set_solver. done.
  - intros k' Hk' Hne. rewrite Hi by set_solver. by apply Ho.
  - intros k' Hk' Hne. apply Hn. set_solver.
Qed.

Lemma scoped_persist_load_witness :
  let rt' := (persist_scoped_value "user:name" "ada" ∅ Sample.rt).1 in
  (persist_scoped_value "user:name" "ada" ∅ Sample.rt).2 = ({["user:name"]} ∪ ∅, Ok tt) ∧
  ∃ st', @load_scoped_state RefParser.parser unit empty_state ∅ rt' = (rt', (st', {["user:name"]} ∪ ∅, Ok tt)) ∧
    values st' !! "user:name" = Some "ada" ∧ histories st' = histories empty_state ∧
    (∀ k', k' ∈ (∅ : gset string) → k' ≠ "user:name" →
       values st' !! k' = (∅ : gmap string string) !! (kScopedValuePrefix +:+ k')) ∧
    (∀ k', k' ∉ (∅ : gset string) → k' ≠ "user:name" → values st' !! k' = values empty_state !! k').
Proof.
  apply (@scoped_persist_load unit RefParser.parser _ Sample.rt ∅ ∅ "user:name" "ada" empty_state).
  - split; reflexivity.
  - split; [destruct (decide _) as [|H]; [reflexivity|destruct H; reflexivity]|set_solver].
  - literal_valid.
Defined.
