(* ===== verification/Checkpointer.v ===== *)
(** * Checkpointers (src/core/graph/graph_checkpointer.cpp)

    [Backend] is the operation table [CheckpointerOps]; [BackendSpec] states
    what the graph runtime relies on: what was put is what get returns, the
    latest checkpoint is the one of the highest step, deleting a thread, where
    its loop ends, removes its checkpoints and nothing else.  Two implementations discharge it: the
    in-memory checkpointer and the adapter that stores checkpoints through the
    session's key-value store, whose keys "checkpoint:<thread>:<step>" must be
    shown not to collide.  The Async writer is a step relation over any backend
    that interleaves the run's thread with the writer's thread; its theorems
    are proved against the interface. *)
From stdpp Require Import base gmap strings list sorting pretty.
From Stdlib Require Import Lia ZArith.
From S2P Require Import Prelude Arena Text Decimal Json Session History Graph Checkpoint.

Record GraphCheckpointInfo := mkGraphCheckpointInfo {
  info_step : Z;
  info_timestamp_ms : Z;
  info_metadata : string
}.

(** ** The operation table *)

(** [S] is the checkpointer's state ([void *state]); the clock is an argument
    of the operations that read it.  [list] and [delete_thread] loop over step
    numbers: their first argument is the number of rounds they may make, and
    they answer [None] while they have not returned. *)
Record Backend (S : Type) := mkBackend {
  b_has_events : bool; (* append_events / list_events are set *)
  b_put : string → Z → string → string → S → S * Result unit;
  b_get_latest : string → S → S * Result string;
  b_get : string → Z → S → S * Result string;
  b_list : nat → string → S → S * option (Result (list GraphCheckpointInfo));
  b_delete_thread : nat → string → S → S * option (Result unit);
  b_append_events : string → list GraphEvent → S → S * Result unit;
  b_list_events : string → S → S * Result (list GraphEvent)
}.
Arguments mkBackend {S}.
Arguments b_has_events {S}.
Arguments b_put {S}. Arguments b_get_latest {S}. Arguments b_get {S}. Arguments b_list {S}.
Arguments b_delete_thread {S}. Arguments b_append_events {S}. Arguments b_list_events {S}.

Definition no_checkpoint (thread : string) : Result string :=
  fail KeyNotFound ("no checkpoint for thread '" +:+ thread +:+ "'").

Definition missing {A} (r : Result A) : Prop := ∃ e, r = Fail e ∧ code e = KeyNotFound.

(** What the runtime relies on.  [blob_at] is the abstract content. *)
Class BackendSpec {S : Type} (B : Backend S) := {
  inv : S → Prop;
  blob_at : S → string → Z → option string;
  latest : S → string → option Z;
  latest_blob s t n : inv s → latest s t = Some n → is_Some (blob_at s t n);
  get_spec s t n : inv s → (0 ≤ n < u64_modulus)%Z →
    (b_get B t n s).1 = s ∧
    match blob_at s t n with Some b => (b_get B t n s).2 = Ok b | None => missing (b_get B t n s).2 end;
  get_latest_spec s t : inv s →
    (b_get_latest B t s).1 = s ∧
    match latest s t with
    | Some n => ∃ b, blob_at s t n = Some b ∧ (b_get_latest B t s).2 = Ok b
    | None => missing (b_get_latest B t s).2
    end;
  put_spec s t n b meta : inv s → b ≠ "" → (0 ≤ n < u64_modulus)%Z → (∀ k, latest s t = Some k → k ≤ n)%Z →
    let s' := (b_put B t n b meta s).1 in
    (b_put B t n b meta s).2 = Ok tt ∧ inv s' ∧
    (∀ t' n', blob_at s' t' n' = if decide (t' = t ∧ n' = n) then Some b else blob_at s t' n') ∧
    (∀ t', latest s' t' = if decide (t' = t) then Some n else latest s t');
  delete_spec fuel s t : inv s → (∀ k, latest s t = Some k → k < u64_modulus - 1 ∧ k < Z.of_nat fuel)%Z →
    let s' := (b_delete_thread B fuel t s).1 in
    (b_delete_thread B fuel t s).2 = Some (Ok tt) ∧ inv s' ∧
    (∀ t' n', blob_at s' t' n' = if decide (t' = t) then None else blob_at s t' n') ∧
    (∀ t', latest s' t' = if decide (t' = t) then None else latest s t')
}.

(** An operation without a loop over steps. *)
Definition at_once {S A : Type} (f : string → S → S * Result A) (fuel : nat) (t : string) (s : S) : S * option (Result A) :=
  let '(s', r) := f t s in (s', Some r).

(** ** The in-memory checkpointer *)

Module Mem.

Record MemCheckpoint := mkMemCheckpoint { blob : string; metadata : string; timestamp_ms : Z }.

Record MemCheckpointer := mkMemCheckpointer {
  threads : gmap string (gmap Z MemCheckpoint);
  events : gmap string (list GraphEvent)
}.

Definition mem_open : MemCheckpointer := mkMemCheckpointer ∅ ∅.

Definition step_le (a b : Z * MemCheckpoint) : Prop := (a.1 ≤ b.1)%Z.

#[global] Instance step_le_dec a b : Decision (step_le a b).
Proof. unfold step_le. apply _. Defined.

(** [std::map<uint64_t, MemCheckpoint>] in ascending order of the step. *)
Definition step_items (m : gmap Z MemCheckpoint) : list (Z * MemCheckpoint) := merge_sort step_le (map_to_list m).

Section Mem.
Context (now : Z).

Definition mem_put (t : string) (n : Z) (b meta : string) (s : MemCheckpointer) : MemCheckpointer * Result unit :=
  let m := default ∅ (threads s !! t) in
  (mkMemCheckpointer (<[t := <[n := mkMemCheckpoint b meta now]> m]> (threads s)) (events s), Ok tt).

Definition mem_get_latest (t : string) (s : MemCheckpointer) : MemCheckpointer * Result string :=
  (s, match threads s !! t with
      | None => no_checkpoint t
      | Some m =>
          match last (step_items m) with
          | None => no_checkpoint t
          | Some (_, c) => Ok (blob c)
          end
      end).

Definition mem_get (t : string) (n : Z) (s : MemCheckpointer) : MemCheckpointer * Result string :=
  (s, match threads s !! t with
      | None => no_checkpoint t
      | Some m =>
          match m !! n with
          | Some c => Ok (blob c)
          | None => fail KeyNotFound ("no checkpoint at step " +:+ to_string n +:+ " of thread '" +:+ t +:+ "'")
          end
      end).

Definition mem_list (t : string) (s : MemCheckpointer) : MemCheckpointer * Result (list GraphCheckpointInfo) :=
  (s, match threads s !! t with
      | None => Ok []
      | Some m => Ok (map (λ p, mkGraphCheckpointInfo p.1 (timestamp_ms p.2) (metadata p.2)) (step_items m))
      end).

Definition mem_delete_thread (t : string) (s : MemCheckpointer) : MemCheckpointer * Result unit :=
  (mkMemCheckpointer (delete t (threads s)) (delete t (events s)), Ok tt).

Definition mem_append_events (t : string) (es : list GraphEvent) (s : MemCheckpointer) : MemCheckpointer * Result unit :=
  (mkMemCheckpointer (threads s) (<[t := default [] (events s !! t) ++ es]> (events s)), Ok tt).

Definition mem_list_events (t : string) (s : MemCheckpointer) : MemCheckpointer * Result (list GraphEvent) :=
  (s, Ok (default [] (events s !! t))).

Definition kInMemoryCheckpointer : Backend MemCheckpointer :=
  mkBackend true mem_put mem_get_latest mem_get (at_once mem_list) (at_once mem_delete_thread) mem_append_events mem_list_events.

End Mem.

(** The highest step of a thread. *)
Definition mem_latest (s : MemCheckpointer) (t : string) : option Z :=
  m ← threads s !! t; fst <$> last (step_items m).

Definition mem_blob (s : MemCheckpointer) (t : string) (n : Z) : option string :=
  m ← threads s !! t; blob <$> m !! n.

#[global] Instance step_le_total : Total step_le.
Proof. intros a b. unfold step_le. lia. Qed.

#[global] Instance step_le_trans : Transitive step_le.
Proof. intros a b c. unfold step_le. lia. Qed.

Lemma step_items_elem m n c : (n, c) ∈ step_items m ↔ m !! n = Some c.
Proof. unfold step_items. by rewrite merge_sort_Permutation, elem_of_map_to_list. Qed.

Lemma last_elem {A} (l : list A) x : last l = Some x → x ∈ l.
Proof. intros (l' & ->)%last_Some. set_solver. Qed.

Lemma step_items_last m n c : last (step_items m) = Some (n, c) → ∀ k x, m !! k = Some x → (k ≤ n)%Z.
Proof.
  intros Hl k x Hk. assert (Hs : StronglySorted step_le (step_items m)) by (apply StronglySorted_merge_sort; apply _).
  apply step_items_elem in Hk. apply last_Some in Hl as (l' & E). rewrite E in *.
  apply elem_of_app in Hk as [Hk|Hk].
  - apply StronglySorted_app in Hs as (Hall & _ & _). exact (Hall (k, x) (n, c) Hk ltac:(set_solver)).
  - apply list_elem_of_singleton in Hk. simplify_eq. lia.
Qed.

Lemma step_items_last_is m n c :
  m !! n = Some c → (∀ k x, m !! k = Some x → k ≤ n)%Z → last (step_items m) = Some (n, c).
Proof.
  intros Hn Hmax. destruct (last (step_items m)) as [[k x]|] eqn:E.
  - pose proof (step_items_last m k x E n c Hn). apply last_elem, step_items_elem in E.
    specialize (Hmax k x E). assert (k = n) as -> by lia. congruence.
  - apply last_None in E. apply step_items_elem in Hn. rewrite E in Hn. by apply not_elem_of_nil in Hn.
Qed.

End Mem.

#[global] Program Instance Mem_spec (now : Z) : BackendSpec (Mem.kInMemoryCheckpointer now) := {|
  inv _ := True;
  blob_at := Mem.mem_blob;
  latest := Mem.mem_latest
|}.
Next Obligation.
  intros now s t n _. unfold Mem.mem_latest, Mem.mem_blob. destruct (Mem.threads s !! t) as [m|]; [|done]. simpl.
  destruct (last (Mem.step_items m)) as [[k c]|] eqn:E; [|done]. simpl. intros [= ->].
  apply Mem.last_elem, Mem.step_items_elem in E. rewrite E. simpl. eauto.
Qed.
Next Obligation.
  intros now s t n _ _. simpl. split; [done|]. unfold Mem.mem_get, Mem.mem_blob. destruct (Mem.threads s !! t) as [m|]; simpl.
  - destruct (m !! n); simpl; [done|]. by eexists.
  - by eexists.
Qed.
Next Obligation.
  intros now s t _. simpl. split; [done|]. unfold Mem.mem_get_latest, Mem.mem_latest, Mem.mem_blob.
  destruct (Mem.threads s !! t) as [m|]; simpl; [|by eexists].
  destruct (last (Mem.step_items m)) as [[k c]|] eqn:E; simpl; [|by eexists].
  apply Mem.last_elem, Mem.step_items_elem in E. rewrite E. by eexists.
Qed.
Next Obligation.
  intros now s t n b meta _ Hb Hn Hle. simpl. split; [done|]. split; [done|].
  unfold Mem.mem_blob, Mem.mem_latest in *. simpl. split.
  - intros t' n'. destruct (decide (t' = t)) as [->|Ht].
    + rewrite lookup_insert_eq. simpl. destruct (decide (n' = n)) as [->|Hne].
      * rewrite lookup_insert_eq. by rewrite decide_True.
      * rewrite lookup_insert_ne by done. rewrite decide_False by naive_solver.
        destruct (Mem.threads s !! t); simpl; [done|by rewrite lookup_empty].
    + rewrite lookup_insert_ne by done. by rewrite decide_False by naive_solver.
  - intros t'. destruct (decide (t' = t)) as [->|Ht].
    + rewrite lookup_insert_eq. simpl. erewrite Mem.step_items_last_is; [done|apply lookup_insert_eq|].
      intros k x [[<- _]|[Hne Hk]]%lookup_insert_Some; [lia|].
      destruct (Mem.threads s !! t) as [m|]; simpl in *; [|by rewrite lookup_empty in Hk].
      destruct (last (Mem.step_items m)) as [[j c]|] eqn:E; simpl in *.
      * specialize (Hle j eq_refl). pose proof (Mem.step_items_last m j c E k x Hk). lia.
      * apply last_None in E. apply Mem.step_items_elem in Hk. rewrite E in Hk. by apply not_elem_of_nil in Hk.
    + by rewrite lookup_insert_ne by done.
Qed.
Next Obligation.
  intros now fuel s t _ _. simpl. split; [done|]. split; [done|]. unfold Mem.mem_blob, Mem.mem_latest. simpl. split.
  - intros t' n'. destruct (decide (t' = t)) as [->|Ht]; [by rewrite lookup_delete_eq|by rewrite lookup_delete_ne].
  - intros t'. destruct (decide (t' = t)) as [->|Ht]; [by rewrite lookup_delete_eq|by rewrite lookup_delete_ne].
Qed.

(** ** The StoreOps adapter (state = the session) *)

Definition meta_key (thread suffix : string) : string := "checkpoint_meta:" +:+ thread +:+ ":" +:+ suffix.
Definition events_key (thread suffix : string) : string := "graph_events:" +:+ thread +:+ ":" +:+ suffix.

(** [s.find(' ')] splits the stored "<timestamp> <metadata>". *)
Definition split_meta (text : string) : string * string :=
  match find_bytes [chr 32] (bytes text) with
  | Some i => (of_bytes (take i (bytes text)), of_bytes (drop (S i) (bytes text)))
  | None => (text, "")
  end.

Section Store.
Context {W : Type} `{Host W} `{JsonParser}.

(** An empty value reads as missing. *)
Definition store_get_nonempty (key : string) : M W (Result string) :=
  got ← retrieve_memory key;
  mret (match got with
        | Ok v => if is_empty v then fail KeyNotFound ("Key not found: " +:+ key) else Ok v
        | Fail e => Fail e
        end).

(** Stores run one after another, up to the first that fails. *)
Fixpoint store_all (puts : list (string * string)) : M W (Result unit) :=
  match puts with
  | [] => mret (Ok tt)
  | (k, v) :: rest =>
      r ← store_memory k v;
      match r with Ok _ => store_all rest | Fail e => mret (Fail e) end
  end.

Definition store_put (t : string) (n : Z) (b meta : string) : M W (Result unit) :=
  let step_str := to_string n in
  r ← store_all [(checkpoint_key t step_str, b); (checkpoint_key t "latest", b)];
  match r with
  | Fail e => mret (Fail e)
  | Ok _ =>
      now ← host now_ms;
      store_all [(meta_key t step_str, to_string now +:+ " " +:+ meta); (meta_key t "latest", step_str)]
  end.

Definition store_get_latest (t : string) : M W (Result string) :=
  got ← store_get_nonempty (checkpoint_key t "latest");
  mret (match got with
        | Fail e => if bool_decide (code e = KeyNotFound) then no_checkpoint t else Fail e
        | Ok v => Ok v
        end).

Definition store_get (t : string) (n : Z) : M W (Result string) :=
  store_get_nonempty (checkpoint_key t (to_string n)).

Definition store_latest_step (t : string) : M W (Result Z) :=
  got ← store_get_nonempty (meta_key t "latest");
  mret (match got with
        | Fail e => Fail e
        | Ok v =>
            match from_chars_u64 v with
            | Some n => Ok n
            | None => fail ParseError ("checkpoint index of thread '" +:+ t +:+ "' is corrupt")
            end
        end).

(** [for (uint64_t step = n; step <= latest; ++step)], the counter wrapping
    around; [None] when the rounds are used up before the loop ended. *)
Fixpoint list_steps (fuel : nat) (latest n : Z) (t : string) (out : list GraphCheckpointInfo) :
    M W (option (Result (list GraphCheckpointInfo))) :=
  if (latest <? n)%Z then mret (Some (Ok out))
  else
    match fuel with
    | O => mret None
    | S fuel' =>
        meta ← store_get_nonempty (meta_key t (to_string n));
        match meta with
        | Fail e =>
            if bool_decide (code e = KeyNotFound) then list_steps fuel' latest (u64 (n + 1)) t out else mret (Some (Fail e))
        | Ok text =>
            let '(stamp, md) := split_meta text in
            list_steps fuel' latest (u64 (n + 1)) t (out ++ [mkGraphCheckpointInfo n (default 0%Z (from_chars_i64 stamp)) md])
        end
    end.

Definition store_list (fuel : nat) (t : string) : M W (option (Result (list GraphCheckpointInfo))) :=
  l ← store_latest_step t;
  match l with
  | Fail e => mret (Some (if bool_decide (code e = KeyNotFound) then Ok [] else Fail e))
  | Ok n => list_steps fuel n 0 t []
  end.

Definition store_event_batches (t : string) : M W (Result Z) :=
  c ← store_get_nonempty (events_key t "count");
  mret (match c with
        | Fail e => if bool_decide (code e = KeyNotFound) then Ok 0%Z else Fail e
        | Ok v => Ok (default 0%Z (from_chars_u64 v))
        end).

Definition store_append_events (t : string) (es : list GraphEvent) : M W (Result unit) :=
  n ← store_event_batches t;
  match n with
  | Fail e => mret (Fail e)
  | Ok k => store_all [(events_key t (to_string k), encode_events es); (events_key t "count", to_string (u64 (k + 1)))]
  end.

Fixpoint list_batches (count : nat) (i : Z) (t : string) (out : list GraphEvent) : M W (Result (list GraphEvent)) :=
  match count with
  | O => mret (Ok out)
  | S c =>
      batch ← retrieve_memory (events_key t (to_string i));
      match batch with
      | Fail e => mret (Fail e)
      | Ok text =>
          match decode_events text out with
          | Fail e => mret (Fail e)
          | Ok out' => list_batches c (i + 1) t out'
          end
      end
  end.

Definition store_list_events (t : string) : M W (Result (list GraphEvent)) :=
  n ← store_event_batches t;
  match n with
  | Fail e => mret (Fail e)
  | Ok k => list_batches (Z.to_nat k) 0 t []
  end.

(** The same loop in [store_delete_thread]. *)
Fixpoint delete_steps (fuel : nat) (latest n : Z) (t : string) : M W (option (Result unit)) :=
  if (latest <? n)%Z then mret (Some (Ok tt))
  else
    match fuel with
    | O => mret None
    | S fuel' =>
        meta ← store_get_nonempty (meta_key t (to_string n));
        match meta with
        | Fail _ => delete_steps fuel' latest (u64 (n + 1)) t
        | Ok _ =>
            r ← store_all [(meta_key t (to_string n), ""); (checkpoint_key t (to_string n), "")];
            match r with Fail e => mret (Some (Fail e)) | Ok _ => delete_steps fuel' latest (u64 (n + 1)) t end
        end
    end.

Definition store_delete_events (t : string) : M W (Result unit) :=
  c ← store_get_nonempty (events_key t "count");
  match c with
  | Ok _ => store_memory (events_key t "count") ""
  | Fail _ => mret (Ok tt)
  end.

Definition store_delete_steps (fuel : nat) (t : string) : M W (option (Result unit)) :=
  l ← store_latest_step t;
  match l with
  | Ok n =>
      r ← delete_steps fuel n 0 t;
      match r with
      | None => mret None
      | Some (Fail e) => mret (Some (Fail e))
      | Some (Ok _) => put ← store_memory (meta_key t "latest") ""; mret (Some put)
      end
  | Fail e => mret (Some (if bool_decide (code e = KeyNotFound) then Ok tt else Fail e))
  end.

Definition store_delete_thread (fuel : nat) (t : string) : M W (option (Result unit)) :=
  r1 ← store_delete_events t;
  match r1 with
  | Fail e => mret (Some (Fail e))
  | Ok _ =>
      r2 ← store_delete_steps fuel t;
      match r2 with
      | None => mret None
      | Some (Fail e) => mret (Some (Fail e))
      | Some (Ok _) =>
          l ← retrieve_memory (checkpoint_key t "latest");
          match l with
          | Ok _ => put ← store_memory (checkpoint_key t "latest") ""; mret (Some put)
          | Fail _ => mret (Some (Ok tt))
          end
      end
  end.

Definition kStoreCheckpointer : Backend (Rt W) :=
  mkBackend true store_put store_get_latest store_get store_list store_delete_thread store_append_events store_list_events.

End Store.

(** ** The keys of the adapter do not collide *)

Definition colon_free (s : string) : Prop := chr 58 ∉ bytes s.

Lemma scan_all_digits (l : list Ascii.ascii) (acc v : Z) :
  scan_digits acc l = (v, []) → Forall (λ c, digit_value c ≠ None) l.
Proof.
  revert acc. induction l as [|c l IH]; intros acc; simpl; [constructor|].
  destruct (digit_value c) eqn:E; [|done]. intros Hs. constructor; [congruence|by eapply IH].
Qed.

Lemma pretty_colon_free (x : N) : chr 58 ∉ bytes (pretty x).
Proof.
  intros Hin. destruct (pretty_N_scan x []) as [Hs _]. rewrite app_nil_r in Hs. simpl in Hs.
  apply scan_all_digits in Hs. rewrite Forall_forall in Hs. by apply Hs in Hin.
Qed.

Lemma to_string_colon_free (z : Z) : colon_free (to_string z).
Proof.
  unfold colon_free. destruct (Z.ltb_spec z 0).
  - rewrite to_string_neg, bytes_app by done. intros [Hin|Hin]%elem_of_app; [|by apply pretty_colon_free in Hin].
    apply list_elem_of_singleton in Hin. done.
  - rewrite to_string_nonneg by done. apply pretty_colon_free.
Qed.

Lemma latest_colon_free : colon_free "latest".
Proof. unfold colon_free. simpl. rewrite !not_elem_of_cons. split_and!; try done. apply not_elem_of_nil. Qed.

Lemma last_colon (c : Ascii.ascii) (t t' s s' : list Ascii.ascii) :
  c ∉ s → c ∉ s' → t ++ c :: s = t' ++ c :: s' → t = t' ∧ s = s'.
Proof.
  intros Hs Hs' [(k & -> & E)|(k & -> & E)]%app_eq_inv.
  - destruct k as [|x k]; simplify_eq/=; [by rewrite app_nil_r|]. set_solver.
  - destruct k as [|x k]; simplify_eq/=; [by rewrite app_nil_r|]. set_solver.
Qed.

Lemma key_inj (prefix t t' s s' : string) :
  colon_free s → colon_free s' → prefix +:+ t +:+ ":" +:+ s = prefix +:+ t' +:+ ":" +:+ s' → t = t' ∧ s = s'.
Proof.
  intros Hs Hs' E%append_inj_l. apply (f_equal bytes) in E. rewrite !bytes_app in E.
  apply (last_colon (chr 58)) in E as [E1 E2]; [|done|done]. split; by apply bytes_inj.
Qed.

Lemma checkpoint_key_inj t t' s s' :
  colon_free s → colon_free s' → checkpoint_key t s = checkpoint_key t' s' → t = t' ∧ s = s'.
Proof. apply key_inj. Qed.

Lemma meta_key_inj t t' s s' :
  colon_free s → colon_free s' → meta_key t s = meta_key t' s' → t = t' ∧ s = s'.
Proof. apply key_inj. Qed.

Lemma checkpoint_meta_ne t t' s s' : checkpoint_key t s ≠ meta_key t' s'.
Proof. discriminate. Qed.

Lemma latest_not_step (z : Z) : "latest" ≠ to_string z.
Proof.
  intros E. destruct (Z.ltb_spec z 0).
  - rewrite to_string_neg in E by done. discriminate.
  - rewrite to_string_nonneg in E by done. destruct (pretty_N_scan (Z.to_N z) []) as [_ Hd].
    rewrite app_nil_r, <-E in Hd. done.
Qed.

#[export] Hint Resolve to_string_colon_free latest_colon_free latest_not_step checkpoint_meta_ne : agent.

(** Two keys of the adapter differ. *)
Ltac key_ne :=
  let E := fresh in
  intros E;
  first
    [ by apply checkpoint_meta_ne in E
    | symmetry in E; by apply checkpoint_meta_ne in E
    | first [apply checkpoint_key_inj in E as [? E] | apply meta_key_inj in E as [? E]]; auto with agent;
      first [ by apply latest_not_step in E | symmetry in E; by apply latest_not_step in E
            | by apply to_string_inj in E | congruence ] ].

(** ** What the store holds of a thread *)

(** A value the adapter reads: present and not empty. *)
Definition nz (o : option string) : option string :=
  match o with Some s => if is_empty s then None else Some s | None => None end.

Definition valid_step (n : Z) : bool := ((0 <=? n) && (n <? u64_modulus))%Z.

Definition kv_blob (kv : gmap string string) (t : string) (n : Z) : option string :=
  if valid_step n then nz (kv !! checkpoint_key t (to_string n)) else None.

Definition kv_meta (kv : gmap string string) (t : string) (n : Z) : option string :=
  nz (kv !! meta_key t (to_string n)).

Definition kv_latest (kv : gmap string string) (t : string) : option Z :=
  nz (kv !! meta_key t "latest") ≫= from_chars_u64.

(** The two indexes agree, and bound the stored steps. *)
Definition thread_ok (kv : gmap string string) (t : string) : Prop :=
  (∀ n, valid_step n = true → (is_Some (kv_blob kv t n) ↔ is_Some (kv_meta kv t n))) ∧
  match nz (kv !! meta_key t "latest") with
  | None => nz (kv !! checkpoint_key t "latest") = None ∧ ∀ n, kv_blob kv t n = None
  | Some txt => ∃ n b, valid_step n = true ∧ txt = to_string n ∧ kv_blob kv t n = Some b ∧
      nz (kv !! checkpoint_key t "latest") = Some b ∧ ∀ k, is_Some (kv_blob kv t k) → (k ≤ n)%Z
  end.

Lemma valid_step_range n : valid_step n = true ↔ (0 ≤ n < u64_modulus)%Z.
Proof. unfold valid_step. rewrite andb_true_iff, Z.leb_le, Z.ltb_lt. done. Qed.

Lemma from_chars_step n : valid_step n = true → from_chars_u64 (to_string n) = Some n.
Proof.
  intros Hn%valid_step_range. apply from_chars_to_string; [done|]. unfold u64_modulus in Hn. lia.
Qed.

Lemma nz_some (s : string) : s ≠ "" → nz (Some s) = Some s.
Proof. intros Hs. simpl. apply is_empty_false in Hs. by rewrite Hs. Qed.

Lemma kv_latest_spec kv t :
  thread_ok kv t →
  match kv_latest kv t with
  | Some n => valid_step n = true ∧ ∃ b, kv_blob kv t n = Some b ∧ nz (kv !! checkpoint_key t "latest") = Some b ∧
      nz (kv !! meta_key t "latest") = Some (to_string n) ∧ ∀ k, is_Some (kv_blob kv t k) → (k ≤ n)%Z
  | None => nz (kv !! meta_key t "latest") = None ∧ nz (kv !! checkpoint_key t "latest") = None ∧
      ∀ n, kv_blob kv t n = None
  end.
Proof.
  intros [_ Ht]. unfold kv_latest. destruct (nz (kv !! meta_key t "latest")) as [txt|]; simpl; [|by destruct Ht].
  destruct Ht as (n & b & Hn & -> & Hb & Hl & Hk). rewrite from_chars_step by done. split; [done|]. by exists b.
Qed.

(** Only the keys of a thread matter for it. *)
Definition same_thread (kv kv' : gmap string string) (t : string) : Prop :=
  ∀ s, colon_free s → kv' !! checkpoint_key t s = kv !! checkpoint_key t s ∧ kv' !! meta_key t s = kv !! meta_key t s.

Lemma same_blob kv kv' t n : same_thread kv kv' t → kv_blob kv' t n = kv_blob kv t n.
Proof. intros Hs. unfold kv_blob. by destruct (Hs (to_string n) (to_string_colon_free n)) as [-> _]. Qed.

Lemma same_meta kv kv' t n : same_thread kv kv' t → kv_meta kv' t n = kv_meta kv t n.
Proof. intros Hs. unfold kv_meta. by destruct (Hs (to_string n) (to_string_colon_free n)) as [_ ->]. Qed.

Lemma same_latest kv kv' t : same_thread kv kv' t → kv_latest kv' t = kv_latest kv t.
Proof. intros Hs. unfold kv_latest. by destruct (Hs "latest" latest_colon_free) as [_ ->]. Qed.

Lemma same_ok kv kv' t : same_thread kv kv' t → thread_ok kv t → thread_ok kv' t.
Proof.
  intros Hs [H1 H2]. destruct (Hs "latest" latest_colon_free) as [E1 E2]. split.
  - intros n Hn. rewrite (same_blob kv kv') , (same_meta kv kv') by done. by apply H1.
  - rewrite E1, E2. destruct (nz (kv !! meta_key t "latest")).
    + destruct H2 as (n & b & ? & ? & Hb & ? & Hk). exists n, b. rewrite (same_blob kv kv') by done.
      split_and!; try done. intros k. rewrite (same_blob kv kv') by done. apply Hk.
    + destruct H2 as [? Hb]. split; [done|]. intros n. by rewrite (same_blob kv kv').
Qed.

Lemma same_thread_insert_checkpoint kv t t' s v :
  colon_free s → t ≠ t' → same_thread kv (<[checkpoint_key t s := v]> kv) t'.
Proof.
  intros Hs Ht s' Hs'. rewrite !lookup_insert_ne; [done| |].
  - apply checkpoint_meta_ne.
  - intros E. by apply checkpoint_key_inj in E as [? _].
Qed.

Lemma same_thread_insert_meta kv t t' s v :
  colon_free s → t ≠ t' → same_thread kv (<[meta_key t s := v]> kv) t'.
Proof.
  intros Hs Ht s' Hs'. rewrite !lookup_insert_ne; [done| |].
  - intros E. by apply meta_key_inj in E as [? _].
  - intros E. symmetry in E. by apply checkpoint_meta_ne in E.
Qed.

Lemma same_thread_trans kv1 kv2 kv3 t : same_thread kv1 kv2 t → same_thread kv2 kv3 t → same_thread kv1 kv3 t.
Proof. intros H1 H2 s Hs. destruct (H1 s Hs), (H2 s Hs). split; congruence. Qed.

(** The effect of [store_put]. *)
Definition kv_put (kv : gmap string string) (t : string) (n : Z) (b meta : string) : gmap string string :=
  <[meta_key t "latest" := to_string n]> (<[meta_key t (to_string n) := meta]>
    (<[checkpoint_key t "latest" := b]> (<[checkpoint_key t (to_string n) := b]> kv))).

Lemma kv_put_other kv t n b meta t' : t ≠ t' → same_thread kv (kv_put kv t n b meta) t'.
Proof.
  intros Ht. unfold kv_put.
  eapply same_thread_trans; [apply (same_thread_insert_checkpoint _ t t' (to_string n) b); eauto with agent|].
  eapply same_thread_trans; [apply (same_thread_insert_checkpoint _ t t' "latest" b); eauto with agent|].
  eapply same_thread_trans; [apply (same_thread_insert_meta _ t t' (to_string n) meta); eauto with agent|].
  apply same_thread_insert_meta; eauto with agent.
Qed.

(** Lookups in the store after a put of the same thread. *)
Lemma kv_put_checkpoint kv t n b meta k :
  kv_put kv t n b meta !! checkpoint_key t (to_string k) =
    if decide (k = n) then Some b else kv !! checkpoint_key t (to_string k).
Proof.
  unfold kv_put. rewrite !(lookup_insert_ne _ (meta_key _ _)) by key_ne.
  rewrite lookup_insert_ne.
  2:{ intros E. apply checkpoint_key_inj in E as [_ E]; eauto with agent. by apply latest_not_step in E. }
  destruct (decide (k = n)) as [->|Hne]; [apply lookup_insert_eq|]. apply lookup_insert_ne.
  intros E. apply checkpoint_key_inj in E as [_ E]; eauto with agent. by apply to_string_inj in E.
Qed.

Lemma kv_put_meta kv t n b meta k :
  kv_put kv t n b meta !! meta_key t (to_string k) = if decide (k = n) then Some meta else kv !! meta_key t (to_string k).
Proof.
  unfold kv_put. rewrite lookup_insert_ne.
  2:{ intros E. apply meta_key_inj in E as [_ E]; eauto with agent. by apply latest_not_step in E. }
  destruct (decide (k = n)) as [->|Hne]; [apply lookup_insert_eq|]. rewrite lookup_insert_ne.
  2:{ intros E. apply meta_key_inj in E as [_ E]; eauto with agent. by apply to_string_inj in E. }
  by rewrite !lookup_insert_ne by apply checkpoint_meta_ne.
Qed.

Lemma kv_put_latest kv t n b meta :
  kv_put kv t n b meta !! meta_key t "latest" = Some (to_string n) ∧
  kv_put kv t n b meta !! checkpoint_key t "latest" = Some b.
Proof.
  unfold kv_put. split; [apply lookup_insert_eq|].
  rewrite !(lookup_insert_ne _ (meta_key _ _)) by key_ne.
  apply lookup_insert_eq.
Qed.

Lemma kv_put_blob kv t n b meta t' k :
  valid_step n = true → b ≠ "" →
  kv_blob (kv_put kv t n b meta) t' k = if decide (t' = t ∧ k = n) then Some b else kv_blob kv t' k.
Proof.
  intros Hn Hb. destruct (decide (t' = t)) as [->|Ht].
  - unfold kv_blob. rewrite kv_put_checkpoint. destruct (decide (k = n)) as [->|Hne].
    + rewrite Hn, nz_some by done. by rewrite decide_True.
    + by rewrite decide_False by naive_solver.
  - rewrite (same_blob kv) by by apply kv_put_other. by rewrite decide_False by naive_solver.
Qed.

Lemma kv_put_ok kv t n b meta :
  thread_ok kv t → valid_step n = true → b ≠ "" → meta ≠ "" → (∀ k, kv_latest kv t = Some k → k ≤ n)%Z →
  thread_ok (kv_put kv t n b meta) t.
Proof.
  intros Hok Hn Hb Hm Hle. pose proof (kv_latest_spec kv t Hok) as Hlat. destruct Hok as [Hidx _].
  destruct (kv_put_latest kv t n b meta) as [E1 E2]. split.
  - intros k Hk. rewrite kv_put_blob by done. unfold kv_meta. rewrite kv_put_meta.
    destruct (decide (k = n)) as [->|Hne].
    + rewrite decide_True, nz_some by done. split; by eexists.
    + rewrite decide_False by naive_solver. by apply Hidx.
  - rewrite E1, E2, (nz_some (to_string n)) by apply to_string_nonempty. exists n, b.
    rewrite kv_put_blob, decide_True, nz_some by done. split_and!; try done.
    intros k. rewrite kv_put_blob by done. destruct (decide (t = t ∧ k = n)) as [[_ ->]|Hne]; [lia|]. intros Hk.
    destruct (kv_latest kv t) as [j|] eqn:Ej.
    + destruct Hlat as (_ & b' & _ & _ & _ & Hmax). specialize (Hmax k Hk). specialize (Hle j eq_refl). lia.
    + destruct Hlat as (_ & _ & Hnone). rewrite Hnone in Hk. by destruct Hk.
Qed.

(** ** Running the adapter on the built-in store *)

Section StoreRun.
Context {W : Type} `{Host W} `{JsonParser}.
Implicit Types (rt : Rt W).

Lemma store_all_ok (puts : list (string * string)) rt kv :
  in_memory rt kv → ∃ rt', store_all puts rt = (rt', Ok tt) ∧ in_memory rt' (insert_all puts kv).
Proof.
  revert rt kv. induction puts as [|[k v] puts IH]; intros rt kv Hin; [by exists rt|].
  cbn [store_all]. unfold mbind, M_bind. destruct (store_in_memory rt kv k v Hin) as [-> Hin1]. by apply IH.
Qed.

Lemma get_nonempty_ok key rt kv :
  in_memory rt kv →
  store_get_nonempty key rt =
    (rt, match nz (kv !! key) with Some v => Ok v | None => fail KeyNotFound ("Key not found: " +:+ key) end).
Proof.
  intros Hin. unfold store_get_nonempty, mbind, M_bind. rewrite (retrieve_in_memory rt kv key Hin).
  unfold mret, M_ret, get_in_memory, nz. destruct (kv !! key) as [v|]; [|done]. by destruct (is_empty v).
Qed.

Lemma host_in_memory {A} (f : W → W * A) rt kv : in_memory rt kv → in_memory (host f rt).1 kv.
Proof. intros Hin. unfold host. by destruct (f (rt_world rt)). Qed.

Lemma store_put_ok t n b meta rt kv :
  in_memory rt kv →
  ∃ rt' m, store_put t n b meta rt = (rt', Ok tt) ∧ m ≠ "" ∧ in_memory rt' (kv_put kv t n b m).
Proof.
  intros Hin. unfold store_put, mbind, M_bind.
  destruct (store_all_ok [(checkpoint_key t (to_string n), b); (checkpoint_key t "latest", b)] rt kv Hin)
    as (rt1 & -> & Hin1).
  apply (host_in_memory now_ms) in Hin1. destruct (host now_ms rt1) as [rt2 now]. simpl in Hin1.
  destruct (store_all_ok [(meta_key t (to_string n), to_string now +:+ " " +:+ meta); (meta_key t "latest", to_string n)]
              rt2 _ Hin1) as (rt3 & -> & Hin3).
  exists rt3, (to_string now +:+ " " +:+ meta). split; [done|]. split; [|exact Hin3].
  intros E. apply (f_equal bytes) in E. rewrite bytes_app in E. apply app_eq_nil in E as [E _].
  apply (to_string_nonempty now), bytes_inj. done.
Qed.

(** [kv'] is [kv] with the steps of [t] that satisfy [p] emptied. *)
Definition emptied (p : Z → bool) (t : string) (kv kv' : gmap string string) : Prop :=
  (∀ t', t' ≠ t → same_thread kv kv' t') ∧
  kv' !! meta_key t "latest" = kv !! meta_key t "latest" ∧
  kv' !! checkpoint_key t "latest" = kv !! checkpoint_key t "latest" ∧
  (∀ k, if p k then kv_meta kv' t k = None ∧
                    (is_Some (kv_meta kv t k) → nz (kv' !! checkpoint_key t (to_string k)) = None) ∧
                    (kv_meta kv t k = None → kv' !! checkpoint_key t (to_string k) = kv !! checkpoint_key t (to_string k))
        else kv' !! meta_key t (to_string k) = kv !! meta_key t (to_string k) ∧
             kv' !! checkpoint_key t (to_string k) = kv !! checkpoint_key t (to_string k)).

Lemma emptied_step n t kv :
  is_Some (kv_meta kv t n) →
  emptied (λ k, (k =? n)%Z) t kv
    (insert_all [(meta_key t (to_string n), ""); (checkpoint_key t (to_string n), "")] kv).
Proof.
  intros [m Hm]. unfold insert_all. simpl. split_and!.
  - intros t' Ht. eapply same_thread_trans.
    + apply (same_thread_insert_meta kv t t' (to_string n) ""); eauto with agent.
    + apply same_thread_insert_checkpoint; eauto with agent.
  - by rewrite !lookup_insert_ne by key_ne.
  - by rewrite !lookup_insert_ne by key_ne.
  - intros k. destruct (Z.eqb_spec k n) as [->|Hne].
    + unfold kv_meta in *. rewrite (lookup_insert_ne _ (checkpoint_key _ _)) by key_ne.
      rewrite !lookup_insert_eq. split; [done|]. split; [done|]. congruence.
    + by rewrite !lookup_insert_ne by key_ne.
Qed.

Lemma emptied_skip n t kv : kv_meta kv t n = None → emptied (λ k, (k =? n)%Z) t kv kv.
Proof.
  intros Hm. split_and!; try done. intros k. destruct (Z.eqb_spec k n) as [->|]; [|done].
  rewrite Hm. by split_and!.
Qed.

Lemma emptied_join p1 p2 p t kv kv1 kv2 :
  emptied p1 t kv kv1 → emptied p2 t kv1 kv2 → (∀ k, p k = p1 k || p2 k) → (∀ k, p1 k = true → p2 k = false) →
  emptied p t kv kv2.
Proof.
  intros (A1 & A2 & A3 & A4) (B1 & B2 & B3 & B4) Hp Hd. split_and!.
  - intros t' Ht. eapply same_thread_trans; eauto.
  - congruence.
  - congruence.
  - intros k. specialize (A4 k). specialize (B4 k). rewrite Hp. specialize (Hd k).
    destruct (p1 k) eqn:E1; simpl.
    + rewrite Hd in B4 by done. destruct B4 as [E F]. unfold kv_meta in *. by rewrite E, F.
    + destruct A4 as [E F]. destruct (p2 k); [|destruct B4; split; congruence].
      unfold kv_meta in *. rewrite E in B4. by rewrite <-F.
Qed.

Lemma delete_steps_ok fuel last n t rt kv :
  in_memory rt kv → (0 ≤ n)%Z → (last < u64_modulus - 1)%Z → (last - n < Z.of_nat fuel)%Z →
  ∃ rt' kv', delete_steps fuel last n t rt = (rt', Some (Ok tt)) ∧ in_memory rt' kv' ∧
    emptied (λ k, (n <=? k) && (k <=? last))%Z t kv kv'.
Proof.
  revert n rt kv. induction fuel as [|c IH]; intros n rt kv Hin Hn Hlast Hf; cbn [delete_steps].
  all: destruct (Z.ltb_spec last n) as [Hl|Hl]; [|try lia].
  1,2: exists rt, kv; split; [done|]; split; [done|]; split_and!; try done; intros k;
    destruct (Z.leb_spec n k), (Z.leb_spec k last); simpl; try done; lia.
  unfold mbind, M_bind. rewrite (get_nonempty_ok _ rt kv Hin). rewrite u64_small by (unfold u64_modulus in *; lia).
  assert (Hsplit : ∀ k, ((n <=? k) && (k <=? last))%Z = (k =? n)%Z || ((n + 1 <=? k) && (k <=? last))%Z).
  { intros k. destruct (Z.eqb_spec k n), (Z.leb_spec n k), (Z.leb_spec (n + 1) k), (Z.leb_spec k last); simpl; try done; lia. }
  assert (Hdis : ∀ k, (k =? n)%Z = true → ((n + 1 <=? k) && (k <=? last))%Z = false).
  { intros k ->%Z.eqb_eq. by destruct (Z.leb_spec (n + 1) n); [lia|]. }
  destruct (nz (kv !! meta_key t (to_string n))) as [m|] eqn:Em.
  - destruct (store_all_ok [(meta_key t (to_string n), ""); (checkpoint_key t (to_string n), "")] rt kv Hin)
      as (rt1 & -> & Hin1).
    destruct (IH (n + 1)%Z rt1 _ Hin1) as (rt2 & kv2 & Hr & Hin2 & He); [lia..|]. exists rt2, kv2. split_and!; try done.
    eapply emptied_join; [apply emptied_step; by exists m|exact He|done|done].
  - destruct (IH (n + 1)%Z rt kv Hin) as (rt2 & kv2 & Hr & Hin2 & He); [lia..|]. exists rt2, kv2. split_and!; try done.
    eapply emptied_join; [by apply emptied_skip|exact He|done|done].
Qed.

(** At the greatest step number the counter wraps before the loop can end. *)
Lemma delete_steps_diverge fuel n t rt kv :
  in_memory rt kv → (0 ≤ n < u64_modulus)%Z → (delete_steps fuel (u64_modulus - 1) n t rt).2 = None.
Proof.
  revert n rt kv. induction fuel as [|c IH]; intros n rt kv Hin Hn; cbn [delete_steps].
  all: destruct (Z.ltb_spec (u64_modulus - 1) n); [lia|].
  { done. }
  unfold mbind, M_bind. rewrite (get_nonempty_ok _ rt kv Hin). pose proof (u64_range (n + 1)) as Hr.
  destruct (nz (kv !! meta_key t (to_string n))) as [m|]; [|by eapply IH].
  destruct (store_all_ok [(meta_key t (to_string n), ""); (checkpoint_key t (to_string n), "")] rt kv Hin) as (rt1 & -> & Hin1).
  by eapply IH.
Qed.

(** Deleting the steps of a well-formed thread. *)
Lemma delete_all_steps fuel t rt kv :
  in_memory rt kv → thread_ok kv t → (∀ k, kv_latest kv t = Some k → k < u64_modulus - 1 ∧ k < Z.of_nat fuel)%Z →
  ∃ rt' kv', store_delete_steps fuel t rt = (rt', Some (Ok tt)) ∧ in_memory rt' kv' ∧
    (∀ t', t' ≠ t → same_thread kv kv' t') ∧ nz (kv' !! meta_key t "latest") = None ∧
    (∀ k, valid_step k = true → kv_blob kv' t k = None ∧ kv_meta kv' t k = None) ∧
    kv' !! checkpoint_key t "latest" = kv !! checkpoint_key t "latest".
Proof.
  intros Hin Hok Hfuel. pose proof (kv_latest_spec kv t Hok) as Hlat. destruct Hok as [Hidx _].
  unfold store_delete_steps, store_latest_step, mbind, M_bind. rewrite (get_nonempty_ok _ rt kv Hin).
  unfold mret, M_ret. destruct (kv_latest kv t) as [n|].
  - destruct Hlat as (Hn & b & Hb & Hl & Hmeta & Hmax). rewrite Hmeta, from_chars_step by done.
    destruct (Hfuel n eq_refl) as [Hmod Hf].
    destruct (delete_steps_ok fuel n 0 t rt kv Hin) as (rt1 & kv1 & -> & Hin1 & He1 & He2 & He3 & He4); [lia..|].
    destruct (store_in_memory rt1 kv1 (meta_key t "latest") "" Hin1) as [-> Hin2].
    eexists _, _. split; [done|]. split; [exact Hin2|]. split_and!.
    + intros t' Ht. eapply same_thread_trans; [by apply He1|]. apply same_thread_insert_meta; eauto with agent.
    + by rewrite lookup_insert_eq.
    + intros k Hk. unfold kv_blob, kv_meta. rewrite Hk.
      rewrite (lookup_insert_ne _ _ (checkpoint_key _ _)) by key_ne.
      rewrite lookup_insert_ne by key_ne.
      specialize (He4 k). specialize (Hidx k Hk). specialize (Hmax k). apply valid_step_range in Hk as Hk'.
      apply valid_step_range in Hn. unfold kv_blob in Hidx, Hmax. rewrite Hk in Hidx, Hmax. unfold kv_meta in *.
      destruct (Z.leb_spec 0 k); [|lia]. simpl in He4.
      destruct (Z.leb_spec k n).
      * destruct He4 as (E1 & E2 & E3). split; [|done].
        destruct (nz (kv !! meta_key t (to_string k))) as [x|] eqn:Ex; [by apply E2|].
        rewrite E3 by done. destruct (nz (kv !! checkpoint_key t (to_string k))); [|done].
        destruct Hidx as [Hidx _]. by destruct (Hidx ltac:(by eexists)).
      * destruct He4 as [E1 E2]. rewrite E1, E2. destruct (nz (kv !! checkpoint_key t (to_string k))) eqn:Ec.
        { specialize (Hmax ltac:(by eexists)). lia. }
        split; [done|]. destruct (nz (kv !! meta_key t (to_string k))); [|done].
        destruct Hidx as [_ Hidx]. by destruct (Hidx ltac:(by eexists)).
    + rewrite lookup_insert_ne by key_ne. done.
  - destruct Hlat as (Hmeta & Hl & Hnone). rewrite Hmeta. simpl. exists rt, kv. split_and!; try done.
    intros k Hk. split; [done|]. specialize (Hidx k Hk). rewrite Hnone in Hidx.
    destruct (kv_meta kv t k); [|done]. destruct Hidx as [_ Hidx]. by destruct (Hidx ltac:(by eexists)).
Qed.

Lemma events_same_thread kv t t' v : same_thread kv (<[events_key t "count" := v]> kv) t'.
Proof. intros s _. rewrite !lookup_insert_ne by discriminate. done. Qed.

Lemma delete_events_ok t rt kv :
  in_memory rt kv →
  ∃ rt' kv', store_delete_events t rt = (rt', Ok tt) ∧ in_memory rt' kv' ∧ (∀ t', same_thread kv kv' t').
Proof.
  intros Hin. unfold store_delete_events, mbind, M_bind. rewrite (get_nonempty_ok _ rt kv Hin).
  destruct (nz (kv !! events_key t "count")).
  - destruct (store_in_memory rt kv (events_key t "count") "" Hin) as [-> Hin1].
    eexists _, _. split; [done|]. split; [exact Hin1|]. intros t'. apply events_same_thread.
  - by exists rt, kv.
Qed.

Lemma store_delete_ok fuel t rt kv :
  in_memory rt kv → (∀ t', thread_ok kv t') → (∀ k, kv_latest kv t = Some k → k < u64_modulus - 1 ∧ k < Z.of_nat fuel)%Z →
  ∃ rt' kv', store_delete_thread fuel t rt = (rt', Some (Ok tt)) ∧ in_memory rt' kv' ∧
    (∀ t', t' ≠ t → same_thread kv kv' t') ∧ thread_ok kv' t ∧ (∀ k, kv_blob kv' t k = None) ∧ kv_latest kv' t = None.
Proof.
  intros Hin Hok Hfuel. unfold store_delete_thread, mbind, M_bind.
  destruct (delete_events_ok t rt kv Hin) as (rt1 & kv1 & -> & Hin1 & Hs1).
  rewrite <- (same_latest kv kv1 t (Hs1 t)) in Hfuel.
  destruct (delete_all_steps fuel t rt1 kv1 Hin1 (same_ok kv kv1 t (Hs1 t) (Hok t)) Hfuel)
    as (rt2 & kv2 & -> & Hin2 & Hs2 & Hm2 & Hz2 & Hl2).
  rewrite (retrieve_in_memory rt2 kv2 _ Hin2). unfold get_in_memory.
  assert (Hgen : ∀ rt3 kv3, in_memory rt3 kv3 → (∀ t', t' ≠ t → same_thread kv2 kv3 t') →
            nz (kv3 !! checkpoint_key t "latest") = None → (∀ s, kv3 !! meta_key t s = kv2 !! meta_key t s) →
            (∀ k, kv3 !! checkpoint_key t (to_string k) = kv2 !! checkpoint_key t (to_string k)) →
            (∀ t', t' ≠ t → same_thread kv kv3 t') ∧ thread_ok kv3 t ∧ (∀ k, kv_blob kv3 t k = None) ∧
            kv_latest kv3 t = None).
  { intros rt3 kv3 Hin3 Hs3 Hl3 Hmk Hck.
    assert (Hb3 : ∀ k, kv_blob kv3 t k = None).
    { intros k. unfold kv_blob. destruct (valid_step k) eqn:Ek; [|done]. rewrite Hck.
      destruct (Hz2 k Ek) as [Hb _]. unfold kv_blob in Hb. by rewrite Ek in Hb. }
    split_and!; [| |done|unfold kv_latest; by rewrite Hmk, Hm2].
    - intros t' Ht. eapply same_thread_trans; [apply Hs1|]. eapply same_thread_trans; [by apply Hs2|by apply Hs3].
    - split.
      + intros k Hk. rewrite Hb3. unfold kv_meta. rewrite Hmk. destruct (Hz2 k Hk) as [_ Hmz].
        unfold kv_meta in Hmz. by rewrite Hmz.
      + rewrite Hmk, Hm2. by split. }
  destruct (kv2 !! checkpoint_key t "latest") as [v|] eqn:El.
  - destruct (store_in_memory rt2 kv2 (checkpoint_key t "latest") "" Hin2) as [-> Hin3].
    eexists _, _. split; [done|]. split; [exact Hin3|]. eapply Hgen; [exact Hin3| | | |].
    + intros t' Ht. apply same_thread_insert_checkpoint; eauto with agent.
    + by rewrite lookup_insert_eq.
    + intros s. apply lookup_insert_ne, checkpoint_meta_ne.
    + intros k. apply lookup_insert_ne. intros E. apply checkpoint_key_inj in E as [_ E]; eauto with agent.
      by apply latest_not_step in E.
  - eexists rt2, kv2. split; [done|]. split; [done|]. eapply Hgen; try done. by rewrite El.
Qed.

End StoreRun.

(** The store's content as the runtime sees it. *)
Definition rt_kv {W : Type} (rt : Rt W) : gmap string string := default ∅ (memory_state (rt_session rt)).

Lemma in_memory_kv {W : Type} (rt : Rt W) kv : in_memory rt kv → rt_kv rt = kv.
Proof. intros [E _]. unfold rt_kv. by rewrite E. Qed.

#[global] Program Instance Store_spec {W : Type} `{Host W} `{JsonParser} :
    BackendSpec (kStoreCheckpointer (W := W)) := {|
  inv rt := in_memory rt (rt_kv rt) ∧ ∀ t, thread_ok (rt_kv rt) t;
  blob_at rt t n := kv_blob (rt_kv rt) t n;
  latest rt t := kv_latest (rt_kv rt) t
|}.
Next Obligation.
  intros W HW HP rt t n [_ Hok] Hl. pose proof (kv_latest_spec _ t (Hok t)) as Hs. rewrite Hl in Hs.
  destruct Hs as (_ & b & Hb & _). by exists b.
Qed.
Next Obligation.
  intros W HW HP rt t n [Hin _] Hn. simpl. unfold store_get. rewrite (get_nonempty_ok _ rt _ Hin).
  split; [done|]. unfold kv_blob. apply valid_step_range in Hn. rewrite Hn.
  destruct (nz _); [done|]. by eexists.
Qed.
Next Obligation.
  intros W HW HP rt t [Hin Hok]. simpl. unfold store_get_latest, mbind, M_bind. rewrite (get_nonempty_ok _ rt _ Hin).
  split; [done|]. pose proof (kv_latest_spec _ t (Hok t)) as Hs.
  destruct (kv_latest (rt_kv rt) t) as [n|].
  - destruct Hs as (_ & b & Hb & Hl & _). exists b. by rewrite Hl.
  - destruct Hs as (_ & Hl & _). rewrite Hl. by eexists.
Qed.
Next Obligation.
  intros W HW HP rt t n b meta [Hin Hok] Hb Hn Hle. simpl. apply valid_step_range in Hn.
  destruct (store_put_ok t n b meta rt _ Hin) as (rt' & m & -> & Hm & Hin'). simpl.
  pose proof (in_memory_kv rt' _ Hin') as Ekv. rewrite Ekv. split; [done|]. split.
  - split; [done|]. intros t'. destruct (decide (t = t')) as [<-|Ht]; [by apply kv_put_ok|].
    eapply same_ok; [by apply kv_put_other|apply Hok].
  - split; [intros t' n'; by apply kv_put_blob|]. intros t'. destruct (decide (t' = t)) as [->|Ht].
    + unfold kv_latest. destruct (kv_put_latest (rt_kv rt) t n b m) as [-> _].
      rewrite nz_some by apply to_string_nonempty. simpl. by apply from_chars_step.
    + by apply same_latest, kv_put_other.
Qed.
Next Obligation.
  intros W HW HP fuel rt t [Hin Hok] Hfuel. simpl.
  destruct (store_delete_ok fuel t rt _ Hin Hok Hfuel) as (rt' & kv' & -> & Hin' & Hs & Hok' & Hb & Hl). simpl.
  rewrite (in_memory_kv rt' _ Hin'). split; [done|]. split.
  - split; [done|]. intros t'. destruct (decide (t' = t)) as [->|Ht]; [done|]. eapply same_ok; [by apply Hs|apply Hok].
  - split.
    + intros t' n'. destruct (decide (t' = t)) as [->|Ht]; [done|]. by apply same_blob, Hs.
    + intros t'. destruct (decide (t' = t)) as [->|Ht]; [done|]. by apply same_latest, Hs.
Qed.

(** ** Clients of the interface *)

Section Client.
Context {S : Type} (B : Backend S) `{Spec : !BackendSpec B}.

(** What a put makes visible, and what it leaves alone. *)
Lemma put_then_read s t n b meta :
  inv s → b ≠ "" → (0 ≤ n < u64_modulus)%Z → (∀ k, latest s t = Some k → k ≤ n)%Z →
  let s' := (b_put B t n b meta s).1 in
  inv s' ∧ (b_put B t n b meta s).2 = Ok tt ∧
  b_get_latest B t s' = (s', Ok b) ∧ b_get B t n s' = (s', Ok b) ∧
  (∀ t' k, (0 ≤ k < u64_modulus)%Z → (t', k) ≠ (t, n) → is_Some (blob_at s t' k) →
     (b_get B t' k s').2 = (b_get B t' k s).2).
Proof.
  intros Hi Hb Hn Hle. destruct (put_spec s t n b meta Hi Hb Hn Hle) as (Hok & Hi' & Hblob & Hlat).
  split; [done|]. split; [done|]. set (s' := (b_put B t n b meta s).1) in *.
  pose proof (get_latest_spec s' t Hi') as [E1 E2]. rewrite Hlat, decide_True in E2 by done.
  destruct E2 as (b' & Hb' & E2). rewrite Hblob, decide_True in Hb' by done. injection Hb' as ->.
  pose proof (get_spec s' t n Hi' Hn) as [F1 F2]. rewrite Hblob, decide_True in F2 by done.
  split; [by rewrite (surjective_pairing (b_get_latest B t s')), E1, E2|].
  split; [by rewrite (surjective_pairing (b_get B t n s')), F1, F2|].
  intros t' k Hk Hne [x Hx]. pose proof (get_spec s' t' k Hi' Hk) as [_ G].
  pose proof (get_spec s t' k Hi Hk) as [_ G']. rewrite Hblob, decide_False in G by naive_solver.
  rewrite Hx in G, G'. congruence.
Qed.

Lemma delete_then_read fuel s t :
  inv s → (∀ k, latest s t = Some k → k < u64_modulus - 1 ∧ k < Z.of_nat fuel)%Z →
  let s' := (b_delete_thread B fuel t s).1 in
  inv s' ∧ (b_delete_thread B fuel t s).2 = Some (Ok tt) ∧ missing (b_get_latest B t s').2 ∧
  (∀ n, (0 ≤ n < u64_modulus)%Z → missing (b_get B t n s').2) ∧
  (∀ t', t' ≠ t → latest s' t' = latest s t' ∧ ∀ n, blob_at s' t' n = blob_at s t' n).
Proof.
  intros Hi Hfuel. destruct (delete_spec fuel s t Hi Hfuel) as (Hok & Hi' & Hblob & Hlat).
  split; [done|]. split; [done|]. set (s' := (b_delete_thread B fuel t s).1) in *. split_and!.
  - pose proof (get_latest_spec s' t Hi') as [_ E]. by rewrite Hlat, decide_True in E.
  - intros n Hn. pose proof (get_spec s' t n Hi' Hn) as [_ E]. by rewrite Hblob, decide_True in E.
  - intros t' Ht. split; [by rewrite Hlat, decide_False|]. intros n. by rewrite Hblob, decide_False.
Qed.

End Client.

(** A thread whose latest step is the greatest number never gets deleted. *)
Lemma delete_never_returns {W : Type} `{Host W} `{JsonParser} (fuel : nat) (rt : Rt W) (t : string) :
  inv (B := kStoreCheckpointer) rt → kv_latest (rt_kv rt) t = Some (u64_modulus - 1)%Z → (store_delete_thread fuel t rt).2 = None.
Proof.
  intros [Hin Hok] Hl. unfold store_delete_thread, mbind, M_bind.
  destruct (delete_events_ok t rt _ Hin) as (rt1 & kv1 & -> & Hin1 & Hs1).
  pose proof (kv_latest_spec kv1 t (same_ok _ kv1 t (Hs1 t) (Hok t))) as Hlat. rewrite (same_latest _ kv1 t (Hs1 t)), Hl in Hlat.
  destruct Hlat as (Hn & b & _ & _ & Hmeta & _). unfold store_delete_steps, store_latest_step, mbind, M_bind.
  rewrite (get_nonempty_ok _ rt1 kv1 Hin1). unfold mret, M_ret. rewrite Hmeta, from_chars_step by done.
  pose proof (delete_steps_diverge fuel 0 t rt1 kv1 Hin1) as Hd. destruct (delete_steps _ _ _ _ _) as [rt2 r].
  cbn in Hd. by rewrite Hd by (unfold u64_modulus; lia).
Qed.

(** C10. The StoreOps checkpointer on the built-in store behaves like a
    checkpoint table, although a store can neither list nor delete keys.  Let the
    checkpoint keys in the store be consistent ([inv], which these calls keep,
    see [BackendSpec]).  After [store_put] of a blob that is not empty, at a step
    not before the latest and below the greatest uint64_t, the thread's latest checkpoint and that step are the new blob and every
    other stored checkpoint, of this and of all other threads, reads as before.
    [store_delete_thread] then returns, within one round per step, and the thread has no checkpoint at any
    step and no other thread has lost one.  Thread ids may contain ':'. *)
Theorem store_checkpointer_correct {W : Type} `{Host W} `{JsonParser} (fuel : nat) (rt : Rt W) (t b meta : string) (n : Z) :
  inv (B := kStoreCheckpointer) rt → b ≠ "" → (0 ≤ n < u64_modulus - 1)%Z → (∀ k, kv_latest (rt_kv rt) t = Some k → k ≤ n)%Z →
  (n < Z.of_nat fuel)%Z →
  let rt1 := (store_put t n b meta rt).1 in
  let rt2 := (store_delete_thread fuel t rt1).1 in
  (store_put t n b meta rt).2 = Ok tt ∧ store_get_latest t rt1 = (rt1, Ok b) ∧ store_get t n rt1 = (rt1, Ok b) ∧
  (∀ t' k, (0 ≤ k < u64_modulus)%Z → (t', k) ≠ (t, n) → is_Some (kv_blob (rt_kv rt) t' k) →
     (store_get t' k rt1).2 = (store_get t' k rt).2) ∧
  (store_delete_thread fuel t rt1).2 = Some (Ok tt) ∧
  missing (store_get_latest t rt2).2 ∧ (∀ k, (0 ≤ k < u64_modulus)%Z → missing (store_get t k rt2).2) ∧
  (∀ t', t' ≠ t → kv_latest (rt_kv rt2) t' = kv_latest (rt_kv rt) t' ∧
                  ∀ k, kv_blob (rt_kv rt2) t' k = kv_blob (rt_kv rt) t' k).
Proof.
  intros Hi Hb Hn Hle Hf rt1 rt2. assert (Hn' : (0 ≤ n < u64_modulus)%Z) by lia.
  destruct (put_then_read kStoreCheckpointer rt t n b meta Hi Hb Hn' Hle) as (Hi1 & Hput & H1 & H2 & H3).
  destruct (put_spec rt t n b meta Hi Hb Hn' Hle) as (_ & _ & Hblob & Hlat).
  destruct (delete_then_read kStoreCheckpointer fuel rt1 t Hi1) as (_ & Hdel & H4 & H5 & H6).
  { intros k Hk. pose proof (eq_trans (eq_sym Hk) (Hlat t)) as Hlt. rewrite decide_True in Hlt by done. injection Hlt as ->. lia. }
  split_and!; [exact Hput|exact H1|exact H2|exact H3|exact Hdel|exact H4|exact H5|].
  intros t' Ht. destruct (H6 t' Ht) as [E1 E2]. split.
  - transitivity (kv_latest (rt_kv rt1) t'); [exact E1|]. etransitivity; [exact (Hlat t')|]. by rewrite decide_False.
  - intros k. transitivity (kv_blob (rt_kv rt1) t' k); [exact (E2 k)|]. etransitivity; [exact (Hblob t' k)|].
    by rewrite decide_False by naive_solver.
Qed.

Lemma store_checkpointer_witness :
  let rt1 := (@store_put unit _ "t:1" 4 "{}" "m" Sample.rt).1 in
  store_get_latest "t:1" rt1 = (rt1, Ok "{}") ∧ (store_delete_thread 5 "t:1" rt1).2 = Some (Ok tt) ∧
  missing (store_get_latest "t:1" (store_delete_thread 5 "t:1" rt1).1).2.
Proof.
  destruct (@store_checkpointer_correct unit _ RefParser.parser 5 Sample.rt "t:1" "{}" "m" 4) as (_ & Hl & _ & _ & Hd & Hm & _).
  - split; [split; reflexivity|]. intros t. split.
    + intros k _. unfold kv_blob, kv_meta. destruct (valid_step k); split; intros []; discriminate.
    + split; [reflexivity|]. intros k. unfold kv_blob. destruct (valid_step k); reflexivity.
  - discriminate.
  - unfold u64_modulus. lia.
  - intros k E. discriminate E.
  - lia.
  - split_and!; [exact Hl|exact Hd|exact Hm].
Defined.

(** ** The Async writer *)

Inductive Job :=
| PutJob (thread : string) (step : Z) (blob metadata : string)
| EventsJob (thread : string) (events : list GraphEvent).

Section Writer.
Context {S : Type} (B : Backend S).

(** The backend call one job makes. *)
Definition run_job (j : Job) (s : S) : S * Result unit :=
  match j with
  | PutJob t n b meta => b_put B t n b meta s
  | EventsJob t es => b_append_events B t es s
  end.

(** The writer's fields; [in_flight] is the job the thread took off the queue
    and runs unlocked, [error_] the first error since the last flush. *)
Record Writer := mkWriter {
  backend : S;
  queue_ : list Job;
  in_flight : option Job;
  queued_ : nat;
  written_ : nat;
  started_ : bool;
  stop_ : bool;
  error_ : option Error;
  w_capacity : nat
}.

Definition new_writer (s : S) (capacity : nat) : Writer := mkWriter s [] None 0 0 false false None capacity.

Definition keep_first (e : option Error) (r : Result unit) : option Error :=
  match e, r with
  | Some x, _ => Some x
  | None, Fail x => Some x
  | None, Ok _ => None
  end.

Inductive Label :=
| Enqueue (j : Job)         (* the run's thread: put / append_events, once there is space *)
| Take                      (* the writer thread takes the front job *)
| Finish                    (* it has run it and counts it *)
| Flush (r : Result unit)   (* the run's thread: flush returns *)
| Stop.                     (* the destructor *)

Inductive wstep : Writer → Label → Writer → Prop :=
| step_enqueue w j :
    length (queue_ w) < w_capacity w →
    wstep w (Enqueue j)
      (mkWriter (backend w) (queue_ w ++ [j]) (in_flight w) (queued_ w + 1) (written_ w) true (stop_ w) (error_ w)
         (w_capacity w))
| step_take w j rest :
    started_ w = true → in_flight w = None → queue_ w = j :: rest →
    wstep w Take
      (mkWriter (backend w) rest (Some j) (queued_ w) (written_ w) (started_ w) (stop_ w) (error_ w) (w_capacity w))
| step_finish w j :
    in_flight w = Some j →
    wstep w Finish
      (mkWriter (run_job j (backend w)).1 (queue_ w) None (queued_ w) (written_ w + 1) (started_ w) (stop_ w)
         (keep_first (error_ w) (run_job j (backend w)).2) (w_capacity w))
| step_flush w :
    queued_ w ≤ written_ w →
    wstep w (Flush (match error_ w with None => Ok tt | Some e => Fail e end))
      (mkWriter (backend w) (queue_ w) (in_flight w) (queued_ w) (written_ w) (started_ w) (stop_ w) None (w_capacity w))
| step_stop w :
    wstep w Stop
      (mkWriter (backend w) (queue_ w) (in_flight w) (queued_ w) (written_ w) (started_ w) true (error_ w) (w_capacity w)).

(** Runs, with the labels in order. *)
Inductive wrun (w : Writer) : list Label → Writer → Prop :=
| run_nil : wrun w [] w
| run_snoc ls l w1 w2 : wrun w ls w1 → wstep w1 l w2 → wrun w (ls ++ [l]) w2.

(** The jobs a run queued, in order. *)
Fixpoint jobs_of (ls : list Label) : list Job :=
  match ls with
  | [] => []
  | Enqueue j :: ls' => j :: jobs_of ls'
  | _ :: ls' => jobs_of ls'
  end.

Definition run_jobs (s : S) (js : list Job) : S := foldl (λ s j, (run_job j s).1) s js.

(** The error of the first job that fails, when they run one after another. *)
Fixpoint first_error (s : S) (js : list Job) : option Error :=
  match js with
  | [] => None
  | j :: js' =>
      match run_job j s with
      | (_, Fail e) => Some e
      | (s', Ok _) => first_error s' js'
      end
  end.

Definition no_flush (ls : list Label) : bool :=
  forallb (λ l, match l with Flush _ => false | _ => true end) ls.

Definition flight (w : Writer) : list Job := match in_flight w with Some j => [j] | None => [] end.

(** ** Lemmas *)

Lemma jobs_of_app l1 l2 : jobs_of (l1 ++ l2) = jobs_of l1 ++ jobs_of l2.
Proof. induction l1 as [|l l1 IH]; simpl; [done|]. destruct l; simpl; by rewrite IH. Qed.

Lemma run_jobs_snoc s js j : run_jobs s (js ++ [j]) = (run_job j (run_jobs s js)).1.
Proof. unfold run_jobs. by rewrite foldl_app. Qed.

Lemma first_error_snoc s js j :
  first_error s (js ++ [j]) = keep_first (first_error s js) (run_job j (run_jobs s js)).2.
Proof.
  revert s. induction js as [|x js IH]; intros s; simpl.
  - by destruct (run_job j s) as [s' [?|e]].
  - change (run_jobs s (x :: js)) with (run_jobs (run_job x s).1 js).
    destruct (run_job x s) as [s' [?|e]]; [apply IH|done].
Qed.

(** FIFO: what was queued is what was written, what is being written and what
    waits, in that order; the backend is the result of the written jobs. *)
Lemma writer_fifo s cap ls w :
  wrun (new_writer s cap) ls w →
  ∃ done, jobs_of ls = done ++ flight w ++ queue_ w ∧ written_ w = length done ∧
    queued_ w = length (jobs_of ls) ∧ backend w = run_jobs s done ∧ length (queue_ w) ≤ cap ∧ w_capacity w = cap ∧
    (no_flush ls = true → error_ w = first_error s done) ∧
    (started_ w = false → jobs_of ls = []).
Proof.
  induction 1 as [|ls l w1 w2 Hr (dn & Hj & Hw & Hq & Hb & Hc & Hcap & He & Hs) Hstep].
  { exists []. split_and!; try done. simpl. lia. }
  rewrite jobs_of_app. unfold no_flush in *. rewrite forallb_app.
  destruct Hstep as [w j Hlt|w j rest Hst Hfl Hqu|w j Hfl|w Hle|w]; simpl in *; rewrite ?app_nil_r, ?andb_true_r.
  - exists dn. unfold flight in *. simpl.
    assert (Hlen : length (jobs_of ls ++ [j]) = length (jobs_of ls) + 1) by (by rewrite length_app).
    split_and!; try done.
    + rewrite Hj, <-!app_assoc. done.
    + by rewrite Hlen, Hq.
    + rewrite length_app. simpl. lia.
  - exists dn. unfold flight in *. rewrite Hfl, Hqu in Hj. simpl in *. split_and!; try done.
    rewrite Hqu in Hc. simpl in Hc. lia.
  - exists (dn ++ [j]). unfold flight in *. rewrite Hfl in Hj. simpl in *.
    rewrite run_jobs_snoc, first_error_snoc, length_app, <-Hb. simpl. split_and!; try done.
    + by rewrite <-app_assoc.
    + lia.
    + intros Hn. by rewrite (He Hn).
  - exists dn. split_and!; try done. intros Hn. by rewrite andb_false_r in Hn.
  - exists dn. by split_and!.
Qed.

Lemma writer_counts s cap ls w :
  wrun (new_writer s cap) ls w → queued_ w = written_ w + length (flight w) + length (queue_ w).
Proof.
  intros Hr. destruct (writer_fifo s cap ls w Hr) as (dn & Hj & Hw & Hq & _).
  rewrite Hq, Hj, !length_app, Hw. lia.
Qed.

(** Steps left until everything queued is written. *)
Definition pending_steps (w : Writer) : nat := length (flight w) + 2 * length (queue_ w).

Lemma wrun_trans w l1 w1 l2 w2 : wrun w l1 w1 → wrun w1 l2 w2 → wrun w (l1 ++ l2) w2.
Proof.
  intros H1 H2. induction H2 as [|ls l w' w'' _ IH Hs]; [by rewrite app_nil_r|].
  rewrite app_assoc. by eapply run_snoc.
Qed.

Lemma drain w :
  (queue_ w ≠ [] → started_ w = true) →
  ∃ ls w', wrun w ls w' ∧ Forall (λ l, l = Take ∨ l = Finish) ls ∧ length ls = pending_steps w ∧
    queue_ w' = [] ∧ in_flight w' = None.
Proof.
  remember (pending_steps w) as k eqn:Hk. revert w Hk. induction k as [k IH] using lt_wf_ind. intros w -> Hst.
  assert (Hgo : ∀ l w1, wstep w l w1 → (l = Take ∨ l = Finish) → 1 + pending_steps w1 = pending_steps w →
            (queue_ w1 ≠ [] → started_ w1 = true) →
            ∃ ls w', wrun w ls w' ∧ Forall (λ l, l = Take ∨ l = Finish) ls ∧ length ls = pending_steps w ∧
              queue_ w' = [] ∧ in_flight w' = None).
  { intros l w1 Hs Hl Hp Hst1. destruct (IH (pending_steps w1) ltac:(lia) w1 eq_refl Hst1) as (ls & w' & Hr & Hf & Hlen & ?).
    exists ([l] ++ ls), w'. split; [eapply wrun_trans; [apply (run_snoc w [] l w w1); [constructor|done]|done]|].
    split; [by constructor|]. split; [simpl; lia|done]. }
  unfold pending_steps, flight in *. destruct (in_flight w) as [j|] eqn:Ef.
  - eapply Hgo; [by apply step_finish|by right|simpl; lia|done].
  - destruct (queue_ w) as [|j rest] eqn:Eq; [exists [], w; split_and!; try done; constructor|].
    eapply Hgo; [apply step_take; [by apply Hst|done|done]|by left|simpl; lia|simpl]. intros _. by apply Hst.
Qed.

End Writer.

(** The Async writer is a bounded FIFO: in every interleaving of the run's
    thread and the writer thread, the queued jobs are the written ones, the one
    being written and the waiting ones, in order; the queue never exceeds its
    capacity; the counters match; and the backend is exactly the result of the
    written jobs in the order they were queued. *)
Theorem async_writer_fifo {S : Type} (B : Backend S) (s : S) (cap : nat) (ls : list Label) (w : Writer) :
  wrun B (new_writer s cap) ls w →
  ∃ done, jobs_of ls = done ++ flight w ++ queue_ w ∧ backend w = run_jobs B s done ∧
    written_ w = length done ∧ queued_ w = written_ w + length (flight w) + length (queue_ w) ∧
    length (queue_ w) ≤ cap.
Proof.
  intros Hr. destruct (writer_fifo B s cap ls w Hr) as (dn & Hj & Hw & _ & Hb & Hc & _).
  exists dn. split_and!; try done. by eapply writer_counts.
Qed.

(** When flush returns, every job queued before it has been written, and
    it reports the error of the first job that failed (or success): no
    checkpoint is lost silently. *)
Theorem async_flush_complete {S : Type} (B : Backend S) (s : S) (cap : nat) (ls : list Label) (w w' : Writer)
    (r : Result unit) :
  wrun B (new_writer s cap) ls w → no_flush ls = true → wstep B w (Flush r) w' →
  backend w' = run_jobs B s (jobs_of ls) ∧ queue_ w' = [] ∧ in_flight w' = None ∧
  r = match first_error B s (jobs_of ls) with None => Ok tt | Some e => Fail e end.
Proof.
  intros Hr Hn Hs. destruct (writer_fifo B s cap ls w Hr) as (dn & Hj & Hw & Hq & Hb & _ & _ & He & _).
  inversion Hs as [| | |? Hle|]; subst; simpl.
  assert (Hzero : flight w = [] ∧ queue_ w = []).
  { rewrite Hq, Hj, !length_app, Hw in Hle. destruct (flight w), (queue_ w); simpl in Hle; try lia. done. }
  destruct Hzero as [Hf Hqu]. rewrite Hf, Hqu in Hj. simpl in Hj. rewrite app_nil_r in Hj. subst dn.
  rewrite (He Hn). split_and!; try done. unfold flight in Hf. by destruct (in_flight w).
Qed.

(** Flushing cannot hang: from every reachable state the writer thread
    alone, in at most two steps per waiting job, reaches a state in which
    everything queued is written and flush is enabled. *)
Theorem async_flush_live {S : Type} (B : Backend S) (s : S) (cap : nat) (ls : list Label) (w : Writer) :
  wrun B (new_writer s cap) ls w →
  ∃ ls' w', wrun B w ls' w' ∧ Forall (λ l, l = Take ∨ l = Finish) ls' ∧
    length ls' = length (flight w) + 2 * length (queue_ w) ∧ ∃ r w'', wstep B w' (Flush r) w''.
Proof.
  intros Hr. destruct (drain B w) as (ls' & w' & Hr' & Hf & Hlen & Hq & Hi).
  { intros Hne. destruct (started_ w) eqn:E; [done|].
    destruct (writer_fifo B s cap ls w Hr) as (dn & Hj & _ & _ & _ & _ & _ & _ & Hst).
    rewrite (Hst E) in Hj. symmetry in Hj. apply app_eq_nil in Hj as [_ Hj]. by apply app_eq_nil in Hj as [_ ?]. }
  exists ls', w'. split_and!; try done. eexists _, _. apply step_flush.
  pose proof (writer_counts B s cap (ls ++ ls') w' (wrun_trans B _ _ _ _ _ Hr Hr')) as Hc.
  unfold flight in Hc. rewrite Hi, Hq in Hc. simpl in Hc. lia.
Qed.

(** One checkpoint through a writer of capacity 1 over the in-memory backend. *)
Module WriterSample.

Definition B := Mem.kInMemoryCheckpointer 7.
Definition job : Job := PutJob "t" 0 "{}" "meta".
Definition start : Writer := new_writer Mem.mem_open 1.
Definition after_enqueue : Writer := mkWriter Mem.mem_open [job] None 1 0 true false None 1.
Definition after_take : Writer := mkWriter Mem.mem_open [] (Some job) 1 0 true false None 1.
Definition after_finish : Writer := mkWriter (run_job B job Mem.mem_open).1 [] None 1 1 true false None 1.

Lemma run_enqueue : wrun B start [Enqueue job] after_enqueue.
Proof. apply (run_snoc B start [] (Enqueue job) start); [constructor|]. apply (step_enqueue B start job). simpl. lia. Qed.

Lemma run_finish : wrun B start [Enqueue job; Take; Finish] after_finish.
Proof.
  apply (run_snoc B start [Enqueue job; Take] Finish after_take); [|by apply (step_finish B after_take job)].
  apply (run_snoc B start [Enqueue job] Take after_enqueue); [apply run_enqueue|].
  by apply (step_take B after_enqueue job []).
Qed.

End WriterSample.

Lemma async_writer_fifo_witness :
  ∃ done, [WriterSample.job] = done ++ [] ++ [WriterSample.job] ∧
    Mem.mem_open = run_jobs WriterSample.B Mem.mem_open done ∧ 0 = length done ∧ 1 = 0 + 0 + 1 ∧ 1 ≤ 1.
Proof.
  exact (async_writer_fifo WriterSample.B Mem.mem_open 1 [Enqueue WriterSample.job] WriterSample.after_enqueue
           WriterSample.run_enqueue).
Defined.

Lemma async_flush_complete_witness :
  backend WriterSample.after_finish = run_jobs WriterSample.B Mem.mem_open [WriterSample.job] ∧
  queue_ WriterSample.after_finish = [] ∧ in_flight WriterSample.after_finish = None ∧
  (Ok tt : Result unit) = match first_error WriterSample.B Mem.mem_open [WriterSample.job] with
          None => Ok tt | Some e => Fail e end.
Proof.
  apply (async_flush_complete WriterSample.B Mem.mem_open 1 [Enqueue WriterSample.job; Take; Finish]
           WriterSample.after_finish WriterSample.after_finish (Ok tt) WriterSample.run_finish eq_refl).
  apply (step_flush WriterSample.B WriterSample.after_finish). simpl. lia.
Defined.

Lemma async_flush_live_witness :
  ∃ ls' w', wrun WriterSample.B WriterSample.after_enqueue ls' w' ∧ Forall (λ l, l = Take ∨ l = Finish) ls' ∧
    length ls' = 0 + 2 * 1 ∧ ∃ r w'', wstep WriterSample.B w' (Flush r) w''.
Proof.
  exact (async_flush_live WriterSample.B Mem.mem_open 1 [Enqueue WriterSample.job] WriterSample.after_enqueue
           WriterSample.run_enqueue).
Defined.
