(* ===== verification/GraphExec.v ===== *)
(** * The graph executor (src/core/graph/graph_executor.cpp)

    [run_graph], [resume_graph] and [fork_graph_run] drive a graph node by
    node: run the node, log and persist its state writes, resolve the next
    node, checkpoint.  An [Exec] is one chain of nodes, the top-level run or a
    branch of a fan-out; the states of the enclosing chains are [x_parents].

    A computation [G A] threads the thread's [Rt] and the [Exec]; its outcome
    is a [Result], or nothing when fuel ran out: [turn_fuel] bounds one agent
    turn (see [turn_terminates]) and [nest] the nesting of fan-outs, which the
    code does not bound.  Steps need no fuel: [max_steps] bounds them.

    Branches run one after another in index order, as the code does without a
    concurrent engine.  The Async writer runs when it is flushed, one of the
    schedules of the step relation in Checkpointer.v. *)
From stdpp Require Import base gmap strings list.
From Stdlib Require Import Lia ZArith.
From S2P Require Import Prelude Arena Text Decimal Json Session Provider Tools History Turn Graph Checkpoint Checkpointer.

(** Approval for the tool calls a node paused on. *)
Record PendingResume := mkPendingResume {
  pr_calls : list ToolCall;
  pr_approved : bool;
  pr_human_input : string
}.

Record NodeResult := mkNodeResult {
  nr_interrupted : bool;
  nr_reason : string;
  nr_pending : list ToolCall;
  nr_forced_next : string;
  nr_interrupts : list GraphInterrupt
}.

Definition plain_result : NodeResult := mkNodeResult false "" [] "" [].

(** One branch's working copy while a fan-out runs.  While the branch itself
    runs, its state, writes and events are those of its [Exec]. *)
Record Branch := mkBranch {
  br_state : GraphState;
  br_events : list GraphEvent;
  br_writes : list string;
  br_result : option Error;
  br_next : string;
  br_run : bool;
  br_done : bool;
  br_interrupted : bool;
  br_inode : string;
  br_ireason : string;
  br_pending : list ToolCall;
  br_resume : option PendingResume
}.

(** How a node's system prompt was installed. *)
Inductive PromptScope :=
| NoScope
| Injected
| Saved (m : Message).

Definition set_content (m : Message) (c : string) : Message :=
  mkMessage (role m) c (tool_calls m) (tool_call_id m) (tensors m) (media m) (-1).

Definition install_prompt (m : FlowMemory) (prompt : string) : FlowMemory * PromptScope :=
  if is_empty prompt then (m, NoScope)
  else if has_system_prompt (history m) then
    match history m with
    | h0 :: rest => (set_history m (set_content h0 prompt :: rest), Saved h0)
    | [] => (m, NoScope)
    end
  else (set_history m (text_message "system" prompt :: history m), Injected).

(** [history\[0\] = saved]: there always is a first message then. *)
Definition restore_prompt (m : FlowMemory) (scope : PromptScope) : FlowMemory :=
  match scope, history m with
  | Injected, h0 :: rest => if is_role "system" h0 then set_history m rest else m
  | Saved s, _ :: rest => set_history m (set_token_count s (-1) :: rest)
  | _, _ => m
  end.

Section Types.
Context {W : Type}.

(** [acquire_model] and the session it leases (src/core/model_registry.cpp). *)
Record ModelsOps := mkModelsOps {
  acquire_model_fn : string → W → W * Result (Session W);
  release_model_fn : string → Session W → W → W
}.

(** [Checkpointer]: an operation table, whether [open_checkpointer] filled in
    its state, whether the table has all its entries, and its writer. *)
Record Checkpointer := mkCheckpointer {
  cp_ops : Backend (Rt W);
  cp_state : bool;
  cp_complete : bool;
  cp_writer : bool
}.

Record GraphRun := mkGraphRun {
  run_core : RunCore;
  run_durability : GraphDurability;
  run_checkpointer : option Checkpointer;
  run_error : option Error;
  run_interrupts : list GraphInterrupt;
  run_events : list GraphEvent;
  run_models : option ModelsOps;
  run_on_event : option (GraphEvent → W → W)
}.

(** [RunCtx]: what one call of the executor keeps, with the writer's queue. *)
Record RunCtx := mkRunCtx {
  c_graph : Graph W;
  c_sink : Backend (Rt W);
  c_writer : bool;
  c_jobs : list Job;
  c_durability : GraphDurability;
  c_models : option ModelsOps;
  c_persisted : nat;
  c_forked_from : string;
  c_progress : option ParallelProgress;
  c_branch_resume : gmap string PendingResume
}.

(** One chain.  [x_run] is the run with a stale [state]: the top chain's state
    is [x_state] or the last of [x_parents].  [x_events] holds the run's events
    while a branch logs into its own. *)
Record Exec := mkExec {
  x_state : GraphState;
  x_writes : option (list string);
  x_parents : list GraphState;
  x_run : RunCore;
  x_error : option Error;
  x_interrupts : list GraphInterrupt;
  x_index : gset string;
  x_events : list GraphEvent;
  x_ctx : RunCtx
}.

Record St := mkSt { g_rt : Rt W; g_x : Exec }.

Definition G (A : Type) : Type := St → St * option (Result A).

End Types.

Arguments ModelsOps W : clear implicits.
Arguments Checkpointer W : clear implicits.
Arguments GraphRun W : clear implicits.
Arguments RunCtx W : clear implicits.
Arguments Exec W : clear implicits.
Arguments St W : clear implicits.
Arguments G W A : clear implicits.

#[global] Instance G_ret {W : Type} : MRet (G W) := λ A a st, (st, Some (Ok a)).
#[global] Instance G_bind {W : Type} : MBind (G W) := λ A B k m st,
  match m st with
  | (st', Some (Ok a)) => k a st'
  | (st', Some (Fail e)) => (st', Some (Fail e))
  | (st', None) => (st', None)
  end.

Section Prim.
Context {W : Type}.

Definition throw {A} (e : Error) : G W A := λ st, (st, Some (Fail e)).
Definition out_of_fuel {A} : G W A := λ st, (st, None).
Definition of_result {A} (r : Result A) : G W A := λ st, (st, Some r).

(** Runs [m] and hands its result, error included, to the caller. *)
Definition attempt {A} (m : G W A) : G W (Result A) := λ st,
  match m st with
  | (st', Some r) => (st', Some (Ok r))
  | (st', None) => (st', None)
  end.

Definition lift {A} (m : M W A) : G W A := λ st,
  let '(rt', a) := m (g_rt st) in (mkSt rt' (g_x st), Some (Ok a)).

Definition liftR {A} (m : M W (Result A)) : G W A := r ← lift m; of_result r.

Definition exec {A} (f : Exec W → A) : G W A := λ st, (st, Some (Ok (f (g_x st)))).
Definition update (f : Exec W → Exec W) : G W unit := λ st, (mkSt (g_rt st) (f (g_x st)), Some (Ok tt)).

(** ** Updates of the chain and of the context *)

Definition set_x_state (x : Exec W) s := mkExec s (x_writes x) (x_parents x) (x_run x) (x_error x) (x_interrupts x)
  (x_index x) (x_events x) (x_ctx x).
Definition set_x_writes (x : Exec W) l := mkExec (x_state x) l (x_parents x) (x_run x) (x_error x) (x_interrupts x)
  (x_index x) (x_events x) (x_ctx x).
Definition set_x_run (x : Exec W) r := mkExec (x_state x) (x_writes x) (x_parents x) r (x_error x) (x_interrupts x)
  (x_index x) (x_events x) (x_ctx x).
Definition set_x_error (x : Exec W) e := mkExec (x_state x) (x_writes x) (x_parents x) (x_run x) e (x_interrupts x)
  (x_index x) (x_events x) (x_ctx x).
Definition set_x_interrupts (x : Exec W) l := mkExec (x_state x) (x_writes x) (x_parents x) (x_run x) (x_error x) l
  (x_index x) (x_events x) (x_ctx x).
Definition set_x_index (x : Exec W) i := mkExec (x_state x) (x_writes x) (x_parents x) (x_run x) (x_error x)
  (x_interrupts x) i (x_events x) (x_ctx x).
Definition set_x_events (x : Exec W) l := mkExec (x_state x) (x_writes x) (x_parents x) (x_run x) (x_error x)
  (x_interrupts x) (x_index x) l (x_ctx x).
Definition set_x_ctx (x : Exec W) (c : RunCtx W) : Exec W := mkExec (x_state x) (x_writes x) (x_parents x) (x_run x) (x_error x)
  (x_interrupts x) (x_index x) (x_events x) c.

Definition set_c_jobs (c : RunCtx W) l := mkRunCtx (c_graph c) (c_sink c) (c_writer c) l (c_durability c) (c_models c)
  (c_persisted c) (c_forked_from c) (c_progress c) (c_branch_resume c).
Definition set_c_persisted (c : RunCtx W) n := mkRunCtx (c_graph c) (c_sink c) (c_writer c) (c_jobs c) (c_durability c)
  (c_models c) n (c_forked_from c) (c_progress c) (c_branch_resume c).
Definition set_c_forked (c : RunCtx W) s := mkRunCtx (c_graph c) (c_sink c) (c_writer c) (c_jobs c) (c_durability c)
  (c_models c) (c_persisted c) s (c_progress c) (c_branch_resume c).
Definition set_c_progress (c : RunCtx W) p := mkRunCtx (c_graph c) (c_sink c) (c_writer c) (c_jobs c) (c_durability c)
  (c_models c) (c_persisted c) (c_forked_from c) p (c_branch_resume c).

Definition update_ctx (f : RunCtx W → RunCtx W) : G W unit := update (λ x, set_x_ctx x (f (x_ctx x))).
Definition update_state (f : GraphState → GraphState) : G W unit := update (λ x, set_x_state x (f (x_state x))).
Definition update_run (f : RunCore → RunCore) : G W unit := update (λ x, set_x_run x (f (x_run x))).

(** [Exec::depth]: 0 is the top-level chain. *)
Definition depth (x : Exec W) : nat := length (x_parents x).

(** [GraphRun::state] while a chain runs. *)
Definition top_state (x : Exec W) : GraphState := default (x_state x) (last (x_parents x)).

Definition current_run (x : Exec W) : RunCore := set_run_state (x_run x) (top_state x).

End Prim.

Section Nodes.
Context {W : Type} `{Host W} `{JsonParser}.
Implicit Types (x : Exec W) (n : GraphNode W).

(** ** Checkpoints of a run *)

Definition checkpoint_metadata x : string :=
  let run := current_run x in
  "{" +:+ append_string_field "graph" (graph_name (c_graph (x_ctx x))) +:+
  "," +:+ q +:+ "step" +:+ q +:+ ":" +:+ to_string (step run) +:+ "," +:+
  append_string_field "next" (next_node run) +:+ "," +:+ append_string_field "status" (status_name (status run)) +:+
  (if is_empty (c_forked_from (x_ctx x)) then ""
   else "," +:+ append_string_field "forked_from" (c_forked_from (x_ctx x))) +:+ "}".

(** Logs into [GraphRun::events]: the chain's own log at the top level. *)
Definition log_run_event (type : GraphEventType) (node key payload : string) : G W unit :=
  x ← exec id;
  match x_parents x with
  | [] => lift (log_event type node key payload) ;; mret tt
  | _ =>
      t ← lift (host now_ms);
      update (λ x, set_x_events x (x_events x ++ [mkGraphEvent type node key t (event_payload type payload)]))
  end.

Definition run_event_log : G W (list GraphEvent) :=
  x ← exec id;
  match x_parents x with
  | [] => lift (ask rt_events)
  | _ => mret (x_events x)
  end.

(** [AsyncWriter::append_events] ignores an empty batch. *)
Definition event_jobs (t : string) (fresh : list GraphEvent) : list Job :=
  match fresh with [] => [] | _ => [EventsJob t fresh] end.

Definition write_checkpoint (through_writer : bool) : G W unit :=
  x0 ← exec id;
  log_run_event EvCheckpoint (next_node (x_run x0))
    (checkpoint_key (thread_id (x_run x0)) (to_string (step (x_run x0)))) "" ;;
  x ← exec id;
  all ← run_event_log;
  let run := current_run x in
  let c := x_ctx x in
  let blob := encode_checkpoint run (graph_name (c_graph c)) (c_progress c) in
  let meta := checkpoint_metadata x in
  let fresh := if b_has_events (c_sink c) then drop (c_persisted c) all else [] in
  update_ctx (λ c, set_c_persisted c (length all)) ;;
  if through_writer && c_writer c then
    update_ctx (λ c, set_c_jobs c (c_jobs c ++ PutJob (thread_id run) (step run) blob meta :: event_jobs (thread_id run) fresh))
  else
    liftR (b_put (c_sink c) (thread_id run) (step run) blob meta) ;;
    match fresh with
    | [] => mret tt
    | _ => liftR (b_append_events (c_sink c) (thread_id run) fresh)
    end.

(** [AsyncWriter::flush]: the queued jobs in order, the first error. *)
Definition flush_writer : G W unit := λ st,
  let c := x_ctx (g_x st) in
  let rt' := run_jobs (c_sink c) (g_rt st) (c_jobs c) in
  (mkSt rt' (set_x_ctx (g_x st) (set_c_jobs c [])),
   Some (match first_error (c_sink c) (g_rt st) (c_jobs c) with Some e => Fail e | None => Ok tt end)).

(** ** Histories and state writes *)

Definition history_name n : string := if is_empty (history_key n) then node_name n else history_key n.

Fixpoint parent_history (name : string) (parents : list GraphState) : FlowMemory :=
  match parents with
  | [] => no_memory
  | p :: rest => match histories p !! name with Some m => m | None => parent_history name rest end
  end.

Definition history_for (name : string) : G W FlowMemory :=
  x ← exec id;
  match histories (x_state x) !! name with
  | Some m => mret m
  | None =>
      let m0 := parent_history name (x_parents x) in
      let m := if is_empty (fm_id m0) then mkFlowMemory (thread_id (x_run x) +:+ ":" +:+ name) (history m0) (fm_stats m0)
               else m0 in
      update_state (λ s, set_histories s (<[name := m]> (histories s))) ;; mret m
  end.

Fixpoint drain_keys (node : string) (keys : list string) : G W unit :=
  match keys with
  | [] => mret tt
  | key :: rest =>
      x ← exec id;
      let value := get_state (x_state x) key "" in
      lift (log_event StateWrite node key value) ;;
      (match x_writes x with
       | Some l => update (λ x, set_x_writes x (Some (l ++ [key])))
       | None =>
           if is_scoped_key key then
             '(index, r) ← lift (persist_scoped_value key value (x_index x));
             update (λ x, set_x_index x index) ;; of_result r
           else mret tt
       end) ;;
      drain_keys node rest
  end.

Definition drain_writes (node : string) : G W unit :=
  keys ← exec (λ x, written (x_state x));
  update_state (λ s, set_written s []) ;;
  drain_keys node keys.

(** A host function on the run's session and the chain's state. *)
Definition call_state_fn {A} (f : StateFn W A) : G W A :=
  st ← exec x_state;
  liftR (λ rt, let '(s', w', r) := f (rt_session rt) st (rt_world rt) in (with_world (with_session rt s') w', r)).

(** ** Agent nodes *)

(** Runs [m] with [mem] as the active conversation; the one before is restored. *)
Definition with_memory {A} (mem : FlowMemory) (m : M W A) : M W (FlowMemory * A) :=
  previous ← ask (λ rt, active_memory (rt_ambient rt));
  set_memory mem ;;
  a ← m;
  mem' ← memory;
  modify_ambient (λ a, set_active_memory a previous) ;;
  mret (mem', a).

Definition fire_node_hooks (mem : FlowMemory) n (when : When) (tc : ToolCall) (result : string) : M W FlowMemory :=
  '(mem', _) ← with_memory mem (fire_hooks (node_hooks n) when (call_name tc) (call_arguments tc) result);
  mret mem'.

Definition denied_result (human_input : string) : ToolResult :=
  mkToolResult ("Error: tool call denied by human reviewer" +:+
                (if is_empty human_input then "" else ": " +:+ human_input)) [] [] true.

Definition run_approved_call (mem : FlowMemory) n (tc : ToolCall) (resume : PendingResume) :
    M W (FlowMemory * ToolResult) :=
  emit EvToolCall (node_name n) (call_name tc) (call_arguments tc) ;;
  trigger_event OnToolCall (call_name tc) ;;
  s ← ask rt_session;
  policy ← (match permission_check (config s) with
            | Some check => host (check (call_name tc) (call_arguments tc))
            | None => mret Ask
            end);
  '(mem2, result) ← (if bool_decide (policy = Ask) && negb (pr_approved resume) then
                       mret (mem, denied_result (pr_human_input resume))
                     else
                       mem1 ← fire_node_hooks mem n Pre tc "";
                       '(mem2, r) ← with_memory mem1
                          (modify_ambient (λ a, set_preapproved a (bool_decide (policy = Ask))) ;;
                           r ← execute_for_message (call_name tc) (call_arguments tc);
                           modify_ambient (λ a, set_preapproved a false) ;;
                           mret r);
                       mem3 ← fire_node_hooks mem2 n Post tc (result_text r);
                       mret (mem3, r));
  emit EvToolResult (node_name n) (call_name tc) (result_text result) ;;
  trigger_event OnToolResult (result_text result) ;;
  modify_session (λ s, set_stats s (add_tool_call_stat (stats s))) ;;
  mret (set_fm_stats mem2 (ts_add_tool_call (fm_stats mem2)), result).

Fixpoint run_approved_calls (mem : FlowMemory) n (calls : list ToolCall) (resume : PendingResume) : M W FlowMemory :=
  match calls with
  | [] => mret mem
  | tc :: rest =>
      '(mem', r) ← run_approved_call mem n tc resume;
      run_approved_calls (push_message mem' (tool_message (call_id tc) r)) n rest resume
  end.

Definition node_ambient n (a : Ambient W) : Ambient W :=
  mkAmbient (active_memory a)
    (mkToolHook Pre "" (Some (LogToolPre (node_name n))) :: node_hooks n ++
       [mkToolHook Post "" (Some (LogToolPost (node_name n)))])
    (node_allowed_tools n) (worker_arena_index a) (interrupt_before_tools n) false (tool_call_preapproved a)
    (summary_slab a).

(** [AmbientScope]: hooks, allowed tools and pause state of the caller return. *)
Definition restore_ambient (saved a : Ambient W) : Ambient W :=
  mkAmbient (active_memory a) (active_hooks saved) (allowed_tools saved) (worker_arena_index a) (pause_fn_set saved)
    (tools_paused saved) (tool_call_preapproved a) (summary_slab a).

(** The turn(s) of the node: answer the pending calls of a resume, then run. *)
Definition agent_turn (turn_fuel : nat) (mem : FlowMemory) n (prompt : string) (resume : option PendingResume) :
    M W (FlowMemory * bool * option (Result string)) :=
  saved ← ask rt_ambient;
  modify_ambient (node_ambient n) ;;
  '(mem', reply) ← (match resume with
                    | Some r =>
                        mem1 ← run_approved_calls mem n (pr_calls r) r;
                        run_turn turn_fuel (mkTurnArgs false None) mem1 ""
                    | None => run_turn turn_fuel (mkTurnArgs false None) mem prompt
                    end);
  paused ← ask (λ rt, tools_paused (rt_ambient rt));
  modify_ambient (restore_ambient saved) ;;
  mret (mem', paused, reply).

(** [GraphNode::model]: the leased session, if the node names a model. *)
Definition acquire_lease n : G W (option (ModelsOps W * Session W)) :=
  if is_empty (model n) then mret None
  else
    ops ← exec (λ x, c_models (x_ctx x));
    match ops with
    | None => throw (make_error InvalidConfig ("agent node '" +:+ node_name n +:+ "' names model '" +:+ model n +:+
                                               "' but GraphRun::models is not set"))
    | Some o =>
        acquired ← lift (host (acquire_model_fn o (model n)));
        match acquired with
        | Fail e => throw (mkError (code e) ("agent node '" +:+ node_name n +:+ "': " +:+ message e))
        | Ok leased => mret (Some (o, leased))
        end
    end.

(** Runs [m] on the leased session and returns the lease. *)
Definition on_lease {A} n (lease : option (ModelsOps W * Session W)) (m : M W A) : M W A :=
  match lease with
  | None => m
  | Some (o, leased) =>
      own ← ask rt_session;
      modify (λ rt, with_session rt leased) ;;
      a ← m;
      used ← ask rt_session;
      modify (λ rt, with_session rt own) ;;
      host_ (release_model_fn o (model n) used) ;;
      mret a
  end.

Definition join_prompt (extra prompt : string) : string :=
  if is_empty extra then prompt else if is_empty prompt then extra else extra +:+ nl +:+ prompt.

Definition pause_reason (calls : list ToolCall) : string :=
  foldl (λ acc tc, acc +:+ " " +:+ call_name tc) "approval required for tool call:" calls.

Definition run_agent_node (turn_fuel : nat) n (resume : option PendingResume) : G W NodeResult :=
  d ← exec depth;
  if interrupt_before_tools n && Nat.ltb 1 d then
    throw (make_error InvalidConfig ("agent node '" +:+ node_name n +:+
             "': interrupt_before_tools is not supported inside nested parallel branches"))
  else
    prompt_text ← (match context_provider n with
                   | Some f => extra ← call_state_fn f; mret (join_prompt extra (system_prompt n))
                   | None => mret (system_prompt n)
                   end);
    lease ← acquire_lease n;
    mem ← history_for (history_name n);
    st ← exec x_state;
    let prompt := if negb (is_empty (input_key n)) && has_state st (input_key n)
                  then get_state st (input_key n) "" else node_prompt n in
    let '(mem1, scope) := install_prompt mem prompt_text in
    '(mem2, paused, reply) ← lift (on_lease n lease (agent_turn turn_fuel mem1 n prompt resume));
    update_state (λ s, set_histories s (<[history_name n := restore_prompt mem2 scope]> (histories s))) ;;
    match reply with
    | None => out_of_fuel
    | Some (Fail e) => throw e
    | Some (Ok text) =>
        if paused : bool then
          let pending := match last (history mem2) with Some m => tool_calls m | None => [] end in
          mret (mkNodeResult true (pause_reason pending) pending "" [])
        else
          (if is_empty (output_key n) then mret tt else update_state (λ s, set_state s (output_key n) text)) ;;
          mret plain_result
    end.

(** ** Function, tool and loop nodes *)

(** [validate] guarantees the function of a Function node. *)
Definition run_function_node n : G W NodeResult :=
  update_state (λ s, set_interrupt s false (interrupt_reason s)) ;;
  match function n with
  | None => throw (make_error InvalidConfig "no function")
  | Some f =>
      res ← (λ st, let '(s', gs, w', r) := f (rt_session (g_rt st)) (x_state (g_x st)) (rt_world (g_rt st)) in
                   (mkSt (with_world (with_session (g_rt st) s') w') (set_x_state (g_x st) gs), Some (Ok r)));
      x ← exec id;
      update_state (λ s, set_interrupt s false "") ;;
      match res with
      | Fail e => throw e
      | Ok _ =>
          if interrupt_requested (x_state x) then
            if Nat.ltb 1 (depth x) then
              throw (make_error InvalidConfig ("function node '" +:+ node_name n +:+
                       "': interrupts are not supported inside nested parallel branches"))
            else mret (mkNodeResult true (interrupt_reason (x_state x)) [] "" [])
          else mret plain_result
      end
  end.

Definition run_tool_node n : G W NodeResult :=
  st ← exec x_state;
  args ← (match tool_args n with
          | Some f => call_state_fn f
          | None =>
              mret (if negb (is_empty (input_key n)) && has_state st (input_key n)
                    then get_state st (input_key n) "" else "{}")
          end);
  lift (emit EvToolCall (node_name n) (node_tool_name n) args) ;;
  lift (trigger_event OnToolCall (node_tool_name n)) ;;
  res ← lift (execute_tool (node_tool_name n) args);
  match res with
  | Fail e =>
      lift (emit EvToolResult (node_name n) (node_tool_name n) ("Error: " +:+ message e)) ;; throw e
  | Ok text =>
      lift (emit EvToolResult (node_name n) (node_tool_name n) text) ;;
      lift (trigger_event OnToolResult text) ;;
      lift (modify_session (λ s, set_stats s (add_tool_call_stat (stats s)))) ;;
      (if is_empty (output_key n) then mret tt else update_state (λ s, set_state s (output_key n) text)) ;;
      mret plain_result
  end.

Definition loop_key n : string := kInternalPrefix +:+ "loop:" +:+ node_name n.

(** The iterations done, as the counter key records them. *)
Definition loop_count n (st : GraphState) : Z := default 0%Z (from_chars_int (get_state st (loop_key n) "0")).

Definition run_loop_node n : G W NodeResult :=
  st ← exec x_state;
  let iterations := loop_count n st in
  leave ← (if (max_iterations n <=? iterations)%Z then mret true
           else match until n with
                | Some f => if (0 <? iterations)%Z then call_state_fn f else mret false
                | None => mret false
                end);
  if leave : bool then
    update_state (λ s, set_values s (delete (loop_key n) (values s))) ;; mret plain_result
  else
    update_state (λ s, set_values s (<[loop_key n := to_string (iterations + 1)]> (values s))) ;;
    mret (mkNodeResult false "" [] (loop_body n) []).

(** ** The next node *)

Definition resolve_next n (result : NodeResult) : G W string :=
  if negb (is_empty (nr_forced_next result)) then mret (nr_forced_next result)
  else
    g ← exec (λ x, c_graph (x_ctx x));
    next ← (match find_edge g (node_name n) with
            | None => mret kGraphEnd
            | Some e =>
                match router e with
                | None => mret (to e)
                | Some f =>
                    routed ← call_state_fn f;
                    if negb (str_eqb routed kGraphEnd) && negb (has_node g routed) then
                      throw (make_error InvalidConfig ("router of node '" +:+ node_name n +:+
                               "' returned unknown node '" +:+ routed +:+ "'"))
                    else mret routed
                end
            end);
    mret (if str_eqb next kGraphEnd && negb (is_empty (exit_to n)) then exit_to n else next).

(** ** Branches *)

(** The record of a branch after it paused, went on or reached the join: its
    state relative to the state [parent] the fan-out started from. *)
Definition branch_record (parent st : GraphState) (rec : BranchProgress) (status : BranchStatus) (next : string)
    (writes : list string) (b : Branch) : BranchProgress :=
  mkBranchProgress (bp_entry rec) status next
    (filter (λ kv, is_temp_key kv.1 = false ∧ values parent !! kv.1 ≠ Some kv.2) (values st))
    (map fst (List.filter (λ kv, negb (is_temp_key kv.1) && negb (has_state st kv.1)) (map_items (values parent))))
    writes (histories st) (br_inode b) (br_ireason b) (br_pending b) "".

Definition failed_record (rec : BranchProgress) (next : string) (e : Error) : BranchProgress :=
  set_bp_error (set_bp_next (set_bp_status rec BFailed) next) (message e).

Definition update_record (index : nat) (f : BranchProgress → BranchProgress) : G W unit :=
  update_ctx (λ c, set_c_progress c
    (match c_progress c with
     | Some p => Some (mkParallelProgress (pp_node p) (alter f index (pp_branches p)))
     | None => None
     end)).

(** The checkpoint between two nodes; [Exit] writes none. *)
Definition step_checkpoint : G W unit :=
  c ← exec x_ctx;
  match c_durability c with
  | DurExit => mret tt
  | d => write_checkpoint (bool_decide (d = DurAsync))
  end.

Definition save_branch (index : nat) (b : Branch) (status : BranchStatus) (next : string) : G W unit :=
  x ← exec id;
  update_record index (λ rec,
    match status, br_result b with
    | BFailed, Some e => failed_record rec next e
    | _, _ => branch_record (default empty_state (head (x_parents x))) (x_state x) rec status next
                (default [] (x_writes x)) b
    end) ;;
  step_checkpoint.

Definition fail_branch (b : Branch) (e : Error) (next : string) : Branch :=
  mkBranch (br_state b) (br_events b) (br_writes b) (Some e) next (br_run b) (br_done b) (br_interrupted b)
    (br_inode b) (br_ireason b) (br_pending b) (br_resume b).
Definition pause_branch (b : Branch) (node reason : string) (pending : list ToolCall) (next : string) : Branch :=
  mkBranch (br_state b) (br_events b) (br_writes b) (br_result b) next (br_run b) (br_done b) true
    node reason pending (br_resume b).
Definition finish_branch (b : Branch) : Branch :=
  mkBranch (br_state b) (br_events b) (br_writes b) (br_result b) (br_next b) (br_run b) true (br_interrupted b)
    (br_inode b) (br_ireason b) (br_pending b) (br_resume b).

(** The [failed] closure of [run_branch]. *)
Definition branch_failed (index : option nat) (b : Branch) (current : string) (e : Error) : G W Branch :=
  let b' := fail_branch b e current in
  update_state (λ s, set_written s []) ;;
  (match index with
   | Some i => attempt (save_branch i b' BFailed current) ;; mret tt
   | None => mret tt
   end) ;;
  mret b'.

(** [save_branch] of a tracked branch. *)
Definition track (index : option nat) (b : Branch) (status : BranchStatus) (next : string) : G W (Result unit) :=
  match index with
  | Some i => attempt (save_branch i b status next)
  | None => mret (Ok tt)
  end.

Definition kind_resume n (resume : option PendingResume) : option PendingResume :=
  match kind n with AgentNode => resume | _ => None end.


Section Fanout.
(** [run_node] of the nodes inside a branch. *)
Context (node_fn : GraphNode W → option PendingResume → G W NodeResult).

(** [steps] are the steps left of [max_steps]. *)
Fixpoint branch_loop (steps : nat) (b : Branch) (current join : string) (index : option nat)
    (resume : option PendingResume) : G W Branch :=
  if str_eqb current kGraphEnd || str_eqb current join then mret (finish_branch b)
  else
    g ← exec (λ x, c_graph (x_ctx x));
    match steps with
    | O => branch_failed index b current
             (make_error InvalidConfig ("branch exceeded max_steps (" +:+ to_string (max_steps g) +:+ ")"))
    | S steps' =>
        match find_node g current with
        | None => branch_failed index b current (make_error InvalidConfig ("unknown node '" +:+ current +:+ "'"))
        | Some n =>
            res ← attempt (node_fn n (kind_resume n resume));
            match res with
            | Fail e => branch_failed index b current e
            | Ok r =>
                drained ← attempt (drain_writes (node_name n));
                match drained with
                | Fail e => branch_failed index b current e
                | Ok _ =>
                    if nr_interrupted r then
                      let b' := pause_branch b (node_name n) (nr_reason r) (nr_pending r) current in
                      saved ← track index b' BInterrupted current;
                      mret (match saved with Fail e => fail_branch b' e current | Ok _ => b' end)
                    else
                      next ← attempt (resolve_next n r);
                      match next with
                      | Fail e => branch_failed index b current e
                      | Ok next' =>
                          saved ← track index b
                            (if str_eqb next' kGraphEnd || str_eqb next' join then BDone else BRunning) next';
                          match saved with
                          | Fail e => branch_failed index b next' e
                          | Ok _ => branch_loop steps' b next' join index None
                          end
                      end
                end
            end
        end
    end.

Definition run_branch (b : Branch) (join : string) (index : option nat) : G W Branch :=
  g ← exec (λ x, c_graph (x_ctx x));
  branch_loop (Z.to_nat (max_steps g)) b (br_next b) join index (br_resume b).

(** Runs the branch as a chain of its own: its state, writes and events; the
    enclosing chain is restored afterwards. *)
Definition in_branch (b : Branch) (m : G W Branch) : G W Branch :=
  x ← exec id;
  outer ← lift (ask rt_events);
  lift (modify (λ rt, with_events rt (br_events b))) ;;
  update (λ y, mkExec (br_state b) (Some (br_writes b)) (x_state x :: x_parents x) (x_run y) (x_error y)
                 (x_interrupts y) (x_index y) (if is_empty_list (x_parents x) then outer else x_events y) (x_ctx y)) ;;
  r ← attempt m;
  y ← exec id;
  inner ← lift (ask rt_events);
  lift (modify (λ rt, with_events rt (if is_empty_list (x_parents x) then x_events y else outer))) ;;
  update (λ y, mkExec (x_state x) (x_writes x) (x_parents x) (x_run y) (x_error y) (x_interrupts y) (x_index y)
                 (if is_empty_list (x_parents x) then [] else x_events y) (x_ctx y)) ;;
  b' ← of_result r;
  mret (mkBranch (x_state y) inner (default [] (x_writes y)) (br_result b') (br_next b') (br_run b') (br_done b')
          (br_interrupted b') (br_inode b') (br_ireason b') (br_pending b') (br_resume b')).

Definition new_branch (st : GraphState) (entry : string) : Branch :=
  mkBranch (mkGraphState (values st) ∅ [] false "") [] [] None entry true false false "" "" [] None.

(** A branch from its progress record. *)
Definition load_branch (st : GraphState) (answers : gmap string PendingResume) (rec : BranchProgress) : M W Branch :=
  let vals := foldl (λ m key, delete key m) (insert_all (map_items (bp_values rec)) (values st)) (bp_erased rec) in
  let make vals evs run done paused resume :=
    mkBranch (mkGraphState vals (bp_histories rec) [] false "") evs (bp_writes rec) None
      (if is_empty (bp_next rec) then bp_entry rec else bp_next rec) run done paused
      (if paused : bool then bp_interrupt_node rec else "") (if paused : bool then bp_interrupt_reason rec else "")
      (if paused : bool then bp_pending rec else []) resume in
  match bp_status rec with
  | BDone => mret (make vals [] false true false None)
  | BInterrupted =>
      match answers !! bp_entry rec with
      | None => mret (make vals [] false false true None)
      | Some input =>
          let human := pr_human_input input in
          write ← (if is_empty human then mret []
                   else t ← host now_ms;
                        mret [mkGraphEvent StateWrite (bp_interrupt_node rec) "temp:human_input" t
                                (event_payload StateWrite human)]);
          t ← host now_ms;
          let evs := write ++ [mkGraphEvent Resume (bp_interrupt_node rec) (bp_entry rec) t (event_payload Resume human)] in
          let vals' := if is_empty human then vals else <["temp:human_input" := human]> vals in
          mret (make vals' evs true false false
                  (if is_empty_list (bp_pending rec) then None
                   else Some (mkPendingResume (bp_pending rec) (pr_approved input) human)))
      end
  | _ => mret (make vals [] true false false None)
  end.

Fixpoint load_branches (st : GraphState) (answers : gmap string PendingResume) (recs : list BranchProgress) :
    M W (list Branch) :=
  match recs with
  | [] => mret []
  | rec :: rest => b ← load_branch st answers rec; bs ← load_branches st answers rest; mret (b :: bs)
  end.

Definition progress_matches n (p : ParallelProgress) : bool :=
  str_eqb (pp_node p) (node_name n) && bool_decide (map bp_entry (pp_branches p) = branches n).

Definition fresh_record (entry : string) : BranchProgress :=
  mkBranchProgress entry BPending entry ∅ [] [] ∅ "" "" [] "".

Definition current_progress n (p : option ParallelProgress) : ParallelProgress :=
  match p with
  | Some p => if progress_matches n p then p else mkParallelProgress (node_name n) (map fresh_record (branches n))
  | None => mkParallelProgress (node_name n) (map fresh_record (branches n))
  end.

(** Only fan-outs of the top-level chain keep per-branch progress. *)
Definition start_branches n : G W (list Branch) :=
  x ← exec id;
  if is_empty_list (x_parents x) then
    let p := current_progress n (c_progress (x_ctx x)) in
    update_ctx (λ c, set_c_progress c (Some p)) ;;
    lift (load_branches (x_state x) (c_branch_resume (x_ctx x)) (pp_branches p))
  else mret (map (new_branch (x_state x)) (branches n)).

(** [run_branches]: one after another. *)
Fixpoint run_branches (join : string) (tracked : bool) (i : nat) (bs : list Branch) : G W (list Branch) :=
  match bs with
  | [] => mret []
  | b :: rest =>
      b' ← (if br_run b then in_branch b (run_branch b join (if tracked then Some i else None)) else mret b);
      rest' ← run_branches join tracked (S i) rest;
      mret (b' :: rest')
  end.

End Fanout.

(** ** The join *)

Definition branch_error n (entry : string) (e : Error) : string :=
  "parallel '" +:+ node_name n +:+ "' branch '" +:+ entry +:+ "': " +:+ message e.

Fixpoint first_branch_error n (items : list (string * Branch)) : option Error :=
  match items with
  | [] => None
  | (entry, b) :: rest =>
      match br_result b with
      | Some e => Some (mkError (code e) (branch_error n entry e))
      | None => first_branch_error n rest
      end
  end.

(** One more paused branch. *)
Definition add_pause (acc : NodeResult) (item : string * Branch) : NodeResult :=
  let '(entry, b) := item in
  if br_interrupted b then
    mkNodeResult true
      ((if nr_interrupted acc then nr_reason acc +:+ "; " else "") +:+ "branch '" +:+ entry +:+ "': " +:+ br_ireason b)
      (nr_pending acc ++ br_pending b) ""
      (nr_interrupts acc ++ [mkGraphInterrupt entry (br_inode b) (br_ireason b) (br_pending b)])
  else acc.

(** Owners of the keys (or histories) of one branch; stops at a conflict. *)
Fixpoint own_keys (i : nat) (keys : list string) (owner : gmap string nat) : gmap string nat + (string * nat * nat) :=
  match keys with
  | [] => inl owner
  | key :: rest =>
      match owner !! key with
      | None => own_keys i rest (<[key := i]> owner)
      | Some j => if Nat.eqb j i then own_keys i rest owner else inr (key, j, i)
      end
  end.

Fixpoint own_all (i : nat) (lists : list (list string)) (owner : gmap string nat) :
    gmap string nat + (string * nat * nat) :=
  match lists with
  | [] => inl owner
  | keys :: rest =>
      match own_keys i keys owner with
      | inl owner' => own_all (S i) rest owner'
      | inr c => inr c
      end
  end.

Definition entry_at n (i : nat) : string := default "" (branches n !! i).

Definition key_conflict n (key : string) (j i : nat) : Error :=
  make_error InvalidConfig ("parallel '" +:+ node_name n +:+ "': state key '" +:+ key +:+ "' written by branches '" +:+
    entry_at n j +:+ "' and '" +:+ entry_at n i +:+ "'; parallel branches must write unique keys").

Definition history_conflict n (name : string) (j i : nat) : Error :=
  make_error InvalidConfig ("parallel '" +:+ node_name n +:+ "': agent history '" +:+ name +:+ "' used in branches '" +:+
    entry_at n j +:+ "' and '" +:+ entry_at n i +:+ "'").

Definition history_names (b : Branch) : list string := map fst (map_items (histories (br_state b))).

(** The owner of every written key, once neither keys nor histories conflict. *)
Definition join_owners n (bs : list Branch) : Result (gmap string nat) :=
  match own_all 0 (map br_writes bs) ∅ with
  | inr (key, j, i) => Fail (key_conflict n key j i)
  | inl owners =>
      match own_all 0 (map history_names bs) ∅ with
      | inr (name, j, i) => Fail (history_conflict n name j i)
      | inl _ => Ok owners
      end
  end.

Fixpoint merge_keys (bs : list Branch) (items : list (string * nat)) : G W unit :=
  match items with
  | [] => mret tt
  | (key, i) :: rest =>
      (match (b ← bs !! i; values (br_state b) !! key) with
       | None => mret tt
       | Some value =>
           update_state (λ s, set_values s (<[key := value]> (values s))) ;;
           x ← exec id;
           match x_writes x with
           | Some l => update (λ x, set_x_writes x (Some (l ++ [key])))
           | None =>
               if is_scoped_key key then
                 '(index, r) ← lift (persist_scoped_value key value (x_index x));
                 update (λ x, set_x_index x index) ;; of_result r
               else mret tt
           end
       end) ;;
      merge_keys bs rest
  end.

Definition merge_histories (bs : list Branch) (h : gmap string FlowMemory) : gmap string FlowMemory :=
  foldl (λ h b, insert_all (map_items (histories (br_state b))) h) h bs.

Fixpoint complete_events (items : list (string * Branch)) : M W unit :=
  match items with
  | [] => mret tt
  | (entry, b) :: rest =>
      (if br_run b && br_done b && match br_result b with None => true | Some _ => false end
       then trigger_event OnSubAgentComplete entry else mret tt) ;;
      complete_events rest
  end.

(** Events, errors, pauses and the join of a fan-out whose branches have run. *)
Definition join_branches n (bs : list Branch) : G W NodeResult :=
  let items := zip (branches n) bs in
  lift (modify (λ rt, with_events rt (rt_events rt ++ concat (map br_events bs)))) ;;
  lift (complete_events items) ;;
  match first_branch_error n items with
  | Some e => throw e
  | None =>
      let paused := foldl add_pause plain_result items in
      if nr_interrupted paused then mret paused
      else
        owners ← of_result (join_owners n bs);
        merge_keys bs (map_items owners) ;;
        update_state (λ s, set_histories s (merge_histories bs (histories s))) ;;
        x ← exec id;
        (if is_empty_list (x_parents x) then update_ctx (λ c, set_c_progress c None) else mret tt) ;;
        mret plain_result
  end.

Definition run_parallel_node (node_fn : GraphNode W → option PendingResume → G W NodeResult) n : G W NodeResult :=
  bs ← start_branches n;
  x ← exec id;
  bs' ← run_branches node_fn (node_name n) (is_empty_list (x_parents x)) 0 bs;
  join_branches n bs'.

(** ** One node *)

Definition node_body (turn_fuel : nat) (parallel : GraphNode W → G W NodeResult) n (resume : option PendingResume) :
    G W NodeResult :=
  match kind n with
  | AgentNode => run_agent_node turn_fuel n resume
  | FunctionNode => run_function_node n
  | ToolNode => run_tool_node n
  | ParallelNode => parallel n
  | LoopNode => run_loop_node n
  end.

Fixpoint run_node (turn_fuel nest : nat) n (resume : option PendingResume) : G W NodeResult :=
  lift (emit NodeStart (node_name n) "" "") ;;
  lift (trigger_event OnStateTransition (node_name n)) ;;
  res ← attempt (node_body turn_fuel
                   (match nest with
                    | O => λ _, out_of_fuel
                    | S nest' => run_parallel_node (run_node turn_fuel nest')
                    end) n resume);
  (match res with
   | Fail e => lift (emit NodeFailed (node_name n) "" (message e))
   | Ok r => if nr_interrupted r then lift (emit EvInterrupt (node_name n) "" (nr_reason r))
             else lift (emit NodeEnd (node_name n) "" "")
   end) ;;
  of_result res.

End Nodes.
