(* ===== verification/GraphRun.v ===== *)
(** * Running, resuming and forking a graph (src/core/graph/graph_executor.cpp)

    The top level of the executor: [drive] runs the chain from [next_node],
    [finish] ends a call, [run_graph], [resume_graph] and [fork_graph_run] set
    a run up from its checkpoints; with [resolve_sink] and the thread
    operations of src/core/graph/graph_checkpointer.cpp. *)
From stdpp Require Import base gmap strings list.
From Stdlib Require Import Lia ZArith.
From S2P Require Import Prelude Arena Text Decimal Json Session Provider Tools History Turn Graph Checkpoint Checkpointer GraphExec.

(** ** Temporary keys *)

Definition clear_temp (s : GraphState) : GraphState :=
  mkGraphState (filter (λ kv, is_temp_key kv.1 = false) (values s)) (histories s) [] false "".

(** ** Approval *)

Definition is_space (c : Ascii.ascii) : bool := ((9 <=? byte_of c) && (byte_of c <=? 13) || (byte_of c =? 32))%N.

Definition to_lower (c : Ascii.ascii) : Ascii.ascii :=
  if ((65 <=? byte_of c) && (byte_of c <=? 90))%N then Ascii.ascii_of_N (byte_of c + 32) else c.

Definition is_approval (text : string) : bool :=
  let lower := of_bytes (map to_lower (List.filter (λ c, negb (is_space c)) (bytes text))) in
  existsb (str_eqb lower) ["approve"; "approved"; "yes"; "y"; "allow"; "ok"].

Definition approves (decision : option PermissionDecision) (human_input : string) : bool :=
  match decision with
  | Some Allow => true
  | Some Deny => false
  | Some Ask | None => is_approval human_input
  end.

Record GraphBranchInput := mkGraphBranchInput {
  bi_branch : string;
  bi_human_input : string;
  bi_decision : PermissionDecision
}.

(** One answer for every paused node, or per-branch answers. *)
Record ResumeRequest := mkResumeRequest {
  rq_per_branch : bool;
  rq_decision : option PermissionDecision;
  rq_human_input : string;
  rq_inputs : list GraphBranchInput
}.

(** What an answer gives: answers by branch entry, and for an interrupt outside
    a fan-out whether it is answered, the text and the approval. *)
Record Answers := mkAnswers {
  an_branches : gmap string PendingResume;
  an_top : bool;
  an_input : string;
  an_approved : bool
}.

Definition is_paused (b : BranchProgress) : bool := bool_decide (bp_status b = BInterrupted).

Definition no_paused_branch (branch thread : string) : Error :=
  make_error InvalidConfig ("resume_graph: no paused branch '" +:+ branch +:+ "' in thread '" +:+ thread +:+ "'").

(** The uniform answer, for every paused branch. *)
Definition uniform_answers (p : ParallelProgress) (req : ResumeRequest) : gmap string PendingResume :=
  foldl (λ m b, if is_paused b
                then <[bp_entry b := mkPendingResume [] (approves (rq_decision req) (rq_human_input req)) (rq_human_input req)]> m
                else m) ∅ (pp_branches p).

Fixpoint branch_answers (thread : string) (p : ParallelProgress) (inputs : list GraphBranchInput)
    (m : gmap string PendingResume) : Result (gmap string PendingResume) :=
  match inputs with
  | [] => Ok m
  | i :: rest =>
      if existsb (λ b, str_eqb (bp_entry b) (bi_branch i) && is_paused b) (pp_branches p) then
        branch_answers thread p rest
          (<[bi_branch i := mkPendingResume [] (approves (Some (bi_decision i)) (bi_human_input i)) (bi_human_input i)]> m)
      else Fail (no_paused_branch (bi_branch i) thread)
  end.

Fixpoint top_answers (thread : string) (was_interrupted : bool) (inputs : list GraphBranchInput) (acc : Answers) :
    Result Answers :=
  match inputs with
  | [] => Ok acc
  | i :: rest =>
      if negb (is_empty (bi_branch i)) || negb was_interrupted then Fail (no_paused_branch (bi_branch i) thread)
      else top_answers thread was_interrupted rest
             (mkAnswers ∅ true (bi_human_input i) (approves (Some (bi_decision i)) (bi_human_input i)))
  end.

Definition plan_answers (run : RunCore) (progress : option ParallelProgress) (req : ResumeRequest) : Result Answers :=
  let was_interrupted := bool_decide (status run = RunInterrupted) in
  match progress with
  | Some p =>
      let uniform := if negb (rq_per_branch req) && was_interrupted then uniform_answers p req else ∅ in
      result_bind (branch_answers (thread_id run) p (rq_inputs req) uniform) (λ m, Ok (mkAnswers m false "" false))
  | None =>
      if rq_per_branch req then
        top_answers (thread_id run) was_interrupted (rq_inputs req) (mkAnswers ∅ false "" false)
      else Ok (mkAnswers ∅ true (rq_human_input req) (approves (rq_decision req) (rq_human_input req)))
  end.

(** The paused nodes recorded in a checkpoint. *)
Definition paused_nodes (run : RunCore) (progress : option ParallelProgress) : list GraphInterrupt :=
  match progress with
  | Some p =>
      map (λ b, mkGraphInterrupt (bp_entry b) (bp_interrupt_node b) (bp_interrupt_reason b) (bp_pending b))
        (List.filter is_paused (pp_branches p))
  | None => [mkGraphInterrupt "" (interrupt_node run) (run_interrupt_reason run) (pending_tool_calls run)]
  end.

(** ** Calls a restarted thread left without results *)

Definition kAbandonedCall : string :=
  "Error: tool call not executed: the run was restarted with run_graph before the call was approved (use resume_graph to answer " +:+
  "pending tool calls)".

(** Index of the first of the trailing tool messages. *)
Definition tool_tail (h : list Message) : nat := length h - leading (is_role "tool") (reverse h).

(** The calls of the last assistant message, if it has any. *)
Definition abandoned_round (h : list Message) : option (list ToolCall) :=
  match tool_tail h with
  | O => None
  | S k =>
      match h !! k with
      | Some m => if is_role "assistant" m && negb (is_empty_list (tool_calls m)) then Some (tool_calls m) else None
      | None => None
      end
  end.

Definition is_answered (h : list Message) (i : nat) (id : string) : bool :=
  existsb (λ m, str_eqb (tool_call_id m) id) (drop i h).

Definition abandoned_message (tc : ToolCall) : Message := mkMessage "tool" kAbandonedCall [] (call_id tc) [] [] (-1).

Section Run.
Context {W : Type} `{Host W} `{JsonParser}.
Implicit Types (x : Exec W) (n : GraphNode W) (g : Graph W).

Fixpoint answer_calls (name : string) (i : nat) (calls : list ToolCall) (h : list Message) : M W (list Message) :=
  match calls with
  | [] => mret h
  | tc :: rest =>
      if is_answered h i (call_id tc) then answer_calls name i rest h
      else
        log_event EvToolResult name (call_name tc) kAbandonedCall ;;
        answer_calls name i rest (h ++ [abandoned_message tc])
  end.

Definition answer_history (name : string) (m : FlowMemory) : M W FlowMemory :=
  match abandoned_round (history m) with
  | None => mret m
  | Some calls => h ← answer_calls name (tool_tail (history m)) calls (history m); mret (set_history m h)
  end.

Fixpoint answer_items (items : list (string * FlowMemory)) (out : gmap string FlowMemory) :
    M W (gmap string FlowMemory) :=
  match items with
  | [] => mret out
  | (name, m) :: rest => m' ← answer_history name m; answer_items rest (<[name := m']> out)
  end.

Definition answer_abandoned_calls (s : GraphState) : M W GraphState :=
  h ← answer_items (map_items (histories s)) (histories s); mret (set_histories s h).

(** ** The end of a call *)

Definition record_error (e : Error) : G W unit :=
  update_run (λ r, set_status r RunFailed) ;; update (λ x, set_x_error x (Some e)).

(** Queued checkpoints flushed, final checkpoint, temp: keys dropped; the first
    checkpoint error. *)
Definition close_run : G W (Result unit) :=
  c ← exec x_ctx;
  flushed ← (if c_writer c then attempt flush_writer else mret (Ok tt));
  written ← attempt (write_checkpoint false);
  update_state clear_temp ;;
  mret (match flushed with Ok _ => written | Fail e => Fail e end).

Definition finish (error : option Error) : G W unit :=
  match error with
  | Some e => record_error e ;; close_run ;; throw e
  | None =>
      cp ← close_run;
      match cp with
      | Ok _ => mret tt
      | Fail e => record_error e ;; throw e
      end
  end.

Definition complete_run : G W unit :=
  update_run (λ r, set_next (set_status r RunCompleted) "") ;; finish None.

(** The run pauses on node [n]; [next_node] stays there. *)
Definition interrupt_run n (r : NodeResult) : G W unit :=
  update_run (λ run, set_pending (set_ireason (set_inode (set_status run RunInterrupted) (node_name n)) (nr_reason r))
                       (nr_pending r)) ;;
  update (λ x, set_x_interrupts x
    (match nr_interrupts r with
     | [] => x_interrupts x ++ [mkGraphInterrupt "" (node_name n) (nr_reason r) (nr_pending r)]
     | l => l
     end)) ;;
  finish None.

(** ** The chain of a run *)

Section Drive.
Context (turn_fuel nest : nat).

(** One node of the top-level chain, up to the choice of the next one. *)
Definition drive_node n (resume : option PendingResume) : G W (NodeResult + string) :=
  res ← attempt (run_node turn_fuel nest n (kind_resume n resume));
  match res with
  | Fail e => update_state (λ s, set_written s []) ;; throw e
  | Ok r =>
      drain_writes (node_name n) ;;
      if nr_interrupted r then mret (inl r)
      else next ← resolve_next n r; mret (inr next)
  end.

Definition advance (next : string) : G W unit :=
  update_run (λ r, set_step (set_next r next) (u64 (step r + 1))).

(** [steps] are the steps left of [max_steps]. *)
Fixpoint drive_loop (steps : nat) (resume : option PendingResume) : G W unit :=
  x ← exec id;
  let g := c_graph (x_ctx x) in
  let current := next_node (x_run x) in
  if str_eqb current kGraphEnd then complete_run
  else
    match steps with
    | O => finish (Some (make_error InvalidConfig ("graph '" +:+ graph_name g +:+ "' exceeded max_steps (" +:+
                                                   to_string (max_steps g) +:+ ")")))
    | S steps' =>
        match find_node g current with
        | None => finish (Some (make_error InvalidConfig ("unknown node '" +:+ current +:+ "'")))
        | Some n =>
            res ← attempt (drive_node n resume);
            match res with
            | Fail e => finish (Some e)
            | Ok (inl r) => interrupt_run n r
            | Ok (inr next) =>
                advance next ;;
                if str_eqb next kGraphEnd then complete_run
                else
                  cp ← attempt step_checkpoint;
                  match cp with
                  | Fail e => finish (Some e)
                  | Ok _ => drive_loop steps' None
                  end
            end
        end
    end.

Definition drive (resume : option PendingResume) : G W unit :=
  seeded ← attempt (drain_writes "");
  match seeded with
  | Fail e => finish (Some e)
  | Ok _ =>
      g ← exec (λ x, c_graph (x_ctx x));
      drive_loop (Z.to_nat (max_steps g)) resume
  end.

(** ** Setting a run up *)

Definition reset_run_status : G W unit :=
  update_run (λ r, set_pending (set_ireason (set_inode (set_status r RunRunning) "") "") []) ;;
  update (λ x, set_x_interrupts (set_x_error x None) []).

Definition load_scoped : G W unit :=
  x ← exec id;
  '(st, index, r) ← lift (load_scoped_state (x_state x) ∅);
  update (λ x, set_x_index (set_x_state x st) index) ;; of_result r.

(** The caller's values, histories and written keys over the loaded state. *)
Definition seed_state (seed s : GraphState) : GraphState :=
  mkGraphState (insert_all (map_items (values seed)) (values s)) (insert_all (map_items (histories seed)) (histories s))
    (written seed) (interrupt_requested s) (interrupt_reason s).

Definition get_latest (thread : string) : G W (Result string) :=
  x ← exec id; lift (b_get_latest (c_sink (x_ctx x)) thread).

Definition empty_run (thread : string) : RunCore := mkRunCore thread empty_state RunPending "" 0 "" "" [].

(** Continue the thread: values and histories of its latest checkpoint. *)
Definition continue_thread : G W unit :=
  thread ← exec (λ x, thread_id (x_run x));
  stored ← get_latest thread;
  match stored with
  | Ok text =>
      '(previous, _) ← of_result (decode_checkpoint text (empty_run thread) false);
      let kept := List.filter (λ kv, negb (is_internal_key kv.1)) (map_items (values (state previous))) in
      update_state (λ s, set_histories (set_values s (insert_all kept (values s))) (histories (state previous))) ;;
      update_run (λ r, set_step r (step previous)) ;;
      s ← exec x_state;
      s' ← lift (answer_abandoned_calls s);
      update_state (λ _, s')
  | Fail e => if bool_decide (code e = KeyNotFound) then mret tt else throw e
  end.

(** Everything [run_graph] does before it drives the run. *)
Definition start_run g (seed : GraphState) : G W unit :=
  continue_thread ;;
  load_scoped ;;
  update_state (seed_state seed) ;;
  reset_run_status ;;
  update_run (λ r, set_next r (entry g)).

(** The run of a stored checkpoint, with its progress. *)
Definition restore_run (text : string) : G W (RunCore * option ParallelProgress) :=
  update_state (λ _, empty_state) ;;
  update_run (λ r, set_pending r []) ;;
  x ← exec id;
  '(run, progress) ← of_result (decode_checkpoint text (current_run x) true);
  update (λ x, set_x_state (set_x_run x run) (state run)) ;;
  mret (run, progress).

(** Restarts a restored run with its answers. *)
Definition resume_run (run : RunCore) (a : Answers) : G W unit :=
  let top := mkPendingResume (if an_top a then pending_tool_calls run else []) (an_approved a) (an_input a) in
  load_scoped ;;
  reset_run_status ;;
  log_run_event Resume (next_node run) "" (an_input a) ;;
  (if is_empty (an_input a) then mret tt else update_state (λ s, set_state s "temp:human_input" (an_input a))) ;;
  drive (if is_empty_list (pr_calls top) then None else Some top).

Definition set_c_resume (c : RunCtx W) p m : RunCtx W :=
  mkRunCtx (c_graph c) (c_sink c) (c_writer c) (c_jobs c) (c_durability c) (c_models c) (c_persisted c)
    (c_forked_from c) p m.

Definition resume_body (req : ResumeRequest) : G W unit :=
  thread ← exec (λ x, thread_id (x_run x));
  stored ← get_latest thread;
  match stored with
  | Fail e =>
      if bool_decide (code e = KeyNotFound) then
        throw (make_error KeyNotFound ("resume_graph: no checkpoint for thread '" +:+ thread +:+ "'"))
      else throw e
  | Ok text =>
      '(run, progress) ← restore_run text;
      if bool_decide (status run = RunCompleted) then mret tt
      else
        a ← of_result (plan_answers run progress req);
        update_ctx (λ c, set_c_resume c progress (an_branches a)) ;;
        resume_run run a
  end.

Definition fork_body (source target : string) (n : Z) : G W unit :=
  existing ← get_latest target;
  match existing with
  | Ok _ => throw (make_error InvalidConfig ("fork_graph_run: thread '" +:+ target +:+
                     "' already has checkpoints (delete_graph_thread it first)"))
  | Fail e =>
      if negb (bool_decide (code e = KeyNotFound)) then throw e
      else
        x ← exec id;
        stored ← lift (b_get (c_sink (x_ctx x)) source n);
        match stored with
        | Fail e => throw (mkError (code e) ("fork_graph_run: " +:+ message e))
        | Ok text =>
            update_run (λ r, set_thread r target) ;;
            '(run, progress) ← restore_run text;
            update_run (λ r, set_step r n) ;;
            update_ctx (λ c, set_c_progress c progress) ;;
            load_scoped ;;
            update_state (seed_state (x_state x)) ;;
            update_ctx (λ c, set_c_forked c (source +:+ ":" +:+ to_string n)) ;;
            log_run_event Fork (next_node run) (source +:+ ":" +:+ to_string n) "" ;;
            copied ← attempt (write_checkpoint false);
            update_ctx (λ c, set_c_forked c "") ;;
            of_result copied ;;
            match status run with
            | RunCompleted => update_state clear_temp
            | RunInterrupted =>
                r ← exec x_run;
                update (λ x, set_x_interrupts x (paused_nodes r progress)) ;; update_state clear_temp
            | _ => reset_run_status ;; drive None
            end
        end
  end.

End Drive.

(** ** Sinks *)

Definition not_open {A} : Result A := fail InvalidConfig "graph checkpointer is not open (use open_checkpointer)".
Definition incomplete {A} : Result A :=
  fail InvalidConfig ("graph checkpointer is missing one of put/get_latest/get/list/delete_thread, or " +:+
                      "sets only one of append_events/list_events").

(** The backend of a call and whether it has a writer. *)
Definition resolve_sink (s : Session W) (cp : option (Checkpointer W)) (want_writer : bool) :
    Result (Backend (Rt W) * bool) :=
  match cp with
  | Some c =>
      if negb (cp_state c) then not_open
      else if negb (cp_complete c) then incomplete
      else Ok (cp_ops c, want_writer || cp_writer c)
  | None =>
      match memory_state s with
      | None => not_initialized
      | Some _ => Ok (kStoreCheckpointer, want_writer)
      end
  end.

(** [CheckpointerOps]: [open], with whether the state it returns is not null;
    which of the other entries are set; what they do. *)
Record CheckpointerOps := mkCheckpointerOps {
  ops_open : option (W → W * Result bool);
  has_put : bool; has_get_latest : bool; has_get : bool; has_list : bool; has_delete_thread : bool;
  has_append_events : bool; has_list_events : bool;
  ops_backend : Backend (Rt W)
}.

Definition complete (ops : CheckpointerOps) : bool :=
  has_put ops && has_get_latest ops && has_get ops && has_list ops && has_delete_thread ops &&
  bool_decide (has_append_events ops = has_list_events ops).

(** The checkpointer and the capacity of its writer's queue. *)
Definition open_checkpointer (ops : option CheckpointerOps) (async_queue_capacity : nat) (w : W) : W * Result (Checkpointer W * nat) :=
  match ops with
  | None => (w, fail InvalidConfig "open_checkpointer: ops is null")
  | Some ops =>
      let missing := fail InvalidConfig
        ("open_checkpointer: CheckpointerOps is missing one of open/put/get_latest/get/list/delete_thread, or " +:+
         "sets only one of append_events/list_events") in
      match ops_open ops with
      | None => (w, missing)
      | Some open =>
          if negb (complete ops) then (w, missing)
          else
            let '(w, opened) := open w in
            (w, match opened with
                | Fail e => Fail e
                | Ok state =>
                    Ok (mkCheckpointer (ops_backend ops) state (complete ops) true,
                        if Nat.eqb async_queue_capacity 0 then 1%nat else async_queue_capacity)
                end)
      end
  end.

Definition default_thread (t : string) : string := if is_empty t then "default" else t.

Definition list_graph_checkpoints (fuel : nat) (t : string) (cp : option (Checkpointer W)) :
    M W (option (Result (list GraphCheckpointInfo))) :=
  s ← ask rt_session;
  match resolve_sink s cp false with
  | Fail e => mret (Some (Fail e))
  | Ok (sink, _) => b_list sink fuel (default_thread t)
  end.

Definition list_graph_events (t : string) (cp : option (Checkpointer W)) : M W (Result (list GraphEvent)) :=
  s ← ask rt_session;
  match resolve_sink s cp false with
  | Fail e => mret (Fail e)
  | Ok (sink, _) =>
      if b_has_events sink then b_list_events sink (default_thread t)
      else mret (fail UnsupportedProvider "graph checkpointer has no event log")
  end.

Definition delete_graph_thread (fuel : nat) (t : string) (cp : option (Checkpointer W)) : M W (option (Result unit)) :=
  s ← ask rt_session;
  match resolve_sink s cp false with
  | Fail e => mret (Some (Fail e))
  | Ok (sink, _) => b_delete_thread sink fuel (default_thread t)
  end.

(** What [open_checkpointer] returns is a sink whose writer accepts jobs, unless
    [open] gave no state: then every use is refused. *)
Lemma opened_checkpointer_resolves ops (capacity : nat) w w' cp cap s want :
  open_checkpointer (Some ops) capacity w = (w', Ok (cp, cap)) →
  (0 < cap)%nat ∧ resolve_sink s (Some cp) want = if cp_state cp then Ok (ops_backend ops, true) else not_open.
Proof.
  unfold open_checkpointer. destruct (ops_open ops) as [open|]; [|done]. destruct (complete ops) eqn:Ec; cbn [negb]; [|done].
  destruct (open w) as [w1 [st|e]]; [|done]. intros [= _ <- <-]. split; [destruct (Nat.eqb_spec capacity 0); lia|].
  unfold resolve_sink. cbn. destruct st; cbn; [|done]. by rewrite orb_true_r.
Qed.

(** ** The calls of the API *)

Definition set_core (run : GraphRun W) (core : RunCore) : GraphRun W :=
  mkGraphRun core (run_durability run) (run_checkpointer run) (run_error run) (run_interrupts run) (run_events run)
    (run_models run) (run_on_event run).

(** The [RunCtx] and the top-level chain of a call. *)
Definition start_exec g (run : GraphRun W) (sink : Backend (Rt W)) (writer : bool) : Exec W :=
  mkExec (state (run_core run)) None [] (run_core run) (run_error run) (run_interrupts run) ∅ []
    (mkRunCtx g sink writer [] (run_durability run) (run_models run) (length (run_events run)) "" None ∅).

(** Runs [m] on the caller's [GraphRun], which holds the events while it runs. *)
Definition in_run g (run : GraphRun W) (m : G W unit) (rt : Rt W) : Rt W * GraphRun W * option (Result unit) :=
  match resolve_sink (rt_session rt) (run_checkpointer run) (bool_decide (run_durability run = DurAsync)) with
  | Fail e => (rt, run, Some (Fail e))
  | Ok (sink, writer) =>
      let rt0 := mkRt (rt_session rt) (rt_world rt) (rt_ambient rt) (run_events run) (run_on_event run) in
      let '(st, r) := m (mkSt rt0 (start_exec g run sink writer)) in
      let rt1 := g_rt st in
      let x := g_x st in
      (mkRt (rt_session rt1) (rt_world rt1) (rt_ambient rt1) (rt_events rt) (rt_on_event rt),
       mkGraphRun (set_run_state (x_run x) (x_state x)) (run_durability run) (run_checkpointer run) (x_error x)
         (x_interrupts x) (rt_events rt1) (run_models run) (run_on_event run), r)
  end.

Definition run_graph (turn_fuel nest : nat) g (run : GraphRun W) (rt : Rt W) : Rt W * GraphRun W * option (Result unit) :=
  match validate g with
  | Fail e => (rt, run, Some (Fail e))
  | Ok _ =>
      let core := run_core run in
      let fresh := set_step (set_run_state (set_thread core (default_thread (thread_id core))) empty_state) 0 in
      in_run g (set_core run fresh) (start_run g (state core) ;; drive turn_fuel nest None) rt
  end.

Definition resume_impl (turn_fuel nest : nat) g (thread : string) (run : GraphRun W) (req : ResumeRequest) (rt : Rt W) :
    Rt W * GraphRun W * option (Result unit) :=
  match validate g with
  | Fail e => (rt, run, Some (Fail e))
  | Ok _ =>
      in_run g (set_core run (set_thread (run_core run) (default_thread thread))) (resume_body turn_fuel nest req) rt
  end.

Definition resume_graph turn_fuel nest g thread run (human_input : string) :=
  resume_impl turn_fuel nest g thread run (mkResumeRequest false None human_input []).

Definition resume_graph_decision turn_fuel nest g thread run (decision : PermissionDecision) (human_input : string) :=
  resume_impl turn_fuel nest g thread run
    (mkResumeRequest false (Some (if bool_decide (decision = Allow) then Allow else Deny)) human_input []).

Definition resume_graph_inputs turn_fuel nest g thread run (inputs : list GraphBranchInput) :=
  resume_impl turn_fuel nest g thread run (mkResumeRequest true None "" inputs).

Definition fork_graph_run (turn_fuel nest : nat) g (thread : string) (n : Z) (new_thread : string) (run : GraphRun W)
    (rt : Rt W) : Rt W * GraphRun W * option (Result unit) :=
  match validate g with
  | Fail e => (rt, run, Some (Fail e))
  | Ok _ =>
      let source := default_thread thread in
      if is_empty new_thread || str_eqb new_thread source then
        (rt, run, Some (fail InvalidConfig ("fork_graph_run: the new thread id must be non-empty and differ from '" +:+
                                            source +:+ "'")))
      else in_run g run (fork_body turn_fuel nest source new_thread n) rt
  end.

End Run.

(** ** A small graph: a loop around a function that counts in the state *)

Module GraphSample.

Definition work : GraphFunctionFn unit := λ s st w,
  (s, set_state st "done" (get_state st "done" "" +:+ "x"), w, Ok tt).

Definition work_node : GraphNode unit :=
  mkGraphNode "work" FunctionNode "" [] "" "" "" false "" None [] "" (Some work) "" None [] "" 1 None "".

Definition graph : Graph unit := make_loop "again" (make_graph work_node) 2 None.

Definition run : GraphRun unit :=
  mkGraphRun (mkRunCore "t" empty_state RunPending "" 0 "" "" []) DurSync None None [] [] None None.

Definition result : Rt unit * GraphRun unit * option (Result unit) :=
  @run_graph unit Sample.sample_host RefParser.parser 1 1 graph run Sample.rt.

(** Two rounds of the loop, then the end: five nodes ran. *)
Example sample_run :
  let '(_, run', r) := result in
  r = Some (Ok tt) ∧ status (run_core run') = RunCompleted ∧ step (run_core run') = 5%Z ∧
  values (state (run_core run')) !! "done" = Some "xx".
Proof. vm_compute. by split_and!. Qed.

End GraphSample.
