(* ===== verification/GraphTheory.v ===== *)
(** * Theorems on graph runs

    What a call of the executor leaves behind: the frame every node keeps, the
    outcome of [drive], the join of a fan-out, the loop counter, the answers a
    restarted thread gets, denied calls, and termination. *)
From stdpp Require Import base gmap strings list.
From Stdlib Require Import Lia ZArith.
From S2P Require Import Prelude Arena Text Decimal Json Session Provider Tools History Turn Graph Checkpoint Checkpointer GraphExec GraphRun.

(** ** Frames of graph computations *)

Section Keeps.
Context {W : Type} (R : Exec W → Exec W → Prop) `{!PreOrder R}.

(** Every run of [m] that returns relates the chain before to the chain after. *)
Definition keeps {A} (m : G W A) : Prop := ∀ st, (m st).2 ≠ None → R (g_x st) (g_x (m st).1).

Lemma keeps_ret {A} (a : A) : keeps (mret a).
Proof. intros st _. simpl. reflexivity. Qed.

Lemma keeps_bind {A B} (m : G W A) (k : A → G W B) : keeps m → (∀ a, keeps (k a)) → keeps (m ≫= k).
Proof.
  intros Hm Hk st. unfold mbind, G_bind. specialize (Hm st). destruct (m st) as [st' [[a|e]|]]; simpl in *; [|by auto|done].
  intros Hr. etransitivity; [by apply Hm|by apply Hk].
Qed.

Lemma keeps_exec_only {A} (f : Exec W → A) : keeps (exec f).
Proof. intros st _. simpl. reflexivity. Qed.

Lemma keeps_attempt {A} (m : G W A) : keeps m → keeps (attempt m).
Proof. intros Hm st. unfold attempt. specialize (Hm st). destruct (m st) as [st' [r|]]; simpl in *; [|done]. intros _. by apply Hm. Qed.

Lemma keeps_lift {A} (m : M W A) : keeps (lift m).
Proof. intros st _. unfold lift. destruct (m (g_rt st)). simpl. reflexivity. Qed.

Lemma keeps_result {A} (r : Result A) : keeps (of_result r).
Proof. intros st _. simpl. reflexivity. Qed.

Lemma keeps_throw {A} (e : Error) : keeps (throw (A := A) e).
Proof. intros st _. simpl. reflexivity. Qed.

Lemma keeps_out {A} : keeps (out_of_fuel (A := A)).
Proof. intros st Hr. done. Qed.

Lemma keeps_liftR {A} (m : M W (Result A)) : keeps (liftR m).
Proof. unfold liftR. apply keeps_bind; [apply keeps_lift|intros r; apply keeps_result]. Qed.

Lemma keeps_update (f : Exec W → Exec W) : (∀ x, R x (f x)) → keeps (update f).
Proof. intros Hf st _. apply Hf. Qed.

End Keeps.

Create HintDb keeps.

Ltac keeps_step :=
  lazymatch goal with
  | |- keeps _ (mret _) => apply keeps_ret; exact _
  | |- keeps _ (exec _) => apply keeps_exec_only; exact _
  | |- keeps _ (lift _) => apply keeps_lift; exact _
  | |- keeps _ (liftR _) => apply keeps_liftR; exact _
  | |- keeps _ (of_result _) => apply keeps_result; exact _
  | |- keeps _ (throw _) => apply keeps_throw; exact _
  | |- keeps _ out_of_fuel => apply keeps_out; exact _
  | |- keeps _ (attempt _) => apply keeps_attempt
  | |- keeps _ (update _) => apply keeps_update; intros; by split_and?
  | |- keeps _ (update_state _) => apply keeps_update; intros; by split_and?
  | |- keeps _ (update_ctx _) => apply keeps_update; intros; by split_and?
  | |- keeps _ (_ ≫= _) => apply keeps_bind; [exact _| |intros ?]
  | |- keeps _ (match ?x with _ => _ end) => destruct x
  | |- keeps _ (let '(_, _) := ?x in _) => destruct x
  end.
Ltac keep := repeat first [keeps_step | progress (eauto with keeps)].

(** What running a node leaves alone: the run apart from its state, the graph,
    the sink, the models and the enclosing chains. *)
Definition same_frame {W : Type} (x y : Exec W) : Prop :=
  x_run y = x_run x ∧ x_error y = x_error x ∧ x_interrupts y = x_interrupts x ∧ x_parents y = x_parents x ∧
  c_graph (x_ctx y) = c_graph (x_ctx x) ∧ c_sink (x_ctx y) = c_sink (x_ctx x) ∧
  c_writer (x_ctx y) = c_writer (x_ctx x) ∧ c_durability (x_ctx y) = c_durability (x_ctx x) ∧
  c_models (x_ctx y) = c_models (x_ctx x).

#[global] Instance same_frame_preorder {W : Type} : PreOrder (@same_frame W).
Proof.
  split; [by intros x; split_and!|]. unfold same_frame. intros x y z Hxy Hyz. destruct_and!.
  split_and!; congruence.
Qed.

Section Frame.
Context {W : Type} `{Host W} `{JsonParser}.
Implicit Types (n : GraphNode W).

Lemma frame_log_run type node key payload : keeps same_frame (log_run_event (W := W) type node key payload).
Proof. unfold log_run_event. keep. Qed.

Lemma frame_event_log : keeps same_frame (run_event_log (W := W)).
Proof. unfold run_event_log. keep. Qed.

#[local] Hint Resolve frame_log_run frame_event_log : keeps.

Lemma frame_write through : keeps same_frame (write_checkpoint (W := W) through).
Proof. unfold write_checkpoint. keep. Qed.

Lemma frame_history name : keeps same_frame (history_for (W := W) name).
Proof. unfold history_for. keep. Qed.

Lemma frame_drain_keys node keys : keeps same_frame (drain_keys (W := W) node keys).
Proof. induction keys as [|k keys IH]; simpl; keep. Qed.

#[local] Hint Resolve frame_write frame_history frame_drain_keys : keeps.

Lemma frame_drain node : keeps same_frame (drain_writes (W := W) node).
Proof. unfold drain_writes. keep. Qed.

Lemma frame_call {A} (f : StateFn W A) : keeps same_frame (call_state_fn f).
Proof. unfold call_state_fn. keep. Qed.

#[local] Hint Resolve frame_drain frame_call : keeps.

Lemma frame_lease n : keeps same_frame (acquire_lease n).
Proof. unfold acquire_lease. keep. Qed.

#[local] Hint Resolve frame_lease : keeps.

Lemma frame_agent fuel n r : keeps same_frame (run_agent_node fuel n r).
Proof. unfold run_agent_node. keep. Qed.

Lemma frame_function n : keeps same_frame (run_function_node n).
Proof.
  unfold run_function_node. keep.
  match goal with f : GraphFunctionFn _ |- _ => rename f into fn end. intros st _.
  destruct (fn _ _ _) as [[[? ?] ?] ?]. simpl. by split_and!.
Qed.

Lemma frame_tool n : keeps same_frame (run_tool_node n).
Proof. unfold run_tool_node. keep. Qed.

Lemma frame_loop n : keeps same_frame (run_loop_node n).
Proof. unfold run_loop_node. keep. Qed.

Lemma frame_next n r : keeps same_frame (resolve_next n r).
Proof. unfold resolve_next. keep. Qed.

Lemma frame_step : keeps same_frame (step_checkpoint (W := W)).
Proof. unfold step_checkpoint. keep. Qed.

#[local] Hint Resolve frame_agent frame_function frame_tool frame_loop frame_next frame_step : keeps.

Lemma frame_save i b s next : keeps same_frame (save_branch (W := W) i b s next).
Proof. unfold save_branch, update_record. keep. Qed.

#[local] Hint Resolve frame_save : keeps.

Lemma frame_failed i b c e : keeps same_frame (branch_failed (W := W) i b c e).
Proof. unfold branch_failed. keep. Qed.

Lemma frame_track i b s c : keeps same_frame (track (W := W) i b s c).
Proof. unfold track. keep. Qed.

#[local] Hint Resolve frame_failed frame_track : keeps.

(** The branch's chain is left with the enclosing one as it was. *)
Lemma frame_in_branch b (m : G W Branch) : keeps same_frame m → keeps same_frame (in_branch b m).
Proof.
  intros Hm st. unfold in_branch, mbind, G_bind, exec, lift, update, attempt, of_result, ask, modify, id.
  cbn beta iota. simpl.
  match goal with |- context [m ?s] => pose proof (Hm s) as Hf; destruct (m s) as [st' [r|]] end; simpl in *; [|done].
  specialize (Hf ltac:(done)). unfold same_frame in *. simpl in *. destruct_and!.
  destruct r; simpl; intros _; split_and!; done.
Qed.

Lemma frame_branch_loop fn steps b current join i r :
  (∀ n r, keeps same_frame (fn n r)) → keeps same_frame (branch_loop (W := W) fn steps b current join i r).
Proof.
  intros Hfn. revert b current r. induction steps as [|steps IH]; intros b current r; cbn [branch_loop]; keep.
Qed.

Lemma frame_run_branches fn join tracked i bs :
  (∀ n r, keeps same_frame (fn n r)) → keeps same_frame (run_branches (W := W) fn join tracked i bs).
Proof.
  intros Hfn. revert i. induction bs as [|b bs IH]; intros i; cbn [run_branches]; keep.
  apply frame_in_branch. unfold run_branch. keep. by apply frame_branch_loop.
Qed.

Lemma frame_start n : keeps same_frame (start_branches n).
Proof. unfold start_branches. keep. Qed.

Lemma frame_merge bs items : keeps same_frame (merge_keys (W := W) bs items).
Proof. induction items as [|[k i] items IH]; cbn [merge_keys]; keep. Qed.

#[local] Hint Resolve frame_start frame_merge frame_run_branches : keeps.

Lemma frame_join n bs : keeps same_frame (join_branches n bs).
Proof. unfold join_branches. keep. Qed.

#[local] Hint Resolve frame_join : keeps.

Lemma frame_node fuel nest n r : keeps same_frame (run_node fuel nest n r).
Proof.
  revert n r. induction nest as [|nest IH]; intros n r; cbn [run_node]; unfold node_body, run_parallel_node; keep.
Qed.

#[local] Hint Resolve frame_node : keeps.

Lemma frame_drive_node fuel nest n r : keeps same_frame (drive_node fuel nest n r).
Proof. unfold drive_node. keep. Qed.

End Frame.

(** ** The outcome of a call *)

(** Checkpoint writes also leave the chain's state alone. *)
Definition same_chain {W : Type} (x y : Exec W) : Prop :=
  same_frame x y ∧ x_state y = x_state x ∧ x_writes y = x_writes x.

#[global] Instance same_chain_preorder {W : Type} : PreOrder (@same_chain W).
Proof.
  split; [intros x; split; [reflexivity|done]|]. unfold same_chain. intros x y z (H1 & E1 & F1) (H2 & E2 & F2).
  split; [by etransitivity|]. split; congruence.
Qed.

(** No temporary key, no undrained write, no pending interrupt request. *)
Definition ended (s : GraphState) : Prop :=
  (∀ k, is_temp_key k = true → values s !! k = None) ∧ written s = [] ∧ interrupt_requested s = false.

Lemma clear_temp_ended s : ended (clear_temp s).
Proof.
  split; [|done]. intros k Hk. simpl. apply map_lookup_filter_None. right. intros v _. simpl. congruence.
Qed.

Section Outcome.
Context {W : Type} `{Host W} `{JsonParser}.
Implicit Types (n : GraphNode W) (x : Exec W) (st : St W).

Lemma chain_log_run type node key payload : keeps same_chain (log_run_event (W := W) type node key payload).
Proof. unfold log_run_event. keep. Qed.

Lemma chain_event_log : keeps same_chain (run_event_log (W := W)).
Proof. unfold run_event_log. keep. Qed.

#[local] Hint Resolve chain_log_run chain_event_log : keeps.

Lemma chain_write through : keeps same_chain (write_checkpoint (W := W) through).
Proof. unfold write_checkpoint. keep. Qed.

Lemma chain_flush : keeps same_chain (flush_writer (W := W)).
Proof. intros st _. by split_and!. Qed.

#[local] Hint Resolve chain_write chain_flush : keeps.

(** A computation that always returns. *)
Definition total {A} (m : G W A) : Prop := ∀ st, (m st).2 ≠ None.

Lemma total_bind {A B} (m : G W A) (k : A → G W B) : total m → (∀ a, total (k a)) → total (m ≫= k).
Proof.
  intros Hm Hk st. unfold mbind, G_bind. specialize (Hm st). destruct (m st) as [st' [[a|e]|]]; [apply Hk|done|done].
Qed.

Lemma total_attempt {A} (m : G W A) : total m → total (attempt m).
Proof. intros Hm st. unfold attempt. specialize (Hm st). by destruct (m st) as [st' [r|]]. Qed.

Lemma total_lift {A} (m : M W A) : total (lift m).
Proof. intros st. unfold lift. by destruct (m (g_rt st)). Qed.

Lemma total_liftR {A} (m : M W (Result A)) : total (liftR m).
Proof. apply total_bind; [apply total_lift|done]. Qed.

#[local] Ltac return_step :=
  first [ apply total_bind; [|intros ?] | apply total_attempt | apply total_lift | apply total_liftR
        | match goal with |- total (match ?x with _ => _ end) => destruct x end | done ].

Lemma total_write through : total (write_checkpoint (W := W) through).
Proof. unfold write_checkpoint, log_run_event, run_event_log. repeat return_step. Qed.

(** How [finish] ends. *)
Definition finished (error : option Error) x x' (r : option (Result unit)) : Prop :=
  ended (x_state x') ∧
  ((error = None ∧ r = Some (Ok tt) ∧ x_run x' = x_run x ∧ x_interrupts x' = x_interrupts x) ∨
   (∃ e, r = Some (Fail e) ∧ status (x_run x') = RunFailed ∧ x_error x' = Some e ∧ (error = None ∨ error = Some e))).

Lemma close_run_spec st :
  ∃ st' r, close_run st = (st', Some (Ok r)) ∧ same_frame (g_x st) (g_x st') ∧ ended (x_state (g_x st')).
Proof.
  unfold close_run, mbind, G_bind, exec.
  set (flush := (if c_writer (x_ctx (g_x st)) then attempt flush_writer else mret (Ok tt)) : G W (Result unit)).
  assert (Hf : keeps same_chain flush ∧ ∀ s, ∃ r, (flush s).2 = Some (Ok r)).
  { subst flush. destruct (c_writer _); split; [keep|by eexists|keep|by eexists]. }
  destruct Hf as [Hf Hr]. specialize (Hf st). destruct (Hr st) as [r1 Hr1].
  destruct (flush st) as [st1 o]. simpl in *. subst o. specialize (Hf ltac:(done)).
  pose proof (chain_write false st1) as Hw. pose proof (total_write false st1) as Ht. unfold attempt.
  destruct (write_checkpoint false st1) as [st2 [r2|]]; simpl in *; [|done]. specialize (Hw ltac:(done)).
  eexists _, _. split; [done|]. simpl. split; [|apply clear_temp_ended].
  transitivity (g_x st1); [apply Hf|]. transitivity (g_x st2); [apply Hw|]. by split_and!.
Qed.

Lemma finish_spec error st : finished error (g_x st) (g_x (finish error st).1) (finish error st).2.
Proof.
  unfold finish, finished. destruct error as [e|]; unfold mbind, G_bind.
  - simpl. match goal with |- context [close_run ?s] => destruct (close_run_spec s) as (st' & r & -> & Hf & He) end.
    simpl in *. split; [done|]. right. exists e. destruct Hf as (-> & -> & _). simpl. auto.
  - destruct (close_run_spec st) as (st' & r & -> & Hf & He). destruct r as [[]|e]; simpl.
    + split; [done|]. left. destruct Hf as (-> & _ & -> & _). done.
    + split; [done|]. right. exists e. auto.
Qed.

(** What a call leaves in the run. *)
Definition outcome x (r : Result unit) : Prop :=
  ended (x_state x) ∧
  match r with
  | Ok _ => (status (x_run x) = RunCompleted ∧ next_node (x_run x) = "") ∨
            (status (x_run x) = RunInterrupted ∧ next_node (x_run x) = interrupt_node (x_run x) ∧
             next_node (x_run x) ≠ kGraphEnd ∧ x_interrupts x ≠ [])
  | Fail e => status (x_run x) = RunFailed ∧ x_error x = Some e
  end.

(** [m] returns at [st], with an outcome that agrees with its result. *)
Definition ends_well (m : G W unit) st : Prop := ∃ r, (m st).2 = Some r ∧ outcome (g_x (m st).1) r.

Lemma ends_well_result m st st' r : ends_well m st → m st = (st', Some r) → outcome (g_x st') r.
Proof. intros (r' & Hr & Ho) E. rewrite E in Hr, Ho. simpl in *. congruence. Qed.

Lemma finish_failed e st : ends_well (finish (Some e)) st.
Proof.
  destruct (finish_spec (Some e) st) as [He [(? & _)|(e' & Hr & Hs & Hx & [?|[= ->]])]]; [done|done|].
  exists (Fail e'). by split_and!.
Qed.

(** [finish] of a run whose fields say it completed or paused. *)
Lemma finish_outcome st :
  (∀ x, x_run x = x_run (g_x st) → x_interrupts x = x_interrupts (g_x st) → ended (x_state x) → outcome x (Ok tt)) →
  ends_well (finish None) st.
Proof.
  intros Hok. unfold ends_well. destruct (finish_spec None st) as [He [(_ & -> & Hr & Hi)|(e & -> & Hs & Hx & _)]].
  - exists (Ok tt). split; [done|]. by apply Hok.
  - exists (Fail e). split; [done|]. by split_and!.
Qed.

Lemma complete_outcome st : ends_well complete_run st.
Proof.
  unfold ends_well, complete_run, update_run, update, mbind, G_bind. cbn beta iota. apply finish_outcome. simpl.
  intros x Hr Hi He. split; [done|]. left. by rewrite Hr.
Qed.

Lemma interrupt_outcome n r st :
  next_node (x_run (g_x st)) = node_name n → node_name n ≠ kGraphEnd →
  ends_well (interrupt_run n r) st.
Proof.
  intros Hn Hk. unfold ends_well, interrupt_run, update_run, update, mbind, G_bind. cbn beta iota. apply finish_outcome. simpl.
  intros x Hr Hi He. split; [done|]. right. rewrite Hr, Hi. simpl. split_and!; try congruence.
  destruct (nr_interrupts r); [by destruct (x_interrupts (g_x st))|done].
Qed.

Lemma find_node_name (g : Graph W) k n : find_node g k = Some n → node_name n = k ∧ n ∈ nodes g.
Proof.
  intros Hf. pose proof (find_name node_name (nodes g) k) as Hn. unfold find_node in Hf. rewrite Hf in Hn. tauto.
Qed.

Lemma drive_loop_outcome fuel nest steps resume st st' r :
  drive_loop fuel nest steps resume st = (st', Some r) → outcome (g_x st') r.
Proof.
  revert resume st. induction steps as [|steps IH]; intros resume st; cbn [drive_loop]; unfold mbind, G_bind, exec, id;
    cbn beta iota.
  - destruct (str_eqb _ _); [apply ends_well_result, complete_outcome|apply ends_well_result, finish_failed].
  - destruct (str_eqb (next_node (x_run (g_x st))) kGraphEnd) eqn:Eend; [apply ends_well_result, complete_outcome|].
    apply str_eqb_false in Eend.
    destruct (find_node _ _) as [n|] eqn:En; [|apply ends_well_result, finish_failed].
    apply find_node_name in En as [En _].
    pose proof (frame_drive_node fuel nest n resume st) as Hf. unfold attempt.
    destruct (drive_node fuel nest n resume st) as [st1 [[[r1|next]|e]|]]; simpl in *;
      [| |apply ends_well_result, finish_failed|done].
    + specialize (Hf ltac:(done)) as (Hrun & _). apply ends_well_result, interrupt_outcome; congruence.
    + destruct (str_eqb next kGraphEnd); [apply ends_well_result, complete_outcome|].
      match goal with |- context [step_checkpoint ?s] => destruct (step_checkpoint s) as [st2 [[?|e]|]] end;
        simpl; [apply IH|apply ends_well_result, finish_failed|done].
Qed.

Lemma drive_outcome fuel nest resume st st' r :
  drive fuel nest resume st = (st', Some r) → outcome (g_x st') r.
Proof.
  unfold drive, mbind, G_bind, attempt. destruct (drain_writes "" st) as [st1 [[?|e]|]]; simpl; [| |done].
  - apply drive_loop_outcome.
  - apply ends_well_result, finish_failed.
Qed.


(** Setting a run up leaves its status, error and interrupts alone until it is
    known to start. *)
Definition same_status x (y : Exec W) : Prop :=
  status (x_run y) = status (x_run x) ∧ x_error y = x_error x ∧ x_interrupts y = x_interrupts x.

#[global] Instance same_status_preorder : PreOrder same_status.
Proof. split; [by intros x; split|]. intros x y z (E1 & F1 & G1) (E2 & F2 & G2). split_and!; congruence. Qed.

Lemma status_continue : keeps same_status (continue_thread (W := W)).
Proof. unfold continue_thread, get_latest, update_run. keep. Qed.

Lemma status_scoped : keeps same_status (load_scoped (W := W)).
Proof. unfold load_scoped. keep. Qed.

#[local] Hint Resolve status_continue status_scoped : keeps.

(** A state nothing was written to that is not yet drained or answered. *)
Definition unwritten (s : GraphState) : Prop := written s = [] ∧ interrupt_requested s = false.

Lemma load_values_unwritten keys (st : GraphState) (rt : Rt W) : unwritten st → unwritten (load_values keys st rt).2.1.
Proof.
  revert st rt. induction keys as [|k keys IH]; intros st rt Hs; cbn [load_values]; [done|]. unfold mbind, M_bind.
  destruct (retrieve_memory _ rt) as [rt1 [v|e]]; [by apply IH|]. case_bool_decide; [by apply IH|done].
Qed.

Lemma load_scoped_unwritten (st st' : St W) o : load_scoped st = (st', o) → unwritten (x_state (g_x st)) → unwritten (x_state (g_x st')).
Proof.
  unfold load_scoped, exec, id, lift, update, of_result, mbind, G_bind. cbn beta iota.
  assert (Hk : unwritten (x_state (g_x st)) → unwritten (load_scoped_state (x_state (g_x st)) ∅ (g_rt st)).2.1.1).
  { intros Hs. unfold load_scoped_state, mbind, M_bind. destruct (retrieve_memory _ _) as [rt1 [text|e]]; [|done].
    destruct (parse_json text) as [[]|]; try done. match goal with |- context [load_values ?ks _ rt1] =>
      pose proof (load_values_unwritten ks _ rt1 Hs) as Hv; destruct (load_values ks _ rt1) as [rt2 [st2 r]] end. exact Hv. }
  destruct (load_scoped_state _ _ _) as [rt1 [[st2 index] r]]. cbn in *. intros [= <- _]. exact Hk.
Qed.

Lemma continue_unwritten (st st' : St W) o :
  continue_thread st = (st', o) → unwritten (x_state (g_x st)) → unwritten (x_state (g_x st')).
Proof.
  unfold continue_thread, get_latest, exec, id, lift, mbind, G_bind. cbn beta iota.
  destruct (b_get_latest _ _ _) as [rt1 [text|e]].
  2:{ case_bool_decide; by intros [= <- _]. }
  unfold of_result at 1. destruct (decode_checkpoint text _ false) as [[previous progress]|e]; [|by intros [= <- _]].
  unfold update_state, update_run, update. cbn beta iota. unfold answer_abandoned_calls, mbind, M_bind. cbn.
  destruct (answer_items _ _ rt1) as [rt2 h]. intros [= <- _]. done.
Qed.

(** The run of a call that was driven; of a call on a graph that is not valid;
    of a call whose thread could not be loaded. *)
Definition call_outcome (g : Graph W) (run run' : GraphRun W) (r : Result unit) : Prop :=
  let core := run_core run' in
  match r with
  | Ok _ => ended (state core) ∧
            ((status core = RunCompleted ∧ next_node core = "") ∨
             (status core = RunInterrupted ∧ next_node core = interrupt_node core ∧ next_node core ≠ kGraphEnd ∧
              run_interrupts run' ≠ []))
  | Fail e => (ended (state core) ∧ status core = RunFailed ∧ run_error run' = Some e) ∨
              (validate g = Fail e ∧ run' = run) ∨
              (unwritten (state core) ∧ status core = status (run_core run) ∧ run_error run' = run_error run ∧
               run_interrupts run' = run_interrupts run)
  end.

Lemma in_run_outcome g run (setup k : G W unit) rt rt' run' r :
  (∀ st st' e, setup st = (st', Some (Fail e)) →
     same_status (g_x st) (g_x st') ∧ (unwritten (x_state (g_x st)) → unwritten (x_state (g_x st')))) →
  (∀ st st' r, k st = (st', Some r) → outcome (g_x st') r) → unwritten (state (run_core run)) →
  in_run g run (setup ;; k) rt = (rt', run', Some r) → call_outcome g run run' r.
Proof.
  intros Hs Hk Hu. unfold in_run. destruct (resolve_sink _ _ _) as [[sink writer]|e].
  2:{ intros [= <- <- <-]. by right; right. }
  unfold mbind, G_bind. set (st0 := mkSt _ _). specialize (Hs st0).
  destruct (setup st0) as [st1 [[[]|e]|]]; [| |done].
  - destruct (k st1) as [st2 o] eqn:E. intros [= <- <- ->]. destruct (Hk _ _ _ E) as [He Ho].
    unfold call_outcome. simpl. destruct r as [[]|e]; [by split|by left].
  - intros [= <- <- <-]. right. right. destruct (Hs st1 e eq_refl) as [(E1 & E2 & E3) Hw]. split; [by apply Hw|done].
Qed.

Lemma start_fails g seed st st' e :
  start_run g seed st = (st', Some (Fail e)) →
  same_status (g_x st) (g_x st') ∧ (unwritten (x_state (g_x st)) → unwritten (x_state (g_x st'))).
Proof.
  unfold start_run, mbind, G_bind. pose proof (status_continue st) as H1. pose proof (continue_unwritten st) as U1.
  destruct (continue_thread st) as [st1 [[?|e1]|]]; simpl in *; [| |done].
  2:{ intros [= <- _]. split; [by apply H1|by eapply U1]. }
  specialize (H1 ltac:(done)). specialize (U1 _ _ eq_refl). pose proof (status_scoped st1) as H2. pose proof (load_scoped_unwritten st1) as U2.
  destruct (load_scoped st1) as [st2 [[?|e2]|]]; simpl in *; [done| |done].
  intros [= <- _]. split; [etransitivity; [exact H1|by apply H2]|]. intros Hu. eapply U2; [done|]. by apply U1.
Qed.

End Outcome.

(** C2. What a call of [run_graph] leaves behind, on every path that returns.
    Success: the run completed, with no next node, or paused, on the node it
    will continue at and with at least one interrupt reported; the state has no
    temporary key, no undrained write and no open interrupt request.  Failure:
    the run is marked failed with exactly the error returned, its state closed
    in the same way; or the graph is not valid and the run is as it was; or the
    thread could not be loaded, and status, error and interrupts are as they
    were and the state has no undrained write and no open interrupt request. *)
Theorem run_graph_outcome {W : Type} `{Host W} `{JsonParser} (fuel nest : nat) (g : Graph W) (run run' : GraphRun W)
    (rt rt' : Rt W) (r : Result unit) :
  run_graph fuel nest g run rt = (rt', run', Some r) → call_outcome g run run' r.
Proof.
  unfold run_graph. destruct (validate g) as [?|e] eqn:Ev; [|intros [= <- <- <-]; by right; left]. cbv zeta. intros Hr.
  apply in_run_outcome in Hr; [|apply start_fails|apply drive_outcome|done].
  unfold call_outcome in *. destruct r as [?|e]; [exact Hr|]. destruct Hr as [Hr|[[Hv _]|Hr]]; [by left|congruence|by right; right].
Qed.

Lemma run_graph_outcome_witness : call_outcome GraphSample.graph GraphSample.run GraphSample.result.1.2 (Ok tt).
Proof.
  apply (@run_graph_outcome unit Sample.sample_host RefParser.parser 1 1 GraphSample.graph GraphSample.run
           GraphSample.result.1.2 Sample.rt GraphSample.result.1.1 (Ok tt)).
  change (GraphSample.result = (GraphSample.result.1.1, GraphSample.result.1.2, Some (Ok tt))).
  assert (E : GraphSample.result.2 = Some (Ok tt)) by (vm_compute; reflexivity).
  destruct GraphSample.result as [[rt' run'] o]. simpl in *. by rewrite E.
Defined.
