(* ===== verification/GraphJoin.v ===== *)
(** * The join of a fan-out (run_parallel_node, src/core/graph/graph_executor.cpp)

    A fan-out joins only when every key and every agent history comes from a
    single branch, and then the enclosing chain gets exactly the values and
    histories of the branches. *)
From stdpp Require Import base gmap strings list.
From Stdlib Require Import Lia ZArith.
From S2P Require Import Prelude Arena Text Decimal Json Session Provider Tools History Turn Graph Checkpoint Checkpointer GraphExec GraphRun GraphTheory.

(** No key is in two of the lists. *)
Definition disjoint_lists (lists : list (list string)) : Prop :=
  ∀ i j li lj k, lists !! i = Some li → lists !! j = Some lj → k ∈ li → k ∈ lj → i = j.

(** ** Owners *)

Lemma own_keys_spec i keys owner :
  match own_keys i keys owner with
  | inl o => ∀ k j, o !! k = Some j ↔ owner !! k = Some j ∨ (k ∈ keys ∧ j = i)
  | inr (k, j, i') => i' = i ∧ k ∈ keys ∧ owner !! k = Some j ∧ j ≠ i
  end.
Proof.
  revert owner. induction keys as [|key keys IH]; intros owner; simpl.
  { intros k j. split; [by left|]. intros [?|(Hk & _)]; [done|]. by apply not_elem_of_nil in Hk. }
  destruct (owner !! key) as [j|] eqn:E.
  - destruct (Nat.eqb_spec j i) as [->|Hne].
    + specialize (IH owner). destruct (own_keys i keys owner) as [o|[[k j'] i']].
      * intros k j'. rewrite IH, elem_of_cons. split; [tauto|]. intros [?|([->|Hk] & ->)]; [by left|by left|tauto].
      * destruct IH as (-> & ? & ? & ?). split_and!; [done|by right|done|done].
    + split_and!; [done|by left|done|done].
  - specialize (IH (<[key := i]> owner)). destruct (own_keys i keys _) as [o|[[k j'] i']].
    + intros k j'. rewrite IH, elem_of_cons. destruct (decide (k = key)) as [->|Hne].
      * rewrite lookup_insert_eq. split; [|intros [?|(_ & ->)]; [congruence|by left]].
        intros [[= <-]|(? & ?)]; right; tauto.
      * rewrite lookup_insert_ne by done. tauto.
    + destruct IH as (-> & Hk & Ho & Hj). destruct (decide (k = key)) as [->|Hne].
      * rewrite lookup_insert_eq in Ho. congruence.
      * rewrite lookup_insert_ne in Ho by done. split_and!; [done|by right|done|done].
Qed.

(** [k] is in the list at [j], the lists being numbered from [i]. *)
Definition listed (lists : list (list string)) (i : nat) (k : string) (j : nat) : Prop :=
  ∃ d l, j = i + d ∧ lists !! d = Some l ∧ k ∈ l.

Lemma listed_cons l lists i k j : listed (l :: lists) i k j ↔ (j = i ∧ k ∈ l) ∨ listed lists (S i) k j.
Proof.
  split.
  - intros ([|d] & l' & -> & Hl & Hk); simpl in Hl.
    + injection Hl as ->. left. split; [lia|done].
    + right. exists d, l'. split_and!; [lia|done|done].
  - intros [[-> Hk]|(d & l' & -> & Hl & Hk)]; [exists 0, l|exists (S d), l']; split_and!; try done; lia.
Qed.

Lemma own_all_spec lists i owner :
  (∀ k j, owner !! k = Some j → j < i) →
  match own_all i lists owner with
  | inl o => ∀ k j, o !! k = Some j ↔ owner !! k = Some j ∨ listed lists i k j
  | inr (k, j, i') => (owner !! k = Some j ∨ listed lists i k j) ∧ listed lists i k i' ∧ j ≠ i'
  end.
Proof.
  revert i owner. induction lists as [|l lists IH]; intros i owner Hlt; simpl.
  { intros k j. split; [by left|]. intros [?|(d & l & _ & Hl & _)]; [done|]. by rewrite lookup_nil in Hl. }
  pose proof (own_keys_spec i l owner) as Ho. destruct (own_keys i l owner) as [o|[[k j] i']].
  - specialize (IH (S i) o). assert (Hlt' : ∀ k j, o !! k = Some j → j < S i).
    { intros k j [Hk|(_ & ->)]%Ho; [|lia]. apply Hlt in Hk. lia. }
    specialize (IH Hlt'). destruct (own_all (S i) lists o) as [o'|[[k j] i']].
    + intros k j. rewrite IH, Ho, listed_cons. tauto.
    + rewrite Ho in IH. rewrite !listed_cons. destruct IH as (Hk & Hi & Hne). split_and!; [|by right|done].
      destruct Hk as [[?|(? & ->)]|?]; tauto.
  - destruct Ho as (-> & Hk & Hj & Hne). rewrite !listed_cons. split_and!; [by left|by left; split|done].
Qed.

(** Owners exist exactly when the lists are disjoint. *)
Lemma own_all_exact lists :
  match own_all 0 lists ∅ with
  | inl o => disjoint_lists lists ∧ ∀ k j, o !! k = Some j ↔ ∃ l, lists !! j = Some l ∧ k ∈ l
  | inr _ => ¬ disjoint_lists lists
  end.
Proof.
  assert (Hlt : ∀ (k : string) (j : nat), (∅ : gmap string nat) !! k = Some j → j < 0) by (intros k j; by rewrite lookup_empty).
  pose proof (own_all_spec lists 0 ∅ Hlt) as Ho. clear Hlt.
  destruct (own_all 0 lists ∅) as [o|[[k j] i]].
  - assert (Hk : ∀ k j, o !! k = Some j ↔ ∃ l, lists !! j = Some l ∧ k ∈ l).
    { intros k j. rewrite Ho. split.
      - intros [?|(d & l & -> & ?)]; [done|by exists l].
      - intros (l & Hl & ?). right. by exists j, l. }
    split; [|exact Hk]. intros i j li lj k Hi Hj Hki Hkj.
    assert (o !! k = Some i) by (apply Hk; eauto). assert (o !! k = Some j) by (apply Hk; eauto). congruence.
  - destruct Ho as ([?|(d & l & -> & Hl & Hk)] & (d' & l' & -> & Hl' & Hk') & Hne); [done|].
    intros Hd. by apply Hne, (Hd d d' l l' k).
Qed.

(** ** The join *)

Lemma elem_of_history_names b name : name ∈ history_names b ↔ is_Some (histories (br_state b) !! name).
Proof.
  unfold history_names. split.
  - intros ([k m] & -> & Hm)%list_elem_of_fmap. apply elem_of_map_items in Hm. by exists m.
  - intros [m Hm]. apply list_elem_of_fmap. exists (name, m). split; [done|]. by apply elem_of_map_items.
Qed.

(** The value a merge gives key [k] over [v]: its owner's, if it still has one. *)
Definition merged_value (bs : list Branch) (items : list (string * nat)) (v : gmap string string) (k : string) : option string :=
  match (list_to_map items : gmap string nat) !! k with
  | Some i => match (b ← bs !! i; values (br_state b) !! k) with Some x => Some x | None => v !! k end
  | None => v !! k
  end.

Section Merge.
Context {W : Type} `{Host W} `{JsonParser}.

Lemma merge_keys_spec bs items (st : St W) st' :
  NoDup items.*1 → merge_keys bs items st = (st', Some (Ok tt)) →
  histories (x_state (g_x st')) = histories (x_state (g_x st)) ∧
  ∀ k, values (x_state (g_x st')) !! k = merged_value bs items (values (x_state (g_x st))) k.
Proof.
  revert st. induction items as [|[key i] items IH]; intros st Hnd; cbn [merge_keys].
  { intros [= <-]. split; [done|]. intros k. unfold merged_value. simpl. done. }
  simpl in Hnd. apply NoDup_cons in Hnd as [Hni Hnd].
  assert (Hnone : (list_to_map items : gmap string nat) !! key = None) by (by apply not_elem_of_list_to_map_1).
  set (value := b ← bs !! i; values (br_state b) !! key).
  unfold merged_value at 1. unfold mbind at 1, G_bind at 1.
  set (m := match value with Some _ => _ | None => _ end).
  assert (Hm : ∀ st1, m st = (st1, Some (Ok tt)) →
    histories (x_state (g_x st1)) = histories (x_state (g_x st)) ∧
    values (x_state (g_x st1)) = match value with Some v => <[key := v]> (values (x_state (g_x st))) | None => values (x_state (g_x st)) end).
  { intros st1. subst m. destruct value as [v|]; [|by intros [= <-]].
    unfold mbind, G_bind, update_state, update, exec, id. cbn beta iota. simpl.
    destruct (x_writes (g_x st)); [by intros [= <-]|]. destruct (is_scoped_key key); [|by intros [= <-]].
    unfold lift. destruct (persist_scoped_value _ _ _ _) as [rt1 [index r]]. simpl. intros [= <- _]. done. }
  destruct (m st) as [st1 [[[]|e]|]]; [|done|done]. specialize (Hm st1 eq_refl) as [Hh Hv].
  intros Hrest. destruct (IH st1 Hnd Hrest) as [Hh' Hv']. split; [congruence|]. intros k. rewrite Hv', Hv.
  unfold merged_value. simpl. destruct (decide (k = key)) as [->|Hne].
  - rewrite Hnone, lookup_insert_eq. fold value. destruct value; [by rewrite lookup_insert_eq|done].
  - rewrite lookup_insert_ne by done. destruct ((list_to_map items : gmap string nat) !! k) as [j|]; [|];
      [destruct (b ← bs !! j; values (br_state b) !! k); [done|]|]; destruct value; try done; by rewrite lookup_insert_ne.
Qed.

End Merge.

Lemma merge_histories_spec bs h :
  disjoint_lists (map history_names bs) →
  (∀ b name m, b ∈ bs → histories (br_state b) !! name = Some m → merge_histories bs h !! name = Some m) ∧
  (∀ name, (∀ b, b ∈ bs → histories (br_state b) !! name = None) → merge_histories bs h !! name = h !! name).
Proof.
  unfold merge_histories. induction bs as [|b bs IH] using rev_ind; intros Hd.
  { split; [intros ? ? ? Hb; by apply not_elem_of_nil in Hb|done]. }
  assert (Hd' : disjoint_lists (map history_names bs)).
  { intros i j li lj k Hi Hj. apply (Hd i j li lj k); rewrite map_app; by apply lookup_app_l_Some. }
  specialize (IH Hd') as [Hin Hout]. setoid_rewrite foldl_app. simpl. setoid_rewrite insert_all_map_items. split.
  - intros b' name m [Hb|Hb%list_elem_of_singleton]%elem_of_app Hm; [|subst b'].
    + rewrite lookup_union_r; [by apply (Hin b')|].
      destruct (histories (br_state b) !! name) as [m'|] eqn:E; [|done]. exfalso.
      apply list_elem_of_lookup in Hb as [i Hi].
      assert (i = length bs); [|apply lookup_lt_Some in Hi; lia].
      apply (Hd i (length bs) (history_names b') (history_names b) name).
      * rewrite map_app. apply lookup_app_l_Some. by rewrite list_lookup_fmap, Hi.
      * rewrite map_app, lookup_app_r by (by rewrite length_map). by rewrite length_map, Nat.sub_diag.
      * apply elem_of_history_names. eauto.
      * apply elem_of_history_names. eauto.
    + by apply lookup_union_Some_l.
  - intros name Hn. rewrite lookup_union_r by (apply Hn; set_solver). apply Hout. intros b' Hb. apply Hn. set_solver.
Qed.

Lemma join_owners_spec {W : Type} (n : GraphNode W) (bs : list Branch) :
  match join_owners n bs with
  | Ok owners => disjoint_lists (map br_writes bs) ∧ disjoint_lists (map history_names bs) ∧
                 ∀ k i, owners !! k = Some i ↔ ∃ b, bs !! i = Some b ∧ k ∈ br_writes b
  | Fail e => code e = InvalidConfig ∧ ¬ (disjoint_lists (map br_writes bs) ∧ disjoint_lists (map history_names bs))
  end.
Proof.
  unfold join_owners. pose proof (own_all_exact (map br_writes bs)) as Hw.
  destruct (own_all 0 (map br_writes bs) ∅) as [o|[[k j] i]]; [|by split; [done|tauto]].
  pose proof (own_all_exact (map history_names bs)) as Hh.
  destruct (own_all 0 (map history_names bs) ∅) as [oh|[[k j] i]]; [|by split; [done|tauto]].
  destruct Hw as [Hd Hk]. split; [done|]. split; [apply Hh|]. intros k i. rewrite Hk. split.
  - intros (l & Hl & Hin). apply list_lookup_fmap_Some in Hl as (b & -> & Hb). eauto.
  - intros (b & Hb & Hin). exists (br_writes b). split; [|done]. rewrite list_lookup_fmap, Hb. done.
Qed.

Lemma join_spec {W : Type} (n : GraphNode W) bs owners :
  join_owners n bs = Ok owners →
  disjoint_lists (map br_writes bs) ∧ disjoint_lists (map history_names bs) ∧
  ∀ k i, owners !! k = Some i ↔ ∃ b, bs !! i = Some b ∧ k ∈ br_writes b.
Proof. intros E. pose proof (join_owners_spec n bs) as Hj. by rewrite E in Hj. Qed.

(** C7. The join of a fan-out is exact: it succeeds if and only if no state
    key was written by two branches and no agent history was used by two, and
    then the owner of a key is the one branch that wrote it.  On a conflict it
    fails with an error, whatever the order of the branches' writes. *)
Theorem join_exact {W : Type} (n : GraphNode W) (bs : list Branch) :
  match join_owners n bs with
  | Ok owners => disjoint_lists (map br_writes bs) ∧ disjoint_lists (map history_names bs) ∧
                 ∀ k i, owners !! k = Some i ↔ ∃ b, bs !! i = Some b ∧ k ∈ br_writes b
  | Fail e => code e = InvalidConfig ∧ ¬ (disjoint_lists (map br_writes bs) ∧ disjoint_lists (map history_names bs))
  end.
Proof.
  apply join_owners_spec.
Qed.

(** C6. What the enclosing chain has after a fan-out joined: for every key a
    branch wrote, the value of the branch that wrote it (unless the branch
    dropped it again); every agent history of every branch; and nothing else
    changed.  In particular a branch never sees or overwrites a sibling. *)
Theorem join_merges {W : Type} `{Host W} `{JsonParser} (n : GraphNode W) (bs : list Branch) (st st' : St W) (r : NodeResult) :
  join_branches n bs st = (st', Some (Ok r)) → nr_interrupted r = false →
  let s := x_state (g_x st) in
  let s' := x_state (g_x st') in
  disjoint_lists (map br_writes bs) ∧ disjoint_lists (map history_names bs) ∧
  (∀ b k v, b ∈ bs → k ∈ br_writes b → values (br_state b) !! k = Some v → values s' !! k = Some v) ∧
  (∀ k, (∀ b, b ∈ bs → k ∈ br_writes b → values (br_state b) !! k = None) → values s' !! k = values s !! k) ∧
  (∀ b name m, b ∈ bs → histories (br_state b) !! name = Some m → histories s' !! name = Some m) ∧
  (∀ name, (∀ b, b ∈ bs → histories (br_state b) !! name = None) → histories s' !! name = histories s !! name).
Proof.
  cbv zeta. unfold join_branches, mbind, G_bind, lift, modify. cbn beta iota.
  destruct (complete_events _ _) as [rt1 ?]. destruct (first_branch_error _ _); [done|].
  destruct (nr_interrupted (foldl add_pause _ _)) eqn:Ep; [intros [= _ <-]; congruence|].
  unfold of_result. destruct (join_owners n bs) as [owners|e] eqn:Eo; [|done].
  destruct (join_spec n bs owners Eo) as (Hw & Hh & Ho).
  match goal with |- context [merge_keys bs ?i ?s] =>
    pose proof (merge_keys_spec bs i s) as Hm; destruct (merge_keys bs i s) as [st1 [[[]|e]|]] end; [|done|done].
  specialize (Hm st1 (map_items_NoDup owners) eq_refl) as [Hh1 Hv1]. simpl in Hh1, Hv1.
  unfold update_state, update, exec, id. cbn beta iota. intros Hend _.
  assert (Hs : x_state (g_x st') = set_histories (x_state (g_x st1)) (merge_histories bs (histories (x_state (g_x st1))))).
  { simpl in Hend. by destruct (is_empty_list _); injection Hend as <-. }
  rewrite Hs. simpl. rewrite Hh1. destruct (merge_histories_spec bs (histories (x_state (g_x st))) Hh) as [Hin Hout].
  assert (Hown : ∀ k i, (list_to_map (map_items owners) : gmap string nat) !! k = Some i ↔ owners !! k = Some i).
  { intros k i. rewrite <-elem_of_list_to_map by apply map_items_NoDup. apply elem_of_map_items. }
  split_and!; try done.
  - intros b k v Hb Hk Hv. rewrite Hv1. apply list_elem_of_lookup in Hb as [i Hi]. unfold merged_value.
    replace (_ !! k) with (Some i) by (symmetry; apply Hown, Ho; eauto). rewrite Hi. simpl. by rewrite Hv.
  - intros k Hk. rewrite Hv1. unfold merged_value.
    destruct ((list_to_map (map_items owners) : gmap string nat) !! k) as [i|] eqn:E; [|done].
    apply Hown, Ho in E as (b & Hb & Hkb). rewrite Hb. simpl.
    rewrite (Hk b); [done|by eapply list_elem_of_lookup_2|done].
Qed.

(** Two finished branches that wrote a key each. *)
Module JoinSample.

Definition branch (key value history : string) : Branch :=
  mkBranch (mkGraphState {[key := value]} {[history := mkFlowMemory history [] no_turn_stats]} [] false "") []
    [key; key] None kGraphEnd true true false "" "" [] None.

Definition bs : list Branch := [branch "a" "1" "left"; branch "b" "2" "right"].

Definition start : St unit :=
  mkSt Sample.rt (@start_exec unit GraphSample.graph GraphSample.run (@kStoreCheckpointer unit _ RefParser.parser) false).

Definition after : St unit := (join_branches (W := unit) (fan_node "fan" ["l"; "r"]) bs start).1.

End JoinSample.

Lemma join_merges_witness :
  values (x_state (g_x JoinSample.after)) !! "a" = Some "1" ∧ values (x_state (g_x JoinSample.after)) !! "b" = Some "2".
Proof.
  assert (E : join_branches (W := unit) (fan_node "fan" ["l"; "r"]) JoinSample.bs JoinSample.start =
              (JoinSample.after, Some (Ok plain_result))).
  { unfold JoinSample.after.
    assert (E2 : (join_branches (W := unit) (fan_node "fan" ["l"; "r"]) JoinSample.bs JoinSample.start).2 =
                 Some (Ok plain_result)) by (vm_compute; reflexivity).
    destruct (join_branches _ _ _) as [st' o]. simpl in *. by rewrite E2. }
  destruct (@join_merges unit _ RefParser.parser _ _ _ _ _ E eq_refl) as (_ & _ & Hv & _).
  split.
  - apply (Hv (JoinSample.branch "a" "1" "left")); [by left|by left|vm_compute; reflexivity].
  - apply (Hv (JoinSample.branch "b" "2" "right")); [by right; left|by left|vm_compute; reflexivity].
Defined.
