(* ===== verification/GraphTerm.v ===== *)
(** * Termination of graph runs

    [max_steps] bounds the nodes of one chain, so a run can only fail to return
    inside a node: an agent turn, or a fan-out inside a fan-out.  A graph whose
    fan-outs nest properly always returns ([graph_terminates]); [validate] does
    not ask for that, and two fan-outs that name each other as branches never
    return ([nested_fanout_diverges]). *)
From stdpp Require Import base gmap strings list.
From Stdlib Require Import Lia ZArith.
From S2P Require Import Prelude Arena Text Decimal Json Session Provider Tools History Turn Graph Checkpoint Checkpointer GraphExec GraphRun GraphTheory.

(** ** Fan-outs that contain each other *)

Module Nested.

Definition p1 : GraphNode unit := fan_node "p1" ["p2"].
Definition p2 : GraphNode unit := fan_node "p2" ["p1"].
Definition graph : Graph unit := mkGraph "nested" "p1" [p1; p2] [] 1000.

Definition run : GraphRun unit :=
  mkGraphRun (mkRunCore "t" empty_state RunPending "" 0 "" "" []) DurSync None None [] [] None None.

End Nested.

(** ** Starting on an empty store *)

Section Start.
Context {W : Type} `{Host W} `{JsonParser}.

(** The state a fresh thread starts from. *)
Definition fresh_start (g : Graph W) (seed : GraphState) (x : Exec W) : Exec W :=
  let r := x_run x in
  mkExec (seed_state seed (x_state x)) (x_writes x) (x_parents x)
    (mkRunCore (thread_id r) (state r) RunRunning (entry g) (step r) "" "" []) None [] ∅ (x_events x) (x_ctx x).

Section Fresh.
Context (st : St W) (Hm : memory_state (rt_session (g_rt st)) = Some ∅) (Hs : store (config (rt_session (g_rt st))) = None).

Lemma continue_fresh : c_sink (x_ctx (g_x st)) = kStoreCheckpointer → continue_thread st = (st, Some (Ok tt)).
Proof.
  intros Hk. unfold continue_thread, get_latest, mbind, G_bind, exec, lift, id. cbn beta iota.
  rewrite Hk. cbn [b_get_latest kStoreCheckpointer].
  unfold store_get_latest, store_get_nonempty, retrieve_memory, mbind, M_bind, ask. cbn beta iota. rewrite Hm, Hs.
  by destruct st.
Qed.

Lemma load_scoped_fresh :
  load_scoped st = (mkSt (g_rt st) (set_x_index (set_x_state (g_x st) (x_state (g_x st))) ∅), Some (Ok tt)).
Proof.
  unfold load_scoped, load_scoped_state, retrieve_memory, mbind, G_bind, M_bind, exec, lift, ask, id.
  cbn beta iota. by rewrite Hm, Hs.
Qed.

Lemma start_run_fresh g seed :
  c_sink (x_ctx (g_x st)) = kStoreCheckpointer →
  start_run g seed st = (mkSt (g_rt st) (fresh_start g seed (g_x st)), Some (Ok tt)).
Proof.
  intros Hk. unfold start_run. unfold mbind, G_bind. rewrite continue_fresh by done. rewrite load_scoped_fresh. done.
Qed.

End Fresh.

Lemma in_run_result g run (m : G W unit) rt sink writer :
  resolve_sink (rt_session rt) (run_checkpointer run) (bool_decide (run_durability run = DurAsync)) = Ok (sink, writer) →
  (in_run g run m rt).2 = (m (mkSt (mkRt (rt_session rt) (rt_world rt) (rt_ambient rt) (run_events run) (run_on_event run))
                                   (start_exec g run sink writer))).2.
Proof. intros Hs. unfold in_run. rewrite Hs. by destruct (m _). Qed.

End Start.

Section Diverges.
Context `{JsonParser}.
Implicit Types (st : St unit).

Lemma lift_state {A} (m : M unit A) st : ∃ rt' a, lift m st = (mkSt rt' (g_x st), Some (Ok a)).
Proof. unfold lift. destruct (m (g_rt st)) as [rt' a]. eauto. Qed.

(** The only branch of [p1] or [p2] runs the other one. *)
Lemma branch_diverges fn join other n tracked b st :
  c_graph (x_ctx (g_x st)) = Nested.graph → br_run b = true → br_next b = other →
  other ≠ kGraphEnd → other ≠ join → find_node Nested.graph other = Some n →
  (∀ r st', c_graph (x_ctx (g_x st')) = Nested.graph → x_parents (g_x st') ≠ [] → (fn n r st').2 = None) →
  (run_branches fn join tracked 0 [b] st).2 = None.
Proof.
  intros Hg Hrun Hnext Hend Hjoin Hfind Hfn. cbn [run_branches]. rewrite Hrun.
  unfold in_branch, run_branch, mbind, G_bind, exec, lift, update, attempt, ask, modify, id. cbn beta iota. simpl.
  rewrite Hg, Hnext. change (Z.to_nat (max_steps Nested.graph)) with (S 999). generalize 999 as k. intros k. cbn [branch_loop].
  replace (str_eqb other kGraphEnd) with false by (symmetry; by apply str_eqb_false).
  replace (str_eqb other join) with false by (symmetry; by apply str_eqb_false). simpl.
  unfold mbind, G_bind, exec, attempt. cbn beta iota. simpl. rewrite Hg, Hfind.
  match goal with |- context [fn n ?r ?s] => specialize (Hfn r s); destruct (fn n r s) as [st' [o|]] end; [|done].
  exfalso. by discriminate Hfn.
Qed.

(** The two fan-outs, each with the other one. *)
Definition is_pair (n : GraphNode unit) (other : string) : Prop :=
  (n = Nested.p1 ∧ other = "p2") ∨ (n = Nested.p2 ∧ other = "p1").

#[local] Arguments run_branches : simpl never.

Lemma parallel_diverges fn n other st :
  is_pair n other → c_graph (x_ctx (g_x st)) = Nested.graph →
  (x_parents (g_x st) = [] → c_progress (x_ctx (g_x st)) = None) →
  (∀ m o r st', is_pair m o → c_graph (x_ctx (g_x st')) = Nested.graph → x_parents (g_x st') ≠ [] → (fn m r st').2 = None) →
  (run_parallel_node fn n st).2 = None.
Proof.
  intros Hn Hg Hp Hfn. unfold run_parallel_node, start_branches, mbind, G_bind, exec, id. cbn beta iota.
  assert (Hb : branches n = [other] ∧ other ≠ kGraphEnd ∧ other ≠ node_name n ∧
          ∃ m o, find_node Nested.graph other = Some m ∧ is_pair m o).
  { destruct Hn as [[-> ->]|[-> ->]]; split_and!; try done; [exists Nested.p2, "p1"|exists Nested.p1, "p2"];
      split; [reflexivity|right; done|reflexivity|left; done]. }
  destruct Hb as (Hb & He & Hj & m & o & Hf & Hm). destruct (x_parents (g_x st)) as [|p ps] eqn:Eps; cbn [is_empty_list].
  - rewrite (Hp eq_refl). unfold current_progress. rewrite Hb. unfold update_ctx, update, lift. simpl.
    match goal with |- context [run_branches fn ?j ?t 0 [?b] ?s] =>
      pose proof (branch_diverges fn j other m t b s Hg eq_refl) as Hd; destruct (run_branches fn j t 0 [b] s) as [st' [r|]] end;
      [|done].
    simpl in Hd. exfalso. assert (Hx : Some r = None); [|done]. apply Hd; try done.
    + by destruct Hn as [[-> ->]|[-> ->]].
    + intros r' st'' Hg' Hp'. by apply (Hfn m o).
  - rewrite Hb. simpl.
    match goal with |- context [run_branches fn ?j ?t 0 [?b] ?s] =>
      pose proof (branch_diverges fn j other m t b s Hg eq_refl eq_refl He Hj Hf) as Hd;
      destruct (run_branches fn j t 0 [b] s) as [st' [r|]] end; [|done].
    exfalso. assert (Hx : Some r = None); [|done]. apply Hd. intros r' st'' Hg' Hp'. by apply (Hfn m o).
Qed.

Lemma node_diverges fuel nest n other r st :
  is_pair n other → c_graph (x_ctx (g_x st)) = Nested.graph →
  (x_parents (g_x st) = [] → c_progress (x_ctx (g_x st)) = None) →
  (run_node fuel nest n r st).2 = None.
Proof.
  revert n other r st. induction nest as [|nest IH]; intros n other r st Hn Hg Hp; cbn [run_node];
    unfold mbind, G_bind, attempt, node_body;
    destruct (lift_state (emit NodeStart (node_name n) "" "") st) as (rt1 & ? & ->);
    match goal with |- context [lift (trigger_event ?a ?b) ?s] =>
      destruct (lift_state (trigger_event a b) s) as (rt2 & ? & ->) end; simpl.
  - by destruct Hn as [[-> ->]|[-> ->]].
  - replace (kind n) with ParallelNode by (by destruct Hn as [[-> ->]|[-> ->]]).
    match goal with |- context [run_parallel_node ?f n ?s] =>
      pose proof (parallel_diverges f n other s Hn Hg Hp) as Hd; destruct (run_parallel_node f n s) as [st' [o|]] end;
      [|done].
    exfalso. discriminate Hd. intros m o' r' st'' Hm Hg' Hp'. by apply (IH m o').
Qed.


Lemma drive_diverges fuel nest st :
  c_graph (x_ctx (g_x st)) = Nested.graph → x_parents (g_x st) = [] → c_progress (x_ctx (g_x st)) = None →
  written (x_state (g_x st)) = [] → next_node (x_run (g_x st)) = "p1" → (drive fuel nest None st).2 = None.
Proof.
  intros Hg Hp Hc Hw Hn. unfold drive, drain_writes, mbind, G_bind, exec, attempt, update_state, update. cbn beta iota.
  rewrite Hw. simpl. rewrite Hg. change (Z.to_nat (max_steps Nested.graph)) with (S 999). generalize 999 as k. intros k. cbn [drive_loop].
  unfold mbind, G_bind, exec, attempt, id. cbn beta iota. simpl. rewrite Hn, Hg. simpl.
  unfold drive_node, mbind, G_bind, attempt. simpl.
  match goal with |- context [run_node fuel nest ?n ?r ?s] =>
    pose proof (node_diverges fuel nest n "p2" r s) as Hd; destruct (run_node fuel nest n r s) as [st' [o|]] end; [|done].
  exfalso. discriminate Hd; [by left|done|done].
Qed.

End Diverges.

(** Fan-outs can contain each other: the graph of two Parallel nodes, each
    the other's only branch, passes [validate], and [run_graph] on it never
    returns, however much fuel it gets: every branch starts counting its steps
    afresh, so [max_steps] does not stop the nesting. *)
Theorem nested_fanout_diverges (P : JsonParser) (fuel nest : nat) :
  validate Nested.graph = Ok tt ∧ (run_graph fuel nest Nested.graph Nested.run Sample.rt).2 = None.
Proof.
  split; [reflexivity|]. unfold run_graph. change (validate Nested.graph) with (Ok tt : Result unit). cbv beta iota zeta.
  rewrite (in_run_result _ _ _ _ kStoreCheckpointer false) by reflexivity. unfold mbind, G_bind.
  rewrite start_run_fresh by reflexivity. apply drive_diverges; reflexivity.
Qed.

(** ** Agent turns inside a node *)

(** With tame hooks the configuration and the hooks are kept. *)
Definition tame_config {W : Type} (rt rt' : Rt W) : Prop :=
  Forall tame_hook (active_hooks (rt_ambient rt)) →
  config (rt_session rt') = config (rt_session rt) ∧ active_hooks (rt_ambient rt') = active_hooks (rt_ambient rt).

#[global] Instance tame_config_preorder {W : Type} : PreOrder (@tame_config W).
Proof.
  split; [by intros ? _|]. intros r1 r2 r3 H1 H2 Ht. destruct (H1 Ht) as [Ec Eh].
  destruct H2 as [Fc Fh]; [by rewrite Eh|]. split; congruence.
Qed.

Section Turns.
Context {W : Type} `{Host W} `{JsonParser}.

Lemma config_of_tame {A} (m : M W A) : preserves tame_setup m → preserves tame_config m.
Proof. intros Hm rt Ht. destruct (Hm rt Ht) as (Ec & _ & Eh). done. Qed.

Lemma config_of_setup {A} (m : M W A) : preserves same_setup m → preserves tame_config m.
Proof. intros Hm rt Ht. destruct (Hm rt) as (Ec & _ & Eh). done. Qed.

Lemma config_reject : preserves tame_config (modify_session reject_tool_media : M W unit).
Proof.
  intros rt _. split; [|done]. unfold modify_session, modify, reject_tool_media. simpl.
  destruct (provider (config (rt_session rt))) eqn:Ep; [done|].
  by destruct (provider_state (rt_session rt)).
Qed.

Lemma config_turn_loop fuel args rounds : preserves tame_config (turn_loop fuel args rounds : M W _).
Proof.
  revert rounds. induction fuel as [|fuel IH]; intros rounds; cbn [turn_loop]; [apply preserves_ret; exact _|].
  apply preserves_bind; [exact _|apply config_of_tame, tame_request|]. intros [[sent [r|e]]|e].
  - apply preserves_bind; [exact _|apply config_of_tame, tame_response|].
    intros [res|]; [apply preserves_ret; exact _|apply IH].
  - destruct (sent && retryable (code e)); [|apply preserves_ret; exact _].
    apply preserves_bind; [exact _|apply config_of_setup, setup_log|intros _].
    apply preserves_bind; [exact _|apply config_reject|intros _; apply IH].
  - apply preserves_ret; exact _.
Qed.

Lemma config_finish_turn r : preserves tame_config (turn_finish r : M W _).
Proof.
  apply config_of_setup. unfold turn_finish. destruct r as [text|e]; [|apply preserves_ret; exact _].
  apply preserves_bind; [exact _|apply preserves_ask; exact _|intros m].
  apply preserves_bind; [exact _|apply setup_save|intros saved].
  apply preserves_bind; [exact _|destruct saved; [apply preserves_ret; exact _|apply setup_log]|].
  intros _. apply preserves_ret; exact _.
Qed.

Lemma config_run_turn fuel args m prompt : preserves tame_config (run_turn fuel args m prompt : M W _).
Proof.
  unfold run_turn, run_turn_with_media.
  apply preserves_bind; [exact _|apply preserves_ask; exact _|intros previous].
  apply preserves_bind; [exact _|apply config_of_setup, setup_memory|intros _].
  apply preserves_bind; [exact _|apply config_of_tame, tame_start|intros _].
  apply preserves_bind; [exact _|apply config_turn_loop|intros out].
  apply preserves_bind; [exact _| |intros res].
  { destruct out as [r|]; [|apply preserves_ret; exact _].
    apply preserves_bind; [exact _|apply config_finish_turn|intros r'; apply preserves_ret; exact _]. }
  apply preserves_bind; [exact _|apply preserves_ask; exact _|intros m'].
  apply preserves_bind; [exact _|apply config_of_setup, setup_active_memory|intros _; apply preserves_ret; exact _].
Qed.

#[local] Hint Resolve setup_host setup_stats setup_memory setup_active_memory setup_trigger setup_execute setup_events : preserve.

Lemma setup_emit type node key payload : preserves same_setup (emit type node key payload : M W unit).
Proof. unfold emit, log_event, host_. preserve. Qed.

Lemma setup_with_memory {A} mem (m : M W A) : preserves same_setup m → preserves same_setup (with_memory mem m).
Proof. intros Hm. unfold with_memory, memory. preserve. Qed.

Lemma setup_preapproved b : preserves same_setup (modify_ambient (λ a, set_preapproved a b) : M W unit).
Proof. done. Qed.

#[local] Hint Resolve setup_emit setup_with_memory setup_preapproved : preserve.

Lemma setup_approved mem n tc r :
  Forall tame_hook (node_hooks n) → preserves same_setup (run_approved_call mem n tc r : M W _).
Proof.
  intros Hn. assert (Hf : ∀ mem when res, preserves same_setup (fire_node_hooks mem n when tc res)).
  { intros. unfold fire_node_hooks. pose proof tame_fire_hooks. preserve. }
  unfold run_approved_call. preserve. apply setup_with_memory. preserve.
Qed.

Lemma setup_approved_calls mem n calls r :
  Forall tame_hook (node_hooks n) → preserves same_setup (run_approved_calls mem n calls r : M W _).
Proof.
  intros Hn. pose proof setup_approved. revert mem. induction calls as [|tc calls IH]; intros mem; simpl; preserve.
Qed.

(** An engine session with enough fuel for its tool rounds. *)
Definition ready (fuel : nat) (s : Session W) : Prop :=
  provider (config s) = Engine ∧ Z.to_nat (max_tool_call_rounds (config s)) + 2 ≤ fuel.

Lemma agent_turn_returns fuel mem n prompt resume (rt : Rt W) :
  Forall tame_hook (node_hooks n) → ready fuel (rt_session rt) →
  (agent_turn fuel mem n prompt resume rt).2.2 ≠ None ∧
  config (rt_session (agent_turn fuel mem n prompt resume rt).1) = config (rt_session rt).
Proof.
  intros Hn [He Hf]. unfold agent_turn, mbind, M_bind, ask, modify_ambient, modify. cbn beta iota.
  set (rt0 := with_ambient rt _).
  assert (Ht : Forall tame_hook (active_hooks (rt_ambient rt0))).
  { simpl. constructor; [done|]. apply Forall_app. split; [done|]. by constructor. }
  set (body := match resume with Some _ => _ | None => _ end : M W _).
  assert (Hbody : (body rt0).2.2 ≠ None ∧ config (rt_session (body rt0).1) = config (rt_session rt0)).
  { subst body. destruct resume as [r|].
    - unfold mbind, M_bind. pose proof (setup_approved_calls mem n (pr_calls r) r Hn rt0) as (Ec & _ & Eh).
      destruct (run_approved_calls mem n (pr_calls r) r rt0) as [rt1 mem1]. simpl in Ec, Eh.
      pose proof (config_run_turn fuel (mkTurnArgs false None) mem1 "" rt1) as Hc.
      pose proof (turn_returns fuel (mkTurnArgs false None) mem1 "" [] rt1) as Hr. unfold run_turn in *.
      unfold tame_config in Hc. rewrite Ec, Eh in *. split; [by apply Hr|]. by apply Hc.
    - pose proof (config_run_turn fuel (mkTurnArgs false None) mem prompt rt0) as Hc.
      pose proof (turn_returns fuel (mkTurnArgs false None) mem prompt [] rt0) as Hr. unfold run_turn in *.
      split; [by apply Hr|]. by apply Hc. }
  destruct (body rt0) as [rt1 [mem' reply]]. simpl in *. done.
Qed.

End Turns.

(** ** Graphs that return *)

(** Host functions of a graph that leave the session's configuration alone. *)
Definition tame_fn {W A : Type} (f : StateFn W A) : Prop := ∀ s gs w, config (f s gs w).1.1 = config s.

Record tame_node {W : Type} (n : GraphNode W) : Prop := {
  tame_hooks : Forall tame_hook (node_hooks n);
  tame_context : ∀ f, context_provider n = Some f → tame_fn f;
  tame_function : ∀ f, function n = Some f → ∀ s gs w, config (f s gs w).1.1.1 = config s;
  tame_args : ∀ f, tool_args n = Some f → tame_fn f;
  tame_until : ∀ f, until n = Some f → tame_fn f
}.

Record tame_graph {W : Type} (g : Graph W) : Prop := {
  tame_nodes : Forall tame_node (nodes g);
  tame_routers : ∀ e f, e ∈ edges g → router e = Some f → tame_fn f
}.

(** A checkpointer that leaves the session's configuration alone. *)
Record tame_backend {W : Type} (B : Backend (Rt W)) : Prop := {
  tame_put : ∀ t k b meta, preserves same_config (b_put B t k b meta);
  tame_get_latest : ∀ t, preserves same_config (b_get_latest B t);
  tame_append : ∀ t es, preserves same_config (b_append_events B t es)
}.

Section Nesting.
Context {W : Type} (g : Graph W).

(** Node [m] may run after node [n]. *)
Inductive may_follow (n : GraphNode W) (m : string) : Prop :=
| follow_body : kind n = LoopNode → m = loop_body n → may_follow n m
| follow_edge e : find_edge g (node_name n) = Some e → router e = None → m = to e → may_follow n m
| follow_router e f s gs w : find_edge g (node_name n) = Some e → router e = Some f → (f s gs w).2 = Ok m → may_follow n m
| follow_exit : exit_to n ≠ "" → m = exit_to n → may_follow n m.

(** A branch of fan-out [q] may be at [m]: [m] is a live node inside [q], or
    the branch ends. *)
Definition region (live : string → Prop) (inside : string → string → Prop) (q m : string) : Prop :=
  m ≠ q → m ≠ kGraphEnd → has_node g m = true → live m ∧ inside m q.

(** The live nodes are those a run can get to; chains inside a fan-out stay
    inside until they join it, and fan-outs inside a fan-out are lower. *)
Record well_nested (live : string → Prop) (inside : string → string → Prop) (height : string → nat) : Prop := {
  nested_entry : live (entry g);
  nested_next : ∀ n m, n ∈ nodes g → live (node_name n) → may_follow n m → has_node g m = true → live m;
  nested_branch : ∀ n b, n ∈ nodes g → live (node_name n) → kind n = ParallelNode → b ∈ branches n →
    region live inside (node_name n) b;
  nested_follow : ∀ n q m, n ∈ nodes g → live (node_name n) → inside (node_name n) q → may_follow n m →
    region live inside q m;
  nested_height : ∀ n q, n ∈ nodes g → live (node_name n) → kind n = ParallelNode → inside (node_name n) q →
    height (node_name n) < height q
}.

End Nesting.

Section Safe.
Context {W : Type} (P : St W → Prop).

(** From [P], [m] returns, in a state that satisfies [P], and its value, if it
    has one, satisfies [Q]. *)
Definition safe {A} (m : G W A) (Q : A → Prop) : Prop :=
  ∀ st, P st → ∃ r, (m st).2 = Some r ∧ P (m st).1 ∧ ∀ a, r = Ok a → Q a.

Lemma safe_ret {A} (a : A) (Q : A → Prop) : Q a → safe (mret a) Q.
Proof. intros Hq st Hp. exists (Ok a). split_and!; [done|done|]. by intros ? [= <-]. Qed.

Lemma safe_throw {A} e (Q : A → Prop) : safe (throw e) Q.
Proof. intros st Hp. exists (Fail e). by split_and!. Qed.

Lemma safe_of_result {A} (r : Result A) (Q : A → Prop) : (∀ a, r = Ok a → Q a) → safe (of_result r) Q.
Proof. intros Hq st Hp. exists r. by split_and!. Qed.

Lemma safe_bind {A B} (m : G W A) (k : A → G W B) Q1 Q :
  safe m Q1 → (∀ a, Q1 a → safe (k a) Q) → safe (m ≫= k) Q.
Proof.
  intros Hm Hk st Hp. unfold mbind, G_bind. destruct (Hm st Hp) as (r & Hr & Hp' & Ha).
  destruct (m st) as [st' o]. simpl in *. subst o. destruct r as [a|e].
  - apply Hk; [by apply Ha|done].
  - exists (Fail e). by split_and!.
Qed.

Lemma safe_attempt {A} (m : G W A) Q : safe m Q → safe (attempt m) (λ r, ∀ a, r = Ok a → Q a).
Proof.
  intros Hm st Hp. destruct (Hm st Hp) as (r & Hr & Hp' & Ha). unfold attempt. destruct (m st) as [st' o].
  simpl in *. subst o. exists (Ok r). split_and!; [done|done|]. by intros ? [= <-].
Qed.

Lemma safe_exec {A} (f : Exec W → A) : safe (exec f) (λ a, ∃ st, P st ∧ a = f (g_x st)).
Proof. intros st Hp. exists (Ok (f (g_x st))). split_and!; [done|done|]. intros ? [= <-]. eauto. Qed.

Lemma safe_update (f : Exec W → Exec W) : (∀ st, P st → P (mkSt (g_rt st) (f (g_x st)))) → safe (update f) (λ _, True).
Proof. intros Hf st Hp. exists (Ok tt). split_and!; [done|by apply Hf|done]. Qed.

Lemma safe_weaken {A} (m : G W A) (Q Q' : A → Prop) : safe m Q → (∀ a, Q a → Q' a) → safe m Q'.
Proof. intros Hm Hq st Hp. destruct (Hm st Hp) as (r & Hr & Hp' & Ha). exists r. split_and!; eauto. Qed.

End Safe.

Section Terminates.
Context {W : Type} `{Host W} `{JsonParser} (fuel : nat) (g : Graph W) (models : option (ModelsOps W))
  (sink : Backend (Rt W)) (live : string → Prop) (inside : string → string → Prop) (height : string → nat)
  (N : string → Prop).
Context (Htame : tame_graph g) (Hsink : tame_backend sink) (Hnest : well_nested g live inside height)
  (Hmodels : ∀ o name w s, models = Some o → (acquire_model_fn o name w).2 = Ok s → ready fuel s).
Implicit Types (n : GraphNode W) (st : St W).

(** The invariant of a chain below [ps]; [N] is about the next
    node of the run, [F] about the fan-out progress. *)
Definition Inv (ps : list GraphState) (F : option ParallelProgress → Prop) st : Prop :=
  c_graph (x_ctx (g_x st)) = g ∧ c_models (x_ctx (g_x st)) = models ∧ c_sink (x_ctx (g_x st)) = sink ∧
  x_parents (g_x st) = ps ∧ ready fuel (rt_session (g_rt st)) ∧ N (next_node (x_run (g_x st))) ∧
  F (c_progress (x_ctx (g_x st))).

(** Recorded branches continue inside their fan-out. *)
Definition regions (p : ParallelProgress) : Prop :=
  Forall (λ rec, bp_next rec = "" ∨ region g live inside (pp_node p) (bp_next rec)) (pp_branches p).
Definition Ftop (p : option ParallelProgress) : Prop := ∀ p', p = Some p' → regions p'.
Definition Fat (q : string) (p : option ParallelProgress) : Prop := ∀ p', p = Some p' → regions p' ∧ pp_node p' = q.

Lemma ready_config (s s' : Session W) : config s' = config s → ready fuel s → ready fuel s'.
Proof. unfold ready. by intros ->. Qed.

Section Chain.
Context (ps : list GraphState) (F : option ParallelProgress → Prop).
#[local] Abbreviation Safe := (safe (Inv ps F)).

Lemma safe_lift {A} (m : M W A) : preserves same_config m → Safe (lift m) (λ _, True).
Proof.
  intros Hm st (Hg & Ho & Hs & Hp & Hr & Hnx & Hf). unfold lift. specialize (Hm (g_rt st)). destruct (m (g_rt st)) as [rt' a].
  exists (Ok a). split_and!; [done| |done]. split_and!; try done. by eapply ready_config.
Qed.

Lemma safe_liftR {A} (m : M W (Result A)) : preserves same_config m → Safe (liftR m) (λ _, True).
Proof. intros Hm. eapply safe_bind; [by apply safe_lift|]. intros r _. by apply safe_of_result. Qed.

Lemma safe_frame (f : Exec W → Exec W) :
  (∀ x, x_parents (f x) = x_parents x ∧ c_graph (x_ctx (f x)) = c_graph (x_ctx x) ∧
        c_models (x_ctx (f x)) = c_models (x_ctx x) ∧ c_sink (x_ctx (f x)) = c_sink (x_ctx x) ∧
        c_progress (x_ctx (f x)) = c_progress (x_ctx x) ∧ next_node (x_run (f x)) = next_node (x_run x)) → Safe (update f) (λ _, True).
Proof.
  intros Hf. apply safe_update. intros st (? & ? & ? & ? & ? & ? & ?). destruct (Hf (g_x st)) as (E1 & E2 & E3 & E4 & E5 & E6).
  unfold Inv. simpl. rewrite E1, E2, E3, E4, E5, E6. by split_and!.
Qed.

Lemma safe_call {A} (f : StateFn W A) : tame_fn f → Safe (call_state_fn f) (λ a, ∃ s gs w, (f s gs w).2 = Ok a).
Proof.
  intros Hf st (Hg & Ho & Hs & Hp & Hr & Hnx & HF). unfold call_state_fn, liftR, mbind, G_bind, exec, lift. cbn beta iota.
  specialize (Hf (rt_session (g_rt st)) (x_state (g_x st)) (rt_world (g_rt st))).
  destruct (f _ _ _) as [[s' w'] r] eqn:E. simpl in *. exists r. split_and!; [done| |].
  - split_and!; try done. by eapply ready_config.
  - intros a ->. do 3 eexists. by rewrite E.
Qed.

(** Decomposes a safety goal along binds and case distinctions. *)
#[local] Ltac safe_step :=
  lazymatch goal with
  | |- safe _ (mret _) _ => apply safe_ret
  | |- safe _ (throw _) _ => apply safe_throw
  | |- safe _ (of_result _) _ => apply safe_of_result
  | |- safe _ (exec _) _ => apply safe_exec
  | |- safe _ (attempt _) _ => apply safe_attempt
  | |- safe _ (lift _) _ => apply safe_lift
  | |- safe _ (liftR _) _ => apply safe_liftR
  | |- safe _ (update _) _ => apply safe_frame; by intros
  | |- safe _ (update_state _) _ => apply safe_frame; by intros
  | |- safe _ (update_ctx _) _ => apply safe_frame; by intros
  | |- safe _ (update_run _) _ => apply safe_frame; by intros
  | |- safe _ (_ ≫= _) _ => eapply safe_bind; [|intros ? ?]
  | |- safe _ (match ?x with _ => _ end) _ => destruct x
  end.
#[local] Ltac safe_solve := repeat first [safe_step | done].

Lemma config_emit type node key payload : preserves same_config (emit type node key payload : M W unit).
Proof. intros rt. apply setup_emit. Qed.

Lemma config_log_event type node key payload : preserves same_config (log_event type node key payload : M W GraphEvent).
Proof. unfold log_event. preserve. by intros rt. Qed.

Lemma safe_log_run type node key payload : Safe (log_run_event type node key payload) (λ _, True).
Proof.
  unfold log_run_event. eapply safe_bind; [apply safe_exec|]. intros x _. destruct (x_parents x).
  - eapply safe_bind; [apply safe_lift, config_log_event|]. intros. by apply safe_ret.
  - eapply safe_bind; [apply safe_lift, config_host|]. intros. safe_solve.
Qed.

Lemma safe_write through : Safe (write_checkpoint through) (λ _, True).
Proof.
  unfold write_checkpoint. eapply safe_bind; [apply safe_exec|]. intros x0 _.
  eapply safe_bind; [apply safe_log_run|]. intros _ _. eapply safe_bind; [apply safe_exec|]. intros x (st & Hi & ->).
  eapply safe_bind with (Q1 := λ _, True).
  { unfold run_event_log. eapply safe_bind; [apply safe_exec|]. intros x1 _. destruct (x_parents x1); [|by apply safe_ret].
    apply safe_lift. by intros rt. }
  intros all _. cbv zeta. eapply safe_bind; [safe_solve|]. intros _ _. destruct (through && _); [safe_solve|].
  unfold id. destruct Hi as (_ & _ & -> & _). eapply safe_bind; [apply safe_liftR, Hsink|]. intros _ _.
  destruct (if b_has_events sink then _ else _); [by apply safe_ret|]. apply safe_liftR, Hsink.
Qed.

Lemma safe_step_checkpoint : Safe step_checkpoint (λ _, True).
Proof.
  unfold step_checkpoint. eapply safe_bind; [apply safe_exec|]. intros c _.
  destruct (c_durability c); [by apply safe_ret|apply safe_write|apply safe_write].
Qed.

Lemma config_persist k v i : preserves same_config (persist_scoped_value k v i : M W _).
Proof. unfold persist_scoped_value. preserve. Qed.

Lemma safe_drain node : Safe (drain_writes node) (λ _, True).
Proof.
  unfold drain_writes. eapply safe_bind; [apply safe_exec|]. intros keys _. eapply safe_bind; [safe_solve|].
  intros _ _. induction keys as [|key keys IH]; cbn [drain_keys]; [by apply safe_ret|].
  eapply safe_bind; [apply safe_exec|]. intros x _. eapply safe_bind; [apply safe_lift, config_log_event|]. intros _ _.
  eapply safe_bind with (Q1 := λ _, True); [|by intros _ _].
  destruct (x_writes x); [safe_solve|]. destruct (is_scoped_key key); [|by apply safe_ret].
  eapply safe_bind; [apply safe_lift, config_persist|]. intros [index r] _. safe_solve.
Qed.

(** ** Nodes *)

Lemma safe_history name : Safe (history_for name) (λ _, True).
Proof. unfold history_for. safe_solve. Qed.

Lemma config_on_lease {A} n lease (m : M W A) rt :
  config (rt_session (on_lease n lease m rt).1) = config (rt_session rt) ∨ lease = None.
Proof.
  destruct lease as [[o leased]|]; [left|by right]. unfold on_lease, mbind, M_bind, ask, modify, host_, host. cbn beta iota.
  by destruct (m _).
Qed.

Lemma safe_lease n : Safe (acquire_lease n) (λ l, ∀ o s, l = Some (o, s) → ready fuel s).
Proof.
  unfold acquire_lease. destruct (is_empty (model n)); [by apply safe_ret|].
  eapply safe_bind; [apply safe_exec|]. intros ops (st & (_ & Hm & _) & ->). rewrite Hm.
  destruct models as [o|] eqn:Eo; [|apply safe_throw].
  intros st' (Hg & Ho & Hs & Hp & Hr & Hnx & HF). unfold mbind, G_bind, lift, host. cbn beta iota.
  pose proof (Hmodels o (model n) (rt_world (g_rt st'))) as Ha.
  destruct (acquire_model_fn o (model n) _) as [w [s|e]].
  - exists (Ok (Some (o, s))). split_and!; [done|by split_and!|]. intros ? [= <-] ? ? [= <- <-]. by apply Ha.
  - eexists (Fail _). split_and!; [done|by split_and!|done].
Qed.

Lemma safe_agent n resume :
  tame_node n → Safe (run_agent_node fuel n resume) (λ r, nr_forced_next r = "").
Proof.
  intros Hn. unfold run_agent_node. eapply safe_bind; [apply safe_exec|]. intros d _.
  destruct (interrupt_before_tools n && Nat.ltb 1 d); [apply safe_throw|].
  eapply safe_bind with (Q1 := λ _, True).
  { destruct (context_provider n) as [f|] eqn:Ef; [|by apply safe_ret].
    eapply safe_bind; [apply safe_call; by eapply tame_context|]. intros. by apply safe_ret. }
  intros prompt_text _. eapply safe_bind; [apply safe_lease|]. intros lease Hl.
  eapply safe_bind; [apply safe_history|]. intros mem _. eapply safe_bind; [apply safe_exec|]. intros gs _.
  destruct (install_prompt mem prompt_text) as [mem1 scope].
  eapply safe_bind with (Q1 := λ r, r.2 ≠ None).
  { intros st (Hg & Ho & Hs & Hp & Hr & Hnx & HF). unfold lift.
    match goal with |- context [agent_turn fuel mem1 n ?p resume] => set (prompt := p) end.
    assert (Hturn : (on_lease n lease (agent_turn fuel mem1 n prompt resume) (g_rt st)).2.2 ≠ None ∧
      config (rt_session (on_lease n lease (agent_turn fuel mem1 n prompt resume) (g_rt st)).1) = config (rt_session (g_rt st))).
    { destruct lease as [[o s]|]; [|by apply agent_turn_returns; [apply Hn|]].
      unfold on_lease, mbind, M_bind, ask, modify, host_, host. cbn beta iota.
      destruct (agent_turn_returns fuel mem1 n prompt resume (with_session (g_rt st) s)) as [Ht _];
        [apply Hn|by eapply Hl|]. by destruct (agent_turn _ _ _ _ _ _) as [rt1 a]. }
    destruct (on_lease _ _ _ _) as [rt1 a]. destruct Hturn as [Ht Hc]. eexists (Ok a). split_and!; [done| |by intros ? [= <-]].
    split_and!; try done. by eapply ready_config. }
  intros [[mem2 paused] reply] Hreply. eapply safe_bind; [safe_solve|]. intros _ _. simpl in Hreply.
  destruct reply as [[text|e]|]; [|apply safe_throw|done]. destruct paused; [by apply safe_ret|].
  eapply safe_bind with (Q1 := λ _, True); [|intros; by apply safe_ret].
  destruct (is_empty (output_key n)); safe_solve.
Qed.

Lemma safe_function n : tame_node n → Safe (run_function_node n) (λ r, nr_forced_next r = "").
Proof.
  intros Hn. unfold run_function_node. eapply safe_bind; [safe_solve|]. intros _ _.
  destruct (function n) as [f|] eqn:Ef; [|apply safe_throw].
  eapply safe_bind with (Q1 := λ _, True).
  { intros st (Hg & Ho & Hs & Hp & Hr & Hnx & HF).
    pose proof (tame_function n Hn f Ef (rt_session (g_rt st)) (x_state (g_x st)) (rt_world (g_rt st))) as Hc.
    destruct (f _ _ _) as [[[s' gs] w'] r]. exists (Ok r). split_and!; [done| |done].
    split_and!; try done. by eapply ready_config. }
  intros res _. eapply safe_bind; [apply safe_exec|]. intros x _. eapply safe_bind; [safe_solve|]. intros _ _.
  safe_solve.
Qed.

Lemma config_execute_tool name args : preserves same_config (execute_tool name args : M W _).
Proof.
  intros rt. destruct (setup_execute name args rt) as (Ec & _). unfold execute_tool, execute_for_message, mbind, M_bind in *.
  by destruct (execute_tool_parts name args rt).
Qed.

Lemma safe_tool n : tame_node n → Safe (run_tool_node n) (λ r, nr_forced_next r = "").
Proof.
  intros Hn. unfold run_tool_node. eapply safe_bind; [apply safe_exec|]. intros gs _.
  eapply safe_bind with (Q1 := λ _, True).
  { destruct (tool_args n) as [f|] eqn:Ef; [|by apply safe_ret].
    eapply safe_weaken; [apply safe_call; by eapply tame_args|done]. }
  intros args _. eapply safe_bind; [apply safe_lift, config_emit|]. intros _ _.
  eapply safe_bind; [apply safe_lift, config_trigger|]. intros _ _.
  eapply safe_bind; [apply safe_lift, config_execute_tool|]. intros [text|e] _.
  - eapply safe_bind; [apply safe_lift, config_emit|]. intros _ _.
    eapply safe_bind; [apply safe_lift, config_trigger|]. intros _ _.
    eapply safe_bind; [apply safe_lift, config_set_stats|]. intros _ _.
    eapply safe_bind with (Q1 := λ _, True); [|intros; by apply safe_ret].
    destruct (is_empty (output_key n)); safe_solve.
  - eapply safe_bind; [apply safe_lift, config_emit|]. intros _ _. apply safe_throw.
Qed.

Lemma safe_loop n : tame_node n → Safe (run_loop_node n) (λ r, nr_forced_next r = "" ∨ nr_forced_next r = loop_body n).
Proof.
  intros Hn. unfold run_loop_node. eapply safe_bind; [apply safe_exec|]. intros gs _. cbv zeta.
  eapply safe_bind with (Q1 := λ _, True).
  { destruct (max_iterations n <=? _)%Z; [by apply safe_ret|]. destruct (until n) as [f|] eqn:Ef; [|by apply safe_ret].
    destruct (0 <? _)%Z; [|by apply safe_ret]. eapply safe_weaken; [apply safe_call; by eapply tame_until|done]. }
  intros [] _; (eapply safe_bind; [safe_solve|]); intros _ _; apply safe_ret; simpl; auto.
Qed.

(** The next node may follow. *)
Lemma safe_next n r :
  (nr_forced_next r = "" ∨ kind n = LoopNode ∧ nr_forced_next r = loop_body n) →
  Safe (resolve_next n r) (λ m, m = kGraphEnd ∨ may_follow g n m).
Proof.
  intros Hr. unfold resolve_next. destruct (negb (is_empty (nr_forced_next r))) eqn:Ef.
  { apply safe_ret. right. destruct Hr as [Hr|[Hk Hr]]; [by rewrite Hr in Ef|by apply follow_body]. }
  eapply safe_bind; [apply safe_exec|]. intros g' (st & (Hg & _) & ->). rewrite Hg.
  eapply safe_bind with (Q1 := λ m, m = kGraphEnd ∨ may_follow g n m).
  - destruct (find_edge g (node_name n)) as [e|] eqn:Ee; [|apply safe_ret; by left].
    destruct (router e) as [f|] eqn:Er; [|apply safe_ret; right; by eapply follow_edge].
    assert (He : e ∈ edges g).
    { pose proof (find_name from (edges g) (node_name n)) as Hf. unfold find_edge in Ee. rewrite Ee in Hf. tauto. }
    eapply safe_bind; [apply safe_call; by eapply (tame_routers g)|]. intros m (s & gs & w & Hm).
    destruct (_ && _); [apply safe_throw|]. apply safe_ret. right. by eapply follow_router.
  - intros m Hm. apply safe_ret. destruct (str_eqb m kGraphEnd); simpl; [|done].
    destruct (is_empty (exit_to n)) eqn:Ex; simpl; [done|]. right. apply follow_exit; [by apply is_empty_false|done].
Qed.

End Chain.

(** ** Branches *)

Section Branch.
Context (ps : list GraphState) (q : string) (index : option nat) (F : option ParallelProgress → Prop)
  (HF : index ≠ None → F = Fat q).
#[local] Abbreviation Safe := (safe (Inv ps F)).

Lemma safe_save i b status next :
  index = Some i → region g live inside q next → Safe (save_branch i b status next) (λ _, True).
Proof.
  intros Hi Hq. unfold save_branch. eapply safe_bind; [apply safe_exec|]. intros x _.
  eapply safe_bind; [|intros _ _; apply safe_step_checkpoint].
  unfold update_record, update_ctx. apply safe_update. intros st (Hg & Ho & Hs & Hp & Hr & Hnx & Hc).
  split_and!; try done. rewrite HF in * by (by rewrite Hi). simpl.
  destruct (c_progress (x_ctx (g_x st))) as [p|]; [|done]. intros p' [= <-]. destruct (Hc p eq_refl) as [Hreg Hn].
  split; [|done]. unfold regions in *. simpl. apply Forall_alter; [done|]. intros rec Hrec _. right. rewrite Hn.
  by destruct status, (br_result b).
Qed.

Lemma safe_track b status next : region g live inside q next → Safe (track index b status next) (λ _, True).
Proof.
  intros Hq. unfold track. case_eq index; [intros i Ei|intros _; by apply safe_ret].
  eapply safe_weaken; [apply safe_attempt, safe_save; [done|exact Hq]|done].
Qed.

Lemma safe_failed b current e : region g live inside q current → Safe (branch_failed index b current e) (λ _, True).
Proof.
  intros Hq. unfold branch_failed. eapply safe_bind; [apply safe_frame; by intros|]. intros _ _.
  eapply safe_bind with (Q1 := λ _, True); [|intros; by apply safe_ret].
  case_eq index; [intros i Ei|intros _; by apply safe_ret].
  eapply safe_bind; [apply safe_attempt, safe_save; [done|exact Hq]|]. intros. by apply safe_ret.
Qed.

(** What is known of the nodes inside the fan-out. *)
Context (fn : GraphNode W → option PendingResume → G W NodeResult).
Context (Hfn : ∀ n r, n ∈ nodes g → live (node_name n) → inside (node_name n) q →
  Safe (fn n r) (λ res, nr_forced_next res = "" ∨ kind n = LoopNode ∧ nr_forced_next res = loop_body n)).

Lemma safe_branch_loop steps b current resume :
  region g live inside q current → Safe (branch_loop fn steps b current q index resume) (λ _, True).
Proof.
  revert b current resume. induction steps as [|steps IH]; intros b current resume Hq; cbn [branch_loop];
    (destruct (str_eqb current kGraphEnd || str_eqb current q) eqn:Eend; [by apply safe_ret|]);
    (eapply safe_bind; [apply safe_exec|]); intros g' (st & (Hg & _) & ->); rewrite Hg; [by apply safe_failed|].
  destruct (find_node g current) as [n|] eqn:En; [|by apply safe_failed].
  pose proof (find_node_name g current n En) as [Hname Hin].
  assert (Hown : live (node_name n) ∧ inside (node_name n) q).
  { apply orb_false_iff in Eend as [E1%str_eqb_false E2%str_eqb_false]. rewrite Hname. apply Hq; [done|done|].
    unfold has_node. by rewrite En. }
  destruct Hown as [Hlive Hin_q]. eapply safe_bind; [apply safe_attempt, Hfn; done|]. intros [r|e] Hr; [|by apply safe_failed].
  specialize (Hr r eq_refl). eapply safe_bind; [apply safe_attempt, safe_drain|]. intros [?|e] _; [|by apply safe_failed].
  destruct (nr_interrupted r).
  { eapply safe_bind; [by apply safe_track|]. intros. by apply safe_ret. }
  eapply safe_bind; [apply safe_attempt, safe_next; exact Hr|]. intros [next|e] Hnext; [|by apply safe_failed].
  assert (Hqn : region g live inside q next).
  { destruct (Hnext next eq_refl) as [->|Hf]; [by intros ? ?|]. by eapply nested_follow. }
  eapply safe_bind; [by apply safe_track|]. intros [?|e] _; [by apply IH|by apply safe_failed].
Qed.

End Branch.

Lemma safe_in_branch ps F b (m : G W Branch) :
  (∀ s, safe (Inv (s :: ps) F) m (λ _, True)) → safe (Inv ps F) (in_branch b m) (λ _, True).
Proof.
  intros Hm st (Hg & Ho & Hs & Hp & Hr & Hnx & HF).
  unfold in_branch, mbind, G_bind, exec, lift, update, attempt, of_result, ask, modify, id. cbn beta iota. simpl.
  match goal with |- context [m ?s0] => destruct (Hm (x_state (g_x st)) s0) as (r & Er & Hi & _) end.
  { split_and!; try done. simpl. by rewrite Hp. }
  destruct (m _) as [st' o]. simpl in *. subst o. destruct Hi as (Hg' & Ho' & Hs' & Hp' & Hr' & Hnx' & HF').
  assert (Hinv : ∀ r' w e i evs, Inv ps F (mkSt (with_events (g_rt st') r')
    (mkExec (x_state (g_x st)) w (x_parents (g_x st)) (x_run (g_x st')) e i (x_index (g_x st')) evs (x_ctx (g_x st')))))
    by (intros; by split_and!).
  destruct r as [b'|e]; simpl.
  - eexists (Ok _). split_and!; [done|apply Hinv|done].
  - exists (Fail e). split_and!; [done|apply Hinv|done].
Qed.

Lemma safe_run_branches ps F q tracked fn i bs :
  (tracked = true → F = Fat q) →
  (∀ s n r, n ∈ nodes g → live (node_name n) → inside (node_name n) q →
    safe (Inv (s :: ps) F) (fn n r) (λ res, nr_forced_next res = "" ∨ kind n = LoopNode ∧ nr_forced_next res = loop_body n)) →
  Forall (λ b, region g live inside q (br_next b)) bs → safe (Inv ps F) (run_branches fn q tracked i bs) (λ _, True).
Proof.
  intros HF Hfn Hbs. revert i. induction Hbs as [|b bs Hb _ IH]; intros i; cbn [run_branches]; [by apply safe_ret|].
  eapply safe_bind with (Q1 := λ _, True).
  - destruct (br_run b); [|by apply safe_ret]. apply safe_in_branch. intros s. unfold run_branch.
    eapply safe_bind; [apply safe_exec|]. intros g' _. apply safe_branch_loop; [|by apply Hfn|done].
    destruct tracked; [by intros _; apply HF|done].
  - intros b' _. eapply safe_bind; [apply IH|]. intros. by apply safe_ret.
Qed.

(** Fan-outs of the top-level chain load their progress. *)
Lemma load_branches_spec gs answers recs rt :
  config (rt_session (load_branches gs answers recs rt).1) = config (rt_session rt) ∧
  Forall2 (λ b rec, br_next b = if is_empty (bp_next rec) then bp_entry rec else bp_next rec)
    (load_branches gs answers recs rt).2 recs.
Proof.
  revert rt. induction recs as [|rec recs IH]; intros rt; cbn [load_branches]; [by split|].
  assert (Hb : config (rt_session (load_branch gs answers rec rt).1) = config (rt_session rt) ∧
    br_next (load_branch gs answers rec rt).2 = if is_empty (bp_next rec) then bp_entry rec else bp_next rec).
  { unfold load_branch. destruct (bp_status rec); try done. destruct (answers !! bp_entry rec) as [input|]; [|done].
    unfold mbind, M_bind, host. destruct (is_empty (pr_human_input input)); simpl;
      repeat (match goal with |- context [now_ms ?w] => destruct (now_ms w) end; simpl); done. }
  unfold mbind, M_bind. destruct (load_branch gs answers rec rt) as [rt1 b]. destruct Hb as [Ec Eb].
  specialize (IH rt1). destruct (load_branches gs answers recs rt1) as [rt2 bs]. simpl in *. destruct IH as [Ec' Hbs].
  split; [congruence|]. by constructor.
Qed.

Lemma regions_next p n b rec :
  n ∈ nodes g → live (node_name n) → kind n = ParallelNode → regions p → pp_node p = node_name n → map bp_entry (pp_branches p) = branches n →
  rec ∈ pp_branches p → br_next b = (if is_empty (bp_next rec) then bp_entry rec else bp_next rec) →
  region g live inside (node_name n) (br_next b).
Proof.
  intros Hn Hl Hk Hreg Hname Hent Hin ->. destruct (is_empty (bp_next rec)) eqn:Ee.
  - apply (nested_branch g live inside height Hnest n); [done|done|done|]. rewrite <-Hent. by apply list_elem_of_fmap_2.
  - unfold regions in Hreg. rewrite Forall_forall in Hreg. destruct (Hreg rec Hin) as [E|Hr]; [by rewrite E in Ee|].
    by rewrite <-Hname.
Qed.

Lemma current_progress_spec n p :
  n ∈ nodes g → live (node_name n) → kind n = ParallelNode → Ftop p →
  let p' := current_progress n p in
  regions p' ∧ pp_node p' = node_name n ∧ map bp_entry (pp_branches p') = branches n.
Proof.
  intros Hn Hl Hk Hp. assert (Hfresh : let p' := mkParallelProgress (node_name n) (map fresh_record (branches n)) in
    regions p' ∧ pp_node p' = node_name n ∧ map bp_entry (pp_branches p') = branches n).
  { split_and!; [|done|].
    - unfold regions. simpl. apply Forall_fmap, Forall_forall. intros b Hb. right. simpl.
      by apply (nested_branch g live inside height Hnest n).
    - simpl. rewrite map_map. simpl. apply map_id. }
  unfold current_progress. destruct p as [p|]; [|done]. destruct (progress_matches n p) eqn:Em; [|done].
  apply andb_prop in Em as [E1%str_eqb_true E2%bool_decide_eq_true]. by split_and!; [apply Hp| |].
Qed.

Lemma join_forced items acc : nr_forced_next acc = "" → nr_forced_next (foldl add_pause acc items) = "".
Proof.
  revert acc. induction items as [|[entry b] items IH]; intros acc Ha; simpl; [done|]. apply IH.
  by destruct (br_interrupted b).
Qed.

Lemma config_complete items : preserves same_config (complete_events items : M W unit).
Proof. induction items as [|[entry b] items IH]; simpl; preserve. Qed.

Lemma safe_merge ps F bs items : safe (Inv ps F) (merge_keys bs items) (λ _, True).
Proof.
  induction items as [|[key i] items IH]; cbn [merge_keys]; [by apply safe_ret|].
  eapply safe_bind with (Q1 := λ _, True); [|by intros _ _].
  destruct (bs !! i ≫= _) as [value|]; [|by apply safe_ret].
  eapply safe_bind; [apply safe_frame; by intros|]. intros _ _. eapply safe_bind; [apply safe_exec|]. intros x _.
  destruct (x_writes x); [apply safe_frame; by intros|]. destruct (is_scoped_key key); [|by apply safe_ret].
  eapply safe_bind; [apply safe_lift, config_persist|]. intros [index r] _.
  eapply safe_bind; [apply safe_frame; by intros|]. intros _ _. by apply safe_of_result.
Qed.

Lemma safe_join ps F n bs :
  (ps = [] → F None) → safe (Inv ps F) (join_branches n bs) (λ r, nr_forced_next r = "").
Proof.
  intros HF. unfold join_branches. eapply safe_bind; [apply safe_lift; by intros rt|]. intros _ _.
  eapply safe_bind; [apply safe_lift, config_complete|]. intros _ _.
  destruct (first_branch_error _ _); [apply safe_throw|]. cbv zeta.
  destruct (nr_interrupted _); [by apply safe_ret, join_forced|].
  eapply safe_bind; [by apply (safe_of_result _ _ (λ _, True))|]. intros owners _.
  eapply safe_bind; [apply safe_merge|]. intros _ _. eapply safe_bind; [apply safe_frame; by intros|]. intros _ _.
  eapply safe_bind; [apply safe_exec|]. intros x (st & (_ & _ & _ & Hp & _) & ->). unfold id. rewrite Hp.
  eapply safe_bind with (Q1 := λ _, True); [|intros; by apply safe_ret].
  destruct ps as [|s ps]; simpl; [|by apply safe_ret]. apply safe_update.
  intros st' (Hg' & Ho' & Hs' & Hp' & Hr' & Hnx' & _). split_and!; try done. by apply HF.
Qed.

(** ** Fan-outs *)

Lemma safe_parallel_top fn n :
  n ∈ nodes g → live (node_name n) → kind n = ParallelNode →
  (∀ ps F m r, ps ≠ [] → m ∈ nodes g → live (node_name m) → inside (node_name m) (node_name n) →
    safe (Inv ps F) (fn m r) (λ res, nr_forced_next res = "" ∨ kind m = LoopNode ∧ nr_forced_next res = loop_body m)) →
  safe (Inv [] Ftop) (run_parallel_node fn n) (λ r, nr_forced_next r = "").
Proof.
  intros Hn Hl Hk Hfn st (Hg & Ho & Hs & Hp & Hr & Hnx & HF). set (p := current_progress n (c_progress (x_ctx (g_x st)))).
  destruct (current_progress_spec n _ Hn Hl Hk HF) as (Hreg & Hname & Hent). fold p in Hreg, Hname, Hent.
  set (st1 := mkSt (g_rt st) (set_x_ctx (g_x st) (set_c_progress (x_ctx (g_x st)) (Some p)))).
  destruct (load_branches_spec (x_state (g_x st)) (c_branch_resume (x_ctx (g_x st))) (pp_branches p) (g_rt st)) as [Hc Hbs].
  destruct (load_branches _ _ _ _) as [rt1 bs] eqn:El. simpl in Hc, Hbs.
  assert (Hstart : start_branches n st = (mkSt rt1 (g_x st1), Some (Ok bs))).
  { unfold start_branches, mbind, G_bind, exec, update_ctx, update, lift, id. cbn beta iota. rewrite Hp. simpl.
    fold p. by rewrite El. }
  set (rest := (x ← exec id; bs' ← run_branches fn (node_name n) (is_empty_list (x_parents x)) 0 bs; join_branches n bs')
    : G W NodeResult).
  assert (Hrest : run_parallel_node fn n st = rest (mkSt rt1 (g_x st1))).
  { unfold run_parallel_node. unfold mbind at 1, G_bind at 1. by rewrite Hstart. }
  rewrite Hrest. assert (Hsafe : safe (Inv [] (Fat (node_name n))) rest (λ r, nr_forced_next r = "")).
  { eapply safe_bind; [apply safe_exec|]. intros x (stx & (_ & _ & _ & Hpx & _) & ->). unfold id. rewrite Hpx.
    eapply safe_bind; [apply safe_run_branches|intros bs' _; by apply safe_join].
    - done.
    - intros s m r Hm Hlm Hown. by apply Hfn.
    - apply Forall_forall. intros b Hb. apply list_elem_of_lookup in Hb as [i Hi].
      destruct (Forall2_lookup_l _ _ _ _ _ Hbs Hi) as (rec & Hrec & Hnext).
      eapply (regions_next p); try done. by eapply list_elem_of_lookup_2. }
  destruct (Hsafe (mkSt rt1 (g_x st1))) as (r & Er & Hi & Hq).
  { split_and!; try done; [by eapply ready_config|]. intros p' [= <-]. done. }
  exists r. split_and!; [done| |done]. destruct Hi as (? & ? & ? & ? & ? & ? & Hfat). split_and!; try done.
  intros p' Hp'. by apply (Hfat p').
Qed.

Lemma safe_parallel_nested ps F fn n :
  ps ≠ [] → n ∈ nodes g → live (node_name n) → kind n = ParallelNode →
  (∀ s m r, m ∈ nodes g → live (node_name m) → inside (node_name m) (node_name n) →
    safe (Inv (s :: ps) F) (fn m r) (λ res, nr_forced_next res = "" ∨ kind m = LoopNode ∧ nr_forced_next res = loop_body m)) →
  safe (Inv ps F) (run_parallel_node fn n) (λ r, nr_forced_next r = "").
Proof.
  intros Hps Hn Hl Hk Hfn. unfold run_parallel_node.
  eapply safe_bind with (Q1 := λ bs, Forall (λ b, region g live inside (node_name n) (br_next b)) bs).
  { unfold start_branches. eapply safe_bind; [apply safe_exec|]. intros x (st & (_ & _ & _ & Hp & _) & ->).
    unfold id. rewrite Hp. destruct ps; [done|]. simpl. apply safe_ret, Forall_fmap, Forall_forall. intros b Hb. simpl.
    by apply (nested_branch g live inside height Hnest n). }
  intros bs Hbs. eapply safe_bind; [apply safe_exec|]. intros x (st & (_ & _ & _ & Hp & _) & ->). unfold id. rewrite Hp.
  eapply safe_bind; [apply safe_run_branches|intros bs' _; apply safe_join; done]; [by destruct ps|done|done].
Qed.

(** A node returns when the fan-outs below it are lower than [nest]. *)
Lemma safe_node nest n ps F r :
  n ∈ nodes g → live (node_name n) → (kind n = ParallelNode → height (node_name n) < nest) → (ps = [] → F = Ftop) →
  safe (Inv ps F) (run_node fuel nest n r)
    (λ res, nr_forced_next res = "" ∨ kind n = LoopNode ∧ nr_forced_next res = loop_body n).
Proof.
  revert n ps F r. induction nest as [|nest IH]; intros n ps F r Hn Hl Hh HF; cbn [run_node];
    (eapply safe_bind; [apply safe_lift, config_emit|]; intros _ _);
    (eapply safe_bind; [apply safe_lift, config_trigger|]; intros _ _);
    pose proof (proj1 (Forall_forall _ _) (tame_nodes g Htame) n Hn) as Ht.
  all: eapply safe_bind; [apply safe_attempt with (Q := λ res, nr_forced_next res = "" ∨ kind n = LoopNode ∧ nr_forced_next res = loop_body n)|].
  2,4: intros res Hres; eapply safe_bind with (Q1 := λ _, True);
    [destruct res as [res|e]; [destruct (nr_interrupted res)|]; apply safe_lift, config_emit|intros _ _; by apply safe_of_result].
  all: unfold node_body; destruct (kind n) eqn:Ek.
  all: try (eapply safe_weaken; [by apply safe_agent|auto]).
  all: try (eapply safe_weaken; [by apply safe_function|auto]).
  all: try (eapply safe_weaken; [by apply safe_tool|auto]).
  all: try (eapply safe_weaken; [by apply safe_loop|naive_solver]).
  - specialize (Hh eq_refl). lia.
  - specialize (Hh eq_refl).
    assert (Hbelow : ∀ m, m ∈ nodes g → live (node_name m) → inside (node_name m) (node_name n) → kind m = ParallelNode → height (node_name m) < nest).
    { intros m Hm Hlm Hown Hkm. pose proof (nested_height g live inside height Hnest m _ Hm Hlm Hkm Hown). lia. }
    apply safe_weaken with (Q := λ res, nr_forced_next res = ""); [|by left]. destruct ps as [|s ps].
    + rewrite (HF eq_refl). apply safe_parallel_top; [done|done|done|]. intros ps' F' m r' Hps Hm Hlm Hown.
      apply IH; [done|done|by apply Hbelow|by intros ->].
    + apply safe_parallel_nested; [done|done|done|done|]. intros s' m r' Hm Hlm Hown. apply IH; [done|done|by apply Hbelow|done].
Qed.

(** ** The top level *)

#[local] Abbreviation Top := (safe (Inv [] Ftop)).

Lemma config_jobs js rt : config (rt_session (run_jobs sink rt js)) = config (rt_session rt).
Proof.
  revert rt. induction js as [|j js IH]; intros rt; [done|]. unfold run_jobs in *. simpl. rewrite IH.
  destruct j; [apply (tame_put _ Hsink)|apply (tame_append _ Hsink)].
Qed.

Lemma safe_flush : Top flush_writer (λ _, True).
Proof.
  intros st (Hg & Ho & Hs & Hp & Hr & Hnx & HF). eexists. split_and!; [done| |done]. unfold Inv. simpl. rewrite Hs.
  split_and!; try done. by eapply ready_config; [apply config_jobs|].
Qed.

Lemma safe_finish error : Top (finish error) (λ _, True).
Proof.
  assert (Hrec : ∀ e, Top (record_error e) (λ _, True)).
  { intros e. unfold record_error. eapply safe_bind; [apply safe_frame; by intros|]. intros _ _. apply safe_frame; by intros. }
  assert (Hclose : Top close_run (λ _, True)).
  { unfold close_run. eapply safe_bind; [apply safe_exec|]. intros c _. eapply safe_bind with (Q1 := λ _, True).
    - destruct (c_writer c); [|by apply safe_ret]. eapply safe_weaken; [apply safe_attempt, safe_flush|done].
    - intros flushed _. eapply safe_bind; [apply safe_attempt, safe_write|]. intros written _.
      eapply safe_bind; [apply safe_frame; by intros|]. intros _ _. by apply safe_ret. }
  unfold finish. destruct error as [e|].
  - eapply safe_bind; [apply Hrec|]. intros _ _. eapply safe_bind; [apply Hclose|]. intros _ _. apply safe_throw.
  - eapply safe_bind; [apply Hclose|]. intros [?|e] _; [by apply safe_ret|].
    eapply safe_bind; [apply Hrec|]. intros _ _. apply safe_throw.
Qed.

Context (Hempty : N "") (Hend : N kGraphEnd).

Lemma safe_set_next (f : RunCore → RunCore) : (∀ r, N (next_node (f r))) → Top (update_run f) (λ _, True).
Proof. intros Hf. apply safe_update. intros st (? & ? & ? & ? & ? & ? & ?). split_and!; try done. apply Hf. Qed.

Lemma safe_complete : Top complete_run (λ _, True).
Proof. unfold complete_run. eapply safe_bind; [by apply safe_set_next|]. intros _ _. apply safe_finish. Qed.

Context (nest : nat) (Hheight : ∀ n, n ∈ nodes g → live (node_name n) → kind n = ParallelNode → height (node_name n) < nest)
  (Hlive : ∀ m, N m → has_node g m = true → live m) (Hnext : ∀ m, (has_node g m = true → live m) → N m).

Lemma safe_drive_loop steps resume : Top (drive_loop fuel nest steps resume) (λ _, True).
Proof.
  revert resume. induction steps as [|steps IH]; intros resume; cbn [drive_loop];
    (eapply safe_bind; [apply safe_exec|]; intros x (st & (Hg & _ & _ & _ & _ & Hnx & _) & ->)); unfold id; rewrite Hg; cbv zeta;
    (destruct (str_eqb _ _); [apply safe_complete|]); [apply safe_finish|].
  destruct (find_node g _) as [n|] eqn:En; [|apply safe_finish]. pose proof En as [Hname Hn]%find_node_name.
  assert (Hl : live (node_name n)).
  { rewrite Hname. apply Hlive; [done|]. unfold has_node. by rewrite En. }
  eapply safe_bind with (Q1 := λ r, ∀ next, r = Ok (inr next) → N next).
  - eapply safe_weaken; [apply safe_attempt with (Q := λ o, ∀ next, o = inr next → N next)|naive_solver]. unfold drive_node.
    eapply safe_bind; [apply safe_attempt, safe_node; [done|done|by apply Hheight|done]|]. intros [r|e] Hr.
    + eapply safe_bind; [apply safe_drain|]. intros _ _. destruct (nr_interrupted r); [by apply safe_ret|].
      eapply safe_bind; [apply safe_next, Hr; done|]. intros m Hm. apply safe_ret. intros ? [= <-].
      destruct Hm as [->|Hm]; [done|]. apply Hnext. by eapply nested_next.
    + eapply safe_bind; [apply safe_frame; by intros|]. intros _ _. apply safe_throw.
  - intros [[r|next]|e] Hnext'; [| |apply safe_finish].
    + unfold interrupt_run. eapply safe_bind; [apply safe_frame; by intros|]. intros _ _.
      eapply safe_bind; [apply safe_frame; by intros|]. intros _ _. apply safe_finish.
    + eapply safe_bind; [apply safe_set_next; intros r; by apply Hnext'|]. intros _ _. destruct (str_eqb next kGraphEnd); [apply safe_complete|].
      eapply safe_bind; [apply safe_attempt, safe_step_checkpoint|]. intros [?|e] _; [apply IH|apply safe_finish].
Qed.

Lemma safe_drive resume : Top (drive fuel nest resume) (λ _, True).
Proof.
  unfold drive. eapply safe_bind; [apply safe_attempt, safe_drain|]. intros [?|e] _; [|apply safe_finish].
  eapply safe_bind; [apply safe_exec|]. intros g' _. apply safe_drive_loop.
Qed.

(** ** Setting a run up *)

Lemma config_answer s : preserves same_config (answer_abandoned_calls s : M W _).
Proof.
  unfold answer_abandoned_calls. apply preserves_bind; [exact _| |intros; apply preserves_ret; exact _].
  generalize (histories s) at 2. generalize (map_items (histories s)). intros items.
  induction items as [|[name m] items IH]; intros out; cbn [answer_items]; [apply preserves_ret; exact _|].
  apply preserves_bind; [exact _| |intros; apply IH]. unfold answer_history.
  destruct (abandoned_round _) as [calls|]; [|apply preserves_ret; exact _].
  apply preserves_bind; [exact _| |intros; apply preserves_ret; exact _]. generalize (history m) at 2. generalize (tool_tail (history m)). intros i.
  induction calls as [|tc calls IHc]; intros h; cbn [answer_calls]; [apply preserves_ret; exact _|].
  destruct (is_answered _ _ _); [apply IHc|]. apply preserves_bind; [exact _|apply config_log_event|intros; apply IHc].
Qed.

Lemma config_load_values keys s : preserves same_config (load_values keys s : M W _).
Proof. revert s. induction keys as [|k keys IH]; intros s; cbn [load_values]; preserve. Qed.

Lemma config_load_scoped s i : preserves same_config (load_scoped_state s i : M W _).
Proof. pose proof config_load_values. unfold load_scoped_state. preserve. Qed.

Lemma safe_load_scoped : Top load_scoped (λ _, True).
Proof.
  unfold load_scoped. eapply safe_bind; [apply safe_exec|]. intros x _.
  eapply safe_bind; [apply safe_lift, config_load_scoped|]. intros [[s' index] r] _.
  eapply safe_bind; [apply safe_frame; by intros|]. intros _ _. by apply safe_of_result.
Qed.

Lemma safe_start seed : N (entry g) → Top (start_run g seed) (λ _, True).
Proof.
  intros He.   unfold start_run. eapply safe_bind with (Q1 := λ _, True).
  { unfold continue_thread. eapply safe_bind; [apply safe_exec|]. intros thread _.
    eapply safe_bind with (Q1 := λ _, True).
    { unfold get_latest. eapply safe_bind; [apply safe_exec|]. intros x (st & (_ & _ & Hs & _) & ->). unfold id.
      rewrite Hs. apply safe_lift, (tame_get_latest _ Hsink). }
    intros [text|e] _; [|destruct (bool_decide _); [by apply safe_ret|apply safe_throw]].
    eapply safe_bind; [by apply (safe_of_result _ _ (λ _, True))|]. intros [previous p] _. cbv zeta.
    eapply safe_bind; [apply safe_frame; by intros|]. intros _ _. eapply safe_bind; [apply safe_frame; by intros|]. intros _ _.
    eapply safe_bind; [apply safe_exec|]. intros s _. eapply safe_bind; [apply safe_lift, config_answer|]. intros s' _.
    apply safe_frame; by intros. }
  intros _ _. eapply safe_bind; [apply safe_load_scoped|]. intros _ _.
  eapply safe_bind; [apply safe_frame; by intros|]. intros _ _.
  eapply safe_bind with (Q1 := λ _, True); [|intros _ _; by apply safe_set_next].
  unfold reset_run_status. eapply safe_bind; [apply safe_frame; by intros|]. intros _ _. apply safe_frame; by intros.
Qed.

End Terminates.

(** The store adapter leaves the configuration alone. *)
Lemma tame_store {W : Type} `{Host W} `{JsonParser} : tame_backend (kStoreCheckpointer (W := W)).
Proof.
  assert (Hall : ∀ puts, preserves same_config (store_all puts : M W _)).
  { induction puts as [|[k v] puts IH]; cbn [store_all]; preserve. }
  assert (Hget : ∀ k, preserves same_config (store_get_nonempty k : M W _)).
  { intros k. unfold store_get_nonempty. preserve. }
  split.
  - intros. cbn [b_put kStoreCheckpointer]. unfold store_put. preserve.
  - intros. cbn [b_get_latest kStoreCheckpointer]. unfold store_get_latest. preserve.
  - intros. cbn [b_append_events kStoreCheckpointer]. unfold store_append_events, store_event_batches. preserve.
Qed.

(** A run starts at the entry. *)
Lemma start_next {W : Type} `{Host W} `{JsonParser} (g : Graph W) seed (st : St W) :
  (start_run g seed st).2 = Some (Ok tt) → next_node (x_run (g_x (start_run g seed st).1)) = entry g.
Proof.
  assert (Hbind : ∀ {A} (m : G W A) (k : A → G W unit),
    (∀ a st, (k a st).2 = Some (Ok tt) → next_node (x_run (g_x (k a st).1)) = entry g) →
    ∀ st, ((m ≫= k) st).2 = Some (Ok tt) → next_node (x_run (g_x ((m ≫= k) st).1)) = entry g).
  { intros A m k Hk st'. unfold mbind, G_bind. destruct (m st') as [st1 [[a|e]|]]; [apply Hk|done|done]. }
  unfold start_run. revert st. do 4 (apply Hbind; intros ?). done.
Qed.

Lemma run_graph_returns {W : Type} `{Host W} `{JsonParser} (fuel nest : nat) (g : Graph W) (run : GraphRun W) (rt : Rt W)
    (live : string → Prop) (inside : string → string → Prop) (height : string → nat) :
  ready fuel (rt_session rt) → tame_graph g → well_nested g live inside height →
  (∀ n, n ∈ nodes g → live (node_name n) → kind n = ParallelNode → height (node_name n) < nest) →
  (∀ cp, run_checkpointer run = Some cp → tame_backend (cp_ops cp)) →
  (∀ o name w s, run_models run = Some o → (acquire_model_fn o name w).2 = Ok s → ready fuel s) →
  (run_graph fuel nest g run rt).2 ≠ None.
Proof.
  intros Hr Ht Hn Hh Hcp Hm. unfold run_graph. destruct (validate g) as [[]|e] eqn:Ev; [|done]. apply validate_spec in Ev.
  assert (Hno : ∀ m, m = "" ∨ m = kGraphEnd → has_node g m = true → live m).
  { intros m Hbad Hm'%has_node_spec. apply list_elem_of_fmap in Hm' as (n & -> & Hin). exfalso.
    pose proof (proj1 (Forall_forall _ _) (valid_nodes g Ev) n Hin) as ((? & ?) & _). naive_solver. }
  cbv zeta. set (run' := set_core run _).
  destruct (resolve_sink (rt_session rt) (run_checkpointer run') (bool_decide (run_durability run' = DurAsync)))
    as [[sink writer]|e] eqn:Es; [|unfold in_run; rewrite Es; done].
  assert (Hs : tame_backend sink).
  { unfold resolve_sink in Es. cbn [run_checkpointer run' set_core] in Es. destruct (run_checkpointer run) as [cp|].
    - repeat step_match Es; try done. injection Es as <- <-. by apply Hcp.
    - destruct (memory_state _); [|done]. injection Es as <- <-. apply tame_store. }
  rewrite (in_run_result _ _ _ _ sink writer) by done. unfold mbind, G_bind. set (st0 := mkSt _ _).
  assert (Hi : Inv fuel g (run_models run) sink (λ _, True) [] (Ftop g live inside) st0) by (by split_and!).
  pose proof (start_next g (state (run_core run)) st0) as Hnext.
  destruct (safe_start fuel g (run_models run) sink live inside (λ _, True) Hs (state (run_core run)) I st0 Hi) as (r & Er & Hi' & _).
  destruct (start_run _ _ st0) as [st1 o]. simpl in Er, Hi', Hnext. subst o. destruct r as [[]|e]; [|done].
  specialize (Hnext eq_refl). set (N m := has_node g m = true → live m).
  assert (Hi2 : Inv fuel g (run_models run) sink N [] (Ftop g live inside) st1).
  { destruct Hi' as (? & ? & ? & ? & ? & _ & ?). split_and!; try done. rewrite Hnext. intros _. apply Hn. }
  destruct (safe_drive fuel g (run_models run) sink live inside height N Ht Hs Hn Hm
    (Hno "" (or_introl eq_refl)) (Hno kGraphEnd (or_intror eq_refl)) nest Hh (λ m Hm, Hm) (λ m Hm, Hm) None st1 Hi2) as (r & -> & _). done.
Qed.


(** A fan-out over an agent and a function, then a loop: on the engine that
    always asks for a tool. *)
Module TermSample.

Definition work : GraphFunctionFn nat := λ s st w, (s, set_state st "b" "1", S w, Ok tt).

Definition agent_node : GraphNode nat := default_node "a" AgentNode.
Definition work_node : GraphNode nat :=
  mkGraphNode "b" FunctionNode "" [] "" "" "" false "" None [] "" (Some work) "" None [] "" 1 None "".

Definition graph : Graph nat := make_parallel "fan" [make_graph agent_node; make_graph work_node].

Definition run : GraphRun nat :=
  mkGraphRun (mkRunCore "t" empty_state RunPending "" 0 "" "" []) DurSync None None [] [] None None.

Definition inside (name q : string) : Prop := (name = "a" ∨ name = "b") ∧ q = "fan".

Definition height (name : string) : nat := 0.

Lemma graph_nodes n : n ∈ nodes graph →
  n = fan_node "fan" ["a"; "b"] ∨ n = set_exit agent_node "fan" ∨ n = set_exit work_node "fan".
Proof.
  change (nodes graph) with [fan_node "fan" ["a"; "b"]; set_exit agent_node "fan"; set_exit work_node "fan"].
  rewrite !elem_of_cons. intros [->|[->|[->|Hn]]]; auto. by apply not_elem_of_nil in Hn.
Qed.

Lemma nested : well_nested graph (λ _, True) inside height.
Proof.
  split.
  - done.
  - done.
  - intros n b [->|[->| ->]]%graph_nodes _ Hk Hb; try done. simpl in Hb.
    apply elem_of_cons in Hb as [->|Hb]; [|apply list_elem_of_singleton in Hb as ->];
      intros _ _ _; unfold inside; auto.
  - intros n q m [->|[->| ->]]%graph_nodes _ [Hq ->] Hf; [by destruct Hq| |];
      destruct Hf as [Hk Hm|e He _ _|e f s gs w He|_ ->]; try done; by intros ?.
  - intros n q [->|[->| ->]]%graph_nodes _ Hk [Hq _]; try done. by destruct Hq.
Qed.

Lemma tame : tame_graph graph.
Proof.
  split.
  - apply Forall_forall. intros n [->|[->| ->]]%graph_nodes; split; try done. by intros f [= <-] s gs w.
  - intros e f He. by apply not_elem_of_nil in He.
Qed.

End TermSample.

