(* ===== verification/GraphNodes.v ===== *)
(** * Theorems on the nodes and histories of a run

    The loop counter, the choice of the next node, the answers a restarted
    thread gives to abandoned tool calls, and the calls a reviewer denied
    (src/core/graph/graph_executor.cpp). *)
From stdpp Require Import base gmap strings list.
From Stdlib Require Import Lia ZArith.
From S2P Require Import Prelude Arena Text Decimal Json Session Provider Tools History Turn Graph Checkpoint Checkpointer GraphExec GraphRun GraphTheory.

(** ** Abandoned calls *)

Lemma leading_app p (l1 l2 : list Message) :
  Forall (λ m, p m = true) l1 → leading p (l1 ++ l2) = length l1 + leading p l2.
Proof. induction 1 as [|m l1 Hm _ IH]; simpl; [done|]. by rewrite Hm, IH. Qed.

(** Tool messages at the end do not change where the round starts. *)
Lemma tool_tail_app h extra : Forall (λ m, is_role "tool" m = true) extra → tool_tail (h ++ extra) = tool_tail h.
Proof.
  intros He. unfold tool_tail. rewrite reverse_app, leading_app by (by apply Forall_reverse).
  rewrite length_app, length_reverse. lia.
Qed.

Lemma tool_tail_le h : tool_tail h ≤ length h.
Proof. unfold tool_tail. lia. Qed.

Lemma abandoned_round_app h extra :
  Forall (λ m, is_role "tool" m = true) extra → abandoned_round (h ++ extra) = abandoned_round h.
Proof.
  intros He. unfold abandoned_round. rewrite tool_tail_app by done. pose proof (tool_tail_le h).
  destruct (tool_tail h) as [|k]; [done|]. by rewrite lookup_app_l by lia.
Qed.

Definition all_answered (h : list Message) : Prop :=
  ∀ calls tc, abandoned_round h = Some calls → tc ∈ calls → is_answered h (tool_tail h) (call_id tc) = true.

(** Only error results for calls of the round were added. *)
Definition completed_by (calls : list ToolCall) (extra : list Message) : Prop :=
  Forall (λ m, ∃ tc, tc ∈ calls ∧ m = abandoned_message tc) extra.

Lemma completed_tools calls extra : completed_by calls extra → Forall (λ m, is_role "tool" m = true) extra.
Proof. intros Hc. eapply Forall_impl; [exact Hc|]. by intros m (tc & _ & ->). Qed.

Lemma is_answered_app h extra i id :
  i ≤ length h → is_answered (h ++ extra) i id = is_answered h i id || existsb (λ m, str_eqb (tool_call_id m) id) extra.
Proof. intros Hi. unfold is_answered. by rewrite drop_app_le, existsb_app. Qed.

Section Abandoned.
Context {W : Type} `{Host W} `{JsonParser}.

Lemma answer_calls_spec name i calls h (rt : Rt W) :
  i ≤ length h →
  ∃ extra, (answer_calls name i calls h rt).2 = h ++ extra ∧ completed_by calls extra ∧
    ∀ tc, tc ∈ calls → is_answered (h ++ extra) i (call_id tc) = true.
Proof.
  revert h rt. induction calls as [|tc calls IH]; intros h rt Hi; cbn [answer_calls].
  { exists []. rewrite app_nil_r. split_and!; [done|constructor|]. intros tc Htc. by apply not_elem_of_nil in Htc. }
  destruct (is_answered h i (call_id tc)) eqn:Ea.
  - destruct (IH h rt Hi) as (extra & E & Hc & Hall). exists extra. split_and!; [done| |].
    + eapply Forall_impl; [exact Hc|]. intros m (tc' & ? & ->). exists tc'. split; [by right|done].
    + intros tc' [->|Htc]%elem_of_cons; [|by apply Hall]. by rewrite is_answered_app, Ea by done.
  - unfold mbind, M_bind. destruct (log_event _ _ _ _ rt) as [rt1 e].
    destruct (IH (h ++ [abandoned_message tc]) rt1) as (extra & E & Hc & Hall); [rewrite length_app; lia|].
    exists (abandoned_message tc :: extra). rewrite E, <-app_assoc. split_and!; [done| |].
    + constructor; [exists tc; split; [by left|done]|]. eapply Forall_impl; [exact Hc|].
      intros m (tc' & ? & ->). exists tc'. split; [by right|done].
    + intros tc' [->|Htc]%elem_of_cons; [|specialize (Hall tc' Htc); by rewrite <-app_assoc in Hall].
      rewrite is_answered_app by done. simpl. by rewrite str_eqb_refl, !orb_true_r.
Qed.

(** What the answers make of one conversation. *)
Definition answered_from (m m' : FlowMemory) : Prop :=
  fm_id m' = fm_id m ∧ fm_stats m' = fm_stats m ∧ all_answered (history m') ∧
  ∃ extra, history m' = history m ++ extra ∧ completed_by (default [] (abandoned_round (history m))) extra.

Lemma answer_history_spec name m (rt : Rt W) : answered_from m (answer_history name m rt).2.
Proof.
  unfold answer_history, answered_from. destruct (abandoned_round (history m)) as [calls|] eqn:Er.
  - unfold mbind, M_bind. destruct (answer_calls_spec name (tool_tail (history m)) calls (history m) rt (tool_tail_le _))
      as (extra & E & Hc & Hall).
    destruct (answer_calls _ _ _ _ rt) as [rt1 h']. simpl in *. subst h'. split_and!; [done|done| |eauto].
    intros calls' tc. rewrite abandoned_round_app, Er, tool_tail_app by (by eapply completed_tools).
    intros [= <-]. apply Hall.
  - simpl. split_and!; [done|done| |]; [|exists []; rewrite app_nil_r; split; [done|constructor]].
    intros calls tc. by rewrite Er.
Qed.

Lemma answer_items_spec items out (rt : Rt W) :
  NoDup items.*1 →
  (∀ name m, (name, m) ∈ items → ∃ m', (answer_items items out rt).2 !! name = Some m' ∧ answered_from m m') ∧
  (∀ name, name ∉ items.*1 → (answer_items items out rt).2 !! name = out !! name).
Proof.
  revert out rt. induction items as [|[name m] items IH]; intros out rt Hnd; cbn [answer_items].
  { split; [intros ? ? Hin; by apply not_elem_of_nil in Hin|done]. }
  simpl in Hnd. apply NoDup_cons in Hnd as [Hni Hnd]. unfold mbind, M_bind.
  pose proof (answer_history_spec name m rt) as Hm. destruct (answer_history name m rt) as [rt1 m']. simpl in Hm.
  destruct (IH (<[name := m']> out) rt1 Hnd) as [Hin Hout]. split.
  - intros name' x [Heq|Hx]%elem_of_cons; [|by apply Hin]. injection Heq as -> ->.
    exists m'. split; [|done]. rewrite Hout by done. apply lookup_insert_eq.
  - intros name' Hn. simpl in Hn. apply not_elem_of_cons in Hn as [Hne Hn]. rewrite Hout by done.
    by apply lookup_insert_ne.
Qed.

End Abandoned.

(** A thread that is started again leaves no tool call open: after
    [answer_abandoned_calls] every conversation ends in a round whose calls all
    have a result.  Nothing is dropped or reordered: a conversation only gains
    error results, each for a call of its last round, and the set of
    conversations and the values are the same. *)
Theorem abandoned_calls_answered {W : Type} `{Host W} `{JsonParser} (s : GraphState) (rt : Rt W) :
  let s' := (answer_abandoned_calls s rt).2 in
  values s' = values s ∧
  ∀ name,
    match histories s !! name with
    | None => histories s' !! name = None
    | Some m => ∃ m', histories s' !! name = Some m' ∧ answered_from m m'
    end.
Proof.
  unfold answer_abandoned_calls, mbind, M_bind.
  destruct (answer_items_spec (map_items (histories s)) (histories s) rt (map_items_NoDup _)) as [Hin Hout].
  destruct (answer_items _ _ rt) as [rt1 h]. simpl in *. split; [done|]. intros name.
  destruct (histories s !! name) as [m|] eqn:E; [by apply Hin, elem_of_map_items|]. rewrite Hout; [done|].
  intros ([k m] & -> & Hm)%list_elem_of_fmap. apply elem_of_map_items in Hm. simpl in *. congruence.
Qed.

(** ** Loop nodes *)

Section Loop.
Context {W : Type}.
Implicit Types (n : GraphNode W) (st : St W).

(** The counter of loop [n] stands at [k]; no counter is zero. *)
Definition counts n (s : GraphState) (k : Z) : Prop :=
  values s !! loop_key n = if (k =? 0)%Z then None else Some (to_string k).

Lemma loop_count_spec n s k : (0 ≤ k < 2147483648)%Z → counts n s k → loop_count n s = k.
Proof.
  intros Hk Hc. unfold loop_count, get_state, counts in *. rewrite Hc. destruct (Z.eqb_spec k 0) as [->|Hne]; [done|].
  simpl. unfold from_chars_int. rewrite from_chars_to_string by lia. done.
Qed.

(** One visit of a loop node without a stop condition. *)
Lemma loop_visit n st k :
  until n = None → (0 ≤ k < 2147483648)%Z → counts n (x_state (g_x st)) k →
  run_loop_node n st =
    let s := x_state (g_x st) in
    if (max_iterations n <=? k)%Z
    then (mkSt (g_rt st) (set_x_state (g_x st) (set_values s (delete (loop_key n) (values s)))), Some (Ok plain_result))
    else (mkSt (g_rt st) (set_x_state (g_x st) (set_values s (<[loop_key n := to_string (k + 1)]> (values s)))),
          Some (Ok (mkNodeResult false "" [] (loop_body n) []))).
Proof.
  intros Hu Hk Hc. unfold run_loop_node, mbind, G_bind, exec. cbn beta iota. rewrite (loop_count_spec n _ k), Hu by done.
  by destruct (max_iterations n <=? k)%Z.
Qed.

(** Visits of the loop node with the body in between, until the loop is left:
    the number of bodies run and the state the loop ends in. *)
Fixpoint loop_rounds (fuel : nat) n (body : GraphState → GraphState) st : option (nat * GraphState) :=
  match fuel with
  | O => None
  | S f =>
      match run_loop_node n st with
      | (st', Some (Ok r)) =>
          if is_empty (nr_forced_next r) then Some (0, x_state (g_x st'))
          else match loop_rounds f n body (mkSt (g_rt st') (set_x_state (g_x st') (body (x_state (g_x st'))))) with
               | Some (k, s) => Some (S k, s)
               | None => None
               end
      | _ => None
      end
  end.

Lemma loop_rounds_spec n body st d k :
  until n = None → loop_body n ≠ "" →
  (∀ s, values (body s) !! loop_key n = values s !! loop_key n) →
  (0 ≤ k)%Z → (max_iterations n = k + Z.of_nat d)%Z → (max_iterations n < 2147483648)%Z →
  counts n (x_state (g_x st)) k →
  ∃ s, loop_rounds (S d) n body st = Some (d, s) ∧ values s !! loop_key n = None.
Proof.
  intros Hu Hb Hbody. revert k st. induction d as [|d IH]; intros k st Hk Hd Hmax Hc; cbn [loop_rounds];
    rewrite (loop_visit n st k) by (done || lia).
  - rewrite (proj2 (Z.leb_le _ _)) by lia. eexists. split; [done|]. simpl. apply lookup_delete_eq.
  - rewrite (proj2 (Z.leb_gt _ _)) by lia. cbv zeta beta iota. cbn [nr_forced_next].
    rewrite (proj2 (is_empty_false _)) by done. cbn [g_rt g_x x_state set_x_state].
    edestruct (IH (k + 1)%Z) as (s & E & Hs); [lia|lia|lia| |].
    2:{ exists s. cbn [loop_rounds] in E. rewrite E. done. }
    unfold counts. simpl. rewrite Hbody. simpl. rewrite lookup_insert_eq.
    by rewrite (proj2 (Z.eqb_neq _ _)) by lia.
Qed.

End Loop.

(** A loop node without a stop condition runs its body exactly
    [max_iterations] times, whatever the body does to the state apart from the
    loop's own counter, and then leaves no counter behind, so that the next
    visit starts a fresh loop. *)
Theorem loop_runs_max_iterations {W : Type} (n : GraphNode W) (body : GraphState → GraphState) (st : St W) :
  until n = None → loop_body n ≠ "" → (1 ≤ max_iterations n < 2147483648)%Z →
  (∀ s, values (body s) !! loop_key n = values s !! loop_key n) →
  values (x_state (g_x st)) !! loop_key n = None →
  let count := Z.to_nat (max_iterations n) in
  ∃ s, loop_rounds (S count) n body st = Some (count, s) ∧ values s !! loop_key n = None.
Proof.
  intros Hu Hb Hmax Hbody Hc. apply (loop_rounds_spec n body st _ 0); try done; [lia|]. lia.
Qed.

(** ** The next node *)

(** Routing stays inside a valid graph: after any node of it, the next
    node is the end or a node of the graph, whether an edge, a router, the exit
    of a composed step or the body of a loop chose it. *)
Theorem next_node_exists {W : Type} (g : Graph W) (n : GraphNode W) (r : NodeResult) (st st' : St W) (next : string) :
  valid_graph g → c_graph (x_ctx (g_x st)) = g → n ∈ nodes g →
  nr_forced_next r = "" ∨ (kind n = LoopNode ∧ nr_forced_next r = loop_body n) →
  resolve_next n r st = (st', Some (Ok next)) → next = kGraphEnd ∨ next ∈ names g.
Proof.
  intros Hv Hg Hn Hr. pose proof (proj1 (Forall_forall _ _) (valid_nodes g Hv) n Hn) as (_ & Hexit & Hkind).
  unfold resolve_next. destruct (is_empty (nr_forced_next r)) eqn:Ef; simpl.
  2:{ intros [= _ <-]. destruct Hr as [Hr|[Hk Hr]]; [by rewrite Hr in Ef|].
      right. rewrite Hr. unfold kind_ok in Hkind. rewrite Hk in Hkind. apply Hkind. }
  unfold mbind, G_bind, exec. cbn beta iota. rewrite Hg.
  set (m := match find_edge g (node_name n) with Some _ => _ | None => _ end : G W string).
  assert (Hm : ∀ st1 x, m st = (st1, Some (Ok x)) → x = kGraphEnd ∨ x ∈ names g).
  { subst m. intros st1 x. unfold find_edge. pose proof (find_name from (edges g) (node_name n)) as Hf.
    destruct (find _ (edges g)) as [e|]; [|intros [= _ <-]; by left]. destruct Hf as [He _].
    pose proof (proj1 (Forall_forall _ _) (valid_edges g Hv) e He) as [_ Hto].
    destruct (router e) as [f|]; [|intros [= _ <-]; by destruct Hto].
    unfold mbind, G_bind. destruct (call_state_fn f st) as [st2 [[y|]|]]; [|done|done].
    destruct (str_eqb y kGraphEnd) eqn:Ey; [apply str_eqb_true in Ey; intros [= _ <-]; by left|].
    destruct (has_node g y) eqn:Eh; simpl; [|done]. intros [= _ <-]. right. by apply has_node_spec. }
  destruct (m st) as [st1 [[x|e]|]]; [|done|done]. specialize (Hm st1 x eq_refl). intros [= _ <-].
  destruct (str_eqb x kGraphEnd && negb (is_empty (exit_to n))) eqn:Ex; [|done].
  apply andb_prop in Ex as [_ Ex]. apply negb_true_iff, is_empty_false in Ex. destruct Hexit as [|?]; [done|by right].
Qed.

Lemma loop_runs_witness :
  ∃ s, loop_rounds 3 (loop_node "again" "work" 2 None) (λ s, set_state s "x" "1")
         (mkSt Sample.rt (start_exec GraphSample.graph GraphSample.run (@kStoreCheckpointer unit _ RefParser.parser) false))
       = Some (2, s) ∧ values s !! loop_key (loop_node (W := unit) "again" "work" 2 None) = None.
Proof.
  apply (loop_runs_max_iterations (loop_node "again" "work" 2 None)); [reflexivity|discriminate|simpl; lia| |reflexivity].
  intros s. simpl. apply lookup_insert_ne. discriminate.
Defined.

Lemma next_node_exists_witness :
  let st := mkSt Sample.rt (start_exec GraphSample.graph GraphSample.run (@kStoreCheckpointer unit _ RefParser.parser) false) in
  "again" = kGraphEnd ∨ "again" ∈ names GraphSample.graph.
Proof.
  intros st. apply (next_node_exists GraphSample.graph (set_exit GraphSample.work_node "again") plain_result st st "again").
  - apply validate_spec. vm_compute. reflexivity.
  - reflexivity.
  - right. left.
  - left. reflexivity.
  - reflexivity.
Defined.

(** ** Denied calls *)

(** The messages a denied round leaves. *)
Definition denials (human_input : string) (calls : list ToolCall) : list Message :=
  map (λ tc, tool_message (call_id tc) (denied_result human_input)) calls.

(** Nothing watches the run: no hook, no event feed, and a clock that is only read. *)
Definition unwatched {W : Type} `{Host W} (rt : Rt W) : Prop :=
  event_hooks (rt_session rt) = [] ∧ rt_on_event rt = None ∧ ∀ w, (now_ms w).1 = w.

Section Denied.
Context {W : Type} `{Host W} `{JsonParser}.

(** Everything but statistics and the event log is kept. *)
Definition same_tools (rt rt' : Rt W) : Prop :=
  config (rt_session rt') = config (rt_session rt) ∧ event_hooks (rt_session rt') = event_hooks (rt_session rt) ∧
  rt_on_event rt' = rt_on_event rt ∧ rt_ambient rt' = rt_ambient rt ∧
  memory_state (rt_session rt') = memory_state (rt_session rt) ∧
  (unwatched rt → rt_world rt' = rt_world rt).

#[global] Instance same_tools_preorder : PreOrder same_tools.
Proof.
  split; [by intros rt; split_and!|].
  intros r1 r2 r3 (A1 & A2 & A3 & A4 & A5 & A6) (B1 & B2 & B3 & B4 & B5 & B6). unfold same_tools.
  split_and!; try congruence. intros Hu. rewrite B6; [by apply A6|]. destruct Hu as (E1 & E2 & E3).
  split_and!; [congruence|congruence|done].
Qed.

Lemma tools_emit type node key payload : preserves same_tools (emit type node key payload : M W unit).
Proof.
  intros rt. unfold emit, log_event, mbind, M_bind, host, ask, modify. cbn beta iota.
  pose proof (λ Hu : unwatched rt, proj2 (proj2 Hu) (rt_world rt)) as Hw.
  destruct (now_ms (rt_world rt)) as [w t]. simpl in *. unfold same_tools, unwatched in *.
  destruct (rt_on_event rt) as [f|] eqn:Ef; simpl; split_and!; try done. intros (_ & ? & _). done.
Qed.

Lemma tools_trigger t p : preserves same_tools (trigger_event t p : M W unit).
Proof.
  intros rt. unfold trigger_event, mbind, M_bind, ask, host_, host. cbn beta iota. split_and!; try done.
  intros (E & _). simpl. by rewrite E.
Qed.

Lemma denied_call mem n tc resume (rt : Rt W) :
  permission_check (config (rt_session rt)) = None → pr_approved resume = false →
  same_tools rt (run_approved_call mem n tc resume rt).1 ∧
  (run_approved_call mem n tc resume rt).2 =
    (set_fm_stats mem (ts_add_tool_call (fm_stats mem)), denied_result (pr_human_input resume)).
Proof.
  intros Hp Ha. unfold run_approved_call. unfold mbind, M_bind.
  pose proof (tools_emit EvToolCall (node_name n) (call_name tc) (call_arguments tc) rt) as H1.
  destruct (emit EvToolCall _ _ _ rt) as [rt1 ?]. simpl in H1.
  pose proof (tools_trigger OnToolCall (call_name tc) rt1) as H2. destruct (trigger_event OnToolCall _ rt1) as [rt2 ?].
  simpl in H2. unfold ask. cbn beta iota.
  assert (Ec : permission_check (config (rt_session rt2)) = None).
  { destruct H1 as (E1 & _), H2 as (E2 & _). by rewrite E2, E1. }
  rewrite Ec, Ha. unfold mret, M_ret. cbn beta iota.
  change (bool_decide (Ask = Ask) && negb false) with true. unfold mret, M_ret. cbn beta iota.
  match goal with |- context [emit EvToolResult ?a ?b ?c rt2] =>
    pose proof (tools_emit EvToolResult a b c rt2) as H3; destruct (emit EvToolResult a b c rt2) as [rt3 ?] end.
  simpl in H3. cbn beta iota. match goal with |- context [trigger_event ?a ?b rt3] =>
    pose proof (tools_trigger a b rt3) as H4; destruct (trigger_event a b rt3) as [rt4 ?] end.
  simpl in H4. split; [|done]. simpl. transitivity rt1; [done|]. transitivity rt2; [done|].
  transitivity rt3; [done|]. transitivity rt4; [done|]. by split_and!.
Qed.

End Denied.

(** Tool calls a reviewer did not approve never run: when every call needs
    approval and the resume does not give it, answering the pending calls adds
    one denial per call, in the order of the calls and with the reviewer's
    text, to the conversation and changes nothing else: with nothing watching
    the run the host is exactly as before, so no tool and no hook ran. *)
Theorem denied_calls_never_run {W : Type} `{Host W} `{JsonParser} (n : GraphNode W) (calls : list ToolCall)
    (resume : PendingResume) (mem : FlowMemory) (rt : Rt W) :
  permission_check (config (rt_session rt)) = None → pr_approved resume = false →
  let '(rt', mem') := run_approved_calls mem n calls resume rt in
  history mem' = history mem ++ denials (pr_human_input resume) calls ∧ fm_id mem' = fm_id mem ∧ same_tools rt rt'.
Proof.
  intros Hp Ha. revert mem rt Hp. induction calls as [|tc calls IH]; intros mem rt Hp; cbn [run_approved_calls].
  { simpl. rewrite app_nil_r. by split_and!. }
  unfold mbind, M_bind. destruct (denied_call mem n tc resume rt Hp Ha) as [Hs Hr].
  destruct (run_approved_call mem n tc resume rt) as [rt1 [mem1 r]]. simpl in *. injection Hr as -> ->.
  match goal with |- context [run_approved_calls ?m n calls resume rt1] => specialize (IH m rt1) end.
  destruct (run_approved_calls _ n calls resume rt1) as [rt2 mem2]. destruct IH as (Hh & Hi & Hs2).
  { destruct Hs as (E & _). by rewrite E. }
  simpl in *. split_and!; [by rewrite Hh, <-app_assoc|done|]. by transitivity rt1.
Qed.

Lemma denied_calls_witness :
  let calls := [mkToolCall "c1" "rm" "{}"] in
  let '(rt', mem') := @run_approved_calls unit _ RefParser.parser no_memory (default_node "a" AgentNode) calls
                        (mkPendingResume calls false "no") Sample.rt in
  history mem' = [tool_message "c1" (denied_result "no")] ∧ rt_world rt' = tt.
Proof.
  intros calls.
  pose proof (@denied_calls_never_run unit _ RefParser.parser (default_node "a" AgentNode) calls
                (mkPendingResume calls false "no") no_memory Sample.rt eq_refl eq_refl) as Hd.
  destruct (run_approved_calls _ _ _ _ _) as [rt' mem']. destruct Hd as (Hh & _ & _).
  split; [exact Hh|by destruct (rt_world rt')].
Defined.

(** ** System prompts and approvals *)

(** A node's system prompt never stays in its conversation: whatever
    messages the node's turns append, restoring the scope gives the
    conversation as it was before with those messages added, an earlier system
    prompt included; only the cached token count of that message is reset. *)
Theorem prompt_scope_restored (m : FlowMemory) (prompt : string) (new : list Message) :
  let '(m1, scope) := install_prompt m prompt in
  let m2 := restore_prompt (set_history m1 (history m1 ++ new)) scope in
  map erase (history m2) = map erase (history m ++ new) ∧ fm_id m2 = fm_id m.
Proof.
  unfold install_prompt. destruct (is_empty prompt); [done|]. destruct (has_system_prompt (history m)) eqn:Eh; [|done].
  by destruct (history m) as [|h0 rest].
Qed.

(** Approvals ignore white space anywhere in the answer, not only around
    it: a space inside a word does not change whether the answer approves. *)
Theorem approval_ignores_space (a b : string) (c : Ascii.ascii) :
  is_space c = true → is_approval (a +:+ String c b) = is_approval (a +:+ b) ∧ is_approval "o k" = true.
Proof.
  intros Hc. split; [|reflexivity]. unfold is_approval. rewrite !bytes_app, !List.filter_app. simpl. by rewrite Hc.
Qed.

Lemma approval_ignores_space_witness : is_approval "y es" = is_approval "yes" ∧ is_approval "o k" = true.
Proof. apply (approval_ignores_space "y" "es" (Ascii.ascii_of_nat 32)). reflexivity. Defined.
