(* ===== verification/Models.v ===== *)
(** * The model registry (src/core/models/model_registry.cpp)

    Named [Config] templates loaded on demand into sessions under a RAM and
    VRAM budget, with least-recently-used eviction.  The first part is the
    memory estimate of a spec; file sizes come from a [FileSystem].

    The registry is used by many threads at once.  Every stretch of code that
    runs under [RegistryState::mu] is one function on [RegistryState]; what a
    thread does between two such stretches (destroying evicted sessions,
    loading a model) is its program counter [Pc], and [exec] performs one
    stretch of one thread, so that a list of [Label]s is an interleaving.
    Sessions are addresses on a [heap] that maps the live ones to the bytes
    charged for them; ModelsTheory proves what holds of every interleaving. *)
From stdpp Require Import base gmap strings list sorting pretty.
From Stdlib Require Import Lia ZArith.
From S2P Require Import Prelude Arena Text Decimal Json Session.

Local Open Scope Z_scope.
Local Open Scope agent_scope.

(** ** Memory estimate *)

Definition kMiB : Z := 1024 * 1024.

Record EngineFactor := mkEngineFactor { factor_kind : string; num : Z; den : Z; overhead : Z }.

Definition mock_factor : EngineFactor := mkEngineFactor "mock" 1 1 0.
Definition unknown_factor : EngineFactor := mkEngineFactor "" 5 4 (64 * kMiB).

(** The last entry, for unknown engines, is [unknown_factor]. *)
Definition kFactors : list EngineFactor :=
  [mock_factor; mkEngineFactor "llama" 1 1 (64 * kMiB); mkEngineFactor "onnx" 3 2 (32 * kMiB);
   mkEngineFactor "sdcpp" 6 5 (256 * kMiB); mkEngineFactor "trellis" 6 5 (512 * kMiB);
   mkEngineFactor "sherpa" 3 2 (32 * kMiB); unknown_factor].

(** [std::tolower] in the C locale. *)
Definition tolower (c : Ascii.ascii) : Ascii.ascii :=
  let b := byte_of c in if ((65 <=? b) && (b <=? 90))%N then Ascii.ascii_of_N (b + 32) else c.

Definition lower (s : string) : string := of_bytes (tolower <$> bytes s).

(** [s.rfind(pat, i)]: the last position at most [i] where [pat] occurs. *)
Fixpoint rfind (pat s : string) (i : nat) : option nat :=
  if str_eqb (String.substring i (String.length pat) s) pat then Some i
  else match i with O => None | S j => rfind pat s j end.

(** The split of a path at its last slash; the directory keeps the slash, so
    that [parent_path() / x] names the same file as [directory_part ++ x]. *)
Definition split_path (p : string) : string * string :=
  match rfind "/" p (String.length p) with
  | Some i => (String.substring 0 (S i) p, String.substring (S i) (String.length p) p)
  | None => ("", p)
  end.

Definition filename (p : string) : string := (split_path p).2.
Definition directory_part (p : string) : string := (split_path p).1.

Definition contains (pat s : string) : bool :=
  match String.index 0 pat s with Some _ => true | None => false end.

(** [std::filesystem] at one moment; [tree_files] are the regular files a
    [recursive_directory_iterator] visits. *)
Record FileSystem := mkFileSystem {
  is_directory : string → bool;
  is_regular_file : string → bool;
  file_size_or_zero : string → Z;
  tree_files : string → list string
}.

(** The double stored under a top-level "gpu_layers" of an options text whose
    value is not an integer, clamped and truncated; -1 when it is no number. *)
Class FloatOption := gpu_layers_float : string → Z.

Section Estimate.
Context {W : Type} `{JsonParser} `{FloatOption}.
Implicit Types (cfg : Config W) (fs : FileSystem).

Record ModelSpec := mkModelSpec {
  spec_name : string;
  spec_config : Config W;
  estimated_bytes : Z;
  pinned : bool;
  on_load : option (Session W → W → W * Session W * Result unit)
}.

Record ModelMemoryEstimate := mkEstimate { file_bytes : Z; ram_bytes : Z; vram_bytes : Z }.

Definition is_mock (p : AiProvider) : bool := match p with Mock => true | Engine => false end.

Definition factor_for cfg : EngineFactor :=
  if is_mock (provider cfg) then mock_factor
  else
    let name := lower (filename (engine cfg)) in
    match list_find (λ f, negb (is_empty (factor_kind f)) && contains (factor_kind f) name = true) kFactors with
    | Some (_, f) => f
    | None => unknown_factor
    end.

Definition directory_bytes fs (dir : string) : Z :=
  foldl (λ total f, u64 (total + file_size_or_zero fs f)) 0 (tree_files fs dir).

(** The shard count; a digit after a value above 100000 is refused. *)
Fixpoint shard_total (cnt : list Ascii.ascii) (total : Z) : option Z :=
  match cnt with
  | [] => Some total
  | c :: rest =>
      match digit_value c with
      | Some d => if 100000 <? total then None else shard_total rest (total * 10 + d)
      | None => None
      end
  end.

(** Whether the index is "0...01". *)
Fixpoint first_index (idx : list Ascii.ascii) : bool :=
  match idx with
  | [] => false
  | [c] => bool_decide (c = chr 49)
  | c :: rest => bool_decide (c = chr 48) && first_index rest
  end.

Definition pad_zeros (n : string) (width : nat) : string :=
  of_bytes (replicate (width - String.length n) (chr 48)) +:+ n.

Definition other_shard_bytes fs (first : string) : Z :=
  let name := filename first in
  match rfind "-of-" name (String.length name) with
  | None => 0
  | Some sep =>
      if Nat.ltb sep 6 then 0
      else match rfind "-" name (sep - 1) with
      | None => 0
      | Some dash =>
          let idx := String.substring (S dash) (sep - dash - 1) name in
          let cnt := match String.index sep "." name with
                     | None => String.substring (sep + 4) (String.length name) name
                     | Some dot => String.substring (sep + 4) (dot - sep - 4) name
                     end in
          if negb (Nat.eqb (String.length idx) (String.length cnt)) || negb (first_index (bytes idx)) then 0
          else match shard_total (bytes cnt) 0 with
          | None => 0
          | Some total =>
              foldl (λ acc i,
                let n := pad_zeros (to_string (Z.of_nat i)) (String.length idx) in
                u64 (acc + file_size_or_zero fs
                             (directory_part first +:+ String.substring 0 (S dash) name +:+ n +:+
                              String.substring sep (String.length name) name)))
                0 (seq 2 (Z.to_nat total - 1))
          end
      end
  end.

(** Every string in the options that names a regular file. *)
Fixpoint scan_options fs (model : string) (el : json) (files : gset string) : gset string :=
  match el with
  | JObj l =>
      (fix fields (l : list (string * json)) files :=
         match l with [] => files | (_, v) :: rest => fields rest (scan_options fs model v files) end) l files
  | JArr l =>
      (fix items (l : list json) files :=
         match l with [] => files | v :: rest => items rest (scan_options fs model v files) end) l files
  | JStr s =>
      if is_empty s || Nat.ltb 4096 (String.length s) || str_eqb s model then files
      else if is_regular_file fs s then {[s]} ∪ files else files
  | _ => files
  end.

(** An integer above the range of [int64_t] is read as a double. *)
Definition gpu_layers_option (options : string) (root : json) : Z :=
  match root with
  | JObj l =>
      match field "gpu_layers" l with
      | Some (JInt i) => Z.max (-1) (Z.min i 1048576)
      | Some (JOther _) => gpu_layers_float options
      | _ => -1
      end
  | _ => -1
  end.

(** The bytes of the model and of the files its options name. *)
Definition model_file_bytes fs (spec : ModelSpec) (extra : gset string) : Result Z :=
  let cfg := spec_config spec in
  let m := config_model cfg in
  own <-? (if is_empty m then Ok 0
           else if is_directory fs m then Ok (directory_bytes fs m)
           else if is_regular_file fs m then Ok (u64 (file_size_or_zero fs m + other_shard_bytes fs m))
           else if negb (is_mock (provider cfg)) then
             fail FilesystemError ("model '" +:+ spec_name spec +:+ "': no such file: " +:+ m +:+
                                   " (set ModelSpec::estimated_bytes to skip the estimate)")
           else Ok 0) ;;
  Ok (foldl (λ total p, u64 (total + file_size_or_zero fs p)) own (set_items extra)).

(** Bytes on disk to bytes in memory. *)
Definition scaled_bytes cfg (files : Z) : Z :=
  let f := factor_for cfg in
  let total := u64 (u64 (files / den f * num f) + u64 (files `mod` den f * num f) / den f) in
  let total :=
    if str_eqb (factor_kind f) "llama" then
      u64 (total + u64 (u64 (Z.max 1 (context_window cfg) * Z.max 1 (max_parallel_subagents cfg)) *
                        Z.max (files / 32768) 64))
    else total in
  u64 (total + overhead f).

Definition estimate_model_memory fs (spec : ModelSpec) : Result ModelMemoryEstimate :=
  let cfg := spec_config spec in
  let options := engine_options cfg in
  opts <-?
    (if is_empty options then Ok (-1, ∅)
     else match parse_json options with
     | None => fail InvalidConfig ("model '" +:+ spec_name spec +:+ "': engine_options is not valid JSON")
     | Some root =>
         Ok (gpu_layers_option options root,
             if estimated_bytes spec =? 0 then scan_options fs (config_model cfg) root ∅ else ∅)
     end) ;;
  size <-?
    (if estimated_bytes spec =? 0 then
       files <-? model_file_bytes fs spec opts.2 ;; Ok (files, scaled_bytes cfg files)
     else Ok (0, estimated_bytes spec)) ;;
  Ok (if 0 <? opts.1 then mkEstimate size.1 (Z.min size.2 (overhead (factor_for cfg))) size.2
      else mkEstimate size.1 size.2 0).

End Estimate.

Arguments ModelSpec W : clear implicits.

(** A split GGUF: the other shards of "m-00001-of-00003.gguf" are counted. *)
Example shards :
  other_shard_bytes (mkFileSystem (λ _, false) (λ _, true)
    (λ p, if str_eqb p "/d/m-00002-of-00003.gguf" then 7 else if str_eqb p "/d/m-00003-of-00003.gguf" then 5 else 1)
    (λ _, [])) "/d/m-00001-of-00003.gguf" = 12.
Proof. vm_compute. reflexivity. Qed.

(** ** Registry state *)

Record ModelBudget := mkBudget {
  budget_ram : Z;
  budget_vram : Z;
  allow_overcommit : bool;
  wait_ms : Z
}.

Inductive EntryStatus := Unloaded | Loading | Loaded.

#[global] Instance EntryStatus_eq_dec : EqDecision EntryStatus.
Proof. solve_decision. Defined.

Section State.
Context {W : Type}.

Record Entry := mkEntry {
  e_spec : ModelSpec W;
  e_status : EntryStatus;
  e_session : option nat; (* address of the Session; None is nullptr *)
  e_turn_mutex : option nat;
  e_ram : Z;
  e_vram : Z;
  e_leases : Z;
  e_use_tick : Z;
  e_loaded_at_ms : Z;
  e_last_used_ms : Z;
  e_load_time_ms : Z
}.

Definition new_entry (spec : ModelSpec W) : Entry := mkEntry spec Unloaded None None 0 0 0 0 0 0 0.

Record RegistryState := mkRegistry {
  budget : ModelBudget;
  entries : gmap string Entry;
  ram_used : Z;
  vram_used : Z;
  ram_releasing : Z;
  vram_releasing : Z;
  tick : Z
}.

Definition ModelRegistry_new (b : ModelBudget) : RegistryState := mkRegistry b ∅ 0 0 0 0 0.

Record Doomed := mkDoomed { d_session : option nat; d_ram : Z; d_vram : Z }.

(** [lease_entry] is the entry the lease's [hold] counts on. *)
Record ModelLease := mkLease {
  lease_session : option nat;
  lease_name : string;
  lease_turn_mutex : option nat;
  lease_entry : string
}.

Implicit Types (st : RegistryState) (e : Entry) (n : string).

Definition set_entry st n e : RegistryState :=
  mkRegistry (budget st) (<[n := e]> (entries st)) (ram_used st) (vram_used st) (ram_releasing st) (vram_releasing st)
    (tick st).
Definition set_tick st t : RegistryState :=
  mkRegistry (budget st) (entries st) (ram_used st) (vram_used st) (ram_releasing st) (vram_releasing st) t.
Definition set_the_budget st b : RegistryState :=
  mkRegistry b (entries st) (ram_used st) (vram_used st) (ram_releasing st) (vram_releasing st) (tick st).
Definition set_used st ram vram : RegistryState :=
  mkRegistry (budget st) (entries st) ram vram (ram_releasing st) (vram_releasing st) (tick st).
Definition set_releasing st ram vram : RegistryState :=
  mkRegistry (budget st) (entries st) (ram_used st) (vram_used st) ram vram (tick st).
Definition set_leases e k : Entry :=
  mkEntry (e_spec e) (e_status e) (e_session e) (e_turn_mutex e) (e_ram e) (e_vram e) k (e_use_tick e)
    (e_loaded_at_ms e) (e_last_used_ms e) (e_load_time_ms e).
Definition set_spec e spec : Entry :=
  mkEntry spec (e_status e) (e_session e) (e_turn_mutex e) (e_ram e) (e_vram e) (e_leases e) (e_use_tick e)
    (e_loaded_at_ms e) (e_last_used_ms e) (e_load_time_ms e).
Definition set_used_at e t now : Entry :=
  mkEntry (e_spec e) (e_status e) (e_session e) (e_turn_mutex e) (e_ram e) (e_vram e) (e_leases e) t
    (e_loaded_at_ms e) now (e_load_time_ms e).

(** The model is out: no session, nothing charged. *)
Definition unloaded e : Entry :=
  mkEntry (e_spec e) Unloaded None None 0 0 (e_leases e) (e_use_tick e) (e_loaded_at_ms e) (e_last_used_ms e)
    (e_load_time_ms e).

(** ** Operations under the lock *)

(** [touch], followed by the write of the entry: [now] is [wall_ms()]. *)
Definition touch st n e (now : Z) : RegistryState :=
  let t := u64 (tick st + 1) in set_entry (set_tick st t) n (set_used_at e t now).

Definition take_out st n : RegistryState * list Doomed :=
  match entries st !! n with
  | None => (st, [])
  | Some e =>
      (set_entry (set_releasing st (u64 (ram_releasing st + e_ram e)) (u64 (vram_releasing st + e_vram e))) n
         (unloaded e),
       [mkDoomed (e_session e) (e_ram e) (e_vram e)])
  end.

Fixpoint take_all st (names : list string) : RegistryState * list Doomed :=
  match names with
  | [] => (st, [])
  | n :: rest =>
      let '(st1, d) := take_out st n in
      let '(st2, ds) := take_all st1 rest in
      (st2, d ++ ds)
  end.

Definition doomed_ram (doomed : list Doomed) : Z := foldl (λ s d, u64 (s + d_ram d)) 0 doomed.
Definition doomed_vram (doomed : list Doomed) : Z := foldl (λ s d, u64 (s + d_vram d)) 0 doomed.

(** The second half of [destroy], after the sessions are gone. *)
Definition uncharge st (doomed : list Doomed) : RegistryState :=
  let ram := doomed_ram doomed in
  let vram := doomed_vram doomed in
  set_releasing (set_used st (u64 (ram_used st - ram)) (u64 (vram_used st - vram)))
    (u64 (ram_releasing st - ram)) (u64 (vram_releasing st - vram)).

Definition fits (limit used need : Z) : bool := (limit =? 0) || (u64 (used + need) <=? limit).

Definition is_evictable (except : option string) (item : string * Entry) : bool :=
  negb (bool_decide (Some item.1 = except)) && bool_decide (e_status item.2 = Loaded) &&
  (e_leases item.2 =? 0) && negb (pinned (e_spec item.2)).

Definition tick_le (a b : string * Entry) : Prop := e_use_tick a.2 ≤ e_use_tick b.2.

#[global] Instance tick_le_dec a b : Decision (tick_le a b).
Proof. unfold tick_le. apply _. Defined.

Definition evictable st (except : option string) : list (string * Entry) :=
  merge_sort tick_le (filter (λ item, is_evictable except item = true) (map_items (entries st))).

(** The loop of [plan]: the answer and [count]. *)
Fixpoint plan_loop (b : ModelBudget) (ram vram : Z) (candidates : list (string * Entry)) (need_ram need_vram : Z)
    (count : nat) : bool * nat :=
  if fits (budget_ram b) ram need_ram && fits (budget_vram b) vram need_vram then (true, count)
  else match candidates with
  | [] => (false, count)
  | c :: rest => plan_loop b (u64 (ram - e_ram c.2)) (u64 (vram - e_vram c.2)) rest need_ram need_vram (S count)
  end.

Definition plan st candidates need_ram need_vram : bool * nat :=
  plan_loop (budget st) (ram_used st) (vram_used st) candidates need_ram need_vram 0.

(** [static_cast<double>] of an unsigned integer, and "%.1f": both round to
    nearest, ties to even. *)
Definition round_half_even (a b : Z) : Z :=
  let q := a / b in
  let r := 2 * (a `mod` b) in
  if r <? b then q else if b <? r then q + 1 else if Z.even q then q else q + 1.

Definition as_double (z : Z) : Z :=
  if z <? 2 ^ 53 then z else let ulp := 2 ^ (Z.log2 z - 52) in round_half_even z ulp * ulp.

Definition mib (z : Z) : string :=
  let tenths := round_half_even (as_double z * 10) kMiB in
  to_string (tenths / 10) +:+ "." +:+ to_string (tenths `mod` 10) +:+ " MiB".

Definition held_text (items : list (string * Entry)) (name : string) : string :=
  foldl (λ held item,
    let '(n, other) := item in
    if bool_decide (e_status other = Unloaded) || str_eqb n name then held
    else
      held +:+ (if is_empty held then " (" else ", ") +:+ n +:+ " " +:+ mib (u64 (e_ram other + e_vram other)) +:+
      (if bool_decide (e_status other = Loading) then " loading"
       else if negb (e_leases other =? 0) then " in use"
       else if pinned (e_spec other) then " pinned" else ""))
    "" items.

Definition out_of_memory_message st n e (est : ModelMemoryEstimate) : string :=
  let held := held_text (map_items (entries st)) n in
  "model '" +:+ spec_name (e_spec e) +:+ "' needs " +:+ mib (ram_bytes est) +:+ " RAM" +:+
  (if vram_bytes est =? 0 then "" else " + " +:+ mib (vram_bytes est) +:+ " VRAM") +:+
  "; budget " +:+ (if budget_ram (budget st) =? 0 then "unlimited" else mib (budget_ram (budget st))) +:+ " RAM" +:+
  (if budget_vram (budget st) =? 0 then "" else " / " +:+ mib (budget_vram (budget st)) +:+ " VRAM") +:+
  ", and the loaded models that cannot be evicted use " +:+ mib (ram_used st) +:+
  (if is_empty held then "" else held +:+ ")") +:+
  ". Release a lease, unload a model, raise the budget or set allow_overcommit.".

Definition make_lease n e : ModelLease := mkLease (e_session e) (spec_name (e_spec e)) (e_turn_mutex e) n.

End State.

Arguments Entry W : clear implicits.
Arguments RegistryState W : clear implicits.

Example mib_text : mib 1572864 = "1.5 MiB" ∧ mib 104858 = "0.1 MiB" ∧ mib (2 ^ 64 - 1) = "17592186044416.0 MiB".
Proof. vm_compute. repeat split. Qed.

Section Operations.
Context {W : Type} `{JsonParser} `{FloatOption}.
Implicit Types (st : RegistryState W) (e : Entry W) (n : string) (spec : ModelSpec W).

(** ** acquire_model *)

(** One round of the loop: a lease, a wait on the condition variable, an
    error, or the decision to load after evicting [doomed]. *)
Inductive Attempt :=
| Lent (st : RegistryState W) (lease : ModelLease)
| Wait
| Refused (err : Error)
| Evict (st : RegistryState W) (doomed : list Doomed) (est : ModelMemoryEstimate).

Definition not_registered n : Error := make_error KeyNotFound ("no model named '" +:+ n +:+ "' is registered").

(** The entry is reserved before the lock is dropped. *)
Definition reserve st n e (est : ModelMemoryEstimate) : RegistryState W :=
  set_used
    (set_entry st n
       (mkEntry (e_spec e) Loading (e_session e) (e_turn_mutex e) (ram_bytes est) (vram_bytes est) (e_leases e)
          (e_use_tick e) (e_loaded_at_ms e) (e_last_used_ms e) (e_load_time_ms e)))
    (u64 (ram_used st + ram_bytes est)) (u64 (vram_used st + vram_bytes est)).

Definition evict_and_reserve st n e est (candidates : list (string * Entry W)) (count : nat) : Attempt :=
  let '(st1, doomed) := take_all st (take count candidates).*1 in Evict (reserve st1 n e est) doomed est.

(** [now] is [wall_ms()]; [can_wait] is [steady_clock::now() < deadline]. *)
Definition acquire_attempt (fs : FileSystem) (now : Z) (can_wait : bool) n st : Attempt :=
  match entries st !! n with
  | None => Refused (not_registered n)
  | Some e =>
      match e_status e with
      | Loaded => let e := set_leases e (e_leases e + 1) in Lent (touch st n e now) (make_lease n e)
      | Loading => Wait
      | Unloaded =>
          match estimate_model_memory fs (e_spec e) with
          | Fail err => Refused err
          | Ok est =>
              let candidates := evictable st (Some n) in
              let '(ok_plan, count) := plan st candidates (ram_bytes est) (vram_bytes est) in
              if ok_plan then evict_and_reserve st n e est candidates count
              else if (0 <? ram_releasing st) || (0 <? vram_releasing st) then Wait
              else if negb (allow_overcommit (budget st)) && can_wait then Wait
              else if negb (allow_overcommit (budget st)) then
                Refused (make_error OutOfMemory ("acquire_model: " +:+ out_of_memory_message st n e est))
              else evict_and_reserve st n e est candidates (length candidates)
          end
      end
  end.

(** The load itself, without the lock.  [init] creates a session. *)
Definition load_session (init : Config W → W → W * Result (Session W)) spec (w : W) : W * Result (Session W) :=
  match init (spec_config spec) w with
  | (w, Fail err) => (w, fail (code err) ("model '" +:+ spec_name spec +:+ "': " +:+ message err))
  | (w, Ok s) =>
      match on_load spec with
      | None => (w, Ok s)
      | Some f =>
          match f s w with
          | (w, s, Ok _) => (w, Ok s)
          | (w, _, Fail err) => (w, fail (code err) ("model '" +:+ spec_name spec +:+ "': on_load: " +:+ message err))
          end
      end
  end.

(** Back under the lock with a session at [addr], or without one. *)
Definition finish_load st n (addr mutex : nat) (now load_ms : Z) : option (RegistryState W * ModelLease) :=
  match entries st !! n with
  | None => None
  | Some e =>
      let e := mkEntry (e_spec e) Loaded (Some addr) (Some mutex) (e_ram e) (e_vram e) 1 (e_use_tick e) now
                 (e_last_used_ms e) load_ms in
      Some (touch st n e now, make_lease n e)
  end.

Definition fail_load st n : RegistryState W :=
  match entries st !! n with
  | None => st
  | Some e =>
      set_entry (set_used st (u64 (ram_used st - e_ram e)) (u64 (vram_used st - e_vram e))) n
        (mkEntry (e_spec e) Unloaded (e_session e) (e_turn_mutex e) 0 0 (e_leases e) (e_use_tick e)
           (e_loaded_at_ms e) (e_last_used_ms e) (e_load_time_ms e))
  end.

(** The deleter of [ModelLease::hold], run by the last copy of a lease. *)
Definition release_hold st (lease : ModelLease) (now : Z) : RegistryState W :=
  match entries st !! lease_entry lease with
  | None => st
  | Some e => touch st (lease_entry lease) (set_leases e (e_leases e - 1)) now
  end.

(** ** unload_model, register_model, set_budget *)

(** [unload_locked] up to the destruction of the session. *)
Inductive Unload :=
| UnloadWait
| UnloadDone
| UnloadError (err : Error)
| UnloadTake (st : RegistryState W) (doomed : list Doomed).

Definition unload_locked st n e : Unload :=
  match e_status e with
  | Loading => UnloadWait
  | Unloaded => UnloadDone
  | Loaded =>
      if 0 <? e_leases e then
        UnloadError (make_error InvalidConfig ("model '" +:+ spec_name (e_spec e) +:+ "' is in use (" +:+
                                               to_string (e_leases e) +:+ " lease(s))"))
      else let '(st, doomed) := take_out st n in UnloadTake st doomed
  end.

(** What follows [unload_locked] in [register_model]. *)
Definition register_finish st spec : RegistryState W * Result unit :=
  match entries st !! spec_name spec with
  | None => (st, Ok tt)
  | Some e =>
      if bool_decide (e_status e = Unloaded) then (set_entry st (spec_name spec) (set_spec e spec), Ok tt)
      else (st, fail InvalidConfig ("register_model: model '" +:+ spec_name (e_spec e) +:+ "' is in use"))
  end.

(** [set_budget] up to the destruction of the evicted sessions. *)
Definition set_budget st (b : ModelBudget) : RegistryState W * list Doomed :=
  let st := set_the_budget st b in
  let candidates := evictable st None in
  let '(ok_plan, count) := plan st candidates 0 0 in
  take_all st (take (if ok_plan : bool then count else length candidates) candidates).*1.

Definition get_budget st : ModelBudget := budget st.

Definition has_model st n : bool := match entries st !! n with Some _ => true | None => false end.

Record LoadedModelInfo := mkInfo {
  info_name : string;
  info_ram : Z;
  info_vram : Z;
  info_pinned : bool;
  info_leases : Z;
  info_loaded_at_ms : Z;
  info_last_used_ms : Z;
  info_load_time_ms : Z
}.

Definition info_of (item : string * Entry W) : LoadedModelInfo :=
  let '(n, e) := item in
  mkInfo n (e_ram e) (e_vram e) (pinned (e_spec e)) (e_leases e) (e_loaded_at_ms e) (e_last_used_ms e) (e_load_time_ms e).

(** Most recently used first. *)
Definition loaded_models st : list LoadedModelInfo :=
  info_of <$> merge_sort (flip tick_le) (filter (λ item, e_status item.2 ≠ Unloaded) (map_items (entries st))).

(** ** Interleavings *)

(** What a thread does once its evicted sessions are destroyed. *)
Inductive Cont :=
| ThenLoad (n : string) (est : ModelMemoryEstimate)
| ThenRegister (spec : ModelSpec W)
| ThenReturn.

(** A thread inside a call.  [PDestroy rest all k]: [rest] of the sessions
    [all] are still to be destroyed. *)
Inductive Pc :=
| PAcquire (n : string)
| PRegister (spec : ModelSpec W)
| PUnload (n : string)
| PSetBudget (b : ModelBudget)
| PDestroy (rest all : list Doomed) (k : Cont)
| PLoad (n : string) (spec : ModelSpec W) (est : ModelMemoryEstimate)
| PDone (r : Result unit).

(** [lent] are the leases handed out and not dropped; [heap] the live
    sessions with the bytes charged for them. *)
Record Sys := mkSys {
  reg : RegistryState W;
  heap : gmap nat (Z * Z);
  threads : list Pc;
  lent : list ModelLease;
  world : W
}.

Definition start (b : ModelBudget) (w : W) : Sys := mkSys (ModelRegistry_new b) ∅ [] [] w.

(** A caller's operation. *)
Inductive Op :=
| OpAcquire (n : string)
| OpRegister (spec : ModelSpec W)
| OpUnload (n : string)
| OpSetBudget (b : ModelBudget).

Definition enter (op : Op) : Pc :=
  match op with
  | OpAcquire n => PAcquire n
  | OpRegister spec => PRegister spec
  | OpUnload n => PUnload n
  | OpSetBudget b => PSetBudget b
  end.

(** What one stretch of a thread reads of its surroundings: the files, the
    clocks, and the addresses the allocator gives a new session and mutex. *)
Record Env := mkEnv {
  env_fs : FileSystem;
  env_now : Z;
  env_can_wait : bool;
  env_load_ms : Z;
  env_session : nat;
  env_mutex : nat
}.

Inductive Label :=
| Call (op : Op)
| Run (i : nat) (env : Env)
| Release (j : nat) (now : Z).

(** The continuation, with the lock held. *)
Definition continue st (k : Cont) : RegistryState W * Pc :=
  match k with
  | ThenLoad n est =>
      match entries st !! n with
      | Some e => (st, PLoad n (e_spec e) est)
      | None => (st, PDone (Ok tt))
      end
  | ThenRegister spec => let '(st, r) := register_finish st spec in (st, PDone r)
  | ThenReturn => (st, PDone (Ok tt))
  end.

(** [destroy] returns at once when there is nothing to destroy. *)
Definition destroy st (doomed : list Doomed) (k : Cont) : RegistryState W * Pc :=
  match doomed with [] => continue st k | _ => (st, PDestroy doomed doomed k) end.

Definition error_prefix (prefix : string) (err : Error) : Error := make_error (code err) (prefix +:+ message err).

Definition register_attempt st spec : option (RegistryState W * Pc) :=
  if is_empty (spec_name spec) then
    Some (st, PDone (fail InvalidConfig "register_model: the model name is empty"))
  else match entries st !! spec_name spec with
  | None => Some (set_entry st (spec_name spec) (new_entry spec), PDone (Ok tt))
  | Some e =>
      match unload_locked st (spec_name spec) e with
      | UnloadWait => None
      | UnloadDone => Some (continue st (ThenRegister spec))
      | UnloadError err => Some (st, PDone (Fail (error_prefix "register_model: " err)))
      | UnloadTake st doomed => Some (destroy st doomed (ThenRegister spec))
      end
  end.

Definition unload_attempt st n : option (RegistryState W * Pc) :=
  match entries st !! n with
  | None => Some (st, PDone (Fail (not_registered n)))
  | Some e =>
      match unload_locked st n e with
      | UnloadWait => None
      | UnloadDone => Some (st, PDone (Ok tt))
      | UnloadError err => Some (st, PDone (Fail (error_prefix "unload_model: " err)))
      | UnloadTake st doomed => Some (destroy st doomed ThenReturn)
      end
  end.

Context (init : Config W → W → W * Result (Session W)).

Definition free (heap : gmap nat (Z * Z)) (session : option nat) : gmap nat (Z * Z) :=
  match session with Some a => delete a heap | None => heap end.

(** The next stretch of a thread; [None] when it is blocked. *)
Definition run_pc (pc : Pc) (env : Env) (s : Sys) : option (Sys * Pc) :=
  let st := reg s in
  let keep r := '(st, pc) ← r; Some (mkSys st (heap s) (threads s) (lent s) (world s), pc) in
  match pc with
  | PAcquire n =>
      match acquire_attempt (env_fs env) (env_now env) (env_can_wait env) n st with
      | Lent st lease => Some (mkSys st (heap s) (threads s) (lent s ++ [lease]) (world s), PDone (Ok tt))
      | Wait => None
      | Refused err => keep (Some (st, PDone (Fail err)))
      | Evict st doomed est => keep (Some (destroy st doomed (ThenLoad n est)))
      end
  | PRegister spec => keep (register_attempt st spec)
  | PUnload n => keep (unload_attempt st n)
  | PSetBudget b => let '(st, doomed) := set_budget st b in keep (Some (destroy st doomed ThenReturn))
  | PDestroy (d :: rest) all k =>
      Some (mkSys st (free (heap s) (d_session d)) (threads s) (lent s) (world s), PDestroy rest all k)
  | PDestroy [] all k => keep (Some (continue (uncharge st all) k))
  | PLoad n spec est =>
      match load_session init spec (world s) with
      | (w, Fail err) => Some (mkSys (fail_load st n) (heap s) (threads s) (lent s) w, PDone (Fail err))
      | (w, Ok _) =>
          match heap s !! env_session env with
          | Some _ => None
          | None =>
              '(st, lease) ← finish_load st n (env_session env) (env_mutex env) (env_now env) (env_load_ms env);
              Some (mkSys st (<[env_session env := (ram_bytes est, vram_bytes est)]> (heap s)) (threads s)
                      (lent s ++ [lease]) w, PDone (Ok tt))
          end
      end
  | PDone _ => None
  end.

Definition exec (l : Label) (s : Sys) : option Sys :=
  match l with
  | Call op => Some (mkSys (reg s) (heap s) (threads s ++ [enter op]) (lent s) (world s))
  | Run i env =>
      pc ← threads s !! i;
      '(s, pc) ← run_pc pc env s;
      Some (mkSys (reg s) (heap s) (<[i := pc]> (threads s)) (lent s) (world s))
  | Release j now =>
      lease ← lent s !! j;
      Some (mkSys (release_hold (reg s) lease now) (heap s) (threads s) (delete j (lent s)) (world s))
  end.

Fixpoint execs (ls : list Label) (s : Sys) : option Sys :=
  match ls with [] => Some s | l :: rest => s ← exec l s; execs rest s end.

End Operations.

Arguments Pc W : clear implicits.
Arguments Cont W : clear implicits.
Arguments Op W : clear implicits.
Arguments Label W : clear implicits.
Arguments Sys W : clear implicits.
