(* ===== verification/ModelsTheory.v ===== *)
(** * Theorems on the model registry

    Invariants of every interleaving of registry calls (src/core/models/
    model_registry.cpp).  The structure: every live session belongs to exactly
    one loaded entry or one eviction in progress, every loading entry to
    exactly one thread, every lease to a loaded entry.  The accounts: the bytes
    in use are those of the entries and of the evictions in progress.  From
    these follow that a leased session is never destroyed and that the bytes
    that really are resident stay within the budget, although eviction and
    loading happen without the lock. *)
From stdpp Require Import base gmap strings list sorting.
From Stdlib Require Import Lia ZArith.
From S2P Require Import Prelude Arena Text Decimal Json Session Models.

Local Open Scope Z_scope.

(** ** Sums and collections *)

Definition zsum (l : list Z) : Z := foldr Z.add 0 l.

#[global] Instance zsum_perm : Proper ((≡ₚ) ==> (=)) zsum.
Proof. intros l1 l2. induction 1; simpl; lia. Qed.

Lemma zsum_app l1 l2 : zsum (l1 ++ l2) = zsum l1 + zsum l2.
Proof. induction l1; simpl; lia. Qed.

Lemma zsum_nonneg l : Forall (Z.le 0) l → 0 ≤ zsum l.
Proof. induction 1; simpl; lia. Qed.

Lemma zsum_bind_add {A} (f g h : A → list Z) l :
  (∀ x, x ∈ l → zsum (f x) + zsum (g x) = zsum (h x)) → zsum (l ≫= f) + zsum (l ≫= g) = zsum (l ≫= h).
Proof.
  induction l as [|x l IH]; intros Hx; [done|]. rewrite !bind_cons, !zsum_app, <-(Hx x) by set_solver.
  rewrite <-IH; [lia|set_solver].
Qed.

Lemma zsum_bind_le {A} (f g : A → list Z) l :
  (∀ x, x ∈ l → zsum (f x) ≤ zsum (g x)) → zsum (l ≫= f) ≤ zsum (l ≫= g).
Proof.
  induction l as [|x l IH]; intros Hx; [done|]. rewrite !bind_cons, !zsum_app.
  assert (zsum (f x) ≤ zsum (g x)) by (apply Hx; set_solver).
  assert (zsum (l ≫= f) ≤ zsum (l ≫= g)) by (apply IH; set_solver). lia.
Qed.

Lemma filter_none {A} (P : A → Prop) `{!∀ x, Decision (P x)} (l : list A) : (∀ x, x ∈ l → ¬ P x) → filter P l = [].
Proof.
  induction l as [|x l IH]; intros Hl; [done|]. rewrite filter_cons_False by (apply Hl; set_solver).
  apply IH. set_solver.
Qed.

Lemma filter_every {A} (P : A → Prop) `{!∀ x, Decision (P x)} (l : list A) : (∀ x, x ∈ l → P x) → filter P l = l.
Proof.
  induction l as [|x l IH]; intros Hl; [done|]. rewrite filter_cons_True by (apply Hl; set_solver).
  f_equal. apply IH. set_solver.
Qed.

(** What the items of a map contribute. *)
Definition collect {A B} (f : string * A → list B) (m : gmap string A) : list B := map_to_list m ≫= f.

Section Collect.
Context {A B : Type} (f : string * A → list B).
Implicit Types (m : gmap string A) (x : A).

Lemma collect_insert m k x : collect f (<[k := x]> m) ≡ₚ f (k, x) ++ collect f (delete k m).
Proof.
  unfold collect. rewrite <-insert_delete_eq. rewrite map_to_list_insert by apply lookup_delete_eq.
  by rewrite bind_cons.
Qed.

Lemma collect_split m k x : m !! k = Some x → collect f m ≡ₚ f (k, x) ++ collect f (delete k m).
Proof. intros Hk. rewrite <-collect_insert. by rewrite insert_id. Qed.

Lemma collect_new m k x : m !! k = None → collect f (<[k := x]> m) ≡ₚ f (k, x) ++ collect f m.
Proof. intros Hk. rewrite collect_insert. by rewrite delete_id. Qed.

Lemma collect_same m k x y : m !! k = Some x → f (k, y) ≡ₚ f (k, x) → collect f (<[k := y]> m) ≡ₚ collect f m.
Proof. intros Hk Hf. rewrite collect_insert, (collect_split m k x Hk). by rewrite Hf. Qed.

Lemma elem_of_collect m b : b ∈ collect f m ↔ ∃ k x, m !! k = Some x ∧ b ∈ f (k, x).
Proof.
  unfold collect. rewrite list_elem_of_bind. split.
  - intros ([k x] & ? & ?%elem_of_map_to_list). eauto.
  - intros (k & x & ? & ?). exists (k, x). by rewrite elem_of_map_to_list.
Qed.

End Collect.

(** ** Who owns what *)

Section Structure.
Context {W : Type} `{JsonParser} `{FloatOption}.
Implicit Types (st : RegistryState W) (e : Entry W) (pc : Pc W).

Definition own_entry (item : string * Entry W) : list (nat * (Z * Z)) :=
  match e_session item.2 with Some a => [(a, (e_ram item.2, e_vram item.2))] | None => [] end.
Definition own_doomed (d : Doomed) : list (nat * (Z * Z)) :=
  match d_session d with Some a => [(a, (d_ram d, d_vram d))] | None => [] end.
Definition own_pc pc : list (nat * (Z * Z)) :=
  match pc with PDestroy rest _ _ => rest ≫= own_doomed | _ => [] end.

Definition loading_entry (item : string * Entry W) : list (string * (Z * Z)) :=
  if bool_decide (e_status item.2 = Loading) then [(item.1, (e_ram item.2, e_vram item.2))] else [].
Definition loading_pc pc : list (string * (Z * Z)) :=
  match pc with
  | PDestroy _ _ (ThenLoad n est) | PLoad n _ est => [(n, (ram_bytes est, vram_bytes est))]
  | _ => []
  end.

Definition lent_entry (item : string * Entry W) : list ModelLease :=
  replicate (Z.to_nat (e_leases item.2)) (make_lease item.1 item.2).

Definition entry_ok (n : string) e : Prop :=
  spec_name (e_spec e) = n ∧
  match e_status e with
  | Unloaded => e_session e = None ∧ e_turn_mutex e = None ∧ e_ram e = 0 ∧ e_vram e = 0 ∧ e_leases e = 0
  | Loading => e_session e = None ∧ e_turn_mutex e = None ∧ e_leases e = 0
  | Loaded => is_Some (e_session e) ∧ is_Some (e_turn_mutex e) ∧ 0 ≤ e_leases e
  end.

(** The structure, seen from a thread at [pc]; [ts] are the other threads. *)
Record framed st (h : gmap nat (Z * Z)) (ls : list ModelLease) pc (ts : list (Pc W)) : Prop := {
  f_entries : map_Forall entry_ok (entries st);
  f_heap : collect own_entry (entries st) ++ own_pc pc ++ ts ≫= own_pc ≡ₚ map_to_list h;
  f_loading : collect loading_entry (entries st) ≡ₚ loading_pc pc ++ ts ≫= loading_pc;
  f_lent : collect lent_entry (entries st) ≡ₚ ls
}.

Record structured (s : Sys W) : Prop := {
  s_entries : map_Forall entry_ok (entries (reg s));
  s_heap : collect own_entry (entries (reg s)) ++ threads s ≫= own_pc ≡ₚ map_to_list (heap s);
  s_loading : collect loading_entry (entries (reg s)) ≡ₚ threads s ≫= loading_pc;
  s_lent : collect lent_entry (entries (reg s)) ≡ₚ lent s
}.

Lemma structured_framed s i pc :
  structured s → threads s !! i = Some pc → framed (reg s) (heap s) (lent s) pc (delete i (threads s)).
Proof.
  intros [? Hh Hl ?] Hi. split; [done| | |done].
  - by rewrite <-(bind_split own_pc _ _ _ Hi).
  - by rewrite Hl, <-(bind_split loading_pc _ _ _ Hi).
Qed.

Lemma framed_structured s i pc pc' :
  threads s !! i = Some pc → framed (reg s) (heap s) (lent s) pc' (delete i (threads s)) →
  structured (mkSys (reg s) (heap s) (<[i := pc']> (threads s)) (lent s) (world s)).
Proof.
  intros Hi [? Hh Hl ?]. split; cbn [reg heap threads lent]; [done| | |done].
  - by rewrite (bind_insert own_pc _ _ _ _ Hi).
  - by rewrite (bind_insert loading_pc _ _ _ _ Hi).
Qed.

(** ** Candidates for eviction *)

Lemma elem_of_evictable st ex n e :
  (n, e) ∈ evictable st ex ↔
  entries st !! n = Some e ∧ Some n ≠ ex ∧ e_status e = Loaded ∧ e_leases e = 0 ∧ pinned (e_spec e) = false.
Proof.
  unfold evictable. rewrite merge_sort_Permutation, list_elem_of_filter. unfold map_items.
  rewrite merge_sort_Permutation, elem_of_map_to_list. unfold is_evictable. cbn [fst snd].
  rewrite !andb_true_iff, !negb_true_iff, Z.eqb_eq, bool_decide_eq_true, bool_decide_eq_false. naive_solver.
Qed.

Lemma evictable_NoDup st ex : NoDup (evictable st ex).*1.
Proof.
  unfold evictable. rewrite merge_sort_Permutation.
  eapply sublist_NoDup; [|apply fmap_sublist, sublist_filter].
  unfold map_items. rewrite merge_sort_Permutation. apply NoDup_fst_map_to_list.
Qed.

(** ** Taking sessions out *)

Lemma entry_update (m : gmap string (Entry W)) n e' :
  map_Forall entry_ok m → entry_ok n e' → map_Forall entry_ok (<[n := e']> m).
Proof. intros ? ?. by apply map_Forall_insert_2. Qed.

(** Taking out idle loaded models moves their sessions from the entries to
    the doomed list. *)
Lemma take_all_frame (cs : list (string * Entry W)) st :
  map_Forall entry_ok (entries st) → NoDup cs.*1 →
  (∀ n e, (n, e) ∈ cs → entries st !! n = Some e ∧ e_status e = Loaded ∧ e_leases e = 0) →
  ∃ st', take_all st cs.*1 = (st', (λ c, mkDoomed (e_session c.2) (e_ram c.2) (e_vram c.2)) <$> cs) ∧
    map_Forall entry_ok (entries st') ∧
    collect own_entry (entries st) ≡ₚ (cs ≫= own_entry) ++ collect own_entry (entries st') ∧
    collect loading_entry (entries st') ≡ₚ collect loading_entry (entries st) ∧
    collect lent_entry (entries st') ≡ₚ collect lent_entry (entries st) ∧
    (∀ n, n ∉ cs.*1 → entries st' !! n = entries st !! n).
Proof.
  revert st. induction cs as [|[n e] cs IH]; intros st Hok Hnd Hcs; [by exists st|].
  apply NoDup_cons in Hnd as [Hn Hnd].
  destruct (Hcs n e ltac:(set_solver)) as (He & Hs & Hl).
  cbn [fmap list_fmap take_all fst snd]. unfold take_out. rewrite He. set (st1 := set_entry _ _ _).
  assert (Hen : entry_ok n (unloaded e)).
  { pose proof (Hok _ _ He) as (? & _). by split. }
  destruct (IH st1) as (st' & -> & Hok' & Ho & Hld & Hlt & Hrest).
  { by apply entry_update. } { done. }
  { intros n' e' Hin. destruct (Hcs n' e' ltac:(set_solver)) as (He' & ? & ?). split; [|done].
    cbn. rewrite lookup_insert_ne; [done|]. intros ->. apply Hn. by apply (list_elem_of_fmap_2 fst _ (n', e')). }
  exists st'. split; [done|]. split; [done|]. rewrite bind_cons.
  assert (Ho1 : collect own_entry (entries st) ≡ₚ own_entry (n, e) ++ collect own_entry (entries st1)).
  { cbn [entries st1 set_entry]. by rewrite (collect_split _ _ _ _ He), collect_insert. }
  rewrite Ho1, Ho, Hld, Hlt, app_assoc. split; [done|]. split; [|split].
  - apply (collect_same _ _ _ e); [done|]. unfold loading_entry. cbn. by rewrite Hs.
  - apply (collect_same _ _ _ e); [done|]. unfold lent_entry. cbn. by rewrite Hl.
  - intros n' Hn'. rewrite Hrest by set_solver. cbn. rewrite lookup_insert_ne; [done|set_solver].
Qed.

Lemma own_taken (cs : list (string * Entry W)) :
  ((λ c : string * Entry W, mkDoomed (e_session c.2) (e_ram c.2) (e_vram c.2)) <$> cs) ≫= own_doomed = cs ≫= own_entry.
Proof. induction cs as [|c cs IH]; [done|]. by rewrite fmap_cons, !bind_cons, IH. Qed.

(** ** Every stretch keeps the structure *)

Lemma framed_entries st st' h ls pc ts : entries st' = entries st → framed st h ls pc ts → framed st' h ls pc ts.
Proof. intros E []. split; by rewrite E. Qed.

Lemma framed_pc st h ls pc pc' ts :
  own_pc pc' = own_pc pc → loading_pc pc' = loading_pc pc → framed st h ls pc ts → framed st h ls pc' ts.
Proof. intros Eo El []. split; by rewrite ?Eo, ?El. Qed.

(** The entry a thread is loading. *)
Lemma framed_loading st h ls pc ts n c :
  framed st h ls pc ts → (n, c) ∈ loading_pc pc →
  ∃ e, entries st !! n = Some e ∧ e_status e = Loading ∧ c = (e_ram e, e_vram e).
Proof.
  intros [_ _ Hl _] Hc.
  assert (Hin : (n, c) ∈ collect loading_entry (entries st)) by (rewrite Hl; set_solver).
  apply elem_of_collect in Hin as (n' & e & He & Hin). unfold loading_entry in Hin. cbn in Hin.
  case_bool_decide; [|set_solver]. apply list_elem_of_singleton in Hin as [= -> ->]. eauto.
Qed.

Definition loading_cont (k : Cont W) : list (string * (Z * Z)) := loading_pc (PDestroy [] [] k).

Lemma continue_framed st h ls all k ts st' pc' :
  framed st h ls (PDestroy [] all k) ts → continue st k = (st', pc') → framed st' h ls pc' ts.
Proof.
  intros Hf. destruct k as [n est|spec|]; cbn [continue].
  - destruct (framed_loading _ _ _ _ _ n (ram_bytes est, vram_bytes est) Hf) as (e & -> & _); [set_solver|].
    intros [= <- <-]. by eapply framed_pc; [..|exact Hf].
  - unfold register_finish. destruct (entries st !! spec_name spec) as [e|] eqn:He;
      [case_bool_decide as Hs|]; intros [= <- <-]; try (by eapply framed_pc; [..|exact Hf]).
    destruct Hf as [Hok Hh Hl Hlt]. pose proof (Hok _ _ He) as (_ & Hu). rewrite Hs in Hu.
    destruct Hu as (Hses & ? & ? & ? & Hle). split; cbn [entries set_entry].
    + apply entry_update; [done|]. split; [done|]. cbn. by rewrite Hs.
    + by rewrite (collect_same _ _ _ e).
    + by rewrite (collect_same _ _ _ e).
    + rewrite (collect_same _ _ _ e); [done|done|]. unfold lent_entry. cbn. by rewrite Hle.
  - intros [= <- <-]. by eapply framed_pc; [..|exact Hf].
Qed.

Lemma destroy_framed st h ls doomed k ts st' pc' :
  framed st h ls (PDestroy doomed doomed k) ts → destroy st doomed k = (st', pc') → framed st' h ls pc' ts.
Proof.
  intros Hf. unfold destroy. destruct doomed; [by apply (continue_framed _ _ _ [])|]. by intros [= <- <-].
Qed.

Definition doomed_of (c : string * Entry W) : Doomed := mkDoomed (e_session c.2) (e_ram c.2) (e_vram c.2).

Lemma evict_take_all st ex count :
  map_Forall entry_ok (entries st) →
  ∃ st', take_all st (take count (evictable st ex)).*1 = (st', doomed_of <$> take count (evictable st ex)) ∧
    map_Forall entry_ok (entries st') ∧
    collect own_entry (entries st) ≡ₚ (take count (evictable st ex) ≫= own_entry) ++ collect own_entry (entries st') ∧
    collect loading_entry (entries st') ≡ₚ collect loading_entry (entries st) ∧
    collect lent_entry (entries st') ≡ₚ collect lent_entry (entries st) ∧
    (∀ n, n ∉ (take count (evictable st ex)).*1 → entries st' !! n = entries st !! n).
Proof.
  intros Hok. apply take_all_frame; [done| |].
  - pose proof (evictable_NoDup st ex) as Hnd. rewrite <-(take_drop count (evictable st ex)), fmap_app in Hnd.
    by apply NoDup_app in Hnd as (? & _).
  - intros n e Hin. assert (Hin' : (n, e) ∈ evictable st ex).
    { rewrite <-(take_drop count (evictable st ex)). set_solver. }
    apply elem_of_evictable in Hin'. naive_solver.
Qed.

Lemma evict_doomed st ex count st' doomed :
  map_Forall entry_ok (entries st) → take_all st (take count (evictable st ex)).*1 = (st', doomed) →
  doomed = doomed_of <$> take count (evictable st ex).
Proof. intros Hok Ht. destruct (evict_take_all st ex count Hok) as (st1 & Ht1 & _). congruence. Qed.

(** Evicting some candidates, for a thread that owned nothing. *)
Lemma evict_framed st h ls pc ts ex count st' doomed k :
  framed st h ls pc ts → own_pc pc = [] → loading_pc pc = loading_cont k →
  take_all st (take count (evictable st ex)).*1 = (st', doomed) →
  framed st' h ls (PDestroy doomed doomed k) ts ∧ (∀ n, Some n = ex → entries st' !! n = entries st !! n).
Proof.
  intros [Hok Hh Hl Hlt] Ho Hld Ht.
  destruct (evict_take_all st ex count Hok) as (st1 & Ht1 & Hok1 & Ho1 & Hld1 & Hlt1 & Hrest).
  rewrite Ht1 in Ht. injection Ht as <- <-. split.
  - split; [done| | |by rewrite Hlt1].
    + cbn [own_pc]. rewrite own_taken, <-Hh, Ho, Ho1. simpl. rewrite !app_assoc. f_equiv. apply Permutation_app_comm.
    + rewrite Hld1, Hl, Hld. by destruct k.
  - intros n En. apply Hrest. intros ([n' e] & -> & Hin)%list_elem_of_fmap.
    assert (Hin' : (n', e) ∈ evictable st ex).
    { rewrite <-(take_drop count (evictable st ex)). set_solver. }
    apply elem_of_evictable in Hin'. naive_solver.
Qed.

Lemma reserve_framed st h ls doomed ts n e est :
  framed st h ls (PDestroy doomed doomed ThenReturn) ts → entries st !! n = Some e → e_status e = Unloaded →
  framed (reserve st n e est) h ls (PDestroy doomed doomed (ThenLoad n est)) ts.
Proof.
  intros [Hok Hh Hl Hlt] He Hs. pose proof (Hok _ _ He) as (Hn & Hu). rewrite Hs in Hu.
  destruct Hu as (Hse & Hm & _ & _ & Hle). split; cbn [entries reserve set_used set_entry].
  - apply entry_update; [done|]. by split.
  - rewrite (collect_same _ _ _ e); [done|done|]. unfold own_entry. cbn. by rewrite Hse.
  - rewrite collect_insert. rewrite (collect_split _ _ _ _ He) in Hl.
    unfold loading_entry at 1 in Hl. cbn in Hl. rewrite Hs in Hl. cbn in Hl |- *. by rewrite Hl.
  - rewrite (collect_same _ _ _ e); [done|done|]. unfold lent_entry. cbn. by rewrite Hle.
Qed.

Lemma evict_reserve_framed st h ls ts n e est count st' doomed est' :
  framed st h ls (PAcquire n) ts → entries st !! n = Some e → e_status e = Unloaded →
  evict_and_reserve st n e est (evictable st (Some n)) count = Evict st' doomed est' →
  est' = est ∧ framed st' h ls (PDestroy doomed doomed (ThenLoad n est)) ts.
Proof.
  intros Hf He Hs. unfold evict_and_reserve. destruct (take_all _ _) as [st1 ds] eqn:Ht. intros [= <- <- <-].
  eapply (evict_framed _ _ _ _ _ _ _ _ _ ThenReturn) in Ht as [Hf1 Hn]; [|done..].
  split; [done|]. apply reserve_framed; [done| |done]. by rewrite Hn.
Qed.

(** A change of the lease count and of the use of a loaded entry. *)
Lemma lease_update st h ls pc ts n e k now :
  framed st h ls pc ts → entries st !! n = Some e → e_status e = Loaded → 0 ≤ k →
  framed (touch st n (set_leases e k) now) h
    (replicate (Z.to_nat k) (make_lease n e) ++ collect lent_entry (delete n (entries st))) pc ts.
Proof.
  intros [Hok Hh Hl Hlt] He Hs Hk. pose proof (Hok _ _ He) as (Hn & Hu). rewrite Hs in Hu.
  split; cbn [entries touch set_entry set_tick].
  - apply entry_update; [done|]. split; [done|]. cbn. rewrite Hs. naive_solver.
  - by rewrite (collect_same _ _ _ e).
  - by rewrite (collect_same _ _ _ e).
  - by rewrite collect_insert.
Qed.

Lemma framed_leases st h ls ls' pc ts : ls' ≡ₚ ls → framed st h ls' pc ts → framed st h ls pc ts.
Proof. intros E []. split; [done..|by rewrite <-E]. Qed.

Lemma lent_framed st h ls pc ts n e now :
  framed st h ls pc ts → entries st !! n = Some e → e_status e = Loaded →
  framed (touch st n (set_leases e (e_leases e + 1)) now) h (ls ++ [make_lease n e]) pc ts.
Proof.
  intros Hf He Hs. pose proof (f_entries _ _ _ _ _ Hf _ _ He) as (_ & Hu). rewrite Hs in Hu.
  assert (Hk : 0 ≤ e_leases e) by naive_solver. eapply framed_leases; [|apply (lease_update _ _ ls); [done..|lia]].
  rewrite <-(f_lent _ _ _ _ _ Hf), (collect_split _ _ _ _ He). unfold lent_entry at 2. cbn [fst snd].
  rewrite Z2Nat.inj_add, Nat.add_1_r by lia. cbn [replicate app]. apply Permutation_cons_append.
Qed.

(** The end of a load. *)
Lemma loaded_framed st h ls ts n spec est addr mutex now load_ms st' lease :
  framed st h ls (PLoad n spec est) ts → h !! addr = None →
  finish_load st n addr mutex now load_ms = Some (st', lease) →
  framed st' (<[addr := (ram_bytes est, vram_bytes est)]> h) (ls ++ [lease]) (PDone (Ok tt)) ts.
Proof.
  intros Hf Ha.
  destruct (framed_loading _ _ _ _ _ n (ram_bytes est, vram_bytes est) Hf) as (e & He & Hs & [= Er Ev]); [set_solver|].
  unfold finish_load. rewrite He. intros [= <- <-]. destruct Hf as [Hok Hh Hl Hlt].
  pose proof (Hok _ _ He) as (Hn & Hu). rewrite Hs in Hu. destruct Hu as (Hse & Hm & Hle).
  rewrite (collect_split own_entry _ _ _ He) in Hh. rewrite (collect_split loading_entry _ _ _ He) in Hl.
  rewrite (collect_split lent_entry _ _ _ He) in Hlt.
  unfold own_entry at 1 in Hh. unfold loading_entry at 1 in Hl. unfold lent_entry at 1 in Hlt. cbn in Hh, Hl, Hlt.
  rewrite Hse in Hh. rewrite Hs in Hl. rewrite Hle in Hlt. cbn in Hh, Hl, Hlt.
  split; cbn [entries touch set_entry set_tick].
  - apply entry_update; [done|]. split; [done|]. cbn. split; [|split]; [eauto|eauto|lia].
  - rewrite collect_insert, map_to_list_insert, <-Hh by done. cbn. by rewrite Er, Ev.
  - rewrite collect_insert. cbn. rewrite Er, Ev in Hl. by apply Permutation_cons_inv in Hl.
  - rewrite collect_insert, Hlt. apply Permutation_cons_append.
Qed.

Lemma failed_framed st h ls ts n spec est r :
  framed st h ls (PLoad n spec est) ts → framed (fail_load st n) h ls (PDone r) ts.
Proof.
  intros Hf.
  destruct (framed_loading _ _ _ _ _ n (ram_bytes est, vram_bytes est) Hf) as (e & He & Hs & [= Er Ev]); [set_solver|].
  unfold fail_load. rewrite He. destruct Hf as [Hok Hh Hl Hlt].
  pose proof (Hok _ _ He) as (Hn & Hu). rewrite Hs in Hu. destruct Hu as (Hse & Hm & Hle).
  split; cbn [entries set_entry set_used].
  - apply entry_update; [done|]. split; [done|]. by cbn.
  - rewrite (collect_same _ _ _ e); [done|done|]. unfold own_entry. cbn. by rewrite Hse.
  - rewrite collect_insert. rewrite (collect_split _ _ _ _ He) in Hl. unfold loading_entry at 1 in Hl. cbn in Hl.
    rewrite Hs in Hl. cbn in Hl |- *. rewrite Er, Ev in Hl. by apply Permutation_cons_inv in Hl.
  - rewrite (collect_same _ _ _ e); [done|done|]. unfold lent_entry. by cbn.
Qed.

Lemma unload_framed st h ls pc ts n e st' doomed k :
  framed st h ls pc ts → own_pc pc = [] → loading_pc pc = loading_cont k → entries st !! n = Some e →
  unload_locked st n e = UnloadTake st' doomed →
  framed st' h ls (PDestroy doomed doomed k) ts ∧ e_status e = Loaded ∧ e_leases e = 0.
Proof.
  intros [Hok Hh Hl Hlt] Ho Hld He. unfold unload_locked. destruct (e_status e) eqn:Hs; try done.
  pose proof (Hok _ _ He) as (Hn & Hu). rewrite Hs in Hu.
  destruct (0 <? e_leases e) eqn:Hle; [done|]. apply Z.ltb_ge in Hle. assert (e_leases e = 0) by naive_solver lia.
  destruct (take_all_frame [(n, e)] st) as (st1 & Ht & Hok1 & Ho1 & Hld1 & Hlt1 & _); [done| | |].
  { apply NoDup_singleton. } { intros n' e' [= -> ->]%list_elem_of_singleton. done. }
  cbn [fmap list_fmap take_all fst snd] in Ht. destruct (take_out st n) as [st2 ds]. rewrite app_nil_r in Ht.
  injection Ht as -> ->. intros [= <- <-]. split; [|done]. split; [done| | |by rewrite Hlt1].
  - pose proof (own_taken [(n, e)]) as Et. cbn [fmap list_fmap fst snd] in Et.
    cbn [own_pc]. rewrite Et, <-Hh, Ho, Ho1, !app_assoc, app_nil_r. f_equiv. apply Permutation_app_comm.
  - rewrite Hld1, Hl, Hld. by destruct k.
Qed.

Definition attempt_framed h ls n ts (a : Attempt) : Prop :=
  match a with
  | Lent st' lease => framed st' h (ls ++ [lease]) (PDone (Ok tt)) ts
  | Evict st' doomed est => framed st' h ls (PDestroy doomed doomed (ThenLoad n est)) ts
  | _ => True
  end.

Lemma acquire_framed fs now can_wait n st h ls ts :
  framed st h ls (PAcquire n) ts → attempt_framed h ls n ts (acquire_attempt fs now can_wait n st).
Proof.
  intros Hf. unfold acquire_attempt. destruct (entries st !! n) as [e|] eqn:He; [|done].
  destruct (e_status e) eqn:Hs; [|done|].
  - destruct (estimate_model_memory _ _) as [est|]; [|done]. destruct (plan _ _ _ _) as [ok count].
    assert (Hev : ∀ c, attempt_framed h ls n ts (evict_and_reserve st n e est (evictable st (Some n)) c)).
    { intros c. destruct (evict_and_reserve _ _ _ _ _ _) eqn:Ev; try done.
      - unfold evict_and_reserve in Ev. by destruct (take_all _ _).
      - by eapply evict_reserve_framed in Ev as [-> ?]. }
    destruct ok; [apply Hev|]. destruct (_ || _); [done|]. destruct (negb _ && _); [done|].
    destruct (negb _); [done|apply Hev].
  - change (make_lease n (set_leases e (e_leases e + 1))) with (make_lease n e).
    cbn [attempt_framed]. eapply (framed_pc _ _ _ (PAcquire n)); [done|done|]. by apply lent_framed.
Qed.

Lemma register_framed st h ls spec ts st' pc' :
  framed st h ls (PRegister spec) ts → register_attempt st spec = Some (st', pc') → framed st' h ls pc' ts.
Proof.
  intros Hf. unfold register_attempt. destruct (is_empty (spec_name spec)).
  { intros [= <- <-]. by eapply framed_pc; [..|exact Hf]. }
  destruct (entries st !! spec_name spec) as [e|] eqn:He.
  - destruct (unload_locked st (spec_name spec) e) as [| |err|st1 ds] eqn:Hu; [done|..]; intros Hr.
    + apply (inj Some) in Hr. eapply (continue_framed _ _ _ [] (ThenRegister spec)); [|exact Hr]. by eapply framed_pc; [..|exact Hf].
    + injection Hr as <- <-. by eapply framed_pc; [..|exact Hf].
    + apply (inj Some) in Hr. eapply destroy_framed; [|exact Hr]. by eapply (unload_framed _ _ _ _ _ _ _ _ _ (ThenRegister spec)) in Hu as [? _].
  - intros [= <- <-]. destruct Hf as [Hok Hh Hl Hlt]. split; cbn [entries set_entry].
    + by apply entry_update.
    + by rewrite collect_new.
    + by rewrite collect_new.
    + by rewrite collect_new.
Qed.

Lemma unload_attempt_framed st h ls n ts st' pc' :
  framed st h ls (PUnload n) ts → unload_attempt st n = Some (st', pc') → framed st' h ls pc' ts.
Proof.
  intros Hf. unfold unload_attempt. destruct (entries st !! n) as [e|] eqn:He.
  2:{ intros [= <- <-]. by eapply framed_pc; [..|exact Hf]. }
  destruct (unload_locked st n e) as [| |err|st1 ds] eqn:Hu; [done|..]; intros Hr.
  - injection Hr as <- <-. by eapply framed_pc; [..|exact Hf].
  - injection Hr as <- <-. by eapply framed_pc; [..|exact Hf].
  - apply (inj Some) in Hr. eapply destroy_framed; [|exact Hr]. by eapply (unload_framed _ _ _ _ _ _ _ _ _ ThenReturn) in Hu as [? _].
Qed.

Lemma set_budget_framed st h ls b ts st' doomed :
  framed st h ls (PSetBudget b) ts → set_budget st b = (st', doomed) →
  framed st' h ls (PDestroy doomed doomed ThenReturn) ts.
Proof.
  intros Hf. unfold set_budget. destruct (plan _ _ _ _) as [ok count]. intros Ht.
  eapply (evict_framed _ h ls (PSetBudget b) ts _ _ _ _ ThenReturn) in Ht as [? _]; [done| |done|done].
  by eapply framed_entries; [|exact Hf].
Qed.

Lemma free_framed st h ls d rest all k ts :
  framed st h ls (PDestroy (d :: rest) all k) ts → framed st (free h (d_session d)) ls (PDestroy rest all k) ts.
Proof.
  intros [Hok Hh Hl Hlt]. split; [done| |done|done]. cbn [own_pc] in *. rewrite bind_cons in Hh.
  unfold own_doomed at 1 in Hh. unfold free. destruct (d_session d) as [a|]; [|done].
  rewrite app_assoc, (Permutation_app_comm (collect _ _)) in Hh. cbn in Hh.
  assert (Ha : h !! a = Some (d_ram d, d_vram d)).
  { apply elem_of_map_to_list. rewrite <-Hh. set_solver. }
  rewrite <-(insert_delete_id _ _ _ Ha), map_to_list_insert in Hh by apply lookup_delete_eq.
  apply Permutation_cons_inv in Hh. by rewrite app_assoc, (Permutation_app_comm (collect _ _)).
Qed.

(** One stretch of any thread. *)
Lemma run_pc_framed init pc env s s' pc' ts :
  framed (reg s) (heap s) (lent s) pc ts → run_pc init pc env s = Some (s', pc') →
  framed (reg s') (heap s') (lent s') pc' ts ∧ threads s' = threads s.
Proof.
  intros Hf. destruct pc as [n|spec|n|b|[|d rest] all k|n spec est|r]; cbn [run_pc]; intros Hr; [..|done].
  - pose proof (acquire_framed (env_fs env) (env_now env) (env_can_wait env) n _ _ _ _ Hf) as Ha.
    destruct (acquire_attempt _ _ _ _ _) as [st lease| |err|st ds est]; simplify_eq/=; [by split| |].
    + split; [|done]. by eapply framed_pc; [..|exact Hf].
    + destruct (destroy _ _ _) as [st1 pc1] eqn:Hd. simplify_eq/=. split; [|done]. by eapply destroy_framed.
  - destruct (register_attempt _ _) as [[st1 pc1]|] eqn:Hg; simplify_eq/=. split; [|done]. by eapply register_framed.
  - destruct (unload_attempt _ _) as [[st1 pc1]|] eqn:Hg; simplify_eq/=. split; [|done]. by eapply unload_attempt_framed.
  - destruct (set_budget _ _) as [st1 ds] eqn:Hb. destruct (destroy _ _ _) as [st2 pc2] eqn:Hd. simplify_eq/=.
    split; [|done]. eapply destroy_framed; [|exact Hd]. by eapply set_budget_framed.
  - destruct (continue _ _) as [st1 pc1] eqn:Hc. simplify_eq/=. split; [|done].
    eapply continue_framed; [|exact Hc]. by eapply framed_entries; [|exact Hf].
  - simplify_eq/=. split; [|done]. by apply free_framed.
  - destruct (load_session _ _ _) as [w [ses|err]].
    + destruct (heap s !! env_session env) eqn:Ha; [done|].
      destruct (finish_load _ _ _ _ _ _) as [[st1 lease]|] eqn:Hl; simplify_eq/=. split; [|done].
      by eapply loaded_framed.
    + simplify_eq/=. split; [|done]. by eapply failed_framed.
Qed.

Lemma release_structured s j lease now :
  structured s → lent s !! j = Some lease →
  structured (mkSys (release_hold (reg s) lease now) (heap s) (threads s) (delete j (lent s)) (world s)).
Proof.
  intros [Hok Hh Hl Hlt] Hj.
  assert (Hin : lease ∈ collect lent_entry (entries (reg s))) by (rewrite Hlt; by eapply list_elem_of_lookup_2).
  apply elem_of_collect in Hin as (n & e & He & Hin). apply elem_of_replicate in Hin as [-> Hpos].
  pose proof (Hok _ _ He) as (Hn & Hu).
  assert (Hs : e_status e = Loaded ∧ 0 < e_leases e).
  { cbn in Hpos. destruct (e_status e); [naive_solver lia..|]. split; [done|lia]. }
  destruct Hs as [Hs Hle].
  assert (Hf : framed (reg s) (heap s) (lent s) (PDone (Ok tt)) (threads s)) by (by split).
  eapply (lease_update _ _ _ _ _ _ _ (e_leases e - 1) now) in Hf as [Hok' Hh' Hl' Hlt']; [|done|done|lia].
  unfold release_hold. cbn [fst snd lease_entry make_lease]. rewrite He.
  split; cbn [reg heap threads lent]; [done|done|done|].
  rewrite Hlt'. apply (Permutation_cons_inv (a := make_lease n e)).
  rewrite <-(delete_Permutation _ _ _ Hj), <-Hlt, (collect_split _ _ _ _ He). unfold lent_entry at 2. cbn [fst snd].
  by replace (Z.to_nat (e_leases e)) with (S (Z.to_nat (e_leases e - 1))) by lia.
Qed.

Lemma exec_structured init l s s' : structured s → exec init l s = Some s' → structured s'.
Proof.
  intros Hs. destruct l as [op|i env|j now]; cbn [exec].
  - intros [= <-]. destruct Hs as [? Hh Hl ?].
    assert (own_pc (enter op) = [] ∧ loading_pc (enter op) = []) as [Eo El] by (by destruct op).
    split; cbn [reg heap threads lent]; [done| | |done]; rewrite bind_app, bind_cons; cbn [mbind list_bind].
    + by rewrite Eo, !app_nil_r.
    + by rewrite El, !app_nil_r.
  - destruct (threads s !! i) as [pc|] eqn:Hi; [|done]. cbn [mbind option_bind].
    destruct (run_pc _ _ _ _) as [[s1 pc1]|] eqn:Hr; [|done]. cbn [mbind option_bind]. intros [= <-].
    eapply run_pc_framed in Hr as [Hf Ht]; [|by apply structured_framed].
    rewrite <-Ht in Hi, Hf. by eapply framed_structured.
  - destruct (lent s !! j) as [lease|] eqn:Hj; [|done]. cbn [mbind option_bind]. intros [= <-].
    by apply release_structured.
Qed.

Lemma start_structured b w : structured (start b w).
Proof. split; [apply map_Forall_empty|done..]. Qed.

Lemma execs_structured init ls s s' : structured s → execs init ls s = Some s' → structured s'.
Proof.
  revert s. induction ls as [|l ls IH]; intros s Hs; cbn [execs]; [by intros [= <-]|].
  destruct (exec init l s) as [s1|] eqn:He; [|done]. cbn [mbind option_bind]. apply IH. by eapply exec_structured.
Qed.

End Structure.

(** ** Accounts *)

(** The two budgets are kept in the same way. *)
Inductive Res := RAM | VRAM.

Definition pick (k : Res) (c : Z * Z) : Z := match k with RAM => c.1 | VRAM => c.2 end.

Definition need (k : Res) (est : ModelMemoryEstimate) : Z := pick k (ram_bytes est, vram_bytes est).
Definition limit (k : Res) (b : ModelBudget) : Z := pick k (budget_ram b, budget_vram b).
Definition dcharge (k : Res) (d : Doomed) : Z := pick k (d_ram d, d_vram d).

Lemma u64_add_l x y : u64 (u64 x + y) = u64 (x + y).
Proof. unfold u64. by rewrite Zplus_mod_idemp_l. Qed.

Lemma u64_sub_r x y : u64 (x - u64 y) = u64 (x - y).
Proof. unfold u64. by rewrite Zminus_mod_idemp_r. Qed.

Lemma doomed_sum (f : Doomed → Z) ds a : foldl (λ s d, u64 (s + f d)) (u64 a) ds = u64 (a + zsum (f <$> ds)).
Proof.
  revert a. induction ds as [|d ds IH]; intros a; cbn [foldl fmap list_fmap zsum foldr]; [f_equal; lia|].
  rewrite u64_add_l, IH. f_equal. unfold zsum. lia.
Qed.

Section Accounts.
Context {W : Type} `{JsonParser} `{FloatOption} (k : Res).
Implicit Types (st : RegistryState W) (e : Entry W) (pc : Pc W) (D S : list Z).

Definition charge e : Z := pick k (e_ram e, e_vram e).
Definition used st : Z := pick k (ram_used st, vram_used st).
Definition releasing st : Z := pick k (ram_releasing st, vram_releasing st).

Definition charges (item : string * Entry W) : list Z := [charge item.2].

(** [D]: the charges of the evictions in progress; [S]: by how much less than
    it is charged a thread that evicts in order to load can ever occupy. *)
Record accounts st D S : Prop := {
  a_charges : map_Forall (λ _ e, 0 ≤ charge e) (entries st);
  a_doomed : Forall (Z.le 0) D;
  a_slack : Forall (Z.le 0) S;
  a_used : used st = zsum (collect charges (entries st)) + zsum D;
  a_releasing : releasing st = zsum D;
  a_bound : used st < u64_modulus;
  a_strict : allow_overcommit (budget st) = false;
  a_limit : limit k (budget st) ≠ 0 → used st - zsum S ≤ limit k (budget st)
}.

Lemma accounts_perm_1 st D D' S S' : D ≡ₚ D' → S ≡ₚ S' → accounts st D S → accounts st D' S'.
Proof. intros ED ES []. split; rewrite <- ?ED, <- ?ES; done. Qed.

#[global] Instance accounts_perm st : Proper ((≡ₚ) ==> (≡ₚ) ==> iff) (accounts st).
Proof. intros D D' ED S S' ES. split; by apply accounts_perm_1. Qed.

Lemma charges_nonneg (m : gmap string (Entry W)) :
  map_Forall (λ _ e, 0 ≤ charge e) m → 0 ≤ zsum (collect charges m).
Proof.
  intros Hm. apply zsum_nonneg, Forall_forall. intros x (n & e & He & ->%list_elem_of_singleton)%elem_of_collect.
  by apply (Hm n).
Qed.

Lemma charges_insert (m : gmap string (Entry W)) n e :
  zsum (collect charges (<[n := e]> m)) = charge e + zsum (collect charges (delete n m)).
Proof. by rewrite collect_insert. Qed.

Lemma charges_split (m : gmap string (Entry W)) n e :
  m !! n = Some e → zsum (collect charges m) = charge e + zsum (collect charges (delete n m)).
Proof. intros He. by rewrite (collect_split _ _ _ _ He). Qed.

(** An entry whose charge does not change. *)
Lemma accounts_entry st n e e' D S t :
  accounts st D S → entries st !! n = Some e → charge e' = charge e → accounts (set_entry (set_tick st t) n e') D S.
Proof.
  intros [Hc ? ? Hu ? ? ? ?] He Ec. split; try done.
  - apply map_Forall_insert_2; [|done]. rewrite Ec. by apply (Hc n).
  - change (used (set_entry _ _ _)) with (used st). rewrite Hu. cbn [entries set_entry set_tick].
    by rewrite charges_insert, (charges_split _ _ _ He), Ec.
Qed.

Lemma accounts_entry' st n e e' D S :
  accounts st D S → entries st !! n = Some e → charge e' = charge e → accounts (set_entry st n e') D S.
Proof. intros Ha He Ec. apply (accounts_entry st n e e' D S (tick st)) in Ha; [by destruct st|done|done]. Qed.

Lemma accounts_new st n e D S :
  accounts st D S → entries st !! n = None → charge e = 0 → accounts (set_entry st n e) D S.
Proof.
  intros [Hc ? ? Hu ? ? ? ?] He Ec. split; try done.
  - apply map_Forall_insert_2; [lia|done].
  - change (used (set_entry _ _ _)) with (used st). rewrite Hu. cbn [entries set_entry].
    rewrite charges_insert, (delete_id _ _ He), Ec. lia.
Qed.

(** Eviction moves a charge from an entry to the evictions in progress. *)
Lemma accounts_take_out st n st' ds D S :
  accounts st D S → take_out st n = (st', ds) → accounts st' ((dcharge k <$> ds) ++ D) S.
Proof.
  intros [Hc Hd Hs Hu Hr Hb Ho Hl]. unfold take_out. destruct (entries st !! n) as [e|] eqn:He; intros [= <- <-]; [|done].
  assert (He0 : 0 ≤ charge e) by by apply (Hc n).
  pose proof (charges_split _ _ _ He) as Hsplit.
  pose proof (charges_nonneg (delete n (entries st)) ltac:(by apply map_Forall_delete)) as Hrest.
  pose proof (zsum_nonneg D Hd).
  assert (Er : u64 (releasing st + charge e) = zsum D + charge e) by (rewrite u64_small; lia).
  assert (Ed : zsum ((dcharge k <$> [mkDoomed (e_session e) (e_ram e) (e_vram e)]) ++ D) = charge e + zsum D) by done.
  split; try done; rewrite ?Ed.
  - apply map_Forall_insert_2; [|done]. unfold charge, pick. by destruct k.
  - by constructor.
  - replace (used (set_entry _ _ _)) with (used st) by done. rewrite Hu, Hsplit. cbn [entries set_entry set_releasing].
    rewrite charges_insert. replace (charge (unloaded e)) with 0; [lia|]. unfold charge, pick. by destruct k.
  - rewrite <-(Z.add_comm (zsum D)), <-Er. unfold releasing, charge, pick. by destruct k.
Qed.

Lemma accounts_take_all names st st' ds D S :
  accounts st D S → take_all st names = (st', ds) → accounts st' ((dcharge k <$> ds) ++ D) S.
Proof.
  revert st st' ds D. induction names as [|n names IH]; intros st st' ds D Ha; cbn [take_all].
  { by intros [= <- <-]. }
  destruct (take_out st n) as [st1 d] eqn:E1. destruct (take_all st1 names) as [st2 ds2] eqn:E2. intros [= <- <-].
  eapply IH in E2; [|by eapply accounts_take_out]. rewrite fmap_app, <-app_assoc.
  by rewrite (Permutation_app_swap_app (dcharge k <$> d)).
Qed.

(** A load is reserved. *)
Lemma accounts_reserve st n e est ds D S :
  accounts st ((dcharge k <$> ds) ++ D) S → entries st !! n = Some e → charge e = 0 →
  0 ≤ need k est → used st + need k est < u64_modulus →
  (limit k (budget st) ≠ 0 → used st - zsum (dcharge k <$> ds) + need k est ≤ limit k (budget st)) →
  accounts (reserve st n e est) ((dcharge k <$> ds) ++ D) (Z.min (need k est) (zsum (dcharge k <$> ds)) :: S).
Proof.
  intros [Hc Hd Hs Hu Hr Hb Ho Hl] He Ec Hn Hw Hfit.
  assert (Hd1 : 0 ≤ zsum (dcharge k <$> ds)) by (apply Forall_app in Hd as [? _]; by apply zsum_nonneg).
  pose proof (zsum_nonneg _ Hd). pose proof (zsum_nonneg _ Hs). pose proof (charges_nonneg _ Hc).
  assert (Eu : used (reserve st n e est) = used st + need k est).
  { transitivity (u64 (used st + need k est)); [|by rewrite u64_small; lia]. unfold used, need, pick. by destruct k. }
  split; rewrite ?Eu; try done.
  - apply map_Forall_insert_2; [|done]. unfold charge, need, pick in *. by destruct k.
  - constructor; [lia|done].
  - rewrite Hu. cbn [entries reserve set_used set_entry]. rewrite charges_insert, (charges_split _ _ _ He), Ec.
    replace (charge (mkEntry _ _ _ _ _ _ _ _ _ _ _)) with (need k est); [lia|]. unfold charge, need, pick. by destruct k.
  - intros Hlim. specialize (Hl Hlim). specialize (Hfit Hlim). cbn [zsum foldr budget reserve set_used set_entry] in *.
    fold (zsum S). lia.
Qed.

(** The evicted sessions are gone. *)
Lemma accounts_uncharge st ds D S m :
  accounts st ((dcharge k <$> ds) ++ D) (m ++ S) → zsum m ≤ zsum (dcharge k <$> ds) → accounts (uncharge st ds) D S.
Proof.
  intros [Hc Hd Hs Hu Hr Hb Ho Hl] Hm. apply Forall_app in Hd as [Hd1 Hd2]. apply Forall_app in Hs as [_ Hs].
  pose proof (zsum_nonneg _ Hd1). pose proof (zsum_nonneg _ Hd2). pose proof (charges_nonneg _ Hc).
  rewrite zsum_app in *.
  assert (Eu : used (uncharge st ds) = used st - zsum (dcharge k <$> ds)).
  { transitivity (u64 (used st - u64 (0 + zsum (dcharge k <$> ds)))).
    - rewrite <-(doomed_sum (dcharge k) ds 0). unfold used, pick. by destruct k.
    - rewrite u64_sub_r, u64_small; lia. }
  assert (Er : releasing (uncharge st ds) = zsum D).
  { transitivity (u64 (releasing st - u64 (0 + zsum (dcharge k <$> ds)))).
    - rewrite <-(doomed_sum (dcharge k) ds 0). unfold releasing, pick. by destruct k.
    - rewrite u64_sub_r, u64_small; lia. }
  split; rewrite ?Eu; try done; [cbn; lia|lia|].
  intros Hlim. specialize (Hl Hlim). rewrite ?zsum_app in Hl. cbn [budget uncharge set_releasing set_used]. lia.
Qed.

Lemma accounts_fail_load st n D S : accounts st D S → accounts (fail_load st n) D S.
Proof.
  unfold fail_load. destruct (entries st !! n) as [e|] eqn:He; [|done]. intros [Hc Hd Hs Hu Hr Hb Ho Hl].
  assert (He0 : 0 ≤ charge e) by by apply (Hc n).
  pose proof (charges_nonneg (delete n (entries st)) ltac:(by apply map_Forall_delete)) as Hrest.
  pose proof (zsum_nonneg _ Hd). rewrite (charges_split _ _ _ He) in Hu.
  set (st' := set_entry _ _ _).
  assert (Eu : used st' = used st - charge e).
  { transitivity (u64 (used st - charge e)); [|rewrite u64_small; lia]. unfold used, charge, pick. by destruct k. }
  split; rewrite ?Eu; try done; [| |lia|].
  - apply map_Forall_insert_2; [|done]. unfold charge, pick. by destruct k.
  - cbn [entries st' set_entry set_used]. rewrite charges_insert.
    replace (charge (mkEntry _ _ _ _ _ _ _ _ _ _ _)) with 0; [lia|]. unfold charge, pick. by destruct k.
  - intros Hlim. specialize (Hl Hlim). cbn [budget st' set_entry set_used]. lia.
Qed.

Lemma accounts_drop st D S m : accounts st D (m ++ S) → zsum m ≤ 0 → accounts st D S.
Proof.
  intros [Hc Hd Hs Hu Hr Hb Ho Hl] Hm. apply Forall_app in Hs as [_ Hs]. split; try done.
  intros Hlim. specialize (Hl Hlim). rewrite zsum_app in Hl. lia.
Qed.

Definition doomed_pc pc : list Z := match pc with PDestroy _ all _ => dcharge k <$> all | _ => [] end.
Definition slack_cont (ds : list Doomed) (c : Cont W) : list Z :=
  match c with ThenLoad _ est => [Z.min (need k est) (zsum (dcharge k <$> ds))] | _ => [] end.
Definition slack_pc pc : list Z := match pc with PDestroy _ all c => slack_cont all c | _ => [] end.

Definition pc_accounts st pc D S : Prop := accounts st (doomed_pc pc ++ D) (slack_pc pc ++ S).

Lemma continue_accounts st c D S st' pc' :
  accounts st D S → continue st c = (st', pc') → pc_accounts st' pc' D S.
Proof.
  intros Ha. destruct c as [n est|spec|]; cbn [continue].
  - destruct (entries st !! n); by intros [= <- <-].
  - unfold register_finish. destruct (entries st !! spec_name spec) as [e|] eqn:He; [case_bool_decide|];
      intros [= <- <-]; [|done|done]. by eapply accounts_entry'.
  - by intros [= <- <-].
Qed.

Lemma destroy_accounts st ds c D S st' pc' :
  accounts st ((dcharge k <$> ds) ++ D) (slack_cont ds c ++ S) → destroy st ds c = (st', pc') →
  pc_accounts st' pc' D S.
Proof.
  intros Ha. unfold destroy. destruct ds as [|d ds]; [|by intros [= <- <-]].
  apply continue_accounts. apply accounts_drop in Ha; [done|]. destruct c; cbn; lia.
Qed.

Lemma slack_le ds c : Forall (Z.le 0) (dcharge k <$> ds) → zsum (slack_cont ds c) ≤ zsum (dcharge k <$> ds).
Proof. intros ?%zsum_nonneg. destruct c; cbn [slack_cont zsum foldr]; fold (zsum (dcharge k <$> ds)); lia. Qed.

End Accounts.

(** ** The plan *)

Section Plan.
Context {W : Type} `{JsonParser} `{FloatOption}.
Implicit Types (st : RegistryState W) (cs : list (string * Entry W)).

Definition remaining (k : Res) (u : Z) cs : Z := foldl (λ u c, u64 (u - charge k c.2)) u cs.

(** Whether a model fits once [cs] are gone. *)
Definition room (b : ModelBudget) (ram vram : Z) cs (need_ram need_vram : Z) : bool :=
  fits (budget_ram b) (remaining RAM ram cs) need_ram && fits (budget_vram b) (remaining VRAM vram cs) need_vram.

Lemma plan_loop_spec b ram vram cs nr nv c0 ok c :
  plan_loop b ram vram cs nr nv c0 = (ok, c) →
  ∃ j, c = (c0 + j)%nat ∧ (j ≤ length cs)%nat ∧ room b ram vram (take j cs) nr nv = ok ∧
    (ok = false → j = length cs) ∧ (∀ i, (i < j)%nat → room b ram vram (take i cs) nr nv = false).
Proof.
  revert ram vram c0. induction cs as [|x cs IH]; intros ram vram c0; cbn [plan_loop];
    destruct (fits _ _ _ && fits _ _ _) eqn:Ef; intros Hp.
  1,3: injection Hp as <- <-; exists 0%nat; cbn; split_and!; [lia|lia|done|done|lia].
  - injection Hp as <- <-. exists 0%nat. cbn. split_and!; [lia|lia|done|done|lia].
  - apply IH in Hp as (j & -> & Hj & Hr & Hall & Hmin). exists (S j). cbn [length].
    split_and!; [lia|lia|done|intros ?; f_equal; by apply Hall|].
    intros [|i] Hi; [exact Ef|]. apply (Hmin i). lia.
Qed.

Lemma remaining_sum k u cs :
  Forall (λ c, 0 ≤ charge k c.2) cs → u < u64_modulus → zsum ((λ c, charge k c.2) <$> cs) ≤ u →
  remaining k u cs = u - zsum ((λ c, charge k c.2) <$> cs).
Proof.
  intros Hc. revert u. induction Hc as [|c cs H0c Hc IH]; intros u Hu Hs; [cbn; lia|].
  cbn [fmap list_fmap zsum foldr] in *. fold (zsum ((λ c : string * Entry W, charge k c.2) <$> cs)) in *.
  assert (0 ≤ zsum ((λ c : string * Entry W, charge k c.2) <$> cs)).
  { apply zsum_nonneg, Forall_fmap. done. }
  unfold remaining. cbn [foldl]. rewrite u64_small by lia. fold (remaining k (u - charge k c.2) cs).
  rewrite IH by lia. lia.
Qed.

Lemma zsum_filter_le {A} (f : A → Z) (P : A → Prop) `{!∀ x, Decision (P x)} (l : list A) :
  Forall (λ x, 0 ≤ f x) l → zsum (f <$> filter P l) ≤ zsum (f <$> l).
Proof.
  induction 1 as [|x l Hx _ IH]; [done|]. rewrite filter_cons. case_decide; cbn in *; unfold zsum in *; lia.
Qed.

Lemma evictable_charges k st ex :
  map_Forall (λ _ e, 0 ≤ charge k e) (entries st) →
  Forall (λ c, 0 ≤ charge k c.2) (evictable st ex) ∧
  zsum ((λ c, charge k c.2) <$> evictable st ex) ≤ zsum (collect (charges k) (entries st)).
Proof.
  intros Hc. assert (Hall : Forall (λ c : string * Entry W, 0 ≤ charge k c.2) (map_items (entries st))).
  { apply Forall_forall. intros [n e]. unfold map_items. rewrite merge_sort_Permutation, elem_of_map_to_list. apply Hc. }
  unfold evictable. split.
  - rewrite merge_sort_Permutation. rewrite Forall_forall in *. intros x [_ Hx]%list_elem_of_filter. by apply Hall.
  - rewrite (merge_sort_Permutation _ (filter _ _)), zsum_filter_le by done. unfold map_items, collect.
    rewrite merge_sort_Permutation. induction (map_to_list (entries st)) as [|x l IH]; [done|].
    rewrite bind_cons. cbn in *. unfold zsum in *. lia.
Qed.

(** A successful plan leaves the model within the limit. *)
Lemma plan_fits k st ex est count D S :
  accounts k st D S → (∀ k, 0 ≤ need k est) → used k st + need k est < u64_modulus →
  plan st (evictable st ex) (ram_bytes est) (vram_bytes est) = (true, count) → limit k (budget st) ≠ 0 →
  used k st - zsum ((λ c, charge k c.2) <$> take count (evictable st ex)) + need k est ≤ limit k (budget st).
Proof.
  intros [Hc Hd _ Hu _ Hb _ _] Hn Hw Hp Hl. unfold plan in Hp.
  apply plan_loop_spec in Hp as (j & -> & _ & Hr & _). cbn [Nat.add]. set (cs := take j _) in *.
  destruct (evictable_charges k st ex Hc) as [Hnn Hle]. pose proof (zsum_nonneg _ Hd).
  assert (Hnn' : Forall (λ c, 0 ≤ charge k c.2) cs) by by apply Forall_take.
  assert (Hsub : zsum ((λ c, charge k c.2) <$> cs) ≤ used k st).
  { rewrite <-(take_drop j (evictable st ex)), fmap_app, zsum_app in Hle. fold cs in Hle.
    assert (0 ≤ zsum ((λ c, charge k c.2) <$> drop j (evictable st ex))).
    { apply zsum_nonneg, Forall_fmap. by apply Forall_drop. } lia. }
  assert (Hf : fits (limit k (budget st)) (remaining k (used k st) cs) (need k est) = true).
  { unfold room in Hr. apply andb_true_iff in Hr as [? ?]. by destruct k. }
  rewrite (remaining_sum k _ _ Hnn' Hb Hsub) in Hf. unfold fits in Hf. specialize (Hn k).
  assert (0 ≤ zsum ((λ c, charge k c.2) <$> cs)) by by apply zsum_nonneg, Forall_fmap.
  rewrite u64_small in Hf by lia. apply orb_true_iff in Hf as [?%Z.eqb_eq|?%Z.leb_le]; [done|lia].
Qed.

End Plan.

(** ** Every interleaving keeps the accounts *)

Section System.
Context {W : Type} `{JsonParser} `{FloatOption} (init : Config W → W → W * Result (Session W)).
Implicit Types (s : Sys W) (st : RegistryState W) (pc : Pc W).

(** The steps the budget theorem is about: the estimate is a [uint64_t] whose
    sum with the bytes in use does not wrap, and a new budget allows no
    overcommit and is not lower than the one in force. *)
Definition calm_pc pc (env : Env) st : Prop :=
  match pc with
  | PAcquire n =>
      ∀ e est k, entries st !! n = Some e → estimate_model_memory (env_fs env) (e_spec e) = Ok est →
        0 ≤ need k est ∧ used k st + need k est < u64_modulus
  | PSetBudget b =>
      allow_overcommit b = false ∧
      ∀ k, limit k b = 0 ∨ (limit k (budget st) ≠ 0 ∧ limit k (budget st) ≤ limit k b)
  | _ => True
  end.

Definition calm (l : Label W) s : Prop :=
  match l with
  | Run i env => match threads s !! i with Some pc => calm_pc pc env (reg s) | None => True end
  | _ => True
  end.

Fixpoint all_calm (ls : list (Label W)) s : Prop :=
  match ls with
  | [] => True
  | l :: rest => calm l s ∧ match exec init l s with Some s' => all_calm rest s' | None => True end
  end.

(** The same, as a test. *)
Definition calm_pc_b pc (env : Env) st : bool :=
  match pc with
  | PAcquire n =>
      match entries st !! n with
      | Some e =>
          match estimate_model_memory (env_fs env) (e_spec e) with
          | Ok est => forallb (λ k, (0 <=? need k est) && (used k st + need k est <? u64_modulus)) [RAM; VRAM]
          | Fail _ => true
          end
      | None => true
      end
  | PSetBudget b =>
      negb (allow_overcommit b) &&
      forallb (λ k, (limit k b =? 0) || negb (limit k (budget st) =? 0) && (limit k (budget st) <=? limit k b)) [RAM; VRAM]
  | _ => true
  end.

Definition calm_b (l : Label W) s : bool :=
  match l with
  | Run i env => match threads s !! i with Some pc => calm_pc_b pc env (reg s) | None => true end
  | _ => true
  end.

Fixpoint all_calm_b (ls : list (Label W)) s : bool :=
  match ls with
  | [] => true
  | l :: rest => calm_b l s && match exec init l s with Some s' => all_calm_b rest s' | None => true end
  end.

Lemma calm_pc_b_sound pc env st : calm_pc_b pc env st = true → calm_pc pc env st.
Proof.
  destruct pc as [n|?|?|b|?|?|?]; cbn [calm_pc_b calm_pc]; try done.
  - intros Hb e est k He Hest. rewrite He, Hest in Hb. cbn [forallb] in Hb.
    apply andb_true_iff in Hb as [Hr [Hv _]%andb_true_iff]. apply andb_true_iff in Hr, Hv.
    destruct k; rewrite Z.leb_le, Z.ltb_lt in *; done.
  - intros [Ho Hb]%andb_true_iff. apply negb_true_iff in Ho. split; [done|]. cbn [forallb] in Hb.
    apply andb_true_iff in Hb as [Hr [Hv _]%andb_true_iff].
    intros k. assert (Hk : (limit k b =? 0) || negb (limit k (budget st) =? 0) && (limit k (budget st) <=? limit k b) = true)
      by (by destruct k).
    apply orb_true_iff in Hk as [?%Z.eqb_eq|[?%negb_true_iff ?%Z.leb_le]%andb_true_iff]; [by left|right].
    by rewrite Z.eqb_neq in *.
Qed.

Lemma all_calm_b_sound ls s : all_calm_b ls s = true → all_calm ls s.
Proof.
  revert s. induction ls as [|l ls IH]; intros s; cbn [all_calm all_calm_b]; [done|].
  intros [Hc Hrest]%andb_true_iff. split.
  - destruct l as [|i env|]; try done. cbn in *. destruct (threads s !! i); [by apply calm_pc_b_sound|done].
  - destruct (exec init l s); [by apply IH|done].
Qed.

Definition tail_ok pc : Prop := match pc with PDestroy rest all _ => rest `suffix_of` all | _ => True end.

Record balanced s : Prop := {
  b_structured : structured s;
  b_accounts : ∀ k, accounts k (reg s) (threads s ≫= doomed_pc k) (threads s ≫= slack_pc k);
  b_tails : Forall tail_ok (threads s)
}.

Lemma take_all_same k names st st' ds :
  take_all st names = (st', ds) → budget st' = budget st ∧ used k st' = used k st.
Proof.
  revert st st' ds. induction names as [|n names IH]; intros st st' ds; cbn [take_all]; [by intros [= <- <-]|].
  destruct (take_out st n) as [st1 d] eqn:E1. destruct (take_all st1 names) as [st2 ds2] eqn:E2. intros [= <- <-].
  apply IH in E2 as [-> ->]. unfold take_out in E1. by destruct (entries st !! n); injection E1 as <- <-.
Qed.

Lemma acquire_accounts k fs now can_wait n st h ls ts D S :
  framed st h ls (PAcquire n) ts → accounts k st D S →
  (∀ e est k, entries st !! n = Some e → estimate_model_memory fs (e_spec e) = Ok est →
     0 ≤ need k est ∧ used k st + need k est < u64_modulus) →
  match acquire_attempt fs now can_wait n st with
  | Lent st' _ => accounts k st' D S
  | Evict st' ds est => accounts k st' ((dcharge k <$> ds) ++ D) (slack_cont (W := W) k ds (ThenLoad n est) ++ S)
  | _ => True
  end.
Proof.
  intros Hf Ha Hcalm. unfold acquire_attempt. destruct (entries st !! n) as [e|] eqn:He; [|done].
  destruct (e_status e) eqn:Hs; [|done|by eapply accounts_entry].
  destruct (estimate_model_memory _ _) as [est|] eqn:Hest; [|done].
  destruct (plan _ _ _ _) as [[] count] eqn:Hp; [|by rewrite (a_strict _ _ _ _ Ha); repeat case_match].
  unfold evict_and_reserve. destruct (take_all _ _) as [st1 ds] eqn:Ht.
  destruct (take_all_same k _ _ _ _ Ht) as [Eb Eu]. pose proof (accounts_take_all k _ _ _ _ _ _ Ha Ht) as Ha1.
  assert (Hcharge : charge k e = 0).
  { pose proof (f_entries _ _ _ _ _ Hf _ _ He) as (_ & Hu). rewrite Hs in Hu.
    destruct Hu as (_ & _ & Er & Ev & _). unfold charge. rewrite Er, Ev. by destruct k. }
  assert (He1 : entries st1 !! n = Some e).
  { eapply (evict_framed _ _ _ _ _ _ _ _ _ ThenReturn) in Ht as [_ Hn]; [|done..]. by rewrite Hn. }
  assert (Hds : zsum (dcharge k <$> ds) = zsum ((λ c, charge k c.2) <$> take count (evictable st (Some n)))).
  { rewrite (evict_doomed _ _ _ _ _ (f_entries _ _ _ _ _ Hf) Ht), <-list_fmap_compose. done. }
  apply accounts_reserve; try done.
  - by eapply Hcalm.
  - rewrite Eu. by eapply Hcalm.
  - rewrite Eb, Eu, Hds. intros Hl. eapply plan_fits; try done.
    + intros k'. by eapply Hcalm.
    + by eapply Hcalm.
Qed.

Lemma unload_accounts k st n e st' ds D S :
  accounts k st D S → unload_locked st n e = UnloadTake st' ds → accounts k st' ((dcharge k <$> ds) ++ D) S.
Proof.
  intros Ha. unfold unload_locked. destruct (e_status e); try done. destruct (0 <? e_leases e); [done|].
  destruct (take_out st n) as [st1 d] eqn:Ht. intros [= <- <-]. by eapply accounts_take_out.
Qed.

Lemma register_accounts k st spec st' pc' D S :
  accounts k st D S → register_attempt st spec = Some (st', pc') → pc_accounts k st' pc' D S.
Proof.
  intros Ha. unfold register_attempt. destruct (is_empty _); [by intros [= <- <-]|].
  destruct (entries st !! spec_name spec) as [e|] eqn:He.
  - destruct (unload_locked _ _ _) as [| |err|st1 ds] eqn:Hu; [done|..]; intros Hr.
    + apply (inj Some) in Hr. by apply (continue_accounts k st (ThenRegister spec)).
    + by injection Hr as <- <-.
    + apply (inj Some) in Hr. eapply destroy_accounts; [|exact Hr]. by eapply unload_accounts.
  - intros [= <- <-]. apply accounts_new; [done|done|]. by destruct k.
Qed.

Lemma unload_attempt_accounts k st n st' pc' D S :
  accounts k st D S → unload_attempt st n = Some (st', pc') → pc_accounts k st' pc' D S.
Proof.
  intros Ha. unfold unload_attempt. destruct (entries st !! n) as [e|] eqn:He; [|by intros [= <- <-]].
  destruct (unload_locked _ _ _) as [| |err|st1 ds] eqn:Hu; [done|..]; intros Hr; [by injection Hr as <- <-..|].
  apply (inj Some) in Hr. eapply destroy_accounts; [|exact Hr]. by eapply unload_accounts.
Qed.

Lemma set_budget_accounts k st b st' ds D S :
  accounts k st D S → allow_overcommit b = false →
  (limit k b = 0 ∨ (limit k (budget st) ≠ 0 ∧ limit k (budget st) ≤ limit k b)) →
  set_budget st b = (st', ds) → accounts k st' ((dcharge k <$> ds) ++ D) S.
Proof.
  intros [Hc Hd Hs Hu Hr Hb Ho Hl] Hover Hlim. unfold set_budget. destruct (plan _ _ _ _) as [ok count].
  apply accounts_take_all. split; try done. intros Hn. cbn in Hn. destruct Hlim as [?|[Hne Hle]]; [done|].
  specialize (Hl Hne). cbn. by etrans.
Qed.

Lemma run_pc_accounts k pc env s s' pc' ts D S :
  framed (reg s) (heap s) (lent s) pc ts → pc_accounts k (reg s) pc D S → calm_pc pc env (reg s) →
  run_pc init pc env s = Some (s', pc') → pc_accounts k (reg s') pc' D S.
Proof.
  intros Hf Ha Hcalm. destruct pc as [n|spec|n|b|[|d rest] all c|n spec est|r]; cbn [run_pc]; intros Hr; [..|done].
  - pose proof (acquire_accounts k (env_fs env) (env_now env) (env_can_wait env) n _ _ _ _ _ _ Hf Ha Hcalm) as Hq.
    destruct (acquire_attempt _ _ _ _ _) as [st lease| |err|st ds est]; simplify_eq/=; [done|done|].
    destruct (destroy _ _ _) as [st1 pc1] eqn:Hd. simplify_eq/=.
    by apply (destroy_accounts k st ds (ThenLoad n est)).
  - destruct (register_attempt _ _) as [[st1 pc1]|] eqn:Hg; simplify_eq/=. by eapply register_accounts.
  - destruct (unload_attempt _ _) as [[st1 pc1]|] eqn:Hg; simplify_eq/=. by eapply unload_attempt_accounts.
  - destruct (set_budget _ _) as [st1 ds] eqn:Hb. destruct (destroy _ _ _) as [st2 pc2] eqn:Hd. simplify_eq/=.
    destruct Hcalm as [Hover Hlim]. eapply (destroy_accounts _ _ _ ThenReturn); [|exact Hd].
    by eapply set_budget_accounts.
  - destruct (continue _ _) as [st1 pc1] eqn:Hc. simplify_eq/=. eapply continue_accounts; [|exact Hc].
    eapply accounts_uncharge; [exact Ha|]. apply slack_le.
    pose proof (a_doomed _ _ _ _ Ha) as Hd. by apply Forall_app in Hd as [? _].
  - by simplify_eq/=.
  - destruct (load_session _ _ _) as [w [ses|err]].
    + destruct (heap s !! env_session env) eqn:Hh; [done|]. unfold finish_load in Hr.
      destruct (entries (reg s) !! n) as [e|] eqn:He; simplify_eq/=. by eapply accounts_entry.
    + simplify_eq/=. by apply accounts_fail_load.
Qed.

Lemma continue_tail st c st' pc' : continue st c = (st', pc') → tail_ok pc'.
Proof.
  destruct c as [n est|spec|]; cbn [continue].
  - destruct (entries st !! n); by intros [= <- <-].
  - destruct (register_finish st spec). by intros [= <- <-].
  - by intros [= <- <-].
Qed.

Lemma destroy_tail st ds c st' pc' : destroy st ds c = (st', pc') → tail_ok pc'.
Proof. unfold destroy. destruct ds; [apply continue_tail|]. intros [= <- <-]. by exists []. Qed.

Lemma run_pc_tail pc env s s' pc' : tail_ok pc → run_pc init pc env s = Some (s', pc') → tail_ok pc'.
Proof.
  intros Ht. destruct pc as [n|spec|n|b|[|d rest] all c|n spec est|r]; cbn [run_pc]; intros Hr; [..|done].
  - destruct (acquire_attempt _ _ _ _ _) as [st lease| |err|st ds est]; simplify_eq/=; [done|done|].
    destruct (destroy _ _ _) as [st1 pc1] eqn:Hd. simplify_eq/=. by eapply destroy_tail.
  - destruct (register_attempt _ _) as [[st1 pc1]|] eqn:Hg; simplify_eq/=. unfold register_attempt in Hg.
    repeat (case_match; simplify_eq/=; try done); first [by eapply destroy_tail|by eapply (continue_tail _ (ThenRegister spec))].
  - destruct (unload_attempt _ _) as [[st1 pc1]|] eqn:Hg; simplify_eq/=. unfold unload_attempt in Hg.
    repeat (case_match; simplify_eq/=; try done). by eapply destroy_tail.
  - destruct (set_budget _ _) as [st1 ds]. destruct (destroy _ _ _) as [st2 pc2] eqn:Hd. simplify_eq/=.
    by eapply destroy_tail.
  - destruct (continue _ _) as [st1 pc1] eqn:Hc. simplify_eq/=. by eapply continue_tail.
  - simplify_eq/=. by eapply suffix_cons_l.
  - destruct (load_session _ _ _) as [w [ses|err]]; [|by simplify_eq/=].
    destruct (heap s !! env_session env); [done|]. by destruct (finish_load _ _ _ _ _ _) as [[]|]; simplify_eq/=.
Qed.

Lemma exec_balanced l s s' : balanced s → calm l s → exec init l s = Some s' → balanced s'.
Proof.
  intros [Hs Ha Ht] Hcalm He. split; [by eapply exec_structured| |].
  - intros k. destruct l as [op|i env|j now]; cbn [exec calm] in *.
    + injection He as <-. cbn [reg threads]. rewrite !bind_app, !bind_cons.
      assert (doomed_pc k (enter op) = [] ∧ slack_pc k (enter op) = []) as [-> ->] by (by destruct op).
      cbn [mbind list_bind]. rewrite !app_nil_r. apply Ha.
    + destruct (threads s !! i) as [pc|] eqn:Hi; [|done]. cbn [mbind option_bind] in He.
      destruct (run_pc _ _ _ _) as [[s1 pc1]|] eqn:Hr; [|done]. simplify_eq/=.
      pose proof (run_pc_framed init _ _ _ _ _ _ (structured_framed _ _ _ Hs Hi) Hr) as [_ Et].
      rewrite Et, (bind_insert (doomed_pc k) _ _ _ _ Hi), (bind_insert (slack_pc k) _ _ _ _ Hi).
      eapply run_pc_accounts; [by eapply structured_framed| |done|done].
      unfold pc_accounts. rewrite <-(bind_split (doomed_pc k) _ _ _ Hi), <-(bind_split (slack_pc k) _ _ _ Hi). apply Ha.
    + destruct (lent s !! j) as [lease|]; simplify_eq/=. unfold release_hold.
      destruct (entries (reg s) !! lease_entry lease) as [e|] eqn:Hn; [|apply Ha]. by eapply accounts_entry; [apply Ha|..].
  - destruct l as [op|i env|j now]; cbn [exec] in He.
    + injection He as <-. cbn. apply Forall_app. split; [done|]. repeat constructor. by destruct op.
    + destruct (threads s !! i) as [pc|] eqn:Hi; [|done]. cbn [mbind option_bind] in He.
      destruct (run_pc _ _ _ _) as [[s1 pc1]|] eqn:Hr; [|done]. simplify_eq/=.
      pose proof (run_pc_framed init _ _ _ _ _ _ (structured_framed _ _ _ Hs Hi) Hr) as [_ ->].
      apply Forall_insert; [done|]. eapply run_pc_tail; [|exact Hr]. by eapply Forall_lookup_1 in Ht.
    + by destruct (lent s !! j); simplify_eq/=.
Qed.

Lemma start_balanced b w : allow_overcommit b = false → (∀ k, 0 ≤ limit k b) → balanced (start b w).
Proof.
  intros Hb Hl. split; [apply start_structured| |by constructor].
  intros k. split; try by destruct k.
Qed.

Lemma execs_balanced ls s s' : balanced s → all_calm ls s → execs init ls s = Some s' → balanced s'.
Proof.
  revert s. induction ls as [|l ls IH]; intros s Hb; cbn [execs all_calm]; [by intros _ [= <-]|].
  intros [Hc Hrest]. destruct (exec init l s) as [s1|] eqn:He; [|done]. cbn [mbind option_bind].
  apply IH; [by eapply exec_balanced|done].
Qed.

End System.

(** ** What the registry promises *)

Section Resident.
Context {W : Type} (k : Res).

(** A load occupies its memory from its start. *)
Definition loading_now (pc : Pc W) : list Z := match pc with PLoad _ _ est => [need k est] | _ => [] end.

(** The bytes that are really in use: live sessions and running loads. *)
Definition resident (s : Sys W) : Z :=
  zsum ((λ item, pick k item.2) <$> map_to_list (heap s)) + zsum (threads s ≫= loading_now).

(** A reserved load that still waits for its evictions. *)
Definition waiting (pc : Pc W) : list Z := match pc with PDestroy _ _ (ThenLoad _ est) => [need k est] | _ => [] end.

Definition picked {A} (l : list (A * (Z * Z))) : list Z := (λ item, pick k item.2) <$> l.

#[local] Instance picked_perm {A} : Proper ((≡ₚ) ==> (≡ₚ)) (@picked A).
Proof. intros l1 l2 E. unfold picked. by rewrite E. Qed.

Lemma picked_app {A} (l1 l2 : list (A * (Z * Z))) : picked (l1 ++ l2) = picked l1 ++ picked l2.
Proof. apply fmap_app. Qed.

Lemma picked_bind {A B} (f : A → list (B * (Z * Z))) l : picked (l ≫= f) = l ≫= (λ x, picked (f x)).
Proof. induction l as [|x l IH]; [done|]. rewrite !bind_cons. unfold picked in *. by rewrite fmap_app, IH. Qed.

Lemma picked_own ds : Forall (Z.le 0) (dcharge k <$> ds) → zsum (picked (ds ≫= own_doomed)) ≤ zsum (dcharge k <$> ds).
Proof.
  induction ds as [|d ds IH]; cbn [fmap list_fmap]; [done|]. intros [Hd Hds]%Forall_cons.
  rewrite bind_cons. unfold picked in *. rewrite fmap_app, zsum_app. specialize (IH Hds).
  unfold own_doomed at 1. destruct (d_session d); cbn in *; unfold zsum in *; unfold dcharge in *; lia.
Qed.

Lemma suffix_sum (rest all : list Doomed) :
  rest `suffix_of` all → Forall (Z.le 0) (dcharge k <$> all) →
  Forall (Z.le 0) (dcharge k <$> rest) ∧ zsum (dcharge k <$> rest) ≤ zsum (dcharge k <$> all).
Proof.
  intros [l ->]. rewrite fmap_app, zsum_app. intros [Hl Hr]%Forall_app. split; [done|].
  pose proof (zsum_nonneg _ Hl). lia.
Qed.

(** The charges of the entries, split by their status. *)
Lemma entry_charges (m : gmap string (Entry W)) :
  map_Forall entry_ok m →
  zsum (picked (collect own_entry m)) + zsum (picked (collect loading_entry m)) = zsum (collect (charges k) m).
Proof.
  intros Hm. unfold collect. rewrite !picked_bind. apply zsum_bind_add.
  intros [n e] He%elem_of_map_to_list. destruct (Hm _ _ He) as [_ Hs].
  unfold own_entry, loading_entry, charges, charge. cbn [fst snd].
  destruct (e_status e).
  - destruct Hs as (-> & _ & -> & -> & _). by destruct k.
  - destruct Hs as (-> & _ & _). done.
  - destruct Hs as ([a ->] & _ & _). cbn [bool_decide decide_rel]. case_bool_decide; [done|]. unfold picked. cbn [fmap list_fmap snd zsum foldr]. lia.
Qed.

Lemma resident_le_used (s : Sys W) :
  balanced s → resident s + zsum (threads s ≫= waiting) ≤ used k (reg s).
Proof.
  intros [[Hok Hh Hl _] Ha Ht]. specialize (Ha k). unfold resident.
  fold (picked (map_to_list (heap s))). rewrite <-Hh, picked_app, zsum_app.
  pose proof (entry_charges _ Hok) as Hc. rewrite Hl in Hc. rewrite (a_used _ _ _ _ Ha), <-Hc.
  assert (El : zsum (picked (threads s ≫= loading_pc)) = zsum (threads s ≫= loading_now) + zsum (threads s ≫= waiting)).
  { rewrite picked_bind. symmetry. apply zsum_bind_add. intros [| | | |? ? []| |] _; cbn; unfold need; lia. }
  assert (Hle : zsum (picked (threads s ≫= own_pc)) ≤ zsum (threads s ≫= doomed_pc k)).
  { rewrite picked_bind. apply zsum_bind_le. intros pc Hpc. destruct pc as [| | | |rest all c| |]; try done.
    rewrite Forall_forall in Ht. specialize (Ht _ Hpc). cbn in Ht |- *.
    assert (Hall : Forall (Z.le 0) (dcharge k <$> all)).
    { pose proof (a_doomed _ _ _ _ Ha) as Hd. rewrite Forall_forall in Hd |- *. intros x Hx. apply Hd.
      apply list_elem_of_bind. by exists (PDestroy rest all c). }
    destruct (suffix_sum _ _ Ht Hall) as [? ?]. etrans; [by apply picked_own|done]. }
  lia.
Qed.

Lemma slack_le_waiting (s : Sys W) : zsum (threads s ≫= slack_pc k) ≤ zsum (threads s ≫= waiting).
Proof. apply zsum_bind_le. intros [| | | |rest all []| |] _; cbn; lia. Qed.

End Resident.

(** C29. The budget holds under every interleaving of the threads that acquire,
    release, register, unload and set a budget: the bytes of the sessions that
    are loaded, being loaded, or evicted but not destroyed yet never exceed a
    limit (RAM or VRAM; zero is no limit), although sessions are destroyed and
    loaded without the lock.  Overcommit is off, a later budget is not lower, and no sum of
    estimates wraps. *)
Theorem registry_within_budget {W : Type} `{JsonParser} `{FloatOption} (init : Config W → W → W * Result (Session W))
    (ls : list (Label W)) (b : ModelBudget) (w : W) (s : Sys W) (k : Res) :
  allow_overcommit b = false → (∀ k, 0 ≤ limit k b) → all_calm init ls (start b w) →
  execs init ls (start b w) = Some s → limit k (budget (reg s)) ≠ 0 →
  resident k s ≤ limit k (budget (reg s)).
Proof.
  intros Hb Hl Hc He Hlim.
  assert (Hs : balanced s) by (eapply execs_balanced; [by apply start_balanced|done|done]).
  pose proof (resident_le_used k s Hs). pose proof (slack_le_waiting k s).
  pose proof (a_limit _ _ _ _ (b_accounts _ Hs k) Hlim). lia.
Qed.

Section Promises.
Context {W : Type} `{JsonParser} `{FloatOption} (init : Config W → W → W * Result (Session W)).
Implicit Types (s : Sys W).

Lemma reachable_structured ls b w s : execs init ls (start b w) = Some s → structured s.
Proof. apply execs_structured, start_structured. Qed.

(** The leases of one entry. *)
Lemma lent_of_entry s n e :
  structured s → entries (reg s) !! n = Some e →
  Z.of_nat (length (filter (λ l, lease_entry l = n) (lent s))) = e_leases e.
Proof.
  intros [Hok _ _ Hlt] He. rewrite <-Hlt, (collect_split _ _ _ _ He), filter_app.
  assert (Hother : filter (λ l, lease_entry l = n) (collect lent_entry (delete n (entries (reg s)))) = []).
  { apply filter_none. intros l (n' & e' & He' & Hl)%elem_of_collect.
    apply elem_of_replicate in Hl as [-> _]. cbn. intros ->. by rewrite lookup_delete_eq in He'. }
  rewrite Hother, app_nil_r. unfold lent_entry. cbn [fst snd].
  rewrite filter_every by (by intros l [-> _]%elem_of_replicate). rewrite length_replicate. destruct (Hok _ _ He) as [_ Hs]. apply Z2Nat.id.
  destruct (e_status e); naive_solver lia.
Qed.

(** The names of the loading entries are distinct. *)
Lemma loading_NoDup s : NoDup (collect loading_entry (entries (reg s))).*1.
Proof.
  unfold collect. pose proof (NoDup_fst_map_to_list (entries (reg s))) as Hnd.
  induction (map_to_list (entries (reg s))) as [|[n e] l IH]; [constructor|].
  apply NoDup_cons in Hnd as [Hn Hnd]. rewrite bind_cons, fmap_app. apply NoDup_app. split; [|split; [|by apply IH]].
  - unfold loading_entry. cbn. case_bool_decide; [apply NoDup_singleton|constructor].
  - intros x Hx (y & -> & Hy)%list_elem_of_fmap. unfold loading_entry in Hx. cbn in Hx. case_bool_decide; [|set_solver].
    apply list_elem_of_singleton in Hx. apply Hn. cbn in Hx. rewrite <-Hx.
    apply list_elem_of_bind in Hy as ([m e'] & Hy & Hin). unfold loading_entry in Hy. cbn in Hy.
    case_bool_decide; [|set_solver]. apply list_elem_of_singleton in Hy as ->. cbn.
    by apply (list_elem_of_fmap_2 fst _ (m, e')).
Qed.

Lemma loaders_unique s i j pc pc' n c c' :
  structured s → threads s !! i = Some pc → threads s !! j = Some pc' →
  (n, c) ∈ loading_pc pc → (n, c') ∈ loading_pc pc' → i = j.
Proof.
  intros Hs Hi Hj Hn Hn'. destruct (decide (i = j)) as [|Hne]; [done|]. exfalso.
  pose proof (loading_NoDup s) as Hnd. rewrite (s_loading _ Hs), (bind_split _ _ _ _ Hi), fmap_app in Hnd.
  apply NoDup_app in Hnd as (_ & Hd & _). apply (Hd n).
  - by apply (list_elem_of_fmap_2 fst _ (n, c)).
  - apply (list_elem_of_fmap_2 fst _ (n, c')). apply list_elem_of_bind. exists pc'. split; [done|].
    apply list_elem_of_lookup. destruct (decide (j < i)%nat).
    + exists j. by rewrite list_lookup_delete_lt.
    + exists (j - 1)%nat. rewrite list_lookup_delete_ge by lia. by replace (S (j - 1)) with j by lia.
Qed.

#[local] Instance tick_le_trans : Transitive (tick_le (W := W)).
Proof. intros a b c. unfold tick_le. lia. Qed.
#[local] Instance tick_le_total : Total (tick_le (W := W)).
Proof. intros a b. unfold tick_le. lia. Qed.

Lemma lru_split (st : RegistryState W) ex count v x :
  v ∈ take count (evictable st ex) → x ∈ drop count (evictable st ex) → e_use_tick v.2 ≤ e_use_tick x.2.
Proof.
  intros Hv Hx. assert (Hs : StronglySorted tick_le (evictable st ex)) by apply (StronglySorted_merge_sort _).
  rewrite <-(take_drop count (evictable st ex)) in Hs. by eapply StronglySorted_app_1_elem_of in Hs.
Qed.

End Promises.

(** C30. A lease never dangles: in every reachable state of every interleaving,
    the session a lease points at is alive and is the session of the loaded
    entry it was taken from, with the same turn mutex; the entry's lease count
    is the number of leases outstanding. *)
Theorem lease_session_live {W : Type} `{JsonParser} `{FloatOption} (init : Config W → W → W * Result (Session W))
    (ls : list (Label W)) (b : ModelBudget) (w : W) (s : Sys W) (lease : ModelLease) :
  execs init ls (start b w) = Some s → lease ∈ lent s →
  ∃ a e, entries (reg s) !! lease_entry lease = Some e ∧ e_status e = Loaded ∧
    lease_session lease = Some a ∧ e_session e = Some a ∧ heap s !! a = Some (e_ram e, e_vram e) ∧
    lease_turn_mutex lease = e_turn_mutex e ∧ lease_name lease = lease_entry lease ∧
    e_leases e = Z.of_nat (length (filter (λ l, lease_entry l = lease_entry lease) (lent s))).
Proof.
  intros He%reachable_structured Hl. pose proof He as [Hok Hh _ Hlt].
  rewrite <-Hlt in Hl. apply elem_of_collect in Hl as (n & e & Hn & Hl). apply elem_of_replicate in Hl as [-> Hk].
  pose proof (Hok _ _ Hn) as [Hname Hs]. cbn in Hk.
  destruct (e_status e) eqn:Es; [naive_solver lia..|]. destruct Hs as ([a Ha] & _ & _).
  exists a, e. cbn [lease_entry lease_session lease_turn_mutex lease_name make_lease].
  split_and!; try done; [|symmetry; exact (lent_of_entry _ _ _ He Hn)].
  apply elem_of_map_to_list. rewrite <-Hh. apply elem_of_app. left. apply elem_of_collect.
  exists n, e. split; [done|]. unfold own_entry. cbn. rewrite Ha. set_solver.
Qed.

(** A model is loaded once: a thread that loads a model, or evicts others
    in order to load it, is the only one, and the entry is marked as loading. *)
Theorem model_loaded_once {W : Type} `{JsonParser} `{FloatOption} (init : Config W → W → W * Result (Session W))
    (ls : list (Label W)) (b : ModelBudget) (w : W) (s : Sys W) (i : nat) (pc : Pc W) (n : string) (c : Z * Z) :
  execs init ls (start b w) = Some s → threads s !! i = Some pc → (n, c) ∈ loading_pc pc →
  (∃ e, entries (reg s) !! n = Some e ∧ e_status e = Loading ∧ (e_ram e, e_vram e) = c) ∧
  (∀ j pc' c', threads s !! j = Some pc' → (n, c') ∈ loading_pc pc' → j = i).
Proof.
  intros He%reachable_structured Hi Hn. split.
  - destruct (framed_loading _ _ _ _ _ _ _ (structured_framed _ _ _ He Hi) Hn) as (e & ? & ? & ->). eauto.
  - intros j pc' c' Hj Hn'. by eapply loaders_unique.
Qed.

(** Eviction takes the least recently used idle models and no more than
    needed: the sessions an acquire evicts are those of a prefix of the idle,
    unpinned, loaded models in order of last use; after it the model fits and
    after no shorter prefix does; every other entry stays as it is. *)
Theorem eviction_is_lru {W : Type} `{JsonParser} `{FloatOption} (init : Config W → W → W * Result (Session W))
    (ls : list (Label W)) (b : ModelBudget) (w : W) (s : Sys W) (fs : FileSystem) (now : Z) (can_wait : bool)
    (n : string) (st' : RegistryState W) (doomed : list Doomed) (est : ModelMemoryEstimate) :
  execs init ls (start b w) = Some s → allow_overcommit (budget (reg s)) = false →
  acquire_attempt fs now can_wait n (reg s) = Evict st' doomed est →
  let st := reg s in
  let fits_without := λ victims, room (budget st) (ram_used st) (vram_used st) victims (ram_bytes est) (vram_bytes est) in
  ∃ victims kept, evictable st (Some n) = victims ++ kept ∧ doomed = doomed_of <$> victims ∧
    (∀ v x, v ∈ victims → x ∈ kept → e_use_tick v.2 ≤ e_use_tick x.2) ∧
    (∀ m e, (m, e) ∈ victims ++ kept ↔ entries st !! m = Some e ∧ m ≠ n ∧ e_status e = Loaded ∧ e_leases e = 0 ∧
       pinned (e_spec e) = false) ∧
    (∀ m, m ∉ victims.*1 → m ≠ n → entries st' !! m = entries st !! m) ∧
    fits_without victims = true ∧ (∀ i, (i < length victims)%nat → fits_without (take i victims) = false).
Proof.
  intros Hex%reachable_structured Hover Ha st. subst st. set (st := reg s) in *. cbv zeta.
  unfold acquire_attempt in Ha. destruct (entries st !! n) as [e|] eqn:He; [|done].
  destruct (e_status e) eqn:Hs; try done. destruct (estimate_model_memory _ _) as [est'|]; [|done].
  destruct (plan _ _ _ _) as [[] count] eqn:Hp; [|by rewrite Hover in Ha; repeat case_match].
  unfold evict_and_reserve in Ha.
  destruct (evict_take_all st (Some n) count (s_entries _ Hex)) as (st1 & Ht & _ & _ & _ & _ & Hrest).
  rewrite Ht in Ha. injection Ha as <- <- <-.
  apply plan_loop_spec in Hp as (j & -> & Hj & Hroom & _ & Hmin). cbn [Nat.add] in *.
  exists (take j (evictable st (Some n))), (drop j (evictable st (Some n))). rewrite take_drop.
  split_and!; [done|done|by intros v x; apply lru_split| | |done|].
  - intros m e'. rewrite elem_of_evictable. naive_solver.
  - intros m Hm Hne. cbn [entries reserve set_used set_entry]. rewrite lookup_insert_ne by done. by apply Hrest.
  - intros i Hi. rewrite length_take in Hi. rewrite take_take, Nat.min_l by lia. apply Hmin. lia.
Qed.

(** ** Where the check wraps *)

(** A model of 2^64 - 1 bytes passes a budget of ten bytes when one byte is in
    use: the sum wraps to zero. *)
Example fits_wraps : fits 10 1 (u64_modulus - 1) = true.
Proof. vm_compute. reflexivity. Qed.

(** ** A registry at work *)

Module ModelsSample.

#[local] Existing Instance RefParser.parser.
#[local] Instance no_float : FloatOption := λ _, -1.

Definition spec (name : string) (bytes : Z) : ModelSpec unit := mkModelSpec name Sample.cfg bytes false None.

Definition init (_ : Config unit) (w : unit) : unit * Result (Session unit) := (w, Ok Sample.session).

Definition no_files : FileSystem := mkFileSystem (λ _, false) (λ _, false) (λ _, 0) (λ _, []).

Definition env (a : nat) : Env := mkEnv no_files 0 false 5 a (100 + a).

Definition budget : ModelBudget := mkBudget 10 0 false 0.

(** "a" is loaded and given back; "b" evicts it. *)
Definition trace : list (Label unit) :=
  [Call (OpRegister (spec "a" 6)); Run 0 (env 0); Call (OpRegister (spec "b" 7)); Run 1 (env 0);
   Call (OpAcquire "a"); Run 2 (env 0); Run 2 (env 1); Release 0 9; Call (OpAcquire "b"); Run 3 (env 0)].

Definition rest : list (Label unit) := [Run 3 (env 0); Run 3 (env 0); Run 3 (env 2)].

(** Just before the eviction. *)
Definition before : option (Sys unit) := execs init (take 9 trace) (start budget tt).
Definition attempt (s : Sys unit) : @Attempt unit := acquire_attempt no_files 0 false "b" (reg s).

Definition evicting : option (Sys unit) := execs init trace (start budget tt).
Definition final : option (Sys unit) := execs init (trace ++ rest) (start budget tt).

Example trace_runs :
  (s ← evicting; Some (ram_used (reg s), ram_releasing (reg s), resident RAM s)) = Some (13, 6, 6) ∧
  (s ← final; Some (ram_used (reg s), ram_releasing (reg s), resident RAM s)) = Some (7, 0, 7).
Proof. vm_compute. by split. Qed.

Lemma trace_calm : all_calm init (trace ++ rest) (start budget tt).
Proof.
  apply all_calm_b_sound. vm_compute. reflexivity.
Qed.

End ModelsSample.

Lemma registry_within_budget_witness :
  ∃ s, ModelsSample.final = Some s ∧ limit RAM (budget (reg s)) = 10 ∧ resident RAM s ≤ limit RAM (budget (reg s)).
Proof.
  eexists. split; [vm_compute; reflexivity|]. split; [reflexivity|].
  apply (@registry_within_budget unit RefParser.parser ModelsSample.no_float ModelsSample.init
    (ModelsSample.trace ++ ModelsSample.rest) ModelsSample.budget tt _ RAM).
  - reflexivity.
  - intros []; vm_compute; discriminate.
  - exact ModelsSample.trace_calm.
  - vm_compute. reflexivity.
  - vm_compute. discriminate.
Defined.

Lemma lease_session_live_witness :
  ∃ s a e, ModelsSample.final = Some s ∧ entries (reg s) !! "b" = Some e ∧ e_session e = Some a ∧
    heap s !! a = Some (7, 0).
Proof.
  assert (Hf : ∃ s, ModelsSample.final = Some s ∧ mkLease (Some 2%nat) "b" (Some 102%nat) "b" ∈ lent s ∧
    ∀ a e, entries (reg s) !! "b" = Some e → heap s !! a = Some (e_ram e, e_vram e) → heap s !! a = Some (7, 0)).
  { eexists. split; [vm_compute; reflexivity|]. split; [left|]. intros a e [= <-]. done. }
  destruct Hf as (s & Hs & Hl & Hc).
  destruct (@lease_session_live unit RefParser.parser ModelsSample.no_float ModelsSample.init
    (ModelsSample.trace ++ ModelsSample.rest) ModelsSample.budget tt s _ Hs Hl)
    as (a & e & He & _ & _ & Ha & Hh & _).
  exists s, a, e. split; [exact Hs|]. split; [exact He|]. split; [exact Ha|]. exact (Hc a e He Hh).
Defined.

Lemma model_loaded_once_witness :
  ∃ s e, ModelsSample.evicting = Some s ∧ entries (reg s) !! "b" = Some e ∧ e_status e = Loading.
Proof.
  assert (Hs : ∃ s pc, ModelsSample.evicting = Some s ∧ threads s !! 3%nat = Some pc ∧ ("b", (7, 0)) ∈ loading_pc pc).
  { eexists _, _. split; [vm_compute; reflexivity|]. split; [reflexivity|]. left. }
  destruct Hs as (s & pc & Hs & Hi & Hn).
  destruct (@model_loaded_once unit RefParser.parser ModelsSample.no_float ModelsSample.init
    ModelsSample.trace ModelsSample.budget tt s 3%nat pc "b" (7, 0) Hs Hi Hn) as [(e & He & Hl & _) _].
  exists s, e. split; [exact Hs|]. split; [exact He|exact Hl].
Defined.

Lemma eviction_is_lru_witness :
  ∃ s st' victims kept, ModelsSample.before = Some s ∧
    ModelsSample.attempt s = Evict st' (doomed_of <$> victims) (mkEstimate 0 7 0) ∧
    evictable (reg s) (Some "b") = victims ++ kept ∧ length (victims ++ kept) = 1%nat.
Proof.
  assert (Hs : ∃ s st', ModelsSample.before = Some s ∧
    allow_overcommit (budget (reg s)) = false ∧
    ModelsSample.attempt s = Evict st' [mkDoomed (Some 1%nat) 6 0] (mkEstimate 0 7 0) ∧
    length (evictable (reg s) (Some "b")) = 1%nat).
  { eexists _, _. split; [vm_compute; reflexivity|]. split; [reflexivity|]. split; vm_compute; reflexivity. }
  destruct Hs as (s & st' & Hs & Hover & Ha & Hlen).
  destruct (@eviction_is_lru unit RefParser.parser ModelsSample.no_float ModelsSample.init
    (take 9 ModelsSample.trace) ModelsSample.budget tt s ModelsSample.no_files 0 false "b" st' _ _ Hs Hover Ha)
    as (victims & kept & He & Hd & _).
  exists s, st', victims, kept. rewrite <-He, <-Hd. split; [exact Hs|]. split; [exact Ha|]. split; [reflexivity|exact Hlen].
Defined.
