(* ===== verification/Chunker.v ===== *)
(** * Splitting text into chunks (src/core/rag/chunker.cpp)

    A text is a list of bytes and a chunk the view [(offset, length)] into it.
    The theorems: a chunk is never larger than asked for, starts and ends with
    a character that is no space, every such character of the text is in a
    chunk, consecutive chunks overlap by at most [overlap] bytes, the loop
    ends, and chunks of at least four bytes never cut a UTF-8 sequence; below
    four bytes they can. *)
From stdpp Require Import base list strings.
From Stdlib Require Import Lia NArith ZifyBool ZifyN ZifyNat.
From S2P Require Import Prelude Text.

(** ** Characters *)

Definition is_space_byte (b : N) : bool :=
  ((b =? 32) || (b =? 9) || (b =? 10) || (b =? 13) || (b =? 12) || (b =? 11))%N.

Section Chunker.
Context (t : list Ascii.ascii).

Definition space_at (i : nat) : bool := is_space_byte (byte_at t i).

(** [while (i < t.size() && is_space(t\[i\])) ++i]; [n] bytes are left. *)
Fixpoint skip_from (n i : nat) : nat :=
  match n with
  | O => i
  | S n' => if space_at i then skip_from n' (S i) else i
  end.

Definition skip_space (i : nat) : nat := skip_from (length t - i) i.

(** ** Boundaries *)

(** [while (j > start && blank(t\[j\])) --j]. *)
Fixpoint skip_blanks_back (start j : nat) : nat :=
  match j with
  | O => O
  | S j' =>
      if Nat.ltb start j && ((byte_at t j =? 32) || (byte_at t j =? 9) || (byte_at t j =? 13))%N
      then skip_blanks_back start j' else j
  end.

Definition paragraph_break (start b : nat) : bool :=
  if negb (byte_at t (b - 1) =? 10)%N || Nat.ltb b (start + 2) then false
  else (byte_at t (skip_blanks_back start (b - 2)) =? 10)%N.

Definition line_break (start b : nat) : bool := (byte_at t (b - 1) =? 10)%N.

Definition sentence_break (start b : nat) : bool :=
  Nat.leb (start + 2) b && space_at (b - 1) &&
  ((byte_at t (b - 2) =? 46) || (byte_at t (b - 2) =? 33) || (byte_at t (b - 2) =? 63))%N.

Definition word_break (start b : nat) : bool := space_at (b - 1) || space_at b.

Definition kBreaks : list (nat → nat → bool) := [paragraph_break; line_break; sentence_break; word_break].

(** [for (b = hi; b > lo; --b) if (is_break(t, start, b)) return b]. *)
Fixpoint search_back (is_break : nat → bool) (lo b : nat) : option nat :=
  match b with
  | O => None
  | S b' => if Nat.leb b lo then None else if is_break b then Some b else search_back is_break lo b'
  end.

Fixpoint first_break (breaks : list (nat → nat → bool)) (start lo hi : nat) : option nat :=
  match breaks with
  | [] => None
  | is_break :: rest =>
      match search_back (is_break start) lo hi with Some b => Some b | None => first_break rest start lo hi end
  end.

(** [while (b > start + 1 && is_utf8_continuation(t\[b\])) --b]. *)
Fixpoint cut_back (start b : nat) : nat :=
  match b with
  | O => O
  | S b' => if Nat.ltb (start + 1) b && is_continuation (byte_at t b) then cut_back start b' else b
  end.

Definition find_break (start hi : nat) : nat :=
  match first_break kBreaks start (start + (hi - start) / 2) hi with
  | Some b => b
  | None => cut_back start hi
  end.

(** ** Views *)

(** [while (end > begin && is_space(t\[end - 1\])) --end]. *)
Fixpoint trim_back (b e : nat) : nat :=
  match e with
  | O => O
  | S e' => if Nat.ltb b e && space_at e' then trim_back b e' else e
  end.

(** [while (begin < end && is_space(t\[begin\])) ++begin]; [n = end - begin]. *)
Definition trimmed (b e : nat) : nat * nat :=
  let b' := skip_from (e - b) b in
  (b', trim_back b' e - b').

Definition push_chunk (c : nat * nat) (chunks : list (nat * nat)) : list (nat * nat) :=
  if Nat.eqb c.2 0 then chunks else c :: chunks.

(** [while (back < end && !is_space(text\[back - 1\])) ++back]; [n = end - back]. *)
Fixpoint word_start (n back : nat) : nat :=
  match n with
  | O => back
  | S n' => if space_at (back - 1) then back else word_start n' (S back)
  end.

Definition next_start (overlap pos e : nat) : nat :=
  if Nat.eqb overlap 0 then e
  else
    let back := if Nat.ltb overlap e then e - overlap else 0 in
    let back := if Nat.leb back pos then pos + 1 else back in
    word_start (e - back) back.

(** The main loop; [None] when the fuel runs out. *)
Fixpoint chunk_loop (fuel size overlap pos : nat) : option (list (nat * nat)) :=
  match fuel with
  | O => None
  | S fuel' =>
      if Nat.leb (length t) pos then Some []
      else if Nat.leb (length t - pos) size then Some (push_chunk (trimmed pos (length t)) [])
      else
        let e := find_break pos (pos + size) in
        push_chunk (trimmed pos e) <$> chunk_loop fuel' size overlap (skip_space (next_start overlap pos e))
  end.

End Chunker.

Record ChunkOptions := mkChunkOptions { chunk_size : nat; chunk_overlap : nat }.

(** [S (length text)] rounds are enough ([chunk_text_total]). *)
Definition chunk_text (text : string) (options : ChunkOptions) : option (Result (list (nat * nat))) :=
  if Nat.eqb (chunk_size options) 0 then Some (fail InvalidConfig "chunk_text: size must be > 0.")
  else if Nat.leb (chunk_size options) (chunk_overlap options) then
    Some (fail InvalidConfig "chunk_text: overlap must be smaller than size.")
  else
    let t := bytes text in
    Ok <$> chunk_loop t (S (length t)) (chunk_size options) (chunk_overlap options) (skip_space t 0).

(** The characters of a view. *)
Definition view (t : list Ascii.ascii) (c : nat * nat) : list Ascii.ascii := take c.2 (drop c.1 t).

Example chunk_words :
  chunk_text "one two  three. four" (mkChunkOptions 9 3) = Some (Ok [(0, 7); (9, 6); (16, 4)]).
Proof. vm_compute. reflexivity. Qed.

(** ** The pieces of the loop *)

Section Pieces.
Context (t : list Ascii.ascii).

Lemma skip_from_spec n i :
  i ≤ skip_from t n i ≤ i + n ∧ (∀ j, i ≤ j < skip_from t n i → space_at t j = true) ∧
  (skip_from t n i < i + n → space_at t (skip_from t n i) = false).
Proof.
  revert i. induction n as [|n IH]; intros i; cbn [skip_from]; [split_and!; intros; lia|].
  destruct (space_at t i) eqn:E; [|split_and!; intros; [lia|lia|lia|done]].
  destruct (IH (S i)) as (? & Hs & Hl). split_and!; [lia|lia| |intros; apply Hl; lia].
  intros j Hj. destruct (decide (j = i)) as [->|]; [done|]. apply Hs. lia.
Qed.

Lemma skip_space_spec i :
  i ≤ length t → i ≤ skip_space t i ≤ length t ∧ (∀ j, i ≤ j < skip_space t i → space_at t j = true) ∧
  (skip_space t i < length t → space_at t (skip_space t i) = false).
Proof.
  intros Hi. unfold skip_space. destruct (skip_from_spec (length t - i) i) as (? & Hs & Hl).
  split_and!; [lia|lia|done|intros; apply Hl; lia].
Qed.

Lemma trim_back_spec b e :
  b ≤ e → b ≤ trim_back t b e ≤ e ∧ (∀ j, trim_back t b e ≤ j < e → space_at t j = true) ∧
  (b < trim_back t b e → space_at t (trim_back t b e - 1) = false).
Proof.
  induction e as [|e IH]; intros Hb; cbn [trim_back]; [split_and!; intros; lia|].
  destruct (Nat.ltb_spec b (S e)); cbn [andb]; [|split_and!; intros; lia].
  destruct (space_at t e) eqn:E; [|split_and!; intros; [lia|lia|lia|by rewrite Nat.sub_1_r]].
  destruct IH as (? & Hs & Hl); [lia|]. split_and!; [lia|lia| |done].
  intros j Hj. destruct (decide (j = e)) as [->|]; [done|]. apply Hs. lia.
Qed.

(** A trimmed view starting at a character that is no space. *)
Lemma trimmed_spec b e :
  b < e → space_at t b = false →
  (trimmed t b e).1 = b ∧ 0 < (trimmed t b e).2 ≤ e - b ∧
  space_at t (b + (trimmed t b e).2 - 1) = false ∧
  (∀ j, b + (trimmed t b e).2 ≤ j < e → space_at t j = true).
Proof.
  intros Hb Hs. unfold trimmed. assert (Es : skip_from t (e - b) b = b).
  { destruct (e - b); [done|]. cbn. by rewrite Hs. }
  rewrite Es. cbn [fst snd]. destruct (trim_back_spec b e) as (? & Hsp & Hl); [lia|].
  assert (Hlt : b < trim_back t b e).
  { destruct (decide (trim_back t b e = b)) as [E|]; [|lia]. specialize (Hsp b ltac:(lia)). congruence. }
  split_and!; [done|lia|lia| |intros; apply Hsp; lia].
  replace (b + _ - 1) with (trim_back t b e - 1) by lia. auto.
Qed.

Lemma search_back_spec p lo b r : search_back p lo b = Some r → lo < r ≤ b ∧ p r = true.
Proof.
  induction b as [|b IH]; cbn [search_back]; [done|]. destruct (Nat.leb_spec (S b) lo); [done|].
  destruct (p (S b)) eqn:E; [intros [= <-]; split; [lia|done]|]. intros Hr. destruct (IH Hr). split; [lia|done].
Qed.

Lemma first_break_spec breaks start lo hi r :
  first_break breaks start lo hi = Some r → lo < r ≤ hi ∧ ∃ p, p ∈ breaks ∧ p start r = true.
Proof.
  induction breaks as [|p breaks IH]; cbn [first_break]; [done|].
  destruct (search_back (p start) lo hi) as [b|] eqn:E.
  - intros [= <-]. destruct (search_back_spec _ _ _ _ E). split; [done|]. exists p. split; [left|done].
  - intros Hr. destruct (IH Hr) as (? & q & ? & ?). split; [done|]. exists q. split; [by right|done].
Qed.

Lemma cut_back_spec start b :
  start < b → start < cut_back t start b ≤ b ∧
  (start + 1 < cut_back t start b → is_continuation (byte_at t (cut_back t start b)) = false) ∧
  (∀ j, cut_back t start b < j ≤ b → is_continuation (byte_at t j) = true).
Proof.
  induction b as [|b IH]; intros Hb; cbn [cut_back]; [lia|].
  destruct (Nat.ltb_spec (start + 1) (S b)); cbn [andb]; [|split_and!; intros; lia].
  destruct (is_continuation (byte_at t (S b))) eqn:E; [|split_and!; intros; [lia|lia|done|lia]].
  destruct IH as (? & Hc & Hall); [lia|]. split_and!; [lia|lia|done|].
  intros j Hj. destruct (decide (j = S b)) as [->|]; [done|]. apply Hall. lia.
Qed.

Lemma find_break_spec start hi : start < hi → start < find_break t start hi ≤ hi.
Proof.
  intros Hh. unfold find_break. destruct (first_break _ _ _ _) as [b|] eqn:E.
  - destruct (first_break_spec _ _ _ _ _ E). pose proof (Nat.le_0_l ((hi - start) / 2)). lia.
  - destruct (cut_back_spec start hi Hh). lia.
Qed.

Lemma word_start_spec n back :
  back ≤ word_start t n back ≤ back + n ∧
  (word_start t n back < back + n → space_at t (word_start t n back - 1) = true).
Proof.
  revert back. induction n as [|n IH]; intros back; cbn [word_start]; [lia|].
  destruct (space_at t (back - 1)) eqn:E; [split; [lia|done]|].
  destruct (IH (S back)) as (? & Hw). split; [lia|]. intros. apply Hw. lia.
Qed.

Lemma next_start_spec overlap pos e :
  pos < e → pos < next_start t overlap pos e ≤ e ∧ e ≤ next_start t overlap pos e + overlap ∧
  (next_start t overlap pos e < e → space_at t (next_start t overlap pos e - 1) = true).
Proof.
  intros Hp. unfold next_start. destruct (Nat.eqb_spec overlap 0); [split_and!; intros; lia|].
  set (back := if Nat.leb _ pos then pos + 1 else _).
  assert (Hb : pos < back ≤ e ∧ e ≤ back + overlap).
  { unfold back. destruct (Nat.ltb_spec overlap e); [destruct (Nat.leb_spec (e - overlap) pos)|destruct (Nat.leb_spec 0 pos)]; lia. }
  destruct (word_start_spec (e - back) back) as (? & Hw). split_and!; [lia|lia|lia|]. intros. apply Hw. lia.
Qed.

End Pieces.

(** ** The loop *)

Section Loop.
Context (t : list Ascii.ascii) (size overlap : nat) (Hsize : 0 < size).

(** What the chunks of the text from [pos] on promise. *)
Record chunks_ok (pos : nat) (chunks : list (nat * nat)) : Prop := {
  c_fit : ∀ b n, (b, n) ∈ chunks →
    pos ≤ b ∧ 0 < n ≤ size ∧ b + n ≤ length t ∧ space_at t b = false ∧ space_at t (b + n - 1) = false;
  c_cover : ∀ i, pos ≤ i < length t → space_at t i = false → ∃ b n, (b, n) ∈ chunks ∧ b ≤ i < b + n;
  c_order : ∀ k b n b' n', chunks !! k = Some (b, n) → chunks !! S k = Some (b', n') → b < b' ∧ b + n ≤ b' + overlap
}.

Lemma last_chunk_ok pos :
  pos < length t → length t - pos ≤ size → space_at t pos = false →
  chunks_ok pos [trimmed t pos (length t)].
Proof.
  intros Hp Hs Hsp. destruct (trimmed_spec t pos (length t) Hp Hsp) as (E1 & Hn & Hl & Hr).
  destruct (trimmed t pos (length t)) as [b n]. cbn [fst snd] in *. subst b. split.
  - intros b n' [= -> ->]%list_elem_of_singleton. split_and!; lia || done.
  - intros i Hi Hns. exists pos, n. split; [left|]. split; [lia|].
    destruct (decide (i < pos + n)); [done|]. specialize (Hr i ltac:(lia)). congruence.
  - by intros [|k].
Qed.

Lemma next_chunk_ok pos e pos' chunks :
  pos < e ≤ pos + size → e ≤ length t → space_at t pos = false →
  pos < pos' → e ≤ pos' + overlap → (∀ j, e ≤ j < pos' → space_at t j = true) → chunks_ok pos' chunks →
  chunks_ok pos (trimmed t pos e :: chunks).
Proof.
  intros He Hl Hsp Hp Ho Hgap [Hfit Hcov Hord].
  destruct (trimmed_spec t pos e ltac:(lia) Hsp) as (E1 & Hn & Hlast & Hr).
  destruct (trimmed t pos e) as [b n]. cbn [fst snd] in *. subst b. split.
  - intros b n' [[= -> ->]|Hin]%elem_of_cons; [split_and!; lia || done|].
    destruct (Hfit _ _ Hin) as (? & ?). split_and!; [lia|naive_solver..].
  - intros i Hi Hns. destruct (decide (i < pos + n)); [exists pos, n; split; [left|lia]|].
    assert (pos' ≤ i).
    { destruct (decide (pos' ≤ i)); [done|]. destruct (decide (i < e)).
      - specialize (Hr i ltac:(lia)). congruence.
      - specialize (Hgap i ltac:(lia)). congruence. }
    destruct (Hcov i ltac:(lia) Hns) as (b & m & Hin & ?). exists b, m. split; [by right|done].
  - intros [|k] b m b' m'; cbn.
    + intros [= <- <-] Hk. assert (Hin : (b', m') ∈ chunks) by (by eapply list_elem_of_lookup_2).
      destruct (Hfit _ _ Hin) as (? & ?). lia.
    + intros Hk Hk'. by eapply Hord.
Qed.

Lemma chunk_loop_ok fuel pos :
  length t - pos < fuel → pos ≤ length t → (pos < length t → space_at t pos = false) →
  ∃ chunks, chunk_loop t fuel size overlap pos = Some chunks ∧ chunks_ok pos chunks.
Proof using Hsize.
  revert pos. induction fuel as [|fuel IH]; intros pos Hf Hp Hsp; [lia|]. cbn [chunk_loop].
  destruct (Nat.leb_spec (length t) pos).
  { exists []. split; [done|]. split; [by intros b n ?%elem_of_nil|intros; lia|done]. }
  specialize (Hsp ltac:(lia)). unfold push_chunk. destruct (Nat.leb_spec (length t - pos) size).
  - destruct (trimmed_spec t pos (length t) ltac:(lia) Hsp) as (_ & Hn & _).
    rewrite (proj2 (Nat.eqb_neq _ 0)) by lia. eexists. split; [done|]. by apply last_chunk_ok.
  - pose proof (find_break_spec t pos (pos + size) ltac:(lia)) as He. set (e := find_break t pos (pos + size)) in *.
    destruct (next_start_spec t overlap pos e ltac:(lia)) as (Hn & Ho & _). set (n := next_start t overlap pos e) in *.
    destruct (skip_space_spec t n ltac:(lia)) as (Hs & Hgap & Hns).
    destruct (IH (skip_space t n)) as (chunks & -> & Hok); [lia|lia|done|].
    destruct (trimmed_spec t pos e ltac:(lia) Hsp) as (_ & Hlen & _). cbn [fmap option_fmap option_map].
    rewrite (proj2 (Nat.eqb_neq _ 0)) by lia. eexists. split; [done|].
    apply (next_chunk_ok pos e (skip_space t n)); try done; try lia. intros j Hj. apply Hgap. lia.
Qed.

End Loop.

(** The fuel of [chunk_text] is always enough. *)
Lemma chunk_text_total (text : string) (options : ChunkOptions) : ∃ r, chunk_text text options = Some r.
Proof.
  unfold chunk_text. destruct (Nat.eqb_spec (chunk_size options) 0); [eauto|]. destruct (Nat.leb _ _); [eauto|].
  destruct (skip_space_spec (bytes text) 0 ltac:(lia)) as (Hp & Hgap & Hns).
  destruct (chunk_loop_ok (bytes text) (chunk_size options) (chunk_overlap options) ltac:(lia)
    (S (length (bytes text))) (skip_space (bytes text) 0)) as (chunks & -> & Hok); [lia|lia|done|]. cbn. eauto.
Qed.

(** C39. [chunk_text] is total and does what it promises: it refuses an empty size
    and an overlap that is not smaller, and otherwise returns views of at most
    [size] bytes that start and end with a character that is no space, cover
    every such character of the text, come in order of their offset and
    overlap by at most [overlap] bytes. *)
Theorem chunk_text_correct (text : string) (options : ChunkOptions) :
  if Nat.eqb (chunk_size options) 0 || Nat.leb (chunk_size options) (chunk_overlap options) then
    ∃ msg, chunk_text text options = Some (fail InvalidConfig msg)
  else
    ∃ chunks, chunk_text text options = Some (Ok chunks) ∧
      chunks_ok (bytes text) (chunk_size options) (chunk_overlap options) 0 chunks.
Proof.
  unfold chunk_text. destruct (Nat.eqb_spec (chunk_size options) 0); cbn [orb]; [eauto|].
  destruct (Nat.leb _ _); [eauto|].
  destruct (skip_space_spec (bytes text) 0 ltac:(lia)) as (Hp & Hgap & Hns).
  destruct (chunk_loop_ok (bytes text) (chunk_size options) (chunk_overlap options) ltac:(lia)
    (S (length (bytes text))) (skip_space (bytes text) 0)) as (chunks & -> & Hok); [lia|lia|done|].
  exists chunks. split; [done|]. destruct Hok as [Hfit Hcov Hord]. split; [|..|done].
  - intros b m Hin. destruct (Hfit _ _ Hin) as (? & ?). split_and!; [lia|naive_solver..].
  - intros i Hi Hsp. apply Hcov; [|done]. destruct (decide (skip_space (bytes text) 0 ≤ i)); [lia|].
    specialize (Hgap i ltac:(lia)). congruence.
Qed.

(** ** UTF-8 *)

(** A position that does not cut a sequence. *)
Definition boundary (t : list Ascii.ascii) (i : nat) : Prop := i ≤ length t ∧ valid_utf8 (take i t) ∧ valid_utf8 (drop i t).

Lemma boundary_end (t : list Ascii.ascii) : valid_utf8 t → boundary t (length t).
Proof. intros Ht. split; [lia|]. rewrite take_ge, drop_ge by lia. split; [done|constructor]. Qed.

Lemma no_continuation_boundary (t : list Ascii.ascii) i :
  valid_utf8 t → i < length t → is_continuation (byte_at t i) = false → boundary t i.
Proof.
  intros Ht. revert i. induction Ht as [|q s Hq Hs IH]; intros i Hi Hc; [cbn in Hi; lia|].
  destruct (decide (length q ≤ i)) as [Hge|Hlt].
  - rewrite length_app in Hi. destruct (IH (i - length q)) as (? & Ht1 & Ht2); [lia| |].
    { rewrite <-Hc. f_equal. by replace i with (length q + (i - length q)) at 2 by lia; rewrite byte_at_app_r. }
    split; [rewrite length_app; lia|]. rewrite take_app_ge, drop_app_ge by lia. split; [by constructor|done].
  - destruct i as [|i]; [split; [lia|]; split; [constructor|by constructor]|]. exfalso.
    destruct (lookup_lt_is_Some_2 q (S i)) as [c Hq']; [lia|].
    assert (Hb : byte_at (q ++ s) (S i) = byte_of c) by (unfold byte_at; by rewrite lookup_app_l, Hq' by lia).
    rewrite Hb in Hc. assert (is_continuation (byte_of c) = true); [|congruence].
    apply is_continuation_spec. eapply (wf_seq_tail _ i); [exact Hq|]. by rewrite list_lookup_fmap, Hq'.
Qed.

Lemma boundary_no_continuation (t : list Ascii.ascii) i :
  i < length t → boundary t i → is_continuation (byte_at t i) = false.
Proof.
  intros Hi (_ & _ & Hd). destruct (is_continuation (byte_at t i)) eqn:E; [|done]. exfalso.
  rewrite <-(Nat.add_0_r i), <-byte_at_drop in E. assert (Hne : drop i t ≠ []).
  { intros Hn. apply (f_equal length) in Hn. rewrite length_drop in Hn. cbn in Hn. lia. }
  destruct Hd as [|q s Hq _]; [done|]. pose proof (wf_seq_length _ Hq) as Hlen. rewrite length_fmap in Hlen.
  destruct q as [|c q]; [cbn in Hlen; lia|]. change (byte_at ((c :: q) ++ s) 0) with (byte_of c) in E.
  apply is_continuation_spec in E. by eapply (wf_seq_head _ (byte_of c)).
Qed.

(** A sequence starts at every boundary and ends within four bytes. *)
Lemma boundary_next (t : list Ascii.ascii) i :
  i < length t → boundary t i → ∃ n, 1 ≤ n ≤ 4 ∧ boundary t (i + n).
Proof.
  intros Hi (_ & Ht & Hd). remember (drop i t) as r eqn:Er. destruct Hd as [|q s Hq Hs].
  { apply (f_equal length) in Er. rewrite length_drop in Er. cbn in Er. lia. }
  pose proof (wf_seq_length _ Hq) as Hlen. rewrite length_fmap in Hlen. exists (length q). split; [done|].
  assert (Et : t = take i t ++ q ++ s) by (by rewrite Er, take_drop).
  assert (Hl : length (take i t) = i) by (rewrite length_take; lia).
  split.
  - apply (f_equal length) in Et. rewrite !length_app, Hl in Et. lia.
  - rewrite Et, app_assoc. assert (El : i + length q = length (take i t ++ q)) by (rewrite length_app; lia).
    rewrite El, take_app_length, drop_app_length. split; [|done]. apply valid_app; [done|by apply valid_one].
Qed.

Lemma space_below i (t : list Ascii.ascii) :
  space_at t i = true → i < length t ∧ is_continuation (byte_at t i) = false.
Proof.
  unfold space_at, byte_at. destruct (t !! i) as [c|] eqn:E; [|done]. intros Hs. split; [by eapply lookup_lt_Some|].
  destruct (is_continuation (byte_of c)) eqn:Ec; [|done]. apply is_continuation_spec in Ec. unfold cont in Ec.
  unfold is_space_byte in Hs. lia.
Qed.

Section Utf8.
Context (t : list Ascii.ascii) (Ht : valid_utf8 t).

Lemma space_boundary i : space_at t i = true → boundary t i ∧ boundary t (S i).
Proof using Ht.
  intros Hs. destruct (space_below _ _ Hs) as [Hi Hc].
  assert (Hb : boundary t i) by by apply no_continuation_boundary. split; [done|].
  destruct Hb as (_ & Hb1 & Hb2). remember (drop i t) as r eqn:Er. destruct Hb2 as [|q s Hq Hs'].
  { apply (f_equal length) in Er. rewrite length_drop in Er. cbn in Er. lia. }
  assert (Hhd : ∃ c, q !! 0 = Some c ∧ t !! i = Some c).
  { pose proof (wf_seq_length _ Hq) as Hlen. rewrite length_fmap in Hlen. destruct q as [|c q]; [cbn in Hlen; lia|].
    exists c. split; [done|]. by rewrite <-(Nat.add_0_r i), <-lookup_drop, <-Er. }
  destruct Hhd as (c & Hc0 & Hci). unfold space_at, byte_at in Hs. rewrite Hci in Hs.
  assert (Hone : length q = 1).
  { destruct q as [|c' q]; [done|]. cbn in Hc0. injection Hc0 as ->. cbn in Hq. unfold is_space_byte in Hs.
    destruct q; [done|]. exfalso. inversion Hq; subst; lia. }
  assert (Et : t = take i t ++ q ++ s) by (by rewrite Er, take_drop).
  assert (El : S i = length (take i t ++ q)) by (rewrite length_app, length_take; lia).
  split; [lia|]. rewrite Et, app_assoc. rewrite El, take_app_length, drop_app_length.
  split; [|done]. apply valid_app; [done|by apply valid_one].
Qed.

(** From a boundary, skipping spaces leads to a boundary. *)
Lemma skip_boundary n i : boundary t i → boundary t (skip_from t n i).
Proof using Ht.
  revert i. induction n as [|n IH]; intros i Hi; cbn [skip_from]; [done|].
  destruct (space_at t i) eqn:E; [|done]. apply IH. by apply space_boundary.
Qed.

Lemma trim_boundary b e : boundary t e → boundary t (trim_back t b e).
Proof using Ht.
  induction e as [|e IH]; intros He; cbn [trim_back]; [done|].
  destruct (Nat.ltb b (S e) && space_at t e) eqn:E; [|done].
  apply andb_true_iff in E as [_ E]. apply IH. by apply space_boundary.
Qed.

Lemma break_boundary p start b : p ∈ kBreaks t → p start b = true → 0 < b → boundary t b.
Proof using Ht.
  intros Hp Hb Hpos.
  assert (Hor : space_at t (b - 1) = true ∨ space_at t b = true).
  { assert (Hnl : ∀ i, byte_at t i = 10%N → space_at t i = true).
    { intros i E. unfold space_at. by rewrite E. }
    unfold kBreaks in Hp. rewrite !elem_of_cons in Hp. destruct Hp as [->|[->|[->|[->|Hp]]]]; [..|by apply elem_of_nil in Hp].
    - left. apply Hnl. unfold paragraph_break in Hb. destruct (N.eqb_spec (byte_at t (b - 1)) 10); done.
    - left. apply Hnl. by apply N.eqb_eq.
    - left. unfold sentence_break in Hb. by repeat apply andb_true_iff in Hb as [Hb ?].
    - by apply orb_true_iff in Hb. }
  destruct Hor as [Hs|Hs]; [|by apply space_boundary].
  replace b with (S (b - 1)) by lia. by apply space_boundary.
Qed.

Lemma find_break_boundary start hi :
  boundary t start → start + 4 ≤ hi < length t → boundary t (find_break t start hi).
Proof using Ht.
  intros Hb Hh. unfold find_break. destruct (first_break _ _ _ _) as [b|] eqn:E.
  - destruct (first_break_spec _ _ _ _ _ E) as (? & p & Hp & Hpb). eapply break_boundary; [done|done|lia].
  - destruct (cut_back_spec t start hi ltac:(lia)) as (Hr & Hstop & Hall). set (c := cut_back t start hi) in *.
    destruct (decide (start + 1 < c)).
    + apply no_continuation_boundary; [done|lia|auto].
    + destruct (boundary_next t start ltac:(lia) Hb) as (m & Hm & Hbm).
      destruct (decide (m = 1)) as [->|]; [by replace c with (start + 1) by lia|]. exfalso.
      pose proof (boundary_no_continuation t (start + m) ltac:(lia) Hbm) as Hnc.
      specialize (Hall (start + m) ltac:(lia)). congruence.
Qed.

Lemma view_valid b n : boundary t b → boundary t (b + n) → valid_utf8 (view t (b, n)).
Proof.
  intros (_ & _ & Hb) Hn. unfold view. cbn [fst snd].
  destruct (decide (b + n < length t)).
  - apply (no_continuation_boundary (drop b t) n Hb); [rewrite length_drop; lia|].
    rewrite byte_at_drop. by apply boundary_no_continuation.
  - by rewrite take_ge by (rewrite length_drop; lia).
Qed.

Lemma trimmed_valid b e : boundary t b → boundary t e → b ≤ e → valid_utf8 (view t (trimmed t b e)).
Proof using Ht.
  intros Hb He Hle. unfold trimmed. destruct (skip_from_spec t (e - b) b) as (Hr & _).
  destruct (trim_back_spec t (skip_from t (e - b) b) e ltac:(lia)) as (Hr' & _).
  apply view_valid; [by apply skip_boundary|].
  replace (_ + _) with (trim_back t (skip_from t (e - b) b) e) by lia. by apply trim_boundary.
Qed.

Lemma next_boundary overlap pos e : pos < e → boundary t e → boundary t (next_start t overlap pos e).
Proof using Ht.
  intros Hp He. destruct (next_start_spec t overlap pos e Hp) as (Hr & _ & Hs).
  destruct (decide (next_start t overlap pos e < e)) as [Hlt|].
  - specialize (Hs Hlt). replace (next_start t overlap pos e) with (S (next_start t overlap pos e - 1)) by lia.
    by apply space_boundary.
  - by replace (next_start t overlap pos e) with e by lia.
Qed.

Lemma push_valid c chunks :
  valid_utf8 (view t c) → Forall (λ c, valid_utf8 (view t c)) chunks → Forall (λ c, valid_utf8 (view t c)) (push_chunk c chunks).
Proof. intros. unfold push_chunk. destruct (Nat.eqb _ 0); [done|by constructor]. Qed.

Lemma chunk_loop_valid fuel size overlap pos chunks :
  4 ≤ size → boundary t pos → chunk_loop t fuel size overlap pos = Some chunks →
  Forall (λ c, valid_utf8 (view t c)) chunks.
Proof using Ht.
  intros Hs. revert pos chunks. induction fuel as [|fuel IH]; intros pos chunks Hb; cbn [chunk_loop]; [done|].
  destruct (Nat.leb_spec (length t) pos); [by intros [= <-]|].
  destruct (Nat.leb_spec (length t - pos) size).
  - intros [= <-]. apply push_valid; [|done]. apply trimmed_valid; [done|by apply boundary_end|lia].
  - pose proof (find_break_spec t pos (pos + size) ltac:(lia)) as He.
    pose proof (find_break_boundary pos (pos + size) Hb ltac:(lia)) as Hbe.
    set (e := find_break t pos (pos + size)) in *.
    destruct (chunk_loop _ _ _ _ _) as [rest|] eqn:El; [|done]. intros [= <-].
    apply push_valid; [apply trimmed_valid; [done|done|lia]|].
    eapply IH; [|exact El]. unfold skip_space. apply skip_boundary. apply next_boundary; [lia|done].
Qed.

End Utf8.

(** With chunks of at least four bytes, [chunk_text] never cuts a UTF-8
    sequence: every chunk of a well-formed text is well-formed. *)
Theorem chunk_text_keeps_utf8 (text : string) (options : ChunkOptions) (chunks : list (nat * nat)) :
  4 ≤ chunk_size options → valid_utf8 (bytes text) → chunk_text text options = Some (Ok chunks) →
  Forall (λ c, valid_utf8 (view (bytes text) c)) chunks.
Proof.
  intros Hs Ht. unfold chunk_text. destruct (Nat.eqb_spec (chunk_size options) 0); [lia|].
  destruct (Nat.leb _ _); [done|].
  destruct (chunk_loop _ _ _ _ _) as [l|] eqn:E; [|done]. intros [= <-].
  eapply chunk_loop_valid; [done|exact Hs| |exact E]. apply skip_boundary; [done|].
  split; [lia|]. split; [constructor|done].
Qed.

(** "é" is two bytes: with chunks of one byte it is cut in two. *)
Example tiny_chunks_split_utf8 :
  chunk_text (of_bytes [Ascii.ascii_of_N 195; Ascii.ascii_of_N 169]) (mkChunkOptions 1 0) = Some (Ok [(0, 1); (1, 1)]).
Proof. vm_compute. reflexivity. Qed.

(** Four two-byte characters in chunks of at most five bytes. *)
Definition accents : string := of_bytes (concat (replicate 4 [Ascii.ascii_of_N 195; Ascii.ascii_of_N 169])).

Lemma chunk_text_keeps_utf8_witness :
  chunk_text accents (mkChunkOptions 5 0) = Some (Ok [(0, 4); (4, 4)]) ∧
  Forall (λ c, valid_utf8 (view (bytes accents) c)) [(0, 4); (4, 4)].
Proof.
  assert (Hr : chunk_text accents (mkChunkOptions 5 0) = Some (Ok [(0, 4); (4, 4)])) by (vm_compute; reflexivity).
  split; [exact Hr|].
  apply (chunk_text_keeps_utf8 accents (mkChunkOptions 5 0)); [vm_compute; lia| |exact Hr].
  unfold accents. rewrite bytes_of_bytes.
  do 4 (apply (valid_cons [Ascii.ascii_of_N 195; Ascii.ascii_of_N 169]);
    [apply wf_2; [|unfold cont]; vm_compute; split; discriminate|]). apply valid_nil.
Defined.
