(* ===== verification/VectorStore.v ===== *)
(** * The in-memory vector store (src/core/rag/in_memory_vector_store.cpp)

    Brute-force cosine similarity over unit vectors.  A [float] is an IEEE 754
    binary32 number and a [double] a binary64 one, both as [spec_float] of the
    Standard Library; every operation rounds as the hardware does.  The store
    keeps the vectors in one array, row after row, and an index from ids to
    rows; erasing moves the last row into the hole.  The theorems: the store
    implements a finite map from ids to texts, metadata and unit vectors, and
    a query returns the best matches, best first, earlier rows first among
    equals. *)
From stdpp Require Import base gmap strings list sorting.
From Stdlib Require Import Lia ZArith SpecFloat.
From S2P Require Import Prelude.

(** ** Floating point *)

Definition float := spec_float.
Definition double := spec_float.

Definition f32_mul (x y : float) : float := SFmul 24 128 x y.
Definition f32_add (x y : float) : float := SFadd 24 128 x y.
Definition f32_zero : float := S754_zero false.

(** [static_cast<double>] of a float is exact; [static_cast<float>] rounds. *)
Definition to_double (x : float) : double := x.
Definition to_float (x : double) : float :=
  match x with S754_finite s m e => binary_round 24 128 s m e | _ => x end.

Definition f64_mul (x y : double) : double := SFmul 53 1024 x y.
Definition f64_add (x y : double) : double := SFadd 53 1024 x y.
Definition f64_div (x y : double) : double := SFdiv 53 1024 x y.
Definition f64_sqrt (x : double) : double := SFsqrt 53 1024 x.
Definition f64_one : double := binary_round 53 1024 false 1 0.

Definition is_finite (x : float) : bool := match x with S754_zero _ | S754_finite _ _ _ => true | _ => false end.

Definition f_gt (x y : float) : bool := SFltb y x.
Definition f_eq (x y : float) : bool := SFeqb x y.

(** src/core/rag/engine_tasks.cpp *)
Definition l2_normalize (v : list float) : list float :=
  let sum := foldl (λ s x, f64_add s (f64_mul (to_double x) (to_double x))) f32_zero v in
  if SFleb sum f32_zero then v
  else let inv := to_float (f64_div f64_one (f64_sqrt sum)) in (λ x, f32_mul x inv) <$> v.

(** ** The store *)

Record VectorStoreConfig := mkVectorStoreConfig { vs_path : string; vs_name : string; vs_dimensions : Z }.

Record VectorHit := mkVectorHit { hit_id : string; hit_text : string; hit_metadata : string; hit_score : float }.

Record VecEntry := mkVecEntry { ve_id : string; ve_text : string; ve_metadata : string }.

Record InMemoryVectorState := mkVectorState {
  dims : nat;
  rows : list VecEntry;
  vectors : list float;
  by_id : gmap string nat
}.

Definition mem_open (config : VectorStoreConfig) : Result InMemoryVectorState :=
  if (vs_dimensions config <=? 0)%Z then fail InvalidConfig "vector store: dimensions must be > 0."
  else Ok (mkVectorState (Z.to_nat (vs_dimensions config)) [] [] ∅).

Definition check_dims (s : InMemoryVectorState) (v : list float) : Result unit :=
  if negb (Nat.eqb (length v) (dims s)) then
    fail InvalidConfig ("vector store: embedding has " +:+ to_string (Z.of_nat (length v)) +:+
                        " dimensions, the store " +:+ to_string (Z.of_nat (dims s)) +:+ ".")
  else if forallb is_finite v then Ok tt
  else fail InvalidConfig "vector store: embedding contains a non-finite value.".

(** The [dims] floats of a row, and writing them. *)
Definition row (s : InMemoryVectorState) (i : nat) : list float := take (dims s) (drop (i * dims s) (vectors s)).

Definition write_row (n : nat) (vs : list float) (i : nat) (v : list float) : list float :=
  take (i * n) vs ++ v ++ drop (i * n + n) vs.

Definition mem_upsert (s : InMemoryVectorState) (id text : string) (embedding : list float) (metadata : string) :
    InMemoryVectorState * Result unit :=
  match check_dims s embedding with
  | Fail e => (s, Fail e)
  | Ok _ =>
      if is_empty id then (s, fail InvalidConfig "vector store: id must not be empty.")
      else
        let v := l2_normalize embedding in
        match by_id s !! id with
        | Some i =>
            (mkVectorState (dims s)
               (alter (λ e, mkVecEntry (ve_id e) text metadata) i (rows s))
               (write_row (dims s) (vectors s) i v) (by_id s), Ok tt)
        | None =>
            let i := length (rows s) in
            (mkVectorState (dims s) (rows s ++ [mkVecEntry id text metadata])
               (write_row (dims s) (vectors s ++ replicate (dims s) f32_zero) i v) (<[id := i]> (by_id s)), Ok tt)
        end
  end.

Definition dot (v q : list float) : float :=
  foldl (λ acc p, f32_add acc (f32_mul p.1 p.2)) f32_zero (zip v q).

(** [a.first > b.first || (a.first == b.first && a.second < b.second)]. *)
Definition better (a b : float * nat) : bool := f_gt a.1 b.1 || f_eq a.1 b.1 && Nat.ltb a.2 b.2.

(** [std::partial_sort] by [better]: nothing later is better. *)
Definition not_worse (a b : float * nat) : Prop := better b a = false.

#[global] Instance not_worse_dec a b : Decision (not_worse a b).
Proof. unfold not_worse. apply _. Defined.

Definition hit (s : InMemoryVectorState) (p : float * nat) : list VectorHit :=
  match rows s !! p.2 with
  | Some e => [mkVectorHit (ve_id e) (ve_text e) (ve_metadata e) p.1]
  | None => []
  end.

Definition scored (s : InMemoryVectorState) (q : list float) : list (float * nat) :=
  (λ i, (dot (row s i) q, i)) <$> seq 0 (length (rows s)).

Definition mem_query (s : InMemoryVectorState) (embedding : list float) (k : Z) : Result (list VectorHit) :=
  match check_dims s embedding with
  | Fail e => Fail e
  | Ok _ =>
      if (k <=? 0)%Z then Ok []
      else
        let sorted := merge_sort not_worse (scored s (l2_normalize embedding)) in
        Ok (take (Nat.min (length (rows s)) (Z.to_nat k)) sorted ≫= hit s)
  end.

Definition mem_erase (s : InMemoryVectorState) (id : string) : InMemoryVectorState * Result bool :=
  match by_id s !! id with
  | None => (s, Ok false)
  | Some i =>
      let last := length (rows s) - 1 in
      let n := dims s in
      let ids := delete id (by_id s) in
      let '(rs, vs, ids) :=
        if Nat.eqb i last then (rows s, vectors s, ids)
        else
          match rows s !! last with
          | Some e => (<[i := e]> (rows s), write_row n (vectors s) i (row s last), <[ve_id e := i]> ids)
          | None => (rows s, vectors s, ids)
          end in
      (mkVectorState n (take last rs) (take (last * n) vs) ids, Ok true)
  end.

Definition mem_clear (s : InMemoryVectorState) : InMemoryVectorState := mkVectorState (dims s) [] [] ∅.

(** ** What it implements *)

(** An id's text, metadata and unit vector. *)
Definition contents (s : InMemoryVectorState) : gmap string (string * string * list float) :=
  omap (λ i, e ← rows s !! i; Some (ve_text e, ve_metadata e, row s i)) (by_id s).

Record store_ok (s : InMemoryVectorState) : Prop := {
  v_dims : 0 < dims s;
  v_length : length (vectors s) = length (rows s) * dims s;
  v_index : ∀ id i, by_id s !! id = Some i ↔ ∃ e, rows s !! i = Some e ∧ ve_id e = id
}.

(** ** Rows of a flat array *)

Definition row_of (n : nat) (vs : list float) (i : nat) : list float := take n (drop (i * n) vs).

Lemma write_row_lookup n vs i v p :
  i * n + n ≤ length vs → length v = n →
  write_row n vs i v !! p = if Nat.ltb p (i * n) then vs !! p else if Nat.ltb p (i * n + n) then v !! (p - i * n) else vs !! p.
Proof.
  intros Hl Hv. unfold write_row. destruct (Nat.ltb_spec p (i * n)).
  - rewrite lookup_app_l by (rewrite length_take; lia). by rewrite lookup_take_lt.
  - rewrite lookup_app_r by (rewrite length_take; lia). rewrite length_take, Nat.min_l by lia.
    destruct (Nat.ltb_spec p (i * n + n)).
    + by rewrite lookup_app_l by lia.
    + rewrite lookup_app_r by lia. rewrite lookup_drop. f_equal. lia.
Qed.

Lemma write_row_length n vs i v : i * n + n ≤ length vs → length v = n → length (write_row n vs i v) = length vs.
Proof. intros ? ?. unfold write_row. rewrite !length_app, length_take, length_drop. lia. Qed.

Lemma row_of_lookup n vs i p : row_of n vs i !! p = if Nat.ltb p n then vs !! (i * n + p) else None.
Proof.
  unfold row_of. destruct (Nat.ltb_spec p n); [by rewrite lookup_take_lt, lookup_drop|by rewrite lookup_take_ge].
Qed.

Lemma row_of_ext n vs vs' i : (∀ p, i * n ≤ p < i * n + n → vs !! p = vs' !! p) → row_of n vs i = row_of n vs' i.
Proof.
  intros Hp. apply list_eq. intros p. rewrite !row_of_lookup. destruct (Nat.ltb_spec p n); [|done]. apply Hp. lia.
Qed.

Lemma row_write_same n vs i v :
  i * n + n ≤ length vs → length v = n → row_of n (write_row n vs i v) i = v.
Proof.
  intros Hl Hv. apply list_eq. intros p. rewrite row_of_lookup. destruct (Nat.ltb_spec p n).
  - rewrite write_row_lookup by done. destruct (Nat.ltb_spec (i * n + p) (i * n)); [lia|].
    destruct (Nat.ltb_spec (i * n + p) (i * n + n)); [|lia]. f_equal. lia.
  - symmetry. apply lookup_ge_None. lia.
Qed.

Lemma row_write_other n vs i j v :
  i * n + n ≤ length vs → length v = n → j ≠ i → row_of n (write_row n vs i v) j = row_of n vs j.
Proof.
  intros Hl Hv Hne. apply row_of_ext. intros p Hp. rewrite write_row_lookup by done.
  destruct (Nat.ltb_spec p (i * n)); [done|]. destruct (Nat.ltb_spec p (i * n + n)); [|done].
  exfalso. apply Hne. nia.
Qed.

Lemma row_of_app n vs l i : i * n + n ≤ length vs → row_of n (vs ++ l) i = row_of n vs i.
Proof. intros Hl. apply row_of_ext. intros p Hp. by rewrite lookup_app_l by lia. Qed.

Lemma row_of_take n vs m i : i * n + n ≤ m → row_of n (take m vs) i = row_of n vs i.
Proof. intros Hl. apply row_of_ext. intros p Hp. by rewrite lookup_take_lt by lia. Qed.

Lemma row_length n vs i : i * n + n ≤ length vs → length (row_of n vs i) = n.
Proof. intros. unfold row_of. rewrite length_take, length_drop. lia. Qed.

Lemma l2_normalize_length v : length (l2_normalize v) = length v.
Proof. unfold l2_normalize. destruct (SFleb _ _); [done|]. apply length_fmap. Qed.

(** ** The store is a map *)

Section Refinement.
Implicit Types (s : InMemoryVectorState).

Lemma contents_lookup s id :
  contents s !! id = (i ← by_id s !! id; e ← rows s !! i; Some (ve_text e, ve_metadata e, row_of (dims s) (vectors s) i)).
Proof. unfold contents. by rewrite lookup_omap. Qed.

Lemma store_ok_row s i e : store_ok s → rows s !! i = Some e → i * dims s + dims s ≤ length (vectors s).
Proof. intros [? Hl _] Hi%lookup_lt_Some. rewrite Hl. nia. Qed.

Lemma store_ok_id s id i :
  store_ok s → by_id s !! id = Some i → ∃ e, rows s !! i = Some e ∧ ve_id e = id ∧ i < length (rows s).
Proof. intros [_ _ Hx] Hi. apply Hx in Hi as (e & He & ?). exists e. split_and!; [done|done|by eapply lookup_lt_Some]. Qed.

Lemma index_inj s i j e e' :
  store_ok s → rows s !! i = Some e → rows s !! j = Some e' → ve_id e = ve_id e' → i = j.
Proof.
  intros [_ _ Hx] Hi Hj Hid. assert (by_id s !! ve_id e = Some i) by (apply Hx; eauto).
  assert (by_id s !! ve_id e = Some j) by (apply Hx; eauto). congruence.
Qed.

Lemma check_dims_ok s v : check_dims s v = Ok tt ↔ length v = dims s ∧ Forall (λ x, is_finite x = true) v.
Proof.
  unfold check_dims. destruct (Nat.eqb_spec (length v) (dims s)); cbn [negb]; [|naive_solver].
  rewrite Forall_forall. setoid_rewrite list_elem_of_In. rewrite <-forallb_forall.
  destruct (forallb is_finite v); naive_solver.
Qed.

Lemma upsert_existing s id i text metadata v :
  store_ok s → by_id s !! id = Some i → length v = dims s →
  let s' := mkVectorState (dims s) (alter (λ e, mkVecEntry (ve_id e) text metadata) i (rows s))
              (write_row (dims s) (vectors s) i v) (by_id s) in
  store_ok s' ∧ contents s' = <[id := (text, metadata, v)]> (contents s).
Proof.
  intros Hok Hi Hv s'. destruct (store_ok_id _ _ _ Hok Hi) as (e & He & Hid & Hlt).
  pose proof (store_ok_row _ _ _ Hok He) as Hr. pose proof Hok as [Hd Hl Hx].
  assert (Hrows : ∀ j, rows s' !! j = (λ e, if decide (j = i) then mkVecEntry (ve_id e) text metadata else e) <$> rows s !! j).
  { intros j. cbn. destruct (decide (j = i)) as [->|Hne].
    - by rewrite list_lookup_alter_eq.
    - rewrite list_lookup_alter_ne by done. by destruct (rows s !! j). }
  split; [split; cbn [dims vectors by_id s']|].
  - done.
  - rewrite write_row_length by done. cbn. by rewrite length_alter.
  - intros id' j. rewrite Hx, Hrows. destruct (rows s !! j) as [e'|]; cbn; [|naive_solver].
    split; intros (e'' & [= <-] & ?); eexists; (split; [done|]); by destruct (decide (j = i)).
  - apply map_eq. intros id'. rewrite contents_lookup. cbn [by_id dims vectors s'].
    destruct (decide (id' = id)) as [->|Hne].
    + rewrite lookup_insert_eq, Hi. cbn [mbind option_bind]. rewrite Hrows, He. cbn [fmap option_fmap option_map].
      rewrite decide_True by done. cbn. f_equal. f_equal. by apply row_write_same.
    + rewrite lookup_insert_ne, contents_lookup by done.
      destruct (by_id s !! id') as [j|] eqn:Hj; [|done]. cbn [mbind option_bind]. rewrite Hrows.
      assert (Hji : j ≠ i).
      { intros ->. destruct (store_ok_id _ _ _ Hok Hj) as (e' & He' & Hid' & _). congruence. }
      destruct (rows s !! j); [|done]. cbn [fmap option_fmap option_map]. rewrite decide_False by done. cbn.
      f_equal. f_equal. by apply row_write_other.
Qed.

Lemma upsert_new s id text metadata v :
  store_ok s → by_id s !! id = None → length v = dims s →
  let i := length (rows s) in
  let s' := mkVectorState (dims s) (rows s ++ [mkVecEntry id text metadata])
              (write_row (dims s) (vectors s ++ replicate (dims s) f32_zero) i v) (<[id := i]> (by_id s)) in
  store_ok s' ∧ contents s' = <[id := (text, metadata, v)]> (contents s).
Proof.
  intros Hok Hid Hv i s'. pose proof Hok as [Hd Hl Hx].
  assert (Hr : i * dims s + dims s ≤ length (vectors s ++ replicate (dims s) f32_zero)).
  { rewrite length_app, length_replicate, Hl. unfold i. lia. }
  split; [split; cbn [dims vectors by_id rows s']|].
  - done.
  - rewrite write_row_length by done. rewrite !length_app, length_replicate, Hl. cbn. lia.
  - intros id' j. destruct (decide (id' = id)) as [->|Hne].
    + rewrite lookup_insert_eq. split.
      * intros [= <-]. exists (mkVecEntry id text metadata). split; [|done]. by apply list_lookup_middle.
      * intros (e & He & Hide). f_equal. apply lookup_app_Some in He as [He|[Hge He]].
        -- assert (by_id s !! id = Some j) by (apply Hx; eauto). congruence.
        -- destruct (j - length (rows s)) eqn:E; [unfold i; lia|done].
    + rewrite lookup_insert_ne by done. rewrite Hx. split; intros (e & He & Hide); exists e; (split; [|done]).
      * by apply lookup_app_l_Some.
      * apply lookup_app_Some in He as [He|[Hge He]]; [done|].
        destruct (j - length (rows s)); [|done]. injection He as <-. done.
  - apply map_eq. intros id'. rewrite contents_lookup. cbn [by_id dims vectors rows s'].
    destruct (decide (id' = id)) as [->|Hne].
    + rewrite !lookup_insert_eq. cbn [mbind option_bind]. unfold i at 1. rewrite list_lookup_middle by done. cbn.
      f_equal. f_equal. by apply row_write_same.
    + rewrite !lookup_insert_ne, contents_lookup by done.
      destruct (by_id s !! id') as [j|] eqn:Hj; [|done]. cbn [mbind option_bind].
      destruct (store_ok_id _ _ _ Hok Hj) as (e & He & _ & Hlt). rewrite lookup_app_l, He by done. cbn.
      rewrite row_write_other by (done || (unfold i; lia)). rewrite row_of_app; [done|]. by eapply store_ok_row.
Qed.

(** Dropping the last row. *)
Lemma erase_last s id i :
  store_ok s → by_id s !! id = Some i → i = length (rows s) - 1 →
  let s' := mkVectorState (dims s) (take i (rows s)) (take (i * dims s) (vectors s)) (delete id (by_id s)) in
  store_ok s' ∧ contents s' = delete id (contents s).
Proof.
  intros Hok Hi Hlast s'. destruct (store_ok_id _ _ _ Hok Hi) as (e & He & Hid & Hlt). pose proof Hok as [Hd Hl Hx].
  split; [split; cbn [dims vectors by_id rows s']|].
  - done.
  - rewrite !length_take, Hl. nia.
  - intros id' j. rewrite lookup_delete_Some, Hx. split.
    + intros (Hne & e' & He' & Hide). exists e'. split; [|done]. apply lookup_take_Some. split; [done|].
      pose proof (lookup_lt_Some _ _ _ He'). destruct (decide (j = i)) as [->|]; [congruence|lia].
    + intros (e' & [He' Hj]%lookup_take_Some & Hide). split; [|eauto]. intros ->.
      assert (j = i) by (eapply index_inj; [done..|congruence]). lia.
  - apply map_eq. intros id'. rewrite contents_lookup. cbn [by_id dims vectors rows s'].
    destruct (decide (id' = id)) as [->|Hne]; [by rewrite !lookup_delete_eq|].
    rewrite !lookup_delete_ne, contents_lookup by done.
    destruct (by_id s !! id') as [j|] eqn:Hj; [|done]. cbn [mbind option_bind].
    destruct (store_ok_id _ _ _ Hok Hj) as (e' & He' & Hid' & Hlt').
    assert (j < i) by (destruct (decide (j = i)) as [->|]; [congruence|lia]).
    rewrite lookup_take_lt, He' by done. cbn. f_equal. f_equal. apply row_of_take. nia.
Qed.

(** Moving the last row into the hole. *)
Lemma erase_swap s id i e :
  store_ok s → by_id s !! id = Some i → i ≠ length (rows s) - 1 → rows s !! (length (rows s) - 1) = Some e →
  let last := length (rows s) - 1 in
  let s1 := mkVectorState (dims s) (<[i := e]> (rows s))
              (write_row (dims s) (vectors s) i (row s last)) (<[ve_id e := i]> (delete id (by_id s))) in
  let s' := mkVectorState (dims s) (take last (rows s1)) (take (last * dims s) (vectors s1)) (by_id s1) in
  store_ok s' ∧ contents s' = delete id (contents s).
Proof.
  intros Hok Hi Hne He last s1 s'. destruct (store_ok_id _ _ _ Hok Hi) as (e0 & He0 & Hid0 & Hlt).
  pose proof Hok as [Hd Hl Hx]. pose proof (store_ok_row _ _ _ Hok He0) as Hri.
  pose proof (store_ok_row _ _ _ Hok He) as Hrl. fold last in Hrl, He, Hne.
  assert (Hlen : length (row s last) = dims s) by (by apply row_length).
  assert (Hlastid : ve_id e ≠ id) by (intros Heq; apply Hne; eapply index_inj; [done..|congruence]).
  assert (Hids : ∀ id' j, id' ≠ id → id' ≠ ve_id e → by_id s !! id' = Some j → j < last ∧ j ≠ i).
  { intros id' j H1 H2 Hj. destruct (store_ok_id _ _ _ Hok Hj) as (e' & He' & Hid' & Hlt').
    split; [|intros ->; congruence]. destruct (decide (j = last)) as [->|]; [congruence|unfold last in *; lia]. }
  split; [split; cbn [dims vectors by_id rows s' s1]|].
  - done.
  - rewrite !length_take, write_row_length, length_insert, Hl by done. unfold last. nia.
  - intros id' j. setoid_rewrite lookup_take_Some. destruct (decide (id' = ve_id e)) as [->|H2].
    + rewrite lookup_insert_eq. split.
      * intros [= <-]. exists e. split; [|done]. rewrite list_lookup_insert_eq by done. split; [done|unfold last in *; lia].
      * intros (e' & [He' Hj] & Hid'). destruct (decide (j = i)) as [->|Hji]; [done|].
        rewrite list_lookup_insert_ne in He' by done. assert (j = last) by (by eapply index_inj). lia.
    + rewrite lookup_insert_ne, lookup_delete_Some, Hx by done. split.
      * intros (H1 & e' & He' & Hid'). destruct (Hids id' j) as [Hj Hji]; [done|done|apply Hx; eauto|].
        exists e'. by rewrite list_lookup_insert_ne.
      * intros (e' & [He' Hj] & Hid'). destruct (decide (j = i)) as [->|Hji].
        { rewrite list_lookup_insert_eq in He' by done. congruence. }
        rewrite list_lookup_insert_ne in He' by done. split; [|eauto]. intros ->. apply Hji. eapply index_inj; [done..|congruence].
  - apply map_eq. intros id'. rewrite contents_lookup. cbn [by_id dims vectors rows s' s1].
    destruct (decide (id' = id)) as [->|H1].
    { by rewrite lookup_insert_ne, !lookup_delete_eq by done. }
    rewrite (lookup_delete_ne (contents s)), contents_lookup by done. destruct (decide (id' = ve_id e)) as [->|H2].
    + rewrite lookup_insert_eq. assert (by_id s !! ve_id e = Some last) as -> by (apply Hx; eauto).
      cbn [mbind option_bind]. rewrite lookup_take_lt, list_lookup_insert_eq, He by (unfold last in *; lia). cbn.
      f_equal. f_equal. rewrite row_of_take by (unfold last in *; nia). by apply row_write_same.
    + rewrite lookup_insert_ne, lookup_delete_ne by done.
      destruct (by_id s !! id') as [j|] eqn:Hj; [|done]. destruct (Hids _ _ H1 H2 Hj) as [Hjl Hji].
      cbn [mbind option_bind]. rewrite lookup_take_lt, list_lookup_insert_ne by done.
      destruct (rows s !! j); [|done]. cbn. f_equal. f_equal.
      rewrite row_of_take by nia. by apply row_write_other.
Qed.

End Refinement.

Lemma upsert_cases (s : InMemoryVectorState) (id text metadata : string) (embedding : list float) :
  store_ok s →
  let p := mem_upsert s id text embedding metadata in
  store_ok p.1 ∧ dims p.1 = dims s ∧
  match p.2 with
  | Ok _ => contents p.1 = <[id := (text, metadata, l2_normalize embedding)]> (contents s)
  | Fail _ => p.1 = s ∧ (length embedding ≠ dims s ∨ ¬ Forall (λ x, is_finite x = true) embedding ∨ id = "")
  end.
Proof.
  intros Hok. unfold mem_upsert. destruct (check_dims s embedding) as [[]|err] eqn:Ec.
  - apply check_dims_ok in Ec as [Hlen Hfin]. destruct (is_empty id) eqn:Eid.
    { split; [done|]. split; [done|]. split; [done|]. right. right. by destruct id. }
    assert (Hv : length (l2_normalize embedding) = dims s) by by rewrite l2_normalize_length.
    destruct (by_id s !! id) as [i|] eqn:Hi.
    + by destruct (upsert_existing s id i text metadata _ Hok Hi Hv).
    + by destruct (upsert_new s id text metadata _ Hok Hi Hv).
  - split; [done|]. split; [done|]. split; [done|].
    destruct (decide (length embedding = dims s)) as [El|]; [|by left].
    right. left. intros Hf. pose proof (proj2 (check_dims_ok s embedding) (conj El Hf)). congruence.
Qed.

Lemma erase_cases (s : InMemoryVectorState) (id : string) :
  store_ok s →
  let p := mem_erase s id in
  store_ok p.1 ∧ dims p.1 = dims s ∧ contents p.1 = delete id (contents s) ∧
  p.2 = Ok (bool_decide (is_Some (contents s !! id))).
Proof.
  intros Hok. unfold mem_erase. destruct (by_id s !! id) as [i|] eqn:Hi.
  - destruct (store_ok_id _ _ _ Hok Hi) as (e0 & He0 & Hid & Hlt).
    assert (Hin : bool_decide (is_Some (contents s !! id)) = true).
    { apply bool_decide_eq_true. rewrite contents_lookup, Hi. cbn. rewrite He0. eauto. }
    rewrite Hin. destruct (Nat.eqb_spec i (length (rows s) - 1)) as [E|E].
    + destruct (erase_last s id i Hok Hi E) as [? ?]. by rewrite <-E.
    + destruct (lookup_lt_is_Some_2 (rows s) (length (rows s) - 1)) as [e He]; [lia|]. rewrite He.
      by destruct (erase_swap s id i e Hok Hi E He).
  - assert (Hn : contents s !! id = None) by (by rewrite contents_lookup, Hi).
    rewrite Hn, delete_id by done. done.
Qed.

(** C38. The in-memory vector store implements a finite map from ids to text,
    metadata and unit vector: [upsert] inserts or replaces, [erase] removes and
    says whether the id was there, [clear] empties, a refused call changes
    nothing, and the rows, the flat array and the index stay consistent. *)
Theorem vector_store_refines (s : InMemoryVectorState) (id text metadata : string) (embedding : list float) :
  store_ok s →
  (let p := mem_upsert s id text embedding metadata in
   store_ok p.1 ∧ dims p.1 = dims s ∧
   match p.2 with
   | Ok _ => contents p.1 = <[id := (text, metadata, l2_normalize embedding)]> (contents s)
   | Fail _ => p.1 = s ∧ (length embedding ≠ dims s ∨ ¬ Forall (λ x, is_finite x = true) embedding ∨ id = "")
   end) ∧
  (let p := mem_erase s id in
   store_ok p.1 ∧ dims p.1 = dims s ∧ contents p.1 = delete id (contents s) ∧
   p.2 = Ok (bool_decide (is_Some (contents s !! id)))) ∧
  (store_ok (mem_clear s) ∧ contents (mem_clear s) = ∅).
Proof.
  intros Hok. split; [by apply upsert_cases|]. split; [by apply erase_cases|].
  split; [|apply map_eq; intros id'; by rewrite contents_lookup, !lookup_empty].
  destruct Hok as [Hd _ _]. split; cbn; [done|done|]. intros id' j. rewrite lookup_empty. split; [done|].
  by intros (? & ? & _).
Qed.

(** ** Order of the scores *)

(** A number that orders floats: class, exponent, mantissa. *)
Definition frank (x : float) : Z * Z * Z :=
  match x with
  | S754_infinity true => (-2, 0, 0)
  | S754_finite true m e => (-1, - e, Z.neg m)
  | S754_zero _ => (0, 0, 0)
  | S754_finite false m e => (1, e, Z.pos m)
  | S754_infinity false => (2, 0, 0)
  | S754_nan => (3, 0, 0)
  end%Z.

Definition frank_lt (a b : Z * Z * Z) : Prop :=
  (a.1.1 < b.1.1 ∨ a.1.1 = b.1.1 ∧ (a.1.2 < b.1.2 ∨ a.1.2 = b.1.2 ∧ a.2 < b.2))%Z.

Definition is_nan (x : float) : bool := match x with S754_nan => true | _ => false end.

Lemma f_gt_frank x y : is_nan x = false → is_nan y = false → f_gt x y = true ↔ frank_lt (frank y) (frank x).
Proof.
  unfold f_gt, SFltb, frank_lt. intros Hx Hy.
  destruct x as [sx|sx| |sx mx ex], y as [sy|sy| |sy my ey]; try done; destruct sx, sy; cbn;
    try (destruct (Z.compare_spec ey ex)); try (change (Pos.compare_cont Eq my mx) with (my ?= mx)%positive);
    try (destruct (Pos.compare_spec my mx)); cbn; split; intros ?; try done; try lia.
Qed.

Lemma f_eq_frank x y : is_nan x = false → is_nan y = false → f_eq x y = true ↔ frank x = frank y.
Proof.
  unfold f_eq, SFeqb. intros Hx Hy.
  destruct x as [sx|sx| |sx mx ex], y as [sy|sy| |sy my ey]; try done; destruct sx, sy; cbn;
    try (destruct (Z.compare_spec ex ey)); try (change (Pos.compare_cont Eq mx my) with (mx ?= my)%positive);
    try (destruct (Pos.compare_spec mx my)); cbn; split; intros ?; simplify_eq; try done; try lia.
Qed.

Lemma frank_trichotomy a b : frank_lt a b ∨ a = b ∨ frank_lt b a.
Proof.
  destruct a as [[a1 a2] a3], b as [[b1 b2] b3]. unfold frank_lt. cbn.
  destruct (Z.lt_trichotomy a1 b1) as [|[->|]]; [lia| |lia].
  destruct (Z.lt_trichotomy a2 b2) as [|[->|]]; [lia| |lia].
  destruct (Z.lt_trichotomy a3 b3) as [|[->|]]; [lia| |lia]. by right; left.
Qed.

Definition number (p : float * nat) : Prop := is_nan p.1 = false.

Lemma better_spec a b :
  number a → number b →
  better a b = true ↔ frank_lt (frank b.1) (frank a.1) ∨ (frank a.1 = frank b.1 ∧ a.2 < b.2).
Proof.
  intros Ha Hb. unfold better. rewrite orb_true_iff, andb_true_iff, Nat.ltb_lt.
  by rewrite f_gt_frank, f_eq_frank.
Qed.

Lemma better_trans a b c :
  number a → number b → number c → better a b = true → better b c = true → better a c = true.
Proof.
  intros Ha Hb Hc. rewrite !better_spec by done. unfold frank_lt.
  intros [?|[E ?]] [?|[E' ?]]; rewrite ?E, ?E' in *; [left; lia|by left|by left|right; split; [done|lia]].
Qed.

Lemma better_total a b : number a → number b → a.2 ≠ b.2 → better a b = true ∨ better b a = true.
Proof.
  intros Ha Hb Hne. rewrite !better_spec by done.
  destruct (frank_trichotomy (frank a.1) (frank b.1)) as [|[E|]]; [by right; left| |by left; left].
  rewrite E. destruct (Nat.lt_trichotomy a.2 b.2) as [|[|]]; [by left; right|done|by right; right].
Qed.

Lemma better_asym a b : better a b = true → better b a = false.
Proof.
  destruct (is_nan a.1) eqn:Ha; [|destruct (is_nan b.1) eqn:Hb].
  - by destruct a as [[] ?], b as [[] ?].
  - by destruct a as [[] ?], b as [[] ?].
  - intros H. destruct (better b a) eqn:E; [|done]. exfalso. rewrite !better_spec in * by done. unfold frank_lt in *.
    destruct H as [|[E1 ?]], E as [|[E2 ?]]; rewrite ?E1, ?E2 in *; lia.
Qed.

#[local] Instance not_worse_total : Total not_worse.
Proof.
  intros a b. unfold not_worse. destruct (better b a) eqn:E; [right; by apply better_asym|by left].
Qed.

(** Sorting distinct rows by their scores is strict. *)
Lemma sorted_strict (l : list (float * nat)) :
  Sorted not_worse l → Forall number l → NoDup l.*2 → StronglySorted (λ a b, better a b = true) l.
Proof.
  induction 1 as [|a l Hl IH Ha]; intros Hn Hnd; [constructor|].
  apply Forall_cons in Hn as [Hna Hn]. apply NoDup_cons in Hnd as [Hnot Hnd]. specialize (IH Hn Hnd).
  constructor; [done|]. destruct Ha as [|b l Hab]; [constructor|].
  assert (Hb : better a b = true).
  { destruct (better_total a b) as [|E]; [done|by apply Forall_cons in Hn as [? _]| |done|].
    - intros E. apply Hnot. rewrite E. cbn. left.
    - unfold not_worse in Hab. congruence. }
  constructor; [done|]. apply StronglySorted_cons in IH as [Hbl _].
  apply Forall_cons in Hn as [Hnb Hn]. rewrite Forall_forall in *. intros c Hc. by apply (better_trans a b c); auto.
Qed.

(** A query returns the best rows: [min(rows, k)] of them, every one better
    than every row left out, best first, with the earlier row first among equal
    scores; a hit carries the text and metadata stored under its id and the dot
    product of the stored vector with the normalized query.  The scores must be
    numbers. *)
Theorem query_returns_best (s : InMemoryVectorState) (embedding : list float) (k : Z) :
  store_ok s → check_dims s embedding = Ok tt → (0 < k)%Z →
  let q := l2_normalize embedding in
  Forall number (scored s q) →
  ∃ best rest, mem_query s embedding k = Ok (best ≫= hit s) ∧ best ++ rest ≡ₚ scored s q ∧
    length best = Nat.min (length (rows s)) (Z.to_nat k) ∧
    StronglySorted (λ a b, better a b = true) best ∧ (∀ a b, a ∈ best → b ∈ rest → better a b = true) ∧
    (∀ p, p ∈ best → ∃ id text metadata v,
       hit s p = [mkVectorHit id text metadata p.1] ∧ contents s !! id = Some (text, metadata, v) ∧ p.1 = dot v q).
Proof.
  intros Hok Hc Hk q Hn. unfold mem_query. rewrite Hc. destruct (Z.leb_spec k 0); [lia|]. fold q.
  set (l := merge_sort not_worse (scored s q)). set (n := Nat.min _ _).
  assert (Hp : l ≡ₚ scored s q) by apply merge_sort_Permutation.
  assert (Hs : StronglySorted (λ a b, better a b = true) l).
  { apply sorted_strict; [apply Sorted_merge_sort; apply _|by rewrite Hp|].
    rewrite Hp. unfold scored. rewrite <-list_fmap_compose. apply NoDup_fmap_2; [by intros ? ?|apply NoDup_seq]. }
  exists (take n l), (drop n l). rewrite take_drop. split; [done|]. split; [done|]. split.
  { rewrite length_take, Hp. unfold scored. rewrite length_fmap, length_seq. lia. }
  rewrite <-(take_drop n l) in Hs. split; [by eapply StronglySorted_app_1_l|].
  split; [intros a b Ha Hb; exact (StronglySorted_app_1_elem_of _ _ _ _ _ Hs Ha Hb)|].
  intros [f i] Hin. assert (Hin' : (f, i) ∈ scored s q).
  { rewrite <-Hp, <-(take_drop n l). apply elem_of_app. by left. }
  unfold scored in Hin'. apply list_elem_of_fmap in Hin' as (j & [= -> ->] & Hj%elem_of_seq).
  destruct (lookup_lt_is_Some_2 (rows s) j) as [e He]; [lia|].
  exists (ve_id e), (ve_text e), (ve_metadata e), (row s j). unfold hit. cbn. rewrite He. split; [done|]. split; [|done].
  rewrite contents_lookup. assert (by_id s !! ve_id e = Some j) as -> by (apply (v_index _ Hok); eauto).
  cbn. by rewrite He.
Qed.

(** ** Concrete stores *)

Module VectorSample.

Definition f (m : positive) (e : Z) : float := binary_round 24 128 false m e.

(** The vectors (3, 4) and (1, 0). *)
Definition v34 : list float := [f 3 0; f 4 0].
Definition v10 : list float := [f 1 0; f32_zero].

Definition opened : InMemoryVectorState := mkVectorState 2 [] [] ∅.
Definition one : InMemoryVectorState := (mem_upsert opened "a" "A" v34 "{}").1.
Definition two : InMemoryVectorState := (mem_upsert one "b" "B" v10 "{}").1.

Lemma opened_ok : store_ok opened.
Proof. split; cbn; [lia|done|]. intros id i. rewrite lookup_empty. split; [done|]. by intros (? & ? & _). Qed.

Lemma one_ok : store_ok one.
Proof. by apply (upsert_new opened "a" "A" "{}" (l2_normalize v34) opened_ok). Qed.

(** (1, 0) is closest to itself; (3, 4) has cosine 0.6. *)
Example query_two :
  match mem_query two v10 5 with
  | Ok hits => hit_id <$> hits = ["b"; "a"] ∧ hit_score <$> hits = [f 1 0; f 10066330 (-24)]
  | Fail _ => False
  end.
Proof. vm_compute. by split. Qed.

(** A vector of subnormal numbers is finite, but its norm has no [float]
    inverse: normalizing gives an infinity and a NaN, and the store keeps them. *)
Example subnormal_norm_overflows :
  check_dims opened [f 1 (-149); f32_zero] = Ok tt ∧
  l2_normalize [f 1 (-149); f32_zero] = [S754_infinity false; S754_nan].
Proof. vm_compute. by split. Qed.

End VectorSample.

Lemma vector_store_refines_witness :
  contents VectorSample.one = <["a" := ("A", "{}", l2_normalize VectorSample.v34)]> ∅ ∧
  contents (mem_erase VectorSample.opened "a").1 = delete "a" (contents VectorSample.opened).
Proof.
  destruct (vector_store_refines VectorSample.opened "a" "A" "{}" VectorSample.v34 VectorSample.opened_ok)
    as ((_ & _ & Hu) & (_ & _ & He & _) & _).
  split; [exact Hu|exact He].
Defined.

Lemma query_returns_best_witness :
  ∃ best rest, mem_query VectorSample.one VectorSample.v10 5 = Ok (best ≫= hit VectorSample.one) ∧
    length best = 1 ∧ best ++ rest ≡ₚ scored VectorSample.one (l2_normalize VectorSample.v10).
Proof.
  destruct (query_returns_best VectorSample.one VectorSample.v10 5 VectorSample.one_ok) as (best & rest & Hq & Hp & Hl & _).
  - vm_compute. reflexivity.
  - reflexivity.
  - vm_compute. repeat constructor.
  - exists best, rest. split; [exact Hq|]. split; [exact Hl|exact Hp].
Defined.
