(* ===== verification/Rag.v ===== *)
(** * Retrieval (src/core/rag/engine_tasks.cpp, rag_pipeline.cpp)

    Embedding and reranking through an engine, and the pipeline that chunks a
    document, embeds the chunks, stores them under "<doc_id>#<n>" and finds the
    best ones for a query.  The pipeline is written against the table
    [VectorOps]; [VectorSpec] states what it relies on from a vector store, and
    the in-memory store of VectorStore provides it.  The theorem: indexing a
    document replaces exactly its chunks, whatever it held before.

    [rt] is the thread on the embedding session; a reranking session is swapped
    in for its calls.  The thread-local arena of engine calls is [slab]. *)
From stdpp Require Import base gmap strings list sorting pretty.
From Stdlib Require Import Lia ZArith SpecFloat.
From S2P Require Import Prelude Arena Text Decimal Json Session Provider History Models Chunker VectorStore.

(** ** Tensors *)

(** Four bytes, least significant first, as a binary32 number. *)
Definition float_of_bits (bits : Z) : float :=
  let s := Z.testbit bits 31 in
  let e := Z.land (Z.shiftr bits 23) 255 in
  let m := Z.land bits 8388607 in
  if (e =? 255)%Z then (if (m =? 0)%Z then S754_infinity s else S754_nan)
  else if (e =? 0)%Z then match m with Z.pos p => S754_finite s p (-149) | _ => S754_zero s end
  else match (m + 8388608)%Z with Z.pos p => S754_finite s p (e - 150) | _ => S754_nan end.

Definition byte_value (c : Ascii.ascii) : Z := Z.of_N (byte_of c).

Fixpoint as_floats (data : list Ascii.ascii) : list float :=
  match data with
  | a :: b :: c :: d :: rest =>
      float_of_bits (byte_value a + 256 * byte_value b + 65536 * byte_value c + 16777216 * byte_value d) :: as_floats rest
  | _ => []
  end.

Definition is_float32 (t : TensorData) : bool := match tensor_dtype t with Float32 => true | _ => false end.

Definition kBatch : nat := 16.
Definition kArenaPerText : Z := 64 * 1024.
Definition kArenaBase : Z := 64 * 1024.

(** The batches of at most [kBatch] items of the loops. *)
Fixpoint batches_of {A} (fuel : nat) (l : list A) : list (list A) :=
  match fuel, l with
  | S fuel', _ :: _ => take kBatch l :: batches_of fuel' (drop kBatch l)
  | _, _ => []
  end.

Definition batches {A} (l : list A) : list (list A) := batches_of (length l) l.

Section Tasks.
Context {W : Type} `{Host W}.

(** [thread_local Arena arena] with its [capacity]; [None] before its first use. *)
Definition task_arena (slab : option Arena) (n_texts : nat) : Arena :=
  let need := (kArenaBase + Z.of_nat n_texts * kArenaPerText)%Z in
  match slab with
  | Some a => if (capacity_ a <? need)%Z then Arena_new (new_char need) need else reset a
  | None => Arena_new (new_char need) need
  end.

Definition user_message (text : string) : MessageView := mkMessageView "user" text [] "" [] [].

Definition task_request (messages : list MessageView) : InferRequest W := mkInferRequest messages 0 false None 0 "" no_temperature.

(** ** embed *)

Fixpoint take_embeddings (tensors : list TensorData) (out : list (list float)) (got : nat) :
    Result (list (list float) * nat) :=
  match tensors with
  | [] => Ok (out, got)
  | t :: rest =>
      if negb (str_eqb (tensor_name t) "embedding") then take_embeddings rest out got
      else if negb (is_float32 t) || negb (Nat.eqb (length (tensor_data t) mod 4) 0) || Nat.eqb (length (tensor_data t)) 0 then
        fail DecodeFailed "embed: engine returned a malformed embedding tensor."
      else
        let f := as_floats (tensor_data t) in
        match out with
        | v :: _ =>
            if negb (Nat.eqb (length f) (length v)) then
              fail DecodeFailed "embed: engine returned embeddings of different sizes."
            else take_embeddings rest (out ++ [l2_normalize f]) (S got)
        | [] => take_embeddings rest [l2_normalize f] (S got)
        end
  end.

Definition cancelled (s : Session W) : bool := negb (cancel_flag s =? 0)%Z.

Fixpoint embed_batches (bs : list (list string)) (slab : option Arena) (out : list (list float)) :
    M W (option Arena * Result (list (list float))) :=
  match bs with
  | [] => mret (slab, Ok out)
  | b :: rest =>
      s ← ask rt_session;
      if cancelled s then mret (slab, fail Cancelled "embed: cancelled.")
      else
        '(ar, r) ← infer_task AGENT_CAP_EMBED (task_request (user_message <$> b)) (task_arena slab (length b));
        match r with
        | Fail e => mret (Some ar, Fail e)
        | Ok res =>
            match take_embeddings (resp_tensors res) out 0 with
            | Fail e => mret (Some ar, Fail e)
            | Ok (out, got) =>
                if negb (Nat.eqb got (length b)) then
                  mret (Some ar, fail DecodeFailed ("embed: engine returned " +:+ to_string (Z.of_nat got) +:+
                          " embeddings for " +:+ to_string (Z.of_nat (length b)) +:+ " texts."))
                else embed_batches rest (Some ar) out
            end
        end
  end.

Definition embed (texts : list string) (slab : option Arena) : M W (option Arena * Result (list (list float))) :=
  if existsb is_empty texts then mret (slab, fail InvalidConfig "embed: texts must not be empty.")
  else embed_batches (batches texts) slab [].

(** ** rerank *)

Fixpoint take_scores (tensors : list TensorData) (n : nat) : Result (list float) :=
  match tensors with
  | [] => fail DecodeFailed ("rerank: engine returned no " +:+ q +:+ "scores" +:+ q +:+ " tensor.")
  | t :: rest =>
      if negb (str_eqb (tensor_name t) "scores") then take_scores rest n
      else
        let f := as_floats (tensor_data t) in
        if negb (is_float32 t) || negb (Nat.eqb (length f) n) then
          fail DecodeFailed ("rerank: engine returned " +:+ to_string (Z.of_nat (length f)) +:+ " scores for " +:+
                             to_string (Z.of_nat n) +:+ " documents.")
        else Ok f
  end.

Fixpoint rerank_batches (query : string) (bs : list (list string)) (slab : option Arena) (out : list float) :
    M W (option Arena * Result (list float)) :=
  match bs with
  | [] => mret (slab, Ok out)
  | b :: rest =>
      s ← ask rt_session;
      if cancelled s then mret (slab, fail Cancelled "rerank: cancelled.")
      else
        let docs := (λ d, user_message (if is_empty d then " " else d)) <$> b in
        '(ar, r) ← infer_task AGENT_CAP_RERANK (task_request (user_message query :: docs)) (task_arena slab (length b));
        match r with
        | Fail e => mret (Some ar, Fail e)
        | Ok res =>
            match take_scores (resp_tensors res) (length b) with
            | Fail e => mret (Some ar, Fail e)
            | Ok f => rerank_batches query rest (Some ar) (out ++ f)
            end
        end
  end.

Definition rerank (query : string) (docs : list string) (slab : option Arena) : M W (option Arena * Result (list float)) :=
  if is_empty query then mret (slab, fail InvalidConfig "rerank: query must not be empty.")
  else rerank_batches query (batches docs) slab [].

End Tasks.

(** ** Vector stores *)

(** [VectorStoreOps]; [vo_complete] tells whether every entry is set. *)
Record VectorOps (S : Type) := mkVectorOps {
  vo_complete : bool;
  vo_open : VectorStoreConfig → Result S;
  vo_upsert : S → string → string → list float → string → S * Result unit;
  vo_query_topk : S → list float → Z → Result (list VectorHit);
  vo_erase : S → string → S * Result bool;
  vo_clear : S → S * Result unit
}.
Arguments mkVectorOps {S}.
Arguments vo_complete {S}.
Arguments vo_open {S}.
Arguments vo_upsert {S}.
Arguments vo_query_topk {S}.
Arguments vo_erase {S}.
Arguments vo_clear {S}.

(** What the pipeline relies on: a store is a map from ids to texts and
    metadata; a failing call changes nothing. *)
Class VectorSpec {S : Type} (ops : VectorOps S) := {
  vs_ok : S → Prop;
  vs_contents : S → gmap string (string * string);
  vs_opened config s : vo_open ops config = Ok s → vs_ok s ∧ vs_contents s = ∅;
  vs_upserted s id text v meta s' r :
    vs_ok s → vo_upsert ops s id text v meta = (s', r) →
    vs_ok s' ∧ vs_contents s' = (if is_ok r then <[id := (text, meta)]> (vs_contents s) else vs_contents s);
  vs_erased s id s' r :
    vs_ok s → vo_erase ops s id = (s', r) →
    vs_ok s' ∧
    match r with
    | Ok b => vs_contents s' = delete id (vs_contents s) ∧ b = bool_decide (is_Some (vs_contents s !! id))
    | Fail _ => vs_contents s' = vs_contents s
    end
}.

Definition kInMemoryVectorStore : VectorOps InMemoryVectorState :=
  mkVectorOps true mem_open mem_upsert mem_query mem_erase (λ s, (mem_clear s, Ok tt)).

(** ** The pipeline *)

Section Pipeline.
Context {W S : Type} `{Host W} `{JsonParser} (ops : VectorOps S).

Definition kMaxToolHits : Z := 50.

Record RagIndex := mkRagIndex { ri_config : VectorStoreConfig; ri_state : option S }.

Record RagHit := mkRagHit {
  rag_id : string;
  rag_doc_id : string;
  rag_text : string;
  rag_metadata : string;
  rag_similarity : float;
  rag_score : float
}.

Definition open_rag_index (index : RagIndex) (dimensions : Z) : RagIndex * Result unit :=
  let config := ri_config index in
  let d := vs_dimensions config in
  if negb (vo_complete ops) then
    (index, fail InvalidConfig "RagIndex::store is missing one of open/upsert/query_topk/erase/clear.")
  else if ((0 <? dimensions) && (0 <? d) && negb (d =? dimensions))%Z then
    (index, fail InvalidConfig ("RagIndex: embeddings have " +:+ to_string dimensions +:+
                                " dimensions but config.dimensions is " +:+ to_string d +:+ "."))
  else
    let config := mkVectorStoreConfig (vs_path config) (vs_name config) (if (0 <? dimensions)%Z then dimensions else d) in
    if (vs_dimensions config <=? 0)%Z then (index, fail InvalidConfig "RagIndex: dimensions must be > 0.")
    else match vo_open ops config with
    | Fail e => (index, Fail e)
    | Ok s => (mkRagIndex config (Some s), Ok tt)
    end.

Definition ensure_open (index : RagIndex) (dimensions : nat) : RagIndex * Result unit :=
  match ri_state index with
  | Some _ => (index, Ok tt)
  | None => open_rag_index index (Z.of_nat dimensions)
  end.

Definition chunk_id (doc_id : string) (n : nat) : string := doc_id +:+ "#" +:+ to_string (Z.of_nat n).

(** Erases chunks [n], [n + 1], ... until one is missing; the store shrinks
    with every round. *)
Fixpoint erase_loop (fuel : nat) (s : S) (doc_id : string) (n : nat) : option (S * Result unit) :=
  match fuel with
  | O => None
  | Datatypes.S fuel' =>
      match vo_erase ops s (chunk_id doc_id n) with
      | (s', Fail e) => Some (s', Fail e)
      | (s', Ok false) => Some (s', Ok tt)
      | (s', Ok true) => erase_loop fuel' s' doc_id (n + 1)
      end
  end.

Definition set_store (index : RagIndex) (s : S) : RagIndex := mkRagIndex (ri_config index) (Some s).

Definition erase_chunks_from (fuel : nat) (index : RagIndex) (doc_id : string) (first : nat) :
    option (RagIndex * Result unit) :=
  match ri_state index with
  | None => Some (index, Ok tt)
  | Some s => '(s', r) ← erase_loop fuel s doc_id first; Some (set_store index s', r)
  end.

Definition rag_erase (fuel : nat) (index : RagIndex) (doc_id : string) : option (RagIndex * Result unit) :=
  erase_chunks_from fuel index doc_id 0.

(** The text of a chunk and its metadata. *)
Definition chunk_string (text : string) (c : nat * nat) : string := of_bytes (view (bytes text) c).

Definition chunk_metadata (doc_id : string) (n : nat) (c : nat * nat) : string :=
  "{" +:+ q +:+ "doc_id" +:+ q +:+ ":" +:+ q +:+ escape_json_string doc_id +:+ q +:+ "," +:+ q +:+ "chunk" +:+ q +:+ ":" +:+
  to_string (Z.of_nat n) +:+ "," +:+ q +:+ "offset" +:+ q +:+ ":" +:+ to_string (Z.of_nat c.1) +:+ "}".

(** The upserts of chunks [n], [n + 1], ... *)
Fixpoint upsert_chunks (s : S) (doc_id text : string) (n : nat) (items : list ((nat * nat) * list float)) : S * Result unit :=
  match items with
  | [] => (s, Ok tt)
  | (c, v) :: rest =>
      match vo_upsert ops s (chunk_id doc_id n) (chunk_string text c) v (chunk_metadata doc_id n c) with
      | (s', Fail e) => (s', Fail e)
      | (s', Ok _) => upsert_chunks s' doc_id text (n + 1) rest
      end
  end.

(** [None] only when the fuel of the erasing loop runs out. *)
Definition rag_index (fuel : nat) (index : RagIndex) (doc_id text : string) (options : ChunkOptions) (slab : option Arena) :
    M W (option (RagIndex * option Arena * Result unit)) :=
  if is_empty doc_id then mret (Some (index, slab, fail InvalidConfig "rag_index: doc_id must not be empty."))
  else match chunk_text text options with
  | None => mret None
  | Some (Fail e) => mret (Some (index, slab, Fail e))
  | Some (Ok []) => mret ('(index, r) ← erase_chunks_from fuel index doc_id 0; Some (index, slab, r))
  | Some (Ok chunks) =>
      '(slab, vectors) ← embed (chunk_string text <$> chunks) slab;
      mret (match vectors with
      | Fail e => Some (index, slab, Fail e)
      | Ok vs =>
          match ensure_open index (length (default [] (head vs))) with
          | (index, Fail e) => Some (index, slab, Fail e)
          | (index, Ok _) =>
              match ri_state index with
              | None => Some (index, slab, Ok tt)
              | Some s =>
                  match upsert_chunks s doc_id text 0 (zip chunks vs) with
                  | (s, Fail e) => Some (set_store index s, slab, Fail e)
                  | (s, Ok _) =>
                      '(index, r) ← erase_chunks_from fuel (set_store index s) doc_id (length chunks);
                      Some (index, slab, r)
                  end
              end
          end
      end)
  end.

(** ** Queries *)

Definition doc_of (id : string) : string :=
  match rfind "#" id (String.length id) with Some i => String.substring 0 i id | None => id end.

Definition rag_hit (h : VectorHit) : RagHit :=
  mkRagHit (hit_id h) (doc_of (hit_id h)) (hit_text h) (hit_metadata h) (hit_score h) (hit_score h).

Definition set_rag_score (h : RagHit) (f : float) : RagHit :=
  mkRagHit (rag_id h) (rag_doc_id h) (rag_text h) (rag_metadata h) (rag_similarity h) f.

(** [std::stable_sort] by descending score. *)
Fixpoint insert_hit (h : RagHit) (l : list RagHit) : list RagHit :=
  match l with
  | [] => [h]
  | x :: rest => if f_gt (rag_score x) (rag_score h) then x :: insert_hit h rest else h :: l
  end.

Definition sort_hits (l : list RagHit) : list RagHit := foldr insert_hit [] l.

(** Runs on the reranking session. *)
Definition on_session {A} (s : Session W) (m : M W A) : M W A :=
  own ← ask rt_session;
  modify (λ rt, with_session rt s) ;;
  a ← m;
  modify (λ rt, with_session rt own) ;;
  mret a.

(** [4 * k] is an [int]: [k] below 2^29. *)
Definition rag_query (index : RagIndex) (query : string) (k : Z) (rerank_session : option (Session W)) (slab : option Arena) :
    M W (RagIndex * option Arena * Result (list RagHit)) :=
  if is_empty query then mret (index, slab, fail InvalidConfig "rag_query: query must not be empty.")
  else if (k <=? 0)%Z then mret (index, slab, Ok [])
  else
    '(slab, vectors) ← embed [query] slab;
    match vectors with
    | Fail e => mret (index, slab, Fail e)
    | Ok vs =>
        let v := default [] (head vs) in
        match ensure_open index (length v) with
        | (index, Fail e) => mret (index, slab, Fail e)
        | (index, Ok _) =>
            let fetch := match rerank_session with Some _ => Z.max (4 * k) 20 | None => k end in
            match (match ri_state index with Some s => vo_query_topk ops s v fetch | None => Ok [] end) with
            | Fail e => mret (index, slab, Fail e)
            | Ok found =>
                let hits := rag_hit <$> found in
                '(slab, ranked) ←
                  (match rerank_session, hits with
                   | Some rs, _ :: _ =>
                       '(slab, scores) ← on_session rs (rerank query (rag_text <$> hits) slab);
                       mret (slab, f <-? scores ;; Ok (sort_hits (zip_with set_rag_score hits f)))%agent
                   | _, _ => mret (slab, Ok hits)
                   end);
                mret (index, slab, hits <-? ranked ;; Ok (take (Z.to_nat k) hits))%agent
            end
        end
    end.

(** ** The search_knowledge tool *)

(** "%.4f" cut to the 31 characters of the buffer. *)
Definition score_text (f : float) : string :=
  let magnitude (m : positive) (e : Z) :=
    let n := if (0 <=? e)%Z then (Z.pos m * 2 ^ e * 10000)%Z else round_half_even (Z.pos m * 10000) (2 ^ (- e)) in
    to_string (n / 10000) +:+ "." +:+ pad_zeros (to_string (n `mod` 10000)) 4 in
  let sign (s : bool) := if s then "-" else "" in
  String.substring 0 31
    (match f with
     | S754_zero s => sign s +:+ "0.0000"
     | S754_infinity s => sign s +:+ "inf"
     | S754_nan => "nan"
     | S754_finite s m e => sign s +:+ magnitude m e
     end).

Definition hit_json (h : RagHit) : string :=
  "{" +:+ q +:+ "id" +:+ q +:+ ":" +:+ q +:+ escape_json_string (rag_id h) +:+ q +:+ "," +:+ q +:+ "score" +:+ q +:+ ":" +:+
  score_text (rag_score h) +:+ "," +:+ q +:+ "text" +:+ q +:+ ":" +:+ q +:+ escape_json_string (rag_text h) +:+ q +:+ "}".

(** The arguments: the query and the number of hits.  Text that is no JSON
    object is the query itself; the on-demand parser may notice an error only
    behind the fields it has read, [parse_json] rejects the whole text. *)
Definition rag_arguments (k : Z) (arguments : string) : string * Z :=
  match parse_json arguments with
  | Some (JObj fields) =>
      foldl (λ acc field,
        match field with
        | (key, JStr s) => if str_eqb key "query" then (s, acc.2) else acc
        | (key, JInt n) =>
            if str_eqb key "k" && (0 <? n)%Z && (n <? 9223372036854775808)%Z then (acc.1, Z.min n kMaxToolHits) else acc
        | _ => acc
        end) ("", k) fields
  | _ => (arguments, k)
  end.

Definition rag_tool_query (index : RagIndex) (rerank_session : option (Session W)) (k : Z) (arguments : string)
    (slab : option Arena) : M W (RagIndex * option Arena * Result string) :=
  let '(query, k) := rag_arguments k arguments in
  if is_empty query then
    mret (index, slab, fail InvalidConfig ("search_knowledge: " +:+ q +:+ "query" +:+ q +:+ " is required."))
  else
    '(index, slab, r) ← rag_query index query k rerank_session slab;
    mret (index, slab, hits <-? r ;; Ok ("[" +:+ String.concat "," (hit_json <$> hits) +:+ "]"))%agent.

(** The number of hits a tool is made with. *)
Definition rag_tool_k (k : Z) : Z := Z.max 1 (Z.min k kMaxToolHits).

End Pipeline.

Example score_texts :
  score_text (VectorSample.f 1 0) = "1.0000" ∧ score_text (VectorSample.f 10066330 (-24)) = "0.6000" ∧
  score_text (binary_round 24 128 true 1 (-3)) = "-0.1250".
Proof. vm_compute. by split_and!. Qed.

(** ** The in-memory store meets the interface *)

Definition text_of (c : string * string * list float) : string * string := c.1.

#[global] Program Instance in_memory_spec : VectorSpec kInMemoryVectorStore := {
  vs_ok := store_ok;
  vs_contents s := text_of <$> contents s
}.
Next Obligation.
  intros config s. cbn. unfold mem_open. destruct (Z.leb_spec (vs_dimensions config) 0); [done|]. intros [= <-].
  split; [|apply map_eq; intros id; by rewrite lookup_fmap, contents_lookup, !lookup_empty].
  split; cbn; [lia|done|]. intros id i. rewrite lookup_empty. split; [done|]. by intros (? & ? & _).
Qed.
Next Obligation.
  intros s id text v meta s' r Hok. cbn. destruct (upsert_cases s id text meta v Hok) as (Hok' & _ & Hr). intros Hu.
  rewrite Hu in *. cbn in *. split; [done|]. destruct r as [[]|e]; cbn.
  - by rewrite Hr, fmap_insert.
  - destruct Hr as [-> _]. done.
Qed.
Next Obligation.
  intros s id s' r Hok. cbn. destruct (erase_cases s id Hok) as (Hok' & _ & Hc & Hr). intros He. rewrite He in *. cbn in *.
  split; [done|]. rewrite Hr. split; [by rewrite Hc, fmap_delete|].
  apply bool_decide_ext. rewrite lookup_fmap. by rewrite fmap_is_Some.
Qed.

(** ** Embeddings *)

Lemma batches_of_concat {A} fuel (l : list A) : length l ≤ fuel → concat (batches_of fuel l) = l.
Proof.
  revert l. induction fuel as [|fuel IH]; intros [|x l] Hl; cbn in Hl; try done; [lia|]. cbn [batches_of concat].
  rewrite IH; [apply take_drop|]. rewrite length_drop. cbn. unfold kBatch. lia.
Qed.

Lemma batches_length {A} (l : list A) : sum_list_with length (batches l) = length l.
Proof.
  rewrite <-(batches_of_concat (length l) l) at 2 by lia. fold (batches l).
  induction (batches l) as [|b bs IH]; [done|]. cbn. rewrite length_app. lia.
Qed.

Lemma take_embeddings_count tensors out got out' got' :
  take_embeddings tensors out got = Ok (out', got') → length out' + got = length out + got'.
Proof.
  revert out got. induction tensors as [|t tensors IH]; intros out got; cbn [take_embeddings].
  { intros [= <- <-]. done. }
  destruct (negb (str_eqb _ _)); [apply IH|]. destruct (_ || _ || _); [done|].
  destruct out as [|v out]; [intros Ht%IH; cbn in *; lia|]. destruct (negb _); [done|].
  intros Ht%IH. rewrite length_app in Ht. cbn in *. lia.
Qed.

Section Embed.
Context {W : Type} `{Host W}.

Lemma embed_batches_length bs slab out rt rt' slab' vs :
  embed_batches (W := W) bs slab out rt = (rt', (slab', Ok vs)) → length vs = length out + sum_list_with length bs.
Proof.
  revert slab out rt. induction bs as [|b bs IH]; intros slab out rt; cbn [embed_batches].
  { intros [= _ _ <-]. cbn. lia. }
  unfold mbind, M_bind, ask. destruct (cancelled _); [done|]. destruct (infer_task _ _ _ _) as [rt1 [ar r]].
  destruct r as [res|e]; [|done]. destruct (take_embeddings _ _ _) as [[out1 got]|e] eqn:Et; [|done].
  destruct (Nat.eqb_spec got (length b)) as [->|]; cbn [negb]; [|done].
  intros Hr%IH. apply take_embeddings_count in Et. cbn. lia.
Qed.

(** One vector per text. *)
Lemma embed_length texts slab rt rt' slab' vs :
  embed (W := W) texts slab rt = (rt', (slab', Ok vs)) → length vs = length texts.
Proof.
  unfold embed. destruct (existsb is_empty texts); [done|]. intros Hr%embed_batches_length.
  by rewrite batches_length in Hr.
Qed.

End Embed.

(** ** Chunk ids *)

Lemma chunk_id_inj doc n n' : chunk_id doc n = chunk_id doc n' → n = n'.
Proof.
  unfold chunk_id. intros E. do 2 apply (inj (String.append _)) in E. unfold to_string in E. apply (inj pretty) in E. lia.
Qed.

(** ** Indexing *)

Section Indexing.
Context {W S : Type} `{Host W} `{JsonParser} (ops : VectorOps S) `{!VectorSpec ops}.
Implicit Types (s : S) (doc text : string).

(** The chunks of a document are numbered from zero without a gap. *)
Definition contiguous (c : gmap string (string * string)) doc (m : nat) : Prop :=
  ∀ n, is_Some (c !! chunk_id doc n) ↔ n < m.

Definition not_from doc (n : nat) (id : string) : Prop := ∀ i, n ≤ i → id ≠ chunk_id doc i.

Lemma erase_loop_spec fuel s doc n m :
  vs_ok s → (∀ i, n ≤ i → is_Some (vs_contents s !! chunk_id doc i) ↔ i < m) → m - n < fuel →
  ∃ s' r, erase_loop ops fuel s doc n = Some (s', r) ∧ vs_ok s' ∧
    (∀ id, not_from doc n id → vs_contents s' !! id = vs_contents s !! id) ∧
    (r = Ok tt → ∀ i, n ≤ i → vs_contents s' !! chunk_id doc i = None).
Proof.
  revert s n. induction fuel as [|fuel IH]; intros s n Hok Hc Hf; [lia|]. cbn [erase_loop].
  destruct (vo_erase ops s (chunk_id doc n)) as [s1 r1] eqn:He. destruct (vs_erased _ _ _ _ Hok He) as [Hok1 Hr1].
  destruct r1 as [b|e].
  - destruct Hr1 as [Hc1 Hb].
    assert (Hkeep : ∀ id, id ≠ chunk_id doc n → vs_contents s1 !! id = vs_contents s !! id).
    { intros id Hne. rewrite Hc1. by apply lookup_delete_ne. }
    assert (Hnext : ∀ i, n < i → vs_contents s1 !! chunk_id doc i = vs_contents s !! chunk_id doc i).
    { intros i Hi. apply Hkeep. intros E%chunk_id_inj. lia. }
    destruct b.
    + symmetry in Hb. apply bool_decide_eq_true in Hb. apply Hc in Hb; [|lia].
      destruct (IH s1 (n + 1)) as (s' & r & Hl & Hok' & Hother & Hnone); [done| |lia|].
      { intros i Hi. rewrite Hnext by lia. apply Hc. lia. }
      exists s', r. split; [done|]. split; [done|]. split.
      * intros id Hid. rewrite Hother; [apply Hkeep, Hid; lia|]. intros i Hi. apply Hid. lia.
      * intros Hr i Hi. destruct (decide (i = n)) as [->|]; [|apply Hnone; [done|lia]].
        rewrite Hother; [by rewrite Hc1, lookup_delete_eq|]. intros j Hj E%chunk_id_inj. lia.
    + symmetry in Hb. apply bool_decide_eq_false in Hb. rewrite Hc in Hb by lia.
      exists s1, (Ok tt). split; [done|]. split; [done|]. split; [intros id Hid; apply Hkeep, Hid; lia|].
      intros _ i Hi. rewrite Hc1. apply lookup_delete_None. right.
      apply eq_None_not_Some. rewrite Hc by lia. lia.
  - exists s1, (Fail e). split; [done|]. split; [done|]. rewrite Hr1. done.
Qed.

Lemma upsert_chunks_spec s doc text n items s' r :
  vs_ok s → upsert_chunks ops s doc text n items = (s', r) →
  vs_ok s' ∧ ∃ j, j ≤ length items ∧ (is_ok r = true → j = length items) ∧
    (∀ i c v, i < j → items !! i = Some (c, v) →
       vs_contents s' !! chunk_id doc (n + i) = Some (chunk_string text c, chunk_metadata doc (n + i) c)) ∧
    (∀ id, (∀ i, i < j → id ≠ chunk_id doc (n + i)) → vs_contents s' !! id = vs_contents s !! id).
Proof.
  revert s n. induction items as [|[c v] items IH]; intros s n Hok; cbn [upsert_chunks].
  { intros [= <- <-]. split; [done|]. exists 0. split_and!; [done|done|intros; lia|done]. }
  destruct (vo_upsert _ _ _ _ _ _) as [s1 r1] eqn:Hu. destruct (vs_upserted _ _ _ _ _ _ _ Hok Hu) as [Hok1 Hc1].
  destruct r1 as [[]|e]; cbn [is_ok] in Hc1.
  2:{ intros [= <- <-]. split; [done|]. exists 0. split_and!; [lia|done|intros; lia|by rewrite Hc1]. }
  intros Hr. destruct (IH _ _ Hok1 Hr) as (Hok' & j & Hj & Hall & Hin & Hout). split; [done|]. exists (Datatypes.S j).
  split_and!; [cbn; lia|intros Hr'; cbn; by rewrite <-Hall| |].
  - intros [|i] c' v' Hi; cbn.
    + intros [= <- <-]. rewrite Nat.add_0_r. rewrite Hout; [by rewrite Hc1, lookup_insert_eq|].
      intros i _ E%chunk_id_inj. lia.
    + intros Hi'. replace (n + Datatypes.S i) with (n + 1 + i) by lia. by apply (Hin i c' v'); [lia|].
  - intros id Hid. rewrite Hout, Hc1.
    + apply lookup_insert_ne. intros <-. apply (Hid 0); [lia|]. by rewrite Nat.add_0_r.
    + intros i Hi. replace (n + 1 + i) with (n + Datatypes.S i) by lia. apply Hid. lia.
Qed.

Definition index_ok (index : RagIndex (S := S)) : Prop := match ri_state index with Some s => vs_ok s | None => True end.

Definition index_contents (index : RagIndex (S := S)) : gmap string (string * string) :=
  match ri_state index with Some s => vs_contents s | None => ∅ end.

Lemma ensure_open_spec index d index' r :
  index_ok index → ensure_open ops index d = (index', r) →
  index_ok index' ∧ index_contents index' = index_contents index ∧ (is_ok r = true → is_Some (ri_state index')).
Proof.
  intros Hok. unfold ensure_open. destruct (ri_state index) as [s|] eqn:Es.
  { intros [= <- <-]. rewrite Es. eauto. }
  unfold open_rag_index. destruct (negb _); [by intros [= <- <-]|]. destruct (_ && _ && _); [by intros [= <- <-]|].
  destruct (_ <=? 0)%Z; [by intros [= <- <-]|]. destruct (vo_open _ _) as [s|e] eqn:Eo; [|by intros [= <- <-]].
  intros [= <- <-]. destruct (vs_opened _ _ Eo) as [Ho Hc]. unfold index_ok, index_contents. cbn. rewrite Es. eauto.
Qed.

Lemma erase_chunks_spec fuel index doc n m :
  index_ok index → (∀ i, n ≤ i → is_Some (index_contents index !! chunk_id doc i) ↔ i < m) → m - n < fuel →
  ∃ index' r, erase_chunks_from ops fuel index doc n = Some (index', r) ∧ index_ok index' ∧
    (∀ id, not_from doc n id → index_contents index' !! id = index_contents index !! id) ∧
    (r = Ok tt → ∀ i, n ≤ i → index_contents index' !! chunk_id doc i = None).
Proof.
  unfold erase_chunks_from, index_ok, index_contents. intros Hok Hc Hf. destruct (ri_state index) as [s|] eqn:Es.
  - destruct (erase_loop_spec fuel s doc n m Hok Hc Hf) as (s' & r & -> & Hok' & Ho & Hn).
    exists (set_store index s'), r. done.
  - exists index, (Ok tt). rewrite Es. done.
Qed.

(** What a document holds after it was indexed. *)
Definition holds (c : gmap string (string * string)) doc text (chunks : list (nat * nat)) : Prop :=
  ∀ n, c !! chunk_id doc n = (λ ch, (chunk_string text ch, chunk_metadata doc n ch)) <$> chunks !! n.

Lemma store_chunks fuel index doc text chunks vs s m :
  index_ok index → ri_state index = Some s → contiguous (index_contents index) doc m → m < fuel →
  length vs = length chunks →
  ∃ index' r,
    match upsert_chunks ops s doc text 0 (zip chunks vs) with
    | (s, Fail e) => Some (set_store index s, Fail e)
    | (s, Ok _) => erase_chunks_from ops fuel (set_store index s) doc (length chunks)
    end = Some (index', r) ∧ index_ok index' ∧
    (∀ id, not_from doc 0 id → index_contents index' !! id = index_contents index !! id) ∧
    (r = Ok tt → holds (index_contents index') doc text chunks).
Proof.
  intros Hok Es Hc Hf Hlen. unfold index_ok, index_contents in Hok, Hc |- *. rewrite Es in *.
  destruct (upsert_chunks _ _ _ _ _ _) as [s1 r1] eqn:Hu.
  destruct (upsert_chunks_spec _ _ _ _ _ _ _ Hok Hu) as (Hok1 & j & Hj & Hall & Hin & Hout). cbn [Nat.add] in *.
  assert (Hother : ∀ id, not_from doc 0 id → vs_contents s1 !! id = vs_contents s !! id).
  { intros id Hid. apply Hout. intros i _. apply Hid. lia. }
  destruct r1 as [[]|e]; [|by exists (set_store index s1), (Fail e)].
  specialize (Hall eq_refl). rewrite length_zip_with, Hlen, Nat.min_id in Hall.
  assert (Hstored : ∀ n ch, chunks !! n = Some ch →
    vs_contents s1 !! chunk_id doc n = Some (chunk_string text ch, chunk_metadata doc n ch)).
  { intros n ch Hn. pose proof (lookup_lt_Some _ _ _ Hn). destruct (lookup_lt_is_Some_2 vs n) as [v Hv]; [lia|].
    apply (Hin n ch v); [lia|]. apply lookup_zip_with_Some. eauto. }
  destruct (erase_chunks_spec fuel (set_store index s1) doc (length chunks) m) as (index' & r & He & Hok' & Ho & Hn);
    [done| |lia|].
  { intros i Hi. unfold index_contents. cbn. rewrite Hout; [apply Hc|]. intros i' Hi' E%chunk_id_inj. lia. }
  exists index', r. split; [done|]. split; [done|]. unfold index_contents in Ho, Hn. cbn in Ho. split.
  - intros id Hid. rewrite Ho; [by apply Hother|]. intros i _. apply Hid. lia.
  - intros Hr n. unfold index_contents. destruct (chunks !! n) as [ch|] eqn:En.
    + rewrite Ho; [by rewrite (Hstored _ _ En)|]. intros i Hi E%chunk_id_inj.
      apply lookup_lt_Some in En. lia.
    + apply lookup_ge_None in En. by rewrite Hn.
Qed.

End Indexing.

(** Indexing a document replaces exactly its chunks: if its chunks were
    numbered without a gap, then after a successful [rag_index] the store holds
    chunk [n] of the new text, with its offset, under "<doc_id>#<n>", no other
    chunk of the document, and everything else as before; a failing call also
    leaves every other document alone; and the call returns. *)
Theorem rag_index_replaces {W S : Type} `{Host W} `{JsonParser} (ops : VectorOps S) `{!VectorSpec ops} (fuel m : nat)
    (index : RagIndex) (doc text : string) (options : ChunkOptions) (slab : option Arena) (rt : Rt W) :
  index_ok ops index → contiguous (index_contents ops index) doc m → m < fuel →
  ∃ index' slab' r, (rag_index ops fuel index doc text options slab rt).2 = Some (index', slab', r) ∧ index_ok ops index' ∧
    (∀ id, not_from doc 0 id → index_contents ops index' !! id = index_contents ops index !! id) ∧
    (r = Ok tt → ∃ chunks, chunk_text text options = Some (Ok chunks) ∧ holds (index_contents ops index') doc text chunks).
Proof.
  intros Hok Hc Hf. unfold rag_index.
  destruct (is_empty doc); [by eexists index, slab, _|].
  destruct (chunk_text_total text options) as [[chunks|e] Et]; rewrite Et; [|by eexists index, slab, _].
  destruct chunks as [|c chunks].
  { destruct (erase_chunks_spec ops fuel index doc 0 m) as (index' & r & -> & Hok' & Ho & Hn); [done|by intros i _; apply Hc|lia|].
    eexists index', slab, r. split; [done|]. split; [done|]. split; [done|]. intros Hr. exists []. split; [done|].
    intros n. rewrite (Hn Hr n) by lia. done. }
  unfold mbind, M_bind, mret, M_ret. destruct (embed _ slab rt) as [rt1 [slab1 vectors]] eqn:Ee. cbn [snd].
  destruct vectors as [vs|e]; [|by eexists index, slab1, _]. apply embed_length in Ee. rewrite length_fmap in Ee.
  destruct (ensure_open ops index _) as [index1 r1] eqn:Eo.
  destruct (ensure_open_spec ops _ _ _ _ Hok Eo) as (Hok1 & Hc1 & Hs1).
  destruct r1 as [[]|e]; [|by rewrite <-Hc1; eexists index1, slab1, _].
  destruct (Hs1 eq_refl) as [s Es]. rewrite Es. rewrite <-Hc1 in Hc |- *.
  destruct (store_chunks ops fuel index1 doc text (c :: chunks) vs s m Hok1 Es Hc Hf Ee) as (index' & r & Hr & Hok' & Ho & Hh).
  destruct (upsert_chunks _ _ _ _ _ _) as [s2 [u|e]].
  - rewrite Hr. cbn. exists index', slab1, r. split; [done|]. split; [done|]. split; [done|]. eauto.
  - injection Hr as <- <-. eexists _, slab1, _. split; [done|]. by split.
Qed.

(** ** A pipeline at work *)

Module RagSample.

#[local] Existing Instance RefParser.parser.

(** An engine that embeds every text as (1, 0). *)
Definition unit_tensor : TensorData :=
  mkTensorData "embedding" Float32 [2%Z] (Ascii.ascii_of_N <$> [0; 0; 128; 63; 0; 0; 0; 0]%N).

Definition engine : EngineState unit :=
  mkEngineState "embedder" AGENT_CAP_EMBED 0 false
    (λ _ _ _ req ar w, (w, ar, Ok (mkInferResponse (user_message "") (mkTokenUsage 0 0 0) ((λ _, unit_tensor) <$> req_messages req))))
    (λ _ w, (w, Ok 1%Z)) (λ w, (w, Ok tt)).

Definition rt : Rt unit :=
  mkRt (mkSession (mkConfig Engine "" "" "" "" None [] 4096 512 10 4 None None None 0) (Arena_new 4096 65536) [] []
          (Some engine) (Some ∅) no_session_stats ∅ "" "" ∅ None 0 ∅ [])
    tt (mkAmbient None [] [] 0 false false false (Arena_new 1048576 0)) [] None.

Definition closed {S : Type} : RagIndex (S := S) := mkRagIndex (mkVectorStoreConfig "" "rag" 0) None.

Definition add {S : Type} (ops : VectorOps S) (index : RagIndex (S := S)) (text : string) : RagIndex * Result unit :=
  match (rag_index ops 10 index "d" text (mkChunkOptions 3 0) None rt).2 with
  | Some (index', _, r) => (index', r)
  | None => (index, Ok tt)
  end.

(** Three chunks, then two: the third one is gone. *)
Example reindex :
  let one := (add kInMemoryVectorStore closed "aa bb cc").1 in
  let two := (add kInMemoryVectorStore one "dd ee").1 in
  (λ n, fst <$> index_contents kInMemoryVectorStore two !! chunk_id "d" n) <$> [0; 1; 2] = [Some "dd"; Some "ee"; None].
Proof. vm_compute. reflexivity. Qed.

(** The in-memory store behind a connection whose erase of one id fails once. *)
Definition Flaky : Type := InMemoryVectorState * option string.

Definition flaky : VectorOps Flaky :=
  mkVectorOps true
    (λ config, s <-? mem_open config ;; Ok (s, Some "d#2"))%agent
    (λ s id text v meta, let '(s', r) := mem_upsert s.1 id text v meta in ((s', s.2), r))
    (λ s v k, mem_query s.1 v k)
    (λ s id, if bool_decide (s.2 = Some id) then ((s.1, None), fail FilesystemError "busy")
             else let '(s', r) := mem_erase s.1 id in ((s', s.2), r))
    (λ s, ((mem_clear s.1, s.2), Ok tt)).

(** Four chunks shrink to one; erasing "d#2" fails after "d#1" is gone, and the
    retry succeeds but stops at the hole: the old chunks 2 and 3 stay. *)
Example stale_chunks_survive :
  let '(one, r1) := add flaky closed "aa bb cc dd" in
  let '(two, r2) := add flaky one "ee" in
  let '(three, r3) := add flaky two "ee" in
  r1 = Ok tt ∧ r2 = fail FilesystemError "busy" ∧ r3 = Ok tt ∧
  match ri_state three with
  | Some s => (λ n, fst <$> (text_of <$> contents s.1) !! chunk_id "d" n) <$> [0; 1; 2; 3] = [Some "ee"; None; Some "cc"; Some "dd"]
  | None => False
  end.
Proof. vm_compute. by split_and!. Qed.

End RagSample.

Lemma rag_index_replaces_witness :
  ∃ index' slab' r, (@rag_index unit _ _ kInMemoryVectorStore 1 RagSample.closed "d" "aa bb" (mkChunkOptions 3 0) None RagSample.rt).2
    = Some (index', slab', r) ∧ index_ok kInMemoryVectorStore index'.
Proof.
  destruct (@rag_index_replaces unit InMemoryVectorState _ RefParser.parser kInMemoryVectorStore _ 1 0 RagSample.closed "d" "aa bb"
    (mkChunkOptions 3 0) None RagSample.rt I) as (index' & slab' & r & Hr & Hok & _).
  - intros n. cbn. unfold index_contents. cbn. rewrite lookup_empty. split; [intros [x Hx]; discriminate Hx|lia].
  - lia.
  - exists index', slab', r. split; [exact Hr|exact Hok].
Defined.
