(* ===== verification/GraphJson.v ===== *)
(** * Graph files (src/core/graph/graph_json.cpp)

    The loader that turns an agent.json document into a graph: the readers of
    its fields, the assembly of nodes and edges, the assignment of every node
    to the body, branch or step it belongs to, the two warning passes, and the
    connection of the declared MCP servers.

    [Parse] is the code's style of returning on the first error, with the
    warnings as state; [None] stands for undefined behaviour (a node that is
    not in the index) and for a work list that did not end, and GraphJsonTheory
    shows that it does not occur.  [user_data] pointers into the loader's
    storage are what they point at.  Files, the text of a JSON error and
    [simdjson::to_string] are parameters. *)
From stdpp Require Import base gmap strings list pretty.
From Stdlib Require Import Lia ZArith.
From S2P Require Import Prelude Arena Text Json Session History Graph Models.

(** [simdjson::to_string] of an element. *)
Class JsonWriter := write_json : json → string.

(** Files and the message of a failed parse. *)
Record JsonSource := mkJsonSource {
  read_file : string → option string;
  json_error_message : string → string
}.

(** ** Configuration of MCP servers (agent.hpp) *)

Inductive SandboxNetwork := NetAllow | NetDeny.

Record SandboxPolicy := mkSandboxPolicy {
  sb_enabled : bool;
  sb_filesystem : bool;
  sb_read_only : list string;
  sb_read_write : list string;
  sb_system_paths : bool;
  sb_allow_tmp : bool;
  sb_network : SandboxNetwork;
  sb_memory_limit : Z;
  sb_max_processes : Z;
  sb_gpu : bool
}.

Definition default_sandbox : SandboxPolicy := mkSandboxPolicy false true [] [] true true NetAllow 0 0 false.

Definition set_enabled (s : SandboxPolicy) (b : bool) : SandboxPolicy :=
  mkSandboxPolicy b (sb_filesystem s) (sb_read_only s) (sb_read_write s) (sb_system_paths s) (sb_allow_tmp s)
    (sb_network s) (sb_memory_limit s) (sb_max_processes s) (sb_gpu s).

Record McpServerConfig := mkMcpServerConfig {
  mcp_name : string;
  mcp_command : string;
  mcp_args : list string;
  mcp_env : gmap string string;
  mcp_timeout_ms : Z;
  mcp_working_directory : string;
  mcp_sandbox : SandboxPolicy
}.

(** ** Built-in callbacks *)

Record RouteSpec := mkRouteSpec {
  route_key : string;
  route_cases : list (string * string);
  route_fallback : string
}.

Record UntilSpec := mkUntilSpec { until_key : string; until_equals : string }.

Definition is_json_space (c : Ascii.ascii) : bool :=
  let b := byte_of c in (b =? 32)%N || (b =? 9)%N || (b =? 13)%N || (b =? 10)%N.

Fixpoint drop_space (l : list Ascii.ascii) : list Ascii.ascii :=
  match l with [] => [] | c :: rest => if is_json_space c then drop_space rest else l end.

Definition trim_ws (s : string) : string := of_bytes (reverse (drop_space (reverse (drop_space (bytes s))))).

Section Callbacks.
Context {W : Type}.

Definition route_target (route : RouteSpec) (gs : GraphState) : string :=
  if has_state gs (route_key route) then
    let value := trim_ws (get_state gs (route_key route) "") in
    match find (λ c, str_eqb c.1 value) (route_cases route) with
    | Some c => c.2
    | None => route_fallback route
    end
  else route_fallback route.

Definition route_on_state (route : RouteSpec) : StateFn W string := λ s gs w, (s, w, Ok (route_target route gs)).

Definition until_state_equals (u : UntilSpec) : StateFn W bool := λ s gs w,
  (s, w, Ok (has_state gs (until_key u) && str_eqb (trim_ws (get_state gs (until_key u) "")) (until_equals u))).

Definition static_tool_args (args : string) : StateFn W string := λ s _ w, (s, w, Ok args).

Definition noop_function : GraphFunctionFn W := λ s gs w, (s, gs, w, Ok tt).

End Callbacks.

Definition kDoneSuffix : string := "#done".

Definition ends_with (suffix s : string) : bool :=
  bool_decide (String.length suffix ≤ String.length s) &&
  str_eqb (String.substring (String.length s - String.length suffix) (String.length suffix) s) suffix.

Definition is_done (name : string) : bool := ends_with kDoneSuffix name.

(** ** Readers *)

Definition Parse (A : Type) : Type := list string → option (Result (A * list string)).

#[global] Instance Parse_ret : MRet Parse := λ A a ws, Some (Ok (a, ws)).
#[global] Instance Parse_bind : MBind Parse := λ A B k m ws,
  match m ws with
  | Some (Ok (a, ws')) => k a ws'
  | Some (Fail e) => Some (Fail e)
  | None => None
  end.

Definition parse_throw {A} (e : Error) : Parse A := λ _, Some (Fail e).
Definition undefined {A} : Parse A := λ _, None.

(** [std::move(p.warnings)] *)
Definition take_warnings : Parse (list string) := λ ws, Some (Ok (ws, [])).

(** The value where the code dereferences. *)
Definition must {A} (o : option A) : Parse A := match o with Some a => mret a | None => undefined end.

Fixpoint for_each {A S} (f : A → S → Parse S) (l : list A) (s : S) : Parse S :=
  match l with [] => mret s | x :: rest => s' ← f x s; for_each f rest s' end.

Section Readers.
Context (source : string).

Definition in_source (loc msg : string) : string :=
  source +:+ ": " +:+ (if is_empty loc then "" else loc +:+ ": ") +:+ msg.

Definition parse_error (loc msg : string) : Error := make_error InvalidConfig (in_source loc msg).

Definition bad {A} (loc msg : string) : Parse A := parse_throw (parse_error loc msg).

Definition warn (loc msg : string) : Parse unit := λ ws, Some (Ok (tt, ws ++ [in_source loc msg])).

Definition mem (x : string) (l : list string) : bool := existsb (str_eqb x) l.

Definition check_fields (obj : list (string * json)) (loc : string) (known : list string) : Parse unit :=
  for_each (λ kv _,
    let k := kv.1 in
    if mem k ["//"; "description"; "$schema"] || mem k known then mret tt
    else warn loc ("unknown field " +:+ q +:+ k +:+ q +:+ " (ignored)")) obj tt.

Definition read_string (obj : list (string * json)) (key out loc : string) : Parse string :=
  match field key obj with
  | None => mret out
  | Some el =>
      match get_string el with
      | Some s => mret s
      | None => bad loc (q +:+ key +:+ q +:+ " must be a string")
      end
  end.

Definition read_required_string (obj : list (string * json)) (key loc : string) : Parse string :=
  match field key obj with
  | None => bad loc ("missing required field " +:+ q +:+ key +:+ q)
  | Some _ =>
      s ← read_string obj key "" loc;
      if is_empty s then bad loc (q +:+ key +:+ q +:+ " must not be empty") else mret s
  end.

Fixpoint read_strings (key loc : string) (items : list json) (out : list string) : Parse (list string) :=
  match items with
  | [] => mret out
  | item :: rest =>
      match get_string item with
      | Some s => read_strings key loc rest (out ++ [s])
      | None => bad loc (q +:+ key +:+ q +:+ " must be an array of strings")
      end
  end.

Definition read_string_array (obj : list (string * json)) (key : string) (out : list string) (loc : string) :
    Parse (list string) :=
  match field key obj with
  | None => mret out
  | Some el =>
      match get_array el with
      | Some items => read_strings key loc items out
      | None => bad loc (q +:+ key +:+ q +:+ " must be an array of strings")
      end
  end.

Definition read_int (obj : list (string * json)) (key : string) (out : Z) (loc : string) : Parse Z :=
  match field key obj with
  | None => mret out
  | Some el =>
      match get_int el with
      | Some v =>
          if ((-2147483648 <=? v) && (v <=? 2147483647))%Z then mret v
          else bad loc (q +:+ key +:+ q +:+ " must be an integer")
      | None => bad loc (q +:+ key +:+ q +:+ " must be an integer")
      end
  end.

Definition read_bool (obj : list (string * json)) (key : string) (out : bool) (loc : string) : Parse bool :=
  match field key obj with
  | None => mret out
  | Some el =>
      match get_bool el with
      | Some b => mret b
      | None => bad loc (q +:+ key +:+ q +:+ " must be true or false")
      end
  end.

Definition read_object (obj : list (string * json)) (key loc : string) : Parse (option (list (string * json))) :=
  match field key obj with
  | None => mret None
  | Some el =>
      match get_object el with
      | Some o => mret (Some o)
      | None => bad loc (q +:+ key +:+ q +:+ " must be an object")
      end
  end.

Definition node_where (i : nat) (name : string) : string :=
  "nodes[" +:+ to_string (Z.of_nat i) +:+ "]" +:+ (if is_empty name then "" else " (" +:+ q +:+ name +:+ q +:+ ")").

Definition has_hash (name : string) : bool := existsb (λ c, (byte_of c =? 35)%N) (bytes name).

Definition valid_node_name (name : string) : bool :=
  negb (is_empty name) && negb (str_eqb name kGraphEnd) && negb (has_hash name).

(** ** MCP servers *)

Definition kMaxMb : Z := 16777216.

Definition read_memory_limit (sb : list (string * json)) (out : Z) (sw : string) : Parse Z :=
  match field "memory_limit_mb" sb with
  | None => mret out
  | Some el =>
      match get_int el with
      | Some mb =>
          if ((0 <=? mb) && (mb <=? kMaxMb))%Z then mret (u64 (Z.shiftl mb 20))
          else bad sw (q +:+ "memory_limit_mb" +:+ q +:+ " must be an integer between 0 and " +:+ to_string kMaxMb)
      | None => bad sw (q +:+ "memory_limit_mb" +:+ q +:+ " must be an integer between 0 and " +:+ to_string kMaxMb)
      end
  end.

Definition read_sandbox (obj : list (string * json)) (out : SandboxPolicy) (loc : string) : Parse SandboxPolicy :=
  match field "sandbox" obj with
  | None => mret out
  | Some (JBool on) => mret (set_enabled out on)
  | Some (JObj sb) =>
      let sw := loc +:+ ": sandbox" in
      check_fields sb sw ["enabled"; "read_only_paths"; "read_write_paths"; "network"; "memory_limit_mb"] ;;
      enabled ← read_bool sb "enabled" true sw;
      ro ← read_string_array sb "read_only_paths" (sb_read_only out) sw;
      rw ← read_string_array sb "read_write_paths" (sb_read_write out) sw;
      network ← read_string sb "network" "" sw;
      if existsb is_empty (ro ++ rw) then bad sw "paths must not be empty"
      else
        net ← (if str_eqb network "deny" then mret NetDeny
               else if is_empty network || str_eqb network "allow" then mret NetAllow
               else bad sw (q +:+ "network" +:+ q +:+ " must be " +:+ q +:+ "allow" +:+ q +:+ " or " +:+ q +:+ "deny" +:+ q));
        limit ← read_memory_limit sb (sb_memory_limit out) sw;
        mret (mkSandboxPolicy enabled (sb_filesystem out) ro rw (sb_system_paths out) (sb_allow_tmp out) net limit
                (sb_max_processes out) (sb_gpu out))
  | Some _ => bad loc (q +:+ "sandbox" +:+ q +:+ " must be true, false or an object")
  end.

Definition read_env (loc : string) (kv : string * json) (env : gmap string string) : Parse (gmap string string) :=
  match get_string kv.2 with
  | Some v => mret (<[kv.1 := v]> env)
  | None => bad loc (q +:+ "env" +:+ q +:+ " values must be strings")
  end.

Definition parse_mcp_server (el : json) (loc : string) : Parse McpServerConfig :=
  match get_object el with
  | None => bad loc "must be an object"
  | Some obj =>
      check_fields obj loc ["name"; "command"; "args"; "env"; "timeout_ms"; "working_directory"; "sandbox"] ;;
      name ← read_required_string obj "name" loc;
      command ← read_required_string obj "command" loc;
      args ← read_string_array obj "args" [] loc;
      timeout ← read_int obj "timeout_ms" 30000 loc;
      directory ← read_string obj "working_directory" "" loc;
      sandbox ← read_sandbox obj default_sandbox loc;
      env ← read_object obj "env" loc;
      vars ← for_each (read_env loc) (default [] env) ∅;
      if (timeout <=? 0)%Z then bad loc (q +:+ "timeout_ms" +:+ q +:+ " must be > 0")
      else mret (mkMcpServerConfig name command args vars timeout directory sandbox)
  end.

Definition parse_mcp_servers (servers : list json) : Parse (list McpServerConfig) :=
  for_each (λ s acc,
    let loc := "mcp_servers[" +:+ to_string (Z.of_nat (length acc)) +:+ "]" in
    cfg ← parse_mcp_server s loc;
    if mem (mcp_name cfg) (mcp_name <$> acc) then bad loc ("duplicate MCP server name '" +:+ mcp_name cfg +:+ "'")
    else mret (acc ++ [cfg])) servers [].

End Readers.

(** ** Graph assembly *)

(** [g] is kept as its node and edge lists; an edge is paired with the route
    its [user_data] points at.  [sequential] is a [std::set]. *)
Record Builder (W : Type) := mkBuilder {
  b_nodes : list (GraphNode W);
  b_edges : list (GraphEdge W * option RouteSpec);
  b_entry : string;
  b_index : gmap string nat;
  b_sequential : gset string;
  b_steps : gmap string (list string);
  b_owner : gmap string (string * string);
  b_sequential_edges : list (string * string)
}.
Arguments mkBuilder {W}.
Arguments b_nodes {W}.
Arguments b_edges {W}.
Arguments b_entry {W}.
Arguments b_index {W}.
Arguments b_sequential {W}.
Arguments b_steps {W}.
Arguments b_owner {W}.
Arguments b_sequential_edges {W}.

(** [std::map::emplace] *)
Definition emplace {V} (k : string) (v : V) (m : gmap string V) : gmap string V :=
  match m !! k with Some _ => m | None => <[k := v]> m end.

(** A work list: pops the last entry, skips it when [skip] holds or it was seen
    before, and pushes what [next] gives.  [fuel] bounds the pops. *)
Fixpoint walk (next : string → option (list string)) (skip : string → bool) (fuel : nat) (todo seen : list string) :
    option (list string) :=
  match todo with
  | [] => Some seen
  | n :: rest =>
      match fuel with
      | O => None
      | S fuel' =>
          if skip n || mem n seen then walk next skip fuel' rest seen
          else match next n with
               | Some succs => walk next skip fuel' (reverse succs ++ rest) (seen ++ [n])
               | None => None
               end
      end
  end.

Section Builders.
Context {W : Type} `{JsonWriter} (source : string) (registry : gmap string (GraphFunctionFn W)).
Implicit Types (b : Builder W) (n : GraphNode W).

#[local] Abbreviation bad := (bad source).
#[local] Abbreviation warn := (warn source).
#[local] Abbreviation check_fields := (check_fields source).
#[local] Abbreviation read_string := (read_string source).
#[local] Abbreviation read_required_string := (read_required_string source).
#[local] Abbreviation read_string_array := (read_string_array source).
#[local] Abbreviation read_int := (read_int source).
#[local] Abbreviation read_bool := (read_bool source).
#[local] Abbreviation read_object := (read_object source).

Definition set_nodes b (ns : list (GraphNode W)) : Builder W :=
  mkBuilder ns (b_edges b) (b_entry b) (b_index b) (b_sequential b) (b_steps b) (b_owner b) (b_sequential_edges b).
Definition set_edges b es : Builder W :=
  mkBuilder (b_nodes b) es (b_entry b) (b_index b) (b_sequential b) (b_steps b) (b_owner b) (b_sequential_edges b).
Definition set_entry b e : Builder W :=
  mkBuilder (b_nodes b) (b_edges b) e (b_index b) (b_sequential b) (b_steps b) (b_owner b) (b_sequential_edges b).
Definition set_owner b o : Builder W :=
  mkBuilder (b_nodes b) (b_edges b) (b_entry b) (b_index b) (b_sequential b) (b_steps b) o (b_sequential_edges b).

(** [b.index.emplace(n.name, g.nodes.size()); g.nodes.push_back(n);] *)
Definition push_node b n : Builder W :=
  mkBuilder (b_nodes b ++ [n]) (b_edges b) (b_entry b) (emplace (node_name n) (length (b_nodes b)) (b_index b))
    (b_sequential b) (b_steps b) (b_owner b) (b_sequential_edges b).

Definition add_steps b (name : string) (s : list string) : Builder W :=
  mkBuilder (b_nodes b) (b_edges b) (b_entry b) (b_index b) ({[name]} ∪ b_sequential b) (emplace name s (b_steps b))
    (b_owner b) (b_sequential_edges b ++ [(name, default "" (head s))]).

Definition is_sequential b (name : string) : bool := bool_decide (name ∈ b_sequential b).

Definition indexed b (name : string) : bool := bool_decide (is_Some (b_index b !! name)).

Definition known b (name : string) : bool := indexed b name && negb (is_done name).

(** [g.nodes\[index.find(name)->second\]] *)
Definition get_node b (name : string) : option (GraphNode W) := b_index b !! name ≫= λ i, b_nodes b !! i.

Definition edge_from b (name : string) : option (GraphEdge W * option RouteSpec) :=
  find (λ e, str_eqb (from e.1) name) (b_edges b).

Definition not_end (name : string) : bool := negb (str_eqb name kGraphEnd).

Definition route_targets (r : RouteSpec) : list string :=
  List.filter not_end ((route_cases r).*2 ++ [route_fallback r]).

Definition successors b (name : string) : list string :=
  if is_sequential b name then [name +:+ kDoneSuffix]
  else match edge_from b name with
       | None => []
       | Some (e, Some route) => route_targets route
       | Some (e, None) => if not_end (to e) then [to e] else []
       end.

(** Every push of a work list comes from a node or is its start. *)
Definition walk_fuel b (next : string → list string) : nat :=
  S (sum_list (map (λ n, length (next (node_name n))) (b_nodes b))).

Definition chain b (start stop : string) : option (list string) :=
  walk (λ x, Some (successors b x)) (λ x, str_eqb x stop) (walk_fuel b (successors b)) [start] [].

(** [node(m).exit_to = target] *)
Definition set_node_exit b (m target : string) : option (Builder W) :=
  i ← b_index b !! m; n ← b_nodes b !! i; Some (set_nodes b (<[i := set_exit n target]> (b_nodes b))).

Definition two_owners (m first second : string) : string :=
  "node '" +:+ m +:+ "' is part of both " +:+ first +:+ " and " +:+ second +:+
  "; a node can belong to only one loop body, parallel branch or " +:+ "sequential step (or the top level)".

Definition claim_node (target label m : string) b : Parse (Builder W) :=
  match b_owner b !! m with
  | Some (t, l) => if str_eqb t target then mret b else bad "" (two_owners m l label)
  | None =>
      let b := set_owner b (<[m := (target, label)]> (b_owner b)) in
      if is_empty target then mret b else must (set_node_exit b m target)
  end.

Definition claim b (members : list string) (target label : string) : Parse (Builder W) :=
  for_each (claim_node target label) members b.

Definition claim_chain (start target label : string) b : Parse (Builder W) :=
  members ← must (chain b start target); claim b members target label.

(** The steps of a sequential node, each with what follows it. *)
Fixpoint step_targets (s : list string) (done : string) : list (string * string) :=
  match s with
  | [] => []
  | [x] => [(x, done)]
  | x :: ((y :: _) as rest) => (x, y) :: step_targets rest done
  end.

Definition claim_parts n b : Parse (Builder W) :=
  let name := node_name n in
  if is_done name then mret b
  else match kind n with
  | LoopNode => claim_chain (loop_body n) name ("loop '" +:+ name +:+ "' body") b
  | ParallelNode =>
      for_each (λ br, claim_chain br name ("parallel '" +:+ name +:+ "' branch '" +:+ br +:+ "'")) (branches n) b
  | _ =>
      if is_sequential b name then
        s ← must (b_steps b !! name);
        for_each (λ st, claim_chain st.1 st.2 ("sequential '" +:+ name +:+ "' step '" +:+ st.1 +:+ "'"))
          (step_targets s (name +:+ kDoneSuffix)) b
      else mret b
  end.

Definition assign_exits b : Parse (Builder W) :=
  b ← claim_chain (b_entry b) "" ("the top level (reachable from entry '" +:+ b_entry b +:+ "')") b;
  for_each claim_parts (b_nodes b) b.

(** ** Warnings *)

(** Everything [warn_unreachable] pushes for a node; [node(n)] must exist. *)
Definition reachable_from b (name : string) : option (list string) :=
  n ← get_node b name;
  Some (successors b name ++ (if is_empty (exit_to n) then [] else [exit_to n]) ++
        (match kind n with LoopNode => [loop_body n] | _ => [] end) ++ branches n ++
        default [] (b_steps b !! name)).

Definition warn_unreachable b : Parse unit :=
  seen ← must (walk (reachable_from b) (λ _, false) (walk_fuel b (λ x, default [] (reachable_from b x))) [b_entry b] []);
  for_each (λ n _,
    if negb (is_done (node_name n)) && negb (mem (node_name n) seen) then
      warn "" ("node '" +:+ node_name n +:+ "' is not reachable from entry '" +:+ b_entry b +:+ "'")
    else mret tt) (b_nodes b) tt.

Definition static_next b n : string :=
  match kind n with
  | LoopNode => ""
  | _ =>
      if is_sequential b (node_name n) then default "" (b_steps b !! node_name n ≫= head)
      else match edge_from b (node_name n) with
           | Some (e, _) =>
               match router e with
               | Some _ => ""
               | None => if not_end (to e) then to e else exit_to n
               end
           | None => exit_to n
           end
  end.

Inductive Mark := OnWalk | WalkDone.

(** One walk: the names on it and where it stopped. *)
Fixpoint static_walk b (fuel : nat) (cur : string) (state : gmap string Mark) (path : list string) :
    option (list string * string * gmap string Mark) :=
  if is_empty cur then Some (path, cur, state)
  else match state !! cur with
  | Some _ => Some (path, cur, state)
  | None =>
      match fuel with
      | O => None
      | S fuel' =>
          n ← get_node b cur;
          static_walk b fuel' (static_next b n) (<[cur := OnWalk]> state) (path ++ [cur])
      end
  end.

(** The part of the walk from [cur] on. *)
Fixpoint cycle_text (path : list string) (cur : string) : string :=
  match path with
  | [] => cur
  | w :: rest =>
      if str_eqb w cur then String.concat " -> " (path ++ [cur]) else cycle_text rest cur
  end.

Definition warn_walk b n (state : gmap string Mark) : Parse (gmap string Mark) :=
  match state !! node_name n with
  | Some _ => mret state
  | None =>
      '(path, cur, state) ← must (static_walk b (length (b_nodes b)) (node_name n) state []);
      (match (if is_empty cur then None else state !! cur) with
       | Some OnWalk =>
           warn "" ("cycle " +:+ cycle_text path cur +:+
                    " has no conditional edge or loop node; it only stops at max_steps or when a node interrupts")
       | _ => mret tt
       end) ;;
      mret (foldl (λ st w, <[w := WalkDone]> st) state path)
  end.

Definition warn_static_cycles b : Parse unit :=
  for_each (warn_walk b) (b_nodes b) ∅ ;; mret tt.

(** ** Nodes *)

Definition agent_node (obj : list (string * json)) (name loc : string) : Parse (GraphNode W) :=
  check_fields obj loc ["name"; "kind"; "system_prompt"; "prompt"; "input_key"; "output_key"; "allowed_tools";
                        "interrupt_before_tools"; "history_key"; "model"] ;;
  system_prompt ← read_string obj "system_prompt" "" loc;
  prompt ← read_string obj "prompt" "" loc;
  input_key ← read_string obj "input_key" "" loc;
  output_key ← read_string obj "output_key" "" loc;
  history_key ← read_string obj "history_key" "" loc;
  model ← read_string obj "model" "" loc;
  allowed ← read_string_array obj "allowed_tools" [] loc;
  before ← read_bool obj "interrupt_before_tools" false loc;
  (if is_empty prompt && is_empty input_key then
     warn loc ("agent node has neither " +:+ q +:+ "prompt" +:+ q +:+ " nor " +:+ q +:+ "input_key" +:+ q +:+
               "; it will run with an empty user message")
   else mret tt) ;;
  mret (mkGraphNode name AgentNode system_prompt allowed prompt input_key output_key before history_key None [] model
          None "" None [] "" 1 None "").

Definition tool_node (obj : list (string * json)) (name loc : string) : Parse (GraphNode W) :=
  check_fields obj loc ["name"; "kind"; "tool"; "args"; "input_key"; "output_key"] ;;
  tool ← read_required_string obj "tool" loc;
  input_key ← read_string obj "input_key" "" loc;
  output_key ← read_string obj "output_key" "" loc;
  args ← (match field "args" obj with
          | None => mret None
          | Some (JObj fields) =>
              (if is_empty input_key then mret tt
               else warn loc ("both " +:+ q +:+ "args" +:+ q +:+ " and " +:+ q +:+ "input_key" +:+ q +:+ " are set; " +:+
                              q +:+ "args" +:+ q +:+ " wins")) ;;
              mret (Some (static_tool_args (write_json (JObj fields))))
          | Some _ => bad loc (q +:+ "args" +:+ q +:+ " must be a JSON object")
          end);
  mret (mkGraphNode name ToolNode "" [] "" input_key output_key false "" None [] "" None tool args [] "" 1 None "").

Definition function_of (name : string) (f : GraphFunctionFn W) : GraphNode W :=
  mkGraphNode name FunctionNode "" [] "" "" "" false "" None [] "" (Some f) "" None [] "" 1 None "".

Definition function_node (obj : list (string * json)) (name loc : string) : Parse (GraphNode W) :=
  check_fields obj loc ["name"; "kind"; "function"] ;;
  fn ← read_required_string obj "function" loc;
  match registry !! fn with
  | None => bad loc ("function '" +:+ fn +:+ "' is not registered (call agent::register_graph_function first)")
  | Some f => mret (function_of name f)
  end.

Definition parallel_node (obj : list (string * json)) (name loc : string) : Parse (GraphNode W) :=
  check_fields obj loc ["name"; "kind"; "branches"] ;;
  bs ← read_string_array obj "branches" [] loc;
  match bs with
  | [] => bad loc ("parallel node needs a non-empty " +:+ q +:+ "branches" +:+ q +:+ " array")
  | _ => mret (fan_node name bs)
  end.

Definition read_until (obj : list (string * json)) (loc : string) : Parse (option UntilSpec) :=
  u ← read_object obj "until" loc;
  match u with
  | None => mret None
  | Some u =>
      let uw := loc +:+ " until" in
      check_fields u uw ["key"; "equals"] ;;
      key ← read_required_string u "key" uw;
      match field "equals" u with
      | None => bad uw ("missing required field " +:+ q +:+ "equals" +:+ q)
      | Some _ => equals ← read_string u "equals" "" uw; mret (Some (mkUntilSpec key equals))
      end
  end.

Definition parse_loop_node (obj : list (string * json)) (name loc : string) : Parse (GraphNode W) :=
  check_fields obj loc ["name"; "kind"; "body"; "max_iterations"; "until"] ;;
  body ← read_required_string obj "body" loc;
  iters ← read_int obj "max_iterations" 0 loc;
  if (iters <? 1)%Z then bad loc ("loop node needs " +:+ q +:+ "max_iterations" +:+ q +:+ " >= 1")
  else
    spec ← read_until obj loc;
    mret (loop_node name body iters (until_state_equals <$> spec)).

Definition sequential_steps (obj : list (string * json)) (loc : string) : Parse (list string) :=
  check_fields obj loc ["name"; "kind"; "steps"] ;;
  s ← read_string_array obj "steps" [] loc;
  match s with
  | [] => bad loc ("sequential node needs a non-empty " +:+ q +:+ "steps" +:+ q +:+ " array")
  | _ => mret s
  end.

(** The node of the given kind is added; a sequential node is a no-op with its
    steps recorded. *)
Definition add_node b (obj : list (string * json)) (name kind loc : string) : Parse (Builder W) :=
  if str_eqb kind "agent" then n ← agent_node obj name loc; mret (push_node b n)
  else if str_eqb kind "tool" then n ← tool_node obj name loc; mret (push_node b n)
  else if str_eqb kind "function" then n ← function_node obj name loc; mret (push_node b n)
  else if str_eqb kind "parallel" then n ← parallel_node obj name loc; mret (push_node b n)
  else if str_eqb kind "loop" then n ← parse_loop_node obj name loc; mret (push_node b n)
  else if str_eqb kind "sequential" then
    s ← sequential_steps obj loc; mret (push_node (add_steps b name s) (function_of name noop_function))
  else bad loc ("unknown kind '" +:+ kind +:+ "' (expected agent, tool, function, parallel, loop or sequential)").

Definition parse_node (el : json) b : Parse (Builder W) :=
  let idx := length (b_nodes b) in
  match get_object el with
  | None => bad (node_where idx "") "must be an object"
  | Some obj =>
      name ← read_required_string obj "name" (node_where idx "");
      let loc := node_where idx name in
      if negb (valid_node_name name) then
        bad loc ("invalid node name (must not be empty, " +:+ q +:+ "__end__" +:+ q +:+ " or contain '#')")
      else if indexed b name then bad loc ("duplicate node name '" +:+ name +:+ "'")
      else
        kind ← read_required_string obj "kind" loc;
        add_node b obj name kind loc
  end.

Definition add_done_nodes b : Builder W :=
  foldl (λ b name, push_node b (function_of (name +:+ kDoneSuffix) noop_function)) b (set_items (b_sequential b)).

(** ** References from workflow nodes *)

Definition check_branch b n loc (br : string) (_ : unit) : Parse unit :=
  if negb (known b br) then bad loc ("unknown node '" +:+ br +:+ "' in " +:+ q +:+ "branches" +:+ q)
  else if str_eqb br (node_name n) then bad loc "a parallel node cannot be its own branch"
  else mret tt.

Definition check_body b n loc : Parse unit :=
  match kind n with
  | LoopNode =>
      if negb (known b (loop_body n)) then bad loc ("unknown node '" +:+ loop_body n +:+ "' in " +:+ q +:+ "body" +:+ q)
      else if str_eqb (loop_body n) (node_name n) then bad loc "a loop node cannot be its own body"
      else mret tt
  | _ => mret tt
  end.

Definition check_step b n loc (s : string) (seen : list string) : Parse (list string) :=
  if negb (known b s) then bad loc ("unknown node '" +:+ s +:+ "' in " +:+ q +:+ "steps" +:+ q)
  else if str_eqb s (node_name n) then bad loc "a sequential node cannot be its own step"
  else if mem s seen then bad loc ("step '" +:+ s +:+ "' is listed twice")
  else mret (s :: seen).

Definition check_node b n (k : nat) : Parse nat :=
  if is_done (node_name n) then mret (S k)
  else
    let loc := node_where k (node_name n) in
    for_each (check_branch b n loc) (branches n) tt ;;
    check_body b n loc ;;
    match b_steps b !! node_name n with
    | Some steps => for_each (check_step b n loc) steps [] ;; mret (S k)
    | None => mret (S k)
    end.

Definition check_references b : Parse unit := for_each (check_node b) (b_nodes b) 0 ;; mret tt.

Definition resolve_entry b : Parse (Builder W) :=
  if is_empty (b_entry b) then
    n ← must (head (b_nodes b)); mret (set_entry b (node_name n))
  else if known b (b_entry b) then mret b
  else bad "" (q +:+ "entry" +:+ q +:+ " names unknown node '" +:+ b_entry b +:+ "'").

(** ** Edges *)

Definition target_ok b (t : string) : bool := str_eqb t kGraphEnd || known b t.

Definition read_case b rw (c : string * json) (cases : list (string * string)) : Parse (list (string * string)) :=
  match get_string c.2 with
  | None => bad rw ("case " +:+ q +:+ c.1 +:+ q +:+ " must map to a node name")
  | Some target =>
      if target_ok b target then mret (cases ++ [(c.1, target)])
      else bad rw ("case " +:+ q +:+ c.1 +:+ q +:+ ": unknown node '" +:+ target +:+ "'")
  end.

Definition read_route b (route : list (string * json)) (rw : string) : Parse RouteSpec :=
  check_fields route rw ["key"; "cases"; "default"] ;;
  key ← read_required_string route "key" rw;
  fallback ← read_string route "default" kGraphEnd rw;
  if negb (target_ok b fallback) then bad rw ("unknown node '" +:+ fallback +:+ "' in " +:+ q +:+ "default" +:+ q)
  else
    cases ← read_object route "cases" rw;
    match cases with
    | None => bad rw ("missing required field " +:+ q +:+ "cases" +:+ q)
    | Some cases => cs ← for_each (read_case b rw) cases []; mret (mkRouteSpec key cs fallback)
    end.

(** The target of an edge: [to] or the route. *)
Definition read_target b (obj : list (string * json)) (from_name loc : string) : Parse (GraphEdge W * option RouteSpec) :=
  route ← read_object obj "route" loc;
  match field "to" obj, route with
  | Some _, None =>
      t ← read_required_string obj "to" loc;
      if target_ok b t then mret (mkGraphEdge from_name t None, None)
      else bad loc ("unknown node '" +:+ t +:+ "' in " +:+ q +:+ "to" +:+ q)
  | None, Some route =>
      spec ← read_route b route (loc +:+ " route");
      mret (mkGraphEdge from_name "" (Some (route_on_state spec)), Some spec)
  | _, _ => bad loc ("an edge needs exactly one of " +:+ q +:+ "to" +:+ q +:+ " or " +:+ q +:+ "route" +:+ q)
  end.

(** [froms] is [from_seen]: the sources of the edges so far. *)
Definition parse_edge (el : json) (acc : list string * Builder W) : Parse (list string * Builder W) :=
  let '(froms, b) := acc in
  let loc := "edges[" +:+ to_string (Z.of_nat (length froms)) +:+ "]" in
  match get_object el with
  | None => bad loc "must be an object"
  | Some obj =>
      check_fields obj loc ["from"; "to"; "route"] ;;
      src ← read_required_string obj "from" loc;
      let loc := loc +:+ " (from " +:+ q +:+ src +:+ q +:+ ")" in
      if negb (known b src) then bad loc ("unknown node '" +:+ src +:+ "' in " +:+ q +:+ "from" +:+ q)
      else match list_find (src =.) froms with
      | Some (i, _) =>
          bad loc ("node '" +:+ src +:+ "' already has an outgoing edge (edges[" +:+ to_string (Z.of_nat i) +:+
                   "]); use a route for conditional targets or a parallel node to fan out")
      | None =>
          e ← read_target b obj (if is_sequential b src then src +:+ kDoneSuffix else src) loc;
          mret (froms ++ [src], set_edges b (b_edges b ++ [e]))
      end
  end.

Definition parse_edges (top : list (string * json)) b : Parse (Builder W) :=
  match field "edges" top with
  | None => mret b
  | Some el =>
      match get_array el with
      | None => bad "" (q +:+ "edges" +:+ q +:+ " must be an array")
      | Some items => '(_, b) ← for_each parse_edge items ([], b); mret b
      end
  end.

Definition add_sequential_edges b : Builder W :=
  set_edges b (b_edges b ++ ((λ p, (mkGraphEdge p.1 p.2 None, None)) <$> b_sequential_edges b)).

End Builders.

(** ** Documents *)

Record LoadedGraph (W : Type) := mkLoadedGraph {
  lg_graph : Graph W;
  lg_description : string;
  lg_engine : string;
  lg_model : string;
  lg_checkpointer : string;
  lg_mcp_servers : list McpServerConfig;
  lg_warnings : list string
}.
Arguments mkLoadedGraph {W}.
Arguments lg_graph {W}.
Arguments lg_description {W}.
Arguments lg_engine {W}.
Arguments lg_model {W}.
Arguments lg_checkpointer {W}.
Arguments lg_mcp_servers {W}.
Arguments lg_warnings {W}.

Section Document.
Context {W : Type} `{JsonWriter} (registry : gmap string (GraphFunctionFn W)).

Definition empty_builder (entry : string) : Builder W := mkBuilder [] [] entry ∅ ∅ ∅ ∅ [].

Definition graph_of (name : string) (max_steps : Z) (b : Builder W) : Graph W :=
  mkGraph name (b_entry b) (b_nodes b) (b_edges b).*1 max_steps.

Definition parse_servers (source : string) (top : list (string * json)) : Parse (list McpServerConfig) :=
  match field "mcp_servers" top with
  | None => mret []
  | Some el =>
      match get_array el with
      | None => bad source "" (q +:+ "mcp_servers" +:+ q +:+ " must be an array")
      | Some servers => parse_mcp_servers source servers
      end
  end.

Definition parse_nodes (source : string) (top : list (string * json)) (entry : string) : Parse (Builder W) :=
  match field "nodes" top with
  | None => bad source "" ("missing required field " +:+ q +:+ "nodes" +:+ q)
  | Some el =>
      match get_array el with
      | None => bad source "" (q +:+ "nodes" +:+ q +:+ " must be an array")
      | Some [] => bad source "" (q +:+ "nodes" +:+ q +:+ " is empty")
      | Some items => for_each (parse_node source registry) items (empty_builder entry)
      end
  end.

(** Nodes, references, entry and edges. *)
Definition build_graph (source : string) (top : list (string * json)) (entry : string) : Parse (Builder W) :=
  b ← parse_nodes source top entry;
  let b := add_done_nodes b in
  check_references source b ;;
  b ← resolve_entry source b;
  b ← parse_edges source top b;
  assign_exits source (add_sequential_edges b).

Definition parse_document (source : string) (root : json) (default_name : string) : Parse (LoadedGraph W) :=
  match get_object root with
  | None => bad source "" "the top level must be a JSON object"
  | Some top =>
      check_fields source top ""
        ["name"; "entry"; "engine"; "model"; "checkpointer"; "max_steps"; "mcp_servers"; "nodes"; "edges"] ;;
      name ← read_string source top "name" default_name "";
      description ← read_string source top "description" "" "";
      engine ← read_string source top "engine" "" "";
      model ← read_string source top "model" "" "";
      checkpointer ← read_string source top "checkpointer" "" "";
      entry ← read_string source top "entry" "" "";
      max_steps ← read_int source top "max_steps" 1000 "";
      if (max_steps <? 1)%Z then bad source "" (q +:+ "max_steps" +:+ q +:+ " must be >= 1")
      else if negb (mem checkpointer [""; "sqlite"; "memory"]) then
        bad source "" (q +:+ "checkpointer" +:+ q +:+ " must be " +:+ q +:+ "sqlite" +:+ q +:+ " or " +:+ q +:+ "memory" +:+ q)
      else
        servers ← parse_servers source top;
        b ← build_graph source top entry;
        warn_unreachable source b ;;
        warn_static_cycles source b ;;
        ws ← take_warnings;
        mret (mkLoadedGraph (graph_of name max_steps b) description engine model checkpointer servers ws)
  end.

(** The registry of functions. *)
Definition register_graph_function (name : string) (fn : GraphFunctionFn W) : gmap string (GraphFunctionFn W) :=
  <[name := fn]> registry.

Definition unregister_graph_function (name : string) : gmap string (GraphFunctionFn W) := delete name registry.

(** [std::filesystem::path(p).stem()] *)
Definition path_stem (p : string) : string :=
  let file := match rfind "/" p (String.length p) with
              | Some i => String.substring (i + 1) (String.length p - (i + 1)) p
              | None => p
              end in
  match rfind "." file (String.length file) with
  | Some 0 | None => file
  | Some i => if str_eqb file ".." then file else String.substring 0 i file
  end.

Context `{JsonParser} (src : JsonSource).

Definition starts_inline (t : string) : bool :=
  match bytes t with c :: _ => (byte_of c =? 123)%N || (byte_of c =? 91)%N | [] => false end.

(** The text and its label. *)
Definition read_source (path_or_json : string) : Result (string * string) :=
  let t := trim_ws path_or_json in
  if starts_inline t then Ok (path_or_json, "agent.json (inline)")
  else match read_file src t with
       | None => fail FilesystemError ("cannot open graph file '" +:+ t +:+ "'")
       | Some text => Ok (text, t)
       end.

Definition parse_graph_json (path_or_json : string) : option (Result (LoadedGraph W)) :=
  match read_source path_or_json with
  | Fail e => Some (Fail e)
  | Ok (text, source) =>
      match parse_json text with
      | None => Some (fail ParseError (source +:+ ": invalid JSON: " +:+ json_error_message src text))
      | Some root =>
          let name := if ends_with "(inline)" source then "graph" else path_stem source in
          match parse_document source root name [] with
          | Some (Ok (lg, _)) => Some (Ok lg)
          | Some (Fail e) => Some (Fail e)
          | None => None
          end
      end
  end.

End Document.

(** ** Loading into a session *)

(** What the loader uses of the MCP client (mcp_client.cpp). *)
Class McpClient (W : Type) := {
  list_mcp_servers : Session W → list string;
  connect_mcp_server : McpServerConfig → M W (Result (list (Tool W)));
  disconnect_mcp_server : string → M W (Result unit)
}.

Section Load.
Context {W : Type} `{JsonWriter} `{JsonParser} `{McpClient W} (registry : gmap string (GraphFunctionFn W)) (src : JsonSource).

Fixpoint rollback (connected : list string) : M W unit :=
  match connected with
  | [] => mret tt
  | name :: rest => disconnect_mcp_server name ;; rollback rest
  end.

(** Connects the servers from number [i] on; [connected] are those of this call. *)
Fixpoint connect_servers (existing : list string) (i : nat) (servers : list McpServerConfig) (connected ws : list string) :
    M W (list string * Result (list string)) :=
  match servers with
  | [] => mret (connected, Ok ws)
  | cfg :: rest =>
      let loc := "mcp_servers[" +:+ to_string (Z.of_nat i) +:+ "]" in
      if mem (mcp_name cfg) existing then
        connect_servers existing (S i) rest connected
          (ws ++ [loc +:+ ": server '" +:+ mcp_name cfg +:+ "' is already connected; reusing it"])
      else
        res ← connect_mcp_server cfg;
        match res with
        | Fail e =>
            mret (connected, fail (code e) (loc +:+ " (" +:+ q +:+ mcp_name cfg +:+ q +:+ "): " +:+ message e))
        | Ok _ => connect_servers existing (S i) rest (connected ++ [mcp_name cfg]) ws
        end
  end.

(** The tool check of one node after another. *)
Fixpoint check_tools (graph : string) (tools : gmap string nat) (ns : list (GraphNode W)) (ws : list string) :
    Result (list string) :=
  match ns with
  | [] => Ok ws
  | n :: rest =>
      if bool_decide (kind n = ToolNode) && bool_decide (tools !! node_tool_name n = None) then
        fail InvalidConfig ("graph '" +:+ graph +:+ "': tool node '" +:+ node_name n +:+ "' uses unknown tool '" +:+
                            node_tool_name n +:+ "'")
      else
        let unknown := List.filter (λ t, bool_decide (tools !! t = None)) (node_allowed_tools n) in
        check_tools graph tools rest
          (ws ++ ((λ t, "graph '" +:+ graph +:+ "': agent node '" +:+ node_name n +:+ "' allows unknown tool '" +:+ t +:+ "'")
                    <$> unknown))
  end.

Fixpoint log_warnings (ws : list string) : M W unit :=
  match ws with [] => mret tt | w :: rest => log LogWarning w ;; log_warnings rest end.

Definition set_warnings (lg : LoadedGraph W) (ws : list string) : LoadedGraph W :=
  mkLoadedGraph (lg_graph lg) (lg_description lg) (lg_engine lg) (lg_model lg) (lg_checkpointer lg) (lg_mcp_servers lg) ws.

Definition load_graph_json (path_or_json : string) : M W (option (Result (LoadedGraph W))) :=
  match parse_graph_json registry src path_or_json with
  | None => mret None
  | Some (Fail e) => mret (Some (Fail e))
  | Some (Ok lg) =>
      existing ← ask (λ rt, list_mcp_servers (rt_session rt));
      '(connected, res) ← connect_servers existing 0 (lg_mcp_servers lg) [] (lg_warnings lg);
      match res with
      | Fail e => rollback connected ;; mret (Some (Fail e))
      | Ok ws =>
          tools ← ask (λ rt, tool_by_name (rt_session rt));
          match check_tools (graph_name (lg_graph lg)) tools (nodes (lg_graph lg)) ws with
          | Fail e => rollback connected ;; mret (Some (Fail e))
          | Ok ws => log_warnings ws ;; mret (Some (Ok (set_warnings lg ws)))
          end
      end
  end.

End Load.
