(* ===== verification/GraphJsonTheory.v ===== *)
(** * Graph files: what a loaded graph is

    Every document is either refused with an error or gives a graph that
    [validate] accepts, whose routers only name its nodes, and on which
    [run_graph] returns; the loader itself always returns and never looks up a
    node that does not exist.  A failed load leaves no MCP server behind. *)
From stdpp Require Import base gmap strings list pretty sorting.
From Stdlib Require Import Lia ZArith.
From S2P Require Import Prelude Arena Text Decimal Json Session Provider Tools History Turn Graph Checkpoint Checkpointer GraphExec GraphRun GraphTheory GraphTerm Models GraphJson.

(** ** Specifications of parsers *)

(** [m] returns, and what it gives satisfies [Q]. *)
Definition ensures {A} (m : Parse A) (Q : A → Prop) : Prop :=
  ∀ ws, ∃ r, m ws = Some r ∧ ∀ a ws', r = Ok (a, ws') → Q a.

Lemma ensures_ret {A} (a : A) (Q : A → Prop) : Q a → ensures (mret a) Q.
Proof. intros Ha ws. eexists. split; [done|]. by intros ? ? [= <- <-]. Qed.

Lemma ensures_bind {A B} (m : Parse A) (k : A → Parse B) Q1 Q :
  ensures m Q1 → (∀ a, Q1 a → ensures (k a) Q) → ensures (m ≫= k) Q.
Proof.
  intros Hm Hk ws. unfold mbind, Parse_bind. destruct (Hm ws) as ([[a ws']|e] & -> & Ha); [|by eexists].
  apply Hk. by eapply Ha.
Qed.

Lemma ensures_bad {A} source loc msg (Q : A → Prop) : ensures (bad source loc msg) Q.
Proof. intros ws. eexists. by split. Qed.

Lemma ensures_warn source loc msg (Q : unit → Prop) : Q tt → ensures (warn source loc msg) Q.
Proof. intros Hq ws. eexists. split; [done|]. by intros ? ? [= <- <-]. Qed.

Lemma ensures_must {A} (o : option A) (Q : A → Prop) : (∃ a, o = Some a ∧ Q a) → ensures (must o) Q.
Proof. intros (a & -> & Ha). by apply ensures_ret. Qed.

Lemma ensures_weaken {A} (m : Parse A) (Q Q' : A → Prop) : ensures m Q → (∀ a, Q a → Q' a) → ensures m Q'.
Proof. intros Hm Hq ws. destruct (Hm ws) as (r & Hr & Ha). exists r. split; [done|]. eauto. Qed.

(** A loop with an invariant on the items before and the state. *)
Lemma ensures_for_each {A S} (f : A → S → Parse S) (l : list A) (I : list A → S → Prop) s :
  I [] s → (∀ done x rest s, l = done ++ x :: rest → I done s → ensures (f x s) (I (done ++ [x]))) →
  ensures (for_each f l s) (I l).
Proof.
  intros Hs Hf. assert (Hgen : ∀ rest done s, l = done ++ rest → I done s → ensures (for_each f rest s) (I l)).
  { induction rest as [|x rest IH]; intros done s' -> Hi; cbn [for_each].
    - rewrite app_nil_r in *. by apply ensures_ret.
    - eapply ensures_bind; [by eapply Hf|]. intros s'' Hi'. eapply IH; [|done]. by rewrite <-app_assoc. }
  by apply (Hgen l []).
Qed.

(** A loop that only checks. *)
Lemma ensures_all {A S} (f : A → S → Parse S) (l : list A) (s : S) (P : A → Prop) :
  (∀ x s, x ∈ l → ensures (f x s) (λ _, P x)) → ensures (for_each f l s) (λ _, Forall P l).
Proof.
  intros Hf. apply (ensures_for_each f l (λ done _, Forall P done)); [constructor|].
  intros done x rest s' Hl Hd. eapply ensures_weaken; [apply Hf; rewrite Hl; set_solver|]. intros ? Hx.
  apply Forall_app. split; [done|]. by constructor.
Qed.

Create HintDb parse.
#[local] Hint Resolve ensures_bad : parse.

(** Steps through a reader. *)
Ltac ensure :=
  lazymatch goal with
  | |- ensures (mret _) _ => apply ensures_ret
  | |- ensures (bad _ _ _) _ => apply ensures_bad
  | |- ensures (warn _ _ _) _ => apply ensures_warn
  | |- ensures (_ ≫= _) _ => eapply ensures_bind with (Q1 := λ _, True); [|intros ? _]
  | |- ensures (match ?x with _ => _ end) _ => destruct x eqn:?
  end.

Section Readers.
Context (source : string).
Implicit Types (obj : list (string * json)).

Lemma check_fields_ok obj loc known : ensures (check_fields source obj loc known) (λ _, True).
Proof.
  unfold check_fields. apply (ensures_for_each _ _ (λ _ _, True)); [done|]. intros _ kv _ [] _ _. by repeat ensure.
Qed.

Lemma read_string_ok obj key out loc : ensures (read_string source obj key out loc) (λ _, True).
Proof. unfold read_string. by repeat ensure. Qed.

Lemma read_required_ok obj key loc : ensures (read_required_string source obj key loc) (λ s, s ≠ "").
Proof.
  unfold read_required_string. destruct (field key obj); [|apply ensures_bad].
  eapply ensures_bind; [apply read_string_ok|]. intros s _. destruct (is_empty s) eqn:E; [apply ensures_bad|].
  apply ensures_ret. by apply is_empty_false.
Qed.

Lemma read_strings_ok key loc items out : ensures (read_strings source key loc items out) (λ _, True).
Proof. revert out. induction items as [|i items IH]; intros out; simpl; repeat ensure; auto. Qed.

Lemma read_string_array_ok obj key out loc : ensures (read_string_array source obj key out loc) (λ _, True).
Proof. unfold read_string_array. repeat ensure; try done. apply read_strings_ok. Qed.

Lemma read_int_ok obj key out loc : ensures (read_int source obj key out loc) (λ _, True).
Proof. unfold read_int. by repeat ensure. Qed.

Lemma read_bool_ok obj key out loc : ensures (read_bool source obj key out loc) (λ _, True).
Proof. unfold read_bool. by repeat ensure. Qed.

Lemma read_object_ok obj key loc : ensures (read_object source obj key loc) (λ _, True).
Proof. unfold read_object. by repeat ensure. Qed.

End Readers.

#[local] Hint Resolve check_fields_ok read_string_ok read_string_array_ok read_int_ok read_bool_ok read_object_ok : parse.

(** Steps through readers whose results are not constrained. *)
Ltac ensures_auto := repeat first [ensure | solve [eauto with parse] | done].

Lemma read_required_any source obj key loc : ensures (read_required_string source obj key loc) (λ _, True).
Proof. eapply ensures_weaken; [apply read_required_ok|done]. Qed.
#[local] Hint Resolve read_required_any : parse.

Lemma read_sandbox_ok source obj out loc : ensures (read_sandbox source obj out loc) (λ _, True).
Proof.
  unfold read_sandbox. destruct (field "sandbox" obj) as [[]|]; ensures_auto. unfold read_memory_limit. ensures_auto.
Qed.
#[local] Hint Resolve read_sandbox_ok : parse.

Lemma parse_mcp_server_ok source el loc : ensures (parse_mcp_server source el loc) (λ _, True).
Proof.
  unfold parse_mcp_server. ensures_auto. eapply ensures_weaken; [apply (ensures_for_each _ _ (λ _ _, True)); [done|]|done].
  intros _ kv _ env _ _. unfold read_env. ensures_auto.
Qed.
#[local] Hint Resolve parse_mcp_server_ok : parse.

Lemma parse_servers_ok source top : ensures (parse_servers source top) (λ _, True).
Proof.
  unfold parse_servers, parse_mcp_servers. ensures_auto.
  eapply ensures_weaken; [apply (ensures_for_each _ _ (λ _ _, True)); [done|]|done]. intros _ s _ acc _ _. ensures_auto.
Qed.
#[local] Hint Resolve parse_servers_ok : parse.

(** ** Names *)

Lemma is_done_suffix x : is_done (x +:+ kDoneSuffix) = true.
Proof.
  unfold is_done, ends_with, kDoneSuffix. apply andb_true_iff.
  assert (Hl : String.length (x +:+ "#done") = String.length x + 5).
  { rewrite <-!bytes_length, bytes_app, length_app. done. }
  split; [apply bool_decide_eq_true; simpl in *; lia|]. apply str_eqb_true. rewrite Hl. simpl (String.length "#done").
  replace (String.length x + 5 - 5) with (String.length x) by lia. clear Hl.
  induction x as [|c x IH]; [done|]. exact IH.
Qed.

Lemma substring_app_l (i k : nat) (s : string) c :
  c ∈ bytes (String.substring i k s) → c ∈ bytes s.
Proof.
  revert i k. induction s as [|d s IH]; intros [|i] [|k]; simpl; try done.
  - intros Hn. by apply elem_of_nil in Hn.
  - intros [->|Hc]%elem_of_cons; [by left|]. right. by apply (IH 0 k).
  - intros Hc. right. by eapply IH.
  - intros Hc. right. by eapply IH.
Qed.

Lemma is_done_hash x : is_done x = true → has_hash x = true.
Proof.
  unfold is_done, ends_with, has_hash. intros [_ E%str_eqb_true]%andb_true_iff. apply existsb_exists.
  exists (Ascii.ascii_of_nat 35). split; [|done]. apply list_elem_of_In. eapply substring_app_l. rewrite E. by left.
Qed.

Lemma suffix_inj x y : x +:+ kDoneSuffix = y +:+ kDoneSuffix → x = y.
Proof. intros E%(f_equal bytes). rewrite !bytes_app in E. apply bytes_inj. by eapply app_inv_tail. Qed.

Lemma suffix_hash x : has_hash (x +:+ kDoneSuffix) = true.
Proof. apply is_done_hash, is_done_suffix. Qed.

Lemma mem_true x l : mem x l = true ↔ x ∈ l.
Proof.
  unfold mem. rewrite existsb_exists. split.
  - intros (y & Hy & ->%str_eqb_true). by apply list_elem_of_In.
  - intros Hx. exists x. split; [by apply list_elem_of_In|apply str_eqb_refl].
Qed.

Lemma mem_false x l : mem x l = false ↔ x ∉ l.
Proof. rewrite <-mem_true. by destruct (mem x l). Qed.

(** ** Work lists *)

Lemma filter_ext_in {A} (P Q : A → Prop) `{!∀ x, Decision (P x)} `{!∀ x, Decision (Q x)} (l : list A) :
  (∀ x, x ∈ l → P x ↔ Q x) → filter P l = filter Q l.
Proof.
  induction l as [|x l IH]; intros Hpq; [done|]. rewrite !filter_cons. rewrite IH by (intros; apply Hpq; by right).
  destruct (Hpq x ltac:(by left)). do 2 case_decide; naive_solver.
Qed.

Section Walk.
Context (next : string → option (list string)) (skip : string → bool).

(** What a finished walk has seen is closed under [next], skipped names apart. *)
Lemma walk_closed fuel todo seen out :
  walk next skip fuel todo seen = Some out →
  seen ⊆ out ∧ (∀ x, x ∈ todo → skip x = true ∨ x ∈ out) ∧
  (∀ x, x ∈ out → x ∈ seen ∨ skip x = false ∧ ∃ l, next x = Some l ∧ ∀ y, y ∈ l → skip y = true ∨ y ∈ out).
Proof.
  revert todo seen. induction fuel as [|fuel IH]; intros [|n todo] seen Hw; simpl in Hw; try done.
  - injection Hw as <-. split_and!; [done|set_solver|by left].
  - injection Hw as <-. split_and!; [done|set_solver|by left].
  - destruct (skip n || mem n seen) eqn:Es.
    + destruct (IH _ _ Hw) as (Hs & Ht & Hc). split_and!; [done| |done].
      intros x [->|Hx]%elem_of_cons; [|by apply Ht]. apply orb_true_iff in Es as [Es|Es%mem_true]; [by left|right; set_solver].
    + apply orb_false_iff in Es as [Es1 Es2%mem_false]. destruct (next n) as [l|] eqn:En; [|done].
      destruct (IH _ _ Hw) as (Hs & Ht & Hc). split_and!.
      * set_solver.
      * intros x [->|Hx]%elem_of_cons; [right; set_solver|]. apply Ht. set_solver.
      * intros x Hx. destruct (Hc x Hx) as [Hin|?]; [|by right].
        apply elem_of_app in Hin as [?| ->%list_elem_of_singleton]; [by left|]. right. split; [done|]. exists l. split; [done|].
        intros y Hy. apply Ht. apply elem_of_app. left. by apply elem_of_reverse.
Qed.

Lemma walk_incl (D : list string) fuel todo seen out :
  (∀ x l, x ∈ D → next x = Some l → l ⊆ D) → todo ⊆ D → seen ⊆ D → walk next skip fuel todo seen = Some out → out ⊆ D.
Proof.
  intros Hn. revert todo seen. induction fuel as [|fuel IH]; intros [|n todo] seen Ht Hs Hw; simpl in Hw; try done.
  - by injection Hw as <-.
  - by injection Hw as <-.
  - destruct (skip n || mem n seen); [eapply IH; [|done|exact Hw]; set_solver|].
    destruct (next n) as [l|] eqn:En; [|done]. assert (n ∈ D) by set_solver. specialize (Hn n l ltac:(done) En).
    eapply IH; [| |exact Hw]; [|set_solver]. intros x [Hx%elem_of_reverse|Hx]%elem_of_app; set_solver.
Qed.

(** Pushes still to come from names not seen yet. *)
Definition pending_pushes (D seen : list string) : nat :=
  sum_list (map (λ x, length (default [] (next x))) (filter (λ x, x ∉ seen) D)).

Lemma pending_seen D seen n l :
  NoDup D → n ∈ D → n ∉ seen → next n = Some l → pending_pushes D seen = length l + pending_pushes D (seen ++ [n]).
Proof.
  intros Hd Hn Hs En. unfold pending_pushes. induction Hd as [|x D Hx Hd IH]; [set_solver|].
  rewrite !filter_cons. destruct (decide (x = n)) as [->|Hne].
  - rewrite decide_True by done. rewrite decide_False by set_solver. simpl. rewrite En. simpl. f_equal. f_equal. f_equal.
    apply filter_ext_in. intros y Hy. split; [|set_solver].
    intros Hys. apply not_elem_of_app. split; [done|]. intros ->%list_elem_of_singleton. done.
  - assert (Hn' : n ∈ D) by set_solver. specialize (IH Hn').
    destruct (decide (x ∉ seen)) as [H1|H1].
    + rewrite decide_True by set_solver. simpl. lia.
    + rewrite decide_False by set_solver. done.
Qed.

Lemma walk_total (D : list string) fuel todo seen :
  NoDup D → (∀ x, x ∈ D → ∃ l, next x = Some l ∧ l ⊆ D) → todo ⊆ D →
  length todo + pending_pushes D seen ≤ fuel → ∃ out, walk next skip fuel todo seen = Some out.
Proof.
  intros Hd Hn. revert todo seen. induction fuel as [|fuel IH]; intros [|n todo] seen Ht Hf; simpl in *; try (by eexists); [lia|].
  destruct (skip n || mem n seen) eqn:Es; [apply IH; [set_solver|lia]|].
  apply orb_false_iff in Es as [_ Es%mem_false]. assert (Hin : n ∈ D) by set_solver.
  destruct (Hn n Hin) as (l & En & Hl). rewrite En. apply IH.
  - intros x [Hx%elem_of_reverse|Hx]%elem_of_app; set_solver.
  - rewrite (pending_seen D seen n l) in Hf by done. rewrite length_app, length_reverse. lia.
Qed.

End Walk.

(** ** The nodes of a document *)

Section Built.
Context {W : Type} `{JsonWriter} (source : string) (registry : gmap string (GraphFunctionFn W)).
Implicit Types (b : Builder W) (n : GraphNode W).

Definition bnames b : list string := map node_name (b_nodes b).

Definition tame_registry : Prop :=
  ∀ k f, registry !! k = Some f → ∀ s gs w, config (f s gs w).1.1.1 = config s.

(** What a node satisfies on its own. *)
Record local_ok n : Prop := {
  lo_name : name_ok (node_name n);
  lo_kind : match kind n with
            | AgentNode => True
            | FunctionNode => function n ≠ None
            | ToolNode => node_tool_name n ≠ ""
            | ParallelNode => branches n ≠ []
            | LoopNode => (1 ≤ max_iterations n)%Z
            end;
  lo_done : is_done (node_name n) = true → kind n = FunctionNode ∧ branches n = [];
  lo_tame : tame_registry → tame_node n
}.

Record nodes_inv b : Prop := {
  ni_index : ∀ x i, b_index b !! x = Some i ↔ ∃ n, b_nodes b !! i = Some n ∧ node_name n = x;
  ni_local : Forall local_ok (b_nodes b);
  ni_seq : ∀ x, x ∈ b_sequential b ↔ is_Some (b_steps b !! x);
  ni_seq_node : ∀ x, x ∈ b_sequential b →
    has_hash x = false ∧ ∃ n, n ∈ b_nodes b ∧ node_name n = x ∧ kind n = FunctionNode;
  ni_steps : ∀ x s, b_steps b !! x = Some s → s ≠ [];
  ni_seq_edges : NoDup (b_sequential_edges b).*1;
  ni_seq_edge : ∀ x y, (x, y) ∈ b_sequential_edges b → ∃ s, b_steps b !! x = Some (y :: s)
}.

Lemma bnames_lookup b x : x ∈ bnames b ↔ ∃ i n, b_nodes b !! i = Some n ∧ node_name n = x.
Proof.
  unfold bnames. split.
  - intros (n & -> & [i Hi]%list_elem_of_lookup)%list_elem_of_fmap. eauto.
  - intros (i & n & Hi & <-). apply list_elem_of_fmap. exists n. split; [done|]. by eapply list_elem_of_lookup_2.
Qed.

Lemma indexed_spec b x : nodes_inv b → indexed b x = true ↔ x ∈ bnames b.
Proof.
  intros Hb. unfold indexed. rewrite bool_decide_eq_true, bnames_lookup. split.
  - intros [i Hi]. apply (ni_index b Hb) in Hi as (n & ? & ?). eauto.
  - intros (i & n & Hi & Hn). exists i. apply (ni_index b Hb). eauto.
Qed.

Lemma bnames_NoDup b : nodes_inv b → NoDup (bnames b).
Proof.
  intros Hb. apply NoDup_alt. intros i j x Hi Hj. unfold bnames in *.
  apply list_lookup_fmap_Some in Hi as (n & -> & Hi). apply list_lookup_fmap_Some in Hj as (m & Hm & Hj).
  assert (b_index b !! node_name n = Some i) by (apply (ni_index b Hb); eauto).
  assert (b_index b !! node_name n = Some j) by (apply (ni_index b Hb); eauto). congruence.
Qed.

Lemma get_node_spec b x n : nodes_inv b → get_node b x = Some n ↔ n ∈ b_nodes b ∧ node_name n = x.
Proof.
  intros Hb. unfold get_node. split.
  - intros (i & Hi & Hn)%bind_Some. apply (ni_index b Hb) in Hi as (m & Hm & Hx). simplify_eq. split; [|done].
    by eapply list_elem_of_lookup_2.
  - intros ([i Hi]%list_elem_of_lookup & Hx). apply bind_Some. exists i. split; [|done]. apply (ni_index b Hb). eauto.
Qed.

Lemma get_node_ex b x : nodes_inv b → x ∈ bnames b → ∃ n, get_node b x = Some n.
Proof.
  intros Hb (n & -> & Hn)%list_elem_of_fmap. exists n. by apply get_node_spec.
Qed.

(** Names may be taken by a sequential node before it is pushed. *)
Lemma push_inv b n (s : option (list string)) :
  nodes_inv b → node_name n ∉ bnames b → local_ok n →
  (∀ l, s = Some l → l ≠ [] ∧ kind n = FunctionNode ∧ has_hash (node_name n) = false ∧ b_steps b !! node_name n = None) →
  nodes_inv (push_node (match s with Some l => add_steps b (node_name n) l | None => b end) n).
Proof.
  intros Hb Hn Hl Hs. set (x := node_name n) in *.
  assert (Hfresh : b_index b !! x = None).
  { pose proof (indexed_spec b x Hb) as Hi. unfold indexed in Hi. rewrite bool_decide_eq_true in Hi.
    destruct (b_index b !! x); [|done]. destruct Hn. by apply Hi. }
  assert (Hidx : ∀ y i, emplace x (length (b_nodes b)) (b_index b) !! y = Some i ↔
    ∃ m, (b_nodes b ++ [n]) !! i = Some m ∧ node_name m = y).
  { intros y i. unfold emplace. rewrite Hfresh. destruct (decide (y = x)) as [->|Hne].
    - rewrite lookup_insert_eq. split.
      + intros [= <-]. exists n. split; [|done]. by apply list_lookup_middle.
      + intros (m & Hm & Hx). apply lookup_app_Some in Hm as [Hm|[Hlen Hm]].
        * destruct Hn. apply bnames_lookup. eauto.
        * apply list_lookup_singleton_Some in Hm as [Hi <-]. f_equal. lia.
    - rewrite lookup_insert_ne by done. rewrite (ni_index b Hb). split.
      + intros (m & Hm & <-). exists m. split; [by apply lookup_app_l_Some|done].
      + intros (m & Hm & <-). apply lookup_app_Some in Hm as [Hm|[_ [_ <-]%list_lookup_singleton_Some]]; [eauto|done]. }
  assert (Hloc : Forall local_ok (b_nodes b ++ [n])) by (apply Forall_app; split; [apply Hb|by constructor]).
  destruct s as [l|].
  - destruct (Hs l eq_refl) as (Hne & Hk & Hh & Hst). split; cbn; try done.
    + intros y. rewrite elem_of_union, elem_of_singleton, (ni_seq b Hb). unfold emplace. fold x in Hst. rewrite Hst.
      destruct (decide (y = x)) as [->|]; [rewrite lookup_insert_eq; naive_solver|rewrite lookup_insert_ne by done; naive_solver].
    + intros y [->%elem_of_singleton|Hy]%elem_of_union; [|].
      * split; [done|]. exists n. split_and!; [set_solver|done|done].
      * destruct (ni_seq_node b Hb y Hy) as (? & m & ? & ? & ?). split; [done|]. exists m. split_and!; [set_solver|done|done].
    + intros y t. unfold emplace. rewrite Hst. destruct (decide (y = x)) as [->|].
      * rewrite lookup_insert_eq. by intros [= <-].
      * rewrite lookup_insert_ne by done. apply (ni_steps b Hb).
    + rewrite fmap_app. apply NoDup_app. split_and!; [apply Hb| |apply NoDup_singleton].
      intros y ([z w] & Hyz & Hz)%list_elem_of_fmap Hyx%list_elem_of_singleton. simpl in Hyz, Hyx. subst.
      destruct (ni_seq_edge b Hb _ _ Hz) as [? E]. congruence.
    + intros y z [Hy|Hy]%elem_of_app.
      * destruct (ni_seq_edge b Hb _ _ Hy) as [t Ht]. exists t. unfold emplace. rewrite Hst.
        rewrite lookup_insert_ne; [done|]. intros <-. congruence.
      * apply list_elem_of_singleton in Hy as [= -> ->]. unfold emplace. rewrite Hst, lookup_insert_eq.
        destruct l as [|a l]; [done|]. by exists l.
  - split; cbn; try done; try apply Hb.
    intros y Hy. destruct (ni_seq_node b Hb y Hy) as (? & m & ? & ? & ?). split; [done|]. exists m. split_and!; [set_solver|done|done].
Qed.

(** ** Reading a node *)

Lemma local_plain n :
  name_ok (node_name n) → is_done (node_name n) = false → node_hooks n = [] → context_provider n = None →
  (∀ f, function n = Some f → f = noop_function ∨ ∃ k, registry !! k = Some f) →
  (∀ f, tool_args n = Some f → ∃ t, f = static_tool_args t) → (∀ f, until n = Some f → ∃ u, f = until_state_equals u) →
  match kind n with
  | AgentNode => True
  | FunctionNode => function n ≠ None
  | ToolNode => node_tool_name n ≠ ""
  | ParallelNode => branches n ≠ []
  | LoopNode => (1 ≤ max_iterations n)%Z
  end → local_ok n.
Proof.
  intros Hn Hd Hh Hc Hf Ha Hu Hk. split; [done|done|by rewrite Hd|]. intros Ht. split.
  - rewrite Hh. constructor.
  - by rewrite Hc.
  - intros f Ef. destruct (Hf f Ef) as [->|[k Hr]]; [done|]. by eapply Ht.
  - intros f Ef. destruct (Ha f Ef) as [t ->]. by intros s gs w.
  - intros f Ef. destruct (Hu f Ef) as [u ->]. by intros s gs w.
Qed.

Lemma local_function name f :
  name_ok name → (f = noop_function ∨ ∃ k, registry !! k = Some f) → local_ok (function_of name f).
Proof.
  intros Hn Hf. split; [done|done|done|]. intros Ht. split; simpl; try done.
  intros f' [= <-]. destruct Hf as [->|[k Hr]]; [done|]. by eapply Ht.
Qed.

Context (name : string) (Hname : name_ok name) (Hplain : is_done name = false).

(** The node a reader gives: well formed, named [name]. *)
Definition read_ok n : Prop := node_name n = name ∧ local_ok n ∧ exit_to n = "".

Lemma agent_node_ok obj loc : ensures (agent_node source obj name loc) read_ok.
Proof. unfold agent_node. ensures_auto. split_and!; [done| |done]. by apply local_plain. Qed.

Lemma tool_node_ok obj loc : ensures (tool_node source obj name loc) read_ok.
Proof.
  unfold tool_node. eapply ensures_bind; [apply check_fields_ok|]. intros _ _.
  eapply ensures_bind; [apply read_required_ok|]. intros tool Htool. do 2 (eapply ensures_bind; [apply read_string_ok|]; intros ? _).
  eapply ensures_bind with (Q1 := λ o, ∀ f, o = Some f → ∃ t, f = static_tool_args t).
  - destruct (field "args" obj) as [[]|]; ensures_auto. intros f [= <-]. eauto.
  - intros args Ha. apply ensures_ret. split_and!; [done| |done]. by apply local_plain.
Qed.

Lemma function_node_ok obj loc : ensures (function_node source registry obj name loc) read_ok.
Proof. unfold function_node. ensures_auto. split_and!; [done| |done]. apply local_function; [done|]. eauto. Qed.

Lemma parallel_node_ok obj loc : ensures (parallel_node source obj name loc) read_ok.
Proof. unfold parallel_node. ensures_auto. split_and!; [done| |done]. by apply local_plain. Qed.

Lemma loop_node_ok obj loc : ensures (parse_loop_node source obj name loc) read_ok.
Proof.
  unfold parse_loop_node. ensures_auto; [unfold read_until; ensures_auto|]. split_and!; [done| |done]. apply local_plain; try done.
  - simpl. intros f (u & _ & ->)%fmap_Some. eauto.
  - simpl. by apply Z.ltb_ge.
Qed.

Lemma sequential_steps_ok obj loc : ensures (sequential_steps source obj loc) (λ s, s ≠ []).
Proof. unfold sequential_steps. by ensures_auto. Qed.

(** Nodes read so far: hash-free names, no edges, nobody owned. *)
Record read_inv b : Prop := {
  ri_nodes : nodes_inv b;
  ri_plain : Forall (λ n, has_hash (node_name n) = false) (b_nodes b);
  ri_exits : Forall (λ n, exit_to n = "") (b_nodes b);
  ri_edges : b_edges b = [];
  ri_owner : b_owner b = ∅
}.

Lemma push_read b n s :
  read_inv b → node_name n ∉ bnames b → local_ok n → exit_to n = "" → has_hash (node_name n) = false →
  (∀ l, s = Some l → l ≠ [] ∧ kind n = FunctionNode) →
  read_inv (push_node (match s with Some l => add_steps b (node_name n) l | None => b end) n).
Proof.
  intros Hb Hn Hl He Hh Hs. split.
  - apply push_inv; [apply Hb|done|done|]. intros l Hl'. destruct (Hs l Hl') as [? ?]. split_and!; try done.
    destruct (b_steps b !! node_name n) eqn:E; [|done]. destruct Hn.
    destruct (ni_seq_node b (ri_nodes b Hb) (node_name n)) as (_ & m & Hm & <- & _);
      [apply (ni_seq b (ri_nodes b Hb)); by rewrite E|]. by apply list_elem_of_fmap_2.
  - destruct s; cbn; apply Forall_app; (split; [apply Hb|by constructor]).
  - destruct s; cbn; apply Forall_app; (split; [apply Hb|by constructor]).
  - destruct s; apply Hb.
  - destruct s; apply Hb.
Qed.

Lemma add_node_ok b obj kind loc :
  read_inv b → name ∉ bnames b → has_hash name = false →
  ensures (add_node source registry b obj name kind loc) (λ b', read_inv b' ∧ b_entry b' = b_entry b ∧ b_nodes b' ≠ []).
Proof.
  intros Hb Hn Hh. assert (Hpush : ∀ n, read_ok n → read_inv (push_node b n) ∧ b_entry (push_node b n) = b_entry b ∧
    b_nodes (push_node b n) ≠ []).
  { intros n (<- & Hl & He). split_and!; [|done|cbn; by destruct (b_nodes b)]. by apply (push_read b n None). }
  unfold add_node.
  destruct (str_eqb kind "agent"); [eapply ensures_bind; [apply agent_node_ok|]; intros n Hr; apply ensures_ret; auto|].
  destruct (str_eqb kind "tool"); [eapply ensures_bind; [apply tool_node_ok|]; intros n Hr; apply ensures_ret; auto|].
  destruct (str_eqb kind "function"); [eapply ensures_bind; [apply function_node_ok|]; intros n Hr; apply ensures_ret; auto|].
  destruct (str_eqb kind "parallel"); [eapply ensures_bind; [apply parallel_node_ok|]; intros n Hr; apply ensures_ret; auto|].
  destruct (str_eqb kind "loop"); [eapply ensures_bind; [apply loop_node_ok|]; intros n Hr; apply ensures_ret; auto|].
  destruct (str_eqb kind "sequential"); [|apply ensures_bad].
  eapply ensures_bind; [apply sequential_steps_ok|]. intros s Hs. apply ensures_ret. split_and!; [|done|cbn; by destruct (b_nodes b)].
  apply (push_read b (function_of name noop_function) (Some s)); try done; [apply local_function; auto|]. by intros l [= <-].
Qed.

End Built.

Section Nodes.
Context {W : Type} `{JsonWriter} (source : string) (registry : gmap string (GraphFunctionFn W)).
Implicit Types (b : Builder W) (n : GraphNode W).

#[local] Abbreviation nodes_inv := (nodes_inv registry).
#[local] Abbreviation read_inv := (read_inv registry).

Lemma valid_name_spec x : valid_node_name x = true → name_ok x ∧ has_hash x = false ∧ is_done x = false.
Proof.
  unfold valid_node_name. intros [[H1 H2]%andb_true_iff H3]%andb_true_iff.
  apply negb_true_iff in H1, H2, H3. apply is_empty_false in H1. apply str_eqb_false in H2. split_and!; [done|done|].
  destruct (is_done x) eqn:E; [|done]. by rewrite (is_done_hash x E) in H3.
Qed.

Lemma parse_node_ok el b :
  read_inv b → ensures (parse_node source registry el b) (λ b', read_inv b' ∧ b_entry b' = b_entry b ∧ b_nodes b' ≠ []).
Proof.
  intros Hb. unfold parse_node. destruct (get_object el) as [obj|]; [|apply ensures_bad].
  eapply ensures_bind; [apply read_required_any|]. intros name _. cbv zeta.
  destruct (valid_node_name name) eqn:Ev; [|apply ensures_bad]. apply valid_name_spec in Ev as (Hn & Hh & Hd).
  destruct (indexed b name) eqn:Ei; [apply ensures_bad|]. cbn.
  eapply ensures_bind; [apply read_required_any|]. intros kind _. apply add_node_ok; [done|done|done| |done].
  intros Hin. apply (indexed_spec registry) in Hin; [congruence|apply Hb].
Qed.

Lemma empty_inv entry : read_inv (empty_builder entry).
Proof.
  split; [split|..]; cbn; try done.
  - intros x i. rewrite lookup_empty. split; [done|]. by intros (? & ? & _).
  - intros x. rewrite lookup_empty. split; [set_solver|]. by intros [].
  - constructor.
  - intros x y Hx. by apply elem_of_nil in Hx.
Qed.

Lemma parse_nodes_ok top entry :
  ensures (parse_nodes registry source top entry) (λ b, read_inv b ∧ b_entry b = entry ∧ b_nodes b ≠ []).
Proof.
  unfold parse_nodes. destruct (field "nodes" top) as [el|]; [|apply ensures_bad].
  destruct (get_array el) as [[|item items]|]; [apply ensures_bad| |apply ensures_bad].
  eapply ensures_weaken; [apply (ensures_for_each _ _ (λ done b, read_inv b ∧ b_entry b = entry ∧ (done ≠ [] → b_nodes b ≠ [])))|].
  - split_and!; [apply empty_inv|done|done].
  - intros done x rest b _ (Hb & He & _). eapply ensures_weaken; [by apply parse_node_ok|].
    intros b' (Hb' & He' & Hne). split_and!; [done|congruence|done].
  - intros b (Hb & He & Hne). split_and!; auto.
Qed.

(** ** The generated nodes, references, the entry *)

Record full_inv b : Prop := {
  fi_nodes : nodes_inv b;
  fi_names : ∀ x, x ∈ bnames b → has_hash x = false ∨ ∃ y, y ∈ b_sequential b ∧ x = y +:+ kDoneSuffix;
  fi_done : ∀ y, y ∈ b_sequential b → y +:+ kDoneSuffix ∈ bnames b
}.

Lemma suffix_name_ok x : name_ok (x +:+ kDoneSuffix).
Proof.
  split; intros E; pose proof (suffix_hash x) as Hh; rewrite E in Hh; done.
Qed.

Lemma add_done_ok b :
  read_inv b →
  let b' := add_done_nodes b in
  full_inv b' ∧ b_edges b' = [] ∧ b_owner b' = ∅ ∧ b_entry b' = b_entry b ∧ b_sequential b' = b_sequential b ∧
  b_steps b' = b_steps b ∧ Forall (λ n, exit_to n = "") (b_nodes b') ∧ (b_nodes b ≠ [] → b_nodes b' ≠ []).
Proof.
  intros Hb. cbv zeta. unfold add_done_nodes.
  set (step := λ (b : Builder W) name, push_node b (function_of (name +:+ kDoneSuffix) noop_function)).
  assert (Hgen : ∀ l b', NoDup l → (∀ y, y ∈ l → y ∈ b_sequential b ∧ y +:+ kDoneSuffix ∉ bnames b') →
    nodes_inv b' → b_edges b' = [] → b_owner b' = ∅ → b_entry b' = b_entry b → b_sequential b' = b_sequential b →
    b_steps b' = b_steps b → Forall (λ n, exit_to n = "") (b_nodes b') → (b_nodes b ≠ [] → b_nodes b' ≠ []) →
    let b'' := foldl step b' l in
    nodes_inv b'' ∧ bnames b'' = bnames b' ++ map (λ y, y +:+ kDoneSuffix) l ∧ b_edges b'' = [] ∧ b_owner b'' = ∅ ∧
    b_entry b'' = b_entry b ∧ b_sequential b'' = b_sequential b ∧ b_steps b'' = b_steps b ∧
    Forall (λ n, exit_to n = "") (b_nodes b'') ∧ (b_nodes b ≠ [] → b_nodes b'' ≠ [])).
  { induction l as [|y l IH]; intros b' Hnd Hl Hni He Ho Hen Hs Hst Hex Hne; [by rewrite app_nil_r|].
    apply NoDup_cons in Hnd as [Hy Hnd]. destruct (Hl y ltac:(by left)) as [Hys Hyn].
    assert (Hni' : nodes_inv (step b' y)).
    { apply (push_inv registry b' _ None); [done|done| |done]. apply local_function; [apply suffix_name_ok|by left]. }
    destruct (IH (step b' y)) as (H1 & H2 & H3); [done| |done|done|done|done|done|done| | |].
    - intros z Hz. split; [apply Hl; by right|]. unfold bnames. cbn. rewrite map_app. apply not_elem_of_app. split.
      + apply Hl. by right.
      + simpl. intros E%list_elem_of_singleton. apply suffix_inj in E as ->. done.
    - cbn. apply Forall_app. split; [done|by constructor].
    - intros _. cbn. by destruct (b_nodes b').
    - cbn [foldl]. split_and!; try apply H3; [done|]. rewrite H2. unfold bnames. cbn. by rewrite map_app, <-app_assoc. }
  assert (Hplain : ∀ x, x ∈ bnames b → has_hash x = false).
  { intros x (n & -> & Hn)%list_elem_of_fmap. pose proof (ri_plain _ b Hb) as Hp. rewrite Forall_forall in Hp. by apply Hp. }
  destruct (Hgen (set_items (b_sequential b)) b) as (H1 & H2 & He & Ho & Hen & Hs & Hst & Hex & Hne); try done; try apply Hb.
  - unfold set_items. rewrite merge_sort_Permutation. apply NoDup_elements.
  - intros y Hy%elem_of_set_items. split; [done|]. intros Hin%Hplain. by rewrite suffix_hash in Hin.
  - split_and!; try done. split; [done| |].
    + intros x. rewrite H2, Hs. intros [Hx|(y & -> & Hy%elem_of_set_items)%list_elem_of_fmap]%elem_of_app; [left; auto|right; eauto].
    + intros y. rewrite H2, Hs. intros Hy. apply elem_of_app. right. apply list_elem_of_fmap. exists y.
      split; [done|]. by apply elem_of_set_items.
Qed.

Lemma known_spec b x : full_inv b → known b x = true ↔ x ∈ bnames b ∧ is_done x = false.
Proof.
  intros Hb. unfold known. rewrite andb_true_iff, negb_true_iff. rewrite (indexed_spec registry) by apply Hb. done.
Qed.

Lemma known_plain b x : full_inv b → known b x = true → has_hash x = false.
Proof.
  intros Hb [Hx Hd]%known_spec; [|done]. destruct (fi_names b Hb x Hx) as [|(y & _ & ->)]; [done|].
  by rewrite is_done_suffix in Hd.
Qed.

(** Workflow nodes refer to nodes of the document. *)
Record refs_ok b n : Prop := {
  ro_branches : ∀ br, br ∈ branches n → known b br = true ∧ br ≠ node_name n;
  ro_body : kind n = LoopNode → known b (loop_body n) = true ∧ loop_body n ≠ node_name n;
  ro_steps : ∀ s, b_steps b !! node_name n = Some s → Forall (λ x, known b x = true ∧ x ≠ node_name n) s ∧ NoDup s
}.

Lemma check_node_ok b n k :
  full_inv b → n ∈ b_nodes b → ensures (check_node source b n k) (λ _, refs_ok b n).
Proof.
  intros Hb Hn. pose proof (ni_local _ b (fi_nodes b Hb)) as Hl. rewrite Forall_forall in Hl. specialize (Hl n Hn).
  unfold check_node. destruct (is_done (node_name n)) eqn:Ed.
  { apply ensures_ret. destruct (lo_done _ n Hl Ed) as [Hk Hbr]. split.
    - rewrite Hbr. set_solver.
    - by rewrite Hk.
    - intros s Hs. destruct (ni_seq_node _ b (fi_nodes b Hb) (node_name n)) as [Hh _].
      + apply (ni_seq _ b (fi_nodes b Hb)). by rewrite Hs.
      + apply is_done_hash in Ed. congruence. }
  eapply ensures_bind with (Q1 := λ _, Forall (λ br, known b br = true ∧ br ≠ node_name n) (branches n)).
  { apply ensures_all. intros br [] _. unfold check_branch.
    destruct (known b br) eqn:Ek; [|apply ensures_bad]. destruct (str_eqb br (node_name n)) eqn:Ee; [apply ensures_bad|].
    apply ensures_ret. split; [done|by apply str_eqb_false]. }
  intros _ Hbr. rewrite Forall_forall in Hbr.
  eapply ensures_bind with (Q1 := λ _, kind n = LoopNode → known b (loop_body n) = true ∧ loop_body n ≠ node_name n).
  { unfold check_body. destruct (kind n); try by apply ensures_ret.
    destruct (known b (loop_body n)) eqn:Ek; [|apply ensures_bad].
    destruct (str_eqb (loop_body n) (node_name n)) eqn:Ee; [apply ensures_bad|].
    apply ensures_ret. split; [done|by apply str_eqb_false]. }
  intros _ Hbody. destruct (b_steps b !! node_name n) as [steps|] eqn:Es; [|apply ensures_ret; by split; rewrite ?Es].
  eapply ensures_bind with (Q1 := λ seen, NoDup steps ∧ Forall (λ x, known b x = true ∧ x ≠ node_name n) steps).
  - eapply ensures_weaken; [apply (ensures_for_each _ _ (λ done seen, NoDup done ∧ seen ≡ₚ done ∧
      Forall (λ x, known b x = true ∧ x ≠ node_name n) done)); [split_and!; constructor|]|naive_solver].
    intros done x rest seen _ (Hnd & Hseen & Hall). unfold check_step.
    destruct (known b x) eqn:Ek; [|apply ensures_bad]. destruct (str_eqb x (node_name n)) eqn:Ee; [apply ensures_bad|].
    destruct (mem x seen) eqn:Em; [apply ensures_bad|]. apply mem_false in Em. apply str_eqb_false in Ee.
    apply ensures_ret. split_and!.
    + apply NoDup_app. split_and!; [done| |apply NoDup_singleton]. intros y Hy ->%list_elem_of_singleton. by rewrite Hseen in Em.
    + rewrite Hseen. by rewrite Permutation_app_comm.
    + apply Forall_app. by repeat constructor.
  - intros _ [Hnd Hall]. apply ensures_ret. split; [done|done|]. rewrite Es. by intros s [= <-].
Qed.

Lemma check_references_ok b :
  full_inv b → ensures (check_references source b) (λ _, Forall (refs_ok b) (b_nodes b)).
Proof.
  intros Hb. unfold check_references. eapply ensures_bind; [apply ensures_all; intros n k Hn; by apply check_node_ok|].
  intros k H'. by apply ensures_ret.
Qed.

(** ** Edges *)

Definition edge_inv b (p : GraphEdge W * option RouteSpec) : Prop :=
  from p.1 ∈ bnames b ∧
  match p.2 with
  | None => router p.1 = None ∧ target_ok b (to p.1) = true
  | Some r => router p.1 = Some (route_on_state r) ∧ Forall (λ t, target_ok b t = true) ((route_cases r).*2 ++ [route_fallback r])
  end.

Definition edge_source b (x : string) : string := if is_sequential b x then x +:+ kDoneSuffix else x.

Lemma read_route_ok b route rw :
  ensures (read_route source b route rw)
    (λ r, Forall (λ t, target_ok b t = true) ((route_cases r).*2 ++ [route_fallback r])).
Proof.
  unfold read_route. eapply ensures_bind; [apply check_fields_ok|]. intros _ _.
  eapply ensures_bind; [apply read_required_any|]. intros key _. eapply ensures_bind; [apply read_string_ok|]. intros fallback _.
  destruct (target_ok b fallback) eqn:Et; [|apply ensures_bad]. cbn.
  eapply ensures_bind; [apply read_object_ok|]. intros [cases|] _; [|apply ensures_bad].
  eapply ensures_bind with (Q1 := λ cs, Forall (λ t, target_ok b t = true) cs.*2).
  - apply (ensures_for_each _ _ (λ _ cs, Forall (λ t, target_ok b t = true) cs.*2)); [constructor|].
    intros _ c _ cs _ Hcs. unfold read_case. destruct (get_string c.2) as [t|]; [|apply ensures_bad].
    destruct (target_ok b t) eqn:E; [|apply ensures_bad]. apply ensures_ret. rewrite fmap_app. apply Forall_app. by repeat constructor.
  - intros cs Hcs. apply ensures_ret. cbn. apply Forall_app. by repeat constructor.
Qed.

Lemma read_target_ok b obj x loc :
  x ∈ bnames b → ensures (read_target source b obj x loc) (λ p, from p.1 = x ∧ edge_inv b p).
Proof.
  intros Hx. unfold read_target. eapply ensures_bind; [apply read_object_ok|]. intros route _.
  destruct (field "to" obj), route as [route|]; try apply ensures_bad.
  - eapply ensures_bind; [apply read_required_any|]. intros t _. destruct (target_ok b t) eqn:E; [|apply ensures_bad].
    apply ensures_ret. by split.
  - eapply ensures_bind; [apply read_route_ok|]. intros r Hr. apply ensures_ret. by split.
Qed.

Lemma source_in b x : full_inv b → known b x = true → edge_source b x ∈ bnames b.
Proof.
  intros Hb Hk. unfold edge_source, is_sequential. case_bool_decide; [by apply fi_done|]. by apply known_spec in Hk as [? _].
Qed.

Lemma source_inj b x y :
  full_inv b → known b x = true → known b y = true → edge_source b x = edge_source b y → x = y.
Proof.
  intros Hb Hx%known_plain Hy%known_plain; [|done|done]. unfold edge_source.
  destruct (is_sequential b x), (is_sequential b y); intros E; try done; [by apply suffix_inj| |];
    pose proof (suffix_hash x); pose proof (suffix_hash y); congruence.
Qed.

Lemma source_not_sequential b x : full_inv b → known b x = true → edge_source b x ∉ b_sequential b.
Proof.
  intros Hb Hx. unfold edge_source, is_sequential. case_bool_decide; [|done]. intros Hs.
  destruct (ni_seq_node _ b (fi_nodes b Hb) _ Hs) as [Hh _]. by rewrite suffix_hash in Hh.
Qed.

Lemma parse_edges_ok top b :
  full_inv b → b_edges b = [] →
  ensures (parse_edges source top b) (λ b', ∃ es, b' = set_edges b es ∧ Forall (edge_inv b) es ∧
    NoDup (map (λ p, from p.1) es) ∧ Forall (λ p, from p.1 ∉ b_sequential b) es).
Proof.
  intros Hb Hne. unfold parse_edges. destruct (field "edges" top) as [el|].
  2:{ apply ensures_ret. exists []. split_and!; try constructor. destruct b. simpl in *. by subst. }
  destruct (get_array el) as [items|]; [|apply ensures_bad].
  set (I := λ (_ : list json) (acc : list string * Builder W), ∃ es, acc.2 = set_edges b es ∧ NoDup acc.1 ∧
    Forall (λ x, known b x = true) acc.1 ∧ map (λ p, from p.1) es = map (edge_source b) acc.1 ∧ Forall (edge_inv b) es).
  eapply ensures_bind with (Q1 := I items).
  - apply ensures_for_each.
    { exists []. cbn. split_and!; try constructor. destruct b. simpl in *. by subst. }
    intros done x rest [froms b'] _ (es & Hb' & Hnd & Hk & Hf & Hes). simpl in *. subst b'.
    unfold parse_edge. destruct (get_object x) as [obj|]; [|apply ensures_bad].
    eapply ensures_bind; [apply check_fields_ok|]. intros _ _. eapply ensures_bind; [apply read_required_any|]. intros src _.
    cbv zeta. change (known (set_edges b es) src) with (known b src). destruct (known b src) eqn:Ek; [|apply ensures_bad].
    cbn. destruct (list_find _ froms) as [[i y]|] eqn:El; [apply ensures_bad|].
    eapply ensures_bind with (Q1 := λ p, from p.1 = edge_source b src ∧ edge_inv b p).
    + apply (read_target_ok b obj (edge_source b src)). by apply source_in.
    + intros p [Hp Hi]. apply ensures_ret. exists (es ++ [p]). simpl. split_and!.
      * done.
      * apply NoDup_app. split_and!; [done| |apply NoDup_singleton]. intros z Hz ->%list_elem_of_singleton.
        apply list_find_None in El. rewrite Forall_forall in El. by apply (El src).
      * apply Forall_app. by repeat constructor.
      * rewrite !map_app, Hf. simpl. by rewrite Hp.
      * apply Forall_app. split; [done|]. by apply Forall_singleton.
  - intros [froms b'] (es & Hb' & Hnd & Hk & Hf & Hes). simpl in *. apply ensures_ret. exists es. split_and!; [done|done| |].
    + rewrite Hf. apply NoDup_fmap_2_strong; [|done]. rewrite Forall_forall in Hk. intros x y Hx Hy. by apply source_inj; auto.
    + apply Forall_forall. intros p Hp. assert (Hin : from p.1 ∈ map (edge_source b) froms).
      { rewrite <-Hf. by apply (list_elem_of_fmap_2 (λ p, from p.1)). }
      apply list_elem_of_fmap in Hin as (x & -> & Hx). rewrite Forall_forall in Hk. apply source_not_sequential; auto.
Qed.

(** ** The assembled graph *)

Record graph_inv b : Prop := {
  gi_full : full_inv b;
  gi_refs : Forall (refs_ok b) (b_nodes b);
  gi_entry : b_entry b ∈ bnames b;
  gi_edges : Forall (edge_inv b) (b_edges b);
  gi_froms : NoDup (map (λ p, from p.1) (b_edges b));
  gi_seq : ∀ p, p ∈ b_edges b → from p.1 ∈ b_sequential b →
    p.2 = None ∧ ∃ s, b_steps b !! from p.1 = Some (to p.1 :: s)
}.

Lemma graph_inv_nodes b : graph_inv b → nodes_inv b.
Proof. intros Hb. apply Hb. Qed.
#[local] Hint Resolve graph_inv_nodes : core.

Lemma steps_known b x s : graph_inv b → b_steps b !! x = Some s → Forall (λ y, known b y = true ∧ y ≠ x) s ∧ NoDup s.
Proof.
  intros Hb Hs. destruct (ni_seq_node _ b (graph_inv_nodes b Hb) x) as (_ & n & Hn & <- & _).
  { apply (ni_seq _ b (graph_inv_nodes b Hb)). by rewrite Hs. }
  pose proof (gi_refs b Hb) as Hr. rewrite Forall_forall in Hr. by apply (ro_steps b n (Hr n Hn)).
Qed.

Lemma assembled b es entry :
  full_inv b → Forall (refs_ok b) (b_nodes b) → entry ∈ bnames b → Forall (edge_inv b) es →
  NoDup (map (λ p, from p.1) es) → Forall (λ p, from p.1 ∉ b_sequential b) es →
  graph_inv (add_sequential_edges (set_edges (set_entry b entry) es)).
Proof.
  intros Hb Hr He Hes Hnd Hns.
  set (seqs := (λ p : string * string, (mkGraphEdge p.1 p.2 None, None) : GraphEdge W * option RouteSpec) <$> b_sequential_edges b).
  assert (Hseq : ∀ p, p ∈ seqs → from p.1 ∈ b_sequential b ∧ edge_inv b p ∧ p.2 = None ∧ ∃ s, b_steps b !! from p.1 = Some (to p.1 :: s)).
  { intros p ([x y] & -> & Hxy)%list_elem_of_fmap. destruct (ni_seq_edge _ b (fi_nodes b Hb) x y Hxy) as [s Hs].
    assert (Hx : x ∈ b_sequential b) by (apply (ni_seq _ b (fi_nodes b Hb)); by rewrite Hs).
    destruct (ni_seq_node _ b (fi_nodes b Hb) x Hx) as (_ & n & Hn & Hname & _).
    cbn. split_and!; [done| |done|eauto]. split; [cbn; rewrite <-Hname; by apply list_elem_of_fmap_2|]. split; [done|]. cbn.
    rewrite Forall_forall in Hr. destruct (ro_steps b n (Hr n Hn) (y :: s)) as [Hall _]; [by rewrite Hname|].
    apply Forall_cons in Hall as [[Hk _] _]. unfold target_ok. by rewrite Hk, orb_true_r. }
  assert (Hfull : full_inv (add_sequential_edges (set_edges (set_entry b entry) es))).
  { destruct Hb as [[] ? ?]. by split; [split|..]. }
  split; [done| |done| | |]; cbn.
  - eapply Forall_impl; [done|]. intros n []. by split.
  - apply Forall_app. split; [done|]. apply Forall_forall. intros p Hp. by apply Hseq.
  - rewrite map_app. apply NoDup_app. split_and!; [done| |].
    + intros x (p & -> & Hp)%list_elem_of_fmap (p' & Heq & Hp')%list_elem_of_fmap. rewrite Forall_forall in Hns.
      apply (Hns p Hp). rewrite Heq. by apply Hseq.
    + change (NoDup ((λ p, from p.1) <$> seqs)). unfold seqs. rewrite <-list_fmap_compose. apply (ni_seq_edges _ b (fi_nodes b Hb)).
  - intros p [Hp|Hp]%elem_of_app Hin; [rewrite Forall_forall in Hns; by destruct (Hns p Hp)|]. by apply Hseq.
Qed.

(** ** Changing exits *)

Record shape b b' : Prop := {
  sh_nodes : Forall2 (λ n n', ∃ t, n' = set_exit n t) (b_nodes b) (b_nodes b');
  sh_edges : b_edges b' = b_edges b;
  sh_entry : b_entry b' = b_entry b;
  sh_index : b_index b' = b_index b;
  sh_seq : b_sequential b' = b_sequential b;
  sh_steps : b_steps b' = b_steps b;
  sh_seq_edges : b_sequential_edges b' = b_sequential_edges b
}.

#[local] Instance shape_preorder : PreOrder shape.
Proof.
  split.
  - intros b. split; try done. apply Forall2_same_length_lookup. split; [done|]. intros i n n' Hn Hn'. simplify_eq.
    exists (exit_to n). by destruct n.
  - intros b1 b2 b3 [H1] [H2]. split; try congruence. eapply Forall2_trans; [|exact H1|exact H2].
    intros n1 n2 n3 [t ->] [t' ->]. by exists t'.
Qed.

Lemma shape_names b b' : shape b b' → bnames b' = bnames b.
Proof.
  intros [Hn _ _ _ _ _ _]. unfold bnames. induction Hn as [|n n' l l' [t ->] _ IH]; [done|]. simpl. by rewrite IH.
Qed.

Lemma shape_in b b' n' : shape b b' → n' ∈ b_nodes b' → ∃ n t, n ∈ b_nodes b ∧ n' = set_exit n t.
Proof.
  intros [Hn _ _ _ _ _ _] [i Hi]%list_elem_of_lookup. destruct (Forall2_lookup_r _ _ _ _ _ Hn Hi) as (n & Hin & t & ->).
  exists n, t. split; [by eapply list_elem_of_lookup_2|done].
Qed.

Lemma shape_out b b' n : shape b b' → n ∈ b_nodes b → ∃ t, set_exit n t ∈ b_nodes b'.
Proof.
  intros [Hn _ _ _ _ _ _] [i Hi]%list_elem_of_lookup. destruct (Forall2_lookup_l _ _ _ _ _ Hn Hi) as (n' & Hin & t & ->).
  exists t. by eapply list_elem_of_lookup_2.
Qed.

Lemma shape_inv b b' : shape b b' → graph_inv b → graph_inv b'.
Proof.
  intros Hs Hb. pose proof (shape_names b b' Hs) as Hnames. pose proof (graph_inv_nodes b Hb) as Hni.
  assert (Hk : ∀ x, known b' x = known b x) by (intros x; unfold known, indexed; by rewrite (sh_index _ _ Hs)).
  assert (Ht : ∀ x, target_ok b' x = target_ok b x) by (intros x; unfold target_ok; by rewrite Hk).
  assert (Hni' : nodes_inv b').
  { destruct Hs as [Hn E1 E2 E3 E4 E5 E6]. split; rewrite ?E3, ?E4, ?E5, ?E6; try apply Hni.
    - intros x i. rewrite (ni_index _ b Hni). split.
      + intros (n & Hi & Hx). destruct (Forall2_lookup_l _ _ _ _ _ Hn Hi) as (n' & Hi' & t & ->). eauto.
      + intros (n' & Hi' & Hx). destruct (Forall2_lookup_r _ _ _ _ _ Hn Hi') as (n & Hi & t & ->). eauto.
    - apply Forall_forall. intros n' Hn'.
      destruct (shape_in b b' n' ltac:(by split) Hn') as (n & t & Hin & ->).
      pose proof (ni_local _ b Hni) as Hl. rewrite Forall_forall in Hl. destruct (Hl n Hin) as [H1 H2 H3 H4].
      split; [done|done|done|]. intros Hr. destruct (H4 Hr) as [? ? ? ? ?]. by split.
    - intros x Hx. destruct (ni_seq_node _ b Hni x Hx) as (Hh & n & Hin & Hname & Hkind). split; [done|].
      destruct (shape_out b b' n ltac:(by split) Hin) as [t Ht']. eauto. }
  destruct (gi_full b Hb) as [_ Hf1 Hf2].
  split; rewrite ?(sh_edges _ _ Hs), ?(sh_seq _ _ Hs), ?(sh_steps _ _ Hs), ?(sh_entry _ _ Hs), ?Hnames; try apply Hb.
  - split; [done|rewrite Hnames, (sh_seq _ _ Hs); done|rewrite Hnames, (sh_seq _ _ Hs); done].
  - apply Forall_forall. intros n' (n & t & Hin & ->)%(shape_in b b'); [|done].
    pose proof (gi_refs b Hb) as Hr. rewrite Forall_forall in Hr. destruct (Hr n Hin) as [R1 R2 R3].
    split; cbn; intros *; rewrite ?(sh_steps _ _ Hs).
    + rewrite Hk. apply R1.
    + rewrite Hk. apply R2.
    + intros Hst. destruct (R3 _ Hst) as [Hall ?]. split; [|done]. eapply Forall_impl; [exact Hall|]. intros x. by rewrite Hk.
  - eapply Forall_impl; [apply Hb|]. intros [e r] [H1 H2]. split; [by rewrite Hnames|]. cbn in *. destruct r as [r|].
    + destruct H2 as [? H2]. split; [done|]. eapply Forall_impl; [exact H2|]. intros x. by rewrite Ht.
    + by rewrite Ht.
Qed.

(** ** Chains *)

Lemma edge_from_spec b x p : edge_from b x = Some p → p ∈ b_edges b ∧ from p.1 = x.
Proof.
  intros E. pose proof (find_name (λ p, from p.1) (b_edges b) x) as Hf. unfold edge_from in E. cbv beta in Hf. by rewrite E in Hf.
Qed.

Lemma target_known b x : graph_inv b → target_ok b x = true → not_end x = true → x ∈ bnames b.
Proof.
  intros Hb Ht Hn. unfold target_ok, not_end in *. apply negb_true_iff in Hn. rewrite Hn in Ht. simpl in Ht.
  by apply known_spec in Ht as [? _]; [|apply Hb].
Qed.

Lemma route_targets_in b r x :
  Forall (λ t, target_ok b t = true) ((route_cases r).*2 ++ [route_fallback r]) → graph_inv b →
  x ∈ route_targets r → x ∈ bnames b.
Proof.
  intros Hall Hb Hx. unfold route_targets in Hx. apply list_elem_of_In, filter_In in Hx as [Hx Hn].
  apply list_elem_of_In in Hx. rewrite Forall_forall in Hall. by apply target_known; auto.
Qed.

Lemma successors_in b x : graph_inv b → successors b x ⊆ bnames b.
Proof.
  intros Hb y. unfold successors, is_sequential. case_bool_decide as Hs.
  { intros ->%list_elem_of_singleton. apply (fi_done b (gi_full b Hb)), Hs. }
  destruct (edge_from b x) as [[e r]|] eqn:E; [|by intros ?%elem_of_nil]. apply edge_from_spec in E as [Hin _].
  pose proof (gi_edges b Hb) as He. rewrite Forall_forall in He. destruct (He _ Hin) as [_ He']. cbn in He'.
  destruct r as [r|]; [destruct He' as [_ He']; by apply route_targets_in|].
  destruct (not_end (to e)) eqn:En; [|by intros ?%elem_of_nil]. intros ->%list_elem_of_singleton. apply target_known; [done|apply He'|done].
Qed.

Lemma pending_all b (next : string → option (list string)) :
  pending_pushes next (bnames b) [] = sum_list (map (λ n, length (default [] (next (node_name n)))) (b_nodes b)).
Proof.
  assert (Hall : filter (λ x, x ∉ []) (bnames b) = bnames b).
  { induction (bnames b) as [|x l IH]; [done|]. rewrite filter_cons_True by (intros Hx; by apply elem_of_nil in Hx). by rewrite IH. }
  unfold pending_pushes. rewrite Hall. unfold bnames. by rewrite map_map.
Qed.

(** The nodes of a chain: closed under successors, [stop] apart. *)
Lemma chain_ok b start stop :
  graph_inv b → start ∈ bnames b →
  ∃ out, chain b start stop = Some out ∧ out ⊆ bnames b ∧ (start ≠ stop → start ∈ out) ∧
    ∀ x y, x ∈ out → y ∈ successors b x → y = stop ∨ y ∈ out.
Proof.
  intros Hb Hs. destruct (walk_total (λ x, Some (successors b x)) (λ x, str_eqb x stop) (bnames b)
    (walk_fuel b (successors b)) [start] []) as [out Hout].
  - by eapply bnames_NoDup, graph_inv_nodes.
  - intros x _. eexists. split; [done|]. by apply successors_in.
  - by intros x ->%list_elem_of_singleton.
  - rewrite pending_all. unfold walk_fuel. simpl. lia.
  - exists out. pose proof (walk_closed _ _ _ _ _ _ Hout) as (_ & Ht & Hc). split_and!; [done| | |].
    + eapply (walk_incl (λ x, Some (successors b x)) _ (bnames b)); [| | |exact Hout].
      * intros x l _ [= <-]. by apply successors_in.
      * by intros x ->%list_elem_of_singleton.
      * intros x Hx. by apply elem_of_nil in Hx.
    + intros Hne. destruct (Ht start) as [E|]; [by left| |done]. by apply str_eqb_true in E.
    + intros x y Hx Hy. destruct (Hc x Hx) as [[]%elem_of_nil|(_ & l & [= <-] & Hl)].
      destruct (Hl y Hy) as [E|]; [left; by apply str_eqb_true|by right].
Qed.

(** ** Owners *)

(** Where a node exits to, once claimed; "" at the top level. *)
Definition claimed b (x : string) : option string := fst <$> b_owner b !! x.

Record claims b : Prop := {
  cl_inv : graph_inv b;
  cl_exit : ∀ n, n ∈ b_nodes b → exit_to n = default "" (claimed b (node_name n));
  cl_owner : ∀ x t, claimed b x = Some t → x ∈ bnames b ∧ (t = "" ∨ t ∈ bnames b)
}.

(** A step of a claimed node stays with its owner or goes to it. *)
Definition owner_closed b : Prop :=
  ∀ x t y, claimed b x = Some t → y ∈ successors b x → y = t ∨ claimed b y = Some t.

Definition grows b b' : Prop := shape b b' ∧ ∀ x t, claimed b x = Some t → claimed b' x = Some t.

#[local] Instance grows_preorder : PreOrder grows.
Proof.
  split; [by split|]. intros b1 b2 b3 [H1 G1] [H2 G2]. split; [by etrans|]. eauto.
Qed.

Lemma set_exit_shape b i n t :
  b_nodes b !! i = Some n → shape b (set_nodes b (<[i := set_exit n t]> (b_nodes b))).
Proof.
  intros Hi. split; try done. cbn. apply Forall2_same_length_lookup. split; [by rewrite length_insert|].
  intros j m m' Hm Hm'. destruct (decide (i = j)) as [<-|Hne].
  - rewrite list_lookup_insert_eq in Hm' by (by eapply lookup_lt_Some). simplify_eq. by exists t.
  - rewrite list_lookup_insert_ne in Hm' by done. simplify_eq. exists (exit_to m). by destruct m.
Qed.

Lemma claim_node_ok target label m b :
  claims b → m ∈ bnames b → (target = "" ∨ target ∈ bnames b) →
  ensures (claim_node source target label m b) (λ b', grows b b' ∧ claims b' ∧ claimed b' m = Some target ∧
    ∀ x t, claimed b' x = Some t → claimed b x = Some t ∨ x = m ∧ t = target).
Proof.
  intros Hb Hm Ht. unfold claim_node. destruct (b_owner b !! m) as [[t l]|] eqn:Eo.
  { destruct (str_eqb t target) eqn:E; [|apply ensures_bad]. apply str_eqb_true in E as ->. apply ensures_ret.
    split_and!; [done|done|unfold claimed; by rewrite Eo|auto]. }
  set (b1 := set_owner b (<[m := (target, label)]> (b_owner b))).
  assert (Hc1 : ∀ x, claimed b1 x = if decide (x = m) then Some target else claimed b x).
  { intros x. unfold claimed, b1. cbn. destruct (decide (x = m)) as [->|]; [by rewrite lookup_insert_eq|by rewrite lookup_insert_ne]. }
  assert (Hcm : claimed b m = None) by (unfold claimed; by rewrite Eo).
  assert (Hs1 : shape b b1) by (split; try done; apply (reflexivity (R := shape) b)).
  assert (Hpost : ∀ b', shape b b' → b_owner b' = b_owner b1 →
    (∀ n, n ∈ b_nodes b' → exit_to n = default "" (claimed b' (node_name n))) →
    grows b b' ∧ claims b' ∧ claimed b' m = Some target ∧ ∀ x t, claimed b' x = Some t → claimed b x = Some t ∨ x = m ∧ t = target).
  { intros b' Hs Ho Hex. assert (Hc : ∀ x, claimed b' x = if decide (x = m) then Some target else claimed b x).
    { intros x. rewrite <-Hc1. unfold claimed. by rewrite Ho. }
    split_and!.
    - split; [done|]. intros x t Hx. rewrite Hc. case_decide; [congruence|done].
    - split; [eapply shape_inv; [done|apply Hb]|done|]. rewrite (shape_names b b') by done. intros x t. rewrite Hc.
      case_decide as Hx; [intros [= <-]; subst; auto|apply Hb].
    - rewrite Hc. by rewrite decide_True.
    - intros x t. rewrite Hc. case_decide; [intros [= <-]; auto|auto]. }
  destruct (is_empty target) eqn:Ee.
  { apply is_empty_true in Ee as ->. apply ensures_ret, Hpost; [done|done|]. intros n Hn. rewrite Hc1, (cl_exit b Hb n Hn).
    case_decide as Hx; [by rewrite Hx, Hcm|done]. }
  pose proof (graph_inv_nodes b (cl_inv b Hb)) as Hni.
  apply bnames_lookup in Hm as (i & n & Hi & Hname).
  assert (Hidx : b_index b !! m = Some i) by (apply (ni_index _ b Hni); eauto).
  apply ensures_must. unfold set_node_exit. change (b_index b1) with (b_index b). change (b_nodes b1) with (b_nodes b).
  rewrite Hidx. simpl. rewrite Hi. simpl. eexists. split; [done|]. apply Hpost; [|done|].
  - pose proof (set_exit_shape b i n target Hi) as Hs. destruct Hs. by split.
  - cbn. intros n' [j Hj]%list_elem_of_lookup. change (claimed _ (node_name n')) with (claimed b1 (node_name n')). rewrite Hc1.
    destruct (decide (i = j)) as [<-|Hne].
    + rewrite list_lookup_insert_eq in Hj by (by eapply lookup_lt_Some). injection Hj as <-. cbn. by rewrite decide_True.
    + rewrite list_lookup_insert_ne in Hj by done. rewrite decide_False.
      * apply Hb. by eapply list_elem_of_lookup_2.
      * intros E. assert (b_index b !! m = Some j) by (apply (ni_index _ b Hni); eauto). congruence.
Qed.

Lemma shape_successors b b' x : shape b b' → successors b' x = successors b x.
Proof. intros [Hn E1 E2 E3 E4 E5 E6]. unfold successors, is_sequential, edge_from. by rewrite E1, E4. Qed.

Lemma claim_chain_ok start target label b :
  claims b → owner_closed b → start ∈ bnames b → (target = "" ∨ target ∈ bnames b) → start ≠ target →
  ensures (claim_chain source start target label b) (λ b', grows b b' ∧ claims b' ∧ owner_closed b' ∧ claimed b' start = Some target).
Proof.
  intros Hb Hcl Hs Ht Hne. unfold claim_chain. destruct (chain_ok b start target (cl_inv b Hb) Hs) as (out & Hout & Hin & Hst & Hclosed).
  eapply ensures_bind with (Q1 := λ l, l = out); [apply ensures_must; eauto|]. intros l ->. unfold claim.
  eapply ensures_weaken; [apply (ensures_for_each _ _ (λ done b', grows b b' ∧ claims b' ∧
    Forall (λ x, claimed b' x = Some target) done ∧
    ∀ x t, claimed b' x = Some t → claimed b x = Some t ∨ x ∈ out ∧ t = target))|].
  - split_and!; [done|done|constructor|auto].
  - intros done m rest b' Hl (Hg & Hb' & Hall & Hnew). pose proof (shape_names b b' (proj1 Hg)) as Hnames.
    eapply ensures_weaken; [apply claim_node_ok; [done| |by rewrite Hnames]|].
    + rewrite Hnames. apply Hin. rewrite Hl. set_solver.
    + intros b'' (Hg' & Hb'' & Hm & Hnew'). split_and!; [by etrans|done| |].
      * apply Forall_app. split; [|by apply Forall_singleton]. eapply Forall_impl; [exact Hall|]. intros x. apply Hg'.
      * intros x t Hx. destruct (Hnew' x t Hx) as [Hx'|[-> ->]]; [auto|]. right. split; [rewrite Hl; set_solver|done].
  - intros b' (Hg & Hb' & Hall & Hnew). rewrite Forall_forall in Hall. split_and!; [done|done| |auto].
    intros x t y Hx. rewrite (shape_successors b b') by apply Hg. intros Hy. destruct (Hnew x t Hx) as [Hold|[Hxo ->]].
    + destruct (Hcl x t y Hold Hy) as [|Hy']; [by left|right; by apply Hg].
    + destruct (Hclosed x y Hxo Hy) as [|Hy']; [by left|right; auto].
Qed.

(** The parts of a workflow node exit to it or to the next step. *)
Record parts_ok b n : Prop := {
  po_body : kind n = LoopNode → claimed b (loop_body n) = Some (node_name n);
  po_branches : kind n = ParallelNode → ∀ br, br ∈ branches n → claimed b br = Some (node_name n);
  po_steps : ∀ s x y, b_steps b !! node_name n = Some s → (x, y) ∈ step_targets s (node_name n +:+ kDoneSuffix) →
    claimed b x = Some y
}.

Lemma step_targets_in s d x y : (x, y) ∈ step_targets s d → x ∈ s ∧ (y ∈ s ∨ y = d).
Proof.
  induction s as [|a s IH]; [by intros ?%elem_of_nil|]. destruct s as [|c s].
  - intros [= -> ->]%list_elem_of_singleton. split; [by left|by right].
  - cbn [step_targets]. intros [[= -> ->]|Hin]%elem_of_cons; [split; [by left|left; right; by left]|].
    destruct (IH Hin) as [? [?| ->]]; split; try (by right); left; by right.
Qed.

Lemma step_targets_ne s d x y : NoDup s → d ∉ s → (x, y) ∈ step_targets s d → x ≠ y.
Proof.
  induction s as [|a s IH]; [by intros _ _ ?%elem_of_nil|]. intros [Ha Hnd]%NoDup_cons [Hda Hds]%not_elem_of_cons.
  destruct s as [|c s].
  - intros [= -> ->]%list_elem_of_singleton. done.
  - cbn [step_targets]. intros [[= -> ->]|Hin]%elem_of_cons; [|by apply IH]. intros ->. set_solver.
Qed.

Lemma grows_parts b b' n : grows b b' → parts_ok b n → parts_ok b' n.
Proof.
  intros [Hs Hg] [H1 H2 H3]. split; [eauto|eauto|]. rewrite (sh_steps _ _ Hs). eauto.
Qed.

(** One chain after the other. *)
Lemma claim_all_ok {A} (start target label : A → string) (l : list A) b :
  claims b → owner_closed b → (∀ x, x ∈ l → start x ∈ bnames b ∧ target x ∈ bnames b ∧ start x ≠ target x) →
  ensures (for_each (λ x, claim_chain source (start x) (target x) (label x)) l b) (λ b', grows b b' ∧ claims b' ∧
    owner_closed b' ∧ ∀ x, x ∈ l → claimed b' (start x) = Some (target x)).
Proof.
  intros Hb Hcl Hl. eapply ensures_weaken; [apply (ensures_for_each _ _ (λ done b', grows b b' ∧ claims b' ∧ owner_closed b' ∧
    Forall (λ x, claimed b' (start x) = Some (target x)) done))|].
  - by split_and!.
  - intros done x rest b' Hx (Hg & Hb' & Hcl' & Hdone). destruct (Hl x) as (H1 & H2 & H3); [rewrite Hx; set_solver|].
    pose proof (shape_names b b' (proj1 Hg)) as Hnames.
    eapply ensures_weaken; [apply claim_chain_ok; [done|done|by rewrite Hnames|right; by rewrite Hnames|done]|].
    intros b'' (Hg' & Hb'' & Hcl'' & Hx'). split_and!; [by etrans|done|done|]. apply Forall_app. split; [|by apply Forall_singleton].
    eapply Forall_impl; [exact Hdone|]. intros y. apply Hg'.
  - intros b' (Hg & Hb' & Hcl' & Hdone). by rewrite Forall_forall in Hdone.
Qed.

Lemma known_in b x : graph_inv b → known b x = true → x ∈ bnames b.
Proof. intros Hb Hx. by apply known_spec in Hx as [? _]; [|apply Hb]. Qed.

(** A node of the graph, whatever its exit. *)
Lemma part_node b n t :
  graph_inv b → set_exit n t ∈ b_nodes b →
  refs_ok b n ∧ node_name n ∈ bnames b ∧ (is_done (node_name n) = true → kind n = FunctionNode) ∧
  (∀ s, b_steps b !! node_name n = Some s → kind n = FunctionNode ∧ is_done (node_name n) = false).
Proof.
  intros Hb Hn. pose proof (graph_inv_nodes b Hb) as Hni. pose proof (ni_local _ b Hni) as Hl. pose proof (gi_refs b Hb) as Hr.
  rewrite Forall_forall in Hl, Hr. split_and!.
  - destruct (Hr _ Hn) as [R1 R2 R3]. by split.
  - by apply (list_elem_of_fmap_2 node_name) in Hn.
  - apply (lo_done _ _ (Hl _ Hn)).
  - intros s Hs. destruct (ni_seq_node _ b Hni (node_name n)) as (Hh & m & Hm & Hmn & Hk); [apply (ni_seq _ b Hni); by rewrite Hs|].
    assert (get_node b (node_name n) = Some (set_exit n t)) by (by apply (get_node_spec registry)).
    assert (get_node b (node_name n) = Some m) by (by apply (get_node_spec registry)).
    assert (m = set_exit n t) as -> by congruence. split; [done|].
    destruct (is_done (node_name n)) eqn:Ed; [|done]. apply is_done_hash in Ed. congruence.
Qed.

Lemma claim_steps_ok b n t s :
  claims b → owner_closed b → set_exit n t ∈ b_nodes b → b_steps b !! node_name n = Some s → kind n = FunctionNode →
  ensures (for_each (λ st, claim_chain source st.1 st.2 ("sequential '" +:+ node_name n +:+ "' step '" +:+ st.1 +:+ "'"))
      (step_targets s (node_name n +:+ kDoneSuffix)) b)
    (λ b', grows b b' ∧ claims b' ∧ owner_closed b' ∧ parts_ok b' n).
Proof.
  intros Hb Hcl Hn Hs Hk. pose proof (cl_inv b Hb) as Hgi. destruct (part_node b n t Hgi Hn) as (Hr & Hname & _ & _).
  destruct (ro_steps b n Hr s Hs) as [Hall Hnd]. rewrite Forall_forall in Hall. set (d := node_name n +:+ kDoneSuffix).
  assert (Hd : d ∈ bnames b).
  { apply (fi_done b (gi_full b Hgi)), (ni_seq _ b (graph_inv_nodes b Hgi)). by rewrite Hs. }
  assert (Hds : d ∉ s). { intros [Hx _]%Hall. apply known_plain in Hx; [|apply Hgi]. unfold d in Hx. by rewrite suffix_hash in Hx. }
  eapply ensures_weaken; [apply claim_all_ok; [done|done|]|].
  - intros [x y] Hxy. destruct (step_targets_in _ _ _ _ Hxy) as [Hx Hy]. cbn. split_and!.
    + by apply known_in, Hall.
    + destruct Hy as [Hy| ->]; [by apply known_in, Hall|done].
    + by eapply step_targets_ne.
  - intros b' (Hg & Hb' & Hcl' & Hdone). split_and!; [done|done|done|]. split; [by rewrite Hk|by rewrite Hk|].
    intros s' x y Hs' Hxy. rewrite (sh_steps _ _ (proj1 Hg)), Hs in Hs'. injection Hs' as <-. by apply (Hdone (x, y)).
Qed.

Lemma claim_parts_ok n t b :
  claims b → owner_closed b → set_exit n t ∈ b_nodes b →
  ensures (claim_parts source n b) (λ b', grows b b' ∧ claims b' ∧ owner_closed b' ∧ parts_ok b' n).
Proof.
  intros Hb Hcl Hn. pose proof (cl_inv b Hb) as Hgi. destruct (part_node b n t Hgi Hn) as (Hr & Hname & Hdk & Hst).
  assert (Hno : ∀ b', grows b b' → kind n ≠ FunctionNode ∨ b_steps b !! node_name n = None → ∀ s x y, b_steps b' !! node_name n = Some s →
    (x, y) ∈ step_targets s (node_name n +:+ kDoneSuffix) → claimed b' x = Some y).
  { intros b' [Hs _] Hk s x y Hst'. rewrite (sh_steps _ _ Hs) in Hst'. destruct (Hst s Hst'). naive_solver congruence. }
  assert (Hidle : kind n ≠ LoopNode → kind n ≠ ParallelNode → b_steps b !! node_name n = None →
    grows b b ∧ claims b ∧ owner_closed b ∧ parts_ok b n).
  { intros. split_and!; [done|done|done|]. split; [done|done|]. apply Hno; [done|by right]. }
  unfold claim_parts. cbv zeta. destruct (is_done (node_name n)) eqn:Ed.
  { specialize (Hdk eq_refl). apply ensures_ret, Hidle; [congruence|congruence|].
    destruct (b_steps b !! node_name n) as [s|] eqn:Es; [|done]. by destruct (Hst s eq_refl). }
  assert (Hseq : kind n ≠ LoopNode → kind n ≠ ParallelNode → ensures
    (if is_sequential b (node_name n) then
        s ← must (b_steps b !! node_name n);
        for_each (λ st, claim_chain source st.1 st.2 ("sequential '" +:+ node_name n +:+ "' step '" +:+ st.1 +:+ "'"))
          (step_targets s (node_name n +:+ kDoneSuffix)) b
     else mret b) (λ b', grows b b' ∧ claims b' ∧ owner_closed b' ∧ parts_ok b' n)).
  { intros Hk1 Hk2. unfold is_sequential. pose proof (ni_seq _ b (graph_inv_nodes b Hgi) (node_name n)) as Hsq.
    case_bool_decide as Hin.
    - destruct (proj1 Hsq Hin) as [s Hs]. eapply ensures_bind with (Q1 := λ s', s' = s); [apply ensures_must; eauto|].
      intros s' ->. eapply claim_steps_ok; eauto. by destruct (Hst s Hs).
    - apply ensures_ret, Hidle; [done|done|]. destruct (b_steps b !! node_name n) eqn:E; [|done]. destruct Hin. apply Hsq. by eexists. }
  destruct (kind n) eqn:Ek; try (by apply Hseq).
  - eapply ensures_weaken; [apply (claim_all_ok id (λ _, node_name n) _ (branches n)); [done|done|]|].
    + intros br Hbr. destruct (ro_branches b n Hr br Hbr). split_and!; [by apply known_in|done|done].
    + intros b' (Hg & Hb' & Hcl' & Hdone). split_and!; [done|done|done|]. split; [by rewrite Ek|auto|]. apply Hno; auto.
  - destruct (ro_body b n Hr Ek) as [Hk Hne]. eapply ensures_weaken; [apply claim_chain_ok; [done|done|by apply known_in|by right|done]|].
    intros b' (Hg & Hb' & Hcl' & Hx'). split_and!; [done|done|done|]. split; [done|by rewrite Ek|]. apply Hno; auto.
Qed.

(** What the loader has established of the graph. *)
Record loaded b : Prop := {
  ld_claims : claims b;
  ld_closed : owner_closed b;
  ld_entry : claimed b (b_entry b) = Some "";
  ld_parts : ∀ n, n ∈ b_nodes b → parts_ok b n
}.

Lemma assign_exits_ok b :
  graph_inv b → b_owner b = ∅ → Forall (λ n, exit_to n = "") (b_nodes b) → ensures (assign_exits source b) loaded.
Proof.
  intros Hb Ho Hex. unfold assign_exits. assert (Hnone : ∀ x, claimed b x = None) by (intros x; unfold claimed; by rewrite Ho, lookup_empty).
  assert (Hne : b_entry b ≠ "").
  { pose proof (gi_entry b Hb) as (n & -> & Hn)%list_elem_of_fmap. pose proof (ni_local _ b (graph_inv_nodes b Hb)) as Hl.
    rewrite Forall_forall in Hl. apply (lo_name _ n (Hl n Hn)). }
  eapply ensures_bind with (Q1 := λ b1, grows b b1 ∧ claims b1 ∧ owner_closed b1 ∧ claimed b1 (b_entry b) = Some "").
  - apply claim_chain_ok; [|by intros x t y; rewrite Hnone|apply Hb|by left|done]. split; [done| |by intros x t; rewrite Hnone].
    rewrite Forall_forall in Hex. intros n Hn. by rewrite Hnone, (Hex n Hn).
  - intros b1 (Hg & Hb1 & Hcl & He).
    eapply ensures_weaken; [apply (ensures_for_each _ _ (λ done b', grows b1 b' ∧ claims b' ∧ owner_closed b' ∧ Forall (parts_ok b') done))|].
    + by split_and!.
    + intros done n rest b' Hl (Hg' & Hb' & Hcl' & Hdone). destruct (shape_out b1 b' n) as [t Ht]; [apply Hg'|rewrite Hl; set_solver|].
      eapply ensures_weaken; [by eapply claim_parts_ok|].
      * intros b'' (Hg'' & Hb'' & Hcl'' & Hn). split_and!; [by etrans|done|done|]. apply Forall_app. split; [|by apply Forall_singleton].
        eapply Forall_impl; [exact Hdone|]. intros m. by apply grows_parts.
    + intros b' (Hg' & Hb' & Hcl' & Hall). rewrite Forall_forall in Hall. split; [done|done| |].
      * rewrite (sh_entry _ _ (proj1 Hg')), (sh_entry _ _ (proj1 Hg)). by apply Hg'.
      * intros n' (n & t & Hn & ->)%(shape_in b1 b'); [|apply Hg']. destruct (Hall n Hn) as [H1 H2 H3]. by split.
Qed.

(** ** The warning passes *)

Lemma exit_in b n : claims b → n ∈ b_nodes b → exit_to n ≠ "" → exit_to n ∈ bnames b.
Proof.
  intros Hb Hn. rewrite (cl_exit b Hb n Hn). destruct (claimed b (node_name n)) as [t|] eqn:E; [|done]. cbn.
  intros Hne. destruct (cl_owner b Hb _ _ E) as [_ [?|?]]; done.
Qed.

Lemma loaded_refs b n : loaded b → n ∈ b_nodes b → refs_ok b n.
Proof. intros Hb Hn. pose proof (gi_refs b (cl_inv b (ld_claims b Hb))) as Hr. rewrite Forall_forall in Hr. auto. Qed.

Lemma steps_in b x s : graph_inv b → b_steps b !! x = Some s → s ⊆ bnames b.
Proof.
  intros Hb Hs y Hy. destruct (steps_known b x s Hb Hs) as [Hall _]. rewrite Forall_forall in Hall.
  by apply known_in, Hall.
Qed.

Lemma reachable_in b x : loaded b → x ∈ bnames b → ∃ l, reachable_from b x = Some l ∧ l ⊆ bnames b.
Proof.
  intros Hb Hx. pose proof (cl_inv b (ld_claims b Hb)) as Hgi. destruct (get_node_ex registry b x) as [n Hn]; [auto|done|].
  unfold reachable_from. rewrite Hn. simpl. eexists. split; [done|]. apply (get_node_spec registry) in Hn as [Hin <-]; [|auto].
  pose proof (loaded_refs b n Hb Hin) as Hr. intros y. rewrite !elem_of_app. intros [Hy|[Hy|[Hy|[Hy|Hy]]]].
  - by eapply successors_in.
  - destruct (is_empty (exit_to n)) eqn:E; [by apply elem_of_nil in Hy|]. apply list_elem_of_singleton in Hy as ->.
    apply exit_in; [apply Hb|done|by apply is_empty_false].
  - destruct (kind n) eqn:Ek; try (by apply elem_of_nil in Hy). apply list_elem_of_singleton in Hy as ->.
    by apply known_in, (ro_body b n Hr).
  - by apply known_in, (ro_branches b n Hr).
  - destruct (b_steps b !! node_name n) as [s|] eqn:Es; [|by apply elem_of_nil in Hy]. by eapply steps_in.
Qed.

Lemma warn_unreachable_ok b : loaded b → ensures (warn_unreachable source b) (λ _, True).
Proof.
  intros Hb. pose proof (cl_inv b (ld_claims b Hb)) as Hgi. unfold warn_unreachable.
  destruct (walk_total (reachable_from b) (λ _, false) (bnames b) (walk_fuel b (λ x, default [] (reachable_from b x)))
    [b_entry b] []) as [out Hout].
  - by eapply bnames_NoDup, graph_inv_nodes.
  - intros x Hx. by apply reachable_in.
  - intros x ->%list_elem_of_singleton. apply Hgi.
  - rewrite pending_all. unfold walk_fuel. simpl. lia.
  - eapply ensures_bind with (Q1 := λ _, True); [apply ensures_must; eauto|]. intros seen _.
    eapply ensures_weaken; [apply (ensures_for_each _ _ (λ _ _, True)); [done|]|done]. intros _ n _ [] _ _. ensures_auto.
Qed.

(** The target of a static edge. *)
Lemma edge_target_in b x e r :
  graph_inv b → edge_from b x = Some (e, r) → router e = None → not_end (to e) = true → to e ∈ bnames b.
Proof.
  intros Hb [Hin _]%edge_from_spec Er En. pose proof (gi_edges b Hb) as He. rewrite Forall_forall in He.
  destruct (He _ Hin) as [_ He']. cbn in He'. destruct r as [r|]; [destruct He'; congruence|].
  apply target_known; [done|apply He'|done].
Qed.

Lemma static_next_in b n : loaded b → n ∈ b_nodes b → static_next b n = "" ∨ static_next b n ∈ bnames b.
Proof.
  intros Hb Hn. pose proof (cl_inv b (ld_claims b Hb)) as Hgi.
  assert (Hexit : exit_to n = "" ∨ exit_to n ∈ bnames b).
  { destruct (decide (exit_to n = "")) as [|Hne]; [by left|right]. by apply exit_in; [apply Hb| |]. }
  unfold static_next. destruct (kind n); [| | | |by left].
  all: destruct (is_sequential b (node_name n));
    [destruct (b_steps b !! node_name n) as [[|x s]|] eqn:Es; [by left| |by left]; right; cbn; eapply steps_in; [done|exact Es|by left]|].
  all: destruct (edge_from b (node_name n)) as [[e r]|] eqn:Ee; [|done]; destruct (router e) eqn:Er; [by left|];
    destruct (not_end (to e)) eqn:En; [|done]; right; by eapply edge_target_in.
Qed.

(** Names of the graph not marked yet. *)
Definition unmarked b (state : gmap string Mark) : nat := length (filter (λ x, state !! x = None) (bnames b)).

Lemma unmarked_insert b (state : gmap string Mark) x k :
  x ∈ bnames b → state !! x = None → unmarked b (<[x := k]> state) < unmarked b state.
Proof.
  intros Hx Hs. unfold unmarked. set (state' := <[x := k]> state).
  assert (Hle : ∀ l : list string,
    length (filter (λ y, state' !! y = None) l) ≤ length (filter (λ y, state !! y = None) l) ∧
    (x ∈ l → length (filter (λ y, state' !! y = None) l) < length (filter (λ y, state !! y = None) l))).
  { induction l as [|y l [IH1 IH2]]; [split; [done|by intros ?%elem_of_nil]|]. rewrite !filter_cons.
    assert (Hy : state' !! y = None → state !! y = None ∧ y ≠ x).
    { unfold state'. destruct (decide (y = x)) as [->|Hne]; [by rewrite lookup_insert_eq|by rewrite lookup_insert_ne]. }
    split; [do 2 case_decide; simpl; naive_solver lia|]. intros [->|Hin]%elem_of_cons.
    - rewrite (decide_True (P := state !! y = None)) by done. rewrite decide_False by naive_solver. simpl. lia.
    - specialize (IH2 Hin). do 2 case_decide; simpl; naive_solver lia. }
  by apply Hle.
Qed.

Lemma static_walk_total b fuel cur state path :
  loaded b → cur = "" ∨ cur ∈ bnames b → unmarked b state ≤ fuel → ∃ r, static_walk b fuel cur state path = Some r.
Proof.
  intros Hb. pose proof (cl_inv b (ld_claims b Hb)) as Hgi. revert cur state path.
  induction fuel as [|fuel IH]; intros cur state path Hcur Hf; cbn [static_walk];
    (destruct (is_empty cur) eqn:Ee; [by eexists|]); apply is_empty_false in Ee; destruct Hcur as [|Hcur]; try done;
    (destruct (state !! cur) eqn:Es; [by eexists|]);
    pose proof (unmarked_insert b state cur OnWalk Hcur Es); [lia|].
  destruct (get_node_ex registry b cur) as [n Hn]; [auto|done|]. rewrite Hn. simpl. apply (get_node_spec registry) in Hn as [Hin <-]; [|auto].
  apply IH; [by apply static_next_in|lia].
Qed.

Lemma warn_static_cycles_ok b : loaded b → ensures (warn_static_cycles source b) (λ _, True).
Proof.
  intros Hb. unfold warn_static_cycles. eapply ensures_bind with (Q1 := λ _, True); [|intros; by apply ensures_ret].
  eapply ensures_weaken; [apply (ensures_for_each _ _ (λ _ _, True)); [done|]|done]. intros done n rest state Hl _.
  unfold warn_walk. destruct (state !! node_name n); [by apply ensures_ret|].
  destruct (static_walk_total b (length (b_nodes b)) (node_name n) state []) as [[[path cur] state'] Hw]; [done| | |].
  - right. apply list_elem_of_fmap_2. rewrite Hl. set_solver.
  - unfold unmarked, bnames. etrans; [apply length_filter|]. by rewrite length_map.
  - eapply ensures_bind with (Q1 := λ _, True); [apply ensures_must; eauto|]. intros [[path' cur'] state''] _. ensures_auto.
Qed.

(** ** Documents *)

Lemma resolve_entry_ok b :
  full_inv b → b_nodes b ≠ [] → ensures (resolve_entry source b) (λ b', ∃ e, b' = set_entry b e ∧ e ∈ bnames b).
Proof.
  intros Hb Hne. unfold resolve_entry. destruct (is_empty (b_entry b)).
  - eapply ensures_bind with (Q1 := λ n, n ∈ b_nodes b).
    + apply ensures_must. destruct (b_nodes b) as [|n l]; [done|]. exists n. split; [done|by left].
    + intros n Hn. apply ensures_ret. exists (node_name n). split; [done|by apply list_elem_of_fmap_2].
  - destruct (known b (b_entry b)) eqn:Ek; [|apply ensures_bad]. apply ensures_ret. exists (b_entry b).
    split; [by destruct b|]. by apply known_spec in Ek as [? _].
Qed.

Lemma build_graph_ok top entry : ensures (build_graph registry source top entry) loaded.
Proof.
  unfold build_graph. eapply ensures_bind; [apply parse_nodes_ok|]. intros b (Hb & _ & Hne). cbv zeta.
  destruct (add_done_ok b Hb) as (Hfull & Hed & Ho & _ & Hsq & _ & Hex & Hne'). set (b1 := add_done_nodes b) in *.
  eapply ensures_bind; [by apply check_references_ok|]. intros ? Hr.
  eapply ensures_bind; [apply resolve_entry_ok; auto|]. intros b2 (e & -> & He).
  eapply ensures_bind; [apply parse_edges_ok|].
  - destruct Hfull as [[] ? ?]. by split; [split|..].
  - done.
  - intros b3 (es & -> & Hes & Hnd & Hns). apply assign_exits_ok; [|done|done].
    apply assembled; try done.
Qed.

(** ** The graph *)

Context (b : Builder W) (Hb : loaded b) (name : string) (steps : Z).
#[local] Abbreviation g := (graph_of name steps b).

Lemma loaded_inv : graph_inv b.
Proof. apply Hb. Qed.

Lemma loaded_names : names g = bnames b.
Proof. done. Qed.

Lemma loaded_local n : n ∈ b_nodes b → local_ok registry n.
Proof. intros Hn. pose proof (ni_local _ b (graph_inv_nodes b loaded_inv)) as Hl. rewrite Forall_forall in Hl. auto. Qed.

Lemma loaded_edge e : e ∈ edges g → ∃ r, (e, r) ∈ b_edges b ∧ edge_inv b (e, r).
Proof.
  intros ([e' r] & -> & Hin)%list_elem_of_fmap. exists r. split; [done|]. pose proof (gi_edges b loaded_inv) as He.
  rewrite Forall_forall in He. by apply He.
Qed.

Lemma target_in x : target_ok b x = true → x = kGraphEnd ∨ x ∈ bnames b.
Proof. intros [E%str_eqb_true|Hk]%orb_true_iff; [by left|right]. by apply known_in; [apply loaded_inv|]. Qed.

Lemma loaded_valid : valid_graph g.
Proof.
  split.
  - rewrite loaded_names. apply loaded_inv.
  - rewrite loaded_names. eapply bnames_NoDup, graph_inv_nodes, loaded_inv.
  - rewrite loaded_names. apply Forall_forall. intros n Hn. pose proof (loaded_local n Hn) as Hl.
    pose proof (loaded_refs b n Hb Hn) as Hr. split_and!; [apply Hl| |].
    + destruct (decide (exit_to n = "")) as [|Hne]; [by left|right]. by apply exit_in; [apply Hb| |].
    + pose proof (lo_kind _ n Hl) as Hk. unfold kind_ok. destruct (kind n) eqn:Ek; try done.
      * split; [done|]. apply Forall_forall. intros br Hbr. apply known_in; [apply loaded_inv|]. by apply (ro_branches b n Hr).
      * split; [|done]. apply known_in; [apply loaded_inv|]. by apply (ro_body b n Hr).
  - rewrite loaded_names. apply Forall_forall. intros e He. destruct (loaded_edge e He) as (r & _ & Hf & Ht). split; [done|].
    cbn in Ht. destruct r as [r|]; [left; destruct Ht; congruence|]. right. apply target_in, Ht.
  - cbn. pose proof (gi_froms b loaded_inv) as Hf. by rewrite map_map.
Qed.

Lemma route_target_in r gs : route_target r gs ∈ (route_cases r).*2 ++ [route_fallback r].
Proof.
  unfold route_target. destruct (has_state gs (route_key r)); [|set_solver].
  destruct (find _ _) as [c|] eqn:E; [|set_solver]. apply find_some in E as [Hin _]. apply elem_of_app. left.
  apply list_elem_of_fmap_2. by apply list_elem_of_In.
Qed.

(** Routers name nodes or the end. *)
Lemma loaded_router e f s gs w :
  e ∈ edges g → router e = Some f → ∃ t, (f s gs w).2 = Ok t ∧ (t = kGraphEnd ∨ has_node g t = true).
Proof.
  intros He Hf. destruct (loaded_edge e He) as (r & _ & _ & Ht). cbn in Ht. destruct r as [r|]; [|destruct Ht; congruence].
  destruct Ht as [Hr Hall]. assert (f = route_on_state r) as -> by congruence. exists (route_target r gs). split; [done|].
  rewrite Forall_forall in Hall. rewrite has_node_spec. apply target_in, Hall, route_target_in.
Qed.

Lemma loaded_tame : tame_registry registry → tame_graph g.
Proof.
  intros Hr. split.
  - apply Forall_forall. intros n Hn. by apply (lo_tame _ n (loaded_local n Hn)).
  - intros e f He Hf. destruct (loaded_edge e He) as (r & _ & _ & Ht). cbn in Ht. destruct r as [r|]; [|destruct Ht; congruence].
    destruct Ht as [Hr' _]. assert (f = route_on_state r) as -> by congruence. by intros s gs w.
Qed.

(** ** Nesting *)

(** [nesting x d]: following the owners from [x], the top level is [d] up. *)
Inductive nesting : string → nat → Prop :=
| nesting_top x : claimed b x = Some "" → nesting x 0
| nesting_up x t d : claimed b x = Some t → t ≠ "" → nesting t d → nesting x (S d).

(** [within x q]: [x] exits, in one step or more, into [q]. *)
Inductive within : string → string → Prop :=
| within_one x q : claimed b x = Some q → q ≠ "" → within x q
| within_up x t q : claimed b x = Some t → t ≠ "" → within t q → within x q.

Definition rooted (x : string) : Prop := ∃ d, nesting x d.

Lemma within_trans x y z : within x y → within y z → within x z.
Proof. induction 1; intros; [by eapply within_up|]. eapply within_up; eauto. Qed.

Lemma nesting_unique x d d' : nesting x d → nesting x d' → d = d'.
Proof.
  intros Hx. revert d'. induction Hx as [x Hx|x t d Hx Ht _ IH]; intros d' Hd'; inversion Hd'; subst; try congruence.
  f_equal. apply IH. congruence.
Qed.

Lemma within_nesting x q d : within x q → nesting x d → ∃ e, nesting q e ∧ e < d.
Proof.
  intros Hw. revert d. induction Hw as [x q Hx Hq|x t q Hx Ht _ IH]; intros d Hd; inversion Hd; subst; try congruence.
  - assert (t = q) as -> by congruence. eauto with lia.
  - assert (t0 = t) as -> by congruence. destruct (IH d0) as (e & He & Hlt); [done|]. exists e. split; [done|lia].
Qed.

Lemma within_rooted x q : within x q → rooted q → rooted x.
Proof.
  intros Hw [e He]. induction Hw as [x q Hx Hq|x t q Hx Ht _ IH].
  - exists (S e). by eapply nesting_up.
  - destruct (IH He) as [d Hd]. exists (S d). by eapply nesting_up.
Qed.

(** The owners above a node are distinct nodes. *)
Lemma nesting_bound x d : nesting x d → d < length (b_nodes b).
Proof.
  intros Hx. assert (Hpath : ∃ l, length l = S d ∧ NoDup l ∧ l ⊆ bnames b ∧ ∀ y, y ∈ l → ∃ e, nesting y e ∧ e ≤ d).
  { induction Hx as [x Hx|x t d Hx Ht Hn IH].
    - exists [x]. split_and!; [done|apply NoDup_singleton| |].
      + intros y ->%list_elem_of_singleton. by destruct (cl_owner b (ld_claims b Hb) _ _ Hx).
      + intros y ->%list_elem_of_singleton. exists 0. split; [by apply nesting_top|done].
    - destruct IH as (l & Hlen & Hnd & Hin & Hl). exists (x :: l). assert (Hx' : nesting x (S d)) by (by eapply nesting_up).
      split_and!; [simpl; lia| | |].
      + apply NoDup_cons. split; [|done]. intros (e & He & Hle)%Hl. pose proof (nesting_unique x _ _ He Hx'). lia.
      + intros y [->|Hy]%elem_of_cons; [by destruct (cl_owner b (ld_claims b Hb) _ _ Hx)|auto].
      + intros y [->|Hy]%elem_of_cons; [by exists (S d)|]. destruct (Hl y Hy) as (e & He & Hle). exists e. split; [done|lia]. }
  destruct Hpath as (l & Hlen & Hnd & Hin & _). assert (length l ≤ length (bnames b)) as Hle.
  { apply submseteq_length. by apply NoDup_submseteq. }
  unfold bnames in Hle. rewrite length_map in Hle. lia.
Qed.

(** How far up the top level is. *)
Fixpoint nesting_of (fuel : nat) (x : string) : nat :=
  match fuel with
  | O => 0
  | S fuel' =>
      match claimed b x with
      | Some t => if is_empty t then 0 else S (nesting_of fuel' t)
      | None => 0
      end
  end.

Lemma nesting_of_spec fuel x d : nesting x d → d ≤ fuel → nesting_of fuel x = d.
Proof.
  intros Hx. revert fuel. induction Hx as [x Hx|x t d Hx Ht _ IH]; intros [|fuel] Hf; simpl; try lia; rewrite Hx; simpl; [done|].
  apply is_empty_false in Ht. rewrite Ht. f_equal. apply IH. lia.
Qed.

Definition height (x : string) : nat := length (b_nodes b) - nesting_of (length (b_nodes b)) x.

Lemma end_not_named : kGraphEnd ∉ bnames b.
Proof. intros (n & E & Hn)%list_elem_of_fmap. destruct (lo_name _ n (loaded_local n Hn)). congruence. Qed.

Lemma name_not_empty x : x ∈ bnames b → x ≠ "".
Proof. intros (n & -> & Hn)%list_elem_of_fmap. apply (lo_name _ n (loaded_local n Hn)). Qed.

(** Every step of a sequential node exits, in the end, into its done node. *)
Lemma steps_within n s x l :
  n ∈ b_nodes b → b_steps b !! node_name n = Some s → s = x :: l → within x (node_name n +:+ kDoneSuffix).
Proof.
  intros Hn Hs ->. set (d := node_name n +:+ kDoneSuffix). pose proof (po_steps b n (ld_parts b Hb n Hn)) as Hp.
  assert (Hall : ∀ y z, (y, z) ∈ step_targets (x :: l) d → claimed b y = Some z ∧ z ≠ "").
  { intros y z Hyz. specialize (Hp _ y z Hs Hyz). split; [done|].
    destruct (step_targets_in _ _ _ _ Hyz) as [_ [Hz| ->]]; [|apply suffix_name_ok].
    eapply name_not_empty, steps_in; [apply loaded_inv|exact Hs|done]. }
  clear Hp Hs. revert x Hall. induction l as [|y l IH]; intros x Hall.
  - destruct (Hall x d) as [? ?]; [by left|]. by apply within_one.
  - destruct (Hall x y) as [? ?]; [by left|]. eapply within_up; [done|done|]. apply IH. intros z w Hzw. apply Hall. by right.
Qed.

Lemma find_edge_from x e : find_edge g x = Some e → ∃ r, edge_from b x = Some (e, r).
Proof.
  unfold find_edge, edge_from. cbn. induction (b_edges b) as [|[e' r] l IH]; [done|]. simpl.
  destruct (str_eqb (from e') x); [intros [= <-]; eauto|done].
Qed.

(** Where a run goes after a claimed node: to its owner, to another node of the
    owner, or into one of its own parts. *)
Lemma follow_cases n t m :
  n ∈ b_nodes b → claimed b (node_name n) = Some t → may_follow g n m → m ∈ bnames b →
  (m = t ∨ claimed b m = Some t) ∨ within m (node_name n) ∨
  ∃ d, within m d ∧ (d = t ∨ claimed b d = Some t).
Proof.
  intros Hn Ht Hf Hm. pose proof (ld_closed b Hb) as Hcl. pose proof (ld_parts b Hb n Hn) as Hp.
  assert (Hname : node_name n ≠ "") by (apply (lo_name _ n (loaded_local n Hn))).
  assert (Hedge : ∀ e r, edge_from b (node_name n) = Some (e, r) → node_name n ∉ b_sequential b →
    m ∈ successors b (node_name n) → m = t ∨ claimed b m = Some t) by (intros; by eapply Hcl).
  destruct Hf as [Hk ->|e He Hr ->|e f s gs w He Hr Hres|Hx ->].
  - right. left. apply within_one; [by apply (po_body b n Hp)|done].
  - destruct (find_edge_from _ _ He) as [r Her]. pose proof (edge_from_spec _ _ _ Her) as [Hin Hfrom]. cbn in Hfrom.
    destruct (decide (node_name n ∈ b_sequential b)) as [Hs|Hs].
    + right. right. destruct (gi_seq b loaded_inv _ Hin) as (_ & s & Hst); [cbn; by rewrite Hfrom|]. cbn in Hst. rewrite Hfrom in Hst.
      exists (node_name n +:+ kDoneSuffix). split; [by eapply steps_within|]. apply (Hcl (node_name n)); [done|].
      unfold successors, is_sequential. rewrite bool_decide_true by done. by left.
    + left. eapply Hedge; [done|done|]. unfold successors, is_sequential. rewrite bool_decide_false, Her by done.
      pose proof (gi_edges b loaded_inv) as Hall. rewrite Forall_forall in Hall. destruct (Hall _ Hin) as [_ Hi]. cbn in Hi.
      destruct r as [r|]; [destruct Hi; congruence|]. unfold not_end. destruct (str_eqb (to e) kGraphEnd) eqn:E; [|by left].
      apply str_eqb_true in E. rewrite E in Hm. by destruct end_not_named.
  - destruct (find_edge_from _ _ He) as [r Her]. pose proof (edge_from_spec _ _ _ Her) as [Hin Hfrom]. cbn in Hfrom.
    pose proof (gi_edges b loaded_inv) as Hall. rewrite Forall_forall in Hall. destruct (Hall _ Hin) as [_ Hi]. cbn in Hi.
    destruct r as [r|]; [|destruct Hi; congruence]. destruct Hi as [Hr' _]. assert (f = route_on_state r) as -> by congruence.
    injection Hres as <-. left.
    destruct (decide (node_name n ∈ b_sequential b)) as [Hs|Hs].
    { destruct (gi_seq b loaded_inv _ Hin) as [? _]; [cbn; by rewrite Hfrom|done]. }
    eapply Hedge; [done|done|]. unfold successors, is_sequential. rewrite bool_decide_false, Her by done.
    unfold route_targets. apply list_elem_of_In, filter_In. split; [apply list_elem_of_In, route_target_in|].
    unfold not_end. apply negb_true_iff, str_eqb_false. intros E. rewrite E in Hm. by apply end_not_named.
  - left. left. rewrite (cl_exit b (ld_claims b Hb) n Hn), Ht. done.
Qed.

Lemma rooted_claimed x : rooted x → ∃ t, claimed b x = Some t ∧ (t = "" ∨ rooted t).
Proof. intros [d Hd]. inversion Hd; subst; eexists; split; eauto. right. by eexists. Qed.

Lemma follow_rooted n m : n ∈ b_nodes b → rooted (node_name n) → may_follow g n m → m ∈ bnames b → rooted m.
Proof.
  intros Hn Hr Hf Hm. destruct (rooted_claimed _ Hr) as (t & Ht & Hrt).
  assert (Hup : ∀ y, y ∈ bnames b → y = t ∨ claimed b y = Some t → rooted y).
  { intros y Hy [->|Hc]; [destruct Hrt as [->|]; [by destruct (name_not_empty _ Hy)|done]|].
    destruct Hrt as [->|[e He]]; [exists 0; by apply nesting_top|].
    exists (S e). eapply nesting_up; [done| |done]. destruct He as [? Hc'|? ? ? Hc']; destruct (cl_owner b (ld_claims b Hb) _ _ Hc');
      by apply name_not_empty. }
  destruct (follow_cases n t m Hn Ht Hf Hm) as [Hc|[Hw|(d & Hw & Hd)]]; [by apply Hup|by eapply within_rooted|].
  eapply within_rooted; [done|]. apply Hup; [|done]. clear -Hw Hb. induction Hw as [x q Hx Hq|]; [|done].
  destruct (cl_owner b (ld_claims b Hb) _ _ Hx) as [_ [->|]]; done.
Qed.

Lemma follow_within n q m :
  n ∈ b_nodes b → within (node_name n) q → may_follow g n m → m ∈ bnames b → m ≠ q → within m q.
Proof.
  intros Hn Hw Hf Hm Hne.
  assert (Ht : ∃ t, claimed b (node_name n) = Some t ∧ t ≠ "" ∧ (t = q ∨ within t q)) by (inversion Hw; subst; eauto).
  destruct Ht as (t & Ht & Hte & Htq).
  assert (Hup : ∀ y, y ≠ q → y = t ∨ claimed b y = Some t → within y q).
  { intros y Hy [->|Hc]; [by destruct Htq|]. destruct Htq as [->|Htq]; [by apply within_one|by eapply within_up]. }
  destruct (follow_cases n t m Hn Ht Hf Hm) as [Hc|[Hw'|(d & Hw' & Hd)]]; [by apply Hup|by eapply within_trans|].
  destruct (decide (d = q)) as [->|Hdq]; [done|]. eapply within_trans; [done|]. by apply Hup.
Qed.

Lemma loaded_nested : well_nested g rooted within height.
Proof.
  assert (Hnames : ∀ m, has_node g m = true → m ∈ bnames b) by (intros m Hm; by apply has_node_spec in Hm).
  split.
  - exists 0. by apply nesting_top, Hb.
  - intros n m Hn Hr Hf Hm. eapply follow_rooted; eauto.
  - intros n br Hn Hr Hk Hbr _ _ _. pose proof (po_branches b n (ld_parts b Hb n Hn) Hk br Hbr) as Hc.
    assert (Hw : within br (node_name n)) by (apply within_one; [done|apply (lo_name _ n (loaded_local n Hn))]).
    split; [by eapply within_rooted|done].
  - intros n q m Hn Hr Hw Hf Hne _ Hm. split; [eapply follow_rooted; eauto|eapply follow_within; eauto].
  - intros n q Hn [d Hd] _ Hw. destruct (within_nesting _ _ _ Hw Hd) as (e & He & Hlt). unfold height.
    pose proof (nesting_bound _ _ Hd). pose proof (nesting_bound _ _ He).
    rewrite (nesting_of_spec _ _ _ Hd), (nesting_of_spec _ _ _ He) by lia. lia.
Qed.

End Nodes.

(** ** The loader *)

Section Loader.
Context {W : Type} `{JsonWriter} `{JsonParser} (registry : gmap string (GraphFunctionFn W)) (src : JsonSource).

Definition from_builder (lg : LoadedGraph W) : Prop :=
  ∃ b, loaded registry b ∧ (1 ≤ max_steps (lg_graph lg))%Z ∧
    lg_graph lg = graph_of (graph_name (lg_graph lg)) (max_steps (lg_graph lg)) b.

Lemma parse_document_ok source root name : ensures (parse_document registry source root name) from_builder.
Proof.
  unfold parse_document. destruct (get_object root) as [top|]; [|apply ensures_bad].
  eapply ensures_bind; [apply check_fields_ok|]. intros _ _.
  do 6 (eapply ensures_bind; [apply read_string_ok|]; intros ? _). eapply ensures_bind; [apply read_int_ok|]. intros steps _.
  destruct (steps <? 1)%Z eqn:Es; [apply ensures_bad|]. destruct (negb _); [apply ensures_bad|].
  eapply ensures_bind; [apply parse_servers_ok|]. intros servers _. eapply ensures_bind; [apply build_graph_ok|]. intros b Hb.
  eapply ensures_bind; [by eapply warn_unreachable_ok|]. intros _ _. eapply ensures_bind; [by eapply warn_static_cycles_ok|]. intros _ _.
  eapply ensures_bind with (Q1 := λ _, True); [intros ws; by eexists|]. intros ws _. apply ensures_ret.
  exists b. split_and!; [done|by apply Z.ltb_ge|done].
Qed.

Lemma parse_graph_json_ok text :
  ∃ r, parse_graph_json registry src text = Some r ∧ ∀ lg, r = Ok lg → from_builder lg.
Proof.
  unfold parse_graph_json. destruct (read_source src text) as [[t source]|e]; [|by eexists].
  destruct (parse_json t) as [root|]; [|by eexists]. cbv zeta.
  destruct (parse_document_ok source root (if ends_with "(inline)" source then "graph" else path_stem source) []) as (r & -> & Hr).
  destruct r as [[lg ws]|e]; [|by eexists]. eexists. split; [done|]. intros ? [= <-]. by eapply Hr.
Qed.

End Loader.

(** C31. The loader always returns, and what it accepts is a graph [validate]
    accepts: it reads every document to the end or to its first error, looks
    up only nodes that exist, and every name in the graph it builds (entry,
    exits, branches, loop bodies, edges, generated nodes) is a node of it.
    Routers built from a "route" always name a node or the end. *)
Theorem parsed_graph_valid {W : Type} `{JsonWriter} `{JsonParser} (registry : gmap string (GraphFunctionFn W)) (src : JsonSource)
    (path_or_json : string) :
  ∃ r, parse_graph_json registry src path_or_json = Some r ∧
    ∀ lg, r = Ok lg → validate (lg_graph lg) = Ok tt ∧
      ∀ e f s gs w, e ∈ edges (lg_graph lg) → router e = Some f →
        ∃ t, (f s gs w).2 = Ok t ∧ (t = kGraphEnd ∨ has_node (lg_graph lg) t = true).
Proof.
  destruct (parse_graph_json_ok registry src path_or_json) as (r & -> & Hr). exists r. split; [done|].
  intros lg (b & Hb & _ & ->)%Hr. split; [by eapply validate_spec, loaded_valid|]. intros e f s gs w. by eapply loaded_router.
Qed.

(** C32. A run of a loaded graph returns, on an engine session (as must be every
    session the model registry leases), with registered functions and a
    checkpointer that leave the configuration of the session alone: the rule
    that a node belongs to one body, branch or step keeps fan-outs from nesting
    in each other, so the recursion of [nested_fanout_diverges] cannot come from
    a file.  Fuel for the nesting: more than the number of nodes; fuel for a
    turn: its rounds. *)
Theorem parsed_graph_terminates {W : Type} `{Host W} `{JsonWriter} `{JsonParser} (registry : gmap string (GraphFunctionFn W))
    (src : JsonSource) (path_or_json : string) (lg : LoadedGraph W) (fuel nest : nat) (run : GraphRun W) (rt : Rt W) :
  parse_graph_json registry src path_or_json = Some (Ok lg) → tame_registry registry →
  ready fuel (rt_session rt) → length (nodes (lg_graph lg)) < nest →
  (∀ cp, run_checkpointer run = Some cp → tame_backend (cp_ops cp)) →
  (∀ o name w s, run_models run = Some o → (acquire_model_fn o name w).2 = Ok s → ready fuel s) →
  (run_graph fuel nest (lg_graph lg) run rt).2 ≠ None.
Proof.
  intros Hp Hreg Hr Hn Hcp Hm. destruct (parse_graph_json_ok registry src path_or_json) as (r & Hr' & Hok).
  rewrite Hp in Hr'. injection Hr' as <-. destruct (Hok lg eq_refl) as (b & Hb & _ & E). rewrite E in *. cbn in Hn.
  eapply run_graph_returns; [done|by eapply loaded_tame|by eapply loaded_nested| |done|done].
  intros n _ _ _. unfold height. lia.
Qed.

(** ** Sample *)

Module GraphFile.

Definition quote : Ascii.ascii := chr 34.

(** Text with ' for quotation marks. *)
Definition text (s : string) : string :=
  of_bytes (map (λ c, if (byte_of c =? 39)%N then quote else c) (bytes s)).

Definition file : string := text (
  "{'nodes':[{'name':'pipe','kind':'sequential','steps':['fan','review']}," +:+
  "{'name':'fan','kind':'parallel','branches':['a','b']},{'name':'a','kind':'function','function':'work'}," +:+
  "{'name':'b','kind':'function','function':'work'}," +:+
  "{'name':'review','kind':'loop','body':'check','max_iterations':3,'until':{'key':'ok','equals':'yes'}}," +:+
  "{'name':'check','kind':'function','function':'work'},{'name':'last','kind':'function','function':'work'}]," +:+
  "'edges':[{'from':'pipe','route':{'key':'again','cases':{'yes':'pipe'},'default':'last'}}]}").

Definition registry : gmap string (GraphFunctionFn nat) := register_graph_function ∅ "work" TermSample.work.

Definition src : JsonSource := mkJsonSource (λ _, None) (λ _, "").

#[export] Instance writer : JsonWriter := render.
#[local] Existing Instance RefParser.parser.

Definition lg : LoadedGraph nat :=
  match parse_graph_json registry src file with Some (Ok lg) => lg | _ => mkLoadedGraph (default_graph "" "") "" "" "" "" [] [] end.

Example exits :
  map (λ n, (node_name n, exit_to n)) (nodes (lg_graph lg)) =
    [("pipe", ""); ("fan", "review"); ("a", "fan"); ("b", "fan"); ("review", "pipe#done"); ("check", "review"); ("last", "");
     ("pipe#done", "")] ∧
  map (λ e, (from e, to e)) (edges (lg_graph lg)) = [("pipe#done", ""); ("pipe", "fan")] ∧ lg_warnings lg = [].
Proof. by vm_compute. Qed.

(** Node x is in step a of s and in the body of the loop l that follows it;
    both exit to l, and the file is accepted. *)
Definition shared : string := text (
  "{'nodes':[{'name':'s','kind':'sequential','steps':['a','l']},{'name':'a','kind':'function','function':'work'}," +:+
  "{'name':'x','kind':'function','function':'work'},{'name':'l','kind':'loop','body':'x','max_iterations':2}]," +:+
  "'edges':[{'from':'a','to':'x'}]}").

Example two_owners_accepted :
  match parse_graph_json registry src shared with
  | Some (Ok lg) => map (λ n, (node_name n, exit_to n)) (nodes (lg_graph lg)) =
      [("s", ""); ("a", "l"); ("x", "l"); ("l", "s#done"); ("s#done", "")] ∧ lg_warnings lg = []
  | _ => False
  end.
Proof. by vm_compute. Qed.

Lemma parsed : parse_graph_json registry src file = Some (Ok lg).
Proof. by vm_compute. Qed.

Lemma registry_tame : tame_registry registry.
Proof.
  intros k f Hk s gs w. unfold registry, register_graph_function in Hk. apply lookup_insert_Some in Hk as [[_ <-]|[_ Hk]]; [done|].
  by rewrite lookup_empty in Hk.
Qed.

End GraphFile.

#[local] Existing Instances GraphFile.writer RefParser.parser.

Lemma parsed_graph_terminates_witness :
  (run_graph 4 9 (lg_graph GraphFile.lg) TermSample.run TurnSample.rt).2 ≠ None.
Proof.
  eapply (parsed_graph_terminates GraphFile.registry GraphFile.src GraphFile.file).
  - exact GraphFile.parsed.
  - exact GraphFile.registry_tame.
  - split; [reflexivity|simpl; lia].
  - vm_compute. lia.
  - done.
  - done.
Defined.
