(* ===== verification/GraphLoad.v ===== *)
(** * Loading a graph into a session

    [load_graph_json] connects the MCP servers a file declares and checks the
    tools of the graph.  [McpSpec] states what it relies on from the MCP client
    (src/core/mcp/mcp_client.cpp): connecting adds a server and its tools or
    changes nothing, disconnecting removes exactly these.  The theorem: a load
    that fails leaves the servers and tools of the session as they were. *)
From stdpp Require Import base gmap strings list pretty.
From Stdlib Require Import Lia ZArith.
From S2P Require Import Prelude Arena Text Json Session History Graph Models GraphJson GraphJsonTheory.

(** The servers of a session, and its tools with the server each belongs to. *)
Record McpView (W : Type) := mkMcpView { v_servers : list string; v_tools : list (option string * Tool W) }.
Arguments mkMcpView {W}.
Arguments v_servers {W}.
Arguments v_tools {W}.

Definition add_server {W} (v : McpView W) (name : string) (ts : list (Tool W)) : McpView W :=
  mkMcpView (v_servers v ++ [name]) (v_tools v ++ ((λ t, (Some name, t)) <$> ts)).

Definition drop_server {W} (v : McpView W) (name : string) : McpView W :=
  mkMcpView (filter (λ s, s ≠ name) (v_servers v)) (filter (λ p, p.1 ≠ Some name) (v_tools v)).

Class McpSpec (W : Type) `{McpClient W} := {
  mcp_ok : Rt W → Prop;
  mcp_view : Rt W → McpView W;
  mcp_listed rt : mcp_ok rt → list_mcp_servers (rt_session rt) = v_servers (mcp_view rt);
  mcp_labels rt name t : mcp_ok rt → (Some name, t) ∈ v_tools (mcp_view rt) → name ∈ v_servers (mcp_view rt);
  mcp_connected cfg rt rt' r :
    mcp_ok rt → connect_mcp_server cfg rt = (rt', r) →
    mcp_ok rt' ∧
    (match r with
     | Ok ts => (mcp_name cfg ∉ v_servers (mcp_view rt)) ∧ mcp_view rt' = add_server (mcp_view rt) (mcp_name cfg) ts
     | Fail _ => mcp_view rt' = mcp_view rt
     end);
  mcp_disconnected name rt :
    mcp_ok rt → name ∈ v_servers (mcp_view rt) →
    mcp_ok (disconnect_mcp_server name rt).1 ∧
    mcp_view (disconnect_mcp_server name rt).1 = drop_server (mcp_view rt) name
}.

Lemma filter_keeps {A : Type} (P : A → Prop) `{!∀ x, Decision (P x)} (l : list A) : (∀ x, x ∈ l → P x) → filter P l = l.
Proof.
  induction l as [|x l IH]; intros Hl; [done|]. rewrite filter_cons_True by (apply Hl; by left). rewrite IH; [done|].
  intros y Hy. apply Hl. by right.
Qed.

Section Load.
Context {W : Type} `{JsonWriter} `{JsonParser} `{McpSpec W} (registry : gmap string (GraphFunctionFn W)) (src : JsonSource).
Implicit Types (rt : Rt W) (v : McpView W).

(** [v] with more servers, new to it. *)
Inductive extends v : list string → McpView W → Prop :=
| extends_nil : extends v [] v
| extends_add names v' name ts :
    extends v names v' → name ∉ v_servers v' → extends v (names ++ [name]) (add_server v' name ts).

Lemma drop_fresh v name : name ∉ v_servers v → (∀ t, (Some name, t) ∉ v_tools v) → drop_server v name = v.
Proof.
  intros Hs Ht. destruct v as [ss ts]. unfold drop_server. cbn in *. f_equal; apply filter_keeps.
  - by intros s Hin ->.
  - intros [l t] Hin E. cbn in E. subst. by apply (Ht t).
Qed.

Definition labelled v : Prop := ∀ name t, (Some name, t) ∈ v_tools v → name ∈ v_servers v.

Lemma extends_servers v names v' :
  labelled v → extends v names v' → v_servers v' = v_servers v ++ names ∧ labelled v'.
Proof.
  intros Hl. induction 1 as [|names v' name ts _ [IH1 IH2] Hn]; [by rewrite app_nil_r|]. cbn. split.
  - by rewrite IH1, app_assoc.
  - intros s t [Hst|(t' & [= -> ->] & _)%list_elem_of_fmap]%elem_of_app; apply elem_of_app; [left; by eapply IH2|right; by left].
Qed.

Lemma drop_add v name ts other :
  drop_server (add_server v other ts) name =
    if decide (name = other) then drop_server v name else add_server (drop_server v name) other ts.
Proof.
  unfold drop_server, add_server. cbn. rewrite !filter_app. destruct (decide (name = other)) as [->|Hne].
  - rewrite filter_cons_False, filter_nil, app_nil_r by naive_solver. f_equal.
    assert (Hnil : filter (λ p : option string * Tool W, p.1 ≠ Some other) ((λ t, (Some other, t)) <$> ts) = []).
    { induction ts as [|t ts IH]; [done|]. rewrite fmap_cons, filter_cons_False by naive_solver. done. }
    by rewrite Hnil, app_nil_r.
  - rewrite filter_cons_True, filter_nil by done. f_equal. f_equal.
    induction ts as [|t ts IH]; [done|]. rewrite fmap_cons, filter_cons_True by (cbn; congruence). by rewrite IH.
Qed.

(** Dropping the first of the new servers. *)
Lemma extends_drop v name names v' :
  labelled v → extends v (name :: names) v' → extends v names (drop_server v' name).
Proof.
  intros Hl. remember (name :: names) as all eqn:Ea. intros He. revert names Ea.
  induction He as [|all v' last ts He IH Hn]; intros names Ea; [done|]. rewrite drop_add.
  destruct all as [|x all]; simpl in Ea; injection Ea as -> <-.
  - rewrite decide_True by done. inversion He as [E|? ? ? ? ? ? E]; [|by destruct names]. subst.
    rewrite drop_fresh; [constructor|done|]. intros t Ht. by apply Hn, (Hl name t).
  - destruct (extends_servers _ _ _ Hl He) as [Hs _]. rewrite decide_False.
    + apply extends_add; [by apply IH|]. cbn. rewrite list_elem_of_filter. naive_solver.
    + intros <-. apply Hn. rewrite Hs. set_solver.
Qed.

Lemma rollback_ok v names rt :
  mcp_ok rt → labelled v → extends v names (mcp_view rt) →
  mcp_ok (rollback names rt).1 ∧ mcp_view (rollback names rt).1 = v.
Proof.
  intros Hok Hl. revert rt Hok. induction names as [|name names IH]; intros rt Hok He; cbn [rollback].
  - split; [done|]. inversion He as [E|? ? ? ? ? ? E]; [done|]. by destruct names.
  - assert (Hin : name ∈ v_servers (mcp_view rt)).
    { destruct (extends_servers _ _ _ Hl He) as [-> _]. set_solver. }
    destruct (mcp_disconnected name rt Hok Hin) as [Hok' Hv]. unfold mbind, M_bind.
    destruct (disconnect_mcp_server name rt) as [rt' r]. cbn in *. apply IH; [done|]. rewrite Hv. by apply extends_drop.
Qed.

Lemma connect_servers_ok v existing i servers connected ws rt :
  mcp_ok rt → labelled v → extends v connected (mcp_view rt) →
  let res := connect_servers existing i servers connected ws rt in
  mcp_ok res.1 ∧ extends v res.2.1 (mcp_view res.1).
Proof.
  intros Hok Hl. revert i connected ws rt Hok. induction servers as [|cfg servers IH]; intros i connected ws rt Hok He;
    cbn [connect_servers]; [done|].
  destruct (mem (mcp_name cfg) existing); [by apply IH|]. unfold mbind, M_bind.
  destruct (connect_mcp_server cfg rt) as [rt' r] eqn:Ec. destruct (mcp_connected cfg rt rt' r Hok Ec) as [Hok' Hr].
  destruct r as [ts|e].
  - destruct Hr as [Hn Hv]. apply IH; [done|]. rewrite Hv. by apply extends_add.
  - cbn. by rewrite Hr.
Qed.

Lemma load_cases path_or_json rt :
  mcp_ok rt →
  ∃ res, (load_graph_json registry src path_or_json rt).2 = Some res ∧
    (is_ok res = false → mcp_ok (load_graph_json registry src path_or_json rt).1 ∧
       mcp_view (load_graph_json registry src path_or_json rt).1 = mcp_view rt).
Proof.
  intros Hok. unfold load_graph_json. destruct (parse_graph_json_ok registry src path_or_json) as ([lg|e] & -> & _); [|by eexists].
  unfold mbind, M_bind, ask. cbn.
  assert (Hl : labelled (mcp_view rt)) by (intros name t; by apply mcp_labels).
  destruct (connect_servers_ok (mcp_view rt) (list_mcp_servers (rt_session rt)) 0 (lg_mcp_servers lg) [] (lg_warnings lg) rt)
    as [Hok' He]; [done|done|constructor|].
  destruct (connect_servers _ _ _ _ _ rt) as [rt1 [connected res]]. cbn in Hok', He.
  pose proof (rollback_ok (mcp_view rt) connected rt1 Hok' Hl He) as Hback.
  destruct res as [ws|e]; [|destruct (rollback connected rt1); by eexists].
  destruct (check_tools _ _ _ _) as [ws'|e]; [|destruct (rollback connected rt1); by eexists].
  destruct (log_warnings ws' rt1) as [rt2 []]. by eexists.
Qed.

End Load.

(** C36. [load_graph_json] always returns; when it fails (the file, a server
    that does not start, a missing tool) it has disconnected every server it
    connected and no other: the servers and the tools of the session are what
    they were before. *)
Theorem failed_load_rolls_back {W : Type} `{JsonWriter} `{JsonParser} `{McpSpec W} (registry : gmap string (GraphFunctionFn W))
    (src : JsonSource) (path_or_json : string) (rt rt' : Rt W) (res : option (Result (LoadedGraph W))) :
  mcp_ok rt → load_graph_json registry src path_or_json rt = (rt', res) →
  ∃ r, res = Some r ∧ (is_ok r = false → mcp_view rt' = mcp_view rt ∧ list_mcp_servers (rt_session rt') = list_mcp_servers (rt_session rt)).
Proof.
  intros Hok Hload. destruct (load_cases registry src path_or_json rt Hok) as (r & Hr & Hf). rewrite Hload in *. cbn in *.
  exists r. split; [done|]. intros Hfail. destruct (Hf Hfail) as [Hok' Hv]. split; [done|]. by rewrite !mcp_listed, Hv.
Qed.
