(* ===== verification/DataSources.v ===== *)
(** * Data sources (src/core/data/data_source_registry.cpp)

    Named query functions of a session, and tools that run one. *)
From stdpp Require Import base gmap strings list.
From S2P Require Import Prelude Session Tools.

Section DataSources.
Context {W : Type}.
Implicit Types (s : Session W) (ds : DataSource W).

(** [data_source_tool_callback] with its source. *)
Definition data_source_tool_callback ds (arguments : string) (w : W) : W * Result string :=
  match ds_query ds with
  | None => (w, fail InvalidConfig "DataSource has no query function.")
  | Some f => f arguments w
  end.

Definition register_data_source s ds : Session W * Result unit :=
  if is_empty (ds_name ds) then (s, fail InvalidConfig "DataSource requires a non-empty name.")
  else (set_data_sources s (<[ds_name ds := ds]> (data_sources s)) (retained_data_sources s), Ok tt).

Definition query_data_source (name query : string) : M W (Result string) :=
  s ← ask rt_session;
  match data_sources s !! name with
  | None => mret (fail KeyNotFound ("Data source not found: " +:+ name))
  | Some ds =>
      match ds_query ds with
      | None => mret (fail InvalidConfig ("Data source has no query function: " +:+ name))
      | Some f => host (f query)
      end
  end.

Definition bind_data_source_tool s (source : DataSource W) (description schema : string) : Session W * Tool W :=
  (set_data_sources s (data_sources s) (retained_data_sources s ++ [source]),
   mkTool (ds_name source) description schema (Some (HostCallback (data_source_tool_callback source))) None).

(** A registered source answers queries for its name, and the other names are
    answered as before. *)
Theorem registered_source_answers (rt : Rt W) ds f (name query : string) :
  ds_name ds ≠ "" → ds_query ds = Some f →
  let rt' := with_session rt (register_data_source (rt_session rt) ds).1 in
  (register_data_source (rt_session rt) ds).2 = Ok tt ∧
  (query_data_source name query rt').2 =
    (if str_eqb name (ds_name ds) then (f query (rt_world rt)).2 else (query_data_source name query rt).2).
Proof.
  intros Hn Hf. unfold register_data_source. rewrite (proj2 (is_empty_false _) Hn). cbn. split; [done|].
  unfold query_data_source, ask, mbind, M_bind. cbn. destruct (str_eqb name (ds_name ds)) eqn:E.
  - apply str_eqb_true in E as ->. rewrite lookup_insert_eq, Hf. unfold host. cbn. by destruct (f query (rt_world rt)).
  - apply str_eqb_false in E. rewrite lookup_insert_ne by done. destruct (data_sources (rt_session rt) !! name) as [d|]; [|done].
    destruct (ds_query d); [|done]. unfold host. cbn. by destruct (_ query (rt_world rt)).
Qed.

(** The tool of a source gives what a query of the source gives. *)
Theorem bound_tool_queries (rt : Rt W) ds (description schema arguments : string) :
  let '(s', t) := bind_data_source_tool (rt_session rt) ds description schema in
  data_sources (rt_session rt) !! ds_name ds = Some ds → is_Some (ds_query ds) →
  tool_name t = ds_name ds ∧ ds ∈ retained_data_sources s' ∧
  ∃ cb, callback t = Some (HostCallback cb) ∧
    (cb arguments (rt_world rt)).2 = (query_data_source (ds_name ds) arguments rt).2.
Proof.
  cbn. intros Hd [f Hf]. split; [done|]. split; [set_solver|]. eexists. split; [done|].
  unfold query_data_source, data_source_tool_callback, ask, mbind, M_bind. cbn. rewrite Hd, Hf. unfold host.
  by destruct (f arguments (rt_world rt)).
Qed.

End DataSources.
