(* ===== verification/Sandbox.v ===== *)
(** * Sandbox policies (src/core/sandbox/sandbox_policy.cpp)

    The allow-lists an engine host or an MCP server gets on top of the policy
    the user configured.  The file system is a snapshot of answers ([Files]);
    paths are POSIX paths as strings.  The theorem: nothing but the
    directories the host has a use for is added, the other settings are kept,
    and these directories are all there. *)
From stdpp Require Import base gmap strings list pretty.
From Stdlib Require Import Lia ZArith.
From S2P Require Import Prelude Text Decimal Json Models GraphJson.

(** What the code asks the operating system: [fs::absolute] and
    [fs::canonical] ([None] on an error), the kind of a file, [PATH]. *)
Record Files := mkFiles {
  fs_absolute : string → option string;
  fs_canonical : string → option string;
  fs_exists : string → bool;
  fs_is_directory : string → bool;
  fs_is_regular_file : string → bool;
  env_path : string
}.

(** ** Paths ([std::filesystem::path]) *)

Definition slash : Ascii.ascii := chr 47.

(** [a / b] for a relative [b]. *)
Definition path_join (a b : string) : string :=
  if is_empty a then b
  else if bool_decide (last (bytes a) = Some slash) then a +:+ b else a +:+ "/" +:+ b.

Definition has_parent_path (p : string) : bool := contains "/" p.

Fixpoint drop_slashes (l : list Ascii.ascii) : list Ascii.ascii :=
  match l with c :: t => if bool_decide (c = slash) then drop_slashes t else l | [] => [] end.

(** The path up to its last slash, without the slashes that end it; the root
    directory is its own parent. *)
Definition parent_path (p : string) : string :=
  match split_path p with
  | ("", _) => ""
  | (dir, _) => match of_bytes (rev (drop_slashes (rev (bytes dir)))) with "" => "/" | d => d end
  end.

(** ** The policy builders *)

Section Policy.
Context (fs : Files).

Definition push_unique (l : list string) (p : string) : list string :=
  if is_empty p then l else if mem p l then l else l ++ [p].

Definition absolute_or_empty (p : string) : string := match fs_absolute fs p with Some a => a | None => "" end.

(** The pieces of [PATH] between its separators. *)
Fixpoint split_on (sep : Ascii.ascii) (l : list Ascii.ascii) : list (list Ascii.ascii) :=
  match l with
  | [] => [[]]
  | c :: t =>
      if bool_decide (c = sep) then [] :: split_on sep t
      else match split_on sep t with piece :: rest => (c :: piece) :: rest | [] => [[c]] end
  end.

Fixpoint search_path (program : string) (dirs : list string) : string :=
  match dirs with
  | [] => ""
  | d :: rest =>
      let candidate := path_join d program in
      if fs_is_regular_file fs candidate then absolute_or_empty candidate else search_path program rest
  end.

Definition resolve_on_path (program : string) : string :=
  if is_empty program || has_parent_path program then absolute_or_empty program
  else search_path program (of_bytes <$> split_on (chr 58) (bytes (env_path fs))).

Definition add_file_dirs (l : list string) (file : string) : list string :=
  if is_empty file then l
  else
    let abs := absolute_or_empty file in
    if is_empty abs || negb (fs_exists fs abs) then l
    else if fs_is_directory fs abs then push_unique l abs
    else
      let l := push_unique l (parent_path abs) in
      match fs_canonical fs abs with Some real => push_unique l (parent_path real) | None => l end.

(** *** String literals of the engine options *)

Definition unescape (e : Ascii.ascii) : Ascii.ascii :=
  if bool_decide (e = chr 110) then chr 10 else if bool_decide (e = chr 116) then chr 9 else e.

(** The literal that starts at [l], and the text after its closing quote. *)
Fixpoint scan_literal (l : list Ascii.ascii) : list Ascii.ascii * list Ascii.ascii :=
  match l with
  | [] => ([], [])
  | c :: t =>
      if bool_decide (c = dquote) then ([], t)
      else if bool_decide (c = backslash) then
        match t with
        | [] => ([c], [])
        | e :: t' => let '(s, rest) := scan_literal t' in (unescape e :: s, rest)
        end
      else let '(s, rest) := scan_literal t in (c :: s, rest)
  end.

Fixpoint json_strings_from (fuel : nat) (l : list Ascii.ascii) : list string :=
  match fuel, l with
  | S fuel', c :: t =>
      if bool_decide (c = dquote) then
        let '(s, rest) := scan_literal t in of_bytes s :: json_strings_from fuel' rest
      else json_strings_from fuel' t
  | _, _ => []
  end.

(** Every step takes at least one byte. *)
Definition json_strings (text : string) : list string := json_strings_from (String.length text) (bytes text).

Definition looks_like_path (s : string) : bool :=
  if is_empty s || Nat.ltb 4096 (String.length s) then false
  else if contains "://" s then false
  else contains "/" s || contains (of_bytes [backslash]) s.

Record EnginePaths := mkEnginePaths {
  host_path : string;
  plugin_path : string;
  model_file : string;
  options_json : string;
  engine_workspace_dir : string;
  artifacts_dir : string
}.

Definition set_paths (p : SandboxPolicy) (ro rw : list string) : SandboxPolicy :=
  mkSandboxPolicy (sb_enabled p) (sb_filesystem p) ro rw (sb_system_paths p) (sb_allow_tmp p) (sb_network p)
    (sb_memory_limit p) (sb_max_processes p) (sb_gpu p).

Definition add_lib_dirs (l : list string) (prefix : string) : list string :=
  foldl (λ l lib, let d := path_join prefix lib in if fs_is_directory fs d then push_unique l d else l) l ["lib"; "lib64"].

Definition engine_policy (base : SandboxPolicy) (paths : EnginePaths) : SandboxPolicy :=
  if negb (sb_enabled base) then base
  else
    let ro := sb_read_only base in
    let host := resolve_on_path (host_path paths) in
    let ro := if is_empty host then ro else add_lib_dirs (add_file_dirs ro host) (parent_path (parent_path host)) in
    let ro := add_file_dirs ro (plugin_path paths) in
    let ro := add_file_dirs ro (model_file paths) in
    let ro := foldl (λ l s, if looks_like_path s then add_file_dirs l s else l) ro (json_strings (options_json paths)) in
    let ro :=
      if is_empty (engine_workspace_dir paths) then ro
      else push_unique ro (absolute_or_empty (engine_workspace_dir paths)) in
    let rw := sb_read_write base in
    let rw := if is_empty (artifacts_dir paths) then rw else push_unique rw (absolute_or_empty (artifacts_dir paths)) in
    let rw := if fs_is_directory fs "/dev/shm" then push_unique rw "/dev/shm" else rw in
    set_paths base ro rw.

Definition mcp_policy (base : SandboxPolicy) (program working_directory : string) : SandboxPolicy :=
  if negb (sb_enabled base) then base
  else
    let ro := add_file_dirs (sb_read_only base) (resolve_on_path program) in
    let rw :=
      if is_empty working_directory then sb_read_write base
      else push_unique (sb_read_write base) (absolute_or_empty working_directory) in
    set_paths base ro rw.

(** ** What a policy grants *)

(** The directories that make [file] usable: itself when it is a directory,
    else the one it is in and the one its link target is in. *)
Definition file_dirs (file : string) : list string :=
  match fs_absolute fs file with
  | Some abs =>
      if is_empty file || is_empty abs || negb (fs_exists fs abs) then []
      else if fs_is_directory fs abs then [abs]
      else parent_path abs :: match fs_canonical fs abs with Some real => [parent_path real] | None => [] end
  | None => []
  end.

Lemma elem_push_unique l p x : x ∈ push_unique l p ↔ x ∈ l ∨ (x = p ∧ p ≠ "").
Proof.
  unfold push_unique. destruct (is_empty p) eqn:Ep.
  - apply is_empty_true in Ep as ->. naive_solver.
  - apply is_empty_false in Ep. destruct (mem p l) eqn:Em.
    + unfold mem in Em. apply existsb_exists in Em as (y & Hy & ->%str_eqb_true). apply list_elem_of_In in Hy. naive_solver.
    + rewrite elem_of_app, list_elem_of_singleton. naive_solver.
Qed.

Lemma push_unique_prefix l p : l `prefix_of` push_unique l p.
Proof. unfold push_unique. destruct (is_empty p); [done|]. destruct (mem p l); [done|]. by apply prefix_app_r. Qed.

Lemma push_unique_NoDup l p : NoDup l → NoDup (push_unique l p).
Proof.
  intros Hl. unfold push_unique. destruct (is_empty p); [done|]. destruct (mem p l) eqn:Em; [done|].
  apply NoDup_app. split_and!; [done| |by apply NoDup_singleton]. intros x Hx ->%list_elem_of_singleton.
  unfold mem in Em. apply not_true_iff_false in Em. apply Em, existsb_exists. exists p. split; [by apply list_elem_of_In|apply str_eqb_refl].
Qed.

Definition adds (l l' extra : list string) : Prop :=
  l `prefix_of` l' ∧ (NoDup l → NoDup l') ∧ ∀ x, x ∈ l' ↔ x ∈ l ∨ (x ∈ extra ∧ x ≠ "").

Lemma adds_nil l : adds l l [].
Proof. split_and!; [done|done|]. set_solver. Qed.

Lemma adds_push l p : adds l (push_unique l p) [p].
Proof.
  split_and!; [apply push_unique_prefix|apply push_unique_NoDup|]. intros x. rewrite elem_push_unique, list_elem_of_singleton.
  naive_solver.
Qed.

Lemma adds_trans l1 l2 l3 e1 e2 : adds l1 l2 e1 → adds l2 l3 e2 → adds l1 l3 (e1 ++ e2).
Proof.
  intros (Hp & Hn & He) (Hp' & Hn' & He'). split_and!; [by etrans|auto|]. intros x. rewrite He', He, elem_of_app. tauto.
Qed.

Lemma adds_if (b : bool) l l' e : adds l l' e → adds l (if b then l' else l) (if b then e else []).
Proof. intros. destruct b; [done|apply adds_nil]. Qed.

Lemma adds_unless (b : bool) l l' e : adds l l' e → adds l (if b then l else l') (if b then [] else e).
Proof. intros. destruct b; [apply adds_nil|done]. Qed.

Lemma adds_foldl {A} (f : list string → A → list string) (g : A → list string) l (xs : list A) :
  (∀ l x, adds l (f l x) (g x)) → adds l (foldl f l xs) (xs ≫= g).
Proof.
  intros Hf. revert l. induction xs as [|x xs IH]; intros l; [apply adds_nil|]. cbn. eapply adds_trans; [apply Hf|apply IH].
Qed.

Lemma adds_file_dirs l file : adds l (add_file_dirs l file) (file_dirs file).
Proof.
  unfold add_file_dirs, file_dirs, absolute_or_empty. destruct (is_empty file); [destruct (fs_absolute fs file); apply adds_nil|].
  destruct (fs_absolute fs file) as [abs|]; [|apply adds_nil]. cbn [orb].
  destruct (is_empty abs || negb (fs_exists fs abs)); [apply adds_nil|].
  destruct (fs_is_directory fs abs); [apply adds_push|]. destruct (fs_canonical fs abs) as [real|]; [|apply adds_push].
  apply (adds_trans _ (push_unique l (parent_path abs)) _ [parent_path abs] [parent_path real]); apply adds_push.
Qed.

(** The read-only directories an engine host needs, and the writable ones. *)
Definition lib_dirs (host : string) : list string :=
  ["lib"; "lib64"] ≫= λ lib,
    let d := path_join (parent_path (parent_path host)) lib in if fs_is_directory fs d then [d] else [].

Definition engine_reads (paths : EnginePaths) : list string :=
  let host := resolve_on_path (host_path paths) in
  (if is_empty host then [] else file_dirs host ++ lib_dirs host) ++
  file_dirs (plugin_path paths) ++ file_dirs (model_file paths) ++
  (json_strings (options_json paths) ≫= λ s, if looks_like_path s then file_dirs s else []) ++
  (if is_empty (engine_workspace_dir paths) then [] else [absolute_or_empty (engine_workspace_dir paths)]).

Definition engine_writes (paths : EnginePaths) : list string :=
  (if is_empty (artifacts_dir paths) then [] else [absolute_or_empty (artifacts_dir paths)]) ++
  (if fs_is_directory fs "/dev/shm" then ["/dev/shm"] else []).

(** [p] is [base] with some directories added. *)
Definition grants (base p : SandboxPolicy) (reads writes : list string) : Prop :=
  p = set_paths base (sb_read_only p) (sb_read_write p) ∧
  adds (sb_read_only base) (sb_read_only p) reads ∧ adds (sb_read_write base) (sb_read_write p) writes.

Lemma engine_policy_grants base paths :
  sb_enabled base = true → grants base (engine_policy base paths) (engine_reads paths) (engine_writes paths).
Proof.
  intros He. unfold engine_policy, engine_reads, engine_writes. rewrite He. cbn [negb]. split_and!; [done| |]; cbn [set_paths sb_read_only sb_read_write].
  - eapply adds_trans; [apply adds_unless; eapply adds_trans; [apply adds_file_dirs|]|].
    { apply (adds_foldl (λ l lib, let d := path_join (parent_path (parent_path (resolve_on_path (host_path paths)))) lib in
        if fs_is_directory fs d then push_unique l d else l)). intros l lib. apply adds_if, adds_push. }
    eapply adds_trans; [apply adds_file_dirs|]. eapply adds_trans; [apply adds_file_dirs|].
    eapply adds_trans; [|apply adds_unless, adds_push].
    apply adds_foldl. intros l x. apply adds_if, adds_file_dirs.
  - eapply adds_trans; [apply adds_unless, adds_push|apply adds_if, adds_push].
Qed.

Lemma mcp_policy_grants base program dir :
  sb_enabled base = true →
  grants base (mcp_policy base program dir) (file_dirs (resolve_on_path program))
    (if is_empty dir then [] else [absolute_or_empty dir]).
Proof.
  intros He. unfold mcp_policy. rewrite He. cbn [negb]. split_and!; [done|apply adds_file_dirs|apply adds_unless, adds_push].
Qed.

End Policy.

(** ** The literals of a document *)

Lemma scan_literal_shorter l : length (scan_literal l).2 ≤ length l.
Proof.
  induction l as [l IH] using (induction_ltof1 _ (@length Ascii.ascii)). unfold ltof in IH.
  destruct l as [|c t]; [done|]. cbn [scan_literal]. case_bool_decide; [cbn; lia|]. case_bool_decide.
  - destruct t as [|e t']; [cbn; lia|]. specialize (IH t' ltac:(cbn; lia)). destruct (scan_literal t'). cbn in *. lia.
  - specialize (IH t ltac:(cbn; lia)). destruct (scan_literal t). cbn in *. lia.
Qed.

Lemma json_strings_fuel l f1 f2 :
  length l ≤ f1 → length l ≤ f2 → json_strings_from f1 l = json_strings_from f2 l.
Proof.
  revert l f2. induction f1 as [|f1 IH]; intros [|c t] [|f2] H1 H2; cbn in *; try done; try lia.
  case_bool_decide; [|apply IH; lia]. pose proof (scan_literal_shorter t) as Hs. destruct (scan_literal t) as [s rest]. cbn in Hs.
  f_equal. apply IH; lia.
Qed.

Definition literals_of (l : list Ascii.ascii) : list string := json_strings_from (length l) l.

Lemma literals_skip c t : c ≠ dquote → literals_of (c :: t) = literals_of t.
Proof. intros Hc. unfold literals_of. cbn. by rewrite bool_decide_false. Qed.

Lemma literals_skip_all p t : dquote ∉ p → literals_of (p ++ t) = literals_of t.
Proof.
  induction p as [|c p IH]; intros Hp; [done|]. apply not_elem_of_cons in Hp as [Hc Hp]. cbn [app].
  rewrite literals_skip by done. by apply IH.
Qed.

(** What survives the sloppy decoding: text, line feeds and tabs. *)
Definition plain_char (c : Ascii.ascii) : Prop := (32 ≤ byte_of c)%N ∨ c = chr 10 ∨ c = chr 9.

Definition plain (s : string) : Prop := Forall plain_char (bytes s).

Lemma scan_escaped s t : Forall plain_char s → scan_literal (escape_bytes s ++ dquote :: t) = (s, t).
Proof.
  induction 1 as [|c s Hc Hs IH]; [done|]. unfold escape_bytes in *. cbn [map concat]. rewrite <-app_assoc.
  unfold plain_char in Hc.
  assert (Hcase : c = dquote ∨ c = backslash ∨ c = chr 10 ∨ c = chr 9 ∨
    (escape_char c = [c] ∧ c ≠ dquote ∧ c ≠ backslash)).
  { destruct Hc as [Hc|[->| ->]]; [|tauto|tauto].
    destruct (decide (c = dquote)); [tauto|]. destruct (decide (c = backslash)); [tauto|]. right; right; right; right. split; [|done].
    unfold escape_char.
    assert (byte_of c ≠ 34%N) by (intros E; apply n; by rewrite <-(chr_byte_of c), E).
    assert (byte_of c ≠ 92%N) by (intros E; apply n0; by rewrite <-(chr_byte_of c), E).
    rewrite !(proj2 (N.eqb_neq _ _)) by lia. by rewrite (proj2 (N.ltb_ge _ _)) by lia. }
  destruct Hcase as [->|[->|[->|[->|(E & H1 & H2)]]]].
  1-4: cbn [app scan_literal escape_char]; vm_compute escape_char; cbn [app scan_literal];
    rewrite bool_decide_false by done; rewrite bool_decide_true by done; by rewrite IH.
  rewrite E. cbn [app scan_literal]. rewrite !bool_decide_false by done. by rewrite IH.
Qed.

Lemma literals_quoted s t : plain s → literals_of (bytes (quoted s) ++ t) = s :: literals_of t.
Proof.
  intros Hs. rewrite bytes_quoted. unfold in_quotes. cbn [app]. rewrite <-app_assoc. cbn [app].
  unfold literals_of at 1. cbn [length json_strings_from]. rewrite bool_decide_true by done.
  change (chr 34) with dquote. rewrite scan_escaped by done. rewrite of_bytes_bytes. f_equal. unfold literals_of.
  apply json_strings_fuel; [|done]. rewrite length_app. cbn. lia.
Qed.

Fixpoint literals (j : json) : list string :=
  match j with
  | JStr s => [s]
  | JArr l => concat (map literals l)
  | JObj fs => concat (map (λ kv, kv.1 :: literals kv.2) fs)
  | JInt _ | JBool _ | JOther _ => []
  end.

(** No control character but line feeds and tabs in a string, no [JOther]. *)
Fixpoint plain_json (j : json) : Prop :=
  match j with
  | JStr s => plain s
  | JArr l => foldr (λ x acc, plain_json x ∧ acc) True l
  | JObj fs => foldr (λ kv acc, plain kv.1 ∧ plain_json kv.2 ∧ acc) True fs
  | JInt _ | JBool _ => True
  | JOther _ => False
  end.

Ltac no_quote := by apply (bool_decide_unpack _).

Lemma literals_join {A} (f : A → string) (g : A → list string) (xs : list A) t :
  Forall (λ x, ∀ t, literals_of (bytes (f x) ++ t) = g x ++ literals_of t) xs →
  literals_of (bytes (join_comma (map f xs)) ++ t) = concat (map g xs) ++ literals_of t.
Proof.
  induction 1 as [|x xs Hx Hxs IH]; [done|]. destruct xs as [|y xs].
  - cbn [map join_comma concat]. by rewrite app_nil_r, Hx.
  - cbn [map] in *. rewrite join_comma_cons, !bytes_app, <-!app_assoc, Hx.
    rewrite (literals_skip_all (bytes ",")) by no_quote. rewrite IH. cbn [concat]. by rewrite <-!app_assoc.
Qed.

Lemma literals_render (j : json) :
  plain_json j → ∀ t, literals_of (bytes (render j) ++ t) = literals j ++ literals_of t.
Proof.
  induction j as [z|s|l IH|fs IH|b|x] using json_nested_ind; intros Hp t; cbn [render literals plain_json] in *; [| | | | |done].
  - by rewrite literals_skip_all by (by apply to_string_avoids).
  - by apply literals_quoted.
  - rewrite !bytes_app, <-!app_assoc, (literals_skip_all (bytes "[")) by no_quote. rewrite (literals_join render literals).
    + by f_equal.
    + induction IH as [|x l Hx Hl IH]; [done|]. destruct Hp as [Hpx Hpl]. constructor; [by apply Hx|by apply IH].
  - rewrite !bytes_app, <-!app_assoc, (literals_skip_all (bytes "{")) by no_quote.
    rewrite (literals_join _ (λ kv : string * json, kv.1 :: literals kv.2)).
    + by f_equal.
    + induction IH as [|[k x] fs Hx Hl IH]; [done|]. destruct Hp as (Hk & Hpx & Hpl). constructor; [|by apply IH].
      intros t'. cbn [fst snd] in *. rewrite !bytes_app, <-!app_assoc, literals_quoted by done.
      rewrite (literals_skip_all (bytes ":")) by no_quote. by rewrite Hx.
  - apply literals_skip_all. destruct b; no_quote.
Qed.

Lemma json_strings_render (j : json) : plain_json j → json_strings (render j) = literals j.
Proof.
  intros Hj. unfold json_strings. rewrite <-bytes_length. change (literals_of (bytes (render j)) = literals j).
  rewrite <-(app_nil_r (bytes _)), literals_render by done. by rewrite app_nil_r.
Qed.

(** ** What an engine host needs *)

Section Needs.
Context (fs : Files).

(** [file] is there, under the absolute name [abs]. *)
Definition existing (file abs : string) : Prop :=
  file ≠ "" ∧ abs ≠ "" ∧ fs_absolute fs file = Some abs ∧ fs_exists fs abs = true.

(** A directory that has to be readable for [file] to be used: itself, the one
    it is in, or the one its link target is in. *)
Inductive usable_from (file : string) : string → Prop :=
| uf_itself abs : existing file abs → fs_is_directory fs abs = true → usable_from file abs
| uf_beside abs : existing file abs → fs_is_directory fs abs = false → usable_from file (parent_path abs)
| uf_target abs real :
    existing file abs → fs_is_directory fs abs = false → fs_canonical fs abs = Some real → usable_from file (parent_path real).

(** The executable a program name stands for: the path itself when it has a
    slash, else the regular file of that name in the first directory of [PATH]
    that has one. *)
Inductive program_at (program : string) : string → Prop :=
| pa_path abs : is_empty program || contains "/" program = true → fs_absolute fs program = Some abs → program_at program abs
| pa_found before d after abs :
    is_empty program || contains "/" program = false →
    of_bytes <$> split_on (chr 58) (bytes (env_path fs)) = before ++ d :: after →
    Forall (λ d', fs_is_regular_file fs (path_join d' program) = false) before →
    fs_is_regular_file fs (path_join d program) = true →
    fs_absolute fs (path_join d program) = Some abs → program_at program abs.

(** Why a directory is readable, with [j] the options of the engine. *)
Inductive engine_may_read (paths : EnginePaths) (j : json) : string → Prop :=
| er_host host d : program_at (host_path paths) host → host ≠ "" → usable_from host d → engine_may_read paths j d
| er_lib host lib :
    program_at (host_path paths) host → host ≠ "" → lib = "lib" ∨ lib = "lib64" →
    fs_is_directory fs (path_join (parent_path (parent_path host)) lib) = true →
    engine_may_read paths j (path_join (parent_path (parent_path host)) lib)
| er_plugin d : usable_from (plugin_path paths) d → engine_may_read paths j d
| er_model d : usable_from (model_file paths) d → engine_may_read paths j d
| er_option s d : s ∈ literals j → looks_like_path s = true → usable_from s d → engine_may_read paths j d
| er_workspace abs :
    engine_workspace_dir paths ≠ "" → fs_absolute fs (engine_workspace_dir paths) = Some abs → engine_may_read paths j abs.

Inductive engine_may_write (paths : EnginePaths) : string → Prop :=
| ew_artifacts abs : artifacts_dir paths ≠ "" → fs_absolute fs (artifacts_dir paths) = Some abs → engine_may_write paths abs
| ew_shared_memory : fs_is_directory fs "/dev/shm" = true → engine_may_write paths "/dev/shm".

Lemma elem_file_dirs file d : d ∈ file_dirs fs file ↔ usable_from file d.
Proof.
  unfold file_dirs. split.
  - destruct (fs_absolute fs file) as [abs|] eqn:Ea; [|by intros ?%elem_of_nil].
    destruct (is_empty file || is_empty abs || negb (fs_exists fs abs)) eqn:E; [by intros ?%elem_of_nil|].
    apply orb_false_iff in E as [[Hf%is_empty_false Hb%is_empty_false]%orb_false_iff Hx%negb_false_iff].
    assert (Hex : existing file abs) by done. destruct (fs_is_directory fs abs) eqn:Ed.
    + intros ->%list_elem_of_singleton. by apply uf_itself.
    + intros [->|Hd]%elem_of_cons; [by apply uf_beside|]. destruct (fs_canonical fs abs) as [real|] eqn:Ec; [|by apply elem_of_nil in Hd].
      apply list_elem_of_singleton in Hd as ->. by eapply uf_target.
  - assert (Hskip : ∀ abs, existing file abs → is_empty file || is_empty abs || negb (fs_exists fs abs) = false).
    { intros abs (H1 & H2 & _ & ->). apply is_empty_false in H1 as ->. by apply is_empty_false in H2 as ->. }
    intros [abs Hex Hd|abs Hex Hd|abs real Hex Hd Hc]; pose proof Hex as (_ & _ & -> & _); rewrite (Hskip _ Hex), Hd, ?Hc; set_solver.
Qed.

Lemma search_path_found program dirs host :
  host ≠ "" → search_path fs program dirs = host ↔
  ∃ before d after, dirs = before ++ d :: after ∧ Forall (λ d', fs_is_regular_file fs (path_join d' program) = false) before ∧
    fs_is_regular_file fs (path_join d program) = true ∧ fs_absolute fs (path_join d program) = Some host.
Proof.
  intros Hne. induction dirs as [|d dirs IH]; cbn [search_path].
  - split; [intros <-; done|]. by intros ([] & ? & ? & ? & _).
  - destruct (fs_is_regular_file fs (path_join d program)) eqn:Er.
    + unfold absolute_or_empty. split.
      * intros E. exists [], d, dirs. destruct (fs_absolute _ _); by subst.
      * intros ([|b before] & d' & after & [= <- ?] & Hb & _ & Ha); [by rewrite Ha|]. apply Forall_cons in Hb as [Hb _]. congruence.
    + rewrite IH. split.
      * intros (before & d' & after & -> & Hb & Hd & Ha). exists (d :: before), d', after. split_and!; try done. by constructor.
      * intros ([|b before] & d' & after & [= <- ?] & Hb & Hd & Ha); [congruence|]. apply Forall_cons in Hb as [_ Hb]. by eexists _, _, _.
Qed.

Lemma resolved_program program host : host ≠ "" → resolve_on_path fs program = host ↔ program_at program host.
Proof.
  intros Hne. unfold resolve_on_path, has_parent_path. destruct (is_empty program || contains "/" program) eqn:E.
  - unfold absolute_or_empty. split.
    + intros Hh. apply pa_path; [done|]. destruct (fs_absolute fs program); by subst.
    + intros [abs _ Ha|]; [by rewrite Ha|congruence].
  - rewrite (search_path_found _ _ _ Hne). split.
    + intros (before & d & after & Hp & Hb & Hd & Ha). by eapply pa_found.
    + intros [|before d after abs _ Hp Hb Hd Ha]; [congruence|]. by eexists _, _, _.
Qed.

Lemma elem_lib_dirs host d :
  d ∈ lib_dirs fs host ↔
  ∃ lib, (lib = "lib" ∨ lib = "lib64") ∧ d = path_join (parent_path (parent_path host)) lib ∧ fs_is_directory fs d = true.
Proof.
  unfold lib_dirs. rewrite list_elem_of_bind. split.
  - intros (lib & Hd & Hlib). cbn zeta in Hd. destruct (fs_is_directory fs _) eqn:Ed; [|by apply elem_of_nil in Hd].
    apply list_elem_of_singleton in Hd as ->. exists lib. split; [set_solver|done].
  - intros (lib & Hlib & -> & Hd). exists lib. cbn zeta. rewrite Hd. set_solver.
Qed.

Lemma elem_absolute p d : d ≠ "" → d ∈ (if is_empty p then [] else [absolute_or_empty fs p]) ↔ p ≠ "" ∧ fs_absolute fs p = Some d.
Proof.
  intros Hne. unfold absolute_or_empty. destruct (is_empty p) eqn:Ep.
  - apply is_empty_true in Ep as ->. split; [by intros ?%elem_of_nil|]. by intros [].
  - apply is_empty_false in Ep. rewrite list_elem_of_singleton. destruct (fs_absolute fs p); naive_solver.
Qed.

Lemma engine_reads_spec paths j d :
  d ≠ "" → options_json paths = render j → plain_json j → d ∈ engine_reads fs paths ↔ engine_may_read paths j d.
Proof.
  intros Hne Ho Hj. unfold engine_reads. rewrite Ho, json_strings_render, !elem_of_app, list_elem_of_bind, !elem_file_dirs, elem_absolute by done.
  set (host := resolve_on_path fs (host_path paths)). split.
  - intros [Hd|[Hd|[Hd|[(s & Hd & Hs)|[Hw Ha]]]]]; [|by apply er_plugin|by apply er_model| |by apply er_workspace].
    + destruct (is_empty host) eqn:Eh; [by apply elem_of_nil in Hd|]. apply is_empty_false in Eh.
      pose proof (proj1 (resolved_program _ host Eh) eq_refl) as Hat. apply elem_of_app in Hd as [Hd%elem_file_dirs|(lib & Hl & -> & Hd)%elem_lib_dirs].
      * by eapply er_host.
      * by eapply er_lib.
    + destruct (looks_like_path s) eqn:El; [|by apply elem_of_nil in Hd]. apply elem_file_dirs in Hd. by eapply er_option.
  - intros [h d' Hat Hh Hd|h lib Hat Hh Hl Hd|d' Hd|d' Hd|s d' Hs Hl Hd|abs Hw Ha].
    1, 2: left; apply resolved_program in Hat; [|done]; unfold host; rewrite Hat; apply is_empty_false in Hh; rewrite Hh; apply elem_of_app.
    + left. by apply elem_file_dirs.
    + right. apply elem_lib_dirs. by exists lib.
    + by right; left.
    + by right; right; left.
    + right; right; right; left. exists s. rewrite Hl. split; [by apply elem_file_dirs|done].
    + by right; right; right; right.
Qed.

Lemma engine_writes_spec paths d : d ≠ "" → d ∈ engine_writes fs paths ↔ engine_may_write paths d.
Proof.
  intros Hne. unfold engine_writes. rewrite elem_of_app, elem_absolute by done. split.
  - intros [[Hp Ha]|Hd]; [by apply ew_artifacts|]. destruct (fs_is_directory fs "/dev/shm") eqn:E; [|by apply elem_of_nil in Hd].
    apply list_elem_of_singleton in Hd as ->. by apply ew_shared_memory.
  - intros [abs Hp Ha|Hd]; [by left|]. right. rewrite Hd. by left.
Qed.

End Needs.

(** C37. For options that are the text [render] writes for a document without
    null, a fraction or a control character in its strings, an enabled policy
    for an engine host keeps every setting of the configured one and its lists,
    in place and without new duplicates.  The directories it adds for reading
    are exactly those of [engine_may_read]: where the host executable is, its
    lib and lib64, and where the plugin, the model and each string of the options
    that looks like a path (a slash or a backslash in it, at most 4096 bytes, no
    ://) are, when these exist, with their link targets; and the workspace.  For
    writing it adds the artifacts directory and /dev/shm, and nothing else.
    (Options with unicode escapes are another matter, see
    [escaped_path_not_granted].) *)
Theorem engine_policy_correct (fs : Files) (base : SandboxPolicy) (paths : EnginePaths) (j : json) :
  sb_enabled base = true → options_json paths = render j → plain_json j →
  let p := engine_policy fs base paths in
  p = set_paths base (sb_read_only p) (sb_read_write p) ∧
  sb_read_only base `prefix_of` sb_read_only p ∧ sb_read_write base `prefix_of` sb_read_write p ∧
  (NoDup (sb_read_only base) → NoDup (sb_read_only p)) ∧ (NoDup (sb_read_write base) → NoDup (sb_read_write p)) ∧
  (∀ d, d ∈ sb_read_only p ↔ d ∈ sb_read_only base ∨ (d ≠ "" ∧ engine_may_read fs paths j d)) ∧
  (∀ d, d ∈ sb_read_write p ↔ d ∈ sb_read_write base ∨ (d ≠ "" ∧ engine_may_write fs paths d)).
Proof.
  intros He Ho Hj p. destruct (engine_policy_grants fs base paths He) as (Hp & (Hr1 & Hr2 & Hr3) & (Hw1 & Hw2 & Hw3)).
  subst p. split_and!; [done..| |]; intros d.
  - rewrite Hr3. destruct (decide (d = "")) as [->|Hne]; [naive_solver|]. rewrite (engine_reads_spec fs paths j) by done. naive_solver.
  - rewrite Hw3. destruct (decide (d = "")) as [->|Hne]; [naive_solver|]. rewrite (engine_writes_spec fs paths) by done. naive_solver.
Qed.

Module SandboxSample.

(** [/models/m.gguf] and [/models/mm.gguf] exist; the latter is a link. *)
Definition files : Files :=
  mkFiles (λ p, Some (if starts_with "/" p then p else "/work/" +:+ p))
    (λ p, Some (if str_eqb p "/models/mm.gguf" then "/blobs/7" else p))
    (λ p, mem p ["/models/m.gguf"; "/models/mm.gguf"; "/usr/bin/host"]) (λ p, mem p ["/dev/shm"; "/usr/lib"])
    (λ p, mem p ["/usr/bin/host"]) "/bin:/usr/bin".

Definition base : SandboxPolicy := set_enabled default_sandbox true.

Definition options : json := JObj [("mmproj", JStr "/models/mm.gguf"); ("threads", JInt 4); ("url", JStr "http://x/y")].

Definition paths : EnginePaths := mkEnginePaths "host" "" "/models/m.gguf" (render options) "ws" "".

Example reads : sb_read_only (engine_policy files base paths) = ["/usr/bin"; "/usr/lib"; "/models"; "/blobs"; "/work/ws"].
Proof. vm_compute. reflexivity. Qed.

End SandboxSample.

(** The link of the options leads to /blobs. *)
Lemma engine_policy_witness :
  "/blobs" ∈ sb_read_only (engine_policy SandboxSample.files SandboxSample.base SandboxSample.paths).
Proof.
  refine (proj2 (proj1 (proj2 (proj2 (proj2 (proj2 (proj2
    (engine_policy_correct SandboxSample.files SandboxSample.base SandboxSample.paths SandboxSample.options _ _ _)))))) "/blobs") _).
  - reflexivity.
  - reflexivity.
  - cbn. unfold plain, plain_char. split_and!; try done; repeat (constructor; [left; vm_compute; discriminate|]); constructor.
  - right. split; [discriminate|]. apply (er_option _ _ _ "/models/mm.gguf").
    + by apply (bool_decide_unpack _).
    + reflexivity.
    + apply (uf_target _ _ "/models/mm.gguf" "/blobs/7"); by vm_compute.
Defined.

(** A path written with a unicode escape, as JSON writers do for text that is
    not ASCII, is not recognised: [json_strings] drops the backslash only, so
    the directory of the model is not readable in the sandbox. *)
Example escaped_path_not_granted :
  let text := of_bytes (bytes "{" ++ in_quotes (bytes "m") ++ bytes ":" ++
                        in_quotes (bytes "/" ++ [backslash] ++ bytes "u006dodels/mm.gguf") ++ bytes "}") in
  RefParser.parser text = Some (JObj [("m", JStr "/models/mm.gguf")]) ∧ json_strings text = ["m"; "/u006dodels/mm.gguf"].
Proof. vm_compute. split; reflexivity. Qed.
