(* ===== verification/Mcp.v ===== *)
(** * The MCP client (src/core/mcp/mcp_client.cpp)

    Newline-delimited JSON-RPC with a server running as a child process, and
    the session glue that registers its tools.

    An [McpServer] object lives in the host state at the address its
    shared_ptr holds ([McpHost]), from [connect_server] until
    [disconnect_server] drops the last reference and frees it; a call through
    an address that was freed is undefined, so nothing is known of what it does.
    [Net] threads the host state and that object through the transport, as the
    methods of the class do.  The child process,
    the clocks and the file writes are operations of [McpHost].  The stderr
    thread is [drain_stderr], a function of the reads it makes; what it has
    collected when a pipe breaks comes from [await_exit].

    The loop of [request] takes as many reads as the host can complete before
    the deadline ([reads_before]); McpTheory shows that the bound is never what
    ends it. *)
From stdpp Require Import base gmap strings list pretty.
From Stdlib Require Import Lia ZArith.
From S2P Require Import Prelude Arena Text Decimal Json Session Provider Tools History Graph Models GraphJson Sandbox.

Definition kProtocolVersion : string := "2025-06-18".
Definition kDataSourcePrefix : string := "mcp:".
Definition kMaxLineBytes : Z := 64 * 1024 * 1024.
Definition kStderrTailBytes : nat := 2048.
Definition kMaxListPages : nat := 1000.

(** ** Text *)

Definition is_blank (c : Ascii.ascii) : bool :=
  bool_decide (c = chr 32) || bool_decide (c = chr 9) || bool_decide (c = chr 13) || bool_decide (c = chr 10).

Fixpoint trim_front (l : list Ascii.ascii) : list Ascii.ascii :=
  match l with c :: t => if is_blank c then trim_front t else l | [] => [] end.

Definition trim (l : list Ascii.ascii) : list Ascii.ascii := rev (trim_front (rev (trim_front l))).

Definition trim_text (s : string) : string := of_bytes (trim (bytes s)).

Definition clip_at (max : nat) (s : string) : string :=
  if Nat.leb (String.length s) max then s else of_bytes (take max (bytes s)) +:+ "...".

(** The text before the first line feed and the text after it. *)
Fixpoint break_line (l : list Ascii.ascii) : option (list Ascii.ascii * list Ascii.ascii) :=
  match l with
  | [] => None
  | c :: t =>
      if bool_decide (c = chr 10) then Some ([], t)
      else match break_line t with Some (line, rest) => Some (c :: line, rest) | None => None end
  end.

(** ** base64 *)

Definition b64_value (c : Ascii.ascii) : Z :=
  let b := Z.of_N (byte_of c) in
  (if (65 <=? b) && (b <=? 90) then b - 65
   else if (97 <=? b) && (b <=? 122) then b - 97 + 26
   else if (48 <=? b) && (b <=? 57) then b - 48 + 52
   else if (b =? 43) || (b =? 45) then 62
   else if (b =? 47) || (b =? 95) then 63
   else -1)%Z.

Definition b64_ignored (c : Ascii.ascii) : bool :=
  bool_decide (c = chr 61) || bool_decide (c = chr 10) || bool_decide (c = chr 13) || bool_decide (c = chr 32) || bool_decide (c = chr 9).

(** [acc] is a [uint32_t]. *)
Fixpoint base64_from (acc bits : Z) (l : list Ascii.ascii) : option (list Ascii.ascii) :=
  match l with
  | [] => Some []
  | c :: t =>
      if b64_ignored c then base64_from acc bits t
      else
        let v := b64_value c in
        if (v <? 0)%Z then None
        else
          let acc := Z.lor (Z.shiftl acc 6 `mod` 4294967296) v in
          let bits := (bits + 6)%Z in
          if (8 <=? bits)%Z then
            let bits := (bits - 8)%Z in
            match base64_from acc bits t with
            | Some out => Some (chr (Z.to_N (Z.land (Z.shiftr acc bits) 255)) :: out)
            | None => None
            end
          else base64_from acc bits t
  end.

Definition base64_decode (s : string) : option (list Ascii.ascii) := base64_from 0 0 (bytes s).

Definition kExtensions : list (string * string) :=
  [("image/png", "png"); ("image/jpeg", "jpg"); ("image/jpg", "jpg"); ("image/gif", "gif"); ("image/webp", "webp");
   ("image/svg+xml", "svg"); ("image/bmp", "bmp"); ("audio/wav", "wav"); ("audio/x-wav", "wav"); ("audio/wave", "wav");
   ("audio/mpeg", "mp3"); ("audio/mp3", "mp3"); ("audio/ogg", "ogg"); ("audio/flac", "flac"); ("audio/webm", "webm")].

Definition extension_for (mime : string) : string :=
  match List.find (λ p, str_eqb p.1 mime) kExtensions with Some p => p.2 | None => "bin" end.

Definition is_name_char (c : Ascii.ascii) : bool :=
  let b := byte_of c in
  ((97 <=? b) && (b <=? 122) || (65 <=? b) && (b <=? 90) || (48 <=? b) && (b <=? 57) || (b =? 45) || (b =? 95))%N.

Definition sanitize_for_filename (s : string) : string :=
  of_bytes ((λ c, if is_name_char c then c else chr 95) <$> bytes s).

Definition valid_server_name (name : string) : bool :=
  if is_empty name || Nat.ltb 64 (String.length name) then false else forallb is_name_char (bytes name).

(** ** Reading JSON-RPC messages *)

(** [el\[key\]]: an error on anything but an object. *)
Definition member (key : string) (j : json) : option json := get_object j ≫= field key.

Definition string_member (key : string) (j : json) : option string := member key j ≫= get_string.

Definition is_null (j : json) : bool := match j with JOther t => str_eqb t "null" | _ => false end.

(** [get<int64_t>]. *)
Definition get_i64 (j : json) : option Z :=
  match j with JInt z => if (z <=? 9223372036854775807)%Z then Some z else None | _ => None end.

(** The [id] of a message, when it has one that is not null. *)
Definition message_id (msg : list (string * json)) : option json :=
  match field "id" msg with Some el => if is_null el then None else Some el | None => None end.

(** ** Server objects *)

Record RemoteTool := mkRemoteTool {
  full_name : string;
  remote_name : string;
  remote_description : string;
  remote_schema : string
}.

Record McpServer := mkMcpServer {
  sv_config : McpServerConfig;
  sv_workspace : string;
  sv_tools : list RemoteTool;
  protocol_version : string;
  server_info : string;
  process : option Z;
  stdout_buf : list Ascii.ascii;
  next_id : Z;
  dead_reason : option string; (* [dead_] and [dead_reason_] *)
  artifact_counter : Z
}.

Definition new_server (cfg : McpServerConfig) (workspace : string) : McpServer :=
  mkMcpServer cfg workspace [] "" "" None [] 1 None 0.

Definition set_tools (s : McpServer) (l : list RemoteTool) : McpServer :=
  mkMcpServer (sv_config s) (sv_workspace s) l (protocol_version s) (server_info s) (process s) (stdout_buf s) (next_id s)
    (dead_reason s) (artifact_counter s).
Definition set_info (s : McpServer) (version info : string) : McpServer :=
  mkMcpServer (sv_config s) (sv_workspace s) (sv_tools s) version info (process s) (stdout_buf s) (next_id s)
    (dead_reason s) (artifact_counter s).
Definition set_process (s : McpServer) (p : option Z) : McpServer :=
  mkMcpServer (sv_config s) (sv_workspace s) (sv_tools s) (protocol_version s) (server_info s) p (stdout_buf s) (next_id s)
    (dead_reason s) (artifact_counter s).
Definition set_stdout (s : McpServer) (b : list Ascii.ascii) : McpServer :=
  mkMcpServer (sv_config s) (sv_workspace s) (sv_tools s) (protocol_version s) (server_info s) (process s) b (next_id s)
    (dead_reason s) (artifact_counter s).
Definition set_next_id (s : McpServer) (i : Z) : McpServer :=
  mkMcpServer (sv_config s) (sv_workspace s) (sv_tools s) (protocol_version s) (server_info s) (process s) (stdout_buf s) i
    (dead_reason s) (artifact_counter s).
Definition set_dead (s : McpServer) (reason : string) : McpServer :=
  mkMcpServer (sv_config s) (sv_workspace s) (sv_tools s) (protocol_version s) (server_info s) (process s) (stdout_buf s)
    (next_id s) (Some reason) (artifact_counter s).
Definition set_counter (s : McpServer) (n : Z) : McpServer :=
  mkMcpServer (sv_config s) (sv_workspace s) (sv_tools s) (protocol_version s) (server_info s) (process s) (stdout_buf s)
    (next_id s) (dead_reason s) n.

Definition prefix (s : McpServer) : string := "mcp server '" +:+ mcp_name (sv_config s) +:+ "'".

(** ** The host *)

Inductive PipeRead := Data (bytes_read : list Ascii.ascii) | Timeout | Closed | ReadError.

Record SpawnOptions := mkSpawnOptions {
  so_program : string;
  so_args : list string;
  so_env : gmap string string;
  so_working_directory : string;
  so_sandbox : SandboxPolicy
}.

(** hal::ChildProcess and the process-wide services the client uses.
    [make_server]: the address [make_shared] gives next to those in use.
    [server_at]: the object at an address, [None] once [free_server] released
    it; [stale_server] is what a method called there all the same would find.
    [spawn_child] gives the process and its sandbox warnings.
    [await_exit]: the exit code, if the child has exited after the wait of
    [exit_details], and all the stderr thread has read by then.
    [steady_now] counts nanoseconds. *)
Class McpHost (W : Type) := {
  server_at : W → Z → option McpServer;
  stale_server : W → Z → McpServer;
  store_server : Z → McpServer → W → W;
  free_server : Z → W → W;
  make_server : list Z → W → Z;
  spawn_child : SpawnOptions → W → W * Result (Z * list string);
  write_stdin : Z → string → W → W * Result unit;
  read_stdout : Z → Z → W → W * PipeRead;
  await_exit : Z → W → W * (option Z * list Ascii.ascii);
  terminate : Z → Z → W → W * Z;
  steady_now : W → W * Z;
  reads_before : Z → W → nat;
  files : W → Files;
  create_directories : string → W → W;
  write_file : string → list Ascii.ascii → W → W * bool
}.

(** ** Net: the methods of a server *)

Record Conn (W : Type) := mkConn { c_world : W; c_server : McpServer }.
Arguments mkConn {W}.
Arguments c_world {W}.
Arguments c_server {W}.

Definition Net (W A : Type) : Type := Conn W → Conn W * A.

#[global] Instance Net_ret {W : Type} : MRet (Net W) := λ A a c, (c, a).
#[global] Instance Net_bind {W : Type} : MBind (Net W) := λ A B k m c, let '(c', a) := m c in k a c'.

(** ** The stderr thread *)

Record Drain := mkDrain { dr_buf : list Ascii.ascii; dr_tail : list Ascii.ascii; dr_lines : list string }.

Definition log_line (name : string) (line : list Ascii.ascii) : list string :=
  match trim line with [] => [] | l => ["[mcp:" +:+ name +:+ "] " +:+ of_bytes l] end.

Fixpoint flush_lines (fuel : nat) (name : string) (buf : list Ascii.ascii) : list Ascii.ascii * list string :=
  match fuel with
  | O => (buf, [])
  | S fuel' =>
      match break_line buf with
      | None => (buf, [])
      | Some (line, rest) => let '(buf', out) := flush_lines fuel' name rest in (buf', log_line name line ++ out)
      end
  end.

(** [flush_lines(false)], and [flush_lines(true)] which also logs what is left. *)
Definition flush (name : string) (all : bool) (d : Drain) : Drain :=
  let '(buf, out) := flush_lines (length (dr_buf d)) name (dr_buf d) in
  if all then mkDrain [] (dr_tail d) (dr_lines d ++ out ++ log_line name buf)
  else mkDrain buf (dr_tail d) (dr_lines d ++ out).

Definition clip_tail (l : list Ascii.ascii) : list Ascii.ascii :=
  if Nat.ltb kStderrTailBytes (length l) then drop (length l - kStderrTailBytes) l else l.

Fixpoint drain_reads (name : string) (reads : list PipeRead) (d : Drain) : Drain :=
  match reads with
  | Data b :: rest =>
      let d := flush name false (mkDrain (dr_buf d ++ b) (clip_tail (dr_tail d ++ b)) (dr_lines d)) in
      drain_reads name rest (if (64 * 1024 <? Z.of_nat (length (dr_buf d)))%Z then flush name true d else d)
  | Timeout :: rest => drain_reads name rest d
  | _ => d
  end.

(** The reads up to the moment [stop_] is seen. *)
Definition drain_stderr (name : string) (reads : list PipeRead) : Drain :=
  flush name true (drain_reads name reads (mkDrain [] [] [])).

(** ** Transport *)

Section Transport.
Context {W : Type} `{McpHost W} `{Host W} `{JsonParser} `{JsonWriter} (sink : LogLevel → string → W → W).

Definition this {A} (f : McpServer → A) : Net W A := λ c, (c, f (c_server c)).
Definition update (f : McpServer → McpServer) : Net W unit := λ c, (mkConn (c_world c) (f (c_server c)), tt).
Definition call {A} (f : W → W * A) : Net W A := λ c, let '(w, a) := f (c_world c) in (mkConn w (c_server c), a).
Definition call_ (f : W → W) : Net W unit := call (λ w, (f w, tt)).

Definition write_log (level : LogLevel) (msg : string) : Net W unit := call_ (sink level msg).

Definition mark_dead {A} (reason : string) : Net W (Result A) :=
  update (λ s, set_dead s reason) ;; mret (fail NetworkError reason).

(** [stderr_tail_] is what [drain_stderr] keeps of the text. *)
Definition exit_details (p : Z) : Net W string :=
  '(exit_code, err) ← call (await_exit p);
  let status := match exit_code with Some n => " (exit code " +:+ to_string n +:+ ")" | None => "" end in
  match trim (clip_tail err) with
  | [] => mret status
  | tail => mret (status +:+ "; stderr: " +:+ clip_at 500 (of_bytes tail))
  end.

(** [p] is [process_], which is set while a request runs. *)
Definition send_line (p : Z) (line : string) : Net W (Result unit) :=
  w ← call (write_stdin p line);
  match w with
  | Ok _ => mret (Ok tt)
  | Fail e =>
      details ← exit_details p;
      pre ← this prefix;
      mark_dead (pre +:+ " is not accepting input (" +:+ message e +:+ ")" +:+ details)
  end.

Definition notify (p : Z) (method params_json : string) : Net W (Result unit) :=
  send_line p ("{" +:+ q +:+ "jsonrpc" +:+ q +:+ ":" +:+ q +:+ "2.0" +:+ q +:+ "," +:+ q +:+ "method" +:+ q +:+ ":" +:+ quoted method +:+
    (if is_empty params_json then "" else "," +:+ q +:+ "params" +:+ q +:+ ":" +:+ params_json) +:+ "}" +:+ nl).

Definition answer_server_request (p : Z) (method : string) (id : json) : Net W unit :=
  let head := "{" +:+ q +:+ "jsonrpc" +:+ q +:+ ":" +:+ q +:+ "2.0" +:+ q +:+ "," +:+ q +:+ "id" +:+ q +:+ ":" +:+ write_json id in
  let line :=
    if str_eqb method "ping" then head +:+ "," +:+ q +:+ "result" +:+ q +:+ ":{}}" +:+ nl
    else head +:+ "," +:+ q +:+ "error" +:+ q +:+ ":{" +:+ q +:+ "code" +:+ q +:+ ":-32601," +:+ q +:+ "message" +:+ q +:+ ":" +:+ q +:+
         "Method not supported by client: " +:+ escape_json_string method +:+ q +:+ "}}" +:+ nl in
  send_line p line ;; mret tt.

(** What a reply with our id gives. *)
Definition read_reply (pre method : string) (msg : list (string * json)) : Result json :=
  match field "error" msg with
  | Some err =>
      let text := match string_member "message" err with Some m => m | None => "unknown error" end in
      let code := match member "code" err ≫= get_i64 with Some z => z | None => 0%Z end in
      fail HttpError (pre +:+ ": " +:+ method +:+ " failed: " +:+ text +:+ " (code " +:+ to_string code +:+ ")")
  | None =>
      match field "result" msg with
      | Some result => Ok result
      | None => fail ParseError (pre +:+ ": response to " +:+ method +:+ " has neither result nor error")
      end
  end.

(** One line of output: [None] goes on with the next one. *)
Definition on_line (p : Z) (method : string) (id : Z) (raw : list Ascii.ascii) : Net W (option (Result json)) :=
  pre ← this prefix;
  let text := of_bytes (trim raw) in
  if is_empty text then mret None
  else if negb (starts_with "{" text) then
    write_log LogWarning (pre +:+ ": ignoring non-JSON-RPC output: " +:+ clip_at 200 text) ;; mret None
  else
    match parse_json text ≫= get_object with
    | None => mret (Some (fail ParseError (pre +:+ " sent invalid JSON: " +:+ clip_at 200 text)))
    | Some msg =>
        match field "method" msg ≫= get_string with
        | Some inbound =>
            (match message_id msg with
             | Some id_el => answer_server_request p inbound id_el
             | None =>
                 if str_eqb inbound "notifications/message" then
                   match field "params" msg with
                   | Some params =>
                       name ← this (λ s, mcp_name (sv_config s));
                       write_log LogInfo ("[mcp:" +:+ name +:+ "] " +:+ clip_at 1000 (write_json params))
                   | None => mret tt
                   end
                 else mret tt
             end) ;; mret None
        | None =>
            match message_id msg ≫= get_i64 with
            | Some got => if (got =? id)%Z then mret (Some (read_reply pre method msg)) else mret None
            | None => mret None
            end
        end
    end.

(** The complete lines of the buffer, up to a reply; [n] bounds their number. *)
Fixpoint on_lines (n : nat) (p : Z) (method : string) (id : Z) : Net W (option (Result json)) :=
  match n with
  | O => mret None
  | S n' =>
      buf ← this stdout_buf;
      match break_line buf with
      | None => mret None
      | Some (raw, rest) =>
          update (λ s, set_stdout s rest) ;;
          r ← on_line p method id raw;
          match r with Some res => mret (Some res) | None => on_lines n' p method id end
      end
  end.

Definition on_timeout (p : Z) (method : string) (id : Z) : Net W (Result json) :=
  notify p "notifications/cancelled"
    ("{" +:+ q +:+ "requestId" +:+ q +:+ ":" +:+ to_string id +:+ "," +:+ q +:+ "reason" +:+ q +:+ ":" +:+ q +:+ "timeout" +:+ q +:+ "}") ;;
  s ← this (λ s, s);
  mret (fail NetworkError (prefix s +:+ ": " +:+ method +:+ " timed out after " +:+ to_string (mcp_timeout_ms (sv_config s)) +:+ " ms")).

Definition broken_pipe (p : Z) (method what : string) : Net W (Result json) :=
  details ← exit_details p;
  pre ← this prefix;
  mark_dead (pre +:+ what +:+ " while waiting for " +:+ method +:+ details).

(** The loop of [request], a read at a time. *)
Fixpoint await_reply (reads : nat) (p : Z) (method : string) (id deadline : Z) : Net W (Result json) :=
  buf ← this stdout_buf;
  r ← on_lines (S (length buf)) p method id;
  match r with
  | Some res => mret res
  | None =>
      buf ← this stdout_buf;
      if (kMaxLineBytes <? Z.of_nat (length buf))%Z then
        pre ← this prefix;
        let reason := pre +:+ " sent a line longer than " +:+ to_string kMaxLineBytes +:+ " bytes" in
        update (λ s, set_dead s reason) ;; mret (fail ParseError reason)
      else
        now ← call steady_now;
        let left := Z.quot (deadline - now) 1000000 in
        if (left <=? 0)%Z then on_timeout p method id
        else
          match reads with
          | O => on_timeout p method id
          | S reads' =>
              r ← call (read_stdout p (i32 left));
              match r with
              | ReadError => broken_pipe p method " stdout read failed"
              | Closed => broken_pipe p method " exited"
              | Timeout => await_reply reads' p method id deadline
              | Data b => update (λ s, set_stdout s (stdout_buf s ++ b)) ;; await_reply reads' p method id deadline
              end
          end
  end.

Definition request_line (id : Z) (method params_json : string) : string :=
  "{" +:+ q +:+ "jsonrpc" +:+ q +:+ ":" +:+ q +:+ "2.0" +:+ q +:+ "," +:+ q +:+ "id" +:+ q +:+ ":" +:+ to_string id +:+ "," +:+
  q +:+ "method" +:+ q +:+ ":" +:+ quoted method +:+ "," +:+ q +:+ "params" +:+ q +:+ ":" +:+
  (if is_empty params_json then "{}" else params_json) +:+ "}" +:+ nl.

Definition request (p : Z) (method params_json : string) : Net W (Result json) :=
  s ← this (λ s, s);
  match dead_reason s with
  | Some reason => mret (fail NetworkError (prefix s +:+ " is not running: " +:+ reason))
  | None =>
      let id := next_id s in
      update (λ s, set_next_id s (id + 1)) ;;
      sent ← send_line p (request_line id method params_json);
      match sent with
      | Fail e => mret (Fail e)
      | Ok _ =>
          now ← call steady_now;
          let deadline := (now + mcp_timeout_ms (sv_config s) * 1000000)%Z in
          reads ← call (λ w, (w, reads_before deadline w));
          await_reply reads p method id deadline
      end
  end.

(** ** Tools of a server *)

Definition read_tool (server : string) (name : string) (t : json) : RemoteTool :=
  mkRemoteTool (server +:+ "." +:+ name) name
    (match string_member "description" t with
     | Some desc => desc
     | None =>
         match string_member "title" t with
         | Some title => title
         | None => "Tool '" +:+ name +:+ "' of MCP server '" +:+ server +:+ "'."
         end
     end)
    (match member "inputSchema" t with
     | Some schema => match get_object schema with Some _ => write_json schema | None => "{" +:+ q +:+ "type" +:+ q +:+ ":" +:+ q +:+ "object" +:+ q +:+ "}" end
     | None => "{" +:+ q +:+ "type" +:+ q +:+ ":" +:+ q +:+ "object" +:+ q +:+ "}"
     end).

(** One page; [names] are the tools seen on any page. *)
Fixpoint read_tools (items : list json) (names : gset string) : Net W (gset string) :=
  match items with
  | [] => mret names
  | t :: rest =>
      pre ← this prefix;
      match string_member "name" t with
      | Some name =>
          if is_empty name then write_log LogWarning (pre +:+ ": skipping a tool without a name") ;; read_tools rest names
          else if bool_decide (name ∈ names) then
            write_log LogWarning (pre +:+ ": skipping duplicate tool '" +:+ name +:+ "'") ;; read_tools rest names
          else
            update (λ s, set_tools s (sv_tools s ++ [read_tool (mcp_name (sv_config s)) name t])) ;;
            read_tools rest ({[name]} ∪ names)
      | None => write_log LogWarning (pre +:+ ": skipping a tool without a name") ;; read_tools rest names
      end
  end.

(** The pages from number [kMaxListPages - pages] on. *)
Fixpoint list_pages (pages : nat) (p : Z) (advertised : bool) (cursor : string) (seen names : gset string) : Net W (Result unit) :=
  pre ← this prefix;
  match pages with
  | O => mret (fail ParseError (pre +:+ ": tools/list did not finish after " +:+ to_string (Z.of_nat kMaxListPages) +:+ " pages"))
  | S pages' =>
      let params := if is_empty cursor then "{}" else "{" +:+ q +:+ "cursor" +:+ q +:+ ":" +:+ quoted cursor +:+ "}" in
      res ← request p "tools/list" params;
      match res with
      | Fail e =>
          if bool_decide (code e = HttpError) && negb advertised && Nat.eqb pages kMaxListPages then
            write_log LogInfo (pre +:+ " offers no tools") ;; mret (Ok tt)
          else mret (Fail e)
      | Ok value =>
          match member "tools" value ≫= get_array with
          | None => mret (fail ParseError (pre +:+ ": tools/list result has no " +:+ q +:+ "tools" +:+ q +:+ " array"))
          | Some items =>
              names ← read_tools items names;
              match string_member "nextCursor" value with
              | Some next =>
                  if is_empty next then mret (Ok tt)
                  else if bool_decide (next ∈ seen) then
                    mret (fail ParseError (pre +:+ ": tools/list returned the cursor '" +:+ clip_at 200 next +:+ "' twice"))
                  else list_pages pages' p advertised next ({[next]} ∪ seen) names
              | None => mret (Ok tt)
              end
          end
      end
  end.

Definition list_tools (p : Z) (advertised : bool) : Net W (Result unit) := list_pages kMaxListPages p advertised "" ∅ ∅.

(** ** Start *)

Definition init_params : string :=
  "{" +:+ q +:+ "protocolVersion" +:+ q +:+ ":" +:+ q +:+ kProtocolVersion +:+ q +:+ "," +:+ q +:+ "capabilities" +:+ q +:+ ":{}," +:+
  q +:+ "clientInfo" +:+ q +:+ ":{" +:+ q +:+ "name" +:+ q +:+ ":" +:+ q +:+ "agent.cpp" +:+ q +:+ "," +:+
  q +:+ "version" +:+ q +:+ ":" +:+ q +:+ "0.1.0" +:+ q +:+ "}}".

(** [protocolVersion] and [serverInfo] of the handshake. *)
Definition read_info (value : json) (s : McpServer) : McpServer :=
  let version := match string_member "protocolVersion" value with Some v => v | None => protocol_version s end in
  let info :=
    match member "serverInfo" value with
    | Some info =>
        let name := match string_member "name" info with Some n => n | None => "" end in
        let ver := match string_member "version" info with Some v => v | None => "" end in
        name +:+ (if is_empty ver then "" else " " +:+ ver)
    | None => server_info s
    end in
  set_info s version info.

Definition advertises_tools (value : json) : bool :=
  match member "capabilities" value ≫= member "tools" with Some _ => true | None => false end.

Fixpoint log_all (level : LogLevel) (msgs : list string) : Net W unit :=
  match msgs with [] => mret tt | m :: rest => write_log level m ;; log_all level rest end.

Definition start : Net W (Result unit) :=
  s ← this (λ s, s);
  let cfg := sv_config s in
  fs ← call (λ w, (w, files w));
  spawned ← call (spawn_child (mkSpawnOptions (mcp_command cfg) (mcp_args cfg) (mcp_env cfg) (mcp_working_directory cfg)
                     (mcp_policy fs (mcp_sandbox cfg) (mcp_command cfg) (mcp_working_directory cfg))));
  match spawned with
  | Fail e => mret (fail ProviderInitFailed (prefix s +:+ ": " +:+ message e))
  | Ok (p, warnings) =>
      update (λ s, set_process s (Some p)) ;;
      log_all LogWarning ((λ w, prefix s +:+ ": " +:+ w) <$> warnings) ;;
      init ← request p "initialize" init_params;
      match init with
      | Ok value =>
          update (read_info value) ;;
          n ← notify p "notifications/initialized" "";
          match n with Fail e => mret (Fail e) | Ok _ => list_tools p (advertises_tools value) end
      | Fail e =>
          if bool_decide (code e = HttpError) then
            write_log LogWarning (prefix s +:+ ": initialize was rejected, continuing without the handshake (" +:+ message e +:+ ")") ;;
            list_tools p true
          else mret (fail (if bool_decide (code e = NetworkError) then ProviderInitFailed else code e) (message e))
      end
  end.

(** ** Calls *)

Definition artifact_name (s : McpServer) (remote : string) (stamp : Z) (mime : string) : string :=
  "mcp-" +:+ sanitize_for_filename (mcp_name (sv_config s)) +:+ "-" +:+ sanitize_for_filename remote +:+ "-" +:+
  to_string stamp +:+ "-" +:+ to_string (artifact_counter s) +:+ "." +:+ extension_for mime.

Definition append_text (r : ToolResult) (line : string) : ToolResult :=
  mkToolResult ((if is_empty (result_text r) then "" else result_text r +:+ nl) +:+ line) (result_media r) (result_tensors r)
    (result_is_error r).

Definition push_media (r : ToolResult) (m : Media) : ToolResult :=
  mkToolResult (result_text r) (result_media r ++ [m]) (result_tensors r) (result_is_error r).

Definition save_artifact (r : ToolResult) (remote base64 mime kind : string) : Net W ToolResult :=
  s ← this (λ s, s);
  match base64_decode base64 with
  | None => mret (append_text r ("[" +:+ kind +:+ " content with invalid base64 data was dropped]"))
  | Some data =>
      if is_empty (sv_workspace s) then mret (append_text r ("[" +:+ kind +:+ " content dropped: no workspace]"))
      else
        fs ← call (λ w, (w, files w));
        let rel := path_join (sv_workspace s) "artifacts" in
        let dir := match fs_absolute fs rel with Some d => d | None => rel end in
        call_ (create_directories dir) ;;
        stamp ← call now_ms;
        update (λ s, set_counter s (u64 (artifact_counter s + 1))) ;;
        file ← this (λ s, artifact_name s remote stamp mime);
        let path := path_join dir file in
        written ← call (write_file path data);
        match written with
        | true => mret (push_media r (mkMedia path (if is_empty mime then "application/octet-stream" else mime)))
        | false => mret (append_text r ("[" +:+ kind +:+ " content dropped: cannot write " +:+ path +:+ "]"))
        end
  end.

Definition text_or (key : string) (j : json) : string := match string_member key j with Some s => s | None => "" end.

Definition map_item (remote : string) (out : ToolResult) (item : json) : Net W ToolResult :=
  let type := text_or "type" item in
  if str_eqb type "text" then
    match string_member "text" item with Some v => mret (append_text out v) | None => mret out end
  else if str_eqb type "image" || str_eqb type "audio" then
    match string_member "data" item with
    | Some v => save_artifact out remote v (text_or "mimeType" item) type
    | None => mret out
    end
  else if str_eqb type "resource" then
    match member "resource" item with
    | None => mret out
    | Some res =>
        match string_member "text" res with
        | Some v => mret (append_text out v)
        | None =>
            match string_member "blob" res with
            | Some v => save_artifact out remote v (text_or "mimeType" res) "resource"
            | None => mret (append_text out ("[resource " +:+ text_or "uri" res +:+ "]"))
            end
        end
    end
  else if str_eqb type "resource_link" then
    let uri := text_or "uri" item in
    let name := text_or "name" item in
    mret (append_text out ("[resource link " +:+ (if is_empty name then uri else name) +:+
            (if is_empty name then "" else ": " +:+ uri) +:+ "]"))
  else mret (append_text out ("[unsupported content type '" +:+ type +:+ "']")).

Fixpoint map_items_of (remote : string) (out : ToolResult) (items : list json) : Net W ToolResult :=
  match items with
  | [] => mret out
  | item :: rest => out ← map_item remote out item; map_items_of remote out rest
  end.

Definition no_content (r : ToolResult) : bool :=
  is_empty (result_text r) && match result_media r with [] => true | _ => false end.

Definition set_text (r : ToolResult) (text : string) : ToolResult :=
  mkToolResult text (result_media r) (result_tensors r) (result_is_error r).

(** [structuredContent] and [isError], once the items are mapped. *)
Definition finish_result (result : json) (out : ToolResult) : ToolResult :=
  let out :=
    if no_content out then match member "structuredContent" result with Some s => set_text out (write_json s) | None => out end
    else out in
  let is_error := match member "isError" result ≫= get_bool with Some b => b | None => false end in
  let out := mkToolResult (result_text out) (result_media out) (result_tensors out) is_error in
  if is_error && no_content out then set_text out "tool reported an error" else out.

Definition map_call_result (result : json) (remote : string) : Net W (Result ToolResult) :=
  out ← map_items_of remote no_result (match member "content" result ≫= get_array with Some l => l | None => [] end);
  mret (Ok (finish_result result out)).

(** The arguments of a call on one line. *)
Definition call_arguments_text (arguments : string) : Result string :=
  let trimmed := trim_text arguments in
  if is_empty trimmed then Ok "{}"
  else
    match parse_json trimmed with
    | None => fail ParseError "arguments are not valid JSON"
    | Some parsed =>
        match get_object parsed with
        | None => fail ParseError "arguments must be a JSON object"
        | Some _ => Ok (write_json parsed)
        end
    end.

Definition call_params (remote args : string) : string :=
  "{" +:+ q +:+ "name" +:+ q +:+ ":" +:+ quoted remote +:+ "," +:+ q +:+ "arguments" +:+ q +:+ ":" +:+ args +:+ "}".

Definition call_tool (remote arguments : string) : Net W (Result ToolResult) :=
  s ← this (λ s, s);
  match process s with
  | None => mret (fail NetworkError (prefix s +:+ " is disconnected"))
  | Some p =>
      match call_arguments_text arguments with
      | Fail e => mret (Fail e)
      | Ok args =>
          res ← request p "tools/call" (call_params remote args);
          match res with
          | Fail e => mret (Fail e)
          | Ok value => map_call_result value remote
          end
      end
  end.

(** Also the destructor.  Joining the stderr thread changes nothing here. *)
Definition shutdown : Net W unit :=
  s ← this (λ s, s);
  match process s with
  | None => mret tt
  | Some p =>
      let timeout := mcp_timeout_ms (sv_config s) in
      exit_code ← call (terminate p (if (timeout <? 2000)%Z then timeout else 2000%Z));
      update (λ s, set_dead (set_process s None) "disconnected") ;;
      write_log LogDebug (prefix s +:+ " stopped (exit code " +:+ to_string exit_code +:+ ")")
  end.

(** What a pointer to address [a] leads to. *)
Definition server_of (w : W) (a : Z) : McpServer :=
  match server_at w a with Some s => s | None => stale_server w a end.

(** Runs a method on the object at address [a]. *)
Definition on_server {A} (a : Z) (m : Net W A) (w : W) : W * A :=
  let '(c, r) := m (mkConn w (server_of w a)) in (store_server a (c_server c) (c_world c), r).

(** ** Session glue: the callbacks *)

Definition remote_tool_callback (a : Z) (remote : string) (arguments : string) : W → W * Result ToolResult :=
  on_server a (call_tool remote arguments).

Definition server_query (a : Z) (query : string) (w : W) : W * Result string :=
  match parse_json query ≫= λ doc : json, option_map (pair doc) (string_member "name" doc) with
  | None =>
      (w, fail ParseError ("MCP query must be {" +:+ q +:+ "name" +:+ q +:+ ": " +:+ q +:+ "<tool>" +:+ q +:+ ", " +:+ q +:+
                           "arguments" +:+ q +:+ ": {...}}"))
  | Some (doc, name) =>
      let args := match member "arguments" doc with Some a => write_json a | None => "{}" end in
      let '(w, res) := on_server a (call_tool name args) w in
      (w, match res with
          | Fail e => Fail e
          | Ok r =>
              let text := render_tool_text r in
              if result_is_error r then fail ToolError text else Ok text
          end)
  end.

End Transport.

(** ** Session glue *)

Section Glue.
Context {W : Type} `{McpHost W} `{Host W} `{JsonParser} `{JsonWriter}.
Implicit Types (s : Session W).

Definition set_config_tools s (ts : list (Tool W)) : Session W :=
  let c := config s in
  mkSession (mkConfig (provider c) (engine c) (engine_options c) (config_model c) (workspace_dir c) (store c) ts (context_window c)
      (max_tokens c) (max_tool_call_rounds c) (max_parallel_subagents c) (logger c) (permission_check c) (permission_prompt c)
      (default_task c))
    (arena s) (worker_arenas s) (event_hooks s) (provider_state s) (memory_state s) (stats s) (tool_by_name s)
    (tools_system_prompt s) (skills_system_prompt s) (skills s) (log_file s) (cancel_flag s) (data_sources s)
    (retained_data_sources s).

Definition set_retained s (l : list (DataSource W)) : Session W := set_data_sources s (data_sources s) l.

(** The server of an entry [is_mcp_entry] accepts. *)
Definition mcp_entry (ds : DataSource W) : option (Z * (LogLevel → string → W → W)) :=
  if starts_with kDataSourcePrefix (ds_name ds) then ds_server ds else None.

Definition is_mcp_entry (ds : DataSource W) : bool := match mcp_entry ds with Some _ => true | None => false end.

Definition entry_name (name : string) : string := kDataSourcePrefix +:+ name.

Definition mcp_server_names s : list string :=
  (λ ds, of_bytes (drop (String.length kDataSourcePrefix) (bytes (ds_name ds)))) <$>
    List.filter is_mcp_entry (retained_data_sources s).

(** Does [remote_tool_callback] of the server at [a] run this tool? *)
Definition tool_of (a : Z) (t : Tool W) : bool :=
  match parts_callback t with Some (RemoteParts b _) => (b =? a)%Z | _ => false end.

Definition unregister_tools (a : Z) s : Session W :=
  rebuild_tool_index (set_config_tools s (List.filter (λ t, negb (tool_of a t)) (tools (config s)))).

(** [LogSink::write], with the logger and the file of the session. *)
Definition session_sink s : LogLevel → string → W → W := λ level msg w,
  let w := match logger (config s) with Some f => f level msg w | None => w end in
  match log_file s with Some f => f level msg w | None => w end.

Definition used_addresses s : list Z := omap (λ ds, option_map fst (ds_server ds)) (retained_data_sources s).

Definition remote_tool (sink : LogLevel → string → W → W) (a : Z) (rt : RemoteTool) : Tool W :=
  mkTool (full_name rt) (remote_description rt) (remote_schema rt) None
    (Some (RemoteParts a (remote_tool_callback sink a (remote_name rt)))).

(** The last reference to a server goes away: its destructor runs, and the
    object is freed with its [RemoteTool]s. *)
Definition drop_server_object (sink : LogLevel → string → W → W) (a : Z) : M W unit :=
  host (on_server a (shutdown sink)) ;; host_ (free_server a).

Definition connect_server (cfg : McpServerConfig) : M W (Result (list (Tool W))) :=
  s ← ask rt_session;
  if negb (valid_server_name (mcp_name cfg)) then
    mret (fail InvalidConfig ("MCP server name '" +:+ mcp_name cfg +:+ "' is invalid (use 1-64 letters, digits, '_' or '-')"))
  else if is_empty (mcp_command cfg) then mret (fail InvalidConfig ("MCP server '" +:+ mcp_name cfg +:+ "' has no command"))
  else if (mcp_timeout_ms cfg <=? 0)%Z then mret (fail InvalidConfig ("MCP server '" +:+ mcp_name cfg +:+ "' needs timeout_ms > 0"))
  else if existsb (λ ds, is_mcp_entry ds && str_eqb (ds_name ds) (entry_name (mcp_name cfg))) (retained_data_sources s) then
    mret (fail InvalidConfig ("MCP server '" +:+ mcp_name cfg +:+ "' is already connected"))
  else
    let sink := session_sink s in
    a ← ask (λ rt, make_server (used_addresses (rt_session rt)) (rt_world rt));
    host_ (store_server a (new_server cfg (workspace_dir (config s)))) ;;
    started ← host (on_server a (start sink));
    match started with
    | Fail e => drop_server_object sink a ;; mret (Fail e)
    | Ok _ =>
        server ← ask (λ rt, server_of (rt_world rt) a);
        match List.find (λ t, bool_decide (is_Some (tool_by_name s !! full_name t))) (sv_tools server) with
        | Some t =>
            drop_server_object sink a ;;
            mret (fail InvalidConfig ("MCP server '" +:+ mcp_name cfg +:+ "': a tool named '" +:+ full_name t +:+ "' is already registered"))
        | None =>
            let registered := remote_tool sink a <$> sv_tools server in
            let ds := mkDataSource (entry_name (mcp_name cfg)) (Some (server_query sink a)) (Some (a, sink)) in
            modify_session (λ s, rebuild_tool_index
              (set_retained (set_config_tools s (tools (config s) ++ registered)) (retained_data_sources s ++ [ds]))) ;;
            log LogInfo ("MCP server '" +:+ mcp_name cfg +:+ "' connected" +:+
              (if is_empty (server_info server) then "" else " (" +:+ server_info server +:+ ")") +:+
              (if is_empty (protocol_version server) then "" else ", protocol " +:+ protocol_version server) +:+ ", " +:+
              to_string (Z.of_nat (length registered)) +:+ " tool(s)") ;;
            mret (Ok registered)
        end
    end.

(** The first entry of the name: its server, and the entries without it. *)
Fixpoint find_entry (name : string) (l : list (DataSource W)) :
    option ((Z * (LogLevel → string → W → W)) * list (DataSource W)) :=
  match l with
  | [] => None
  | ds :: rest =>
      match (if str_eqb (ds_name ds) (entry_name name) then mcp_entry ds else None) with
      | Some srv => Some (srv, rest)
      | None => option_map (λ p, (p.1, ds :: p.2)) (find_entry name rest)
      end
  end.

Definition disconnect_server (name : string) : M W (Result unit) :=
  s ← ask rt_session;
  match find_entry name (retained_data_sources s) with
  | None => mret (fail KeyNotFound ("MCP server '" +:+ name +:+ "' is not connected"))
  | Some ((a, sink), rest) =>
      modify_session (unregister_tools a) ;;
      host (on_server a (shutdown sink)) ;;
      modify_session (λ s, set_retained s rest) ;; drop_server_object sink a ;;
      mret (Ok tt)
  end.

Fixpoint disconnect_all (names : list string) : M W unit :=
  match names with [] => mret tt | name :: rest => disconnect_server name ;; disconnect_all rest end.

Definition disconnect_mcp_servers : M W unit := names ← ask (λ rt, mcp_server_names (rt_session rt)); disconnect_all names.

(** The client the graph loader runs on. *)
#[global] Instance mcp_client : McpClient W :=
  {| list_mcp_servers := mcp_server_names; connect_mcp_server := connect_server; disconnect_mcp_server := disconnect_server |}.

End Glue.
