(* ===== verification/McpTheory.v ===== *)
(** * The MCP client: theorems

    The session glue implements the interface the graph loader relies on
    ([McpSpec], GraphLoad); the transport answers a request with the first
    line of the stream that carries its id, however the pipe cuts the stream. *)
From stdpp Require Import base gmap strings list pretty.
From Stdlib Require Import Lia ZArith.
From S2P Require Import Prelude Arena Text Decimal Json Session Provider Tools History Graph Models GraphJson GraphJsonTheory GraphLoad Sandbox Mcp.

(** What the client relies on from its host.  [heard p w] is the history of
    what reads delivered from process [p]: a read extends it, nothing else
    does.  Reads take time, so that only so many complete before a deadline.
    An object is found where it was stored, and a new one does not share the
    address of one in use. *)
Class McpHostSpec (W : Type) `{McpHost W} := {
  heard : Z → W → list Ascii.ascii;
  write_heard p q line w : heard q (write_stdin p line w).1 = heard q w;
  await_heard p q w : heard q (await_exit p w).1 = heard q w;
  clock_heard q w : heard q (steady_now w).1 = heard q w;
  read_heard p t w : heard p (read_stdout p t w).1 = heard p w ++ (match (read_stdout p t w).2 with Data b => b | _ => [] end);
  write_reads d p line w : reads_before d (write_stdin p line w).1 ≤ reads_before d w;
  await_reads d p w : reads_before d (await_exit p w).1 ≤ reads_before d w;
  clock_reads d w : reads_before d (steady_now w).1 ≤ reads_before d w;
  read_reads d p t w :
    ((steady_now w).2 < d)%Z → reads_before d (read_stdout p t (steady_now w).1).1 < reads_before d w;
  stored_server a s w : server_at (store_server a s w) a = Some s;
  freed_server a w : server_at (free_server a w) a = None;
  freed_other a b w : a ≠ b → server_at (free_server a w) b = server_at w b;
  fresh_server used w : make_server used w ∉ used
}.

(** ** Session glue *)

Section Glue.
Context {W : Type} `{McpHostSpec W} `{Host W} `{JsonParser} `{JsonWriter}.
Implicit Types (s : Session W) (rt : Rt W) (ds : DataSource W).

(** The name in an entry. *)
Definition bare_name (entry : string) : string := of_bytes (drop (String.length kDataSourcePrefix) (bytes entry)).

Local Arguments bare_name : simpl never.
Local Arguments entry_name : simpl never.

Lemma bare_entry name : bare_name (entry_name name) = name.
Proof. unfold bare_name, entry_name. rewrite bytes_app. apply of_bytes_bytes. Qed.

Lemma entry_bare entry : starts_with kDataSourcePrefix entry = true → entry_name (bare_name entry) = entry.
Proof. intros [r ->]%starts_with_split. change (kDataSourcePrefix +:+ r) with (entry_name r). by rewrite bare_entry. Qed.

Definition address ds : option Z := fst <$> ds_server ds.

Definition entry_address (a : Z) ds : bool := bool_decide (address ds = Some a).

(** The name of the server at address [a]. *)
Definition server_name s (a : Z) : option string :=
  bare_name ∘ ds_name <$> List.find (entry_address a) (retained_data_sources s).

Definition tool_label s (t : Tool W) : option string :=
  match parts_callback t with Some (RemoteParts a _) => server_name s a | _ => None end.

Definition view rt : McpView W :=
  mkMcpView (mcp_server_names (rt_session rt)) ((λ t, (tool_label (rt_session rt) t, t)) <$> tools (config (rt_session rt))).

(** Entries of servers are named like it, names and addresses are distinct,
    and every remote tool belongs to an entry. *)
Record glued s : Prop := mkGlued {
  gl_entries ds : ds ∈ retained_data_sources s → is_Some (ds_server ds) → starts_with kDataSourcePrefix (ds_name ds) = true;
  gl_addresses : NoDup (used_addresses s);
  gl_names : NoDup (mcp_server_names s);
  gl_tools t a f : t ∈ tools (config s) → parts_callback t = Some (RemoteParts a f) → a ∈ used_addresses s
}.

Lemma mcp_entry_glued s ds : glued s → ds ∈ retained_data_sources s → mcp_entry ds = ds_server ds.
Proof.
  intros Hg Hds. unfold mcp_entry. destruct (ds_server ds) eqn:E; [|by destruct (starts_with _ _)].
  by rewrite (gl_entries s Hg ds Hds) by (by rewrite E).
Qed.

Lemma names_app l1 l2 s : retained_data_sources s = l1 ++ l2 →
  mcp_server_names s = (bare_name ∘ ds_name <$> List.filter is_mcp_entry l1) ++ (bare_name ∘ ds_name <$> List.filter is_mcp_entry l2).
Proof. intros E. unfold mcp_server_names. by rewrite E, List.filter_app, fmap_app. Qed.

(** Looking for a name: the entry found, and what is left without it. *)
Lemma find_entry_spec name (l : list (DataSource W)) srv rest :
  find_entry name l = Some (srv, rest) →
  ∃ l1 ds l2, l = l1 ++ ds :: l2 ∧ rest = l1 ++ l2 ∧ ds_name ds = entry_name name ∧ mcp_entry ds = Some srv.
Proof.
  revert rest. induction l as [|ds l IH]; intros rest; [done|]. cbn [find_entry].
  destruct (str_eqb _ _) eqn:En; [destruct (mcp_entry ds) as [x|] eqn:Ee|].
  - intros [= <- <-]. exists [], ds, l. by rewrite (proj1 (str_eqb_true _ _) En).
  - destruct (find_entry name l) as [[srv' rest']|]; [|done]. intros [= <- <-].
    destruct (IH rest' eq_refl) as (l1 & d & l2 & -> & -> & ? & ?). by exists (ds :: l1), d, l2.
  - destruct (find_entry name l) as [[srv' rest']|]; [|done]. intros [= <- <-].
    destruct (IH rest' eq_refl) as (l1 & d & l2 & -> & -> & ? & ?). by exists (ds :: l1), d, l2.
Qed.

Lemma find_entry_some name (l : list (DataSource W)) :
  name ∈ (bare_name ∘ ds_name <$> List.filter is_mcp_entry l) → is_Some (find_entry name l).
Proof.
  induction l as [|ds l IH]; [by intros ?%elem_of_nil|]. cbn [List.filter find_entry]. intros Hin.
  destruct (str_eqb (ds_name ds) (entry_name name)) eqn:En; [destruct (mcp_entry ds) eqn:Ee; [by eexists|]|].
  - unfold is_mcp_entry in Hin at 1. rewrite Ee in Hin. destruct (IH Hin) as [x ->]. by eexists.
  - destruct (is_mcp_entry ds) eqn:Ei.
    + rewrite fmap_cons in Hin. apply elem_of_cons in Hin as [->|Hin].
      * exfalso. apply str_eqb_false in En. apply En. cbn. symmetry. apply entry_bare. unfold is_mcp_entry, mcp_entry in Ei.
        by destruct (starts_with _ _).
      * destruct (IH Hin) as [x ->]. by eexists.
    + destruct (IH Hin) as [x ->]. by eexists.
Qed.

(** *** Entries by address and by name *)

Definition addresses (l : list (DataSource W)) : list Z := omap address l.

Lemma used_addresses_eq s : used_addresses s = addresses (retained_data_sources s).
Proof. unfold used_addresses, addresses. f_equal. Qed.

Lemma elem_addresses a (l : list (DataSource W)) : a ∈ addresses l ↔ ∃ ds, ds ∈ l ∧ address ds = Some a.
Proof. unfold addresses. rewrite list_elem_of_omap. naive_solver. Qed.

Lemma find_address_none a (l : list (DataSource W)) : a ∉ addresses l → List.find (entry_address a) l = None.
Proof.
  intros Ha. destruct (List.find (entry_address a) l) as [ds|] eqn:Ef; [|done]. apply List.find_some in Ef as [Hin E].
  apply bool_decide_eq_true in E. exfalso. apply Ha, elem_addresses. exists ds. split; [by apply list_elem_of_In|done].
Qed.

Lemma find_address_some a (l : list (DataSource W)) : a ∈ addresses l → is_Some (List.find (entry_address a) l).
Proof.
  intros (ds & Hin & E)%elem_addresses. destruct (List.find (entry_address a) l) as [d|] eqn:Ef; [done|].
  exfalso. apply list_elem_of_In in Hin. apply (List.find_none _ _ Ef) in Hin. unfold entry_address in Hin. by rewrite bool_decide_true in Hin.
Qed.

Lemma find_address_app a (l1 l2 : list (DataSource W)) :
  List.find (entry_address a) (l1 ++ l2) =
    match List.find (entry_address a) l1 with Some ds => Some ds | None => List.find (entry_address a) l2 end.
Proof. induction l1 as [|d l1 IH]; [done|]. cbn. destruct (entry_address a d); [done|apply IH]. Qed.

Lemma addresses_app l1 l2 : addresses (l1 ++ l2) = addresses l1 ++ addresses l2.
Proof. apply omap_app. Qed.

(** Without one entry, every other address is found as before. *)
Lemma find_without a ds (l1 l2 : list (DataSource W)) :
  address ds ≠ Some a → List.find (entry_address a) (l1 ++ ds :: l2) = List.find (entry_address a) (l1 ++ l2).
Proof.
  intros Hne. rewrite !find_address_app. cbn. unfold entry_address at 2. by rewrite (bool_decide_false _ Hne).
Qed.

Lemma find_own a ds (l1 l2 : list (DataSource W)) :
  NoDup (addresses (l1 ++ ds :: l2)) → address ds = Some a → List.find (entry_address a) (l1 ++ ds :: l2) = Some ds.
Proof.
  intros Hnd Ha. rewrite find_address_app, find_address_none; [cbn; unfold entry_address; by rewrite bool_decide_true|].
  rewrite addresses_app in Hnd. apply NoDup_app in Hnd as (_ & Hd & _). intros Hin. apply (Hd a Hin). cbn. rewrite Ha. by left.
Qed.

Lemma find_in a (l : list (DataSource W)) ds : List.find (entry_address a) l = Some ds → ds ∈ l ∧ address ds = Some a.
Proof. intros [Hin E]%List.find_some. by rewrite list_elem_of_In, (bool_decide_eq_true_1 _ E). Qed.

(** *** Tools of the session *)

Lemma rebuild_tools s : tools (config (rebuild_tool_index s)) = tools (config s).
Proof. done. Qed.

Lemma label_same s s' t :
  (∀ a f, parts_callback t = Some (RemoteParts a f) →
     List.find (entry_address a) (retained_data_sources s') = List.find (entry_address a) (retained_data_sources s)) →
  tool_label s' t = tool_label s t.
Proof. intros Hf. unfold tool_label, server_name. destruct (parts_callback t) as [[f|a f|f]|] eqn:E; [done| |done|done]. by rewrite (Hf a f). Qed.

(** The session of a successful connection. *)
Definition connected_session s (ds : DataSource W) (ts : list (Tool W)) : Session W :=
  rebuild_tool_index (set_retained (set_config_tools s (tools (config s) ++ ts)) (retained_data_sources s ++ [ds])).

Definition server_entry (name : string) (sink : LogLevel → string → W → W) (a : Z) : DataSource W :=
  mkDataSource (entry_name name) (Some (server_query sink a)) (Some (a, sink)).

Lemma starts_entry name : starts_with kDataSourcePrefix (entry_name name) = true.
Proof. unfold entry_name, kDataSourcePrefix, starts_with. cbn. by destruct name. Qed.

Lemma entry_new name sink a : mcp_entry (server_entry name sink a) = Some (a, sink).
Proof. unfold mcp_entry. cbn [server_entry ds_name ds_server]. by rewrite starts_entry. Qed.

Lemma names_new name sink a : bare_name ∘ ds_name <$> List.filter is_mcp_entry [server_entry name sink a] = [name].
Proof. cbn [List.filter]. unfold is_mcp_entry. rewrite entry_new. cbn [fmap list_fmap compose server_entry ds_name]. by rewrite bare_entry. Qed.

Lemma connected_glued s name sink a (rts : list RemoteTool) :
  glued s → a ∉ used_addresses s → name ∉ mcp_server_names s →
  let s' := connected_session s (server_entry name sink a) (remote_tool sink a <$> rts) in
  glued s' ∧ mcp_server_names s' = mcp_server_names s ++ [name] ∧
  (λ t, (tool_label s' t, t)) <$> tools (config s') =
    ((λ t, (tool_label s t, t)) <$> tools (config s)) ++ ((λ t, (Some name, t)) <$> (remote_tool sink a <$> rts)).
Proof.
  intros Hg Ha Hn s'. assert (Er : retained_data_sources s' = retained_data_sources s ++ [server_entry name sink a]) by done.
  assert (Eu : used_addresses s' = used_addresses s ++ [a]) by (by rewrite !used_addresses_eq, Er, addresses_app).
  assert (En : mcp_server_names s' = mcp_server_names s ++ [name]).
  { by rewrite (names_app _ _ _ Er), names_new. }
  split; [|split; [done|]].
  - split.
    + intros ds. rewrite Er, elem_of_app, list_elem_of_singleton. intros [Hd| ->]; [by apply (gl_entries s Hg)|intros _; apply starts_entry].
    + rewrite Eu. apply NoDup_app. split_and!; [apply (gl_addresses s Hg)| |apply NoDup_singleton].
      intros x Hx ->%list_elem_of_singleton. done.
    + rewrite En. apply NoDup_app. split_and!; [apply (gl_names s Hg)| |apply NoDup_singleton].
      intros x Hx ->%list_elem_of_singleton. done.
    + intros t b f. change (tools (config s')) with (tools (config s) ++ (remote_tool sink a <$> rts)).
      rewrite Eu, !elem_of_app, list_elem_of_singleton. intros [Ht|(x & -> & _)%list_elem_of_fmap] Ep.
      * left. by apply (gl_tools s Hg t b f).
      * right. by injection Ep as -> _.
  - change (tools (config s')) with (tools (config s) ++ (remote_tool sink a <$> rts)). rewrite fmap_app. f_equal.
    + apply list_fmap_ext. intros i t Ht. f_equal. apply label_same. intros b f Ep. rewrite Er, find_address_app.
      destruct (find_address_some b (retained_data_sources s)) as [d ->]; [|done]. rewrite <-used_addresses_eq.
      apply (gl_tools s Hg t b f); [|done]. by eapply list_elem_of_lookup_2.
    + rewrite <-!list_fmap_compose. apply list_fmap_ext. intros i x _. unfold compose. f_equal.
      change (server_name s' a = Some name). unfold server_name.
      rewrite Er, find_address_app, find_address_none by (by rewrite <-used_addresses_eq). cbn. unfold entry_address.
      rewrite bool_decide_true by done. cbn. by rewrite bare_entry.
Qed.

(** *** Disconnecting *)

Definition disconnected_session s (a : Z) (rest : list (DataSource W)) : Session W := set_retained (unregister_tools a s) rest.

Lemma names_filter (name : string) (l1 l2 : list string) :
  NoDup (l1 ++ name :: l2) → filter (λ x, x ≠ name) (l1 ++ name :: l2) = l1 ++ l2.
Proof.
  intros Hnd. apply NoDup_app in Hnd as (_ & Hd & [Hn _]%NoDup_cons).
  rewrite filter_app, filter_cons_False by (intros Hne; by apply Hne).
  rewrite !filter_keeps; [done| |]; intros x Hx E; subst; [done|by apply (Hd name Hx); left].
Qed.

Lemma filter_labels (name : string) (l l' : Tool W → option string) (b : Tool W → bool) (ts : list (Tool W)) :
  (∀ t, t ∈ ts → l t = Some name ↔ b t = true) → (∀ t, t ∈ ts → b t = false → l' t = l t) →
  filter (λ p, p.1 ≠ Some name) ((λ t, (l t, t)) <$> ts) = (λ t, (l' t, t)) <$> List.filter (λ t, negb (b t)) ts.
Proof.
  induction ts as [|t ts IH]; intros Hb Hl; [done|]. rewrite fmap_cons. cbn [List.filter].
  assert (Ht : t ∈ t :: ts) by left. specialize (IH (λ x Hx, Hb x (list_elem_of_further _ _ _ Hx)) (λ x Hx, Hl x (list_elem_of_further _ _ _ Hx))).
  destruct (b t) eqn:Eb; cbn [negb].
  - rewrite filter_cons_False by (cbn; intros Hne; by apply Hne, Hb). done.
  - rewrite filter_cons_True, IH by (cbn; rewrite (Hb t Ht), Eb; done). cbn. by rewrite (Hl t Ht Eb).
Qed.

Lemma names_removed s s' name l1 ds l2 :
  NoDup (mcp_server_names s) → retained_data_sources s = l1 ++ ds :: l2 → retained_data_sources s' = l1 ++ l2 →
  ds_name ds = entry_name name → is_mcp_entry ds = true →
  mcp_server_names s' = filter (λ x, x ≠ name) (mcp_server_names s).
Proof.
  intros Hnd Er Er' Hname He.
  assert (En : mcp_server_names s = (bare_name ∘ ds_name <$> List.filter is_mcp_entry l1) ++ name ::
                 (bare_name ∘ ds_name <$> List.filter is_mcp_entry l2)).
  { rewrite (names_app l1 (ds :: l2)) by done. f_equal. cbn [List.filter]. rewrite He. cbn. by rewrite Hname, bare_entry. }
  rewrite (names_app l1 l2), En, names_filter by (done || by rewrite <-En). done.
Qed.

Lemma disconnected_glued s name a sink l1 ds l2 :
  glued s → retained_data_sources s = l1 ++ ds :: l2 → ds_name ds = entry_name name → mcp_entry ds = Some (a, sink) →
  let s' := disconnected_session s a (l1 ++ l2) in
  glued s' ∧ mcp_server_names s' = filter (λ x, x ≠ name) (mcp_server_names s) ∧
  (λ t, (tool_label s' t, t)) <$> tools (config s') =
    filter (λ p, p.1 ≠ Some name) ((λ t, (tool_label s t, t)) <$> tools (config s)).
Proof.
  intros Hg Er Hname He s'. assert (Er' : retained_data_sources s' = l1 ++ l2) by done.
  assert (Ht' : tools (config s') = List.filter (λ t, negb (tool_of a t)) (tools (config s))) by done.
  assert (Ha : address ds = Some a).
  { rewrite (mcp_entry_glued s) in He; [|done|rewrite Er; set_solver]. unfold address. by rewrite He. }
  pose proof (gl_addresses s Hg) as Hnd. rewrite used_addresses_eq, Er in Hnd.
  assert (En' : mcp_server_names s' = filter (λ x, x ≠ name) (mcp_server_names s)).
  { eapply names_removed; [apply (gl_names s Hg)|done|done|done|]. unfold is_mcp_entry. by rewrite He. }
  split; [|split; [done|]].
  - split.
    + intros d Hd. apply (gl_entries s Hg). rewrite Er. rewrite Er' in Hd. set_solver.
    + rewrite used_addresses_eq, Er', addresses_app. rewrite addresses_app in Hnd. cbn in Hnd. rewrite Ha in Hnd.
      eapply sublist_NoDup; [exact Hnd|]. apply sublist_app; [done|by constructor].
    + rewrite En'. apply NoDup_filter, (gl_names s Hg).
    + intros t b f Ht Ep. rewrite Ht' in Ht. apply list_elem_of_In, filter_In in Ht as [Ht%list_elem_of_In Hb].
      pose proof (gl_tools s Hg t b f Ht Ep) as Hin. unfold tool_of in Hb. rewrite Ep in Hb. apply negb_true_iff, Z.eqb_neq in Hb.
      rewrite used_addresses_eq, Er'. rewrite used_addresses_eq, Er in Hin. apply elem_addresses in Hin as (d & Hd & Hda).
      apply elem_addresses. exists d. split; [|done]. apply elem_of_app in Hd as [Hd|[->|Hd]%elem_of_cons]; [set_solver|congruence|set_solver].
  - rewrite Ht'. symmetry. apply filter_labels; intros t Ht; unfold tool_of.
    + unfold tool_label. destruct (parts_callback t) as [[f|b f|f]|] eqn:Ep; [done| |done|done]. unfold server_name.
      destruct (Z.eqb_spec b a) as [->|Hne].
      * rewrite Er, (find_own a) by done. cbn. by rewrite Hname, bare_entry.
      * split; [|done]. rewrite Er, find_without by congruence. intros Hf.
        destruct (List.find (entry_address b) (l1 ++ l2)) as [d|] eqn:Ef; [|done]. cbn in Hf. injection Hf as Hf.
        exfalso. apply find_in in Ef as [Hd Hda].
        assert (Hdn : name ∈ mcp_server_names s').
        { rewrite (names_app l1 l2) by done. rewrite <-fmap_app, <-List.filter_app, <-Hf. apply (list_elem_of_fmap_2 (bare_name ∘ ds_name)).
          apply list_elem_of_In, filter_In. split; [by apply list_elem_of_In|]. unfold is_mcp_entry.
          rewrite (mcp_entry_glued s) by (done || (rewrite Er; set_solver)). unfold address in Hda. by destruct (ds_server d). }
        rewrite En' in Hdn. apply list_elem_of_filter in Hdn as [Hdn _]. done.
    + destruct (parts_callback t) as [[f|b f|f]|] eqn:Ep; intros Hb; apply label_same; rewrite Ep; try done.
      intros ? ? [= <- <-]. rewrite Er, Er'. symmetry. apply find_without. apply Z.eqb_neq in Hb. congruence.
Qed.

(** *** The glue as a whole *)

Lemma session_host {A} (f : W → W * A) rt rt' a : host f rt = (rt', a) → rt_session rt' = rt_session rt.
Proof. unfold host. destruct (f (rt_world rt)). by intros [= <- <-]. Qed.

Lemma session_log level msg rt rt' u : log level msg rt = (rt', u) → rt_session rt' = rt_session rt.
Proof.
  intros E. apply (f_equal (rt_session ∘ fst)) in E. cbn in E. rewrite <-E. unfold log, mbind, M_bind, ask. cbn. destruct (logger _) as [f|]; cbn; destruct (log_file _) as [g|]; done.
Qed.

Lemma session_dropped sink a rt rt' u : drop_server_object sink a rt = (rt', u) → rt_session rt' = rt_session rt.
Proof.
  unfold drop_server_object, host_, mbind, M_bind. destruct (host _ rt) as [rt1 []] eqn:E1. intros E2.
  by rewrite (session_host _ _ _ _ E2), (session_host _ _ _ _ E1).
Qed.

(** The object is gone. *)
Lemma object_dropped sink a rt : server_at (rt_world (drop_server_object sink a rt).1) a = None.
Proof. unfold drop_server_object, host_, mbind, M_bind. destruct (host _ rt) as [rt1 []]. cbn. apply freed_server. Qed.

Lemma connect_outcome cfg rt :
  let s := rt_session rt in
  match connect_server cfg rt with
  | (rt', Fail _) => rt_session rt' = s
  | (rt', Ok ts) =>
      ∃ a rts, (a ∉ used_addresses s) ∧ ts = (remote_tool (session_sink s) a <$> rts) ∧
        existsb (λ ds, is_mcp_entry ds && str_eqb (ds_name ds) (entry_name (mcp_name cfg))) (retained_data_sources s) = false ∧
        rt_session rt' = connected_session s (server_entry (mcp_name cfg) (session_sink s) a) ts
  end.
Proof.
  intros s. unfold connect_server, mbind, M_bind, ask. fold s. cbn [fst snd].
  destruct (valid_server_name _); [|done]. cbn [negb]. destruct (is_empty _); [done|]. destruct (_ <=? 0)%Z; [done|].
  destruct (existsb _ _) eqn:Ee; [done|]. set (a := make_server _ _). unfold host_ at 1.
  destruct (host (λ w, (store_server a _ w, tt)) rt) as [rt1 []] eqn:E1.
  destruct (host (on_server a (start _)) rt1) as [rt2 [[]|e]] eqn:E2.
  all: apply session_host in E1; apply session_host in E2; fold s in E1; rewrite E1 in E2.
  - destruct (List.find _ _) as [t|].
    + destruct (drop_server_object _ _ rt2) as [rt3 []] eqn:E3. apply session_dropped in E3. cbn. by rewrite E3.
    + unfold modify_session, modify. destruct (log _ _ _) as [rt3 []] eqn:E3. cbn.
      exists a, (sv_tools (server_of (rt_world rt2) a)). split_and!; [apply fresh_server|done|done|].
      apply session_log in E3. rewrite E3. cbn. by rewrite E2.
  - destruct (drop_server_object _ _ rt2) as [rt3 []] eqn:E3. apply session_dropped in E3. cbn. by rewrite E3.
Qed.

Lemma disconnect_outcome name rt a sink rest :
  find_entry name (retained_data_sources (rt_session rt)) = Some ((a, sink), rest) →
  let rt' := (disconnect_server name rt).1 in
  rt_session rt' = disconnected_session (rt_session rt) a rest ∧ server_at (rt_world rt') a = None ∧ (disconnect_server name rt).2 = Ok tt.
Proof.
  intros Hf. unfold disconnect_server, mbind, M_bind, ask, modify_session, modify. rewrite Hf. cbn.
  destruct (host _ _) as [rt2 []] eqn:E2. set (rt3 := with_session rt2 _). pose proof (object_dropped sink a rt3) as Hfree.
  destruct (drop_server_object sink a rt3) as [rt4 []] eqn:E4. cbn. split_and!; [|done|done].
  rewrite (session_dropped _ _ _ _ _ E4). unfold rt3, disconnected_session. cbn. f_equal. by rewrite (session_host _ _ _ _ E2).
Qed.

Lemma not_connected name (l : list (DataSource W)) :
  existsb (λ ds, is_mcp_entry ds && str_eqb (ds_name ds) (entry_name name)) l = false →
  name ∉ (bare_name ∘ ds_name <$> List.filter is_mcp_entry l).
Proof.
  intros He (ds & -> & Hin)%list_elem_of_fmap. apply list_elem_of_In, filter_In in Hin as [Hin Hm].
  apply not_true_iff_false in He. apply He, existsb_exists. exists ds. split; [done|]. rewrite Hm. cbn.
  apply str_eqb_true. symmetry. apply entry_bare. unfold is_mcp_entry, mcp_entry in Hm. by destruct (starts_with _ _).
Qed.

Lemma view_labels rt name t : glued (rt_session rt) → (Some name, t) ∈ v_tools (view rt) → name ∈ v_servers (view rt).
Proof.
  intros Hg (t' & [= Hl ->] & Ht)%list_elem_of_fmap. unfold tool_label, server_name in Hl.
  destruct (parts_callback t') as [[f|a f|f]|]; [done| |done|done].
  destruct (List.find _ _) as [ds|] eqn:Ef; [|done]. injection Hl as ->. apply find_in in Ef as [Hd Ha].
  apply (list_elem_of_fmap_2 (bare_name ∘ ds_name)), list_elem_of_In, filter_In. split; [by apply list_elem_of_In|].
  unfold is_mcp_entry. rewrite (mcp_entry_glued (rt_session rt)) by done. unfold address in Ha. by destruct (ds_server ds).
Qed.

Lemma connect_view cfg rt rt' r :
  glued (rt_session rt) → connect_server cfg rt = (rt', r) →
  glued (rt_session rt') ∧
  (match r with
   | Ok ts => (mcp_name cfg ∉ v_servers (view rt)) ∧ view rt' = add_server (view rt) (mcp_name cfg) ts
   | Fail _ => view rt' = view rt
   end).
Proof.
  intros Hg Hc. pose proof (connect_outcome cfg rt) as Ho. rewrite Hc in Ho. cbn in Ho. destruct r as [ts|e].
  - destruct Ho as (a & rts & Ha & -> & He & Hs). apply not_connected in He.
    destruct (connected_glued (rt_session rt) (mcp_name cfg) (session_sink (rt_session rt)) a rts Hg Ha He) as (Hg' & Hn & Ht).
    unfold view. rewrite Hs. split; [done|]. split; [done|]. unfold add_server. cbn [v_servers v_tools]. by rewrite Hn, Ht.
  - unfold view. by rewrite Ho.
Qed.

Lemma disconnect_view name rt :
  glued (rt_session rt) → name ∈ v_servers (view rt) →
  glued (rt_session (disconnect_server name rt).1) ∧ view (disconnect_server name rt).1 = drop_server (view rt) name.
Proof.
  intros Hg Hin. destruct (find_entry_some name _ Hin) as [[[a sink] rest] Hf].
  destruct (disconnect_outcome name rt a sink rest Hf) as [Hs _].
  apply find_entry_spec in Hf as (l1 & ds & l2 & Er & -> & Hname & He).
  destruct (disconnected_glued (rt_session rt) name a sink l1 ds l2 Hg Er Hname He) as (Hg' & Hn & Ht).
  unfold view. rewrite Hs. split; [done|]. unfold drop_server. cbn [v_servers v_tools]. by rewrite Hn, Ht.
Qed.

(** *** Connecting and disconnecting again *)

Lemma find_new_entry name sink a (l : list (DataSource W)) :
  existsb (λ ds, is_mcp_entry ds && str_eqb (ds_name ds) (entry_name name)) l = false →
  find_entry name (l ++ [server_entry name sink a]) = Some ((a, sink), l).
Proof.
  induction l as [|ds l IH]; cbn [existsb app find_entry].
  - intros _. cbn [server_entry ds_name]. rewrite str_eqb_refl, (entry_new name sink a). done.
  - intros [Hd Hl]%orb_false_iff. unfold is_mcp_entry in Hd. rewrite (IH Hl).
    destruct (str_eqb _ _); [|done]. by destruct (mcp_entry ds).
Qed.

Lemma unregister_added a sink (ts : list (Tool W)) (rts : list RemoteTool) :
  (∀ t b f, t ∈ ts → parts_callback t = Some (RemoteParts b f) → b ≠ a) →
  List.filter (λ t, negb (tool_of a t)) (ts ++ (remote_tool sink a <$> rts)) = ts.
Proof.
  intros Hts. rewrite List.filter_app. replace (List.filter _ (_ <$> rts)) with (@nil (Tool W)).
  - rewrite app_nil_r. induction ts as [|t ts IH]; [done|]. cbn [List.filter].
    assert (tool_of a t = false) as ->.
    { unfold tool_of. destruct (parts_callback t) as [[f|b f|f]|] eqn:E; [done| |done|done]. apply Z.eqb_neq. apply (Hts t b f); [by left|done]. }
    cbn [negb]. f_equal. apply IH. intros t' b f Ht'. apply Hts. by right.
  - induction rts as [|x rts IH]; [done|]. cbn. by rewrite Z.eqb_refl.
Qed.

Lemma session_restored s name sink a (rts : list RemoteTool) :
  glued s → a ∉ used_addresses s →
  disconnected_session (connected_session s (server_entry name sink a) (remote_tool sink a <$> rts)) a (retained_data_sources s) =
    rebuild_tool_index s.
Proof.
  intros Hg Ha. unfold disconnected_session, unregister_tools, connected_session.
  cbn [rebuild_tool_index set_tool_index set_retained set_data_sources set_config_tools config tools].
  rewrite unregister_added by (intros t b f Ht Ep ->; by apply Ha, (gl_tools s Hg t a f)).
  by destruct s as [[]].
Qed.

(** The client keeps what the graph loader relies on. *)
#[export] Instance mcp_client_spec : McpSpec W :=
  {| mcp_ok rt := glued (rt_session rt); mcp_view := view; mcp_listed rt _ := eq_refl; mcp_labels := view_labels;
     mcp_connected := connect_view; mcp_disconnected := disconnect_view |}.

End Glue.

(** C35. In a session whose MCP entries, addresses and tools are in order
    ([glued]), disconnecting a server that was just connected succeeds and leaves
    the session as it was, with its tool index rebuilt.  All the tools the
    connection returned run on one server object; that object is freed, and no
    tool the session still has refers to it.  (A copy of such a tool that a
    caller kept must not be called any more.) *)
Theorem connect_disconnect {W : Type} `{McpHostSpec W} `{Host W} `{JsonParser} `{JsonWriter} (cfg : McpServerConfig)
    (rt rt1 rt2 : Rt W) (ts : list (Tool W)) (res : Result unit) :
  glued (rt_session rt) → connect_server cfg rt = (rt1, Ok ts) → disconnect_server (mcp_name cfg) rt1 = (rt2, res) →
  res = Ok tt ∧ rt_session rt2 = rebuild_tool_index (rt_session rt) ∧
  ∃ a, (∀ t, t ∈ ts → tool_of a t = true) ∧ server_at (rt_world rt2) a = None ∧
    ∀ t, t ∈ tools (config (rt_session rt2)) → tool_of a t = false.
Proof.
  intros Hg Hc Hd. pose proof (connect_outcome cfg rt) as Ho. rewrite Hc in Ho. cbn in Ho.
  destruct Ho as (a & rts & Ha & -> & He & Hs). set (sink := session_sink _) in *.
  assert (Hf : find_entry (mcp_name cfg) (retained_data_sources (rt_session rt1)) = Some ((a, sink), retained_data_sources (rt_session rt))).
  { rewrite Hs. by apply find_new_entry. }
  destruct (disconnect_outcome _ _ _ _ _ Hf) as (Hs2 & Hfree & Hres). rewrite Hd in Hs2, Hfree, Hres. cbn in Hs2, Hfree, Hres. split; [done|].
  assert (Hback : rt_session rt2 = rebuild_tool_index (rt_session rt)) by (rewrite Hs2, Hs; by apply session_restored).
  split; [done|]. exists a. split_and!; [|done|].
  - intros t (x & -> & _)%list_elem_of_fmap. cbn. apply Z.eqb_refl.
  - rewrite Hback. intros t Ht. unfold tool_of. destruct (parts_callback t) as [[f|b f|f]|] eqn:Ep; [done| |done|done].
    apply Z.eqb_neq. intros ->. by apply Ha, (gl_tools _ Hg t a f).
Qed.

(** ** Transport *)

(** A log sink that neither reads from a process nor buys time. *)
Definition quiet {W : Type} `{McpHostSpec W} (sink : LogLevel → string → W → W) : Prop :=
  ∀ level msg w, (∀ p, heard p (sink level msg w) = heard p w) ∧ ∀ d, reads_before d (sink level msg w) ≤ reads_before d w.

Section Transport.
Context {W : Type} `{McpHostSpec W} `{Host W} `{JsonParser} `{JsonWriter} (sink : LogLevel → string → W → W) (Hquiet : quiet sink).
Implicit Types (c : Conn W).

(** The line is the response to request [id]. *)
Definition reply_message (id : Z) (line : list Ascii.ascii) (msg : list (string * json)) : Prop :=
  starts_with "{" (of_bytes (trim line)) = true ∧ parse_json (of_bytes (trim line)) = Some (JObj msg) ∧
  message_id msg = Some (JInt id) ∧ field "method" msg ≫= get_string = None.

(** The first response to [id] in a stream, and what follows it. *)
Inductive answered (id : Z) : list Ascii.ascii → list (string * json) → list Ascii.ascii → Prop :=
| answered_here line msg rest :
    chr 10 ∉ line → reply_message id line msg → answered id (line ++ chr 10 :: rest) msg rest
| answered_later line stream msg rest :
    chr 10 ∉ line → (∀ m, ¬ reply_message id line m) → answered id stream msg rest →
    answered id (line ++ chr 10 :: stream) msg rest.

(** No response to [id] in the complete lines; [rest] is the last, open one. *)
Inductive unanswered (id : Z) : list Ascii.ascii → list Ascii.ascii → Prop :=
| unanswered_open rest : chr 10 ∉ rest → unanswered id rest rest
| unanswered_line line stream rest :
    chr 10 ∉ line → (∀ m, ¬ reply_message id line m) → unanswered id stream rest → unanswered id (line ++ chr 10 :: stream) rest.

Lemma answered_more id s msg rest d : answered id s msg rest → answered id (s ++ d) msg (rest ++ d).
Proof. induction 1; rewrite <-app_assoc; cbn; by constructor. Qed.

Lemma unanswered_then id s rest d msg rest' :
  unanswered id s rest → answered id (rest ++ d) msg rest' → answered id (s ++ d) msg rest'.
Proof. induction 1; intros Ha; [done|]. rewrite <-app_assoc. cbn. apply answered_later; auto. Qed.

Lemma break_line_some l line rest : break_line l = Some (line, rest) → l = line ++ chr 10 :: rest ∧ chr 10 ∉ line.
Proof.
  revert line. induction l as [|c l IH]; intros line; [done|]. cbn. case_bool_decide as E.
  - intros [= <- <-]. subst. split; [done|apply not_elem_of_nil].
  - destruct (break_line l) as [[line' rest']|]; [|done]. intros [= <- <-]. destruct (IH line' eq_refl) as [-> Hn].
    split; [done|]. apply not_elem_of_cons. split; [congruence|done].
Qed.

Lemma break_line_none l : break_line l = None → chr 10 ∉ l.
Proof.
  induction l as [|c l IH]; [intros _; apply not_elem_of_nil|]. cbn. case_bool_decide as E; [done|].
  destruct (break_line l) as [[]|]; [done|]. intros _. apply not_elem_of_cons. split; [congruence|by apply IH].
Qed.

(** *** What the parts of the loop leave alone *)

Definition calm c c' : Prop :=
  (∀ p, heard p (c_world c') = heard p (c_world c)) ∧ (∀ d, reads_before d (c_world c') ≤ reads_before d (c_world c)) ∧
  stdout_buf (c_server c') = stdout_buf (c_server c) ∧ sv_config (c_server c') = sv_config (c_server c).

#[local] Instance calm_preorder : PreOrder calm.
Proof.
  split; [intros c; split_and!; done|]. intros c1 c2 c3 (Hh & Hr & Hb & Hc) (Hh' & Hr' & Hb' & Hc'). split_and!; [|intros d|congruence|congruence].
  - intros p. by rewrite Hh', Hh.
  - etrans; [apply Hr'|apply Hr].
Qed.

(** [m] is calm from every state. *)
Definition keeps_calm {A} (m : Net W A) : Prop := ∀ c, calm c (m c).1.

Lemma calm_ret {A} (a : A) : keeps_calm (mret a).
Proof. intros c. cbn. reflexivity. Qed.

Lemma calm_bind {A B} (m : Net W A) (k : A → Net W B) : keeps_calm m → (∀ a, keeps_calm (k a)) → keeps_calm (m ≫= k).
Proof.
  intros Hm Hk c. unfold mbind, Net_bind. specialize (Hm c). destruct (m c) as [c' a]. cbn in Hm. transitivity c'; [done|apply Hk].
Qed.

Lemma calm_this {A} (f : McpServer → A) : keeps_calm (this f).
Proof. intros c. cbn. reflexivity. Qed.

Lemma calm_update f : (∀ s, stdout_buf (f s) = stdout_buf s ∧ sv_config (f s) = sv_config s) → keeps_calm (update f).
Proof. intros Hf c. destruct (Hf (c_server c)). by split_and!. Qed.

Lemma calm_call {A} (f : W → W * A) :
  (∀ w, (∀ p, heard p (f w).1 = heard p w) ∧ ∀ d, reads_before d (f w).1 ≤ reads_before d w) → keeps_calm (call f).
Proof. intros Hf c. unfold call. specialize (Hf (c_world c)). destruct (f (c_world c)) as [w a]. destruct Hf. by split_and!. Qed.

Lemma calm_log level msg : keeps_calm (write_log sink level msg).
Proof. apply calm_call. intros w. apply Hquiet. Qed.

Ltac calm_step :=
  lazymatch goal with
  | |- keeps_calm (mret _) => apply calm_ret
  | |- keeps_calm (this _) => apply calm_this
  | |- keeps_calm (write_log _ _ _) => apply calm_log
  | |- keeps_calm (update _) => apply calm_update; done
  | |- keeps_calm (_ ≫= _) => apply calm_bind; [|intros ?]
  | |- keeps_calm (match ?x with _ => _ end) => destruct x
  | |- keeps_calm (let '(_, _) := ?x in _) => destruct x
  end.
Ltac calm := repeat first [calm_step | by eauto].

Lemma calm_dead {A} reason : keeps_calm (mark_dead reason : Net W (Result A)).
Proof. unfold mark_dead. calm. Qed.

Lemma calm_exit p : keeps_calm (exit_details p).
Proof.
  unfold exit_details. calm. apply calm_call. intros w. split; [intros q; apply await_heard|intros d; apply await_reads].
Qed.

#[local] Hint Resolve calm_dead calm_exit : core.

Lemma calm_send p line : keeps_calm (send_line p line).
Proof.
  unfold send_line. calm. apply calm_call. intros w. split; [intros q; apply write_heard|intros d; apply write_reads].
Qed.

#[local] Hint Resolve calm_send : core.

Lemma calm_answer p method id : keeps_calm (answer_server_request p method id).
Proof. unfold answer_server_request. calm. Qed.

Lemma calm_notify p method params : keeps_calm (notify p method params).
Proof. unfold notify. calm. Qed.

#[local] Hint Resolve calm_answer calm_notify : core.

Lemma calm_line p method id raw : keeps_calm (on_line sink p method id raw).
Proof. unfold on_line. calm. Qed.

Lemma calm_timeout p method id : keeps_calm (on_timeout p method id).
Proof. unfold on_timeout. calm. Qed.

Lemma calm_broken p method what : keeps_calm (broken_pipe p method what).
Proof. unfold broken_pipe. calm. Qed.

(** *** The loop *)

(** A failure that is not the server's answer. *)
Definition no_answer (r : Result json) : Prop := ∃ e, r = Fail e ∧ code e ≠ HttpError.

Lemma line_result p method id raw c :
  (id ≤ 9223372036854775807)%Z →
  match (on_line sink p method id raw c).2 with
  | Some r => (∃ msg, reply_message id raw msg ∧ r = read_reply (prefix (c_server c)) method msg) ∨ no_answer r
  | None => ∀ msg, ¬ reply_message id raw msg
  end.
Proof.
  intros Hid. unfold on_line, reply_message, mbind, Net_bind, this. cbn [fst snd]. set (text := of_bytes (trim raw)).
  destruct (is_empty text) eqn:Et; [apply is_empty_true in Et; rewrite Et; by intros msg (? & _)|].
  destruct (starts_with "{" text) eqn:Es; cbn [negb]; [|by intros msg (? & _)].
  destruct (parse_json text) as [j|] eqn:Ep; cbn [option_bind]; [|right; by eexists].
  destruct (get_object j) as [msg|] eqn:Eo; [|right; by eexists].
  assert (j = JObj msg) as -> by (by destruct j; simplify_eq/=). clear Eo.
  destruct (option_bind _ _ get_string (field "method" msg)) as [inbound|] eqn:Em.
  - match goal with |- context [let '(_, _) := ?m in _] => destruct m as [c' []] end. cbn.
    intros m (_ & [= <-] & _ & Hm). congruence.
  - destruct (message_id msg) as [el|] eqn:Ei; cbn [option_bind]; [|by intros m (_ & [= <-] & Hm & _); congruence].
    destruct (get_i64 el) as [got|] eqn:Eg.
    + destruct el as [z| | | | |]; try done. cbn in Eg. destruct (z <=? _)%Z; [|done]. injection Eg as ->.
      destruct (Z.eqb_spec got id) as [->|Hne]; cbn; [left; by exists msg|]. intros m (_ & [= <-] & Hm & _). congruence.
    + cbn. intros m (_ & [= <-] & Hm & _). rewrite Ei in Hm. injection Hm as ->. cbn in Eg. by rewrite (proj2 (Z.leb_le _ _) Hid) in Eg.
Qed.

(** Lines are taken from the buffer. *)
Definition consumed c c' : Prop :=
  (∀ p, heard p (c_world c') = heard p (c_world c)) ∧ (∀ d, reads_before d (c_world c') ≤ reads_before d (c_world c)) ∧
  sv_config (c_server c') = sv_config (c_server c).

#[local] Instance consumed_preorder : PreOrder consumed.
Proof.
  split; [intros c; split_and!; done|]. intros c1 c2 c3 (Hh & Hr & Hc) (Hh' & Hr' & Hc'). split_and!; [|intros d|congruence].
  - intros p. by rewrite Hh', Hh.
  - etrans; [apply Hr'|apply Hr].
Qed.

Lemma calm_consumed c c' : calm c c' → consumed c c'.
Proof. intros (? & ? & _ & ?). by split_and!. Qed.

Lemma prefix_config (s s' : McpServer) : sv_config s' = sv_config s → prefix s' = prefix s.
Proof. unfold prefix. by intros ->. Qed.

Lemma lines_result n p method id c :
  (id ≤ 9223372036854775807)%Z → length (stdout_buf (c_server c)) < n →
  let '(c', r) := on_lines sink n p method id c in
  consumed c c' ∧
  match r with
  | Some r => (∃ msg, answered id (stdout_buf (c_server c)) msg (stdout_buf (c_server c')) ∧
                      r = read_reply (prefix (c_server c)) method msg) ∨ no_answer r
  | None => unanswered id (stdout_buf (c_server c)) (stdout_buf (c_server c'))
  end.
Proof.
  intros Hid. revert c. induction n as [|n IH]; intros c Hn; [lia|]. cbn [on_lines]. unfold mbind, Net_bind, this, update.
  destruct (break_line (stdout_buf (c_server c))) as [[raw rest]|] eqn:Eb.
  2:{ cbn. split; [reflexivity|]. apply unanswered_open. by apply break_line_none. }
  apply break_line_some in Eb as [Eb Hraw]. set (c1 := mkConn _ _).
  pose proof (line_result p method id raw c1 Hid) as Hl. pose proof (calm_line p method id raw c1) as Hc1.
  destruct (on_line sink p method id raw c1) as [c2 r]. cbn [fst snd] in *. destruct Hc1 as (Hh & Hr & Hb & Hc).
  assert (Hc2 : consumed c c2) by (by split_and!). change (stdout_buf (c_server c1)) with rest in Hb.
  change (prefix (c_server c1)) with (prefix (c_server c)) in Hl. rewrite Eb. destruct r as [r|].
  - cbn. split; [done|]. destruct Hl as [(msg & Hm & ->)|Hn']; [left|by right]. exists msg. rewrite Hb. split; [by constructor|done].
  - specialize (IH c2). rewrite Hb in IH. destruct (on_lines sink n p method id c2) as [c3 r].
    destruct IH as [Hc3 Hr3]. { rewrite Eb, length_app in Hn. cbn in Hn. lia. }
    rewrite (prefix_config (c_server c) (c_server c2) Hc) in Hr3. split; [by transitivity c2|]. destruct r as [r|].
    + destruct Hr3 as [(msg & Hm & ->)|Hn']; [left|by right]. exists msg. split; [by apply answered_later|done].
    + by apply unanswered_line.
Qed.

Lemma broken_no_answer p method what c : no_answer (broken_pipe p method what c).2.
Proof.
  unfold broken_pipe, mbind, Net_bind, this, mark_dead. destruct (exit_details p c) as [c1 details]. by eexists.
Qed.

Lemma timeout_no_answer p method id c : no_answer (on_timeout p method id c).2.
Proof. unfold on_timeout, mbind, Net_bind, this. destruct (notify _ _ _ c) as [c1 r]. by eexists. Qed.

(** The outcome of the loop: an answer in the stream, or none. *)
Definition outcome (p : Z) (method : string) (id : Z) c c' (r : Result json) : Prop :=
  (∃ d msg, heard p (c_world c') = heard p (c_world c) ++ d ∧
     answered id (stdout_buf (c_server c) ++ d) msg (stdout_buf (c_server c')) ∧
     r = read_reply (prefix (c_server c)) method msg) ∨ no_answer r.

(** A chunk of the stream arrives after the lines before it were read. *)
Lemma outcome_later p method id c c1 c2 c' d r :
  heard p (c_world c1) = heard p (c_world c) → sv_config (c_server c1) = sv_config (c_server c) →
  unanswered id (stdout_buf (c_server c)) (stdout_buf (c_server c1)) →
  heard p (c_world c2) = heard p (c_world c1) ++ d → stdout_buf (c_server c2) = stdout_buf (c_server c1) ++ d →
  sv_config (c_server c2) = sv_config (c_server c1) →
  outcome p method id c2 c' r → outcome p method id c c' r.
Proof.
  intros Hh Hc Hu Hh2 Hb2 Hc2 [(d' & msg & Hd & Ha & ->)|Hn]; [left|by right]. exists (d ++ d'), msg. split_and!.
  - by rewrite Hd, Hh2, Hh, app_assoc.
  - eapply unanswered_then; [exact Hu|]. by rewrite app_assoc, <-Hb2.
  - by rewrite (prefix_config (c_server c1) (c_server c2)), (prefix_config (c_server c) (c_server c1)).
Qed.

Lemma await_outcome n p method id deadline c :
  (id ≤ 9223372036854775807)%Z →
  let '(c', r) := await_reply sink n p method id deadline c in outcome p method id c c' r.
Proof.
  intros Hid. revert c. induction n as [|n IH]; intros c; cbn [await_reply]; unfold mbind, Net_bind, this.
  all: pose proof (lines_result (S (length (stdout_buf (c_server c)))) p method id c Hid (Nat.lt_succ_diag_r _)) as Hl.
  all: destruct (on_lines _ _ _ _ _ c) as [c1 [r|]]; destruct Hl as [(Hh & _ & Hcfg) Hl].
  1,3: destruct Hl as [(msg & Hm & ->)|?]; [left; exists [], msg; by rewrite !app_nil_r|by right].
  all: destruct (kMaxLineBytes <? _)%Z; [by right; eexists|].
  all: pose proof (clock_heard p (c_world c1)) as Ht; unfold call; destruct (steady_now (c_world c1)) as [w2 now]; cbn [fst] in Ht.
  all: destruct (_ <=? 0)%Z; [match goal with |- context [on_timeout _ _ _ ?x] => pose proof (timeout_no_answer p method id x) end;
    destruct (on_timeout _ _ _ _); by right|].
  { match goal with |- context [on_timeout _ _ _ ?x] => pose proof (timeout_no_answer p method id x) end.
    destruct (on_timeout _ _ _ _); by right. }
  cbn [c_world c_server]. set (left_ms := i32 _). pose proof (read_heard p left_ms w2) as Hr.
  destruct (read_stdout p left_ms w2) as [w3 r]. cbn [fst snd] in Hr. rewrite Ht in Hr.
  destruct r as [b| | |].
  - unfold update. cbn [c_world c_server]. set (c3 := mkConn _ _). specialize (IH c3). destruct (await_reply _ _ _ _ _ _ c3) as [c' r].
    by apply (outcome_later p method id c c1 c3 c' b r).
  - set (c3 := mkConn _ _). specialize (IH c3). destruct (await_reply _ _ _ _ _ _ c3) as [c' r].
    apply (outcome_later p method id c c1 c3 c' [] r); try done; cbn; by rewrite app_nil_r.
  - match goal with |- context [broken_pipe _ _ _ ?x] => pose proof (broken_no_answer p method " exited" x) end.
    destruct (broken_pipe _ _ _ _). by right.
  - match goal with |- context [broken_pipe _ _ _ ?x] => pose proof (broken_no_answer p method " stdout read failed" x) end.
    destruct (broken_pipe _ _ _ _). by right.
Qed.

(** *** The bound on the reads *)

Lemma quot_pos x : (0 < Z.quot x 1000000)%Z → (0 < x)%Z.
Proof. intros Hx. Z.to_euclidean_division_equations; lia. Qed.

Lemma await_enough n m p method id deadline c :
  (id ≤ 9223372036854775807)%Z → reads_before deadline (c_world c) ≤ n → reads_before deadline (c_world c) ≤ m →
  await_reply sink n p method id deadline c = await_reply sink m p method id deadline c.
Proof.
  intros Hid. revert m c. induction n as [|n IH]; intros m c Hn Hm; destruct m as [|m]; [done| | |]; cbn [await_reply]; unfold mbind, Net_bind, this.
  all: pose proof (lines_result (S (length (stdout_buf (c_server c)))) p method id c Hid (Nat.lt_succ_diag_r _)) as Hl.
  all: destruct (on_lines _ _ _ _ _ c) as [c1 [r|]]; [done|]; destruct Hl as [(_ & Hr & _) _]; specialize (Hr deadline).
  all: destruct (kMaxLineBytes <? _)%Z; [done|].
  all: unfold call; pose proof (λ t, read_reads deadline p t (c_world c1)) as Hlt; destruct (steady_now (c_world c1)) as [w2 now]; cbn [fst snd] in Hlt.
  all: destruct (_ <=? 0)%Z eqn:Eleft; [done|].
  all: assert (Hnow : (now < deadline)%Z) by (apply Z.leb_gt, quot_pos in Eleft; lia).
  all: cbn [c_world c_server]; specialize (Hlt (i32 (Z.quot (deadline - now) 1000000)) Hnow).
  1,2: lia.
  destruct (read_stdout p _ w2) as [w3 r]. cbn [fst] in Hlt. destruct r as [b| | |]; [| |done|done].
  - unfold update. apply IH; cbn; lia.
  - apply IH; cbn; lia.
Qed.

Lemma request_outcome p method params c :
  (next_id (c_server c) ≤ 9223372036854775807)%Z →
  let '(c', r) := request sink p method params c in outcome p method (next_id (c_server c)) c c' r.
Proof.
  intros Hid. unfold request, mbind, Net_bind, this. cbn [fst snd]. destruct (dead_reason (c_server c)); [by right; eexists|].
  unfold update. set (c1 := mkConn _ _). set (line := request_line _ _ _).
  pose proof (calm_send p line c1) as (Hh & _ & Hb & Hc). destruct (send_line p line c1) as [c2 [[]|e]] eqn:Es; cbn [fst] in Hh, Hb, Hc.
  - unfold call. pose proof (clock_heard p (c_world c2)) as Ht. destruct (steady_now (c_world c2)) as [w3 now]. cbn [c_world c_server fst] in *.
    set (c3 := mkConn w3 _). pose proof (await_outcome (reads_before (now + mcp_timeout_ms (sv_config (c_server c)) * 1000000) w3) p method
      (next_id (c_server c)) (now + mcp_timeout_ms (sv_config (c_server c)) * 1000000) c3 Hid) as Ho.
    destruct (await_reply _ _ _ _ _ _ c3) as [c' r]. destruct Ho as [(d & msg & Hd & Ha & ->)|?]; [left|by right].
    exists d, msg. cbn in Hd, Ha. rewrite Ht, Hh in Hd. rewrite Hb in Ha. split_and!; [done|done|]. f_equal. by apply prefix_config.
  - right. unfold send_line, mbind, Net_bind in Es. destruct (call _ c1) as [c4 [[]|e']]; [done|].
    destruct (exit_details p c4) as [c5 details]. unfold this, mark_dead in Es. cbn in Es. injection Es as <- <-. by eexists.
Qed.

End Transport.

(** C34. What [request] returns as the server's answer, a result or an error,
    is the first line after those already read that responds to this very
    request: lines that are blank, no JSON object, notifications, requests of
    the server or responses to other ids are passed over, what follows the
    line stays in the buffer for the next request, and how the pipe cut the
    text into reads does not matter.  Failures of the transport never carry
    the code that stands for an answer of the server. *)
Theorem request_answer {W : Type} `{McpHostSpec W} `{Host W} `{JsonParser} `{JsonWriter} (sink : LogLevel → string → W → W)
    (p : Z) (method params : string) (c c' : Conn W) (r : Result json) :
  quiet sink → (next_id (c_server c) ≤ 9223372036854775807)%Z → request sink p method params c = (c', r) →
  (is_ok r = true ∨ ∃ e, r = Fail e ∧ code e = HttpError) →
  ∃ d msg,
    heard p (c_world c') = heard p (c_world c) ++ d ∧
    answered (next_id (c_server c)) (stdout_buf (c_server c) ++ d) msg (stdout_buf (c_server c')) ∧
    r = read_reply (prefix (c_server c)) method msg.
Proof.
  intros Hq Hid Hr Hans. pose proof (request_outcome sink Hq p method params c Hid) as Ho. rewrite Hr in Ho.
  destruct Ho as [Ho|(e & -> & Hne)]; [done|]. destruct Hans as [|(e' & [= ->] & ?)]; done.
Qed.

(** The loop of [request] is ended by an answer, the deadline or the pipe:
    with any bound of at least the reads that can complete before the deadline
    it gives the same outcome, so that none is cut short. *)
Theorem request_loop_ends {W : Type} `{McpHostSpec W} `{Host W} `{JsonParser} `{JsonWriter} (sink : LogLevel → string → W → W)
    (n : nat) (p : Z) (method : string) (id deadline : Z) (c : Conn W) :
  quiet sink → (id ≤ 9223372036854775807)%Z → reads_before deadline (c_world c) ≤ n →
  await_reply sink n p method id deadline c = await_reply sink (reads_before deadline (c_world c)) p method id deadline c.
Proof. intros Hq Hid Hn. by apply await_enough. Qed.

(** ** The stderr thread *)

(** What the reads deliver up to the end of the stream. *)
Fixpoint received (reads : list PipeRead) : list Ascii.ascii :=
  match reads with
  | Data b :: rest => b ++ received rest
  | Timeout :: rest => received rest
  | _ => []
  end.

Lemma clip_tail_drop l : clip_tail l = drop (length l - kStderrTailBytes) l.
Proof.
  unfold clip_tail. destruct (Nat.ltb_spec kStderrTailBytes (length l)); [done|]. by replace (length l - kStderrTailBytes) with 0 by lia.
Qed.

Lemma clip_tail_app l b : clip_tail (clip_tail l ++ b) = clip_tail (l ++ b).
Proof.
  rewrite !clip_tail_drop, !length_app, length_drop. set (n := length l - kStderrTailBytes).
  assert (Hn : n ≤ length l) by lia. rewrite <-(drop_app_le l b n Hn), drop_drop. f_equal. lia.
Qed.

Lemma flush_tail name all d : dr_tail (flush name all d) = dr_tail d.
Proof. unfold flush. destruct (flush_lines _ _ _) as [buf out]. by destruct all. Qed.

(** However the text is cut into reads, [stderr_tail_] is its last bytes:
    what [exit_details] takes from it. *)
Lemma drain_tail name reads : dr_tail (drain_stderr name reads) = clip_tail (received reads).
Proof.
  assert (Hr : ∀ d x, dr_tail d = clip_tail x → dr_tail (drain_reads name reads d) = clip_tail (x ++ received reads)).
  { induction reads as [|[b| | |] reads IH]; intros d x Hd; cbn [drain_reads received]; rewrite ?app_nil_r; [done| | |done|done].
    - rewrite app_assoc. apply IH. destruct (_ <? _)%Z; rewrite ?flush_tail; cbn; by rewrite Hd, clip_tail_app.
    - by apply IH. }
  unfold drain_stderr. rewrite flush_tail. by rewrite (Hr _ []).
Qed.

(** ** A host on which servers play a script

    Whatever it is sent, a process writes the next chunk of the script when it
    is read; a read takes ten seconds. *)

Module McpSample.

Record World := mkWorld { servers : gmap Z McpServer; script : list string; told : list Ascii.ascii; clock : Z }.

Definition a_config : McpServerConfig := mkMcpServerConfig "demo" "demo-server" [] ∅ 60000 "" default_sandbox.

Definition read_script (w : World) : World * PipeRead :=
  match script w with
  | [] => (mkWorld (servers w) [] (told w) (clock w + 10000000000), Closed)
  | chunk :: rest => (mkWorld (servers w) rest (told w ++ bytes chunk) (clock w + 10000000000), Data (bytes chunk))
  end.

Definition no_files : Files := mkFiles Some Some (λ _, false) (λ _, false) (λ _, false) "".

#[export] Instance script_host : McpHost World := {|
  server_at w a := servers w !! a;
  stale_server _ _ := new_server a_config "";
  store_server a s w := mkWorld (<[a := s]> (servers w)) (script w) (told w) (clock w);
  free_server a w := mkWorld (delete a (servers w)) (script w) (told w) (clock w);
  make_server used w := (foldr Z.max 0 used + 1)%Z;
  spawn_child _ w := (w, Ok (1%Z, []));
  write_stdin _ _ w := (w, Ok tt);
  read_stdout _ _ w := read_script w;
  await_exit _ w := (w, (Some 0%Z, []));
  terminate _ _ w := (w, 0%Z);
  steady_now w := (w, clock w);
  reads_before d w := Z.to_nat ((d - clock w + 9999999999) / 10000000000);
  files _ := no_files;
  create_directories _ w := w;
  write_file _ _ w := (w, true)
|}.

Lemma read_script_heard w :
  told (read_script w).1 = told w ++ (match (read_script w).2 with Data b => b | _ => [] end).
Proof. unfold read_script. destruct (script w); cbn; by rewrite ?app_nil_r. Qed.

Lemma read_script_clock w : clock (read_script w).1 = (clock w + 10000000000)%Z.
Proof. unfold read_script. by destruct (script w). Qed.

Lemma above_all (used : list Z) : (foldr Z.max 0 used + 1)%Z ∉ used.
Proof.
  assert (Hle : ∀ x, x ∈ used → (x ≤ foldr Z.max 0 used)%Z).
  { induction used as [|y used IH]; intros x; [by intros ?%elem_of_nil|]. rewrite elem_of_cons. cbn. intros [->|Hx]; [lia|].
    specialize (IH x Hx). lia. }
  intros Hin%Hle. lia.
Qed.

Lemma fewer_reads d t : (t < d)%Z →
  Z.to_nat ((d - (t + 10000000000) + 9999999999) / 10000000000) < Z.to_nat ((d - t + 9999999999) / 10000000000).
Proof. intros Ht. apply Z2Nat.inj_lt; Z.to_euclidean_division_equations; lia. Qed.

#[export] Instance script_host_spec : McpHostSpec World.
Proof.
  refine {| heard _ w := told w |}; try done.
  - intros p t w. apply read_script_heard.
  - intros d p t w Hd. cbn in *. rewrite read_script_clock. by apply fewer_reads.
  - intros a s w. cbn. by rewrite lookup_insert_eq.
  - intros a w. cbn. by rewrite lookup_delete_eq.
  - intros a b w Hne. cbn. by rewrite lookup_delete_ne.
  - intros used w. apply above_all.
Defined.

#[export] Instance script_clock : Host World :=
  {| now_ms w := (w, 0%Z); new_char _ := 1048576%Z; absolute_path _ p := Some ("/" +:+ p) |}.

#[export] Instance writer : JsonWriter := render.
#[export] Instance reader : JsonParser := RefParser.parser.

(** A banner, a notification, the handshake cut in two, and the tools. *)
Definition handshake : string :=
  render (JObj [("jsonrpc", JStr "2.0"); ("id", JInt 1); ("result", JObj [("capabilities", JObj [("tools", JObj [])])])]).
Definition tool_list : string :=
  render (JObj [("jsonrpc", JStr "2.0"); ("id", JInt 2); ("result", JObj [("tools", JArr [JObj [("name", JStr "echo")]])])]).
Definition progress : string := render (JObj [("jsonrpc", JStr "2.0"); ("method", JStr "notifications/progress")]).

Definition lines : list string :=
  ["demo 1.0" +:+ nl +:+ progress +:+ nl +:+ of_bytes (take 20 (bytes handshake));
   of_bytes (drop 20 (bytes handshake)) +:+ nl +:+ tool_list +:+ nl].

Definition world : World := mkWorld ∅ lines [] 0.

Definition session : Session World :=
  mkSession (mkConfig Mock "" "" "" "" None [] 4096 512 10 4 None None None 0) (Arena_new 4096 65536) [] [] None (Some ∅)
    no_session_stats ∅ "" "" ∅ None 0 ∅ [].

Definition rt : Rt World := mkRt session world (mkAmbient None [] [] 0 false false false (Arena_new 1048576 0)) [] None.

Example connects : tool_name <$> (match (connect_server a_config rt).2 with Ok ts => ts | Fail _ => [] end) = ["demo.echo"].
Proof. vm_compute. reflexivity. Qed.

Lemma nothing_connected : glued session.
Proof.
  split.
  - by intros ds ?%elem_of_nil.
  - constructor.
  - constructor.
  - by intros t a f ?%elem_of_nil.
Qed.

Definition still : LogLevel → string → World → World := λ _ _ w, w.

Lemma still_quiet : quiet still.
Proof. intros level msg w. by split. Qed.

(** The state in which the handshake is sent. *)
Definition conn : Conn World := mkConn world (set_process (new_server a_config "") (Some 1%Z)).

(** A graph that needs the tools [demo.echo] and [demo.missing]. *)
Definition graph_file : string := GraphFile.text (
  "{'mcp_servers':[{'name':'demo','command':'demo-server'}]," +:+
  "'nodes':[{'name':'a','kind':'tool','tool':'demo.echo'},{'name':'b','kind':'tool','tool':'demo.missing'}]," +:+
  "'edges':[{'from':'a','to':'b'}]}").

End McpSample.

#[local] Existing Instances McpSample.script_host McpSample.script_host_spec McpSample.script_clock McpSample.writer McpSample.reader.

Lemma connect_disconnect_witness :
  (disconnect_server "demo" (connect_server McpSample.a_config McpSample.rt).1).2 = Ok tt.
Proof.
  destruct (connect_server McpSample.a_config McpSample.rt) as [rt1 [ts|e]] eqn:Ec.
  - destruct (disconnect_server "demo" rt1) as [rt2 res] eqn:Ed.
    destruct (connect_disconnect McpSample.a_config McpSample.rt rt1 rt2 ts res) as [Hres _].
    + exact McpSample.nothing_connected.
    + exact Ec.
    + exact Ed.
    + cbn. by rewrite Ed.
  - exfalso. assert (Hok : is_ok (connect_server McpSample.a_config McpSample.rt).2 = true) by (vm_compute; reflexivity).
    rewrite Ec in Hok. discriminate Hok.
Defined.

Lemma request_answer_witness :
  ∃ d msg, answered 1 d msg (bytes (McpSample.tool_list +:+ nl)) ∧ field "id" msg = Some (JInt 1).
Proof.
  destruct (request McpSample.still 1 "initialize" init_params McpSample.conn) as [c' r] eqn:Er.
  assert (Hok : is_ok (request McpSample.still 1 "initialize" init_params McpSample.conn).2 = true) by (vm_compute; reflexivity).
  assert (Hbuf : stdout_buf (c_server (request McpSample.still 1 "initialize" init_params McpSample.conn).1) =
                   bytes (McpSample.tool_list +:+ nl)) by (vm_compute; reflexivity).
  rewrite Er in Hok, Hbuf. cbn [fst snd] in Hok, Hbuf.
  destruct (request_answer McpSample.still 1 "initialize" init_params McpSample.conn c' r) as (d & msg & _ & Ha & _).
  - exact McpSample.still_quiet.
  - vm_compute. discriminate.
  - exact Er.
  - by left.
  - rewrite Hbuf in Ha. exists d, msg. split; [exact Ha|].
    clear -Ha. change (stdout_buf (c_server McpSample.conn) ++ d) with d in Ha. change (next_id (c_server McpSample.conn)) with 1%Z in Ha.
    induction Ha as [line msg rest _ (_ & _ & Hm & _)|]; [|done]. unfold message_id in Hm.
    destruct (field "id" msg) as [el|]; [|done]. destruct (is_null el); [done|]. congruence.
Defined.

Lemma request_loop_ends_witness :
  await_reply McpSample.still 9 1 "initialize" 1 60000000000 McpSample.conn =
  await_reply McpSample.still (reads_before 60000000000 (c_world McpSample.conn)) 1 "initialize" 1 60000000000 McpSample.conn.
Proof.
  apply (request_loop_ends McpSample.still 9 1 "initialize" 1 60000000000 McpSample.conn).
  - exact McpSample.still_quiet.
  - vm_compute. discriminate.
  - vm_compute. repeat constructor.
Defined.

(** The server is connected, a tool is missing, and the server is gone again. *)
Lemma failed_load_rolls_back_witness :
  let rt' := (load_graph_json ∅ GraphFile.src McpSample.graph_file McpSample.rt).1 in
  mcp_view rt' = mcp_view McpSample.rt ∧ list_mcp_servers (rt_session rt') = [] ∧ McpSample.clock (rt_world rt') = 20000000000%Z.
Proof.
  intros rt'. assert (Ht : McpSample.clock (rt_world rt') = 20000000000%Z) by (vm_compute; reflexivity).
  assert (Hfail : match (load_graph_json ∅ GraphFile.src McpSample.graph_file McpSample.rt).2 with
                  | Some r => is_ok r | None => true end = false) by (vm_compute; reflexivity).
  destruct (load_graph_json ∅ GraphFile.src McpSample.graph_file McpSample.rt) as [rt1 res] eqn:El.
  destruct (failed_load_rolls_back ∅ GraphFile.src McpSample.graph_file McpSample.rt rt1 res) as (r & -> & Hr).
  - exact McpSample.nothing_connected.
  - exact El.
  - destruct (Hr Hfail) as [Hv Hl]. split; [exact Hv|]. split; [exact Hl|exact Ht].
Defined.
