(* ===== verification/McpWire.v ===== *)
(** * The MCP client: text on the wire

    Requests are single lines that a JSON reader takes back apart, and base64
    content decodes to the bytes that were encoded. *)
From stdpp Require Import base gmap strings list pretty.
From Stdlib Require Import Lia ZArith.
From S2P Require Import Prelude Text Decimal Json History Mcp.

(** ** Requests on the wire *)

Lemma escape_no_nl (l : list Ascii.ascii) : chr 10 ∉ escape_bytes l.
Proof.
  assert (Hone : ∀ c, chr 10 ∉ escape_char c).
  { intros c. apply (bool_decide_unpack (chr 10 ∉ escape_char c)). destruct c as [[] [] [] [] [] [] [] []]; vm_compute; exact I. }
  induction l as [|c l IH]; [apply not_elem_of_nil|]. unfold escape_bytes in *. cbn [map concat]. rewrite elem_of_app.
  intros [?|?]; [by apply (Hone c)|done].
Qed.

Lemma quoted_no_nl (s : string) : chr 10 ∉ bytes (quoted s).
Proof.
  rewrite bytes_quoted. unfold in_quotes. rewrite elem_of_cons, elem_of_app, list_elem_of_singleton.
  intros [?|[?|?]]; [done|by eapply escape_no_nl|done].
Qed.

Lemma join_no_nl (l : list string) : Forall (λ p, chr 10 ∉ bytes p) l → chr 10 ∉ bytes (join_comma l).
Proof.
  induction 1 as [|p l Hp Hl IH]; [apply not_elem_of_nil|]. destruct l as [|p' l]; [done|].
  rewrite join_comma_cons, !bytes_app, !elem_of_app. intros [?|[?|?]]; [done| |done]. by apply list_elem_of_singleton in H.
Qed.

Lemma render_no_nl (j : json) : json_ok j → chr 10 ∉ bytes (render j).
Proof.
  induction j as [z|s|l IH|fs IH|b|t] using json_nested_ind; cbn [json_ok render]; intros Hok; [| | | | |done].
  - by apply to_string_avoids.
  - apply quoted_no_nl.
  - rewrite !bytes_app, !elem_of_app. intros [?|[Hin|?]]; [by apply list_elem_of_singleton in H| |by apply list_elem_of_singleton in H].
    revert Hin. apply join_no_nl, Forall_map. induction IH as [|x l Hx Hl IH]; [done|]. destruct Hok. constructor; [by apply Hx|by apply IH].
  - rewrite !bytes_app, !elem_of_app. intros [?|[Hin|?]]; [by apply list_elem_of_singleton in H| |by apply list_elem_of_singleton in H].
    revert Hin. apply join_no_nl, Forall_map. induction IH as [|[k x] fs Hx Hl IH]; [done|]. destruct Hok as (Hk & Hok & Hoks).
    constructor; [|by apply IH]. cbn [fst snd]. rewrite !bytes_app, !elem_of_app. intros [?|[?|?]].
    + by eapply quoted_no_nl.
    + by apply list_elem_of_singleton in H.
    + by apply Hx.
  - destruct b; by apply (bool_decide_unpack _).
Qed.

Definition request_tree (id : Z) (method : string) (params : json) : json :=
  JObj [("jsonrpc", JStr "2.0"); ("id", JInt id); ("method", JStr method); ("params", params)].

Lemma request_line_render id method params :
  render params ≠ "" → request_line id method (render params) = render (request_tree id method params) +:+ nl.
Proof.
  intros Hne. unfold request_line. rewrite (proj2 (is_empty_false _) Hne). unfold request_tree. render_eq.
Qed.

Lemma call_params_render remote args :
  call_params remote (render args) = render (JObj [("name", JStr remote); ("arguments", args)]).
Proof. unfold call_params. render_eq. Qed.

(** A request is one line of text, ended by the only line feed in it, and
    reading the line gives back the id, the method and the parameters. *)
Theorem request_line_roundtrip `{JsonParserSpec} (id : Z) (method : string) (params : json) :
  (-9223372036854775808 ≤ id < 9223372036854775808)%Z → valid_utf8 (bytes method) → json_ok params → render params ≠ "" →
  ∃ text, request_line id method (render params) = text +:+ nl ∧ (chr 10 ∉ bytes text) ∧
    parse_json text = Some (request_tree id method params).
Proof.
  intros Hid Hm Hp Hne.
  assert (Hok : json_ok (request_tree id method params)).
  { cbn [request_tree json_ok foldr fst snd]. split_and!; try done; try lia; apply valid_ascii; by repeat constructor. }
  exists (render (request_tree id method params)). split_and!; [by apply request_line_render|by apply render_no_nl|by apply parse_render].
Qed.

Definition sample_arguments : json := JObj [("text", JStr (of_bytes [chr 97; chr 10; chr 34]))].

Lemma request_line_roundtrip_witness :
  ∃ text, request_line 3 "tools/call" (render sample_arguments) = text +:+ nl ∧ (chr 10 ∉ bytes text) ∧
    RefParser.parser text = Some (request_tree 3 "tools/call" sample_arguments).
Proof.
  apply (request_line_roundtrip (H := RefParser_spec) 3 "tools/call" sample_arguments); [lia| | |discriminate].
  - apply valid_ascii. by repeat constructor.
  - cbn [json_ok sample_arguments foldr fst snd]. split_and!; try done; apply valid_ascii; by repeat constructor.
Defined.

(** ** base64 (RFC 4648) *)

Section Base64.
Local Open Scope Z_scope.

(** The digit of a value below 64. *)
Definition b64_digit (v : Z) : Ascii.ascii :=
  chr (Z.to_N (if v <? 26 then v + 65 else if v <? 52 then v + 71 else if v <? 62 then v - 4 else if v =? 62 then 43 else 47)).

Definition byte_value (c : Ascii.ascii) : Z := Z.of_N (byte_of c).

Definition pad : Ascii.ascii := chr 61.

Fixpoint base64_encode (l : list Ascii.ascii) : list Ascii.ascii :=
  match l with
  | a :: b :: c :: rest =>
      let '(x, y, z) := (byte_value a, byte_value b, byte_value c) in
      b64_digit (x / 4) :: b64_digit (x mod 4 * 16 + y / 16) :: b64_digit (y mod 16 * 4 + z / 64) :: b64_digit (z mod 64) ::
      base64_encode rest
  | [a; b] =>
      let '(x, y) := (byte_value a, byte_value b) in
      [b64_digit (x / 4); b64_digit (x mod 4 * 16 + y / 16); b64_digit (y mod 16 * 4); pad]
  | [a] => let x := byte_value a in [b64_digit (x / 4); b64_digit (x mod 4 * 16); pad; pad]
  | [] => []
  end.

Lemma byte_value_range c : 0 ≤ byte_value c < 256.
Proof. unfold byte_value. pose proof (byte_of_lt c). lia. Qed.

Lemma digit_value_of v : 0 ≤ v < 64 → b64_value (b64_digit v) = v ∧ b64_ignored (b64_digit v) = false.
Proof.
  intros Hv.
  assert (Hall : forallb (λ n, let v := Z.of_nat n in (b64_value (b64_digit v) =? v) && negb (b64_ignored (b64_digit v))) (seq 0 64) = true)
    by (vm_compute; reflexivity).
  rewrite forallb_forall in Hall. specialize (Hall (Z.to_nat v)). rewrite in_seq in Hall. specialize (Hall ltac:(lia)).
  rewrite Z2Nat.id in Hall by lia. apply andb_true_iff in Hall as [H1%Z.eqb_eq H2%negb_true_iff]. done.
Qed.

Lemma lor_digit x v : 0 ≤ v < 64 → Z.lor (Z.shiftl x 6 `mod` 4294967296) v = (x * 64) `mod` 4294967296 + v.
Proof.
  intros Hv. rewrite Z.shiftl_mul_pow2 by lia. change (2 ^ 6) with 64.
  assert (E : (x * 64) `mod` 4294967296 = Z.shiftl (x `mod` 67108864) 6).
  { rewrite Z.shiftl_mul_pow2 by lia. change (2 ^ 6) with 64. Z.to_euclidean_division_equations; lia. }
  rewrite E. set (y := x `mod` 67108864).
  assert (Hland : Z.land (Z.shiftl y 6) v = 0).
  { apply Z.bits_inj'. intros n Hn. rewrite Z.land_spec, Z.bits_0, Z.shiftl_spec by done. destruct (Z.lt_ge_cases n 6).
    - by rewrite Z.testbit_neg_r by lia.
    - rewrite <-(Z.mod_small v (2 ^ 6)), Z.mod_pow2_bits_high, andb_false_r by lia. done. }
  rewrite Z.add_nocarry_lxor by done. apply Z.bits_inj'. intros n Hn. apply (f_equal (λ z, Z.testbit z n)) in Hland.
  rewrite Z.land_spec, Z.bits_0 in Hland. rewrite Z.lor_spec, Z.lxor_spec. by destruct (Z.testbit _ n), (Z.testbit v n).
Qed.

Lemma out_byte x b : 0 ≤ b → Z.land (Z.shiftr x b) 255 = (x / 2 ^ b) `mod` 256.
Proof. intros Hb. rewrite Z.shiftr_div_pow2 by done. apply (Z.land_ones _ 8). lia. Qed.

Lemma b64_value_lt c : b64_value c < 64.
Proof. assert (E : (b64_value c <? 64) = true) by (destruct c as [[] [] [] [] [] [] [] []]; reflexivity). by apply Z.ltb_lt. Qed.

Lemma congr_shift a a' v m :
  4294967296 `mod` (m * 64) = 0 → 0 < m → a `mod` m = a' `mod` m →
  ((a * 64) `mod` 4294967296 + v) `mod` (m * 64) = ((a' * 64) `mod` 4294967296 + v) `mod` (m * 64).
Proof.
  intros Hm Hpos Ha. apply Z.mod_divide in Hm; [|lia].
  assert (E : ∀ x, ((x * 64) `mod` 4294967296) `mod` (m * 64) = (x `mod` m) * 64).
  { intros x. rewrite Z.mod_mod_divide by done. by rewrite Z.mul_mod_distr_r by lia. }
  rewrite (Z.add_mod ((a * 64) `mod` _)), (Z.add_mod ((a' * 64) `mod` _)) by lia. by rewrite !E, Ha.
Qed.

(** A byte and the bits below it, from the bits of both. *)
Lemma congr_out x x' m :
  0 < m → x `mod` (m * 256) = x' `mod` (m * 256) → (x / m) `mod` 256 = (x' / m) `mod` 256 ∧ x `mod` m = x' `mod` m.
Proof.
  intros Hm E.
  assert (Hsplit : ∀ y, y `mod` (m * 256) = y `mod` m + m * ((y / m) `mod` 256)) by (intros y; apply Z.rem_mul_r; lia).
  rewrite !Hsplit in E. pose proof (Z.mod_pos_bound x m Hm). pose proof (Z.mod_pos_bound x' m Hm).
  pose proof (Z.mod_pos_bound (x / m) 256 ltac:(lia)). pose proof (Z.mod_pos_bound (x' / m) 256 ltac:(lia)).
  destruct (Z.lt_trichotomy ((x / m) `mod` 256) ((x' / m) `mod` 256)) as [|[|]]; [nia|split; nia|nia].
Qed.

(** Only the bits not yet written matter. *)
Lemma base64_congr l acc acc' bits :
  bits = 0 ∨ bits = 2 ∨ bits = 4 ∨ bits = 6 → acc `mod` 2 ^ bits = acc' `mod` 2 ^ bits →
  base64_from acc bits l = base64_from acc' bits l.
Proof.
  revert acc acc' bits. induction l as [|c l IH]; intros acc acc' bits Hb Ha; [done|]. cbn [base64_from].
  destruct (b64_ignored c); [by apply IH|]. destruct (Z.ltb_spec (b64_value c) 0) as [|Hv]; [done|].
  rewrite !lor_digit by (split; [done|apply b64_value_lt]). set (v := b64_value c).
  assert (Hb2 : 8 ≤ bits + 6 → bits + 6 - 8 = 0 ∨ bits + 6 - 8 = 2 ∨ bits + 6 - 8 = 4 ∨ bits + 6 - 8 = 6) by (clear -Hb; lia).
  assert (Hsh := congr_shift acc acc' v (2 ^ bits)). cbn zeta.
  set (x := (acc * 64) `mod` 4294967296 + v) in *. set (x' := (acc' * 64) `mod` 4294967296 + v) in *.
  destruct (Z.leb_spec 8 (bits + 6)) as [H8|H8].
  - assert (Hout : (x / 2 ^ (bits + 6 - 8)) `mod` 256 = (x' / 2 ^ (bits + 6 - 8)) `mod` 256 ∧
                   x `mod` 2 ^ (bits + 6 - 8) = x' `mod` 2 ^ (bits + 6 - 8)).
    { apply congr_out; [apply Z.pow_pos_nonneg; lia|]. replace (2 ^ (bits + 6 - 8) * 256) with (2 ^ bits * 64).
      - apply Hsh; [|apply Z.pow_pos_nonneg; lia|exact Ha]. destruct Hb as [->|[->|[->| ->]]]; reflexivity.
      - destruct Hb as [->|[->|[->| ->]]]; [lia|reflexivity..]. }
    destruct Hout as [Ho Hm]. rewrite !out_byte, Ho by (clear -H8; lia). rewrite (IH x x' _ (Hb2 H8) Hm). reflexivity.
  - assert (bits = 0) as -> by (clear -Hb H8; lia). apply IH; [by right; right; right|]. apply Hsh; [reflexivity|reflexivity|exact Ha].
Qed.

(** One digit after another, with the bits that are pending. *)
Lemma base64_step acc bits v l :
  0 ≤ v < 64 → 0 ≤ acc < 64 → bits = 2 ∨ bits = 4 ∨ bits = 6 →
  base64_from acc bits (b64_digit v :: l) =
    cons (chr (Z.to_N (((acc * 64 + v) / 2 ^ (bits - 2)) `mod` 256))) <$> base64_from (v `mod` 2 ^ (bits - 2)) (bits - 2) l.
Proof.
  intros Hv Ha Hb. cbn [base64_from]. destruct (digit_value_of v Hv) as [-> ->]. rewrite lor_digit by done.
  rewrite (Z.mod_small (acc * 64)) by lia. destruct (Z.ltb_spec v 0); [lia|]. cbn zeta.
  destruct (Z.leb_spec 8 (bits + 6)); [|lia]. rewrite out_byte by lia. replace (bits + 6 - 8) with (bits - 2) by lia.
  rewrite (base64_congr l (acc * 64 + v) (v `mod` 2 ^ (bits - 2))); [by destruct (base64_from _ _ _)|lia|].
  rewrite Z.mod_mod by (destruct Hb as [->|[->| ->]]; discriminate).
  destruct Hb as [->|[->| ->]]; cbn [Z.sub Z.add Z.opp Z.pos_sub Pos.pred_double]; change (2 ^ 0) with 1; change (2 ^ 2) with 4; change (2 ^ 4) with 16.
  all: Z.to_euclidean_division_equations; lia.
Qed.

Lemma base64_first v l : 0 ≤ v < 64 → base64_from 0 0 (b64_digit v :: l) = base64_from v 6 l.
Proof.
  intros Hv. cbn [base64_from]. destruct (digit_value_of v Hv) as [-> ->]. rewrite lor_digit by done.
  by destruct (Z.ltb_spec v 0); [lia|].
Qed.

Lemma out_is a z : z = byte_value a → chr (Z.to_N z) = a.
Proof. intros ->. unfold byte_value. by rewrite N2Z.id, chr_byte_of. Qed.

Lemma triple_ind (P : list Ascii.ascii → Prop) :
  P [] → (∀ a, P [a]) → (∀ a b, P [a; b]) → (∀ a b c l, P l → P (a :: b :: c :: l)) → ∀ l, P l.
Proof. intros H0 H1 H2 H3. fix IH 1. intros [|a [|b [|c l]]]; [done|apply H1|apply H2|apply H3, IH]. Qed.

(** The digits of the first, second and third byte of a group. *)
Lemma group_first a v l :
  0 ≤ v < 16 →
  base64_from 0 0 (b64_digit (byte_value a / 4) :: b64_digit (byte_value a `mod` 4 * 16 + v) :: l) = cons a <$> base64_from v 4 l.
Proof.
  intros Hv. pose proof (byte_value_range a) as Ha. rewrite base64_first by (Z.to_euclidean_division_equations; lia).
  rewrite base64_step by (try (right; right; done); Z.to_euclidean_division_equations; lia).
  change (2 ^ (6 - 2)) with 16. change (6 - 2) with 4. rewrite (out_is a) by (Z.to_euclidean_division_equations; lia).
  replace ((byte_value a `mod` 4 * 16 + v) `mod` 16) with v by (Z.to_euclidean_division_equations; lia). done.
Qed.

Lemma group_second b v l :
  0 ≤ v < 4 → base64_from (byte_value b / 16) 4 (b64_digit (byte_value b `mod` 16 * 4 + v) :: l) = cons b <$> base64_from v 2 l.
Proof.
  intros Hv. pose proof (byte_value_range b) as Hb.
  rewrite base64_step by (try (right; left; done); Z.to_euclidean_division_equations; lia).
  change (2 ^ (4 - 2)) with 4. change (4 - 2) with 2. rewrite (out_is b) by (Z.to_euclidean_division_equations; lia).
  replace ((byte_value b `mod` 16 * 4 + v) `mod` 4) with v by (Z.to_euclidean_division_equations; lia). done.
Qed.

Lemma group_third c l :
  base64_from (byte_value c / 64) 2 (b64_digit (byte_value c `mod` 64) :: l) = cons c <$> base64_from 0 0 l.
Proof.
  pose proof (byte_value_range c) as Hc. rewrite base64_step by (try (left; done); Z.to_euclidean_division_equations; lia).
  change (2 ^ (2 - 2)) with 1. change (2 - 2) with 0. rewrite Z.mod_1_r, Z.div_1_r.
  rewrite (out_is c) by (Z.to_euclidean_division_equations; lia). done.
Qed.

Lemma base64_inverts l : base64_from 0 0 (base64_encode l) = Some l.
Proof.
  induction l as [|a|a b|a b c l IH] using triple_ind; cbn [base64_encode]; [done| | |].
  - by rewrite <-(Z.add_0_r (_ * 16)), group_first.
  - pose proof (byte_value_range b). rewrite group_first by (Z.to_euclidean_division_equations; lia).
    by rewrite <-(Z.add_0_r (_ * 4)), group_second.
  - pose proof (byte_value_range b). pose proof (byte_value_range c).
    rewrite group_first, group_second, group_third, IH by (Z.to_euclidean_division_equations; lia). done.
Qed.

End Base64.

(** Decoding base64 content gives back the bytes that were encoded, with
    padding and with line breaks or blanks anywhere in the text. *)
Theorem base64_roundtrip (data : list Ascii.ascii) (text : string) :
  List.filter (λ c, negb (b64_ignored c)) (bytes text) = List.filter (λ c, negb (b64_ignored c)) (base64_encode data) →
  base64_decode text = Some data.
Proof.
  assert (Hskip : ∀ l acc bits, base64_from acc bits l = base64_from acc bits (List.filter (λ c, negb (b64_ignored c)) l)).
  { induction l as [|c l IH]; intros acc bits; [done|]. cbn [base64_from List.filter]. destruct (b64_ignored c) eqn:E; [apply IH|].
    cbn [negb base64_from]. rewrite E. destruct (_ <? 0)%Z; [done|]. cbn zeta. destruct (8 <=? _)%Z; by rewrite IH. }
  intros E. unfold base64_decode. by rewrite Hskip, E, <-Hskip, base64_inverts.
Qed.

Lemma base64_roundtrip_witness : base64_decode ("YWdl" +:+ nl +:+ "bnQ=") = Some (bytes "agent").
Proof. apply (base64_roundtrip (bytes "agent")). vm_compute. reflexivity. Defined.
