(* ===== verification/FsTools.v ===== *)
(** * Filesystem and terminal tools (src/core/tools/filesystem_tools.cpp,
    src/core/tools/terminal_tools.cpp, src/hal/path.cpp)

    The default tools: reading, writing, listing, moving and deleting files of
    the workspace, and running a command.  The operating system is [FsHost];
    paths are POSIX paths as strings.  Arguments are read from the parsed
    document: one that is not well-formed JSON as a whole is taken as invalid,
    where the on-demand parser may notice an error only after some fields. *)
From stdpp Require Import base gmap strings list pretty sorting.
From Stdlib Require Import Lia ZArith.
From S2P Require Import Prelude Text Json Session History Models GraphJson Sandbox Mcp.

(** ** The host *)

Inductive FileType := NotFound | Directory | RegularFile | OtherFile.

#[global] Instance FileType_eq_dec : EqDecision FileType.
Proof. solve_decision. Defined.

Record DirEntry := mkDirEntry { de_name : string; de_is_dir : bool; de_size : option Z }.

Record CommandResult := mkCommandResult {
  cr_exit_code : Z;
  cr_timed_out : bool;
  cr_cancelled : bool;
  cr_output : list Ascii.ascii;
  cr_sandbox_warnings : list string
}.

(** std::filesystem and file streams.  Errors are the text of the error code.
    [sys_read]: the bytes from an offset, at most so many; [None] if the file
    does not open.  [sys_write] truncates or appends: [None] if the file does
    not open, else whether everything was written.  [sys_list]: the entries up
    to the first error. *)
Class FsHost (W : Type) := {
  sys_canonical : string → W → option string;
  sys_absolute : string → W → string + string;
  sys_exists : string → W → bool;
  sys_is_directory : string → W → bool;
  sys_status : string → W → option FileType;
  sys_file_size : string → W → option Z;
  sys_read : string → Z → Z → W → option (list Ascii.ascii);
  sys_write : string → bool → list Ascii.ascii → W → W * option bool;
  sys_list : string → W → list DirEntry;
  sys_create_directories : string → W → W * option string;
  sys_remove_all : string → W → W * (string + Z);
  sys_rename : string → string → W → W * option string;
  sys_copy_file : string → string → W → W * option string;
  sys_run_shell : string → string → Z → Z → option SandboxPolicy → W → W * Result CommandResult
}.

(** ** Paths (hal::path) *)

Definition ends_in_slash (p : string) : bool := bool_decide (last (bytes p) = Some slash).

(** The elements [begin()] to [end()] iterate over: the root directory, the
    names, and an empty name for a final slash. *)
Definition path_elements (p : string) : list string :=
  let names := List.filter (λ s, negb (is_empty s)) (of_bytes <$> split_on slash (bytes p)) in
  (if starts_with "/" p then ["/"] else []) ++ names ++
  match names with [] => [] | _ => if ends_in_slash p then [""] else [] end.

Fixpoint is_prefix_elements (root candidate : list string) : bool :=
  match root, candidate with
  | [], _ => true
  | _, [] => false
  | r :: root', c :: candidate' => if str_eqb r c then is_prefix_elements root' candidate' else false
  end.

Definition is_prefix_path (root candidate : string) : bool :=
  is_prefix_elements (path_elements root) (path_elements candidate).

Section Tools.
Context {W : Type} `{FsHost W} `{Host W} `{JsonParser}.

(** [weakly_canonical], else [absolute]. *)
Definition canonical_or_absolute (p : string) (w : W) : string + string :=
  match sys_canonical p w with Some c => inr c | None => sys_absolute p w end.

Definition join_user_path (ws raw : string) : string :=
  if is_empty raw || str_eqb raw "." then ws else if starts_with "/" raw then raw else path_join ws raw.

Definition resolve_under_workspace (workspace_dir user_path : string) (sandbox : bool) (w : W) : Result string :=
  if is_empty workspace_dir then fail InvalidConfig "workspace_dir is empty."
  else
    match canonical_or_absolute workspace_dir w with
    | inl e => fail FilesystemError ("Cannot resolve workspace: " +:+ e)
    | inr canonical_ws =>
        match canonical_or_absolute (join_user_path workspace_dir user_path) w with
        | inl e => fail FilesystemError ("Cannot resolve path: " +:+ e)
        | inr canonical =>
            if sandbox && negb (is_prefix_path canonical_ws canonical) then
              fail SandboxViolation ("Path is outside workspace_dir (sandbox mode is enabled): " +:+ canonical)
            else Ok canonical
        end
    end.

Definition is_workspace_root (workspace_dir path : string) (w : W) : bool :=
  match sys_canonical workspace_dir w, sys_canonical path w with
  | Some a, Some b => bool_decide (path_elements a = path_elements b)
  | _, _ => false
  end.

Definition is_alpha (c : Ascii.ascii) : bool :=
  let b := byte_of c in ((65 <=? b) && (b <=? 90) || (97 <=? b) && (b <=? 122))%N.

Definition is_digit_char (c : Ascii.ascii) : bool := let b := byte_of c in ((48 <=? b) && (b <=? 57))%N.

Definition is_safe_identifier (name : string) : bool :=
  match bytes name with
  | [] => false
  | c0 :: rest =>
      if Nat.ltb 64 (String.length name) then false
      else (is_alpha c0 || bool_decide (c0 = chr 95)) && forallb (λ c, is_alpha c || is_digit_char c || bool_decide (c = chr 95)) rest
  end.

(** ** Arguments *)

Record WorkspaceContext := mkWorkspaceContext {
  ctx_workspace_dir : option string;
  ctx_sandbox : bool;
  ctx_command_sandbox : SandboxPolicy
}.

Definition parse_obj (args : string) : option (list (string * json)) := parse_json args ≫= get_object.

(** [if (field.value().get_string().get(v)) v = {};] for every field of the name. *)
Definition last_string (key : string) (fs : list (string * json)) : string :=
  foldl (λ acc kv, if str_eqb kv.1 key then match get_string kv.2 with Some s => s | None => "" end else acc) "" fs.

(** The last field of the name that [get] accepts. *)
Definition last_accepted {A} (key : string) (get : json → option A) (fs : list (string * json)) (init : A) : A :=
  foldl (λ acc kv, if str_eqb kv.1 key then match get kv.2 with Some v => v | None => acc end else acc) init fs.

Definition resolve_path (ctx : WorkspaceContext) (rel : string) (w : W) : Result string :=
  match ctx_workspace_dir ctx with
  | None => fail InvalidConfig "workspace_dir is null."
  | Some ws => resolve_under_workspace ws rel (ctx_sandbox ctx) w
  end.

(** ** read_file *)

Definition kReadDefaultBytes : Z := 16384.
Definition kReadMaxBytes : Z := 4 * 1024 * 1024.

Definition path_extension (p : string) : string :=
  let f := filename p in
  match rfind "." f (String.length f) with
  | None | Some 0 => ""
  | Some i => if str_eqb f ".." then "" else String.substring i (String.length f) f
  end.

Definition kMediaTypes : list (string * string) :=
  [(".png", "image/png"); (".jpg", "image/jpeg"); (".jpeg", "image/jpeg"); (".gif", "image/gif"); (".webp", "image/webp");
   (".bmp", "image/bmp"); (".tga", "image/x-tga"); (".wav", "audio/wav"); (".mp3", "audio/mpeg"); (".flac", "audio/flac");
   (".ogg", "audio/ogg"); (".opus", "audio/opus"); (".m4a", "audio/mp4"); (".mp4", "video/mp4"); (".webm", "video/webm");
   (".mov", "video/quicktime"); (".mkv", "video/x-matroska"); (".avi", "video/x-msvideo")].

Definition media_mime_for (path : string) : string :=
  match List.find (λ p, str_eqb (lower (path_extension path)) p.1) kMediaTypes with Some p => p.2 | None => "" end.

(** A path that could not be made absolute is empty. *)
Definition or_empty (r : string + string) : string := match r with inr p => p | inl _ => "" end.

Definition artifacts_of (ws : string) (w : W) : string := or_empty (sys_absolute (path_join ws "artifacts") w).

Definition media_path_for_engine (ws full : string) (w : W) : W * Result string :=
  let abs := or_empty (canonical_or_absolute full w) in
  match resolve_under_workspace ws abs true w with
  | Ok _ => (w, Ok abs)
  | Fail _ =>
      let dir := artifacts_of ws w in
      let w := (sys_create_directories dir w).1 in
      let '(w, stamp) := now_ms w in
      let dest := path_join dir ("read-" +:+ to_string stamp +:+ "-" +:+ filename full) in
      let '(w, err) := sys_copy_file full dest w in
      match err with
      | Some e => (w, fail FilesystemError ("Cannot copy " +:+ full +:+ " into the workspace: " +:+ e))
      | None => (w, Ok dest)
      end
  end.

Definition get_offset (j : json) : option Z :=
  match get_i64 j with Some v => if (0 <=? v)%Z then Some v else None | None => None end.

Definition get_max_bytes (j : json) : option Z :=
  match get_offset j with Some v => Some (Z.min v kReadMaxBytes) | None => None end.

(** The text part of a file: the bytes shown and whether more follow. *)
Definition text_page (content : list Ascii.ascii) (max_bytes : Z) : list Ascii.ascii * bool :=
  if (max_bytes <? Z.of_nat (length content))%Z then (take (utf8_prefix_length content (Z.to_nat max_bytes)) content, true)
  else (content, false).

Definition more_note (max_bytes total next : Z) : string :=
  nl +:+ "[truncated at " +:+ to_string max_bytes +:+ " bytes]" +:+
  nl +:+ "[" +:+ to_string total +:+ " bytes in total; read more with " +:+ q +:+ "offset" +:+ q +:+ ": " +:+ to_string next +:+ "]".

Definition read_text (full : string) (offset max_bytes total : Z) (w : W) : Result ToolResult :=
  match sys_read full offset (if (offset <? total)%Z || (total =? 0)%Z then max_bytes + 1 else 0)%Z w with
  | None => fail FilesystemError ("Cannot open: " +:+ full)
  | Some content =>
      let '(page, more) := text_page content max_bytes in
      if bool_decide (chr 0 ∈ page) then
        Ok (mkToolResult ("[binary file " +:+ filename full +:+ ", " +:+ to_string total +:+ " bytes; not shown as text]") [] [] false)
      else
        let next := u64 (offset + Z.of_nat (length page)) in
        Ok (mkToolResult (of_bytes (sanitize_utf8 page) +:+ (if more then more_note max_bytes total next else "")) [] [] false)
  end.

Definition mime_kind (mime : string) : string :=
  match String.index 0 "/" mime with Some i => String.substring 0 i mime | None => mime end.

Definition read_file_cb (ctx : WorkspaceContext) (args : string) (w : W) : W * Result ToolResult :=
  match parse_obj args with
  | None => (w, fail ParseError "Invalid JSON")
  | Some fs =>
      let path := last_string "path" fs in
      if is_empty path then (w, fail InvalidConfig "Missing 'path'")
      else
        match resolve_path ctx path w with
        | Fail e => (w, Fail e)
        | Ok full =>
            if negb (sys_exists full w) then (w, fail KeyNotFound ("Not found: " +:+ full))
            else if sys_is_directory full w then (w, fail InvalidConfig ("Is a directory (use list_dir): " +:+ full))
            else
              let total := match sys_file_size full w with Some n => n | None => 0%Z end in
              let mime := media_mime_for full in
              if is_empty mime then
                (w, read_text full (last_accepted "offset" get_offset fs 0%Z)
                      (last_accepted "max_bytes" get_max_bytes fs kReadDefaultBytes) total w)
              else
                let '(w, path) := media_path_for_engine (match ctx_workspace_dir ctx with Some ws => ws | None => "" end) full w in
                match path with
                | Fail e => (w, Fail e)
                | Ok p =>
                    (w, Ok (mkToolResult (mime_kind mime +:+ " file " +:+ filename full +:+ " (" +:+ to_string total +:+ " bytes), attached")
                              [mkMedia p mime] [] false))
                end
        end
  end.

(** ** Writing *)

(** What every callback with a required path starts with. *)
Definition with_path (ctx : WorkspaceContext) (args : string) (w : W) (k : list (string * json) → string → W → W * Result string) :
    W * Result string :=
  match parse_obj args with
  | None => (w, fail ParseError "Invalid JSON")
  | Some fs =>
      let path := last_string "path" fs in
      if is_empty path then (w, fail InvalidConfig "Missing 'path'")
      else match resolve_path ctx path w with Fail e => (w, Fail e) | Ok full => k fs full w end
  end.

(** [content] and whether the last field of that name was a string; a field
    that is none leaves the text of an earlier one. *)
Definition content_argument (fs : list (string * json)) : string * bool :=
  foldl (λ acc kv, if str_eqb kv.1 "content" then match get_string kv.2 with Some s => (s, true) | None => (acc.1, false) end else acc)
    ("", false) fs.

Definition write_file_cb (ctx : WorkspaceContext) (args : string) (w : W) : W * Result string :=
  match parse_obj args with
  | None => (w, fail ParseError "Invalid JSON")
  | Some fs =>
      let path := last_string "path" fs in
      let '(content, has_content) := content_argument fs in
      if is_empty path then (w, fail InvalidConfig "Missing 'path'")
      else if negb has_content then (w, fail InvalidConfig "Missing 'content' (a string)")
      else
        match resolve_path ctx path w with
        | Fail e => (w, Fail e)
        | Ok full =>
            let w := if last_accepted "create_dirs" get_bool fs true then (sys_create_directories (parent_path full) w).1 else w in
            let '(w, r) := sys_write full false (bytes content) w in
            match r with
            | None => (w, fail FilesystemError ("Cannot write: " +:+ full))
            | Some _ => (w, Ok ("wrote " +:+ to_string (Z.of_nat (String.length content)) +:+ " bytes to " +:+ full))
            end
        end
  end.

Definition append_file_cb (ctx : WorkspaceContext) (args : string) (w : W) : W * Result string :=
  with_path ctx args w (λ fs full w,
    let content := last_string "content" fs in
    let w := (sys_create_directories (parent_path full) w).1 in
    let '(w, r) := sys_write full true (bytes content) w in
    match r with
    | None => (w, fail FilesystemError ("Cannot open: " +:+ full))
    | Some _ => (w, Ok ("appended " +:+ to_string (Z.of_nat (String.length content)) +:+ " bytes to " +:+ full))
    end).

(** ** Directories *)

Definition kMaxEntries : nat := 1000.

Definition entry_le (a b : DirEntry) : Prop := key_le (de_name a) (de_name b).

#[global] Instance entry_le_dec (a b : DirEntry) : Decision (entry_le a b).
Proof. unfold entry_le. apply _. Defined.

Definition render_entry (e : DirEntry) : string :=
  "{" +:+ q +:+ "name" +:+ q +:+ ":" +:+ quoted (of_bytes (sanitize_utf8 (bytes (de_name e)))) +:+ "," +:+ q +:+ "type" +:+ q +:+ ":" +:+
  q +:+ (if de_is_dir e then "dir" else "file") +:+ q +:+
  match de_size e with Some n => "," +:+ q +:+ "size" +:+ q +:+ ":" +:+ to_string n | None => "" end +:+ "}".

Definition render_listing (all : list DirEntry) : string :=
  let shown := merge_sort entry_le (take kMaxEntries all) in
  "[" +:+ join_comma (render_entry <$> shown) +:+
  (if Nat.ltb kMaxEntries (length all) then
     ",{" +:+ q +:+ "truncated" +:+ q +:+ ":true," +:+ q +:+ "shown" +:+ q +:+ ":" +:+ to_string (Z.of_nat kMaxEntries) +:+ "}"
   else "") +:+ "]".

Definition list_dir_cb (ctx : WorkspaceContext) (args : string) (w : W) : W * Result string :=
  let path :=
    if is_empty args then ""
    else match parse_obj args with Some fs => last_accepted "path" get_string fs "" | None => "" end in
  match resolve_path ctx (if is_empty path then "." else path) w with
  | Fail e => (w, Fail e)
  | Ok dir =>
      if negb (sys_is_directory dir w) then (w, fail KeyNotFound ("Not a directory: " +:+ dir))
      else (w, Ok (render_listing (sys_list dir w)))
  end.

Definition create_dir_cb (ctx : WorkspaceContext) (args : string) (w : W) : W * Result string :=
  with_path ctx args w (λ _ full w,
    let '(w, err) := sys_create_directories full w in
    match err with
    | Some e => (w, fail FilesystemError ("Failed: " +:+ e))
    | None => (w, Ok ("created " +:+ full))
    end).

Definition at_root (ctx : WorkspaceContext) (path : string) (w : W) : bool :=
  match ctx_workspace_dir ctx with Some ws => is_workspace_root ws path w | None => false end.

Definition delete_path_cb (ctx : WorkspaceContext) (args : string) (w : W) : W * Result string :=
  with_path ctx args w (λ _ full w,
    if at_root ctx full w then (w, fail SandboxViolation "Cannot delete the workspace root directory.")
    else
      let '(w, r) := sys_remove_all full w in
      match r with
      | inl e => (w, fail FilesystemError ("Failed: " +:+ e))
      | inr count => (w, Ok ("deleted " +:+ to_string count +:+ " entries at " +:+ full))
      end).

Definition move_path_cb (ctx : WorkspaceContext) (args : string) (w : W) : W * Result string :=
  match parse_obj args with
  | None => (w, fail ParseError "Invalid JSON")
  | Some fs =>
      let from := last_string "from" fs in
      let to := last_string "to" fs in
      if is_empty from || is_empty to then (w, fail InvalidConfig "Missing 'from' or 'to'")
      else
        match resolve_path ctx from w with
        | Fail e => (w, Fail e)
        | Ok src =>
            match resolve_path ctx to w with
            | Fail e => (w, Fail e)
            | Ok dst =>
                if at_root ctx src w then (w, fail SandboxViolation "Cannot move the workspace root directory.")
                else
                  let w := (sys_create_directories (parent_path dst) w).1 in
                  let '(w, err) := sys_rename src dst w in
                  match err with
                  | Some e => (w, fail FilesystemError ("Failed: " +:+ e))
                  | None => (w, Ok ("moved " +:+ src +:+ " -> " +:+ dst))
                  end
            end
        end
  end.

Definition render_info (type : FileType) (full : string) (size : option Z) : string :=
  "{" +:+ q +:+ "exists" +:+ q +:+ ":true," +:+ q +:+ "type" +:+ q +:+ ":" +:+ q +:+
  match type with Directory => "dir" | RegularFile => "file" | _ => "other" end +:+ q +:+ "," +:+
  q +:+ "path" +:+ q +:+ ":" +:+ quoted full +:+
  match size with Some n => "," +:+ q +:+ "size" +:+ q +:+ ":" +:+ to_string n | None => "" end +:+ "}".

Definition file_info_cb (ctx : WorkspaceContext) (args : string) (w : W) : W * Result string :=
  with_path ctx args w (λ _ full w,
    match sys_status full w with
    | None | Some NotFound => (w, Ok ("{" +:+ q +:+ "exists" +:+ q +:+ ":false}"))
    | Some type =>
        (w, Ok (render_info type full (if bool_decide (type = RegularFile) then sys_file_size full w else None)))
    end).

(** ** run_command *)

Definition clamp_timeout (t : Z) : Z :=
  (let t := if t <? 0 then 30 else t in if 86400 <? t then 86400 else t)%Z.

Definition join_warnings (ws : list string) : string :=
  foldl (λ joined w, joined +:+ (if is_empty joined then "" else " ") +:+ w) "" ws.

Definition bool_text (b : bool) : string := if b then "true" else "false".

Definition render_command (r : CommandResult) : string :=
  "{" +:+ q +:+ "exit_code" +:+ q +:+ ":" +:+ to_string (cr_exit_code r) +:+ "," +:+ q +:+ "timed_out" +:+ q +:+ ":" +:+
  bool_text (cr_timed_out r) +:+ "," +:+ q +:+ "cancelled" +:+ q +:+ ":" +:+ bool_text (cr_cancelled r) +:+ "," +:+
  q +:+ "output" +:+ q +:+ ":" +:+ quoted (of_bytes (sanitize_utf8 (cr_output r))) +:+
  match cr_sandbox_warnings r with
  | [] => ""
  | ws => "," +:+ q +:+ "sandbox_warning" +:+ q +:+ ":" +:+ quoted (join_warnings ws)
  end +:+ "}".

Definition run_command (ws args : string) (sandbox : option SandboxPolicy) (w : W) : W * Result string :=
  match parse_json args with
  | None => (w, fail ParseError "Invalid JSON")
  | Some doc =>
      match get_object doc with
      | None => (w, fail ParseError "Expected object")
      | Some fs =>
          let command := last_string "command" fs in
          let timeout := last_accepted "timeout_seconds" get_i64 fs 30%Z in
          if is_empty command then (w, fail InvalidConfig "Missing 'command'")
          else
            let '(w, proc) := sys_run_shell ws command (clamp_timeout timeout) (32 * 1024) sandbox w in
            match proc with Fail e => (w, Fail e) | Ok r => (w, Ok (render_command r)) end
      end
  end.

Definition set_filesystem (p : SandboxPolicy) (b : bool) : SandboxPolicy :=
  mkSandboxPolicy (sb_enabled p) b (sb_read_only p) (sb_read_write p) (sb_system_paths p) (sb_allow_tmp p) (sb_network p)
    (sb_memory_limit p) (sb_max_processes p) (sb_gpu p).

(** The policy of the sandboxed command. *)
Definition command_policy (ctx : WorkspaceContext) (ws : string) (w : W) : option SandboxPolicy :=
  let p := ctx_command_sandbox ctx in
  if negb (sb_enabled p) then None
  else
    let p := set_filesystem p (sb_filesystem p && ctx_sandbox ctx) in
    Some (if is_empty ws then p
          else set_paths p (sb_read_only p) (sb_read_write p ++ [match sys_absolute ws w with inr a => a | inl _ => ws end])).

Definition run_command_cb (ws args : string) : W → W * Result string := run_command ws args None.

Definition run_command_sandboxed_cb (ctx : WorkspaceContext) (args : string) (w : W) : W * Result string :=
  match ctx_workspace_dir ctx with
  | None => (w, fail InvalidConfig "workspace_dir is null.")
  | Some ws => run_command ws args (command_policy ctx ws w) w
  end.

(** ** The tool set *)

(** A schema, with ' for quotation marks. *)
Definition schema (s : string) : string := of_bytes ((λ c, if bool_decide (c = chr 39) then chr 34 else c) <$> bytes s).

Definition plain_tool (name description parameters : string) (cb : string → W → W * Result string) : Tool W :=
  mkTool name description (schema parameters) (Some (HostCallback cb)) None.

Definition kPathSchema : string := "{'type':'object','properties':{'path':{'type':'string'}},'required':['path']}".

Definition get_filesystem_tools (ctx : WorkspaceContext) : list (Tool W) :=
  [mkTool "read_file"
     ("Read a file. Relative paths are resolved inside workspace_dir. Text files return their text " +:+
      "(use offset/max_bytes to page through large files). Images, audio and video files are " +:+
      "attached to the result so you can look at or listen to them when you support that input.")
     (schema ("{'type':'object','properties':{'path':{'type':'string'},'max_bytes':{'type':'integer','description':" +:+
              "'max bytes to read, default 16384, at most 4194304'},'offset':{'type':'integer','description':" +:+
              "'byte offset to start reading at, default 0'}},'required':['path']}"))
     None (Some (HostParts (read_file_cb ctx)));
   plain_tool "write_file" "Write (overwrite) a file. Parent dirs auto-created by default."
     ("{'type':'object','properties':{'path':{'type':'string'},'content':{'type':'string'},'create_dirs':{'type':'boolean'}}," +:+
      "'required':['path','content']}") (write_file_cb ctx);
   plain_tool "append_file" "Append text to a file. Creates the file if it does not exist."
     "{'type':'object','properties':{'path':{'type':'string'},'content':{'type':'string'}},'required':['path','content']}"
     (append_file_cb ctx);
   plain_tool "list_dir" "List directory contents. Empty path = workspace root. Returns JSON array."
     "{'type':'object','properties':{'path':{'type':'string'}},'required':[]}" (list_dir_cb ctx);
   plain_tool "create_dir" "Create a directory and all parents." kPathSchema (create_dir_cb ctx);
   plain_tool "delete_path" "Delete a file or directory (recursive). Cannot delete workspace root." kPathSchema (delete_path_cb ctx);
   plain_tool "move_path" "Move or rename a file or directory."
     "{'type':'object','properties':{'from':{'type':'string'},'to':{'type':'string'}},'required':['from','to']}" (move_path_cb ctx);
   plain_tool "file_info" "Get metadata for a path. Returns JSON: {exists, type, size, path}." kPathSchema (file_info_cb ctx)].

Definition kDescription : string :=
  "Run a shell command in the workspace directory. stdout and stderr are merged. " +:+
  "Returns JSON: {exit_code, timed_out, cancelled, output}." +:+ nl +:+
  "Parameters: command (string, required), timeout_seconds (integer, default 30, 0=no timeout)." +:+ nl +:+
  "The timeout is enforced on all platforms and stops the command's child processes " +:+
  "too. If the turn is cancelled the command is killed the same way and cancelled " +:+
  "is true; output holds what it printed so far.".

Definition get_terminal_tool (ctx : WorkspaceContext) : Tool W :=
  plain_tool "run_command" kDescription
    ("{'type':'object','properties':{'command':{'type':'string'},'timeout_seconds':{'type':'integer','description':" +:+
     "'max seconds, default 30, 0 = no timeout'}},'required':['command']}") (run_command_sandboxed_cb ctx).

End Tools.
