(* ===== verification/FsToolsTheory.v ===== *)
(** * Filesystem tools: theorems

    In sandbox mode every change a tool makes is at a path the check of
    [resolve_under_workspace] places in the workspace, and none removes or moves
    the workspace itself; what is written is what is read back; reading
    a text page by page shows all of it. *)
From stdpp Require Import base gmap strings list pretty sorting.
From Stdlib Require Import Lia ZArith.
From S2P Require Import Prelude Text Decimal Json Session History Models GraphJson Sandbox Mcp FsTools.

(** ** Confinement *)

(** What is used of [weakly_canonical]: where it succeeds, the path it gives is
    its own, leads nowhere up, and starts at the root if the file exists; paths
    with the same elements are the same file.  It may fail for any path. *)
Class CanonicalSpec (W : Type) `{FsHost W} : Prop := {
  canonical_idem p c w : sys_canonical p w = Some c → sys_canonical c w = Some c;
  canonical_plain p c w : sys_canonical p w = Some c → ".." ∉ path_elements c;
  canonical_absolute p c w : sys_canonical p w = Some c → sys_exists c w = true → starts_with "/" c = true;
  canonical_elements p p' w : path_elements p = path_elements p' → sys_canonical p w = sys_canonical p' w
}.

(** The effect of running a tool's callback. *)
Definition run_tool_fn {W : Type} (t : Tool W) (args : string) (w : W) : W :=
  match callback t, parts_callback t with
  | Some (HostCallback f), _ => (f args w).1
  | _, Some (HostParts f) => (f args w).1
  | _, _ => w
  end.

Section Confined.
Context {W : Type} `{FsHost W} `{!CanonicalSpec W} `{Host W} `{JsonParser}.

(** There is a path the operating system cannot resolve: [weakly_canonical]
    fails and the code goes on with the path as it is written. *)
Definition unresolved (w : W) : Prop := ∃ q, sys_canonical q w = None.

(** [p] starts with the elements of [root], and it leads up again only if some
    path could not be resolved. *)
Definition within (root : string) (w : W) (p : string) : Prop :=
  is_prefix_path root p = true ∧ (".." ∉ path_elements p ∨ unresolved w).

(** The sandbox check, for any path. *)
Lemma resolve_within ws p w full :
  resolve_under_workspace ws p true w = Ok full → ∃ root, canonical_or_absolute ws w = inr root ∧ within root w full.
Proof.
  unfold resolve_under_workspace. destruct (is_empty ws); [done|]. destruct (canonical_or_absolute ws w) as [|root]; [done|].
  destruct (canonical_or_absolute (join_user_path ws p) w) as [|c] eqn:Ec; [done|]. cbn [andb].
  destruct (is_prefix_path root c) eqn:E; [|done]. intros [= <-]. exists root. split; [done|]. split; [done|].
  unfold canonical_or_absolute in Ec. destruct (sys_canonical (join_user_path ws p) w) as [c'|] eqn:Ek; [|right; by eexists].
  injection Ec as <-. left. by eapply canonical_plain.
Qed.

(** What the tools do to the world, operation by operation: they write, make,
    remove and rename at paths [P] allows, make the directories such a path lies
    in, and neither remove nor rename [root].  Only if some path could not be
    resolved, [read_file] may copy a media file into the artifacts directory. *)
Inductive changes (P : string → Prop) (root ws : string) (w0 : W) : W → W → Prop :=
| no_change w : changes P root ws w0 w w
| then_write p app b w w' : P p → changes P root ws w0 (sys_write p app b w).1 w' → changes P root ws w0 w w'
| then_create p w w' : P p → changes P root ws w0 (sys_create_directories p w).1 w' → changes P root ws w0 w w'
| then_create_parent p w w' : P p → changes P root ws w0 (sys_create_directories (parent_path p) w).1 w' → changes P root ws w0 w w'
| then_remove p w w' :
    P p → path_elements p ≠ path_elements root → changes P root ws w0 (sys_remove_all p w).1 w' → changes P root ws w0 w w'
| then_rename p p' w w' :
    P p → path_elements p ≠ path_elements root → P p' → changes P root ws w0 (sys_rename p p' w).1 w' → changes P root ws w0 w w'
| then_copy src name w w' :
    unresolved w0 → let w1 := (now_ms (sys_create_directories (artifacts_of ws w0) w).1).1 in
    changes P root ws w0 (sys_copy_file src (path_join (artifacts_of ws w0) name) w1).1 w' → changes P root ws w0 w w'.

Context (ctx : WorkspaceContext) (ws root : string) (w : W).
Context (Hws : ctx_workspace_dir ctx = Some ws) (Hbox : ctx_sandbox ctx = true) (Hroot : sys_canonical ws w = Some root).

#[local] Abbreviation confined := (changes (within root w) root ws w).

Lemma path_within p full : resolve_path ctx p w = Ok full → within root w full.
Proof.
  unfold resolve_path. rewrite Hws, Hbox. intros (r & Hr & Hw)%resolve_within. unfold canonical_or_absolute in Hr. rewrite Hroot in Hr.
  by injection Hr as <-.
Qed.

Lemma not_root full : at_root ctx full w = false → path_elements full ≠ path_elements root.
Proof.
  unfold at_root, is_workspace_root. rewrite Hws, Hroot. intros Hat He.
  rewrite (canonical_elements full root w He), (canonical_idem ws root w Hroot) in Hat. by rewrite bool_decide_true in Hat.
Qed.

Lemma with_path_confined args (k : list (string * json) → string → W → W * Result string) :
  (∀ fs full, within root w full → confined w (k fs full w).1) → confined w (with_path ctx args w k).1.
Proof.
  intros Hk. unfold with_path. destruct (parse_obj args) as [fs|]; [|constructor]. cbn zeta. destruct (is_empty _); [constructor|].
  destruct (resolve_path ctx _ w) as [full|e] eqn:E; [|constructor]. apply Hk. by eapply path_within.
Qed.

Lemma write_confined args : confined w (write_file_cb ctx args w).1.
Proof.
  unfold write_file_cb. destruct (parse_obj args) as [fs|]; [|constructor]. cbn zeta. destruct (content_argument fs) as [content has].
  destruct (is_empty _); [constructor|]. destruct has; [|constructor]. cbn [negb].
  destruct (resolve_path ctx _ w) as [full|e] eqn:E; [|constructor]. apply path_within in E.
  assert (Hw : ∀ x, confined x (sys_write full false (bytes content) x).1) by (intros x; eapply then_write; [exact E|constructor]).
  destruct (last_accepted _ _ _ _).
  - apply (then_create_parent _ _ _ _ full); [done|]. set (w1 := (sys_create_directories _ w).1) in *. specialize (Hw w1).
    by destruct (sys_write full false (bytes content) w1) as [w2 [r|]].
  - specialize (Hw w). by destruct (sys_write full false (bytes content) w) as [w2 [r|]].
Qed.

Lemma append_confined args : confined w (append_file_cb ctx args w).1.
Proof.
  apply with_path_confined. intros fs full E. cbn zeta. apply (then_create_parent _ _ _ _ full); [done|].
  set (w1 := (sys_create_directories _ w).1). assert (Hw : confined w1 (sys_write full true (bytes (last_string "content" fs)) w1).1)
    by (eapply then_write; [exact E|constructor]). by destruct (sys_write full true _ w1) as [w2 [r|]].
Qed.

Lemma create_confined args : confined w (create_dir_cb ctx args w).1.
Proof.
  apply with_path_confined. intros fs full E. apply (then_create _ _ _ _ full); [done|].
  destruct (sys_create_directories full w) as [w1 [e|]]; constructor.
Qed.

Lemma delete_confined args : confined w (delete_path_cb ctx args w).1.
Proof.
  apply with_path_confined. intros fs full E. destruct (at_root ctx full w) eqn:Ea; [constructor|].
  apply (then_remove _ _ _ _ full); [done|by apply not_root|]. destruct (sys_remove_all full w) as [w1 [e|n]]; constructor.
Qed.

Lemma move_confined args : confined w (move_path_cb ctx args w).1.
Proof.
  unfold move_path_cb. destruct (parse_obj args) as [fs|]; [|constructor]. cbn zeta. destruct (_ || _); [constructor|].
  destruct (resolve_path ctx (last_string "from" fs) w) as [src|e] eqn:E1; [|constructor].
  destruct (resolve_path ctx (last_string "to" fs) w) as [dst|e] eqn:E2; [|constructor].
  destruct (at_root ctx src w) eqn:Ea; [constructor|]. apply path_within in E1, E2.
  apply (then_create_parent _ _ _ _ dst); [done|]. set (w1 := (sys_create_directories _ w).1).
  apply (then_rename _ _ _ _ src dst); [done|by apply not_root|done|]. destruct (sys_rename src dst w1) as [w2 [e|]]; constructor.
Qed.

(** A file that was resolved and exists is attached where it is. *)
Lemma media_confined p full :
  resolve_path ctx p w = Ok full → sys_exists full w = true → confined w (media_path_for_engine ws full w).1.
Proof.
  intros Hp Hex. unfold media_path_for_engine. cbn zeta.
  assert (Hcopy : unresolved w → confined w
    (let w1 := (sys_create_directories (artifacts_of ws w) w).1 in
     let '(w2, stamp) := now_ms w1 in
     let dest := path_join (artifacts_of ws w) ("read-" +:+ to_string stamp +:+ "-" +:+ filename full) in
     let '(w3, err) := sys_copy_file full dest w2 in
     match err with
     | Some e => (w3, fail FilesystemError ("Cannot copy " +:+ full +:+ " into the workspace: " +:+ e))
     | None => (w3, Ok dest)
     end).1).
  { intros Hu. cbn zeta. destruct (now_ms (sys_create_directories (artifacts_of ws w) w).1) as [w2 stamp] eqn:En.
    apply (then_copy _ _ _ _ full ("read-" +:+ to_string stamp +:+ "-" +:+ filename full)); [done|]. cbn zeta. rewrite En. cbn [fst].
    destruct (sys_copy_file full _ w2) as [w3 [e|]]; constructor. }
  destruct (resolve_under_workspace ws _ true w) as [q|e] eqn:Er; [constructor|]. apply Hcopy.
  destruct (sys_canonical (join_user_path ws p) w) as [c|] eqn:Ec; [|by eexists]. exfalso.
  unfold resolve_path, resolve_under_workspace, canonical_or_absolute in Hp. rewrite Hws, Hbox, Hroot, Ec in Hp.
  destruct (is_empty ws) eqn:Ew; [done|]. cbn [andb] in Hp. destruct (is_prefix_path root c) eqn:Epre; [|done]. injection Hp as <-.
  pose proof (canonical_absolute _ _ _ Ec Hex) as Habs. apply canonical_idem in Ec as Hc.
  revert Er. unfold resolve_under_workspace, canonical_or_absolute. rewrite Hc. cbn [or_empty]. unfold join_user_path.
  rewrite Ew, Hroot. destruct (is_empty c) eqn:E0; [apply is_empty_true in E0; by subst c|].
  destruct (str_eqb c ".") eqn:E1; [apply str_eqb_true in E1; by subst c|]. cbn [orb]. by rewrite Habs, Hc, Epre.
Qed.

Lemma read_confined args : confined w (read_file_cb ctx args w).1.
Proof.
  unfold read_file_cb. destruct (parse_obj args) as [fs|]; [|constructor]. cbn zeta. destruct (is_empty _); [constructor|].
  destruct (resolve_path ctx _ w) as [full|e] eqn:Ep; [|constructor]. destruct (sys_exists full w) eqn:Ex; [|constructor].
  destruct (sys_is_directory full w); [constructor|]. cbn [negb]. destruct (is_empty (media_mime_for full)); [constructor|].
  rewrite Hws. pose proof (media_confined _ full Ep Ex) as Hm. by destruct (media_path_for_engine ws full w) as [w1 [p|e]].
Qed.

Lemma list_confined args : confined w (list_dir_cb ctx args w).1.
Proof. unfold list_dir_cb. destruct (resolve_path ctx _ w) as [dir|e]; [destruct (negb _)|]; constructor. Qed.

Lemma info_confined args : confined w (file_info_cb ctx args w).1.
Proof. apply with_path_confined. intros fs full E. destruct (sys_status full w) as [[]|]; constructor. Qed.

Lemma tools_confined t args : t ∈ get_filesystem_tools ctx → confined w (run_tool_fn t args w).
Proof.
  unfold get_filesystem_tools. rewrite !elem_of_cons, elem_of_nil.
  intros [->|[->|[->|[->|[->|[->|[->|[->|[]]]]]]]]]; cbn [run_tool_fn callback parts_callback plain_tool].
  - apply read_confined.
  - apply write_confined.
  - apply append_confined.
  - apply list_confined.
  - apply create_confined.
  - apply delete_confined.
  - apply move_confined.
  - apply info_confined.
Qed.

End Confined.


(** ** Pages of a text *)

Lemma byte_at_take (s : list Ascii.ascii) n k : k < n → byte_at (take n s) k = byte_at s k.
Proof. intros Hk. unfold byte_at. by rewrite lookup_take_lt. Qed.

Lemma back_up_take (s : list Ascii.ascii) n cut budget : cut < n → back_up (take n s) cut budget = back_up s cut budget.
Proof.
  revert cut. induction budget as [|budget IH]; intros cut Hc; [done|]. cbn. rewrite byte_at_take by done.
  destruct (_ && _); [|done]. apply IH. lia.
Qed.

(** A sequence that is not complete within the cut is not taken. *)
Lemma cut_open (p q t : list Ascii.ascii) max :
  wf_seq (byte_of <$> q) → length p ≤ max < length p + length q →
  let n := utf8_sequence_length (take (S max) (p ++ q ++ t)) (length p) in
  (if negb (Nat.eqb n 0) && Nat.leb (length p + n) max then length p + n else length p) = length p.
Proof.
  intros Hq Hb n. destruct (Nat.eqb_spec n 0) as [|Hn]; [done|]. cbn [negb andb].
  destruct (Nat.leb_spec (length p + n) max) as [Hle|]; [|done]. exfalso.
  set (l := take (S max - length p) (q ++ t)).
  assert (En : n = utf8_sequence_length l 0).
  { unfold n. rewrite usl_drop, take_app_ge, drop_app_length by lia. done. }
  assert (Hne : l ≠ []) by (intros El; unfold l in El; apply (f_equal length) in El; rewrite length_take, length_app in El; cbn in El; lia).
  destruct (usl_sound l Hne) as [_ Hw]; [by rewrite <-En|]. rewrite <-En in Hw.
  assert (Hsplit : q ++ t = take n l ++ drop n (q ++ t)).
  { unfold l. rewrite take_take, Nat.min_l by lia. by rewrite take_drop. }
  pose proof (usl_complete _ (drop n (q ++ t)) Hw) as H1. rewrite <-Hsplit, (usl_complete q t Hq) in H1.
  rewrite length_take in H1. unfold l in H1. rewrite length_take, length_app in H1. lia.
Qed.

(** One byte more than is shown is enough to know where to cut. *)
Lemma prefix_length_cut (s : list Ascii.ascii) max :
  valid_utf8 s → max < length s → utf8_prefix_length (take (S max) s) max = utf8_prefix_length s max.
Proof.
  intros Hv Hm. destruct (valid_split_at s max Hv Hm) as (p & q & t & -> & _ & Hq & _ & Hb).
  rewrite (prefix_length_start p q t max) by done. pose proof (wf_seq_length _ Hq) as Hl. rewrite length_fmap in Hl.
  unfold utf8_prefix_length. rewrite length_take_le by lia. rewrite (proj2 (Nat.leb_gt (S max) max)) by lia.
  rewrite back_up_take by lia.
  assert (Hback : back_up (p ++ q ++ t) max 3 = length p).
  { replace max with (length p + (max - length p)) by lia. apply back_up_to_start; [done|lia..]. }
  rewrite Hback. destruct (Nat.eqb_spec (length p) 0) as [Hp|Hp].
  - assert (Hc : is_continuation (byte_at (take (S max) (p ++ q ++ t)) 0) = false).
    { rewrite byte_at_take by lia. destruct p; [|done]. destruct (q !! 0) as [c|] eqn:Ec; [|apply lookup_ge_None in Ec; lia].
      pose proof (byte_at_seq [] q t 0 c Ec) as Hb'. cbn in Hb'. change ([] ++ q ++ t) with (q ++ t). rewrite Hb'.
      destruct (is_continuation (byte_of c)) eqn:E; [|done]. apply is_continuation_spec in E. exfalso.
      eapply (wf_seq_head _ (byte_of c)); [exact Hq| |exact E]. by rewrite list_lookup_fmap, Ec. }
    rewrite Hc. cbn [andb]. apply cut_open; [done|lia].
  - cbn [andb]. apply cut_open; [done|lia].
Qed.

Lemma prefix_length_all s max : valid_utf8 s →
  utf8_prefix_length s max ≤ max ∧ valid_utf8 (take (utf8_prefix_length s max) s) ∧ valid_utf8 (drop (utf8_prefix_length s max) s) ∧
  (utf8_prefix_length s max = length s ∨ max < utf8_prefix_length s max + 4).
Proof.
  intros Hv. destruct (Nat.le_gt_cases (length s) max) as [Hle|Hgt].
  - unfold utf8_prefix_length. rewrite (proj2 (Nat.leb_le _ _) Hle). rewrite firstn_all, drop_all. split_and!; [lia|done|constructor|by left].
  - destruct (valid_split_at s max Hv Hgt) as (p & q & t & -> & Hp & Hq & Ht & Hb). rewrite prefix_length_start by done.
    rewrite take_app_length, drop_app_length. pose proof (wf_seq_length _ Hq) as Hl. rewrite length_fmap in Hl.
    split_and!; [lia|done|by constructor|right; lia].
Qed.

(** The page read from a well-formed text, and what is left. *)
Lemma text_page_spec (s : list Ascii.ascii) (max : Z) :
  (0 ≤ max)%Z → valid_utf8 s →
  let '(page, more) := text_page (take (Z.to_nat (max + 1)) s) max in
  ∃ rest, s = page ++ rest ∧ valid_utf8 page ∧ valid_utf8 rest ∧ more = negb (bool_decide (rest = [])) ∧
    (rest ≠ [] → (Z.of_nat (length page) ≤ max < Z.of_nat (length page) + 4 ∧ max < Z.of_nat (length s))%Z).
Proof.
  intros Hm Hv. replace (Z.to_nat (max + 1)) with (S (Z.to_nat max)) by lia. unfold text_page. rewrite length_take.
  destruct (Z.ltb_spec max (Z.of_nat (S (Z.to_nat max) `min` length s))) as [Hlt|Hge].
  - assert (Hlen : Z.to_nat max < length s) by lia. rewrite prefix_length_cut by done.
    destruct (prefix_length_all s (Z.to_nat max) Hv) as (Hn & Hp & Hr & Hmax). set (n := utf8_prefix_length s (Z.to_nat max)) in *.
    rewrite take_take, Nat.min_l by lia. exists (drop n s). split_and!; [by rewrite take_drop|done|done| |].
    + rewrite bool_decide_false; [done|]. intros E. apply (f_equal length) in E. rewrite length_drop in E. cbn in E. lia.
    + intros _. rewrite length_take. lia.
  - assert (Hall : take (S (Z.to_nat max)) s = s) by (apply take_ge; lia). rewrite Hall. exists [].
    split_and!; [by rewrite app_nil_r|done|constructor|done|done].
Qed.

(** ** Reading back what was written *)

(** What the tools rely on from the file system: [content] is what a file
    holds.  Making directories or writing files changes no name. *)
Class FsSpec (W : Type) `{FsHost W} := {
  content : string → W → option (list Ascii.ascii);
  content_bound p b w : content p w = Some b → (Z.of_nat (length b) < 9223372036854775808)%Z;
  content_read p b off n w :
    content p w = Some b → (0 ≤ off)%Z → sys_read p off n w = Some (take (Z.to_nat n) (drop (Z.to_nat off) b));
  content_file p b w : content p w = Some b →
    sys_exists p w = true ∧ sys_is_directory p w = false ∧ sys_file_size p w = Some (Z.of_nat (length b));
  content_write p b w :
    (Z.of_nat (length b) < 9223372036854775808)%Z → (sys_write p false b w).2 = Some true →
    content p (sys_write p false b w).1 = Some b;
  write_names p app b p' w :
    sys_canonical p' (sys_write p app b w).1 = sys_canonical p' w ∧ sys_absolute p' (sys_write p app b w).1 = sys_absolute p' w;
  create_names d p' w :
    sys_canonical p' (sys_create_directories d w).1 = sys_canonical p' w ∧
    sys_absolute p' (sys_create_directories d w).1 = sys_absolute p' w
}.

Section Reading.
Context {W : Type} `{FsSpec W} `{Host W} `{JsonParser}.

Lemma read_page full b off max (w : W) :
  content full w = Some b → (0 ≤ off ≤ Z.of_nat (length b))%Z → (0 ≤ max)%Z → valid_utf8 (drop (Z.to_nat off) b) → chr 0 ∉ b →
  ∃ page rest, drop (Z.to_nat off) b = page ++ rest ∧ valid_utf8 rest ∧
    (rest ≠ [] → (Z.of_nat (length page) ≤ max < Z.of_nat (length page) + 4 ∧
                  max < Z.of_nat (length (drop (Z.to_nat off) b)))%Z) ∧
    read_text full off max (Z.of_nat (length b)) w =
      Ok (mkToolResult (of_bytes page +:+ (if bool_decide (rest = []) then ""
                          else more_note max (Z.of_nat (length b)) (off + Z.of_nat (length page)))) [] [] false).
Proof.
  intros Hc Hoff Hmax Hv Hnul. pose proof (content_bound full b w Hc) as Hbound.
  set (s := drop (Z.to_nat off) b) in *. pose proof (text_page_spec s max Hmax Hv) as Hpage.
  assert (Hread : sys_read full off (if (off <? Z.of_nat (length b)) || (Z.of_nat (length b) =? 0) then max + 1 else 0)%Z w =
            Some (take (Z.to_nat (max + 1)) s)).
  { rewrite (content_read full b) by (done || lia). f_equal. fold s.
    destruct (Z.ltb_spec off (Z.of_nat (length b))), (Z.eqb_spec (Z.of_nat (length b)) 0); cbn [orb]; [done..|].
    assert (s = []) as -> by (unfold s; apply drop_ge; lia). by rewrite !take_nil. }
  unfold read_text. rewrite Hread. destruct (text_page _ max) as [page more]. destruct Hpage as (rest & Hs & Hp & Hr & -> & Hle).
  exists page, rest. split_and!; [done|done|done|].
  assert (Hnp : chr 0 ∉ page).
  { intros Hin. apply Hnul. rewrite <-(take_drop (Z.to_nat off) b). fold s. rewrite Hs. set_solver. }
  rewrite bool_decide_false by done. rewrite sanitize_id by done.
  assert (Hlen : length s = length page + length rest) by (by rewrite Hs, length_app). unfold s in Hlen. rewrite length_drop in Hlen.
  rewrite u64_small by (unfold u64_modulus; lia). by destruct (bool_decide (rest = [])).
Qed.

End Reading.

(** Reading a text file from a character boundary shows whole characters
    only, as many as fit in [max_bytes], and names the offset right behind
    them, again a character boundary, unless the file ends there: following
    the offsets shows the file without gap or overlap, and with [max_bytes] of
    four or more every page makes progress. *)
Theorem read_file_pages {W : Type} `{FsSpec W} (full : string) (b : list Ascii.ascii) (off max : Z) (w : W) :
  content full w = Some b → (0 ≤ off ≤ Z.of_nat (length b))%Z → (4 ≤ max)%Z → valid_utf8 (drop (Z.to_nat off) b) → chr 0 ∉ b →
  ∃ page rest,
    drop (Z.to_nat off) b = page ++ rest ∧ valid_utf8 rest ∧ (Z.of_nat (length page) ≤ max ∨ rest = [])%Z ∧ (rest ≠ [] → page ≠ []) ∧
    read_text full off max (Z.of_nat (length b)) w =
      Ok (mkToolResult (of_bytes page +:+ (if bool_decide (rest = []) then ""
                          else more_note max (Z.of_nat (length b)) (off + Z.of_nat (length page)))) [] [] false).
Proof.
  intros Hc Hoff Hmax Hv Hnul. destruct (read_page full b off max w Hc Hoff ltac:(lia) Hv Hnul) as (page & rest & Hs & Hr & Hle & Ht).
  exists page, rest. split_and!; [done|done| | |done].
  - destruct (decide (rest = [])); [by right|left]. specialize (Hle n). lia.
  - intros Hne ->. specialize (Hle Hne). cbn in Hle. lia.
Qed.

(** Text written with [write_file] comes back from [read_file] as it was. *)
Theorem write_then_read {W : Type} `{FsSpec W} `{Host W} `{JsonParser} (ctx : WorkspaceContext) (path text : string)
    (args args' msg : string) (w w' : W) :
  parse_json args = Some (JObj [("path", JStr path); ("content", JStr text)]) → parse_json args' = Some (JObj [("path", JStr path)]) →
  (∀ full, (sys_write full false (bytes text) (sys_create_directories (parent_path full) w).1).2 ≠ Some false) →
  write_file_cb ctx args w = (w', Ok msg) →
  (∀ full, resolve_path ctx path w = Ok full → media_mime_for full = "") →
  valid_utf8 (bytes text) → chr 0 ∉ bytes text → (Z.of_nat (String.length text) ≤ kReadDefaultBytes)%Z →
  (read_file_cb ctx args' w').2 = Ok (mkToolResult text [] [] false).
Proof.
  intros Ha Ha' Hdisk Hw Hmime Hv Hnul Hlen. set (fs := [("path", JStr path); ("content", JStr text)]) in *.
  assert (Hp : parse_obj args = Some fs ∧ parse_obj args' = Some [("path", JStr path)]) by (unfold parse_obj; by rewrite Ha, Ha').
  destruct Hp as [Hp Hp'].
  assert (Hargs : last_string "path" fs = path ∧ content_argument fs = (text, true) ∧ last_accepted "create_dirs" get_bool fs true = true) by done.
  destruct Hargs as (E1 & E2 & E3). unfold write_file_cb in Hw. rewrite Hp, E1, E2, E3 in Hw. cbn [negb] in Hw.
  destruct (is_empty path) eqn:Epath; [done|]. destruct (resolve_path ctx path w) as [full|e] eqn:Er; [|done].
  set (w1 := (sys_create_directories (parent_path full) w).1) in *.
  destruct (sys_write full false (bytes text) w1) as [w2 [[]|]] eqn:Ew; [|by destruct (Hdisk full); fold w1; rewrite Ew|done].
  injection Hw as <- <-.
  pose proof (content_write full (bytes text) w1) as Hc. rewrite Ew, bytes_length in Hc.
  specialize (Hc ltac:(unfold kReadDefaultBytes in Hlen; lia) eq_refl). cbn [fst] in Hc.
  assert (Hres : resolve_path ctx path w2 = Ok full).
  { rewrite <-Er. unfold resolve_path. destruct (ctx_workspace_dir ctx) as [ws|]; [|done]. unfold resolve_under_workspace, canonical_or_absolute.
    assert (Hn : ∀ p, sys_canonical p w2 = sys_canonical p w ∧ sys_absolute p w2 = sys_absolute p w).
    { intros p. destruct (write_names full false (bytes text) p w1) as [N1 N2]. destruct (create_names (parent_path full) p w) as [N3 N4].
      rewrite Ew in N1, N2. cbn [fst] in N1, N2. fold w1 in N3, N4. by rewrite N1, N2, N3, N4. }
    destruct (Hn ws) as [-> ->]. by destruct (Hn (join_user_path ws path)) as [-> ->]. }
  assert (Hargs : last_string "path" [("path", JStr path)] = path ∧ last_accepted "offset" get_offset [("path", JStr path)] 0%Z = 0%Z ∧
    last_accepted "max_bytes" get_max_bytes [("path", JStr path)] kReadDefaultBytes = kReadDefaultBytes) by done.
  destruct Hargs as (E4 & E5 & E6). unfold read_file_cb. rewrite Hp', E4, E5, E6, Epath, Hres. destruct (content_file full (bytes text) w2 Hc) as (-> & -> & ->).
  cbn [negb]. rewrite (Hmime full eq_refl). cbn [is_empty snd].
  destruct (read_page full (bytes text) 0 kReadDefaultBytes w2 Hc) as (page & rest & Hs & _ & Hle & ->); [lia|done|by rewrite drop_0|done|].
  cbn in Hs. rewrite drop_0 in Hs. destruct (decide (rest = [])) as [->|Hne].
  - rewrite bool_decide_true, append_nil_r by done. rewrite app_nil_r in Hs. by rewrite <-Hs, of_bytes_bytes.
  - exfalso. destruct (Hle Hne) as [_ Hlt]. rewrite drop_0, bytes_length in Hlt. lia.
Qed.

(** ** Results are JSON *)

Definition safe_text (s : list Ascii.ascii) : string := of_bytes (sanitize_utf8 s).

Lemma safe_text_valid s : valid_utf8 (bytes (safe_text s)).
Proof. unfold safe_text. rewrite bytes_of_bytes. apply sanitize_valid. Qed.

Definition command_tree (r : CommandResult) : json :=
  JObj ([("exit_code", JInt (cr_exit_code r)); ("timed_out", JBool (cr_timed_out r)); ("cancelled", JBool (cr_cancelled r));
         ("output", JStr (safe_text (cr_output r)))] ++
        match cr_sandbox_warnings r with [] => [] | ws => [("sandbox_warning", JStr (join_warnings ws))] end).

Lemma render_command_tree r : render_command r = render (command_tree r).
Proof.
  unfold render_command, command_tree, safe_text. destruct (cr_sandbox_warnings r) as [|x ws]; cbn [app]; unfold bool_text; render_eq.
Qed.

Definition entry_tree (e : DirEntry) : json :=
  JObj ([("name", JStr (safe_text (bytes (de_name e)))); ("type", JStr (if de_is_dir e then "dir" else "file"))] ++
        match de_size e with Some n => [("size", JInt n)] | None => [] end).

Lemma render_entry_tree e : render_entry e = render (entry_tree e).
Proof. unfold render_entry, entry_tree, safe_text. destruct (de_size e), (de_is_dir e); cbn [app]; render_eq. Qed.

(** The text of a command's result is a JSON document with its exit code and
    its output, made well-formed. *)
Theorem command_result_parses `{JsonParserSpec} (r : CommandResult) :
  (-2147483648 ≤ cr_exit_code r < 2147483648)%Z → Forall (λ x, valid_utf8 (bytes x)) (cr_sandbox_warnings r) →
  parse_json (render_command r) = Some (command_tree r).
Proof.
  intros He Hws. rewrite render_command_tree. apply parse_render. unfold command_tree.
  assert (Hj : ∀ ws joined, Forall (λ x, valid_utf8 (bytes x)) ws → valid_utf8 (bytes joined) →
    valid_utf8 (bytes (foldl (λ joined w, joined +:+ (if is_empty joined then "" else " ") +:+ w) joined ws))).
  { induction ws as [|x ws IH]; intros joined Hf Hv; [done|]. apply Forall_cons in Hf as [Hx Hf]. cbn [foldl]. apply IH; [done|].
    rewrite !bytes_app. apply valid_app; [done|]. apply valid_app; [|done]. apply valid_ascii. destruct (is_empty joined); by repeat constructor. }
  assert (Hk : ∀ k : string, Forall (λ c, (byte_of c < 128)%N) (bytes k) → valid_utf8 (bytes k)) by (intros; by apply valid_ascii).
  destruct (cr_sandbox_warnings r) as [|x ws] eqn:Ew; cbn [app json_ok foldr fst snd]; split_and!; try done; try lia;
    try apply safe_text_valid; try (apply Hk; by repeat constructor). apply Hj; [done|constructor].
Qed.

(** ** A file system in memory *)

Module FsSample.

(** Regular files by their canonical path; a disk that can be full, and one on
    which paths cannot be resolved. *)
Record Disk := mkDisk { stored : gmap string (list Ascii.ascii); full_disk : bool; broken_links : bool }.

Definition file_at (p : string) (w : Disk) : option (list Ascii.ascii) := stored w !! p.

Definition put_file (p : string) (b : list Ascii.ascii) (w : Disk) : Disk * option bool :=
  if full_disk w then (mkDisk (<[p := []]> (stored w)) true (broken_links w), Some false)
  else (mkDisk (<[p := b]> (stored w)) false (broken_links w), Some true).

(** Two canonical names; every other path leads to the root directory. *)
Definition canon (p : string) (w : Disk) : option string :=
  if decide (path_elements p = ["/"; "ws"]) then Some "/ws"
  else if decide (path_elements p = ["/"; "ws"; "a.txt"]) then Some "/ws/a.txt"
  else if broken_links w then None else Some "/".

#[export] Instance disk_host : FsHost Disk := {|
  sys_canonical := canon;
  sys_absolute p _ := inr p;
  sys_exists p w := bool_decide (is_Some (file_at p w));
  sys_is_directory _ _ := false;
  sys_status p w := match file_at p w with Some _ => Some RegularFile | None => Some NotFound end;
  sys_file_size p w := (λ b, Z.of_nat (length b)) <$> file_at p w;
  sys_read p off n w := (λ b, take (Z.to_nat n) (drop (Z.to_nat off) b)) <$> file_at p w;
  sys_write p app b w := put_file p (if app then default [] (file_at p w) ++ b else b) w;
  sys_list _ _ := [];
  sys_create_directories _ w := (w, None);
  sys_remove_all p w := (mkDisk (delete p (stored w)) (full_disk w) (broken_links w), inr 1%Z);
  sys_rename p p' w := (match file_at p w with Some b => mkDisk (<[p' := b]> (delete p (stored w))) (full_disk w) (broken_links w) | None => w end, None);
  sys_copy_file p p' w := (w, None);
  sys_run_shell _ _ _ _ _ w := (w, Ok (mkCommandResult 0 false false [] []))
|}.

#[export] Instance disk_clock : Host Disk :=
  {| now_ms w := (w, 0%Z); new_char _ := 0%Z; absolute_path _ p := Some p |}.

#[export] Instance reader : JsonParser := RefParser.parser.

Definition box : WorkspaceContext := mkWorkspaceContext (Some "/ws") true default_sandbox.

Definition args (path text : string) : string := render (JObj [("path", JStr path); ("content", JStr text)]).

Definition empty_disk : Disk := mkDisk ∅ false false.

(** Paths are resolved inside the workspace only. *)
Example escapes_refused :
  (write_file_cb box (args "/etc/passwd" "x") empty_disk).2 =
    fail SandboxViolation "Path is outside workspace_dir (sandbox mode is enabled): /".
Proof. vm_compute. reflexivity. Qed.

(** When [weakly_canonical] fails, the check is made on the path as written:
    one that leads out of the workspace by its parent directory passes. *)
Example lexical_check_leads_out :
  resolve_path box "a/../../etc/passwd" (mkDisk ∅ false true) = Ok "/ws/a/../../etc/passwd".
Proof. vm_compute. reflexivity. Qed.

(** A write that fails after the file was opened is reported as done. *)
Example failed_write_reported_done :
  let '(w, r) := write_file_cb box (args "a.txt" "hello") (mkDisk ∅ true false) in
  r = Ok "wrote 5 bytes to /ws/a.txt" ∧ file_at "/ws/a.txt" w = Some [].
Proof. vm_compute. split; reflexivity. Qed.

(** With fewer bytes than the next character has, reading makes no progress:
    the offset to go on at is the one it was called with. *)
Example small_pages_stall :
  read_text "/ws/euro" 0 2 3 (mkDisk {["/ws/euro" := chr <$> [0xE2; 0x82; 0xAC]%N]} false false) =
    Ok (mkToolResult (more_note 2 3 0) [] [] false).
Proof. vm_compute. reflexivity. Qed.

Lemma canon_cases p c w : canon p w = Some c → c = "/ws" ∨ c = "/ws/a.txt" ∨ (c = "/" ∧ broken_links w = false).
Proof. unfold canon. repeat case_decide; [| |destruct (broken_links w); [done|]]; intros [= <-]; auto. Qed.

#[export] Instance disk_canonical : CanonicalSpec Disk.
Proof.
  split.
  - intros p c w Hc. assert (Hroot : canon "/" w = if broken_links w then None else Some "/") by done.
    apply canon_cases in Hc as [->|[->|[-> E]]]; [done|done|]. cbn. by rewrite Hroot, E.
  - intros p c w Hc. apply canon_cases in Hc as [->|[->|[-> _]]]; by apply (bool_decide_unpack _).
  - intros p c w Hc _. by apply canon_cases in Hc as [->|[->|[-> _]]].
  - intros p p' w E. cbn. unfold canon. by rewrite E.
Qed.

#[export] Instance disk_spec : FsSpec Disk.
Proof.
  refine {| content p w := match file_at p w with
                           | Some b => if (Z.of_nat (length b) <? 9223372036854775808)%Z then Some b else None
                           | None => None end |}.
  - intros p b w. destruct (file_at p w) as [x|]; [|done]. destruct (Z.ltb_spec (Z.of_nat (length x)) 9223372036854775808); [|done].
    by intros [= <-].
  - intros p b off n w. cbn. destruct (file_at p w) as [x|]; [|done]. destruct (_ <? _)%Z; [|done]. by intros [= <-].
  - intros p b w. cbn. destruct (file_at p w) as [x|]; [|done]. destruct (_ <? _)%Z; [|done]. intros [= <-].
    split_and!; [by rewrite bool_decide_true|done|done].
  - intros p b w Hb. cbn. unfold put_file. destruct (full_disk w); [done|]. intros _. cbn. unfold file_at. cbn. rewrite lookup_insert_eq.
    by rewrite (proj2 (Z.ltb_lt _ _) Hb).
  - intros p app b p' w. cbn. unfold put_file, canon. by destruct (full_disk w).
  - done.
Defined.

(** Files outside the workspace. *)
Definition same_outside (w w' : Disk) : Prop := ∀ p, is_prefix_path "/ws" p = false → file_at p w' = file_at p w.

#[export] Instance same_outside_preorder : PreOrder same_outside.
Proof. split; [by intros w p|]. intros w1 w2 w3 H12 H23 p Hp. by rewrite H23, H12. Qed.

(** Where every path is resolved, what the tools may do leaves the files outside
    the workspace alone. *)
Lemma changes_outside w0 w w' :
  (∀ p, is_Some (sys_canonical p w0)) → changes (within "/ws" w0) "/ws" "/ws" w0 w w' → same_outside w w'.
Proof.
  intros Hcan. assert (Hu : ¬ unresolved w0) by (intros [q Hq]; destruct (Hcan q); congruence).
  induction 1 as [|p app b w w' [Hp _] _ IH|p w w' _ _ IH|p w w' _ _ IH|p w w' [Hp _] _ _ IH|p p' w w' [Hp _] _ [Hp' _] _ IH|]; try done.
  - intros x Hx. rewrite (IH x Hx). cbn. assert (p ≠ x) by congruence. unfold put_file, file_at. destruct (full_disk w); cbn; by rewrite lookup_insert_ne.
  - intros x Hx. rewrite (IH x Hx). unfold file_at. cbn. rewrite lookup_delete_ne; [done|congruence].
  - intros x Hx. rewrite (IH x Hx). unfold file_at. cbn. unfold file_at. destruct (stored w !! p); [|done]. cbn.
    rewrite lookup_insert_ne, lookup_delete_ne by congruence. done.
Qed.

End FsSample.

#[local] Existing Instances FsSample.disk_host FsSample.disk_clock FsSample.reader FsSample.disk_canonical FsSample.disk_spec
  FsSample.same_outside_preorder.


Lemma read_file_pages_witness :
  let w := FsSample.mkDisk {["/ws/a.txt" := bytes "hello world"]} false false in
  ∃ page rest, bytes "hello world" = page ++ rest ∧ page ≠ [].
Proof.
  intros w. destruct (read_file_pages "/ws/a.txt" (bytes "hello world") 0 5 w) as (page & rest & Hs & _ & Hle & Hne & _).
  - vm_compute. reflexivity.
  - vm_compute. split; discriminate.
  - lia.
  - apply valid_ascii. by repeat constructor.
  - by apply (bool_decide_unpack _).
  - exists page, rest. split; [exact Hs|]. intros ->. apply Hne; [|done]. intros ->. discriminate Hs.
Defined.

Lemma write_then_read_witness :
  let w := (write_file_cb FsSample.box (FsSample.args "a.txt" "hello") FsSample.empty_disk).1 in
  (read_file_cb FsSample.box (render (JObj [("path", JStr "a.txt")])) w).2 = Ok (mkToolResult "hello" [] [] false).
Proof.
  intros w.
  apply (write_then_read FsSample.box "a.txt" "hello" (FsSample.args "a.txt" "hello") _ "wrote 5 bytes to /ws/a.txt" FsSample.empty_disk).
  - vm_compute. reflexivity.
  - vm_compute. reflexivity.
  - intros full. cbn. discriminate.
  - subst w. destruct (write_file_cb _ _ _) as [w' r] eqn:E.
    assert (Hr : (write_file_cb FsSample.box (FsSample.args "a.txt" "hello") FsSample.empty_disk).2 = Ok "wrote 5 bytes to /ws/a.txt")
      by (vm_compute; reflexivity).
    rewrite E in Hr. cbn in Hr. by rewrite Hr.
  - intros full Hf. assert (Hr : resolve_path FsSample.box "a.txt" FsSample.empty_disk = Ok "/ws/a.txt") by (vm_compute; reflexivity).
    rewrite Hr in Hf. injection Hf as <-. vm_compute. reflexivity.
  - apply valid_ascii. by repeat constructor.
  - by apply (bool_decide_unpack _).
  - vm_compute. discriminate.
Defined.
