(* ===== verification/EngineIpc.v ===== *)
(** * The engine wire protocol (src/core/engines/engine_ipc.hpp)

    Frames between the core and an engine host process: a [Writer] that appends
    to a buffer and may place large payloads in a shared-memory segment, and a
    [Reader] over a received frame that checks every length and offset.  The
    integers travel in the byte order of the machine, here little-endian.

    A pointer and a length of the C structs ([agent_str], the arrays of parts,
    messages, shapes and calls) are one value: [None] is the null pointer, and
    [Some l] is an array whose length is that of [l].  A part keeps its [size]
    beside the bytes, so that a view that would leave its buffer is visible.

    [Reader] keeps the flag [ok_] of the source: after a failure scalars read
    as 0 and strings as null.  The [Arena] its methods are given is a field.

    The codec law [Codec] says of a write and a read function: whatever the
    segment, what was written reads back as the value's [norm] (null for the
    empty array), taking a known number of arena bytes.  Laws are proved once
    per shape and composed; [run_frame_roundtrip] and
    [response_frame_roundtrip] are the two ends of a call. *)
From stdpp Require Import base strings list.
From Stdlib Require Import Lia ZArith.
From S2P Require Import Prelude Arena.

Local Open Scope Z_scope.

(** ** Bytes and integers *)

Abbreviation byte := Ascii.ascii.

Definition len {A : Type} (l : list A) : Z := Z.of_nat (length l).

Definition byte_of_Z (z : Z) : byte := Ascii.ascii_of_N (Z.to_N (z `mod` 256)).

(** The [n] low bytes of a two's complement value. *)
Fixpoint le_bytes (n : nat) (z : Z) : list byte :=
  match n with
  | O => []
  | S n => byte_of_Z z :: le_bytes n (z / 256)
  end.

Fixpoint le_value (l : list byte) : Z :=
  match l with
  | [] => 0
  | c :: t => Z.of_N (byte_of c) + 256 * le_value t
  end.

Definition i64 (z : Z) : Z := (z + 2 ^ 63) `mod` 2 ^ 64 - 2 ^ 63.

(** ** The structs of include/agent-cpp/engine_abi.h *)

Definition agent_str : Type := option (list byte).

(** The bytes of a view; a null pointer has none. *)
Definition view (s : agent_str) : list byte := default [] s.

Definition str_of (s : string) : agent_str := Some (bytes s).

Definition text_of (s : agent_str) : string := of_bytes (view s).

Record agent_part := mkPart {
  part_kind : Z;
  part_text : agent_str;
  part_path : agent_str;
  part_mime : agent_str;
  part_name : agent_str;
  part_dtype : Z;
  part_shape : option (list Z);
  part_data : option (list byte);
  part_size : Z
}.

Record agent_tool_call := mkToolCall {
  call_id : agent_str;
  call_name : agent_str;
  call_arguments : agent_str
}.

Record agent_message := mkAgentMessage {
  msg_role : agent_str;
  msg_parts : option (list agent_part);
  msg_calls : option (list agent_tool_call);
  msg_call_id : agent_str
}.

(** [on_chunk] and [on_progress] with the user data they are given; [cancel]
    reads the flag it points at. *)
Record agent_request (W : Type) := mkAgentRequest {
  rq_task : Z;
  rq_flags : Z;
  rq_messages : option (list agent_message);
  rq_tools_json : agent_str;
  rq_params_json : agent_str;
  rq_output_dir : agent_str;
  rq_on_chunk : option (Z → list byte → W → W);
  rq_on_progress : option (Z → Z → W → W);
  rq_cancel : option (W → Z)
}.
Arguments mkAgentRequest {W}.
Arguments rq_task {W}.
Arguments rq_flags {W}.
Arguments rq_messages {W}.
Arguments rq_tools_json {W}.
Arguments rq_params_json {W}.
Arguments rq_output_dir {W}.
Arguments rq_on_chunk {W}.
Arguments rq_on_progress {W}.
Arguments rq_cancel {W}.

Record agent_response := mkAgentResponse {
  rs_message : agent_message;
  rs_prompt_tokens : Z;
  rs_completion_tokens : Z
}.

(** Status codes. *)
Definition AGENT_OK : Z := 0.
Definition AGENT_ERR_UNSUPPORTED : Z := 2.
Definition AGENT_ERR_INIT_FAILED : Z := 4.
Definition AGENT_ERR_DECODE_FAILED : Z := 6.
Definition AGENT_ERR_PARSE : Z := 9.
Definition AGENT_ERR_CANCELLED : Z := 10.

Definition AGENT_ENGINE_ABI_VERSION : Z := 2.

(** ** Protocol constants *)

Definition kProtocolVersion : Z := 2.
Definition kHeaderSize : Z := 16.
Definition kMaxFrame : Z := 1073741824.

(** [Msg] has a fixed underlying type: any 32-bit value can be one. *)
Definition Msg : Type := Z.
Definition MsgCreate : Msg := 1.
Definition MsgRun : Msg := 2.
Definition MsgCancel : Msg := 3.
Definition MsgCountTokens : Msg := 4.
Definition MsgResetCache : Msg := 5.
Definition MsgDestroy : Msg := 6.
Definition MsgShutdown : Msg := 7.
Definition MsgRelease : Msg := 8.
Definition MsgReady : Msg := 100.
Definition MsgError : Msg := 101.
Definition MsgCreated : Msg := 102.
Definition MsgChunk : Msg := 103.
Definition MsgProgress : Msg := 104.
Definition MsgResponse : Msg := 105.
Definition MsgCount : Msg := 106.
Definition MsgDone : Msg := 107.

Definition kHasCountTokens : Z := 1.
Definition kHasResetCache : Z := 2.
Definition kShmCapable : Z := 1.
Definition kRunStream : Z := 1.
Definition kRunProgress : Z := 2.

(** src/core/engines/engine_shm.hpp. *)
Definition kShmThreshold : Z := 64 * 1024.
Definition kShmAlign : Z := 64.
Definition shm_align_up (n : Z) : Z := align_up n kShmAlign.

(** ** Encoding *)

(** [base] is the segment's memory, [None] the null pointer. *)
Record ShmOut := mkShmOut {
  shm_base : option (list byte);
  shm_size : Z;
  shm_used : Z;
  shm_threshold : Z;
  shm_count : Z
}.

Record Writer := mkWriter {
  out_ : list byte;
  start_ : Z;
  shm_ : option ShmOut
}.

(** [explicit Writer(std::string &out)]. *)
Definition Writer_new (out : list byte) : Writer := mkWriter out 0 None.

(** Method calls in a row. *)
Definition calls (ops : list (Writer → Writer)) (w : Writer) : Writer := foldl (λ w f, f w) w ops.

Definition w_raw (p : list byte) (w : Writer) : Writer := mkWriter (out_ w ++ p) (start_ w) (shm_ w).
Definition w_u32 (v : Z) : Writer → Writer := w_raw (le_bytes 4 v).
Definition w_i32 (v : Z) : Writer → Writer := w_raw (le_bytes 4 v).
Definition w_u64 (v : Z) : Writer → Writer := w_raw (le_bytes 8 v).
Definition w_i64 (v : Z) : Writer → Writer := w_raw (le_bytes 8 v).

Definition begin (type : Msg) (id : Z) (w : Writer) : Writer :=
  calls [w_u32 0; w_u32 type; w_u64 id] (mkWriter (out_ w) (len (out_ w)) (shm_ w)).

Definition set_shm (shm : option ShmOut) (w : Writer) : Writer := mkWriter (out_ w) (start_ w) shm.

(** [memcpy(mem + off, d, size)]. *)
Definition write_at (mem : list byte) (off : Z) (d : list byte) : list byte :=
  take (Z.to_nat off) mem ++ d ++ drop (Z.to_nat off + length d) mem.

Definition finish (w : Writer) : Writer * bool :=
  let payload := u64 (len (out_ w) - start_ w - kHeaderSize) in
  if kMaxFrame <? payload then (w, false)
  else (mkWriter (write_at (out_ w) (start_ w) (le_bytes 4 payload)) (start_ w) (shm_ w), true).

Definition w_str (s : agent_str) : Writer → Writer := calls [w_u32 (len (view s)); w_raw (view s)].

Definition w_blob (p : option (list byte)) (n : Z) : Writer → Writer :=
  calls [w_u64 n; w_raw (default [] p)].

(** The payload in the segment, when it is large enough and fits. *)
Definition place (o : ShmOut) (d : list byte) (n : Z) : option (Z * ShmOut) :=
  match shm_base o with
  | Some mem =>
      if (shm_threshold o <=? n) && (n <=? u64 (shm_size o - shm_used o)) then
        let used := shm_align_up (u64 (shm_used o + n)) in
        let used := if shm_size o <? used then shm_size o else used in
        Some (shm_used o, mkShmOut (Some (write_at mem (shm_used o) d)) (shm_size o) used (shm_threshold o) (shm_count o + 1))
      else None
  | None => None
  end.

Definition w_data (p : option (list byte)) (n : Z) (w : Writer) : Writer :=
  let w := w_u64 n w in
  let inline := calls [w_u32 0; w_raw (default [] p)] w in
  match p, shm_ w with
  | Some d, Some o =>
      match place o d n with
      | Some (off, o') => set_shm (Some o') (calls [w_u32 1; w_u64 off] w)
      | None => inline
      end
  | _, _ => inline
  end.

(** The number of elements, then each of them; a null array has none. *)
Definition w_counted {A : Type} (f : A → Writer → Writer) (l : option (list A)) : Writer → Writer :=
  calls [w_u32 (len (default [] l)); calls (f <$> default [] l)].

Definition w_part (p : agent_part) : Writer → Writer :=
  calls [w_u32 (part_kind p); w_str (part_text p); w_str (part_path p); w_str (part_mime p); w_str (part_name p);
         w_u32 (part_dtype p); w_counted w_i64 (part_shape p);
         w_data (part_data p) (match part_data p with Some _ => part_size p | None => 0 end)].

Definition w_call (c : agent_tool_call) : Writer → Writer :=
  calls [w_str (call_id c); w_str (call_name c); w_str (call_arguments c)].

Definition w_message (m : agent_message) : Writer → Writer :=
  calls [w_str (msg_role m); w_counted w_part (msg_parts m); w_counted w_call (msg_calls m); w_str (msg_call_id m)].

Definition w_request {W : Type} (r : agent_request W) (run_flags : Z) : Writer → Writer :=
  calls [w_u32 (rq_task r); w_u32 (rq_flags r); w_u32 run_flags; w_counted w_message (rq_messages r);
         w_str (rq_tools_json r); w_str (rq_params_json r); w_str (rq_output_dir r)].

Definition w_response (r : agent_response) : Writer → Writer :=
  calls [w_message (rs_message r); w_i32 (rs_prompt_tokens r); w_i32 (rs_completion_tokens r)].

(** The segment of a frame ("shm" in the protocol description): its name and
    size, and the name of a segment to unmap. *)
Definition w_shm_header (name : agent_str) (size : Z) (retire : agent_str) : Writer → Writer :=
  calls [w_str name; w_u64 size; w_str retire].

(** Segment bytes that place every payload of at least [threshold] bytes. *)
Definition part_shm_bytes (threshold : Z) (p : agent_part) : Z :=
  match part_data p with
  | Some _ => if threshold <=? part_size p then shm_align_up (part_size p) else 0
  | None => 0
  end.

Definition message_shm_bytes (threshold : Z) (m : agent_message) : Z :=
  foldl (λ n p, u64 (n + part_shm_bytes threshold p)) 0 (default [] (msg_parts m)).

Definition request_shm_bytes {W : Type} (threshold : Z) (r : agent_request W) : Z :=
  foldl (λ n m, u64 (n + message_shm_bytes threshold m)) 0 (default [] (rq_messages r)).

(** ** Decoding *)

Record Reader := mkReader {
  rest_ : list byte; (* the bytes from [p_] to [end_] *)
  ok_ : bool;
  seg_ : option (list byte); (* [shm_base_] *)
  seg_size_ : Z;
  arena_ : Arena;
  arena_exhausted_ : bool
}.

Definition no_arena : Arena := mkArena 0 None 0.

Definition Reader_new (data : list byte) : Reader := mkReader data true None 0 no_arena false.

Definition with_arena (a : Arena) (r : Reader) : Reader :=
  mkReader (rest_ r) (ok_ r) (seg_ r) (seg_size_ r) a (arena_exhausted_ r).

Definition r_set_shm (base : list byte) (size : Z) (r : Reader) : Reader :=
  mkReader (rest_ r) (ok_ r) (Some base) size (arena_ r) (arena_exhausted_ r).

Definition at_end (r : Reader) : bool := ok_ r && (len (rest_ r) =? 0).

(** Computations of the reader; those that return [false] answer [None]. *)
Definition R (A : Type) : Type := Reader → A * Reader.

#[global] Instance R_ret : MRet R := λ A a r, (a, r).
#[global] Instance R_bind : MBind R := λ A B f m r, let '(a, r') := m r in f a r'.

Definition ask_reader {A : Type} (f : Reader → A) : R A := λ r, (f r, r).

Definition or_false {A B : Type} (m : R (option A)) (k : A → R (option B)) : R (option B) :=
  o ← m; match o with Some a => k a | None => mret None end.

Notation "x ←? m ; k" := (or_false m (λ x, k)) (at level 100, m at next level, right associativity) : agent_scope.
Local Open Scope agent_scope.

Definition set_bad (arena : bool) (r : Reader) : Reader :=
  mkReader (rest_ r) false (seg_ r) (seg_size_ r) (arena_ r) (arena_exhausted_ r || arena).

Definition r_fail {A : Type} (arena : bool) : R (option A) := λ r, (None, set_bad arena r).

Definition r_take (n : Z) : R (option (list byte)) := λ r,
  if negb (ok_ r) || (len (rest_ r) <? n) then (None, set_bad false r)
  else (Some (take (Z.to_nat n) (rest_ r)),
        mkReader (drop (Z.to_nat n) (rest_ r)) true (seg_ r) (seg_size_ r) (arena_ r) (arena_exhausted_ r)).

Definition r_scalar (n : Z) : R Z :=
  b ← r_take n; mret (match b with Some b => le_value b | None => 0 end).

Definition r_u32 : R Z := r_scalar 4.
Definition r_i32 : R Z := v ← r_scalar 4; mret (i32 v).
Definition r_u64 : R Z := r_scalar 8.

Definition r_str : R agent_str :=
  n ← r_u32; b ← r_take n; mret (match b with Some b => if n =? 0 then None else Some b | None => None end).

(** The view is only used when the reader is still fine afterwards. *)
Definition r_bytes (n : Z) : R (option (list byte)) := λ r,
  if len (rest_ r) <? n then (None, set_bad false r) else r_take n r.

(** [arena.allocate_span<T>(n)]: whether the span has [n] elements. *)
Definition r_span (size_of n : Z) : R bool := λ r,
  let '(a, sp) := allocate_span (arena_ r) size_of 8 n in (span_size sp =? n, with_arena a r).

Definition kShapeSize : Z := 8.
Definition kPartSize : Z := 112.
Definition kCallSize : Z := 48.
Definition kMessageSize : Z := 64.

Fixpoint r_repeat {A : Type} (f : R (option A)) (n : nat) : R (option (list A)) :=
  match n with
  | O => mret (Some [])
  | S n => a ←? f; l ←? r_repeat f n; mret (Some (a :: l))
  end.

(** An array of [n] structs of [size_of] bytes, each read by [f]; refused when
    the frame cannot hold [n] encodings of [least] bytes. *)
Definition r_array {A : Type} (size_of least : Z) (f : R (option A)) (n : Z) : R (option (option (list A))) :=
  r ← ask_reader id;
  if negb (ok_ r) || (len (rest_ r) / least <? n) then r_fail false
  else if n =? 0 then mret (Some None)
  else
    fits ← r_span size_of n;
    if negb fits then r_fail true
    else l ←? r_repeat f (Z.to_nat n); mret (Some (Some l)).

(** The count of an array, then the array. *)
Definition r_counted {A : Type} (size_of least : Z) (f : R (option A)) : R (option (option (list A))) :=
  n ← r_u32; r_array size_of least f n.

Definition r_i64 : R (option Z) := v ← r_scalar 8; mret (Some (i64 v)).

(** The payload: inline, or a view of the mapped segment. *)
Definition r_data (size loc : Z) : R (option (option (list byte))) :=
  if loc =? 0 then
    d ← r_bytes size; r ← ask_reader id;
    if ok_ r then mret (Some d) else mret None
  else if loc =? 1 then
    off ← r_u64; r ← ask_reader id;
    match seg_ r with
    | Some mem =>
        if negb (ok_ r) || (seg_size_ r <? off) || (u64 (seg_size_ r - off) <? size) then r_fail false
        else mret (Some (Some (take (Z.to_nat size) (drop (Z.to_nat off) mem))))
    | None => r_fail false
    end
  else r_fail false.

(** The bytes of a part and their number. *)
Definition r_payload : R (option (option (list byte) * Z)) :=
  size ← r_u64; loc ← r_u32;
  data ←? r_data size loc;
  mret (Some (if size =? 0 then None else data, size)).

Definition r_part : R (option agent_part) :=
  kind ← r_u32; text ← r_str; path ← r_str; mime ← r_str; name ← r_str; dtype ← r_u32;
  shape ←? r_counted kShapeSize 8 r_i64;
  data ←? r_payload;
  mret (Some (mkPart kind text path mime name dtype shape data.1 data.2)).

(** Strings do not report failures one by one. *)
Definition r_call : R (option agent_tool_call) :=
  id ← r_str; name ← r_str; arguments ← r_str; mret (Some (mkToolCall id name arguments)).

Definition return_ok {A : Type} (a : A) : R (option A) := λ r, (if ok_ r then Some a else None, r).

Definition r_message : R (option agent_message) :=
  role ← r_str;
  parts ←? r_counted kPartSize 40 r_part;
  tool_calls ←? r_counted kCallSize 12 r_call;
  tool_call_id ← r_str;
  return_ok (mkAgentMessage role parts tool_calls tool_call_id).

(** The request without its callbacks, and the run flags. *)
Definition r_request {W : Type} : R (option (agent_request W * Z)) :=
  task ← r_u32; flags ← r_u32; run_flags ← r_u32;
  messages ←? r_counted kMessageSize 16 r_message;
  tools_json ← r_str; params_json ← r_str; output_dir ← r_str;
  return_ok (mkAgentRequest task flags messages tools_json params_json output_dir None None None, run_flags).

Definition r_response : R (option agent_response) :=
  message ←? r_message;
  prompt ← r_i32; completion ← r_i32;
  return_ok (mkAgentResponse message prompt completion).

Definition r_shm_header : R (agent_str * Z * agent_str) :=
  name ← r_str; size ← r_u64; retire ← r_str; mret (name, size, retire).

Definition decode_arena_bound (payload_size : Z) : Z := u64 (payload_size * 5 + 4096).

Record FrameHeader := mkFrameHeader { h_size : Z; h_type : Msg; h_id : Z }.

(** The header of the frame at the front of [data]. *)
Definition read_header (data : list byte) : FrameHeader :=
  mkFrameHeader (le_value (take 4 data)) (le_value (take 4 (drop 4 data))) (le_value (take 8 (drop 8 data))).

(** A whole frame, as it lies in the pipe. *)
Definition frame (type : Msg) (id : Z) (payload : list byte) : list byte :=
  le_bytes 4 (len payload) ++ le_bytes 4 type ++ le_bytes 8 id ++ payload.
