(* ===== verification/EngineIpcTheory.v ===== *)
(** * What the engine wire protocol guarantees

    A law [law f m v need least] relates a write [f] and a read [m]: from any
    segment state [f] appends bytes from which [m] reads [v], consuming them
    all and [need] arena bytes; the value's own struct, of at most [4 * least]
    bytes, is charged by the array that holds it, which is why the bytes bound
    [need + 4 * least].  The laws of integers, strings, payloads and counted
    arrays compose to those of requests and responses. *)
From stdpp Require Import base strings list sets.
From Stdlib Require Import Lia ZArith.
From S2P Require Import Prelude Arena EngineIpc.

Local Open Scope Z_scope.
Local Open Scope agent_scope.

(** ** Integers *)

Lemma byte_of_Z_value (z : Z) : Z.of_N (byte_of (byte_of_Z z)) = z `mod` 256.
Proof.
  unfold byte_of, byte_of_Z. pose proof (Z.mod_pos_bound z 256).
  rewrite Ascii.N_ascii_embedding; [|lia]. lia.
Qed.

Lemma le_bytes_length (n : nat) (z : Z) : length (le_bytes n z) = n.
Proof. revert z. induction n as [|n IH]; intros z; simpl; [done|]. by rewrite IH. Qed.

Lemma le_value_le_bytes (n : nat) (z : Z) : le_value (le_bytes n z) = z `mod` 256 ^ Z.of_nat n.
Proof.
  revert z. induction n as [|n IH]; intros z; [by rewrite Z.mod_1_r|].
  cbn [le_bytes le_value]. rewrite IH, byte_of_Z_value, Nat2Z.inj_succ, Z.pow_succ_r by lia.
  rewrite Z.rem_mul_r by lia. lia.
Qed.

Lemma i64_small (z : Z) : - 2 ^ 63 ≤ z < 2 ^ 63 → i64 z = z.
Proof. intros H. unfold i64. rewrite Z.mod_small; lia. Qed.

Lemma i32_wrapped (z : Z) : -2147483648 ≤ z < 2147483648 → i32 (z `mod` 2 ^ 32) = z.
Proof.
  intros H. unfold i32. change (2 ^ 32) with 4294967296.
  rewrite Zplus_mod_idemp_l. rewrite Z.mod_small; lia.
Qed.

Lemma i64_wrapped (z : Z) : - 2 ^ 63 ≤ z < 2 ^ 63 → i64 (z `mod` 2 ^ 64) = z.
Proof. intros H. unfold i64. rewrite Zplus_mod_idemp_l. rewrite Z.mod_small; lia. Qed.

Lemma len_app {A : Type} (l k : list A) : len (l ++ k) = len l + len k.
Proof. unfold len. rewrite length_app. lia. Qed.

Lemma len_nonneg {A : Type} (l : list A) : 0 ≤ len l.
Proof. unfold len. lia. Qed.

Lemma len_le_bytes (n : nat) (z : Z) : len (le_bytes n z) = Z.of_nat n.
Proof. unfold len. by rewrite le_bytes_length. Qed.

Lemma take_len {A : Type} (l k : list A) : take (Z.to_nat (len l)) (l ++ k) = l.
Proof. unfold len. rewrite Nat2Z.id. apply take_app_length. Qed.

Lemma drop_len {A : Type} (l k : list A) : drop (Z.to_nat (len l)) (l ++ k) = k.
Proof. unfold len. rewrite Nat2Z.id. apply drop_app_length. Qed.

Create HintDb wire.
Create Rewrite HintDb wire.
#[local] Hint Rewrite @len_app len_le_bytes : wire.

(** ** Arena room *)

(** The decoder's allocations are multiples of 8 bytes, so an aligned arena
    spends exactly what is asked for. *)
Definition has_room (a : Arena) (need : Z) : Prop :=
  ∃ p, ptr_ a = Some p ∧ 0 < p ∧ (8 | p) ∧ (8 | offset_ a) ∧ 0 ≤ offset_ a ∧
       offset_ a + need ≤ capacity_ a ∧ p + capacity_ a ≤ 2 ^ 62.

Definition room (a : Arena) (need : Z) : Prop := 0 < need → has_room a need.

Definition bump (a : Arena) (need : Z) : Arena := mkArena (capacity_ a) (ptr_ a) (offset_ a + need).

Lemma bump_0 a : bump a 0 = a.
Proof. unfold bump. rewrite Z.add_0_r. by destruct a. Qed.

Lemma bump_bump a m n : bump (bump a m) n = bump a (m + n).
Proof. unfold bump. simpl. f_equal. lia. Qed.

Lemma room_split a m n :
  (8 | m) → 0 ≤ m → 0 ≤ n → room a (m + n) → room a m ∧ room (bump a m) n.
Proof.
  intros Hd Hm Hn Hr. split; intros Hpos; destruct Hr as (p & ? & ? & ? & ? & ? & ? & ?); try lia.
  - exists p. repeat (split; [done|]). lia.
  - exists p. simpl. repeat (split; [first [done|lia|by apply Z.divide_add_r]|]). lia.
Qed.

Lemma align_up_aligned (addr : Z) :
  0 ≤ addr → addr + 4096 ≤ 2 ^ 64 → (8 | addr) → align_up addr 8 = addr.
Proof.
  intros H0 H1 [k Hk]. destruct (align_up_spec addr 8) as [Hr [j Hj]]; [|done..|].
  - exists 3. split; [lia|done].
  - lia.
Qed.

Lemma span_in_room (a : Arena) (size_of n : Z) :
  0 < n → 0 < size_of → (8 | size_of) → has_room a (size_of * n) →
  ∃ mem, allocate_span a size_of 8 n = (bump a (size_of * n), Some (mem, n)).
Proof.
  intros Hn Hs Hd (p & Hp & Hp0 & Hd1 & Hd2 & Ho & Hc & Hcap).
  unfold allocate_span, allocate. rewrite Hp.
  destruct (Z.eqb_spec n 0) as [|_]; [lia|].
  rewrite (u64_small (size_of * n)) by (unfold u64_modulus; nia).
  destruct (Z.eqb_spec (size_of * n) 0) as [|_]; [nia|].
  rewrite (u64_small (p + offset_ a)) by (unfold u64_modulus; nia).
  rewrite align_up_aligned by (first [nia|by apply Z.divide_add_r]).
  replace (p + offset_ a - p) with (offset_ a) by lia.
  rewrite (u64_small (offset_ a)), (u64_small (offset_ a + _)) by (unfold u64_modulus; nia).
  destruct (Z.ltb_spec (capacity_ a) (offset_ a + size_of * n)) as [|_]; [lia|].
  eexists. unfold bump. by rewrite Hp.
Qed.

(** ** The segment of a frame *)

Definition shm_wf (s : option ShmOut) : Prop :=
  ∀ o mem, s = Some o → shm_base o = Some mem →
    len mem = shm_size o ∧ 0 ≤ shm_used o ≤ shm_size o ∧ shm_size o ≤ 2 ^ 62.

(** Writing goes on: what was placed stays where it is. *)
Definition shm_ext (s s' : option ShmOut) : Prop :=
  (s = None → s' = None) ∧
  ∀ o mem, s = Some o → shm_base o = Some mem →
    ∃ o' mem', s' = Some o' ∧ shm_base o' = Some mem' ∧ shm_size o' = shm_size o ∧
               shm_used o ≤ shm_used o' ∧
               take (Z.to_nat (shm_used o)) mem' = take (Z.to_nat (shm_used o)) mem.

(** The receiver maps a segment that holds what was placed. *)
Definition seg_agrees (s : option ShmOut) (seg : option (list byte)) (size : Z) : Prop :=
  ∀ o mem, s = Some o → shm_base o = Some mem →
    ∃ mem', seg = Some mem' ∧ size = shm_size o ∧ len mem' = shm_size o ∧
            take (Z.to_nat (shm_used o)) mem' = take (Z.to_nat (shm_used o)) mem.

Lemma shm_ext_refl s : shm_ext s s.
Proof. split; [done|]. intros o mem -> Hb. exists o, mem. naive_solver lia. Qed.

Lemma take_take_le {A : Type} (i j : nat) (l k : list A) :
  (i ≤ j)%nat → take j l = take j k → take i l = take i k.
Proof.
  intros Hij H. apply (f_equal (take i)) in H. by rewrite !take_take, !Nat.min_l in H.
Qed.

Lemma shm_ext_trans s1 s2 s3 : shm_ext s1 s2 → shm_ext s2 s3 → shm_ext s1 s3.
Proof.
  intros [N12 H12] [N23 H23]. split; [by auto|]. intros o mem E Eb. destruct (H12 o mem E Eb) as (o2 & m2 & E2 & Eb2 & Hs2 & Hu2 & Ht2).
  destruct (H23 o2 m2 E2 Eb2) as (o3 & m3 & E3 & Eb3 & Hs3 & Hu3 & Ht3).
  exists o3, m3. repeat (split; [first [done|lia]|]).
  rewrite <-Ht2. eapply take_take_le; [|exact Ht3]. lia.
Qed.

Lemma seg_agrees_ext s s' seg size : shm_ext s s' → seg_agrees s' seg size → seg_agrees s seg size.
Proof.
  intros [_ Hx] Ha o mem E Eb. destruct (Hx o mem E Eb) as (o' & m' & E' & Eb' & Hs & Hu & Ht).
  destruct (Ha o' m' E' Eb') as (mem' & -> & -> & Hl & Htk).
  exists mem'. repeat (split; [first [done|lia]|]).
  rewrite <-Ht. eapply take_take_le; [|exact Htk]. lia.
Qed.

(** ** The law *)

Definition emits (f : Writer → Writer) (s : option ShmOut) (bs : list byte) (s' : option ShmOut) : Prop :=
  ∀ out start, f (mkWriter out start s) = mkWriter (out ++ bs) start s'.

Definition reads {A : Type} (m : R A) (bs : list byte) (v : A) (need : Z) (seg : option (list byte)) (size : Z) : Prop :=
  ∀ rest a e, room a need →
    m (mkReader (bs ++ rest) true seg size a e) = (v, mkReader rest true seg size (bump a need) e).

Definition law {A : Type} (f : Writer → Writer) (m : R A) (v : A) (need least : Z) : Prop :=
  (8 | need) ∧ 0 ≤ need ∧
  ∀ s, shm_wf s → ∃ bs s',
    emits f s bs s' ∧ shm_wf s' ∧ shm_ext s s' ∧ need + 4 * least ≤ 4 * len bs ∧
    ∀ seg size, len bs ≤ kMaxFrame → seg_agrees s' seg size → reads m bs v need seg size.

Lemma law_pure {A : Type} (m : R A) (v : A) :
  (∀ r, ok_ r = true → m r = (v, r)) → law (calls []) m v 0 0.
Proof.
  intros Hm. split; [apply Z.divide_0_r|]. split; [done|]. intros s Hs. exists [], s.
  split; [intros out st; simpl; by rewrite app_nil_r|].
  split; [done|]. split; [apply shm_ext_refl|]. split; [done|].
  intros seg size _ _ rest a e _. simpl. rewrite Hm by done. by rewrite bump_0.
Qed.

Lemma law_ret {A : Type} (v : A) : law (calls []) (mret v) v 0 0.
Proof. by apply law_pure. Qed.

Lemma law_return_ok {A : Type} (v : A) : law (calls []) (return_ok v) (Some v) 0 0.
Proof. apply law_pure. intros r Hr. unfold return_ok. by rewrite Hr. Qed.

Lemma law_bind {A B : Type} f ops (m : R A) (k : A → R B) v v' need need' least least' :
  law f m v need least → law (calls ops) (k v) v' need' least' →
  law (calls (f :: ops)) (m ≫= k) v' (need + need') (least + least').
Proof.
  intros (Hd & H0 & H1) (Hd' & H0' & H2). split; [by apply Z.divide_add_r|]. split; [lia|].
  intros s Hs. destruct (H1 s Hs) as (bs & s1 & He & Hw & Hx & Hl & Hr).
  destruct (H2 s1 Hw) as (bs' & s2 & He' & Hw' & Hx' & Hl' & Hr').
  exists (bs ++ bs'), s2. split.
  { intros out st. change (calls (f :: ops) ?w) with (calls ops (f w)).
    by rewrite He, He', app_assoc. }
  split; [done|]. split; [by eapply shm_ext_trans|]. rewrite len_app. split; [lia|].
  intros seg size Hm Ha rest a e Hroom. pose proof (len_nonneg bs). pose proof (len_nonneg bs').
  apply room_split in Hroom as [Hr1 Hr2]; [|done..].
  unfold mbind, R_bind. rewrite <-app_assoc.
  rewrite (Hr seg size) by (first [lia|by eapply seg_agrees_ext|done]).
  rewrite (Hr' seg size) by (first [lia|done]). by rewrite bump_bump.
Qed.

Lemma law_or {A B : Type} f ops (m : R (option A)) (k : A → R (option B)) v v' need need' least least' :
  law f m (Some v) need least → law (calls ops) (k v) v' need' least' →
  law (calls (f :: ops)) (or_false m k) v' (need + need') (least + least').
Proof.
  intros H1 H2. exact (law_bind f ops m (λ o, match o with Some a => k a | None => mret None end)
    (Some v) v' _ _ _ _ H1 H2).
Qed.

Lemma law_weaken {A : Type} f (m : R A) v v' need need' least least' :
  law f m v need least → v' = v → need' = need → least' ≤ least → law f m v' need' least'.
Proof.
  intros (Hd & H0 & H) -> -> Hle. split; [done|]. split; [done|]. intros s Hs.
  destruct (H s Hs) as (bs & s' & ? & ? & ? & ? & ?). exists bs, s'. repeat (split; [first [done|lia]|]). done.
Qed.

(** ** Laws of the shapes *)

(** A write that does not touch the segment. *)
Lemma law_plain {A : Type} f (m : R A) v least bs :
  (∀ s, emits f s bs s) → least ≤ len bs →
  (∀ seg size, len bs ≤ kMaxFrame → reads m bs v 0 seg size) → law f m v 0 least.
Proof.
  intros He Hl Hr. split; [apply Z.divide_0_r|]. split; [done|]. intros s Hs.
  exists bs, s. split; [done|]. split; [done|]. split; [apply shm_ext_refl|]. split; [lia|]. auto.
Qed.

Lemma emits_raw bs s : emits (w_raw bs) s bs s.
Proof. done. Qed.

Lemma take_reads bs seg size : reads (r_take (len bs)) bs (Some bs) 0 seg size.
Proof.
  intros rest a e _. unfold r_take. simpl. rewrite len_app.
  destruct (Z.ltb_spec (len bs + len rest) (len bs)) as [H|_]; [pose proof (len_nonneg rest); lia|].
  by rewrite take_len, drop_len, bump_0.
Qed.

Lemma reads_bind {A B : Type} (m : R A) (k : A → R B) bs bs' v v' seg size :
  reads m bs v 0 seg size → reads (k v) bs' v' 0 seg size → reads (m ≫= k) (bs ++ bs') v' 0 seg size.
Proof.
  intros H1 H2 rest a e Hr. unfold mbind, R_bind. rewrite <-app_assoc, H1, bump_0, H2 by done. by rewrite bump_0.
Qed.

Lemma reads_ret {A B : Type} (m : R A) (k : A → B) bs v seg size :
  reads m bs v 0 seg size → reads (m ≫= (λ x, mret (k x))) bs (k v) 0 seg size.
Proof. intros H rest a e Hr. unfold mbind, R_bind. by rewrite H. Qed.

Lemma scalar_reads (n : nat) z seg size :
  reads (r_scalar (Z.of_nat n)) (le_bytes n z) (z `mod` 256 ^ Z.of_nat n) 0 seg size.
Proof.
  unfold r_scalar. rewrite <-le_value_le_bytes, <-(len_le_bytes n z).
  exact (reads_ret _ (λ b, match b with Some b => le_value b | None => 0 end) _ _ _ _ (take_reads _ _ _)).
Qed.

Lemma u32_reads z seg size : 0 ≤ z < 2 ^ 32 → reads r_u32 (le_bytes 4 z) z 0 seg size.
Proof. intros Hz. pose proof (scalar_reads 4 z seg size) as H. by rewrite Z.mod_small in H. Qed.

Lemma u64_reads z seg size : 0 ≤ z < 2 ^ 64 → reads r_u64 (le_bytes 8 z) z 0 seg size.
Proof. intros Hz. pose proof (scalar_reads 8 z seg size) as H. by rewrite Z.mod_small in H. Qed.

Lemma i32_reads z seg size : -2147483648 ≤ z < 2147483648 → reads r_i32 (le_bytes 4 z) z 0 seg size.
Proof.
  intros Hz. pose proof (reads_ret _ i32 _ _ _ _ (scalar_reads 4 z seg size)) as H.
  change (256 ^ Z.of_nat 4) with (2 ^ 32) in H. by rewrite i32_wrapped in H.
Qed.

Lemma i64_reads z seg size : - 2 ^ 63 ≤ z < 2 ^ 63 → reads r_i64 (le_bytes 8 z) (Some z) 0 seg size.
Proof.
  intros Hz. pose proof (reads_ret _ (λ v, Some (i64 v)) _ _ _ _ (scalar_reads 8 z seg size)) as H.
  change (256 ^ Z.of_nat 8) with (2 ^ 64) in H. cbv beta in H. by rewrite i64_wrapped in H.
Qed.

Lemma law_u32 z : 0 ≤ z < 2 ^ 32 → law (w_u32 z) r_u32 z 0 4.
Proof. intros. eapply law_plain; [intros; apply emits_raw|done|intros; by apply u32_reads]. Qed.

Lemma law_u64 z : 0 ≤ z < 2 ^ 64 → law (w_u64 z) r_u64 z 0 8.
Proof. intros. eapply law_plain; [intros; apply emits_raw|done|intros; by apply u64_reads]. Qed.

Lemma law_i32 z : -2147483648 ≤ z < 2147483648 → law (w_i32 z) r_i32 z 0 4.
Proof. intros. eapply law_plain; [intros; apply emits_raw|done|intros; by apply i32_reads]. Qed.

Lemma law_i64 z : - 2 ^ 63 ≤ z < 2 ^ 63 → law (w_i64 z) r_i64 (Some z) 0 8.
Proof. intros. eapply law_plain; [intros; apply emits_raw|done|intros; by apply i64_reads]. Qed.

(** What the wire keeps: the null pointer for an empty array. *)
Definition norm_array {A B : Type} (f : A → B) (l : option (list A)) : option (list B) :=
  match l with Some (a :: l) => Some (f <$> a :: l) | _ => None end.

Definition norm_str (s : agent_str) : agent_str := norm_array id s.

Lemma norm_str_view s : norm_str s = if len (view s) =? 0 then None else Some (view s).
Proof. destruct s as [[|c l]|]; [done| |done]. simpl. by rewrite list_fmap_id. Qed.

Lemma emits_calls2 f g s1 s2 s3 b1 b2 : emits f s1 b1 s2 → emits g s2 b2 s3 → emits (calls [f; g]) s1 (b1 ++ b2) s3.
Proof. intros Hf Hg out st. simpl. by rewrite Hf, Hg, app_assoc. Qed.

Definition str_bytes (s : agent_str) : list byte := le_bytes 4 (len (view s)) ++ view s.

Lemma emits_str s s0 : emits (w_str s) s0 (str_bytes s) s0.
Proof. unfold w_str, str_bytes. eapply emits_calls2; apply emits_raw. Qed.

Lemma str_reads s seg size : len (str_bytes s) ≤ kMaxFrame → reads r_str (str_bytes s) (norm_str s) 0 seg size.
Proof.
  unfold str_bytes. rewrite len_app, len_le_bytes. intros Hl. pose proof (len_nonneg (view s)).
  unfold kMaxFrame in Hl. unfold r_str. eapply reads_bind; [apply u32_reads; lia|].
  rewrite norm_str_view.
  exact (reads_ret _ (λ b, match b with Some b => if len (view s) =? 0 then None else Some b | None => None end)
           _ _ _ _ (take_reads _ _ _)).
Qed.

Lemma law_str s : law (w_str s) r_str (norm_str s) 0 4.
Proof.
  eapply law_plain; [apply emits_str| |intros; by apply str_reads].
  unfold str_bytes. rewrite len_app, len_le_bytes. pose proof (len_nonneg (view s)). lia.
Qed.

(** *** Arrays *)

Lemma law_map {A B : Type} f (m : R (option A)) (k : A → B) v need least :
  law f m (Some v) need least → law f (x ←? m; mret (Some (k x))) (Some (k v)) need least.
Proof.
  intros (Hd & H0 & H). split; [done|]. split; [done|]. intros s Hs.
  destruct (H s Hs) as (bs & s' & ? & ? & ? & ? & Hr). exists bs, s'. repeat (split; [done|]).
  intros seg size Hl Ha rest a e Hroom. unfold or_false, mbind, R_bind. by rewrite (Hr seg size Hl Ha).
Qed.

Definition sum_of {A : Type} (f : A → Z) (l : list A) : Z := foldr (λ a n, f a + n) 0 l.

Section Arrays.
Context {A B : Type} (write : A → Writer → Writer) (read : R (option B)) (norm : A → B) (need : A → Z).
Context (size_of least : Z).
Hypothesis (Hsize : (8 | size_of)) (Hpos : 0 < size_of) (Hleast : size_of ≤ 4 * least).

Lemma law_repeat (l : list A) :
  (∀ a, a ∈ l → law (write a) read (Some (norm a)) (need a) least) →
  law (calls (write <$> l)) (r_repeat read (length l)) (Some (norm <$> l)) (sum_of need l) (least * len l).
Proof.
  induction l as [|a l IH]; intros Hl.
  - eapply law_weaken; [apply law_ret|done|done|]. unfold len. simpl. lia.
  - cbn [fmap list_fmap length r_repeat sum_of foldr].
    eapply law_weaken; [eapply law_or; [apply Hl; set_solver|]|done|done|].
    + apply law_map, IH. set_solver.
    + unfold len. simpl. lia.
Qed.

(** A non-empty array: its structs are allocated before they are read. *)
Lemma law_array (l : list A) :
  l ≠ [] → (∀ a, a ∈ l → law (write a) read (Some (norm a)) (need a) least) →
  law (calls (write <$> l)) (r_array size_of least read (len l)) (Some (Some (norm <$> l)))
    (size_of * len l + sum_of need l) 0.
Proof.
  intros Hne Hl. destruct (law_repeat l Hl) as (Hd & H0 & H). pose proof (len_nonneg l).
  assert (0 < len l) by (destruct l; [done|]; unfold len; simpl; lia).
  split; [apply Z.divide_add_r; [by apply Z.divide_mul_l|done]|]. split; [nia|].
  intros s Hs. destruct (H s Hs) as (bs & s' & He & Hw & Hx & Hlen & Hr).
  exists bs, s'. repeat (split; [done|]). split; [nia|].
  intros seg size Hm Ha rest a e Hroom.
  assert (len l ≤ len (bs ++ rest) / least).
  { apply Z.div_le_lower_bound; [lia|]. rewrite len_app. pose proof (len_nonneg rest). nia. }
  unfold r_array, ask_reader, mbind, R_bind. simpl.
  destruct (Z.ltb_spec (len (bs ++ rest) / least) (len l)) as [|_]; [lia|]. simpl.
  destruct (Z.eqb_spec (len l) 0) as [|_]; [lia|].
  apply room_split in Hroom as [Hr1 Hr2]; [|by apply Z.divide_mul_l|nia|done].
  destruct (span_in_room a size_of (len l)) as [mem Hspan]; [done..|apply Hr1; nia|].
  unfold r_span. cbn [arena_]. rewrite Hspan. cbn [span_size]. rewrite Z.eqb_refl. simpl.
  replace (Z.to_nat (len l)) with (length l) by (unfold len; lia). unfold or_false, mbind, R_bind, with_arena. simpl.
  rewrite (Hr seg size) by done. by rewrite bump_bump.
Qed.

Lemma law_counted (l : option (list A)) :
  (∀ a, a ∈ default [] l → law (write a) read (Some (norm a)) (need a) least) →
  law (w_counted write l) (r_counted size_of least read) (Some (norm_array norm l))
    (size_of * len (default [] l) + sum_of need (default [] l)) 4.
Proof.
  intros Hl. destruct (default [] l) as [|a0 l0] eqn:El.
  - assert (norm_array norm l = None) as -> by (by destruct l as [[]|]).
    apply (law_weaken _ _ (Some None) (Some None) 0 _ 4 4); [|done|unfold len; simpl; lia|done].
    eapply law_plain.
    { intros s. unfold w_counted. rewrite El. eapply emits_calls2; [apply emits_raw|].
      intros out st. simpl. by rewrite app_nil_r. }
    { done. }
    intros seg size _. unfold r_counted. eapply reads_bind; [by apply u32_reads|].
    intros rest a e _. simpl. unfold r_array, ask_reader, mbind, R_bind. simpl.
    change (len []) with 0. destruct (Z.ltb_spec (len rest / least) 0) as [Hneg|_]; [|by rewrite bump_0].
    pose proof (Z.div_pos (len rest) least (len_nonneg rest)). lia.
  - assert (norm_array norm l = Some (norm <$> a0 :: l0)) as -> by (destruct l as [[]|]; naive_solver).
    rewrite <-El in Hl. destruct (law_array (a0 :: l0)) as (Hd & H0 & H); [done|by rewrite <-El|].
    split; [done|]. split; [done|]. intros s Hs.
    destruct (H s Hs) as (bs & s' & He & Hw & Hx & Hlen & Hr).
    exists (le_bytes 4 (len (a0 :: l0)) ++ bs), s'.
    split; [unfold w_counted; rewrite El; eapply emits_calls2; [apply emits_raw|done]|].
    split; [done|]. split; [done|]. rewrite len_app, len_le_bytes. split; [lia|].
    intros seg size Hm Ha rest a e Hroom. pose proof (len_nonneg (a0 :: l0)).
    assert (len (a0 :: l0) ≤ len bs).
    { destruct (law_repeat (a0 :: l0)) as (_ & Hs0 & _); [by rewrite <-El|].
      assert (8 ≤ size_of) by (destruct Hsize; lia). nia. }
    unfold r_counted, mbind, R_bind. rewrite <-app_assoc.
    rewrite (u32_reads _ seg size); [|unfold kMaxFrame in Hm; lia|intros ?; lia].
    rewrite bump_0. rewrite (Hr seg size); [done|lia|done..].
Qed.

End Arrays.

(** *** Payloads *)

Lemma reads_map {A B : Type} (m : R (option A)) (k : A → B) bs v seg size :
  reads m bs (Some v) 0 seg size → reads (x ←? m; mret (Some (k x))) bs (Some (k v)) 0 seg size.
Proof. intros H rest a e Hr. unfold or_false, mbind, R_bind. by rewrite H. Qed.

Lemma inline_reads d seg size : reads (r_data (len d) 0) d (Some (Some d)) 0 seg size.
Proof.
  intros rest a e Hr. unfold r_data, r_bytes, ask_reader, mbind, R_bind. simpl. rewrite len_app.
  destruct (Z.ltb_spec (len d + len rest) (len d)) as [|_]; [pose proof (len_nonneg rest); lia|].
  by rewrite (take_reads d seg size rest a e Hr).
Qed.

Lemma placed_reads d off mem seg size :
  seg = Some mem → 0 ≤ off → off + len d ≤ size → size ≤ 2 ^ 62 →
  take (length d) (drop (Z.to_nat off) mem) = d →
  reads (r_data (len d) 1) (le_bytes 8 off) (Some (Some d)) 0 seg size.
Proof.
  intros -> Ho Hd Hs Hmem rest a e Hr. pose proof (len_nonneg d).
  unfold r_data, ask_reader, mbind, R_bind. cbn [Z.eqb Pos.eqb].
  rewrite (u64_reads off (Some mem) size) by (first [lia|done]). rewrite bump_0. simpl.
  destruct (Z.ltb_spec size off) as [|_]; [lia|].
  rewrite (u64_small (size - off)) by (unfold u64_modulus; lia).
  destruct (Z.ltb_spec (size - off) (len d)) as [|_]; [lia|]. simpl.
  replace (Z.to_nat (len d)) with (length d) by (unfold len; lia). by rewrite Hmem.
Qed.

(** What [place] leaves in the segment. *)
Lemma place_spec o d off o' mem :
  shm_wf (Some o) → shm_base o = Some mem → place o d (len d) = Some (off, o') →
  shm_wf (Some o') ∧ shm_ext (Some o) (Some o') ∧ off = shm_used o ∧ shm_size o' = shm_size o ∧
  off + len d ≤ shm_used o' ∧
  ∃ mem', shm_base o' = Some mem' ∧ take (length d) (drop (Z.to_nat off) mem') = d.
Proof.
  intros Hw Hb. destruct (Hw o mem eq_refl Hb) as (Hl & Hu & Hs). pose proof (len_nonneg d).
  unfold place. rewrite Hb. rewrite (u64_small (shm_size o - _)) by (unfold u64_modulus; lia).
  destruct (Z.leb_spec (shm_threshold o) (len d)); [|done].
  destruct (Z.leb_spec (len d) (shm_size o - shm_used o)); [|done]. intros [= <- <-].
  rewrite (u64_small (shm_used o + _)) by (unfold u64_modulus; lia).
  destruct (align_up_spec (shm_used o + len d) kShmAlign) as [Hal _]; [by exists 6|lia|lia|].
  unfold shm_align_up. unfold kShmAlign in *.
  set (used := if _ <? _ then _ else _).
  assert (shm_used o + len d ≤ used ≤ shm_size o) as Hused.
  { subst used. destruct (Z.ltb_spec (shm_size o) (align_up (shm_used o + len d) 64)); lia. }
  assert (length (take (Z.to_nat (shm_used o)) mem) = Z.to_nat (shm_used o)) as Htk.
  { rewrite length_take. unfold len in *. lia. }
  split_and!; [| |done|done|simpl; lia|].
  - intros o1 m1 [= <-]. simpl. intros [= <-]. split; [|lia].
    unfold write_at, len in *. rewrite !length_app, length_take, length_drop. lia.
  - split; [done|]. intros o1 m1 [= <-] Hb1. rewrite Hb in Hb1. injection Hb1 as <-.
    eexists _, _. split; [done|]. simpl. repeat (split; [first [done|lia]|]).
    unfold write_at. rewrite take_app_le by lia. by rewrite take_take, Nat.min_id.
  - eexists. split; [done|]. unfold write_at. rewrite drop_app_ge by lia.
    rewrite Htk, Nat.sub_diag. simpl. apply take_app_length.
Qed.

Lemma slice_agrees {A : Type} (i j n : nat) (l k : list A) :
  (i + n ≤ j)%nat → take j l = take j k → take n (drop i l) = take n (drop i k).
Proof.
  intros Hij H. rewrite !take_drop_commute. by rewrite (take_take_le (i + n) j l k).
Qed.

Definition payload_wf (p : option (list byte)) (n : Z) : Prop :=
  match p with Some d => n = len d | None => n = 0 end.

Lemma data_emits p n s :
  payload_wf p n →
  (emits (w_data p n) s (le_bytes 8 n ++ le_bytes 4 0 ++ default [] p) s) ∨
  ∃ o d off o', s = Some o ∧ p = Some d ∧ place o d n = Some (off, o') ∧
    emits (w_data p n) s (le_bytes 8 n ++ le_bytes 4 1 ++ le_bytes 8 off) (Some o').
Proof.
  intros _. destruct p as [d|]; [|left; intros out st; simpl; unfold w_raw; simpl; by rewrite <-!app_assoc].
  destruct s as [o|]; [|left; intros out st; simpl; unfold w_raw; simpl; by rewrite <-!app_assoc].
  destruct (place o d n) as [[off o']|] eqn:E.
  - right. exists o, d, off, o'. repeat (split; [done|]). intros out st. unfold w_data. simpl. rewrite E.
    unfold set_shm, w_raw. simpl. by rewrite <-!app_assoc.
  - left. intros out st. unfold w_data. simpl. rewrite E. unfold w_raw. simpl. by rewrite <-!app_assoc.
Qed.

Definition norm_payload (p : option (list byte)) (n : Z) : option (list byte) * Z :=
  (if n =? 0 then None else p, n).

Lemma payload_reads p n loc bs d seg size :
  0 ≤ n < 2 ^ 64 → (loc = 0 ∨ loc = 1) → (n ≠ 0 → d = p) →
  reads (r_data n loc) bs (Some d) 0 seg size →
  reads r_payload (le_bytes 8 n ++ le_bytes 4 loc ++ bs) (Some (norm_payload p n)) 0 seg size.
Proof.
  intros Hn Hloc Hd H. unfold r_payload, norm_payload. eapply reads_bind; [by apply u64_reads|].
  eapply reads_bind; [apply u32_reads; lia|].
  replace (if n =? 0 then None else p) with (if n =? 0 then None else d)
    by (destruct (Z.eqb_spec n 0); [done|by apply Hd]).
  exact (reads_map _ (λ data, (if n =? 0 then None else data, n)) _ _ _ _ H).
Qed.

Lemma law_data p n :
  payload_wf p n → n ≤ 2 ^ 62 → law (w_data p n) r_payload (Some (norm_payload p n)) 0 12.
Proof.
  intros Hp Hn. assert (0 ≤ n) by (destruct p; simpl in Hp; subst; [apply len_nonneg|done]).
  split; [apply Z.divide_0_r|]. split; [done|]. intros s Hs.
  destruct (data_emits p n s Hp) as [He|(o & d & off & o' & -> & -> & Hpl & He)].
  - eexists _, s. split; [exact He|]. split; [done|]. split; [apply shm_ext_refl|].
    rewrite !len_app, !len_le_bytes. pose proof (len_nonneg (default [] p)). split; [lia|].
    intros seg size _ _. apply (payload_reads _ _ _ _ (Some (default [] p))); [lia|by left| |].
    + intros Hn0. by destruct p.
    + replace n with (len (default [] p)) by (by destruct p). apply inline_reads.
  - simpl in Hp. subst n. unfold place in Hpl. destruct (shm_base o) as [mem|] eqn:Hb; [|done].
    assert (place o d (len d) = Some (off, o')) as Hpl' by (unfold place; by rewrite Hb).
    destruct (place_spec o d off o' mem Hs Hb Hpl') as (Hw' & Hx & -> & Hsz & Hu & mem' & Hb' & Hm).
    eexists _, (Some o'). split; [exact He|]. split; [done|]. split; [done|].
    rewrite !len_app, !len_le_bytes. split; [lia|].
    intros seg size _ Ha. destruct (Ha o' mem' eq_refl Hb') as (m2 & -> & -> & Hl2 & Ht).
    destruct (Hs o mem eq_refl Hb) as (_ & Hu0 & Hs0). destruct (Hw' o' mem' eq_refl Hb') as (_ & Hu1 & _).
    apply (payload_reads _ _ _ _ (Some d)); [lia|by right|done|].
    apply (placed_reads d _ m2); [done|lia|lia|lia|].
    rewrite <-Hm at 2. eapply slice_agrees; [|exact Ht]. unfold len in *. lia.
Qed.

(** ** Messages, requests, responses *)

Definition u32_range (z : Z) : Prop := 0 ≤ z < 2 ^ 32.

Record part_wf (p : agent_part) : Prop := {
  pw_kind : u32_range (part_kind p);
  pw_dtype : u32_range (part_dtype p);
  pw_shape : Forall (λ z, - 2 ^ 63 ≤ z < 2 ^ 63) (default [] (part_shape p));
  pw_data : ∀ d, part_data p = Some d → part_size p = len d;
  pw_size : part_size p ≤ 2 ^ 62
}.

Definition message_wf (m : agent_message) : Prop := Forall part_wf (default [] (msg_parts m)).

Definition request_wf {W : Type} (r : agent_request W) : Prop :=
  u32_range (rq_task r) ∧ u32_range (rq_flags r) ∧ Forall message_wf (default [] (rq_messages r)).

Definition response_wf (r : agent_response) : Prop :=
  message_wf (rs_message r) ∧ -2147483648 ≤ rs_prompt_tokens r < 2147483648 ∧
  -2147483648 ≤ rs_completion_tokens r < 2147483648.

(** The bytes [w_part] announces. *)
Definition payload_size (p : agent_part) : Z := match part_data p with Some _ => part_size p | None => 0 end.

Definition norm_part (p : agent_part) : agent_part :=
  let d := norm_payload (part_data p) (payload_size p) in
  mkPart (part_kind p) (norm_str (part_text p)) (norm_str (part_path p)) (norm_str (part_mime p))
    (norm_str (part_name p)) (part_dtype p) (norm_array id (part_shape p)) d.1 d.2.

Definition norm_call (c : agent_tool_call) : agent_tool_call :=
  mkToolCall (norm_str (call_id c)) (norm_str (call_name c)) (norm_str (call_arguments c)).

Definition norm_message (m : agent_message) : agent_message :=
  mkAgentMessage (norm_str (msg_role m)) (norm_array norm_part (msg_parts m)) (norm_array norm_call (msg_calls m))
    (norm_str (msg_call_id m)).

(** The callbacks stay on their side of the pipe. *)
Definition norm_request {W W' : Type} (r : agent_request W) : agent_request W' :=
  mkAgentRequest (rq_task r) (rq_flags r) (norm_array norm_message (rq_messages r)) (norm_str (rq_tools_json r))
    (norm_str (rq_params_json r)) (norm_str (rq_output_dir r)) None None None.

Definition norm_response (r : agent_response) : agent_response :=
  mkAgentResponse (norm_message (rs_message r)) (rs_prompt_tokens r) (rs_completion_tokens r).

(** Arena bytes of the arrays below a value. *)
Definition part_need (p : agent_part) : Z :=
  kShapeSize * len (default [] (part_shape p)) + sum_of (λ _, 0) (default [] (part_shape p)).

Definition message_need (m : agent_message) : Z :=
  (kPartSize * len (default [] (msg_parts m)) + sum_of part_need (default [] (msg_parts m))) +
  (kCallSize * len (default [] (msg_calls m)) + sum_of (λ _, 0) (default [] (msg_calls m))).

Definition request_need {W : Type} (r : agent_request W) : Z :=
  kMessageSize * len (default [] (rq_messages r)) + sum_of message_need (default [] (rq_messages r)).

#[local] Hint Resolve law_u32 law_i32 law_u64 law_str law_ret law_return_ok : wire.
#[local] Hint Extern 1 (_ ≤ _ < _) => lia : wire.

(** One field after the other. *)
Ltac law_fields :=
  repeat (cbv beta;
    match goal with
    | |- law (calls (_ :: _)) (or_false _ _) _ _ _ => eapply law_or; [solve [eauto with wire]|]
    | |- law (calls (_ :: _)) (mbind _ _) _ _ _ => eapply law_bind; [solve [eauto with wire]|]
    end).

Lemma law_shape (l : option (list Z)) :
  Forall (λ z, - 2 ^ 63 ≤ z < 2 ^ 63) (default [] l) →
  law (w_counted w_i64 l) (r_counted kShapeSize 8 r_i64) (Some (norm_array id l))
    (kShapeSize * len (default [] l) + sum_of (λ _, 0) (default [] l)) 4.
Proof.
  intros Hl. apply (law_counted w_i64 r_i64 id (λ _, 0)); [by exists 1|done|done|].
  intros z Hz. rewrite Forall_forall in Hl. by apply law_i64, Hl.
Qed.

Lemma law_part p : part_wf p → law (w_part p) r_part (Some (norm_part p)) (part_need p) 40.
Proof.
  intros [Hk Hd Hsh Hda Hsz]. unfold u32_range in *.
  eapply law_weaken; [unfold w_part, r_part; law_fields| | |].
  - eapply law_or; [by apply law_shape|].
    eapply law_or; [|apply law_ret]. apply law_data.
    + destruct (part_data p); simpl; [by apply Hda|done].
    + destruct (part_data p); [done|lia].
  - done.
  - unfold part_need. lia.
  - lia.
Qed.

Lemma law_call c : law (w_call c) r_call (Some (norm_call c)) 0 12.
Proof. unfold w_call, r_call. eapply law_weaken; [law_fields; apply law_ret|done|lia|lia]. Qed.

Lemma law_message m : message_wf m → law (w_message m) r_message (Some (norm_message m)) (message_need m) 16.
Proof.
  intros Hm. eapply law_weaken; [unfold w_message, r_message; law_fields| | |].
  - eapply law_or.
    { apply (law_counted w_part r_part norm_part part_need); [by exists 14|done|done|].
      intros p Hp. unfold message_wf in Hm. rewrite Forall_forall in Hm. by apply law_part, Hm. }
    eapply law_or.
    { apply (law_counted w_call r_call norm_call (λ _, 0)); [by exists 6|done|done|]. intros. apply law_call. }
    law_fields. apply law_return_ok.
  - done.
  - unfold message_need. lia.
  - lia.
Qed.

Lemma law_request {W W' : Type} (r : agent_request W) (run_flags : Z) :
  request_wf r → u32_range run_flags →
  law (w_request r run_flags) (r_request (W := W')) (Some (norm_request r, run_flags)) (request_need r) 28.
Proof.
  intros (Ht & Hf & Hm) Hrf. unfold u32_range in *.
  eapply law_weaken; [unfold w_request, r_request; law_fields| | |].
  - eapply law_or.
    { apply (law_counted w_message r_message norm_message message_need); [by exists 8|done|done|].
      intros m Hin. rewrite Forall_forall in Hm. by apply law_message, Hm. }
    law_fields. apply law_return_ok.
  - done.
  - unfold request_need. lia.
  - lia.
Qed.

Lemma law_response (r : agent_response) :
  response_wf r →
  law (w_response r) r_response (Some (norm_response r)) (message_need (rs_message r)) 24.
Proof.
  intros (Hm & Hp & Hc). eapply law_weaken; [unfold w_response, r_response| | |].
  - eapply law_or; [by apply law_message|]. law_fields. apply law_return_ok.
  - done.
  - lia.
  - lia.
Qed.

(** ** Frames *)

Lemma read_header_frame type id payload rest :
  u32_range type → 0 ≤ id < 2 ^ 64 → len payload < 2 ^ 32 →
  read_header (frame type id payload ++ rest) = mkFrameHeader (len payload) type id.
Proof.
  intros Ht Hi Hl. unfold read_header, frame, u32_range in *. pose proof (len_nonneg payload).
  assert (∀ (n : nat) z k, take n (le_bytes n z ++ k) = le_bytes n z) as Htk.
  { intros. apply take_app_length'. by rewrite le_bytes_length. }
  assert (∀ (n : nat) z k, drop n (le_bytes n z ++ k) = k) as Hdr.
  { intros. apply drop_app_length'. by rewrite le_bytes_length. }
  assert (drop 8 ((le_bytes 4 (len payload) ++ le_bytes 4 type ++ le_bytes 8 id ++ payload) ++ rest)
          = le_bytes 8 id ++ payload ++ rest) as ->.
  { rewrite <-!app_assoc. change 8%nat with (4 + 4)%nat at 1. rewrite <-drop_drop, Hdr. apply Hdr. }
  rewrite <-!app_assoc, Hdr, !Htk, !le_value_le_bytes. rewrite !Z.mod_small by lia. done.
Qed.

Lemma frame_length type id payload : len (frame type id payload) = kHeaderSize + len payload.
Proof. unfold frame. rewrite !len_app, !len_le_bytes. unfold kHeaderSize. lia. Qed.

Lemma begin_empty type id s :
  begin type id (mkWriter [] 0 s) = mkWriter (le_bytes 4 0 ++ le_bytes 4 type ++ le_bytes 8 id) 0 s.
Proof.
  unfold begin, calls, w_u32, w_u64, w_raw. cbn [foldl out_ start_ shm_ app]. by rewrite <-!app_assoc.
Qed.

(** [finish] closes the frame or reports that it is too large. *)
Lemma finish_frame type id f s bs s' :
  emits f s bs s' → len bs < 2 ^ 63 →
  finish (f (begin type id (mkWriter [] 0 s))) =
    if kMaxFrame <? len bs
    then (mkWriter (le_bytes 4 0 ++ le_bytes 4 type ++ le_bytes 8 id ++ bs) 0 s', false)
    else (mkWriter (frame type id bs) 0 s', true).
Proof.
  intros He Hl. pose proof (len_nonneg bs).
  rewrite begin_empty, He, <-!app_assoc. unfold finish. cbn [out_ start_ shm_].
  rewrite !len_app, !len_le_bytes. unfold kHeaderSize.
  replace (Z.of_nat 4 + (Z.of_nat 4 + (Z.of_nat 8 + len bs)) - 0 - 16) with (len bs) by lia.
  rewrite (u64_small (len bs)) by (unfold u64_modulus; lia).
  destruct (kMaxFrame <? len bs); [done|]. unfold write_at, frame. cbn [Z.to_nat take app].
  rewrite le_bytes_length. by rewrite drop_app_length' by (by rewrite le_bytes_length).
Qed.

Lemma emits_set_shm s s' : emits (set_shm s') s [] s'.
Proof. intros out st. unfold set_shm. simpl. by rewrite app_nil_r. Qed.

Lemma emits_cons f ops s1 s2 s3 b1 b2 :
  emits f s1 b1 s2 → emits (calls ops) s2 b2 s3 → emits (calls (f :: ops)) s1 (b1 ++ b2) s3.
Proof. intros Hf Hg out st. change (calls (f :: ops) ?w) with (calls ops (f w)). by rewrite Hf, Hg, app_assoc. Qed.

Lemma emits_nil s : emits (calls []) s [] s.
Proof. intros out st. simpl. by rewrite app_nil_r. Qed.

(** A slab as the decoders get it: aligned and unused. *)
Definition fresh_arena (a : Arena) : Prop :=
  ∃ p, ptr_ a = Some p ∧ 0 < p ∧ (8 | p) ∧ offset_ a = 0 ∧ p + capacity_ a ≤ 2 ^ 62.

Lemma fresh_arena_room a n need :
  fresh_arena a → 0 ≤ n ≤ kMaxFrame → decode_arena_bound n ≤ capacity_ a → need ≤ 4 * n → room a need.
Proof.
  intros (p & Hp & Hp0 & Hd & Ho & Hc) Hn Hb Hneed _. unfold decode_arena_bound, kMaxFrame in *.
  rewrite u64_small in Hb by (unfold u64_modulus; lia).
  exists p. rewrite Ho. repeat (split; [first [done|apply Z.divide_0_r]|]). lia.
Qed.

(** The memory a receiver maps is the one the sender filled. *)
Definition shares (s : option ShmOut) (seg : option (list byte)) (size : Z) : Prop :=
  match s with
  | Some o => match shm_base o with Some mem => seg = Some mem ∧ size = shm_size o | None => True end
  | None => True
  end.

Lemma shares_agrees s seg size : shm_wf s → shares s seg size → seg_agrees s seg size.
Proof.
  intros Hw Hs o mem -> Hb. simpl in Hs. rewrite Hb in Hs. destruct Hs as [-> ->].
  exists mem. destruct (Hw o mem eq_refl Hb) as (Hl & _). done.
Qed.

Definition header_bytes (name : agent_str) (size : Z) (retire : agent_str) : list byte :=
  str_bytes name ++ le_bytes 8 size ++ str_bytes retire.

Lemma emits_header name size retire s :
  emits (w_shm_header name size retire) s (header_bytes name size retire) s.
Proof.
  unfold w_shm_header, header_bytes. rewrite <-(app_nil_r (str_bytes retire)).
  repeat first [eapply emits_cons; [first [apply emits_str|apply emits_raw]|] | apply emits_nil].
Qed.

Lemma header_reads name size retire seg sz :
  0 ≤ size < 2 ^ 64 → len (header_bytes name size retire) ≤ kMaxFrame →
  reads r_shm_header (header_bytes name size retire) (norm_str name, size, norm_str retire) 0 seg sz.
Proof.
  unfold header_bytes. rewrite !len_app, len_le_bytes. intros Hs Hl.
  pose proof (len_nonneg (str_bytes name)). pose proof (len_nonneg (str_bytes retire)).
  unfold r_shm_header. eapply reads_bind; [apply str_reads; lia|].
  eapply reads_bind; [apply u64_reads; lia|].
  exact (reads_ret _ (λ r, (norm_str name, size, r)) _ _ _ _ (str_reads retire seg sz ltac:(lia))).
Qed.

Definition framed_calls (type : Msg) (id : Z) name size retire shm body : list (Writer → Writer) :=
  [begin type id; w_shm_header name size retire; set_shm shm; body].

(** A Run or Response frame: header, segment, body.  [m] and [v] come from the
    law of what follows the segment's name. *)
Lemma framed {A : Type} (body : Writer → Writer) (m : R (option A)) v need least type id name size retire shm :
  law body m (Some v) need least → 0 ≤ least → shm_wf shm → 0 ≤ size < 2 ^ 64 →
  len (out_ (calls (framed_calls type id name size retire shm body) (Writer_new []))) < 2 ^ 63 →
  let '(w, fits) := finish (calls (framed_calls type id name size retire shm body) (Writer_new [])) in
  shm_wf (shm_ w) ∧ shm_ext shm (shm_ w) ∧
  (fits = true →
   ∃ payload, out_ w = frame type id payload ∧ len payload ≤ kMaxFrame ∧
    ∀ seg sz a, shares (shm_ w) seg sz → fresh_arena a → decode_arena_bound (len payload) ≤ capacity_ a →
    ∃ rest r', r_shm_header (Reader_new payload) =
        ((norm_str name, size, norm_str retire), mkReader rest true None 0 no_arena false) ∧
      m (mkReader rest true seg sz a false) = (Some v, r') ∧ at_end r' = true ∧ arena_exhausted_ r' = false).
Proof.
  intros (Hd & H0 & Hlaw) Hle Hw Hs. destruct (Hlaw shm Hw) as (bs & s' & He & Hw' & Hext & Hlen & Hr).
  set (ops := calls [w_shm_header name size retire; set_shm shm; body]).
  assert (emits ops None (header_bytes name size retire ++ bs) s') as Hops.
  { rewrite <-(app_nil_l bs). eapply emits_cons; [apply emits_header|].
    eapply emits_cons; [apply emits_set_shm|]. rewrite <-(app_nil_r bs). eapply emits_cons; [exact He|apply emits_nil]. }
  change (calls (framed_calls type id name size retire shm body) (Writer_new []))
    with (ops (begin type id (mkWriter [] 0 None))).
  set (payload := header_bytes name size retire ++ bs) in *.
  intros Hsmall. assert (len payload < 2 ^ 63) as Hfit.
  { rewrite begin_empty, Hops in Hsmall. cbn [out_] in Hsmall. rewrite !len_app, !len_le_bytes in Hsmall. lia. }
  rewrite (finish_frame type id ops None payload s') by done.
  destruct (Z.ltb_spec kMaxFrame (len payload)) as [|Hmax]; [by split_and!|]. split; [done|]. split; [done|]. intros _.
  exists payload. split; [done|]. split; [done|]. intros seg sz a Hsh Ha Hb. cbn [shm_] in Hsh.
  pose proof (len_nonneg payload). pose proof (len_nonneg bs).
  pose proof (len_nonneg (header_bytes name size retire)). subst payload. rewrite len_app in *.
  eexists _, _. split.
  { unfold Reader_new. apply header_reads; [lia|lia|by intros ?]. }
  cbn [rest_]. rewrite <-(app_nil_r bs). split; [apply (Hr seg sz)|done].
  - lia.
  - by apply shares_agrees.
  - eapply (fresh_arena_room a); [done| |exact Hb|]; lia.
Qed.

(** ** Frames from anywhere

    Whatever the bytes, what a decoder accepts lies inside the frame and the
    segment: every part's bytes are as many as it says. *)

Definition reader_ok (r : Reader) : Prop :=
  len (rest_ r) ≤ 2 ^ 62 ∧ ∀ mem, seg_ r = Some mem → seg_size_ r ≤ len mem ∧ 0 ≤ seg_size_ r ≤ 2 ^ 62.

Definition yields {A : Type} (m : R A) (P : A → Prop) : Prop :=
  ∀ r v r', reader_ok r → m r = (v, r') → reader_ok r' ∧ P v.

Definition if_some {A : Type} (P : A → Prop) (o : option A) : Prop := ∀ a, o = Some a → P a.

Lemma yields_ret {A : Type} (v : A) (P : A → Prop) : P v → yields (mret v) P.
Proof. intros HP r v' r' Hr [= <- <-]. done. Qed.

Lemma yields_bind {A B : Type} (m : R A) (k : A → R B) P Q :
  yields m P → (∀ v, P v → yields (k v) Q) → yields (m ≫= k) Q.
Proof.
  intros Hm Hk r v r' Hr. unfold mbind, R_bind. destruct (m r) as [a r1] eqn:E.
  destruct (Hm r a r1 Hr E) as [Hr1 HP]. by apply Hk.
Qed.

Lemma yields_or {A B : Type} (m : R (option A)) (k : A → R (option B)) P Q :
  yields m (if_some P) → (∀ v, P v → yields (k v) (if_some Q)) → yields (or_false m k) (if_some Q).
Proof.
  intros Hm Hk. unfold or_false. eapply yields_bind; [exact Hm|]. intros [a|] Ha; [by apply Hk, Ha|].
  apply yields_ret. by intros ? ?.
Qed.

Lemma yields_weaken {A : Type} (m : R A) (P Q : A → Prop) : yields m P → (∀ v, P v → Q v) → yields m Q.
Proof. intros Hm HPQ r v r' Hr E. destruct (Hm r v r' Hr E). auto. Qed.

Lemma yields_fail {A : Type} b (P : A → Prop) : yields (r_fail b) (if_some P).
Proof. intros r v r' Hr [= <- <-]. split; [done|by intros ? ?]. Qed.

Lemma yields_return_ok {A : Type} (v : A) (P : A → Prop) : P v → yields (return_ok v) (if_some P).
Proof.
  intros HP r v' r' Hr. unfold return_ok. intros [= <- <-]. split; [done|].
  destruct (ok_ r); intros a; [by intros [= <-]|done].
Qed.

Lemma le_value_bound l : 0 ≤ le_value l < 256 ^ len l.
Proof.
  induction l as [|c l IH]; [done|]. cbn [le_value].
  pose proof (Ascii.N_ascii_bounded c) as Hc. unfold byte_of.
  replace (len (c :: l)) with (Z.succ (len l)) by (unfold len; simpl; lia).
  rewrite Z.pow_succ_r by apply len_nonneg. lia.
Qed.

Lemma yields_take n : yields (r_take n) (if_some (λ b, 0 ≤ n → len b = n)).
Proof.
  intros r v r' [Hl Hs]. unfold r_take.
  destruct (negb (ok_ r) || (len (rest_ r) <? n)) eqn:E; intros [= <- <-]; [split; [done|by intros ? ?]|].
  apply orb_false_iff in E as [_ E]. apply Z.ltb_ge in E. split.
  - split; [|done]. simpl. unfold len in *. rewrite length_drop. lia.
  - intros b [= <-] Hn. unfold len in *. rewrite length_take. lia.
Qed.

Lemma yields_scalar n : 0 ≤ n → yields (r_scalar n) (λ v, 0 ≤ v < 256 ^ n).
Proof.
  intros Hn. unfold r_scalar. eapply yields_bind; [apply yields_take|]. intros [b|] Hb; apply yields_ret.
  - rewrite <-(Hb b eq_refl Hn). apply le_value_bound.
  - split; [done|]. apply Z.pow_pos_nonneg; lia.
Qed.

Lemma yields_u32 : yields r_u32 u32_range.
Proof. by apply yields_scalar. Qed.

Lemma yields_u64 : yields r_u64 (λ v, 0 ≤ v < 2 ^ 64).
Proof. by apply yields_scalar. Qed.

Lemma yields_i32 : yields r_i32 (λ v, -2147483648 ≤ v < 2147483648).
Proof.
  unfold r_i32. eapply yields_bind; [by apply yields_scalar|]. intros v _. apply yields_ret. unfold i32.
  pose proof (Z.mod_pos_bound (v + 2147483648) 4294967296). lia.
Qed.

Lemma yields_str : yields r_str (λ _, True).
Proof.
  unfold r_str. eapply yields_bind; [apply yields_u32|]. intros n _.
  eapply yields_bind; [apply yields_take|]. intros b _. by apply yields_ret.
Qed.

Lemma yields_ask {A B : Type} (f : Reader → A) (k : A → R B) Q :
  (∀ r, reader_ok r → ∀ v r', k (f r) r = (v, r') → reader_ok r' ∧ Q v) → yields (ask_reader f ≫= k) Q.
Proof. intros H r v r' Hr E. by apply (H r Hr). Qed.

Lemma yields_repeat {A : Type} (f : R (option A)) P n :
  yields f (if_some P) → yields (r_repeat f n) (if_some (Forall P)).
Proof.
  intros Hf. induction n as [|n IH]; simpl.
  - apply yields_ret. intros a [= <-]. constructor.
  - eapply yields_or; [exact Hf|]. intros a Ha. eapply yields_or; [exact IH|]. intros l Hl.
    apply yields_ret. intros ? [= <-]. by constructor.
Qed.

Lemma yields_counted {A : Type} size_of least (f : R (option A)) P :
  yields f (if_some P) → yields (r_counted size_of least f) (if_some (λ l, Forall P (default [] l))).
Proof.
  intros Hf. unfold r_counted. eapply yields_bind; [apply yields_u32|]. intros n _. unfold r_array.
  apply yields_ask. intros r Hr v r'. simpl.
  destruct (negb (ok_ r) || (len (rest_ r) / least <? n)); [by apply yields_fail|].
  destruct (n =? 0); [intros [= <- <-]; split; [done|]; intros l [= <-]; constructor|].
  unfold mbind, R_bind, r_span. destruct (allocate_span (arena_ r) size_of 8 n) as [a sp].
  assert (reader_ok (with_arena a r)) by done.
  destruct (span_size sp =? n); [|by apply yields_fail]. simpl.
  apply (yields_or _ _ (Forall P) (λ l, Forall P (default [] l))); [by apply yields_repeat| |done].
  intros l Hl. apply yields_ret. by intros ? [= <-].
Qed.

(** The bytes of a payload, in the frame or in the segment. *)
Lemma yields_data size loc :
  0 ≤ size → yields (r_data size loc) (if_some (λ d, ∃ b, d = Some b ∧ len b = size ∧ size ≤ 2 ^ 62)).
Proof.
  intros Hsz. unfold r_data. destruct (loc =? 0); [|destruct (loc =? 1); [|apply yields_fail]].
  - intros r v r' Hr. unfold mbind, R_bind, ask_reader. destruct (r_bytes size r) as [d r1] eqn:E.
    assert (reader_ok r1 ∧ if_some (λ b, len b = size ∧ size ≤ 2 ^ 62) d) as [Hr1 Hd].
    { unfold r_bytes in E. destruct (Z.ltb_spec (len (rest_ r)) size) as [|Hle]; [injection E as <- <-; split; [done|by intros ? ?]|].
      destruct (yields_take size r d r1 Hr E) as [? Ht]. split; [done|]. intros b Hb.
      split; [by apply Ht|]. destruct Hr as [? _]. lia. }
    simpl. destruct (ok_ r1) eqn:Eok; intros [= <- <-]; [|split; [done|by intros ? ?]].
    split; [done|]. intros d' [= <-].
    destruct d as [b|]; [by exists b; destruct (Hd b eq_refl)|].
    exfalso. unfold r_bytes, r_take in E. repeat step_match E; simplify_eq; done.
  - eapply yields_bind; [apply yields_u64|]. intros off Hoff. cbv beta in Hoff. apply yields_ask. intros r Hr v r'. simpl.
    destruct (seg_ r) as [mem|] eqn:Emem; [|by apply yields_fail].
    destruct (proj2 Hr mem Emem) as (Hm & Hss).
    destruct (negb (ok_ r)) eqn:Eok; [by apply yields_fail|].
    destruct (Z.ltb_spec (seg_size_ r) off); [by apply yields_fail|].
    rewrite (u64_small (seg_size_ r - off)) by (unfold u64_modulus; lia).
    destruct (Z.ltb_spec (seg_size_ r - off) size); [by apply yields_fail|].
    intros [= <- <-]. split; [done|]. intros d [= <-]. eexists. split; [done|].
    unfold len in *. rewrite length_take, length_drop. lia.
Qed.

Lemma yields_i64 : yields r_i64 (if_some (λ z, - 2 ^ 63 ≤ z < 2 ^ 63)).
Proof.
  unfold r_i64. eapply yields_bind; [by apply yields_scalar|]. intros v _. apply yields_ret.
  intros z [= <-]. unfold i64. pose proof (Z.mod_pos_bound (v + 2 ^ 63) (2 ^ 64)). lia.
Qed.

Ltac yield_fields :=
  repeat (eapply yields_bind; [first [apply yields_u32|apply yields_i32|apply yields_str]|intros ? ?]).

Lemma yields_part : yields r_part (if_some part_wf).
Proof.
  unfold r_part. yield_fields. eapply yields_or; [apply yields_counted, yields_i64|]. intros shape Hsh.
  apply (yields_or _ _ (λ d, (∀ b, d.1 = Some b → d.2 = len b) ∧ d.2 ≤ 2 ^ 62)).
  - unfold r_payload. eapply yields_bind; [apply yields_u64|]. intros size Hsz.
    eapply yields_bind; [apply yields_u32|]. intros loc _. eapply yields_or; [apply yields_data; by destruct Hsz|].
    intros d (b & -> & Hb & Hle). apply yields_ret. intros x [= <-]. simpl. split; [|done].
    intros b'. destruct (size =? 0); [done|]. by intros [= <-].
  - intros [d n] [Hd Hn]. simpl in *. apply yields_ret. intros p [= <-]. by split.
Qed.

Lemma yields_message : yields r_message (if_some message_wf).
Proof.
  unfold r_message. yield_fields. eapply yields_or; [apply yields_counted, yields_part|]. intros parts Hp.
  apply (yields_or _ _ (λ _, True)).
  - eapply yields_weaken; [apply (yields_counted _ _ _ (λ _, True))|by intros l _ ? _].
    unfold r_call. yield_fields. apply yields_ret. by intros ? _.
  - intros cs _. yield_fields. by apply yields_return_ok.
Qed.

Lemma yields_request {W : Type} : yields (r_request (W := W)) (if_some (λ rf, request_wf rf.1 ∧ u32_range rf.2)).
Proof.
  unfold r_request. yield_fields. eapply yields_or; [apply yields_counted, yields_message|]. intros ms Hm.
  yield_fields. apply yields_return_ok. done.
Qed.

Lemma yields_response : yields r_response (if_some response_wf).
Proof.
  unfold r_response. eapply yields_or; [apply yields_message|]. intros m Hm. yield_fields.
  by apply yields_return_ok.
Qed.

(** ** Writing only appends *)

Definition appends (f : Writer → Writer) : Prop :=
  ∀ w, ∃ bs, out_ (f w) = out_ w ++ bs ∧ start_ (f w) = start_ w.

Lemma appends_raw p : appends (w_raw p).
Proof. intros w. by exists p. Qed.

Lemma appends_set_shm s : appends (set_shm s).
Proof. intros w. exists []. by rewrite app_nil_r. Qed.

Lemma appends_calls ops : Forall appends ops → appends (calls ops).
Proof.
  induction 1 as [|f ops Hf _ IH]; intros w; [exists []; by rewrite app_nil_r|].
  change (calls (f :: ops) w) with (calls ops (f w)).
  destruct (Hf w) as (b1 & E1 & S1). destruct (IH (f w)) as (b2 & E2 & S2).
  exists (b1 ++ b2). rewrite E2, S2, E1, S1. by rewrite app_assoc.
Qed.

Lemma appends_str s : appends (w_str s).
Proof. apply appends_calls. repeat constructor; apply appends_raw. Qed.

Lemma appends_blob p n : appends (w_blob p n).
Proof. apply appends_calls. repeat constructor; apply appends_raw. Qed.

Lemma appends_compose f g : appends f → appends g → appends (λ w, g (f w)).
Proof.
  intros Hf Hg w. destruct (Hf w) as (b1 & E1 & S1). destruct (Hg (f w)) as (b2 & E2 & S2).
  exists (b1 ++ b2). rewrite E2, S2, E1, S1. by rewrite app_assoc.
Qed.

Lemma appends_data p n : appends (w_data p n).
Proof.
  intros w. unfold w_data.
  assert (appends (calls [w_u32 0; w_raw (default [] p)])) as Hin by (apply appends_calls; repeat constructor; apply appends_raw).
  assert (∀ off, appends (calls [w_u32 1; w_u64 off])) as Hoff by (intros; apply appends_calls; repeat constructor; apply appends_raw).
  pose proof (appends_compose (w_u64 n) _ (appends_raw _) Hin w) as H.
  destruct p as [d|]; [|exact H]. destruct (shm_ (w_u64 n w)) as [o|]; [|exact H].
  destruct (place o d n) as [[off o']|]; [|exact H].
  apply (appends_compose _ (set_shm (Some o'))
    (appends_compose (w_u64 n) _ (appends_raw _) (Hoff off)) (appends_set_shm _)).
Qed.

Lemma appends_counted {A : Type} (f : A → Writer → Writer) l : (∀ a, appends (f a)) → appends (w_counted f l).
Proof.
  intros Hf. apply appends_calls. constructor; [apply appends_raw|]. constructor; [|constructor].
  apply appends_calls, Forall_fmap, Forall_true. intros a. apply Hf.
Qed.

Lemma appends_part p : appends (w_part p).
Proof.
  apply appends_calls. repeat constructor; try apply appends_raw; try apply appends_str; [|apply appends_data].
  apply appends_counted. intros. apply appends_raw.
Qed.

Lemma appends_message m : appends (w_message m).
Proof.
  apply appends_calls. repeat constructor; try apply appends_str; apply appends_counted.
  - apply appends_part.
  - intros c. apply appends_calls. repeat constructor; apply appends_str.
Qed.

Lemma appends_response r : appends (w_response r).
Proof. apply appends_calls. repeat constructor; try apply appends_raw. apply appends_message. Qed.

Lemma appends_request {W : Type} (r : agent_request W) fl : appends (w_request r fl).
Proof.
  apply appends_calls. repeat constructor; try apply appends_raw; try apply appends_str.
  apply appends_counted, appends_message.
Qed.

Lemma appends_header name size retire : appends (w_shm_header name size retire).
Proof. apply appends_calls. repeat constructor; try apply appends_raw; apply appends_str. Qed.

Create HintDb appends.
#[export] Hint Resolve appends_raw appends_set_shm appends_str appends_blob appends_response appends_request appends_header : appends.
#[export] Hint Extern 1 (appends (w_u32 _)) => apply appends_raw : appends.
#[export] Hint Extern 1 (appends (w_i32 _)) => apply appends_raw : appends.
#[export] Hint Extern 1 (appends (w_u64 _)) => apply appends_raw : appends.

(** The type and id of a frame, finished or not, are those it was begun with. *)
Lemma begun_header type id ops :
  Forall appends ops → u32_range type → 0 ≤ id < 2 ^ 64 →
  let h := read_header (out_ (finish (calls (begin type id :: ops) (Writer_new []))).1) in
  h_type h = type ∧ h_id h = id.
Proof.
  intros Hops Ht Hi. change (calls (begin type id :: ops) (Writer_new [])) with (calls ops (begin type id (Writer_new []))).
  unfold Writer_new. rewrite begin_empty. destruct (appends_calls ops Hops (mkWriter (le_bytes 4 0 ++ le_bytes 4 type ++ le_bytes 8 id) 0 None))
    as (bs & Eb & Es). set (w := calls ops _) in *. simpl in Es.
  assert (∃ n, out_ (finish w).1 = le_bytes 4 n ++ le_bytes 4 type ++ le_bytes 8 id ++ bs) as [n ->].
  { unfold finish. rewrite Eb, Es. destruct (kMaxFrame <? _).
    - exists 0. cbn [fst]. rewrite Eb. cbn [out_]. by rewrite <-!app_assoc.
    - eexists. cbn [fst out_]. unfold write_at. cbn [Z.to_nat take app]. rewrite le_bytes_length, <-!app_assoc.
      by rewrite drop_app_length' by (by rewrite le_bytes_length). }
  unfold read_header. cbn [h_type h_id].
  rewrite (drop_app_length' (le_bytes 4 n)) by (by rewrite le_bytes_length).
  rewrite take_app_length' by (by rewrite le_bytes_length).
  change 8%nat with (4 + 4)%nat at 2. rewrite <-drop_drop.
  rewrite (drop_app_length' (le_bytes 4 n)) by (by rewrite le_bytes_length).
  rewrite (drop_app_length' (le_bytes 4 type)) by (by rewrite le_bytes_length).
  rewrite take_app_length' by (by rewrite le_bytes_length).
  rewrite !le_value_le_bytes. unfold u32_range in *. rewrite !Z.mod_small by lia. done.
Qed.
