(* ===== verification/EngineShm.v ===== *)
(** * Shared-memory segments (src/core/engines/engine_shm.cpp)

    Named POSIX segments: the sender creates one, the receiver maps it by its
    name, and the name is removed once both have it.  [ShmOs] is the state of
    the operating system the code talks to: the directory of names, the
    objects they refer to and the mappings of all processes.  Every call that
    may fail takes the next entry of [shm_faults], so a theorem about all
    [ShmOs] is about all failures.  [Proc] is what a process adds: its pid and
    the counter [g_seq]. *)
From stdpp Require Import base gmap strings list.
From Stdlib Require Import Lia ZArith.
From S2P Require Import Prelude Arena Text EngineIpc.

Local Open Scope Z_scope.

(** ** The operating system *)

Record ShmOs := mkShmOs {
  shm_names : gmap string nat;
  shm_objects : gmap nat (list byte);
  shm_maps : gmap nat nat;
  shm_fresh : nat;
  shm_faults : list bool
}.

Record Proc := mkProc { pid : Z; g_seq : Z }.

Definition set_names (os : ShmOs) n := mkShmOs n (shm_objects os) (shm_maps os) (shm_fresh os) (shm_faults os).
Definition set_objects (os : ShmOs) o := mkShmOs (shm_names os) o (shm_maps os) (shm_fresh os) (shm_faults os).
Definition set_maps (os : ShmOs) m := mkShmOs (shm_names os) (shm_objects os) m (shm_fresh os) (shm_faults os).

(** Whether the next system call fails. *)
Definition fault (os : ShmOs) : bool * ShmOs :=
  match shm_faults os with
  | [] => (false, os)
  | b :: bs => (b, mkShmOs (shm_names os) (shm_objects os) (shm_maps os) (shm_fresh os) bs)
  end.

(** [shm_open(os, O_CREAT | O_EXCL | O_RDWR)]: a new, empty object. *)
Definition shm_open_new (name : string) (os : ShmOs) : option nat * ShmOs :=
  let '(bad, os) := fault os in
  if bad || bool_decide (is_Some (shm_names os !! name)) then (None, os)
  else (Some (shm_fresh os),
        mkShmOs (<[name := shm_fresh os]> (shm_names os)) (<[shm_fresh os := []]> (shm_objects os)) (shm_maps os)
          (S (shm_fresh os)) (shm_faults os)).

(** [shm_open(os, O_RDONLY)]. *)
Definition shm_open_existing (name : string) (os : ShmOs) : option nat * ShmOs :=
  let '(bad, os) := fault os in (if bad then None else shm_names os !! name, os).

(** Growing fills with zeros. *)
Definition ftruncate (obj : nat) (size : Z) (os : ShmOs) : bool * ShmOs :=
  let '(bad, os) := fault os in
  if bad then (false, os)
  else (true, set_objects os (alter (resize (Z.to_nat size) (Ascii.ascii_of_N 0)) obj (shm_objects os))).

Definition fstat_size (obj : nat) (os : ShmOs) : option Z * ShmOs :=
  let '(bad, os) := fault os in (if bad then None else len <$> shm_objects os !! obj, os).

(** A new address that refers to the object. *)
Definition mmap (obj : nat) (os : ShmOs) : option nat * ShmOs :=
  let '(bad, os) := fault os in
  if bad then (None, os)
  else (Some (shm_fresh os),
        mkShmOs (shm_names os) (shm_objects os) (<[shm_fresh os := obj]> (shm_maps os)) (S (shm_fresh os)) (shm_faults os)).

Definition munmap (addr : nat) (os : ShmOs) : ShmOs := set_maps os (delete addr (shm_maps os)).

(** Removing an own name succeeds; a missing one is ignored by the callers. *)
Definition shm_unlink (name : string) (os : ShmOs) : ShmOs := set_names os (delete name (shm_names os)).

(** The bytes behind an address. *)
Definition memory_at (addr : nat) (os : ShmOs) : option (list byte) := shm_maps os !! addr ≫= λ obj, shm_objects os !! obj.

Definition store_at (addr : nat) (off : Z) (d : list byte) (os : ShmOs) : ShmOs :=
  match shm_maps os !! addr with
  | Some obj => set_objects os (alter (λ mem, write_at mem off d) obj (shm_objects os))
  | None => os
  end.

(** ** Names *)

(** The digits of "%lx". *)
Fixpoint hex_digits (fuel : nat) (z : Z) : list byte :=
  match fuel with
  | O => []
  | S fuel => (if z <? 16 then [] else hex_digits fuel (z / 16)) ++ [hex_digit (Z.to_N (z `mod` 16))]
  end.

Definition to_hex (z : Z) : string := of_bytes (hex_digits 16 z).

Definition name_prefix (side : byte) (pid : Z) : string := "acpp-" +:+ String side "" +:+ to_hex pid +:+ "-".

Definition segment_name (side : byte) (pid seq : Z) : string := name_prefix side pid +:+ to_hex seq.

Definition bad_name_char (c : byte) : bool :=
  bool_decide (c = Ascii.ascii_of_N 47) || bool_decide (c = Ascii.ascii_of_N 92) || bool_decide (c = Ascii.ascii_of_N 0).

(** "/" and the name, in a buffer of 64 characters with its terminator. *)
Definition os_name (name : string) : option string :=
  if is_empty name || Nat.leb 64 (1 + String.length name) then None
  else if existsb bad_name_char (bytes name) then None
  else Some name.

(** ** Segments *)

Record Segment := mkSegment { addr_ : option nat; size_ : Z; name_ : string }.

#[global] Instance Segment_eq_dec : EqDecision Segment.
Proof. solve_decision. Defined.

Definition no_segment : Segment := mkSegment None 0 "".

Definition mapped (s : Segment) : bool := bool_decide (is_Some (addr_ s)).

Definition seg_memory (s : Segment) (os : ShmOs) : option (list byte) := addr_ s ≫= λ a, memory_at a os.

Definition unmap (s : Segment) (os : ShmOs) : Segment * ShmOs :=
  (no_segment, match addr_ s with Some a => munmap a os | None => os end).

(** The move assignment between two segments: the target, the emptied source. *)
Definition Segment_move (s other : Segment) (os : ShmOs) : Segment * Segment * ShmOs :=
  let '(_, os) := unmap s os in (other, mkSegment None 0 "", os).

Definition create (s : Segment) (size : Z) (side : byte) (p : Proc) (os : ShmOs) : bool * Segment * Proc * ShmOs :=
  let '(s, os) := unmap s os in
  if size =? 0 then (false, s, p, os)
  else
    let name := segment_name side (pid p) (g_seq p) in
    let p := mkProc (pid p) (u64 (g_seq p + 1)) in
    if Nat.leb 48 (String.length name) then (false, s, p, os)
    else
      let s := mkSegment None 0 name in
      match os_name name with
      | None => (false, s, p, os)
      | Some path =>
          match shm_open_new path os with
          | (None, os) => (false, s, p, os)
          | (Some fd, os) =>
              match ftruncate fd size os with
              | (false, os) => (false, s, p, shm_unlink path os)
              | (true, os) =>
                  match mmap fd os with
                  | (None, os) => (false, s, p, shm_unlink path os)
                  | (Some a, os) => (true, mkSegment (Some a) size name, p, os)
                  end
              end
          end
      end.

(** [Segment::open]. *)
Definition open_segment (s : Segment) (name : string) (size : Z) (os : ShmOs) : bool * Segment * ShmOs :=
  let '(s, os) := unmap s os in
  if (size =? 0) || Nat.leb 48 (String.length name) then (false, s, os)
  else match os_name name with
  | None => (false, s, os)
  | Some path =>
      match shm_open_existing path os with
      | (None, os) => (false, s, os)
      | (Some fd, os) =>
          match fstat_size fd os with
          | (None, os) => (false, s, os)
          | (Some n, os) =>
              if n <? size then (false, s, os)
              else match mmap fd os with
              | (None, os) => (false, s, os)
              | (Some a, os) => (true, mkSegment (Some a) size name, os)
              end
          end
      end
  end.

(** [engine_shm::unlink]. *)
Definition unlink_name (name : string) (os : ShmOs) : ShmOs :=
  match os_name name with Some path => shm_unlink path os | None => os end.

(** [readdir] yields the names of /dev/shm. *)
Definition sweep (side : byte) (pid : Z) (os : ShmOs) : ShmOs :=
  let prefix := name_prefix side pid in
  if Nat.leb 32 (String.length prefix) then os
  else
    let '(bad, os) := fault os in
    if bad then os
    else foldl (λ os n, if starts_with prefix n then unlink_name n os else os) os (elements (dom (shm_names os))).

Definition side_core : byte := Ascii.ascii_of_N 99.
Definition side_host : byte := Ascii.ascii_of_N 104.
Definition side_test : byte := Ascii.ascii_of_N 116.

(** The check behind [available]; its result is kept for the process. *)
Definition available (p : Proc) (os : ShmOs) : bool * Proc * ShmOs :=
  match create no_segment 4096 side_test p os with
  | (false, _, p, os) => (false, p, os)
  | (true, s, p, os) =>
      let os := match addr_ s with Some a => store_at a 0 [Ascii.ascii_of_N 1] os | None => os end in
      let '(found, r, os) := open_segment no_segment (name_ s) 4096 os in
      let opened := found && bool_decide ((seg_memory r os ≫= head) = Some (Ascii.ascii_of_N 1)) in
      let os := unlink_name (name_ s) os in
      let os := (unmap r os).2 in
      (opened, p, (unmap s os).2)
  end.

(** ** Names identify their process *)

Definition dash : byte := Ascii.ascii_of_N 45.

(** The value of a digit, to read a number back. *)
Definition hex_code (c : byte) : Z :=
  let b := Z.of_N (byte_of c) in if b <? 58 then b - 48 else b - 87.

Definition unhex (l : list byte) : Z := foldl (λ acc c, acc * 16 + hex_code c) 0 l.

Lemma hex_digit_props (d : Z) :
  0 ≤ d < 16 → hex_code (hex_digit (Z.to_N d)) = d ∧ hex_digit (Z.to_N d) ≠ dash ∧
               bad_name_char (hex_digit (Z.to_N d)) = false.
Proof.
  intros H. destruct (Z_of_nat_complete d) as [n ->]; [lia|].
  do 16 (destruct n as [|n]; [vm_compute; repeat split; congruence|]). lia.
Qed.

Lemma unhex_hex fuel z : 0 ≤ z < 16 ^ Z.of_nat fuel → unhex (hex_digits fuel z) = z.
Proof.
  revert z. induction fuel as [|fuel IH]; intros z Hz; [change (0 = z); change (16 ^ Z.of_nat 0) with 1 in Hz; lia|].
  rewrite Nat2Z.inj_succ, Z.pow_succ_r in Hz by lia. pose proof (Z.mod_pos_bound z 16).
  destruct (hex_digit_props (z `mod` 16)) as [Hd _]; [lia|].
  cbn [hex_digits]. unfold unhex in *. rewrite foldl_app. cbn [foldl]. rewrite Hd.
  destruct (Z.ltb_spec z 16) as [Hs|Hs]; [simpl; rewrite Z.mod_small; lia|].
  rewrite IH; [pose proof (Z.div_mod z 16); lia|].
  split; [apply Z.div_pos; lia|]. apply Z.div_lt_upper_bound; lia.
Qed.

Lemma hex_digits_chars fuel z : Forall (λ c, c ≠ dash ∧ bad_name_char c = false) (hex_digits fuel z).
Proof.
  revert z. induction fuel as [|fuel IH]; intros z; [constructor|]. cbn [hex_digits].
  pose proof (Z.mod_pos_bound z 16). destruct (hex_digit_props (z `mod` 16)) as (_ & Hd); [lia|].
  apply Forall_app. split; [by destruct (z <? 16)|]. by constructor.
Qed.

Lemma hex_digits_length fuel z : (length (hex_digits fuel z) ≤ fuel)%nat.
Proof.
  revert z. induction fuel as [|fuel IH]; intros z; [done|]. cbn [hex_digits]. rewrite length_app.
  specialize (IH (z / 16)). destruct (z <? 16); simpl; lia.
Qed.

Lemma name_prefix_bytes side p : bytes (name_prefix side p) = bytes "acpp-" ++ side :: hex_digits 16 p ++ [dash].
Proof. unfold name_prefix, to_hex. by rewrite !bytes_app, bytes_of_bytes. Qed.

Lemma name_prefix_length side p : (String.length (name_prefix side p) < 24)%nat.
Proof.
  rewrite <-bytes_length, name_prefix_bytes, length_app. cbn [length]. rewrite length_app.
  pose proof (hex_digits_length 16 p). change (length (bytes "acpp-")) with 5%nat. cbn [length]. lia.
Qed.

Lemma segment_name_length side p q : (String.length (segment_name side p q) < 40)%nat.
Proof.
  unfold segment_name. rewrite <-bytes_length, bytes_app, length_app, bytes_length.
  pose proof (name_prefix_length side p). unfold to_hex. rewrite bytes_of_bytes.
  pose proof (hex_digits_length 16 q). lia.
Qed.

Local Arguments hex_digits : simpl never.

Definition u64_ok (z : Z) : Prop := 0 ≤ z < 2 ^ 64.

(** A segment's name starts with the prefix of exactly one side and process. *)
Lemma prefix_of_segment side side' p p' q :
  u64_ok p → u64_ok p' → starts_with (name_prefix side p) (segment_name side' p' q) = true → side = side' ∧ p = p'.
Proof.
  intros Hp Hp' [r Hr]%starts_with_split. apply (f_equal bytes) in Hr. unfold segment_name in Hr.
  rewrite !bytes_app, !name_prefix_bytes, <-!app_assoc in Hr. apply app_inv_head in Hr.
  assert (side' = side) as -> by (by apply (f_equal head) in Hr; injection Hr).
  apply (f_equal (drop 1)) in Hr. cbn [drop app] in Hr. rewrite <-!app_assoc in Hr. cbn [app] in Hr.
  assert (∀ z, dash ∉ hex_digits 16 z) as Hd.
  { intros z Hin. pose proof (hex_digits_chars 16 z) as Hf. rewrite Forall_forall in Hf. naive_solver. }
  destruct (split_unique _ _ _ _ _ (Hd p') (Hd p) Hr) as [Hh _]. split; [done|].
  rewrite <-(unhex_hex 16 p), <-(unhex_hex 16 p'), Hh by done. done.
Qed.

Lemma os_name_segment side p q :
  bad_name_char side = false → os_name (segment_name side p q) = Some (segment_name side p q).
Proof.
  intros Hside. unfold os_name. pose proof (segment_name_length side p q).
  assert (is_empty (segment_name side p q) = false) as -> by done.
  destruct (Nat.leb_spec 64 (1 + String.length (segment_name side p q))) as [|_]; [lia|]. cbn [orb].
  destruct (existsb bad_name_char (bytes (segment_name side p q))) eqn:Ex; [|done]. exfalso.
  apply existsb_exists in Ex as (c & Hin & Hc). apply list_elem_of_In in Hin.
  assert (Forall (λ c, bad_name_char c = false) (bytes (segment_name side p q))) as Hf.
  { assert (∀ z, Forall (λ c, bad_name_char c = false) (hex_digits 16 z)) as Hh.
    { intros z. eapply Forall_impl; [apply hex_digits_chars|naive_solver]. }
    unfold segment_name, to_hex. rewrite bytes_app, name_prefix_bytes, bytes_of_bytes.
    rewrite !Forall_app, Forall_cons, Forall_app.
    split; [|apply Hh]. split; [by repeat constructor|]. split; [done|]. split; [apply Hh|by repeat constructor]. }
  rewrite Forall_forall in Hf. specialize (Hf c Hin). congruence.
Qed.

(** ** What the operations do *)

Lemma fault_frame os b os' :
  fault os = (b, os') →
  shm_names os' = shm_names os ∧ shm_objects os' = shm_objects os ∧ shm_maps os' = shm_maps os ∧
  shm_fresh os' = shm_fresh os.
Proof. unfold fault. destruct (shm_faults os); intros [= <- <-]; done. Qed.

Lemma unlink_name_frame n os :
  shm_objects (unlink_name n os) = shm_objects os ∧ shm_maps (unlink_name n os) = shm_maps os.
Proof. unfold unlink_name. by destruct (os_name n). Qed.

Lemma unlink_name_lookup n m os :
  shm_names (unlink_name n os) !! m =
    if bool_decide (n = m ∧ is_Some (os_name n)) then None else shm_names os !! m.
Proof.
  unfold unlink_name. destruct (os_name n) as [path|] eqn:E.
  - assert (path = n) as -> by (unfold os_name in E; repeat step_match E; by simplify_eq).
    simpl. case_bool_decide as H.
    + destruct H as [-> _]. apply lookup_delete_eq.
    + apply lookup_delete_ne. intros ->. apply H. by eauto.
  - rewrite bool_decide_eq_false_2; [done|]. by intros [_ [? ?]].
Qed.

Definition sweep_one (prefix : string) (os : ShmOs) (n : string) : ShmOs :=
  if starts_with prefix n then unlink_name n os else os.

Lemma sweep_all prefix l os m :
  shm_names (foldl (sweep_one prefix) os l) !! m =
    (if bool_decide (m ∈ l ∧ starts_with prefix m = true ∧ is_Some (os_name m)) then None else shm_names os !! m) ∧
  shm_objects (foldl (sweep_one prefix) os l) = shm_objects os ∧
  shm_maps (foldl (sweep_one prefix) os l) = shm_maps os.
Proof.
  revert os. induction l as [|n l IH]; intros os.
  - rewrite bool_decide_eq_false_2; [done|]. set_solver.
  - cbn [foldl]. destruct (IH (sweep_one prefix os n)) as (-> & -> & ->).
    unfold sweep_one at 1 2 3. destruct (starts_with prefix n) eqn:Hn.
    + destruct (unlink_name_frame n os) as [-> ->]. rewrite unlink_name_lookup. split; [|done].
      repeat case_bool_decide; rewrite ?elem_of_cons in *; try done; exfalso; naive_solver.
    + split; [|done]. repeat case_bool_decide; rewrite ?elem_of_cons in *; try done; exfalso; naive_solver congruence.
Qed.

(** A directory that can be read: sweeping removes the names a process left on
    one side, all of them, and no other segment's. *)
Lemma sweep_segments side side' p p' q os :
  u64_ok p → u64_ok p' → bad_name_char side' = false → (fault os).1 = false →
  shm_names (sweep side p os) !! segment_name side' p' q =
    (if bool_decide (side = side' ∧ p = p') then None else shm_names os !! segment_name side' p' q) ∧
  shm_objects (sweep side p os) = shm_objects os ∧ shm_maps (sweep side p os) = shm_maps os.
Proof.
  intros Hp Hp' Hs Hf. unfold sweep. pose proof (name_prefix_length side p).
  destruct (Nat.leb_spec 32 (String.length (name_prefix side p))) as [|_]; [lia|].
  destruct (fault os) as [b os1] eqn:E. simpl in Hf. subst b.
  destruct (fault_frame os false os1 E) as (En & Eo & Em & _).
  destruct (sweep_all (name_prefix side p) (elements (dom (shm_names os1))) os1 (segment_name side' p' q))
    as (Hn & Ho & Hm). unfold sweep_one in *. rewrite Hn, Ho, Hm, En, Eo, Em. split; [|done].
  rewrite os_name_segment by done. clear Hn Ho Hm.
  destruct (decide (side = side' ∧ p = p')) as [Hd|Hd];
    [rewrite (bool_decide_eq_true_2 _ Hd)|rewrite (bool_decide_eq_false_2 _ Hd)]; case_bool_decide as Hc; try done.
  - destruct Hd as [-> ->]. apply not_elem_of_dom. intros Hin. apply Hc.
    split; [by apply elem_of_elements|]. split; [|by eauto]. unfold segment_name. apply starts_with_app.
  - exfalso. apply Hd. destruct Hc as (_ & Hst & _). by eapply prefix_of_segment.
Qed.

(** Objects and mappings have numbers already used. *)
Definition os_wf (os : ShmOs) : Prop :=
  (∀ n o, shm_names os !! n = Some o → (o < shm_fresh os)%nat ∧ is_Some (shm_objects os !! o)) ∧
  (∀ a o, shm_maps os !! a = Some o → (a < shm_fresh os)%nat).

(** A failed creation leaves no name and no mapping behind. *)
Lemma create_fails_clean size side p os s p' os' :
  create no_segment size side p os = (false, s, p', os') →
  shm_names os' = shm_names os ∧ shm_maps os' = shm_maps os.
Proof.
  unfold create, unmap. cbn [addr_ no_segment]. destruct (size =? 0); [by intros H; simplify_eq|].
  destruct (Nat.leb 48 _); [by intros H; simplify_eq|].
  destruct (os_name _) as [path|]; [|by intros H; simplify_eq].
  unfold shm_open_new. destruct (fault os) as [b os1] eqn:E1. apply fault_frame in E1 as (En1 & Eo1 & Em1 & _).
  destruct (b || _) eqn:Eb; [intros H; simplify_eq; by rewrite En1, Em1|].
  apply orb_false_iff in Eb as [_ Hno]. apply bool_decide_eq_false in Hno.
  rewrite <-eq_None_not_Some, En1 in Hno.
  assert (delete path (<[path := shm_fresh os1]> (shm_names os)) = shm_names os) as Hdel.
  { by rewrite delete_insert_eq, delete_id. }
  unfold ftruncate. destruct (fault _) as [b2 os2] eqn:E2. apply fault_frame in E2 as (En2 & Eo2 & Em2 & _).
  simpl in *. destruct b2; [intros H; simplify_eq; simpl; by rewrite En2, Em2, En1, Hdel|].
  unfold mmap. destruct (fault _) as [b3 os3] eqn:E3. apply fault_frame in E3 as (En3 & Eo3 & Em3 & _).
  simpl in *. destruct b3; [|done]. intros H. simplify_eq. simpl. by rewrite En3, Em3, En2, Em2, En1, Hdel.
Qed.

(** A created segment: its name leads to the object behind its address. *)
Lemma create_ok size side p os s p' os' :
  os_wf os → 0 < size → create no_segment size side p os = (true, s, p', os') →
  ∃ a o, addr_ s = Some a ∧ size_ s = size ∧ name_ s = segment_name side (pid p) (g_seq p) ∧
    os_name (name_ s) = Some (name_ s) ∧ (String.length (name_ s) < 48)%nat ∧
    shm_names os' !! name_ s = Some o ∧ shm_maps os' !! a = Some o ∧
    shm_objects os' !! o = Some (replicate (Z.to_nat size) (Ascii.ascii_of_N 0)) ∧ os_wf os'.
Proof.
  intros [Hw1 Hw2] Hs. unfold create, unmap. cbn [addr_ no_segment].
  destruct (Z.eqb_spec size 0) as [|_]; [lia|]. pose proof (segment_name_length side (pid p) (g_seq p)) as Hlen.
  destruct (Nat.leb 48 _); [done|]. destruct (os_name _) as [path|] eqn:Epath; [|done].
  assert (path = segment_name side (pid p) (g_seq p)) as -> by (unfold os_name in Epath; repeat step_match Epath; by simplify_eq).
  unfold shm_open_new. destruct (fault os) as [b os1] eqn:E1. apply fault_frame in E1 as (En1 & Eo1 & Em1 & Ef1).
  destruct (b || _); [done|].
  unfold ftruncate. destruct (fault _) as [b2 os2] eqn:E2. apply fault_frame in E2 as (En2 & Eo2 & Em2 & Ef2).
  destruct b2; [done|]. unfold mmap. destruct (fault _) as [b3 os3] eqn:E3. apply fault_frame in E3 as (En3 & Eo3 & Em3 & Ef3).
  destruct b3; [done|]. simpl in *. intros [= <- <- <-].
  exists (shm_fresh os3), (shm_fresh os1). simpl. rewrite En3, Eo3, Em3, En2, Eo2, Em2.
  split_and!; try done; [lia|apply lookup_insert_eq|apply lookup_insert_eq| |].
  - rewrite lookup_alter_eq, lookup_insert_eq. simpl. by rewrite resize_nil.
  - split; simpl.
    + intros n o. intros [[<- <-]|[Hne Hlk]]%lookup_insert_Some.
      * split; [lia|]. rewrite lookup_alter_eq, lookup_insert_eq. by eauto.
      * rewrite En1 in Hlk. destruct (Hw1 n o Hlk) as [Hlt [mem Hm]]. split; [lia|].
        rewrite lookup_alter_ne, lookup_insert_ne, Eo1 by lia. by eauto.
    + intros a o [[<- <-]|[Hne Hlk]]%lookup_insert_Some; [lia|]. rewrite Em1 in Hlk.
      specialize (Hw2 a o Hlk). lia.
Qed.

(** Opening by name maps the same bytes. *)
Lemma open_shares s name n os r os' a o :
  os_wf os → shm_names os !! name = Some o → addr_ s = Some a → shm_maps os !! a = Some o →
  open_segment no_segment name n os = (true, r, os') →
  seg_memory r os' = seg_memory s os' ∧ shm_objects os' = shm_objects os ∧ size_ r = n ∧ name_ r = name.
Proof.
  intros [Hw1 Hw2] Hn Ha Hm. unfold open_segment, unmap. cbn [addr_ no_segment].
  destruct ((n =? 0) || _); [done|]. destruct (os_name name) as [path|] eqn:Ep; [|done].
  assert (path = name) as -> by (unfold os_name in Ep; repeat step_match Ep; by simplify_eq).
  unfold shm_open_existing. destruct (fault os) as [b os1] eqn:E1. apply fault_frame in E1 as (En1 & Eo1 & Em1 & Ef1).
  destruct b; [done|]. rewrite En1, Hn.
  unfold fstat_size. destruct (fault os1) as [b2 os2] eqn:E2. apply fault_frame in E2 as (En2 & Eo2 & Em2 & Ef2).
  destruct b2; [done|]. destruct (len <$> shm_objects os2 !! o) as [k|]; [|done].
  destruct (k <? n); [done|]. unfold mmap. destruct (fault os2) as [b3 os3] eqn:E3.
  apply fault_frame in E3 as (En3 & Eo3 & Em3 & Ef3). destruct b3; [done|]. intros [= <- <-].
  specialize (Hw2 a o Hm). unfold seg_memory, memory_at. rewrite Ha. simpl.
  rewrite lookup_insert_eq, lookup_insert_ne, Em3, Em2, Em1, Hm by lia. simpl. by rewrite Eo3, Eo2, Eo1.
Qed.

(** ** Other people's memory *)

(** Numbers in use are below the next fresh one. *)
Definition os_bounded (os : ShmOs) : Prop :=
  (∀ n o, shm_names os !! n = Some o → (o < shm_fresh os)%nat) ∧
  (∀ a o, shm_maps os !! a = Some o → (a < shm_fresh os)%nat ∧ (o < shm_fresh os)%nat).

(** What was mapped stays mapped, with the bytes it had. *)
Record os_grows (os os' : ShmOs) : Prop := {
  og_fresh : (shm_fresh os ≤ shm_fresh os')%nat;
  og_maps : ∀ a, (a < shm_fresh os)%nat → shm_maps os' !! a = shm_maps os !! a;
  og_objects : ∀ o, (o < shm_fresh os)%nat → shm_objects os' !! o = shm_objects os !! o
}.

Lemma os_grows_refl os : os_grows os os.
Proof. by split. Qed.

Lemma os_grows_trans os1 os2 os3 : os_grows os1 os2 → os_grows os2 os3 → os_grows os1 os3.
Proof.
  intros [Hf Hm Ho] [Hf' Hm' Ho']. split; [lia| |].
  - intros a Ha. rewrite Hm' by lia. by apply Hm.
  - intros o Hlt. rewrite Ho' by lia. by apply Ho.
Qed.

Lemma grows_memory os os' a o :
  os_bounded os → os_grows os os' → shm_maps os !! a = Some o → memory_at a os' = memory_at a os.
Proof.
  intros [_ Hb] [_ Hm Ho] Ha. destruct (Hb a o Ha) as [H1 H2]. unfold memory_at.
  rewrite Hm, Ha by done. simpl. by apply Ho.
Qed.

Lemma fault_grows os b os' : fault os = (b, os') → os_grows os os' ∧ (os_bounded os → os_bounded os').
Proof.
  intros H. destruct (fault_frame _ _ _ H) as (Hn & Ho & Hm & Hf). split.
  - split; rewrite ?Hm, ?Ho; (done || lia).
  - intros [H1 H2]. unfold os_bounded. by rewrite Hn, Hm, Hf.
Qed.

Lemma unlink_grows n os : os_grows os (shm_unlink n os) ∧ (os_bounded os → os_bounded (shm_unlink n os)).
Proof.
  split; [by split|]. intros [H1 H2]. split; [|done]. intros m o Hl. simpl in Hl.
  apply lookup_delete_Some in Hl as [_ Hl]. by eapply H1.
Qed.

Lemma mmap_grows obj os r os' :
  os_bounded os → (obj < shm_fresh os)%nat → mmap obj os = (r, os') →
  os_grows os os' ∧ os_bounded os' ∧
  match r with
  | Some a => (shm_fresh os ≤ a)%nat ∧ shm_maps os' !! a = Some obj
  | None => True
  end.
Proof.
  intros Hb Hobj. unfold mmap. destruct (fault os) as [b os1] eqn:Ef.
  destruct (fault_grows os b os1 Ef) as [Hg Hb1]. specialize (Hb1 Hb). destruct (fault_frame _ _ _ Ef) as (_ & _ & _ & Hf).
  destruct b; intros [= <- <-]; [done|]. split_and!.
  - eapply os_grows_trans; [exact Hg|]. split; simpl; [lia| |done]. intros a Ha. by rewrite lookup_insert_ne by lia.
  - destruct Hb1 as [H1 H2]. split; simpl.
    + intros n o Hl. specialize (H1 n o Hl). lia.
    + intros a o [[<- <-]|[_ Hl]]%lookup_insert_Some; [lia|]. specialize (H2 a o Hl). lia.
  - lia.
  - apply lookup_insert_eq.
Qed.

(** A segment that was opened or created has an address nobody else has. *)
Lemma open_grows name n os b s os' :
  os_bounded os → open_segment no_segment name n os = (b, s, os') →
  os_grows os os' ∧ os_bounded os' ∧
  (b = true → ∃ a, addr_ s = Some a ∧ (shm_fresh os ≤ a)%nat ∧ is_Some (shm_maps os' !! a)) ∧ (b = false → addr_ s = None).
Proof.
  intros Hb. unfold open_segment, unmap. cbn [addr_ no_segment].
  destruct ((n =? 0) || _); [intros [= <- <- <-]; split_and!; done || apply os_grows_refl|].
  destruct (os_name name) as [path|]; [|intros [= <- <- <-]; split_and!; done || apply os_grows_refl].
  unfold shm_open_existing. destruct (fault os) as [b1 os1] eqn:E1.
  destruct (fault_grows _ _ _ E1) as [Hg1 Hb1]. specialize (Hb1 Hb).
  destruct b1; [intros [= <- <- <-]; by split_and!|].
  destruct (shm_names os1 !! path) as [fd|] eqn:En; [|intros [= <- <- <-]; by split_and!].
  unfold fstat_size. destruct (fault os1) as [b2 os2] eqn:E2.
  destruct (fault_grows _ _ _ E2) as [Hg2 Hb2]. specialize (Hb2 Hb1).
  assert (os_grows os os2) as Hg by (by eapply os_grows_trans).
  destruct b2; [intros [= <- <- <-]; by split_and!|].
  destruct (len <$> _) as [k|]; [|intros [= <- <- <-]; by split_and!].
  destruct (k <? n); [intros [= <- <- <-]; by split_and!|].
  destruct (mmap fd os2) as [r os3] eqn:Em. destruct (mmap_grows fd os2 r os3 Hb2) as (Hg3 & Hb3 & Hr); [|done|].
  { destruct Hb1 as [H1 _]. specialize (H1 _ _ En). destruct (fault_frame _ _ _ E2) as (_ & _ & _ & ->). done. }
  destruct r as [a|]; intros [= <- <- <-]; split_and!; try done; try by eapply os_grows_trans.
  intros _. exists a. destruct Hr as [Ha Hm]. split_and!; [done| |by eauto]. destruct Hg. lia.
Qed.

Lemma create_grows size side p os b s p' os' :
  os_bounded os → create no_segment size side p os = (b, s, p', os') →
  os_grows os os' ∧ os_bounded os' ∧
  (b = true → ∃ a o, addr_ s = Some a ∧ (shm_fresh os ≤ a)%nat ∧ shm_maps os' !! a = Some o ∧ (shm_fresh os ≤ o)%nat).
Proof.
  intros Hb. unfold create, unmap. cbn [addr_ no_segment].
  destruct (size =? 0); [intros H; simplify_eq; split_and!; done || apply os_grows_refl|].
  destruct (Nat.leb 48 _); [intros H; simplify_eq; split_and!; done || apply os_grows_refl|].
  destruct (os_name _) as [path|]; [|intros H; simplify_eq; split_and!; done || apply os_grows_refl].
  unfold shm_open_new. destruct (fault os) as [b1 os1] eqn:E1.
  destruct (fault_grows _ _ _ E1) as [Hg1 Hb1]. specialize (Hb1 Hb). destruct (fault_frame _ _ _ E1) as (_ & _ & _ & Hf1).
  destruct (b1 || _); [intros H; by simplify_eq|]. set (os2 := mkShmOs _ _ _ _ _).
  assert (os_grows os os2 ∧ os_bounded os2) as [Hg2 Hb2].
  { split.
    - eapply os_grows_trans; [exact Hg1|]. split; simpl; [lia|done|]. intros o Ho. by rewrite lookup_insert_ne by lia.
    - destruct Hb1 as [H1 H2]. split; simpl.
      + intros n o [[<- <-]|[_ Hl]]%lookup_insert_Some; [lia|]. specialize (H1 n o Hl). lia.
      + intros a o Hl. specialize (H2 a o Hl). lia. }
  unfold ftruncate. destruct (fault os2) as [b3 os3] eqn:E3.
  destruct (fault_grows _ _ _ E3) as [Hg3 Hb3]. specialize (Hb3 Hb2). destruct (fault_frame _ _ _ E3) as (_ & _ & _ & Hf3).
  assert (os_grows os os3) as Hg03 by (by eapply os_grows_trans).
  destruct (unlink_grows path os3) as [Hg4 Hb4].
  destruct b3; [intros H; simplify_eq; split_and!; [by eapply os_grows_trans|by apply Hb4|done]|].
  set (os5 := set_objects os3 _).
  assert (os_grows os os5 ∧ os_bounded os5) as [Hg5 Hb5].
  { split; [|done]. eapply os_grows_trans; [exact Hg1|]. split; simpl.
    - rewrite Hf3. simpl. lia.
    - intros a Ha. destruct Hg3 as [_ Hm _]. rewrite Hm; [done|simpl; lia].
    - intros o Ho. rewrite lookup_alter_ne by lia. destruct Hg3 as [_ _ Hob]. rewrite Hob by (simpl; lia).
      simpl. by rewrite lookup_insert_ne by lia. }
  destruct (mmap (shm_fresh os1) os5) as [r os6] eqn:Em.
  destruct (mmap_grows (shm_fresh os1) os5 r os6 Hb5) as (Hg6 & Hb6 & Hr); [simpl; rewrite Hf3; simpl; lia|done|].
  destruct (unlink_grows path os6) as [Hg7 Hb7].
  destruct r as [a|]; intros H; simplify_eq; split_and!; try done; try by eapply os_grows_trans.
  - intros _. destruct Hr as [Ha Hm]. eexists _, _. split_and!; [done| |exact Hm|lia]. destruct Hg5. lia.
  - eapply os_grows_trans; [|exact Hg7]. by eapply os_grows_trans.
  - by apply Hb7.
Qed.
