(* ===== verification/EngineHost.v ===== *)
(** * The engine host process (tools/engine-host/engine_host.cpp)

    Serves one engine plugin over the frame protocol.  A reader thread turns
    frames into jobs; Run jobs go to worker threads, the other commands to the
    main thread.  [Hs] is the state behind [g_mutex] with the operating system
    and the engine's own state [E]; every stretch of code under the mutex, and
    every stretch between two of them, is one step of its thread ([exec_host]),
    so that a list of [HostLabel]s is an interleaving.

    The engine is a table of functions ([agent_engine_v1]).  A run answers with
    the callbacks it made, in order; the host turns them into frames.  What it
    sees when it polls its cancel flag is part of the label of the step.  The
    frames sent so far are [h_out]; a frame is written whole, under the write
    mutex.  A write that fails ends the process and is not modelled. *)
From stdpp Require Import base gmap strings list.
From Stdlib Require Import Lia ZArith.
From S2P Require Import Prelude Arena EngineIpc EngineShm.

Local Open Scope Z_scope.

(** ** The engine table (include/agent-cpp/engine_abi.h) *)

(** A callback of a running engine. *)
Inductive EngineCall :=
| OnChunk (kind : Z) (data : list byte)
| OnProgress (step total : Z).

(** What a run is given besides its request: whether [on_chunk] and
    [on_progress] are set, and the values of the cancel flag as it polls it. *)
Record RunContext := mkRunContext { rc_stream : bool; rc_progress : bool; rc_polls : list Z }.

Section Engine.
Context {E : Type}.

(** Null names and function pointers are [None]. *)
Record agent_engine_v1 := mkEngine {
  abi_version : Z;
  struct_size : Z;
  eng_name : option string;
  eng_version : option string;
  eng_caps : Z;
  eng_flags : Z;
  eng_create : option (agent_str → E → E * Z * option Z * string);
  eng_destroy : option (Z → E → E);
  eng_run : option (Z → agent_request E → RunContext → E → E * list EngineCall * Z * agent_response);
  eng_free_response : option (Z → E → E);
  eng_last_error : option (Z → E → option string);
  eng_count_tokens : option (Z → agent_str → E → E * Z * Z);
  eng_reset_cache : option (Z → E → E * Z)
}.

(** [offsetof(agent_engine_v1, reset_cache) + sizeof(void * )] on LP64. *)
Definition AGENT_ENGINE_V2_SIZE : Z := 96.

Definition is_null {A : Type} (p : option A) : bool := match p with None => true | Some _ => false end.

Definition missing_function (e : agent_engine_v1) : bool :=
  is_null (eng_create e) || is_null (eng_destroy e) || is_null (eng_run e) || is_null (eng_free_response e) ||
  is_null (eng_last_error e).

Definition no_name (e : agent_engine_v1) : bool := match eng_name e with Some n => is_empty n | None => true end.

(** [load] after the entry point was called: the table, or the error text. *)
Definition check_table (e : option agent_engine_v1) : agent_engine_v1 + string :=
  match e with
  | None => inr "agent_engine_get_v1 returned null"
  | Some e =>
      if negb (abi_version e =? AGENT_ENGINE_ABI_VERSION) then
        inr ("engine ABI version " +:+ to_string (abi_version e) +:+ " does not match host ABI version " +:+
             to_string AGENT_ENGINE_ABI_VERSION)
      else if struct_size e <? AGENT_ENGINE_V2_SIZE then
        inr ("engine table is " +:+ to_string (struct_size e) +:+ " bytes, smaller than the ABI 2 baseline (" +:+
             to_string AGENT_ENGINE_V2_SIZE +:+ ")")
      else if no_name e then inr "engine has no name"
      else if missing_function e then inr "engine is missing a required function"
      else inl e
  end.

(** ** Frames of the host *)

(** One frame: header, fields, size. *)
Definition encode (type : Msg) (id : Z) (fields : list (Writer → Writer)) : list byte * bool :=
  let '(w, fits) := finish (calls (begin type id :: fields) (Writer_new [])) in (out_ w, fits).

Definition error_frame (id status : Z) (message : string) : list byte :=
  (encode MsgError id [w_i32 status; w_str (str_of message)]).1.

Definition empty_frame (type : Msg) (id : Z) : list byte := (encode type id []).1.

(** [on_chunk] drops a chunk that does not fit in a frame. *)
Definition call_frames (id : Z) (c : EngineCall) : list (list byte) :=
  match c with
  | OnChunk kind data =>
      let '(b, fits) := encode MsgChunk id [w_u32 kind; w_blob (Some data) (len data)] in if fits then [b] else []
  | OnProgress step total => [(encode MsgProgress id [w_u64 step; w_u64 total]).1]
  end.

Definition ready_frame (e : agent_engine_v1) (shm_available : bool) (pid : Z) : list byte :=
  (encode MsgReady 0
     [w_u32 kProtocolVersion; w_u32 (abi_version e); w_u64 (eng_caps e); w_u32 (eng_flags e);
      w_u32 (Z.lor (if is_null (eng_count_tokens e) then 0 else kHasCountTokens)
                   (if is_null (eng_reset_cache e) then 0 else kHasResetCache));
      w_u32 (if shm_available then kShmCapable else 0); w_u64 pid;
      w_str (str_of (default "" (eng_name e))); w_str (str_of (default "" (eng_version e)))]).1.

(** ** State *)

(** Jobs are pooled and referred to by their place in [g_jobs]. *)
Record Job := mkJob {
  job_id : Z;
  job_type : Msg;
  job_payload : list byte;
  job_cancel : Z;
  job_arena : Arena;
  job_arena_capacity : Z
}.

Definition new_job : Job := mkJob 0 0 [] 0 (mkArena 0 None 0) 0.

(** [rs_key] is the address of the object: the vector owns pointers. *)
Record ResponseSegment := mkResponseSegment {
  rs_key : nat;
  rs_segment : Segment;
  busy_id : Z;
  busy : bool
}.

(** Where a worker is: its thread not running yet; waiting for a job; with a job whose request is not read
    yet; with the segment of the request; with a response to place; with the
    response's segment chosen; done with the job; gone. *)
Inductive WorkerPc :=
| Starting
| Idle
| Taken (job : nat)
| Mapped (job : nat) (instance : Z) (rest : Reader) (seg : option (Segment * Z))
| Answered (job : nat) (instance : Z) (resp : agent_response)
| Placed (job : nat) (instance : Z) (resp : agent_response) (key : option nat) (retire : string)
| Unplaced (job : nat) (key : option nat)
| Finished (job : nat)
| Exited.

(** The main thread: waiting for a command, with one, or gone. *)
Inductive MainPc :=
| MainIdle
| MainJob (job : nat)
| MainExit.

(** [h_in] are the bytes of the pipe not read yet. *)
Record Hs := mkHs {
  h_engine_state : E;
  h_os : ShmOs;
  h_proc : Proc;
  h_in : list byte;
  h_out : list (list byte);
  g_instance : option Z;
  g_shm : bool;
  g_run_queue : list nat;
  g_ctl_queue : list nat;
  g_running : list nat;
  g_jobs : list Job;
  g_free_jobs : list nat;
  g_request_segments : list Segment;
  g_response_segments : list ResponseSegment;
  g_next_key : nat;
  g_workers : list WorkerPc;
  g_main : MainPc;
  g_eof : bool
}.

Definition upd_engine (e : E) (h : Hs) : Hs :=
  mkHs e (h_os h) (h_proc h) (h_in h) (h_out h) (g_instance h) (g_shm h) (g_run_queue h) (g_ctl_queue h)
    (g_running h) (g_jobs h) (g_free_jobs h) (g_request_segments h) (g_response_segments h) (g_next_key h)
    (g_workers h) (g_main h) (g_eof h).
Definition upd_os (os : ShmOs) (p : Proc) (h : Hs) : Hs :=
  mkHs (h_engine_state h) os p (h_in h) (h_out h) (g_instance h) (g_shm h) (g_run_queue h) (g_ctl_queue h)
    (g_running h) (g_jobs h) (g_free_jobs h) (g_request_segments h) (g_response_segments h) (g_next_key h)
    (g_workers h) (g_main h) (g_eof h).
Definition upd_in (b : list byte) (h : Hs) : Hs :=
  mkHs (h_engine_state h) (h_os h) (h_proc h) b (h_out h) (g_instance h) (g_shm h) (g_run_queue h) (g_ctl_queue h)
    (g_running h) (g_jobs h) (g_free_jobs h) (g_request_segments h) (g_response_segments h) (g_next_key h)
    (g_workers h) (g_main h) (g_eof h).
Definition send (frames : list (list byte)) (h : Hs) : Hs :=
  mkHs (h_engine_state h) (h_os h) (h_proc h) (h_in h) (h_out h ++ frames) (g_instance h) (g_shm h) (g_run_queue h)
    (g_ctl_queue h) (g_running h) (g_jobs h) (g_free_jobs h) (g_request_segments h) (g_response_segments h)
    (g_next_key h) (g_workers h) (g_main h) (g_eof h).
Definition upd_instance (i : option Z) (h : Hs) : Hs :=
  mkHs (h_engine_state h) (h_os h) (h_proc h) (h_in h) (h_out h) i (g_shm h) (g_run_queue h) (g_ctl_queue h)
    (g_running h) (g_jobs h) (g_free_jobs h) (g_request_segments h) (g_response_segments h) (g_next_key h)
    (g_workers h) (g_main h) (g_eof h).
Definition upd_shm (b : bool) (h : Hs) : Hs :=
  mkHs (h_engine_state h) (h_os h) (h_proc h) (h_in h) (h_out h) (g_instance h) b (g_run_queue h) (g_ctl_queue h)
    (g_running h) (g_jobs h) (g_free_jobs h) (g_request_segments h) (g_response_segments h) (g_next_key h)
    (g_workers h) (g_main h) (g_eof h).
Definition upd_queues (rq cq run : list nat) (h : Hs) : Hs :=
  mkHs (h_engine_state h) (h_os h) (h_proc h) (h_in h) (h_out h) (g_instance h) (g_shm h) rq cq run (g_jobs h)
    (g_free_jobs h) (g_request_segments h) (g_response_segments h) (g_next_key h) (g_workers h) (g_main h)
    (g_eof h).
Definition upd_jobs (js : list Job) (fr : list nat) (h : Hs) : Hs :=
  mkHs (h_engine_state h) (h_os h) (h_proc h) (h_in h) (h_out h) (g_instance h) (g_shm h) (g_run_queue h)
    (g_ctl_queue h) (g_running h) js fr (g_request_segments h) (g_response_segments h) (g_next_key h) (g_workers h)
    (g_main h) (g_eof h).
Definition upd_request_segments (l : list Segment) (h : Hs) : Hs :=
  mkHs (h_engine_state h) (h_os h) (h_proc h) (h_in h) (h_out h) (g_instance h) (g_shm h) (g_run_queue h)
    (g_ctl_queue h) (g_running h) (g_jobs h) (g_free_jobs h) l (g_response_segments h) (g_next_key h) (g_workers h)
    (g_main h) (g_eof h).
Definition upd_response_segments (l : list ResponseSegment) (k : nat) (h : Hs) : Hs :=
  mkHs (h_engine_state h) (h_os h) (h_proc h) (h_in h) (h_out h) (g_instance h) (g_shm h) (g_run_queue h)
    (g_ctl_queue h) (g_running h) (g_jobs h) (g_free_jobs h) (g_request_segments h) l k (g_workers h) (g_main h)
    (g_eof h).
Definition upd_workers (l : list WorkerPc) (h : Hs) : Hs :=
  mkHs (h_engine_state h) (h_os h) (h_proc h) (h_in h) (h_out h) (g_instance h) (g_shm h) (g_run_queue h)
    (g_ctl_queue h) (g_running h) (g_jobs h) (g_free_jobs h) (g_request_segments h) (g_response_segments h)
    (g_next_key h) l (g_main h) (g_eof h).
Definition upd_main (m : MainPc) (h : Hs) : Hs :=
  mkHs (h_engine_state h) (h_os h) (h_proc h) (h_in h) (h_out h) (g_instance h) (g_shm h) (g_run_queue h)
    (g_ctl_queue h) (g_running h) (g_jobs h) (g_free_jobs h) (g_request_segments h) (g_response_segments h)
    (g_next_key h) (g_workers h) m (g_eof h).
Definition upd_eof (b : bool) (h : Hs) : Hs :=
  mkHs (h_engine_state h) (h_os h) (h_proc h) (h_in h) (h_out h) (g_instance h) (g_shm h) (g_run_queue h)
    (g_ctl_queue h) (g_running h) (g_jobs h) (g_free_jobs h) (g_request_segments h) (g_response_segments h)
    (g_next_key h) (g_workers h) (g_main h) b.

Definition with_job (h : Hs) (j : nat) : Job := default new_job (g_jobs h !! j).

Definition set_job (j : nat) (job : Job) (h : Hs) : Hs := upd_jobs (<[j := job]> (g_jobs h)) (g_free_jobs h) h.

(** ** The reader thread *)

(** A free job, or a new one. *)
Definition take_job (h : Hs) : nat * Hs :=
  match last (g_free_jobs h) with
  | Some j => (j, upd_jobs (g_jobs h) (take (length (g_free_jobs h) - 1) (g_free_jobs h)) h)
  | None => (length (g_jobs h), upd_jobs (g_jobs h ++ [new_job]) (g_free_jobs h) h)
  end.

Definition cancel_jobs (id : Z) (js : list nat) (h : Hs) : Hs :=
  foldl (λ h j, let job := with_job h j in
                if job_id job =? id
                then set_job j (mkJob (job_id job) (job_type job) (job_payload job) 1 (job_arena job) (job_arena_capacity job)) h
                else h) h js.

Definition kMaxConcurrentRuns : Z := 256.

Definition max_workers (e : agent_engine_v1) : Z :=
  if Z.land (eng_flags e) 1 =? 0 then 1 else kMaxConcurrentRuns.

Definition is_idle (w : WorkerPc) : bool := match w with Idle => true | _ => false end.
Definition idle_workers (h : Hs) : Z := len (filter (λ w, is_idle w = true) (g_workers h)).

Definition release_segments (id : Z) (h : Hs) : Hs :=
  upd_response_segments
    ((λ s, if busy s && (busy_id s =? id) then mkResponseSegment (rs_key s) (rs_segment s) (busy_id s) false else s)
       <$> g_response_segments h) (g_next_key h) h.

(** What [reader_main] does with one frame whose header was accepted. *)
Definition on_frame (e : agent_engine_v1) (fh : FrameHeader) (body : list byte) (h : Hs) : Hs :=
  if h_type fh =? MsgCancel then cancel_jobs (h_id fh) (g_run_queue h) (cancel_jobs (h_id fh) (g_running h) h)
  else if h_type fh =? MsgRelease then release_segments (h_id fh) h
  else
    let '(j, h) := take_job h in
    let old := with_job h j in
    let h := set_job j (mkJob (h_id fh) (h_type fh) body 0 (job_arena old) (job_arena_capacity old)) h in
    if h_type fh =? MsgRun then
      let h := upd_queues (g_run_queue h ++ [j]) (g_ctl_queue h) (g_running h) h in
      if (idle_workers h <? len (g_run_queue h)) && (len (g_workers h) <? max_workers e)
      then upd_workers (g_workers h ++ [Starting]) h else h
    else upd_queues (g_run_queue h) (g_ctl_queue h ++ [j]) (g_running h) h.

(** [reader_main], once: the next whole frame of the pipe.  [None] while the
    read blocks; a frame that is too large ends the loop like the end of file. *)
Definition read_frame (e : agent_engine_v1) (h : Hs) : option Hs :=
  if g_eof h || (len (h_in h) <? kHeaderSize) then None
  else
    let fh := read_header (h_in h) in
    if kMaxFrame <? h_size fh then Some (upd_eof true h)
    else
      let body := drop 16 (h_in h) in
      if len body <? h_size fh then None
      else Some (on_frame e fh (take (Z.to_nat (h_size fh)) body) (upd_in (drop (Z.to_nat (h_size fh)) body) h)).

(** ** Workers *)

Definition last_error (e : agent_engine_v1) (instance : Z) (fallback : string) (st : E) : string :=
  match eng_last_error e with
  | Some f => match f instance st with Some m => if is_empty m then fallback else m | None => fallback end
  | None => fallback
  end.

(** The segment a request names: known, or mapped now.  The loop over the known
    segments keeps the last match. *)
Definition request_segment (name : string) (size : Z) (h : Hs) : option Segment * Hs :=
  match last (filter (λ s, name_ s = name) (g_request_segments h)) with
  | Some s => (Some s, h)
  | None =>
      let '(found, s, os) := open_segment no_segment name size (h_os h) in
      let h := upd_os os (h_proc h) h in
      if found then (Some s, upd_request_segments (g_request_segments h ++ [s]) h) else (None, h)
  end.

(** Erasing a segment unmaps it. *)
Definition retire_segment (name : string) (h : Hs) : Hs :=
  let gone := filter (λ s, name_ s = name) (g_request_segments h) in
  upd_request_segments (filter (λ s, name_ s ≠ name) (g_request_segments h))
    (upd_os (foldl (λ os s, (unmap s os).2) (h_os h) gone) (h_proc h) h).

(** The first part of [run_job], up to the segment of the request: an error
    frame ends the job. *)
Definition job_segment (j : nat) (h : Hs) : WorkerPc * Hs :=
  let job := with_job h j in
  match g_instance h with
  | None => (Finished j, send [error_frame (job_id job) AGENT_ERR_INIT_FAILED "agent-engine-host: no engine instance"] h)
  | Some instance =>
      let '(seg_name, seg_size, retire, r) := r_shm_header (Reader_new (job_payload job)) in
      if negb (ok_ r) then
        (Finished j, send [error_frame (job_id job) AGENT_ERR_PARSE "agent-engine-host: malformed Run frame"] h)
      else
        let h := match retire with Some _ => retire_segment (text_of retire) h | None => h end in
        match seg_name with
        | None => (Mapped j instance r None, h)
        | Some _ =>
            match request_segment (text_of seg_name) seg_size h with
            | (Some s, h) =>
                if size_ s <? seg_size then
                  (Finished j, send [error_frame (job_id job) AGENT_ERR_INIT_FAILED
                                       "agent-engine-host: cannot map the request's shared memory"] h)
                else (Mapped j instance r (Some (s, seg_size)), h)
            | (None, h) =>
                (Finished j, send [error_frame (job_id job) AGENT_ERR_INIT_FAILED
                                     "agent-engine-host: cannot map the request's shared memory"] h)
            end
        end
  end.

(** [new_char] is the address the allocator returns for a slab. *)
Definition grow_arena (new_char : Z → Z) (job : Job) : Job :=
  let need := decode_arena_bound (len (job_payload job)) in
  let job := if job_arena_capacity job <? need
             then mkJob (job_id job) (job_type job) (job_payload job) (job_cancel job)
                    (Arena_new (new_char (u64 (need * 2))) (u64 (need * 2))) (u64 (need * 2))
             else job in
  mkJob (job_id job) (job_type job) (job_payload job) (job_cancel job) (reset (job_arena job)) (job_arena_capacity job).

(** The reader on the rest of the payload, with the mapped memory. *)
Definition body_reader (h : Hs) (r : Reader) (seg : option (Segment * Z)) (a : Arena) : Reader :=
  with_arena a (match seg with
                | Some (s, size) => r_set_shm (default [] (seg_memory s (h_os h))) size r
                | None => r
                end).

(** Decoding the request and running it. *)
Definition job_run (new_char : Z → Z) (e : agent_engine_v1) (j : nat) (instance : Z) (r : Reader)
    (seg : option (Segment * Z)) (polls : list Z) (h : Hs) : WorkerPc * Hs :=
  let job := grow_arena new_char (with_job h j) in
  let '(req, r) := r_request (body_reader h r seg (job_arena job)) in
  let h := set_job j (mkJob (job_id job) (job_type job) (job_payload job) (job_cancel job) (arena_ r) (job_arena_capacity job)) h in
  match req with
  | None => (Finished j, send [error_frame (job_id job) AGENT_ERR_PARSE "agent-engine-host: malformed Run frame"] h)
  | Some (req, run_flags) =>
      let stream := negb (Z.land run_flags kRunStream =? 0) in
      let progress := negb (Z.land run_flags kRunProgress =? 0) in
      match eng_run e with
      | None => (Exited, h) (* a call through a null pointer; [check_table] excludes it *)
      | Some run =>
          let '(st, made, rc, resp) := run instance req (mkRunContext stream progress polls) (h_engine_state h) in
          let h := send (mjoin (call_frames (job_id job) <$> made)) (upd_engine st h) in
          if rc =? AGENT_OK then (Answered j instance resp, h)
          else (Finished j, send [error_frame (job_id job) rc (last_error e instance "run failed" st)] h)
      end
  end.

(** The smallest free segment of at least [bytes] bytes; the first among equals. *)
Definition better (bytes : Z) (best : option ResponseSegment) (s : ResponseSegment) : option ResponseSegment :=
  if negb (busy s) && (bytes <=? size_ (rs_segment s)) &&
     match best with Some b => size_ (rs_segment s) <? size_ (rs_segment b) | None => true end
  then Some s else best.

Definition best_segment (bytes : Z) (l : list ResponseSegment) : option ResponseSegment := foldl (better bytes) None l.

Definition kGrain : Z := 1048576.

(** The size of a new segment: whole mebibytes. *)
Definition grain_up (n : Z) : Z := u64 (u64 (n + kGrain - 1) / kGrain * kGrain).

(** The first free segment is given up for a bigger one; its name is the text
    the core is told to unmap. *)
Definition retire_free (h : Hs) : string * Hs :=
  match list_find (λ s, busy s = false) (g_response_segments h) with
  | Some (i, s) =>
      let os := unlink_name (name_ (rs_segment s)) (h_os h) in
      (name_ (rs_segment s),
       upd_response_segments (delete i (g_response_segments h)) (g_next_key h)
         (upd_os ((unmap (rs_segment s) os).2) (h_proc h) h))
  | None => ("", h)
  end.

Definition mark_busy (key : nat) (id : Z) (h : Hs) : Hs :=
  upd_response_segments
    ((λ s, if Nat.eqb (rs_key s) key then mkResponseSegment (rs_key s) (rs_segment s) id true else s)
       <$> g_response_segments h) (g_next_key h) h.

(** The segment for a response of [bytes] payload bytes, and the retired name. *)
Definition response_segment (bytes id : Z) (h : Hs) : option nat * string * Hs :=
  match best_segment bytes (g_response_segments h) with
  | Some s => (Some (rs_key s), "", mark_busy (rs_key s) id h)
  | None =>
      let '(retire, h) := retire_free h in
      let '(made, s, p, os) := create no_segment (grain_up bytes) side_host (h_proc h) (h_os h) in
      let h := upd_os os p h in
      if made then
        let key := g_next_key h in
        (Some key, retire,
         upd_response_segments (g_response_segments h ++ [mkResponseSegment key s id true]) (S key) h)
      else (None, retire, h)
  end.

Definition job_place (j : nat) (instance : Z) (resp : agent_response) (h : Hs) : WorkerPc * Hs :=
  let bytes := message_shm_bytes kShmThreshold (rs_message resp) in
  if g_shm h && negb (bytes =? 0) then
    let '(key, retire, h) := response_segment bytes (job_id (with_job h j)) h in
    (Placed j instance resp key retire, h)
  else (Placed j instance resp None "", h).

Definition find_segment (key : nat) (h : Hs) : option ResponseSegment :=
  List.find (λ s, Nat.eqb (rs_key s) key) (g_response_segments h).

(** The ShmOut for a segment: its memory, all of it free. *)
Definition shm_out (s : Segment) (threshold : Z) (os : ShmOs) : ShmOut :=
  mkShmOut (seg_memory s os) (size_ s) 0 threshold 0.

(** What a writer put into a segment reaches everybody who maps it. *)
Definition commit (s : Segment) (o : option ShmOut) (os : ShmOs) : ShmOs :=
  match addr_ s, o with
  | Some a, Some o => match shm_base o with Some mem => store_at a 0 mem os | None => os end
  | _, _ => os
  end.

Definition commit_seg (seg : option Segment) (w : Writer) (os : ShmOs) : ShmOs :=
  match seg with Some s => commit s (shm_ w) os | None => os end.

(** A frame with its segment: name and size of the segment (none: no name), the
    name to unmap, and a body whose large payloads go to the segment. *)
Definition segment_frame (type : Msg) (id : Z) (seg : option Segment) (threshold : Z) (retire : string)
    (body : Writer → Writer) (os : ShmOs) : Writer * bool :=
  finish (calls [begin type id;
                 w_shm_header (str_of (match seg with Some s => name_ s | None => "" end))
                   (match seg with Some s => size_ s | None => 0 end) (str_of retire);
                 set_shm ((λ s, shm_out s threshold os) <$> seg); body] (Writer_new [])).

(** Encoding and sending the response. *)
Definition job_respond (e : agent_engine_v1) (j : nat) (instance : Z) (resp : agent_response) (key : option nat)
    (retire : string) (h : Hs) : WorkerPc * Hs :=
  let id := job_id (with_job h j) in
  let seg := rs_segment <$> (key ≫= λ k, find_segment k h) in
  let '(w, fits) := segment_frame MsgResponse id seg kShmThreshold retire (w_response resp) (h_os h) in
  let st := match eng_free_response e with Some f => f instance (h_engine_state h) | None => h_engine_state h end in
  let h := upd_engine st (upd_os (commit_seg seg w (h_os h)) (h_proc h) h) in
  if fits then (Finished j, send [out_ w] h)
  else (Unplaced j key, h).

(** The response was too large: its segment is free again. *)
Definition job_unplace (j : nat) (key : option nat) (h : Hs) : WorkerPc * Hs :=
  let h := match key with
           | Some k => upd_response_segments
                         ((λ s, if Nat.eqb (rs_key s) k then mkResponseSegment (rs_key s) (rs_segment s) (busy_id s) false else s)
                            <$> g_response_segments h) (g_next_key h) h
           | None => h
           end in
  (Finished j, send [error_frame (job_id (with_job h j)) AGENT_ERR_DECODE_FAILED
                       "agent-engine-host: response exceeds the 1 GiB frame limit"] h).

(** The next stretch of worker [w]; [None] when it waits or is gone. *)
Definition worker_step (new_char : Z → Z) (e : agent_engine_v1) (polls : list Z) (pc : WorkerPc) (h : Hs) :
    option (WorkerPc * Hs) :=
  match pc with
  | Starting => Some (Idle, h)
  | Idle =>
      match g_run_queue h with
      | j :: q => Some (Taken j, upd_queues q (g_ctl_queue h) (g_running h ++ [j]) h)
      | [] => if g_eof h then Some (Exited, h) else None
      end
  | Taken j => Some (job_segment j h)
  | Mapped j i r seg => Some (job_run new_char e j i r seg polls h)
  | Answered j i resp => Some (job_place j i resp h)
  | Placed j i resp key retire => Some (job_respond e j i resp key retire h)
  | Unplaced j key => Some (job_unplace j key h)
  | Finished j =>
      Some (Idle, upd_jobs (g_jobs h) (g_free_jobs h ++ [j])
                    (upd_queues (g_run_queue h) (g_ctl_queue h) (filter (λ k, k ≠ j) (g_running h)) h))
  | Exited => None
  end.

(** ** Control commands *)

(** [destroy_instance]: waits for the runs, at most two seconds ([timed_out]);
    [None] while it waits. *)
Definition destroy_instance (e : agent_engine_v1) (timed_out : bool) (h : Hs) : option (bool * Hs) :=
  match g_instance h with
  | None => Some (true, h)
  | Some i =>
      match g_running h, g_run_queue h with
      | [], [] =>
          let st := match eng_destroy e with Some f => f i (h_engine_state h) | None => h_engine_state h end in
          Some (true, upd_engine st (upd_instance None h))
      | _, _ => if timed_out then Some (false, h) else None
      end
  end.

(** [shm::available()] is computed once; [avail] is its value. *)
Definition serve_create (e : agent_engine_v1) (avail timed_out : bool) (job : Job) (h : Hs) : option Hs :=
  let id := job_id job in
  let '(client_flags, r) := r_u32 (Reader_new (job_payload job)) in
  let '(config, r) := r_str r in
  if negb (ok_ r) then Some (send [error_frame id AGENT_ERR_PARSE "agent-engine-host: malformed Create frame"] h)
  else
    let h := upd_shm (negb (Z.land client_flags kShmCapable =? 0) && avail) h in
    match destroy_instance e timed_out h with
    | None => None
    | Some (false, h) => Some (send [error_frame id AGENT_ERR_INIT_FAILED "agent-engine-host: runs still busy"] h)
    | Some (true, h) =>
        match eng_create e with
        | None => Some h
        | Some f =>
            let '(st, rc, instance, err) := f config (h_engine_state h) in
            let h := upd_engine st h in
            match instance with
            | Some i =>
                if rc =? AGENT_OK then Some (send [empty_frame MsgCreated id] (upd_instance (Some i) h))
                else Some (send [error_frame id rc (if is_empty err then "unknown error" else err)] h)
            | None =>
                Some (send [error_frame id (if rc =? AGENT_OK then AGENT_ERR_INIT_FAILED else rc)
                              (if is_empty err then "unknown error" else err)] h)
            end
        end
    end.

Definition serve_count (e : agent_engine_v1) (job : Job) (h : Hs) : Hs :=
  let id := job_id job in
  let '(text, _) := r_str (Reader_new (job_payload job)) in
  match g_instance h, eng_count_tokens e with
  | Some i, Some f =>
      let '(st, rc, n) := f i text (h_engine_state h) in
      let h := upd_engine st h in
      if rc =? AGENT_OK then send [(encode MsgCount id [w_i32 n]).1] h
      else send [error_frame id rc (last_error e i "token count failed" st)] h
  | _, _ => send [error_frame id AGENT_ERR_UNSUPPORTED "engine does not count tokens"] h
  end.

Definition serve_reset (e : agent_engine_v1) (job : Job) (h : Hs) : Hs :=
  let id := job_id job in
  match g_instance h, eng_reset_cache e with
  | Some i, Some f =>
      let '(st, rc) := f i (h_engine_state h) in
      let h := upd_engine st h in
      if rc =? AGENT_OK then send [empty_frame MsgDone id] h
      else send [error_frame id rc (last_error e i "cache reset failed" st)] h
  | _, _ => send [empty_frame MsgDone id] h
  end.

Definition free_job (j : nat) (h : Hs) : Hs := upd_jobs (g_jobs h) (g_free_jobs h ++ [j]) h.

(** One command of [serve]; [None] while it waits for the runs. *)
Definition serve_job (e : agent_engine_v1) (avail timed_out : bool) (j : nat) (h : Hs) : option Hs :=
  let job := with_job h j in
  let id := job_id job in
  let next h := upd_main MainIdle (free_job j h) in
  if job_type job =? MsgCreate then next <$> serve_create e avail timed_out job h
  else if job_type job =? MsgCountTokens then Some (next (serve_count e job h))
  else if job_type job =? MsgResetCache then Some (next (serve_reset e job h))
  else if job_type job =? MsgDestroy then
    (λ r : bool * Hs,
       next (if r.1 then send [empty_frame MsgDone id] r.2
             else send [error_frame id AGENT_ERR_INIT_FAILED "agent-engine-host: runs still busy"] r.2))
      <$> destroy_instance e timed_out h
  else if job_type job =? MsgShutdown then (λ r : bool * Hs, upd_main MainExit r.2) <$> destroy_instance e timed_out h
  else Some (next (send [error_frame id AGENT_ERR_PARSE
                           ("agent-engine-host: unknown message " +:+ to_string (job_type job))] h)).

Definition main_step (e : agent_engine_v1) (avail timed_out : bool) (h : Hs) : option Hs :=
  match g_main h with
  | MainIdle =>
      match g_ctl_queue h with
      | j :: q => Some (upd_main (MainJob j) (upd_queues (g_run_queue h) q (g_running h) h))
      | [] => if g_eof h then (λ r : bool * Hs, upd_main MainExit r.2) <$> destroy_instance e timed_out h else None
      end
  | MainJob j => serve_job e avail timed_out j h
  | MainExit => None
  end.

(** ** Interleavings *)

Inductive HostLabel :=
| HInput (b : list byte)
| HEof
| HRead
| HWorker (w : nat) (polls : list Z)
| HMain (timed_out : bool).

Definition exec_host (new_char : Z → Z) (e : agent_engine_v1) (avail : bool) (l : HostLabel) (h : Hs) : option Hs :=
  match l with
  | HInput b => Some (upd_in (h_in h ++ b) h)
  | HEof => Some (upd_eof true h)
  | HRead => read_frame e h
  | HWorker w polls =>
      match g_workers h !! w with
      | Some pc =>
          (λ r : WorkerPc * Hs, upd_workers (<[w := r.1]> (g_workers r.2)) r.2) <$> worker_step new_char e polls pc h
      | None => None
      end
  | HMain timed_out => main_step e avail timed_out h
  end.

Fixpoint run_host (new_char : Z → Z) (e : agent_engine_v1) (avail : bool) (ls : list HostLabel) (h : Hs) : option Hs :=
  match ls with
  | [] => Some h
  | l :: ls => match exec_host new_char e avail l h with Some h => run_host new_char e avail ls h | None => None end
  end.

(** [main] after the plugin was loaded: the Ready frame, nothing else yet. *)
Definition host_start (e : agent_engine_v1) (avail : bool) (st : E) (p : Proc) (os : ShmOs) : Hs :=
  mkHs st os p [] [ready_frame e avail (pid p)] None false [] [] [] [] [] [] [] 0 [] MainIdle false.

End Engine.

Arguments agent_engine_v1 E : clear implicits.
Arguments Hs E : clear implicits.
