(* ===== verification/EngineHostTheory.v ===== *)
(** * What the engine host guarantees

    Jobs: a job of the pool is in one place at a time, so no command overwrites
    another's; and every command is answered exactly once
    ([every_request_answered_once]).  Segments: a response keeps its
    shared-memory segment to itself until the core releases it
    ([response_kept_until_release]). *)
From stdpp Require Import base gmap strings list sorting.
From Stdlib Require Import Lia ZArith.
From S2P Require Import Prelude Arena EngineIpc EngineIpcTheory EngineShm EngineHost.

Local Open Scope Z_scope.
Local Arguments encode : simpl never.
Local Arguments finish : simpl never.
Local Arguments calls : simpl never.

Section Host.
Context {E : Type} (new_char : Z → Z) (e : agent_engine_v1 E) (avail : bool).
Implicit Types (h : Hs E) (j : nat) (pc : WorkerPc) (l : HostLabel).

(** ** Who owns a job *)

Definition pc_jobs pc : list nat :=
  match pc with
  | Taken j | Mapped j _ _ _ | Answered j _ _ | Placed j _ _ _ _ | Unplaced j _ | Finished j => [j]
  | Starting | Idle | Exited => []
  end.

Definition main_jobs (m : MainPc) : list nat := match m with MainJob j => [j] | _ => [] end.

Definition owned h : list nat :=
  g_free_jobs h ++ g_run_queue h ++ g_ctl_queue h ++ main_jobs (g_main h) ++ (g_workers h ≫= pc_jobs).

Definition pool_ok h : Prop := NoDup (owned h) ∧ Forall (λ j, j < length (g_jobs h))%nat (owned h).

(** What a stretch of a worker or of the main thread leaves alone: the queues,
    the threads, and which request a job stands for. *)
Record same_jobs h h' : Prop := {
  sj_run : g_run_queue h' = g_run_queue h;
  sj_ctl : g_ctl_queue h' = g_ctl_queue h;
  sj_free : g_free_jobs h' = g_free_jobs h;
  sj_running : g_running h' = g_running h;
  sj_workers : g_workers h' = g_workers h;
  sj_main : g_main h' = g_main h;
  sj_eof : g_eof h' = g_eof h;
  sj_length : length (g_jobs h') = length (g_jobs h);
  sj_job : ∀ j, job_id (with_job h' j) = job_id (with_job h j) ∧ job_type (with_job h' j) = job_type (with_job h j)
}.

Lemma same_jobs_refl h : same_jobs h h.
Proof. by split. Qed.

Lemma same_jobs_trans h1 h2 h3 : same_jobs h1 h2 → same_jobs h2 h3 → same_jobs h1 h3.
Proof.
  intros [] []. split; try congruence. intros j. split; [transitivity (job_id (with_job h2 j))|transitivity (job_type (with_job h2 j))]; naive_solver.
Qed.

(** The updates that keep them. *)
Lemma same_jobs_upd h h' :
  g_run_queue h' = g_run_queue h → g_ctl_queue h' = g_ctl_queue h → g_free_jobs h' = g_free_jobs h →
  g_running h' = g_running h → g_workers h' = g_workers h → g_main h' = g_main h → g_eof h' = g_eof h →
  g_jobs h' = g_jobs h → same_jobs h h'.
Proof. intros. split; try done; unfold with_job; by rewrite H6. Qed.

Lemma with_set_job h j job k : (j < length (g_jobs h))%nat →
  with_job (set_job j job h) k = if decide (k = j) then job else with_job h k.
Proof.
  intros Hj. unfold with_job, set_job. simpl. destruct (decide (k = j)) as [->|Hne].
  - by rewrite list_lookup_insert_eq.
  - by rewrite list_lookup_insert_ne.
Qed.

Lemma same_jobs_set h j job :
  job_id job = job_id (with_job h j) → job_type job = job_type (with_job h j) → same_jobs h (set_job j job h).
Proof.
  intros Hi Ht. split; try done; [apply length_insert|]. intros k.
  destruct (decide (j < length (g_jobs h))%nat) as [Hlt|Hge].
  - rewrite with_set_job by done. by destruct (decide (k = j)) as [->|].
  - unfold with_job, set_job. simpl. by rewrite list_insert_ge by lia.
Qed.

Ltac same_jobs := apply same_jobs_upd; done.

Lemma same_jobs_request_segment name size h : same_jobs h (request_segment name size h).2.
Proof.
  unfold request_segment. destruct (last _); [apply same_jobs_refl|].
  destruct (open_segment _ _ _ _) as [[[] s] os]; same_jobs.
Qed.

Lemma same_jobs_retire_free h : same_jobs h (retire_free h).2.
Proof. unfold retire_free. destruct (list_find _ _) as [[i s]|]; same_jobs. Qed.

Lemma same_jobs_response_segment bytes id h : same_jobs h (response_segment bytes id h).2.
Proof.
  unfold response_segment. destruct (best_segment _ _); [same_jobs|].
  pose proof (same_jobs_retire_free h) as Hr. destruct (retire_free h) as [retire h1]. simpl in Hr.
  destruct (create _ _ _ _ _) as [[[[] s] p] os]; (eapply same_jobs_trans; [exact Hr|]); same_jobs.
Qed.

Lemma job_segment_jobs j h : same_jobs h (job_segment j h).2 ∧ pc_jobs (job_segment j h).1 = [j].
Proof.
  unfold job_segment. destruct (g_instance h); [|by split; [same_jobs|]].
  destruct (r_shm_header _) as [[[seg_name seg_size] retire] r].
  destruct (negb (ok_ r)); [by split; [same_jobs|]|].
  set (h1 := match retire with Some _ => _ | None => h end).
  assert (same_jobs h h1) as H1 by (subst h1; destruct retire; same_jobs).
  destruct seg_name as [b|]; [|by split].
  pose proof (same_jobs_request_segment (text_of (Some b)) seg_size h1) as H2.
  destruct (request_segment _ _ h1) as [[s|] h2]; simpl in H2; [destruct (size_ s <? seg_size)|];
    (split; [|done]); (eapply same_jobs_trans; [exact H1|]); (eapply same_jobs_trans; [exact H2|]); same_jobs.
Qed.

Lemma grow_arena_job job :
  job_id (grow_arena new_char job) = job_id job ∧ job_type (grow_arena new_char job) = job_type job.
Proof. unfold grow_arena. by destruct (_ <? _). Qed.

Lemma job_run_jobs j i r seg polls h :
  same_jobs h (job_run new_char e j i r seg polls h).2 ∧ pc_jobs (job_run new_char e j i r seg polls h).1 ⊆+ [j].
Proof.
  unfold job_run. destruct (grow_arena_job (with_job h j)) as [Hi Ht].
  destruct (r_request _) as [req r']. set (h1 := set_job _ _ h).
  assert (same_jobs h h1) as H1 by (subst h1; by apply same_jobs_set).
  destruct req as [[req flags]|]; [|split; [|done]; eapply same_jobs_trans; [exact H1|same_jobs]].
  destruct (eng_run e) as [run|]; [|split; [done|apply submseteq_nil_l]].
  destruct (run _ _ _ _) as [[[st made] rc] resp].
  destruct (rc =? AGENT_OK); (split; [|done]); (eapply same_jobs_trans; [exact H1|]); same_jobs.
Qed.

Lemma job_place_jobs j i resp h : same_jobs h (job_place j i resp h).2 ∧ pc_jobs (job_place j i resp h).1 = [j].
Proof.
  unfold job_place. destruct (g_shm h && _); [|by split; [apply same_jobs_refl|]].
  pose proof (same_jobs_response_segment (message_shm_bytes kShmThreshold (rs_message resp)) (job_id (with_job h j)) h) as H.
  by destruct (response_segment _ _ h) as [[key retire] h'].
Qed.

Lemma job_respond_jobs j i resp key retire h :
  same_jobs h (job_respond e j i resp key retire h).2 ∧ pc_jobs (job_respond e j i resp key retire h).1 = [j].
Proof.
  unfold job_respond. destruct (segment_frame _ _ _ _ _ _ _) as [w fits]. destruct fits; (split; [same_jobs|done]).
Qed.

Lemma job_unplace_jobs j key h : same_jobs h (job_unplace j key h).2 ∧ pc_jobs (job_unplace j key h).1 = [j].
Proof. unfold job_unplace. destruct key; (split; [same_jobs|done]). Qed.

Lemma destroy_jobs timed_out h b h' : destroy_instance e timed_out h = Some (b, h') → same_jobs h h'.
Proof.
  unfold destroy_instance. intros H. repeat step_match H; simplify_eq; first [apply same_jobs_refl|same_jobs].
Qed.

Lemma create_jobs timed_out job h h' : serve_create e avail timed_out job h = Some h' → same_jobs h h'.
Proof.
  unfold serve_create. destruct (r_u32 _) as [flags r]. destruct (r_str r) as [config r'].
  destruct (negb (ok_ r')); [intros [= <-]; same_jobs|].
  set (h0 := upd_shm _ h). assert (same_jobs h h0) as H0 by same_jobs.
  destruct (destroy_instance e timed_out h0) as [[[] h1]|] eqn:Ed; [| |done].
  - apply destroy_jobs in Ed. intros H. eapply same_jobs_trans; [exact H0|]. eapply same_jobs_trans; [exact Ed|].
    repeat step_match H; simplify_eq; first [apply same_jobs_refl|same_jobs].
  - apply destroy_jobs in Ed. intros [= <-]. eapply same_jobs_trans; [exact H0|]. eapply same_jobs_trans; [exact Ed|same_jobs].
Qed.

Lemma count_jobs job h : same_jobs h (serve_count e job h).
Proof. unfold serve_count. repeat step_goal; same_jobs. Qed.

Lemma reset_jobs job h : same_jobs h (serve_reset e job h).
Proof. unfold serve_reset. repeat step_goal; same_jobs. Qed.

(** *** The pool *)

Definition owned_besides h (w : nat) : list nat :=
  g_free_jobs h ++ g_run_queue h ++ g_ctl_queue h ++ main_jobs (g_main h) ++ (delete w (g_workers h) ≫= pc_jobs).

Lemma owned_split h w pc : g_workers h !! w = Some pc → owned h ≡ₚ pc_jobs pc ++ owned_besides h w.
Proof. intros Hw. unfold owned, owned_besides. rewrite (bind_split pc_jobs _ _ _ Hw). solve_Permutation. Qed.

Lemma owned_step h h' w pc pc' :
  g_workers h !! w = Some pc → g_workers h' = g_workers h →
  owned (upd_workers (<[w := pc']> (g_workers h')) h') ≡ₚ pc_jobs pc' ++ owned_besides h' w.
Proof.
  intros Hw Heq. unfold owned, owned_besides. simpl. rewrite Heq, (bind_insert pc_jobs _ _ _ _ Hw). solve_Permutation.
Qed.

Lemma same_jobs_besides h h' w : same_jobs h h' → owned_besides h' w = owned_besides h w.
Proof. intros []. unfold owned_besides. congruence. Qed.

Lemma same_jobs_owned h h' : same_jobs h h' → owned h' = owned h.
Proof. intros []. unfold owned. congruence. Qed.

Lemma pool_ok_sub h h' : pool_ok h → owned h' ⊆+ owned h → length (g_jobs h') = length (g_jobs h) → pool_ok h'.
Proof.
  intros [Hn Hf] Hs Hl. split; [by eapply submseteq_NoDup|]. rewrite Hl. by eapply submseteq_Forall.
Qed.

Definition step_worker h (w : nat) (r : WorkerPc * Hs E) : Hs E := upd_workers (<[w := r.1]> (g_workers r.2)) r.2.

(** What a worker's stretch does to the pool: nothing, or it takes a job from
    the queue, or it gives one back. *)
Lemma worker_pool h w pc polls r :
  g_workers h !! w = Some pc → worker_step new_char e polls pc h = Some r →
  owned (step_worker h w r) ⊆+ owned h ∧ length (g_jobs r.2) = length (g_jobs h).
Proof.
  intros Hw Hs. unfold step_worker.
  assert (∀ j, pc_jobs pc = [j] → same_jobs h r.2 → pc_jobs r.1 ⊆+ [j] →
    owned (upd_workers (<[w := r.1]> (g_workers r.2)) r.2) ⊆+ owned h ∧ length (g_jobs r.2) = length (g_jobs h)) as Hgen.
  { intros j Hpc Hsame Hsub. split; [|by destruct Hsame].
    rewrite (owned_step h r.2 w pc) by (first [done|by destruct Hsame]).
    rewrite (owned_split h w pc Hw), Hpc, (same_jobs_besides h r.2 w Hsame). by apply submseteq_skips_r. }
  assert (∀ j, pc_jobs pc = [j] → ∀ f, Some f = Some r → same_jobs h f.2 ∧ pc_jobs f.1 = [j] →
    owned (upd_workers (<[w := r.1]> (g_workers r.2)) r.2) ⊆+ owned h ∧ length (g_jobs r.2) = length (g_jobs h)) as Hgen'.
  { intros j Hpc f [= <-] [H1 H2]. apply (Hgen j); [done..|by rewrite H2]. }
  destruct pc as [| |j|j i rd seg|j i resp|j i resp key retire|j key|j|]; simpl in Hs.
  - injection Hs as <-. split; [|done]. rewrite (owned_step h h w Starting), (owned_split h w Starting) by done. done.
  - destruct (g_run_queue h) as [|j q] eqn:Eq.
    + destruct (g_eof h); [|done]. injection Hs as <-. split; [|done].
      rewrite (owned_step h h w Idle), (owned_split h w Idle) by done. done.
    + injection Hs as <-. split; [|done]. rewrite (owned_step h _ w Idle) by done.
      rewrite (owned_split h w Idle Hw). unfold owned_besides. simpl. rewrite Eq. simpl. solve_submseteq.
  - eapply (Hgen' j); [done|exact Hs|apply job_segment_jobs].
  - injection Hs as <-. destruct (job_run_jobs j i rd seg polls h). by apply (Hgen j).
  - eapply (Hgen' j); [done|exact Hs|apply job_place_jobs].
  - eapply (Hgen' j); [done|exact Hs|apply job_respond_jobs].
  - eapply (Hgen' j); [done|exact Hs|apply job_unplace_jobs].
  - injection Hs as <-. split; [|done]. rewrite (owned_step h _ w (Finished j)) by done.
    rewrite (owned_split h w (Finished j) Hw). unfold owned_besides. simpl. solve_submseteq.
  - done.
Qed.

Lemma take_job_pool h :
  pool_ok h →
  let '(j, h') := take_job h in
  (j < length (g_jobs h'))%nat ∧ (j ∉ owned h') ∧ pool_ok h' ∧ g_workers h' = g_workers h ∧ g_main h' = g_main h ∧
  g_run_queue h' = g_run_queue h ∧ g_ctl_queue h' = g_ctl_queue h ∧
  (∀ k, k ∈ owned h' → k ∈ owned h ∧ with_job h' k = with_job h k).
Proof.
  intros [Hn Hf]. unfold take_job. destruct (last (g_free_jobs h)) as [j|] eqn:El.
  - apply last_Some in El as [fr Hfr]. assert (take (length (g_free_jobs h) - 1) (g_free_jobs h) = fr) as Htk.
    { rewrite Hfr, length_app. simpl. apply take_app_length'. lia. }
    assert (owned h ≡ₚ j :: owned (upd_jobs (g_jobs h) fr h)) as Hp.
    { unfold owned. simpl. rewrite Hfr. solve_Permutation. }
    rewrite Htk. rewrite Hp in Hn, Hf. apply NoDup_cons in Hn as [Hj Hn]. apply Forall_cons in Hf as [Hlt Hf].
    split_and!; try done. intros k Hk. split; [|done]. rewrite Hp. set_solver.
  - assert (g_free_jobs h = []) as Hfr by (by apply last_None).
    assert (length (g_jobs h) ∉ owned h) as Hj.
    { intros Hin. rewrite Forall_forall in Hf. specialize (Hf _ Hin). lia. }
    split; [simpl; rewrite length_app; simpl; lia|]. split; [done|]. split.
    { split; [done|]. simpl. eapply Forall_impl; [exact Hf|]. intros k Hk. rewrite length_app. simpl in *. lia. }
    split_and!; try done. intros k Hk. split; [done|]. unfold with_job. simpl. rewrite lookup_app_l; [done|].
    rewrite Forall_forall in Hf. by apply Hf.
Qed.

Lemma cancel_jobs_same id js h : same_jobs h (cancel_jobs id js h).
Proof.
  unfold cancel_jobs. revert h. induction js as [|j js IH]; intros h; [apply same_jobs_refl|]. cbn [foldl].
  eapply same_jobs_trans; [|apply IH]. destruct (job_id (with_job h j) =? id); [by apply same_jobs_set|apply same_jobs_refl].
Qed.

(** ** Every command is answered once *)

Definition final_for (id : Z) (f : list byte) : bool :=
  let fh := read_header f in
  negb (h_type fh =? MsgChunk) && negb (h_type fh =? MsgProgress) && (h_id fh =? id).

Definition count_finals (id : Z) (fs : list (list byte)) : nat := length (filter (λ f, final_for id f = true) fs).

(** Final frames sent for a request. *)
Definition answers h (id : Z) : nat := count_finals id (h_out h).

(** Jobs that still owe an answer. *)
Definition pc_pending pc : list nat := match pc with Finished _ => [] | pc => pc_jobs pc end.

Definition pending_jobs h : list nat :=
  g_run_queue h ++ g_ctl_queue h ++ main_jobs (g_main h) ++ (g_workers h ≫= pc_pending).

Definition count_jobs_with h (id : Z) (js : list nat) : nat := length (filter (λ j, job_id (with_job h j) = id) js).

Definition pending h (id : Z) : nat := count_jobs_with h id (pending_jobs h).

Definition id_ok (id : Z) : Prop := 0 ≤ id < 2 ^ 64.

Definition ids_ok h : Prop := ∀ j, id_ok (job_id (with_job h j)).

Lemma same_jobs_ids h h' : same_jobs h h' → ids_ok h → ids_ok h'.
Proof. intros Hs Hi j. destruct (sj_job _ _ Hs j) as [-> _]. apply Hi. Qed.

Lemma count_finals_app id fs gs : count_finals id (fs ++ gs) = (count_finals id fs + count_finals id gs)%nat.
Proof. unfold count_finals. by rewrite filter_app, length_app. Qed.

Lemma encode_header type id ops :
  Forall appends ops → u32_range type → id_ok id →
  h_type (read_header (encode type id ops).1) = type ∧ h_id (read_header (encode type id ops).1) = id.
Proof.
  intros Ho Ht Hi. unfold encode. pose proof (begun_header type id ops Ho Ht Hi) as H.
  by destruct (finish _) as [w fits].
Qed.

#[local] Opaque encode.

(** A frame of the given type and id counts once for its id, or not at all. *)
Lemma count_final_one type id id' f :
  h_type (read_header f) = type → h_id (read_header f) = id → type ≠ MsgChunk → type ≠ MsgProgress →
  count_finals id' [f] = if decide (id' = id) then 1%nat else 0%nat.
Proof.
  intros Ht Hi Hc Hp. unfold count_finals, final_for. rewrite filter_cons, filter_nil, Ht, Hi.
  destruct (Z.eqb_spec type MsgChunk) as [|_]; [done|]. destruct (Z.eqb_spec type MsgProgress) as [|_]; [done|]. simpl.
  destruct (Z.eqb_spec id id') as [->|Hne]; [by rewrite (decide_True (P := id' = id'))|].
  by rewrite (decide_False (P := id' = id)) by congruence.
Qed.

Lemma encode_counts type id id' ops :
  Forall appends ops → u32_range type → id_ok id → type ≠ MsgChunk → type ≠ MsgProgress →
  count_finals id' [(encode type id ops).1] = if decide (id' = id) then 1%nat else 0%nat.
Proof.
  intros Ho Ht Hi Hc Hp. destruct (encode_header type id ops Ho Ht Hi) as [H1 H2].
  exact (count_final_one type id id' _ H1 H2 Hc Hp).
Qed.

Lemma error_counts id id' status msg :
  id_ok id → count_finals id' [error_frame id status msg] = if decide (id' = id) then 1%nat else 0%nat.
Proof.
  intros Hi. unfold error_frame. apply encode_counts; [by repeat constructor; auto with appends|done|exact Hi|done|done].
Qed.

Lemma callback_counts id id' made : id_ok id → count_finals id' (mjoin (call_frames id <$> made)) = 0%nat.
Proof.
  intros Hi. induction made as [|c made IH]; [done|]. rewrite fmap_cons. simpl. rewrite count_finals_app, IH, Nat.add_0_r.
  destruct c as [kind data|step total]; cbn [call_frames].
  - destruct (encode_header MsgChunk id [w_u32 kind; w_blob (Some data) (len data)]) as [Ht _];
      [by repeat constructor; auto with appends|done|done|].
    destruct (encode MsgChunk id _) as [b []]; [|done]. cbn [fst] in Ht.
    unfold count_finals, final_for. by rewrite filter_cons, filter_nil, Ht.
  - destruct (encode_header MsgProgress id [w_u64 step; w_u64 total]) as [Ht _];
      [by repeat constructor; auto with appends|done|done|].
    unfold count_finals, final_for. by rewrite filter_cons, filter_nil, Ht.
Qed.

(** A stretch that sends [k] answers, all to [id]. *)
Definition sends h h' (id : Z) (k : nat) : Prop :=
  ∀ id', answers h' id' = (answers h id' + if decide (id' = id) then k else 0)%nat.

Lemma sends_none h h' id : h_out h' = h_out h → sends h h' id 0.
Proof. intros Ho id'. unfold answers. rewrite Ho. destruct (decide _); lia. Qed.

Lemma sends_frames h h' id k fs :
  h_out h' = h_out h ++ fs → (∀ id', count_finals id' fs = if decide (id' = id) then k else 0%nat) → sends h h' id k.
Proof. intros Ho Hc id'. unfold answers. by rewrite Ho, count_finals_app, Hc. Qed.

(** A worker's stretch either keeps owing the answer or gives it. *)
Definition owes_or_answers h j (r : WorkerPc * Hs E) : Prop :=
  (pc_pending r.1 = [j] ∧ sends h r.2 (job_id (with_job h j)) 0) ∨
  (pc_pending r.1 = [] ∧ sends h r.2 (job_id (with_job h j)) 1).

Lemma out_request_segment name size h : h_out (request_segment name size h).2 = h_out h.
Proof. unfold request_segment. destruct (last _); [done|]. by destruct (open_segment _ _ _ _) as [[[] s] os]. Qed.

Lemma job_segment_answers j h : ids_ok h → owes_or_answers h j (job_segment j h).
Proof.
  intros Hi. specialize (Hi j). unfold job_segment.
  assert (∀ st msg h', h_out h' = h_out h →
    owes_or_answers h j (Finished j, send [error_frame (job_id (with_job h j)) st msg] h')) as Herr.
  { intros st msg h' Ho. right. split; [done|]. eapply sends_frames; [simpl; by rewrite Ho|]. intros. by apply error_counts. }
  destruct (g_instance h); [|by apply Herr].
  destruct (r_shm_header _) as [[[seg_name seg_size] retire] r]. destruct (negb (ok_ r)); [by apply Herr|].
  set (h1 := match retire with Some _ => _ | None => h end).
  assert (h_out h1 = h_out h) as H1 by (subst h1; by destruct retire).
  destruct seg_name as [b|]; [|left; split; [done|by apply sends_none]].
  pose proof (out_request_segment (text_of (Some b)) seg_size h1) as H2.
  destruct (request_segment _ _ h1) as [[s|] h2]; simpl in H2; [|apply Herr; congruence].
  destruct (size_ s <? seg_size); [apply Herr; congruence|]. left. split; [done|]. apply sends_none. simpl. congruence.
Qed.

Lemma job_run_answers j i r seg polls h :
  ids_ok h → missing_function e = false → owes_or_answers h j (job_run new_char e j i r seg polls h).
Proof.
  intros Hi He. specialize (Hi j). unfold job_run. destruct (grow_arena_job (with_job h j)) as [Hid _]. rewrite Hid.
  destruct (r_request _) as [req r']. destruct req as [[req flags]|].
  2:{ right. split; [done|]. eapply sends_frames; [done|]. intros. by apply error_counts. }
  destruct (eng_run e) as [run|] eqn:Er; [|unfold missing_function in He; rewrite Er in He; simpl in He; by rewrite !orb_true_r in He].
  destruct (run _ _ _ _) as [[[st made] rc] resp]. destruct (rc =? AGENT_OK).
  - left. split; [done|]. eapply sends_frames; [done|]. intros id'. rewrite callback_counts by done. by destruct (decide _).
  - right. split; [done|]. eapply sends_frames; [simpl; by rewrite <-app_assoc|]. intros id'.
    rewrite count_finals_app, callback_counts, error_counts by done. done.
Qed.

Lemma out_response_segment bytes id h : h_out (response_segment bytes id h).2 = h_out h.
Proof.
  unfold response_segment. destruct (best_segment _ _); [done|].
  assert (h_out (retire_free h).2 = h_out h) as Hr by (unfold retire_free; by destruct (list_find _ _) as [[]|]).
  destruct (retire_free h) as [retire h1]. simpl in Hr. by destruct (create _ _ _ _ _) as [[[[] s] p] os].
Qed.

Lemma job_place_answers j i resp h : owes_or_answers h j (job_place j i resp h).
Proof.
  left. unfold job_place. destruct (g_shm h && _); [|split; [done|by apply sends_none]].
  pose proof (out_response_segment (message_shm_bytes kShmThreshold (rs_message resp)) (job_id (with_job h j)) h) as H.
  destruct (response_segment _ _ h) as [[key retire] h']. split; [done|]. by apply sends_none.
Qed.

Lemma job_respond_answers j i resp key retire h :
  ids_ok h → owes_or_answers h j (job_respond e j i resp key retire h).
Proof.
  intros Hi. specialize (Hi j). unfold job_respond, segment_frame. set (seg := rs_segment <$> _). set (shm := _ <$> seg).
  set (ops := [w_shm_header _ _ _; set_shm shm; w_response resp]).
  pose proof (begun_header MsgResponse (job_id (with_job h j)) ops) as Hb.
  destruct Hb as [Ht Hid]; [by repeat constructor; auto with appends|done|done|]. subst ops.
  destruct (finish _) as [w fits]. simpl in Ht, Hid. destruct fits.
  - right. split; [done|]. eapply sends_frames; [done|]. intros id'. by apply (count_final_one MsgResponse _ _ _ Ht Hid).
  - left. split; [done|]. by apply sends_none.
Qed.

Lemma job_unplace_answers j key h : ids_ok h → owes_or_answers h j (job_unplace j key h).
Proof.
  intros Hi. specialize (Hi j). unfold job_unplace. right. split; [done|].
  destruct key; (eapply sends_frames; [done|]; intros; by apply error_counts).
Qed.

(** *** Counting over a step *)

Lemma count_jobs_perm h id js ks : js ≡ₚ ks → count_jobs_with h id js = count_jobs_with h id ks.
Proof. unfold count_jobs_with. by intros ->. Qed.

Lemma count_jobs_app h id js ks : count_jobs_with h id (js ++ ks) = (count_jobs_with h id js + count_jobs_with h id ks)%nat.
Proof. unfold count_jobs_with. by rewrite filter_app, length_app. Qed.

Lemma count_jobs_ext h h' id js :
  (∀ j, j ∈ js → job_id (with_job h' j) = job_id (with_job h j)) → count_jobs_with h' id js = count_jobs_with h id js.
Proof.
  unfold count_jobs_with. induction js as [|j js IH]; intros Hj; [done|]. rewrite !filter_cons.
  rewrite (Hj j) by set_solver. specialize (IH ltac:(set_solver)). destruct (decide _); simpl; lia.
Qed.

Definition pending_besides h (w : nat) : list nat :=
  g_run_queue h ++ g_ctl_queue h ++ main_jobs (g_main h) ++ (delete w (g_workers h) ≫= pc_pending).

Lemma pending_split h w pc : g_workers h !! w = Some pc → pending_jobs h ≡ₚ pc_pending pc ++ pending_besides h w.
Proof. intros Hw. unfold pending_jobs, pending_besides. rewrite (bind_split pc_pending _ _ _ Hw). solve_Permutation. Qed.

Lemma pending_step h h' w pc pc' :
  g_workers h !! w = Some pc → g_workers h' = g_workers h →
  pending_jobs (upd_workers (<[w := pc']> (g_workers h')) h') ≡ₚ pc_pending pc' ++ pending_besides h' w.
Proof.
  intros Hw Heq. unfold pending_jobs, pending_besides. simpl. rewrite Heq, (bind_insert pc_pending _ _ _ _ Hw).
  solve_Permutation.
Qed.

Definition account h (id : Z) : nat := (answers h id + pending h id)%nat.

(** A stretch of a worker that holds a job. *)
Lemma account_job h w pc j r :
  g_workers h !! w = Some pc → pc_pending pc = [j] → same_jobs h r.2 → owes_or_answers h j r →
  ∀ id, account (step_worker h w r) id = account h id.
Proof.
  intros Hw Hpc Hs Ho id. unfold account, pending, step_worker.
  assert (∀ js, count_jobs_with (upd_workers (<[w := r.1]> (g_workers r.2)) r.2) id js = count_jobs_with h id js) as Hc.
  { intros js. apply count_jobs_ext. intros k _. by destruct (sj_job _ _ Hs k). }
  rewrite Hc, (count_jobs_perm h id _ _ (pending_split h w pc Hw)), Hpc.
  rewrite (count_jobs_perm h id _ _ (pending_step h r.2 w pc r.1 Hw (sj_workers _ _ Hs))).
  assert (pending_besides r.2 w = pending_besides h w) as ->.
  { destruct Hs. unfold pending_besides. congruence. }
  rewrite !count_jobs_app. unfold answers. change (h_out (upd_workers _ r.2)) with (h_out r.2).
  destruct Ho as [[Hp Hsend]|[Hp Hsend]]; rewrite Hp; specialize (Hsend id); unfold answers in Hsend; rewrite Hsend.
  - destruct (decide _); lia.
  - unfold count_jobs_with at 1 3. rewrite filter_nil, filter_cons, filter_nil.
    destruct (decide (id = job_id (with_job h j))) as [->|Hne]; [rewrite decide_True by done; simpl; lia|].
    rewrite decide_False by congruence. simpl. lia.
Qed.

(** A stretch that only moves jobs between places where they are pending. *)
Lemma account_moves h h' :
  h_out h' = h_out h → g_jobs h' = g_jobs h → pending_jobs h' ≡ₚ pending_jobs h → ∀ id, account h' id = account h id.
Proof.
  intros Ho Hj Hp id. unfold account, answers, pending. rewrite Ho, (count_jobs_perm h' id _ _ Hp).
  f_equal. apply count_jobs_ext. intros k _. unfold with_job. by rewrite Hj.
Qed.

Hypothesis (Hfuns : missing_function e = false).

Lemma worker_account h w pc polls r :
  ids_ok h → g_workers h !! w = Some pc → worker_step new_char e polls pc h = Some r →
  ∀ id, account (step_worker h w r) id = account h id.
Proof.
  intros Hi Hw Hs.
  destruct pc as [| |j|j i rd seg|j i resp|j i resp key retire|j key|j|]; simpl in Hs.
  - injection Hs as <-. apply account_moves; [done..|]. unfold step_worker.
    by rewrite (pending_step h h w Starting), (pending_split h w Starting).
  - destruct (g_run_queue h) as [|j q] eqn:Eq.
    + destruct (g_eof h); [|done]. injection Hs as <-. apply account_moves; [done..|]. unfold step_worker.
      by rewrite (pending_step h h w Idle), (pending_split h w Idle).
    + injection Hs as <-. apply account_moves; [done..|]. unfold step_worker.
      rewrite (pending_step h _ w Idle) by done. rewrite (pending_split h w Idle Hw).
      unfold pending_besides. simpl. rewrite Eq. simpl. solve_Permutation.
  - injection Hs as <-. apply (account_job h w (Taken j) j); [done..|apply job_segment_jobs|by apply job_segment_answers].
  - injection Hs as <-. apply (account_job h w (Mapped j i rd seg) j); [done..|apply job_run_jobs|by apply job_run_answers].
  - injection Hs as <-. apply (account_job h w (Answered j i resp) j); [done..|apply job_place_jobs|apply job_place_answers].
  - injection Hs as <-. apply (account_job h w (Placed j i resp key retire) j); [done..|apply job_respond_jobs|by apply job_respond_answers].
  - injection Hs as <-. apply (account_job h w (Unplaced j key) j); [done..|apply job_unplace_jobs|by apply job_unplace_answers].
  - injection Hs as <-. apply account_moves; [done..|]. unfold step_worker.
    rewrite (pending_step h _ w (Finished j)) by done. by rewrite (pending_split h w (Finished j) Hw).
  - done.
Qed.

Lemma destroy_out timed_out h b h' : destroy_instance e timed_out h = Some (b, h') → h_out h' = h_out h.
Proof. unfold destroy_instance. intros H. repeat step_match H; by simplify_eq. Qed.

Ltac one_answer := eapply sends_frames; [done|]; intros; first
  [by apply error_counts|apply encode_counts; [repeat constructor; auto with appends|done|done|done|done]].

Lemma create_answers timed_out job h h' :
  id_ok (job_id job) → serve_create e avail timed_out job h = Some h' → sends h h' (job_id job) 1.
Proof.
  intros Hi. unfold serve_create. destruct (r_u32 _) as [flags r]. destruct (r_str r) as [config r'].
  destruct (negb (ok_ r')); [intros [= <-]; one_answer|].
  destruct (destroy_instance e timed_out _) as [[b h1]|] eqn:Ed; [|done].
  apply destroy_out in Ed. simpl in Ed.
  assert (∀ fs h2, h_out h2 = h_out h1 → (∀ id', count_finals id' fs = if decide (id' = job_id job) then 1%nat else 0%nat) →
    sends h (send fs h2) (job_id job) 1) as Hsend.
  { intros fs h2 Ho Hc. eapply sends_frames; [simpl; by rewrite Ho, Ed|done]. }
  destruct b.
  - destruct (eng_create e) as [f|] eqn:Ec; [|unfold missing_function in Hfuns; by rewrite Ec in Hfuns].
    destruct (f config _) as [[[st rc] [i|]] err].
    + destruct (rc =? AGENT_OK); intros [= <-]; apply Hsend; try done; intros.
      * by apply encode_counts.
      * by apply error_counts.
    + intros [= <-]. apply Hsend; [done|]. intros. by apply error_counts.
  - intros [= <-]. apply Hsend; [done|]. intros. by apply error_counts.
Qed.

Lemma count_answers job h : id_ok (job_id job) → sends h (serve_count e job h) (job_id job) 1.
Proof.
  intros Hi. unfold serve_count. destruct (r_str _) as [text r]. destruct (g_instance h) as [i|]; [|one_answer].
  destruct (eng_count_tokens e) as [f|]; [|one_answer].
  destruct (f i text (h_engine_state h)) as [[st rc] n]. destruct (rc =? AGENT_OK); one_answer.
Qed.

Lemma reset_answers job h : id_ok (job_id job) → sends h (serve_reset e job h) (job_id job) 1.
Proof.
  intros Hi. unfold serve_reset. destruct (g_instance h) as [i|]; [|one_answer].
  destruct (eng_reset_cache e) as [f|]; [|one_answer].
  destruct (f i (h_engine_state h)) as [st rc]. destruct (rc =? AGENT_OK); one_answer.
Qed.

(** The main thread answers the command it holds. *)
Lemma account_main h h1 j :
  g_main h = MainJob j → same_jobs h h1 → sends h h1 (job_id (with_job h j)) 1 →
  ∀ id, account (upd_main MainIdle (free_job j h1)) id = account h id.
Proof.
  intros Hm Hs Hsend id. unfold account, pending.
  assert (∀ js, count_jobs_with (upd_main MainIdle (free_job j h1)) id js = count_jobs_with h id js) as Hc.
  { intros js. apply count_jobs_ext. intros k _. by destruct (sj_job _ _ Hs k). }
  rewrite Hc. unfold pending_jobs. simpl. rewrite Hm. destruct Hs as [-> -> _ _ -> _ _ _ _].
  unfold answers in *. change (h_out (upd_main _ _)) with (h_out h1). specialize (Hsend id). unfold answers in Hsend.
  rewrite Hsend, !count_jobs_app. simpl. unfold count_jobs_with at 6. rewrite filter_cons, filter_nil.
  destruct (decide (id = job_id (with_job h j))) as [->|Hne]; [rewrite decide_True by done; simpl; lia|].
  rewrite decide_False by congruence. simpl. lia.
Qed.

Lemma serve_account timed_out h h' j :
  ids_ok h → g_main h = MainJob j → serve_job e avail timed_out j h = Some h' → g_main h' ≠ MainExit →
  ∀ id, account h' id = account h id.
Proof.
  intros Hi Hm. specialize (Hi j). unfold serve_job.
  destruct (job_type _ =? MsgCreate).
  { destruct (serve_create _ _ _ _ h) as [h1|] eqn:Ec; [|done]. intros [= <-] _.
    apply account_main; [done|by eapply create_jobs|by eapply create_answers]. }
  destruct (job_type _ =? MsgCountTokens).
  { intros [= <-] _. apply account_main; [done|apply count_jobs|by apply count_answers]. }
  destruct (job_type _ =? MsgResetCache).
  { intros [= <-] _. apply account_main; [done|apply reset_jobs|by apply reset_answers]. }
  destruct (job_type _ =? MsgDestroy).
  { destruct (destroy_instance _ _ h) as [[b h1]|] eqn:Ed; [|done]. intros [= <-] _. simpl.
    pose proof (destroy_jobs _ _ _ _ Ed) as Hs. apply destroy_out in Ed.
    apply account_main; [done|destruct b; (eapply same_jobs_trans; [exact Hs|same_jobs])|].
    destruct b; (eapply sends_frames; [simpl; by rewrite Ed|]); intros; [by apply encode_counts|by apply error_counts]. }
  destruct (job_type _ =? MsgShutdown).
  { destruct (destroy_instance _ _ h) as [[b h1]|] eqn:Ed; [|done]. by intros [= <-]. }
  intros [= <-] _. apply account_main; [done|same_jobs|one_answer].
Qed.

Lemma main_account timed_out h h' :
  ids_ok h → main_step e avail timed_out h = Some h' → g_main h' ≠ MainExit → ∀ id, account h' id = account h id.
Proof.
  intros Hi. unfold main_step. destruct (g_main h) as [|j|] eqn:Em; [|by apply serve_account|done].
  destruct (g_ctl_queue h) as [|j q] eqn:Eq.
  - destruct (g_eof h); [|done]. destruct (destroy_instance _ _ h) as [[b h1]|]; [|done]. by intros [= <-].
  - intros [= <-] _. apply account_moves; [done..|]. unfold pending_jobs. simpl. rewrite Em, Eq. simpl. solve_Permutation.
Qed.

(** The request a read hands over: any command but Cancel and Release. *)
Definition next_request h : list Z :=
  let fh := read_header (h_in h) in
  if g_eof h || (len (h_in h) <? kHeaderSize) || (kMaxFrame <? h_size fh) || (len (drop 16 (h_in h)) <? h_size fh) ||
     (h_type fh =? MsgCancel) || (h_type fh =? MsgRelease)
  then [] else [h_id fh].

Definition count_id (id : Z) (l : list Z) : nat := length (filter (λ i, i = id) l).

Lemma same_jobs_account h h' : same_jobs h h' → h_out h' = h_out h → ∀ id, account h' id = account h id.
Proof.
  intros Hs Ho id. unfold account, answers, pending. rewrite Ho. f_equal.
  assert (pending_jobs h' = pending_jobs h) as -> by (destruct Hs; unfold pending_jobs; congruence).
  apply count_jobs_ext. intros k _. by destruct (sj_job _ _ Hs k).
Qed.

Lemma cancel_jobs_out id js h : h_out (cancel_jobs id js h) = h_out h.
Proof.
  unfold cancel_jobs. revert h. induction js as [|j js IH]; intros h; [done|]. cbn [foldl]. rewrite IH.
  by destruct (job_id (with_job h j) =? id).
Qed.

(** Everything pending is owned. *)
Lemma pending_owned h : pending_jobs h ⊆+ owned h.
Proof.
  unfold pending_jobs, owned.
  assert ((g_workers h ≫= pc_pending) ⊆+ (g_workers h ≫= pc_jobs)) as Hw.
  { induction (g_workers h) as [|pc ws IH]; [done|]. rewrite !bind_cons. apply submseteq_app; [|done].
    destruct pc; simpl; try done. apply submseteq_nil_l. }
  apply submseteq_inserts_l. by repeat apply submseteq_skips_l.
Qed.

(** A new job: pending for its own request, and for no other. *)
Lemma account_new h0 h j job h' id :
  (j < length (g_jobs h))%nat → j ∉ owned h → (∀ k, k ∈ owned h → with_job h k = with_job h0 k) →
  pending_jobs h = pending_jobs h0 → h_out h = h_out h0 →
  h_out h' = h_out h → g_jobs h' = g_jobs (set_job j job h) → pending_jobs h' ≡ₚ j :: pending_jobs h →
  account h' id = (account h0 id + count_id id [job_id job])%nat.
Proof.
  intros Hlt Hj Hsame Hp Ho0 Ho Hjobs Hpend. unfold account, answers, pending. rewrite Ho, Ho0.
  rewrite (count_jobs_perm h' id _ _ Hpend).
  assert (count_jobs_with h' id (j :: pending_jobs h) = count_jobs_with (set_job j job h) id (j :: pending_jobs h)) as ->.
  { apply count_jobs_ext. intros k _. unfold with_job. by rewrite Hjobs. }
  change (j :: pending_jobs h) with ([j] ++ pending_jobs h). rewrite count_jobs_app.
  assert (count_jobs_with (set_job j job h) id (pending_jobs h) = count_jobs_with h0 id (pending_jobs h0)) as ->.
  { rewrite <-Hp. apply count_jobs_ext. intros k Hk. rewrite with_set_job by done.
    assert (k ∈ owned h) as Hko by (exact (elem_of_submseteq _ _ _ Hk (pending_owned h))).
    rewrite decide_False by congruence. by rewrite Hsame. }
  assert (count_jobs_with (set_job j job h) id [j] = count_id id [job_id job]) as ->; [|lia].
  assert (with_job (set_job j job h) j = job) as Hw by (rewrite with_set_job by done; by rewrite decide_True).
  unfold count_jobs_with, count_id. rewrite !filter_cons, !filter_nil, Hw.
  by destruct (decide (job_id job = id)).
Qed.

Lemma count_id_nil id n : (n + count_id id [])%nat = n.
Proof. apply Nat.add_0_r. Qed.

Lemma read_account h h' :
  pool_ok h → read_frame e h = Some h' → ∀ id, account h' id = (account h id + count_id id (next_request h))%nat.
Proof.
  intros Hp. unfold read_frame, next_request. set (fh := read_header (h_in h)).
  destruct (g_eof h || _); [done|]. destruct (kMaxFrame <? h_size fh).
  { intros [= <-] id. cbn [orb]. rewrite count_id_nil. by apply account_moves. }
  destruct (len (drop 16 (h_in h)) <? h_size fh); [done|]. set (body := take _ _).
  set (h1 := upd_in _ h). intros [= <-] id. unfold on_frame. cbn [orb].
  assert (pool_ok h1 ∧ account h1 id = account h id) as [Hp1 <-] by (by split; [|apply account_moves]).
  destruct (h_type fh =? MsgCancel).
  { cbn [orb]. rewrite count_id_nil, (same_jobs_account (cancel_jobs (h_id fh) (g_running h1) h1)).
    - apply same_jobs_account; [apply cancel_jobs_same|apply cancel_jobs_out].
    - apply cancel_jobs_same.
    - apply cancel_jobs_out. }
  destruct (h_type fh =? MsgRelease); [cbn [orb]; rewrite count_id_nil; by apply account_moves|]. cbn [orb].
  pose proof (take_job_pool h1 Hp1) as Ht. assert (h_out (take_job h1).2 = h_out h1) as Ho.
  { unfold take_job. by destruct (last _). }
  destruct (take_job h1) as [j h2]. simpl in Ho.
  destruct Ht as (Hlt & Hj & _ & Hw & Hm & Hrq & Hcq & Hk).
  assert (pending_jobs h2 = pending_jobs h1) as Hpj by (unfold pending_jobs; congruence).
  assert (∀ k, k ∈ owned h2 → with_job h2 k = with_job h1 k) as Hk' by (intros k ?; by apply Hk).
  set (job := mkJob (h_id fh) (h_type fh) body 0 _ _). change [h_id fh] with [job_id job].
  destruct (h_type fh =? MsgRun); [destruct (_ && _)|];
    (eapply (account_new h1 h2 j job _ id Hlt Hj Hk' Hpj Ho); [done|done|]); unfold pending_jobs; simpl;
    rewrite ?bind_app; simpl; rewrite ?app_nil_r; solve_Permutation.
Qed.

(** *** Every interleaving *)

Definition host_ok h : Prop := pool_ok h ∧ ids_ok h.

Lemma serve_pool timed_out h h' j :
  g_main h = MainJob j → serve_job e avail timed_out j h = Some h' →
  owned h' ⊆+ owned h ∧ length (g_jobs h') = length (g_jobs h) ∧ (ids_ok h → ids_ok h').
Proof.
  intros Hm.
  assert (∀ h1, same_jobs h h1 →
    owned (upd_main MainIdle (free_job j h1)) ⊆+ owned h ∧
    length (g_jobs (upd_main MainIdle (free_job j h1))) = length (g_jobs h) ∧
    (ids_ok h → ids_ok (upd_main MainIdle (free_job j h1)))) as Hnext.
  { intros h1 Hs. split_and!; [|by destruct Hs|intros Hi; exact (same_jobs_ids h h1 Hs Hi)].
    unfold owned. simpl. rewrite Hm. destruct Hs as [-> -> -> _ -> _ _ _ _]. simpl. solve_submseteq. }
  unfold serve_job. destruct (job_type _ =? MsgCreate).
  { destruct (serve_create _ _ _ _ h) as [h1|] eqn:Ec; [|done]. intros [= <-]. apply Hnext. by eapply create_jobs. }
  destruct (job_type _ =? MsgCountTokens); [intros [= <-]; apply Hnext, count_jobs|].
  destruct (job_type _ =? MsgResetCache); [intros [= <-]; apply Hnext, reset_jobs|].
  destruct (job_type _ =? MsgDestroy).
  { destruct (destroy_instance _ _ h) as [[b h1]|] eqn:Ed; [|done]. intros [= <-]. simpl. apply Hnext.
    apply destroy_jobs in Ed. destruct b; (eapply same_jobs_trans; [exact Ed|same_jobs]). }
  destruct (job_type _ =? MsgShutdown).
  { destruct (destroy_instance _ _ h) as [[b h1]|] eqn:Ed; [|done]. apply destroy_jobs in Ed. intros [= <-]. simpl.
    split_and!; [|by destruct Ed|intros Hi; exact (same_jobs_ids h h1 Ed Hi)].
    unfold owned. simpl. rewrite Hm. destruct Ed as [-> -> -> _ -> _ _ _ _]. simpl. solve_submseteq. }
  intros [= <-]. apply Hnext. same_jobs.
Qed.

Lemma main_pool timed_out h h' :
  main_step e avail timed_out h = Some h' →
  owned h' ⊆+ owned h ∧ length (g_jobs h') = length (g_jobs h) ∧ (ids_ok h → ids_ok h').
Proof.
  unfold main_step. destruct (g_main h) as [|j|] eqn:Em; [|by apply serve_pool|done].
  destruct (g_ctl_queue h) as [|j q] eqn:Eq.
  - destruct (g_eof h); [|done]. destruct (destroy_instance _ _ h) as [[b h1]|] eqn:Ed; [|done].
    apply destroy_jobs in Ed. intros [= <-]. simpl. split_and!; [|by destruct Ed|intros Hi; exact (same_jobs_ids h h1 Ed Hi)].
    unfold owned. simpl. rewrite Em, Eq. destruct Ed as [-> -> -> _ -> _ _ _ _]. rewrite Eq. done.
  - intros [= <-]. split_and!; [|done|done]. unfold owned. simpl. rewrite Em, Eq. simpl. solve_submseteq.
Qed.

Lemma header_id_ok b : id_ok (h_id (read_header b)).
Proof.
  unfold read_header, id_ok. simpl. pose proof (le_value_bound (take 8 (drop 8 b))) as [H0 H1]. split; [done|].
  eapply Z.lt_le_trans; [exact H1|]. apply (Z.pow_le_mono_r 256 _ 8); [done|].
  unfold len. rewrite length_take. lia.
Qed.

Lemma same_jobs_ok h h' : same_jobs h h' → host_ok h → host_ok h'.
Proof.
  intros Hs [Hp Hi]. split; [|by eapply same_jobs_ids]. eapply pool_ok_sub; [done|by rewrite (same_jobs_owned _ _ Hs)|by destruct Hs].
Qed.

Lemma read_ok h h' : host_ok h → read_frame e h = Some h' → host_ok h'.
Proof.
  intros [Hp Hi]. unfold read_frame. set (fh := read_header (h_in h)).
  destruct (g_eof h || _); [done|]. destruct (kMaxFrame <? h_size fh); [by intros [= <-]|].
  destruct (len (drop 16 (h_in h)) <? h_size fh); [done|]. set (body := take _ _). set (h1 := upd_in _ h).
  assert (host_ok h1) as H1 by done. intros [= <-]. unfold on_frame.
  destruct (h_type fh =? MsgCancel).
  { eapply same_jobs_ok; [apply cancel_jobs_same|]. by eapply same_jobs_ok; [apply cancel_jobs_same|]. }
  destruct (h_type fh =? MsgRelease); [done|].
  pose proof (take_job_pool h1 Hp) as Ht.
  assert (ids_ok (take_job h1).2) as Hids.
  { intros k. unfold take_job. destruct (last _); [apply Hi|]. unfold with_job. simpl.
    destruct (decide (k < length (g_jobs h))%nat); [rewrite lookup_app_l by done; apply Hi|].
    rewrite lookup_app_r by lia. destruct (k - length (g_jobs h))%nat; [by split|by split]. }
  destruct (take_job h1) as [j h2]. simpl in Hids. destruct Ht as (Hlt & Hj & [Hn Hf] & Hw & Hm & Hrq & Hcq & Hk).
  set (job := mkJob (h_id fh) (h_type fh) body 0 _ _).
  assert (∀ h3, g_jobs h3 = <[j := job]> (g_jobs h2) → owned h3 ≡ₚ j :: owned h2 → host_ok h3) as Hdone.
  { intros h3 Hjobs Hown. split.
    - split; [rewrite Hown; by apply NoDup_cons|]. rewrite Hown, Hjobs, length_insert. by constructor.
    - intros k. assert (with_job h3 k = with_job (set_job j job h2) k) as -> by (unfold with_job; by rewrite Hjobs).
      rewrite with_set_job by done. destruct (decide (k = j)); [apply header_id_ok|apply Hids]. }
  destruct (h_type fh =? MsgRun); [destruct (_ && _)|]; (apply Hdone; [done|]); unfold owned; simpl;
    rewrite ?bind_app; simpl; rewrite ?app_nil_r; solve_Permutation.
Qed.

Lemma worker_ids h w pc polls r : ids_ok h → worker_step new_char e polls pc h = Some r → ids_ok (step_worker h w r).
Proof.
  intros Hi Hs k. unfold step_worker. change (with_job (upd_workers _ r.2) k) with (with_job r.2 k).
  assert (ids_ok r.2) as H; [|apply H].
  destruct pc as [| |j|j i rd seg|j i resp|j i resp key retire|j key|j|]; simpl in Hs; [| |injection Hs as <-..|done].
  - by injection Hs as <-.
  - repeat step_match Hs; by simplify_eq.
  - eapply same_jobs_ids; [apply job_segment_jobs|done].
  - eapply same_jobs_ids; [apply job_run_jobs|done].
  - eapply same_jobs_ids; [apply job_place_jobs|done].
  - eapply same_jobs_ids; [apply job_respond_jobs|done].
  - eapply same_jobs_ids; [apply job_unplace_jobs|done].
  - done.
Qed.

(** A worker's stretch does not start or stop threads. *)
Lemma worker_keeps_threads h pc polls r : worker_step new_char e polls pc h = Some r → g_workers r.2 = g_workers h.
Proof.
  intros Hs. destruct pc as [| |j|j i rd seg|j i resp|j i resp key retire|j key|j|]; simpl in Hs; [| |injection Hs as <-..|done].
  - by injection Hs as <-.
  - repeat step_match Hs; by simplify_eq.
  - apply (sj_workers _ _ (proj1 (job_segment_jobs j h))).
  - apply (sj_workers _ _ (proj1 (job_run_jobs j i rd seg polls h))).
  - apply (sj_workers _ _ (proj1 (job_place_jobs j i resp h))).
  - apply (sj_workers _ _ (proj1 (job_respond_jobs j i resp key retire h))).
  - apply (sj_workers _ _ (proj1 (job_unplace_jobs j key h))).
  - done.
Qed.

Lemma exec_ok l h h' : host_ok h → exec_host new_char e avail l h = Some h' → host_ok h'.
Proof.
  intros Hok. destruct l as [b| | |w polls|t]; simpl.
  - by intros [= <-].
  - by intros [= <-].
  - by apply read_ok.
  - destruct (g_workers h !! w) as [pc|] eqn:Ew; [|done].
    destruct (worker_step _ _ _ pc h) as [r|] eqn:Es; [|done]. intros [= <-]. destruct Hok as [Hp Hi].
    destruct (worker_pool h w pc polls r Ew Es) as [Hsub Hl].
    split; [by eapply pool_ok_sub|by eapply (worker_ids h w)].
  - intros Hs. destruct Hok as [Hp Hi]. destruct (main_pool t h h' Hs) as (Hsub & Hl & Hids).
    split; [by eapply pool_ok_sub|by apply Hids].
Qed.

(** The requests read during an interleaving. *)
Definition received_by l h : list Z := match l with HRead => next_request h | _ => [] end.

Fixpoint received (ls : list HostLabel) h : list Z :=
  match ls with
  | [] => []
  | l :: ls => received_by l h ++
      match exec_host new_char e avail l h with Some h => received ls h | None => [] end
  end.

Lemma exec_account l h h' id :
  host_ok h → exec_host new_char e avail l h = Some h' → g_main h' ≠ MainExit →
  account h' id = (account h id + count_id id (received_by l h))%nat.
Proof.
  intros [Hp Hi]. destruct l as [b| | |w polls|t]; simpl.
  - intros [= <-] _. rewrite count_id_nil. by apply account_moves.
  - intros [= <-] _. rewrite count_id_nil. by apply account_moves.
  - intros Hr _. by apply read_account.
  - destruct (g_workers h !! w) as [pc|] eqn:Ew; [|done].
    destruct (worker_step _ _ _ pc h) as [r|] eqn:Es; [|done]. intros [= <-] _. rewrite count_id_nil.
    by eapply (worker_account h w).
  - intros Hs Hm. rewrite count_id_nil. by eapply main_account.
Qed.

Lemma exit_stays l h h' : g_main h = MainExit → exec_host new_char e avail l h = Some h' → g_main h' = MainExit.
Proof.
  intros Hm. destruct l as [b| | |w polls|t]; simpl.
  - by intros [= <-].
  - by intros [= <-].
  - unfold read_frame. set (fh := read_header (h_in h)). destruct (g_eof h || _); [done|].
    destruct (kMaxFrame <? h_size fh); [by intros [= <-]|]. destruct (_ <? h_size fh); [done|]. intros [= <-].
    unfold on_frame. destruct (h_type fh =? MsgCancel).
    { rewrite (sj_main _ _ (cancel_jobs_same _ _ _)), (sj_main _ _ (cancel_jobs_same _ _ _)). done. }
    destruct (h_type fh =? MsgRelease); [done|]. unfold take_job.
    destruct (last _), (h_type fh =? MsgRun); try done; by destruct (_ && _).
  - destruct (g_workers h !! w) as [pc|] eqn:Ew; [|done].
    destruct (worker_step _ _ _ pc h) as [r|] eqn:Es; [|done]. intros [= <-]. simpl.
    destruct pc as [| |j|j i rd seg|j i resp|j i resp key retire|j key|j|]; simpl in Es; [| |injection Es as <-..|done].
    + by injection Es as <-.
    + repeat step_match Es; by simplify_eq.
    + by rewrite (sj_main _ _ (proj1 (job_segment_jobs j h))).
    + by rewrite (sj_main _ _ (proj1 (job_run_jobs j i rd seg polls h))).
    + by rewrite (sj_main _ _ (proj1 (job_place_jobs j i resp h))).
    + by rewrite (sj_main _ _ (proj1 (job_respond_jobs j i resp key retire h))).
    + by rewrite (sj_main _ _ (proj1 (job_unplace_jobs j key h))).
    + done.
  - unfold main_step. by rewrite Hm.
Qed.

Lemma run_exit ls h h' : g_main h = MainExit → run_host new_char e avail ls h = Some h' → g_main h' = MainExit.
Proof.
  revert h. induction ls as [|l ls IH]; intros h Hm; [by intros [= <-]|]. cbn [run_host].
  destruct (exec_host new_char e avail l h) as [h1|] eqn:El; [|done]. apply IH. by eapply exit_stays.
Qed.

Lemma run_account ls h h' id :
  host_ok h → run_host new_char e avail ls h = Some h' → g_main h' ≠ MainExit →
  account h' id = (account h id + count_id id (received ls h))%nat.
Proof.
  revert h. induction ls as [|l ls IH]; intros h Hok.
  - intros [= <-] _. symmetry. apply count_id_nil.
  - cbn [run_host received]. destruct (exec_host new_char e avail l h) as [h1|] eqn:El; [|done]. intros Hr Hm.
    assert (g_main h1 ≠ MainExit) as Hm1 by (intros Hx; apply Hm; by eapply run_exit).
    rewrite (IH h1), (exec_account l h h1) by (try done; by eapply exec_ok).
    unfold count_id. rewrite filter_app, length_app. lia.
Qed.

Lemma start_ok st p os : host_ok (host_start e avail st p os).
Proof. split; [split; constructor|]. intros j. by split. Qed.

Lemma start_account st p os id : id ≠ 0 → account (host_start e avail st p os) id = 0%nat.
Proof.
  intros Hid. unfold account, pending, answers. simpl. rewrite Nat.add_0_r. unfold ready_frame.
  rewrite encode_counts; [by rewrite decide_False|repeat constructor; auto with appends|done|by split|done|done].
Qed.

End Host.

Lemma table_functions {E : Type} (e : agent_engine_v1 E) : check_table (Some e) = inl e → missing_function e = false.
Proof. unfold check_table. intros H. by repeat step_match H; simplify_eq. Qed.

(** C12. In every interleaving of the pipe, the reader, the workers and the main
    thread, with any engine whose table passed the checks: the final frames sent
    for a request id and the jobs that still owe it one are together as many as
    the requests read with that id.  So every command gets exactly one answer,
    whatever fails on the way. *)
Theorem every_request_answered_once {E : Type} (new_char : Z → Z) (e : agent_engine_v1 E) (avail : bool) (st : E)
    (p : Proc) (os : ShmOs) (ls : list HostLabel) (h : Hs E) (id : Z) :
  check_table (Some e) = inl e →
  run_host new_char e avail ls (host_start e avail st p os) = Some h → g_main h ≠ MainExit → id ≠ 0 →
  (answers h id + pending h id)%nat = count_id id (received new_char e avail ls (host_start e avail st p os)).
Proof.
  intros He Hr Hm Hid. change (answers h id + pending h id)%nat with (account h id).
  rewrite (run_account new_char e avail (table_functions e He) ls (host_start e avail st p os) h id (start_ok _ _ _ _ _) Hr Hm).
  by rewrite start_account.
Qed.

(** ** A host that serves two runs *)

Module HostSample.

Definition text_part (s : string) : agent_part := mkPart 0 (str_of s) None None None 0 None None 0.

Definition big_part : agent_part :=
  mkPart 2 None None (str_of "image/png") None 0 None (Some (replicate 100 (Ascii.ascii_of_N 7))) 100.

(** An engine that streams one chunk and answers every run with a text. *)
Definition engine : agent_engine_v1 unit :=
  mkEngine 2 96 (Some "echo") None 1 1
    (Some (λ _ st, (st, AGENT_OK, Some 1, "")))
    (Some (λ _ st, st))
    (Some (λ _ req ctx st, (st, [OnChunk 0 (bytes "hi")], AGENT_OK,
       mkAgentResponse (mkAgentMessage (str_of "assistant") (Some [text_part "hello"]) None None) 3 4)))
    (Some (λ _ st, st))
    (Some (λ _ _, None))
    None None.

Definition request : agent_request unit :=
  mkAgentRequest 1 0 (Some [mkAgentMessage (str_of "user") (Some [text_part "hey"]) None None]) None None None None None None.

Definition create_frame : list byte := (encode MsgCreate 1 [w_u32 0; w_str (str_of "{}")]).1.
Definition run_frame (id : Z) : list byte :=
  (encode MsgRun id [w_shm_header None 0 None; w_request request kRunStream]).1.
Definition bad_run (id : Z) : list byte := (encode MsgRun id [w_u32 9]).1.

Definition labels : list HostLabel :=
  [HInput (create_frame ++ run_frame 2 ++ bad_run 3); HRead; HMain false; HMain false; HRead; HRead] ++
  (HWorker 0%nat <$> replicate 6 []) ++ (HWorker 1%nat <$> replicate 3 []).

Definition slab (n : Z) : Z := 4096.
Definition start : Hs unit := host_start engine false () (mkProc 7 0) (mkShmOs ∅ ∅ ∅ 0 []).
Definition final : Hs unit := default start (run_host slab engine false labels start).

End HostSample.

Lemma every_request_answered_once_witness :
  received HostSample.slab HostSample.engine false HostSample.labels HostSample.start = [1; 2; 3] ∧
  (answers HostSample.final 2 + pending HostSample.final 2)%nat = 1%nat ∧
  (answers HostSample.final 3 + pending HostSample.final 3)%nat = 1%nat ∧ answers HostSample.final 3 = 1%nat.
Proof.
  assert (run_host HostSample.slab HostSample.engine false HostSample.labels HostSample.start = Some HostSample.final) as Hr
    by (vm_compute; reflexivity).
  assert (g_main HostSample.final ≠ MainExit) as Hm by (vm_compute; discriminate).
  assert (received HostSample.slab HostSample.engine false HostSample.labels HostSample.start = [1; 2; 3]) as Hrec
    by (vm_compute; reflexivity).
  split; [exact Hrec|]. split; [|split].
  - rewrite (every_request_answered_once HostSample.slab HostSample.engine false () (mkProc 7 0) (mkShmOs ∅ ∅ ∅ 0 [])
      HostSample.labels HostSample.final 2 eq_refl Hr Hm ltac:(discriminate)).
    unfold HostSample.start in Hrec. rewrite Hrec. reflexivity.
  - rewrite (every_request_answered_once HostSample.slab HostSample.engine false () (mkProc 7 0) (mkShmOs ∅ ∅ ∅ 0 [])
      HostSample.labels HostSample.final 3 eq_refl Hr Hm ltac:(discriminate)).
    unfold HostSample.start in Hrec. rewrite Hrec. reflexivity.
  - vm_compute. reflexivity.
Defined.
