(* ===== verification/EngineHostShm.v ===== *)
(** * The response segments of the engine host

    A response that went through shared memory stays readable: from the moment
    its frame is sent until the core's Release for it is read, nothing the host
    does reuses, unmaps or overwrites the segment
    ([response_kept_until_release]).  The invariant [seg_inv] says that live
    mappings have their own addresses and that no two response segments share
    an object. *)
From stdpp Require Import base gmap strings list sorting.
From Stdlib Require Import Lia ZArith.
From S2P Require Import Prelude Arena EngineIpc EngineIpcTheory EngineShm EngineHost EngineHostTheory.

Local Open Scope Z_scope.
Local Arguments finish : simpl never.
Local Arguments calls : simpl never.

(** ** The invariant *)

(** The addresses of request segments and of response segments with their key. *)
Definition addrs (reqs : list Segment) (cores : list (nat * Segment)) : list nat :=
  omap addr_ reqs ++ omap (λ c, addr_ c.2) cores.

Record seg_inv (os : ShmOs) (reqs : list Segment) (cores : list (nat * Segment)) (next : nat) : Prop := {
  si_os : os_bounded os;
  si_keys : NoDup cores.*1;
  si_next : Forall (λ c, c.1 < next)%nat cores;
  si_addrs : NoDup (addrs reqs cores);
  si_mapped : ∀ a, a ∈ addrs reqs cores → is_Some (shm_maps os !! a);
  si_objects : ∀ c1 c2 a1 a2 o, c1 ∈ cores → c2 ∈ cores → addr_ c1.2 = Some a1 → addr_ c2.2 = Some a2 →
    shm_maps os !! a1 = Some o → shm_maps os !! a2 = Some o → c1.1 = c2.1
}.

Lemma core_addr reqs cores c a : c ∈ cores → addr_ c.2 = Some a → a ∈ addrs reqs cores.
Proof. intros Hc Ha. unfold addrs. apply elem_of_app. right. apply list_elem_of_omap. by exists c. Qed.

Lemma inv_same_maps os os' reqs cores next :
  seg_inv os reqs cores next → os_bounded os' →
  (∀ a, a ∈ addrs reqs cores → shm_maps os' !! a = shm_maps os !! a) → seg_inv os' reqs cores next.
Proof.
  intros [Hos Hk Hn Ha Hm Ho] Hb Hsame. split; try done.
  - intros a Hin. rewrite Hsame by done. by apply Hm.
  - intros c1 c2 a1 a2 o H1 H2 Ha1 Ha2. 
    rewrite (Hsame a1 (core_addr reqs cores c1 a1 H1 Ha1)), (Hsame a2 (core_addr reqs cores c2 a2 H2 Ha2)).
    by apply (Ho c1 c2 a1 a2 o).
Qed.

Lemma inv_grows os os' reqs cores next :
  seg_inv os reqs cores next → os_bounded os' → os_grows os os' → seg_inv os' reqs cores next.
Proof.
  intros Hi Hb [_ Hm _]. eapply inv_same_maps; [done|done|]. intros a Ha. apply Hm.
  destruct (si_mapped _ _ _ _ Hi a Ha) as [o Hl]. destruct (si_os _ _ _ _ Hi) as [_ Hbd]. by apply (Hbd a o).
Qed.

Lemma munmap_bounded a os : os_bounded os → os_bounded (munmap a os).
Proof. intros [H1 H2]. split; [done|]. intros b o Hl. simpl in Hl. apply lookup_delete_Some in Hl as [_ Hl]. by apply H2. Qed.

Lemma inv_munmap os reqs cores next a :
  seg_inv os reqs cores next → a ∉ addrs reqs cores → seg_inv (munmap a os) reqs cores next.
Proof.
  intros Hi Ha. eapply inv_same_maps; [done|by apply munmap_bounded, Hi|]. intros b Hb. simpl.
  rewrite lookup_delete_ne; [done|]. by intros ->.
Qed.

Lemma inv_unmap_all os reqs cores next (l : list Segment) :
  seg_inv os reqs cores next → (∀ a, a ∈ omap addr_ l → a ∉ addrs reqs cores) →
  seg_inv (foldl (λ os s, (unmap s os).2) os l) reqs cores next.
Proof.
  revert os. induction l as [|s l IH]; intros os Hi Hl; [done|]. cbn [foldl]. apply IH.
  - unfold unmap. simpl in *. destruct (addr_ s) as [a|]; [|done]. simpl. apply inv_munmap; [done|]. apply Hl. set_solver.
  - intros a Ha. apply Hl. simpl. destruct (addr_ s); set_solver.
Qed.

Lemma unmap_all_frame (l : list Segment) os :
  shm_objects (foldl (λ os s, (unmap s os).2) os l) = shm_objects os ∧
  shm_fresh (foldl (λ os s, (unmap s os).2) os l) = shm_fresh os ∧
  ∀ a, a ∉ omap addr_ l → shm_maps (foldl (λ os s, (unmap s os).2) os l) !! a = shm_maps os !! a.
Proof.
  revert os. induction l as [|s l IH]; intros os; [done|]. cbn [foldl].
  destruct (IH (unmap s os).2) as (Ho & Hf & Hm). rewrite Ho, Hf. split_and!.
  - unfold unmap. by destruct (addr_ s).
  - unfold unmap. by destruct (addr_ s).
  - intros a Ha. simpl in Ha. rewrite Hm by (destruct (addr_ s); set_solver). unfold unmap. cbn [snd].
    destruct (addr_ s) as [b|]; [|done]. simpl. rewrite lookup_delete_ne; [done|set_solver].
Qed.

(** Fewer request segments, and their addresses given back. *)
Lemma inv_retire os reqs kept gone cores next :
  seg_inv os reqs cores next → reqs ≡ₚ gone ++ kept →
  seg_inv (foldl (λ os s, (unmap s os).2) os gone) kept cores next.
Proof.
  intros Hi Hp. assert (addrs reqs cores ≡ₚ omap addr_ gone ++ addrs kept cores) as Hpa.
  { unfold addrs. rewrite Hp, omap_app. by rewrite <-app_assoc. }
  pose proof (si_addrs _ _ _ _ Hi) as Hnd. rewrite Hpa in Hnd. apply NoDup_app in Hnd as (_ & Hdis & Hnd).
  apply inv_unmap_all; [|done]. destruct Hi as [Hos Hk Hn Ha Hm Ho]. split; try done.
  intros a Hin. apply Hm. rewrite Hpa. set_solver.
Qed.

Lemma inv_add_request os reqs cores next s a os' :
  seg_inv os reqs cores next → os_bounded os' → os_grows os os' → addr_ s = Some a →
  (shm_fresh os ≤ a)%nat → is_Some (shm_maps os' !! a) → seg_inv os' (reqs ++ [s]) cores next.
Proof.
  intros Hi Hb Hg Ha Hf Hm. pose proof (inv_grows _ _ _ _ _ Hi Hb Hg) as Hi'.
  assert (addrs (reqs ++ [s]) cores ≡ₚ a :: addrs reqs cores) as Hp.
  { unfold addrs. rewrite omap_app. simpl. rewrite Ha. solve_Permutation. }
  assert (a ∉ addrs reqs cores) as Hnot.
  { intros Hin. destruct (si_mapped _ _ _ _ Hi a Hin) as [o Hl]. destruct (si_os _ _ _ _ Hi) as [_ Hbd].
    destruct (Hbd a o Hl). lia. }
  destruct Hi' as [Hos Hk Hn Had Hmd Ho]. split; try done.
  - rewrite Hp. by apply NoDup_cons.
  - intros b Hin. rewrite Hp in Hin. apply elem_of_cons in Hin as [->|Hin]; [done|by apply Hmd].
Qed.

(** A response segment is given up. *)
Lemma inv_drop os reqs cores next i c :
  seg_inv os reqs cores next → cores !! i = Some c → seg_inv (unmap c.2 os).2 reqs (delete i cores) next.
Proof.
  intros Hi Hc. pose proof (delete_Permutation cores i c Hc) as Hp.
  assert (addrs reqs cores ≡ₚ omap addr_ [c.2] ++ addrs reqs (delete i cores)) as Hpa.
  { unfold addrs. rewrite Hp at 1. simpl. destruct (addr_ c.2); simpl; solve_Permutation. }
  pose proof (si_addrs _ _ _ _ Hi) as Hnd. rewrite Hpa in Hnd. apply NoDup_app in Hnd as (_ & Hdis & Hnd).
  assert (seg_inv os reqs (delete i cores) next) as Hi'.
  { destruct Hi as [Hos Hk Hn Ha Hm Ho]. split; try done.
    - rewrite Hp in Hk. apply NoDup_cons in Hk as [_ Hk]. done.
    - rewrite Hp in Hn. apply Forall_cons in Hn as [_ Hn]. done.
    - intros a Hin. apply Hm. rewrite Hpa. set_solver.
    - intros c1 c2 a1 a2 o H1 H2. apply Ho; rewrite Hp; set_solver. }
  apply (inv_unmap_all os reqs (delete i cores) next [c.2]); done.
Qed.

Lemma inv_unlink os reqs cores next n : seg_inv os reqs cores next → seg_inv (unlink_name n os) reqs cores next.
Proof.
  intros Hi. unfold unlink_name. destruct (os_name n) as [path|]; [|done].
  destruct (unlink_grows path os) as [Hg Hb]. eapply inv_grows; [done|by apply Hb, Hi|done].
Qed.

Lemma inv_add_response os reqs cores next s a o os' :
  seg_inv os reqs cores next → os_bounded os' → os_grows os os' → addr_ s = Some a →
  (shm_fresh os ≤ a)%nat → shm_maps os' !! a = Some o → (shm_fresh os ≤ o)%nat →
  seg_inv os' reqs (cores ++ [(next, s)]) (S next).
Proof.
  intros Hi Hb Hg Ha Hf Hm Hof. pose proof (inv_grows _ _ _ _ _ Hi Hb Hg) as Hi'.
  assert (addrs reqs (cores ++ [(next, s)]) ≡ₚ a :: addrs reqs cores) as Hp.
  { unfold addrs. rewrite omap_app. simpl. rewrite Ha. solve_Permutation. }
  assert (∀ b, b ∈ addrs reqs cores → ∃ o', shm_maps os' !! b = Some o' ∧ (b < shm_fresh os)%nat ∧ (o' < shm_fresh os)%nat) as Hold.
  { intros b Hin. destruct (si_mapped _ _ _ _ Hi b Hin) as [o' Hl]. destruct (si_os _ _ _ _ Hi) as [_ Hbd].
    destruct (Hbd b o' Hl) as [H1 H2]. exists o'. destruct Hg as [_ Hgm _]. by rewrite Hgm. }
  destruct Hi' as [Hos Hk Hn Had Hmd Ho]. split; try done.
  - rewrite fmap_app. apply NoDup_app. split; [done|]. split; [|apply NoDup_singleton].
    intros k Hk1 Hk2. apply list_elem_of_fmap in Hk1 as (c & -> & Hc). rewrite Forall_forall in Hn.
    specialize (Hn c Hc). simpl in *. set_solver by lia.
  - apply Forall_app. split; [eapply Forall_impl; [exact Hn|]; simpl; lia|]. constructor; [simpl; lia|constructor].
  - rewrite Hp. apply NoDup_cons. split; [|done]. intros Hin. destruct (Hold a Hin) as (? & _ & ? & _). lia.
  - intros b Hin. rewrite Hp in Hin. apply elem_of_cons in Hin as [->|Hin]; [by eauto|by apply Hmd].
  - intros c1 c2 a1 a2 o' H1 H2 Ha1 Ha2 Hl1 Hl2. rewrite elem_of_app, list_elem_of_singleton in H1, H2.
    destruct H1 as [H1| ->], H2 as [H2| ->]; simpl in *; simplify_eq; [by apply (Ho c1 c2 a1 a2 o')| | |done].
    + destruct (Hold a1 (core_addr reqs cores c1 a1 H1 Ha1)) as (o1 & E1 & _ & ?). simplify_eq. lia.
    + destruct (Hold a2 (core_addr reqs cores c2 a2 H2 Ha2)) as (o1 & E1 & _ & ?). simplify_eq. lia.
Qed.

Lemma store_frame a off d os :
  shm_maps (store_at a off d os) = shm_maps os ∧ shm_fresh (store_at a off d os) = shm_fresh os ∧
  shm_names (store_at a off d os) = shm_names os.
Proof. unfold store_at. by destruct (shm_maps os !! a). Qed.

Lemma inv_store os reqs cores next a off d :
  seg_inv os reqs cores next → seg_inv (store_at a off d os) reqs cores next.
Proof.
  intros Hi. destruct (store_frame a off d os) as (Hm & Hf & Hn). eapply inv_same_maps; [done| |by rewrite Hm].
  destruct (si_os _ _ _ _ Hi) as [H1 H2]. unfold os_bounded. by rewrite Hm, Hf, Hn.
Qed.

(** ** The host's stretches *)

Section Segments.
Context {E : Type} (new_char : Z → Z) (e : agent_engine_v1 E) (avail : bool).
Implicit Types (h : Hs E) (t : ResponseSegment) (l : HostLabel).

Definition core_of t : nat * Segment := (rs_key t, rs_segment t).

Definition host_seg h : Prop :=
  seg_inv (h_os h) (g_request_segments h) (core_of <$> g_response_segments h) (g_next_key h).

(** From [h] to [h'] a busy segment is still there and holds what it held. *)
Definition keeps t h h' : Prop :=
  t ∈ g_response_segments h' ∧ seg_memory (rs_segment t) (h_os h') = seg_memory (rs_segment t) (h_os h).

(** What the invariant says of a segment's address. *)
Lemma seg_address h t a :
  host_seg h → t ∈ g_response_segments h → addr_ (rs_segment t) = Some a →
  a ∈ addrs (g_request_segments h) (core_of <$> g_response_segments h) ∧ ∃ o, shm_maps (h_os h) !! a = Some o.
Proof.
  intros Hi Ht Ha. assert (a ∈ addrs (g_request_segments h) (core_of <$> g_response_segments h)) as Hin.
  { eapply (core_addr _ _ (core_of t)); [|done]. by apply list_elem_of_fmap_2. }
  split; [done|]. by apply (si_mapped _ _ _ _ Hi).
Qed.

Lemma memory_same h t os' :
  (∀ a, addr_ (rs_segment t) = Some a → memory_at a os' = memory_at a (h_os h)) →
  seg_memory (rs_segment t) os' = seg_memory (rs_segment t) (h_os h).
Proof. intros H. unfold seg_memory. destruct (addr_ (rs_segment t)) as [a|]; [|done]. simpl. by apply H. Qed.

Lemma memory_grows h t os' :
  host_seg h → t ∈ g_response_segments h → os_grows (h_os h) os' →
  seg_memory (rs_segment t) os' = seg_memory (rs_segment t) (h_os h).
Proof.
  intros Hi Ht Hg. apply memory_same. intros a Ha. destruct (seg_address h t a Hi Ht Ha) as (_ & o & Hm).
  eapply grows_memory; [apply Hi|done|exact Hm].
Qed.

(** A stretch that keeps the invariant, and the busy segments [P] allows for. *)
Definition calm (P : ResponseSegment → Prop) h h' : Prop :=
  host_seg h → host_seg h' ∧ ∀ t, t ∈ g_response_segments h → busy t = true → P t → keeps t h h'.

Lemma calm_trans P h1 h2 h3 : calm P h1 h2 → calm P h2 h3 → calm P h1 h3.
Proof.
  intros H12 H23 Hi. destruct (H12 Hi) as [Hi2 Hk2]. destruct (H23 Hi2) as [Hi3 Hk3]. split; [done|].
  intros t Ht Hb HP. destruct (Hk2 t Ht Hb HP) as [Ht2 Hm2]. destruct (Hk3 t Ht2 Hb HP) as [Ht3 Hm3].
  split; [done|]. by rewrite Hm3.
Qed.

(** The part of the state this is about. *)
Record same_segs h h' : Prop := {
  ss_os : h_os h' = h_os h;
  ss_requests : g_request_segments h' = g_request_segments h;
  ss_responses : g_response_segments h' = g_response_segments h;
  ss_next : g_next_key h' = g_next_key h
}.

Lemma same_segs_trans h1 h2 h3 : same_segs h1 h2 → same_segs h2 h3 → same_segs h1 h3.
Proof. intros [] []. split; congruence. Qed.

Lemma calm_same P h h' : same_segs h h' → calm P h h'.
Proof.
  intros [Hos Hrq Hrs Hn] Hi. split; [unfold host_seg; by rewrite Hos, Hrq, Hrs, Hn|].
  intros t Ht _ _. split; [by rewrite Hrs|by rewrite Hos].
Qed.

(** Followed by updates of other parts of the state. *)
Lemma calm_then P h h1 h2 : calm P h h1 → same_segs h1 h2 → calm P h h2.
Proof. intros Hc Hs. eapply calm_trans; [exact Hc|by apply calm_same]. Qed.

Lemma retire_segment_calm P name h : calm P h (retire_segment name h).
Proof.
  intros Hi. unfold retire_segment, host_seg. simpl.
  set (gone := filter (λ s, name_ s = name) (g_request_segments h)).
  set (kept := filter (λ s, name_ s ≠ name) (g_request_segments h)).
  assert (g_request_segments h ≡ₚ gone ++ kept) as Hp.
  { subst gone kept. induction (g_request_segments h) as [|s l IH]; [done|]. rewrite !filter_cons.
    destruct (decide (name_ s = name)); [rewrite decide_False by naive_solver|rewrite decide_True by done]; rewrite IH at 1; solve_Permutation. }
  split; [by eapply inv_retire|]. intros t Ht _ _. split; [done|]. apply memory_same. intros a Ha.
  change (memory_at a (foldl (λ os s, (unmap s os).2) (h_os h) gone) = memory_at a (h_os h)).
  destruct (seg_address h t a Hi Ht Ha) as (Hin & o & Hm).
  destruct (unmap_all_frame gone (h_os h)) as (Ho & _ & Hmaps).
  unfold memory_at. rewrite Hmaps; [rewrite Hm; cbn [mbind option_bind]; by rewrite Ho|].
  intros Hg. pose proof (si_addrs _ _ _ _ Hi) as Hnd. unfold addrs in Hnd, Hin. apply NoDup_app in Hnd as (_ & Hdis & _).
  apply (Hdis a).
  - rewrite Hp, omap_app. set_solver.
  - apply list_elem_of_omap. exists (core_of t). split; [by apply list_elem_of_fmap_2|done].
Qed.

Lemma request_segment_calm P name size h : calm P h (request_segment name size h).2.
Proof.
  unfold request_segment. destruct (last _) as [s|]; [by apply calm_same|]. intros Hi.
  destruct (open_segment no_segment name size (h_os h)) as [[found s] os] eqn:Eo.
  destruct (open_grows _ _ _ _ _ _ (si_os _ _ _ _ Hi) Eo) as (Hg & Hb & Hok & _).
  destruct found; simpl; (split; [|intros t Ht _ _; split; [done|by apply memory_grows]]).
  - destruct (Hok eq_refl) as (a & Ha & Hf & Hm). unfold host_seg. simpl. by eapply inv_add_request.
  - unfold host_seg. simpl. by eapply inv_grows.
Qed.

(** Keys name one segment. *)
Lemma same_key h t1 t2 :
  host_seg h → t1 ∈ g_response_segments h → t2 ∈ g_response_segments h → rs_key t1 = rs_key t2 → t1 = t2.
Proof.
  intros Hi H1 H2 Hk. pose proof (si_keys _ _ _ _ Hi) as Hnd.
  assert ((core_of <$> g_response_segments h).*1 = rs_key <$> g_response_segments h) as Hf by (by rewrite <-list_fmap_compose).
  rewrite Hf in Hnd. apply list_elem_of_lookup in H1 as [i H1]. apply list_elem_of_lookup in H2 as [j H2].
  assert (i = j) as ->; [|congruence]. eapply NoDup_lookup; [exact Hnd| |]; rewrite list_lookup_fmap; [by rewrite H1|by rewrite H2, Hk].
Qed.

Lemma best_segment_free bytes (ss : list ResponseSegment) s : best_segment bytes ss = Some s → s ∈ ss ∧ busy s = false.
Proof.
  unfold best_segment. assert (∀ best, (∀ b, best = Some b → busy b = false) →
    foldl (better bytes) best ss = Some s → (s ∈ ss ∨ best = Some s) ∧ busy s = false) as H.
  { induction ss as [|x ss IH]; intros best Hb; cbn [foldl].
    - intros ->. split; [by right|by apply Hb].
    - intros Hf. destruct (IH (better bytes best x)) as [Hin Hfree]; [|done|].
      + intros b. unfold better. destruct (busy x) eqn:Ex; simpl; [apply Hb|]. destruct (_ && _); [by intros [= <-]|apply Hb].
      + split; [|done]. unfold better in Hin. destruct (_ && _ && _), Hin as [Hin|Hin]; simplify_eq; set_solver. }
  intros Hf. destruct (H None) as [[Hin|?] Hfree]; done.
Qed.

(** Changing the flags of segments does not touch the invariant. *)
Lemma cores_flags (f : ResponseSegment → ResponseSegment) (ss : list ResponseSegment) :
  (∀ s, core_of (f s) = core_of s) → core_of <$> (f <$> ss) = core_of <$> ss.
Proof. intros Hf. rewrite <-list_fmap_compose. apply list_fmap_ext. intros i s _. apply Hf. Qed.

Lemma flags_calm (P : ResponseSegment → Prop) h f :
  (∀ s, core_of (f s) = core_of s) → (∀ t, P t → f t = t) →
  calm P h (upd_response_segments (f <$> g_response_segments h) (g_next_key h) h).
Proof.
  intros Hf HP Hi. split.
  - unfold host_seg. simpl. by rewrite cores_flags.
  - intros t Ht _ Hpt. split; [|done]. simpl. rewrite <-(HP t Hpt). by apply list_elem_of_fmap_2.
Qed.

Lemma retire_free_calm P h : calm P h (retire_free h).2.
Proof.
  unfold retire_free. destruct (list_find _ _) as [[i s]|] eqn:Ef; [|by apply calm_same]. intros Hi.
  apply list_find_Some in Ef as (Hs & Hfree & _). cbn [snd].
  pose proof (inv_unlink _ _ _ _ (name_ (rs_segment s)) Hi) as Hi1.
  assert ((core_of <$> g_response_segments h) !! i = Some (core_of s)) as Hc by (by rewrite list_lookup_fmap, Hs).
  split; [unfold host_seg; simpl; rewrite list_fmap_delete; by apply (inv_drop _ _ _ _ i (core_of s))|].
  intros t Ht Hb _. assert (t ≠ s) as Hne by congruence. split.
  - simpl. apply list_elem_of_lookup in Ht as [j Hj]. assert (j ≠ i) by (intros ->; congruence).
    apply list_elem_of_lookup. destruct (decide (j < i)%nat).
    + exists j. by rewrite list_lookup_delete_lt.
    + exists (j - 1)%nat. rewrite list_lookup_delete_ge by lia. by replace (S (j - 1)) with j by lia.
  - simpl. apply memory_same. intros a Ha. destruct (seg_address h t a Hi Ht Ha) as (Hin & o & Hm).
    destruct (unlink_name_frame (name_ (rs_segment s)) (h_os h)) as [Ho Hmm].
    unfold unmap. simpl. destruct (addr_ (rs_segment s)) as [b|] eqn:Eb; simpl; [|unfold memory_at; rewrite Hmm, Hm; simpl; by rewrite Ho].
    unfold memory_at. simpl. rewrite Hmm, lookup_delete_ne; [rewrite Hm; simpl; by rewrite Ho|]. intros ->.
    apply Hne. eapply same_key; [done|done|by eapply list_elem_of_lookup_2|].
    apply (si_objects _ _ _ _ Hi (core_of t) (core_of s) a a o); try done; apply list_elem_of_fmap_2; [done|by eapply list_elem_of_lookup_2].
Qed.

(** The segment for a new response is not one that is still in use. *)
Lemma response_segment_calm P bytes id h :
  let '(key, _, h') := response_segment bytes id h in
  calm P h h' ∧ (host_seg h → ∀ t, t ∈ g_response_segments h → busy t = true → key ≠ Some (rs_key t)).
Proof.
  unfold response_segment. destruct (best_segment _ _) as [s|] eqn:Es.
  - apply best_segment_free in Es as [Hin Hfree].
    assert (host_seg h → ∀ t, t ∈ g_response_segments h → busy t = true → rs_key s ≠ rs_key t) as Hne.
    { intros Hi t Ht Hb Hk. assert (s = t) by (by eapply same_key). congruence. }
    split; [|intros Hi t Ht Hb; specialize (Hne Hi t Ht Hb); congruence]. intros Hi.
    destruct (flags_calm (λ t, rs_key s ≠ rs_key t) h
      (λ s0, if Nat.eqb (rs_key s0) (rs_key s) then mkResponseSegment (rs_key s0) (rs_segment s0) id true else s0)) as [H1 H2];
      [| |done|].
    + intros s0. by destruct (Nat.eqb _ _).
    + intros t Hk. destruct (Nat.eqb_spec (rs_key t) (rs_key s)); [congruence|done].
    + split; [exact H1|]. intros t Ht Hb _. apply H2; [done|done|]. by apply Hne.
  - pose proof (retire_free_calm P h) as Hk1. pose proof (retire_free_calm (λ _, True) h) as Hall.
    destruct (retire_free h) as [retire h1]. simpl in Hk1, Hall.
    destruct (create no_segment (grain_up bytes) side_host (h_proc h1) (h_os h1)) as [[[made s] p] os] eqn:Ec.
    assert (∀ h2, host_seg h1 → h_os h2 = os → (∀ t, t ∈ g_response_segments h1 → t ∈ g_response_segments h2) →
      ∀ t, t ∈ g_response_segments h1 → keeps t h1 h2) as Hkeep.
    { intros h2 Hi1 Hos Hsub t Ht. split; [by apply Hsub|]. rewrite Hos. apply memory_grows; [done|done|].
      by destruct (create_grows _ _ _ _ _ _ _ _ (si_os _ _ _ _ Hi1) Ec). }
    destruct made; simpl; split.
    + eapply calm_trans; [exact Hk1|]. intros Hi1.
      destruct (create_grows _ _ _ _ _ _ _ _ (si_os _ _ _ _ Hi1) Ec) as (Hg & Hbd & Hok).
      destruct (Hok eq_refl) as (a & o & Ha & Hf & Hm & Hof). split.
      * unfold host_seg. simpl. rewrite fmap_app. by eapply (inv_add_response (h_os h1)).
      * intros t Ht _ _. apply Hkeep; [done|done| |done]. intros t' ?. simpl. set_solver.
    + intros Hi t Ht Hb [= Hk]. destruct (Hall Hi) as [Hi1 Hkt]. destruct (Hkt t Ht Hb I) as [Ht1 _].
      pose proof (si_next _ _ _ _ Hi1) as Hn. rewrite Forall_forall in Hn.
      specialize (Hn (core_of t) (list_elem_of_fmap_2 _ _ _ Ht1)). simpl in Hn. lia.
    + eapply calm_trans; [exact Hk1|]. intros Hi1.
      destruct (create_grows _ _ _ _ _ _ _ _ (si_os _ _ _ _ Hi1) Ec) as (Hg & Hbd & _). split.
      * unfold host_seg. simpl. by eapply inv_grows.
      * intros t Ht _ _. by apply Hkeep.
    + done.
Qed.

Lemma commit_calm h key s o :
  find_segment key h = Some s →
  calm (λ t, key ≠ rs_key t) h (upd_os (commit (rs_segment s) o (h_os h)) (h_proc h) h).
Proof.
  intros Hs. apply List.find_some in Hs as [Hin Hkey]. apply Nat.eqb_eq in Hkey. apply list_elem_of_In in Hin.
  unfold commit. destruct (addr_ (rs_segment s)) as [b|] eqn:Eb; [|by apply calm_same].
  destruct o as [o|]; [|by apply calm_same]. destruct (shm_base o) as [mem|]; [|by apply calm_same]. intros Hi.
  split; [by apply inv_store|]. intros t Ht _ Hne. split; [done|]. apply memory_same. intros a Ha. simpl.
  destruct (seg_address h t a Hi Ht Ha) as (_ & ob & Hm). destruct (seg_address h s b Hi Hin Eb) as (_ & ob' & Hm').
  unfold memory_at, store_at. rewrite Hm'. simpl. rewrite Hm. simpl. apply lookup_alter_ne. intros ->.
  apply Hne. rewrite <-Hkey. apply (si_objects _ _ _ _ Hi (core_of s) (core_of t) b a ob); try done; by apply list_elem_of_fmap_2.
Qed.

(** ** Workers *)

(** The segment a worker is about to fill. *)
Definition pc_key (pc : WorkerPc) : option nat :=
  match pc with Placed _ _ _ key _ => key | Unplaced _ key => key | _ => None end.

Definition unheld t h : Prop := ∀ pc, pc ∈ g_workers h → pc_key pc ≠ Some (rs_key t).

(** A worker's stretch leaves alone the busy segments that are not its own. *)
Definition leaves (pc : WorkerPc) h (r : WorkerPc * Hs E) : Prop :=
  calm (λ t, pc_key pc ≠ Some (rs_key t)) h r.2 ∧
  (host_seg h → ∀ t, t ∈ g_response_segments h → busy t = true → pc_key pc ≠ Some (rs_key t) → pc_key r.1 ≠ Some (rs_key t)).

Lemma leaves_same pc pc' h h' : same_segs h h' → pc_key pc' = None → leaves pc h (pc', h').
Proof. intros Hs Hk. split; [by apply calm_same|]. intros _ t _ _ _. simpl. by rewrite Hk. Qed.

Lemma leaves_calm pc pc' h h' :
  calm (λ t, pc_key pc ≠ Some (rs_key t)) h h' → pc_key pc' = None ∨ pc_key pc' = pc_key pc → leaves pc h (pc', h').
Proof. intros Hc Hk. split; [done|]. intros _ t _ _ Hne. simpl. by destruct Hk as [-> | ->]. Qed.

Lemma job_segment_leaves j h : leaves (Taken j) h (job_segment j h).
Proof.
  unfold job_segment. destruct (g_instance h); [|by apply leaves_same].
  destruct (r_shm_header _) as [[[seg_name seg_size] retire] r]. destruct (negb (ok_ r)); [by apply leaves_same|].
  set (h1 := match retire with Some _ => _ | None => h end). set (P := λ t : ResponseSegment, pc_key (Taken j) ≠ Some (rs_key t)).
  assert (calm P h h1) as Hc1 by (subst h1; destruct retire; [apply retire_segment_calm|by apply calm_same]).
  destruct seg_name as [b|]; [|by apply leaves_calm; [exact Hc1|left]].
  pose proof (calm_trans _ _ _ _ Hc1 (request_segment_calm P (text_of (Some b)) seg_size h1)) as Hc2.
  destruct (request_segment _ _ h1) as [[s|] h2]; [destruct (size_ s <? seg_size)|]; (apply leaves_calm; [|by left]);
    (eapply calm_then; [exact Hc2|done]).
Qed.

Lemma job_run_leaves j i r seg polls h : leaves (Mapped j i r seg) h (job_run new_char e j i r seg polls h).
Proof.
  unfold job_run. destruct (r_request _) as [req r'].
  destruct req as [[req flags]|]; [|by apply leaves_same]. destruct (eng_run e) as [run|]; [|by apply leaves_same].
  destruct (run _ _ _ _) as [[[st made] rc] resp]. destruct (rc =? AGENT_OK); by apply leaves_same.
Qed.

Lemma job_place_leaves j i resp h : leaves (Answered j i resp) h (job_place j i resp h).
Proof.
  unfold job_place. destruct (g_shm h && _); [|by apply leaves_same].
  set (bytes := message_shm_bytes _ _). set (id := job_id _).
  pose proof (response_segment_calm (λ t, pc_key (Answered j i resp) ≠ Some (rs_key t)) bytes id h) as H.
  destruct (response_segment bytes id h) as [[key retire] h']. destruct H as [Hc Hk]. split; [exact Hc|].
  intros Hi t Ht Hb _. by apply Hk.
Qed.

Lemma job_respond_leaves j i resp key retire h :
  leaves (Placed j i resp key retire) h (job_respond e j i resp key retire h).
Proof.
  unfold job_respond. set (seg := rs_segment <$> _). destruct (segment_frame _ _ _ _ _ _ _) as [w fits].
  set (os := commit_seg seg w (h_os h)).
  assert (calm (λ t, pc_key (Placed j i resp key retire) ≠ Some (rs_key t)) h (upd_os os (h_proc h) h)) as Hc.
  { subst os seg. destruct key as [k|]; [|by apply calm_same]. simpl.
    destruct (find_segment k h) as [s|] eqn:Ef; [|by apply calm_same]. simpl.
    intros Hi. destruct (commit_calm h k s (shm_ w) Ef Hi) as [H1 H2].
    split; [exact H1|]. intros t Ht Hb Hne. apply H2; [done|done|congruence]. }
  destruct fits; (apply leaves_calm; [eapply calm_then; [exact Hc|done]|by (left + right)]).
Qed.

Lemma job_unplace_leaves j key h : leaves (Unplaced j key) h (job_unplace j key h).
Proof.
  unfold job_unplace. destruct key as [k|]; [|by apply leaves_same]. apply leaves_calm; [|by left].
  eapply calm_then; [apply (flags_calm _ h
    (λ s, if Nat.eqb (rs_key s) k then mkResponseSegment (rs_key s) (rs_segment s) (busy_id s) false else s))|done].
  - intros s. by destruct (Nat.eqb _ _).
  - intros t Hne. simpl in Hne. destruct (Nat.eqb_spec (rs_key t) k); [congruence|done].
Qed.

Lemma worker_leaves pc polls h r : worker_step new_char e polls pc h = Some r → leaves pc h r.
Proof.
  intros Hs. destruct pc as [| |j|j i rd seg|j i resp|j i resp key retire|j key|j|]; simpl in Hs;
    [| |injection Hs as <-..|done].
  - injection Hs as <-. by apply leaves_same.
  - repeat step_match Hs; simplify_eq; by apply leaves_same.
  - apply job_segment_leaves.
  - apply job_run_leaves.
  - apply job_place_leaves.
  - apply job_respond_leaves.
  - apply job_unplace_leaves.
  - by apply leaves_same.
Qed.

(** ** The other threads *)

(** The request id a read releases. *)
Definition released_by l h : option Z :=
  match l with
  | HRead =>
      let fh := read_header (h_in h) in
      if negb (g_eof h) && negb (len (h_in h) <? kHeaderSize) && negb (kMaxFrame <? h_size fh) &&
         negb (len (drop 16 (h_in h)) <? h_size fh) && (h_type fh =? MsgRelease)
      then Some (h_id fh) else None
  | _ => None
  end.

Lemma cancel_jobs_segs id js h : same_segs h (cancel_jobs id js h).
Proof.
  unfold cancel_jobs. revert h. induction js as [|j js IH]; intros h; [done|]. cbn [foldl].
  destruct (job_id (with_job h j) =? id); [|apply IH]. destruct (IH (set_job j (mkJob (job_id (with_job h j)) (job_type (with_job h j))
    (job_payload (with_job h j)) 1 (job_arena (with_job h j)) (job_arena_capacity (with_job h j))) h)). by split.
Qed.

(** What a step keeps: the invariant, and every busy segment that no worker
    is filling and whose release it does not read. *)
Definition spares (released : option Z) h h' : Prop :=
  host_seg h →
  host_seg h' ∧ ∀ t, t ∈ g_response_segments h → busy t = true → unheld t h → released ≠ Some (busy_id t) →
    keeps t h h' ∧ unheld t h'.

Lemma spares_same released h h' :
  same_segs h h' → (∀ pc, pc ∈ g_workers h' → pc ∈ g_workers h ∨ pc_key pc = None) → spares released h h'.
Proof.
  intros Hs Hw Hi. destruct (calm_same (λ _, True) h h' Hs Hi) as [H1 H2]. split; [done|].
  intros t Ht Hb Hu _. split; [by apply H2|]. intros pc Hpc. destruct (Hw pc Hpc) as [Hin| ->]; [by apply Hu|done].
Qed.

Lemma read_spares h h' : read_frame e h = Some h' → spares (released_by HRead h) h h'.
Proof.
  unfold read_frame, released_by. set (fh := read_header (h_in h)).
  destruct (g_eof h || _) eqn:E0; [done|]. apply orb_false_iff in E0 as [Ee El]. rewrite Ee, El.
  destruct (kMaxFrame <? h_size fh); [intros [= <-]; apply spares_same; [done|by left]|].
  destruct (_ <? h_size fh); [done|]. cbn [negb andb].
  set (body := take _ _). set (h1 := upd_in _ h). intros [= <-]. unfold on_frame.
  destruct (h_type fh =? MsgCancel) eqn:Ec.
  { set (h2 := cancel_jobs (h_id fh) (g_running h1) h1). apply spares_same.
    - eapply same_segs_trans; [|apply cancel_jobs_segs]. eapply (same_segs_trans _ h1); [done|apply cancel_jobs_segs].
    - intros pc. rewrite (sj_workers _ _ (cancel_jobs_same _ _ _)). subst h2. rewrite (sj_workers _ _ (cancel_jobs_same _ _ _)). by left. }
  destruct (h_type fh =? MsgRelease) eqn:Er.
  { intros Hi. destruct (flags_calm (λ t, h_id fh ≠ busy_id t) h1 (λ s, if busy s && (busy_id s =? h_id fh)
        then mkResponseSegment (rs_key s) (rs_segment s) (busy_id s) false else s)) as [H1 H2]; [| |done|].
    - intros s. by destruct (_ && _).
    - intros t Hne. destruct (Z.eqb_spec (busy_id t) (h_id fh)); [congruence|]. by rewrite andb_false_r.
    - split; [exact H1|]. intros t Ht Hb Hu Hne. split; [|exact Hu]. apply H2; [done|done|congruence]. }
  unfold take_job. destruct (last _) as [j|]; (destruct (h_type fh =? MsgRun); [destruct (_ && _)|]);
    (apply spares_same; [done|]); intros pc; simpl; rewrite ?elem_of_app, ?list_elem_of_singleton;
    intros Hpc; by (left + (destruct Hpc as [?| ->]; [left|right])).
Qed.

Lemma destroy_segs timed_out h b h' : destroy_instance e timed_out h = Some (b, h') → same_segs h h'.
Proof. unfold destroy_instance. intros H. repeat step_match H; by simplify_eq. Qed.

Lemma serve_create_segs timed_out job h h' : serve_create e avail timed_out job h = Some h' → same_segs h h'.
Proof.
  unfold serve_create. destruct (r_u32 _) as [flags r]. destruct (r_str r) as [config r'].
  destruct (negb (ok_ r')); [by intros [= <-]|].
  destruct (destroy_instance e timed_out _) as [[b h1]|] eqn:Ed; [|done]. apply destroy_segs in Ed as [].
  intros H. repeat step_match H; simplify_eq; by split.
Qed.

Lemma main_segs timed_out h h' :
  main_step e avail timed_out h = Some h' → same_segs h h' ∧ g_workers h' = g_workers h.
Proof.
  unfold main_step. destruct (g_main h) as [|j|]; [| |done].
  - destruct (g_ctl_queue h); [|by intros [= <-]]. destruct (g_eof h); [|done].
    destruct (destroy_instance e timed_out h) as [[b h1]|] eqn:Ed; [|done]. intros [= <-].
    split; [apply destroy_segs in Ed as []; by split|exact (sj_workers _ _ (destroy_jobs _ _ _ _ _ Ed))].
  - unfold serve_job. destruct (job_type _ =? MsgCreate).
    { destruct (serve_create _ _ _ _ h) as [h1|] eqn:Ec; [|done]. intros [= <-].
      split; [apply serve_create_segs in Ec as []; by split|]. exact (sj_workers _ _ (create_jobs _ _ _ _ _ _ Ec)). }
    destruct (job_type _ =? MsgCountTokens).
    { intros [= <-]. unfold serve_count. by repeat step_goal. }
    destruct (job_type _ =? MsgResetCache).
    { intros [= <-]. unfold serve_reset. by repeat step_goal. }
    destruct (job_type _ =? MsgDestroy); [|destruct (job_type _ =? MsgShutdown)].
    + destruct (destroy_instance e timed_out h) as [[b h1]|] eqn:Ed; [|done]. intros [= <-]. simpl.
      pose proof (sj_workers _ _ (destroy_jobs _ _ _ _ _ Ed)) as Hw. apply destroy_segs in Ed as [].
      destruct b; (split; [by split|exact Hw]).
    + destruct (destroy_instance e timed_out h) as [[b h1]|] eqn:Ed; [|done]. intros [= <-]. simpl.
      pose proof (sj_workers _ _ (destroy_jobs _ _ _ _ _ Ed)) as Hw. apply destroy_segs in Ed as []. split; [by split|exact Hw].
    + by intros [= <-].
Qed.

Lemma step_spares l h h' : exec_host new_char e avail l h = Some h' → spares (released_by l h) h h'.
Proof.
  destruct l as [b| | |w polls|tm]; cbn [exec_host].
  - intros [= <-]. apply spares_same; [done|by left].
  - intros [= <-]. apply spares_same; [done|by left].
  - apply read_spares.
  - destruct (g_workers h !! w) as [pc|] eqn:Ew; [|done].
    destruct (worker_step _ _ _ pc h) as [r|] eqn:Es; [|done]. intros [= <-] Hi.
    assert (g_workers r.2 = g_workers h) as Hw by (by eapply worker_keeps_threads).
    destruct (worker_leaves pc polls h r Es) as [Hc Hk]. destruct (Hc Hi) as [H1 H2]. split; [exact H1|].
    intros t Ht Hb Hu _. assert (pc_key pc ≠ Some (rs_key t)) as Hne by (apply Hu; by eapply list_elem_of_lookup_2).
    split; [by apply H2|]. intros pc'. simpl. rewrite Hw. intros Hin.
    apply list_elem_of_lookup in Hin as [i Hl]. apply list_lookup_insert_Some in Hl as [(-> & <- & _)|[_ Hl]]; [by apply Hk|].
    apply Hu. by eapply list_elem_of_lookup_2.
  - intros Hs. destruct (main_segs tm h h' Hs) as [Hsame Hw]. apply spares_same; [done|]. rewrite Hw. by left.
Qed.

(** ** Runs of the host *)

(** No step of the run reads the Release of request [id]. *)
Fixpoint never_released (id : Z) (ls : list HostLabel) h : Prop :=
  match ls with
  | [] => True
  | l :: ls =>
      released_by l h ≠ Some id ∧
      match exec_host new_char e avail l h with Some h' => never_released id ls h' | None => True end
  end.

Lemma start_seg st p os : os_bounded os → host_seg (host_start e avail st p os).
Proof.
  intros Hos. split; simpl; try done; by try constructor; set_solver.
Qed.

Lemma run_seg ls h h' : run_host new_char e avail ls h = Some h' → host_seg h → host_seg h'.
Proof.
  revert h. induction ls as [|l ls IH]; intros h; simpl; [by intros [= <-]|].
  destruct (exec_host _ _ _ _ _) as [h1|] eqn:Es; [|done]. intros Hr Hi. apply (IH h1 Hr).
  by apply (step_spares l h h1 Es).
Qed.

(** The objects behind the response segments of a host that has run any
    sequence of steps are pairwise different, and no segment is mapped at the
    address of another, so that a worker that fills its segment cannot write
    into one the core is still reading. *)
Lemma host_segments_apart st p os ls h t1 t2 a1 a2 :
  os_bounded os → run_host new_char e avail ls (host_start e avail st p os) = Some h →
  t1 ∈ g_response_segments h → t2 ∈ g_response_segments h → t1 ≠ t2 →
  addr_ (rs_segment t1) = Some a1 → addr_ (rs_segment t2) = Some a2 →
  a1 ≠ a2 ∧ ∃ o1 o2, shm_maps (h_os h) !! a1 = Some o1 ∧ shm_maps (h_os h) !! a2 = Some o2 ∧ o1 ≠ o2.
Proof.
  intros Hos Hr H1 H2 Hne Ha1 Ha2. pose proof (run_seg _ _ _ Hr (start_seg st p os Hos)) as Hi.
  destruct (seg_address h t1 a1 Hi H1 Ha1) as (_ & o1 & Hm1). destruct (seg_address h t2 a2 Hi H2 Ha2) as (_ & o2 & Hm2).
  assert (o1 ≠ o2) as Ho.
  { intros <-. apply Hne. eapply (same_key h); [done|done|done|].
    apply (si_objects _ _ _ _ Hi (core_of t1) (core_of t2) a1 a2 o1); try done; by apply list_elem_of_fmap_2. }
  split; [congruence|]. by exists o1, o2.
Qed.

(** C17. A response that went through shared memory stays readable: from the
    moment no worker is filling its segment any more until the core's Release
    for its request is read, no step of the host reuses, unmaps or overwrites
    the segment, whatever else the host is asked to do meanwhile. *)
Theorem response_kept_until_release ls h h' t :
  host_seg h → t ∈ g_response_segments h → busy t = true → unheld t h →
  run_host new_char e avail ls h = Some h' → never_released (busy_id t) ls h →
  t ∈ g_response_segments h' ∧ seg_memory (rs_segment t) (h_os h') = seg_memory (rs_segment t) (h_os h).
Proof.
  revert h. induction ls as [|l ls IH]; intros h Hi Ht Hb Hu; simpl; [by intros [= <-] _|].
  destruct (exec_host _ _ _ _ _) as [h1|] eqn:Es; [|done]. intros Hr [Hne Hrest].
  destruct (step_spares l h h1 Es Hi) as [Hi1 Hk]. destruct (Hk t Ht Hb Hu Hne) as [[Ht1 Hm1] Hu1].
  destruct (IH h1 Hi1 Ht1 Hb Hu1 Hr Hrest) as [Ht2 Hm2]. split; [done|]. by rewrite Hm2.
Qed.

End Segments.

(** A host whose core reads the answer to request 5 while request 6 runs and
    request 9 is released. *)
Module SegmentSample.

Definition held : ResponseSegment := mkResponseSegment 0 (mkSegment (Some 1%nat) 4 "a.4.h.0") 5 true.

Definition os : ShmOs := mkShmOs ∅ {[ 0%nat := bytes "data" ]} {[ 1%nat := 0%nat ]} 2 [].

Definition before : Hs unit :=
  mkHs () os (mkProc 7 0) [] [] (Some 1) true [] [] [] [] [] [] [held] 1 [] MainIdle false.

Definition release_frame (id : Z) : list byte := (encode MsgRelease id []).1.

Definition labels : list HostLabel :=
  [HInput (HostSample.run_frame 6 ++ release_frame 9); HRead; HRead] ++ (HWorker 0%nat <$> replicate 6 []).

Definition after : Hs unit := default before (run_host HostSample.slab HostSample.engine true labels before).

End SegmentSample.


Lemma response_kept_until_release_witness :
  SegmentSample.held ∈ g_response_segments SegmentSample.after ∧
  seg_memory (rs_segment SegmentSample.held) (h_os SegmentSample.after) = Some (bytes "data") ∧
  length (h_out SegmentSample.after) = 2%nat.
Proof.
  destruct (response_kept_until_release HostSample.slab HostSample.engine true SegmentSample.labels
    SegmentSample.before SegmentSample.after SegmentSample.held) as [Hin Hm].
  - split.
    + split; [done|]. intros a o Hl. apply (lookup_singleton_Some (M := gmap nat) 1%nat a 0%nat o) in Hl as [<- <-]. simpl. lia.
    + apply NoDup_singleton.
    + repeat constructor.
    + apply NoDup_singleton.
    + intros a Hin. apply list_elem_of_singleton in Hin as ->. by eexists.
    + intros c1 c2 a1 a2 o H1 H2 _ _ _ _. apply list_elem_of_singleton in H1 as ->. by apply list_elem_of_singleton in H2 as ->.
  - apply list_elem_of_singleton. reflexivity.
  - reflexivity.
  - intros pc Hpc. apply elem_of_nil in Hpc as [].
  - vm_compute. reflexivity.
  - vm_compute. repeat split; discriminate.
  - split; [exact Hin|]. split; [rewrite Hm; reflexivity|]. vm_compute. reflexivity.
Defined.
