(* ===== verification/EngineRemote.v ===== *)
(** * Engines in a host process (src/core/engines/engine_remote.cpp)

    The core's side of the frame protocol.  Several threads call one
    [RemoteEngine]; each call owns a slot, and the caller that holds the reader
    role reads the pipe and hands every caller its frames.  [Re] is the state
    behind [mutex], with the operating system's shared memory and the callers'
    own world [W], which callbacks and the logger change.

    A caller is a [Caller] with a program counter [Pc]: every stretch of code
    under the mutex, and every stretch between two of them, is one step
    ([exec_remote]), so that a list of [RemoteLabel]s is an interleaving.  Between two rounds of
    [wait] the model lets other callers run, also where the code keeps the
    mutex.  What the host and the operating system answer in a step (the clock,
    what a read returns, how the host ended, whether it could be spawned) is part
    of the label ([Env]); whether a write to the pipe succeeds is the next entry
    of [re_writes].  The clock counts nanoseconds. *)
From stdpp Require Import base gmap strings list.
From Stdlib Require Import Lia ZArith.
From S2P Require Import Prelude Arena Text Session Sandbox Mcp EngineIpc EngineShm EngineHost.

Local Open Scope Z_scope.

(** ** Constants and texts *)

Definition kHostName : string := "agent-engine-host".
Definition kReadyTimeoutMs : Z := 60000.
Definition kShutdownGraceMs : Z := 2000.
Definition kPollMs : Z := 10.
Definition kStderrTailBytes : nat := 2048.

Definition ms (n : Z) : Z := n * 1000000.
Definition minute : Z := 60 * 1000000000.

Definition signal_name (sig : Z) : string :=
  if sig =? 4 then "SIGILL" else if sig =? 6 then "SIGABRT" else if sig =? 7 then "SIGBUS"
  else if sig =? 8 then "SIGFPE" else if sig =? 9 then "SIGKILL" else if sig =? 11 then "SIGSEGV"
  else if sig =? 15 then "SIGTERM" else "signal " +:+ to_string sig.

Definition is_final (type : Msg) : bool := negb (type =? MsgChunk) && negb (type =? MsgProgress).

(** The value of AGENT_ENGINE_SHM, [None] when it is not set. *)
Definition shm_enabled_by_env (v : option string) : bool :=
  negb (match v with Some v => str_eqb v "0" | None => false end).

(** How the host ended: [term_signal] and [exit_code]. *)
Record Exit := mkExit { term_signal : Z; exit_code : Z }.

Definition exit_description (how : Exit) : string :=
  if negb (term_signal how =? 0)
  then "killed by " +:+ signal_name (term_signal how) +:+ " (" +:+ to_string (term_signal how) +:+ ")"
  else "exited with status " +:+ to_string (exit_code how).

Definition newline : byte := Ascii.ascii_of_N 10.

Definition blank_end (c : byte) : bool :=
  bool_decide (c = newline) || bool_decide (c = Ascii.ascii_of_N 13) || bool_decide (c = Ascii.ascii_of_N 32).

Fixpoint drop_blanks (l : list byte) : list byte :=
  match l with c :: l' => if blank_end c then drop_blanks l' else l | [] => [] end.

(** Back from the end of the text, up to the fourth line end. *)
Fixpoint last_lines (lines : nat) (l : list byte) : list byte :=
  match l with
  | [] => []
  | c :: l' =>
      if bool_decide (c = newline) then if Nat.eqb (S lines) 4 then [] else c :: last_lines (S lines) l'
      else c :: last_lines lines l'
  end.

Definition stderr_excerpt (tail : list byte) : string := of_bytes (rev (last_lines 0 (drop_blanks (rev tail)))).

(** ** State *)

(** The frames written to the pipe of a host. *)
Definition Child : Type := list (list byte).

Section Remote.
Context {W : Type}.

Record RemoteOptions := mkRemoteOptions {
  host_path : string;
  plugin_path : string;
  create_config : string;
  timeout_ms : Z;
  cancel_grace_ms : Z;
  max_restarts : Z;
  use_shm : bool;
  opt_shm_threshold : Z;
  opt_logger : option (LogLevel → string → W → W)
}.

Record RemoteInfo := mkRemoteInfo {
  ri_name : string;
  ri_version : string;
  ri_caps : Z;
  ri_flags : Z;
  has_count_tokens : bool;
  has_reset_cache : bool;
  ri_shm : bool
}.

(** [RemoteCallSlot].  [s_notified] says whether [cv] was notified since its
    caller went to sleep; [s_final_data] are the bytes from [final_data] on. *)
Record Slot := mkSlot {
  s_id : Z;
  s_generation : Z;
  s_active : bool;
  s_request : option (agent_request W);
  s_has_deadline : bool;
  s_deadline : Z;
  s_cancel_sent : bool;
  s_cancel_deadline : Z;
  s_inbox : list byte;
  s_final_queued : bool;
  s_failed : bool;
  s_error : Error;
  s_notified : bool;
  s_tx : list byte;
  s_work : list byte;
  s_done : bool;
  s_final_type : Msg;
  s_final_data : list byte;
  s_request_shm : Segment;
  s_request_shm_generation : Z;
  s_request_shm_named : bool;
  s_retire : string;
  s_response_shm : option Segment
}.

Definition new_slot : Slot :=
  mkSlot 0 0 false None false 0 false 0 [] false false (mkError OkCode "") false [] [] false 0 [] no_segment 0 false "" None.

Definition slot_inbox (v0 : list byte) (v1 : list byte) (s : Slot) : Slot :=
  mkSlot (s_id s) (s_generation s) (s_active s) (s_request s) (s_has_deadline s) (s_deadline s) (s_cancel_sent
    s) (s_cancel_deadline s) v0 (s_final_queued s) (s_failed s) (s_error s) (s_notified s) (s_tx s) v1 (s_done
    s) (s_final_type s) (s_final_data s) (s_request_shm s) (s_request_shm_generation s) (s_request_shm_named s)
    (s_retire s) (s_response_shm s).

Definition slot_deliver (v0 : list byte) (v1 : bool) (v2 : bool) (s : Slot) : Slot :=
  mkSlot (s_id s) (s_generation s) (s_active s) (s_request s) (s_has_deadline s) (s_deadline s) (s_cancel_sent
    s) (s_cancel_deadline s) v0 v1 (s_failed s) (s_error s) v2 (s_tx s) (s_work s) (s_done s) (s_final_type s)
    (s_final_data s) (s_request_shm s) (s_request_shm_generation s) (s_request_shm_named s) (s_retire s)
    (s_response_shm s).

Definition slot_fail (v0 : bool) (v1 : Error) (v2 : bool) (s : Slot) : Slot :=
  mkSlot (s_id s) (s_generation s) (s_active s) (s_request s) (s_has_deadline s) (s_deadline s) (s_cancel_sent
    s) (s_cancel_deadline s) (s_inbox s) (s_final_queued s) v0 v1 v2 (s_tx s) (s_work s) (s_done s)
    (s_final_type s) (s_final_data s) (s_request_shm s) (s_request_shm_generation s) (s_request_shm_named s)
    (s_retire s) (s_response_shm s).

Definition slot_notified (v : bool) (s : Slot) : Slot :=
  mkSlot (s_id s) (s_generation s) (s_active s) (s_request s) (s_has_deadline s) (s_deadline s) (s_cancel_sent
    s) (s_cancel_deadline s) (s_inbox s) (s_final_queued s) (s_failed s) (s_error s) v (s_tx s) (s_work s)
    (s_done s) (s_final_type s) (s_final_data s) (s_request_shm s) (s_request_shm_generation s)
    (s_request_shm_named s) (s_retire s) (s_response_shm s).

Definition slot_cancel (v0 : bool) (v1 : Z) (s : Slot) : Slot :=
  mkSlot (s_id s) (s_generation s) (s_active s) (s_request s) (s_has_deadline s) (s_deadline s) v0 v1 (s_inbox
    s) (s_final_queued s) (s_failed s) (s_error s) (s_notified s) (s_tx s) (s_work s) (s_done s) (s_final_type
    s) (s_final_data s) (s_request_shm s) (s_request_shm_generation s) (s_request_shm_named s) (s_retire s)
    (s_response_shm s).

Definition slot_final (v0 : bool) (v1 : Msg) (v2 : list byte) (s : Slot) : Slot :=
  mkSlot (s_id s) (s_generation s) (s_active s) (s_request s) (s_has_deadline s) (s_deadline s) (s_cancel_sent
    s) (s_cancel_deadline s) (s_inbox s) (s_final_queued s) (s_failed s) (s_error s) (s_notified s) (s_tx s)
    (s_work s) v0 v1 v2 (s_request_shm s) (s_request_shm_generation s) (s_request_shm_named s) (s_retire s)
    (s_response_shm s).

Definition slot_tx (v0 : list byte) (v1 : string) (s : Slot) : Slot :=
  mkSlot (s_id s) (s_generation s) (s_active s) (s_request s) (s_has_deadline s) (s_deadline s) (s_cancel_sent
    s) (s_cancel_deadline s) (s_inbox s) (s_final_queued s) (s_failed s) (s_error s) (s_notified s) v0 (s_work
    s) (s_done s) (s_final_type s) (s_final_data s) (s_request_shm s) (s_request_shm_generation s)
    (s_request_shm_named s) v1 (s_response_shm s).

Definition slot_request_shm (v0 : Segment) (v1 : Z) (v2 : bool) (v3 : string) (s : Slot) : Slot :=
  mkSlot (s_id s) (s_generation s) (s_active s) (s_request s) (s_has_deadline s) (s_deadline s) (s_cancel_sent
    s) (s_cancel_deadline s) (s_inbox s) (s_final_queued s) (s_failed s) (s_error s) (s_notified s) (s_tx s)
    (s_work s) (s_done s) (s_final_type s) (s_final_data s) v0 v1 v2 v3 (s_response_shm s).

Definition slot_response_shm (v : option Segment) (s : Slot) : Slot :=
  mkSlot (s_id s) (s_generation s) (s_active s) (s_request s) (s_has_deadline s) (s_deadline s) (s_cancel_sent
    s) (s_cancel_deadline s) (s_inbox s) (s_final_queued s) (s_failed s) (s_error s) (s_notified s) (s_tx s)
    (s_work s) (s_done s) (s_final_type s) (s_final_data s) (s_request_shm s) (s_request_shm_generation s)
    (s_request_shm_named s) (s_retire s) v.

Definition slot_free (v0 : bool) (v1 : option (agent_request W)) (v2 : list byte) (v3 : list byte) (s : Slot) : Slot :=
  mkSlot (s_id s) (s_generation s) v0 v1 (s_has_deadline s) (s_deadline s) (s_cancel_sent s) (s_cancel_deadline
    s) v2 (s_final_queued s) (s_failed s) (s_error s) (s_notified s) (s_tx s) v3 (s_done s) (s_final_type s)
    (s_final_data s) (s_request_shm s) (s_request_shm_generation s) (s_request_shm_named s) (s_retire s)
    (s_response_shm s).

(** What a caller asked for. *)
Inductive Call :=
| CRun (request : agent_request W) (arena : Arena)
| CCountTokens (text : string)
| CResetCache.

Inductive Outcome :=
| RanTo (r : Result agent_response)
| CountedTo (r : Result Z)
| ResetTo (r : Result unit).

(** Where a caller is: before the call; waiting for the engine's only run to
    end; in front of [exchange]; encoding; writing its frame; at the head of [wait]; asleep on
    its condition variable; running callbacks; reading the pipe; with an error
    to return; with its final frame; about to map the response's segment;
    decoding; reporting a malformed response; back, with the response's buffers
    borrowed; done.  [Crashed]: it read memory that is not mapped. *)
Inductive Pc :=
| PStart
| PReady
| PEncode (slot : nat)
| PSend (slot : nat)
| PHead (slot : nat)
| PSleep (slot : nat)
| PProcess (slot : nat)
| PRead (slot : nat) (wait_ms : Z)
| PFail (slot : nat) (e : Error)
| PFinal (slot : nat)
| PMap (slot : nat) (rest : Reader) (name : agent_str) (size : Z) (retire : agent_str)
| PDecode (slot : nat) (rest : Reader) (size : Z)
| PMalformed (slot : nat) (what : string)
| PReturned (slot : nat) (out : Outcome)
| PDone (out : Outcome)
| Crashed (slot : nat).

Record Caller := mkCaller { c_call : Call; c_pc : Pc }.

Record Re := mkRe {
  options : RemoteOptions;
  info : RemoteInfo;
  serial : option nat;
  child : option Child;
  generation : Z;
  host_pid : Z;
  stderr_tail : list byte;
  reader_active : bool;
  rx : list byte;
  rx_off : nat;
  slots : list Slot;
  next_id : Z;
  in_flight : Z;
  max_in_flight : Z;
  starts : Z;
  restarts : list Z;
  skip_restart_count : bool;
  last_failure : string;
  shm_requests : Z;
  shm_responses : Z;
  response_segments : list Segment;
  re_os : ShmOs;
  re_proc : Proc;
  re_world : W;
  re_writes : list bool;
  re_calls : list Caller
}.

Definition upd_info (v0 : RemoteInfo) (v1 : Z) (r : Re) : Re :=
  mkRe (options r) v0 (serial r) (child r) (generation r) v1 (stderr_tail r) (reader_active r) (rx r) (rx_off r)
    (slots r) (next_id r) (in_flight r) (max_in_flight r) (starts r) (restarts r) (skip_restart_count r)
    (last_failure r) (shm_requests r) (shm_responses r) (response_segments r) (re_os r) (re_proc r) (re_world r)
    (re_writes r) (re_calls r).

Definition upd_serial (v : option nat) (r : Re) : Re :=
  mkRe (options r) (info r) v (child r) (generation r) (host_pid r) (stderr_tail r) (reader_active r) (rx r)
    (rx_off r) (slots r) (next_id r) (in_flight r) (max_in_flight r) (starts r) (restarts r) (skip_restart_count
    r) (last_failure r) (shm_requests r) (shm_responses r) (response_segments r) (re_os r) (re_proc r) (re_world
    r) (re_writes r) (re_calls r).

Definition upd_child (v0 : option Child) (v1 : list bool) (r : Re) : Re :=
  mkRe (options r) (info r) (serial r) v0 (generation r) (host_pid r) (stderr_tail r) (reader_active r) (rx r)
    (rx_off r) (slots r) (next_id r) (in_flight r) (max_in_flight r) (starts r) (restarts r) (skip_restart_count
    r) (last_failure r) (shm_requests r) (shm_responses r) (response_segments r) (re_os r) (re_proc r) (re_world
    r) v1 (re_calls r).

Definition upd_tail (v : list byte) (r : Re) : Re :=
  mkRe (options r) (info r) (serial r) (child r) (generation r) (host_pid r) v (reader_active r) (rx r) (rx_off
    r) (slots r) (next_id r) (in_flight r) (max_in_flight r) (starts r) (restarts r) (skip_restart_count r)
    (last_failure r) (shm_requests r) (shm_responses r) (response_segments r) (re_os r) (re_proc r) (re_world r)
    (re_writes r) (re_calls r).

Definition upd_reader (v : bool) (r : Re) : Re :=
  mkRe (options r) (info r) (serial r) (child r) (generation r) (host_pid r) (stderr_tail r) v (rx r) (rx_off r)
    (slots r) (next_id r) (in_flight r) (max_in_flight r) (starts r) (restarts r) (skip_restart_count r)
    (last_failure r) (shm_requests r) (shm_responses r) (response_segments r) (re_os r) (re_proc r) (re_world r)
    (re_writes r) (re_calls r).

Definition upd_rx (v0 : list byte) (v1 : nat) (r : Re) : Re :=
  mkRe (options r) (info r) (serial r) (child r) (generation r) (host_pid r) (stderr_tail r) (reader_active r)
    v0 v1 (slots r) (next_id r) (in_flight r) (max_in_flight r) (starts r) (restarts r) (skip_restart_count r)
    (last_failure r) (shm_requests r) (shm_responses r) (response_segments r) (re_os r) (re_proc r) (re_world r)
    (re_writes r) (re_calls r).

Definition upd_slots (v : list Slot) (r : Re) : Re :=
  mkRe (options r) (info r) (serial r) (child r) (generation r) (host_pid r) (stderr_tail r) (reader_active r)
    (rx r) (rx_off r) v (next_id r) (in_flight r) (max_in_flight r) (starts r) (restarts r) (skip_restart_count
    r) (last_failure r) (shm_requests r) (shm_responses r) (response_segments r) (re_os r) (re_proc r) (re_world
    r) (re_writes r) (re_calls r).

Definition upd_counts (v0 : Z) (v1 : Z) (v2 : Z) (r : Re) : Re :=
  mkRe (options r) (info r) (serial r) (child r) (generation r) (host_pid r) (stderr_tail r) (reader_active r)
    (rx r) (rx_off r) (slots r) v0 v1 v2 (starts r) (restarts r) (skip_restart_count r) (last_failure r)
    (shm_requests r) (shm_responses r) (response_segments r) (re_os r) (re_proc r) (re_world r) (re_writes r)
    (re_calls r).

Definition upd_starts (v0 : option Child) (v1 : Z) (v2 : list byte) (r : Re) : Re :=
  mkRe (options r) (info r) (serial r) v0 (generation r) (host_pid r) v2 (reader_active r) (rx r) (rx_off r)
    (slots r) (next_id r) (in_flight r) (max_in_flight r) v1 (restarts r) (skip_restart_count r) (last_failure
    r) (shm_requests r) (shm_responses r) (response_segments r) (re_os r) (re_proc r) (re_world r) (re_writes r)
    (re_calls r).

Definition upd_restarts (v0 : list Z) (v1 : bool) (r : Re) : Re :=
  mkRe (options r) (info r) (serial r) (child r) (generation r) (host_pid r) (stderr_tail r) (reader_active r)
    (rx r) (rx_off r) (slots r) (next_id r) (in_flight r) (max_in_flight r) (starts r) v0 v1 (last_failure r)
    (shm_requests r) (shm_responses r) (response_segments r) (re_os r) (re_proc r) (re_world r) (re_writes r)
    (re_calls r).

Definition upd_failure (v0 : string) (v1 : W) (r : Re) : Re :=
  mkRe (options r) (info r) (serial r) (child r) (generation r) (host_pid r) (stderr_tail r) (reader_active r)
    (rx r) (rx_off r) (slots r) (next_id r) (in_flight r) (max_in_flight r) (starts r) (restarts r)
    (skip_restart_count r) v0 (shm_requests r) (shm_responses r) (response_segments r) (re_os r) (re_proc r) v1
    (re_writes r) (re_calls r).

Definition upd_stats (v0 : Z) (v1 : Z) (r : Re) : Re :=
  mkRe (options r) (info r) (serial r) (child r) (generation r) (host_pid r) (stderr_tail r) (reader_active r)
    (rx r) (rx_off r) (slots r) (next_id r) (in_flight r) (max_in_flight r) (starts r) (restarts r)
    (skip_restart_count r) (last_failure r) v0 v1 (response_segments r) (re_os r) (re_proc r) (re_world r)
    (re_writes r) (re_calls r).

Definition upd_segments (v0 : list Segment) (v1 : ShmOs) (r : Re) : Re :=
  mkRe (options r) (info r) (serial r) (child r) (generation r) (host_pid r) (stderr_tail r) (reader_active r)
    (rx r) (rx_off r) (slots r) (next_id r) (in_flight r) (max_in_flight r) (starts r) (restarts r)
    (skip_restart_count r) (last_failure r) (shm_requests r) (shm_responses r) v0 v1 (re_proc r) (re_world r)
    (re_writes r) (re_calls r).

Definition upd_shm (v0 : ShmOs) (v1 : Proc) (r : Re) : Re :=
  mkRe (options r) (info r) (serial r) (child r) (generation r) (host_pid r) (stderr_tail r) (reader_active r)
    (rx r) (rx_off r) (slots r) (next_id r) (in_flight r) (max_in_flight r) (starts r) (restarts r)
    (skip_restart_count r) (last_failure r) (shm_requests r) (shm_responses r) (response_segments r) v0 v1
    (re_world r) (re_writes r) (re_calls r).

Definition upd_world (v : W) (r : Re) : Re :=
  mkRe (options r) (info r) (serial r) (child r) (generation r) (host_pid r) (stderr_tail r) (reader_active r)
    (rx r) (rx_off r) (slots r) (next_id r) (in_flight r) (max_in_flight r) (starts r) (restarts r)
    (skip_restart_count r) (last_failure r) (shm_requests r) (shm_responses r) (response_segments r) (re_os r)
    (re_proc r) v (re_writes r) (re_calls r).

Definition upd_calls (v : list Caller) (r : Re) : Re :=
  mkRe (options r) (info r) (serial r) (child r) (generation r) (host_pid r) (stderr_tail r) (reader_active r)
    (rx r) (rx_off r) (slots r) (next_id r) (in_flight r) (max_in_flight r) (starts r) (restarts r)
    (skip_restart_count r) (last_failure r) (shm_requests r) (shm_responses r) (response_segments r) (re_os r)
    (re_proc r) (re_world r) (re_writes r) v.

Definition upd_down (v0 : option Child) (v1 : Z) (v2 : Z) (v3 : list byte) (v4 : nat) (r : Re) : Re :=
  mkRe (options r) (info r) (serial r) v0 v1 v2 (stderr_tail r) (reader_active r) v3 v4 (slots r) (next_id r)
    (in_flight r) (max_in_flight r) (starts r) (restarts r) (skip_restart_count r) (last_failure r)
    (shm_requests r) (shm_responses r) (response_segments r) (re_os r) (re_proc r) (re_world r) (re_writes r)
    (re_calls r).

(** ** Slots *)

Definition slot_at (i : nat) (r : Re) : Slot := default new_slot (slots r !! i).
Definition on_slot (i : nat) (f : Slot → Slot) (r : Re) : Re := upd_slots (alter f i (slots r)) r.

(** In flight on the current host and not settled. *)
Definition pending_on (g : Z) (s : Slot) : bool :=
  s_active s && (s_generation s =? g) && negb (s_final_queued s) && negb (s_failed s).

(** ** Process management *)

Definition log (level : LogLevel) (msg : string) (r : Re) : Re :=
  match opt_logger (options r) with Some f => upd_world (f level msg (re_world r)) r | None => r end.

Definition engine_label (r : Re) : string :=
  if is_empty (ri_name (info r)) then plugin_path (options r) else ri_name (info r).

(** What the stderr thread does with a piece of the host's output. *)
Definition stderr_append (buf : list byte) (r : Re) : Re :=
  let tail := stderr_tail r ++ buf in
  upd_tail (if Nat.ltb kStderrTailBytes (length tail) then drop (length tail - kStderrTailBytes) tail else tail) r.

(** Destroying the mappings unmaps them. *)
Definition clear_segments (r : Re) : Re :=
  upd_segments [] (foldl (λ os s, (unmap s os).2) (re_os r) (response_segments r)) r.

Definition reap (r : Re) : Re :=
  let swept := if negb (host_pid r =? 0) then sweep side_host (host_pid r) (re_os r) else re_os r in
  upd_down None (u64 (generation r + 1)) 0 [] 0 (clear_segments (upd_shm swept (re_proc r) r)).

(** The loop that fails every call in flight; [err] is the error of each. *)
Definition fail_in_flight (err : nat → Error) (r : Re) : Re :=
  upd_slots (imap (λ i s, if pending_on (generation r) s then slot_fail true (err i) true s else s) (slots r)) r.

Definition fail_all (msg : string) (trigger : option nat) (trigger_code : ErrorCode) (r : Re) : Re :=
  fail_in_flight (λ i, make_error (if bool_decide (trigger = Some i) then trigger_code else EngineCrashed) msg) r.

(** The end of [host_died] and [kill_host]. *)
Definition record_failure (msg : string) (r : Re) : Re := log LogError msg (upd_failure msg (re_world r) r).

Definition died_message (during : string) (how : Exit) (r : Re) : string :=
  let msg := "Engine host for '" +:+ engine_label r +:+ "' died during " +:+ during +:+ ": " +:+ exit_description how +:+ "." in
  let msg := if 1 <? in_flight r then msg +:+ " Every request in flight on it failed." else msg in
  let tail := stderr_excerpt (stderr_tail r) in
  if is_empty tail then msg else msg +:+ " Last output: " +:+ tail.

Definition host_died (during : string) (how : Exit) (r : Re) : Error * Re :=
  let msg := died_message during how r in
  (make_error EngineCrashed msg, record_failure msg (reap (fail_all msg None EngineCrashed r))).

Definition killed_error (c : ErrorCode) (msg : string) (trigger : option nat) (r : Re) (i : nat) : Error :=
  let others := if 1 <? in_flight r
                then "Engine host for '" +:+ engine_label r +:+ "' was killed while this request was in flight: " +:+ msg
                else msg in
  if bool_decide (trigger = Some i) then make_error c msg else make_error EngineCrashed others.

Definition kill_host (c : ErrorCode) (msg : string) (trigger : option nat) (r : Re) : Error * Re :=
  (make_error c msg, record_failure msg (reap (fail_in_flight (killed_error c msg trigger r) r))).

(** ** Framing *)

(** Whether the next write to the pipe succeeds. *)
Definition write_stdin (frame : list byte) (c : Child) (r : Re) : bool * Re :=
  match re_writes r with
  | false :: ws => (false, upd_child (Some c) ws r)
  | true :: ws => (true, upd_child (Some (c ++ [frame])) ws r)
  | [] => (true, upd_child (Some (c ++ [frame])) [] r)
  end.

Definition write_frame (frame : list byte) (gen : Z) (r : Re) : bool * Re :=
  match child r with
  | Some c => if gen =? generation r then write_stdin frame c r else (false, r)
  | None => (false, r)
  end.

Definition send_control (type : Msg) (id : Z) (r : Re) : Re :=
  (write_frame (encode type id []).1 (generation r) r).2.

Definition shutdown (r : Re) : Re :=
  match child r with
  | None => r
  | Some c => reap (write_stdin (encode MsgShutdown 0 []).1 c r).2
  end.

Definition find_slot (id : Z) (r : Re) : option nat :=
  fst <$> list_find (λ s, s_active s = true ∧ s_id s = id) (slots r).

Definition forget_response_segment (name : string) (r : Re) : Re :=
  let gone := filter (λ s, name_ s = name) (response_segments r) in
  upd_segments (filter (λ s, name_ s ≠ name) (response_segments r))
    (foldl (λ os s, (unmap s os).2) (re_os r) gone) r.

Definition drop_frame (h : FrameHeader) (payload : list byte) (r : Re) : Re :=
  if negb (h_type h =? MsgResponse) then r
  else
    let '(name, _, retire, rd) := r_shm_header (Reader_new payload) in
    if negb (ok_ rd) then r
    else
      let r := match retire with Some _ => forget_response_segment (text_of retire) r | None => r end in
      match name with Some _ => send_control MsgRelease (h_id h) r | None => r end.

(** [RemoteEngine::response_segment]. *)
Definition response_segment (name : string) (size : Z) (r : Re) : option Segment * Re :=
  match list_find (λ s, name_ s = name) (response_segments r) with
  | Some (_, s) => (if size <=? size_ s then Some s else None, r)
  | None =>
      match open_segment no_segment name size (re_os r) with
      | (false, _, os) => (None, upd_shm os (re_proc r) r)
      | (true, s, os) => (Some s, upd_segments (response_segments r ++ [s]) (unlink_name name os) r)
      end
  end.

Definition deliver_frame (bytes : list byte) (type : Msg) (s : Slot) : Slot :=
  slot_deliver (s_inbox s ++ bytes) (s_final_queued s || is_final type) true s.

(** One frame: to its call, or dropped. *)
Definition route (h : FrameHeader) (bytes : list byte) (r : Re) : Re :=
  match find_slot (h_id h) r with
  | Some i =>
      if (s_generation (slot_at i r) =? generation r) && negb (s_failed (slot_at i r))
      then on_slot i (deliver_frame bytes (h_type h)) r
      else drop_frame h (drop 16 bytes) r
  | None => drop_frame h (drop 16 bytes) r
  end.

Definition malformed_frame (r : Re) : string := "Engine host for '" +:+ engine_label r +:+ "' sent a malformed frame.".

(** The loop of [dispatch]; a frame has 16 bytes at least, so the bytes of [rx]
    bound its rounds. *)
Fixpoint dispatch_loop (fuel : nat) (r : Re) : bool * Re :=
  match fuel with
  | O => (true, r)
  | S fuel =>
      let rest := drop (rx_off r) (rx r) in
      if len rest <? kHeaderSize then (true, r)
      else
        let h := read_header rest in
        if kMaxFrame <? h_size h then (false, (kill_host EngineCrashed (malformed_frame r) None r).2)
        else if len rest - kHeaderSize <? h_size h then (true, r)
        else
          let total := (16 + Z.to_nat (h_size h))%nat in
          let r := route h (take total rest) r in
          dispatch_loop fuel (upd_rx (rx r) (rx_off r + total) r)
  end.

Definition compact (r : Re) : Re :=
  if Nat.ltb 0 (rx_off r) && Nat.eqb (rx_off r) (length (rx r)) then upd_rx [] 0 r
  else if 65536 <? Z.of_nat (rx_off r) then upd_rx (drop (rx_off r) (rx r)) 0 r
  else r.

Definition dispatch (r : Re) : bool * Re :=
  match dispatch_loop (length (rx r)) r with
  | (false, r) => (false, r)
  | (true, r) => (true, compact r)
  end.

Definition did_not_stop (r : Re) : string :=
  "Engine '" +:+ engine_label r +:+ "' did not stop within " +:+ to_string (cancel_grace_ms (options r)) +:+
  " ms of the cancel request; its host was killed.".

Definition did_not_answer (r : Re) : string :=
  "Engine '" +:+ engine_label r +:+ "' did not answer within " +:+ to_string (timeout_ms (options r)) +:+
  " ms; its host was killed by the watchdog.".

Definition wants_cancel (s : Slot) (w : W) : bool :=
  match s_request s with
  | Some q => match rq_cancel q with Some flag => negb (s_cancel_sent s) && negb (flag w =? 0) | None => false end
  | None => false
  end.

Definition forward_cancel (now : Z) (i : nat) (r : Re) : Re :=
  let s := slot_at i r in
  if wants_cancel s (re_world r) then
    on_slot i (slot_cancel true (now + ms (Z.max 0 (cancel_grace_ms (options r))))) (send_control MsgCancel (s_id s) r)
  else r.

(** [service_timers] for the slots from [i] on. *)
Fixpoint service_slots (now : Z) (n i : nat) (r : Re) : bool * Re :=
  match n with
  | O => (true, r)
  | S n =>
      if negb (pending_on (generation r) (slot_at i r)) then service_slots now n (S i) r
      else
        let r := forward_cancel now i r in
        let s := slot_at i r in
        if s_cancel_sent s && (s_cancel_deadline s <=? now) then
          (false, (kill_host Cancelled (did_not_stop r) (Some i) (upd_restarts (restarts r) true r)).2)
        else if s_has_deadline s && (s_deadline s <=? now) then
          (false, (kill_host EngineCrashed (did_not_answer r) (Some i) r).2)
        else service_slots now n (S i) r
  end.

Definition service_timers (now : Z) (r : Re) : bool * Re := service_slots now (length (slots r)) 0 r.

Definition until (now t : Z) : Z :=
  let left := (t - now) ÷ 1000000 in
  if 0 <? left then Z.min left kPollMs + 1 else 1.

Definition read_wait (now : Z) (r : Re) : Z :=
  foldl (λ wait s,
           if negb (s_active s) || s_final_queued s || s_failed s then wait
           else
             let wait := if s_cancel_sent s then Z.min wait (until now (s_cancel_deadline s)) else wait in
             if s_has_deadline s then Z.min wait (until now (s_deadline s)) else wait)
    kPollMs (slots r).

Definition wake_waiters (r : Re) : Re :=
  upd_slots ((λ s, if s_active s then slot_notified true s else s) <$> slots r) r.

(** [process]: the callbacks for the frames in [work], up to the final one. *)
Definition run_chunk (q : option (agent_request W)) (payload : list byte) (w : W) : W :=
  let '(kind, r) := r_u32 (Reader_new payload) in
  let '(n, r) := r_u64 r in
  let '(b, r) := r_bytes n r in
  match q ≫= rq_on_chunk with Some f => if ok_ r then f kind (default [] b) w else w | None => w end.

Definition run_progress (q : option (agent_request W)) (payload : list byte) (w : W) : W :=
  let '(step, r) := r_u64 (Reader_new payload) in
  let '(total, r) := r_u64 r in
  match q ≫= rq_on_progress with Some f => if ok_ r then f step total w else w | None => w end.

Fixpoint process (fuel : nat) (work : list byte) (s : Slot) (w : W) : bool * Slot * W :=
  match fuel with
  | O => (false, s, w)
  | S fuel =>
      if len work <? kHeaderSize then (false, s, w)
      else
        let h := read_header work in
        let payload := take (Z.to_nat (h_size h)) (drop 16 work) in
        let work := drop (16 + Z.to_nat (h_size h)) work in
        if h_type h =? MsgChunk then process fuel work s (run_chunk (s_request s) payload w)
        else if h_type h =? MsgProgress then process fuel work s (run_progress (s_request s) payload w)
        else (true, slot_final true (h_type h) payload s, w)
  end.

(** ** Calls *)

(** The reader's loop, up to the next read: on with reading, or back at the
    head of [wait]. *)
Definition stop_reading (i : nat) (r : Re) : Pc * Re := (PHead i, wake_waiters (upd_reader false r)).

Definition read_on (now : Z) (i : nat) (r : Re) : Pc * Re :=
  if bool_decide (s_inbox (slot_at i r) = []) && negb (s_failed (slot_at i r)) then
    match service_timers now r with
    | (false, r) => stop_reading i r
    | (true, r) => (PRead i (read_wait now r), r)
    end
  else stop_reading i r.

(** One round of [wait]. *)
Definition wait_head (now : Z) (i : nat) (r : Re) : Pc * Re :=
  let s := slot_at i r in
  if negb (bool_decide (s_inbox s = [])) then (PProcess i, on_slot i (slot_inbox [] (s_inbox s)) r)
  else if s_failed s then (PFail i (s_error s), r)
  else if reader_active r then (PSleep i, on_slot i (slot_notified false) r)
  else read_on now i (upd_reader true r).

(** The rest of the round once the read returned. *)
Definition after_read (during : string) (how : Exit) (now : Z) (got : PipeRead) (i : nat) (r : Re) : Pc * Re :=
  match got with
  | Closed | ReadError => stop_reading i (host_died during how r).2
  | Data b =>
      match dispatch (upd_rx (rx r ++ b) (rx_off r) r) with
      | (false, r) => stop_reading i r
      | (true, r) => read_on now i r
      end
  | Timeout =>
      match dispatch r with
      | (false, r) => stop_reading i r
      | (true, r) => read_on now i r
      end
  end.

Definition run_callbacks (i : nat) (r : Re) : Pc * Re :=
  let s := slot_at i r in
  let '(final, s, w) := process (length (s_work s)) (s_work s) s (re_world r) in
  (if final then PFinal i else PHead i, upd_world w (on_slot i (λ _, s) r)).

(** The slot of a new call; what is kept belongs to the slot's segments. *)
Definition fresh_call (id gen : Z) (q : option (agent_request W)) (has_deadline : bool) (deadline : Z) (s : Slot) : Slot :=
  mkSlot id gen true q has_deadline deadline false (s_cancel_deadline s) [] false false (mkError OkCode "")
    (s_notified s) (s_tx s) (s_work s) false (s_final_type s) [] (s_request_shm s) (s_request_shm_generation s)
    (s_request_shm_named s) (s_retire s) (s_response_shm s).

Definition acquire_slot (q : option (agent_request W)) (now : Z) (r : Re) : nat * Re :=
  let '(i, all) := match list_find (λ s, s_active s = false) (slots r) with
                   | Some (i, _) => (i, slots r)
                   | None => (length (slots r), slots r ++ [new_slot])
                   end in
  let limit := timeout_ms (options r) in
  let s := fresh_call (next_id r) (generation r) q (0 <? limit) (now + ms (Z.max 0 limit)) in
  (i, upd_counts (u64 (next_id r + 1)) (in_flight r + 1) (Z.max (max_in_flight r) (in_flight r + 1))
        (upd_slots (alter s i all) r)).

(** The Release that hands the response's segment back. *)
Definition release_response (i : nat) (r : Re) : Re :=
  let s := slot_at i r in
  match s_response_shm s with
  | Some _ =>
      let r := if negb (is_null (child r)) && (s_generation s =? generation r) then send_control MsgRelease (s_id s) r else r in
      on_slot i (slot_response_shm None) r
  | None => r
  end.

Definition release_request_shm (i : nat) (r : Re) : Re :=
  let s := slot_at i r in
  if mapped (s_request_shm s) && s_request_shm_named s then
    let os := unlink_name (name_ (s_request_shm s)) (re_os r) in
    if negb (s_done s) || (s_final_type s =? MsgError) || negb (s_generation s =? generation r) then
      let retire := if (s_generation s =? generation r) && (s_request_shm_generation s =? generation r)
                    then name_ (s_request_shm s) else s_retire s in
      let '(seg, os) := unmap (s_request_shm s) os in
      on_slot i (slot_request_shm seg (s_request_shm_generation s) false retire) (upd_shm os (re_proc r) r)
    else
      on_slot i (slot_request_shm (s_request_shm s) (s_request_shm_generation s) false (s_retire s)) (upd_shm os (re_proc r) r)
  else r.

Definition release_slot (i : nat) (r : Re) : Re :=
  let r := release_request_shm i (release_response i r) in
  upd_counts (next_id r) (in_flight r - 1) (max_in_flight r) (on_slot i (slot_free false None [] []) r).

Definition parse_error (data : list byte) : Z * string :=
  let '(status, r) := r_i32 (Reader_new data) in
  let '(msg, r) := r_str r in
  if negb (ok_ r) then (AGENT_ERR_DECODE_FAILED, "malformed error frame") else (status, text_of msg).

(** ** Starting the host *)

(** What the environment answers in one step. *)
Record Env := mkEnv {
  env_now : Z;
  env_exit : Exit;
  env_spawn : Result (list string);
  env_reads : list (Z * PipeRead)
}.

Definition spawn_host (env : Env) (r : Re) : Result unit * Re :=
  match env_spawn env with
  | Fail e =>
      (fail ProviderInitFailed ("Cannot start the engine host '" +:+ host_path (options r) +:+ "': " +:+ message e +:+
         " (set Config::engine_host_path or AGENT_ENGINE_HOST)."), r)
  | Ok warnings => (Ok tt, foldl (λ r w, log LogWarning w r) (upd_child (Some []) (re_writes r) r) warnings)
  end.

Definition frame_timed_out (during : string) (limit : Z) (r : Re) : string :=
  "Engine host for '" +:+ engine_label r +:+ "' did not answer within " +:+ to_string limit +:+ " ms (" +:+ during +:+
  "); it was killed.".

Definition failed_read (p : Error * Re) (reads : list (Z * PipeRead)) : option (Result (Msg * list byte) * list (Z * PipeRead) * Re) :=
  Some (Fail p.1, reads, p.2).

(** The next frame at startup, from the reads the environment answers with;
    [None] while it waits for more.  [deadline] is [None] without a limit. *)
Fixpoint startup_reads (during : string) (limit : Z) (deadline : option Z) (how : Exit) (reads : list (Z * PipeRead))
    (r : Re) : option (Result (Msg * list byte) * list (Z * PipeRead) * Re) :=
  let rest := drop (rx_off r) (rx r) in
  let h := read_header rest in
  if negb (len rest <? kHeaderSize) && (kMaxFrame <? h_size h) then
    failed_read (kill_host EngineCrashed (malformed_frame r) None r) reads
  else if negb (len rest <? kHeaderSize) && (h_size h <=? len rest - kHeaderSize) then
    Some (Ok (h_type h, take (Z.to_nat (h_size h)) (drop 16 rest)), reads,
          upd_rx (rx r) (rx_off r + (16 + Z.to_nat (h_size h))) r)
  else
    match reads with
    | [] => None
    | (now, got) :: reads =>
        if match deadline with Some d => (d - now) ÷ 1000000 <=? 0 | None => false end then
          failed_read (kill_host EngineCrashed (frame_timed_out during limit r) None r) reads
        else
          match got with
          | Data b => startup_reads during limit deadline how reads (upd_rx (rx r ++ b) (rx_off r) r)
          | Timeout => startup_reads during limit deadline how reads r
          | Closed | ReadError => failed_read (host_died during how r) reads
          end
    end.

Definition startup_frame (during : string) (limit now : Z) (how : Exit) (reads : list (Z * PipeRead)) (r : Re) :
    option (Result (Msg * list byte) * list (Z * PipeRead) * Re) :=
  startup_reads during limit (if 0 <? limit then Some (now + ms limit) else None) how reads
    (upd_rx (drop (rx_off r) (rx r)) 0 r).

Definition unexpected (type : Msg) (during : string) (r : Re) : Error * Re :=
  kill_host EngineCrashed ("Engine host for '" +:+ engine_label r +:+ "' sent an unexpected message (" +:+ to_string type +:+
    ") during " +:+ during +:+ ".") None r.

Definition failed_start (p : Error * Re) : option (Result unit * Re) := Some (Fail p.1, p.2).

(** The Ready frame: protocol and ABI version, then what it says of the engine. *)
Definition read_ready (data : list byte) (use_shm avail : bool) : bool * Z * Z * RemoteInfo * Z :=
  let '(protocol, r) := r_u32 (Reader_new data) in
  let '(abi, r) := r_u32 r in
  let '(caps, r) := r_u64 r in
  let '(flags, r) := r_u32 r in
  let '(optional, r) := r_u32 r in
  let '(host_flags, r) := r_u32 r in
  let '(pid, r) := r_u64 r in
  let '(name, r) := r_str r in
  let '(version, r) := r_str r in
  (ok_ r, protocol, abi,
   mkRemoteInfo (text_of name) (text_of version) caps flags (negb (Z.land optional kHasCountTokens =? 0))
     (negb (Z.land optional kHasResetCache =? 0)) (use_shm && negb (Z.land host_flags kShmCapable =? 0) && avail),
   i64 pid).

Definition wrong_version (protocol abi : Z) (r : Re) : string :=
  "Engine host '" +:+ host_path (options r) +:+ "' speaks protocol " +:+ to_string protocol +:+ " / ABI " +:+
  to_string abi +:+ "; expected " +:+ to_string EngineIpc.kProtocolVersion +:+ " / " +:+
  to_string AGENT_ENGINE_ABI_VERSION +:+ ".".

(** From the Ready frame on: the Create exchange. *)
Definition create_engine (env : Env) (reads : list (Z * PipeRead)) (r : Re) : option (Result unit * Re) :=
  let frame := (encode MsgCreate 0 [w_u32 (if ri_shm (info r) then kShmCapable else 0); w_str (str_of (create_config (options r)))]).1 in
  match write_frame frame (generation r) r with
  | (false, r) => failed_start (host_died "model load" (env_exit env) r)
  | (true, r) =>
      match startup_frame "model load" 0 (env_now env) (env_exit env) reads r with
      | None => None
      | Some (Fail e, _, r) => failed_start (e, r)
      | Some (Ok (type, data), _, r) =>
          if type =? MsgError then
            let msg := (parse_error data).2 in
            failed_start (kill_host ModelLoadFailed ("Engine '" +:+ ri_name (info r) +:+ "' failed to load: " +:+
                            (if is_empty msg then "unknown error" else msg)) None r)
          else if negb (type =? MsgCreated) then failed_start (unexpected type "model load" r)
          else Some (Ok tt, upd_rx (drop (rx_off r) (rx r)) 0 r)
      end
  end.

(** [avail] is what [engine_shm::available] answers in this process. *)
Definition start (avail : bool) (env : Env) (r : Re) : option (Result unit * Re) :=
  match spawn_host env r with
  | (Fail e, r) => failed_start (e, r)
  | (Ok _, r) =>
      let r := upd_starts (child r) (starts r + 1) [] r in
      match startup_frame "startup" kReadyTimeoutMs (env_now env) (env_exit env) (env_reads env) r with
      | None => None
      | Some (Fail e, _, r) => failed_start (e, r)
      | Some (Ok (type, data), reads, r) =>
          if type =? MsgError then failed_start (kill_host ProviderInitFailed (parse_error data).2 None r)
          else if negb (type =? MsgReady) then failed_start (unexpected type "startup" r)
          else
            let '(fine, protocol, abi, got, pid) := read_ready data (use_shm (options r)) avail in
            if negb fine || negb (protocol =? EngineIpc.kProtocolVersion) || negb (abi =? AGENT_ENGINE_ABI_VERSION)
            then failed_start (kill_host ProviderInitFailed (wrong_version protocol abi r) None r)
            else create_engine env reads (upd_info got pid r)
      end
  end.

Definition too_many_restarts (r : Re) : string :=
  "Engine '" +:+ engine_label r +:+ "' is not restarted: " +:+ to_string (max_restarts (options r)) +:+
  " restarts in the last minute already (Config::engine_max_restarts). Last failure: " +:+ last_failure r.

Definition ensure_running (avail : bool) (env : Env) (r : Re) : option (Result unit * Re) :=
  match child r with
  | Some _ => Some (Ok tt, r)
  | None =>
      let now := env_now env in
      let recent := filter (λ t, now - t ≤ minute) (restarts r) in
      if negb (skip_restart_count r) && (max_restarts (options r) <=? len recent)
      then Some (fail EngineCrashed (too_many_restarts r), upd_restarts recent (skip_restart_count r) r)
      else
        let r := upd_restarts (if skip_restart_count r then recent else recent ++ [now]) false r in
        start avail env (log LogWarning ("Restarting the engine host for '" +:+ engine_label r +:+ "'.") r)
  end.

(** ** The calls *)

Definition outcome_of (c : Call) (e : Error) : Outcome :=
  match c with
  | CRun _ _ => RanTo (Fail e)
  | CCountTokens _ => CountedTo (Fail e)
  | CResetCache => ResetTo (Fail e)
  end.

(** Leaving [remote_run] unlocks [serial_mutex]. *)
Definition unlock_serial (t : nat) (r : Re) : Re :=
  if bool_decide (serial r = Some t) then upd_serial None r else r.

(** Up to [exchange]; [None] while another run holds [serial_mutex]. *)
Definition enter (t : nat) (c : Call) (r : Re) : option (Pc * Re) :=
  match c with
  | CRun _ _ =>
      if negb (Z.land (ri_flags (info r)) 1 =? 0) then Some (PReady, r)
      else match serial r with None => Some (PReady, upd_serial (Some t) r) | Some _ => None end
  | CCountTokens _ =>
      if has_count_tokens (info r) then Some (PReady, r)
      else Some (PDone (CountedTo (fail UnsupportedProvider "Engine does not count tokens.")), r)
  | CResetCache =>
      if negb (has_reset_cache (info r)) || is_null (child r) then Some (PDone (ResetTo (Ok tt)), r)
      else Some (PReady, r)
  end.

Definition request_of (c : Call) : option (agent_request W) := match c with CRun q _ => Some q | _ => None end.

Definition begin_exchange (avail : bool) (env : Env) (t : nat) (c : Call) (r : Re) : option (Pc * Re) :=
  match ensure_running avail env r with
  | None => None
  | Some (Fail e, r) => Some (PDone (outcome_of c e), unlock_serial t r)
  | Some (Ok _, r) => let '(i, r) := acquire_slot (request_of c) (env_now env) r in Some (PEncode i, r)
  end.

Definition run_flags (q : agent_request W) : Z :=
  Z.lor (if is_null (rq_on_chunk q) then 0 else kRunStream) (if is_null (rq_on_progress q) then 0 else kRunProgress).

(** The slot's segment for a request of [need] payload bytes. *)
Definition grow_request_shm (i : nat) (need : Z) (r : Re) : Re :=
  let s := slot_at i r in
  let seg := s_request_shm s in
  if mapped seg && (need <=? size_ seg) && (s_request_shm_generation s =? s_generation s) then r
  else
    let retire := if mapped seg && (s_request_shm_generation s =? s_generation s) then name_ seg else s_retire s in
    let os := if mapped seg && s_request_shm_named s then unlink_name (name_ seg) (re_os r) else re_os r in
    let '(seg, os) := if mapped seg then unmap seg os else (seg, os) in
    let '(made, seg, p, os) := create seg (grain_up need) side_core (re_proc r) os in
    on_slot i (if made then slot_request_shm seg (s_generation s) true retire
               else slot_request_shm seg (s_request_shm_generation s) (s_request_shm_named s) retire) (upd_shm os p r).

Definition clear_retire (s : Slot) : Slot :=
  if s_request_shm_generation s =? s_generation s then s else slot_tx (s_tx s) "" s.

(** The segment the payloads of a request go to: [shm.base]. *)
Definition request_seg (need : Z) (s : Slot) : option Segment :=
  if negb (need =? 0) && mapped (s_request_shm s) then Some (s_request_shm s) else None.

(** The Run frame, its large payloads in the slot's segment. *)
Definition run_frame (id : Z) (seg : option Segment) (threshold : Z) (retire : string) (q : agent_request W) (os : ShmOs) :
    Writer * bool := segment_frame MsgRun id seg threshold retire (w_request q (run_flags q)) os.

Definition count_request (w : Writer) (r : Re) : Re :=
  match shm_ w with
  | Some o => if shm_count o =? 0 then r else upd_stats (u64 (shm_requests r + 1)) (shm_responses r) r
  | None => r
  end.

Definition encode_run (i : nat) (q : agent_request W) (r : Re) : Pc * Re :=
  let r := on_slot i clear_retire r in
  let need := if ri_shm (info r) then request_shm_bytes (opt_shm_threshold (options r)) q else 0 in
  let r := if need =? 0 then r else grow_request_shm i need r in
  let s := slot_at i r in
  let seg := request_seg need s in
  let '(w, fits) := run_frame (s_id s) seg (opt_shm_threshold (options r)) (s_retire s) q (re_os r) in
  let r := upd_shm (commit_seg seg w (re_os r)) (re_proc r) (on_slot i (slot_tx (out_ w) "") r) in
  if negb fits then (PFail i (make_error InvalidConfig "Request exceeds the 1 GiB engine IPC frame limit."), r)
  else (PSend i, count_request w r).

Definition encode_control (i : nat) (type : Msg) (fields : list (Writer → Writer)) (r : Re) : Pc * Re :=
  (PSend i, on_slot i (λ s, slot_tx (encode type (s_id s) fields).1 (s_retire s) s) r).

Definition encode_call (i : nat) (c : Call) (r : Re) : Pc * Re :=
  match c with
  | CRun q _ => encode_run i q r
  | CCountTokens text => encode_control i MsgCountTokens [w_str (str_of text)] r
  | CResetCache => encode_control i MsgResetCache [] r
  end.

Definition send_frame (i : nat) (r : Re) : Pc * Re :=
  (PHead i, (write_frame (s_tx (slot_at i r)) (s_generation (slot_at i r)) r).2).

Definition during_of (c : Call) : string :=
  match c with CRun _ _ => "run" | CCountTokens _ => "count_tokens" | CResetCache => "reset_cache" end.

(** [remote_run] with the final frame, before it takes the mutex again. *)
Definition read_final (t i : nat) (r : Re) : Pc * Re :=
  let s := slot_at i r in
  if s_final_type s =? MsgError then
    let '(status, msg) := parse_error (s_final_data s) in
    (PReturned i (RanTo (fail (if status =? AGENT_ERR_CANCELLED then Cancelled else DecodeFailed)
       ("Engine '" +:+ ri_name (info r) +:+ "': " +:+ (if is_empty msg then "run failed" else msg)))), unlock_serial t r)
  else if negb (s_final_type s =? MsgResponse) then
    (PMalformed i ("Engine host for '" +:+ ri_name (info r) +:+ "' sent an unexpected message (" +:+
       to_string (s_final_type s) +:+ ") during run."), r)
  else
    let '(name, size, retire, rd) := r_shm_header (Reader_new (s_final_data s)) in
    if negb (ok_ rd) then (PMalformed i ("Engine host for '" +:+ ri_name (info r) +:+ "' sent a malformed response."), r)
    else (PMap i rd name size retire, r).

Definition report_malformed (t i : nat) (what : string) (r : Re) : Pc * Re :=
  let '(e, r) := if negb (is_null (child r)) && (s_generation (slot_at i r) =? generation r) && negb (reader_active r)
                 then kill_host EngineCrashed what None r else (make_error EngineCrashed what, r) in
  (PReturned i (RanTo (Fail e)), unlock_serial t r).

Definition map_response (t i : nat) (rd : Reader) (name : agent_str) (size : Z) (retire : agent_str) (r : Re) : Pc * Re :=
  let r := match retire with Some _ => forget_response_segment (text_of retire) r | None => r end in
  match name with
  | None => (PDecode i rd size, r)
  | Some _ =>
      match response_segment (text_of name) size r with
      | (Some g, r) => (PDecode i rd size, on_slot i (slot_response_shm (Some g)) r)
      | (None, r) =>
          let s := slot_at i r in
          let r := if negb (is_null (child r)) && (s_generation s =? generation r) then send_control MsgRelease (s_id s) r else r in
          (PReturned i (RanTo (fail DecodeFailed ("Cannot map the shared memory of engine '" +:+ ri_name (info r) +:+ "''s response."))),
           unlock_serial t r)
      end
  end.

(** [r.response] and what [remote_run] makes of its result. *)
Definition decode_body (t i : nat) (a : Arena) (rd : Reader) (r : Re) : Pc * Re :=
  match r_response (with_arena a rd) with
  | (Some resp, _) => (PReturned i (RanTo (Ok resp)), unlock_serial t r)
  | (None, rd) =>
      if arena_exhausted_ rd then
        (PReturned i (RanTo (fail DecodeFailed "Arena capacity exhausted. Increase Config::arena_capacity.")), unlock_serial t r)
      else (PMalformed i ("Engine host for '" +:+ ri_name (info r) +:+ "' sent a malformed response."), r)
  end.

(** [Crashed]: the segment object [response_shm] points to is gone. *)
Definition decode_response (t i : nat) (a : Arena) (rd : Reader) (size : Z) (r : Re) : Pc * Re :=
  match s_response_shm (slot_at i r) with
  | None => decode_body t i a rd r
  | Some g =>
      if bool_decide (g ∈ response_segments r) then
        decode_body t i a (r_set_shm (default [] (seg_memory g (re_os r))) size rd)
          (upd_stats (shm_requests r) (u64 (shm_responses r + 1)) r)
      else (Crashed i, r)
  end.

Definition count_result (s : Slot) : Result Z :=
  let '(n, rd) := r_i32 (Reader_new (s_final_data s)) in
  if (s_final_type s =? MsgCount) && ok_ rd then Ok n else fail DecodeFailed "Engine token count failed.".

Definition final_step (t i : nat) (c : Call) (r : Re) : Pc * Re :=
  let s := slot_at i r in
  match c with
  | CRun _ _ => read_final t i r
  | CCountTokens _ => (PDone (CountedTo (count_result s)), release_slot i r)
  | CResetCache =>
      (PDone (ResetTo (if s_final_type s =? MsgDone then Ok tt else fail DecodeFailed "Engine cache reset failed.")),
       release_slot i r)
  end.

(** One step of caller [t]. *)
Definition caller_step (avail : bool) (env : Env) (t : nat) (c : Call) (pc : Pc) (r : Re) : option (Pc * Re) :=
  match pc with
  | PStart => enter t c r
  | PReady => begin_exchange avail env t c r
  | PEncode i => Some (encode_call i c r)
  | PSend i => Some (send_frame i r)
  | PHead i => Some (wait_head (env_now env) i r)
  | PSleep i => Some (PHead i, r) (* also without a notification *)
  | PProcess i => Some (run_callbacks i r)
  | PRead i _ =>
      match env_reads env with
      | [] => None
      | (_, got) :: _ => Some (after_read (during_of c) (env_exit env) (env_now env) got i r)
      end
  | PFail i e => Some (PDone (outcome_of c e), unlock_serial t (release_slot i r))
  | PFinal i => Some (final_step t i c r)
  | PMap i rd name size retire => Some (map_response t i rd name size retire r)
  | PDecode i rd size => Some (decode_response t i (match c with CRun _ a => a | _ => no_arena end) rd size r)
  | PMalformed i what => Some (report_malformed t i what r)
  | PReturned i out => Some (PDone out, release_slot i r) (* remote_release *)
  | PDone _ | Crashed _ => None
  end.

(** Steps: a thread makes a call, the host writes to its stderr, a caller goes on. *)
Inductive RemoteLabel :=
| RCall (c : Call)
| RStderr (buf : list byte)
| RStep (t : nat) (env : Env).

Definition exec_remote (avail : bool) (l : RemoteLabel) (r : Re) : option Re :=
  match l with
  | RCall c => Some (upd_calls (re_calls r ++ [mkCaller c PStart]) r)
  | RStderr buf => match child r with Some _ => Some (stderr_append buf r) | None => None end
  | RStep t env =>
      match re_calls r !! t with
      | None => None
      | Some c =>
          match caller_step avail env t (c_call c) (c_pc c) r with
          | None => None
          | Some (pc, r) => Some (upd_calls (<[t := mkCaller (c_call c) pc]> (re_calls r)) r)
          end
      end
  end.

Fixpoint run_remote (avail : bool) (ls : list RemoteLabel) (r : Re) : option Re :=
  match ls with
  | [] => Some r
  | l :: ls => match exec_remote avail l r with Some r => run_remote avail ls r | None => None end
  end.

(** ** Starting an engine *)

(** [std::make_shared<RemoteEngine>()] with its options. *)
Definition new_engine (o : RemoteOptions) (p : Proc) (os : ShmOs) (w : W) (writes : list bool) : Re :=
  mkRe o (mkRemoteInfo "" "" 0 0 false false false) None None 0 0 [] false [] 0 [] 1 0 0 0 [] false "" 0 0 [] os p w writes [].

(** [is_file] is [std::filesystem::is_regular_file], [exe] the current
    executable: next to it, then in the bin directory beside its own. *)
Definition installed_host (exe : string) (is_file : string → bool) : option string :=
  if is_empty exe then None
  else snd <$> list_find (λ c, is_file c = true)
         [path_join (parent_path exe) kHostName; path_join (path_join (parent_path (parent_path exe)) "bin") kHostName].

Definition resolve_engine_host_path (configured : string) (env : option string) (exe : string) (is_file : string → bool) : string :=
  if negb (is_empty configured) then configured
  else match env with
  | Some e => if is_empty e then default kHostName (installed_host exe is_file) else e
  | None => default kHostName (installed_host exe is_file)
  end.

(** The options [start_remote_engine] keeps. *)
Definition effective_options (o : RemoteOptions) (resolved : string) (shm_env : option string) : RemoteOptions :=
  mkRemoteOptions (if is_empty (host_path o) then resolved else host_path o) (plugin_path o) (create_config o)
    (timeout_ms o) (cancel_grace_ms o) (if max_restarts o <? 0 then 0 else max_restarts o)
    (if shm_enabled_by_env shm_env then use_shm o else false) (opt_shm_threshold o) (opt_logger o).

(** An engine that could not start is destroyed with its error. *)
Definition start_remote_engine (o : RemoteOptions) (resolved : string) (shm_env : option string) (avail : bool) (env : Env)
    (p : Proc) (os : ShmOs) (w : W) (writes : list bool) : option (Result unit * Re) :=
  start avail env (new_engine (effective_options o resolved shm_env) p os w writes).

Definition remote_stats (r : Re) : Z * Z * Z * Z := (starts r, shm_requests r, shm_responses r, max_in_flight r).

End Remote.

Arguments Slot W : clear implicits.
Arguments Call W : clear implicits.
Arguments Caller W : clear implicits.
Arguments Re W : clear implicits.
Arguments RemoteOptions W : clear implicits.
Arguments RemoteLabel W : clear implicits.
