(* ===== verification/EngineRemoteTheory.v ===== *)
(** * Correctness of the core's side of the frame protocol

    - [remote_ok]: the invariant of a remote engine under any interleaving of
      its callers.  It gives: there is never more than one reader, the reader
      always has a host to read from, a caller that sleeps without a
      notification has nothing to do and a reader to wake it
      ([sleeping_caller_has_reader]), and no call is left behind on a host that
      is gone ([no_call_left_behind], [host_death_settles_every_call]).
    - A call that was failed comes back in a few steps ([failed_call_returns]).

    What is said of [dispatch] and the bytes is in EngineRemoteWire. *)
From stdpp Require Import base gmap strings list.
From Stdlib Require Import Lia ZArith.
From S2P Require Import Prelude Arena Text Session Sandbox Mcp EngineIpc EngineIpcTheory EngineShm EngineHost EngineRemote.

Local Open Scope Z_scope.
Local Arguments finish : simpl never.
Local Arguments calls : simpl never.
Local Arguments encode : simpl never.
Local Arguments le_value : simpl never.
Local Arguments sweep : simpl never.
Local Strategy expand [fst snd].

(** ** Frames in a buffer *)

(** One whole frame and nothing else. *)
Definition one_frame (b : list byte) : Prop := 16 ≤ len b ∧ len b = 16 + h_size (read_header b).

Definition final_frame (b : list byte) : bool := is_final (h_type (read_header b)).

Lemma read_header_app b l : 16 ≤ len b → read_header (b ++ l) = read_header b.
Proof.
  unfold len. intros H. unfold read_header. rewrite !drop_app_le, !take_app_le by (rewrite ?length_drop; lia). done.
Qed.

Lemma read_header_take n l : (16 ≤ n)%nat → read_header (take n l) = read_header l.
Proof. intros H. unfold read_header. by rewrite !skipn_firstn_comm, !take_take, !Nat.min_l by lia. Qed.

Lemma header_size_nonneg l : 0 ≤ h_size (read_header l).
Proof. unfold read_header. simpl. pose proof (le_value_bound (take 4 l)). lia. Qed.

Lemma one_frame_take l :
  kHeaderSize ≤ len l → h_size (read_header l) ≤ len l - kHeaderSize →
  one_frame (take (16 + Z.to_nat (h_size (read_header l))) l).
Proof.
  unfold kHeaderSize, len. intros H1 H2. pose proof (header_size_nonneg l). unfold one_frame, len.
  rewrite read_header_take, length_take by lia. lia.
Qed.

Section Theory.
Context {W : Type}.
Implicit Types (r : Re W) (s : Slot W) (bs : list (list byte)) (pc : Pc) (i t : nat).

Lemma process_frames bs fuel s (w : W) :
  Forall one_frame bs → (length (mjoin bs) ≤ fuel)%nat →
  (process fuel (mjoin bs) s w).1.1 = existsb final_frame bs.
Proof.
  intros Hb. revert fuel w. induction Hb as [|b bs [H1 H2] Hbs IH]; intros fuel w Hf.
  - destruct fuel; [done|]. reflexivity.
  - destruct fuel as [|fuel]; [unfold len in H1; change (mjoin (b :: bs)) with (b ++ mjoin bs) in Hf; rewrite length_app in Hf; lia|].
    change (mjoin (b :: bs)) with (b ++ mjoin bs) in *. cbn [process existsb]. unfold len in H1, H2. rewrite length_app in Hf.
    assert ((len (b ++ mjoin bs) <? kHeaderSize) = false) as -> by (apply Z.ltb_ge; unfold len, kHeaderSize; rewrite length_app; lia).
    rewrite read_header_app by (unfold len; lia).
    rewrite drop_app_length' by (pose proof (header_size_nonneg b); lia).
    unfold final_frame at 1, is_final. destruct (h_type (read_header b) =? MsgChunk); [simpl; apply IH; lia|].
    destruct (h_type (read_header b) =? MsgProgress); [simpl; apply IH; lia|]. done.
Qed.

(** ** What an operation may do to the calls *)

(** A slot gets whole frames or an error, and a notification with them. *)
Record slot_rel s s' : Prop := {
  sr_active : s_active s' = s_active s;
  sr_generation : s_generation s' = s_generation s;
  sr_work : s_work s' = s_work s;
  sr_failed : s_failed s = true → s_failed s' = true;
  sr_frames : ∃ bs, Forall one_frame bs ∧ s_inbox s' = s_inbox s ++ mjoin bs ∧
                    s_final_queued s' = s_final_queued s || existsb final_frame bs;
  sr_wakes : s_notified s' = true ∨
             (s_notified s' = s_notified s ∧ s_inbox s' = s_inbox s ∧ s_failed s' = s_failed s)
}.

#[local] Instance slot_rel_refl : Reflexive slot_rel.
Proof. intros s. split; try done; [exists []; by rewrite app_nil_r, orb_false_r|by right]. Qed.

#[local] Instance slot_rel_trans : Transitive slot_rel.
Proof.
  intros s1 s2 s3 [Ha1 Hg1 Hw1 Hf1 (bs1 & Hb1 & Hi1 & Hq1) Hn1] [Ha2 Hg2 Hw2 Hf2 (bs2 & Hb2 & Hi2 & Hq2) Hn2].
  split; try congruence; [by auto| |].
  - exists (bs1 ++ bs2). rewrite Forall_app, join_app, existsb_app, Hi2, Hi1, Hq2, Hq1. by rewrite app_assoc, orb_assoc.
  - destruct Hn2 as [?|(-> & -> & ->)]; [by left|]. done.
Qed.

Definition settled s : bool := s_failed s || s_final_queued s.

Lemma slot_rel_settled s s' : slot_rel s s' → settled s = true → settled s' = true.
Proof.
  intros [_ _ _ Hf (bs & _ & _ & Hq) _]. unfold settled. rewrite Hq, !orb_true_iff. intros [?|?]; [left; by apply Hf|right; by left].
Qed.

(** The calls of host [g] have an error or their final frame. *)
Definition all_settled (g : Z) (ss : list (Slot W)) : Prop :=
  Forall (λ s, s_active s = true → s_generation s = g → settled s = true) ss.

Record engine_rel r r' : Prop := {
  er_calls : re_calls r' = re_calls r;
  er_reader : reader_active r' = reader_active r;
  er_flight : in_flight r' = in_flight r;
  er_slots : Forall2 slot_rel (slots r) (slots r');
  er_alive : (generation r' = generation r ∧ (is_Some (child r) → is_Some (child r'))) ∨ all_settled (generation r) (slots r')
}.

Lemma all_settled_rel g ss ss' : Forall2 slot_rel ss ss' → all_settled g ss → all_settled g ss'.
Proof.
  unfold all_settled. intros Hr. induction Hr as [|s s' ss ss' Hs Hr IH]; [done|]. rewrite !Forall_cons.
  intros [H1 H2]. split; [|by apply IH]. intros Ha Hg. eapply slot_rel_settled; [done|].
  apply H1; [by rewrite <-(sr_active _ _ Hs)|by rewrite <-(sr_generation _ _ Hs)].
Qed.

#[local] Instance engine_rel_refl : Reflexive engine_rel.
Proof. intros r. split; try done. by left. Qed.

#[local] Instance engine_rel_trans : Transitive engine_rel.
Proof.
  intros r1 r2 r3 [Hc1 Hr1 Hf1 Hs1 Ha1] [Hc2 Hr2 Hf2 Hs2 Ha2]. split; try congruence; [by etrans|].
  destruct Ha1 as [[Hg1 Hch1]|Hall]; [|right; by eapply all_settled_rel].
  destruct Ha2 as [[Hg2 Hch2]|Hall]; [left; split; [congruence|auto]|right; by rewrite <-Hg1].
Qed.

(** Operations that leave the calls alone, and the host where it is. *)
Record same_calls r r' : Prop := {
  sc_slots : slots r' = slots r;
  sc_calls : re_calls r' = re_calls r;
  sc_reader : reader_active r' = reader_active r;
  sc_flight : in_flight r' = in_flight r;
  sc_generation : generation r' = generation r;
  sc_child : is_Some (child r) → is_Some (child r')
}.

#[local] Instance same_calls_refl : Reflexive same_calls.
Proof. by intros r. Qed.
#[local] Instance same_calls_trans : Transitive same_calls.
Proof. intros r1 r2 r3 [] []. split; try congruence. auto. Qed.

Lemma same_calls_rel r r' : same_calls r r' → engine_rel r r'.
Proof. intros [Hs Hc Hr Hf Hg Hch]. split; try done; [by rewrite Hs|by left]. Qed.

Lemma log_same level msg r : same_calls r (log level msg r).
Proof. unfold log. by destruct (opt_logger _). Qed.

Lemma write_stdin_same frame c r : same_calls r (write_stdin frame c r).2.
Proof. unfold write_stdin. by destruct (re_writes r) as [|[] ?]. Qed.

Lemma write_frame_same frame g r : same_calls r (write_frame frame g r).2.
Proof. unfold write_frame. destruct (child r); [|done]. destruct (g =? generation r); [apply write_stdin_same|done]. Qed.

Lemma send_control_same type id r : same_calls r (send_control type id r).
Proof. apply write_frame_same. Qed.

Lemma forget_same name r : same_calls r (forget_response_segment name r).
Proof. done. Qed.

Lemma drop_frame_same h payload r : same_calls r (drop_frame h payload r).
Proof.
  unfold drop_frame. destruct (negb _); [done|]. destruct (r_shm_header _) as [[[name size] retire] rd].
  destruct (negb (ok_ rd)); [done|]. destruct name, retire; try done; (etrans; [|apply send_control_same]); done.
Qed.

Lemma response_segment_same name size r : same_calls r (response_segment name size r).2.
Proof.
  unfold response_segment. destruct (list_find _ _) as [[? ?]|]; [done|]. by destruct (open_segment _ _ _ _) as [[[] ?] ?].
Qed.

(** ** A host that goes down *)

Lemma fail_slots_rel (f : nat → Error) g (ss : list (Slot W)) :
  Forall2 slot_rel ss (imap (λ i s, if pending_on g s then slot_fail true (f i) true s else s) ss).
Proof.
  revert f. induction ss as [|s ss IH]; intros f; [constructor|]. rewrite imap_cons. constructor.
  - destruct (pending_on g s) eqn:E; [|done]. split; simpl; try done; [|by left].
    exists []. by rewrite app_nil_r, orb_false_r.
  - apply (IH (f ∘ S)).
Qed.

Lemma fail_slots_settled (f : nat → Error) g (ss : list (Slot W)) :
  all_settled g (imap (λ i s, if pending_on g s then slot_fail true (f i) true s else s) ss).
Proof.
  revert f. induction ss as [|s ss IH]; intros f; [constructor|]. rewrite imap_cons. constructor; [|apply (IH (f ∘ S))].
  destruct (pending_on g s) eqn:E; simpl; [done|]. intros Ha Hg. unfold pending_on in E. rewrite Ha, Hg, Z.eqb_refl in E.
  unfold settled. by destruct (s_final_queued s), (s_failed s).
Qed.

Lemma down_rel f msg r : engine_rel r (record_failure msg (reap (fail_in_flight f r))).
Proof.
  etrans; [|apply same_calls_rel; unfold record_failure; etrans; [|apply log_same]; done].
  split; try done; [apply fail_slots_rel|]. right. apply fail_slots_settled.
Qed.

Lemma host_died_rel during how r : engine_rel r (host_died during how r).2.
Proof. apply down_rel. Qed.

Lemma kill_host_rel c msg trigger r : engine_rel r (kill_host c msg trigger r).2.
Proof. apply down_rel. Qed.

(** After either the host is gone. *)
Lemma log_child level msg r : child (log level msg r) = child r ∧ generation (log level msg r) = generation r.
Proof. unfold log. by destruct (opt_logger _). Qed.

Lemma down_child f msg r :
  child (record_failure msg (reap (fail_in_flight f r))) = None ∧
  generation (record_failure msg (reap (fail_in_flight f r))) = u64 (generation r + 1).
Proof. unfold record_failure. destruct (log_child LogError msg (upd_failure msg (re_world (reap (fail_in_flight f r))) (reap (fail_in_flight f r)))) as [-> ->]. done. Qed.

(** ** Dispatching and timers *)

Lemma on_slot_rel i f r :
  (∀ s, slots r !! i = Some s → slot_rel s (f s)) → engine_rel r (on_slot i f r).
Proof.
  intros Hf. split; try done; [|by left]. simpl. apply Forall2_same_length_lookup. split; [by rewrite length_alter|].
  intros j s s' Hs Hs'. destruct (decide (i = j)) as [<-|Hne].
  - rewrite list_lookup_alter_eq, Hs in Hs'. simplify_eq/=. by apply Hf.
  - rewrite list_lookup_alter_ne in Hs' by done. by simplify_eq.
Qed.

Lemma route_rel h b r : one_frame b → h = read_header b → engine_rel r (route h b r).
Proof.
  intros Hb ->. unfold route. destruct (find_slot _ r) as [i|]; [|apply same_calls_rel, drop_frame_same].
  destruct (_ && _); [|apply same_calls_rel, drop_frame_same]. apply on_slot_rel. intros s _.
  split; simpl; try done; [|by left]. exists [b]. split; [by constructor|]. simpl. by rewrite app_nil_r, orb_false_r.
Qed.

Lemma route_up h b r : one_frame b → h = read_header b → generation (route h b r) = generation r ∧ (is_Some (child r) → is_Some (child (route h b r))).
Proof.
  intros Hb ->. unfold route. destruct (find_slot _ r) as [i|]; [destruct (_ && _); [done|]|];
    by destruct (drop_frame_same (read_header b) (drop 16 b) r).
Qed.

Lemma dispatch_loop_rel fuel r :
  engine_rel r (dispatch_loop fuel r).2 ∧
  ((dispatch_loop fuel r).1 = true → is_Some (child r) → is_Some (child (dispatch_loop fuel r).2)).
Proof.
  revert r. induction fuel as [|fuel IH]; intros r; [done|]. cbn [dispatch_loop].
  set (rest := drop (rx_off r) (rx r)). destruct (Z.ltb_spec (len rest) kHeaderSize) as [?|Hl]; [done|].
  destruct (kMaxFrame <? _); [split; [apply kill_host_rel|done]|].
  destruct (Z.ltb_spec (len rest - kHeaderSize) (h_size (read_header rest))) as [?|Hs]; [done|].
  pose proof (one_frame_take rest Hl Hs) as Hone. set (b := take _ rest) in *.
  assert (read_header rest = read_header b) as Hh by (subst b; by rewrite read_header_take by lia).
  set (r1 := route _ b r). destruct (IH (upd_rx (rx r1) (rx_off r1 + (16 + Z.to_nat (h_size (read_header rest)))) r1)) as [H1 H2].
  split.
  - etrans; [apply (route_rel (read_header rest) b r Hone Hh)|]. etrans; [|exact H1]. by apply same_calls_rel.
  - intros Ht Hc. apply H2; [done|]. by apply (route_up _ _ _ Hone Hh).
Qed.

Lemma compact_same r : same_calls r (compact r).
Proof. unfold compact. destruct (_ && _); [done|]. by destruct (_ <? _). Qed.

Lemma dispatch_rel r :
  engine_rel r (dispatch r).2 ∧ ((dispatch r).1 = true → is_Some (child r) → is_Some (child (dispatch r).2)).
Proof.
  unfold dispatch. destruct (dispatch_loop_rel (length (rx r)) r) as [H1 H2]. destruct (dispatch_loop _ r) as [[] r1]; [|done].
  simpl in *. pose proof (compact_same r1) as Hc. split; [etrans; [exact H1|by apply same_calls_rel]|].
  intros _ Hch. apply Hc. by apply H2.
Qed.

Lemma forward_cancel_rel now i r :
  engine_rel r (forward_cancel now i r) ∧ (is_Some (child r) → is_Some (child (forward_cancel now i r))).
Proof.
  unfold forward_cancel. destruct (wants_cancel _ _); [|done]. set (r1 := send_control _ _ r).
  assert (same_calls r r1) as Hs by apply send_control_same. split; [|apply Hs].
  etrans; [exact (same_calls_rel _ _ Hs)|]. apply on_slot_rel. intros s _. split; simpl; try done; [|by right].
  exists []. by rewrite app_nil_r, orb_false_r.
Qed.

Lemma service_slots_rel now n i r :
  engine_rel r (service_slots now n i r).2 ∧
  ((service_slots now n i r).1 = true → is_Some (child r) → is_Some (child (service_slots now n i r).2)).
Proof.
  revert i r. induction n as [|n IH]; intros i r; [done|]. cbn [service_slots].
  destruct (negb _); [apply IH|]. destruct (forward_cancel_rel now i r) as [H1 H2].
  revert H1 H2. generalize (forward_cancel now i r). intros r1 H1 H2.
  destruct (_ && _); [split; [|done]|].
  { etrans; [exact H1|]. etrans; [|apply kill_host_rel]. apply same_calls_rel. by split. }
  destruct (_ && _); [split; [|done]; etrans; [exact H1|apply kill_host_rel]|].
  destruct (IH (S i) r1) as [H3 H4]. split; [by etrans|]. auto.
Qed.

(** ** Restarting *)

Lemma failed_read_rel (p : Error * Re W) reads res reads' r r' :
  failed_read p reads = Some (res, reads', r') → engine_rel r p.2 →
  engine_rel r r' ∧ (is_ok res = true → is_Some (child r) → is_Some (child r')).
Proof. unfold failed_read. by intros [= <- <- <-]. Qed.

Lemma startup_reads_rel during limit deadline how reads r res reads' r' :
  startup_reads during limit deadline how reads r = Some (res, reads', r') →
  engine_rel r r' ∧ (is_ok res = true → is_Some (child r) → is_Some (child r')).
Proof.
  revert r. induction reads as [|[now got] reads IH]; intros r H; cbn [startup_reads] in H;
    (destruct (_ && (kMaxFrame <? _)); [eapply failed_read_rel; [exact H|apply kill_host_rel]|]);
    (destruct (_ && _); [injection H as <- <- <-; split; [by apply same_calls_rel|done]|]); [done|].
  destruct (match deadline with Some _ => _ | None => _ end); [eapply failed_read_rel; [exact H|apply kill_host_rel]|].
  destruct got as [b| | |]; [| |eapply failed_read_rel; [exact H|apply host_died_rel]..].
  - destruct (IH _ H) as [H1 H2]. split; [etrans; [|exact H1]; by apply same_calls_rel|done].
  - by apply IH.
Qed.

Lemma startup_frame_rel during limit now how reads r res reads' r' :
  startup_frame during limit now how reads r = Some (res, reads', r') →
  engine_rel r r' ∧ (is_ok res = true → is_Some (child r) → is_Some (child r')).
Proof.
  intros H. apply startup_reads_rel in H as [H1 H2]. split; [etrans; [|exact H1]; by apply same_calls_rel|done].
Qed.

Lemma spawn_rel env r : engine_rel r (spawn_host env r).2 ∧ (is_ok (spawn_host env r).1 = true → is_Some (child (spawn_host env r).2)).
Proof.
  unfold spawn_host. destruct (env_spawn env) as [ws|e]; [|done]. simpl.
  assert (∀ r0, same_calls r0 (foldl (λ r w, log LogWarning w r) r0 ws)) as Hl.
  { induction ws as [|w ws IH]; intros r0; [done|]. simpl. etrans; [apply (log_same LogWarning w)|apply IH]. }
  split; [apply same_calls_rel; etrans; [|apply Hl]; done|]. intros _. apply Hl. done.
Qed.

Lemma failed_start_rel (p : Error * Re W) res r r' :
  failed_start p = Some (res, r') → engine_rel r p.2 → engine_rel r r' ∧ (is_ok res = true → is_Some (child r')).
Proof. unfold failed_start. by intros [= <- <-]. Qed.

Lemma create_rel env reads r res r' :
  create_engine env reads r = Some (res, r') → is_Some (child r) →
  engine_rel r r' ∧ (is_ok res = true → is_Some (child r')).
Proof.
  unfold create_engine. set (f := (encode _ _ _).1). pose proof (write_frame_same f (generation r) r) as Hw.
  destruct (write_frame f (generation r) r) as [[] r1]; simpl in Hw; intros H Hc.
  2: { eapply failed_start_rel; [exact H|]. etrans; [exact (same_calls_rel _ _ Hw)|apply host_died_rel]. }
  destruct (startup_frame _ _ _ _ _ r1) as [[[got reads'] r2]|] eqn:Es; [|done].
  apply startup_frame_rel in Es as [H1 H2]. assert (engine_rel r r2) as Hr by (etrans; [exact (same_calls_rel _ _ Hw)|done]).
  destruct got as [[type data]|e]; [|by eapply failed_start_rel].
  destruct (type =? MsgError); [eapply failed_start_rel; [exact H|]; etrans; [exact Hr|apply kill_host_rel]|].
  destruct (negb _); [eapply failed_start_rel; [exact H|]; etrans; [exact Hr|apply kill_host_rel]|].
  injection H as <- <-. split; [etrans; [exact Hr|by apply same_calls_rel]|]. intros _. apply H2; [done|]. by apply Hw.
Qed.

Lemma start_rel avail env r res r' :
  start avail env r = Some (res, r') → engine_rel r r' ∧ (is_ok res = true → is_Some (child r')).
Proof.
  unfold start. destruct (spawn_rel env r) as [H1 H2]. destruct (spawn_host env r) as [[[]|e] r1]; simpl in *.
  2: { intros H. by eapply failed_start_rel. }
  set (r2 := upd_starts _ _ _ r1). assert (engine_rel r r2) as Hr2 by (etrans; [exact H1|by apply same_calls_rel]).
  destruct (startup_frame _ _ _ _ _ r2) as [[[got reads] r3]|] eqn:Es; [|done]. apply startup_frame_rel in Es as [H3 H4].
  assert (engine_rel r r3) as Hr3 by (by etrans). intros H.
  destruct got as [[type data]|e]; [|by eapply failed_start_rel].
  destruct (type =? MsgError); [eapply failed_start_rel; [exact H|]; etrans; [exact Hr3|apply kill_host_rel]|].
  destruct (negb _); [eapply failed_start_rel; [exact H|]; etrans; [exact Hr3|apply kill_host_rel]|].
  destruct (read_ready _ _ _) as [[[[fine protocol] abi] got] pid].
  destruct (_ || _); [eapply failed_start_rel; [exact H|]; etrans; [exact Hr3|apply kill_host_rel]|].
  apply create_rel in H as [H5 H6]; [|simpl; apply H4; [done|by apply H2]].
  split; [|done]. etrans; [exact Hr3|]. etrans; [|exact H5]. by apply same_calls_rel.
Qed.

Lemma ensure_running_rel avail env r res r' :
  ensure_running avail env r = Some (res, r') →
  engine_rel r r' ∧ (is_ok res = true → is_Some (child r')) ∧ (is_Some (child r) → r' = r).
Proof.
  unfold ensure_running. destruct (child r) eqn:Ec; [intros [= <- <-]; rewrite Ec; by eauto|].
  destruct (_ && _); [intros [= <- <-]; split_and!; [by apply same_calls_rel|done|by intros []]|].
  intros H. apply start_rel in H as [H1 H2]. split_and!; [|done|by intros []].
  etrans; [|exact H1]. apply same_calls_rel. etrans; [|apply log_same]. done.
Qed.

(** ** The invariant *)

(** The slot a caller owns. *)
Definition pc_slot pc : option nat :=
  match pc with
  | PEncode i | PSend i | PHead i | PSleep i | PProcess i | PRead i _ | PFail i _ | PFinal i
  | PMap i _ _ _ _ | PDecode i _ _ | PMalformed i _ | PReturned i _ | Crashed i => Some i
  | PStart | PReady | PDone _ => None
  end.

Definition is_reading pc : bool := match pc with PRead _ _ => true | _ => false end.

(** The bytes of a call that no callback has seen yet are whole frames; the
    final one is among them exactly when [final_queued] says so. *)
Definition frames_in (work : list byte) s : Prop :=
  ∃ bs1 bs2, Forall one_frame (bs1 ++ bs2) ∧ work = mjoin bs1 ∧ s_inbox s = mjoin bs2 ∧
             s_final_queued s = existsb final_frame (bs1 ++ bs2).

Lemma no_frames bs : Forall one_frame bs → mjoin bs = [] → bs = [].
Proof.
  intros [|b bs' [Hb _] _]; [done|]. change (mjoin (b :: bs')) with (b ++ mjoin bs').
  destruct b; [unfold len in Hb; simpl in Hb; lia|done].
Qed.

(** A call that is not settled is on the host that runs. *)
Definition hosted s r : Prop := settled s = true ∨ (s_generation s = generation r ∧ is_Some (child r)).

Definition waits (work : Slot W → list byte) i r : Prop :=
  ∃ s, slots r !! i = Some s ∧ s_active s = true ∧ frames_in (work s) s ∧ hosted s r.

Definition no_bytes (s : Slot W) : list byte := [].

(** Nothing for this call yet. *)
Definition quiet_slot i r : Prop := s_inbox (slot_at i r) = [] ∧ s_failed (slot_at i r) = false.

Definition caller_ok r pc : Prop :=
  match pc with
  | PEncode i | PSend i | PHead i => waits no_bytes i r
  | PSleep i =>
      waits no_bytes i r ∧ (s_notified (slot_at i r) = true ∨ (quiet_slot i r ∧ reader_active r = true))
  | PProcess i => waits s_work i r
  | PRead i _ => waits no_bytes i r ∧ quiet_slot i r
  | PFail i _ | PFinal i | PMap i _ _ _ _ | PDecode i _ _ | PMalformed i _ | PReturned i _ | Crashed i =>
      ∃ s, slots r !! i = Some s ∧ s_active s = true
  | PStart | PReady | PDone _ => True
  end.

Definition owned (c : Caller W) : list nat := option_list (pc_slot (c_pc c)).
Definition reading (c : Caller W) : list unit := if is_reading (c_pc c) then [tt] else [].

Record remote_ok r : Prop := {
  ro_slots : NoDup (re_calls r ≫= owned);
  ro_callers : Forall (λ c, caller_ok r (c_pc c)) (re_calls r);
  ro_reader : length (re_calls r ≫= reading) = if reader_active r then 1%nat else 0%nat;
  ro_flight : in_flight r = len (re_calls r ≫= owned)
}.

(** *** What others may do without breaking a caller *)

Lemma frames_rel work s s' : slot_rel s s' → frames_in work s → frames_in work s'.
Proof.
  intros [_ _ _ _ (bs' & Hb' & Hi' & Hq') _] (bs1 & bs2 & Hb & Hw & Hi & Hq). exists bs1, (bs2 ++ bs').
  rewrite app_assoc, Forall_app, join_app, existsb_app, Hi', Hq', Hq, Hi. done.
Qed.

Lemma hosted_rel s s' r r' :
  engine_rel r r' → slot_rel s s' → s' ∈ slots r' → s_active s = true → hosted s r → hosted s' r'.
Proof.
  intros Hr Hs Hin Ha [Hset|[Hg Hc]]; [left; by eapply slot_rel_settled|].
  destruct (er_alive _ _ Hr) as [[Hgen Hch]|Hall].
  - right. rewrite (sr_generation _ _ Hs), Hgen. auto.
  - left. unfold all_settled in Hall. rewrite Forall_forall in Hall. apply Hall; [done|by rewrite (sr_active _ _ Hs)|].
    by rewrite (sr_generation _ _ Hs).
Qed.

Lemma rel_lookup r r' i s :
  engine_rel r r' → slots r !! i = Some s → ∃ s', slots r' !! i = Some s' ∧ slot_rel s s'.
Proof. intros Hr Hs. destruct (Forall2_lookup_l _ _ _ _ _ (er_slots _ _ Hr) Hs) as (s' & ? & ?). eauto. Qed.

Lemma slot_at_some i r s : slots r !! i = Some s → slot_at i r = s.
Proof. unfold slot_at. by intros ->. Qed.

Lemma waits_rel work i r r' :
  (∀ s s', slot_rel s s' → work s' = work s) → engine_rel r r' → waits work i r → waits work i r'.
Proof.
  intros Hw Hr (s & Hs & Ha & Hf & Hh). destruct (rel_lookup _ _ _ _ Hr Hs) as (s' & Hs' & Hrel).
  exists s'. split_and!; [done|by rewrite (sr_active _ _ Hrel)| |].
  - rewrite (Hw _ _ Hrel). by eapply frames_rel.
  - eapply hosted_rel; [done|done|by eapply list_elem_of_lookup_2|done|done].
Qed.

Lemma rel_keeps r r' pc : engine_rel r r' → caller_ok r pc → is_reading pc = false → caller_ok r' pc.
Proof.
  intros Hr Hok Hnr.
  assert (∀ i, waits no_bytes i r → waits no_bytes i r') as Hw by (intros i; by apply waits_rel).
  assert (∀ i, (∃ s, slots r !! i = Some s ∧ s_active s = true) → ∃ s, slots r' !! i = Some s ∧ s_active s = true) as Hact.
  { intros i (s & Hs & Ha). destruct (rel_lookup _ _ _ _ Hr Hs) as (s' & Hs' & Hrel). exists s'. by rewrite (sr_active _ _ Hrel). }
  destruct pc; simpl in *; auto; [|by eapply waits_rel; [apply sr_work|done|]|done].
  destruct Hok as [Hwt Hn]. split; [by apply Hw|]. destruct Hwt as (s & Hs & _).
  destruct (rel_lookup _ _ _ _ Hr Hs) as (s' & Hs' & Hrel). unfold quiet_slot in *.
  rewrite (slot_at_some _ _ _ Hs), (slot_at_some _ _ _ Hs') in *. rewrite (er_reader _ _ Hr).
  destruct (sr_wakes _ _ Hrel) as [?|(-> & -> & ->)]; [by left|done].
Qed.

(** An operation on slot [i] alone. *)
Record own_rel i r r' : Prop := {
  or_calls : re_calls r' = re_calls r;
  or_reader : reader_active r' = reader_active r;
  or_generation : generation r' = generation r;
  or_child : is_Some (child r) → is_Some (child r');
  or_slots : ∀ j, j ≠ i → slots r' !! j = slots r !! j
}.

Lemma own_trans i r1 r2 r3 : own_rel i r1 r2 → own_rel i r2 r3 → own_rel i r1 r3.
Proof.
  intros [Hc1 Hr1 Hg1 Hch1 Hs1] [Hc2 Hr2 Hg2 Hch2 Hs2]. split; try congruence; [auto|].
  intros j Hj. by rewrite Hs2, Hs1.
Qed.

Lemma same_own i r r' : same_calls r r' → own_rel i r r'.
Proof. intros [Hs Hc Hr _ Hg Hch]. split; try done. intros j _. by rewrite Hs. Qed.

Lemma on_slot_own i f r : own_rel i r (on_slot i f r).
Proof. split; try done. intros j Hj. simpl. by apply list_lookup_alter_ne. Qed.

Lemma own_keeps i r r' pc : own_rel i r r' → caller_ok r pc → pc_slot pc ≠ Some i → caller_ok r' pc.
Proof.
  intros [_ Hr Hg Hch Hsl] Hok Hne.
  assert (∀ work j, j ≠ i → waits work j r → waits work j r') as Hw.
  { intros work j Hj (s & Hs & Ha & Hf & Hh). exists s. rewrite Hsl by done. split_and!; try done.
    destruct Hh as [?|[? ?]]; [by left|]. right. rewrite Hg. auto. }
  destruct pc as [| |j|j|j|j|j|j wt|j e|j|j rd n sz rt|j rd sz|j what|j out|out|j]; simpl in *; try done;
    try (apply Hw; [congruence|done]); try (rewrite Hsl by congruence; done);
    (destruct Hok as [Hwt Hq]; split; [apply Hw; [congruence|done]|]; unfold quiet_slot, slot_at in *; rewrite Hsl, ?Hr by congruence; done).
Qed.

(** *** Steps *)

Definition apart pc pc0 : Prop := ∀ i, pc_slot pc = Some i → pc_slot pc0 ≠ Some i.

Definition slots_held pc : Z := match pc_slot pc with Some _ => 1 | None => 0 end.

(** A step of one caller that every other caller survives. *)
Record step_ok r pc r' pc' : Prop := {
  so_calls : re_calls r' = re_calls r;
  so_pc : caller_ok r' pc';
  so_others : ∀ pc0, caller_ok r pc0 → apart pc pc0 →
    (is_reading pc = true ∨ reader_active r = false → is_reading pc0 = false) → caller_ok r' pc0;
  so_slot : pc_slot pc' = None ∨ pc_slot pc' = pc_slot pc ∨
    (pc_slot pc = None ∧ ∀ i pc0, pc_slot pc' = Some i → caller_ok r pc0 → pc_slot pc0 ≠ Some i);
  so_reader : (Nat.b2n (reader_active r') + Nat.b2n (is_reading pc) = Nat.b2n (reader_active r) + Nat.b2n (is_reading pc'))%nat;
  so_flight : in_flight r' + slots_held pc = in_flight r + slots_held pc'
}.

(** The reader, or a caller while nobody reads, may do anything to the calls
    that [engine_rel] allows. *)
Lemma step_by_rel r pc r' pc' :
  engine_rel r r' → is_reading pc = true ∨ reader_active r = false → caller_ok r' pc' →
  pc_slot pc' = pc_slot pc → is_reading pc' = is_reading pc → step_ok r pc r' pc'.
Proof.
  intros Hr Hread Hok Hs Hrd. split; [apply Hr|done| |by right; left| |].
  - intros pc0 H0 _ Hn. eapply rel_keeps; [done|done|]. by apply Hn.
  - by rewrite (er_reader _ _ Hr), Hrd.
  - unfold slots_held. by rewrite (er_flight _ _ Hr), Hs.
Qed.

(** Work on the caller's own slot. *)
Lemma step_by_own i r pc r' pc' :
  own_rel i r r' → in_flight r' = in_flight r → pc_slot pc = Some i → pc_slot pc' = Some i → is_reading pc = false →
  is_reading pc' = false → caller_ok r' pc' → step_ok r pc r' pc'.
Proof.
  intros Ho Hf Hp Hp' Hn Hn' Hok. split; [apply Ho|done| |right; left; congruence| |].
  - intros pc0 H0 Ha _. eapply own_keeps; [done|done|by apply Ha].
  - by rewrite (or_reader _ _ _ Ho), Hn, Hn'.
  - unfold slots_held. by rewrite Hp, Hp', Hf.
Qed.

(** Work on nobody's slot. *)
Lemma step_by_same r pc r' pc' :
  same_calls r r' → pc_slot pc' = pc_slot pc → is_reading pc = false → is_reading pc' = false →
  caller_ok r' pc' → step_ok r pc r' pc'.
Proof.
  intros Hs Hp Hn Hn' Hok. split; [apply Hs|done| |by right; left| |].
  - intros pc0 H0 Ha _. destruct (pc_slot pc0) as [j|] eqn:Ej.
    + eapply (own_keeps (S j)); [by apply same_own|done|]. rewrite Ej. intros [= E]. lia.
    + by destruct pc0.
  - by rewrite (sc_reader _ _ Hs), Hn, Hn'.
  - unfold slots_held. by rewrite (sc_flight _ _ Hs), Hp.
Qed.

Lemma caller_ok_same r r' pc : same_calls r r' → caller_ok r pc → is_reading pc = false → caller_ok r' pc.
Proof. intros Hs. apply rel_keeps. by apply same_calls_rel. Qed.

(** An active slot stays one. *)
Definition active_at i r : Prop := ∃ s, slots r !! i = Some s ∧ s_active s = true.

Lemma caller_active r pc i : caller_ok r pc → pc_slot pc = Some i → active_at i r.
Proof.
  intros Hok Hp. destruct pc; simplify_eq/=; try done;
    by (destruct Hok as (s & ? & ? & _) || destruct Hok as [(s & ? & ? & _) _]); exists s.
Qed.

(** *** Reading *)

Lemma inbox_frames s : frames_in [] s → ∃ bs, Forall one_frame bs ∧ s_inbox s = mjoin bs ∧ s_final_queued s = existsb final_frame bs.
Proof.
  intros (bs1 & bs2 & Hb & Hw & Hi & Hq). pose proof Hb as [Hb1 Hb2]%Forall_app. apply (no_frames bs1) in Hb1; [|done].
  subst bs1. by exists bs2.
Qed.

Lemma quiet_hosted i r : waits no_bytes i r → quiet_slot i r → is_Some (child r) ∧ s_generation (slot_at i r) = generation r.
Proof.
  intros (s & Hs & Ha & Hfr & Hh) [Hin Hf]. rewrite (slot_at_some _ _ _ Hs) in *.
  destruct Hh as [Hset|[? ?]]; [|done]. apply inbox_frames in Hfr as (bs & Hb & Hi & Hq).
  rewrite Hin in Hi. assert (bs = []) as -> by (by apply no_frames). unfold settled in Hset. by rewrite Hf, Hq in Hset.
Qed.

Lemma wake_lookup i r s :
  slots r !! i = Some s → slots (wake_waiters r) !! i = Some (if s_active s then slot_notified true s else s).
Proof. intros Hs. simpl. by rewrite list_lookup_fmap, Hs. Qed.

Lemma wake_keeps b r pc : caller_ok r pc → is_reading pc = false → caller_ok (wake_waiters (upd_reader b r)) pc.
Proof.
  intros Hok Hn. assert (∀ work i, (∀ s, work (slot_notified true s) = work s) → waits work i r → waits work i (wake_waiters (upd_reader b r))) as Hw.
  { intros work i Hwk (s & Hs & Ha & Hf & Hh). exists (slot_notified true s).
    rewrite (wake_lookup i (upd_reader b r) s Hs), Ha, Hwk. done. }
  assert (∀ i, active_at i r → active_at i (wake_waiters (upd_reader b r))) as Hact.
  { intros i (s & Hs & Ha). exists (slot_notified true s). by rewrite (wake_lookup i (upd_reader b r) s Hs), Ha. }
  destruct pc; simpl in Hok; simpl; try done; try (by apply Hw); try (by apply Hact).
  destruct Hok as [Hwt _]. split; [by apply Hw|]. left. destruct Hwt as (s & Hs & Ha & _).
  by rewrite (slot_at_some _ _ _ (wake_lookup slot (upd_reader b r) s Hs)), Ha.
Qed.

Lemma wake_flight b r : in_flight (wake_waiters (upd_reader b r)) = in_flight r ∧ re_calls (wake_waiters (upd_reader b r)) = re_calls r.
Proof. done. Qed.

(** The caller that reads, or takes the role, has the flag set. *)
Lemma flag_keeps r pc : caller_ok r pc → caller_ok (upd_reader true r) pc.
Proof. destruct pc; simpl; try done. intros [Hw Hn]. split; [done|]. destruct Hn as [?|[? _]]; [by left|by right]. Qed.

Lemma flag_set r : reader_active r = true → upd_reader true r = r.
Proof. destruct r. simpl. by intros ->. Qed.

Definition takes_role r0 pc0 i r : Prop :=
  engine_rel (upd_reader true r0) r ∧ pc_slot pc0 = Some i ∧ is_reading pc0 = reader_active r0 ∧ waits no_bytes i r0.

Lemma role_waits r0 pc0 i r : takes_role r0 pc0 i r → waits no_bytes i r.
Proof. intros (Hr & _ & _ & Hw). by eapply (waits_rel no_bytes i (upd_reader true r0)). Qed.

Lemma role_others r0 pc0 i r pc :
  takes_role r0 pc0 i r → caller_ok r0 pc → (is_reading pc0 = true ∨ reader_active r0 = false → is_reading pc = false) →
  caller_ok r pc ∧ is_reading pc = false.
Proof.
  intros (Hr & _ & Hrd & _) Hok Hn. assert (is_reading pc = false) as Hpc.
  { apply Hn. rewrite Hrd. destruct (reader_active r0); tauto. }
  split; [|done]. eapply rel_keeps; [exact Hr|by apply flag_keeps|done].
Qed.

(** The reader stops: it goes back to the head of [wait], everybody is woken. *)
Lemma stop_ok r0 pc0 r i : takes_role r0 pc0 i r → step_ok r0 pc0 (stop_reading i r).2 (stop_reading i r).1.
Proof.
  intros Ht. pose proof (role_waits _ _ _ _ Ht) as Hw. pose proof Ht as (Hr & Hp & Hrd & _).
  unfold stop_reading. cbn [fst snd]. split; [apply Hr|by apply wake_keeps| |by right; left| |].
  - intros pc H0 _ Hn. destruct (role_others _ _ _ _ _ Ht H0 Hn). by apply wake_keeps.
  - simpl. rewrite Hrd. by destruct (reader_active r0).
  - unfold slots_held. simpl. rewrite Hp. by rewrite (er_flight _ _ Hr).
Qed.

Lemma role_trans r0 pc0 i r r' : takes_role r0 pc0 i r → engine_rel r r' → takes_role r0 pc0 i r'.
Proof. intros (Hr & Hp & Hrd & Hw) Hr'. split_and!; try done. by etrans. Qed.

(** Timers leave a quiet call quiet unless they end the host. *)
Lemma service_quiet now n j i r :
  quiet_slot i r → (service_slots now n j r).1 = true → quiet_slot i (service_slots now n j r).2.
Proof.
  revert j r. induction n as [|n IH]; intros j r Hq; [done|]. cbn [service_slots].
  destruct (negb _); [by apply IH|].
  assert (quiet_slot i (forward_cancel now j r)) as Hq1.
  { unfold forward_cancel. destruct (wants_cancel _ _); [|done]. unfold quiet_slot, slot_at in *. simpl.
    rewrite (sc_slots _ _ (send_control_same MsgCancel _ r)). destruct (decide (j = i)) as [->|Hne].
    - rewrite list_lookup_alter_eq. by destruct (slots r !! i).
    - by rewrite list_lookup_alter_ne. }
  revert Hq1. generalize (forward_cancel now j r). intros r1 Hq1.
  destruct (_ && _); [done|]. destruct (_ && _); [done|]. by apply IH.
Qed.

Lemma read_on_ok now i r0 pc0 r : takes_role r0 pc0 i r → step_ok r0 pc0 (read_on now i r).2 (read_on now i r).1.
Proof.
  intros Ht. unfold read_on. destruct (bool_decide _ && _) eqn:Eq; [|by apply stop_ok].
  apply andb_true_iff in Eq as [Hin%bool_decide_eq_true_1 Hf%negb_true_iff]. assert (quiet_slot i r) as Hq by done.
  unfold service_timers. destruct (service_slots_rel now (length (slots r)) 0 r) as [Hrel _].
  pose proof (service_quiet now (length (slots r)) 0 i r Hq) as Hq'.
  pose proof (role_trans _ _ _ _ _ Ht Hrel) as Ht1.
  destruct (service_slots now (length (slots r)) 0 r) as [[] r1]; cbn [fst snd] in *; [|by apply stop_ok].
  pose proof (role_waits _ _ _ _ Ht1) as Hw. pose proof Ht1 as (Hr1 & Hp & Hrd & _).
  split; [apply Hr1|by split; [|apply Hq']| |by right; left| |].
  - intros pc H0 _ Hn. by destruct (role_others _ _ _ _ _ Ht1 H0 Hn).
  - simpl. rewrite (er_reader _ _ Hr1), Hrd. by destruct (reader_active r0).
  - unfold slots_held. simpl. by rewrite Hp, (er_flight _ _ Hr1).
Qed.

Lemma after_read_ok during how now got i r0 :
  waits no_bytes i r0 → reader_active r0 = true → ∀ ms, 
  step_ok r0 (PRead i ms) (after_read during how now got i r0).2 (after_read during how now got i r0).1.
Proof.
  intros Hw Hra ms.
  assert (∀ r, engine_rel r0 r → takes_role r0 (PRead i ms) i r) as Hrole.
  { intros r Hr. split_and!; try done. by rewrite flag_set. }
  assert (∀ r, engine_rel r0 r → step_ok r0 (PRead i ms)
    (match dispatch r with (false, r) => stop_reading i r | (true, r) => read_on now i r end).2
    (match dispatch r with (false, r) => stop_reading i r | (true, r) => read_on now i r end).1) as Hd.
  { intros r Hr. destruct (dispatch_rel r) as [Hrel _]. destruct (dispatch r) as [[] r1]; cbn [snd] in Hrel.
    - apply read_on_ok, Hrole. by etrans.
    - apply stop_ok, Hrole. by etrans. }
  unfold after_read. destruct got as [b| | |]; [apply Hd; by apply same_calls_rel|by apply Hd|..];
    apply stop_ok, Hrole, host_died_rel.
Qed.

Lemma wait_head_ok now i r :
  waits no_bytes i r → step_ok r (PHead i) (wait_head now i r).2 (wait_head now i r).1.
Proof.
  intros Hw. pose proof Hw as (s & Hs & Ha & Hfr & Hh). unfold wait_head. rewrite (slot_at_some _ _ _ Hs).
  assert (∀ f, slots (on_slot i f r) !! i = Some (f s)) as Hon by (intros f; simpl; by rewrite list_lookup_alter_eq, Hs).
  destruct (bool_decide _) eqn:Ei; simpl negb; cbn iota; cycle 1.
  - apply (step_by_own i); try done; [apply on_slot_own|].
    exists (slot_inbox [] (s_inbox s) s). split_and!; [apply Hon|done| |done].
    apply inbox_frames in Hfr as (bs & Hb & Hi & Hq). exists bs, []. by rewrite app_nil_r.
  - destruct (s_failed s) eqn:Ef; [|destruct (reader_active r) eqn:Er].
    + apply step_by_same; try done. by exists s.
    + apply (step_by_own i); try done; [apply on_slot_own|]. cbn [fst snd]. split.
      * exists (slot_notified false s). split_and!; [apply Hon|done|done|done].
      * right. unfold quiet_slot. rewrite (slot_at_some _ _ _ (Hon _)). by apply bool_decide_eq_true_1 in Ei.
    + apply read_on_ok. by split_and!.
Qed.

(** *** The other steps *)

Lemma process_slot fuel work s (w : W) :
  (process fuel work s w).1.2 = s ∨ ∃ type data, (process fuel work s w).1.2 = slot_final true type data s.
Proof.
  revert work w. induction fuel as [|fuel IH]; intros work w; [by left|]. cbn [process].
  destruct (len work <? kHeaderSize); [by left|]. destruct (_ =? MsgChunk); [apply IH|].
  destruct (_ =? MsgProgress); [apply IH|]. right. eauto.
Qed.

Lemma callbacks_ok i r :
  waits s_work i r → step_ok r (PProcess i) (run_callbacks i r).2 (run_callbacks i r).1.
Proof.
  intros (s & Hs & Ha & (bs1 & bs2 & Hb & Hw & Hi & Hq) & Hh). unfold run_callbacks. rewrite (slot_at_some _ _ _ Hs).
  pose proof Hb as [Hb1 Hb2]%Forall_app. pose proof (process_frames bs1 (length (s_work s)) s (re_world r) Hb1) as Hp.
  rewrite <-Hw in Hp. specialize (Hp (le_n _)). pose proof (process_slot (length (s_work s)) (s_work s) s (re_world r)) as Hslot.
  destruct (process _ _ s _) as [[final s'] w]. cbn [fst snd] in *.
  assert (slots (upd_world w (on_slot i (λ _, s') r)) !! i = Some s') as Hs' by (simpl; by rewrite list_lookup_alter_eq, Hs).
  assert (own_rel i r (upd_world w (on_slot i (λ _, s') r))) as Ho by (by destruct (on_slot_own i (λ _, s') r)).
  destruct final; apply (step_by_own i); try done; simpl.
  - exists s'. split; [exact Hs'|]. by destruct Hslot as [->|(? & ? & ->)].
  - assert (s_active s' = true ∧ s_inbox s' = s_inbox s ∧ s_final_queued s' = s_final_queued s ∧ settled s' = settled s ∧ s_generation s' = s_generation s) as (Ha' & Hi' & Hq' & Hst' & Hg')
      by (by destruct Hslot as [->|(? & ? & ->)]).
    exists s'. split_and!; [exact Hs'|done| |unfold hosted; by rewrite Hst', Hg'].
    exists [], bs2. rewrite Hi', Hq', Hq, existsb_app, <-Hp. done.
Qed.

Lemma acquire_ok q now r :
  is_Some (child r) →
  let '(i, r') := acquire_slot q now r in
  (∀ pc0, caller_ok r pc0 → pc_slot pc0 ≠ Some i) ∧ own_rel i r r' ∧ waits no_bytes i r' ∧ in_flight r' = in_flight r + 1.
Proof.
  intros Hc. unfold acquire_slot.
  set (f := fresh_call (next_id r) (generation r) q _ _).
  assert (∀ s, s_active (f s) = true ∧ frames_in [] (f s) ∧ s_generation (f s) = generation r) as Hf.
  { intros s. split_and!; try done. exists [], []. by split_and!. }
  destruct (list_find _ _) as [[i s]|] eqn:El.
  - apply list_find_Some in El as (Hs & Hfree & _).
    split_and!; [| |exists (f s)|done].
    + intros pc0 H0 Hp. destruct (caller_active _ _ _ H0 Hp) as (s0 & Hs0 & Ha0). congruence.
    + split; try done. intros j Hj. simpl. by apply list_lookup_alter_ne.
    + destruct (Hf s) as (H1 & H2 & H3). split_and!; [simpl; by rewrite list_lookup_alter_eq, Hs|done|done|right; done].
  - split_and!; [| |exists (f new_slot)|done].
    + intros pc0 H0 Hp. destruct (caller_active _ _ _ H0 Hp) as (s0 & Hs0 & _). apply lookup_lt_Some in Hs0. lia.
    + split; try done. intros j Hj. simpl. rewrite list_lookup_alter_ne by done.
      destruct (decide (j < length (slots r))%nat); [by apply lookup_app_l|].
      rewrite (lookup_ge_None_2 (slots r) j) by lia. apply lookup_ge_None_2. rewrite length_app. simpl. lia.
    + destruct (Hf new_slot) as (H1 & H2 & H3). split_and!; [|done|done|right; done].
      simpl. by rewrite list_lookup_alter_eq, list_lookup_middle.
Qed.

(** Work on the slot's own buffers and segments. *)
Definition tame i r r' : Prop := own_rel i r r' ∧ engine_rel r r'.

Lemma tame_trans i r1 r2 r3 : tame i r1 r2 → tame i r2 r3 → tame i r1 r3.
Proof. intros [H1 H2] [H3 H4]. split; [by eapply own_trans|by etrans]. Qed.

Lemma tame_same i r r' : same_calls r r' → tame i r r'.
Proof. intros Hs. split; [by apply same_own|by apply same_calls_rel]. Qed.

Lemma tame_then i r r1 r2 : tame i r r1 → same_calls r1 r2 → tame i r r2.
Proof. intros Ht Hs. eapply tame_trans; [exact Ht|by apply tame_same]. Qed.

(** The fields of a slot that matter to the other callers. *)
Definition same_slot s s' : Prop :=
  s_active s' = s_active s ∧ s_generation s' = s_generation s ∧ s_work s' = s_work s ∧ s_failed s' = s_failed s ∧
  s_inbox s' = s_inbox s ∧ s_final_queued s' = s_final_queued s ∧ s_notified s' = s_notified s.

Lemma same_slot_rel s s' : same_slot s s' → slot_rel s s'.
Proof.
  intros (Ha & Hg & Hw & Hf & Hi & Hq & Hn). split; try done; [by rewrite Hf| |by right].
  exists []. by rewrite app_nil_r, orb_false_r.
Qed.

Lemma tame_on_slot i f r : (∀ s, same_slot s (f s)) → tame i r (on_slot i f r).
Proof. intros Hf. split; [apply on_slot_own|]. apply on_slot_rel. intros s _. by apply same_slot_rel. Qed.

Lemma grow_tame i need r : tame i r (grow_request_shm i need r).
Proof.
  unfold grow_request_shm. destruct (_ && _ && _); [by apply tame_same|].
  set (g := if mapped _ then unmap _ _ else _). destruct g as [seg os].
  destruct (create seg _ _ _ os) as [[[made seg'] p] os'].
  eapply tame_trans; [by apply (tame_same i r (upd_shm os' p r))|]. apply tame_on_slot. intros s. by destruct made.
Qed.

Lemma count_same w r : same_calls r (count_request w r).
Proof. unfold count_request. destruct (shm_ w) as [o|]; [|done]. by destruct (shm_count o =? 0). Qed.

Lemma encode_tame i c r : tame i r (encode_call i c r).2 ∧
  ((encode_call i c r).1 = PSend i ∨ ∃ e, (encode_call i c r).1 = PFail i e).
Proof.
  destruct c as [q a|text|]; cbn [encode_call]; [|split; [apply tame_on_slot; by intros ?|by left]..].
  unfold encode_run. set (r1 := on_slot i clear_retire r).
  assert (tame i r r1) as H1 by (apply tame_on_slot; intros s; unfold clear_retire; by destruct (_ =? _)).
  revert H1. generalize r1. clear r1. intros r1 H1.
  generalize (if ri_shm (info r1) then request_shm_bytes (opt_shm_threshold (options r1)) q else 0). intros need.
  assert (tame i r (if need =? 0 then r1 else grow_request_shm i need r1)) as H2
    by (destruct (need =? 0); [done|eapply tame_trans; [exact H1|apply grow_tame]]).
  revert H2. generalize (if need =? 0 then r1 else grow_request_shm i need r1). intros r2 H2.
  cbv zeta. generalize (request_seg need (slot_at i r2)). intros seg.
  destruct (run_frame _ _ _ _ _ _) as [w fits].
  assert (tame i r (upd_shm (commit_seg seg w (re_os r2)) (re_proc r2) (on_slot i (slot_tx (out_ w) "") r2))) as H3.
  { eapply tame_then; [eapply tame_trans; [exact H2|apply (tame_on_slot i (slot_tx (out_ w) "")); by intros ?]|done]. }
  destruct fits; cbn [negb fst snd]; [split; [eapply tame_then; [exact H3|apply count_same]|by left]|split; [done|by eauto]].
Qed.

Lemma release_ok i pc r pc' :
  pc_slot pc = Some i → is_reading pc = false → pc_slot pc' = None → caller_ok (release_slot i r) pc' → is_reading pc' = false →
  step_ok r pc (release_slot i r) pc'.
Proof.
  intros Hp Hn Hp' Hok Hn'. unfold release_slot.
  assert (tame i r (release_response i r)) as H1.
  { unfold release_response. destruct (s_response_shm _); [|by apply tame_same].
    eapply tame_trans; [|apply (tame_on_slot i (slot_response_shm None)); by intros ?].
    apply tame_same. destruct (_ && _); [apply send_control_same|done]. }
  set (r1 := release_response i r) in *.
  assert (tame i r (release_request_shm i r1)) as H2.
  { eapply tame_trans; [exact H1|]. unfold release_request_shm. destruct (_ && _); [|by apply tame_same].
    destruct (_ || _ || _); (eapply tame_trans; [|apply tame_on_slot; by intros ?]); by apply tame_same. }
  revert H2. generalize (release_request_shm i r1). clear H1. intros r2 [Ho He].
  assert (own_rel i r (upd_counts (next_id r2) (in_flight r2 - 1) (max_in_flight r2) (on_slot i (slot_free false None [] []) r2))) as Ho'.
  { eapply own_trans; [exact Ho|]. by destruct (on_slot_own i (slot_free false None [] []) r2). }
  split; [apply Ho'| |intros pc0 H0 Ha _; eapply own_keeps; [exact Ho'|done|by apply Ha]|by left| |].
  - by destruct pc'.
  - rewrite (or_reader _ _ _ Ho'). by rewrite Hn, Hn'.
  - unfold slots_held. rewrite Hp, Hp'. cbn [in_flight upd_counts]. rewrite (er_flight _ _ He). lia.
Qed.

Lemma unlock_same t r : same_calls r (unlock_serial t r).
Proof. unfold unlock_serial. by destruct (bool_decide _). Qed.

(** More work that leaves the calls alone. *)
Lemma step_then r pc r' pc' r'' :
  step_ok r pc r' pc' → same_calls r' r'' → is_reading pc' = false → step_ok r pc r'' pc'.
Proof.
  intros [Hc Hpc Ho Hs Hr Hf] Hsame Hn. pose proof (same_own 0 _ _ Hsame) as Hown. split.
  - by rewrite (sc_calls _ _ Hsame).
  - by eapply caller_ok_same.
  - intros pc0 H0 Ha Hrd. specialize (Ho pc0 H0 Ha Hrd). destruct (pc_slot pc0) as [j|] eqn:Ej; [|by destruct pc0].
    eapply (own_keeps (S j)); [by apply same_own|done|]. rewrite Ej. intros [= E]. lia.
  - done.
  - by rewrite (sc_reader _ _ Hsame).
  - by rewrite (sc_flight _ _ Hsame).
Qed.

(** A step on an active slot that only needs it to stay active. *)
Lemma step_active i r pc r' pc' :
  tame i r r' → active_at i r → pc_slot pc = Some i → pc_slot pc' = Some i → is_reading pc = false → is_reading pc' = false →
  (active_at i r' → caller_ok r' pc') → step_ok r pc r' pc'.
Proof.
  intros [Ho He] (s & Hs & Ha) Hp Hp' Hn Hn' Hok. apply (step_by_own i); try done; [by apply (er_flight _ _ He)|].
  apply Hok. destruct (rel_lookup _ _ _ _ He Hs) as (s' & Hs' & Hrel). exists s'. by rewrite (sr_active _ _ Hrel).
Qed.

Lemma read_final_ok t i r : active_at i r → step_ok r (PFinal i) (read_final t i r).2 (read_final t i r).1.
Proof.
  intros Ha. unfold read_final. destruct (_ =? MsgError).
  { destruct (parse_error _) as [status msg]. apply (step_active i); try done. apply tame_same, unlock_same. }
  destruct (negb _); [apply (step_active i); try done; by apply tame_same|].
  destruct (r_shm_header _) as [[[name size] retire] rd].
  destruct (negb _); apply (step_active i); try done; by apply tame_same.
Qed.

Lemma map_response_ok t i rd name size retire r :
  active_at i r →
  step_ok r (PMap i rd name size retire) (map_response t i rd name size retire r).2 (map_response t i rd name size retire r).1.
Proof.
  intros Ha. unfold map_response.
  assert (same_calls r (match retire with Some _ => forget_response_segment (text_of retire) r | None => r end)) as H1 by (by destruct retire).
  revert H1. generalize (match retire with Some _ => forget_response_segment (text_of retire) r | None => r end). intros r1 H1.
  destruct name as [b|]; [|apply (step_active i); try done; by apply tame_same].
  pose proof (response_segment_same (text_of (Some b)) size r1) as H2.
  destruct (response_segment _ _ r1) as [[g|] r2]; cbn [snd] in H2; pose proof (same_calls_trans _ _ _ H1 H2) as H3.
  - apply (step_active i); try done. eapply tame_trans; [apply (tame_same i _ _ H3)|]. apply tame_on_slot. by intros ?.
  - apply (step_active i); try done. apply tame_same. etrans; [exact H3|]. etrans; [|apply unlock_same].
    destruct (_ && _); [apply send_control_same|done].
Qed.

Lemma decode_body_ok t i a rd sz rd' r r1 :
  active_at i r → same_calls r r1 → step_ok r (PDecode i rd' sz) (decode_body t i a rd r1).2 (decode_body t i a rd r1).1.
Proof.
  intros Ha Hs. unfold decode_body. destruct (r_response _) as [[resp|] rd2]; [|destruct (arena_exhausted_ rd2)];
    apply (step_active i); try done; apply tame_same; try done; etrans; [exact Hs|apply unlock_same|exact Hs|apply unlock_same].
Qed.

Lemma decode_ok t i a rd size r :
  active_at i r →
  step_ok r (PDecode i rd size) (decode_response t i a rd size r).2 (decode_response t i a rd size r).1.
Proof.
  intros Ha. unfold decode_response. destruct (s_response_shm _) as [g|]; [|by apply decode_body_ok].
  destruct (bool_decide _); [by apply decode_body_ok|]. by apply (step_active i).
Qed.

Lemma malformed_ok t i what r :
  active_at i r → step_ok r (PMalformed i what) (report_malformed t i what r).2 (report_malformed t i what r).1.
Proof.
  intros Ha. unfold report_malformed. destruct (_ && negb (reader_active r)) eqn:E.
  - apply andb_true_iff in E as [_ Hnr%negb_true_iff]. pose proof (kill_host_rel EngineCrashed what None r) as Hk.
    destruct (kill_host _ _ _ r) as [e r1]. cbn [snd fst] in *. eapply step_then; [|apply unlock_same|done].
    apply step_by_rel; [done|by right| |done|done]. destruct Ha as (s & Hs & Ha).
    destruct (rel_lookup _ _ _ _ Hk Hs) as (s' & Hs' & Hrel). exists s'. by rewrite (sr_active _ _ Hrel).
  - apply (step_active i); try done. apply tame_same, unlock_same.
Qed.

Lemma exchange_ok avail env t c r pc' r' :
  (reader_active r = true → is_Some (child r)) → begin_exchange avail env t c r = Some (pc', r') → step_ok r PReady r' pc'.
Proof.
  intros Hrd. unfold begin_exchange. destruct (ensure_running avail env r) as [[res r1]|] eqn:Ee; [|done].
  apply ensure_running_rel in Ee as (Hrel & Hch & Hup).
  assert (∀ pc0, caller_ok r pc0 → (reader_active r = false → is_reading pc0 = false) → caller_ok r1 pc0) as Hothers.
  { intros pc0 H0 Hn. destruct (reader_active r) eqn:Er; [by rewrite Hup by auto|]. eapply rel_keeps; [done|done|by apply Hn]. }
  destruct res as [[]|e].
  - pose proof (acquire_ok (request_of c) (env_now env) r1 (Hch eq_refl)) as Ha.
    destruct (acquire_slot _ _ r1) as [i r2]. destruct Ha as (Hfresh & Hown & Hw & Hf). intros [= <- <-]. split; try done.
    + rewrite (or_calls _ _ _ Hown). apply Hrel.
    + intros pc0 H0 _ Hn. assert (caller_ok r1 pc0) as H1 by (apply Hothers; auto). eapply own_keeps; [done|done|by apply Hfresh].
    + right. right. split; [done|]. intros j pc0 [= <-] H0 Hp.
      destruct (reader_active r) eqn:Er; [apply (Hfresh pc0); [by rewrite Hup by auto|done]|].
      apply (Hfresh (PFail i (mkError OkCode ""))); [|done].
      destruct (caller_active _ _ _ H0 Hp) as (s & Hs & Hact). destruct (rel_lookup _ _ _ _ Hrel Hs) as (s' & Hs' & Hr').
      exists s'. by rewrite (sr_active _ _ Hr').
    + by rewrite (or_reader _ _ _ Hown), (er_reader _ _ Hrel).
    + unfold slots_held. simpl. rewrite Hf, (er_flight _ _ Hrel). lia.
  - intros [= <- <-]. eapply step_then; [|apply unlock_same|done]. split; try done.
    + apply Hrel.
    + intros pc0 H0 _ Hn. apply Hothers; auto.
    + by left.
    + by rewrite (er_reader _ _ Hrel).
    + unfold slots_held. simpl. by rewrite (er_flight _ _ Hrel).
Qed.

Lemma caller_step_ok avail env t c pc r pc' r' :
  caller_ok r pc → (reader_active r = true → is_Some (child r)) → (is_reading pc = true → reader_active r = true) →
  caller_step avail env t c pc r = Some (pc', r') → step_ok r pc r' pc'.
Proof.
  intros Hok Hch Hrd.
  assert (∀ p : Pc * Re W, step_ok r pc p.2 p.1 → Some p = Some (pc', r') → step_ok r pc r' pc') as Hsome by (by intros p ? [= ->]).
  destruct pc as [| |i|i|i|i|i|i wt|i e|i|i rd n sz rt|i rd sz|i what|i out|out|i]; cbn [caller_step]; try done.
  - unfold enter. destruct c; [destruct (negb _); [|destruct (serial r); [done|]]| |]; [| |destruct (has_count_tokens _)|destruct (_ || _)];
      intros [= <- <-]; by apply step_by_same.
  - by apply exchange_ok.
  - apply Hsome. destruct (encode_tame i c r) as [Ht Hpc]. destruct (encode_call i c r) as [p' r1]. cbn [fst snd] in *.
    pose proof (rel_keeps _ _ (PHead i) (proj2 Ht) Hok eq_refl) as Hw.
    destruct Hpc as [->|[e ->]]; apply (step_active i); try done; by (eapply (caller_active r (PHead i))).
  - apply Hsome. unfold send_frame. set (f := s_tx _). set (g := s_generation _).
    pose proof (write_frame_same f g r) as Hs. apply step_by_same; try done. by eapply (caller_ok_same r _ (PHead i)).
  - apply Hsome. by apply wait_head_ok.
  - apply Hsome. apply step_by_same; try done. by destruct Hok.
  - apply Hsome. by apply callbacks_ok.
  - destruct (env_reads env) as [|[now got] reads]; [done|]. apply Hsome. destruct Hok as [Hw Hq]. apply after_read_ok; [done|by apply Hrd].
  - apply Hsome. cbn [fst snd]. eapply step_then; [|apply unlock_same|done]. by apply (release_ok i).
  - apply Hsome. unfold final_step. destruct c; [by apply read_final_ok|..]; by apply (release_ok i).
  - apply Hsome. by apply map_response_ok.
  - apply Hsome. by apply decode_ok.
  - apply Hsome. by apply malformed_ok.
  - apply Hsome. by apply (release_ok i).
Qed.

(** *** Runs *)

Lemma other_slots r t c j c0 :
  NoDup (re_calls r ≫= owned) → re_calls r !! t = Some c → re_calls r !! j = Some c0 → j ≠ t → apart (c_pc c) (c_pc c0).
Proof.
  intros Hnd Ht Hj Hne i Hp Hp0. rewrite (bind_split owned _ _ _ Ht) in Hnd. apply NoDup_app in Hnd as (_ & Hdis & _).
  apply (Hdis i); [unfold owned; rewrite Hp; by apply list_elem_of_singleton|].
  apply list_elem_of_bind. exists c0. split; [unfold owned; rewrite Hp0; by apply list_elem_of_singleton|].
  rewrite delete_take_drop. apply elem_of_app. destruct (decide (j < t)%nat).
  - left. apply list_elem_of_lookup. exists j. by rewrite lookup_take_lt.
  - right. apply list_elem_of_lookup. exists (j - S t)%nat. rewrite lookup_drop. by replace (S t + (j - S t))%nat with j by lia.
Qed.

(** Who reads. *)
Lemma reading_callers r :
  (reader_active r = false → length (re_calls r ≫= reading) = 0%nat → ∀ c, c ∈ re_calls r → is_reading (c_pc c) = false).
Proof.
  intros _ H0 c Hc. destruct (is_reading (c_pc c)) eqn:E; [|done]. apply length_zero_iff_nil in H0.
  assert (tt ∈ re_calls r ≫= reading) as Hin.
  { apply list_elem_of_bind. exists c. split; [unfold reading; rewrite E; by apply list_elem_of_singleton|done]. }
  rewrite H0 in Hin. by apply elem_of_nil in Hin.
Qed.

Lemma other_readers r t c j c0 :
  remote_ok r → re_calls r !! t = Some c → re_calls r !! j = Some c0 → j ≠ t →
  is_reading (c_pc c) = true ∨ reader_active r = false → is_reading (c_pc c0) = false.
Proof.
  intros [_ _ Hr _] Ht Hj Hne [Hc|Hn].
  - destruct (is_reading (c_pc c0)) eqn:E; [|done]. exfalso.
    rewrite (bind_split reading _ _ _ Ht) in Hr. rewrite length_app in Hr. unfold reading at 1 in Hr. rewrite Hc in Hr. simpl in Hr.
    assert (tt ∈ delete t (re_calls r) ≫= reading) as Hin.
    { apply list_elem_of_bind. exists c0. split; [unfold reading; rewrite E; by apply list_elem_of_singleton|].
      apply list_elem_of_lookup. destruct (decide (j < t)%nat).
      + exists j. by rewrite list_lookup_delete_lt.
      + exists (j - 1)%nat. rewrite list_lookup_delete_ge by lia. by replace (S (j - 1)) with j by lia. }
    destruct (delete t (re_calls r) ≫= reading); [by apply elem_of_nil in Hin|]. simpl in Hr. destruct (reader_active r); lia.
  - rewrite Hn in Hr. apply (reading_callers r Hn Hr). by eapply list_elem_of_lookup_2.
Qed.

Lemma reading_flag r t c : remote_ok r → re_calls r !! t = Some c → is_reading (c_pc c) = true → reader_active r = true.
Proof.
  intros Hok Ht Hc. destruct (reader_active r) eqn:E; [done|]. pose proof (ro_reader _ Hok) as Hr. rewrite E in Hr.
  rewrite (reading_callers r E Hr c) in Hc; [done|]. by eapply list_elem_of_lookup_2.
Qed.

Lemma flag_reading r : remote_ok r → reader_active r = true → ∃ t c i ms, re_calls r !! t = Some c ∧ c_pc c = PRead i ms.
Proof.
  intros Hok Hf. pose proof (ro_reader _ Hok) as Hr. rewrite Hf in Hr.
  assert (∃ u, u ∈ re_calls r ≫= reading) as [u Hu].
  { destruct (re_calls r ≫= reading) as [|u l]; [done|]. exists u. set_solver. }
  apply list_elem_of_bind in Hu as (c & Hu & Hc). apply list_elem_of_lookup in Hc as [t Ht].
  unfold reading in Hu. destruct (c_pc c) as [| |?|?|?|?|?|i ms|?|?|?|?|?|?|?|?] eqn:E; try by apply elem_of_nil in Hu.
  by exists t, c, i, ms.
Qed.

Lemma reader_child r : remote_ok r → reader_active r = true → is_Some (child r).
Proof.
  intros Hok Hf. destruct (flag_reading r Hok Hf) as (t & c & i & ms & Ht & Hc).
  pose proof (ro_callers _ Hok) as Hall. rewrite Forall_forall in Hall. specialize (Hall c (list_elem_of_lookup_2 _ _ _ Ht)).
  rewrite Hc in Hall. destruct Hall as [Hw Hq]. by destruct (quiet_hosted i r Hw Hq).
Qed.

Lemma len_held pc c : len (option_list (pc_slot pc)) = slots_held pc ∧ owned (mkCaller c pc) = option_list (pc_slot pc).
Proof. split; [unfold slots_held; by destruct (pc_slot pc)|done]. Qed.

Lemma step_remote_ok r t c pc' r' :
  remote_ok r → re_calls r !! t = Some c → step_ok r (c_pc c) r' pc' →
  remote_ok (upd_calls (<[t := mkCaller (c_call c) pc']> (re_calls r')) r').
Proof.
  intros Hok Ht [Hcs Hpc Hoth Hslot Hread Hfl]. pose proof Hok as [Hnd Hall Hr Hf]. rewrite Forall_forall in Hall.
  pose proof (lookup_lt_Some _ _ _ Ht) as Hlt.
  assert (∀ j c0, j ≠ t → re_calls r !! j = Some c0 → caller_ok r' (c_pc c0)) as Hothers.
  { intros j c0 Hne Hj. apply Hoth; [apply Hall; by eapply list_elem_of_lookup_2|by eapply other_slots|by eapply other_readers]. }
  split; cbn [re_calls upd_calls]; rewrite Hcs.
  - rewrite (bind_insert owned _ _ _ _ Ht). rewrite (bind_split owned _ _ _ Ht) in Hnd.
    apply NoDup_app in Hnd as (Hnd1 & Hdis & Hnd2). unfold owned at 1. cbn [c_pc].
    destruct Hslot as [->|[->|[Hnone Hfresh]]]; [done|by apply NoDup_app|].
    apply NoDup_app. split_and!; [destruct (pc_slot pc'); [apply NoDup_singleton|constructor]| |done].
    intros i Hi Hin. destruct (pc_slot pc') as [k|] eqn:Ek; [|by apply elem_of_nil in Hi].
    apply list_elem_of_singleton in Hi as ->. apply list_elem_of_bind in Hin as (c0 & Hin & Hc0).
    unfold owned in Hin. destruct (pc_slot (c_pc c0)) as [k'|] eqn:Ek'; [|by apply elem_of_nil in Hin].
    apply list_elem_of_singleton in Hin as ->. apply (Hfresh k' (c_pc c0)); [done| |done]. apply Hall.
    rewrite (delete_Permutation _ _ _ Ht). apply elem_of_cons. by right.
  - apply Forall_forall. intros c0 Hc0. apply list_elem_of_lookup in Hc0 as [j Hj].
    assert (caller_ok r' (c_pc c0)) as H0.
    { apply list_lookup_insert_Some in Hj as [(-> & <- & _)|[Hne Hj]]; [done|by eapply Hothers]. }
    by destruct (c_pc c0).
  - rewrite (bind_insert reading _ _ _ _ Ht), length_app. rewrite (bind_split reading _ _ _ Ht), length_app in Hr.
    unfold reading at 1. unfold reading at 1 in Hr. cbn [c_pc reader_active upd_calls] in *.
    destruct (is_reading pc'), (is_reading (c_pc c)), (reader_active r), (reader_active r'); simpl in *; lia.
  - unfold len in *. rewrite (bind_insert owned _ _ _ _ Ht). rewrite (bind_split owned _ _ _ Ht) in Hf.
    rewrite length_app in Hf |- *. cbn [in_flight upd_calls].
    destruct (len_held pc' (c_call c)) as [Hl ->]. destruct (len_held (c_pc c) (c_call c)) as [Hl' _].
    unfold owned at 1 in Hf. unfold len in *. lia.
Qed.

Lemma exec_remote_ok avail l r r' : remote_ok r → exec_remote avail l r = Some r' → remote_ok r'.
Proof.
  intros Hok. destruct l as [c|buf|t env]; cbn [exec_remote].
  - intros [= <-]. pose proof Hok as [Hnd Hall Hr Hf]. split; cbn [re_calls upd_calls reader_active in_flight]; rewrite ?bind_app; simpl; rewrite ?app_nil_r; try done.
    apply Forall_app. split; [|by repeat constructor]. eapply Forall_impl; [exact Hall|]. intros c0 H0. cbn beta in *. by destruct (c_pc c0).
  - destruct (child r); [|done]. intros [= <-]. by destruct Hok as [Hnd Hall Hr Hf].
  - destruct (re_calls r !! t) as [c|] eqn:Ht; [|done]. destruct (caller_step _ _ _ _ _ _) as [[pc' r1]|] eqn:Es; [|done].
    intros [= <-]. eapply step_remote_ok; [done|done|]. eapply caller_step_ok; [| | |exact Es].
    + pose proof (ro_callers _ Hok) as Hall. rewrite Forall_forall in Hall. apply Hall. by eapply list_elem_of_lookup_2.
    + by apply reader_child.
    + by eapply reading_flag.
Qed.

Lemma run_remote_ok avail ls r r' : remote_ok r → run_remote avail ls r = Some r' → remote_ok r'.
Proof.
  revert r. induction ls as [|l ls IH]; intros r Hok; simpl; [by intros [= <-]|].
  destruct (exec_remote avail l r) as [r1|] eqn:E; [|done]. apply IH. by eapply exec_remote_ok.
Qed.

(** A started engine without callers. *)
Lemma start_remote_ok o resolved shm_env avail env p os w writes res r :
  start_remote_engine o resolved shm_env avail env p os w writes = Some (res, r) → remote_ok r.
Proof.
  unfold start_remote_engine. intros H. apply start_rel in H as [Hr _].
  pose proof (er_calls _ _ Hr) as Hc. pose proof (er_reader _ _ Hr) as Hrd. pose proof (er_flight _ _ Hr) as Hf.
  simpl in *. split; rewrite Hc; simpl; [constructor|constructor|by rewrite Hrd|done].
Qed.

(** *** What the invariant gives *)

Lemma ok_caller r t c : remote_ok r → re_calls r !! t = Some c → caller_ok r (c_pc c).
Proof.
  intros Hok Ht. pose proof (ro_callers _ Hok) as Hall. rewrite Forall_forall in Hall. apply Hall. by eapply list_elem_of_lookup_2.
Qed.

Lemma one_reader r t1 c1 i1 ms1 t2 c2 i2 ms2 :
  remote_ok r → re_calls r !! t1 = Some c1 → re_calls r !! t2 = Some c2 →
  c_pc c1 = PRead i1 ms1 → c_pc c2 = PRead i2 ms2 → t1 = t2.
Proof.
  intros Hok H1 H2 Hp1 Hp2. destruct (decide (t1 = t2)) as [|Hne]; [done|].
  assert (is_reading (c_pc c2) = false) as Hf; [|by rewrite Hp2 in Hf].
  eapply (other_readers r t1); [done|done|done|congruence|left; by rewrite Hp1].
Qed.

(** C11. No wake-up is lost and nobody reads from a host that is gone.  In any
    state that callers of a remote engine can reach, at most one of them reads
    the pipe, and the host it reads from is running and is the one its own
    request went to; a caller that sleeps and was not notified has no frame and no error waiting
    for it, and another caller is reading, which will notify it. *)
Theorem sleeping_caller_has_reader o resolved shm_env avail env p os w writes res r0 ls r :
  start_remote_engine o resolved shm_env avail env p os w writes = Some (res, r0) →
  run_remote avail ls r0 = Some r →
  (∀ t1 c1 i1 ms1 t2 c2 i2 ms2, re_calls r !! t1 = Some c1 → re_calls r !! t2 = Some c2 →
     c_pc c1 = PRead i1 ms1 → c_pc c2 = PRead i2 ms2 → t1 = t2) ∧
  (∀ t c i ms, re_calls r !! t = Some c → c_pc c = PRead i ms →
     is_Some (child r) ∧ s_generation (slot_at i r) = generation r) ∧
  (∀ t c i, re_calls r !! t = Some c → c_pc c = PSleep i → s_notified (slot_at i r) = false →
     s_inbox (slot_at i r) = [] ∧ s_failed (slot_at i r) = false ∧
     ∃ t' c' i' ms, re_calls r !! t' = Some c' ∧ c_pc c' = PRead i' ms).
Proof.
  intros Hs Hr. pose proof (run_remote_ok _ _ _ _ (start_remote_ok _ _ _ _ _ _ _ _ _ _ _ Hs) Hr) as Hok. split_and!.
  - intros. by eapply one_reader.
  - intros t c i ms Ht Hp. pose proof (ok_caller _ _ _ Hok Ht) as Hc. rewrite Hp in Hc. destruct Hc as [Hw Hq]. by apply quiet_hosted.
  - intros t c i Ht Hp Hn. pose proof (ok_caller _ _ _ Hok Ht) as Hc. rewrite Hp in Hc. destruct Hc as [_ [?|[[Hi Hf] Hra]]]; [congruence|].
    split_and!; [done|done|]. by apply flag_reading.
Qed.

(** C18. No call is left behind.  In any state that callers of a remote engine
    can reach, a call that is waiting for its answer is on the host that runs
    now, or it already has its error or its final frame; calls never share a
    slot; and [in_flight] counts the calls that have one. *)
Theorem no_call_left_behind o resolved shm_env avail env p os w writes res r0 ls r :
  start_remote_engine o resolved shm_env avail env p os w writes = Some (res, r0) →
  run_remote avail ls r0 = Some r →
  (∀ t c i, re_calls r !! t = Some c → c_pc c = PHead i ∨ c_pc c = PSleep i →
     s_failed (slot_at i r) = true ∨ s_final_queued (slot_at i r) = true ∧ s_inbox (slot_at i r) ≠ [] ∨
     s_generation (slot_at i r) = generation r ∧ is_Some (child r)) ∧
  (∀ t1 c1 t2 c2 i, re_calls r !! t1 = Some c1 → re_calls r !! t2 = Some c2 →
     pc_slot (c_pc c1) = Some i → pc_slot (c_pc c2) = Some i → t1 = t2) ∧
  in_flight r = len (re_calls r ≫= owned).
Proof.
  intros Hs Hr. pose proof (run_remote_ok _ _ _ _ (start_remote_ok _ _ _ _ _ _ _ _ _ _ _ Hs) Hr) as Hok. split_and!.
  - intros t c i Ht Hp. assert (waits no_bytes i r) as (s & Hsl & _ & Hfr & Hh).
    { pose proof (ok_caller _ _ _ Hok Ht) as Hc. destruct Hp as [Hp|Hp]; rewrite Hp in Hc; [done|by destruct Hc]. }
    rewrite (slot_at_some _ _ _ Hsl). destruct Hh as [Hset|?]; [|by right; right].
    unfold settled in Hset. apply orb_true_iff in Hset as [?|Hq]; [by left|]. right. left. split; [done|].
    apply inbox_frames in Hfr as (bs & Hb & Hi & Hfq). intros Hnil. rewrite Hi in Hnil.
    assert (bs = []) as -> by (by apply no_frames). simpl in Hfq. congruence.
  - intros t1 c1 t2 c2 i H1 H2 Hp1 Hp2. destruct (decide (t1 = t2)) as [|Hne]; [done|]. exfalso.
    eapply (other_slots r t1 c1 t2 c2 (ro_slots _ Hok) H1 H2 (not_eq_sym Hne)); done.
  - apply Hok.
Qed.

Lemma down_slots f msg r i :
  slots (record_failure msg (reap (fail_in_flight f r))) !! i =
  (λ s, if pending_on (generation r) s then slot_fail true (f i) true s else s) <$> slots r !! i.
Proof.
  unfold record_failure. rewrite (sc_slots _ _ (log_same LogError msg (upd_failure msg _ (reap (fail_in_flight f r))))).
  cbn [slots upd_failure reap upd_down clear_segments upd_segments upd_shm fail_in_flight upd_slots].
  by rewrite list_lookup_imap.
Qed.

Definition died_slot (msg : string) (g : Z) s : Slot W :=
  if pending_on g s then slot_fail true (make_error EngineCrashed msg) true s else s.

Lemma host_died_state during how r :
  child (host_died during how r).2 = None ∧ generation (host_died during how r).2 = u64 (generation r + 1) ∧
  ∀ j, slots (host_died during how r).2 !! j = died_slot (died_message during how r) (generation r) <$> slots r !! j.
Proof.
  unfold host_died, fail_all. cbn [snd]. split_and!; [apply down_child..|]. intros j. rewrite down_slots.
  destruct (slots r !! j) as [s|]; [|done]. simpl. unfold died_slot. by repeat case_bool_decide.
Qed.

(** The state once the reader gave up. *)
Lemma stopped_state cl i r :
  child (upd_calls cl (stop_reading i r).2) = child r ∧ generation (upd_calls cl (stop_reading i r).2) = generation r ∧
  ∀ j, slots (upd_calls cl (stop_reading i r).2) !! j = (λ s, if s_active s then slot_notified true s else s) <$> slots r !! j.
Proof. split_and!; [done..|]. intros j. simpl. by rewrite list_lookup_fmap. Qed.

Lemma pending_quiet i r s :
  slots r !! i = Some s → s_active s = true → frames_in [] s → s_inbox s = [] → s_failed s = false →
  s_generation s = generation r → pending_on (generation r) s = true.
Proof.
  intros Hs Ha Hfr Hi Hf Hg. apply inbox_frames in Hfr as (bs & Hb & Hi' & Hq). rewrite Hi in Hi'.
  assert (bs = []) as -> by (by apply no_frames). unfold pending_on. by rewrite Ha, Hf, Hq, Hg, Z.eqb_refl.
Qed.

(** C19. The end of a host reaches every call.  When the reader finds the pipe
    closed, then after its step the host is gone, and every call of any caller
    that was in flight on it has an error or its final frame. *)
Theorem host_death_settles_every_call o resolved shm_env avail env p os w writes res r0 ls r t c i ms e now r' :
  start_remote_engine o resolved shm_env avail env p os w writes = Some (res, r0) →
  run_remote avail ls r0 = Some r → re_calls r !! t = Some c → c_pc c = PRead i ms →
  exec_remote avail (RStep t (mkEnv now e (Ok []) [(now, Closed)])) r = Some r' →
  child r' = None ∧ generation r' = u64 (generation r + 1) ∧
  (∀ j s s', slots r !! j = Some s → s_active s = true → s_generation s = generation r → slots r' !! j = Some s' →
     (s_failed s' || s_final_queued s') = true) ∧
  s_failed (slot_at i r') = true ∧ code (s_error (slot_at i r')) = EngineCrashed.
Proof.
  intros Hs Hr Ht Hp. pose proof (run_remote_ok _ _ _ _ (start_remote_ok _ _ _ _ _ _ _ _ _ _ _ Hs) Hr) as Hok.
  pose proof (ok_caller _ _ _ Hok Ht) as Hc. rewrite Hp in Hc. destruct Hc as [Hw Hq].
  destruct (quiet_hosted i r Hw Hq) as [_ Hgen]. destruct Hw as (s & Hsl & Ha & Hfr & _), Hq as [Hin Hf].
  assert (pending_on (generation r) s = true) as Hpend.
  { rewrite (slot_at_some _ _ _ Hsl) in *. by eapply pending_quiet. }
  cbn [exec_remote]. rewrite Ht, Hp. cbn [caller_step env_reads after_read env_exit].
  destruct (host_died_state (during_of (c_call c)) e r) as (Hch & Hg & Hd). revert Hch Hg Hd.
  generalize (host_died (during_of (c_call c)) e r).2. intros d Hch Hg Hd. rewrite (surjective_pairing (stop_reading i d)).
  intros Hr'%(inj Some). destruct (stopped_state (<[t:=mkCaller (c_call c) (stop_reading i d).1]> (re_calls (stop_reading i d).2)) i d) as (Hch' & Hg' & Hd').
  rewrite Hr' in Hch', Hg', Hd'. rewrite Hch', Hg'. split; [done|]. split; [done|].
  assert (∀ j s, slots r !! j = Some s → s_active s = true → slots r' !! j = Some (slot_notified true (died_slot (died_message (during_of (c_call c)) e r) (generation r) s))) as Hall.
  { intros j sj Hj Haj. rewrite Hd', Hd, Hj. simpl. unfold died_slot. destruct (pending_on _ sj); simpl; by rewrite Haj. }
  split.
  - intros j sj s' Hj Haj Hgj. rewrite (Hall j sj Hj Haj). intros [= <-]. unfold died_slot.
    destruct (pending_on _ sj) eqn:Ep; [done|]. unfold pending_on in Ep. rewrite Haj, Hgj, Z.eqb_refl in Ep.
    simpl. by destruct (s_failed sj), (s_final_queued sj).
  - rewrite (slot_at_some _ _ _ (Hall i s Hsl Ha)). unfold died_slot. by rewrite Hpend.
Qed.

(** *** A call with an error returns *)

Lemma exec_caller avail env r t c pc' r1 :
  re_calls r !! t = Some c → caller_step avail env t (c_call c) (c_pc c) r = Some (pc', r1) →
  exec_remote avail (RStep t env) r = Some (upd_calls (<[t := mkCaller (c_call c) pc']> (re_calls r1)) r1).
Proof. intros Ht Hs. cbn [exec_remote]. by rewrite Ht, Hs. Qed.

Lemma at_own_place (r : Re W) t c c' : re_calls r !! t = Some c → <[t := c']> (re_calls r) !! t = Some c'.
Proof. intros Ht. apply list_lookup_insert_eq. by eapply lookup_lt_Some. Qed.

Lemma failed_quiet_returns avail env r t c i :
  re_calls r !! t = Some c → c_pc c = PHead i → s_inbox (slot_at i r) = [] → s_failed (slot_at i r) = true →
  ∃ r' c', run_remote avail [RStep t env; RStep t env] r = Some r' ∧ re_calls r' !! t = Some c' ∧
    c_pc c' = PDone (outcome_of (c_call c) (s_error (slot_at i r))).
Proof.
  intros Ht Hp Hi Hf. cbn [run_remote]. rewrite (exec_caller avail env r t c (PFail i (s_error (slot_at i r))) r Ht); [|rewrite Hp; cbn [caller_step]; unfold wait_head; by rewrite Hi, Hf].
  set (r1 := upd_calls _ r). pose proof (at_own_place r t c (mkCaller (c_call c) (PFail i (s_error (slot_at i r)))) Ht) as Ht1.
  rewrite (exec_caller avail env r1 t _ _ _ Ht1 eq_refl). eexists _, _. split; [done|].
  assert (re_calls (unlock_serial t (release_slot i r1)) = re_calls r1) as Hc.
  { rewrite (sc_calls _ _ (unlock_same t (release_slot i r1))).
    exact (so_calls _ _ _ _ (release_ok i (PFail i (mkError OkCode "")) r1 (PDone (ResetTo (Ok tt))) eq_refl eq_refl eq_refl I eq_refl)). }
  cbn [re_calls upd_calls]. rewrite Hc. split; [eapply at_own_place; exact Ht1|done].
Qed.

(** Once the callbacks ran, the call has its final frame or looks again. *)
Lemma processed_step avail env r t c i s :
  re_calls r !! t = Some c → c_pc c = PProcess i → slots r !! i = Some s →
  ∃ r' c', exec_remote avail (RStep t env) r = Some r' ∧ re_calls r' !! t = Some c' ∧ c_call c' = c_call c ∧
    (c_pc c' = PFinal i ∨
     c_pc c' = PHead i ∧ ∃ s', slots r' !! i = Some s' ∧ s_inbox s' = s_inbox s ∧ s_failed s' = s_failed s ∧ s_error s' = s_error s).
Proof.
  intros Ht Hp Hs. pose proof (process_slot (length (s_work s)) (s_work s) s (re_world r)) as Hslot.
  destruct (process (length (s_work s)) (s_work s) s (re_world r)) as [[final s2] w2] eqn:Epr. cbn [fst snd] in Hslot.
  set (r2 := upd_world w2 (on_slot i (λ _, s2) r)).
  assert (caller_step avail env t (c_call c) (c_pc c) r = Some (if final then PFinal i else PHead i, r2)) as E.
  { rewrite Hp. cbn [caller_step]. unfold run_callbacks. rewrite (slot_at_some _ _ _ Hs), Epr. done. }
  eexists _, (mkCaller (c_call c) (if final then PFinal i else PHead i)). split; [exact (exec_caller avail env r t c _ _ Ht E)|].
  split; [exact (at_own_place r t c _ Ht)|]. split; [done|]. destruct final; [by left|]. right. split; [done|]. exists s2.
  split; [simpl; by rewrite list_lookup_alter_eq, Hs|]. by destruct Hslot as [->|(? & ? & ->)].
Qed.

Lemma failed_head_returns avail env r t c i s :
  re_calls r !! t = Some c → c_pc c = PHead i → slots r !! i = Some s → s_failed s = true →
  ∃ n r' c', (n ≤ 4)%nat ∧ run_remote avail (replicate n (RStep t env)) r = Some r' ∧ re_calls r' !! t = Some c' ∧
    (c_pc c' = PDone (outcome_of (c_call c) (s_error s)) ∨ c_pc c' = PFinal i).
Proof.
  intros Ht Hp Hsl Hf. pose proof (slot_at_some _ _ _ Hsl) as Hat. destruct (bool_decide (s_inbox s = [])) eqn:Ei.
  { apply bool_decide_eq_true_1 in Ei. destruct (failed_quiet_returns avail env r t c i Ht Hp) as (r' & c' & H1 & H2 & H3); [by rewrite Hat..|].
    rewrite Hat in H3. exists 2%nat, r', c'. split_and!; [lia|done|done|by left]. }
  set (r1 := upd_calls (<[t := mkCaller (c_call c) (PProcess i)]> (re_calls r)) (on_slot i (slot_inbox [] (s_inbox s)) r)).
  assert (exec_remote avail (RStep t env) r = Some r1) as E1.
  { rewrite (exec_caller avail env r t c (PProcess i) (on_slot i (slot_inbox [] (s_inbox s)) r) Ht); [done|].
    rewrite Hp. cbn [caller_step]. unfold wait_head. by rewrite Hat, Ei. }
  destruct (processed_step avail env r1 t (mkCaller (c_call c) (PProcess i)) i (slot_inbox [] (s_inbox s) s)) as (r2 & c2 & E2 & Ht2 & Hc2 & Hpc2).
  { exact (at_own_place r t c _ Ht). }
  { done. }
  { simpl. by rewrite list_lookup_alter_eq, Hsl. }
  destruct Hpc2 as [Hpc2|(Hpc2 & s2 & Hs2 & Hi2 & Hf2 & He2)].
  - exists 2%nat, r2, c2. split_and!; [lia| |done|by right]. cbn [replicate run_remote]. by rewrite E1, E2.
  - destruct (failed_quiet_returns avail env r2 t c2 i Ht2 Hpc2) as (r' & c' & Hrun & Hl & Hpc); [by rewrite (slot_at_some _ _ _ Hs2), ?Hi2, ?Hf2..|].
    rewrite (slot_at_some _ _ _ Hs2), He2, Hc2 in Hpc. exists 4%nat, r', c'. split_and!; [lia| |done|by left].
    cbn [replicate run_remote] in *. rewrite E1, E2. exact Hrun.
Qed.

(** A call inside [wait]: at the head of its loop, asleep, in its callbacks, or
    reading the pipe. *)
Definition in_wait (pc : Pc) (i : nat) : Prop := pc = PHead i ∨ pc = PSleep i ∨ pc = PProcess i ∨ ∃ ms, pc = PRead i ms.

(** C20. An error reaches its caller.  From any reachable state, a call inside
    [wait] whose slot was failed needs at most five steps of its own, with any
    answers of the environment and without help from the host or from other
    callers, to be done with that error, or to hold its final frame when that
    had arrived before. *)
Theorem failed_call_returns o resolved shm_env avail env p os w writes res r0 ls r t c i env' :
  start_remote_engine o resolved shm_env avail env p os w writes = Some (res, r0) →
  run_remote avail ls r0 = Some r → re_calls r !! t = Some c → in_wait (c_pc c) i → s_failed (slot_at i r) = true →
  ∃ n r' c', (n ≤ 5)%nat ∧ run_remote avail (replicate n (RStep t env')) r = Some r' ∧ re_calls r' !! t = Some c' ∧
    (c_pc c' = PDone (outcome_of (c_call c) (s_error (slot_at i r))) ∨ c_pc c' = PFinal i).
Proof.
  intros Hs Hr Ht Hp Hf. pose proof (run_remote_ok _ _ _ _ (start_remote_ok _ _ _ _ _ _ _ _ _ _ _ Hs) Hr) as Hok.
  pose proof (ok_caller _ _ _ Hok Ht) as Hc. destruct Hp as [Hp|[Hp|[Hp|[ms Hp]]]]; rewrite Hp in Hc.
  - destruct Hc as (s & Hsl & _). rewrite (slot_at_some _ _ _ Hsl) in *.
    destruct (failed_head_returns avail env' r t c i s Ht Hp Hsl Hf) as (n & r' & c' & Hn & Hrest). exists n, r', c'. split; [lia|done].
  - destruct Hc as [(s & Hsl & _) _]. rewrite (slot_at_some _ _ _ Hsl) in *.
    set (r1 := upd_calls (<[t := mkCaller (c_call c) (PHead i)]> (re_calls r)) r).
    assert (exec_remote avail (RStep t env') r = Some r1) as E1 by (apply exec_caller; [done|by rewrite Hp]).
    destruct (failed_head_returns avail env' r1 t (mkCaller (c_call c) (PHead i)) i s) as (n & r' & c' & Hn & Hrun & Hrest);
      [exact (at_own_place r t c _ Ht)|done|done|done|].
    exists (S n), r', c'. split; [lia|]. split; [|done]. cbn [replicate run_remote]. by rewrite E1.
  - destruct Hc as (s & Hsl & _). rewrite (slot_at_some _ _ _ Hsl) in *.
    destruct (processed_step avail env' r t c i s Ht Hp Hsl) as (r1 & c1 & E1 & Ht1 & Hc1 & [Hpc1|(Hpc1 & s1 & Hs1 & _ & Hf1 & He1)]).
    { exists 1%nat, r1, c1. split_and!; [lia| |done|by right]. cbn [replicate run_remote]. by rewrite E1. }
    destruct (failed_head_returns avail env' r1 t c1 i s1) as (n & r' & c' & Hn & Hrun & Hl & Hpc); [done|done|done|by rewrite Hf1|].
    rewrite Hc1, He1 in Hpc. exists (S n), r', c'. split; [lia|]. split; [|done]. cbn [replicate run_remote]. by rewrite E1.
  - destruct Hc as [_ [_ Hq]]. congruence.
Qed.

End Theory.

(** ** A sample run *)

Module RemoteSample.

Definition options : RemoteOptions (list (list byte)) := mkRemoteOptions "" "echo.so" "{}" 0 2000 3 true 65536 None.

Definition engine : agent_engine_v1 unit :=
  mkEngine 2 96 (Some "echo") None 1 1 None None None None None None None.

(** A segment of the host's with the four bytes of its response. *)
Definition shm : ShmOs := mkShmOs {[ "acpp-h7-0" := 0%nat ]} {[ 0%nat := bytes "data" ]} ∅ 1 [].

Definition at_time (now : Z) (reads : list PipeRead) : Env := mkEnv now (mkExit 9 137) (Ok []) ((λ got, (now, got)) <$> reads).

Definition hello : list byte := ready_frame engine true 7 ++ empty_frame MsgCreated 0.

Definition started : Re (list (list byte)) :=
  match start_remote_engine options "/bin/agent-engine-host" None true (at_time 0 [Data hello]) (mkProc 5 0) shm [] [] with
  | Some (_, r) => r
  | None => new_engine options (mkProc 5 0) shm [] []
  end.

Definition request : agent_request (list (list byte)) :=
  mkAgentRequest 1 0 (Some [mkAgentMessage (str_of "user") None None None]) None None None
    (Some (λ _ b w, w ++ [b])) None None.

Definition arena : Arena := Arena_new 4096 4096.

(** Two calls: the first reads, the second sleeps. *)
Definition both : list (RemoteLabel (list (list byte))) :=
  [RCall (CRun request arena); RCall (CRun request arena)] ++
  (RStep 0 <$> replicate 5 (at_time 1 [])) ++ (RStep 1 <$> replicate 5 (at_time 2 [])).

Definition waiting : Re (list (list byte)) := default started (run_remote true both started).

(** The host answers the first call through shared memory, then dies while the
    first caller is about to decode the answer and the second one reads. *)
Definition answer : list byte :=
  (encode MsgChunk 1 [w_u32 0; w_blob (Some (bytes "hi")) 2]).1 ++
  (encode MsgResponse 1 [w_shm_header (str_of "acpp-h7-0") 4 None;
     w_response (mkAgentResponse (mkAgentMessage (str_of "assistant") None None None) 1 2)]).1.

Definition death : list (RemoteLabel (list (list byte))) :=
  (RStep 0 <$> [at_time 3 [Data answer]; at_time 3 []; at_time 3 []; at_time 3 []; at_time 3 []]) ++
  (RStep 1 <$> [at_time 4 []; at_time 4 []; at_time 4 [Closed]]).

Definition after : Re (list (list byte)) := default started (run_remote true (both ++ death) started).

End RemoteSample.

Lemma sample_started :
  start_remote_engine RemoteSample.options "/bin/agent-engine-host" None true
    (RemoteSample.at_time 0 [Data RemoteSample.hello]) (mkProc 5 0) RemoteSample.shm [] [] = Some (Ok tt, RemoteSample.started).
Proof. vm_compute. reflexivity. Qed.

Lemma sample_waiting : run_remote true RemoteSample.both RemoteSample.started = Some RemoteSample.waiting.
Proof. vm_compute. reflexivity. Qed.

Lemma sample_after : run_remote true (RemoteSample.both ++ RemoteSample.death) RemoteSample.started = Some RemoteSample.after.
Proof. vm_compute. reflexivity. Qed.

Definition sample_call : Call (list (list byte)) := CRun RemoteSample.request RemoteSample.arena.

Lemma sleeping_caller_has_reader_witness :
  re_calls RemoteSample.waiting !! 1%nat = Some (mkCaller sample_call (PSleep 1)) ∧
  s_notified (slot_at 1 RemoteSample.waiting) = false ∧ s_inbox (slot_at 1 RemoteSample.waiting) = [].
Proof.
  assert (re_calls RemoteSample.waiting !! 1%nat = Some (mkCaller sample_call (PSleep 1))) as Hc by (vm_compute; reflexivity).
  assert (s_notified (slot_at 1 RemoteSample.waiting) = false) as Hn by (vm_compute; reflexivity).
  split; [exact Hc|]. split; [exact Hn|].
  destruct (sleeping_caller_has_reader _ _ _ _ _ _ _ _ _ _ _ _ _ sample_started sample_waiting) as (_ & _ & H).
  destruct (H 1%nat _ 1%nat Hc eq_refl Hn) as [Hi _]. exact Hi.
Defined.

Lemma no_call_left_behind_witness :
  in_flight RemoteSample.waiting = 2 ∧ len (re_calls RemoteSample.waiting ≫= owned) = 2.
Proof.
  destruct (no_call_left_behind _ _ _ _ _ _ _ _ _ _ _ _ _ sample_started sample_waiting) as (_ & _ & H).
  assert (in_flight RemoteSample.waiting = 2) as Hf by (vm_compute; reflexivity).
  split; [exact Hf|]. rewrite <-H. exact Hf.
Defined.

Lemma host_death_settles_every_call_witness :
  ∃ r', exec_remote true (RStep 0 (mkEnv 9 (mkExit 0 1) (Ok []) [(9, Closed)])) RemoteSample.waiting = Some r' ∧
    child r' = None ∧ s_failed (slot_at 1 r') = true.
Proof.
  destruct (exec_remote true (RStep 0 (mkEnv 9 (mkExit 0 1) (Ok []) [(9, Closed)])) RemoteSample.waiting) as [r'|] eqn:E;
    [|vm_compute in E; discriminate].
  exists r'. split; [reflexivity|].
  assert (re_calls RemoteSample.waiting !! 0%nat = Some (mkCaller sample_call (PRead 0 10))) as Hc by (vm_compute; reflexivity).
  destruct (host_death_settles_every_call _ _ _ _ _ _ _ _ _ _ _ _ _ 0 _ 0 10 (mkExit 0 1) 9 r' sample_started sample_waiting Hc eq_refl E)
    as (Hch & _ & _ & _ & _).
  split; [exact Hch|]. vm_compute in E. injection E as <-. reflexivity.
Defined.

Lemma failed_call_returns_witness :
  s_failed (slot_at 1 RemoteSample.after) = true ∧
  ∃ n r' c', (n ≤ 5)%nat ∧ run_remote true (replicate n (RStep 1 (RemoteSample.at_time 6 []))) RemoteSample.after = Some r' ∧
    re_calls r' !! 1%nat = Some c' ∧
    (c_pc c' = PDone (RanTo (Fail (s_error (slot_at 1 RemoteSample.after)))) ∨ c_pc c' = PFinal 1).
Proof.
  assert (s_failed (slot_at 1 RemoteSample.after) = true) as Hf by (vm_compute; reflexivity).
  assert (re_calls RemoteSample.after !! 1%nat = Some (mkCaller sample_call (PHead 1))) as Hc by (vm_compute; reflexivity).
  split; [exact Hf|].
  exact (failed_call_returns _ _ _ _ _ _ _ _ _ _ _ _ _ 1 _ 1 (RemoteSample.at_time 6 []) sample_started sample_after Hc (or_introl eq_refl) Hf).
Defined.

(** A response in shared memory is lost with its host: the host dies while one
    caller decodes a response that points into a segment of the host's, the
    reading caller unmaps the segments of the host, and the first one reads
    through a pointer to a segment that is gone. *)
Lemma dead_host_takes_borrowed_response_away :
  s_response_shm (slot_at 0 RemoteSample.after) = Some (mkSegment (Some 1%nat) 4 "acpp-h7-0") ∧
  response_segments RemoteSample.after = [] ∧
  ∃ r', exec_remote true (RStep 0 (RemoteSample.at_time 5 [])) RemoteSample.after = Some r' ∧
    re_calls r' !! 0%nat = Some (mkCaller sample_call (Crashed 0)).
Proof.
  split; [vm_compute; reflexivity|]. split; [vm_compute; reflexivity|].
  destruct (exec_remote true (RStep 0 (RemoteSample.at_time 5 [])) RemoteSample.after) as [r'|] eqn:E; [|vm_compute in E; discriminate].
  exists r'. split; [reflexivity|]. vm_compute in E. injection E as <-. reflexivity.
Qed.
