(* ===== verification/EngineRemoteWire.v ===== *)
(** * Frames between the core and the engine host

    - [dispatch] against a reference that splits the byte stream into frames
      ([stream]): how the pipe cuts the stream into reads does not matter
      ([dispatch_ignores_chunking]), and a call gets exactly its own frames, in the
      order they were sent ([frames_reach_their_calls]).
    - the two ends composed: the request a caller encodes is the one the host
      decodes, and the response the host encodes is the one the caller decodes,
      with the payloads in the frame or in a shared segment ([run_frame_roundtrip],
      [response_frame_roundtrip]). *)
From stdpp Require Import base gmap strings list.
From Stdlib Require Import Lia ZArith.
From S2P Require Import Prelude Arena Text Session Sandbox Mcp EngineIpc EngineIpcTheory EngineShm EngineHost EngineRemote EngineRemoteTheory.

Local Open Scope Z_scope.
Local Arguments finish : simpl never.
Local Arguments calls : simpl never.
Local Arguments encode : simpl never.
Local Arguments le_value : simpl never.
Local Strategy expand [fst snd].

(** ** The stream *)

(** The whole frames at the front of a byte stream, what is left, and whether it
    starts with a header that announces too much. *)
Fixpoint split_stream (fuel : nat) (l : list byte) : list (list byte) * list byte * bool :=
  match fuel with
  | O => ([], l, false)
  | S fuel =>
      if len l <? kHeaderSize then ([], l, false)
      else if kMaxFrame <? h_size (read_header l) then ([], l, true)
      else if len l - kHeaderSize <? h_size (read_header l) then ([], l, false)
      else
        let total := (16 + Z.to_nat (h_size (read_header l)))%nat in
        let '(fs, rest, bad) := split_stream fuel (drop total l) in (take total l :: fs, rest, bad)
  end.

Definition stream (l : list byte) : list (list byte) * list byte * bool := split_stream (length l) l.

Lemma split_stream_fuel n l : (length l ≤ n)%nat → split_stream n l = stream l.
Proof.
  unfold stream. remember (length l) as k eqn:Hk. revert n l Hk. induction (lt_wf k) as [k _ IH]. intros n l -> Hn.
  destruct l as [|c l]; [by destruct n|]. destruct n as [|n]; [simpl in Hn; lia|]. cbn [length split_stream].
  set (l' := c :: l) in *. destruct (Z.ltb_spec (len l') kHeaderSize) as [|Hh]; [done|]. destruct (kMaxFrame <? _); [done|].
  destruct (len l' - kHeaderSize <? _); [done|]. set (total := (16 + Z.to_nat (h_size (read_header l')))%nat).
  assert (length (drop total l') ≤ length l)%nat as Hlen by (rewrite length_drop; subst total l'; simpl; lia).
  assert (length (drop total l') < length l')%nat as Hlt by (subst l'; simpl in *; lia).
  rewrite (IH _ Hlt n (drop total l') eq_refl), (IH _ Hlt (length l) (drop total l') eq_refl); [done|lia|simpl in Hn; subst l'; simpl in *; lia].
Qed.

Lemma stream_cons l :
  stream l =
    if len l <? kHeaderSize then ([], l, false)
    else if kMaxFrame <? h_size (read_header l) then ([], l, true)
    else if len l - kHeaderSize <? h_size (read_header l) then ([], l, false)
    else
      let total := (16 + Z.to_nat (h_size (read_header l)))%nat in
      let '(fs, rest, bad) := stream (drop total l) in (take total l :: fs, rest, bad).
Proof.
  rewrite <-(split_stream_fuel (S (length l)) l) by lia. cbn [split_stream].
  destruct (_ <? kHeaderSize); [done|]. destruct (kMaxFrame <? _); [done|]. destruct (_ - _ <? _); [done|]. cbv zeta.
  rewrite split_stream_fuel; [done|]. rewrite length_drop. lia.
Qed.

(** One frame at the front. *)
Lemma stream_frame b l :
  one_frame b → h_size (read_header b) ≤ kMaxFrame →
  stream (b ++ l) = let '(fs, rest, bad) := stream l in (b :: fs, rest, bad).
Proof.
  intros [H1 H2] Hm. rewrite stream_cons. unfold len in H1, H2. pose proof (header_size_nonneg b).
  rewrite read_header_app by (unfold len; lia).
  assert ((len (b ++ l) <? kHeaderSize) = false) as -> by (apply Z.ltb_ge; unfold len, kHeaderSize; rewrite length_app; lia).
  assert ((kMaxFrame <? h_size (read_header b)) = false) as -> by (apply Z.ltb_ge; lia).
  assert ((len (b ++ l) - kHeaderSize <? h_size (read_header b)) = false) as ->
    by (apply Z.ltb_ge; unfold len, kHeaderSize; rewrite length_app; lia).
  cbv zeta. rewrite drop_app_length', take_app_length' by lia. done.
Qed.

(** A stream without a whole frame. *)
Definition incomplete (l : list byte) : Prop :=
  len l < kHeaderSize ∨ (h_size (read_header l) ≤ kMaxFrame ∧ len l - kHeaderSize < h_size (read_header l)).

(** Frames that were written one after the other are the frames that are read. *)
Lemma stream_frames fs rest :
  Forall one_frame fs → Forall (λ b, h_size (read_header b) ≤ kMaxFrame) fs → incomplete rest →
  stream (mjoin fs ++ rest) = (fs, rest, false).
Proof.
  intros H1. induction H1 as [|b fs Hb H1 IH]; intros H2 Hr.
  - simpl. rewrite stream_cons. destruct Hr as [Hr|[Hm Hr]]; [by apply Z.ltb_lt in Hr as ->|].
    apply Z.ltb_ge in Hm as ->. apply Z.ltb_lt in Hr as ->. by destruct (_ <? kHeaderSize).
  - apply Forall_cons in H2 as [Hbm H2]. change (mjoin (b :: fs)) with (b ++ mjoin fs). rewrite <-app_assoc.
    rewrite stream_frame by done. by rewrite IH.
Qed.

Lemma stream_parts l fs rest bad :
  stream l = (fs, rest, bad) →
  l = mjoin fs ++ rest ∧ Forall one_frame fs ∧ Forall (λ b, h_size (read_header b) ≤ kMaxFrame) fs ∧ (bad = false → incomplete rest).
Proof.
  remember (length l) as k eqn:Hk. revert l fs rest bad Hk. induction (lt_wf k) as [k _ IH]. intros l fs rest bad ->.
  rewrite stream_cons. destruct (Z.ltb_spec (len l) kHeaderSize) as [H1|H1]; [intros [= <- <- <-]; split_and!; try done; by left|].
  destruct (Z.ltb_spec kMaxFrame (h_size (read_header l))) as [H2|H2]; [by intros [= <- <- <-]|].
  destruct (Z.ltb_spec (len l - kHeaderSize) (h_size (read_header l))) as [H3|H3]; [intros [= <- <- <-]; split_and!; try done; by right|].
  cbv zeta. set (total := (16 + Z.to_nat (h_size (read_header l)))%nat). destruct (stream (drop total l)) as [[fs' rest'] bad'] eqn:E.
  intros [= <- <- <-]. apply (IH (length (drop total l))) in E; [|rewrite length_drop; unfold len, kHeaderSize in H1; subst total; lia|done].
  destruct E as (Hl & Ho & Hm & Hb). split_and!; [|constructor; [by apply one_frame_take|done]|constructor; [|done]|done].
  - change (mjoin (take total l :: fs')) with (take total l ++ mjoin fs'). rewrite <-app_assoc, <-Hl. by rewrite take_drop.
  - subst total. by rewrite read_header_take by lia.
Qed.

(** Reading on where a first part ended. *)
Lemma stream_app l1 l2 fs1 rest1 :
  stream l1 = (fs1, rest1, false) →
  stream (l1 ++ l2) = let '(fs, rest, bad) := stream (rest1 ++ l2) in (fs1 ++ fs, rest, bad).
Proof.
  intros H. apply stream_parts in H as (-> & Ho & Hm & _). rewrite <-app_assoc.
  revert Hm. induction Ho as [|b fs Hb Ho IH]; intros Hm.
  - simpl. by destruct (stream _) as [[? ?] ?].
  - apply Forall_cons in Hm as [Hbm Hm]. change (mjoin (b :: fs)) with (b ++ mjoin fs). rewrite <-app_assoc.
    rewrite stream_frame by done. rewrite IH by done. destruct (stream (rest1 ++ l2)) as [[? ?] ?]; reflexivity.
Qed.

(** ** Dispatching a stream *)

Section Dispatch.
Context {W : Type}.
Implicit Types (r : Re W) (s : Slot W) (fs : list (list byte)).

Definition unread r : list byte := drop (rx_off r) (rx r).

(** The state without the bytes of the pipe. *)
Definition rest_of r : Re W := upd_rx [] 0 r.

Definition route_all fs r : Re W := foldl (λ r b, route (read_header b) b r) r fs.

(** Routing does not look at the buffer. *)
Lemma route_rx h b x n r : route h b (upd_rx x n r) = upd_rx x n (route h b r).
Proof.
  assert (∀ type id r, send_control type id (upd_rx x n r) = upd_rx x n (send_control type id r)) as Hsend.
  { intros type id r0. unfold send_control, write_frame. cbn [child generation upd_rx]. destruct (child r0) as [c|]; [|done].
    rewrite Z.eqb_refl. unfold write_stdin. cbn [re_writes upd_rx]. by destruct (re_writes r0) as [|[] ?]. }
  assert (∀ payload, drop_frame h payload (upd_rx x n r) = upd_rx x n (drop_frame h payload r)) as Hdrop.
  { intros payload. unfold drop_frame. destruct (negb _); [done|]. destruct (r_shm_header _) as [[[name size] retire] rd].
    destruct (negb _); [done|]. destruct name as [c|]; [|by destruct retire].
    destruct retire as [d|]; [|apply Hsend]. exact (Hsend MsgRelease (h_id h) (forget_response_segment (text_of (Some d)) r)). }
  unfold route. change (find_slot (h_id h) (upd_rx x n r)) with (find_slot (h_id h) r).
  destruct (find_slot (h_id h) r) as [i|]; [|apply Hdrop].
  change (slot_at i (upd_rx x n r)) with (slot_at i r). change (generation (upd_rx x n r)) with (generation r).
  destruct (_ && _); [done|apply Hdrop].
Qed.

Lemma route_keeps_rx h b r : rx (route h b r) = rx r ∧ rx_off (route h b r) = rx_off r.
Proof.
  assert (route h b r = upd_rx (rx r) (rx_off r) (route h b r)) as -> by (rewrite <-route_rx; by destruct r). done.
Qed.

Lemma rest_rx x n r : rest_of (upd_rx x n r) = rest_of r.
Proof. done. Qed.

Lemma route_all_rest fs r : rest_of (route_all fs r) = route_all fs (rest_of r).
Proof.
  revert r. induction fs as [|b fs IH]; intros r; [done|]. unfold route_all in *. cbn [foldl]. rewrite IH.
  assert (rest_of (route (read_header b) b r) = route (read_header b) b (rest_of r)) as -> by (symmetry; apply route_rx). done.
Qed.

(** The loop delivers the frames of the stream and leaves the rest. *)
Lemma dispatch_loop_stream fuel r fs rest bad :
  split_stream fuel (unread r) = (fs, rest, bad) →
  let '(fine, r') := dispatch_loop fuel r in
  fine = negb bad ∧ (bad = false → unread r' = rest ∧ rest_of r' = rest_of (route_all fs r) ∧ rx r' = rx r).
Proof.
  revert r fs rest bad. induction fuel as [|fuel IH]; intros r fs rest bad; cbn [split_stream dispatch_loop]; [by intros [= <- <- <-]|].
  fold (unread r). destruct (len (unread r) <? kHeaderSize); [by intros [= <- <- <-]|].
  destruct (kMaxFrame <? _); [by intros [= <- <- <-]|]. destruct (_ - _ <? _); [by intros [= <- <- <-]|]. cbv zeta.
  set (total := (16 + Z.to_nat (h_size (read_header (unread r))))%nat).
  destruct (split_stream fuel (drop total (unread r))) as [[fs' rest'] bad'] eqn:E. intros [= <- <- <-].
  destruct (route_keeps_rx (read_header (unread r)) (take total (unread r)) r) as [Hrx Hoff].
  set (r1 := upd_rx _ _ (route (read_header (unread r)) (take total (unread r)) r)).
  assert (unread r1 = drop total (unread r)) as Hu.
  { subst r1. unfold unread at 1. cbn [rx rx_off upd_rx]. rewrite Hrx, Hoff. unfold unread. by rewrite drop_drop. }
  specialize (IH r1 fs' rest' bad'). rewrite Hu in IH. specialize (IH E).
  destruct (dispatch_loop fuel r1) as [fine r']. destruct IH as [Hf Hok]. split; [done|]. intros Hb.
  destruct (Hok Hb) as (H1 & H2 & H3). split_and!; [done| |by rewrite H3].
  rewrite H2. unfold route_all. cbn [foldl]. fold (route_all fs' (route (read_header (take total (unread r))) (take total (unread r)) r)).
  rewrite read_header_take by lia. change (rest_of (route_all fs' r1) = rest_of (route_all fs' (route (read_header (unread r)) (take total (unread r)) r))).
  rewrite !route_all_rest. by subst r1.
Qed.

Lemma compact_unread r : unread (compact r) = unread r ∧ rest_of (compact r) = rest_of r.
Proof.
  unfold compact. destruct (Nat.ltb 0 (rx_off r) && Nat.eqb (rx_off r) (length (rx r))) eqn:E.
  - apply andb_true_iff in E as [_ E%Nat.eqb_eq]. split; [|done]. unfold unread. cbn [rx rx_off upd_rx]. rewrite E, drop_all. done.
  - destruct (_ <? _); [|done]. split; [|done]. done.
Qed.

Lemma dispatch_stream r fs rest bad :
  stream (unread r) = (fs, rest, bad) →
  let '(fine, r') := dispatch r in
  fine = negb bad ∧ (bad = false → unread r' = rest ∧ rest_of r' = rest_of (route_all fs r)).
Proof.
  intros H. rewrite <-(split_stream_fuel (length (rx r))) in H by (unfold unread; rewrite length_drop; lia).
  apply dispatch_loop_stream in H. unfold dispatch. destruct (dispatch_loop _ r) as [fine r']. destruct H as [-> Hok].
  destruct bad; [done|]. cbn [negb]. split; [done|]. intros _. destruct (Hok eq_refl) as (H1 & H2 & _).
  destruct (compact_unread r') as [-> ->]. done.
Qed.

(** A read that returned [b], and the dispatch after it. *)
Definition feed b r : bool * Re W := dispatch (upd_rx (rx r ++ b) (rx_off r) r).

Fixpoint feed_all (bs : list (list byte)) r : option (Re W) :=
  match bs with
  | [] => Some r
  | b :: bs => match feed b r with (true, r) => feed_all bs r | (false, _) => None end
  end.

(** What is left to read starts inside the buffer. *)
Definition rx_wf r : Prop := (rx_off r ≤ length (rx r))%nat.

Lemma unread_app b r : rx_wf r → unread (upd_rx (rx r ++ b) (rx_off r) r) = unread r ++ b.
Proof. intros Hr. unfold unread. cbn [rx rx_off upd_rx]. by rewrite drop_app_le. Qed.

Lemma dispatch_loop_wf fuel r r' : rx_wf r → dispatch_loop fuel r = (true, r') → rx_wf r'.
Proof.
  revert r. induction fuel as [|fuel IH]; intros r Hr; cbn [dispatch_loop]; [by intros [= <-]|]. fold (unread r).
  destruct (Z.ltb_spec (len (unread r)) kHeaderSize) as [|H1]; [by intros [= <-]|]. destruct (kMaxFrame <? _); [done|].
  destruct (Z.ltb_spec (len (unread r) - kHeaderSize) (h_size (read_header (unread r)))) as [|H2]; [by intros [= <-]|].
  cbv zeta. apply IH. set (total := (16 + Z.to_nat (h_size (read_header (unread r))))%nat).
  destruct (route_keeps_rx (read_header (unread r)) (take total (unread r)) r) as [Hx Ho].
  unfold rx_wf. cbn [rx rx_off upd_rx]. rewrite Hx, Ho. unfold len, kHeaderSize in *. subst total.
  pose proof (length_drop (rx r) (rx_off r)) as Hd. fold (unread r) in Hd. pose proof (header_size_nonneg (unread r)). lia.
Qed.

Lemma feed_wf b r r' : rx_wf r → feed b r = (true, r') → rx_wf r'.
Proof.
  intros Hr. unfold feed, dispatch. set (r0 := upd_rx _ _ r).
  assert (rx_wf r0) as H0 by (unfold rx_wf in *; simpl; rewrite length_app; lia).
  destruct (dispatch_loop _ r0) as [[] r1] eqn:E; [|done]. intros [= <-]. apply dispatch_loop_wf in E; [|done].
  unfold compact. destruct (_ && _); [by unfold rx_wf|]. destruct (_ <? _); [unfold rx_wf; simpl; lia|done].
Qed.

(** What one read and its dispatch do, by the stream. *)
Lemma feed_stream b r fs rest bad :
  rx_wf r → stream (unread r ++ b) = (fs, rest, bad) →
  let '(fine, r') := feed b r in
  fine = negb bad ∧ (bad = false → unread r' = rest ∧ rest_of r' = route_all fs (rest_of r)).
Proof.
  intros Hr Hs. unfold feed. rewrite <-unread_app in Hs by done. apply dispatch_stream in Hs.
  destruct (dispatch _) as [fine r']. destruct Hs as [Hf Hok]. split; [done|]. intros Hb. destruct (Hok Hb) as [H1 H2].
  split; [done|]. by rewrite H2, route_all_rest, rest_rx.
Qed.

(** C21. How the pipe cuts the host's bytes into reads does not matter: when
    the reads [bs] are dispatched one by one, then the calls, the segments,
    the frames written to the host and the bytes that stay unread are those of one read of all
    the bytes. *)
Theorem dispatch_ignores_chunking bs b r r1 :
  rx_wf r → feed_all (b :: bs) r = Some r1 →
  ∃ r2, feed (b ++ mjoin bs) r = (true, r2) ∧ unread r2 = unread r1 ∧ rest_of r2 = rest_of r1.
Proof.
  revert b r r1. induction bs as [|b' bs IH]; intros b r r1 Hr Hall.
  - cbn [feed_all] in Hall. destruct (feed b r) as [[] r'] eqn:E; [|done]. injection Hall as <-.
    exists r'. change (mjoin []) with (@nil byte). by rewrite app_nil_r.
  - cbn [feed_all] in Hall. destruct (feed b r) as [[] r'] eqn:E; [|done].
    destruct (IH b' r' r1 (feed_wf _ _ _ Hr E) Hall) as (r2 & H2 & Hu2 & Hr2).
    change (mjoin (b' :: bs)) with (b' ++ mjoin bs). set (l := b' ++ mjoin bs) in *.
    destruct (stream (unread r ++ b)) as [[fs1 rest1] bad1] eqn:S1.
    pose proof (feed_stream b r fs1 rest1 bad1 Hr S1) as F1. rewrite E in F1. destruct F1 as [Hb1 F1].
    destruct bad1; [done|]. destruct (F1 eq_refl) as [Hu1 Hrest1].
    destruct (stream (rest1 ++ l)) as [[fs2 rest2] bad2] eqn:S2.
    pose proof (feed_stream l r' fs2 rest2 bad2 (feed_wf _ _ _ Hr E)) as F2. rewrite Hu1 in F2. specialize (F2 S2). rewrite H2 in F2.
    destruct F2 as [Hb2 F2]. destruct bad2; [done|]. destruct (F2 eq_refl) as [Hu3 Hrest2].
    pose proof (stream_app _ l _ _ S1) as S3. rewrite S2, <-app_assoc in S3.
    pose proof (feed_stream (b ++ l) r _ _ _ Hr S3) as F3. destruct (feed (b ++ l) r) as [fine r3]. destruct F3 as [-> F3].
    destruct (F3 eq_refl) as [Hu4 Hrest3]. exists r3. split; [done|]. split; [congruence|].
    rewrite Hrest3. unfold route_all. rewrite foldl_app. fold (route_all fs1 (rest_of r)). rewrite <-Hrest1.
    fold (route_all fs2 (rest_of r')). by rewrite <-Hrest2, Hr2.
Qed.

(** Routing a frame to its call. *)
Lemma route_own b r i s :
  find_slot (s_id s) r = Some i → slots r !! i = Some s → s_generation s = generation r → s_failed s = false →
  ∃ s', find_slot (s_id s') (route (read_header b) b r) = Some i ∧ slots (route (read_header b) b r) !! i = Some s' ∧
    s_generation s' = generation (route (read_header b) b r) ∧ s_failed s' = false ∧ s_id s' = s_id s ∧
    s_inbox s' = s_inbox s ++ (if h_id (read_header b) =? s_id s then b else []) ∧
    s_final_queued s' = s_final_queued s || (h_id (read_header b) =? s_id s) && final_frame b.
Proof.
  intros Hfind Hs Hg Hf.
  assert (∀ r', same_calls r r' → ∃ s', find_slot (s_id s') r' = Some i ∧ slots r' !! i = Some s' ∧
    s_generation s' = generation r' ∧ s_failed s' = false ∧ s_id s' = s_id s ∧ s_inbox s' = s_inbox s ++ [] ∧
    s_final_queued s' = s_final_queued s || false) as Hsame.
  { intros r' [Hsl _ _ _ Hgen _]. exists s. unfold find_slot. by rewrite Hsl, Hgen, app_nil_r, orb_false_r. }
  assert (∀ j f, (∀ s0, s_active (f s0) = s_active s0 ∧ s_id (f s0) = s_id s0) → ∀ id, find_slot id (on_slot j f r) = find_slot id r) as Hon.
  { intros j f Hkeep id. unfold find_slot. cbn [slots on_slot upd_slots]. generalize (slots r). intros ss. clear Hfind Hs Hsame. revert j.
    induction ss as [|s0 ss IH]; intros [|j]; [done|done|..]; cbn [alter list_alter list_find].
    - destruct (Hkeep s0) as [Ha Hi]. destruct (decide (s_active (f s0) = true ∧ s_id (f s0) = id)) as [D|D]; rewrite Ha, Hi in D.
      + by rewrite decide_True.
      + by rewrite decide_False.
    - destruct (decide _); [done|]. specialize (IH j). unfold prod_map in *.
      destruct (list_find _ (alter f j ss)) as [[a ?]|], (list_find _ ss) as [[c ?]|]; simpl in *; congruence. }
  unfold route. destruct (Z.eqb_spec (h_id (read_header b)) (s_id s)) as [Heq|Hne].
  - rewrite Heq, Hfind, (slot_at_some _ _ _ Hs), Hg, Hf, Z.eqb_refl. cbn [negb andb].
    exists (deliver_frame b (h_type (read_header b)) s). rewrite Hon by done.
    split_and!; try done. cbn [slots on_slot upd_slots]. by rewrite list_lookup_alter_eq, Hs.
  - destruct (find_slot (h_id (read_header b)) r) as [j|] eqn:Ej; [|by apply Hsame, drop_frame_same].
    destruct (_ && _); [|by apply Hsame, drop_frame_same]. assert (j ≠ i) as Hji.
    { intros ->. unfold find_slot in Hfind, Ej. apply fmap_Some in Ej as ([k s1] & Ej & Hk). simpl in Hk. subst k.
      apply list_find_Some in Ej as (Hs1 & [_ Hid1] & _). rewrite Hs in Hs1. simplify_eq. }
    exists s. rewrite Hon by done. rewrite app_nil_r, orb_false_r. split_and!; try done.
    cbn [slots on_slot upd_slots]. by rewrite list_lookup_alter_ne.
Qed.

Definition frames_for (id : Z) fs : list (list byte) := filter (λ b, h_id (read_header b) = id) fs.

Lemma route_all_own fs r i s :
  find_slot (s_id s) r = Some i → slots r !! i = Some s → s_generation s = generation r → s_failed s = false →
  ∃ s', slots (route_all fs r) !! i = Some s' ∧ s_inbox s' = s_inbox s ++ mjoin (frames_for (s_id s) fs) ∧
    s_final_queued s' = s_final_queued s || existsb final_frame (frames_for (s_id s) fs).
Proof.
  revert r s. induction fs as [|b fs IH]; intros r s Hfind Hs Hg Hf.
  - exists s. cbn [route_all foldl frames_for]. change (mjoin (frames_for (s_id s) [])) with (@nil byte).
    by rewrite app_nil_r, orb_false_r.
  - destruct (route_own b r i s Hfind Hs Hg Hf) as (s1 & Hfind1 & Hs1 & Hg1 & Hf1 & Hid & Hin & Hq).
    destruct (IH _ _ Hfind1 Hs1 Hg1 Hf1) as (s2 & Hs2 & Hin2 & Hq2). exists s2. split; [exact Hs2|].
    rewrite Hin2, Hq2, Hin, Hq, Hid. unfold frames_for. rewrite filter_cons.
    destruct (Z.eqb_spec (h_id (read_header b)) (s_id s)) as [E|E]; [rewrite decide_True by done|rewrite decide_False by done].
    + split; [by rewrite <-app_assoc|]. cbn [existsb]. by rewrite andb_true_l, orb_assoc.
    + by rewrite app_nil_r, orb_false_r.
Qed.

(** C22. A call gets exactly its own frames, in the order the host sent them:
    when the unread bytes are the frames [fs] and the beginning of another one,
    dispatching appends to the inbox of a call in flight the frames of [fs]
    with its id and nothing else, and takes note of its final frame; the
    beginning stays unread. *)
Theorem frames_reach_their_calls fs rest r i s :
  Forall one_frame fs → Forall (λ b, h_size (read_header b) ≤ kMaxFrame) fs → incomplete rest →
  unread r = mjoin fs ++ rest →
  find_slot (s_id s) r = Some i → slots r !! i = Some s → s_generation s = generation r → s_failed s = false →
  ∃ r', dispatch r = (true, r') ∧ unread r' = rest ∧
    s_inbox (slot_at i r') = s_inbox s ++ mjoin (frames_for (s_id s) fs) ∧
    s_final_queued (slot_at i r') = s_final_queued s || existsb final_frame (frames_for (s_id s) fs).
Proof.
  intros H1 H2 Hinc Hu Hfind Hs Hg Hf. pose proof (stream_frames fs rest H1 H2 Hinc) as Hst. rewrite <-Hu in Hst.
  apply dispatch_stream in Hst. destruct (dispatch r) as [fine r']. destruct Hst as [-> Hok]. destruct (Hok eq_refl) as [Hur Hrest].
  destruct (route_all_own fs r i s Hfind Hs Hg Hf) as (s' & Hs' & Hin & Hq). exists r'. split_and!; [done|done|..];
    assert (slots r' = slots (route_all fs r)) as Hsl by (exact (f_equal slots Hrest)); unfold slot_at; by rewrite Hsl, Hs'.
Qed.

End Dispatch.

(** ** A sample stream *)

Module StreamSample.

Definition chunk (id : Z) (text : string) : list byte := (encode MsgChunk id [w_u32 0; w_blob (Some (bytes text)) (Z.of_nat (String.length text))]).1.

Definition frames : list (list byte) := [chunk 1 "a"; chunk 2 "b"; chunk 1 "c"; empty_frame MsgDone 1].

Definition tail : list byte := take 20 (chunk 2 "d").

Definition fed : Re (list (list byte)) := upd_rx (mjoin frames ++ tail) 0 RemoteSample.waiting.

Definition reads : list (list byte) := [take 30 (mjoin frames); take 5 (drop 30 (mjoin frames)); drop 35 (mjoin frames)].

End StreamSample.

Lemma dispatch_ignores_chunking_witness :
  ∃ r1 r2, feed_all StreamSample.reads RemoteSample.waiting = Some r1 ∧
    feed (mjoin StreamSample.reads) RemoteSample.waiting = (true, r2) ∧ rest_of r2 = rest_of r1 ∧
    s_final_queued (slot_at 0 r2) = true.
Proof.
  destruct (feed_all StreamSample.reads RemoteSample.waiting) as [r1|] eqn:E; [|vm_compute in E; discriminate].
  assert (rx_wf RemoteSample.waiting) as Hwf by (vm_compute; lia).
  destruct (dispatch_ignores_chunking _ _ RemoteSample.waiting r1 Hwf E) as (r2 & Hf & _ & Hr).
  exists r1, r2. split; [reflexivity|]. split; [exact Hf|]. split; [exact Hr|].
  change (s_final_queued (slot_at 0 (rest_of r2)) = true). rewrite Hr. vm_compute in E. injection E as <-. reflexivity.
Defined.

Lemma frames_reach_their_calls_witness :
  ∃ r', dispatch StreamSample.fed = (true, r') ∧ unread r' = StreamSample.tail ∧
    s_inbox (slot_at 0 r') = StreamSample.chunk 1 "a" ++ StreamSample.chunk 1 "c" ++ empty_frame MsgDone 1.
Proof.
  destruct (frames_reach_their_calls StreamSample.frames StreamSample.tail StreamSample.fed 0 (slot_at 0 RemoteSample.waiting))
    as (r' & Hd & Hu & Hi & _).
  - repeat constructor; vm_compute; discriminate.
  - repeat constructor; vm_compute; discriminate.
  - right. vm_compute. split; [discriminate|reflexivity].
  - reflexivity.
  - vm_compute. reflexivity.
  - vm_compute. reflexivity.
  - vm_compute. reflexivity.
  - vm_compute. reflexivity.
  - exists r'. split; [exact Hd|]. split; [exact Hu|]. rewrite Hi. vm_compute. reflexivity.
Defined.

(** ** The two ends of the pipe *)

(** The segment is mapped and has the size it claims. *)
Definition seg_ready (seg : option Segment) (os : ShmOs) : Prop :=
  match seg with
  | Some g => ∃ mem, seg_memory g os = Some mem ∧ len mem = size_ g ∧ size_ g ≤ 2 ^ 62
  | None => True
  end.

(** The other process maps the same object: it sees the bytes behind [seg]. *)
Definition maps_same (seg : option Segment) (os : ShmOs) (mem : option (list byte)) : Prop :=
  match seg with Some g => seg_memory g os = mem ∧ mem ≠ None | None => mem = None end.

(** The reader after the segment's name, with the receiver's view of it. *)
Definition receiver (rest : list byte) (mem : option (list byte)) (size : Z) (a : Arena) : Reader :=
  with_arena a (match mem with
                | Some m => r_set_shm m size (mkReader rest true None 0 no_arena false)
                | None => mkReader rest true None 0 no_arena false
                end).

Lemma seg_memory_some g os mem : seg_memory g os = Some mem → ∃ a o, addr_ g = Some a ∧ shm_maps os !! a = Some o ∧ shm_objects os !! o = Some mem.
Proof.
  unfold seg_memory, memory_at. destruct (addr_ g) as [a|]; [|done]. simpl. destruct (shm_maps os !! a) as [o|] eqn:E; [|done].
  simpl. intros H. by exists a, o.
Qed.

Lemma commit_memory g os mem o mem' :
  seg_memory g os = Some mem → shm_base o = Some mem' → len mem' = len mem →
  seg_memory g (commit g (Some o) os) = Some mem'.
Proof.
  intros Hm Hb Hl. destruct (seg_memory_some g os mem Hm) as (a & ob & Ha & Hmap & Hob).
  unfold commit, seg_memory. rewrite Ha, Hb. simpl. unfold memory_at, store_at. rewrite Hmap. simpl. rewrite Hmap. simpl.
  rewrite lookup_alter_eq, Hob. simpl. f_equal. unfold write_at. unfold len in Hl. change (Z.to_nat 0) with 0%nat.
  rewrite take_0, drop_ge by lia. by rewrite app_nil_r.
Qed.

Lemma finish_length type id ops w fits :
  Forall appends ops → finish (calls (begin type id :: ops) (Writer_new [])) = (w, fits) →
  len (out_ w) = len (out_ (calls (begin type id :: ops) (Writer_new []))).
Proof.
  intros Ha. change (calls (begin type id :: ops) (Writer_new [])) with (calls ops (begin type id (Writer_new []))).
  unfold Writer_new. rewrite begin_empty.
  destruct (appends_calls ops Ha (mkWriter (le_bytes 4 0 ++ le_bytes 4 type ++ le_bytes 8 id) 0 None)) as (bs & Eb & Es).
  set (w0 := calls ops _) in *. simpl in Es, Eb. unfold finish. rewrite Es. destruct (_ <? _); intros [= <- <-]; [done|]. cbn [out_].
  assert (4 ≤ length (out_ w0))%nat by (rewrite Eb; simpl; lia).
  unfold write_at, len. change (Z.to_nat 0) with 0%nat. rewrite take_0, app_nil_l, length_app, length_drop. simpl. lia.
Qed.

Definition seg_name (seg : option Segment) : string := match seg with Some g => name_ g | None => "" end.
Definition seg_size (seg : option Segment) : Z := match seg with Some g => size_ g | None => 0 end.

Section RoundTrip.
Context {A : Type} (body : Writer → Writer) (m : R (option A)) (v : A) (need least : Z).
Context (Hlaw : law body m (Some v) need least) (Hleast : 0 ≤ least) (Hbody : appends body).

(** What one process frames, the other one reads. *)
Lemma segment_frame_roundtrip type id seg threshold retire os w :
  seg_ready seg os → segment_frame type id seg threshold retire body os = (w, true) → len (out_ w) < 2 ^ 63 →
  ∃ payload, out_ w = frame type id payload ∧ len payload ≤ kMaxFrame ∧
    ∀ mem a, maps_same seg (commit_seg seg w os) mem → fresh_arena a → decode_arena_bound (len payload) ≤ capacity_ a →
    ∃ rest rd',
      r_shm_header (Reader_new payload) =
        ((norm_str (str_of (seg_name seg)), seg_size seg, norm_str (str_of retire)), mkReader rest true None 0 no_arena false) ∧
      m (receiver rest mem (seg_size seg) a) = (Some v, rd') ∧ at_end rd' = true ∧ arena_exhausted_ rd' = false.
Proof.
  intros Hseg Hfr Hlen. set (name := seg_name seg). set (size := seg_size seg). set (shm := (λ g, shm_out g threshold os) <$> seg).
  assert (shm_wf shm) as Hwf.
  { subst shm. intros o mem. destruct seg as [g|]; [|done]. simpl. intros [= <-]. simpl. intros Hm.
    destruct Hseg as (mem' & Hm' & Hl & Hs). rewrite Hm' in Hm. injection Hm as <-. rewrite Hl. pose proof (len_nonneg mem'). lia. }
  assert (0 ≤ size < 2 ^ 64) as Hsize.
  { subst size. unfold seg_size. destruct seg as [g|]; [|lia]. destruct Hseg as (mem & _ & Hl & Hs). pose proof (len_nonneg mem). lia. }
  pose proof (framed body m v need least type id (str_of name) size (str_of retire) shm Hlaw Hleast Hwf Hsize) as Hf.
  unfold segment_frame in Hfr. fold (seg_name seg) (seg_size seg) name size shm in Hfr.
  assert (Forall appends [w_shm_header (str_of name) size (str_of retire); set_shm shm; body]) as Happ by (repeat constructor; auto with appends).
  unfold framed_calls in Hf. rewrite <-(finish_length _ _ _ _ _ Happ Hfr) in Hf.
  specialize (Hf Hlen). rewrite Hfr in Hf. destruct Hf as (Hwf' & Hext & Hok).
  destruct (Hok eq_refl) as (payload & Hout & Hmax & Hread).
  (* the memory of whoever maps the object is what the writer left in it *)
  assert (∀ mem, maps_same seg (commit_seg seg w os) mem → shares (shm_ w) mem (match mem with Some _ => size | None => 0 end)) as Hsh.
  { intros mem Hmem. destruct seg as [g|].
    - destruct Hseg as (mem0 & Hm0 & Hl0 & _). destruct (proj2 Hext (shm_out g threshold os) mem0 eq_refl Hm0) as (o' & mem' & Ho' & Hb' & Hs' & _).
      destruct (Hwf' o' mem' Ho' Hb') as [Hl' _]. simpl in Hs'. destruct Hmem as [Hmem _]. cbn [commit_seg] in Hmem. rewrite Ho' in Hmem.
      rewrite (commit_memory g os mem0 o' mem' Hm0 Hb') in Hmem by congruence. subst mem. rewrite Ho'. simpl. by rewrite Hb'.
    - simpl in Hmem. subst mem. by rewrite (proj1 Hext eq_refl). }
  exists payload. split; [done|]. split; [done|]. intros mem a Hmem Ha Hb.
  destruct (Hread _ _ a (Hsh mem Hmem) Ha Hb) as (rest & rd' & Hhead & Hm & He). exists rest, rd'. split; [done|].
  split; [|done]. rewrite <-Hm. unfold receiver. f_equal. destruct mem; done.
Qed.
End RoundTrip.

(** What the host's reader is given is what the core's segment holds. *)
Definition host_view {E : Type} (seg : option Segment) (hseg : option (Segment * Z)) (h : Hs E) : Prop :=
  match seg, hseg with
  | Some g, Some (s, n) => seg_memory s (h_os h) = seg_memory g (h_os h) ∧ n = size_ g
  | None, None => True
  | _, _ => False
  end.

Lemma commit_ready seg w os : seg_ready seg os → maps_same seg (commit_seg seg w os) (seg ≫= λ g, seg_memory g (commit_seg seg w os)).
Proof.
  destruct seg as [g|]; [|done]. intros (mem & Hm & _). simpl. split; [done|].
  destruct (seg_memory_some g os mem Hm) as (a & o & Ha & Hmap & Hob). unfold commit, seg_memory. rewrite Ha. simpl.
  destruct (shm_ w) as [[[mem'|] ?]|]; simpl; unfold memory_at, store_at; rewrite ?Hmap; simpl; rewrite ?Hmap; simpl; rewrite ?lookup_alter_eq, Hob; done.
Qed.

Lemma run_flags_range {W : Type} (q : agent_request W) : u32_range (run_flags q).
Proof. unfold run_flags. destruct (is_null (rq_on_chunk q)), (is_null (rq_on_progress q)); vm_compute; split; discriminate || reflexivity. Qed.

(** C13. A request arrives at the engine as it was made.  The frame a caller
    encodes for it, with its large payloads in the caller's shared segment, is
    a Run frame with the call's id; the host, reading it with its own mapping
    of the segment, decodes the same request: the same task, messages, parts, shapes and payload
    bytes (empty strings and arrays as null ones), whether to stream, and
    nothing is left over. *)
Theorem run_frame_roundtrip {W E : Type} (q : agent_request W) id seg threshold retire os w (h : Hs E) hseg a :
  request_wf q → seg_ready seg os → run_frame id seg threshold retire q os = (w, true) → len (out_ w) < 2 ^ 63 →
  h_os h = commit_seg seg w os → host_view seg hseg h →
  ∃ payload, out_ w = frame MsgRun id payload ∧
    (fresh_arena a → decode_arena_bound (len payload) ≤ capacity_ a →
     ∃ rd rd', r_shm_header (Reader_new payload) = ((norm_str (str_of (seg_name seg)), seg_size seg, norm_str (str_of retire)), rd) ∧
       ok_ rd = true ∧ r_request (W := E) (body_reader h rd hseg a) = (Some (norm_request q, run_flags q), rd') ∧ at_end rd' = true).
Proof.
  intros Hwf Hseg Hfr Hlen Hos Hview. unfold run_frame in Hfr.
  destruct (segment_frame_roundtrip _ _ _ _ _ (law_request (W' := E) q (run_flags q) Hwf (run_flags_range q)) ltac:(lia)
    (appends_request q (run_flags q)) _ _ _ _ _ _ _ Hseg Hfr Hlen) as (payload & Hout & _ & Hread).
  exists payload. split; [done|]. intros Ha Hb.
  destruct (Hread _ a (commit_ready seg w os Hseg) Ha Hb) as (rest & rd' & Hhead & Hm & Hend & _).
  eexists _, rd'. split; [exact Hhead|]. split; [done|]. split; [|done]. rewrite <-Hm. unfold body_reader, receiver. f_equal.
  pose proof (commit_ready seg w os Hseg) as Hcr. destruct seg as [g|], hseg as [[s n]|]; try done. simpl.
  destruct Hview as [Hv ->]. rewrite Hos in Hv |- *. cbn [commit_seg] in *. rewrite Hv.
  destruct Hcr as [_ Hne]. simpl in Hne. by destruct (seg_memory g (commit g (shm_ w) os)).
Qed.

(** What the caller's segment holds is what the host's does. *)
Definition caller_view {W : Type} (seg : option Segment) i (r : Re W) : Prop :=
  match seg with
  | Some g => ∃ c, s_response_shm (slot_at i r) = Some c ∧ c ∈ response_segments r ∧ seg_memory c (re_os r) = seg_memory g (re_os r)
  | None => s_response_shm (slot_at i r) = None
  end.

(** C14. A response arrives at its caller as the engine made it.  When a worker
    of the host has answered, the last frame it wrote is a Response frame with the
    job's id; the caller that decodes it, with its own mapping of the host's
    segment, returns the same response. *)
Theorem response_frame_roundtrip {W E : Type} (e : agent_engine_v1 E) j inst resp key retire (h h' : Hs E) (r : Re W) t i a :
  response_wf resp → seg_ready (rs_segment <$> (key ≫= λ k, find_segment k h)) (h_os h) →
  job_respond e j inst resp key retire h = (Finished j, h') → Forall (λ b, len b < 2 ^ 63) (h_out h') →
  re_os r = h_os h' → caller_view (rs_segment <$> (key ≫= λ k, find_segment k h)) i r →
  ∃ payload, h_out h' = h_out h ++ [frame MsgResponse (job_id (with_job h j)) payload] ∧
    (fresh_arena a → decode_arena_bound (len payload) ≤ capacity_ a →
     ∃ name size rt rd, r_shm_header (Reader_new payload) = ((name, size, rt), rd) ∧ ok_ rd = true ∧
       (decode_response t i a rd size r).1 = PReturned i (RanTo (Ok (norm_response resp)))).
Proof.
  intros Hwf. unfold job_respond. set (seg := rs_segment <$> _). intros Hseg.
  destruct (segment_frame MsgResponse _ seg _ _ _ _) as [w fits] eqn:Hfr. destruct fits; [|done]. intros [= <-] Hlen Hos Hview.
  cbn [send h_out upd_engine upd_os h_os] in *. apply Forall_app in Hlen as [_ Hlen]. apply Forall_cons in Hlen as [Hlen _].
  destruct (segment_frame_roundtrip _ _ _ _ _ (law_response resp Hwf) ltac:(lia) (appends_response resp) _ _ _ _ _ _ _ Hseg Hfr Hlen)
    as (payload & Hout & _ & Hread).
  exists payload. rewrite Hout. split; [done|]. intros Ha Hb.
  destruct (Hread _ a (commit_ready seg w (h_os h) Hseg) Ha Hb) as (rest & rd' & Hhead & Hm & _).
  eexists _, _, _, _. split; [exact Hhead|]. split; [done|].
  pose proof (commit_ready seg w (h_os h) Hseg) as Hcr. unfold decode_response. unfold caller_view in Hview. rewrite Hos in Hview |- *.
  cbn [h_os send upd_engine upd_os] in *.
  assert (∀ rd (r0 : Re W), receiver rest (seg ≫= λ g, seg_memory g (commit_seg seg w (h_os h))) (seg_size seg) a = with_arena a rd →
    (decode_body t i a rd r0).1 = PReturned i (RanTo (Ok (norm_response resp)))) as Hdec.
  { intros rd r0 Hrd. unfold decode_body. rewrite <-Hrd, Hm. done. }
  destruct seg as [g|]; simpl in Hview.
  - destruct Hview as (c & -> & Hc & Hv). rewrite bool_decide_true by done. apply Hdec. unfold receiver. f_equal.
    destruct Hcr as [_ Hne]. simpl in *. rewrite Hv. by destruct (seg_memory g (commit g (shm_ w) (h_os h))).
  - rewrite Hview. by apply Hdec.
Qed.

(** C23. No frame makes the host or the core read outside of what it was given.
    Whatever bytes a frame and its segment hold, a request or response that is
    decoded from them has parts whose payload has exactly the bytes it
    announces, and shapes, kinds and counters in the ranges of their types. *)
Theorem decoded_values_are_in_bounds {W : Type} rd :
  reader_ok rd →
  (∀ (q : agent_request W) flags rd', r_request rd = (Some (q, flags), rd') → request_wf q ∧ u32_range flags) ∧
  (∀ resp rd', r_response rd = (Some resp, rd') → response_wf resp).
Proof.
  intros Hr. split.
  - intros q flags rd' Hq. destruct (yields_request rd _ _ Hr Hq) as [_ H]. exact (H (q, flags) eq_refl).
  - intros resp rd' Hs. destruct (yields_response rd _ _ Hr Hs) as [_ H]. exact (H resp eq_refl).
Qed.

(** ** Sample frames *)

Module WireSample.

Definition part : agent_part := mkPart 2 None None (str_of "image/png") None 0 (Some [2; 2]) (Some (bytes "data")) 4.

Definition request : agent_request unit :=
  mkAgentRequest 1 0 (Some [mkAgentMessage (str_of "user") (Some [part]) None None]) None None None None None None.

Definition seg : Segment := mkSegment (Some 1%nat) 64 "acpp-c5-0".

Definition os : ShmOs :=
  mkShmOs ∅ {[ 0%nat := replicate 64 (Ascii.ascii_of_N 0) ]} (<[2%nat := 0%nat]> {[ 1%nat := 0%nat ]}) 3 [].

Definition written : Writer := (run_frame 3 (Some seg) 4 "" request os).1.

Definition host : Hs unit :=
  mkHs () (commit_seg (Some seg) written os) (mkProc 7 0) [] [] (Some 1) true [] [] [] [] [] [] [] 0 [] MainIdle false.

Definition arena : Arena := mkArena 1048576 (Some 4096) 0.

Definition response : agent_response :=
  mkAgentResponse (mkAgentMessage (str_of "assistant") (Some [part]) None None) 3 4.

Definition answered : Hs unit := (job_respond RemoteSample.engine 0 1 response None "" host).2.

Definition caller : Re (list (list byte)) := upd_shm (h_os answered) (mkProc 5 0) RemoteSample.waiting.

End WireSample.

Lemma sample_part_wf : part_wf WireSample.part.
Proof.
  split; [split; vm_compute; congruence|split; vm_compute; congruence| | |vm_compute; discriminate].
  - repeat constructor; vm_compute; discriminate || reflexivity.
  - intros d [= <-]. reflexivity.
Qed.

Lemma run_frame_roundtrip_witness :
  shm_count (default (mkShmOut None 0 0 0 0) (shm_ WireSample.written)) = 1 ∧
  ∃ payload rd rd', out_ WireSample.written = frame MsgRun 3 payload ∧
    r_shm_header (Reader_new payload) = ((str_of "acpp-c5-0", 64, None), rd) ∧
    r_request (W := unit) (body_reader WireSample.host rd (Some (mkSegment (Some 2%nat) 64 "acpp-c5-0", 64)) WireSample.arena) =
      (Some (norm_request WireSample.request, 0), rd').
Proof.
  split; [vm_compute; reflexivity|].
  destruct (run_frame_roundtrip (E := unit) WireSample.request 3 (Some WireSample.seg) 4 "" WireSample.os WireSample.written WireSample.host
    (Some (mkSegment (Some 2%nat) 64 "acpp-c5-0", 64)) WireSample.arena) as (payload & Hout & Hread).
  - split; [split; vm_compute; congruence|]. split; [split; vm_compute; congruence|].
    constructor; [|constructor]. constructor; [exact sample_part_wf|constructor].
  - eexists. split; [vm_compute; reflexivity|]. split; [reflexivity|vm_compute; discriminate].
  - vm_compute. reflexivity.
  - vm_compute. reflexivity.
  - reflexivity.
  - split; vm_compute; reflexivity.
  - destruct Hread as (rd & rd' & Hh & _ & Hr & _).
    + exists 4096. repeat split; try reflexivity; [by exists 512|vm_compute; discriminate].
    + assert (len payload ≤ 512) as Hl.
      { apply (f_equal len) in Hout. unfold frame in Hout. rewrite !len_app, !len_le_bytes in Hout.
        assert (len (out_ WireSample.written) ≤ 512) by (vm_compute; discriminate). lia. }
      unfold decode_arena_bound. pose proof (len_nonneg payload). rewrite u64_small by (unfold u64_modulus; lia). simpl. lia.
    + exists payload, rd, rd'. split; [exact Hout|]. split; [exact Hh|exact Hr].
Defined.

Lemma response_frame_roundtrip_witness :
  ∃ payload name size rt rd, h_out WireSample.answered = [frame MsgResponse 0 payload] ∧
    r_shm_header (Reader_new payload) = ((name, size, rt), rd) ∧
    (decode_response 0 0 WireSample.arena rd size WireSample.caller).1 = PReturned 0 (RanTo (Ok (norm_response WireSample.response))).
Proof.
  destruct (response_frame_roundtrip RemoteSample.engine 0 1 WireSample.response None "" WireSample.host WireSample.answered
    WireSample.caller 0 0 WireSample.arena) as (payload & Hout & Hread).
  - split; [constructor; [exact sample_part_wf|constructor]|]. split; split; vm_compute; congruence.
  - exact I.
  - vm_compute. reflexivity.
  - repeat constructor; vm_compute; reflexivity.
  - reflexivity.
  - vm_compute. reflexivity.
  - assert (len payload ≤ 512) as Hl.
    { assert (h_out WireSample.answered = [frame MsgResponse 0 payload]) as Hb by exact Hout. apply (f_equal (λ l, len (mjoin l))) in Hb.
      change (mjoin [frame MsgResponse 0 payload]) with (frame MsgResponse 0 payload ++ []) in Hb. rewrite app_nil_r in Hb.
      unfold frame in Hb. rewrite !len_app, !len_le_bytes in Hb.
      assert (len (mjoin (h_out WireSample.answered)) ≤ 512) by (vm_compute; discriminate). lia. }
    destruct Hread as (name & size & rt & rd & Hh & _ & Hr).
    + exists 4096. repeat split; try reflexivity; [by exists 512|vm_compute; discriminate].
    + unfold decode_arena_bound. pose proof (len_nonneg payload). rewrite u64_small by (unfold u64_modulus; lia). simpl. lia.
    + exists payload, name, size, rt, rd. split; [exact Hout|]. split; [exact Hh|exact Hr].
Defined.

Lemma decoded_values_are_in_bounds_witness :
  ∃ q rd', r_request (W := unit) (with_arena WireSample.arena (Reader_new (drop 32 (out_ (run_frame 3 None 4 "" WireSample.request WireSample.os).1)))) = (Some (q, 0), rd') ∧
    request_wf q.
Proof.
  destruct (r_request (W := unit) (with_arena WireSample.arena (Reader_new (drop 32 (out_ (run_frame 3 None 4 "" WireSample.request WireSample.os).1)))))
    as [[[q fl]|] rd'] eqn:E; [|vm_compute in E; discriminate].
  assert (fl = 0) as -> by (vm_compute in E; congruence).
  exists q, rd'. split; [reflexivity|].
  destruct (decoded_values_are_in_bounds (W := unit) (with_arena WireSample.arena (Reader_new (drop 32 (out_ (run_frame 3 None 4 "" WireSample.request WireSample.os).1)))))
    as [H _]; [split; [vm_compute; discriminate|discriminate]|].
  destruct (H q 0 rd' E) as [Hq _]. exact Hq.
Defined.
