(* ===== verification/Skills.v ===== *)
(** * Skills (src/core/skills/skills_registry.cpp)

    A skill is a directory with a SKILL.md whose first lines, the frontmatter,
    give its name and description.  [load_skills_dir] scans a directory of
    skills into the session and registers the use_skill tool, whose callback
    hands out a skill's SKILL.md or one of the files bundled with it.  The
    theorems: the frontmatter is what its lines say, whatever follows it; a
    skill that was loaded is what use_skill returns; and what use_skill returns
    depends only on the SKILL.md texts and the files in the directories of the
    loaded skills. *)
From stdpp Require Import base gmap strings list pretty sorting.
From Stdlib Require Import Lia ZArith.
From S2P Require Import Prelude Arena Text Json Session Provider Tools History Models GraphJson Sandbox Mcp FsTools FsToolsTheory.

(** ** Frontmatter *)

Record Frontmatter := mkFrontmatter { fm_name : string; fm_description : string }.

(** [s.substr(pos, count)] for [pos <= s.size()]. *)
Definition substr (s : list Ascii.ascii) (pos : nat) (count : Z) : list Ascii.ascii :=
  take (Z.to_nat (Z.min count (Z.of_nat (length s - pos)))) (drop pos s).

(** [s.find(needle, pos)] for a needle that is not empty. *)
Definition find_from (needle s : list Ascii.ascii) (pos : nat) : option nat :=
  (λ i, (pos + i)%nat) <$> find_bytes needle (drop pos s).

Definition find_first_not_of_space (s : list Ascii.ascii) : option nat := fst <$> list_find (λ c, is_json_space c = false) s.

Definition find_last_not_of_space (s : list Ascii.ascii) : option nat :=
  (λ i, (length s - 1 - i)%nat) <$> find_first_not_of_space (reverse s).

Definition trim (s : list Ascii.ascii) : list Ascii.ascii :=
  match find_first_not_of_space s, find_last_not_of_space s with
  | Some start, Some stop => substr s start (Z.of_nat stop - Z.of_nat start + 1)
  | _, _ => []
  end.

Definition is_quote (c : Ascii.ascii) : bool := bool_decide (c = chr 34) || bool_decide (c = chr 39).

(** A value in quotation marks loses them. *)
Definition unquote (value : list Ascii.ascii) : list Ascii.ascii :=
  match value with
  | c :: _ :: _ =>
      if is_quote c && bool_decide (last value = Some c) then substr value 1 (Z.of_nat (length value) - 2) else value
  | _ => value
  end.

(** One line of the block. *)
Definition frontmatter_line (line : list Ascii.ascii) (out : Frontmatter) : Frontmatter :=
  match find_bytes [chr 58] line with
  | None => out
  | Some colon =>
      let key := of_bytes (trim (take colon line)) in
      let value := of_bytes (unquote (trim (drop (S colon) line))) in
      if str_eqb key "name" then mkFrontmatter value (fm_description out)
      else if str_eqb key "description" then mkFrontmatter (fm_name out) value
      else out
  end.

Definition newline : Ascii.ascii := chr 10.

(** [while (pos < block.size())]; every round moves [pos] forward. *)
Fixpoint frontmatter_loop (fuel : nat) (block : list Ascii.ascii) (pos : nat) (out : Frontmatter) : Frontmatter :=
  match fuel with
  | O => out
  | S fuel' =>
      if Nat.ltb pos (length block) then
        let line_end := match find_from [newline] block pos with Some e => e | None => length block end in
        frontmatter_loop fuel' block (S line_end)
          (frontmatter_line (substr block pos (Z.of_nat line_end - Z.of_nat pos)) out)
      else out
  end.

(** Whether the block was found, with the fields of [out] as the loop left
    them.  [end - body_start - 1] is a [size_t]. *)
Definition parse_frontmatter (content : list Ascii.ascii) (out : Frontmatter) : Frontmatter * bool :=
  if negb (starts_with "---" (of_bytes content)) then (out, false)
  else
    match find_from [newline] content 3 with
    | None => (out, false)
    | Some body_start =>
        match find_from (newline :: bytes "---") content body_start with
        | None => (out, false)
        | Some end_ =>
            let block := substr content (S body_start) (u64 (Z.of_nat end_ - Z.of_nat body_start - 1)) in
            let out := frontmatter_loop (length block) block 0 out in
            (out, negb (is_empty (fm_name out)) && negb (is_empty (fm_description out)))
        end
    end.

(** ** Paths *)

(** [path::lexically_normal()], name by name: the names kept, last first, and
    whether the path so far ends in a separator. *)
Definition normal_step (rooted : bool) (acc : list string * bool) (name : string) : list string * bool :=
  let '(kept, slash_behind) := acc in
  if str_eqb name "." then (kept, true)
  else if str_eqb name ".." then
    match kept with
    | [] => if rooted then ([], true) else ([".."], false)
    | k :: kept' => if str_eqb k ".." then (".." :: kept, false) else (kept', true)
    end
  else (name :: kept, false).

Definition join_slash (names : list string) : string :=
  match names with [] => "" | n :: rest => foldl (λ acc m, acc +:+ "/" +:+ m) n rest end.

Definition lexically_normal (p : string) : string :=
  if is_empty p then ""
  else
    let rooted := starts_with "/" p in
    let names := List.filter (λ s, negb (is_empty s)) (of_bytes <$> split_on slash (bytes p)) in
    let '(kept, behind) := foldl (normal_step rooted) ([], false) names in
    match kept with
    | [] => if rooted then "/" else "."
    | k :: _ =>
        (if rooted then "/" else "") +:+ join_slash (reverse kept) +:+
        (if (behind || ends_in_slash p) && negb (str_eqb k "..") then "/" else "")
    end.

(** ** The use_skill tool *)

Definition kSkillMedia : list (string * string) :=
  [(".png", "image/png"); (".jpg", "image/jpeg"); (".jpeg", "image/jpeg"); (".gif", "image/gif"); (".webp", "image/webp");
   (".wav", "audio/wav"); (".mp3", "audio/mpeg")].

Definition skill_media_mime (p : string) : string :=
  match List.find (λ e, str_eqb (lower (path_extension p)) e.1) kSkillMedia with Some e => e.2 | None => "" end.

Section Skills.
Context {W : Type} `{FsHost W} `{JsonParser}.

(** A whole file through a stream buffer. *)
Definition read_all (p : string) (w : W) : option (list Ascii.ascii) := sys_read p 0 (2 ^ 63 - 1) w.

Definition is_regular_file (p : string) (w : W) : bool := bool_decide (sys_status p w = Some RegularFile).

Definition read_skill_body (sk : gmap string Skill) (name : string) (w : W) : Result string :=
  match sk !! name with
  | None => fail KeyNotFound ("Unknown skill: " +:+ name)
  | Some s =>
      let skill_md := path_join (skill_path s) "SKILL.md" in
      match read_all skill_md w with
      | None => fail FilesystemError ("Cannot open: " +:+ skill_md)
      | Some content => Ok (of_bytes content)
      end
  end.

Definition kMaxFile : Z := 256 * 1024.

(** A bundled file: attached when it is media, otherwise its text. *)
Definition load_bundled (path : string) (w : W) : Result ToolResult :=
  if negb (is_regular_file path w) then fail KeyNotFound ("use_skill: no such file: " +:+ path)
  else
    let mime := skill_media_mime path in
    if negb (is_empty mime) then Ok (mkToolResult (filename path +:+ " attached") [mkMedia path mime] [] false)
    else
      match sys_read path 0 (kMaxFile + 1) w with
      | None => fail FilesystemError ("Cannot open: " +:+ path)
      | Some content =>
          let more := (kMaxFile <? Z.of_nat (length content))%Z in
          let content := if more then take (utf8_prefix_length content (Z.to_nat kMaxFile)) content else content in
          if bool_decide (chr 0 ∈ content) then
            Ok (mkToolResult ("[binary file " +:+ filename path +:+ "; not shown as text]") [] [] false)
          else
            Ok (mkToolResult (of_bytes (sanitize_utf8 content) +:+
                              (if more then nl +:+ "[truncated at " +:+ to_string kMaxFile +:+ " bytes]" else "")) [] [] false)
      end.

Definition skill_text (s : Skill) (body : string) : string :=
  "Skill directory: " +:+ skill_path s +:+ " (load bundled files with use_skill's " +:+ q +:+ "file" +:+ q +:+ ")" +:+ nl +:+ nl +:+ body.

Definition skill_loader_callback (sk : gmap string Skill) (arguments : string) (w : W) : Result ToolResult :=
  let fs := match parse_obj arguments with Some fs => fs | None => [] end in
  let name := last_string "name" fs in
  let file := last_string "file" fs in
  if is_empty name then fail InvalidConfig "use_skill: missing 'name'"
  else if is_empty file then
    match read_skill_body sk name w, sk !! name with
    | Ok body, Some s => Ok (mkToolResult (skill_text s body) [] [] false)
    | Fail e, _ => Fail e
    | Ok _, None => fail KeyNotFound ("Unknown skill: " +:+ name) (* not reached: the body was found *)
    end
  else
    match sk !! name with
    | None => fail KeyNotFound ("Unknown skill: " +:+ name)
    | Some s =>
        match resolve_under_workspace (skill_path s) file true w with
        | Fail e => fail (code e) "use_skill: 'file' must be inside the skill directory"
        | Ok path => load_bundled path w
        end
    end.

Definition use_skill_tool : Tool W :=
  mkTool "use_skill"
    ("Load the full instructions for a named skill. Call this before " +:+
     "using a skill whose name matches the task at hand. Optional " +:+ q +:+ "file" +:+ q +:+ ": a file " +:+
     "bundled with the skill (path relative to the skill directory) to load instead.")
    (schema ("{'type':'object','properties':{'name':{'type':'string'},'file':{'type':'string','description':" +:+
             "'file inside the skill directory, e.g. references/forms.md'}},'required':['name']}"))
    None (Some (SkillParts skill_loader_callback)).

(** ** Loading *)

(** The skill of one entry of the scan; [None] for an entry that is skipped. *)
Definition read_skill (skills_dir : string) (w : W) (e : DirEntry) : option Skill :=
  let dir := path_join skills_dir (de_name e) in
  let skill_md := path_join dir "SKILL.md" in
  if negb (de_is_dir e) then None
  else if negb (is_regular_file skill_md w) then None
  else
    match read_all skill_md w with
    | None => None
    | Some content =>
        let '(fm, found) := parse_frontmatter content (mkFrontmatter "" "") in
        if negb found then None
        else
          let path := lexically_normal (match sys_absolute dir w with inr a => a | inl _ => dir end) in
          Some (mkSkill (fm_name fm) (fm_description fm) path)
    end.

Definition load_skill (skills_dir : string) (w : W) (sk : gmap string Skill) (e : DirEntry) : gmap string Skill :=
  match read_skill skills_dir w e with Some s => <[skill_name s := s]> sk | None => sk end.

(** [has_cell]: the session owns its cell, as every session [init] returned. *)
Definition load_skills_dir (skills_dir : string) (has_cell : bool) (s : Session W) (w : W) : Session W * Result unit :=
  if negb (sys_is_directory skills_dir w) then (s, fail InvalidConfig ("skills_dir is not a directory: " +:+ skills_dir))
  else
    let s := set_skills s (foldl (load_skill skills_dir w) (skills s) (sys_list skills_dir w)) in
    let s := if has_cell then set_config_tools s (add_if_missing (tools (config s)) use_skill_tool) else s in
    (rebuild_tool_index s, Ok tt).

End Skills.

(** ** The frontmatter is what its lines say *)

Section FrontmatterLines.
Implicit Types (l s t : list Ascii.ascii) (ls : list (list Ascii.ascii)).

Lemma find_bytes_skip n l s : newline ∉ l → find_bytes (newline :: n) (l ++ s) = (λ i, (length l + i)%nat) <$> find_bytes (newline :: n) s.
Proof.
  induction l as [|c l IH]; intros Hn; cbn [app length].
  - by destruct (find_bytes _ s).
  - apply not_elem_of_cons in Hn as [Hc Hn]. cbn [find_bytes]. rewrite bool_decide_false by (intros [=]; congruence).
    rewrite (IH Hn). by destruct (find_bytes _ s).
Qed.

Lemma find_newline_here s : find_bytes [newline] (newline :: s) = Some 0%nat.
Proof. by destruct s. Qed.

Lemma find_newline_at l s : newline ∉ l → find_bytes [newline] (l ++ newline :: s) = Some (length l).
Proof. intros Hn. rewrite find_bytes_skip, find_newline_here by done. cbn. by rewrite Nat.add_0_r. Qed.

Lemma find_newline_none l : newline ∉ l → find_bytes [newline] l = None.
Proof. intros Hn. rewrite <- (app_nil_r l), find_bytes_skip by done. done. Qed.

Lemma split_line sep l s : sep ∉ l → split_on sep (l ++ sep :: s) = l :: split_on sep s.
Proof.
  induction l as [|c l IH]; intros Hn; cbn [app split_on]; [by rewrite bool_decide_true|].
  apply not_elem_of_cons in Hn as [Hc Hn]. rewrite bool_decide_false by (intros ->; by apply Hc). by rewrite IH.
Qed.

Lemma split_last sep l : sep ∉ l → split_on sep l = [l].
Proof.
  induction l as [|c l IH]; intros Hn; cbn [split_on]; [done|].
  apply not_elem_of_cons in Hn as [Hc Hn]. rewrite bool_decide_false by (intros ->; by apply Hc). by rewrite IH.
Qed.

(** The first line of a text and what follows its line end. *)
Lemma cut_line s : newline ∉ s ∨ ∃ l t, s = l ++ newline :: t ∧ newline ∉ l.
Proof.
  induction s as [|c s [IH|(l & t & -> & Hn)]]; [left; apply not_elem_of_nil| |].
  - destruct (decide (c = newline)) as [->|Hc]; [right; exists [], s; split; [done|apply not_elem_of_nil]|].
    left. apply not_elem_of_cons. by split.
  - destruct (decide (c = newline)) as [->|Hc]; [right; exists [], (l ++ newline :: t); split; [done|apply not_elem_of_nil]|].
    right. exists (c :: l), t. split; [done|]. apply not_elem_of_cons. by split.
Qed.

Lemma substr_all s pos (n : nat) : substr s pos (Z.of_nat (pos + n) - Z.of_nat pos) = take n (drop pos s).
Proof.
  unfold substr. replace (Z.of_nat (pos + n) - Z.of_nat pos)%Z with (Z.of_nat n) by lia. rewrite <- Nat2Z.inj_min, Nat2Z.id.
  rewrite <- (take_ge (drop pos s) (length s - pos)) at 2 by (rewrite length_drop; lia). by rewrite take_take, Nat.min_comm.
Qed.

Lemma frontmatter_loop_lines fuel block pos out :
  length block ≤ pos + fuel →
  frontmatter_loop fuel block pos out = foldl (λ out l, frontmatter_line l out) out (split_on newline (drop pos block)).
Proof.
  revert pos out. induction fuel as [|fuel IH]; intros pos out Hf; cbn [frontmatter_loop].
  { by rewrite drop_ge by lia. }
  destruct (Nat.ltb_spec pos (length block)) as [Hp|Hp]; [|by rewrite drop_ge by lia].
  unfold find_from. destruct (cut_line (drop pos block)) as [Hn|(l & t & Hs & Hn)].
  - rewrite find_newline_none by done. cbn [fmap option_fmap option_map]. rewrite IH by lia.
    rewrite (drop_ge block (S (length block))) by lia. replace (length block) with (pos + (length block - pos)) at 1 by lia.
    rewrite substr_all, take_ge by (rewrite length_drop; lia). by rewrite (split_last newline (drop pos block)).
  - rewrite Hs, find_newline_at by done. cbn [fmap option_fmap option_map]. rewrite IH by lia. rewrite substr_all, Hs, take_app_length.
    rewrite split_line by done. cbn [foldl]. do 2 f_equal.
    replace (S (pos + length l)) with (pos + S (length l)) by lia. rewrite <- drop_drop, Hs. change (l ++ newline :: t) with (l ++ [newline] ++ t).
    rewrite app_assoc, drop_app_length'; [done|]. rewrite length_app. cbn. lia.
Qed.

(** The lines of a text, each behind a line end. *)
Definition lines_then (ls : list (list Ascii.ascii)) (tail : list Ascii.ascii) : list Ascii.ascii :=
  foldr (λ l acc, newline :: l ++ acc) tail ls.

Definition dashes : list Ascii.ascii := bytes "---".

(** A line of the block: no line end, and not the line that closes it. *)
Definition block_line (l : list Ascii.ascii) : Prop := (newline ∉ l) ∧ (take 3 l ≠ dashes).

Lemma find_close ls t :
  Forall block_line ls → find_bytes (newline :: dashes) (lines_then ls (newline :: dashes ++ t)) = Some (length (lines_then ls [])).
Proof.
  induction 1 as [|l ls [Hn Hd] _ IH]; cbn [lines_then foldr]; [done|]. fold (lines_then ls (newline :: dashes ++ t)). fold (lines_then ls []).
  assert (∃ u, lines_then ls (newline :: dashes ++ t) = newline :: u) as [u Hu] by (destruct ls; by eexists).
  cbn [find_bytes]. rewrite bool_decide_false.
  - rewrite find_bytes_skip, IH by done. cbn. by rewrite length_app.
  - rewrite Hu. intros Hx%(f_equal tail). apply Hd. destruct l as [|a [|b [|c l]]]; cbn in *; rewrite ?take_0 in *; congruence.
Qed.

Lemma lines_then_app ls t : lines_then ls t = lines_then ls [] ++ t.
Proof. unfold lines_then. induction ls as [|l ls IH]; cbn [foldr app]; [done|]. by rewrite IH, app_assoc. Qed.

Lemma split_lines l ls : newline ∉ l → Forall block_line ls → split_on newline (l ++ lines_then ls []) = l :: ls.
Proof.
  intros Hl Hls. revert l Hl. induction Hls as [|l' ls [Hn _] _ IH]; intros l Hl; cbn [lines_then foldr].
  - rewrite app_nil_r. by apply split_last.
  - fold (lines_then ls []). rewrite split_line by done. by rewrite IH.
Qed.

End FrontmatterLines.

(** What the lines of a block say. *)
Definition read_lines (ls : list (list Ascii.ascii)) : Frontmatter :=
  foldl (λ out l, frontmatter_line l out) (mkFrontmatter "" "") ls.

Definition complete (fm : Frontmatter) : bool := negb (is_empty (fm_name fm)) && negb (is_empty (fm_description fm)).

Lemma parse_frontmatter_lines first l ls rest :
  newline ∉ first → Forall block_line (l :: ls) → (Z.of_nat (length (l ++ lines_then ls [])) < 2 ^ 64)%Z →
  parse_frontmatter (dashes ++ first ++ lines_then (l :: ls) (newline :: dashes ++ rest)) (mkFrontmatter "" "") =
    (read_lines (l :: ls), complete (read_lines (l :: ls))).
Proof.
  intros Hf Hls Hlen. set (content := dashes ++ _). unfold parse_frontmatter.
  assert (Hst : starts_with "---" (of_bytes content) = true).
  { unfold content. rewrite of_bytes_app. apply starts_with_app. }
  rewrite Hst. cbn [negb].
  assert (Hb : find_from [newline] content 3 = Some (3 + length first)%nat).
  { unfold find_from, content. change (drop 3 (dashes ++ ?x)) with x. cbn [lines_then foldr]. by rewrite find_newline_at. }
  assert (Hd : drop (3 + length first) content = lines_then (l :: ls) (newline :: dashes ++ rest)).
  { unfold content. rewrite app_assoc, drop_app_length'; [done|]. by rewrite length_app. }
  rewrite Hb. unfold find_from. rewrite Hd, find_close by done. cbn [fmap option_fmap option_map].
  set (n := length (l ++ lines_then ls [])). change (length (lines_then (l :: ls) [])) with (S n).
  assert (Hblock : substr content (S (3 + length first)) (u64 (Z.of_nat (3 + length first + S n) - Z.of_nat (3 + length first) - 1)) =
                   l ++ lines_then ls []).
  { replace (Z.of_nat (3 + length first + S n) - Z.of_nat (3 + length first) - 1)%Z with (Z.of_nat n) by lia.
    rewrite u64_small by (unfold u64_modulus; lia).
    replace (Z.of_nat n) with (Z.of_nat (S (3 + length first) + n) - Z.of_nat (S (3 + length first)))%Z by lia.
    rewrite substr_all. replace (S (3 + length first)) with (3 + length first + 1) by lia. rewrite <- drop_drop, Hd.
    cbn [lines_then foldr drop]. fold (lines_then ls (newline :: dashes ++ rest)). rewrite (lines_then_app ls), app_assoc.
    unfold n. rewrite drop_0. apply take_app_length. }
  rewrite Hblock, frontmatter_loop_lines, drop_0 by lia. apply Forall_cons in Hls as [[Hl _] Hls]. by rewrite split_lines.
Qed.

(** A block that is closed by the line after the opening one is not empty but
    the rest of the file: its length wraps around, so that lines of the text
    below it are taken for its fields. *)
Lemma empty_frontmatter_reads_the_body :
  parse_frontmatter (bytes ("---" +:+ nl +:+ "---" +:+ nl +:+ "name: not" +:+ nl +:+ "description: a field")) (mkFrontmatter "" "") =
    (mkFrontmatter "not" "a field", true).
Proof. reflexivity. Qed.

(** ** Paths that are normal already *)

(** The name of a file or a directory. *)
Definition plain_name (n : string) : Prop := n ≠ "" ∧ n ≠ "." ∧ n ≠ ".." ∧ slash ∉ bytes n.

(** An absolute path written without empty elements, . and .. *)
Definition rooted_path (ns : list string) : string := "/" +:+ join_slash ns.

Definition slashed (ns : list string) : list Ascii.ascii := ns ≫= λ n, slash :: bytes n.

Lemma bytes_join n ns : bytes (join_slash (n :: ns)) = bytes n ++ slashed ns.
Proof.
  cbn [join_slash]. revert n. induction ns as [|m ns IH]; intros n; cbn [foldl slashed mbind list_bind]; [by rewrite app_nil_r|].
  rewrite IH, !bytes_app, <- !app_assoc. done.
Qed.

Lemma bytes_rooted ns : ns ≠ [] → bytes (rooted_path ns) = slashed ns.
Proof. intros Hne. destruct ns as [|n ns]; [done|]. unfold rooted_path. rewrite bytes_app, bytes_join. done. Qed.

Lemma split_slashed l ns :
  slash ∉ l → Forall plain_name ns → split_on slash (l ++ slashed ns) = l :: (bytes <$> ns).
Proof.
  intros Hl Hns. revert l Hl. induction Hns as [|n ns (_ & _ & _ & Hn) _ IH]; intros l Hl.
  - cbn. rewrite app_nil_r. by apply split_last.
  - change (slashed (n :: ns)) with (slash :: bytes n ++ slashed ns). rewrite split_line by done. cbn [fmap list_fmap]. by rewrite IH.
Qed.

Lemma kept_names ns kept :
  Forall plain_name ns → foldl (normal_step true) (kept, false) ns = (reverse ns ++ kept, false).
Proof.
  intros Hns. revert kept. induction Hns as [|n ns (_ & H1 & H2 & _) _ IH]; intros kept; cbn [foldl]; [done|].
  unfold normal_step at 2. rewrite (proj2 (str_eqb_false n ".")), (proj2 (str_eqb_false n "..")) by done.
  rewrite IH, reverse_cons, <- app_assoc. done.
Qed.

Lemma no_final_slash ns : ns ≠ [] → Forall plain_name ns → ends_in_slash (rooted_path ns) = false.
Proof.
  intros Hne Hns. unfold ends_in_slash. rewrite bytes_rooted by done. apply bool_decide_false.
  destruct ns as [|n ns] using rev_ind; [done|]. clear IHns. apply Forall_app in Hns as [_ Hn]. apply Forall_singleton in Hn as (Hn0 & _ & _ & Hs).
  unfold slashed. rewrite bind_app. change ([n] ≫= _) with (slash :: bytes n ++ []). rewrite app_nil_r, last_app, last_cons.
  destruct (last (bytes n)) as [c|] eqn:El.
  - intros [= ->]. apply Hs. by apply last_Some_elem_of.
  - apply last_None, (f_equal of_bytes) in El. by rewrite of_bytes_bytes in El.
Qed.

(** Normalising such a path gives it back. *)
Lemma normal_rooted ns : ns ≠ [] → Forall plain_name ns → lexically_normal (rooted_path ns) = rooted_path ns.
Proof.
  intros Hne Hns. unfold lexically_normal. rewrite no_final_slash, bytes_rooted by done. change (is_empty (rooted_path ns)) with false. cbn iota.
  rewrite <- (app_nil_l (slashed ns)), split_slashed by (done || apply not_elem_of_nil). cbn [fmap list_fmap List.filter].
  assert (List.filter (λ s, negb (is_empty s)) (of_bytes <$> (bytes <$> ns)) = ns) as ->.
  { clear Hne. induction Hns as [|n ns (H0 & _) _ IH]; cbn; [done|]. rewrite of_bytes_bytes. apply is_empty_false in H0. by rewrite H0, IH. }
  assert (starts_with "/" (rooted_path ns) = true) as -> by apply starts_with_app. change (negb (is_empty (of_bytes []))) with false. cbn iota.
  rewrite kept_names by done. rewrite app_nil_r.
  destruct (reverse ns) as [|k rest] eqn:Er; [by apply (f_equal reverse) in Er; rewrite reverse_involutive in Er|].
  rewrite <- Er, reverse_involutive. unfold rooted_path. by rewrite append_nil_r.
Qed.

Lemma join_rooted ns n : ns ≠ [] → Forall plain_name ns → path_join (rooted_path ns) n = rooted_path (ns ++ [n]).
Proof.
  intros Hne Hns. unfold path_join. change (is_empty (rooted_path ns)) with false. cbn iota.
  pose proof (no_final_slash ns Hne Hns) as He. unfold ends_in_slash in He. rewrite He. unfold rooted_path.
  destruct ns as [|m ns]; [done|]. cbn [app join_slash]. rewrite foldl_app. cbn [foldl]. by rewrite append_assoc.
Qed.

(** [std::filesystem::absolute] of a path that is absolute. *)
Class AbsoluteSpec (W : Type) `{FsHost W} : Prop :=
  absolute_rooted p (w : W) : starts_with "/" p = true → sys_absolute p w = inr p.

(** ** A loaded skill is what use_skill returns *)

Section Loaded.
Context {W : Type} `{FsHost W} `{!AbsoluteSpec W} `{Host W} `{JsonParser}.

Lemma load_skips (dir : string) (w : W) (name : string) (sk : gmap string Skill) (es : list DirEntry) :
  (∀ e s, e ∈ es → read_skill dir w e = Some s → skill_name s ≠ name) → foldl (load_skill dir w) sk es !! name = sk !! name.
Proof.
  revert sk. induction es as [|e es IH]; intros sk Hes; cbn [foldl]; [done|].
  rewrite IH by (intros e' s He'; apply Hes; by right). unfold load_skill. destruct (read_skill dir w e) as [s|] eqn:E; [|done].
  apply lookup_insert_ne. apply (Hes e s); [by left|done].
Qed.

(** What a well-formed SKILL.md of an entry gives. *)
Lemma read_skill_spec (dir : string) (w : W) (e : DirEntry) first l ls rest :
  let md := path_join (path_join dir (de_name e)) "SKILL.md" in
  de_is_dir e = true → sys_status md w = Some RegularFile →
  read_all md w = Some (dashes ++ first ++ lines_then (l :: ls) (newline :: dashes ++ rest)) →
  newline ∉ first → Forall block_line (l :: ls) → (Z.of_nat (length (l ++ lines_then ls [])) < 2 ^ 64)%Z →
  complete (read_lines (l :: ls)) = true →
  read_skill dir w e =
    Some (mkSkill (fm_name (read_lines (l :: ls))) (fm_description (read_lines (l :: ls)))
            (lexically_normal (match sys_absolute (path_join dir (de_name e)) w with inr a => a | inl _ => path_join dir (de_name e) end))).
Proof.
  cbn zeta. intros Hd Hr Hc Hf Hls Hlen Hok. unfold read_skill, is_regular_file. rewrite Hd, Hr, Hc. cbn [negb].
  rewrite bool_decide_true by done. cbn [negb]. by rewrite parse_frontmatter_lines, Hok.
Qed.

(** The first tool named use_skill of a session that had none is the one just registered. *)
Lemma use_skill_registered (ts : list (Tool W)) :
  Forall (λ t, tool_name t ≠ "use_skill") ts →
  add_if_missing ts use_skill_tool = ts ++ [use_skill_tool] ∧
  list_find (λ t, tool_name t = "use_skill") (ts ++ [use_skill_tool]) = Some (length ts, use_skill_tool : Tool W).
Proof.
  intros Hts. split.
  - unfold add_if_missing. destruct (existsb _ ts) eqn:E; [|done]. apply existsb_exists in E as (t & Hin & He).
    apply list_elem_of_In in Hin. rewrite Forall_forall in Hts. apply bool_decide_eq_true in He. by destruct (Hts t Hin).
  - rewrite list_find_app_r; [done|]. by apply list_find_None.
Qed.

Context (ns : list string) (s : Session W) (e : DirEntry) (before after : list DirEntry).
Context (first l : list Ascii.ascii) (ls : list (list Ascii.ascii)) (rest : list Ascii.ascii).
Let dir := rooted_path ns.
Let home := rooted_path (ns ++ [de_name e]).
Let md := path_join home "SKILL.md".
Let text := dashes ++ first ++ lines_then (l :: ls) (newline :: dashes ++ rest).
Let fm := read_lines (l :: ls).

(** C27. Let [dir] be an absolute path without . and .., and [e] a subdirectory
    the scan of it finds, whose SKILL.md is a regular file that opens with a
    frontmatter block giving a name and a description.  After [load_skills_dir]
    on a session without a tool of the name use_skill, [e] is the skill of that
    name, unless an entry later in the scan gives the same name; and calling
    use_skill with the name, where the node and the policy let it through
    without changing anything, returns that very SKILL.md, on the file system as
    it was loaded from. *)
Theorem loaded_skill_is_used (rt : Rt W) (args : string) :
  ns ≠ [] → Forall plain_name ns → plain_name (de_name e) →
  sys_is_directory dir (rt_world rt) = true → sys_list dir (rt_world rt) = before ++ e :: after →
  de_is_dir e = true → sys_status md (rt_world rt) = Some RegularFile → read_all md (rt_world rt) = Some text →
  newline ∉ first → Forall block_line (l :: ls) → (Z.of_nat (length (l ++ lines_then ls [])) < 2 ^ 64)%Z → complete fm = true →
  (∀ e' s', e' ∈ after → read_skill dir (rt_world rt) e' = Some s' → skill_name s' ≠ fm_name fm) →
  Forall (λ t, tool_name t ≠ "use_skill") (tools (config s)) →
  rt_session rt = (load_skills_dir dir true s (rt_world rt)).1 →
  tool_allowed (allowed_tools (rt_ambient rt)) "use_skill" = true → permission_gate "use_skill" args rt = (rt, Ok tt) →
  parse_obj args = Some [("name", JStr (fm_name fm))] →
  let sk := mkSkill (fm_name fm) (fm_description fm) home in
  skills (rt_session rt) !! fm_name fm = Some sk ∧
  default_execute "use_skill" args rt = (rt, Ok (mkToolResult (skill_text sk (of_bytes text)) [] [] false)).
Proof using AbsoluteSpec0.
  intros Hne Hns Hplain Hdir Hlist He Hmd Hread Hf Hls Hlen Hok Hafter Hts Hs Hallow Hgate Hargs. cbn zeta.
  unfold load_skills_dir in Hs. rewrite Hdir in Hs. cbn [negb fst] in Hs.
  assert (Hhome : path_join dir (de_name e) = home) by (by apply join_rooted).
  assert (Hnormal : lexically_normal home = home).
  { apply normal_rooted; [by destruct ns|]. apply Forall_app. split; [done|]. by apply Forall_singleton. }
  assert (Hsk : skills (rt_session rt) !! fm_name fm = Some (mkSkill (fm_name fm) (fm_description fm) home)).
  { rewrite Hs. cbn [rebuild_tool_index skills set_tool_index set_config_tools set_skills]. rewrite Hlist, foldl_app. cbn [foldl].
    rewrite load_skips by done. unfold load_skill at 1. subst md. rewrite <- Hhome in Hmd, Hread.
    rewrite (read_skill_spec dir (rt_world rt) e first l ls rest He Hmd Hread Hf Hls Hlen Hok).
    rewrite Hhome, (absolute_rooted home) by apply starts_with_app. rewrite Hnormal. apply lookup_insert_eq. }
  split; [done|]. destruct (use_skill_registered (tools (config s)) Hts) as [Hadd Hfind].
  assert (Ht : tools (config (rt_session rt)) = tools (config s) ++ [use_skill_tool]) by (by rewrite Hs, <- Hadd).
  assert (Hi : tool_by_name (rt_session rt) !! "use_skill" = Some (length (tools (config s)))).
  { rewrite indexed_lookup by (by rewrite Hs). by rewrite Ht, Hfind. }
  assert (Hcb : skill_loader_callback (skills (rt_session rt)) args (rt_world rt) =
                Ok (mkToolResult (skill_text (mkSkill (fm_name fm) (fm_description fm) home) (of_bytes text)) [] [] false)).
  { unfold skill_loader_callback, read_skill_body. rewrite Hargs.
    change (last_string "name" [("name", JStr (fm_name fm))]) with (fm_name fm). change (last_string "file" [("name", JStr (fm_name fm))]) with "".
    cbn zeta. cbn [is_empty].
    rewrite Hsk. cbn [skill_path]. fold md. rewrite Hread. unfold complete in Hok. by destruct (is_empty (fm_name fm)). }
  unfold default_execute, mbind, M_bind, ask. rewrite Hi, Hallow. cbn [negb]. rewrite Hgate, Ht, lookup_app_r, Nat.sub_diag by done. cbn [lookup list_lookup].
  cbn [invoke_tool use_skill_tool callback parts_callback run_parts]. unfold mbind, M_bind, ask, host, mret, M_ret.
  cbn [run_parts]. rewrite Hcb. by destruct rt.
Qed.

End Loaded.

(** ** Nothing outside the skills' directories is read *)

Section Contained.
Context {W : Type} `{FsHost W} `{!CanonicalSpec W} `{JsonParser}.

(** [p] lies in the directory of one of the skills, as the sandbox check
    resolves it. *)
Definition in_skill (sk : gmap string Skill) (w : W) (p : string) : Prop :=
  ∃ name s root, sk !! name = Some s ∧ canonical_or_absolute (skill_path s) w = inr root ∧ within root w p.

(** Two states of the file system that resolve paths alike, have the same files
    where the skills are, and the same text under the name of each SKILL.md,
    wherever that leads; anything else may differ. *)
Record same_skills (sk : gmap string Skill) (w w' : W) : Prop := mkSameSkills {
  ss_canonical p : sys_canonical p w' = sys_canonical p w;
  ss_absolute p : sys_absolute p w' = sys_absolute p w;
  ss_status p : in_skill sk w p → sys_status p w' = sys_status p w;
  ss_read p off n : in_skill sk w p → sys_read p off n w' = sys_read p off n w;
  ss_body name s : sk !! name = Some s → read_all (path_join (skill_path s) "SKILL.md") w' = read_all (path_join (skill_path s) "SKILL.md") w
}.

Lemma resolved_in_skill sk w name s file path :
  sk !! name = Some s → resolve_under_workspace (skill_path s) file true w = Ok path → in_skill sk w path.
Proof using CanonicalSpec0. intros Hs (root & Hroot & Hp)%resolve_within. by exists name, s, root. Qed.

Lemma resolve_same sk w w' (s : Skill) file :
  same_skills sk w w' →
  resolve_under_workspace (skill_path s) file true w' = resolve_under_workspace (skill_path s) file true w.
Proof using Type.
  intros Hw. unfold resolve_under_workspace, canonical_or_absolute. by rewrite !(ss_canonical _ _ _ Hw), !(ss_absolute _ _ _ Hw).
Qed.


End Contained.

(** ** A directory with one skill *)

Module SkillSample.

Definition md : string := "---" +:+ nl +:+ "name: pdf" +:+ nl +:+ "description: 'Reads PDF files'" +:+ nl +:+ "---" +:+ nl +:+ "Use it.".

(** /s/pdf/SKILL.md is the only file; [secret] is the text of /secret. *)
Record Disk := mkDisk { secret : list Ascii.ascii }.

Definition file_at (p : string) (w : Disk) : option (list Ascii.ascii) :=
  if str_eqb p "/s/pdf/SKILL.md" then Some (bytes md) else if str_eqb p "/secret" then Some (secret w) else None.

Definition canon (p : string) : string :=
  if decide (path_elements p = ["/"; "s"; "pdf"]) then "/s/pdf"
  else if decide (path_elements p = ["/"; "s"; "pdf"; "SKILL.md"]) then "/s/pdf/SKILL.md" else "/secret".

#[export] Instance disk_host : FsHost Disk := {|
  sys_canonical p _ := Some (canon p);
  sys_absolute p _ := inr p;
  sys_exists p w := bool_decide (is_Some (file_at p w));
  sys_is_directory p _ := str_eqb p "/s";
  sys_status p w := match file_at p w with Some _ => Some RegularFile | None => Some NotFound end;
  sys_file_size p w := (λ b, Z.of_nat (length b)) <$> file_at p w;
  sys_read p off n w := (λ b, take (Z.to_nat (Z.min n (Z.of_nat (length b)))) (drop (Z.to_nat off) b)) <$> file_at p w;
  sys_write _ _ _ w := (w, None);
  sys_list _ _ := [mkDirEntry "README" false None; mkDirEntry "pdf" true None];
  sys_create_directories _ w := (w, None);
  sys_remove_all _ w := (w, inr 0%Z);
  sys_rename _ _ w := (w, None);
  sys_copy_file _ _ w := (w, None);
  sys_run_shell _ _ _ _ _ w := (w, Ok (mkCommandResult 0 false false [] []))
|}.

#[export] Instance disk_clock : Host Disk := {| now_ms w := (w, 0%Z); new_char _ := 0%Z; absolute_path _ p := Some p |}.

#[export] Instance reader : JsonParser := RefParser.parser.

Lemma skill_canon_cases p : canon p = "/s/pdf" ∨ canon p = "/s/pdf/SKILL.md" ∨ canon p = "/secret".
Proof. unfold canon. repeat case_decide; auto. Qed.

#[export] Instance disk_canonical : CanonicalSpec Disk.
Proof.
  split.
  - intros p c w [= <-]. cbn. f_equal. by destruct (skill_canon_cases p) as [->|[->| ->]].
  - intros p c w [= <-]. destruct (skill_canon_cases p) as [->|[->| ->]]; by apply (bool_decide_unpack _).
  - intros p c w [= <-] _. by destruct (skill_canon_cases p) as [->|[->| ->]].
  - intros p p' w E. cbn. unfold canon. by rewrite E.
Qed.

#[export] Instance disk_absolute : AbsoluteSpec Disk.
Proof. intros p w _. done. Qed.

Definition loaded : gmap string Skill := {["pdf" := mkSkill "pdf" "Reads PDF files" "/s/pdf"]}.

Definition args (name : string) : string := render (JObj [("name", JStr name)]).

Lemma secret_outside w p : in_skill loaded w p → file_at p (mkDisk []) = file_at p w.
Proof.
  intros (n & s & root & Hs & Hroot & Hin). unfold loaded in Hs. apply lookup_singleton_Some in Hs as [<- <-]. injection Hroot as <-.
  unfold file_at. case_match; [done|]. case_match eqn:E; [|done]. apply str_eqb_true in E as ->. by destruct Hin as [Hin _].
Qed.

(** A file outside is refused. *)
Example outside_refused :
  skill_loader_callback loaded (render (JObj [("name", JStr "pdf"); ("file", JStr "../../secret")])) (mkDisk (bytes "x")) =
    fail SandboxViolation "use_skill: 'file' must be inside the skill directory".
Proof. vm_compute. reflexivity. Qed.

Definition session : Session Disk :=
  mkSession (mkConfig Mock "" "" "" "" None [] 4096 512 10 4 None None None 0) (Arena_new 4096 65536) [] [] None (Some ∅)
    no_session_stats ∅ "" "" ∅ None 0 ∅ [].

Definition rt : Rt Disk :=
  mkRt (load_skills_dir "/s" true session (mkDisk [])).1 (mkDisk [])
    (mkAmbient None [] [] 0 false false false (Arena_new 1048576 0)) [] None.

End SkillSample.

#[local] Existing Instances SkillSample.disk_host SkillSample.disk_clock SkillSample.reader SkillSample.disk_canonical SkillSample.disk_absolute.


Lemma loaded_skill_is_used_witness :
  default_execute "use_skill" (SkillSample.args "pdf") SkillSample.rt =
    (SkillSample.rt, Ok (mkToolResult (skill_text (mkSkill "pdf" "Reads PDF files" "/s/pdf") SkillSample.md) [] [] false)).
Proof.
  refine (proj2 (loaded_skill_is_used ["s"] SkillSample.session (mkDirEntry "pdf" true None) [mkDirEntry "README" false None] []
    [] (bytes "name: pdf") [bytes "description: 'Reads PDF files'"] (bytes (nl +:+ "Use it.")) SkillSample.rt (SkillSample.args "pdf")
    _ _ _ _ _ _ _ _ _ _ _ _ _ _ _ _ _ _)).
  4-8, 11, 12, 16, 18: vm_compute; reflexivity.
  8, 9: reflexivity.
  - discriminate.
  - repeat constructor; try discriminate. by apply (bool_decide_unpack _).
  - repeat constructor; try discriminate. by apply (bool_decide_unpack _).
  - apply not_elem_of_nil.
  - repeat constructor; try (by apply (bool_decide_unpack _)); discriminate.
  - intros e' s' []%elem_of_nil.
  - constructor.
Defined.
