(* ===== verification/Tasks.v ===== *)
(** * Decisions and text recognition (src/core/tasks/decide.cpp, ocr.cpp)

    decide, decide_score, decide_yes_no and ocr put one request to the session's
    engine and read its answer.  The thread-local arena of each file is [slab].
    The theorem says what a decision is: the engine was asked with exactly the
    caller's options, there is one probability for each, and the choice is the
    first of the greatest ones. *)
From stdpp Require Import base gmap strings list sorting pretty.
From Stdlib Require Import Lia ZArith SpecFloat.
From S2P Require Import Prelude Arena Text Decimal Json Session Provider History Models Chunker VectorStore Rag.

Definition AGENT_CAP_OCR : Z := 32.
Definition AGENT_CAP_DECIDE : Z := 65536.

Record DecideOptions := mkDecideOptions { do_media : list Media; do_system : string; do_instructions : bool }.

Record Decision := mkDecision {
  d_options : list string;
  d_probs : list float;
  d_choice : nat;
  d_confidence : float;
  d_score : float
}.

(** ** decide *)

Section Tasks.
Context {W : Type} `{Host W}.

Definition decide_arena (slab : option Arena) (extra : Z) : Arena :=
  let need := u64 (kArenaBase + extra) in
  match slab with
  | Some a => if (capacity_ a <? need)%Z then Arena_new (new_char need) need else reset a
  | None => Arena_new (new_char need) need
  end.

Definition text_size (s : string) : Z := Z.of_nat (String.length s).

(** [if (d.probs\[i\] > d.probs\[d.choice\]) d.choice = i], from [i] on. *)
Fixpoint best_from (i : nat) (probs : list float) (choice : nat) (best : float) : nat * float :=
  match probs with
  | [] => (choice, best)
  | p :: rest => if f_gt p best then best_from (S i) rest i p else best_from (S i) rest choice best
  end.

Definition decision_of (probs : list float) : Decision :=
  match probs with
  | [] => mkDecision [] [] 0 f32_zero f32_zero (* not reached: the tensor is not empty *)
  | p :: rest => let '(choice, best) := best_from 1 rest 0 p in mkDecision [] probs choice best best
  end.

(** The loop over the output tensors: the first one named "probs". *)
Fixpoint take_probs (tensors : list TensorData) : Result Decision :=
  match tensors with
  | [] => fail DecodeFailed ("decide: engine returned no " +:+ q +:+ "probs" +:+ q +:+ " tensor.")
  | t :: rest =>
      if negb (str_eqb (tensor_name t) "probs") then take_probs rest
      else if negb (is_float32 t) || negb (Nat.eqb (length (tensor_data t) mod 4) 0) || Nat.eqb (length (tensor_data t)) 0 then
        fail DecodeFailed ("decide: engine returned a malformed " +:+ q +:+ "probs" +:+ q +:+ " tensor.")
      else Ok (decision_of (as_floats (tensor_data t)))
  end.

Definition decide_messages (question : string) (opts : DecideOptions) : list MessageView :=
  (if is_empty (do_system opts) then [] else [mkMessageView "system" (do_system opts) [] "" [] []]) ++
  [mkMessageView "user" question [] "" [] (do_media opts)].

Definition decide_request (question params : string) (opts : DecideOptions) : InferRequest W :=
  mkInferRequest (decide_messages question opts) 0 false None 0 params no_temperature.

(** [sizeof(MediaView)] is 32. *)
Definition run_decide (question params : string) (opts : DecideOptions) (slab : option Arena) :
    M W (option Arena * Result Decision) :=
  s ← ask rt_session;
  if is_empty question then mret (slab, fail InvalidConfig "decide: question must not be empty.")
  else if cancelled s then mret (slab, fail Cancelled "decide: cancelled.")
  else
    let ar := decide_arena slab (u64 (text_size params + text_size question + text_size (do_system opts))) in
    let n := Z.of_nat (length (do_media opts)) in
    let '(ar, media) := allocate_span ar 32 8 n in
    if negb (span_size media =? n)%Z then mret (Some ar, fail OutOfMemory "decide: arena full.")
    else
      '(ar, res) ← infer_task AGENT_CAP_DECIDE (decide_request question params opts) ar;
      mret (Some ar, result_bind res (λ r, take_probs (resp_tensors r))).

Definition common_params (opts : DecideOptions) : string :=
  if do_instructions opts then "" else "," +:+ q +:+ "instructions" +:+ q +:+ ":false".

Definition choice_params (options : list string) (opts : DecideOptions) : string :=
  "{" +:+ q +:+ "mode" +:+ q +:+ ":" +:+ q +:+ "choice" +:+ q +:+ "," +:+ q +:+ "options" +:+ q +:+ ":[" +:+
  join_comma (quoted <$> options) +:+ "]" +:+ common_params opts +:+ "}".

Definition set_options (d : Decision) (options : list string) (score : float) : Decision :=
  mkDecision options (d_probs d) (d_choice d) (d_confidence d) score.

Definition decide (question : string) (options : list string) (opts : DecideOptions) (slab : option Arena) :
    M W (option Arena * Result Decision) :=
  if Nat.ltb (length options) 2 then mret (slab, fail InvalidConfig "decide: needs at least two options.")
  else if existsb is_empty options then mret (slab, fail InvalidConfig "decide: options must not be empty.")
  else
    '(slab, r) ← run_decide question (choice_params options opts) opts slab;
    mret (slab, result_bind r (λ d,
      if negb (Nat.eqb (length (d_probs d)) (length options)) then
        fail DecodeFailed ("decide: engine returned " +:+ to_string (Z.of_nat (length (d_probs d))) +:+ " probabilities for " +:+
                           to_string (Z.of_nat (length options)) +:+ " options.")
      else Ok (set_options d options (d_score d)))).

(** ** decide_score *)

Definition score_params (min max : Z) (opts : DecideOptions) : string :=
  "{" +:+ q +:+ "mode" +:+ q +:+ ":" +:+ q +:+ "score" +:+ q +:+ "," +:+ q +:+ "scale" +:+ q +:+ ":[" +:+
  to_string min +:+ "," +:+ to_string max +:+ "]" +:+ common_params opts +:+ "}".

(** An integer of at most 32 bits as a [double]: exact. *)
Definition double_of_int (z : Z) : double :=
  match z with Z0 => S754_zero false | Zpos p => binary_round 53 1024 false p 0 | Zneg p => binary_round 53 1024 true p 0 end.

(** [expected], level by level from [level] on. *)
Fixpoint expected_from (level : Z) (probs : list float) (expected : double) : double :=
  match probs with
  | [] => expected
  | p :: rest => expected_from (level + 1) rest (f64_add expected (f64_mul (to_double p) (double_of_int level)))
  end.

Fixpoint levels_from (level : Z) (n : nat) : list string :=
  match n with O => [] | S n => to_string level :: levels_from (level + 1) n end.

(** [min] and [max] are [int]s; [max - min] is taken modulo 2^32, which the
    language leaves undefined when it overflows. *)
Definition decide_score (question : string) (min max : Z) (opts : DecideOptions) (slab : option Arena) :
    M W (option Arena * Result Decision) :=
  if (max <=? min)%Z || (100 <? i32 (max - min))%Z then
    mret (slab, fail InvalidConfig "decide_score: needs min < max and at most 101 levels.")
  else
    '(slab, r) ← run_decide question (score_params min max opts) opts slab;
    let levels := u64 (i32 (max - min) + 1) in
    mret (slab, result_bind r (λ d,
      if negb (Z.of_nat (length (d_probs d)) =? levels)%Z then
        fail DecodeFailed ("decide_score: engine returned " +:+ to_string (Z.of_nat (length (d_probs d))) +:+ " probabilities for " +:+
                           to_string levels +:+ " levels.")
      else Ok (set_options d (levels_from min (Z.to_nat levels)) (to_float (expected_from min (d_probs d) f32_zero))))).

(** ** decide_yes_no *)

Definition yesno_params (opts : DecideOptions) : string :=
  "{" +:+ q +:+ "mode" +:+ q +:+ ":" +:+ q +:+ "yesno" +:+ q +:+ common_params opts +:+ "}".

Definition decide_yes_no (question : string) (opts : DecideOptions) (slab : option Arena) : M W (option Arena * Result float) :=
  '(slab, r) ← run_decide question (yesno_params opts) opts slab;
  mret (slab, result_bind r (λ d,
    match d_probs d with
    | [yes; _] => Ok yes
    | ps => fail DecodeFailed ("decide_yes_no: engine returned " +:+ to_string (Z.of_nat (length ps)) +:+ " probabilities instead of 2.")
    end)).

(** ** ocr *)

Definition ocr_arena (slab : option Arena) (extra : Z) : Arena :=
  let need := u64 (64 * 1024 + extra) in
  match slab with
  | Some a => if (capacity_ a <? need)%Z then Arena_new (new_char need) need else reset a
  | None => Arena_new (new_char need) need
  end.

Definition ocr_params (prompt : string) : string :=
  if is_empty prompt then "" else "{" +:+ q +:+ "prompt" +:+ q +:+ ":" +:+ quoted prompt +:+ "}".

Definition ocr (image : Media) (prompt : string) (slab : option Arena) : M W (option Arena * Result string) :=
  s ← ask rt_session;
  if is_empty (media_path image) then mret (slab, fail InvalidConfig "ocr: image path must not be empty.")
  else if cancelled s then mret (slab, fail Cancelled "ocr: cancelled.")
  else
    let params := ocr_params prompt in
    let ar := ocr_arena slab (u64 (text_size params + text_size (media_path image) + 256 * 1024)) in
    '(ar, res) ← infer_task AGENT_CAP_OCR (mkInferRequest [mkMessageView "user" "" [] "" [] [image]] 0 false None 0 params no_temperature) ar;
    mret (Some ar, result_bind res (λ r, Ok (view_content (resp_message r)))).

End Tasks.

(** ** The choice is the first of the greatest *)

(** [best] is at [choice] in [probs], nothing before it is as great, nothing is greater. *)
Definition first_best (probs : list float) (choice : nat) (best : float) : Prop :=
  probs !! choice = Some best ∧
  ∀ i p, probs !! i = Some p → f_gt p best = false ∧ (i < choice → f_gt best p = true).

Lemma f_gt_not x y : is_nan x = false → is_nan y = false → f_gt x y = false ↔ ~ frank_lt (frank y) (frank x).
Proof. intros Hx Hy. rewrite <- f_gt_frank by done. by destruct (f_gt x y). Qed.

Lemma f_gt_irrefl x : f_gt x x = false.
Proof. destruct (is_nan x) eqn:E; [by destruct x|]. apply f_gt_not; [done|done|]. unfold frank_lt. lia. Qed.

Lemma first_best_snoc probs choice best p :
  Forall (λ x, is_nan x = false) (probs ++ [p]) → first_best probs choice best →
  first_best (probs ++ [p]) (if f_gt p best then length probs else choice) (if f_gt p best then p else best).
Proof.
  intros Hn [Hc Hb]. rewrite Forall_app, Forall_singleton in Hn. destruct Hn as [Hn Hp].
  assert (Hbest : is_nan best = false) by (rewrite Forall_lookup in Hn; by eapply Hn).
  destruct (f_gt p best) eqn:Eg; split.
  - by rewrite lookup_app_r, Nat.sub_diag.
  - intros i x Hx. apply lookup_app_Some in Hx as [Hx|[Hi Hx]].
    + assert (Hxn : is_nan x = false) by (rewrite Forall_lookup in Hn; by eapply Hn). destruct (Hb i x Hx) as [Hle _].
      apply f_gt_not in Hle; [|done|done]. apply f_gt_frank in Eg; [|done|done].
      assert (frank_lt (frank x) (frank p)).
      { destruct (frank_trichotomy (frank best) (frank x)) as [?|[E|?]]; [done|by rewrite <- E|]. unfold frank_lt in *. lia. }
      split; [apply f_gt_not; [done|done|]; unfold frank_lt in *; lia|intros _; by apply f_gt_frank].
    + destruct (i - length probs) as [|k] eqn:Ek; [|done]. injection Hx as <-. split; [apply f_gt_irrefl|lia].
  - by apply lookup_app_l_Some.
  - intros i x Hx. apply lookup_app_Some in Hx as [Hx|[Hi Hx]]; [by apply Hb|].
    destruct (i - length probs) as [|k] eqn:Ek; [|done]. injection Hx as <-. split; [done|].
    apply lookup_lt_Some in Hc. lia.
Qed.

Lemma best_from_spec rest probs choice best :
  Forall (λ x, is_nan x = false) (probs ++ rest) → first_best probs choice best →
  first_best (probs ++ rest) (best_from (length probs) rest choice best).1 (best_from (length probs) rest choice best).2.
Proof.
  revert probs choice best. induction rest as [|p rest IH]; intros probs choice best Hn Hb; cbn [best_from].
  { by rewrite app_nil_r. }
  rewrite cons_middle, app_assoc in Hn |- *. pose proof (first_best_snoc probs choice best p (proj1 (proj1 (Forall_app _ _ _) Hn)) Hb) as Hs.
  specialize (IH (probs ++ [p])). rewrite length_app in IH. cbn [length] in IH. rewrite Nat.add_1_r in IH.
  destruct (f_gt p best); by apply IH.
Qed.

Lemma decision_best probs :
  probs ≠ [] → Forall (λ x, is_nan x = false) probs →
  first_best probs (d_choice (decision_of probs)) (d_confidence (decision_of probs)).
Proof.
  destruct probs as [|p rest]; [done|]. intros _ Hn. unfold decision_of.
  pose proof (best_from_spec rest [p] 0 p Hn) as Hb. cbn [length app] in Hb. destruct (best_from 1 rest 0 p) as [c b]. apply Hb.
  split; [done|]. intros [|i] x Hx; [|done]. injection Hx as <-. split; [apply f_gt_irrefl|lia].
Qed.

Lemma decision_probs probs : d_probs (decision_of probs) = probs.
Proof. destruct probs as [|p rest]; [done|]. unfold decision_of. by destruct (best_from _ _ _ _). Qed.

(** [d] was read from the first tensor named probs. *)
Lemma take_probs_ok tensors d :
  take_probs tensors = Ok d →
  ∃ before t after, tensors = before ++ t :: after ∧ Forall (λ t, tensor_name t ≠ "probs") before ∧ tensor_name t = "probs" ∧
    is_float32 t = true ∧ length (tensor_data t) mod 4 = 0 ∧ tensor_data t ≠ [] ∧ d = decision_of (as_floats (tensor_data t)).
Proof.
  induction tensors as [|t rest IH]; cbn [take_probs]; [done|]. destruct (str_eqb (tensor_name t) "probs") eqn:En; cbn [negb].
  - destruct (is_float32 t) eqn:Ef; cbn [negb orb]; [|done]. destruct (Nat.eqb_spec (length (tensor_data t) mod 4) 0) as [E4|]; cbn [negb orb]; [|done].
    destruct (tensor_data t) as [|c l] eqn:Ed; cbn [length Nat.eqb]; [done|]. intros [= <-]. exists [], t, rest.
    apply str_eqb_true in En. rewrite Ed. by split_and!.
  - intros (before & t' & after & -> & Hb & Ht)%IH. exists (t :: before), t', after. split; [done|]. split; [|done].
    constructor; [by apply str_eqb_false|done].
Qed.

(** ** What the engine is asked *)

Definition instructions_field (opts : DecideOptions) : list (string * json) :=
  if do_instructions opts then [] else [("instructions", JBool false)].

Definition choice_tree (options : list string) (opts : DecideOptions) : json :=
  JObj ([("mode", JStr "choice"); ("options", JArr (JStr <$> options))] ++ instructions_field opts).

Lemma choice_params_tree options opts : choice_params options opts = render (choice_tree options opts).
Proof.
  unfold choice_params, choice_tree, instructions_field, common_params.
  assert (Hr : map render (JStr <$> options) = quoted <$> options) by (induction options as [|o os IH]; cbn; [done|by f_equal]).
  destruct (do_instructions opts); cbn [app]; rewrite render_JObj; cbn [map]; unfold render_member; cbn [fst snd]; rewrite render_JArr, Hr; render_eq.
Qed.

Lemma choice_tree_ok options opts : Forall (λ o, valid_utf8 (bytes o)) options → json_ok (choice_tree options opts).
Proof.
  intros Ho. unfold choice_tree, instructions_field.
  assert (Hk : ∀ k : string, Forall (λ c, (byte_of c < 128)%N) (bytes k) → valid_utf8 (bytes k)) by (intros; by apply valid_ascii).
  assert (Ha : json_ok (JArr (JStr <$> options))).
  { induction Ho as [|o os Hv _ IH]; [done|]. by split. }
  destruct (do_instructions opts); cbn [app json_ok foldr fst snd]; split_and!; try done; apply Hk; by repeat constructor.
Qed.

(** C28. A decision that is returned is the engine's answer to exactly this
    question: the engine was asked once, with the caller's messages and a
    parameter object that reads back as the caller's options; its first tensor
    named probs gives one probability for each option, and the choice is the
    first option with the greatest one. *)
Theorem decision_is_engines_best {W : Type} `{Host W} `{JsonParserSpec} (question : string) (options : list string)
    (opts : DecideOptions) (slab slab' : option Arena) (rt rt' : Rt W) (d : Decision) :
  Forall (λ o, valid_utf8 (bytes o)) options →
  decide question options opts slab rt = (rt', (slab', Ok d)) →
  (∃ params ar ar' resp t,
     infer_task AGENT_CAP_DECIDE (decide_request question params opts) ar rt = (rt', (ar', Ok resp)) ∧
     parse_json params = Some (choice_tree options opts) ∧
     t ∈ resp_tensors resp ∧ tensor_name t = "probs" ∧ tensor_dtype t = Float32 ∧ d_probs d = as_floats (tensor_data t)) ∧
  d_options d = options ∧ 2 ≤ length options ∧ length (d_probs d) = length options ∧
  (Forall (λ p, is_nan p = false) (d_probs d) → first_best (d_probs d) (d_choice d) (d_confidence d)).
Proof.
  intros Ho. unfold decide. destruct (Nat.ltb_spec (length options) 2) as [|Hlen]; [done|]. destruct (existsb _ _); [done|].
  unfold run_decide, mbind, M_bind, ask, mret, M_ret. destruct (is_empty question); [done|]. destruct (cancelled _); [done|]. cbn zeta.
  destruct (allocate_span _ _ _ _) as [ar media]. destruct (negb (span_size media =? _)%Z); [done|].
  destruct (infer_task _ _ _ rt) as [rt1 [ar1 res]] eqn:Ei. cbn [result_bind]. intros [= -> <- Hd]. destruct res as [resp|]; [|done].
  cbn [result_bind] in Hd. destruct (take_probs _) as [d0|] eqn:Et; [|done]. cbn [result_bind] in Hd.
  destruct (Nat.eqb_spec (length (d_probs d0)) (length options)) as [El|]; [|done]. injection Hd as <-.
  apply take_probs_ok in Et as (before & t & after & Hts & _ & Hn & Hf & H4 & Hne & ->). rewrite decision_probs in El.
  cbn [set_options d_options d_probs d_choice d_confidence]. rewrite decision_probs. split_and!; try done.
  - exists (choice_params options opts), ar, ar1, resp, t. split_and!; try done.
    + rewrite choice_params_tree. by apply parse_render, choice_tree_ok.
    + rewrite Hts. apply elem_of_app. right. by left.
    + unfold is_float32 in Hf. by destruct (tensor_dtype t).
  - intros Hnan. apply decision_best; [|done]. intros E. rewrite E in El. cbn in El. lia.
Qed.

(** The levels of a scale are its integers in order, and the score is the
    probability-weighted sum of them in double precision. *)
Lemma score_levels {W : Type} `{Host W} question min max opts slab (rt rt' : Rt W) slab' d :
  (-2147483648 ≤ min)%Z → (max ≤ 2147483647)%Z → (max - min ≤ 2147483647)%Z →
  decide_score question min max opts slab rt = (rt', (slab', Ok d)) →
  (min < max ≤ min + 100)%Z ∧ Z.of_nat (length (d_probs d)) = (max - min + 1)%Z ∧
  d_options d = levels_from min (Z.to_nat (max - min + 1)) ∧ d_score d = to_float (expected_from min (d_probs d) f32_zero).
Proof.
  intros Hmin Hmax Hr. unfold decide_score. destruct (Z.leb_spec max min) as [|Hlt]; cbn [orb]; [done|].
  assert (Hi : i32 (max - min) = (max - min)%Z).
  { unfold i32. rewrite Z.mod_small by lia. lia. }
  rewrite Hi. destruct (Z.ltb_spec 100 (max - min)) as [|Hle]; [done|]. rewrite u64_small by (unfold u64_modulus; lia).
  unfold mbind, M_bind, mret, M_ret. destruct (run_decide _ _ _ _ rt) as [rt1 [s1 [d0|]]]; cbn [result_bind]; [|done].
  destruct (Z.eqb_spec (Z.of_nat (length (d_probs d0))) (max - min + 1)) as [El|]; [|done]. cbn [negb]. intros [= _ _ <-].
  split_and!; try done; lia.
Qed.

Module TaskSample.

#[local] Existing Instances Sample.sample_host RefParser.parser RefParser_spec.

(** An engine that gives 0.25 and 0.75. *)
Definition probs_tensor : TensorData :=
  mkTensorData "probs" Float32 [2%Z] (Ascii.ascii_of_N <$> [0; 0; 128; 62; 0; 0; 64; 63]%N).

Definition engine : EngineState unit :=
  mkEngineState "decider" AGENT_CAP_DECIDE 0 false
    (λ _ _ _ _ ar w, (w, ar, Ok (mkInferResponse (user_message "") (mkTokenUsage 0 0 0) [probs_tensor])))
    (λ _ w, (w, Ok 1%Z)) (λ w, (w, Ok tt)).

Definition rt : Rt unit :=
  mkRt (mkSession (mkConfig Engine "" "" "" "" None [] 4096 512 10 4 None None None 0) (Arena_new 4096 65536) [] []
          (Some engine) (Some ∅) no_session_stats ∅ "" "" ∅ None 0 ∅ [])
    tt (mkAmbient None [] [] 0 false false false (Arena_new 1048576 0)) [] None.

Definition opts : DecideOptions := mkDecideOptions [] "" true.

Definition answer : Decision := mkDecision ["cat"; "dog"] (as_floats (tensor_data probs_tensor)) 1 (VectorSample.f 3 (-2)) (VectorSample.f 3 (-2)).

Lemma answer_returned : (decide "which" ["cat"; "dog"] opts None rt).2.2 = Ok answer.
Proof. vm_compute. reflexivity. Qed.

End TaskSample.

#[local] Existing Instances Sample.sample_host RefParser.parser RefParser_spec.

Lemma decision_is_engines_best_witness :
  first_best (d_probs TaskSample.answer) (d_choice TaskSample.answer) (d_confidence TaskSample.answer).
Proof.
  destruct (decide "which" ["cat"; "dog"] TaskSample.opts None TaskSample.rt) as [rt' [slab' r]] eqn:E.
  pose proof TaskSample.answer_returned as Hr. rewrite E in Hr. cbn in Hr. subst r.
  apply (decision_is_engines_best "which" ["cat"; "dog"] TaskSample.opts None slab' TaskSample.rt rt' TaskSample.answer).
  - repeat constructor; apply valid_ascii; by repeat constructor.
  - exact E.
  - by repeat constructor.
Defined.
