(* ===== verification/EngineRegistry.v ===== *)
(** * The engine registry (src/core/engines/engine_registry.cpp)

    The engines of the process, by name: tables that were linked in or loaded
    from plugin files, and the records of where plugins came from and how they
    are to be isolated.  Engine tables live at addresses ([engine_at]); the
    dynamic loader is [Loader].  Every operation takes the registry's lock for
    the steps [register_engine] and [record_plugin]; the theorem holds for any
    interleaving of those steps: one engine per name, valid tables only, and
    what was found once is found ever after. *)
From stdpp Require Import base gmap strings list pretty sorting.
From Stdlib Require Import Lia ZArith.
From S2P Require Import Prelude Text Json Session History Models GraphJson Sandbox Mcp FsTools EngineIpc EngineHost.

Inductive EngineIsolation := IsoDefault | InProcess | Process.

#[global] Instance EngineIsolation_eq_dec : EqDecision EngineIsolation.
Proof. solve_decision. Defined.

Record PluginRecord := mkPluginRecord { rec_name : string; rec_path : string; rec_isolation : EngineIsolation }.

(** [registry()] and [plugin_records()]. *)
Record Registry := mkRegistry { registered : list Z; plugin_records : list PluginRecord }.

Definition empty_registry : Registry := mkRegistry [] [].

(** The table an engine pointer leads to. *)
Class EngineTables (E : Type) := engine_at : Z → agent_engine_v1 E.

(** [hal::open_library] (the error text, or the library), and the function
    [agent_engine_get_v1] a library exports; it may return null. *)
Class Loader (W : Type) := {
  open_library : string → W → W * (string + Z);
  find_entry_point : Z → option (W → W * option Z)
}.

(** ** Records *)

Fixpoint record_in (name path : string) (isolation : EngineIsolation) (l : list PluginRecord) : list PluginRecord :=
  match l with
  | [] => [mkPluginRecord name path isolation]
  | r :: rest =>
      if str_eqb (rec_name r) name then
        mkPluginRecord (rec_name r) path (if decide (isolation = IsoDefault) then rec_isolation r else isolation) :: rest
      else r :: record_in name path isolation rest
  end.

Definition record_plugin (name path : string) (isolation : EngineIsolation) (g : Registry) : Registry :=
  mkRegistry (registered g) (record_in name path isolation (plugin_records g)).

Definition find_plugin_record (name : string) (g : Registry) : option (string * EngineIsolation) :=
  (λ r, (rec_path r, rec_isolation r)) <$> List.find (λ r, str_eqb (rec_name r) name) (plugin_records g).

(** [path::stem()] *)
Definition path_stem (p : string) : string :=
  let f := filename p in String.substring 0 (String.length f - String.length (path_extension p)) f.

Definition name_from_plugin_path (path : string) : string :=
  let stem := path_stem path in
  if starts_with "agent-engine-" stem then String.substring 13 (String.length stem) stem else stem.

(** ** Engines *)

Section Engines.
Context {E : Type} `{EngineTables E}.

Definition engine_name (p : Z) : option string := eng_name (engine_at p).

Definition find_locked (name : string) (l : list Z) : option Z :=
  List.find (λ p, match engine_name p with Some n => str_eqb name n | None => false end) l.

Definition find_engine (name : string) (g : Registry) : option Z := find_locked name (registered g).

Definition validate (engine : option Z) : Result unit :=
  match engine with
  | None => fail InvalidConfig "Engine is null."
  | Some p =>
      let e := engine_at p in
      if negb (abi_version e =? AGENT_ENGINE_ABI_VERSION)%Z then
        fail UnsupportedProvider ("Engine ABI version " +:+ to_string (abi_version e) +:+ " does not match host ABI version " +:+
                                  to_string AGENT_ENGINE_ABI_VERSION +:+ ".")
      else if (struct_size e <? AGENT_ENGINE_V2_SIZE)%Z then
        fail UnsupportedProvider ("Engine table is " +:+ to_string (struct_size e) +:+ " bytes, smaller than the ABI 2 baseline (" +:+
                                  to_string AGENT_ENGINE_V2_SIZE +:+ "). Rebuild the engine against the current engine_abi.h.")
      else if no_name e then fail InvalidConfig "Engine has no name."
      else if missing_function e then
        fail InvalidConfig ("Engine '" +:+ default "" (eng_name e) +:+ "' is missing a required function.")
      else Ok tt
  end.

Definition register_engine (engine : option Z) (g : Registry) : Registry * Result unit :=
  match validate engine, engine with
  | Fail e, _ => (g, Fail e)
  | Ok _, None => (g, fail InvalidConfig "Engine is null.") (* not reached: validate refused it *)
  | Ok _, Some p =>
      let name := default "" (engine_name p) in
      match find_locked name (registered g) with
      | Some existing =>
          if (existing =? p)%Z then (g, Ok tt)
          else (g, fail InvalidConfig ("An engine named '" +:+ name +:+ "' is already registered."))
      | None => (mkRegistry (registered g ++ [p]) (plugin_records g), Ok tt)
      end
  end.

(** ** Plugins *)

Context {W : Type} `{Loader W} `{FsHost W} `{JsonParser}.

Definition load_engine_plugin (path : string) (g : Registry) (w : W) : Registry * W * Result string :=
  let '(w, lib) := open_library path w in
  match lib with
  | inl error => (g, w, fail ProviderInitFailed ("Failed to load engine plugin '" +:+ path +:+ "': " +:+ error))
  | inr lib =>
      match find_entry_point lib with
      | None => (g, w, fail ProviderInitFailed ("'" +:+ path +:+ "' does not export agent_engine_get_v1."))
      | Some get =>
          let '(w, engine) := get w in
          let '(g, r) := register_engine engine g in
          match r with
          | Fail e => (g, w, Fail e)
          | Ok _ =>
              let name := default "" (engine ≫= engine_name) in
              (record_plugin name path IsoDefault g, w, Ok name)
          end
      end
  end.

(** ** The manifest *)

Definition entry_string (key : string) (entry : json) : option string := (get_object entry ≫= field key) ≫= get_string.

(** The "isolation" of an entry: absent or not a string is the default. *)
Definition entry_isolation (manifest : string) (entry : json) : Result EngineIsolation :=
  match entry_string "isolation" entry with
  | None => Ok IsoDefault
  | Some s =>
      if str_eqb s "process" then Ok Process
      else if str_eqb s "inprocess" then Ok InProcess
      else fail ParseError (manifest +:+ ": " +:+ q +:+ "isolation" +:+ q +:+ " must be " +:+ q +:+ "process" +:+ q +:+ " or " +:+ q +:+
                            "inprocess" +:+ q +:+ ", got " +:+ q +:+ s +:+ q +:+ ".")
  end.

Definition plugin_file (manifest path : string) : string :=
  if starts_with "/" path then path else path_join (parent_path manifest) path.

Definition is_plugin_file (p : string) (w : W) : bool := bool_decide (sys_status p w = Some RegularFile).

(** The name of an entry that is only recorded. *)
Definition recorded_name (entry : json) (plugin : string) : string :=
  match entry_string "name" entry with
  | Some n => if is_empty n then name_from_plugin_path plugin else n
  | None => name_from_plugin_path plugin
  end.

Fixpoint load_entries (manifest : string) (entries : list json) (loaded : list string) (g : Registry) (w : W) :
    Registry * W * Result (list string) :=
  match entries with
  | [] => (g, w, Ok loaded)
  | entry :: rest =>
      let path := default "" (entry_string "path" entry) in
      if is_empty path then (g, w, fail ParseError (manifest +:+ ": every engine needs a " +:+ q +:+ "path" +:+ q +:+ "."))
      else
        let plugin := plugin_file manifest path in
        match entry_isolation manifest entry with
        | Fail e => (g, w, Fail e)
        | Ok Process =>
            if negb (is_plugin_file plugin w) then
              (g, w, fail FilesystemError (manifest +:+ ": engine plugin not found: " +:+ plugin))
            else
              let name := recorded_name entry plugin in
              load_entries manifest rest (loaded ++ [name]) (record_plugin name plugin Process g) w
        | Ok isolation =>
            let '(g, w, r) := load_engine_plugin plugin g w in
            match r with
            | Fail e => (g, w, Fail e)
            | Ok name =>
                let g := if decide (isolation = IsoDefault) then g else record_plugin name plugin isolation g in
                load_entries manifest rest (loaded ++ [name]) g w
            end
        end
  end.

Definition load_engine_manifest (manifest : string) (g : Registry) (w : W) : Registry * W * Result (list string) :=
  match sys_read manifest 0 (2 ^ 63 - 1) w with
  | None => (g, w, fail FilesystemError ("Cannot open engine manifest: " +:+ manifest))
  | Some text =>
      match ((parse_json (of_bytes text) ≫= get_object) ≫= field "engines") ≫= get_array with
      | None => (g, w, fail ParseError (manifest +:+ ": expected {" +:+ q +:+ "engines" +:+ q +:+ ": [...]}."))
      | Some entries => load_entries manifest entries [] g w
      end
  end.

End Engines.

(** ** Every interleaving *)

Section Sound.
Context {E : Type} `{EngineTables E}.

(** What a thread does while it holds the lock. *)
Inductive RegOp :=
| Register (engine : option Z)
| Recorded (name path : string) (isolation : EngineIsolation).

Definition reg_exec (g : Registry) (o : RegOp) : Registry :=
  match o with
  | Register p => (register_engine p g).1
  | Recorded n p i => record_plugin n p i g
  end.

Definition reg_run (g : Registry) (os : list RegOp) : Registry := foldl reg_exec g os.

Record registry_ok (g : Registry) : Prop := mkRegistryOk {
  ro_valid p : p ∈ registered g → validate (Some p) = Ok tt;
  ro_names : NoDup (engine_name <$> registered g);
  ro_records : NoDup (rec_name <$> plugin_records g)
}.

Lemma record_in_names n p i l x : x ∈ rec_name <$> record_in n p i l ↔ x ∈ rec_name <$> l ∨ x = n.
Proof.
  induction l as [|r l IH]; cbn; [set_solver|]. destruct (str_eqb (rec_name r) n) eqn:Er; cbn.
  - apply str_eqb_true in Er. set_solver.
  - rewrite !elem_of_cons, IH. tauto.
Qed.

Lemma record_in_nodup n p i l : NoDup (rec_name <$> l) → NoDup (rec_name <$> record_in n p i l).
Proof.
  induction l as [|r l IH]; intros Hn; [apply NoDup_singleton|]. apply NoDup_cons in Hn as [Hr Hn]. cbn [record_in].
  destruct (str_eqb (rec_name r) n) eqn:Er; cbn; apply NoDup_cons; [done|]. split; [|by apply IH].
  rewrite record_in_names. apply str_eqb_false in Er. tauto.
Qed.

Lemma find_locked_some name l p : find_locked name l = Some p → p ∈ l ∧ engine_name p = Some name.
Proof.
  unfold find_locked. intros [Hin Hn]%find_some. rewrite <- list_elem_of_In in Hin. split; [done|].
  destruct (engine_name p); [|done]. apply str_eqb_true in Hn. by subst.
Qed.

Lemma find_locked_none name l p : find_locked name l = None → p ∈ l → engine_name p ≠ Some name.
Proof.
  unfold find_locked. intros Hf Hin He. rewrite list_elem_of_In in Hin. pose proof (find_none _ _ Hf p Hin) as Hp. cbn in Hp.
  rewrite He in Hp. by rewrite str_eqb_refl in Hp.
Qed.

Lemma find_locked_app name l l' p : find_locked name l = Some p → find_locked name (l ++ l') = Some p.
Proof.
  unfold find_locked. induction l as [|x l IH]; cbn; [done|]. destruct (engine_name x) as [n|]; [|apply IH].
  destruct (str_eqb name n); [done|apply IH].
Qed.

Lemma validate_name p : validate (Some p) = Ok tt → ∃ n, engine_name p = Some n ∧ n ≠ "".
Proof.
  unfold validate, engine_name, no_name. repeat (case_match; try done). intros _. eexists. split; [done|]. by intros ->.
Qed.

(** In a sound registry, the one engine of a name is found by it. *)
Lemma find_unique g p name : registry_ok g → p ∈ registered g → engine_name p = Some name → find_engine name g = Some p.
Proof.
  intros Hok Hin Hn. unfold find_engine. destruct (find_locked name (registered g)) as [p'|] eqn:Eq.
  - apply find_locked_some in Eq as [Hin' Hn']. f_equal. apply list_elem_of_lookup in Hin as [i Hi]. apply list_elem_of_lookup in Hin' as [j Hj].
    assert (i = j) as ->; [|congruence]. apply (NoDup_lookup (engine_name <$> registered g) i j (Some name)); [apply (ro_names g Hok)| |];
      rewrite list_lookup_fmap; [rewrite Hi|rewrite Hj]; cbn; congruence.
  - exfalso. by eapply find_locked_none.
Qed.

Lemma reg_exec_ok g o : registry_ok g → registry_ok (reg_exec g o).
Proof.
  intros Hok. destruct o as [p|n path i]; cbn [reg_exec].
  - unfold register_engine. destruct (validate p) as [[]|e] eqn:Ev; [|done]. destruct p as [p|]; [|done]. cbn zeta.
    destruct (find_locked _ _) as [e|] eqn:Ef; [by destruct (e =? p)%Z|]. destruct (validate_name p Ev) as (n & Hn & _). rewrite Hn in Ef. cbn in Ef.
    destruct Hok as [Hv Hnd Hr]. split; cbn; [|rewrite fmap_app; apply NoDup_app|done].
    + intros x [Hx| ->%list_elem_of_singleton]%elem_of_app; [by apply Hv|done].
    + split_and!; [done| |apply NoDup_singleton]. intros x (y & -> & Hy)%list_elem_of_fmap Hx. cbn in Hx. apply list_elem_of_singleton in Hx.
      rewrite Hn in Hx. by eapply find_locked_none.
  - destruct Hok as [Hv Hnd Hr]. split; [done|done|]. by apply record_in_nodup.
Qed.

Lemma reg_run_ok g os : registry_ok g → registry_ok (reg_run g os).
Proof. revert g. induction os as [|o os IH]; intros g Hok; [done|]. by apply IH, reg_exec_ok. Qed.

Lemma reg_exec_keeps g o name p : find_engine name g = Some p → find_engine name (reg_exec g o) = Some p.
Proof.
  destruct o as [q|n path i]; [|done]. unfold reg_exec, register_engine, find_engine. intros Hf.
  destruct (validate q) as [[]|e]; [|done]. destruct q as [q|]; [|done]. cbn zeta.
  destruct (find_locked (default "" (engine_name q)) _) as [e|]; [by destruct (e =? q)%Z|].
  by apply find_locked_app.
Qed.

Lemma reg_run_keeps g os name p : find_engine name g = Some p → find_engine name (reg_run g os) = Some p.
Proof. revert g. induction os as [|o os IH]; intros g Hf; [done|]. by apply IH, reg_exec_keeps. Qed.

Lemma empty_registry_ok : registry_ok empty_registry.
Proof. split; [by intros p Hp%elem_of_nil|constructor|constructor]. Qed.

(** C25. In every state the registry can reach, whatever the threads that
    register engines and load plugins do and in whatever order: no two engines
    and no two plugin records share a name, every engine passed the checks of
    its table, looking a name up gives the engine of that name, and it gives
    the same one in every later state. *)
Theorem registry_one_engine_per_name (os later : list RegOp) :
  let g := reg_run empty_registry os in
  registry_ok g ∧
  (∀ p name, p ∈ registered g ∧ engine_name p = Some name ↔ find_engine name g = Some p) ∧
  (∀ name p, find_engine name g = Some p → find_engine name (reg_run g later) = Some p).
Proof.
  cbn zeta. pose proof (reg_run_ok empty_registry os empty_registry_ok) as Hok. split_and!; [done| |].
  - intros p name. split; [intros [Hin Hn]; by apply find_unique|]. by intros Hf%find_locked_some.
  - intros name p. apply reg_run_keeps.
Qed.

(** Loading a plugin or a manifest is a sequence of these steps. *)
Lemma plugin_steps {W : Type} `{Loader W} path g (w : W) :
  ∃ os, (load_engine_plugin path g w).1.1 = reg_run g os.
Proof.
  unfold load_engine_plugin. destruct (open_library path w) as [w1 [e|lib]]; [by exists []|].
  destruct (find_entry_point lib) as [get|]; [|by exists []]. destruct (get w1) as [w2 engine].
  destruct (register_engine engine g) as [g1 r] eqn:Eq. assert (Hg : g1 = reg_exec g (Register engine)) by (cbn; by rewrite Eq).
  destruct r as [[]|e]; [|exists [Register engine]; cbn; by rewrite Eq].
  exists [Register engine; Recorded (default "" (engine ≫= engine_name)) path IsoDefault]. cbn. by rewrite Eq.
Qed.

Lemma manifest_steps {W : Type} `{Loader W} `{FsHost W} `{JsonParser} manifest g (w : W) :
  ∃ os, (load_engine_manifest manifest g w).1.1 = reg_run g os.
Proof.
  unfold load_engine_manifest. destruct (sys_read _ _ _ w) as [text|]; [|by exists []]. destruct (_ ≫= get_array) as [entries|]; [|by exists []].
  generalize (@nil string). revert g w. induction entries as [|e entries IH]; intros g w loaded; cbn [load_entries]; [by exists []|].
  destruct (is_empty _); [by exists []|]. set (plugin := plugin_file manifest _).
  assert (Hmore : ∀ os1 g' w' l, g' = reg_run g os1 → ∃ os, (load_entries manifest entries l g' w').1.1 = reg_run g os).
  { intros os1 g' w' l ->. destruct (IH (reg_run g os1) w' l) as [os2 ->]. exists (os1 ++ os2). unfold reg_run. by rewrite foldl_app. }
  assert (Hload : ∀ i : EngineIsolation, ∃ os,
    (let '(g0, w0, r) := load_engine_plugin plugin g w in
     match r with
     | Ok name =>
         let g1 := if decide (i = IsoDefault) then g0 else record_plugin name plugin i g0 in load_entries manifest entries (loaded ++ [name]) g1 w0
     | Fail e => (g0, w0, Fail e)
     end).1.1 = reg_run g os).
  { intros i. destruct (plugin_steps plugin g w) as [os1 Hos1].
    destruct (load_engine_plugin plugin g w) as [[g0 w0] [name|err]]; cbn [fst] in Hos1; [|by exists os1]. cbn zeta.
    apply (Hmore (os1 ++ if decide (i = IsoDefault) then [] else [Recorded name plugin i])). rewrite Hos1. unfold reg_run. rewrite foldl_app.
    by destruct (decide (i = IsoDefault)). }
  destruct (entry_isolation manifest e) as [iso|]; [|by exists []]. destruct iso; [apply Hload|apply Hload|]. destruct (negb _); [by exists []|].
  by apply (Hmore [Recorded (recorded_name e plugin) plugin Process]).
Qed.

End Sound.
