(* ===== verification/EngineProviderTheory.v ===== *)
(** * The engine provider: theorems

    The C structures an engine is given read back as the caller's messages, and
    what the caller is given is what the engine's response says; an engine
    marked for a process stays out of this one, unless the configuration
    overrides the mark. *)
From stdpp Require Import base gmap strings list pretty sorting.
From Stdlib Require Import Lia ZArith SpecFloat.
From S2P Require Import Prelude Arena Text Json Session Provider Tools Turn History Models GraphJson Sandbox Mcp FsTools VectorStore EngineIpc EngineHost EngineRegistry EngineProvider.

Local Open Scope Z_scope.

(** ** What a message of the C interface says *)

Definition read_tensor (p : agent_part) : TensorData :=
  mkTensorData (from_c (part_name p)) (from_c_dtype (part_dtype p)) (default [] (part_shape p))
    (take (Z.to_nat (part_size p)) (default [] (part_data p))).

Definition read_media (p : agent_part) : Media := mkMedia (from_c (part_path p)) (from_c (part_mime p)).

Definition read_call (c : agent_tool_call) : ToolCall :=
  Session.mkToolCall (from_c (call_id c)) (from_c (call_name c)) (from_c (call_arguments c)).

Definition texts_of (ps : list agent_part) : string := of_bytes (List.filter (is_kind AGENT_PART_TEXT) ps ≫= λ p, view (part_text p)).

Definition read_message (m : agent_message) : MessageView :=
  let ps := default [] (msg_parts m) in
  mkMessageView (from_c (msg_role m)) (texts_of ps) (read_call <$> default [] (msg_calls m)) (from_c (msg_call_id m))
    (read_tensor <$> List.filter (is_kind AGENT_PART_TENSOR) ps) (read_media <$> List.filter (is_kind AGENT_PART_FILE) ps).

Lemma default_span {A : Type} (l : list A) : default [] (span_data l) = l.
Proof. by destruct l. Qed.

Lemma from_to_c s : from_c (to_c s) = s.
Proof. unfold from_c, to_c, text_of, str_of, view. cbn. apply of_bytes_bytes. Qed.

Lemma dtype_roundtrip d : from_c_dtype (to_c_dtype d) = d.
Proof. by destruct d. Qed.

Lemma read_tensor_part t : read_tensor (tensor_part t) = t.
Proof.
  unfold read_tensor, tensor_part. cbn [part_name part_dtype part_shape part_data part_size default].
  rewrite from_to_c, dtype_roundtrip. unfold len. rewrite Nat2Z.id, firstn_all. by destruct t.
Qed.

Lemma read_file_part m : read_media (file_part m) = m.
Proof. unfold read_media, file_part. cbn [part_path part_mime]. rewrite !from_to_c. by destruct m. Qed.

Lemma read_c_call c : read_call (c_call c) = c.
Proof. unfold read_call, c_call. cbn [call_id call_name call_arguments]. rewrite !from_to_c. by destruct c. Qed.

Lemma filter_all {A : Type} (f : A → bool) l : Forall (λ x, f x = true) l → List.filter f l = l.
Proof. induction 1 as [|x l Hx _ IH]; cbn; [done|]. by rewrite Hx, IH. Qed.

Lemma filter_nothing {A : Type} (f : A → bool) l : Forall (λ x, f x = false) l → List.filter f l = [].
Proof. induction 1 as [|x l Hx _ IH]; cbn; [done|]. by rewrite Hx. Qed.

Lemma fmap_id {A : Type} (f : A → A) (l : list A) : (∀ x, f x = x) → f <$> l = l.
Proof. intros Hf. induction l as [|x l IH]; cbn; [done|]. by rewrite Hf, IH. Qed.

Lemma filter_tensor_parts k ts : List.filter (is_kind k) (tensor_part <$> ts) = if AGENT_PART_TENSOR =? k then tensor_part <$> ts else [].
Proof.
  destruct (AGENT_PART_TENSOR =? k) eqn:E; [apply filter_all|apply filter_nothing]; apply Forall_fmap, Forall_true; intros t; exact E.
Qed.

Lemma filter_file_parts k ms : List.filter (is_kind k) (file_part <$> ms) = if AGENT_PART_FILE =? k then file_part <$> ms else [].
Proof.
  destruct (AGENT_PART_FILE =? k) eqn:E; [apply filter_all|apply filter_nothing]; apply Forall_fmap, Forall_true; intros t; exact E.
Qed.

Lemma filter_text_part k c :
  List.filter (is_kind k) (if is_empty c then [] else [text_part c]) = if is_empty c then [] else if AGENT_PART_TEXT =? k then [text_part c] else [].
Proof. destruct (is_empty c); cbn; [done|]. unfold is_kind. cbn [part_kind text_part]. by destruct (AGENT_PART_TEXT =? k). Qed.

(** Writing a message and reading it back. *)
Lemma read_c_message mv : read_message (c_message mv) = mv.
Proof.
  unfold read_message, c_message. cbn [msg_role msg_parts msg_calls msg_call_id]. rewrite !default_span, !from_to_c.
  unfold texts_of, parts_of. rewrite !List.filter_app, !filter_tensor_parts, !filter_file_parts, !filter_text_part.
  cbn [Z.eqb AGENT_PART_TEXT AGENT_PART_FILE AGENT_PART_TENSOR Pos.eqb]. rewrite !app_nil_r. cbn [app].
  replace (if is_empty (view_content mv) then [] else @nil agent_part) with (@nil agent_part) by (by destruct (is_empty _)). cbn [app].
  rewrite <- !list_fmap_compose, !fmap_id; [|apply read_file_part|apply read_tensor_part|apply read_c_call].
  destruct mv as [r c tc id ts ms]; cbn. destruct (is_empty c) eqn:Ec; cbn; f_equal.
  - by destruct c.
  - rewrite app_nil_r. apply of_bytes_bytes.
Qed.

(** As many parts are written as the span holds. *)
Lemma parts_fit mv :
  len (parts_of mv) = (if is_empty (view_content mv) then 0 else 1) + len (view_media mv) + len (view_tensors mv).
Proof. unfold len, parts_of. rewrite !length_app, !length_fmap. destruct (is_empty _); cbn [length]; lia. Qed.

Lemma convert_messages_ok mvs ar ar' ms : convert_messages mvs ar = (ar', Some ms) → ms = c_message <$> mvs.
Proof.
  revert ar ms. induction mvs as [|mv mvs IH]; intros ar ms; cbn [convert_messages]; [by intros [= <- <-]|].
  destruct (convert_message mv ar) as [ar1 m] eqn:Em. destruct m as [m|]; [|done].
  destruct (convert_messages mvs ar1) as [ar2 [ms'|]] eqn:Er; [|done]. intros [= -> <-]. rewrite (IH ar1 ms' Er). cbn. f_equal.
  unfold convert_message in Em. cbn zeta in Em. destruct (allocate_span ar _ _ _) as [ar3 sp]. destruct (negb _); [done|].
  destruct (allocate_span ar3 _ _ _) as [ar4 sp']. destruct (negb _); [done|]. by injection Em as _ <-.
Qed.

Lemma params_fit mt t s extra : len (params_text mt t s extra) ≤ 129 + len extra.
Proof.
  unfold params_text, len. rewrite !length_app. cbn [length].
  assert (Hh : (length (params_head mt t s) ≤ 127)%nat) by (unfold params_head; rewrite length_take; lia).
  destruct extra; cbn [length]; lia.
Qed.

(** C15. What an engine is given is the caller's request: read back, the
    messages of the C structures are the caller's messages, the task is the one
    asked for (or the automatic one, and marked so), tools are listed for text
    generation only, and the parameter text fits the buffer it is written to. *)
Theorem engine_gets_callers_request {W X : Type} (cfg : Config W) (allowed : list string) (caps : Z) (dir : string) (temperature : float)
    (on_chunk : option (Z → list byte → X → X)) (cancel : option (X → Z)) (task : Z) (req : InferRequest W) (ar ar' : Arena)
    (creq : agent_request X) :
  build_request cfg allowed caps dir temperature on_chunk cancel task req ar = (ar', Ok creq) →
  read_message <$> default [] (rq_messages creq) = req_messages req ∧
  rq_task creq = (if task =? 0 then engine_task caps else task) ∧
  rq_flags creq = (if task =? 0 then AGENT_REQUEST_FLAG_AUTO_TASK else 0) ∧
  from_c (rq_tools_json creq) = (if rq_task creq =? AGENT_CAP_TEXT_GEN then build_tools_json cfg allowed else "") ∧
  ∃ extra n t, extra_params (req_params_json req) = Ok extra ∧ view (rq_params_json creq) = params_text n t (req_stream req) extra ∧
    len (view (rq_params_json creq)) < 130 + len extra.
Proof.
  unfold build_request. cbn zeta. destruct (allocate_span ar _ _ _) as [ar1 sp]. destruct (negb _); [done|].
  destruct (convert_messages _ ar1) as [ar2 [ms|]] eqn:Em; [|done]. apply convert_messages_ok in Em as ->.
  destruct (extra_params _) as [extra|e] eqn:Ee; [|done]. destruct (allocate ar2 _ _) as [ar3 [mem|]]; [|done]. intros [= _ <-].
  cbn [rq_messages rq_task rq_flags rq_tools_json rq_params_json]. rewrite default_span, from_to_c. split_and!; try done.
  - rewrite <- list_fmap_compose. apply fmap_id. apply read_c_message.
  - eexists extra, (if 0 <? req_max_tokens req then req_max_tokens req else max_tokens cfg),
      (if SFleb f32_zero (req_temperature req) then req_temperature req else temperature).
    split; [done|]. split; [done|]. eapply Z.le_lt_trans; [apply params_fit|lia].
Qed.

(** ** Room in an arena *)

(** [n] more bytes fit, whatever their alignment costs. *)
Definition spare (a : Arena) (n : Z) : Prop :=
  ∃ p, ptr_ a = Some p ∧ 0 < p ∧ 0 ≤ offset_ a ∧ offset_ a + n ≤ capacity_ a ∧ p + capacity_ a ≤ 2 ^ 62.

Lemma spare_le a m n : m ≤ n → spare a n → spare a m.
Proof. intros Hle (p & Hp & H0 & Ho & Hc & Hcap). exists p. split_and!; try done. lia. Qed.

Lemma alloc_spare a size al n :
  is_pow2 al → al ≤ 16 → 0 < size → 0 ≤ n → spare a (size + 16 + n) → ∃ a' mem, allocate a size al = (a', Some mem) ∧ spare a' n.
Proof.
  intros Hal Hle Hs Hn (p & Hp & H0 & Ho & Hc & Hcap). unfold allocate. rewrite Hp. destruct (Z.eqb_spec size 0) as [|_]; [lia|]. cbn zeta.
  rewrite (u64_small (p + offset_ a)) by (unfold u64_modulus; lia).
  destruct (align_up_spec (p + offset_ a) al Hal) as [Hr _]; [lia|lia|]. set (x := align_up _ al) in *.
  rewrite (u64_small (x - p)), (u64_small (x - p + size)) by (unfold u64_modulus; lia).
  destruct (Z.ltb_spec (capacity_ a) (x - p + size)) as [|_]; [lia|]. eexists _, x. split; [done|]. exists p. cbn. split_and!; try done; lia.
Qed.

Lemma pow2_1 : is_pow2 1. Proof. exists 0. split; [lia|done]. Qed.
Lemma pow2_8 : is_pow2 8. Proof. exists 3. split; [lia|done]. Qed.
Lemma pow2_16 : is_pow2 16. Proof. exists 4. split; [lia|done]. Qed.

Lemma span_spare a size_of count n :
  0 < size_of → 0 ≤ count → 0 ≤ n → spare a (size_of * count + 16 + n) →
  ∃ a' sp, allocate_span a size_of 8 count = (a', sp) ∧ span_size sp = count ∧ spare a' n.
Proof.
  intros Hs Hc Hn Hr. unfold allocate_span. destruct (Z.eqb_spec count 0) as [->|Hne].
  - exists a, None. split_and!; try done. eapply spare_le; [|done]. lia.
  - assert (u64 (size_of * count) = size_of * count) as ->.
    { destruct Hr as (p & _ & H0 & Ho & Hcap & Htop). apply u64_small. unfold u64_modulus. nia. }
    destruct (alloc_spare a (size_of * count) 8 n) as (a' & mem & -> & Hr'); [apply pow2_8|lia|nia|done|done|].
    by eexists a', (Some (mem, count)).
Qed.

Definition str_need (s : agent_str) : Z := len (view s) + 16.

Lemma len_at_least_0 {A : Type} (l : list A) : 0 ≤ len l.
Proof. unfold len. lia. Qed.

Lemma str_spare s a n : 0 ≤ n → spare a (str_need s + n) → ∃ a', alloc_str s a = (a', from_c s) ∧ spare a' n.
Proof.
  intros Hn Hr. unfold alloc_str, allocate_string, str_need, from_c, text_of in *. destruct (view s) as [|c l] eqn:Ev.
  - exists a. split; [done|]. eapply spare_le; [|done]. unfold len. cbn. lia.
  - destruct (alloc_spare a (len (c :: l)) max_align n) as (a' & mem & Ha & Hr'); [apply pow2_16|done|unfold len; cbn; lia|done|done|].
    unfold len in Ha. rewrite Ha. by exists a'.
Qed.

(** ** Copying a response *)

Definition part_need (p : agent_part) : Z :=
  if is_kind AGENT_PART_TEXT p then 0
  else if is_kind AGENT_PART_FILE p then str_need (part_path p) + str_need (part_mime p)
  else if is_kind AGENT_PART_TENSOR p then 8 * ndim p + 16 + (part_size p + 1 + 16) + str_need (part_name p)
  else 0.

Definition call_need (c : agent_tool_call) : Z := str_need (call_id c) + (str_need (call_name c) + str_need (call_arguments c)).

Definition sum_need {A : Type} (f : A → Z) (l : list A) : Z := foldr (λ x acc, f x + acc) 0 l.

(** The bytes a response takes at most. *)
Definition response_need (m : agent_message) : Z :=
  let ps := default [] (msg_parts m) in
  let cs := default [] (msg_calls m) in
  foldr (λ p acc, (if is_kind AGENT_PART_TEXT p then len (view (part_text p)) else 0) + acc) 0 ps + 1 + 16 +
  (56 * count_kind AGENT_PART_TENSOR ps + 16 + (32 * count_kind AGENT_PART_FILE ps + 16 + (48 * len cs + 16 +
    (sum_need part_need ps + sum_need call_need cs)))).

Lemma str_need_pos s : 0 ≤ str_need s.
Proof. unfold str_need. pose proof (len_at_least_0 (view s)). lia. Qed.

Lemma part_need_pos p : 0 ≤ part_size p → 0 ≤ part_need p.
Proof.
  intros Hs. unfold part_need, ndim. pose proof (str_need_pos (part_path p)). pose proof (str_need_pos (part_mime p)).
  pose proof (str_need_pos (part_name p)). pose proof (len_at_least_0 (default [] (part_shape p))). repeat case_match; lia.
Qed.

Lemma call_need_pos c : 0 ≤ call_need c.
Proof.
  unfold call_need. pose proof (str_need_pos (call_id c)). pose proof (str_need_pos (call_name c)). pose proof (str_need_pos (call_arguments c)). lia.
Qed.

Lemma sum_need_pos {A : Type} (f : A → Z) l : Forall (λ x, 0 ≤ f x) l → 0 ≤ sum_need f l.
Proof. induction 1 as [|x l Hx _ IH]; cbn; [lia|]. fold (sum_need f l). lia. Qed.

Lemma copy_tensor_spare p a n :
  0 ≤ part_size p → 0 ≤ n → is_kind AGENT_PART_TENSOR p = true → spare a (part_need p + n) →
  ∃ a', copy_tensor p a = (a', Some (read_tensor p)) ∧ spare a' n.
Proof.
  intros Hs Hn Hk Hr. unfold part_need in Hr. unfold is_kind in *. apply Z.eqb_eq in Hk. rewrite Hk in Hr. cbn in Hr.
  pose proof (str_need_pos (part_name p)). unfold copy_tensor.
  destruct (span_spare a 8 (ndim p) (part_size p + 1 + 16 + (str_need (part_name p) + n))) as (a1 & sp & -> & Hsp & Hr1); [lia|apply len_at_least_0|lia| |].
  { eapply spare_le; [|exact Hr]. lia. }
  destruct (alloc_spare a1 (if part_size p =? 0 then 1 else part_size p) max_align (str_need (part_name p) + n)) as (a2 & mem & -> & Hr2).
  { apply pow2_16. } { done. } { destruct (Z.eqb_spec (part_size p) 0); lia. } { lia. }
  { eapply spare_le; [|exact Hr1]. destruct (Z.eqb_spec (part_size p) 0); lia. }
  rewrite Hsp, Z.eqb_refl. cbn [negb]. destruct (str_spare (part_name p) a2 n Hn Hr2) as (a3 & -> & Hr3). by exists a3.
Qed.

Lemma copy_parts_spare ps a c n :
  Forall (λ p, 0 ≤ part_size p) ps → 0 ≤ n → spare a (sum_need part_need ps + n) →
  ∃ a', copy_parts ps a c =
    (a', Some (mkCopied (cp_text c +:+ texts_of ps) (cp_media c ++ (read_media <$> List.filter (is_kind AGENT_PART_FILE) ps))
                 (cp_tensors c ++ (read_tensor <$> List.filter (is_kind AGENT_PART_TENSOR) ps)))) ∧ spare a' n.
Proof.
  revert a c. induction ps as [|p ps IH]; intros a c Hps Hn Hr; cbn [copy_parts].
  { exists a. split; [|exact Hr]. destruct c as [x m t]. cbn. rewrite !app_nil_r. unfold texts_of. cbn. by rewrite append_nil_r. }
  apply Forall_cons in Hps as [Hp Hps]. cbn [sum_need foldr] in Hr. fold (sum_need part_need ps) in Hr.
  assert (Hrest : 0 ≤ sum_need part_need ps).
  { apply sum_need_pos. eapply Forall_impl; [exact Hps|]. intros x. apply part_need_pos. }
  unfold texts_of. cbn [List.filter]. pose proof (part_need_pos p Hp) as Hpp.
  destruct (is_kind AGENT_PART_TEXT p) eqn:E0.
  { assert (Ef : is_kind AGENT_PART_FILE p = false /\ is_kind AGENT_PART_TENSOR p = false).
    { unfold is_kind in *. apply Z.eqb_eq in E0. by rewrite E0. }
    destruct Ef as [-> ->]. destruct (IH a (mkCopied (cp_text c +:+ from_c (part_text p)) (cp_media c) (cp_tensors c)) Hps Hn) as (a' & -> & Hr').
    { eapply spare_le; [|exact Hr]. lia. }
    exists a'. split; [|done]. cbn [cp_text cp_media cp_tensors]. do 3 f_equal. unfold texts_of. cbn. rewrite of_bytes_app. by rewrite append_assoc. }
  destruct (is_kind AGENT_PART_FILE p) eqn:E1.
  { assert (Ef : is_kind AGENT_PART_TENSOR p = false) by (unfold is_kind in *; apply Z.eqb_eq in E1; by rewrite E1). rewrite Ef.
    unfold part_need at 1 in Hr. rewrite E0, E1 in Hr. pose proof (str_need_pos (part_mime p)). unfold copy_file.
    destruct (str_spare (part_path p) a (str_need (part_mime p) + (sum_need part_need ps + n))) as (a1 & -> & Hr1); [lia| |].
    { eapply spare_le; [|exact Hr]. lia. }
    destruct (str_spare (part_mime p) a1 (sum_need part_need ps + n)) as (a2 & -> & Hr2); [lia|done|].
    destruct (IH a2 (mkCopied (cp_text c) (cp_media c ++ [mkMedia (from_c (part_path p)) (from_c (part_mime p))]) (cp_tensors c)) Hps Hn Hr2) as (a' & -> & Hr').
    exists a'. split; [|done]. cbn [cp_text cp_media cp_tensors fmap list_fmap]. by rewrite <- app_assoc. }
  destruct (is_kind AGENT_PART_TENSOR p) eqn:E3.
  { destruct (copy_tensor_spare p a (sum_need part_need ps + n) Hp) as (a1 & -> & Hr1); [lia|done| |].
    { eapply spare_le; [|exact Hr]. lia. }
    destruct (IH a1 (mkCopied (cp_text c) (cp_media c) (cp_tensors c ++ [read_tensor p])) Hps Hn Hr1) as (a' & -> & Hr').
    exists a'. split; [|done]. cbn [cp_text cp_media cp_tensors fmap list_fmap]. by rewrite <- app_assoc. }
  apply IH; [done|done|]. eapply spare_le; [|exact Hr]. lia.
Qed.

Lemma copy_calls_spare cs a n :
  0 ≤ n → spare a (sum_need call_need cs + n) → ∃ a', copy_calls cs a = (a', read_call <$> cs) ∧ spare a' n.
Proof.
  revert a. induction cs as [|c cs IH]; intros a Hn Hr; cbn [copy_calls]; [by exists a|].
  cbn [sum_need foldr] in Hr. fold (sum_need call_need cs) in Hr.
  assert (Hrest : 0 ≤ sum_need call_need cs) by (apply sum_need_pos, Forall_true; intros x; apply call_need_pos).
  unfold call_need at 1 in Hr. pose proof (str_need_pos (call_name c)). pose proof (str_need_pos (call_arguments c)).
  destruct (str_spare (call_id c) a (str_need (call_name c) + str_need (call_arguments c) + (sum_need call_need cs + n))) as (a1 & -> & Hr1); [lia| |].
  { eapply spare_le; [|exact Hr]. lia. }
  destruct (str_spare (call_name c) a1 (str_need (call_arguments c) + (sum_need call_need cs + n))) as (a2 & -> & Hr2); [lia| |].
  { eapply spare_le; [|exact Hr1]. lia. }
  destruct (str_spare (call_arguments c) a2 (sum_need call_need cs + n)) as (a3 & -> & Hr3); [lia|done|].
  destruct (IH a3 Hn Hr3) as (a' & -> & Hr'). by exists a'.
Qed.

Definition as_reply (mv : MessageView) : MessageView :=
  mkMessageView "assistant" (view_content mv) (view_tool_calls mv) "" (view_tensors mv) (view_media mv).

Lemma text_bytes_small ps a n : 0 ≤ n →
  let total := foldr (λ p acc, (if is_kind AGENT_PART_TEXT p then len (view (part_text p)) else 0) + acc) 0 ps in
  spare a (total + 1 + 16 + n) → 0 ≤ total ∧ text_bytes ps = total ∧ u64 (text_bytes ps + 1) = total + 1.
Proof.
  cbn zeta. intros Hn (p & _ & H0 & Ho & Hc & Hcap). unfold text_bytes. set (total := foldr _ 0 ps) in *.
  assert (0 ≤ total).
  { subst total. clear. induction ps as [|x ps IH]; cbn; [lia|]. pose proof (len_at_least_0 (view (part_text x))). destruct (is_kind _ x); lia. }
  rewrite (u64_small total) by (unfold u64_modulus; lia). split_and!; [done|done|]. apply u64_small. unfold u64_modulus. lia.
Qed.

(** C16. With room for it in the arena, parts that announce no negative size and
    token counts whose sum is an [int], what the caller is given is the engine's
    response: the text parts joined, the files, the tensors with their bytes,
    and every tool call, in order, with the usage the engine reported and its
    sum. *)
Theorem caller_gets_engines_response (resp : agent_response) (ar : Arena) :
  Forall (λ p, 0 ≤ part_size p) (default [] (msg_parts (rs_message resp))) → spare ar (response_need (rs_message resp)) →
  -2147483648 ≤ rs_prompt_tokens resp + rs_completion_tokens resp < 2147483648 →
  (to_infer_response resp ar).2 =
    let m := as_reply (read_message (rs_message resp)) in
    Ok (mkInferResponse m (mkTokenUsage (rs_prompt_tokens resp) (rs_completion_tokens resp) (rs_prompt_tokens resp + rs_completion_tokens resp))
          (view_tensors m)).
Proof.
  intros Hps Hr Hsum. unfold response_need in Hr. cbn zeta in *. unfold to_infer_response. rewrite (i32_small _ Hsum). set (ps := default [] (msg_parts _)) in *.
  set (cs := default [] (msg_calls _)) in *. cbn zeta.
  assert (Hneed : 0 ≤ sum_need part_need ps) by (apply sum_need_pos; eapply Forall_impl; [exact Hps|]; intros x; apply part_need_pos).
  assert (Hcneed : 0 ≤ sum_need call_need cs) by (apply sum_need_pos, Forall_true; intros x; apply call_need_pos).
  pose proof (len_at_least_0 (List.filter (is_kind AGENT_PART_TENSOR) ps)) as Hnt. fold (count_kind AGENT_PART_TENSOR ps) in Hnt.
  pose proof (len_at_least_0 (List.filter (is_kind AGENT_PART_FILE) ps)) as Hnm. fold (count_kind AGENT_PART_FILE ps) in Hnm.
  pose proof (len_at_least_0 cs) as Hnc. apply text_bytes_small in Hr as Hsmall; [|lia]. destruct Hsmall as (Ht0 & _ & ->).
  destruct (λ h1 h2 h3, alloc_spare _ _ 1 _ pow2_1 h1 h2 h3 Hr) as (a1 & mem & -> & Hr1); [lia..|].
  destruct (λ h1 h2, span_spare a1 56 (count_kind AGENT_PART_TENSOR ps) _ h1 Hnt h2 Hr1) as (a2 & sp2 & -> & Hs2 & Hr2); [lia..|].
  destruct (λ h1 h2, span_spare a2 32 (count_kind AGENT_PART_FILE ps) _ h1 Hnm h2 Hr2) as (a3 & sp3 & -> & Hs3 & Hr3); [lia..|].
  destruct (λ h1 h2, span_spare a3 48 (len cs) _ h1 Hnc h2 Hr3) as (a4 & sp4 & -> & Hs4 & Hr4); [lia..|].
  rewrite Hs2, Hs3, Hs4, !Z.eqb_refl. cbn [is_null negb orb].
  destruct (copy_parts_spare ps a4 (mkCopied "" [] []) _ Hps Hcneed Hr4) as (a5 & -> & Hr5).
  destruct (copy_calls_spare cs a5 0 ltac:(lia)) as (a6 & -> & _); [by rewrite Z.add_0_r|]. done.
Qed.

(** When the arena has no room for the strings of a tool call, the caller is
    given a call without a name instead of an error. *)
Example strings_lost_in_a_full_arena :
  let call := EngineIpc.mkToolCall (to_c "c1") (to_c "delete_path") (to_c "{}") in
  let resp := mkAgentResponse (mkAgentMessage (to_c "assistant") None (Some [call]) None) 7 2 in
  match (to_infer_response resp (Arena_new 65536 56)).2 with
  | Ok r => view_tool_calls (resp_message r) = [Session.mkToolCall "" "" ""]
  | Fail _ => False
  end.
Proof. vm_compute. reflexivity. Qed.

(** ** Engines answer as the assistant *)

Lemma response_role resp ar r : (to_infer_response resp ar).2 = Ok r → view_role (resp_message r) = "assistant".
Proof.
  unfold to_infer_response. cbn zeta. destruct (allocate _ _ _) as [a1 t]. destruct (allocate_span a1 _ _ _) as [a2 s2].
  destruct (allocate_span a2 _ _ _) as [a3 s3]. destruct (allocate_span a3 _ _ _) as [a4 s4]. destruct (_ || _); [done|].
  destruct (copy_parts _ _ _) as [a5 [c|]]; [|done]. destruct (copy_calls _ _) as [a6 cs]. by intros [= <-].
Qed.

Section Init.
Context {W E : Type} `{EngineTables E} `{EngineStore W E} `{RemoteStarter W} `{Loader W} `{FsHost W} `{JsonParser}.
Context (polls : W → list Z).

Lemma local_role (e : agent_engine_v1 E) inst dir t cfg allowed task req ar (w : W) r :
  (run_in_process polls e inst dir t cfg allowed task req ar w).2 = Ok r → view_role (resp_message r) = "assistant".
Proof using Type.
  unfold run_in_process. destruct (build_request _ _ _ _ _ _ _ _ _ _) as [a1 [creq|]]; [|done]. cbn zeta.
  destruct (on_engine _ w) as [w1 [[calls rc] resp]]. destruct (negb _); [done|].
  pose proof (response_role resp a1 r) as Hrole. destruct (to_infer_response resp a1) as [a2 out]. exact Hrole.
Qed.

Lemma remote_role (h : RemoteHandle W) dir t cancel cfg allowed task req ar (w : W) r :
  (run_remote_engine h dir t cancel cfg allowed task req ar w).2 = Ok r → view_role (resp_message r) = "assistant".
Proof using Type.
  unfold run_remote_engine. destruct (build_request _ _ _ _ _ _ _ _ _ _) as [a1 [creq|]]; [|done].
  destruct (rh_run h creq a1 w) as [[w1 a2] [resp|]]; [|done].
  pose proof (response_role resp a2 r) as Hrole. destruct (to_infer_response resp a2) as [a3 out]. exact Hrole.
Qed.

(** A session whose engine [init_engine] started meets what the turn loop asks
    of its engine. *)
Lemma init_engine_replies cfg set cancel g (w : W) g' w' es line (s : Session W) :
  init_engine polls cfg set cancel g w = (g', w', Ok (es, line)) → provider_state s = Some es → replies_assistant s.
Proof using Type.
  intros Hi Hs es' Hes' cfg' allowed task req ar w0 r. rewrite Hs in Hes'. injection Hes' as <-. revert Hi. unfold init_engine. cbn zeta.
  destruct (is_empty _); [done|]. destruct (plugin_of _ g) as [plugin iso]. destruct (sys_create_directories _ w) as [w1 [e|]]; [done|].
  assert (Hlocal : ∀ b, start_local polls cfg set b plugin (path_join (workspace_dir cfg) "artifacts") (create_config cfg (engine_temperature set)) g w1 =
                   (g', w', Ok (es, line)) → (es_run es cfg' allowed task req ar w0).2 = Ok r → view_role (resp_message r) = "assistant").
  { intros b. unfold start_local. destruct (match (if b then None else _) with Some _ => _ | None => _ end) as [[g2 w2] [[p|]|]]; [|done|done].
    destruct (check_default_task _ _ _); [|done]. destruct (create_instance _ _ _) as [w3 [i|]]; [|done]. intros [= _ _ <- _]. apply local_role. }
  destruct (effective_isolation _ _); [apply Hlocal|apply Hlocal|]. unfold start_process. destruct (is_empty plugin); [by destruct (find_engine _ _)|].
  destruct (start_remote _ w1) as [w2 [h|]]; [|done]. destruct (check_default_task _ _ _); [|done]. intros [= _ _ <- _]. apply remote_role.
Qed.

(** ** Process engines stay out of this process *)

Definition recorded_process (n : string) (g : Registry) : Prop := ∃ path, find_plugin_record n g = Some (path, Process).

Lemma record_process_new n path g : find_plugin_record n (record_plugin n path Process g) = Some (path, Process).
Proof using Type.
  unfold find_plugin_record, record_plugin. cbn [plugin_records]. induction (plugin_records g) as [|x l IH]; cbn [record_in].
  - cbn. by rewrite str_eqb_refl.
  - destruct (str_eqb (rec_name x) n) eqn:Ex; cbn; by rewrite Ex.
Qed.

Lemma record_process_keeps n n' path g : recorded_process n g → recorded_process n (record_plugin n' path Process g).
Proof using Type.
  intros [p Hp]. destruct (decide (n = n')) as [->|Hne]; [exists path; apply record_process_new|]. exists p. rewrite <- Hp.
  unfold find_plugin_record, record_plugin. cbn [plugin_records]. f_equal. induction (plugin_records g) as [|x l IH]; cbn [record_in].
  - cbn. by rewrite (proj2 (str_eqb_false n' n)).
  - destruct (str_eqb (rec_name x) n') eqn:Ex; cbn.
    + apply str_eqb_true in Ex. by rewrite (proj2 (str_eqb_false (rec_name x) n)) by congruence.
    + by destruct (str_eqb (rec_name x) n).
Qed.

(** A manifest of process engines loads nothing and records every engine. *)
Lemma process_entries_recorded manifest entries loaded g (w : W) g' w' names :
  Forall (λ e, entry_isolation manifest e = Ok Process) entries → Forall (λ n, recorded_process n g) loaded →
  load_entries manifest entries loaded g w = (g', w', Ok names) →
  w' = w ∧ registered g' = registered g ∧ Forall (λ n, recorded_process n g') names.
Proof using Type.
  revert loaded g. induction entries as [|e entries IH]; intros loaded g Hes Hl; cbn [load_entries]; [by intros [= <- <- <-]|].
  apply Forall_cons in Hes as [He Hes]. destruct (is_empty _); [done|]. rewrite He. destruct (negb _); [done|]. intros Hrun.
  apply IH in Hrun as (-> & Hreg & Hnames); [done|done|]. apply Forall_app. split.
  - eapply Forall_impl; [exact Hl|]. intros n. apply record_process_keeps.
  - apply Forall_singleton. eexists. apply record_process_new.
Qed.

Lemma start_process_steps (R : W → W → Prop) `{!PreOrder R} cfg set cancel plugin dir config g (w w' : W) r :
  (∀ o w, R w (start_remote o w).1) → start_process cfg set cancel plugin dir config g w = (w', r) →
  R w w' ∧ ∀ es line, r = Ok (es, line) → ∃ o w1 h, start_remote o w = (w1, Ok h) ∧ start_plugin o = plugin ∧
    es = remote_state h dir (engine_temperature set) cancel.
Proof using Type.
  intros Hstart. unfold start_process. destruct (is_empty plugin); [intros [= <- <-]; split; [done|]; by destruct (find_engine _ _)|]. cbn zeta.
  set (o := mkRemoteStart _ _ _ _ _ _ _). pose proof (Hstart o w) as Hw. destruct (start_remote o w) as [w1 [h|]] eqn:Eo; cbn [fst] in Hw.
  - destruct (check_default_task _ _ _); intros [= <- <-]; (split; [done|]); [|done]. intros es line [= <- _]. by exists o, w1, h.
  - intros [= <- <-]. by split.
Qed.

(** C24. With a manifest all of whose entries are marked "process", loading it and
    then starting a session on one of its engines, named by its name, register
    nothing in this process and do nothing to the world but make the artifacts
    directory and start a host process, given the plugin file that was recorded;
    no library is opened.  [Config::engine_isolation] must not be InProcess,
    which overrides the manifest on purpose. *)
Theorem process_engine_stays_out (R : W → W → Prop) `{!PreOrder R} manifest entries g (w : W) g1 w1 names cfg set cancel g2 w2 r :
  (∀ p w, R w (sys_create_directories p w).1) → (∀ o w, R w (start_remote o w).1) →
  Forall (λ e, entry_isolation manifest e = Ok Process) entries →
  load_entries manifest entries [] g w = (g1, w1, Ok names) →
  engine cfg ∈ names → looks_like_plugin (engine cfg) = false → engine_isolation set ≠ InProcess →
  init_engine polls cfg set cancel g1 w1 = (g2, w2, r) →
  registered g2 = registered g ∧ R w w2 ∧
  ∀ es line, r = Ok (es, line) → ∃ path o w3 w4 h, find_plugin_record (engine cfg) g1 = Some (path, Process) ∧
    start_plugin o = path ∧ start_remote o w3 = (w4, Ok h) ∧ es_name es = rh_name h ∧ es_caps es = rh_caps h.
Proof using Type.
  intros Hdir Hstart Hes Hload Hin Hname Hiso Hinit. apply process_entries_recorded in Hload as (-> & Hreg & Hnames); [|done|constructor].
  rewrite Forall_forall in Hnames. destruct (Hnames _ Hin) as [path Hpath]. revert Hinit. unfold init_engine. cbn zeta.
  destruct (is_empty (engine cfg)); [intros [= <- <- <-]; split_and!; done|]. unfold plugin_of. rewrite Hname, Hpath.
  assert (effective_isolation (engine_isolation set) Process = Process) as ->
    by (unfold effective_isolation; by destruct (engine_isolation set)).
  pose proof (Hdir (path_join (workspace_dir cfg) "artifacts") w) as Hd. destruct (sys_create_directories _ w) as [w3 [e|]]; cbn [fst] in Hd.
  { intros [= <- <- <-]. split_and!; done. }
  destruct (start_process _ _ _ _ _ _ _ _) as [w4 r'] eqn:Ep. intros [= <- <- <-].
  apply (start_process_steps R) in Ep as [HR Hok]; [|done]. split_and!; [done|by transitivity w3|].
  intros es line (o & w5 & h & Ho & Hplug & ->)%Hok. by exists path, o, w3, w5, h.
Qed.

End Init.

(** ** Samples *)

Module ProviderSample.

(** A world that counts the libraries opened and the hosts started. *)
Record World := mkWorld { opened : nat; started : nat }.

#[export] Instance no_tables : EngineTables unit := λ _, mkEngine 0 0 None None 0 0 None None None None None None None.
#[export] Instance store : EngineStore World unit := {| engines_of _ := tt; set_engines _ w := w |}.
#[export] Instance loader : Loader World := {|
  open_library _ w := (mkWorld (S (opened w)) (started w), inl "no plugins here");
  find_entry_point _ := None
|}.

Definition handle : RemoteHandle World :=
  mkRemoteHandle "llama" "1.0" 3 0 (λ _ ar w, (w, ar, fail EngineCrashed "gone")) (λ w, w) (λ _ w, (w, Ok 1)) (λ w, (w, Ok tt)).

#[export] Instance starter : RemoteStarter World := {|
  start_remote _ w := (mkWorld (opened w) (S (started w)), Ok handle);
  find_engine_host p _ := p;
  files_of _ := mkFiles (λ p, Some p) (λ p, Some p) (λ _, true) (λ _, true) (λ _, true) ""
|}.

#[export] Instance fs : FsHost World := {|
  sys_canonical p _ := Some p;
  sys_absolute p _ := inr p;
  sys_exists _ _ := true;
  sys_is_directory _ _ := true;
  sys_status _ _ := Some RegularFile;
  sys_file_size _ _ := None;
  sys_read _ _ _ _ := None;
  sys_write _ _ _ w := (w, None);
  sys_list _ _ := [];
  sys_create_directories _ w := (w, None);
  sys_remove_all _ w := (w, inr 0);
  sys_rename _ _ w := (w, None);
  sys_copy_file _ _ w := (w, None);
  sys_run_shell _ _ _ _ _ w := (w, Ok (mkCommandResult 0 false false [] []))
|}.

#[export] Instance reader : JsonParser := RefParser.parser.

Definition entry : json := JObj [("path", JStr "agent-engine-llama.so"); ("isolation", JStr "process")].

Definition cfg : Config World := mkConfig Engine "llama" "" "m.gguf" "/w" None [] 4096 512 10 4 None None None 0.

Definition settings : EngineSettings := mkEngineSettings IsoDefault "" 0 1000 2 default_sandbox f32_zero.

Definition none_opened (w w' : World) : Prop := opened w' = opened w.

#[export] Instance none_opened_preorder : PreOrder none_opened.
Proof. split; [by intros w|]. unfold none_opened. intros w1 w2 w3 H12 H23. congruence. Qed.

(** A request with every kind of part. *)
Definition messages : list MessageView :=
  [mkMessageView "system" "be brief" [] "" [] [];
   mkMessageView "user" "" [] "" [mkTensorData "x" Int8 [2] (bytes "ab")] [mkMedia "a.png" "image/png"];
   mkMessageView "assistant" "" [Session.mkToolCall "c1" "ping" "{}"] "" [] []; mkMessageView "tool" "pong" [] "c1" [] []].

Definition request : InferRequest World := mkInferRequest messages 0 false None 0 (schema " { 'mode': 1 } ") no_temperature.

Definition arena : Arena := Arena_new 65536 4096.

Definition build (ar : Arena) : Arena * Result (agent_request unit) := build_request cfg [] 3 "/w/artifacts" f32_zero None None 0 request ar.

Example params_joined :
  match (build arena).2 with
  | Ok r => from_c (rq_params_json r) = schema "{'max_tokens':512,'temperature':0.0000,'stream':false,'mode': 1}"
  | Fail _ => False
  end.
Proof. vm_compute. reflexivity. Qed.

Definition response : agent_response := mkAgentResponse (c_message (mkMessageView "assistant" "hi" [Session.mkToolCall "c2" "ping" "{}"] "" [] [])) 7 2.

End ProviderSample.

#[local] Existing Instances ProviderSample.no_tables ProviderSample.store ProviderSample.loader ProviderSample.starter ProviderSample.fs
  ProviderSample.reader ProviderSample.none_opened_preorder.

Lemma engine_gets_callers_request_witness :
  ∃ creq : agent_request unit, (ProviderSample.build ProviderSample.arena).2 = Ok creq ∧
    read_message <$> default [] (rq_messages creq) = ProviderSample.messages.
Proof.
  destruct (ProviderSample.build ProviderSample.arena) as [ar' [creq|e]] eqn:Eb.
  - exists creq. split; [reflexivity|].
    apply (engine_gets_callers_request ProviderSample.cfg [] 3 "/w/artifacts" f32_zero None None 0 ProviderSample.request ProviderSample.arena
             ar' creq Eb).
  - apply (f_equal snd) in Eb. vm_compute in Eb. discriminate Eb.
Defined.

Lemma caller_gets_engines_response_witness :
  (to_infer_response ProviderSample.response ProviderSample.arena).2 =
    Ok (mkInferResponse (mkMessageView "assistant" "hi" [Session.mkToolCall "c2" "ping" "{}"] "" [] []) (mkTokenUsage 7 2 9) []).
Proof.
  apply (caller_gets_engines_response ProviderSample.response ProviderSample.arena).
  - repeat constructor; vm_compute; discriminate.
  - exists 65536. vm_compute. repeat split; try reflexivity; discriminate.
  - vm_compute. repeat split; try reflexivity; discriminate.
Defined.

Lemma process_engine_stays_out_witness :
  ∃ g1 w1 g2 w2 r,
    load_entries "/m/engines.json" [ProviderSample.entry] [] empty_registry (ProviderSample.mkWorld 0 0) = (g1, w1, Ok ["llama"]) ∧
    init_engine (λ _, []) ProviderSample.cfg ProviderSample.settings None g1 w1 = (g2, w2, r) ∧ is_ok r = true ∧
    ProviderSample.opened w2 = 0%nat.
Proof.
  destruct (load_entries "/m/engines.json" [ProviderSample.entry] [] empty_registry (ProviderSample.mkWorld 0 0)) as [[g1 w1] names] eqn:El.
  assert (Hl : load_entries "/m/engines.json" [ProviderSample.entry] [] empty_registry (ProviderSample.mkWorld 0 0) =
               (mkRegistry [] [mkPluginRecord "llama" "/m/agent-engine-llama.so" Process], ProviderSample.mkWorld 0 0, Ok ["llama"]))
    by (vm_compute; reflexivity).
  rewrite El in Hl. injection Hl as -> -> ->.
  destruct (init_engine (λ _, []) ProviderSample.cfg ProviderSample.settings None
    (mkRegistry [] [mkPluginRecord "llama" "/m/agent-engine-llama.so" Process]) (ProviderSample.mkWorld 0 0)) as [[g2 w2] r] eqn:Ei.
  exists (mkRegistry [] [mkPluginRecord "llama" "/m/agent-engine-llama.so" Process]), (ProviderSample.mkWorld 0 0), g2, w2, r. split_and!.
  - reflexivity.
  - exact Ei.
  - apply (f_equal (λ x, is_ok x.2)) in Ei. vm_compute in Ei. symmetry. exact Ei.
  - apply (process_engine_stays_out (λ _, []) ProviderSample.none_opened "/m/engines.json" [ProviderSample.entry] empty_registry
             (ProviderSample.mkWorld 0 0) (mkRegistry [] [mkPluginRecord "llama" "/m/agent-engine-llama.so" Process]) (ProviderSample.mkWorld 0 0)
             ["llama"] ProviderSample.cfg ProviderSample.settings None g2 w2 r).
    + intros p w. reflexivity.
    + intros o w. reflexivity.
    + repeat constructor.
    + exact El.
    + by left.
    + vm_compute. reflexivity.
    + discriminate.
    + exact Ei.
Defined.
