(* ===== verification/SessionInit.v ===== *)
(** * Starting a session (src/core/agent.cpp [init], src/core/tools/tools_ops.cpp [default_init])

    [init] checks the configuration, makes the workspace directories, opens the
    log file (src/hal/log_file.cpp), starts the provider, gives a concurrent
    engine its worker arenas, opens the memory store, registers the built-in
    tools and loads the skills.  The theorem says what a caller gets: a
    configuration that is refused has touched nothing, and a session that was
    returned is one the other components can work on.

    [slab i] is the address of the i-th slab [new] hands out.  A session that
    [init] gives up is destroyed with what it holds; that is not modelled. *)
From stdpp Require Import base gmap strings list pretty sorting.
From Stdlib Require Import Lia ZArith SpecFloat.
From S2P Require Import Prelude Arena Text Json Session Provider Tools Turn History Models GraphJson Sandbox Mcp FsTools VectorStore EngineIpc EngineHost EngineRegistry EngineProvider EngineProviderTheory Skills.

Local Open Scope Z_scope.

(** The fields of [Config] only [init] reads, with those of the engine.
    [store_open] and the three flags describe the table [MemoryConfig::store]:
    which of its functions are set; [open] says whether the state it returned
    is not null. *)
Record InitSettings (W : Type) := mkInitSettings {
  engine_settings : EngineSettings;
  arena_capacity : Z;
  sandbox_filesystem : bool;
  auto_default_tools : bool;
  enable_file_logging : bool;
  skills_dir : string;
  tool_sandbox : SandboxPolicy;
  store_open : option (string → W → W * Result bool);
  store_put_set : bool;
  store_get_set : bool;
  store_clear_set : bool
}.
Arguments mkInitSettings {W}.
Arguments engine_settings {W}.
Arguments arena_capacity {W}.
Arguments sandbox_filesystem {W}.
Arguments auto_default_tools {W}.
Arguments enable_file_logging {W}.
Arguments skills_dir {W}.
Arguments tool_sandbox {W}.
Arguments store_open {W}.
Arguments store_put_set {W}.
Arguments store_get_set {W}.
Arguments store_clear_set {W}.

(** Time and log files: [strftime] of the time now in UTC, empty when it does
    not fit; opening a file for appending; writing to it and flushing. *)
Class LogHost (W : Type) := {
  format_utc_now : string → W → string;
  fopen_append : string → W → W * option Z;
  fwrite_flush : Z → list Ascii.ascii → W → W
}.

(** ** The log file *)

Section LogFile.
Context {W : Type} `{LogHost W}.

Definition level_tag (level : LogLevel) : string :=
  match level with LogDebug => "DEBUG" | LogWarning => "WARN" | LogError => "ERROR" | LogInfo => "INFO" end.

(** [%.*s]: at most that many bytes, and none after a null byte. *)
Fixpoint until_nul (s : list Ascii.ascii) : list Ascii.ascii :=
  match s with [] => [] | c :: s' => if bool_decide (c = chr 0) then [] else c :: until_nul s' end.

Definition write_log_line (file : Z) (tag message : string) (w : W) : W :=
  let ts := format_utc_now "%Y-%m-%dT%H:%M:%SZ" w in
  let ts := if is_empty ts then "?" else ts in
  fwrite_flush file (bytes "[" ++ bytes ts ++ bytes "] [" ++ until_nul (bytes tag) ++ bytes "] " ++ until_nul (bytes message) ++ bytes nl) w.

Definition open_session_log (workspace : string) (w : W) : W * option (LogLevel → string → W → W) :=
  let stamp := format_utc_now "agent_%Y-%m-%d_%H-%M-%S.log" w in
  let stamp := if is_empty stamp then "agent_session.log" else stamp in
  let '(w, file) := fopen_append (path_join (path_join workspace "logs") stamp) w in
  (w, (λ f level message, write_log_line f (level_tag level) message) <$> file).

End LogFile.

Section Init.
Context {W E : Type} `{EngineTables E} `{EngineStore W E} `{RemoteStarter W} `{Loader W} `{FsHost W} `{Host W} `{LogHost W} `{JsonParser}.
Context (polls : W → list Z) (slab : nat → Z) (cancel : option (W → Z)).
Implicit Types (cfg : Config W) (set : InitSettings W) (s : Session W) (w : W).

(** ** Checking the configuration *)

Definition shell_metachars : list Ascii.ascii := [chr 34; chr 39; chr 38; chr 124; chr 59; chr 96; chr 36; chr 10; chr 13].

Definition has_metachar (dir : string) : bool := existsb (λ c, bool_decide (c ∈ shell_metachars)) (bytes dir).

Definition check_config cfg set : Result unit :=
  let t := engine_temperature (engine_settings set) in
  if is_empty (workspace_dir cfg) then fail InvalidConfig "workspace_dir is required."
  else if context_window cfg <=? 0 then fail InvalidConfig "context_window must be > 0."
  else if max_tokens cfg <=? 0 then fail InvalidConfig "max_tokens must be > 0."
  else if negb (is_finite t) || SFltb t f32_zero then fail InvalidConfig "temperature must be a non-negative finite number."
  else if has_metachar (workspace_dir cfg) then
    fail InvalidConfig ("workspace_dir contains shell metacharacters. " +:+
                        "Use a plain filesystem path without quotes, $, &, |, or ;.")
  else Ok tt.

Definition workspace_subs : list string := ["models"; "memory"; "logs"; "tmp"].

Fixpoint make_directories (workspace : string) (subs : list string) w : W * Result unit :=
  match subs with
  | [] => (w, Ok tt)
  | sub :: rest =>
      let p := path_join workspace sub in
      let '(w, ec) := sys_create_directories p w in
      match ec with
      | Some e => (w, fail FilesystemError ("Failed to create " +:+ p +:+ ": " +:+ e))
      | None => make_directories workspace rest w
      end
  end.

Definition arena_size cfg set : Z :=
  if 0 <? arena_capacity set then arena_capacity set else u64 (u64 (context_window cfg * 8) + 2 * 1024 * 1024).

(** [Session session; session.config = config; ...] *)
Definition fresh_session cfg set (log : option (LogLevel → string → W → W)) : Session W :=
  mkSession cfg (Arena_new (slab 0) (arena_size cfg set)) [] [] None None no_session_stats ∅ "" "" ∅ log 0 ∅ [].

(** [utils::log] outside a turn. *)
Definition log_idle s (level : LogLevel) (msg : string) w : W :=
  rt_world (log level msg (mkRt s w (mkAmbient None [] [] 0 false false false (Arena_new 0 0)) [] None)).1.

(** ** Providers, memory, tools *)

(** [ops->init(session)]; both providers are compiled in. *)
Definition init_provider set s (g : Registry) w : Registry * W * Result (Session W) :=
  match provider (config s) with
  | Mock => (g, w, Ok s)
  | Engine =>
      let '(g, w, r) := init_engine polls (config s) (engine_settings set) cancel g w in
      match r with
      | Fail e => (g, w, Fail e)
      | Ok (es, line) => let s := set_provider_state s (Some es) in (g, log_idle s LogInfo line w, Ok s)
      end
  end.

(** [for (int i = 0; i < config.max_parallel_subagents; ++i)] *)
Definition add_worker_arenas set s : Session W :=
  if supports_parallel s && (0 <? max_parallel_subagents (config s)) then
    set_worker_arenas s ((λ i, Arena_new (slab (S i)) (arena_size (config s) set)) <$> seq 0 (Z.to_nat (max_parallel_subagents (config s))))
  else s.

Definition init_memory set s w : W * Result (Session W) :=
  match store (config s) with
  | None => (w, Ok (open_in_memory s))
  | Some _ =>
      match store_open set with
      | Some open =>
          if negb (store_put_set set && store_get_set set && store_clear_set set) then
            (w, fail InvalidConfig "MemoryConfig::store is missing one of open/put/get/clear.")
          else
            let '(w, res) := open (workspace_dir (config s)) w in
            (w, match res with Fail e => Fail e | Ok state => Ok (set_memory_state s (if state then Some ∅ else None)) end)
      | None => (w, fail InvalidConfig "MemoryConfig::store is missing one of open/put/get/clear.")
      end
  end.

Definition get_context_compressor_tool : Tool W :=
  mkTool "compress_context"
    ("Summarize and compress the active conversation's older history to free context " +:+
     "window space. Optional: keep_recent (integer, number of most recent messages to " +:+ "keep uncompressed, default 6).")
    (schema ("{'type':'object','properties':{'keep_recent':{'type':'integer','description':" +:+
             "'messages to keep uncompressed, default 6'}}}"))
    (Some CompressorCallback) None.

Definition workspace_context cfg set : WorkspaceContext :=
  mkWorkspaceContext (Some (workspace_dir cfg)) (sandbox_filesystem set) (tool_sandbox set).

Definition built_in_tools cfg set : list (Tool W) :=
  get_filesystem_tools (workspace_context cfg set) ++ [get_terminal_tool (workspace_context cfg set); get_context_compressor_tool].

Definition default_init set s w : Session W * Result unit :=
  let s := if auto_default_tools set then
             set_config_tools s (foldl add_if_missing (tools (config s)) (built_in_tools (config s) set))
           else s in
  let s := rebuild_tool_index s in
  if is_empty (skills_dir set) then (s, Ok tt) else load_skills_dir (skills_dir set) true s w.

Definition init_tools set s w : Session W * Result unit := default_init set s w.

Definition platform_name : string := "linux".

(** ** init *)

Definition init_session set s (g : Registry) w : Registry * W * Result (Session W) :=
  let '(g, w, r) := init_provider set s g w in
  match r with
  | Fail e => (g, w, Fail e)
  | Ok s =>
      let s := add_worker_arenas set s in
      let '(w, r) := init_memory set s w in
      match r with
      | Fail e => (g, w, Fail e)
      | Ok s =>
          let '(s, r) := init_tools set s w in
          match r with
          | Fail e => (g, w, Fail e)
          | Ok _ =>
              (g, log_idle s LogInfo ("Session initialised. platform=" +:+ platform_name +:+ " workspace=" +:+ workspace_dir (config s)) w, Ok s)
          end
      end
  end.

Definition init cfg set (g : Registry) w : Registry * W * Result (Session W) :=
  match check_config cfg set with
  | Fail e => (g, w, Fail e)
  | Ok _ =>
      let '(w, r) := make_directories (workspace_dir cfg) workspace_subs w in
      match r with
      | Fail e => (g, w, Fail e)
      | Ok _ =>
          if enable_file_logging set then
            let '(w, file) := open_session_log (workspace_dir cfg) w in
            match file with
            | None =>
                (g, w, fail FilesystemError ("enable_file_logging is set but the log file could not be opened " +:+
                                             "under workspace logs/."))
            | Some f => init_session set (fresh_session cfg set (Some f)) g w
            end
          else init_session set (fresh_session cfg set None) g w
      end
  end.

End Init.

(** ** What a session is when [init] returns it *)

Section Ready.
Context {W E : Type} `{EngineTables E} `{EngineStore W E} `{RemoteStarter W} `{Loader W} `{FsHost W} `{Host W} `{LogHost W} `{JsonParser}.
Context (polls : W → list Z) (slab : nat → Z) (cancel : option (W → Z)).
Implicit Types (cfg : Config W) (set : InitSettings W) (s : Session W) (w : W) (t : Tool W) (ts : list (Tool W)).

Definition named (n : string) ts : Prop := n ∈ tool_name <$> ts.

(** [l] is [ts] with tools behind it, whose names are new. *)
Definition extends ts (l : list (Tool W)) : Prop := ∃ more, l = ts ++ more ∧ ∀ n, named n more → ¬ named n ts.

Lemma add_if_missing_extends ts t : extends ts (add_if_missing ts t) ∧ named (tool_name t) (add_if_missing ts t).
Proof using Type.
  unfold add_if_missing. destruct (existsb _ ts) eqn:Ex.
  - split; [exists []; rewrite app_nil_r; split; [done|]; by intros n ?%elem_of_nil|].
    apply existsb_exists in Ex as (e & He%list_elem_of_In & Hn%str_eqb_true). unfold named. rewrite <- Hn. by apply list_elem_of_fmap_2.
  - split; [|unfold named; rewrite fmap_app, elem_of_app; right; by left].
    exists [t]. split; [done|]. intros n Hn%list_elem_of_singleton. subst n. intros (e & Hn & He)%list_elem_of_fmap.
    apply not_true_iff_false in Ex. apply Ex, existsb_exists. exists e. split; [by apply list_elem_of_In|]. apply str_eqb_true. done.
Qed.

Lemma extends_named ts l n : extends ts l → named n ts → named n l.
Proof using Type. intros (more & -> & _) Hn. unfold named. rewrite fmap_app, elem_of_app. by left. Qed.

#[local] Instance extends_preorder : PreOrder extends.
Proof using Type.
  split.
  - intros ts. exists []. rewrite app_nil_r. split; [done|]. by intros n ?%elem_of_nil.
  - intros a b c (m1 & -> & Hm1) (m2 & -> & Hm2). exists (m1 ++ m2). rewrite app_assoc. split; [done|].
    intros n. unfold named in *. rewrite fmap_app, elem_of_app. intros [Hn|Hn]; [by apply Hm1|].
    intros Ha. apply (Hm2 n Hn). rewrite fmap_app, elem_of_app. by left.
Qed.

Lemma add_all_extends new ts : extends ts (foldl add_if_missing ts new) ∧ ∀ n, named n new → named n (foldl add_if_missing ts new).
Proof using Type.
  revert ts. induction new as [|t new IH]; intros ts; cbn [foldl]; [split; [done|]; by intros n ?%elem_of_nil|].
  destruct (add_if_missing_extends ts t) as [Hx Hn]. destruct (IH (add_if_missing ts t)) as [Hx' Hn']. split; [by transitivity (add_if_missing ts t)|].
  intros n [->|?]%elem_of_cons; [by apply (extends_named _ _ _ Hx')|by apply Hn'].
Qed.

(** The tool a name leads to is not changed by the tools that come behind. *)
Lemma extends_first ts l n : extends ts l → named n ts → list_find (λ t, tool_name t = n) l = list_find (λ t, tool_name t = n) ts.
Proof using Type.
  intros (more & -> & _) (t & -> & Ht)%list_elem_of_fmap. destruct (list_find_elem_of (λ t', tool_name t' = tool_name t) ts t Ht eq_refl) as [[i x] Hx].
  rewrite Hx. by apply list_find_app_l.
Qed.

(** The check, as a property of the configuration. *)
Definition config_accepted cfg set : Prop :=
  workspace_dir cfg ≠ "" ∧ 0 < context_window cfg ∧ 0 < max_tokens cfg ∧
  is_finite (engine_temperature (engine_settings set)) = true ∧ SFltb (engine_temperature (engine_settings set)) f32_zero = false ∧
  Forall (λ c, c ∉ shell_metachars) (bytes (workspace_dir cfg)).

Lemma check_config_spec cfg set : is_ok (check_config cfg set) = true ↔ config_accepted cfg set.
Proof using Type.
  unfold check_config, config_accepted. cbn zeta.
  destruct (is_empty (workspace_dir cfg)) eqn:Ew; [apply is_empty_true in Ew; cbn; naive_solver|apply is_empty_false in Ew].
  destruct (Z.leb_spec (context_window cfg) 0); [cbn; split; [done|lia]|]. destruct (Z.leb_spec (max_tokens cfg) 0); [cbn; split; [done|lia]|].
  destruct (is_finite _); cbn [negb orb]; [|cbn; naive_solver]. destruct (SFltb _ _); [cbn; naive_solver|].
  assert (Hm : has_metachar (workspace_dir cfg) = false ↔ Forall (λ c, c ∉ shell_metachars) (bytes (workspace_dir cfg))).
  { unfold has_metachar. rewrite <- not_true_iff_false, existsb_exists, Forall_forall. setoid_rewrite bool_decide_eq_true.
    setoid_rewrite <- list_elem_of_In. naive_solver. }
  destruct (has_metachar _); cbn; naive_solver.
Qed.

(** The names of the tools every session gets unless the host opts out. *)
Definition built_in_names : list string :=
  ["read_file"; "write_file"; "append_file"; "list_dir"; "create_dir"; "delete_path"; "move_path"; "file_info"; "run_command";
   "compress_context"].

(** The size of the arenas: the one configured or, for a context window that is
    an int, eight bytes per token and two megabytes. *)
Definition arena_bytes cfg set (n : Z) : Prop :=
  if 0 <? arena_capacity set then n = arena_capacity set else context_window cfg < 2 ^ 31 → n = 8 * context_window cfg + 2097152.

(** What the other components rely on. *)
Record ready cfg set s : Prop := {
  ready_index : Tools.indexed s;
  ready_host_tools : ∀ n, named n (tools cfg) → tool_by_name s !! n = fst <$> list_find (λ t, tool_name t = n) (tools cfg);
  ready_first_tools : tools cfg `prefix_of` tools (config s);
  ready_built_in : auto_default_tools set = true → ∀ n, n ∈ built_in_names → is_Some (tool_by_name s !! n);
  ready_skills : skills_dir set ≠ "" → is_Some (tool_by_name s !! "use_skill");
  ready_arenas : ∃ n, arena_bytes cfg set n ∧ arena s = Arena_new (slab 0) n ∧
    worker_arenas s =
      (λ i, Arena_new (slab (S i)) n) <$> seq 0 (if supports_parallel s then Z.to_nat (max_parallel_subagents cfg) else 0);
  ready_engine : provider cfg = Engine → is_Some (provider_state s);
  ready_replies : replies_assistant s;
  ready_memory : store cfg = None → memory_state s = Some ∅;
  ready_log : enable_file_logging set = true → is_Some (log_file s)
}.

(** Each stage, with what it changes. *)
Lemma init_provider_spec set s g w g' w' s' :
  init_provider polls cancel set s g w = (g', w', Ok s') → provider_state s = None →
  (provider (config s) = Engine → is_Some (provider_state s')) ∧ replies_assistant s' ∧ ∃ p, s' = set_provider_state s p.
Proof using Type.
  unfold init_provider. destruct (provider (config s)) eqn:Ep.
  - intros [= _ _ <-] Hs. split; [done|]. split; [intros es; by rewrite Hs|]. exists (provider_state s). by destruct s.
  - destruct (init_engine _ _ _ _ _ _) as [[g1 w1] [[es line]|e]] eqn:Ei; [|done]. intros [= _ _ <-] _. split; [by eexists|].
    split; [by eapply init_engine_replies|by eexists].
Qed.

Lemma init_memory_spec set s w w' s' :
  init_memory set s w = (w', Ok s') → (store (config s) = None → memory_state s' = Some ∅) ∧ ∃ m, s' = set_memory_state s m.
Proof using Type.
  unfold init_memory, open_in_memory. destruct (store (config s)); [|intros [= _ <-]; split; [done|by eexists]].
  destruct (store_open set) as [open|]; [|done]. destruct (negb _); [done|]. destruct (open _ w) as [w1 [b|e]]; [|done].
  intros [= _ <-]. split; [done|by eexists].
Qed.

Lemma set_config_tools_same s : set_config_tools s (tools (config s)) = s.
Proof using Type. by destruct s as [[]]. Qed.

(** The tools of a session after [default_init] and what it leaves alone. *)
Definition tools_ready set (ts : list (Tool W)) (s s' : Session W) : Prop :=
  extends ts (tools (config s')) ∧
  (auto_default_tools set = true → ∀ n, n ∈ built_in_names → named n (tools (config s'))) ∧
  ∃ sk, s' = rebuild_tool_index (set_skills (set_config_tools s (tools (config s'))) sk).

Lemma registered_tools set s :
  tools_ready set (tools (config s)) s
    (rebuild_tool_index (if auto_default_tools set then set_config_tools s (foldl add_if_missing (tools (config s)) (built_in_tools (config s) set)) else s)).
Proof using Type.
  destruct (add_all_extends (built_in_tools (config s) set) (tools (config s))) as [Hx Hn]. destruct (auto_default_tools set) eqn:Ea.
  - split; [exact Hx|]. split; [intros _ n Hin; by apply Hn|]. by exists (skills s).
  - split; [cbn; reflexivity|]. split; [congruence|]. exists (skills s). change (tools (config (rebuild_tool_index s))) with (tools (config s)). rewrite set_config_tools_same. by destruct s.
Qed.

Lemma rebuild_again s s1 l sk :
  s1 = rebuild_tool_index (set_skills (set_config_tools s l) sk) →
  ∀ l' sk', rebuild_tool_index (set_config_tools (set_skills s1 sk') l') = rebuild_tool_index (set_skills (set_config_tools s l') sk').
Proof using Type. by intros ->. Qed.

Lemma default_init_spec set s w s' :
  default_init set s w = (s', Ok tt) → tools_ready set (tools (config s)) s s' ∧ (skills_dir set ≠ "" → named "use_skill" (tools (config s'))).
Proof using Type.
  unfold default_init. cbn zeta. pose proof (registered_tools set s) as Hr. set (s1 := rebuild_tool_index _) in Hr |- *. clearbody s1.
  destruct (is_empty (skills_dir set)) eqn:Es; [apply is_empty_true in Es; intros [= <-]; by split|].
  unfold load_skills_dir. destruct (negb _); [done|]. cbn zeta. intros [= <-]. destruct Hr as (Hx & Hb & sk & Hs1).
  destruct (add_if_missing_extends (tools (config s1)) use_skill_tool) as [Hx' Hn]. split; [|intros _; exact Hn]. split; [by etransitivity|].
  split; [intros Ha n Hin; by apply (extends_named _ _ _ Hx'), Hb|]. eexists. exact (rebuild_again _ _ _ _ Hs1 _ _).
Qed.

Lemma registered_name s n : Tools.indexed s → named n (tools (config s)) → is_Some (tool_by_name s !! n).
Proof using Type.
  intros Hi (t & -> & Ht)%list_elem_of_fmap. rewrite (indexed_lookup _ _ Hi), fmap_is_Some. by apply (list_find_elem_of _ _ t).
Qed.

Lemma add_worker_arenas_spec set s :
  worker_arenas s = [] →
  add_worker_arenas slab set s =
    set_worker_arenas s ((λ i, Arena_new (slab (S i)) (arena_size (config s) set)) <$>
      seq 0 (if supports_parallel s then Z.to_nat (max_parallel_subagents (config s)) else 0)).
Proof using Type.
  intros Hw. unfold add_worker_arenas. destruct (supports_parallel s); cbn [andb].
  - destruct (Z.ltb_spec 0 (max_parallel_subagents (config s))); [done|]. rewrite Z2Nat.nonpos by done. rewrite <- Hw at 1. by destruct s.
  - cbn. rewrite <- Hw. by destruct s.
Qed.

Lemma arena_size_bytes cfg set : 0 < context_window cfg → arena_bytes cfg set (arena_size cfg set).
Proof using Type.
  intros Hc. unfold arena_bytes, arena_size. destruct (0 <? arena_capacity set); [done|]. intros Hi.
  rewrite (u64_small (context_window cfg * 8)) by (unfold u64_modulus; lia). rewrite u64_small by (unfold u64_modulus; lia). lia.
Qed.

Lemma init_session_ready cfg set log g w g' w' s' :
  0 < context_window cfg → (enable_file_logging set = true → is_Some log) →
  init_session polls slab cancel set (fresh_session slab cfg set log) g w = (g', w', Ok s') → ready cfg set s'.
Proof using Type.
  intros Hwin Hlog. unfold init_session. destruct (init_provider _ _ _ _ _ _) as [[g1 w1] [s1|]] eqn:E1; [|done].
  apply init_provider_spec in E1 as (He & Hr & p & ->); [|done].
  destruct (init_memory _ _ _) as [w2 [s2|]] eqn:E2; [|done]. apply init_memory_spec in E2 as (Hm & m & ->).
  unfold init_tools. destruct (default_init _ _ _) as [s3 [[]|]] eqn:E3; [|done].
  apply default_init_spec in E3 as [(Hx & Hb & sk & Hs3) Hu]. intros [= _ _ <-].
  rewrite (add_worker_arenas_spec set (set_provider_state (fresh_session slab cfg set log) p) eq_refl) in *. set (ws := _ <$> seq _ _) in *.
  set (l := tools (config s3)) in *. clearbody l. subst s3. cbn in Hx.
  assert (Hi : Tools.indexed (rebuild_tool_index (set_skills (set_config_tools
    (set_memory_state (set_worker_arenas (set_provider_state (fresh_session slab cfg set log) p) ws) m) l) sk))) by apply rebuild_indexed.
  split; [exact Hi| | | | | |exact He|exact Hr|exact Hm|exact Hlog].
  - intros n Hn. rewrite (indexed_lookup _ _ Hi). f_equal. by apply (extends_first _ _ _ Hx).
  - destruct Hx as (more & -> & _). by exists more.
  - intros Ha n Hn. apply (registered_name _ _ Hi). by apply Hb.
  - intros Hs. apply (registered_name _ _ Hi). by apply Hu.
  - exists (arena_size cfg set). split; [by apply arena_size_bytes|]. done.
Qed.

Lemma make_directories_ok dir subs w : (∀ p w, (sys_create_directories p w).2 = None) → (make_directories dir subs w).2 = Ok tt.
Proof using Type.
  intros Hd. revert w. induction subs as [|sub subs IH]; intros w; cbn; [done|].
  pose proof (Hd (path_join dir sub) w) as Hp. destruct (sys_create_directories _ w) as [w1 e]. cbn in Hp. subst e. apply IH.
Qed.


End Ready.

(** ** Sample: a session on an engine in a host process *)

Module InitSample.

#[export] Instance clock : Host ProviderSample.World := {| now_ms w := (w, 0); new_char _ := 4096; absolute_path _ p := Some p |}.

#[export] Instance logs : LogHost ProviderSample.World := {|
  format_utc_now _ _ := "";
  fopen_append _ w := (w, Some 3);
  fwrite_flush _ _ w := w
|}.

Definition registry : Registry := mkRegistry [] [mkPluginRecord "llama" "/m/agent-engine-llama.so" Process].

Definition world : ProviderSample.World := ProviderSample.mkWorld 0 0.

(** The host brings its own read_file. *)
Definition own_tool : Tool ProviderSample.World := mkTool "read_file" "mine" "" (Some (HostCallback (λ _ w, (w, Ok "mine")))) None.

Definition cfg (dir : string) : Config ProviderSample.World :=
  mkConfig Engine "llama" "" "m.gguf" dir None [own_tool] 4096 512 10 4 None None None 0.

Definition settings : InitSettings ProviderSample.World :=
  mkInitSettings ProviderSample.settings 0 true true true "" default_sandbox None true true true.

End InitSample.

#[local] Existing Instances ProviderSample.no_tables ProviderSample.store ProviderSample.loader ProviderSample.starter ProviderSample.fs
  ProviderSample.reader InitSample.clock InitSample.logs.

Definition sample_init (dir : string) : Registry * ProviderSample.World * Result (Session ProviderSample.World) :=
  init (λ _, []) (λ i, 4096 * Z.of_nat i) None (InitSample.cfg dir) InitSample.settings InitSample.registry InitSample.world.

